(* ===== verification/_CoqProject ===== *)
-Q . S2P
Prelude.v
UrUtil.v
DeviceSelector.v
AdapterRegistry.v
LoaderLib.v
PoolConfig.v
SanCommon.v
AsanShadow.v
AsanInterceptor.v
MsanState.v
MsanShadow.v
MsanLayout.v
MsanMemory.v
MsanPoison.v
MsanInterceptor.v
MsanTracking.v
MsanCommands.v
MsanOrder.v
MsanRuns.v
MsanTest.v
MsanLimits.v
MsanBuffer.v
MsanBufferCalls.v
MsanHandles.v
MsanMigration.v
MsanBufferTest.v
MsanBufferLimits.v
Validation.v
PoolManager.v
CommandListCache.v
L0Event.v
EventPool.v
UrHelpers.v
NativeCpuLaunch.v
NativeCpuThreadPool.v
NativeCpuQueue.v
NativeCpuKernel.v
NativeCpuMem.v
CudaFill.v
CudaLaunch.v
CudaKernel.v
CudaQueue.v
CudaOrder.v
CudaWait.v
CudaTestDriver.v
CudaCommand.v
CudaCalls.v
CudaSync.v
CudaSafety.v
CudaHistory.v
Effects.v
L0Buffer.v
L0Coherence.v
L0Mapping.v
L0Runs.v
L0Returns.v
L0Limits.v
CudaMemory.v
CudaCoherence.v
CudaMigration.v
CudaBuffers.v
CudaObjects.v
CudaMapping.v
CudaRuns.v
CudaReturns.v
CudaMemoryTest.v
CudaMemoryLimits.v
