(* ===== verification/Prelude.v ===== *)
(** * Verification of the Unified Runtime

    This library models the hand-written core of the Unified Runtime: the
    loader and what it shares with the adapters, the address sanitizer, memory
    sanitizer and validation layers, the pools, caches, events and buffers of the Level Zero v2
    adapter, the native CPU adapter, and the streams, events, launches, kernel
    arguments and buffers of the CUDA adapter.  Definitions are translated from the
    C++ under src/source and carry its names; they are executable, so the
    witnesses and examples evaluate them.

    ** How the program is put together

    An application calls the API of the loader library.  The loader reads its
    configuration and the environment, starts the layers, finds the adapter
    libraries and forwards calls to them; a layer (validation, sanitizer) sees
    every call before the next one.  Device selection is done by the loader.
    An adapter implements the calls: the Level Zero v2 and the CUDA adapter on a
    driver, the native CPU adapter on a thread pool of its own.

    ** The files

    - [Prelude]: result codes, the [outcome] monad (a call returns, throws, or is
      undefined), 64- and 32-bit wrap-around, C++ strings and streams, and the
      lemmas and tactics all files share.
    - [UrUtil] (common/ur_util.hpp): environment parsing, reference-counted
      singletons, property lists.
    - [DeviceSelector] (loader/ur_lib.cpp): [urDeviceGetSelected].
    - [AdapterRegistry] (loader/ur_adapter_registry.hpp, ur_loader.cpp): which
      adapter libraries are tried, and in which order.
    - [LoaderLib] (loader/ur_lib.cpp): loader configuration, layers,
      initialisation and tear-down.
    - [PoolConfig] (common/umf_pools/disjoint_pool_config_parser.cpp): the
      parser of the USM pool settings.
    - [PoolManager] (common/ur_pool_manager.hpp): pool descriptors, their hash
      table and the enumeration of devices and sub-devices.
    - [SanCommon], [AsanShadow], [AsanInterceptor] (loader/layers/sanitizer):
      arithmetic and driver calls; shadow memory, behind the class [Shadow]
      with its laws [ShadowLaws] and two instances; allocation, quarantine,
      release and reports against that class.
    - [MsanState], [MsanShadow], [MsanInterceptor], [MsanBuffer] (loader/layers/
      sanitizer/msan: msan_shadow, msan_interceptor, msan_ddi, msan_buffer; and
      sanitizer_common): the objects of the memory sanitizer, its shadow memories,
      contexts, devices, USM and its commands, and buffers.
    - [MsanLayout]: where applications and shadow lie; [MsanMemory]: the logic
      [mruns] of sanitizer calls, which queues may have commands left ([busy]), and
      what driver calls do to memory: the class [DeviceMemory] has the laws, which say
      nothing of commands that may overlap; [SerialMemory] is memory that takes each
      call in turn, on which the lemmas work and which agrees with the driver's where
      [busy] knows that the commands run one after the other ([serial_ordered]).
      [MsanPoison]: what writing shadow leaves; [MsanTracking]: the specification, an
      application's view ([tracker]) of which bytes are initialised; [MsanCommands],
      [MsanRuns]: every call keeps it; [MsanOrder]: runs whose commands, the layer's
      own with them, do run one after the other; [MsanTest]: a driver that meets the
      laws, and witnesses; [MsanLimits]: what goes wrong.  [MsanBufferCalls],
      [MsanHandles], [MsanMigration], [MsanBufferTest], [MsanBufferLimits]: the same for
      buffers: the invariant, handles, commands on resident buffers, and what a change
      of device does to memory.
    - [Validation] (loader/layers/validation): leak checking and bounds checks.
    - [CommandListCache], [L0Event], [EventPool] (adapters/level_zero/v2): cached
      command lists; event objects and timestamps; event providers (the class
      [EventProvider], with its laws and two instances), pools and their cache,
      and the runs of a program over them.
    - [UrHelpers] (ur/ur.hpp): the rounding of work-group sizes.
    - [NativeCpuLaunch], [NativeCpuThreadPool], [NativeCpuQueue] (adapters/
      native_cpu/enqueue.cpp, threadpool.hpp, event.cpp, queue.hpp): how a launch
      is split, the worker threads as a state machine, and their composition
      with events and queues.
    - [NativeCpuKernel], [NativeCpuMem] (kernel.hpp, kernel.cpp; the memory
      commands of enqueue.cpp, context.hpp, usm.cpp): kernel arguments, local
      memory and ownership; copies, fills and USM allocation.
    - [CudaFill], [CudaLaunch], [CudaKernel] (adapters/cuda/enqueue.cpp,
      kernel.hpp, kernel.cpp): fills with patterns of any size, the parameters of
      a launch, the storage of kernel arguments.
    - [CudaQueue] (queue.hpp, queue.cpp, event.hpp, event.cpp, enqueue.cpp): pools
      of streams, events, wait lists, barriers, commands, finishing and releasing,
      in a monad with results, exceptions, the end of the process and undefined
      behaviour, over a driver (the class [CudaDriver], with laws).  [history] is
      the one part of its state that the code has not: which commands and
      barriers there were.
    - [CudaOrder], [CudaWait], [CudaCommand], [CudaCalls], [CudaSync]: the
      invariant [Inv] of these states and that each operation keeps it, from
      single driver calls up to barriers and finishes.
    - [CudaSafety]: the calls as steps of a system and what holds in every state
      they reach; [CudaHistory]: what each call adds to the history, and what
      a barrier means for later calls; [CudaTestDriver]: a driver and a sort
      that satisfy the laws, for the witnesses.

    - [Effects]: the monad of calls that change a state, with the logic [runs] of what
      they do and [no_throw], and memory as blocks of bytes with pointers; both kinds
      of buffers are built on it.
    - [L0Buffer] (adapters/level_zero/v2: memory.hpp, memory.cpp,
      command_list_manager.cpp, queue_immediate_in_order.cpp): buffers on
      integrated and discrete devices, sub-buffers, their mappings, and the
      commands on them, appended to an in-order list and run later, over a driver
      and a pool (the class [Ze], with its laws [ZeLaws]).
    - [L0Coherence], [L0Mapping], [L0Runs]: the invariant [Coh] of states with
      discrete devices, that each call keeps it and what each does to the contents
      that the buffers will have ([holds]); the calls as steps of a system and
      their [contract]s.  [L0Returns]: calls whose arguments pass their checks
      return; [L0Limits]: runs in which the code does not do what it should.
    - [CudaMemory] (adapters/cuda: memory.hpp, memory.cpp, the buffer commands of
      enqueue.cpp): buffers with an allocation on each device, the queue that wrote
      last, migration, sub-buffers, mappings and references, over a driver (the class
      [Cu], with its laws [CuLaws]).  The calls of the driver around the work of a
      command, which [CudaQueue] models, are [begin_work] and [end_work].
    - [CudaCoherence]: the invariant [Coh] of these states, what a buffer [holds], and
      the [frame] of what a call leaves alone.  [CudaMigration]: allocation, the last
      writer with the references of queues ([handed]), migration.  [CudaBuffers],
      [CudaObjects], [CudaMapping]: what each command, creation and release, and each
      mapping does.  [CudaRuns]: the calls as steps of a system and their [contract]s.
      [CudaReturns]: programs on several devices return with the right bytes.
      [CudaMemoryTest]: a driver that satisfies the laws, and witnesses;
      [CudaMemoryLimits]: runs in which the code does not do what it should.

    ** What the theorems show

    - Round trips and parsers: printed parameter maps and complete pool settings
      are read back ([UrUtil.getenv_to_map_roundtrip],
      [PoolConfig.parse_complete_config]).
    - Selection and loading meet declarative specifications
      ([DeviceSelector.selection_spec], [AdapterRegistry.discovery_search_order]), and the loader's life cycle is
      balanced ([LoaderLib.loader_lifecycle]).
    - The sanitizer's shadow says accessible exactly for live user memory
      ([AsanInterceptor.shadow_encodes_chunk]); in every reachable state, with any
      number of live chunks and also after calls that failed, a release frees distinct
      released chunks and no live one, and the bookkeeping agrees afterwards
      ([AsanInterceptor.reachable_release_sound]).
    - On devices of one type the memory sanitizer's shadow follows what an application
      writes, also when the driver refuses calls, if the application uses one in-order
      queue and waits for it before it allocates device memory or loads globals
      ([MsanRuns.shadow_tracks_writes]); its calls end, are defined,
      and fail only when the driver refuses something ([MsanRuns.msan_calls_defined]);
      its layout separates applications and shadow ([MsanLayout.shadow_layout]).  Its
      buffers stay well formed and keep their handles ([MsanHandles.buffers_stay_well_formed],
      [handle_stable]); fills, writes and copies of resident buffers keep their shadow up
      to date ([resident_commands_track]); when a buffer changes device, for the first
      time or again, its contents move and its shadow does not
      ([MsanMigration.migration_moves_contents]).
    - Handing out: in every run no event, command list or pool is given to two
      users or to one with other settings ([EventPool.event_handed_out_once],
      [CommandListCache.cached_lists_sound], [PoolManager.getPool_after_add_all]).
    - Concurrency: for any number of threads and any interleaving the pool runs
      every task once, loses no wake-up and can always be shut down
      ([NativeCpuThreadPool.destroyed_pool_ran_all], [no_lost_wakeup],
      [destructor_terminates]); every way of splitting a launch covers the same
      work-items as the plain loops ([NativeCpuLaunch.every_item_runs_once]), and
      a launch whose event is done has run each of them exactly once
      ([NativeCpuQueue.done_launch_ran_all]).
    - Ordering on the CUDA adapter: commands of a queue go to many streams, a wait
      list is served by its newest event per stream, a barrier by flags and one
      event, a finish by the streams used since the last one.  In every reachable
      state commands start after their wait lists and the barriers before them
      ([CudaSafety.commands_ordered], [CudaHistory.barrier_orders_later]), calls
      that wait have waited for everything ([CudaSafety.finish_waits_for_all],
      [event_wait_waits_for_all]), and no call is undefined ([calls_defined]) but a
      barrier on an event made from a native one ([barrier_asks_null_queue]).
    - Discrete buffers of the Level Zero v2 adapter behave like memory although commands
      run later and the memory is made on first use and reached through parents, peers
      and mappings, for calls that meet the contracts of [L0Runs]:
      [L0Runs.buffers_keep_contracts], and between devices that all reach each other
      [L0Returns.buffer_calls_return], [L0Returns.write_then_read].  The contracts leave out
      what goes wrong ([L0Limits]): sums of offset and size that wrap, and copies within one
      buffer under locks.
    - Buffers of the CUDA adapter behave like memory although each device has its own
      copy: in every reachable state a read gives the copy of the device that wrote last,
      and a launch works on it where the buffer is [CudaMigration.ready], which leaves out
      [CudaMemoryLimits.copied_again_at_first_launch] ([CudaRuns.device_copies_keep_contracts],
      [CudaReturns.kernels_across_devices]), and the queue that a buffer remembers is
      alive ([CudaRuns.last_writer_is_alive]).
    - Memory: kernel arguments refine a map of last values, local memory is cut
      into disjoint slices, copies and fills change exactly the bytes they
      should, a USM allocation is aligned and undone by its release; a launch
      covers its range within the limits of the device
      ([CudaLaunch.launch_covers_range]).
    - Where the code does something else than intended, the theorem says what it
      does, for instance [NativeCpuKernel.kernel_release_leaks],
      [NativeCpuMem.usm_fill_never_ends] or [LoaderLib.bad_layers_env_deadlocks].

    ** Fuel and bounds

    Fuel only bounds loops whose end depends on data.  [UrUtil]'s descriptor walk
    needs one unit per node; [EventPool.provider_normal_allocate_fuel] two, since
    its self-call happens at most once; a launch more than every range of its
    loops ([NativeCpuLaunch.enough]), with [None] for a loop whose 32-bit counter
    never reaches its bound; [NativeCpuMem.fill_loop] the number of patterns;
    [NativeCpuQueue.finish] one unit per event of the queue and one to find it
    empty, which the number of events ever made provides; the search for a stream
    of [CudaQueue.getNextComputeStream] one unit per delayed stream and one; a
    method of a sub-buffer ([L0Buffer.getDevicePtr] and the like) one unit more
    than its handle, since parents are older ([L0Coherence.root_method]);
    [CudaMemory.urMemRelease] one unit for the object and one for its parent, which
    has none of its own; a loop over the pages of a shadow range one unit per page
    ([MsanShadow.pages_fuel], enough by [MsanPoison.map_shadow_pages_runs]); a handle of the
    memory sanitizer's sub-buffers as many units as its number, since parents are older
    ([MsanHandles.getHandle_fuel_eq]).
    The 32-bit stream counters of a CUDA queue are assumed not to wrap
    ([CudaOrder.room]); what breaks when they do is a finding.  The theorems above
    prove that so much is enough; no result depends on running out.

    ** Parameters

    Code outside src/ is a parameter with its documented behaviour as a named
    hypothesis: drivers, [dlopen], the file system, [std::hash], [std::sort] on
    equal keys ([CudaWait.SortsEvents], with an instance), the CUDA driver
    ([CudaQueue.CudaDriverLaws], with an instance), the Level Zero driver and the
    USM pool ([L0Buffer.ZeLaws], with an instance), the CUDA driver's memory
    ([CudaMemory.CuLaws], with an instance), [aligned_alloc] ([NativeCpuMem.malloc_spec], with an instance),
    device kernels, the environment, and for the memory sanitizer the effect on memory of
    commands that run one after the other, among them those of one in-order queue
    ([MsanMemory.DeviceMemory], with [replay] as an instance) and the one
    type that all devices have ([MsanTracking.OneType], with an instance).  The memsets of a
    fill work at aligned addresses only ([CudaFill.memset_spec], [CudaMemory.CuLaws]).

    ** Not modelled, and why

    Generated code (API front end, dispatch tables, printing, tracing, the mock
    adapter and the parameter checks of the validation layer) forwards calls.
    The OpenCL and Level Zero v1 adapters and the rest of the v2 adapter (kernels,
    images, region copies, native handles) mostly call their drivers; the
    batching of v1 is not modelled.  Of the v2 buffers the reachable states
    have one queue and discrete devices; integrated ones, references and
    releases are definitions with examples.  The queues and events
    of the HIP adapter are the CUDA adapter's code again, and its buffers nearly so.
    Of the CUDA adapter, images, copies of rectangles, native commands, programs,
    contexts and queries are calls of the driver and are not modelled; a finish
    that fails is left out of the reachable states, as are releases of a queue's
    last reference while it is in use.  Its buffers take effect in the order of the
    calls, which is the order of their events ([CudaSafety.commands_ordered]);
    sub-buffers, pinned buffers and copies between buffers are definitions with
    examples, since they do not keep the bytes ([CudaMemoryLimits]).  The memory sanitizer's reports, options,
    maps of programs and kernels and kernel arguments, the ASan buffers and kernel
    preparation, the native CPU buffer objects and program metadata are left out; what
    the memory sanitizer's buffers do to shadow is stated for buffers that stay on one
    device, the order of commands on several queues of an application is not modelled, and
    a context whose set-up fails ends a run ([MsanLimits.second_context_without_shadow]).
    Left out are also clocks, logging, stack traces and everything that only prints.  Locks appear
    as the atomicity of steps, except in the thread pool, where the mutex and the
    condition variable are what is verified, and where two buffers are locked at
    once ([L0Buffer.scoped_lock]). *)
From stdpp Require Export base tactics list numbers option strings gmap sorting.
From Stdlib Require Export Ascii String ZArith ZifyNat Lia Bool.
From stdpp Require Export base strings.

#[global] Open Scope Z_scope.

#[global] Arguments Ascii.eqb : simpl never.
#[global] Arguments Nat.ltb : simpl never.

(** ** Result codes of the API ([ur_result_t] of include/ur_api.h) *)

Inductive ur_result_t : Set :=
| UR_RESULT_SUCCESS
| UR_RESULT_ERROR_INVALID_OPERATION
| UR_RESULT_ERROR_INVALID_QUEUE_PROPERTIES
| UR_RESULT_ERROR_INVALID_QUEUE
| UR_RESULT_ERROR_INVALID_VALUE
| UR_RESULT_ERROR_INVALID_CONTEXT
| UR_RESULT_ERROR_INVALID_PLATFORM
| UR_RESULT_ERROR_INVALID_BINARY
| UR_RESULT_ERROR_INVALID_PROGRAM
| UR_RESULT_ERROR_INVALID_SAMPLER
| UR_RESULT_ERROR_INVALID_BUFFER_SIZE
| UR_RESULT_ERROR_INVALID_MEM_OBJECT
| UR_RESULT_ERROR_INVALID_EVENT
| UR_RESULT_ERROR_INVALID_EVENT_WAIT_LIST
| UR_RESULT_ERROR_MISALIGNED_SUB_BUFFER_OFFSET
| UR_RESULT_ERROR_INVALID_WORK_GROUP_SIZE
| UR_RESULT_ERROR_COMPILER_NOT_AVAILABLE
| UR_RESULT_ERROR_PROFILING_INFO_NOT_AVAILABLE
| UR_RESULT_ERROR_DEVICE_NOT_FOUND
| UR_RESULT_ERROR_INVALID_DEVICE
| UR_RESULT_ERROR_DEVICE_LOST
| UR_RESULT_ERROR_DEVICE_REQUIRES_RESET
| UR_RESULT_ERROR_DEVICE_IN_LOW_POWER_STATE
| UR_RESULT_ERROR_DEVICE_PARTITION_FAILED
| UR_RESULT_ERROR_INVALID_DEVICE_PARTITION_COUNT
| UR_RESULT_ERROR_INVALID_WORK_ITEM_SIZE
| UR_RESULT_ERROR_INVALID_WORK_DIMENSION
| UR_RESULT_ERROR_INVALID_KERNEL_ARGS
| UR_RESULT_ERROR_INVALID_KERNEL
| UR_RESULT_ERROR_INVALID_KERNEL_NAME
| UR_RESULT_ERROR_INVALID_KERNEL_ARGUMENT_INDEX
| UR_RESULT_ERROR_INVALID_KERNEL_ARGUMENT_SIZE
| UR_RESULT_ERROR_INVALID_KERNEL_ATTRIBUTE_VALUE
| UR_RESULT_ERROR_INVALID_IMAGE_SIZE
| UR_RESULT_ERROR_INVALID_IMAGE_FORMAT_DESCRIPTOR
| UR_RESULT_ERROR_MEM_OBJECT_ALLOCATION_FAILURE
| UR_RESULT_ERROR_INVALID_PROGRAM_EXECUTABLE
| UR_RESULT_ERROR_UNINITIALIZED
| UR_RESULT_ERROR_OUT_OF_HOST_MEMORY
| UR_RESULT_ERROR_OUT_OF_DEVICE_MEMORY
| UR_RESULT_ERROR_OUT_OF_RESOURCES
| UR_RESULT_ERROR_PROGRAM_BUILD_FAILURE
| UR_RESULT_ERROR_PROGRAM_LINK_FAILURE
| UR_RESULT_ERROR_UNSUPPORTED_VERSION
| UR_RESULT_ERROR_UNSUPPORTED_FEATURE
| UR_RESULT_ERROR_INVALID_ARGUMENT
| UR_RESULT_ERROR_INVALID_NULL_HANDLE
| UR_RESULT_ERROR_HANDLE_OBJECT_IN_USE
| UR_RESULT_ERROR_INVALID_NULL_POINTER
| UR_RESULT_ERROR_INVALID_SIZE
| UR_RESULT_ERROR_UNSUPPORTED_SIZE
| UR_RESULT_ERROR_UNSUPPORTED_ALIGNMENT
| UR_RESULT_ERROR_INVALID_SYNCHRONIZATION_OBJECT
| UR_RESULT_ERROR_INVALID_ENUMERATION
| UR_RESULT_ERROR_UNSUPPORTED_ENUMERATION
| UR_RESULT_ERROR_UNSUPPORTED_IMAGE_FORMAT
| UR_RESULT_ERROR_INVALID_NATIVE_BINARY
| UR_RESULT_ERROR_INVALID_GLOBAL_NAME
| UR_RESULT_ERROR_FUNCTION_ADDRESS_NOT_AVAILABLE
| UR_RESULT_ERROR_INVALID_GROUP_SIZE_DIMENSION
| UR_RESULT_ERROR_INVALID_GLOBAL_WIDTH_DIMENSION
| UR_RESULT_ERROR_PROGRAM_UNLINKED
| UR_RESULT_ERROR_OVERLAPPING_REGIONS
| UR_RESULT_ERROR_INVALID_HOST_PTR
| UR_RESULT_ERROR_INVALID_USM_SIZE
| UR_RESULT_ERROR_OBJECT_ALLOCATION_FAILURE
| UR_RESULT_ERROR_ADAPTER_SPECIFIC
| UR_RESULT_ERROR_LAYER_NOT_PRESENT
| UR_RESULT_ERROR_IN_EVENT_LIST_EXEC_STATUS
| UR_RESULT_ERROR_DEVICE_NOT_AVAILABLE
| UR_RESULT_ERROR_INVALID_SPEC_ID
| UR_RESULT_ERROR_INVALID_COMMAND_BUFFER_EXP
| UR_RESULT_ERROR_INVALID_COMMAND_BUFFER_SYNC_POINT_EXP
| UR_RESULT_ERROR_INVALID_COMMAND_BUFFER_SYNC_POINT_WAIT_LIST_EXP
| UR_RESULT_ERROR_INVALID_COMMAND_BUFFER_COMMAND_HANDLE_EXP
| UR_RESULT_ERROR_UNKNOWN
| UR_RESULT_FORCE_UINT32.

Definition ur_result_code (r : ur_result_t) : Z :=
  match r with
  | UR_RESULT_SUCCESS => 0
  | UR_RESULT_ERROR_INVALID_OPERATION => 1
  | UR_RESULT_ERROR_INVALID_QUEUE_PROPERTIES => 2
  | UR_RESULT_ERROR_INVALID_QUEUE => 3
  | UR_RESULT_ERROR_INVALID_VALUE => 4
  | UR_RESULT_ERROR_INVALID_CONTEXT => 5
  | UR_RESULT_ERROR_INVALID_PLATFORM => 6
  | UR_RESULT_ERROR_INVALID_BINARY => 7
  | UR_RESULT_ERROR_INVALID_PROGRAM => 8
  | UR_RESULT_ERROR_INVALID_SAMPLER => 9
  | UR_RESULT_ERROR_INVALID_BUFFER_SIZE => 10
  | UR_RESULT_ERROR_INVALID_MEM_OBJECT => 11
  | UR_RESULT_ERROR_INVALID_EVENT => 12
  | UR_RESULT_ERROR_INVALID_EVENT_WAIT_LIST => 13
  | UR_RESULT_ERROR_MISALIGNED_SUB_BUFFER_OFFSET => 14
  | UR_RESULT_ERROR_INVALID_WORK_GROUP_SIZE => 15
  | UR_RESULT_ERROR_COMPILER_NOT_AVAILABLE => 16
  | UR_RESULT_ERROR_PROFILING_INFO_NOT_AVAILABLE => 17
  | UR_RESULT_ERROR_DEVICE_NOT_FOUND => 18
  | UR_RESULT_ERROR_INVALID_DEVICE => 19
  | UR_RESULT_ERROR_DEVICE_LOST => 20
  | UR_RESULT_ERROR_DEVICE_REQUIRES_RESET => 21
  | UR_RESULT_ERROR_DEVICE_IN_LOW_POWER_STATE => 22
  | UR_RESULT_ERROR_DEVICE_PARTITION_FAILED => 23
  | UR_RESULT_ERROR_INVALID_DEVICE_PARTITION_COUNT => 24
  | UR_RESULT_ERROR_INVALID_WORK_ITEM_SIZE => 25
  | UR_RESULT_ERROR_INVALID_WORK_DIMENSION => 26
  | UR_RESULT_ERROR_INVALID_KERNEL_ARGS => 27
  | UR_RESULT_ERROR_INVALID_KERNEL => 28
  | UR_RESULT_ERROR_INVALID_KERNEL_NAME => 29
  | UR_RESULT_ERROR_INVALID_KERNEL_ARGUMENT_INDEX => 30
  | UR_RESULT_ERROR_INVALID_KERNEL_ARGUMENT_SIZE => 31
  | UR_RESULT_ERROR_INVALID_KERNEL_ATTRIBUTE_VALUE => 32
  | UR_RESULT_ERROR_INVALID_IMAGE_SIZE => 33
  | UR_RESULT_ERROR_INVALID_IMAGE_FORMAT_DESCRIPTOR => 34
  | UR_RESULT_ERROR_MEM_OBJECT_ALLOCATION_FAILURE => 35
  | UR_RESULT_ERROR_INVALID_PROGRAM_EXECUTABLE => 36
  | UR_RESULT_ERROR_UNINITIALIZED => 37
  | UR_RESULT_ERROR_OUT_OF_HOST_MEMORY => 38
  | UR_RESULT_ERROR_OUT_OF_DEVICE_MEMORY => 39
  | UR_RESULT_ERROR_OUT_OF_RESOURCES => 40
  | UR_RESULT_ERROR_PROGRAM_BUILD_FAILURE => 41
  | UR_RESULT_ERROR_PROGRAM_LINK_FAILURE => 42
  | UR_RESULT_ERROR_UNSUPPORTED_VERSION => 43
  | UR_RESULT_ERROR_UNSUPPORTED_FEATURE => 44
  | UR_RESULT_ERROR_INVALID_ARGUMENT => 45
  | UR_RESULT_ERROR_INVALID_NULL_HANDLE => 46
  | UR_RESULT_ERROR_HANDLE_OBJECT_IN_USE => 47
  | UR_RESULT_ERROR_INVALID_NULL_POINTER => 48
  | UR_RESULT_ERROR_INVALID_SIZE => 49
  | UR_RESULT_ERROR_UNSUPPORTED_SIZE => 50
  | UR_RESULT_ERROR_UNSUPPORTED_ALIGNMENT => 51
  | UR_RESULT_ERROR_INVALID_SYNCHRONIZATION_OBJECT => 52
  | UR_RESULT_ERROR_INVALID_ENUMERATION => 53
  | UR_RESULT_ERROR_UNSUPPORTED_ENUMERATION => 54
  | UR_RESULT_ERROR_UNSUPPORTED_IMAGE_FORMAT => 55
  | UR_RESULT_ERROR_INVALID_NATIVE_BINARY => 56
  | UR_RESULT_ERROR_INVALID_GLOBAL_NAME => 57
  | UR_RESULT_ERROR_FUNCTION_ADDRESS_NOT_AVAILABLE => 58
  | UR_RESULT_ERROR_INVALID_GROUP_SIZE_DIMENSION => 59
  | UR_RESULT_ERROR_INVALID_GLOBAL_WIDTH_DIMENSION => 60
  | UR_RESULT_ERROR_PROGRAM_UNLINKED => 61
  | UR_RESULT_ERROR_OVERLAPPING_REGIONS => 62
  | UR_RESULT_ERROR_INVALID_HOST_PTR => 63
  | UR_RESULT_ERROR_INVALID_USM_SIZE => 64
  | UR_RESULT_ERROR_OBJECT_ALLOCATION_FAILURE => 65
  | UR_RESULT_ERROR_ADAPTER_SPECIFIC => 66
  | UR_RESULT_ERROR_LAYER_NOT_PRESENT => 67
  | UR_RESULT_ERROR_IN_EVENT_LIST_EXEC_STATUS => 68
  | UR_RESULT_ERROR_DEVICE_NOT_AVAILABLE => 69
  | UR_RESULT_ERROR_INVALID_SPEC_ID => 70
  | UR_RESULT_ERROR_INVALID_COMMAND_BUFFER_EXP => 4096
  | UR_RESULT_ERROR_INVALID_COMMAND_BUFFER_SYNC_POINT_EXP => 4097
  | UR_RESULT_ERROR_INVALID_COMMAND_BUFFER_SYNC_POINT_WAIT_LIST_EXP => 4098
  | UR_RESULT_ERROR_INVALID_COMMAND_BUFFER_COMMAND_HANDLE_EXP => 4099
  | UR_RESULT_ERROR_UNKNOWN => 2147483646
  | UR_RESULT_FORCE_UINT32 => 2147483647
  end.

#[global] Instance ur_result_t_eq_dec : EqDecision ur_result_t.
Proof. solve_decision. Defined.

(** The C idiom [if (!Result)]: true exactly when the numeric code is zero. *)
Definition ur_result_is_zero (r : ur_result_t) : bool := ur_result_code r =? 0.

(** ** Outcomes of C++ code

    A call returns a value, throws, or has undefined behaviour. *)

Inductive exn : Set :=
| Exn_invalid_argument
| Exn_out_of_range
| Exn_bad_alloc
| Exn_ur (r : ur_result_t)
| Exn_other.

Inductive outcome (A : Type) : Type :=
| Ret (a : A)
| Throw (e : exn)
| Undef.
Arguments Ret {A} a.
Arguments Throw {A} e.
Arguments Undef {A}.

#[global] Instance exn_eq_dec : EqDecision exn.
Proof. solve_decision. Defined.
#[global] Instance outcome_eq_dec {A} `{EqDecision A} : EqDecision (outcome A).
Proof. solve_decision. Defined.

#[global] Instance outcome_ret : MRet outcome := @Ret.
#[global] Instance outcome_bind : MBind outcome := λ A B f m,
  match m with Ret a => f a | Throw e => Throw e | Undef => Undef end.
#[global] Instance outcome_fmap : FMap outcome := λ A B f m,
  match m with Ret a => Ret (f a) | Throw e => Throw e | Undef => Undef end.

(** ** Machine integers

    Unsigned values are [Z]s in range; every operation that can leave the
    range is wrapped with these functions. *)
Definition w64 (z : Z) : Z := z mod 2 ^ 64.
Definition w32 (z : Z) : Z := z mod 2 ^ 32.
Definition SIZE_MAX : Z := 2 ^ 64 - 1.
Definition INT_MAX : Z := 2 ^ 31 - 1.

(** ** C++ strings *)

(** [std::tolower] in the C locale. *)
Definition tolower (c : ascii) : ascii :=
  let n := Ascii.N_of_ascii c in
  if ((65 <=? n) && (n <=? 90))%N then Ascii.ascii_of_N (n + 32) else c.

Definition is_digit (c : ascii) : bool :=
  let n := Ascii.N_of_ascii c in ((48 <=? n) && (n <=? 57))%N.

Definition digit_val (c : ascii) : Z := Z.of_N (Ascii.N_of_ascii c) - 48.

Fixpoint string_map (f : ascii → ascii) (s : string) : string :=
  match s with
  | EmptyString => EmptyString
  | String c s' => String (f c) (string_map f s')
  end.

Definition string_lower : string → string := string_map tolower.

Fixpoint string_forallb (p : ascii → bool) (s : string) : bool :=
  match s with
  | EmptyString => true
  | String c s' => p c && string_forallb p s'
  end.

(** [s.find(c) != npos]. *)
Definition has_char (c : ascii) (s : string) : bool :=
  negb (string_forallb (λ d, negb (Ascii.eqb c d)) s).

(** [s.find(c)]; [None] is [npos]. *)
Fixpoint find_char (c : ascii) (s : string) : option nat :=
  match s with
  | EmptyString => None
  | String d s' =>
      if Ascii.eqb c d then Some 0%nat else S <$> find_char c s'
  end.

(** [s.rfind(c)]. *)
Fixpoint rfind_char (c : ascii) (s : string) : option nat :=
  match s with
  | EmptyString => None
  | String d s' =>
      match rfind_char c s' with
      | Some n => Some (S n)
      | None => if Ascii.eqb c d then Some 0%nat else None
      end
  end.

(** [std::count(s.begin(), s.end(), c)]. *)
Fixpoint count_char (c : ascii) (s : string) : nat :=
  match s with
  | EmptyString => 0
  | String d s' => (if Ascii.eqb c d then 1 else 0) + count_char c s'
  end.

Fixpoint string_drop (n : nat) (s : string) : string :=
  match n, s with
  | O, _ => s
  | S n', String _ s' => string_drop n' s'
  | S _, EmptyString => EmptyString
  end.

Fixpoint string_take (n : nat) (s : string) : string :=
  match n, s with
  | S n', String c s' => String c (string_take n' s')
  | _, _ => EmptyString
  end.

(** [s.substr(pos, n)] for [pos <= s.size()]; [n = None] is [npos]. *)
Definition substr (pos : nat) (n : option nat) (s : string) : string :=
  let t := string_drop pos s in
  match n with Some k => string_take k t | None => t end.

(** [s.front()] and [s.back()]; [None] where the call is undefined. *)
Definition string_front (s : string) : option ascii :=
  match s with EmptyString => None | String c _ => Some c end.

Fixpoint string_back (s : string) : option ascii :=
  match s with
  | EmptyString => None
  | String c EmptyString => Some c
  | String _ s' => string_back s'
  end.

(** [s.pop_back()] on a non-empty string. *)
Fixpoint string_pop_back (s : string) : string :=
  match s with
  | EmptyString => EmptyString
  | String c EmptyString => EmptyString
  | String c s' => String c (string_pop_back s')
  end.

Fixpoint is_prefix (p s : string) : bool :=
  match p, s with
  | EmptyString, _ => true
  | String a p', String b s' => Ascii.eqb a b && is_prefix p' s'
  | String _ _, EmptyString => false
  end.

(** [s.find(p) != npos] for a string [p]. *)
Fixpoint has_substring (p s : string) : bool :=
  is_prefix p s ||
  match s with EmptyString => false | String _ s' => has_substring p s' end.

(** The value of a string of decimal digits. *)
Fixpoint digits_val (acc : Z) (s : string) : Z :=
  match s with
  | EmptyString => acc
  | String c s' => digits_val (acc * 10 + digit_val c) s'
  end.

Definition all_digits (s : string) : bool := string_forallb is_digit s.

(** [std::stoul] and [std::stoi] on a string that holds only digits. *)
Definition stoul_digits (s : string) : outcome Z :=
  if decide (s = EmptyString) then Throw Exn_invalid_argument
  else let v := digits_val 0 s in
       if v <=? SIZE_MAX then Ret v else Throw Exn_out_of_range.

Definition stoi_digits (s : string) : outcome Z :=
  if decide (s = EmptyString) then Throw Exn_invalid_argument
  else let v := digits_val 0 s in
       if v <=? INT_MAX then Ret v else Throw Exn_out_of_range.

(** ** Streams: [std::getline(ss, tok, d)] *)

Fixpoint getline_split (d : ascii) (s : string) : string * string :=
  match s with
  | EmptyString => (EmptyString, EmptyString)
  | String c s' =>
      if Ascii.eqb c d then (EmptyString, s')
      else let '(t, r) := getline_split d s' in (String c t, r)
  end.

(** One call: fails on an exhausted stream, else the token and the rest. *)
Definition getline (d : ascii) (s : string) : option (string * string) :=
  match s with EmptyString => None | _ => Some (getline_split d s) end.

(** All tokens [while (std::getline(ss, tok, d))] sees, in order. *)
Fixpoint getlines (d : ascii) (s : string) : list string :=
  match s with
  | EmptyString => []
  | String c s' =>
      if Ascii.eqb c d then EmptyString :: getlines d s'
      else match getlines d s' with
           | [] => [String c EmptyString]
           | t :: ts => String c t :: ts
           end
  end.

(** ** [std::map<std::string, V>]: an association list sorted by key *)

Definition str_ltb (a b : string) : bool :=
  match String.compare a b with Lt => true | _ => false end.

Fixpoint smap_find {V} (k : string) (m : list (string * V)) : option V :=
  match m with
  | [] => None
  | (k', v) :: m' => if decide (k = k') then Some v else smap_find k m'
  end.

(** [m[k] = v]. *)
Fixpoint smap_set {V} (k : string) (v : V) (m : list (string * V))
  : list (string * V) :=
  match m with
  | [] => [(k, v)]
  | (k', v') :: m' =>
      if decide (k = k') then (k, v) :: m'
      else if str_ltb k k' then (k, v) :: (k', v') :: m'
      else (k', v') :: smap_set k v m'
  end.

(** [boost]-style joining, used to print what the parsers read. *)
Fixpoint join (d : ascii) (ts : list string) : string :=
  match ts with
  | [] => EmptyString
  | [t] => t
  | t :: ts' => t +:+ String d (join d ts')
  end.

(** ** Lemmas: strings *)

Create HintDb ur discriminated.
Create Rewrite HintDb ur_str.

Lemma lookup_insert_cases {A} (l : list A) i j x y :
  <[i := x]> l !! j = Some y → (i = j ∧ y = x ∧ (i < length l)%nat) ∨ (i ≠ j ∧ l !! j = Some y).
Proof.
  intros H. destruct (decide (i = j)) as [->|Hne].
  - pose proof (lookup_lt_Some _ _ _ H) as Hl. rewrite length_insert in Hl.
    rewrite list_lookup_insert_eq in H by done. injection H as <-. by left.
  - rewrite list_lookup_insert_ne in H by done. by right.
Qed.

Lemma w64_small z : 0 <= z < 2 ^ 64 → w64 z = z.
Proof. apply Z.mod_small. Qed.

Lemma string_app_cons c (s t : string) : String c s +:+ t = String c (s +:+ t).
Proof. done. Qed.

Lemma string_app_nil_l (s : string) : EmptyString +:+ s = s.
Proof. done. Qed.

Lemma string_app_nil_r (s : string) : s +:+ EmptyString = s.
Proof.
  induction s as [|c s IH]; [done|]. by rewrite string_app_cons, IH.
Qed.

Lemma string_forallb_app p (s t : string) :
  string_forallb p (s +:+ t) = string_forallb p s && string_forallb p t.
Proof.
  induction s as [|c s IH]; [done|].
  rewrite string_app_cons. cbn. by rewrite IH, andb_assoc.
Qed.

Lemma has_char_nil c : has_char c EmptyString = false.
Proof. done. Qed.

Lemma has_char_cons c d (s : string) :
  has_char c (String d s) = Ascii.eqb c d || has_char c s.
Proof. unfold has_char. cbn. rewrite negb_andb, negb_involutive. done. Qed.

Lemma has_char_app c (s t : string) :
  has_char c (s +:+ t) = has_char c s || has_char c t.
Proof. unfold has_char. by rewrite string_forallb_app, negb_andb. Qed.

#[export] Hint Rewrite has_char_nil has_char_cons has_char_app : ur_str.

Lemma string_app_eq_nil (s t : string) :
  s +:+ t = EmptyString ↔ s = EmptyString ∧ t = EmptyString.
Proof.
  destruct s; [rewrite string_app_nil_l|rewrite string_app_cons]; naive_solver.
Qed.

Lemma getline_split_app d (t s : string) :
  has_char d t = false → getline_split d (t +:+ String d s) = (t, s).
Proof.
  induction t as [|c t IH]; intros H.
  { rewrite string_app_nil_l. cbn [getline_split]. by rewrite Ascii.eqb_refl. }
  rewrite string_app_cons. cbn [getline_split].
  rewrite has_char_cons in H. apply orb_false_iff in H as [Hc Ht].
  rewrite Ascii.eqb_sym, Hc, (IH Ht). done.
Qed.

Lemma getline_split_no d (t : string) :
  has_char d t = false → getline_split d t = (t, EmptyString).
Proof.
  induction t as [|c t IH]; cbn; intros H; [done|].
  rewrite has_char_cons in H. apply orb_false_iff in H as [Hc Ht].
  rewrite Ascii.eqb_sym, Hc, (IH Ht). done.
Qed.

Lemma getline_app d (t s : string) :
  has_char d t = false → getline d (t +:+ String d s) = Some (t, s).
Proof.
  intros H. unfold getline. rewrite (getline_split_app _ _ _ H).
  by destruct t.
Qed.

Lemma getline_no d (t : string) :
  has_char d t = false → t ≠ EmptyString → getline d t = Some (t, EmptyString).
Proof. intros H Hne. unfold getline. rewrite (getline_split_no _ _ H). by destruct t. Qed.

(** [getlines] is the loop around [getline]. *)
Lemma getlines_unfold d (s : string) :
  getlines d s = match getline d s with
                 | None => []
                 | Some (t, r) => t :: getlines d r
                 end.
Proof.
  induction s as [|c s IH]; [done|].
  cbn. destruct (Ascii.eqb c d); [done|].
  rewrite IH. unfold getline. destruct s as [|c' s]; [done|].
  by destruct (getline_split d (String c' s)).
Qed.

Lemma getlines_app d (t s : string) :
  has_char d t = false → getlines d (t +:+ String d s) = t :: getlines d s.
Proof. intros H. by rewrite getlines_unfold, (getline_app _ _ _ H). Qed.

Lemma getlines_no d (t : string) :
  has_char d t = false → t ≠ EmptyString → getlines d t = [t].
Proof. intros H Hne. by rewrite getlines_unfold, (getline_no _ _ H Hne). Qed.

Lemma getlines_join d (ts : list string) :
  Forall (λ t, has_char d t = false ∧ t ≠ EmptyString) ts →
  getlines d (join d ts) = ts.
Proof.
  induction 1 as [|t ts [Hd Hne] Hts IH]; [done|].
  destruct ts as [|t' ts]; cbn [join].
  { by apply getlines_no. }
  rewrite (getlines_app _ _ _ Hd). by f_equal.
Qed.

Lemma getlines_no_char d (s : string) :
  Forall (λ t, has_char d t = false) (getlines d s).
Proof.
  induction s as [|c s IH]; [constructor|]. cbn.
  destruct (Ascii.eqb c d) eqn:E; [by constructor|].
  rewrite Ascii.eqb_sym in E.
  destruct (getlines d s) as [|t ts]; inversion_clear IH; repeat constructor;
    try done; rewrite has_char_cons, E; done.
Qed.

Lemma has_char_join c d (ts : list string) :
  Ascii.eqb c d = false →
  has_char c (join d ts) = existsb (has_char c) ts.
Proof.
  intros E. induction ts as [|t ts IH]; [done|].
  destruct ts as [|t' ts]; cbn [join existsb].
  { by rewrite orb_false_r. }
  rewrite has_char_app, has_char_cons, E. cbn [orb]. f_equal. exact IH.
Qed.

Lemma join_eq_nil d (ts : list string) :
  Forall (λ t, t ≠ EmptyString) ts → join d ts = EmptyString → ts = [].
Proof.
  intros [|t ts' Hne Hts]; [done|]. destruct ts'; cbn; [done|].
  intros [-> ?]%string_app_eq_nil. done.
Qed.

(** ** Lemmas: outcomes *)

Lemma bind_Ret {A B} (m : outcome A) (f : A → outcome B) b :
  m ≫= f = Ret b ↔ ∃ a, m = Ret a ∧ f a = Ret b.
Proof. destruct m; cbn; naive_solver. Qed.

Lemma fmap_Ret {A B} (m : outcome A) (f : A → B) b :
  f <$> m = Ret b ↔ ∃ a, m = Ret a ∧ b = f a.
Proof. destruct m; cbn; naive_solver. Qed.

Lemma mapM_Ret {A B} (f : A → outcome B) l k :
  Forall2 (λ x y, f x = Ret y) l k → mapM f l = Ret k.
Proof.
  induction 1 as [|x y l k H _ IH]; [done|]. cbn. rewrite H. cbn. by rewrite IH.
Qed.

Lemma mapM_Ret_inv {A B} (f : A → outcome B) l k :
  mapM f l = Ret k → Forall2 (λ x y, f x = Ret y) l k.
Proof.
  revert k. induction l as [|x l IH]; cbn; intros k H.
  { injection H as <-. constructor. }
  apply bind_Ret in H as (y & Hy & H). apply bind_Ret in H as (k' & Hk & H).
  injection H as <-. constructor; auto.
Qed.

(** Split a hypothesis that a chain of binds returned. *)
Ltac ret_inv :=
  repeat match goal with
  | H : _ ≫= _ = Ret _ |- _ => apply bind_Ret in H as (? & ? & H)
  | H : fmap _ _ = Ret _ |- _ => apply fmap_Ret in H as (? & H & ->)
  | H : Ret _ = Ret _ |- _ => injection H as H; try subst
  | H : Throw _ = Ret _ |- _ => discriminate H
  | H : Undef = Ret _ |- _ => discriminate H
  end.

(** ** Lemmas: sorted string maps *)

Lemma str_ltb_lt a b : str_ltb a b = true ↔ String.compare a b = Lt.
Proof. unfold str_ltb. destruct (String.compare a b); naive_solver. Qed.

Lemma str_ltb_irrefl a : str_ltb a a = false.
Proof.
  unfold str_ltb. pose proof (String.compare_antisym a a) as E.
  by destruct (String.compare a a).
Qed.

Lemma str_ltb_asym a b : str_ltb a b = true → str_ltb b a = false.
Proof.
  rewrite str_ltb_lt. intros H. unfold str_ltb.
  by rewrite String.compare_antisym, H.
Qed.

(** The keys of [m] all come before [k]. *)
Definition keys_before {V} (k : string) (m : list (string * V)) : Prop :=
  Forall (λ kv, str_ltb kv.1 k = true) m.

Lemma smap_set_append {V} k (v : V) m :
  keys_before k m → smap_set k v m = m ++ [(k, v)].
Proof.
  induction 1 as [|[k' v'] m Hk _ IH]; [done|]. cbn in *.
  rewrite decide_False by (intros <-; by rewrite str_ltb_irrefl in Hk).
  by rewrite (str_ltb_asym _ _ Hk), IH.
Qed.

Lemma smap_find_before {V} k (m : list (string * V)) :
  keys_before k m → smap_find k m = None.
Proof.
  induction 1 as [|[k' v'] m Hk _ IH]; [done|]. cbn in *.
  by rewrite decide_False by (intros <-; by rewrite str_ltb_irrefl in Hk).
Qed.

Lemma smap_find_set {V} k k' (v : V) m :
  smap_find k' (smap_set k v m) = if decide (k' = k) then Some v else smap_find k' m.
Proof.
  induction m as [|[k0 v0] m IH]; cbn.
  { done. }
  destruct (decide (k = k0)) as [<-|]; cbn.
  { by destruct (decide (k' = k)). }
  destruct (str_ltb k k0); cbn; [done|].
  rewrite IH. by repeat case_decide; subst.
Qed.

Lemma smap_find_None {V} k (m : list (string * V)) :
  smap_find k m = None ↔ k ∉ m.*1.
Proof.
  induction m as [|[k' v'] m IH]; cbn; [set_solver|].
  rewrite not_elem_of_cons. case_decide; naive_solver.
Qed.

Lemma smap_set_fresh_Permutation {V} k (v : V) m :
  smap_find k m = None → smap_set k v m ≡ₚ (k, v) :: m.
Proof.
  induction m as [|[k' v'] m IH]; cbn; [done|].
  case_decide; [done|]. intros Hf. destruct (str_ltb k k'); [done|].
  rewrite (IH Hf). constructor.
Qed.

Lemma has_char_getline_split c d (s : string) :
  has_char c s = false → has_char c (getline_split d s).1 = false.
Proof.
  induction s as [|a s IH]; cbn; intros H; [done|].
  rewrite has_char_cons in H. apply orb_false_iff in H as [Ha Hs].
  destruct (Ascii.eqb a d); [done|].
  specialize (IH Hs). destruct (getline_split d s) as [t r]. cbn in *.
  by rewrite has_char_cons, Ha.
Qed.

Lemma getline_split_fst_no d (s : string) :
  has_char d (getline_split d s).1 = false.
Proof.
  induction s as [|a s IH]; cbn; [done|].
  destruct (Ascii.eqb a d) eqn:E; [done|].
  destruct (getline_split d s) as [t r]. cbn in *.
  by rewrite has_char_cons, Ascii.eqb_sym, E.
Qed.

Lemma getlines_nil_inv d (s : string) : getlines d s = [] → s = EmptyString.
Proof.
  rewrite getlines_unfold. unfold getline. destruct s; [done|].
  by destruct (getline_split _ _).
Qed.

(** [lia] with division and remainder unfolded to their equations. *)
Ltac lia_div := zify; Z.to_euclidean_division_equations; lia.

(** [mapM] stops at the first element that does not return. *)
Lemma mapM_Undef {A B} (f : A → outcome B) l :
  mapM f l = Undef ↔
  ∃ pre x post ks, l = pre ++ x :: post ∧ mapM f pre = Ret ks ∧ f x = Undef.
Proof.
  split.
  - induction l as [|x l IH]; [done|]. cbn. destruct (f x) as [y|e|] eqn:E; cbn; [|done|].
    + destruct (mapM f l) as [k|e|] eqn:El; cbn; [done|done|]. intros _.
      destruct (IH eq_refl) as (pre & z & post & ks & -> & Hp & Hz).
      exists (x :: pre), z, post, (y :: ks). cbn. by rewrite E, Hp.
    + intros _. by exists [], x, l, [].
  - intros (pre & x & post & ks & -> & Hp & Hx). revert ks Hp.
    induction pre as [|y pre IH]; intros ks Hp; cbn in *; [by rewrite Hx|].
    ret_inv. match goal with H : f y = Ret _ |- _ => rewrite H end. cbn.
    by rewrite (IH _ H0).
Qed.

Lemma string_drop_0 (s : string) : string_drop 0 s = s.
Proof. by destruct s. Qed.

Lemma string_take_drop n (s : string) : string_take n s +:+ string_drop n s = s.
Proof.
  revert s. induction n as [|n IH]; intros [|c s]; cbn; try done.
  by rewrite string_app_cons, IH.
Qed.

Lemma string_length_drop n (s : string) :
  String.length (string_drop n s) = (String.length s - n)%nat.
Proof. revert s. induction n as [|n IH]; intros [|c s]; cbn; auto. Qed.

Lemma string_take_all n (s : string) :
  (String.length s <= n)%nat → string_take n s = s.
Proof.
  revert s. induction n as [|n IH]; intros [|c s] H; cbn in *; try done; [lia|].
  rewrite IH; [done|lia].
Qed.

Lemma rfind_char_None c (s : string) :
  rfind_char c s = None → has_char c s = false.
Proof.
  induction s as [|d s IH]; cbn; [done|]. rewrite has_char_cons.
  destruct (rfind_char c s); [done|]. rewrite (IH eq_refl).
  by destruct (Ascii.eqb c d).
Qed.

Lemma rfind_char_Some c (s : string) n :
  rfind_char c s = Some n →
  ∃ t, string_drop n s = String c t ∧ has_char c t = false.
Proof.
  revert n. induction s as [|d s IH]; cbn; intros n; [done|].
  destruct (rfind_char c s) as [m|] eqn:E.
  - intros [= <-]. cbn. auto.
  - destruct (Ascii.eqb_spec c d) as [<-|]; [|done]. intros [= <-].
    exists s. split; [done|]. by apply rfind_char_None.
Qed.

(** ** Lemmas: boolean filters *)

Lemma elem_of_filterb {A} (p : A → bool) (l : list A) x :
  x ∈ List.filter p l ↔ x ∈ l ∧ p x = true.
Proof. rewrite !list_elem_of_In. apply filter_In. Qed.

Lemma filterb_partition {A} (p : A → bool) (l : list A) :
  List.filter p l ++ List.filter (λ x, negb (p x)) l ≡ₚ l.
Proof.
  induction l as [|x l IH]; cbn; [done|]. destruct (p x); cbn; [by rewrite IH|].
  rewrite <- Permutation_middle. by rewrite IH.
Qed.

Lemma filterb_filterb {A} (p q : A → bool) (l : list A) :
  List.filter p (List.filter q l) = List.filter (λ x, q x && p x) l.
Proof.
  induction l as [|x l IH]; cbn; [done|].
  destruct (q x); cbn; [destruct (p x); by rewrite IH|done].
Qed.

Lemma filterb_true {A} (p : A → bool) (l : list A) :
  (∀ x, x ∈ l → p x = true) → List.filter p l = l.
Proof.
  induction l as [|x l IH]; cbn; intros H; [done|].
  rewrite H by (by left). f_equal. apply IH. intros y Hy. apply H. by right.
Qed.

(** ** Lemmas: searching in strings *)

Lemma find_char_None c (s : string) : has_char c s = false → find_char c s = None.
Proof.
  induction s as [|d s IH]; [done|]. rewrite has_char_cons.
  intros [Hd Hs]%orb_false_iff. cbn. by rewrite Hd, (IH Hs).
Qed.

Lemma find_char_app c (a s : string) :
  has_char c a = false →
  find_char c (a +:+ String c s) = Some (String.length a).
Proof.
  induction a as [|d a IH]; intros H.
  { rewrite string_app_nil_l. cbn. by rewrite Ascii.eqb_refl. }
  rewrite has_char_cons in H. apply orb_false_iff in H as [Hd Ha].
  rewrite string_app_cons. cbn. by rewrite Hd, (IH Ha).
Qed.

Lemma string_take_app (a s : string) : string_take (String.length a) (a +:+ s) = a.
Proof.
  induction a as [|d a IH]; [by destruct s|].
  rewrite string_app_cons. cbn. by rewrite IH.
Qed.

Lemma string_drop_app (a : string) c (s : string) :
  string_drop (String.length a + 1) (a +:+ String c s) = s.
Proof.
  induction a as [|d a IH]; [apply string_drop_0|].
  rewrite string_app_cons. exact IH.
Qed.

Lemma digit_char c d : is_digit c = true → is_digit d = false → Ascii.eqb d c = false.
Proof. intros Hc Hd. destruct (Ascii.eqb_spec d c); congruence. Qed.

Lemma all_digits_no_char c (s : string) :
  is_digit c = false → all_digits s = true → has_char c s = false.
Proof.
  intros Hc. unfold all_digits. induction s as [|d s IH]; [done|].
  cbn [string_forallb]. intros [Hd Hs]%andb_true_iff.
  rewrite has_char_cons, (IH Hs), orb_false_r. by apply digit_char.
Qed.

Lemma tolower_digit c : is_digit c = true → tolower c = c.
Proof. destruct c as [[] [] [] [] [] [] [] []]; vm_compute; congruence. Qed.

Lemma string_lower_digits (s : string) : all_digits s = true → string_lower s = s.
Proof.
  unfold all_digits, string_lower. induction s as [|d s IH]; [done|].
  cbn. intros [Hd Hs]%andb_true_iff. by rewrite (tolower_digit _ Hd), (IH Hs).
Qed.

Lemma string_drop_drop n m (s : string) :
  string_drop n (string_drop m s) = string_drop (n + m) s.
Proof.
  revert s. induction m as [|m IH]; intros s.
  { by rewrite string_drop_0, Nat.add_0_r. }
  rewrite Nat.add_succ_r. destruct s as [|c s]; cbn; [by destruct n|]. apply IH.
Qed.
