(* ===== verification/UrUtil.v ===== *)
(** * UrUtil: source/common/ur_util.hpp

    Environment-variable parsing ([getenv_tobool], [getenv_to_unsigned],
    [getenv_to_vec], [getenv_to_map]), the reference-counted pointer [Rc] and
    the [AtomicSingleton] built on it, the descriptor-list walk
    [find_stype_node], exception translation and the small string utilities
    ([create_library_path], [splitMetadataName], [groupDigits]). *)
From stdpp Require Import pretty.
From S2P Require Import Prelude.

(** The process environment: what [ur_getenv] returns for a name.  On the
    modelled (non-Windows) platforms a variable set to the empty string is
    [Some ""]. *)
Definition environment : Type := string → option string.

Definition ur_getenv (env : environment) (name : string) : option string :=
  env name.

(** ** Small string utilities *)

(** [path = None] is a null pointer; the separator is the one of the
    non-Windows build. *)
Definition create_library_path (name : string) (path : option string) : string :=
  match path with
  | Some p => if decide (p = EmptyString) then name else p +:+ "/" +:+ name
  | None => name
  end.

Definition splitMetadataName (metadataName : string) : string * string :=
  match rfind_char "@" metadataName with
  | None => (metadataName, EmptyString)
  | Some splitPos =>
      (substr 0 (Some splitPos) metadataName,
       substr splitPos (Some (String.length metadataName)) metadataName)
  end.

(** The loop of [groupDigits]: a separator follows a digit when a positive
    multiple of three digits remains. *)
Fixpoint group_loop (digits : string) : string :=
  match digits with
  | EmptyString => EmptyString
  | String c rest =>
      let n := String.length rest in
      String c
        (if negb (n =? 0)%nat && (n mod 3 =? 0)%nat
         then String "'" (group_loop rest) else group_loop rest)
  end.

Definition groupDigits (numeric : Z) : string :=
  let number := pretty numeric in
  let sign := if numeric >=? 0 then EmptyString else "-"%string in
  let digits := string_drop (String.length sign) number in
  sign +:+ group_loop digits.

(** ** Environment variables *)

Definition true_str : list string := ["y"; "yes"; "t"; "true"; "1"]%string.

Definition getenv_tobool (env : environment) (name : string) (def : bool) : bool :=
  match ur_getenv env name with
  | Some v => bool_decide (string_lower v ∈ true_str)
  | None => def
  end.

Definition is_space (c : ascii) : bool :=
  let n := Ascii.N_of_ascii c in
  ((9 <=? n) && (n <=? 13) || (n =? 32))%N.

Fixpoint skip_space (s : string) : string :=
  match s with
  | String c s' => if is_space c then skip_space s' else s
  | EmptyString => EmptyString
  end.

Fixpoint take_digits (s : string) : string :=
  match s with
  | String c s' => if is_digit c then String c (take_digits s') else EmptyString
  | EmptyString => EmptyString
  end.

(** [std::stoi]: white space, an optional sign, the longest digit prefix. *)
Definition stoi (s : string) : outcome Z :=
  let t := skip_space s in
  let '(sgn, u) :=
    match t with
    | String c u =>
        if Ascii.eqb c "-" then (-1, u)
        else if Ascii.eqb c "+" then (1, u) else (1, t)
    | EmptyString => (1, EmptyString)
    end in
  let ds := take_digits u in
  if decide (ds = EmptyString) then Throw Exn_invalid_argument
  else let v := sgn * digits_val 0 ds in
       if (- 2 ^ 31 <=? v) && (v <=? INT_MAX) then Ret v
       else Throw Exn_out_of_range.

(** The [int] is converted to [uint64_t]; any exception gives [nullopt]. *)
Definition getenv_to_unsigned (env : environment) (name : string) : option Z :=
  match ur_getenv env name with
  | Some v => match stoi v with Ret i => Some (w64 i) | _ => None end
  | None => None
  end.

(** [str.front()]/[str.back()] are undefined on the empty string. *)
Definition is_quoted (s : string) : outcome bool :=
  match string_front s, string_back s with
  | Some f, Some b =>
      Ret ((Ascii.eqb f "'" && Ascii.eqb b "'") ||
           (Ascii.eqb f "034" && Ascii.eqb b "034"))
  | _, _ => Undef
  end.

Definition has_colon (s : string) : bool := has_char ":" s.
Definition has_semicolon (s : string) : bool := has_char ";" s.

(** [erase(begin)] then erasing the last character: each needs a character. *)
Definition unquote (s : string) : outcome string :=
  match s with
  | EmptyString => Undef
  | String _ EmptyString => Undef
  | String _ s' => Ret (string_pop_back s')
  end.

(** The body of the loop of [getenv_to_vec]. *)
Definition vec_value (value : string) : outcome string :=
  if decide (value = EmptyString) then Throw Exn_invalid_argument
  else
    quoted ← is_quoted value;
    if negb quoted && (has_colon value || has_semicolon value)
    then Throw Exn_invalid_argument
    else if quoted : bool then unquote value else Ret value.

Definition getenv_to_vec (env : environment) (env_var_name : string)
  : outcome (option (list string)) :=
  match ur_getenv env env_var_name with
  | None => Ret None
  | Some v => Some <$> mapM vec_value (getlines "," v)
  end.

Abbreviation EnvVarMap := (list (string * list string)).

Definition newline : ascii := "010".

(** The body of the inner loop of [getenv_to_map]. *)
Definition map_value (value : string) : outcome string :=
  if decide (value = EmptyString) then Throw Exn_invalid_argument
  else
    quoted ← is_quoted value;
    if has_colon value && negb quoted then Throw Exn_invalid_argument
    else if quoted : bool then unquote value else Ret value.

(** [getline(kv_ss, key, ':')] then [getline(kv_ss, values)]. *)
Definition split_key_value (key_value : string) : string * string :=
  match getline ":" key_value with
  | None => (EmptyString, EmptyString)
  | Some (key, rest) =>
      (key, match getline newline rest with Some (v, _) => v | None => EmptyString end)
  end.

(** One iteration of the outer loop. *)
Definition map_entry (reject_empty : bool) (map : EnvVarMap) (key_value : string)
  : outcome EnvVarMap :=
  if reject_empty && negb (has_colon key_value) then Throw Exn_invalid_argument
  else
    let '(key, values) := split_key_value key_value in
    if bool_decide (key = EmptyString)
       || (reject_empty && bool_decide (values = EmptyString))
       || bool_decide (is_Some (smap_find key map))
    then Throw Exn_invalid_argument
    else
      values_vec ← mapM map_value (getlines "," values);
      Ret (smap_set key values_vec map).

Fixpoint map_loop (reject_empty : bool) (map : EnvVarMap) (entries : list string)
  : outcome EnvVarMap :=
  match entries with
  | [] => Ret map
  | kv :: entries' =>
      map' ← map_entry reject_empty map kv;
      map_loop reject_empty map' entries'
  end.

Definition getenv_to_map (env : environment) (env_var_name : string)
    (reject_empty : bool) : outcome (option EnvVarMap) :=
  match ur_getenv env env_var_name with
  | None => Ret None
  | Some v => Some <$> map_loop reject_empty [] (getlines ";" v)
  end.

(** ** Hash combination and exceptions *)

Definition combine_hashes (seed : Z) (hashes : list Z) : Z :=
  foldl Z.lxor seed hashes.

Definition exceptionToResult (eptr : option exn) : ur_result_t :=
  match eptr with
  | None => UR_RESULT_SUCCESS
  | Some Exn_bad_alloc => UR_RESULT_ERROR_OUT_OF_HOST_MEMORY
  | Some (Exn_ur e) => e
  | Some _ => UR_RESULT_ERROR_UNKNOWN
  end.

(** ** Descriptor lists: [find_stype_node]

    Descriptors live in a store; [0] is the null pointer. *)

Record list_node := { stype : Z; pNext : Z }.

(** The [for] loop, with fuel for the number of nodes visited: [None] when the
    fuel runs out, [Undef] when a dangling pointer is read. *)
Fixpoint find_stype_node (fuel : nat) (h : gmap Z list_node) (want next : Z)
  : option (outcome Z) :=
  match fuel with
  | O => None
  | S fuel' =>
      if next =? 0 then Some (Ret 0)
      else match h !! next with
           | None => Some Undef
           | Some nd =>
               if stype nd =? want then Some (Ret next)
               else find_stype_node fuel' h want (pNext nd)
           end
  end.

(** ** Reference-counted pointers: [Rc]

    Objects are numbered in the order [new T()] creates them. [rc_deleted]
    lists the objects given to the deleter or to [delete], latest first. *)

Module Rc.

Record t := mk {
  ptr : option nat;
  refcount : Z;
  created : nat;
  deleted : list nat
}.

Definition init : t := mk None 0 0 [].

Definition get_or_create (refcounted : bool) (s : t) : nat * t :=
  let count := if refcounted then w64 (refcount s + 1) else refcount s in
  match ptr s with
  | Some p => (p, mk (Some p) count (created s) (deleted s))
  | None =>
      (created s, mk (Some (created s)) count (S (created s)) (deleted s))
  end.

Definition get_direct (s : t) : option nat := ptr s.

(** The deleter receives the pointer; a null pointer deletes nothing. *)
Definition release (s : t) : Z * t :=
  if refcount s <=? 0 then (-1, s)
  else
    let count := refcount s - 1 in
    if count =? 0 then
      (0, mk None count (created s)
             (match ptr s with Some p => p :: deleted s | None => deleted s end))
    else (0, mk (ptr s) count (created s) (deleted s)).

Definition forceDelete (s : t) : t :=
  mk None 0 (created s)
     (match ptr s with Some p => p :: deleted s | None => deleted s end).

End Rc.

(** ** [AtomicSingleton]: operations of several threads on one [Rc]

    Everything done between [acquire] and [release] of the spinlock is one
    step. [get_direct] reads the pointer without the lock and takes the lock
    only when it read null, so it has two steps with the program counter
    [Locking] in between. *)

Module AtomicSingleton.

Inductive pc :=
| Idle
| Locking                 (* [get_direct] read null and goes for the lock *)
| Returned (p : nat).     (* the last [get]/[get_direct] returned [p] *)

Record state := mk { instance : Rc.t; threads : gmap nat pc }.

Definition init : state := mk Rc.init ∅.

Definition pc_of (s : state) (i : nat) : pc := default Idle (threads s !! i).

Definition set_pc (i : nat) (c : pc) (rc : Rc.t) (s : state) : state :=
  mk rc (<[i := c]> (threads s)).

Definition get (i : nat) (s : state) : state :=
  let '(p, rc) := Rc.get_or_create true (instance s) in
  set_pc i (Returned p) rc s.

(** The unlocked read of [get_direct]. *)
Definition get_direct_bypass (i : nat) (s : state) : state :=
  match Rc.get_direct (instance s) with
  | Some p => set_pc i (Returned p) (instance s) s
  | None => set_pc i Locking (instance s) s
  end.

(** The locked part of [get_direct]. *)
Definition get_direct_locked (i : nat) (s : state) : state :=
  let '(p, rc) := Rc.get_or_create false (instance s) in
  set_pc i (Returned p) rc s.

Definition release (i : nat) (s : state) : Z * state :=
  let '(ret, rc) := Rc.release (instance s) in (ret, set_pc i Idle rc s).

Definition forceDelete (i : nat) (s : state) : state :=
  set_pc i Idle (Rc.forceDelete (instance s)) s.

(** A thread that is [Locking] can only take the lock; any other thread may
    start any operation. *)
Inductive step : state → state → Prop :=
| step_get s i : pc_of s i ≠ Locking → step s (get i s)
| step_bypass s i : pc_of s i ≠ Locking → step s (get_direct_bypass i s)
| step_locked s i : pc_of s i = Locking → step s (get_direct_locked i s)
| step_release s i : pc_of s i ≠ Locking → step s (release i s).2
| step_force s i : pc_of s i ≠ Locking → step s (forceDelete i s).

End AtomicSingleton.

(** ** Specification vocabulary *)

(** Printing what [getenv_to_map] reads. *)
Definition print_entry (kv : string * list string) : string :=
  kv.1 +:+ String ":" (join "," kv.2).

Definition print_env_map (m : EnvVarMap) : string := join ";" (print_entry <$> m).

Definition printable_key (k : string) : Prop :=
  k ≠ EmptyString ∧ has_char ":" k = false ∧ has_char ";" k = false.

Definition printable_value (v : string) : Prop :=
  v ≠ EmptyString ∧ has_char "," v = false ∧ has_char ":" v = false ∧
  has_char ";" v = false ∧ has_char newline v = false ∧ is_quoted v = Ret false.

Definition printable_entry (reject_empty : bool) (kv : string * list string) : Prop :=
  printable_key kv.1 ∧ Forall printable_value kv.2 ∧
  (reject_empty = true → kv.2 ≠ []).

(** The keys come in strictly increasing order, as in a [std::map]. *)
Fixpoint sorted_keys (m : EnvVarMap) : Prop :=
  match m with
  | [] => True
  | (k, _) :: m' => Forall (λ kv, str_ltb k kv.1 = true) m' ∧ sorted_keys m'
  end.

(** A singly linked list in the store, from [p] to null. *)
Inductive is_list (h : gmap Z list_node) : Z → list (Z * list_node) → Prop :=
| is_list_nil : is_list h 0 []
| is_list_cons p nd l :
    p ≠ 0 → h !! p = Some nd → is_list h (pNext nd) l →
    is_list h p ((p, nd) :: l).

(** The first node of the wanted type, or null. *)
Fixpoint first_of_type (want : Z) (l : list (Z * list_node)) : Z :=
  match l with
  | [] => 0
  | (p, nd) :: l' => if stype nd =? want then p else first_of_type want l'
  end.

(** What a well-behaved [Rc] has done with the objects it created: each one
    other than the current one was deleted, exactly once. *)
Definition rc_ok (s : Rc.t) : Prop :=
  NoDup (Rc.deleted s) ∧
  (∀ n, n ∈ Rc.deleted s ↔ (n < Rc.created s)%nat ∧ Rc.ptr s ≠ Some n) ∧
  (∀ p, Rc.ptr s = Some p → (p < Rc.created s)%nat) ∧
  (Rc.refcount s > 0 → Rc.ptr s ≠ None) ∧
  0 <= Rc.refcount s < 2 ^ 64.

(** ** Lemmas *)

Lemma print_value_list_ok reject_empty vs :
  Forall printable_value vs →
  mapM map_value (getlines "," (join "," vs)) = Ret vs ∧
  has_char newline (join "," vs) = false ∧
  has_char ";" (join "," vs) = false ∧
  (bool_decide (join "," vs = EmptyString) && reject_empty
   = bool_decide (vs = []) && reject_empty).
Proof.
  intros H. repeat split.
  - rewrite getlines_join by (eapply Forall_impl; [exact H|]; by intros v (?&?&_)).
    apply mapM_Ret. induction H as [|v vs (Hne&_&Hc&_&_&Hq) _ IH]; constructor; [|done].
    unfold map_value. rewrite decide_False by done. rewrite Hq. cbn.
    unfold has_colon. by rewrite Hc.
  - rewrite has_char_join by done. induction H as [|v vs (_&_&_&_&Hn&_) _ IH]; [done|].
    cbn. by rewrite Hn.
  - rewrite has_char_join by done. induction H as [|v vs (_&_&_&Hs&_&_) _ IH]; [done|].
    cbn. by rewrite Hs.
  - f_equal. apply bool_decide_ext. split; [|by intros ->].
    apply join_eq_nil. eapply Forall_impl; [exact H|]. by intros v (?&_).
Qed.

Lemma split_print_entry k values :
  has_char ":" k = false → has_char newline values = false →
  split_key_value (k +:+ String ":" values) = (k, values).
Proof.
  intros Hk Hn. unfold split_key_value. rewrite (getline_app _ _ _ Hk).
  destruct values as [|c v]; [done|]. by rewrite (getline_no _ _ Hn).
Qed.

Lemma map_entry_print reject_empty m kv :
  printable_entry reject_empty kv → keys_before kv.1 m →
  map_entry reject_empty m (print_entry kv) = Ret (m ++ [kv]).
Proof.
  destruct kv as [k vs]. intros ((Hne & Hc & Hs) & Hvs & Hr) Hb. cbn in *.
  destruct (print_value_list_ok reject_empty _ Hvs) as (Hm & Hn & _ & He).
  unfold map_entry, print_entry; cbn [fst snd].
  assert (has_colon (k +:+ String ":" (join "," vs)) = true) as ->.
  { unfold has_colon. rewrite has_char_app, has_char_cons, Ascii.eqb_refl.
    apply orb_true_r. }
  rewrite andb_false_r, (split_print_entry _ _ Hc Hn).
  rewrite (smap_find_before _ _ Hb).
  rewrite !bool_decide_eq_false_2 by (done || by intros [? ?]).
  rewrite orb_false_r, orb_false_l, (andb_comm reject_empty), He.
  destruct reject_empty.
  - rewrite bool_decide_eq_false_2 by auto. cbn. rewrite Hm. cbn.
    by rewrite smap_set_append.
  - rewrite andb_false_r, Hm. cbn. by rewrite smap_set_append.
Qed.

Lemma map_loop_print reject_empty m acc :
  Forall (printable_entry reject_empty) m → sorted_keys m →
  Forall (λ kv, keys_before kv.1 acc) m →
  map_loop reject_empty acc (print_entry <$> m) = Ret (acc ++ m).
Proof.
  intros Hm. revert acc. induction Hm as [|kv m Hkv _ IH]; intros acc Hs Hb; cbn.
  { by rewrite app_nil_r. }
  inversion_clear Hb as [|? ? Hb1 Hb2].
  rewrite (map_entry_print _ _ _ Hkv Hb1). cbn.
  destruct kv as [k vs]. destruct Hs as [Hk Hs].
  rewrite (IH _ Hs); [by rewrite <- app_assoc|].
  rewrite Forall_forall in Hb2, Hk |- *. intros kv' Hin.
  apply Forall_app. split; [by apply Hb2|].
  repeat constructor. by apply Hk.
Qed.

Lemma print_entry_no_semicolon reject_empty kv :
  printable_entry reject_empty kv →
  has_char ";" (print_entry kv) = false ∧ print_entry kv ≠ EmptyString.
Proof.
  intros ((Hne & _ & Hs) & Hvs & _). unfold print_entry. split.
  - rewrite has_char_app, has_char_cons, Hs.
    by destruct (print_value_list_ok reject_empty _ Hvs) as (_ & _ & -> & _).
  - by intros [? _]%string_app_eq_nil.
Qed.

(** Each accepted entry adds one fresh, well-formed key. *)
Definition entry_wf (reject_empty : bool) (kv : string * list string) : Prop :=
  kv.1 ≠ EmptyString ∧ has_char ":" kv.1 = false ∧
  (reject_empty = true → kv.2 ≠ []).

Lemma split_key_value_fst kv c :
  has_char c kv = false → has_char c (split_key_value kv).1 = false.
Proof.
  intros H. unfold split_key_value, getline. destruct kv as [|a kv]; [done|].
  apply (has_char_getline_split _ ":") in H.
  by destruct (getline_split ":" (String a kv)).
Qed.

Lemma split_key_value_no_colon kv : has_char ":" (split_key_value kv).1 = false.
Proof.
  unfold split_key_value, getline. destruct kv as [|a kv]; [done|].
  pose proof (getline_split_fst_no ":" (String a kv)).
  by destruct (getline_split ":" (String a kv)).
Qed.

Lemma map_entry_wf reject_empty m kv m' :
  map_entry reject_empty m kv = Ret m' → has_char ";" kv = false →
  ∃ k vs, smap_find k m = None ∧ m' = smap_set k vs m ∧
          entry_wf reject_empty (k, vs) ∧ has_char ";" k = false.
Proof.
  unfold map_entry. intros H Hsc.
  pose proof (split_key_value_fst _ _ Hsc) as Hks.
  pose proof (split_key_value_no_colon kv) as Hkc.
  destruct (reject_empty && negb (has_colon kv)); [done|].
  destruct (split_key_value kv) as [key values]; cbn in *.
  destruct (_ || _) eqn:E; [done|].
  apply orb_false_iff in E as [E Hf%bool_decide_eq_false].
  apply orb_false_iff in E as [Hk%bool_decide_eq_false Hv].
  ret_inv. eexists key, _. repeat split; try done.
  - by apply eq_None_not_Some.
  - cbn. intros -> ->.
    match goal with H : mapM _ _ = Ret [] |- _ => apply mapM_Ret_inv in H end.
    apply bool_decide_eq_false in Hv.
    match goal with H : Forall2 _ _ [] |- _ => apply Forall2_nil_inv_r in H end.
    eauto using getlines_nil_inv.
Qed.

Lemma map_loop_wf reject_empty entries m m' :
  Forall (λ e, has_char ";" e = false) entries →
  NoDup m.*1 → Forall (λ kv, entry_wf reject_empty kv ∧ has_char ";" kv.1 = false) m →
  map_loop reject_empty m entries = Ret m' →
  NoDup m'.*1 ∧ Forall (λ kv, entry_wf reject_empty kv ∧ has_char ";" kv.1 = false) m'.
Proof.
  intros He. revert m. induction He as [|e es He _ IH]; intros m Hn Hw H; cbn in H.
  { by ret_inv. }
  ret_inv. match goal with H : map_entry _ _ _ = Ret _ |- _ =>
    apply map_entry_wf in H as (k & vs & Hf & -> & Hwf & Hs); [|done] end.
  apply IH in H; [done| |].
  - rewrite (smap_set_fresh_Permutation _ _ _ Hf). cbn. constructor; [|done].
    by apply smap_find_None.
  - rewrite (smap_set_fresh_Permutation _ _ _ Hf). constructor; [|done]. done.
Qed.

Lemma group_loop_no_quote s :
  all_digits s = true →
  string_forallb (λ c, negb (Ascii.eqb "'" c)) s = true.
Proof.
  unfold all_digits. induction s as [|c s IH]; [done|].
  cbn [string_forallb]. intros [Hc Hs]%andb_true_iff. rewrite (IH Hs), andb_true_r.
  destruct (Ascii.eqb_spec "'" c) as [<-|]; [|done].
  vm_compute in Hc. discriminate.
Qed.

(** ** Theorems: [Rc] and [AtomicSingleton] *)

Lemma rc_init_ok : rc_ok Rc.init.
Proof. repeat split; cbn; try set_solver; try lia. constructor. Qed.

Lemma rc_ok_delete s count :
  rc_ok s → count = 0 →
  rc_ok (Rc.mk None count (Rc.created s)
           (match Rc.ptr s with Some p => p :: Rc.deleted s | None => Rc.deleted s end)).
Proof.
  intros (Hn & Hd & Hp & _ & _) ->. unfold rc_ok. cbn.
  split_and!; try done; try lia.
  - destruct (Rc.ptr s) as [p|]; [|done]. constructor; [|done].
    intros [_ ?]%Hd. done.
  - intros n. destruct (Rc.ptr s) as [p|].
    + rewrite elem_of_cons, Hd. specialize (Hp p eq_refl).
      destruct (decide (n = p)); naive_solver.
    + rewrite Hd. naive_solver.
Qed.

Lemma rc_get_or_create_ok b s : rc_ok s → rc_ok (Rc.get_or_create b s).2.
Proof.
  intros (Hn & Hd & Hp & Hc & Hr). unfold Rc.get_or_create.
  assert (0 <= (if b then w64 (Rc.refcount s + 1) else Rc.refcount s) < 2 ^ 64).
  { destruct b; [|done]. apply Z.mod_pos_bound. lia. }
  destruct (Rc.ptr s) as [p|]; unfold rc_ok; cbn; split_and!; try done; try lia.
  - intros n. rewrite Hd. split; [intros [? _]|intros [? Hne]]; split; try done; try lia.
    + intros [= <-]. lia.
    + assert (n ≠ Rc.created s) by congruence. lia.
  - intros p [= <-]. lia.
Qed.

Lemma rc_release_ok s : rc_ok s → rc_ok (Rc.release s).2.
Proof.
  intros Hok. unfold Rc.release. destruct (Z.leb_spec (Rc.refcount s) 0); [done|].
  destruct (Z.eqb_spec (Rc.refcount s - 1) 0) as [E|E]; cbn.
  { by apply rc_ok_delete. }
  destruct Hok as (Hn & Hd & Hp & Hc & Hr). unfold rc_ok; cbn.
  split_and!; try done; try lia. intros _. apply Hc. lia.
Qed.

Lemma rc_forceDelete_ok s : rc_ok s → rc_ok (Rc.forceDelete s).
Proof. intros. by apply rc_ok_delete. Qed.

#[export] Hint Resolve rc_init_ok rc_get_or_create_ok rc_release_ok
  rc_forceDelete_ok : ur.

Lemma singleton_step_ok s s' :
  AtomicSingleton.step s s' → rc_ok (AtomicSingleton.instance s) →
  rc_ok (AtomicSingleton.instance s').
Proof.
  intros [? i _|? i _|? i _|? i _|? i _] Hok.
  - unfold AtomicSingleton.get. pose proof (rc_get_or_create_ok true _ Hok).
    by destruct (Rc.get_or_create _ _).
  - unfold AtomicSingleton.get_direct_bypass. by destruct (Rc.get_direct _).
  - unfold AtomicSingleton.get_direct_locked.
    pose proof (rc_get_or_create_ok false _ Hok).
    by destruct (Rc.get_or_create _ _).
  - unfold AtomicSingleton.release. pose proof (rc_release_ok _ Hok).
    by destruct (Rc.release _).
  - by apply rc_forceDelete_ok.
Qed.

Lemma rc_get_iter n :
  (0 < n)%nat → Z.of_nat n < 2 ^ 64 →
  Nat.iter n (λ s, (Rc.get_or_create true s).2) Rc.init = Rc.mk (Some 0%nat) (Z.of_nat n) 1 [].
Proof.
  induction n as [|n IH]; [lia|]. intros _ Hb. rewrite Nat.iter_succ.
  destruct n as [|n].
  { reflexivity. }
  rewrite IH by lia. unfold Rc.get_or_create. cbn.
  do 2 f_equal. unfold w64. rewrite Z.mod_small; lia.
Qed.

Lemma rc_release_iter n m :
  (m < n)%nat →
  Nat.iter m (λ s, (Rc.release s).2) (Rc.mk (Some 0%nat) (Z.of_nat n) 1 []) =
  Rc.mk (Some 0%nat) (Z.of_nat (n - m)) 1 [].
Proof.
  induction m as [|m IH]; intros Hm.
  { by rewrite Nat.sub_0_r. }
  rewrite Nat.iter_succ, IH by lia. unfold Rc.release. cbn.
  destruct (Z.leb_spec (Z.of_nat (n - m)) 0); [lia|].
  destruct (Z.eqb_spec (Z.of_nat (n - m) - 1) 0); [lia|]. cbn. f_equal. lia.
Qed.

(** Where the separators go. *)
Definition string_concat : list string → string := foldr String.append EmptyString.

Lemma group_loop_groups ds :
  ds ≠ EmptyString →
  ∃ g gs, group_loop ds = join "'" (g :: gs) ∧ ds = string_concat (g :: gs) ∧
    String.length g
    = (if (String.length ds mod 3 =? 0)%nat then 3 else String.length ds mod 3)%nat ∧
    Forall (λ g, String.length g = 3%nat) gs.
Proof.
  induction ds as [|c ds IH]; [done|]. intros _.
  destruct (decide (ds = EmptyString)) as [->|Hne].
  { by exists (String c EmptyString), []. }
  destruct (IH Hne) as (g & gs & Hg & Hds & Hlen & Hgs).
  cbn [group_loop String.length]. set (n := String.length ds) in *.
  assert (n ≠ 0%nat) as Hn0 by (by destruct ds). clearbody n.
  rewrite (proj2 (Nat.eqb_neq n 0) Hn0); cbn [negb andb].
  destruct (Nat.eqb_spec (n mod 3) 0) as [E|E].
  - exists (String c EmptyString), (g :: gs). split_and!; [by rewrite Hg|by rewrite Hds| |].
    + cbn [String.length]. destruct (Nat.eqb_spec (S n mod 3) 0); lia_div.
    + by constructor.
  - exists (String c g), gs. split_and!; [|by rewrite Hds| |done].
    + rewrite Hg. by destruct gs.
    + cbn [String.length]. rewrite Hlen. destruct (Nat.eqb_spec (S n mod 3) 0); lia_div.
Qed.

Lemma pretty_N_go_ne_nil x s : s ≠ EmptyString → pretty_N_go x s ≠ EmptyString.
Proof.
  revert s. induction (N.lt_wf_0 x) as [x _ IH]; intros s Hs.
  assert (x = 0 ∨ 0 < x)%N as [->|?] by lia; [done|].
  rewrite pretty_N_go_step by done. apply IH; [|done]. by apply N.div_lt.
Qed.

Lemma pretty_N_ne_nil (x : N) : pretty x ≠ EmptyString.
Proof.
  unfold pretty, pretty_N. case_decide; [done|].
  rewrite pretty_N_go_step by lia. by apply pretty_N_go_ne_nil.
Qed.

Lemma pretty_Z_sign (n : Z) :
  ∃ d, d ≠ EmptyString ∧
       pretty n = (if n >=? 0 then EmptyString else "-"%string) +:+ d.
Proof.
  destruct n as [|p|p].
  - by exists "0"%string.
  - exists (pretty (N.pos p)). split; [apply pretty_N_ne_nil|done].
  - exists (pretty (N.pos p)). split; [apply pretty_N_ne_nil|done].
Qed.

(** * Properties *)

(** reading a printed parameter map gives the map back, for every map whose
    keys are distinct and in order and whose keys and values avoid the
    delimiters. *)
Theorem getenv_to_map_roundtrip env name reject_empty (m : EnvVarMap) :
  ur_getenv env name = Some (print_env_map m) →
  sorted_keys m → Forall (printable_entry reject_empty) m →
  getenv_to_map env name reject_empty = Ret (Some m).
Proof.
  intros He Hs Hm. unfold getenv_to_map, print_env_map in *. rewrite He.
  rewrite getlines_join.
  - rewrite (map_loop_print _ _ [] Hm Hs); [done|].
    apply Forall_forall. intros. constructor.
  - apply Forall_fmap. eapply Forall_impl; [exact Hm|].
    apply print_entry_no_semicolon.
Qed.

Lemma getenv_to_map_roundtrip_witness :
  getenv_to_map (λ _, Some "cuda:0,1.*;opencl:gpu"%string) "ODS" true
  = Ret (Some [("cuda", ["0"; "1.*"]); ("opencl", ["gpu"])]%string).
Proof.
  apply (getenv_to_map_roundtrip _ _ true
    [("cuda", ["0"; "1.*"]); ("opencl", ["gpu"])]%string); [reflexivity| |].
  - cbn. repeat constructor.
  - repeat constructor; cbn; done.
Defined.

(** C40: whatever the variable holds, a map that [getenv_to_map] returns has
    distinct, non-empty keys without ':' and ';', and with [reject_empty] no
    empty value list. *)
Theorem getenv_to_map_well_formed env name reject_empty m :
  getenv_to_map env name reject_empty = Ret (Some m) →
  NoDup m.*1 ∧
  Forall (λ kv, kv.1 ≠ EmptyString ∧ has_colon kv.1 = false ∧
                has_semicolon kv.1 = false ∧
                (reject_empty = true → kv.2 ≠ [])) m.
Proof.
  unfold getenv_to_map. destruct (ur_getenv env name) as [v|]; [|done].
  intros H. destruct (map_loop _ _ _) as [m'| |] eqn:E; try done. injection H as <-.
  apply map_loop_wf in E as [Hn Hw]; [|apply getlines_no_char|constructor|constructor].
  split; [done|]. eapply Forall_impl; [exact Hw|].
  intros kv ((?&?&?)&?). done.
Qed.

Lemma getenv_to_map_well_formed_witness :
  ∃ m, getenv_to_map (λ _, Some "b:1;a:'x:y'"%string) "V" true = Ret (Some m) ∧
       m = [("a", ["x:y"]); ("b", ["1"])]%string ∧ NoDup m.*1.
Proof.
  eexists. split; [reflexivity|]. split; [reflexivity|].
  eapply (proj1 (getenv_to_map_well_formed (λ _, Some "b:1;a:'x:y'"%string) "V" true _ eq_refl)).
Defined.

(** The delimiter of values is accepted in a key. *)
Lemma comma_in_key :
  getenv_to_map (λ _, Some "a,b:1"%string) "V" true = Ret (Some [("a,b", ["1"])])%string.
Proof. reflexivity. Qed.

Lemma vec_value_Undef v :
  vec_value v = Undef ↔ v = String "'" EmptyString ∨ v = String "034" EmptyString.
Proof.
  unfold vec_value. destruct v as [|c [|d v]].
  - cbn. naive_solver.
  - rewrite decide_False by done. cbn.
    destruct (Ascii.eqb_spec c "'") as [->|Hc]; cbn; [naive_solver|].
    destruct (Ascii.eqb_spec c "034") as [->|Hd]; cbn; [naive_solver|].
    destruct (_ || _); naive_solver.
  - rewrite decide_False by done. unfold is_quoted. cbn [string_front].
    destruct (string_back _) as [b|] eqn:Eb.
    + cbn. repeat case_match; naive_solver.
    + exfalso. revert c d Eb. induction v as [|e v IH]; intros c d Eb; [done|].
      by apply (IH d e).
Qed.

(** [getenv_to_vec] has undefined behaviour exactly when, after tokens that
    parse, it meets a token that is a single quotation mark. *)
Theorem getenv_to_vec_undefined env name :
  getenv_to_vec env name = Undef ↔
  ∃ v pre q post ks,
    ur_getenv env name = Some v ∧ getlines "," v = pre ++ q :: post ∧
    mapM vec_value pre = Ret ks ∧
    (q = String "'" EmptyString ∨ q = String "034" EmptyString).
Proof.
  unfold getenv_to_vec. destruct (ur_getenv env name) as [v|]; [|naive_solver].
  split.
  - intros H. assert (mapM vec_value (getlines "," v) = Undef) as Hm
      by (by destruct (mapM _ _)).
    apply mapM_Undef in Hm as (pre & q & post & ks & Hl & Hp & Hq).
    apply vec_value_Undef in Hq. by exists v, pre, q, post, ks.
  - intros (v' & pre & q & post & ks & [= <-] & Hl & Hp & Hq%vec_value_Undef).
    assert (mapM vec_value (getlines "," v) = Undef) as ->; [|done].
    apply mapM_Undef. by exists pre, q, post, ks.
Qed.

(** in every interleaving of [get], [get_direct], [release] and
    [forceDelete] by any number of threads, the singleton never leaks an
    instance and never deletes one twice: each created instance is either the
    current one or has been deleted exactly once, and a positive reference
    count implies a current instance. *)
Theorem singleton_never_leaks (s : AtomicSingleton.state) :
  rtc AtomicSingleton.step AtomicSingleton.init s →
  rc_ok (AtomicSingleton.instance s).
Proof.
  intros H. assert (rc_ok (AtomicSingleton.instance AtomicSingleton.init)) as H0
    by apply rc_init_ok.
  induction H as [s|s s' s'' Hs _ IH]; [done|]. eauto using singleton_step_ok.
Qed.

Lemma singleton_never_leaks_witness :
  rc_ok (AtomicSingleton.instance
           (AtomicSingleton.get_direct_locked 1 (AtomicSingleton.get 2
              (AtomicSingleton.get_direct_bypass 1 AtomicSingleton.init)))).
Proof.
  apply singleton_never_leaks.
  eapply rtc_l; [apply (AtomicSingleton.step_bypass _ 1); discriminate|].
  eapply rtc_l; [apply (AtomicSingleton.step_get _ 2); discriminate|].
  eapply rtc_l; [apply (AtomicSingleton.step_locked _ 1); reflexivity|].
  apply rtc_refl.
Defined.

(** after [n] calls of [get] (with [n] below the counter's range), the
    instance survives the first [n-1] releases and is deleted by the last. *)
Theorem rc_balanced n :
  (0 < n)%nat → Z.of_nat n < 2 ^ 64 →
  let s := Nat.iter n (λ s, (Rc.get_or_create true s).2) Rc.init in
  (∀ m, (m < n)%nat → Rc.ptr (Nat.iter m (λ s, (Rc.release s).2) s) = Some 0%nat) ∧
  Nat.iter n (λ s, (Rc.release s).2) s = Rc.mk None 0 1 [0%nat] ∧
  Rc.release (Rc.mk None 0 1 [0%nat]) = (-1, Rc.mk None 0 1 [0%nat]).
Proof.
  intros Hn Hb s. subst s. rewrite (rc_get_iter _ Hn Hb). split_and!; [| |done].
  - intros m Hm. by rewrite (rc_release_iter _ _ Hm).
  - destruct n as [|n]; [lia|]. rewrite Nat.iter_succ, rc_release_iter by lia.
    by replace (S n - n)%nat with 1%nat by lia.
Qed.

Lemma rc_balanced_witness :
  Rc.deleted (Nat.iter 3 (λ s, (Rc.release s).2)
                (Nat.iter 3 (λ s, (Rc.get_or_create true s).2) Rc.init)) = [0%nat].
Proof.
  destruct (rc_balanced 3) as (_ & H & _); [lia|lia|].
  cbn zeta in H. rewrite H. reflexivity.
Defined.

(** on a null-terminated list the walk ends, after at most one visit per
    node, with the first node of the wanted type, or null when there is none. *)
Theorem find_stype_node_first h want p l :
  is_list h p l →
  ∀ fuel, (length l < fuel)%nat →
  find_stype_node fuel h want p = Some (Ret (first_of_type want l)).
Proof.
  induction 1 as [|p nd l Hp Hnd _ IH]; intros [|fuel] Hf; cbn in *; try lia; [done|].
  rewrite (proj2 (Z.eqb_neq p 0) Hp), Hnd.
  destruct (stype nd =? want); [done|]. apply IH. lia.
Qed.

Lemma find_stype_node_first_witness :
  find_stype_node 3 (<[16 := {| stype := 7; pNext := 32 |}]>
                       {[32 := {| stype := 9; pNext := 0 |}]}) 9 16 = Some (Ret 32).
Proof.
  apply (find_stype_node_first _ 9 16
           [(16, {| stype := 7; pNext := 32 |}); (32, {| stype := 9; pNext := 0 |})]).
  - repeat (constructor; try done).
  - cbn. lia.
Defined.

(** [groupDigits] inserts separators into the decimal representation and
    changes nothing else: the digits fall into groups of three, the first
    group alone being shorter. *)
Theorem groupDigits_groups (n : Z) :
  ∃ sign g gs,
    groupDigits n = sign +:+ join "'" (g :: gs) ∧
    pretty n = sign +:+ string_concat (g :: gs) ∧
    (1 <= String.length g <= 3)%nat ∧
    Forall (λ g, String.length g = 3%nat) gs.
Proof.
  destruct (pretty_Z_sign n) as (d & Hd & Hp).
  destruct (group_loop_groups d Hd) as (g & gs & Hg & Hdg & Hl & Hgs).
  unfold groupDigits. rewrite Hp.
  assert (∀ s t, string_drop (String.length s) (s +:+ t) = t) as ->.
  { intros s t. induction s as [|c s IH]; [by rewrite string_app_nil_l|].
    rewrite string_app_cons. exact IH. }
  eexists _, g, gs. rewrite Hg. split_and!; [done|by rewrite Hdg| | |done];
    destruct (Nat.eqb_spec (String.length d mod 3) 0); lia_div.
Qed.

(** [splitMetadataName] cuts at the last [@]: the parts concatenate to the
    name, the second part is empty or starts with [@] and holds no other. *)
Theorem splitMetadataName_spec name :
  let '(a, b) := splitMetadataName name in
  a +:+ b = name ∧
  (b = EmptyString ∧ has_char "@" name = false ∨
   ∃ b', b = String "@" b' ∧ has_char "@" b' = false).
Proof.
  unfold splitMetadataName, substr. rewrite string_drop_0.
  destruct (rfind_char "@" name) as [n|] eqn:E.
  - rewrite (string_take_all (String.length name)) by (rewrite string_length_drop; lia).
    split; [apply string_take_drop|]. right. by apply rfind_char_Some.
  - rewrite string_app_nil_r. split; [done|]. left. split; [done|].
    by apply rfind_char_None.
Qed.
