(* ===== verification/DeviceSelector.v ===== *)
(** * DeviceSelector: [urDeviceGetSelected] of source/loader/ur_lib.cpp

    ONEAPI_DEVICE_SELECTOR is parsed into accept and discard filters, the
    devices of the platform are enumerated down to sub-sub-devices, and the
    filters select from them.  The adapter behind the platform is a parameter
    ([platform_api]); everything else is translated. *)
From S2P Require Import Prelude UrUtil.

(** ** Enumerations (numeric, as a caller may pass any value) *)

Definition UR_DEVICE_TYPE_DEFAULT : Z := 1.
Definition UR_DEVICE_TYPE_ALL : Z := 2.
Definition UR_DEVICE_TYPE_GPU : Z := 3.
Definition UR_DEVICE_TYPE_CPU : Z := 4.
Definition UR_DEVICE_TYPE_FPGA : Z := 5.
Definition UR_DEVICE_TYPE_MCA : Z := 6.

Definition UR_PLATFORM_BACKEND_UNKNOWN : Z := 0.
Definition UR_PLATFORM_BACKEND_LEVEL_ZERO : Z := 1.
Definition UR_PLATFORM_BACKEND_OPENCL : Z := 2.
Definition UR_PLATFORM_BACKEND_CUDA : Z := 3.
Definition UR_PLATFORM_BACKEND_HIP : Z := 4.
Definition UR_PLATFORM_BACKEND_NATIVE_CPU : Z := 5.

Definition platformBackendName (platformBackend : Z) : string :=
  if platformBackend =? UR_PLATFORM_BACKEND_UNKNOWN then "*"
  else if platformBackend =? UR_PLATFORM_BACKEND_LEVEL_ZERO then "level_zero"
  else if platformBackend =? UR_PLATFORM_BACKEND_OPENCL then "opencl"
  else if platformBackend =? UR_PLATFORM_BACKEND_CUDA then "cuda"
  else if platformBackend =? UR_PLATFORM_BACKEND_HIP then "hip"
  else if platformBackend =? UR_PLATFORM_BACKEND_NATIVE_CPU then "*"
  else "".

(** ** Filters and devices *)

Inductive DevicePartLevel := ROOT | SUB | SUBSUB.

#[export] Instance DevicePartLevel_eq_dec : EqDecision DevicePartLevel.
Proof. solve_decision. Defined.

(** [DeviceIdTypeALL] is -1 converted to [unsigned long]. *)
Definition DeviceIdTypeALL : Z := w64 (-1).

Record DeviceSpec := mkSpec {
  level : DevicePartLevel;
  hwType : Z;
  rootId : Z;
  subId : Z;
  subsubId : Z;
  urDeviceHandle : Z
}.

Definition getRootHardwareType (input : string) : Z :=
  let lowerInput := string_lower input in
  if decide (lowerInput = "cpu"%string) then UR_DEVICE_TYPE_CPU
  else if decide (lowerInput = "gpu"%string) then UR_DEVICE_TYPE_GPU
  else if decide (lowerInput = "fpga"%string) then UR_DEVICE_TYPE_FPGA
  else UR_DEVICE_TYPE_ALL.

Definition getDeviceId (input : string) : outcome Z :=
  if all_digits input then stoul_digits input else Ret DeviceIdTypeALL.

(** The body of the loop over the filter strings of a term.  The second part
    is taken with length [locationDot2 - locationDot1], as in the source. *)
Definition parse_filter (filterString : string) : outcome DeviceSpec :=
  match find_char "." filterString with
  | Some locationDot1 =>
      let firstPart := substr 0 (Some locationDot1) filterString in
      let hardwareType := getRootHardwareType firstPart in
      firstDeviceId ← getDeviceId firstPart;
      let locationDot2 :=
        (λ n, n + (locationDot1 + 1))%nat <$>
        find_char "." (string_drop (locationDot1 + 1) filterString) in
      let secondPart :=
        substr (locationDot1 + 1)
          ((λ d2, d2 - locationDot1)%nat <$> locationDot2) filterString in
      secondDeviceId ← getDeviceId secondPart;
      match locationDot2 with
      | Some d2 =>
          let thirdPart := substr (d2 + 1) None filterString in
          thirdDeviceId ← getDeviceId thirdPart;
          Ret (mkSpec SUBSUB hardwareType firstDeviceId secondDeviceId
                 thirdDeviceId 0)
      | None =>
          Ret (mkSpec SUB hardwareType firstDeviceId secondDeviceId 0 0)
      end
  | None =>
      let hardwareType := getRootHardwareType filterString in
      firstDeviceId ← getDeviceId filterString;
      Ret (mkSpec ROOT hardwareType firstDeviceId 0 0 0)
  end.

(** Every occurrence of "*." must start an occurrence of "*.*". *)
Fixpoint bad_wildcard (s : string) : bool :=
  match s with
  | EmptyString => false
  | String c s' =>
      if Ascii.eqb c "*" then
        match s' with
        | String d rest =>
            if Ascii.eqb d "." then
              match rest with
              | String e _ => if Ascii.eqb e "*" then bad_wildcard rest else true
              | EmptyString => true
              end
            else bad_wildcard s'
        | EmptyString => false
        end
      else bad_wildcard s'
  end.

(** Accept and discard lists being filled, or the code returned early. *)
Definition filter_lists : Type := list DeviceSpec * list DeviceSpec.

(** The body of the loop over [mapODS]. *)
Definition process_term (backendName : string)
    (termPair : string * list string) (lists : filter_lists)
  : outcome (ur_result_t + filter_lists) :=
  let '(term, filterStrings) := termPair in
  match string_front term with
  | None => Ret (inr lists)
  | Some c =>
      let discard := Ascii.eqb c "!" in
      let backend := if discard then string_drop 1 term else term in
      match string_front backend with
      | None => Undef                       (* backend.front() on "" *)
      | Some f =>
          if negb (Ascii.eqb f "*")
             && negb (bool_decide (string_lower backendName = string_lower backend))
          then Ret (inl UR_RESULT_ERROR_INVALID_VALUE)
          else if decide (filterStrings = [])
          then Ret (inl UR_RESULT_ERROR_INVALID_VALUE)
          else if existsb (λ s, bool_decide (s = EmptyString)) filterStrings
          then Ret (inr lists)
          else if existsb (λ s, (2 <? count_char "." s)%nat) filterStrings
          then Ret (inl UR_RESULT_ERROR_INVALID_VALUE)
          else if existsb bad_wildcard filterStrings
          then Ret (inl UR_RESULT_ERROR_INVALID_VALUE)
          else
            specs ← mapM parse_filter filterStrings;
            let '(acc, dis) := lists in
            Ret (inr (if discard then (acc, dis ++ specs) else (acc ++ specs, dis)))
      end
  end.

Fixpoint process_terms (backendName : string) (mapODS : EnvVarMap)
    (lists : filter_lists) : outcome (ur_result_t + filter_lists) :=
  match mapODS with
  | [] => Ret (inr lists)
  | t :: ts =>
      r ← process_term backendName t lists;
      match r with
      | inl code => Ret (inl code)
      | inr lists' => process_terms backendName ts lists'
      end
  end.

(** ** The adapter behind the platform *)

Record platform_api := {
  (* urPlatformGetInfo(UR_PLATFORM_INFO_BACKEND) *)
  pfnBackend : Z → ur_result_t * Z;
  (* urDeviceGet: the count query, and the query that fills [n] entries *)
  pfnDeviceCount : Z → ur_result_t * nat;
  pfnDeviceFill : Z → nat → ur_result_t * list Z;
  (* urDeviceGetInfo(UR_DEVICE_INFO_TYPE): the value written, if any *)
  pfnDeviceType : Z → option Z;
  (* urDevicePartition by next-partitionable affinity domain *)
  pfnPartitionCount : Z → ur_result_t * nat;
  pfnPartitionFill : Z → nat → ur_result_t * list Z
}.

(** A vector of [n] null handles filled from the front. *)
Definition filled (n : nat) (hs : list Z) : list Z :=
  take n (hs ++ replicate n 0).

Definition ur_ok (r : ur_result_t) : bool := bool_decide (r = UR_RESULT_SUCCESS).

Section enumeration.
Context (api : platform_api).

(** Root devices with their platform index, then [remove_if] by type. *)
Definition get_root_devices (hPlatform DeviceType : Z) : option (list DeviceSpec) :=
  let '(r1, n) := pfnDeviceCount api hPlatform in
  if negb (ur_ok r1) then None
  else
    let '(r2, hs) := pfnDeviceFill api hPlatform n in
    if negb (ur_ok r2) then None
    else
      let rootDevices :=
        imap (λ i h, mkSpec ROOT (default UR_DEVICE_TYPE_DEFAULT (pfnDeviceType api h))
                       (Z.of_nat i) DeviceIdTypeALL DeviceIdTypeALL h)
             (filled n hs) in
      Some (List.filter
              (λ d, (DeviceType =? UR_DEVICE_TYPE_ALL)
                    || (DeviceType =? UR_DEVICE_TYPE_DEFAULT)
                    || (DeviceType =? hwType d)) rootDevices).

(** The handles of the partition of a device; the error codes that the body of
    [std::for_each] returns are discarded, so a failing device adds none. *)
Definition partition (h : Z) : list Z :=
  let '(r1, n) := pfnPartitionCount api h in
  if negb (ur_ok r1) then []
  else
    let '(r2, hs) := pfnPartitionFill api h n in
    if negb (ur_ok r2) then [] else filled n hs.

Definition get_sub_devices (rootDevices : list DeviceSpec) : list DeviceSpec :=
  concat ((λ d, imap (λ i h, mkSpec SUB (hwType d) (rootId d) (Z.of_nat i)
                               DeviceIdTypeALL h)
                     (partition (urDeviceHandle d))) <$> rootDevices).

Definition get_sub_sub_devices (subDevices : list DeviceSpec) : list DeviceSpec :=
  concat ((λ d, imap (λ i h, mkSpec SUBSUB (hwType d) (rootId d) (subId d)
                               (Z.of_nat i) h)
                     (partition (urDeviceHandle d))) <$> subDevices).

End enumeration.

(** ** Selection *)

Definition ApplyFilter (filter device : DeviceSpec) : bool :=
  if rootId filter =? DeviceIdTypeALL then
    (hwType filter =? hwType device) || (hwType filter =? UR_DEVICE_TYPE_ALL)
  else if negb (rootId filter =? rootId device) then false
  else if decide (level filter = ROOT) then true
  else if subId filter =? DeviceIdTypeALL then true
  else if negb (subId filter =? subId device) then false
  else if decide (level filter = SUB) then true
  else if subsubId filter =? DeviceIdTypeALL then true
  else subsubId filter =? subsubId device.

(** The three device vectors. *)
Record device_lists := mkDevices {
  rootDevices : list DeviceSpec;
  subDevices : list DeviceSpec;
  subSubDevices : list DeviceSpec
}.

(** [erase(remove_if(...))] on the vector of the filter's level. *)
Definition erase_matching (f : DeviceSpec) (ds : device_lists) : device_lists :=
  let keep := List.filter (λ d, negb (ApplyFilter f d)) in
  match level f with
  | ROOT => mkDevices (keep (rootDevices ds)) (subDevices ds) (subSubDevices ds)
  | SUB => mkDevices (rootDevices ds) (keep (subDevices ds)) (subSubDevices ds)
  | SUBSUB => mkDevices (rootDevices ds) (subDevices ds) (keep (subSubDevices ds))
  end.

Definition at_level (l : DevicePartLevel) (ds : device_lists) : list DeviceSpec :=
  match l with
  | ROOT => rootDevices ds
  | SUB => subDevices ds
  | SUBSUB => subSubDevices ds
  end.

Definition apply_discards (discards : list DeviceSpec) (ds : device_lists)
  : device_lists :=
  foldl (λ ds f, erase_matching f ds) ds discards.

(** One accept filter: matching devices are copied out in order and erased. *)
Definition apply_accept (st : device_lists * list Z) (f : DeviceSpec)
  : device_lists * list Z :=
  let '(ds, selected) := st in
  (erase_matching f ds,
   selected ++ (urDeviceHandle <$> List.filter (ApplyFilter f) (at_level (level f) ds))).

Definition apply_accepts (accepts : list DeviceSpec) (ds : device_lists) : list Z :=
  (foldl apply_accept (ds, []) accepts).2.

Definition default_accept : DeviceSpec :=
  mkSpec ROOT UR_DEVICE_TYPE_ALL DeviceIdTypeALL 0 0 0.

(** ** The entry point *)

(** What the call wrote through its output pointers. *)
Record selection := mkSelection {
  out_devices : option (list Z);
  out_num : option Z
}.

Definition no_output : selection := mkSelection None None.

Definition valid_device_type (t : Z) : bool :=
  bool_decide (t ∈ [UR_DEVICE_TYPE_ALL; UR_DEVICE_TYPE_GPU; UR_DEVICE_TYPE_DEFAULT;
                    UR_DEVICE_TYPE_CPU; UR_DEVICE_TYPE_FPGA; UR_DEVICE_TYPE_MCA]).

Definition write_selection (selected : list Z) (NumEntries : Z) (pNumDevices : bool)
  : ur_result_t * selection :=
  if NumEntries =? 0 then
    (UR_RESULT_SUCCESS, mkSelection None (Some (w32 (Z.of_nat (length selected)))))
  else
    let numToCopy := Z.min NumEntries (Z.of_nat (length selected)) in
    let written := take (Z.to_nat numToCopy) selected in
    if pNumDevices then
      (UR_RESULT_ERROR_ADAPTER_SPECIFIC,
       mkSelection (Some written) (Some (w32 numToCopy)))
    else (UR_RESULT_SUCCESS, mkSelection (Some written) None).

(** Steps 6 to A of the source's plan, after the filters are known. *)
Definition select_devices (api : platform_api) (hPlatform DeviceType NumEntries : Z)
    (pNumDevices : bool) (lists : filter_lists) : ur_result_t * selection :=
  let '(accepts, discards) := lists in
  if decide (accepts = [] ∧ discards = []) then (UR_RESULT_SUCCESS, no_output)
  else
    let accepts := if decide (accepts = []) then [default_accept] else accepts in
    match get_root_devices api hPlatform DeviceType with
    | None => (UR_RESULT_ERROR_DEVICE_NOT_FOUND, no_output)
    | Some roots =>
        let subs := get_sub_devices api roots in
        let ds := mkDevices roots subs (get_sub_sub_devices api subs) in
        write_selection (apply_accepts accepts (apply_discards discards ds))
          NumEntries pNumDevices
    end.

Definition urDeviceGetSelected (env : environment) (api : platform_api)
    (hPlatform DeviceType NumEntries : Z) (phDevices pNumDevices : bool)
  : outcome (ur_result_t * selection) :=
  if hPlatform =? 0 then Ret (UR_RESULT_ERROR_INVALID_NULL_HANDLE, no_output)
  else if (NumEntries >? 0) && negb phDevices
  then Ret (UR_RESULT_ERROR_INVALID_NULL_POINTER, no_output)
  else if (NumEntries =? 0) && negb pNumDevices
  then Ret (UR_RESULT_ERROR_INVALID_SIZE, no_output)
  else if negb (valid_device_type DeviceType)
  then Ret (UR_RESULT_ERROR_INVALID_ENUMERATION, no_output)
  else
    maybeEnvVarMap ← getenv_to_map env "ONEAPI_DEVICE_SELECTOR" false;
    let mapODS := default [("*", ["*"])]%string maybeEnvVarMap in
    let '(r, platformBackend) := pfnBackend api hPlatform in
    if negb (ur_ok r) then Ret (UR_RESULT_ERROR_INVALID_PLATFORM, no_output)
    else
      lists ← process_terms (platformBackendName platformBackend) mapODS ([], []);
      Ret (match lists with
           | inl code => (code, no_output)
           | inr lists =>
               select_devices api hPlatform DeviceType NumEntries pNumDevices lists
           end).

(** The exported function: exceptions become result codes. *)
Definition urDeviceGetSelected_api env api hPlatform DeviceType NumEntries
    phDevices pNumDevices : option (ur_result_t * selection) :=
  match urDeviceGetSelected env api hPlatform DeviceType NumEntries
          phDevices pNumDevices with
  | Ret x => Some x
  | Throw e => Some (exceptionToResult (Some e), no_output)
  | Undef => None
  end.

(** ** Lemmas *)

Lemma at_level_erase l f ds :
  at_level l (erase_matching f ds) =
  if decide (level f = l)
  then List.filter (λ d, negb (ApplyFilter f d)) (at_level l ds) else at_level l ds.
Proof. unfold erase_matching. by destruct (level f) eqn:E, l. Qed.

(** A filter that selects a device: same level, and [ApplyFilter] holds. *)
Definition matches (l : DevicePartLevel) (f d : DeviceSpec) : bool :=
  bool_decide (level f = l) && ApplyFilter f d.

Lemma at_level_discards l discards ds :
  at_level l (apply_discards discards ds) =
  List.filter (λ d, negb (existsb (λ f, matches l f d) discards)) (at_level l ds).
Proof.
  unfold apply_discards. revert ds. induction discards as [|f fs IH]; intros ds; cbn.
  { symmetry. by apply filterb_true. }
  rewrite IH, at_level_erase. unfold matches at 2. case_decide as H.
  - rewrite filterb_filterb, bool_decide_eq_true_2 by done. cbn.
    apply List.filter_ext. intros d. by destruct (ApplyFilter f d).
  - by rewrite bool_decide_eq_false_2.
Qed.

Lemma elem_of_accepts accepts ds sel h :
  h ∈ (foldl apply_accept (ds, sel) accepts).2 ↔
  h ∈ sel ∨ ∃ l d f, d ∈ at_level l ds ∧ f ∈ accepts ∧ matches l f d = true ∧
                     h = urDeviceHandle d.
Proof.
  revert ds sel. induction accepts as [|f fs IH]; intros ds sel; cbn.
  { set_solver. }
  rewrite IH, elem_of_app, list_elem_of_fmap. clear IH.
  setoid_rewrite at_level_erase. setoid_rewrite elem_of_filterb.
  setoid_rewrite elem_of_cons. unfold matches. split.
  - intros [[?|(d & -> & Hd & Hf)]|(l & d & f' & Hd & Hf' & Hm & ->)]; [by left| |].
    + right. exists (level f), d, f. rewrite bool_decide_eq_true_2 by done. auto.
    + right. exists l, d, f'. split_and!; auto. case_decide; [|done].
      by apply elem_of_filterb in Hd as [? _].
  - intros [?|(l & d & f' & Hd & Hf' & Hm & ->)]; [by left; left|].
    destruct (ApplyFilter f d && bool_decide (level f = l)) eqn:E.
    { apply andb_true_iff in E as [E El%bool_decide_eq_true]. subst.
      left; right. eauto. }
    destruct Hf' as [->|Hf']; [exfalso; by rewrite andb_comm, E in Hm|].
    right. exists l, d, f'. split_and!; auto. case_decide; [|done].
    apply elem_of_filterb. split; [done|].
    rewrite bool_decide_eq_true_2, andb_true_r in E by done. by rewrite E.
Qed.

Definition all_handles (ds : device_lists) : list Z :=
  urDeviceHandle <$> (rootDevices ds ++ subDevices ds ++ subSubDevices ds).

Lemma apply_accept_Permutation ds sel f :
  (apply_accept (ds, sel) f).2 ++ all_handles (apply_accept (ds, sel) f).1 ≡ₚ
  sel ++ all_handles ds.
Proof.
  cbn. rewrite <- app_assoc. f_equiv. unfold all_handles, erase_matching.
  rewrite <- fmap_app. apply fmap_Permutation.
  destruct (level f); cbn [at_level rootDevices subDevices subSubDevices].
  - rewrite app_assoc, filterb_partition. done.
  - rewrite (Permutation_app_comm (rootDevices ds)), <- !app_assoc.
    rewrite app_assoc, filterb_partition.
    by rewrite (Permutation_app_comm (rootDevices ds)), <- !app_assoc.
  - rewrite !(app_assoc (rootDevices ds)).
    rewrite (Permutation_app_comm _ (List.filter (λ d, negb _) _)).
    rewrite app_assoc, filterb_partition.
    by rewrite (Permutation_app_comm (subSubDevices ds)).
Qed.

Lemma apply_accepts_Permutation accepts st :
  (foldl apply_accept st accepts).2 ++ all_handles (foldl apply_accept st accepts).1
  ≡ₚ st.2 ++ all_handles st.1.
Proof.
  revert st. induction accepts as [|f fs IH]; intros [ds sel]; [done|].
  cbn [foldl]. rewrite IH. apply apply_accept_Permutation.
Qed.

Lemma erase_matching_sublist f ds :
  all_handles (erase_matching f ds) `sublist_of` all_handles ds.
Proof.
  unfold all_handles, erase_matching.
  assert (∀ p (l : list DeviceSpec), List.filter p l `sublist_of` l) as Hs.
  { intros p l. induction l as [|x l IH]; cbn; [done|].
    destruct (p x); by constructor. }
  destruct (level f); cbn; rewrite !fmap_app;
    repeat apply sublist_app; try done; by apply fmap_sublist.
Qed.

Lemma apply_discards_sublist discards ds :
  all_handles (apply_discards discards ds) `sublist_of` all_handles ds.
Proof.
  unfold apply_discards. revert ds. induction discards as [|f fs IH]; intros ds; cbn; [done|].
  etrans; [apply IH|apply erase_matching_sublist].
Qed.

(** * Properties *)

(** C15: the filters select exactly what they say: a handle is returned iff it
    belongs to an enumerated device that some accept filter of its level
    matches and no discard filter of its level matches (discards win whatever
    the order of terms). *)
Theorem selection_spec accepts discards ds h :
  h ∈ apply_accepts accepts (apply_discards discards ds) ↔
  ∃ l d, d ∈ at_level l ds ∧ h = urDeviceHandle d ∧
         (∃ f, f ∈ accepts ∧ matches l f d = true) ∧
         (∀ f, f ∈ discards → matches l f d = false).
Proof.
  unfold apply_accepts. rewrite elem_of_accepts.
  setoid_rewrite at_level_discards. setoid_rewrite elem_of_filterb.
  assert (∀ l d, negb (existsb (λ f, matches l f d) discards) = true ↔
                 ∀ f, f ∈ discards → matches l f d = false) as Hn.
  { intros l d. rewrite negb_true_iff. split.
    - intros H f Hf. destruct (matches l f d) eqn:E; [|done].
      rewrite (proj2 (existsb_exists _ _)) in H; [done|].
      exists f. by rewrite <- list_elem_of_In.
    - intros H. apply not_true_iff_false. intros (f & Hf & Hm)%existsb_exists.
      rewrite <- list_elem_of_In in Hf. by rewrite H in Hm. }
  split.
  - intros [?%elem_of_nil|(l & d & f & [Hd Hx] & Hf & Hm & ->)]; [done|].
    exists l, d. split_and!; eauto. by apply Hn.
  - intros (l & d & Hd & -> & (f & Hf & Hm) & Hx). right.
    exists l, d, f. rewrite Hn. auto.
Qed.

(** when the enumerated devices have distinct handles no device is returned
    twice, however many filters match it. *)
Theorem selection_NoDup accepts discards ds :
  NoDup (all_handles ds) →
  NoDup (apply_accepts accepts (apply_discards discards ds)).
Proof.
  intros H. unfold apply_accepts.
  eapply (proj1 (NoDup_app _ (all_handles (foldl apply_accept (apply_discards discards ds, [])
                                     accepts).1))).
  eapply NoDup_Permutation_proper; [apply apply_accepts_Permutation|]. cbn.

  eapply sublist_NoDup; [done|apply apply_discards_sublist].
Qed.

Lemma selection_NoDup_witness :
  NoDup (apply_accepts [default_accept; mkSpec ROOT UR_DEVICE_TYPE_GPU DeviceIdTypeALL 0 0 0]
           (apply_discards []
              (mkDevices [mkSpec ROOT UR_DEVICE_TYPE_GPU 0 DeviceIdTypeALL DeviceIdTypeALL 17]
                 [] []))).
Proof. apply selection_NoDup. cbn. apply NoDup_singleton. Defined.

(** A decimal device number that fits [unsigned long]. *)
Definition device_number (s : string) : Prop :=
  all_digits s = true ∧ s ≠ EmptyString ∧ digits_val 0 s <= SIZE_MAX.

Lemma getDeviceId_number s : device_number s → getDeviceId s = Ret (digits_val 0 s).
Proof.
  intros (Hd & Hne & Hb). unfold getDeviceId, stoul_digits.
  rewrite Hd, decide_False by done. by rewrite (proj2 (Z.leb_le _ _) Hb).
Qed.

Lemma getRootHardwareType_number s :
  device_number s → getRootHardwareType s = UR_DEVICE_TYPE_ALL.
Proof.
  intros (Hd & _). unfold getRootHardwareType. rewrite (string_lower_digits _ Hd).
  by repeat (case_decide; [subst; discriminate|]).
Qed.

Lemma device_number_no_dot s : device_number s → has_char "." s = false.
Proof. intros (Hd & _). by apply all_digits_no_char. Qed.

#[local] Hint Resolve device_number_no_dot : core.

Lemma getDeviceId_trailing_dot s : getDeviceId (s +:+ ".") = Ret DeviceIdTypeALL.
Proof. unfold getDeviceId, all_digits. by rewrite string_forallb_app, andb_false_r. Qed.

(** numeric root and sub-device filters mean the numbers they print. *)
Theorem parse_filter_numbers a b :
  device_number a → device_number b →
  parse_filter a
    = Ret (mkSpec ROOT UR_DEVICE_TYPE_ALL (digits_val 0 a) 0 0 0) ∧
  parse_filter (a +:+ "." +:+ b)
    = Ret (mkSpec SUB UR_DEVICE_TYPE_ALL (digits_val 0 a) (digits_val 0 b) 0 0).
Proof.
  intros Ha Hb. unfold parse_filter. split.
  - rewrite find_char_None by auto.
    by rewrite (getDeviceId_number _ Ha), (getRootHardwareType_number _ Ha).
  - change ("." +:+ b) with (String "." b).
    rewrite find_char_app, string_drop_app, find_char_None by auto. unfold substr.
    rewrite string_drop_0, string_take_app, string_drop_app. cbn.
    by rewrite (getDeviceId_number _ Ha), (getRootHardwareType_number _ Ha),
      (getDeviceId_number _ Hb).
Qed.

Lemma parse_filter_numbers_witness :
  parse_filter "10" = Ret (mkSpec ROOT UR_DEVICE_TYPE_ALL 10 0 0 0).
Proof.
  refine (proj1 (parse_filter_numbers "10" "3" _ _));
    unfold device_number; split_and!; vm_compute; congruence.
Defined.

(** a numeric sub-sub-device filter [a.b.c] loses its middle number: the
    parsed filter has the wildcard sub-device id, and [ApplyFilter] then accepts
    every sub-sub-device of root [a], whatever [b] and [c] are. *)
Theorem parse_filter_subsub_ignores_sub a b c :
  device_number a → device_number b → device_number c →
  digits_val 0 a < DeviceIdTypeALL → digits_val 0 c < DeviceIdTypeALL →
  ∃ f,
    parse_filter (a +:+ "." +:+ b +:+ "." +:+ c) = Ret f ∧
    level f = SUBSUB ∧ subId f = DeviceIdTypeALL ∧
    ∀ d, rootId d = digits_val 0 a → ApplyFilter f d = true.
Proof.
  intros Ha Hb Hc Hav Hcv.
  eexists. split.
  - unfold parse_filter.
    change ("." +:+ c) with (String "." c).
    change ("." +:+ b +:+ String "." c) with (String "." (b +:+ String "." c)).
    rewrite find_char_app, string_drop_app, find_char_app by auto. unfold substr.
    rewrite string_drop_0, string_take_app, string_drop_app. cbn.
    rewrite (getDeviceId_number _ Ha), (getRootHardwareType_number _ Ha). cbn.
    replace (String.length b + (String.length a + 1) - String.length a)%nat
      with (String.length b + 1)%nat by lia.
    assert (string_take (String.length b + 1) (b +:+ String "." c) = b +:+ ".") as ->.
    { clear. induction b as [|x b IH]; [by destruct c|].
      rewrite !string_app_cons. cbn. by rewrite IH. }
    rewrite getDeviceId_trailing_dot. cbn.
    assert (string_drop (String.length b + (String.length a + 1) + 1)
              (a +:+ String "." (b +:+ String "." c)) = c) as ->.
    { replace (String.length b + (String.length a + 1) + 1)%nat
        with ((String.length b + 1) + (String.length a + 1))%nat by lia.
      rewrite <- string_drop_drop, !string_drop_app. done. }
    rewrite (getDeviceId_number _ Hc). reflexivity.
  - cbn. split_and!; [done..|]. intros d Hd. unfold ApplyFilter; cbn.
    destruct (Z.eqb_spec (digits_val 0 a) DeviceIdTypeALL); [lia|].
    rewrite Hd, Z.eqb_refl. done.
Qed.

Lemma parse_filter_subsub_ignores_sub_witness :
  ∃ f, parse_filter "0.1.2" = Ret f ∧
       ApplyFilter f (mkSpec SUBSUB UR_DEVICE_TYPE_GPU 0 5 7 99) = true.
Proof.
  destruct (parse_filter_subsub_ignores_sub "0" "1" "2") as (f & Hf & _ & _ & Hm).
  1-3: unfold device_number; split_and!; vm_compute; congruence.
  1-2: vm_compute; reflexivity.
  exists f. split; [exact Hf|]. apply Hm. reflexivity.
Defined.

(** The arguments pass the checks at the top of the function. *)
Definition valid_args (hPlatform DeviceType NumEntries : Z) (phDevices pNumDevices : bool)
  : Prop :=
  hPlatform ≠ 0 ∧ valid_device_type DeviceType = true ∧ 0 <= NumEntries ∧
  (0 < NumEntries → phDevices = true) ∧ (NumEntries = 0 → pNumDevices = true).

(** What remains of the function once the arguments are valid. *)
Lemma urDeviceGetSelected_valid env api hPlatform DeviceType NumEntries ph pn :
  valid_args hPlatform DeviceType NumEntries ph pn →
  urDeviceGetSelected env api hPlatform DeviceType NumEntries ph pn =
    (maybeEnvVarMap ← getenv_to_map env "ONEAPI_DEVICE_SELECTOR" false;
     let mapODS := default [("*", ["*"])]%string maybeEnvVarMap in
     let '(r, platformBackend) := pfnBackend api hPlatform in
     if negb (ur_ok r) then Ret (UR_RESULT_ERROR_INVALID_PLATFORM, no_output)
     else
       lists ← process_terms (platformBackendName platformBackend) mapODS ([], []);
       Ret (match lists with
            | inl code => (code, no_output)
            | inr lists => select_devices api hPlatform DeviceType NumEntries pn lists
            end)).
Proof.
  intros (Hp & Ht & Hn & Hph & Hpn). unfold urDeviceGetSelected.
  rewrite (proj2 (Z.eqb_neq _ _) Hp), Ht. cbn [negb].
  destruct (Z.gtb_spec NumEntries 0); cbn [andb].
  - rewrite Hph by lia. cbn. by rewrite (proj2 (Z.eqb_neq NumEntries 0)) by lia.
  - rewrite Hpn by lia. by rewrite andb_false_r.
Qed.

Lemma apply_default_accept ds :
  apply_accepts [default_accept] ds = urDeviceHandle <$> rootDevices ds.
Proof.
  unfold apply_accepts. cbn. f_equal. apply filterb_true.
  intros d _. unfold ApplyFilter. cbn. by rewrite orb_true_r.
Qed.

Lemma process_default_term name :
  process_terms name [("*", ["*"])]%string ([], []) = Ret (inr ([default_accept], [])).
Proof. reflexivity. Qed.

(** with the selector unset, every root device of the requested type is
    selected, in the order the adapter reports them, and no sub-device is. *)
Theorem default_selects_roots env api hPlatform DeviceType NumEntries ph pn b roots :
  valid_args hPlatform DeviceType NumEntries ph pn →
  env "ONEAPI_DEVICE_SELECTOR"%string = None →
  pfnBackend api hPlatform = (UR_RESULT_SUCCESS, b) →
  get_root_devices api hPlatform DeviceType = Some roots →
  urDeviceGetSelected env api hPlatform DeviceType NumEntries ph pn =
    Ret (write_selection (urDeviceHandle <$> roots) NumEntries pn).
Proof.
  intros Hv He Hb Hr. rewrite urDeviceGetSelected_valid by done.
  unfold getenv_to_map, ur_getenv. rewrite He. cbn [mbind outcome_bind default].
  rewrite Hb, process_default_term. cbn. rewrite Hr.
  by rewrite apply_default_accept.
Qed.

(** A platform with two GPUs (handles 17 and 18) and no partitions. *)
Definition two_gpus : platform_api := {|
  pfnBackend := λ _, (UR_RESULT_SUCCESS, UR_PLATFORM_BACKEND_LEVEL_ZERO);
  pfnDeviceCount := λ _, (UR_RESULT_SUCCESS, 2%nat);
  pfnDeviceFill := λ _ _, (UR_RESULT_SUCCESS, [17; 18]);
  pfnDeviceType := λ _, Some UR_DEVICE_TYPE_GPU;
  pfnPartitionCount := λ _, (UR_RESULT_ERROR_UNSUPPORTED_FEATURE, 0%nat);
  pfnPartitionFill := λ _ _, (UR_RESULT_ERROR_UNSUPPORTED_FEATURE, [])
|}.

Lemma default_selects_roots_witness :
  urDeviceGetSelected (λ _, None) two_gpus 1 UR_DEVICE_TYPE_GPU 1 true false
  = Ret (UR_RESULT_SUCCESS, mkSelection (Some [17]) None).
Proof.
  rewrite (default_selects_roots (λ _, None) two_gpus 1 UR_DEVICE_TYPE_GPU 1 true false
             UR_PLATFORM_BACKEND_LEVEL_ZERO
             [mkSpec ROOT UR_DEVICE_TYPE_GPU 0 DeviceIdTypeALL DeviceIdTypeALL 17;
              mkSpec ROOT UR_DEVICE_TYPE_GPU 1 DeviceIdTypeALL DeviceIdTypeALL 18]);
    [reflexivity| |reflexivity|reflexivity|reflexivity].
  unfold valid_args. by split_and!.
Defined.

(** a count query determines the selection that every later fill query
    copies a prefix of; a fill query that also passes [pNumDevices] reports
    [ADAPTER_SPECIFIC] although it filled the array. *)
Theorem count_then_fill env api hPlatform DeviceType ph n :
  valid_args hPlatform DeviceType 0 ph true →
  urDeviceGetSelected env api hPlatform DeviceType 0 ph true
    = Ret (UR_RESULT_SUCCESS, mkSelection None (Some n)) →
  ∃ selected, n = w32 (Z.of_nat (length selected)) ∧
    ∀ k pn, 0 < k →
      urDeviceGetSelected env api hPlatform DeviceType k true pn =
      Ret (if pn : bool then UR_RESULT_ERROR_ADAPTER_SPECIFIC else UR_RESULT_SUCCESS,
           mkSelection (Some (take (Z.to_nat k) selected))
             (if pn then Some (w32 (Z.min k (Z.of_nat (length selected)))) else None)).
Proof.
  intros Hv H. pose proof Hv as (Hp & Ht & _).
  assert (∀ k pn, 0 < k → valid_args hPlatform DeviceType k true pn) as Hk.
  { intros k pn Hk. unfold valid_args.
    split_and!; first [done | lia | intros; exfalso; lia]. }
  rewrite urDeviceGetSelected_valid in H by done.
  apply bind_Ret in H as (m & Em & H). cbn [mbind outcome_bind] in H.
  destruct (pfnBackend api hPlatform) as [r b] eqn:Eb.
  destruct (ur_ok r) eqn:Er; cbn in H; [|done].
  apply bind_Ret in H as ([code|[acc dis]] & El & H); cbn in H; [by destruct code|].
  unfold select_devices in H. case_decide as Hl; [done|].
  destruct (get_root_devices _ _ _) as [roots|] eqn:Eg; [|done].
  set (sel := apply_accepts (if decide (acc = []) then [default_accept] else acc)
                (apply_discards dis (mkDevices roots (get_sub_devices api roots)
                   (get_sub_sub_devices api (get_sub_devices api roots))))).
  exists sel.
  split; [by injection H as <-|]. intros k pn Hk0.
  rewrite urDeviceGetSelected_valid, Em by auto. cbn [mbind outcome_bind].
  rewrite Eb, Er. cbn. rewrite El. cbn. unfold select_devices.
  rewrite decide_False, Eg by done. fold sel. unfold write_selection.
  rewrite (proj2 (Z.eqb_neq k 0)) by lia.
  assert (take (Z.to_nat (Z.min k (Z.of_nat (length sel)))) sel = take (Z.to_nat k) sel) as ->.
  { destruct (Z.min_spec k (Z.of_nat (length sel))) as [[_ ->]|[? ->]]; [done|].
    rewrite Nat2Z.id, !take_ge; [done|lia|lia]. }
  by destruct pn.
Qed.

Lemma count_then_fill_witness :
  urDeviceGetSelected (λ _, Some "level_zero:1"%string) two_gpus 1 UR_DEVICE_TYPE_ALL 2
    true true
  = Ret (UR_RESULT_ERROR_ADAPTER_SPECIFIC, mkSelection (Some [18]) (Some 1)).
Proof.
  destruct (count_then_fill (λ _, Some "level_zero:1"%string) two_gpus 1
              UR_DEVICE_TYPE_ALL false 1) as (sel & Hn & H).
  - unfold valid_args. by split_and!.
  - reflexivity.
  - rewrite H by reflexivity.
    assert (sel = [18]) as ->; [|reflexivity].
    specialize (H 5 false eq_refl). vm_compute in H.
    destruct sel as [|x [|y sel]]; cbn in *; congruence.
Defined.

(** The backend part of a term, without the discard mark. *)
Definition term_backend (term : string) : string :=
  if is_prefix "!" term then string_drop 1 term else term.

Lemma process_term_foreign name k vs lists :
  term_backend k ≠ EmptyString →
  string_front (term_backend k) ≠ Some "*"%char →
  string_lower name ≠ string_lower (term_backend k) →
  process_term name (k, vs) lists = Ret (inl UR_RESULT_ERROR_INVALID_VALUE).
Proof.
  unfold process_term, term_backend. destruct k as [|c k]; [done|].
  cbn [is_prefix string_front]. rewrite (Ascii.eqb_sym "!" c), andb_true_r.
  generalize (if Ascii.eqb c "!" then string_drop 1 (String c k) else String c k).
  intros [|f b] Hne Hstar Hlow; [done|]. cbn [string_front] in *.
  rewrite bool_decide_eq_false_2 by done.
  destruct (Ascii.eqb_spec f "*") as [->|]; done.
Qed.

(** one well-formed term for another backend makes the whole call fail with
    [INVALID_VALUE] and return no device, even next to terms for the
    platform's own backend. *)
Theorem foreign_term_fails env api hPlatform DeviceType NumEntries ph pn b
    pre k vs post lists :
  valid_args hPlatform DeviceType NumEntries ph pn →
  getenv_to_map env "ONEAPI_DEVICE_SELECTOR" false = Ret (Some (pre ++ (k, vs) :: post)) →
  pfnBackend api hPlatform = (UR_RESULT_SUCCESS, b) →
  process_terms (platformBackendName b) pre ([], []) = Ret (inr lists) →
  term_backend k ≠ EmptyString →
  string_front (term_backend k) ≠ Some "*"%char →
  string_lower (platformBackendName b) ≠ string_lower (term_backend k) →
  urDeviceGetSelected env api hPlatform DeviceType NumEntries ph pn
    = Ret (UR_RESULT_ERROR_INVALID_VALUE, no_output).
Proof.
  intros Hv He Hb Hpre Hne Hstar Hlow. rewrite urDeviceGetSelected_valid by done.
  rewrite He. cbn [mbind outcome_bind from_option id]. cbv zeta. rewrite Hb.
  change (ur_ok UR_RESULT_SUCCESS) with true. cbn [negb].
  assert (process_terms (platformBackendName b) (pre ++ (k, vs) :: post) ([], [])
          = Ret (inl UR_RESULT_ERROR_INVALID_VALUE)) as ->; [|done].
  revert Hpre. generalize (([], []) : filter_lists). clear He.
  induction pre as [|t pre IH]; intros l Hpre; cbn [app process_terms] in *.
  - by rewrite process_term_foreign.
  - apply bind_Ret in Hpre as ([code|l'] & -> & Hpre); [done|]. cbn. by apply IH.
Qed.

Lemma foreign_term_fails_witness :
  urDeviceGetSelected (λ _, Some "level_zero:*;opencl:cpu"%string) two_gpus 1
    UR_DEVICE_TYPE_ALL 0 false true
  = Ret (UR_RESULT_ERROR_INVALID_VALUE, no_output).
Proof.
  eapply (foreign_term_fails _ _ _ _ _ _ _ UR_PLATFORM_BACKEND_LEVEL_ZERO
            [("level_zero", ["*"])]%string "opencl"%string ["cpu"]%string []).
  - unfold valid_args. by split_and!.
  - reflexivity.
  - reflexivity.
  - reflexivity.
  - discriminate.
  - discriminate.
  - vm_compute. discriminate.
Defined.
