(* ===== verification/AdapterRegistry.v ===== *)
(** * AdapterRegistry: source/loader/ur_adapter_registry.hpp, ur_loader.cpp

    Which adapter libraries the loader tries and in which order: forced
    adapters, the pre-filter of ONEAPI_DEVICE_SELECTOR, the search paths, mock
    mode, and the loading loop of [ur_loader::context_t::init].  The file
    system, [dladdr] and [dlopen] are parameters. *)
From S2P Require Import Prelude UrUtil.

(** ** [std::filesystem::path], on POSIX *)

Definition slash : ascii := "/".

Definition path_append (p name : string) : string :=
  if is_prefix "/" name then name
  else match string_back p with
       | None => name
       | Some c => if Ascii.eqb c slash then p +:+ name else p +:+ "/" +:+ name
       end.

Definition path_filename (p : string) : string :=
  match rfind_char slash p with
  | None => p
  | Some n => string_drop (n + 1) p
  end.

(** From the last dot on, unless that dot is the first character. *)
Definition path_extension (filename : string) : string :=
  if bool_decide (filename = ".."%string) then EmptyString
  else match rfind_char "." filename with
       | Some (S n) => string_drop (S n) filename
       | _ => EmptyString
       end.

Definition STATIC_LIBRARY_EXTENSION : string := ".a".

(** [MAKE_LIBRARY_NAME(NAME, "0")] on Linux. *)
Definition MAKE_LIBRARY_NAME (name : string) : string := "lib" +:+ name +:+ ".so.0".

Definition knownAdapterNames : list string :=
  MAKE_LIBRARY_NAME <$>
  ["ur_adapter_level_zero"; "ur_adapter_opencl"; "ur_adapter_cuda";
   "ur_adapter_hip"; "ur_adapter_native_cpu"]%string.

Definition mockAdapterName : string := MAKE_LIBRARY_NAME "ur_adapter_mock".

(** ** The pre-filter *)

Definition valid_backends : list string :=
  ["*"; "level_zero"; "opencl"; "cuda"; "hip"]%string.

(** What one term of the selector does: decides, rejects unless a later term
    accepts, or nothing. *)
Inductive term_effect := Accepts | Rejects | Ignored.

#[export] Instance term_effect_eq_dec : EqDecision term_effect.
Proof. solve_decision. Defined.

Definition prefilter_term (platformBackendName term : string) : term_effect :=
  match string_front term with
  | None => Ignored
  | Some c =>
      let discard := Ascii.eqb c "!" in
      let backend := if discard then string_drop 1 term else term in
      if negb (bool_decide (backend ∈ valid_backends)) then Ignored
      else
        let star := bool_decide (string_front backend = Some "*"%char) in
        let backendFound :=
          has_substring (string_lower backend) (string_lower platformBackendName) in
        if discard then (if backendFound || star then Rejects else Ignored)
        else if star || backendFound then Accepts else Rejects
  end.

(** The loop with its [acceptLibrary] flag. *)
Fixpoint prefilter_loop (platformBackendName : string) (acceptLibrary : bool)
    (mapODS : EnvVarMap) : ur_result_t :=
  match mapODS with
  | [] => if acceptLibrary then UR_RESULT_SUCCESS else UR_RESULT_ERROR_INVALID_VALUE
  | (term, _) :: rest =>
      match prefilter_term platformBackendName term with
      | Accepts => UR_RESULT_SUCCESS
      | Rejects => prefilter_loop platformBackendName false rest
      | Ignored => prefilter_loop platformBackendName acceptLibrary rest
      end
  end.

(** A selector that does not parse is ignored. *)
Definition readPreFilterODS (env : environment) (platformBackendName : string)
  : outcome ur_result_t :=
  match getenv_to_map env "ONEAPI_DEVICE_SELECTOR" false with
  | Throw _ => Ret UR_RESULT_SUCCESS
  | Undef => Undef
  | Ret m =>
      Ret (prefilter_loop platformBackendName true
             (default [("*", ["*"])]%string m))
  end.

(** ** The registry *)

Record host := {
  env : environment;
  fs_exists : string → outcome bool;          (* fs::exists; may throw *)
  loader_lib_path : option string;            (* getLoaderLibPath() *)
  load_library : string → option Z            (* LibLoader::loadAdapterLibrary *)
}.

Record registry := mkRegistry {
  adaptersLoadPaths : list (list string);
  forceLoaded : bool
}.

Definition getAdapterNameAsPath (adapterName : string) : option string := Some adapterName.

Section registry_ops.
Context (h : host).

(** Keep the paths that exist; an exception propagates. *)
Fixpoint existing_paths (paths : list string) : outcome (list string) :=
  match paths with
  | [] => Ret []
  | s :: paths' =>
      ex ← fs_exists h s;
      rest ← existing_paths paths';
      Ret (if ex : bool then s :: rest else rest)
  end.

Definition getEnvAdapterSearchPaths : outcome (option (list string)) :=
  match getenv_to_vec (env h) "UR_ADAPTERS_SEARCH_PATH" with
  | Throw Exn_invalid_argument => Ret None
  | Throw e => Throw e
  | Undef => Undef
  | Ret pathStringsOpt =>
      paths ← existing_paths (default [] pathStringsOpt);
      Ret (if decide (paths = []) then None else Some paths)
  end.

(** The candidates for one adapter, in search order. *)
Definition load_paths (searchPathsEnvOpt : option (list string)) (adapterName : string)
  : list string :=
  ((λ p, path_append p adapterName) <$> default [] searchPathsEnvOpt)
  ++ option_list (getAdapterNameAsPath adapterName)
  ++ option_list ((λ p, path_append p adapterName) <$> loader_lib_path h).

Fixpoint discover_loop (loaderPreFilter : bool) (searchPaths : option (list string))
    (names : list string) : outcome (list (list string)) :=
  match names with
  | [] => Ret []
  | adapterName :: names' =>
      keep ←
        (if loaderPreFilter
         then r ← readPreFilterODS (env h) adapterName; Ret (ur_result_is_zero r)
         else Ret true);
      rest ← discover_loop loaderPreFilter searchPaths names';
      Ret (if keep : bool then load_paths searchPaths adapterName :: rest else rest)
  end.

Definition discoverKnownAdapters : outcome (list (list string)) :=
  searchPathsEnvOpt ← getEnvAdapterSearchPaths;
  discover_loop (getenv_tobool (env h) "UR_LOADER_PRELOAD_FILTER" true)
    searchPathsEnvOpt knownAdapterNames.

(** One entry of UR_ADAPTERS_FORCE_LOAD: a static library is skipped, and an
    exception of [fs::exists] counts as non-existence. *)
Definition forced_path (s : string) : outcome bool :=
  if bool_decide (path_extension (path_filename s) = STATIC_LIBRARY_EXTENSION)
  then Ret false
  else match fs_exists h s with
       | Ret b => Ret b
       | Throw _ => Ret false
       | Undef => Undef
       end.

Fixpoint forced_loop (paths : list string) (r : registry) : outcome registry :=
  match paths with
  | [] => Ret r
  | s :: paths' =>
      ok ← forced_path s;
      forced_loop paths'
        (if ok : bool then mkRegistry (adaptersLoadPaths r ++ [[s]]) true else r)
  end.

(** The constructor. *)
Definition AdapterRegistry : outcome registry :=
  match getenv_to_vec (env h) "UR_ADAPTERS_FORCE_LOAD" with
  | Ret (Some forced) => forced_loop forced (mkRegistry [] false)
  | Ret None | Throw Exn_invalid_argument =>
      paths ← discoverKnownAdapters; Ret (mkRegistry paths false)
  | Throw e => Throw e
  | Undef => Undef
  end.

Definition enableMock (r : registry) : registry :=
  mkRegistry
    [option_list ((λ p, path_append p mockAdapterName) <$> loader_lib_path h)]
    (forceLoaded r).

(** ** [ur_loader::context_t::init] *)

Record loader_context := mkLoader {
  platforms : list Z;             (* the library handles *)
  forceIntercept : bool;
  intercept_enabled : bool
}.

(** The inner loop: the first candidate that loads. *)
Fixpoint load_first (adapterPaths : list string) : option Z :=
  match adapterPaths with
  | [] => None
  | path :: rest =>
      match load_library h path with
      | Some handle => Some handle
      | None => load_first rest
      end
  end.

Definition loader_init (r : registry) (c : loader_context)
  : ur_result_t * loader_context :=
  let platforms' := platforms c ++ omap load_first (adaptersLoadPaths r) in
  let force := getenv_tobool (env h) "UR_ENABLE_LOADER_INTERCEPT" false in
  (UR_RESULT_SUCCESS,
   mkLoader platforms' force
     (if force || (1 <? length platforms')%nat then true else intercept_enabled c)).

End registry_ops.

(** ** Lemmas *)

Lemma prefilter_loop_spec name acc m :
  prefilter_loop name acc m = UR_RESULT_SUCCESS ↔
  (∃ kv, kv ∈ m ∧ prefilter_term name kv.1 = Accepts) ∨
  (acc = true ∧ ∀ kv, kv ∈ m → prefilter_term name kv.1 ≠ Rejects).
Proof.
  revert acc. induction m as [|[k vs] m IH]; intros acc.
  - cbn. destruct acc; split; try done; set_solver.
  - cbn. setoid_rewrite elem_of_cons. destruct (prefilter_term name k) eqn:E.
    + split; [|done]. intros _. left. exists (k, vs). auto.
    + rewrite IH. split.
      * intros [(kv & ? & ?)|[? _]]; [eauto|done].
      * intros [(kv & [->|?] & Hk)|[_ H]]; [cbn in *; congruence|eauto|].
        exfalso. by apply (H (k, vs)); [left|].
    + rewrite IH. split.
      * intros [(kv & ? & ?)|[? H]]; [eauto|]. right. split; [done|].
        intros kv [->|?]; [cbn; congruence|by apply H].
      * intros [(kv & [->|?] & Hk)|[? H]]; [cbn in *; congruence|eauto|].
        right. split; [done|]. intros kv ?. apply H. by right.
Qed.

Lemma prefilter_loop_code name acc m :
  prefilter_loop name acc m = UR_RESULT_SUCCESS ∨
  prefilter_loop name acc m = UR_RESULT_ERROR_INVALID_VALUE.
Proof.
  revert acc. induction m as [|[k vs] m IH]; intros acc; cbn.
  - destruct acc; auto.
  - destruct (prefilter_term name k); auto.
Qed.

Lemma discover_loop_spec h pre sp names ls :
  discover_loop h pre sp names = Ret ls →
  ls = load_paths h sp <$>
       List.filter (λ n, negb pre || bool_decide (readPreFilterODS (env h) n
                                                  = Ret UR_RESULT_SUCCESS)) names.
Proof.
  revert ls. induction names as [|n names IH]; intros ls H; cbn [discover_loop] in H.
  { by ret_inv. }
  ret_inv. match goal with H : discover_loop _ _ _ _ = Ret _ |- _ => apply IH in H as -> end.
  cbn [List.filter]. destruct pre; cbn [negb orb] in *; ret_inv; [|done].
  match goal with H : readPreFilterODS _ _ = Ret ?r |- _ => rewrite H; clear H;
    destruct r; done end.
Qed.

Lemma forced_loop_spec h paths r r' :
  forced_loop h paths r = Ret r' →
  let kept := List.filter (λ s, bool_decide (forced_path h s = Ret true)) paths in
  adaptersLoadPaths r' = adaptersLoadPaths r ++ ((λ s, [s]) <$> kept) ∧
  forceLoaded r' = forceLoaded r || negb (bool_decide (kept = [])).
Proof.
  revert r. induction paths as [|s paths IH]; intros r H; cbn in *.
  { ret_inv. by rewrite app_nil_r, orb_false_r. }
  ret_inv. rename x into ok.
  match goal with H : forced_path h s = Ret _ |- _ => rewrite H end.
  apply IH in H as [-> ->]. destruct ok; cbn.
  - split; [by rewrite <- app_assoc|]. by rewrite orb_true_r.
  - done.
Qed.

(** * Properties *)

(** the pre-filter keeps an adapter exactly when some valid accept term
    names its library (or is [*]), or no valid term speaks against it: an
    accept term wins over every discard term, whatever their order. *)
Theorem prefilter_decision env name m :
  getenv_to_map env "ONEAPI_DEVICE_SELECTOR" false = Ret (Some m) →
  (readPreFilterODS env name = Ret UR_RESULT_SUCCESS ∧
   ((∃ kv, kv ∈ m ∧ prefilter_term name kv.1 = Accepts) ∨
    (∀ kv, kv ∈ m → prefilter_term name kv.1 ≠ Rejects))) ∨
  (readPreFilterODS env name = Ret UR_RESULT_ERROR_INVALID_VALUE ∧
   (∀ kv, kv ∈ m → prefilter_term name kv.1 ≠ Accepts) ∧
   ∃ kv, kv ∈ m ∧ prefilter_term name kv.1 = Rejects).
Proof.
  intros H. unfold readPreFilterODS. rewrite H. cbn [from_option id].
  destruct (prefilter_loop_code name true m) as [E|E]; rewrite E; [left|right].
  - split; [done|]. apply prefilter_loop_spec in E. naive_solver.
  - assert (¬ (∃ kv, kv ∈ m ∧ prefilter_term name kv.1 = Accepts)
            ∧ ¬ ∀ kv, kv ∈ m → prefilter_term name kv.1 ≠ Rejects) as [Ha Hr].
    { split; intros ?; assert (prefilter_loop name true m = UR_RESULT_SUCCESS)
        by (apply prefilter_loop_spec; auto); congruence. }
    split_and!; [done|naive_solver|].
    destruct (decide (Exists (λ kv, prefilter_term name kv.1 = Rejects) m)) as [He|He].
    { by apply Exists_exists in He. }
    exfalso. apply Hr. intros kv Hin Hk. apply He, Exists_exists. eauto.
Qed.

Lemma prefilter_decision_witness :
  readPreFilterODS (λ _, Some "cuda:*"%string) (MAKE_LIBRARY_NAME "ur_adapter_hip")
  = Ret UR_RESULT_ERROR_INVALID_VALUE.
Proof.
  destruct (prefilter_decision (λ _, Some "cuda:*"%string)
              (MAKE_LIBRARY_NAME "ur_adapter_hip") [("cuda", ["*"])]%string)
    as [[H _]|(H & _)]; [reflexivity|vm_compute in H; discriminate|exact H].
Defined.

(** C35: without forced adapters the candidates of each known adapter that passes
    the pre-filter come in the documented search order: every existing
    directory of UR_ADAPTERS_SEARCH_PATH, the bare library name for the
    operating system's search, the loader's own directory. *)
Theorem discovery_search_order h r :
  getenv_to_vec (env h) "UR_ADAPTERS_FORCE_LOAD" = Ret None →
  AdapterRegistry h = Ret r →
  ∃ dirs,
    getEnvAdapterSearchPaths h = Ret dirs ∧
    forceLoaded r = false ∧
    adaptersLoadPaths r =
      (λ name, ((λ d, path_append d name) <$> default [] dirs) ++ [name] ++
               option_list ((λ d, path_append d name) <$> loader_lib_path h))
      <$> List.filter
            (λ n, negb (getenv_tobool (env h) "UR_LOADER_PRELOAD_FILTER" true)
                  || bool_decide (readPreFilterODS (env h) n = Ret UR_RESULT_SUCCESS))
            knownAdapterNames.
Proof.
  intros Hf H. unfold AdapterRegistry, discoverKnownAdapters in H. rewrite Hf in H.
  ret_inv. match goal with H : getEnvAdapterSearchPaths h = Ret ?d |- _ => exists d end.
  split_and!; [done|done|].
  match goal with H : discover_loop _ _ _ _ = Ret _ |- _ =>
    apply discover_loop_spec in H as -> end.
  done.
Qed.

(** A host with one existing search directory and no loader directory. *)
Definition example_host : host := {|
  env := λ n, if decide (n = "UR_ADAPTERS_SEARCH_PATH"%string) then Some "/opt/ur,/none"%string
              else if decide (n = "ONEAPI_DEVICE_SELECTOR"%string) then Some "opencl:*"%string
              else None;
  fs_exists := λ p, Ret (bool_decide (p = "/opt/ur"%string));
  loader_lib_path := None;
  load_library := λ p, if decide (p = "libur_adapter_opencl.so.0"%string) then Some 7 else None
|}.

Lemma discovery_search_order_witness :
  ∃ r, AdapterRegistry example_host = Ret r ∧
    adaptersLoadPaths r
    = [["/opt/ur/libur_adapter_opencl.so.0"; "libur_adapter_opencl.so.0"]]%string.
Proof.
  eexists. split; [reflexivity|].
  edestruct (discovery_search_order example_host) as (dirs & Hd & _ & ->);
    [reflexivity|reflexivity|].
  assert (dirs = Some ["/opt/ur"]%string) as -> by (vm_compute in Hd; congruence).
  reflexivity.
Defined.

(** when UR_ADAPTERS_FORCE_LOAD is set and well formed, discovery is off:
    the registry holds exactly the listed paths that exist and are not static
    libraries, one candidate per adapter, in the order listed. *)
Theorem forced_adapters_only h forced r :
  getenv_to_vec (env h) "UR_ADAPTERS_FORCE_LOAD" = Ret (Some forced) →
  AdapterRegistry h = Ret r →
  let kept := List.filter (λ s, bool_decide (forced_path h s = Ret true)) forced in
  adaptersLoadPaths r = (λ s, [s]) <$> kept ∧
  (forceLoaded r = true ↔ kept ≠ []).
Proof.
  intros Hf H. unfold AdapterRegistry in H. rewrite Hf in H.
  apply forced_loop_spec in H as [-> ->]. cbn. split; [done|].
  case_bool_decide; naive_solver.
Qed.

(** A host that forces three paths: one loads, one is static, one is missing. *)
Definition forced_host : host := {|
  env := λ n, if decide (n = "UR_ADAPTERS_FORCE_LOAD"%string)
              then Some "/a/x.so,/a/x.a,/gone.so"%string else None;
  fs_exists := λ p, if decide (p = "/gone.so"%string) then Throw Exn_other else Ret true;
  loader_lib_path := None;
  load_library := λ _, None
|}.

Lemma forced_adapters_only_witness :
  ∃ l, AdapterRegistry forced_host = Ret (mkRegistry [["/a/x.so"]]%string l) ∧ l = true.
Proof.
  destruct (AdapterRegistry forced_host) as [r| |] eqn:Hr; [|vm_compute in Hr; discriminate..].
  pose proof (forced_adapters_only forced_host ["/a/x.so"; "/a/x.a"; "/gone.so"]%string r
                eq_refl Hr) as [Hp Hl].
  destruct r as [p l]. exists l. split.
  - cbn in Hp. rewrite Hp. reflexivity.
  - apply Hl. discriminate.
Defined.

(** loading takes at most one library per adapter, the first candidate that
    loads, keeps the registry's order, and turns interception on exactly when
    it is forced, was on, or more than one platform is present. *)
Theorem loader_init_platforms h r c :
  let '(res, c') := loader_init h r c in
  res = UR_RESULT_SUCCESS ∧
  (∃ loaded, platforms c' = platforms c ++ loaded ∧
     loaded `sublist_of` omap (load_first h) (adaptersLoadPaths r) ∧
     (length loaded <= length (adaptersLoadPaths r))%nat ∧
     ∀ p, p ∈ loaded ↔
       ∃ cands pre path post, cands ∈ adaptersLoadPaths r ∧
         cands = pre ++ path :: post ∧
         Forall (λ q, load_library h q = None) pre ∧ load_library h path = Some p) ∧
  (intercept_enabled c' = true ↔
   intercept_enabled c = true ∨ (1 < length (platforms c'))%nat ∨
   getenv_tobool (env h) "UR_ENABLE_LOADER_INTERCEPT" false = true).
Proof.
  cbn. split_and!; [done| |].
  - eexists. split_and!; [done|done| |].
    + induction (adaptersLoadPaths r) as [|l ls IH]; cbn; [done|].
      destruct (load_first h l); cbn; lia.
    + intros p. rewrite list_elem_of_omap.
      assert (∀ cands, load_first h cands = Some p ↔
        ∃ pre path post, cands = pre ++ path :: post ∧
          Forall (λ q, load_library h q = None) pre ∧ load_library h path = Some p) as Hl.
      { induction cands as [|q cands IH]; cbn.
        - split; [done|]. intros (pre & ? & ? & ? & _). by destruct pre.
        - destruct (load_library h q) as [hd|] eqn:E.
          + split; [intros [= ->]; by exists [], q, cands|].
            intros ([|? pre] & path & post & Heq & Hpre & Hp); cbn in Heq;
              simplify_eq; [done|]. inversion Hpre; congruence.
          + rewrite IH. split.
            * intros (pre & path & post & -> & ? & ?).
              exists (q :: pre), path, post. split_and!; [done|by constructor|done].
            * intros ([|? pre] & path & post & Heq & Hpre & Hp); cbn in Heq;
                simplify_eq. inversion Hpre. eauto 10. }
      setoid_rewrite Hl. naive_solver.
  - destruct (getenv_tobool _ _ _); cbn; [naive_solver|].
    destruct (Nat.ltb_spec 1 (length (platforms c ++ omap (load_first h)
                                         (adaptersLoadPaths r)))).
    + naive_solver.
    + split; [auto|]. intros [?|[?|?]]; [done|lia|done].
Qed.
