(* ===== verification/LoaderLib.v ===== *)
(** * LoaderLib: the loader library of source/loader/ur_lib.cpp, ur_lib.hpp

    Loader configuration objects, initialisation and tear-down of the loader
    context and its layers.  The layers compiled in, the environment and the
    result of [ddiInit] are parameters; calls into layers and into
    [ur_loader] are recorded as a trace of events. *)
From S2P Require Import Prelude UrUtil.

Inductive layer := Validation | Sanitizer | Tracing.

#[export] Instance layer_eq_dec : EqDecision layer.
Proof. solve_decision. Defined.

(** [getNames()] of each layer's context. *)
Definition getNames (l : layer) : list string :=
  match l with
  | Validation =>
      ["UR_LAYER_FULL_VALIDATION"; "UR_LAYER_PARAMETER_VALIDATION";
       "UR_LAYER_LEAK_CHECKING"; "UR_LAYER_BOUNDS_CHECKING";
       "UR_LAYER_LIFETIME_VALIDATION"]%string
  | Sanitizer => ["UR_LAYER_ASAN"; "UR_LAYER_MSAN"; "UR_LAYER_TSAN"]%string
  | Tracing => ["UR_LAYER_TRACING"]%string
  end.

(** The build options UR_ENABLE_SANITIZER and UR_ENABLE_TRACING. *)
Record build := { enable_sanitizer : bool; enable_tracing : bool }.

(** [context_t::layers]: sanitizer before tracing. *)
Definition layers (b : build) : list layer :=
  Validation :: (if enable_sanitizer b then [Sanitizer] else [])
  ++ (if enable_tracing b then [Tracing] else []).

(** [context_t::availableLayers()]: here tracing comes before the sanitizer;
    every name is followed by a semicolon and the last one is removed. *)
Definition availableLayers (b : build) : string :=
  let ls := Validation :: (if enable_tracing b then [Tracing] else [])
            ++ (if enable_sanitizer b then [Sanitizer] else []) in
  string_pop_back (foldr String.append EmptyString ((λ n, n +:+ ";") <$> (ls ≫= getNames))).

(** ** Configuration objects *)

Record codeloc_data := mkCodeloc { codelocCb : Z; codelocUserdata : Z }.

Record config := mkConfig {
  enabledLayers : gset string;
  refCount : Z;
  codelocData : codeloc_data;
  enableMock : bool
}.

Inductive event :=
| EvEnableMock
| EvLoaderInit
| EvLayerInit (l : layer) (names : gset string)
| EvLayerTearDown (l : layer)
| EvLayerDestroy (l : layer)
| EvLoaderDelete
| EvContextDelete.

(** The loader context: the [ur_lib::context_t] instance. *)
Record lib_context := mkContext {
  initOnce : bool;                       (* the once_flag has run *)
  enabledLayerNames : gset string;
  ctx_codeloc : codeloc_data
}.

(** Handles are addresses; 0 is null.  [configs] holds the live objects. *)
Record process := mkProcess {
  lock_held : bool;                      (* the singleton's spinlock *)
  lib_rc : Rc.t;
  lib_ctx : lib_context;                 (* the current instance, if any *)
  configs : gmap Z config;
  next_config : Z;
  trace : list event
}.

Definition set_configs (cs : gmap Z config) (s : process) : process :=
  mkProcess (lock_held s) (lib_rc s) (lib_ctx s) cs (next_config s) (trace s).

Definition no_codeloc : codeloc_data := mkCodeloc 0 0.

Definition new_config : config := mkConfig ∅ 1 no_codeloc false.

Definition urLoaderConfigCreate (phLoaderConfig : bool) (s : process)
  : ur_result_t * option Z * process :=
  if negb phLoaderConfig then (UR_RESULT_ERROR_INVALID_NULL_POINTER, None, s)
  else
    let h := next_config s in
    (UR_RESULT_SUCCESS, Some h,
     mkProcess (lock_held s) (lib_rc s) (lib_ctx s) (<[h := new_config]> (configs s))
       (h + 1) (trace s)).

Definition incrementReferenceCount (c : config) : Z * config :=
  let n := w32 (refCount c + 1) in
  (n, mkConfig (enabledLayers c) n (codelocData c) (enableMock c)).

Definition decrementReferenceCount (c : config) : Z * config :=
  let n := w32 (refCount c - 1) in
  (n, mkConfig (enabledLayers c) n (codelocData c) (enableMock c)).

(** Using a handle whose object is gone is undefined. *)
Definition with_config {A} (s : process) (h : Z) (f : config → outcome A) : outcome A :=
  match configs s !! h with Some c => f c | None => Undef end.

Definition urLoaderConfigRetain (h : Z) (s : process) : outcome (ur_result_t * process) :=
  if h =? 0 then Ret (UR_RESULT_ERROR_INVALID_NULL_HANDLE, s)
  else with_config s h (λ c,
    Ret (UR_RESULT_SUCCESS,
         set_configs (<[h := (incrementReferenceCount c).2]> (configs s)) s)).

Definition urLoaderConfigRelease (h : Z) (s : process) : outcome (ur_result_t * process) :=
  if h =? 0 then Ret (UR_RESULT_ERROR_INVALID_NULL_HANDLE, s)
  else with_config s h (λ c,
    let '(n, c') := decrementReferenceCount c in
    Ret (UR_RESULT_SUCCESS,
         set_configs (if n =? 0 then delete h (configs s) else <[h := c']> (configs s)) s)).

Definition UR_LOADER_CONFIG_INFO_AVAILABLE_LAYERS : Z := 0.
Definition UR_LOADER_CONFIG_INFO_REFERENCE_COUNT : Z := 1.

Inductive prop_value :=
| PropString (s : string)     (* the characters, then a terminating NUL *)
| PropU32 (n : Z).

(** What is written to [*pPropSizeRet] and to [pPropValue]. *)
Record info_out := mkInfo { size_ret : option Z; value_out : option prop_value }.

Definition urLoaderConfigGetInfo (b : build) (h propName propSize : Z)
    (pPropValue pPropSizeRet : bool) (s : process) : outcome (ur_result_t * info_out) :=
  if h =? 0 then Ret (UR_RESULT_ERROR_INVALID_NULL_HANDLE, mkInfo None None)
  else if negb pPropValue && negb pPropSizeRet
  then Ret (UR_RESULT_ERROR_INVALID_NULL_POINTER, mkInfo None None)
  else
    let answer size v :=
      let sz := if pPropSizeRet then Some size else None in
      if pPropValue then
        if propSize =? size then (UR_RESULT_SUCCESS, mkInfo sz (Some v))
        else (UR_RESULT_ERROR_INVALID_SIZE, mkInfo sz None)
      else (UR_RESULT_SUCCESS, mkInfo sz None) in
    if propName =? UR_LOADER_CONFIG_INFO_AVAILABLE_LAYERS then
      Ret (answer (Z.of_nat (String.length (availableLayers b)) + 1)
             (PropString (availableLayers b)))
    else if propName =? UR_LOADER_CONFIG_INFO_REFERENCE_COUNT then
      with_config s h (λ c, Ret (answer 4 (PropU32 (refCount c))))
    else Ret (UR_RESULT_ERROR_INVALID_ENUMERATION, mkInfo None None).

(** [pLayerName = None] is a null pointer. *)
Definition urLoaderConfigEnableLayer (b : build) (h : Z) (pLayerName : option string)
    (s : process) : outcome (ur_result_t * process) :=
  if h =? 0 then Ret (UR_RESULT_ERROR_INVALID_NULL_HANDLE, s)
  else match pLayerName with
  | None => Ret (UR_RESULT_ERROR_INVALID_NULL_POINTER, s)
  | Some name =>
      if negb (has_substring name (availableLayers b))
      then Ret (UR_RESULT_ERROR_LAYER_NOT_PRESENT, s)
      else with_config s h (λ c,
        Ret (UR_RESULT_SUCCESS,
             set_configs (<[h := mkConfig ({[name]} ∪ enabledLayers c) (refCount c)
                                   (codelocData c) (enableMock c)]> (configs s)) s))
  end.

Definition urLoaderConfigSetCodeLocationCallback (h pfnCodeloc pUserData : Z)
    (s : process) : outcome (ur_result_t * process) :=
  if h =? 0 then Ret (UR_RESULT_ERROR_INVALID_NULL_HANDLE, s)
  else if pfnCodeloc =? 0 then Ret (UR_RESULT_ERROR_INVALID_NULL_POINTER, s)
  else with_config s h (λ c,
    Ret (UR_RESULT_SUCCESS,
         set_configs (<[h := mkConfig (enabledLayers c) (refCount c)
                               (mkCodeloc pfnCodeloc pUserData) (enableMock c)]>
                        (configs s)) s)).

Definition urLoaderConfigSetMockingEnabled (h : Z) (enable : bool) (s : process)
  : outcome (ur_result_t * process) :=
  if h =? 0 then Ret (UR_RESULT_ERROR_INVALID_NULL_HANDLE, s)
  else with_config s h (λ c,
    Ret (UR_RESULT_SUCCESS,
         set_configs (<[h := mkConfig (enabledLayers c) (refCount c)
                               (codelocData c) enable]> (configs s)) s)).

(** ** The loader context *)

Definition parseEnvEnabledLayers (env : environment) : outcome (gset string) :=
  m ← getenv_to_map env "UR_ENABLE_LAYERS" false;
  Ret (list_to_set (default [] m).*1).

Definition UR_DEVICE_INIT_FLAGS_MASK : Z := 4294967264.  (* 0xffffffe0 *)

Section loader.
Context (env : environment) (b : build) (ddiInit : ur_result_t).

Definition initLayers (names : gset string) : list event :=
  (λ l, EvLayerInit l names) <$> layers b.

Definition tearDownLayers : list event :=
  rev (layers b) ≫= (λ l, [EvLayerTearDown l; EvLayerDestroy l]).

(** [context_t::Init]; [h = 0] is no configuration.  [std::set::merge] moves
    the names that the context does not have yet out of the configuration. *)
Definition Init (h : Z) (s : process) : outcome (ur_result_t * process) :=
  let run (cfg : option config) :=
    let mock := match cfg with Some c => enableMock c | None => false end in
    let ev1 := (if mock then [EvEnableMock] else []) ++ [EvLoaderInit] in
    let ctx := lib_ctx s in
    let names :=
      match cfg with
      | Some c => enabledLayerNames ctx ∪ enabledLayers c
      | None => enabledLayerNames ctx
      end in
    let code := match cfg with Some c => codelocData c | None => ctx_codeloc ctx end in
    let configs' :=
      match cfg with
      | Some c =>
          <[h := mkConfig (enabledLayers c ∩ enabledLayerNames ctx) (refCount c)
                   (codelocData c) (enableMock c)]> (configs s)
      | None => configs s
      end in
    let ev2 := if decide (names = ∅) then [] else initLayers names in
    Ret (ddiInit,
         mkProcess (lock_held s) (lib_rc s) (mkContext true names code) configs'
           (next_config s) (trace s ++ ev1 ++ ev2)) in
  if h =? 0 then run None else with_config s h (λ c, run (Some c)).

(** [AtomicSingleton<context_t>::get()].  [None]: the call spins forever on a
    lock that is never released.  A constructor that throws leaves the lock
    held and the count incremented. *)
Definition context_get (s : process) : option (outcome unit * process) :=
  if lock_held s then None
  else
    match Rc.ptr (lib_rc s) with
    | Some _ =>
        Some (Ret tt, mkProcess false (Rc.get_or_create true (lib_rc s)).2 (lib_ctx s)
                        (configs s) (next_config s) (trace s))
    | None =>
        match parseEnvEnabledLayers env with
        | Ret names =>
            Some (Ret tt, mkProcess false (Rc.get_or_create true (lib_rc s)).2
                            (mkContext false names no_codeloc)
                            (configs s) (next_config s) (trace s))
        | Throw e =>
            let rc := lib_rc s in
            Some (Throw e,
                  mkProcess true
                    (Rc.mk None (w64 (Rc.refcount rc + 1)) (Rc.created rc) (Rc.deleted rc))
                    (lib_ctx s) (configs s) (next_config s) (trace s))
        | Undef => Some (Undef, s)
        end
    end.

(** The exported [urLoaderInit] of ur_libapi.cpp around [ur_lib::urLoaderInit]:
    exceptions become result codes. *)
Definition urLoaderInit (device_flags h : Z) (s : process)
  : option (outcome (ur_result_t * process)) :=
  if negb (Z.land UR_DEVICE_INIT_FLAGS_MASK device_flags =? 0)
  then Some (Ret (UR_RESULT_ERROR_INVALID_ENUMERATION, s))
  else
    match context_get s with
    | None => None
    | Some (Ret _, s1) =>
        Some (if initOnce (lib_ctx s1) then Ret (UR_RESULT_SUCCESS, s1)
              else Init h s1)
    | Some (Throw e, s1) => Some (Ret (exceptionToResult (Some e), s1))
    | Some (Undef, _) => Some Undef
    end.

Definition urLoaderTearDown (s : process) : option (ur_result_t * process) :=
  if lock_held s then None
  else
    let '(ret, rc) := Rc.release (lib_rc s) in
    let deleted := (0 <? Rc.refcount (lib_rc s)) && (Rc.refcount rc =? 0) in
    Some
      (if ret =? 0 then UR_RESULT_SUCCESS else UR_RESULT_ERROR_UNINITIALIZED,
       mkProcess false rc (lib_ctx s) (configs s) (next_config s)
         (trace s ++
          if deleted then tearDownLayers ++ [EvLoaderDelete; EvContextDelete] else [])).

End loader.

(** ** What the layers make of the enabled names *)

(** [ur_validation_layer::context_t::init], up to the table set-up: the flags,
    and whether the layer's tables are installed at all. *)
Record validation_flags := mkValidation {
  enableParameterValidation : bool;
  enableBoundsChecking : bool;
  enableLeakChecking : bool;
  enableLifetimeValidation : bool;
  installed : bool
}.

Definition validation_init (names : gset string) : validation_flags :=
  let has n := bool_decide (n ∈ names) in
  let '(p, bnd, leak, life) :=
    if has "UR_LAYER_FULL_VALIDATION"%string then (true, true, true, true)
    else
      let bnd := has "UR_LAYER_BOUNDS_CHECKING"%string in
      let p := has "UR_LAYER_PARAMETER_VALIDATION"%string in
      let leak := has "UR_LAYER_LEAK_CHECKING"%string in
      let life := has "UR_LAYER_LIFETIME_VALIDATION"%string in
      (p, bnd, leak || life, life) in
  mkValidation p bnd leak life (negb (negb p && negb leak && negb life)).

Inductive SanitizerType := AddressSanitizer | MemorySanitizer.

(** [ur_sanitizer_layer::context_t::init]: the sanitizer it starts, if any. *)
Definition sanitizer_init (names : gset string) : option SanitizerType :=
  let asanEnabled := bool_decide ("UR_LAYER_ASAN"%string ∈ names) in
  let msanEnabled := bool_decide ("UR_LAYER_MSAN"%string ∈ names) in
  if asanEnabled && msanEnabled then None
  else if asanEnabled then Some AddressSanitizer
  else if msanEnabled then Some MemorySanitizer else None.

(** The process before the first call. *)
Definition fresh_process : process :=
  mkProcess false Rc.init (mkContext false ∅ no_codeloc) ∅ 1 [].

(** ** Sequences of calls *)

Fixpoint inits env b ddi (n : nat) (s : process) : option (list ur_result_t * process) :=
  match n with
  | O => Some ([], s)
  | S n' =>
      match urLoaderInit env b ddi 0 0 s with
      | Some (Ret (r, s')) =>
          match inits env b ddi n' s' with
          | Some (rs, s'') => Some (r :: rs, s'')
          | None => None
          end
      | _ => None
      end
  end.

Fixpoint teardowns b (n : nat) (s : process) : option (list ur_result_t * process) :=
  match n with
  | O => Some ([], s)
  | S n' =>
      match urLoaderTearDown b s with
      | Some (r, s') =>
          match teardowns b n' s' with
          | Some (rs, s'') => Some (r :: rs, s'')
          | None => None
          end
      | None => None
      end
  end.

(** ** Lemmas *)

(** A process whose context was initialised [n] times, [trace] being [tr]. *)
Definition running (n : Z) names tr : process :=
  mkProcess false (Rc.mk (Some 0%nat) n 1 []) (mkContext true names no_codeloc) ∅ 1 tr.

Lemma urLoaderInit_running env b ddi n names tr :
  0 <= n → n + 1 < 2 ^ 64 →
  urLoaderInit env b ddi 0 0 (running n names tr)
  = Some (Ret (UR_RESULT_SUCCESS, running (n + 1) names tr)).
Proof.
  intros H0 Hn. unfold urLoaderInit, running. cbn.
  unfold w64. rewrite Z.mod_small; [done|lia].
Qed.

Lemma inits_running env b ddi n names tr k :
  0 <= n → n + Z.of_nat k < 2 ^ 64 →
  inits env b ddi k (running n names tr)
  = Some (replicate k UR_RESULT_SUCCESS, running (n + Z.of_nat k) names tr).
Proof.
  revert n. induction k as [|k IH]; intros n H0 Hk.
  { by rewrite Z.add_0_r. }
  cbn [inits]. rewrite urLoaderInit_running by lia. rewrite IH by lia.
  by replace (n + 1 + Z.of_nat k) with (n + Z.of_nat (S k)) by lia.
Qed.

Lemma urLoaderTearDown_running b n names tr :
  1 < n →
  urLoaderTearDown b (running n names tr)
  = Some (UR_RESULT_SUCCESS, running (n - 1) names tr).
Proof.
  intros Hn. unfold urLoaderTearDown, running, Rc.release. cbn.
  destruct (Z.leb_spec n 0); [lia|].
  destruct (Z.eqb_spec (n - 1) 0); [lia|]. cbn.
  destruct (Z.eqb_spec (n - 1) 0); [lia|]. by rewrite andb_false_r, app_nil_r.
Qed.

Lemma teardowns_running b n names tr k :
  Z.of_nat k < n →
  teardowns b k (running n names tr)
  = Some (replicate k UR_RESULT_SUCCESS, running (n - Z.of_nat k) names tr).
Proof.
  revert n. induction k as [|k IH]; intros n Hk.
  { by rewrite Z.sub_0_r. }
  cbn [teardowns]. rewrite urLoaderTearDown_running by lia. rewrite IH by lia.
  by replace (n - 1 - Z.of_nat k) with (n - Z.of_nat (S k)) by lia.
Qed.

Lemma urLoaderInit_fresh env b ddi names :
  parseEnvEnabledLayers env = Ret names →
  urLoaderInit env b ddi 0 0 fresh_process
  = Some (Ret (ddi, running 1 names
                      (EvLoaderInit :: if decide (names = ∅) then [] else initLayers b names))).
Proof. intros H. unfold urLoaderInit, context_get. cbn. rewrite H. cbn. done. Qed.

Lemma urLoaderInit_config env b h c s names :
  parseEnvEnabledLayers env = Ret names → h ≠ 0 →
  lock_held s = false → Rc.ptr (lib_rc s) = None → configs s !! h = Some c →
  urLoaderInit env b UR_RESULT_SUCCESS 0 h s =
  Some (Ret (UR_RESULT_SUCCESS,
    mkProcess false (Rc.get_or_create true (lib_rc s)).2
      (mkContext true (names ∪ enabledLayers c) (codelocData c))
      (<[h := mkConfig (enabledLayers c ∩ names) (refCount c) (codelocData c)
                (enableMock c)]> (configs s))
      (next_config s)
      (trace s ++ ((if enableMock c then [EvEnableMock] else []) ++ [EvLoaderInit]) ++
       (if decide (names ∪ enabledLayers c = ∅) then []
        else initLayers b (names ∪ enabledLayers c))))).
Proof.
  intros Hp Hh Hl Hrc Hc. unfold urLoaderInit, context_get. rewrite Hl, Hrc, Hp. cbn.
  unfold Init, with_config. rewrite (proj2 (Z.eqb_neq _ _) Hh). cbn. by rewrite Hc.
Qed.

(** * Properties *)

(** C18: the first of [n+1] initialisations loads the adapters and starts the
    layers once, and its result is that of the set-up; the others report
    success.  Of the matching tear-downs only the last one tears the layers
    down, in the reverse of their start order, then deletes the loader; one
    tear-down more reports [UNINITIALIZED]. *)
Theorem loader_lifecycle env b ddi names n :
  parseEnvEnabledLayers env = Ret names → Z.of_nat (S n) < 2 ^ 64 →
  ∃ s1 s2 s3,
    inits env b ddi (S n) fresh_process
      = Some (ddi :: replicate n UR_RESULT_SUCCESS, s1) ∧
    trace s1 = EvLoaderInit :: (if decide (names = ∅) then [] else initLayers b names) ∧
    teardowns b n s1 = Some (replicate n UR_RESULT_SUCCESS, s2) ∧
    trace s2 = trace s1 ∧
    urLoaderTearDown b s2 = Some (UR_RESULT_SUCCESS, s3) ∧
    trace s3 = trace s1
               ++ (rev (layers b) ≫= (λ l, [EvLayerTearDown l; EvLayerDestroy l]))
               ++ [EvLoaderDelete; EvContextDelete] ∧
    ∃ s4, urLoaderTearDown b s3 = Some (UR_RESULT_ERROR_UNINITIALIZED, s4) ∧
          trace s4 = trace s3.
Proof.
  intros Hp Hn. cbn [inits]. rewrite (urLoaderInit_fresh _ _ _ _ Hp).
  rewrite inits_running by lia. do 3 eexists. split_and!; [done|done| | | | |].
  - apply teardowns_running. lia.
  - done.
  - replace (1 + Z.of_nat n - Z.of_nat n) with 1 by lia. reflexivity.
  - reflexivity.
  - eexists. split; [reflexivity|]. cbn. by rewrite app_nil_r.
Qed.

Lemma loader_lifecycle_witness :
  ∃ s, inits (λ n, if decide (n = "UR_ENABLE_LAYERS"%string)
                   then Some "UR_LAYER_FULL_VALIDATION"%string else None)
         {| enable_sanitizer := true; enable_tracing := true |}
         UR_RESULT_ERROR_UNINITIALIZED 2 fresh_process
       = Some ([UR_RESULT_ERROR_UNINITIALIZED; UR_RESULT_SUCCESS], s) ∧
       length (trace s) = 4%nat.
Proof.
  destruct (loader_lifecycle (λ n, if decide (n = "UR_ENABLE_LAYERS"%string)
                   then Some "UR_LAYER_FULL_VALIDATION"%string else None)
              {| enable_sanitizer := true; enable_tracing := true |}
              UR_RESULT_ERROR_UNINITIALIZED {["UR_LAYER_FULL_VALIDATION"%string]} 1)
    as (s1 & s2 & s3 & H1 & Ht & _); [reflexivity|reflexivity|].
  exists s1. split; [exact H1|]. rewrite Ht. reflexivity.
Defined.

(** initialising the loader moves the layer names out of the configuration:
    when the same configuration is used again after a tear-down and the
    environment enables nothing, no layer is started. *)
Theorem config_layers_lost env b h c s :
  parseEnvEnabledLayers env = Ret ∅ → h ≠ 0 →
  lock_held s = false → lib_rc s = Rc.init → configs s !! h = Some c →
  enabledLayers c ≠ ∅ →
  ∃ s1 s2 s3,
    urLoaderInit env b UR_RESULT_SUCCESS 0 h s = Some (Ret (UR_RESULT_SUCCESS, s1)) ∧
    enabledLayerNames (lib_ctx s1) = enabledLayers c ∧
    urLoaderTearDown b s1 = Some (UR_RESULT_SUCCESS, s2) ∧
    urLoaderInit env b UR_RESULT_SUCCESS 0 h s2 = Some (Ret (UR_RESULT_SUCCESS, s3)) ∧
    enabledLayerNames (lib_ctx s3) = ∅ ∧
    (∀ l names, EvLayerInit l names ∉ drop (length (trace s2)) (trace s3)).
Proof.
  intros Hp Hh Hl Hrc Hc Hne.
  rewrite (urLoaderInit_config _ _ _ _ _ _ Hp Hh Hl (f_equal Rc.ptr Hrc) Hc).
  do 3 eexists. split_and!; [done| |cbn; rewrite Hrc; done| | |].
  - cbn. set_solver.
  - eapply urLoaderInit_config; [done|done|done|done|].
    cbn. apply lookup_insert_eq.
  - cbn. set_solver.
  - intros l names. cbn. rewrite drop_app_length, decide_True by set_solver.
    destruct (enableMock c); set_solver.
Qed.

Lemma config_layers_lost_witness :
  ∃ s, enabledLayerNames (lib_ctx s) = ∅ ∧
       (∃ s1, urLoaderInit (λ _, None) {| enable_sanitizer := false; enable_tracing := false |}
                UR_RESULT_SUCCESS 0 1
                (set_configs {[1 := mkConfig {["UR_LAYER_TRACING"%string]} 1 no_codeloc false]}
                   fresh_process) = Some (Ret (UR_RESULT_SUCCESS, s1))).
Proof.
  destruct (config_layers_lost (λ _, None)
              {| enable_sanitizer := false; enable_tracing := false |} 1
              (mkConfig {["UR_LAYER_TRACING"%string]} 1 no_codeloc false)
              (set_configs {[1 := mkConfig {["UR_LAYER_TRACING"%string]} 1 no_codeloc false]}
                 fresh_process))
    as (s1 & s2 & s3 & H1 & _ & _ & _ & H3 & _);
    [reflexivity|discriminate|reflexivity|reflexivity|reflexivity| |].
  - cbn. intros H. assert ("UR_LAYER_TRACING"%string ∈ (∅ : gset string)) as Hx
      by (rewrite <- H; by apply elem_of_singleton).
    by apply elem_of_empty in Hx.
  - exists s3. split; [exact H3|]. by exists s1.
Defined.

(** when UR_ENABLE_LAYERS does not parse, the first initialisation reports an
    error but leaves the singleton's spinlock taken, so every later
    initialisation or tear-down never returns. *)
Theorem bad_layers_env_deadlocks env b ddi e h :
  parseEnvEnabledLayers env = Throw e →
  ∃ s, urLoaderInit env b ddi 0 h fresh_process
         = Some (Ret (exceptionToResult (Some e), s)) ∧
       (∀ flags h', Z.land UR_DEVICE_INIT_FLAGS_MASK flags = 0 →
                    urLoaderInit env b ddi flags h' s = None) ∧
       urLoaderTearDown b s = None.
Proof.
  intros Hp. unfold urLoaderInit at 1, context_get. cbn. rewrite Hp. cbn.
  eexists. split_and!; [done| |done].
  intros flags h' Hf. unfold urLoaderInit. rewrite Hf. done.
Qed.

Lemma bad_layers_env_deadlocks_witness :
  ∃ s, urLoaderInit (λ _, Some "UR_LAYER_TRACING;UR_LAYER_TRACING"%string)
         {| enable_sanitizer := true; enable_tracing := true |} UR_RESULT_SUCCESS 0 0
         fresh_process = Some (Ret (UR_RESULT_ERROR_UNKNOWN, s)).
Proof.
  destruct (bad_layers_env_deadlocks (λ _, Some "UR_LAYER_TRACING;UR_LAYER_TRACING"%string)
              {| enable_sanitizer := true; enable_tracing := true |} UR_RESULT_SUCCESS
              Exn_invalid_argument 0) as (s & H & _); [reflexivity|].
  exists s. exact H.
Defined.

(** every name of a compiled layer can be enabled, and takes effect in the
    configuration; but so can any substring of the list of names, such as the
    empty name or UR_LAYER, which names no layer. *)
Theorem enableLayer_accepts b h c s name :
  h ≠ 0 → configs s !! h = Some c →
  (∃ l, l ∈ layers b ∧ name ∈ getNames l) ∨ name = EmptyString ∨ name = "UR_LAYER"%string →
  ∃ s', urLoaderConfigEnableLayer b h (Some name) s = Ret (UR_RESULT_SUCCESS, s') ∧
        (∃ c', configs s' !! h = Some c' ∧ enabledLayers c' = {[name]} ∪ enabledLayers c) ∧
        (name = "UR_LAYER"%string → ∀ l, name ∉ getNames l).
Proof.
  intros Hh Hc Hn. unfold urLoaderConfigEnableLayer, with_config.
  rewrite (proj2 (Z.eqb_neq _ _) Hh), Hc.
  assert (has_substring name (availableLayers b) = true) as ->.
  { destruct b as [[] []]; destruct Hn as [(l & Hl & Hn)|[->| ->]]; try reflexivity;
      unfold layers in Hl; cbn in Hl;
      repeat (apply elem_of_cons in Hl as [->|Hl];
              [cbn in Hn; repeat (apply elem_of_cons in Hn as [->|Hn]; [reflexivity|]);
               by apply elem_of_nil in Hn|]);
      by apply elem_of_nil in Hl. }
  cbn. eexists. split_and!; [done| |].
  - cbn. eexists. split; [apply lookup_insert_eq|done].
  - intros -> []; cbn; rewrite !elem_of_cons, elem_of_nil; intuition discriminate.
Qed.

Lemma enableLayer_accepts_witness :
  ∃ s', urLoaderConfigEnableLayer {| enable_sanitizer := false; enable_tracing := false |} 1
          (Some "UR_LAYER"%string) (set_configs {[1 := new_config]} fresh_process)
        = Ret (UR_RESULT_SUCCESS, s').
Proof.
  destruct (enableLayer_accepts {| enable_sanitizer := false; enable_tracing := false |} 1
              new_config (set_configs {[1 := new_config]} fresh_process) "UR_LAYER"%string)
    as (s' & H & _); [discriminate|reflexivity|by right; right|].
  exists s'. exact H.
Defined.

(** the validation layer installs its tables exactly when parameter, leak or
    lifetime validation is asked for, alone or as full validation: bounds
    checking on its own is recorded but never takes effect. *)
Theorem validation_installed_iff names :
  let f := validation_init names in
  (installed f = true ↔
     "UR_LAYER_FULL_VALIDATION"%string ∈ names ∨
     "UR_LAYER_PARAMETER_VALIDATION"%string ∈ names ∨
     "UR_LAYER_LEAK_CHECKING"%string ∈ names ∨
     "UR_LAYER_LIFETIME_VALIDATION"%string ∈ names) ∧
  (enableLifetimeValidation f = true → enableLeakChecking f = true) ∧
  (names = {["UR_LAYER_BOUNDS_CHECKING"%string]} →
   enableBoundsChecking f = true ∧ installed f = false).
Proof.
  cbn zeta. unfold validation_init. split; [|split].
  - destruct (decide ("UR_LAYER_FULL_VALIDATION"%string ∈ names));
      [rewrite bool_decide_eq_true_2 by done; cbn; naive_solver|].
    rewrite bool_decide_eq_false_2 by done. cbn.
    rewrite !negb_andb, !negb_involutive, !orb_true_iff, !bool_decide_eq_true. tauto.
  - destruct (bool_decide ("UR_LAYER_FULL_VALIDATION"%string ∈ names)); [done|].
    cbn. intros ->. apply orb_true_r.
  - intros ->. by vm_compute.
Qed.
