(* ===== verification/PoolConfig.v ===== *)
(** * PoolConfig: source/common/umf_pools/disjoint_pool_config_parser.cpp

    The parser of the USM pool settings.  Undefined behaviour is explicit:
    reading [Param[Length - 1]] with [Length = 0], and reading [ParamWasSet]
    before it was written.  Printing of the settings is not modelled. *)
From S2P Require Import Prelude.

Inductive DisjointPoolMemType := Host | Device | Shared | SharedReadOnly | All.

#[export] Instance DisjointPoolMemType_eq_dec : EqDecision DisjointPoolMemType.
Proof. solve_decision. Defined.

Record umf_disjoint_pool_config_t := mkPool {
  SlabMinSize : Z;
  MaxPoolableSize : Z;
  Capacity : Z;
  MinBucketSize : Z;
  PoolTrace : Z;
  SharedLimits : option Z;     (* the size given to umfDisjointPoolSharedLimitsCreate *)
  Name : string
}.

(** [Configs[DisjointPoolMemType::All]]: one entry per memory type. *)
Record configs := mkConfigs {
  host_cfg : umf_disjoint_pool_config_t;
  device_cfg : umf_disjoint_pool_config_t;
  shared_cfg : umf_disjoint_pool_config_t;
  shared_ro_cfg : umf_disjoint_pool_config_t
}.

Record DisjointPoolAllConfigs := mkAll {
  EnableBuffers : Z;
  limits : option Z;
  Configs : configs
}.

Definition get_cfg (t : DisjointPoolMemType) (c : configs) : umf_disjoint_pool_config_t :=
  match t with
  | Host | All => host_cfg c
  | Device => device_cfg c
  | Shared => shared_cfg c
  | SharedReadOnly => shared_ro_cfg c
  end.

(** Change one entry, or all of them. *)
Definition upd_cfg (t : DisjointPoolMemType)
    (f : umf_disjoint_pool_config_t → umf_disjoint_pool_config_t) (c : configs) : configs :=
  match t with
  | Host => mkConfigs (f (host_cfg c)) (device_cfg c) (shared_cfg c) (shared_ro_cfg c)
  | Device => mkConfigs (host_cfg c) (f (device_cfg c)) (shared_cfg c) (shared_ro_cfg c)
  | Shared => mkConfigs (host_cfg c) (device_cfg c) (f (shared_cfg c)) (shared_ro_cfg c)
  | SharedReadOnly =>
      mkConfigs (host_cfg c) (device_cfg c) (shared_cfg c) (f (shared_ro_cfg c))
  | All => mkConfigs (f (host_cfg c)) (f (device_cfg c)) (f (shared_cfg c)) (f (shared_ro_cfg c))
  end.

Definition KB : Z := 1024.
Definition MB : Z := 1024 * 1024.
Definition GB : Z := 1024 * 1024 * 1024.

(** The constructor [DisjointPoolAllConfigs(trace)]. *)
Definition default_configs (trace : Z) : DisjointPoolAllConfigs :=
  mkAll 1 None
    (mkConfigs
       (mkPool (64 * KB) (2 * MB) 4 64 trace None "Host")
       (mkPool (64 * KB) (4 * MB) 4 512 trace None "Device")
       (mkPool (2 * MB) 0 0 512 trace None "Shared")
       (mkPool (2 * MB) (4 * MB) 4 512 trace None "SharedReadOnly")).

(** [tolower(Param[Length - 1]) == c], stripping the suffix when it holds. *)
Definition strip_suffix (Param : string) (c : ascii) (mult : Z) (st : nat * Z)
  : outcome (nat * Z) :=
  let '(Length, Multiplier) := st in
  match Length with
  | O => Undef
  | S n =>
      match String.get n Param with
      | Some x => Ret (if Ascii.eqb (tolower x) c then (n, mult) else st)
      | None => Undef
      end
  end.

Definition GetValue (Param : string) (Length : nat) (Setting : Z) : outcome Z :=
  st ← strip_suffix Param "k" KB (Length, 1);
  st ← strip_suffix Param "m" MB st;
  '(Length, Multiplier) ← strip_suffix Param "g" GB st;
  let TheNumber := string_take Length Param in
  if all_digits TheNumber then
    n ← stoi_digits TheNumber;
    Ret (w64 (n * Multiplier))
  else Ret Setting.

(** [ParamParser]: [ParamWasSet = None] is an uninitialised variable. *)
Record param_result := mkParam {
  More : bool;
  rest : string;
  setting : Z;
  ParamWasSet : option bool
}.

Definition ParamParser (Params : string) (Setting : Z) (wasSet : option bool)
  : outcome param_result :=
  if decide (Params = EmptyString) then Ret (mkParam false Params Setting (Some false))
  else match find_char "," Params with
  | Some Pos =>
      r ←
        (if (0 <? Pos)%nat then v ← GetValue Params Pos Setting; Ret (v, Some true)
         else Ret (Setting, wasSet));
      let '(v, ws) := r in
      Ret (mkParam true (string_drop (Pos + 1) Params) v ws)
  | None =>
      v ← GetValue Params (String.length Params) Setting;
      Ret (mkParam false Params v (Some true))
  end.

Definition set_MaxPoolableSize (v : Z) (c : umf_disjoint_pool_config_t) :=
  mkPool (SlabMinSize c) v (Capacity c) (MinBucketSize c) (PoolTrace c) (SharedLimits c) (Name c).
Definition set_Capacity (v : Z) (c : umf_disjoint_pool_config_t) :=
  mkPool (SlabMinSize c) (MaxPoolableSize c) v (MinBucketSize c) (PoolTrace c)
    (SharedLimits c) (Name c).
Definition set_SlabMinSize (v : Z) (c : umf_disjoint_pool_config_t) :=
  mkPool v (MaxPoolableSize c) (Capacity c) (MinBucketSize c) (PoolTrace c)
    (SharedLimits c) (Name c).

(** One of the three stages of [MemParser]: parse into the entry of the type
    (the host's for [All]), then copy to every entry when [ParamWasSet]. *)
Definition mem_stage (memType : DisjointPoolMemType)
    (get : umf_disjoint_pool_config_t → Z)
    (set : Z → umf_disjoint_pool_config_t → umf_disjoint_pool_config_t)
    (Params : string) (wasSet : option bool) (c : configs)
  : outcome (bool * string * option bool * configs) :=
  let LM := if decide (memType = All) then Host else memType in
  r ← ParamParser Params (get (get_cfg LM c)) wasSet;
  let c1 := upd_cfg LM (set (setting r)) c in
  match ParamWasSet r with
  | None => Undef
  | Some ws =>
      Ret (More r, rest r, ParamWasSet r,
           if ws && bool_decide (memType = All)
           then upd_cfg All (set (get (get_cfg LM c1))) c1 else c1)
  end.

Definition MemParser (Params : string) (memType : DisjointPoolMemType) (c : configs)
  : outcome configs :=
  r ← mem_stage memType MaxPoolableSize set_MaxPoolableSize Params None c;
  let '(more, ps, ws, c) := r in
  r ← (if more : bool then mem_stage memType Capacity set_Capacity ps ws c
       else Ret (false, ps, ws, c));
  let '(more, ps, ws, c) := r in
  r ← (if more : bool then mem_stage memType SlabMinSize set_SlabMinSize ps ws c
       else Ret (false, ps, ws, c));
  let '(_, _, _, c) := r in
  Ret c.

Definition MemTypeParser (Params : string) (c : configs) : outcome configs :=
  if is_prefix "host:" Params then MemParser (string_drop 5 Params) Host c
  else if is_prefix "device:" Params then MemParser (string_drop 7 Params) Device c
  else if is_prefix "shared:" Params then MemParser (string_drop 7 Params) Shared c
  else if is_prefix "read_only_shared:" Params
  then MemParser (string_drop 17 Params) SharedReadOnly c
  else MemParser Params All c.

(** The pieces between the separators; unlike with [getline], a trailing
    separator is followed by an empty piece. *)
Fixpoint split_all (d : ascii) (s : string) : list string :=
  match s with
  | EmptyString => [EmptyString]
  | String c s' =>
      if Ascii.eqb c d then EmptyString :: split_all d s'
      else match split_all d s' with
           | [] => [String c EmptyString]
           | t :: ts => String c t :: ts
           end
  end.

(** The variables of the main loop. *)
Record parse_state := mkState {
  EnableBuffersSet : bool;
  MaxSizeSet : bool;
  enable_buffers : Z;
  MaxSize : Z;
  cfgs : configs
}.

Definition empty_or_digit (Param : string) : bool :=
  match string_front Param with None => true | Some c => is_digit c end.

Definition value_or (Param : string) (v : Z) : outcome Z :=
  if decide (Param = EmptyString) then Ret v
  else GetValue Param (String.length Param) v.

(** One iteration of [while (true)]. *)
Definition parse_param (st : parse_state) (Param : string) : outcome parse_state :=
  if negb (EnableBuffersSet st) && empty_or_digit Param then
    v ← value_or Param (enable_buffers st);
    Ret (mkState true (MaxSizeSet st) v (MaxSize st) (cfgs st))
  else if negb (MaxSizeSet st) && empty_or_digit Param then
    v ← value_or Param (MaxSize st);
    Ret (mkState (EnableBuffersSet st) true (enable_buffers st) v (cfgs st))
  else
    c ← MemTypeParser Param (cfgs st);
    Ret (mkState (EnableBuffersSet st) (MaxSizeSet st) (enable_buffers st) (MaxSize st) c).

Fixpoint parse_params (st : parse_state) (ps : list string) : outcome parse_state :=
  match ps with
  | [] => Ret st
  | p :: ps' => st' ← parse_param st p; parse_params st' ps'
  end.

Definition finish_cfg (maxSize trace : Z) (c : umf_disjoint_pool_config_t) :=
  mkPool (SlabMinSize c) (MaxPoolableSize c) (Capacity c) (MinBucketSize c) trace
    (Some maxSize) (Name c).

Definition parseDisjointPoolConfig (config : string) (trace : Z)
  : outcome DisjointPoolAllConfigs :=
  st ← parse_params (mkState false false 1 SIZE_MAX (Configs (default_configs 0)))
         (split_all ";" config);
  Ret (mkAll (enable_buffers st) (Some (MaxSize st))
         (upd_cfg All (finish_cfg (MaxSize st) trace) (cfgs st))).

(** ** Specification vocabulary *)

(** [s] denotes [v]: decimal digits within [int], and an optional unit. *)
Definition pool_number (s : string) (v : Z) : Prop :=
  ∃ ds suffix mult,
    s = ds +:+ suffix ∧ all_digits ds = true ∧ ds ≠ EmptyString ∧
    digits_val 0 ds <= INT_MAX ∧ v = digits_val 0 ds * mult ∧
    (suffix, mult) ∈ [(EmptyString, 1); ("K", KB); ("k", KB); ("M", MB); ("m", MB);
                      ("G", GB); ("g", GB)]%string.

Definition type_prefix (t : DisjointPoolMemType) : string :=
  match t with
  | Host => "host:"
  | Device => "device:"
  | Shared => "shared:"
  | SharedReadOnly => "read_only_shared:"
  | All => ""
  end.

(** A complete section [type:MaxPoolableSize,Capacity,SlabMinSize]. *)
Record section := mkSection {
  sec_type : DisjointPoolMemType;
  sec_max : string;  max_val : Z;
  sec_cap : string;  cap_val : Z;
  sec_slab : string; slab_val : Z
}.

Definition section_ok (s : section) : Prop :=
  pool_number (sec_max s) (max_val s) ∧ pool_number (sec_cap s) (cap_val s) ∧
  pool_number (sec_slab s) (slab_val s).

Definition print_section (s : section) : string :=
  type_prefix (sec_type s) +:+
  (sec_max s +:+ String "," (sec_cap s +:+ String "," (sec_slab s))).

(** What a section asks for: its three fields, for its type or for all. *)
Definition apply_section (c : configs) (s : section) : configs :=
  upd_cfg (sec_type s)
    (λ p, mkPool (slab_val s) (max_val s) (cap_val s) (MinBucketSize p) (PoolTrace p)
            (SharedLimits p) (Name p)) c.

(** ** Lemmas *)

Lemma digits_val_nonneg acc s : all_digits s = true → 0 <= acc → 0 <= digits_val acc s.
Proof.
  unfold all_digits. revert acc. induction s as [|c s IH]; intros acc; cbn; [done|].
  intros [Hc Hs]%andb_true_iff Ha. apply IH; [done|].
  unfold is_digit in Hc. apply andb_true_iff in Hc as [Hc%N.leb_le _].
  unfold digit_val. lia.
Qed.

Lemma get_last_digit ds :
  all_digits ds = true → ds ≠ EmptyString →
  ∃ n d, String.length ds = S n ∧ is_digit d = true ∧
         ∀ t, String.get n (ds +:+ t) = Some d.
Proof.
  unfold all_digits. induction ds as [|c ds IH]; [done|]. cbn [string_forallb].
  intros [Hc Hs]%andb_true_iff _. destruct (decide (ds = EmptyString)) as [->|Hne].
  { by exists 0%nat, c. }
  destruct (IH Hs Hne) as (n & d & Hn & Hd & Hg).
  exists (S n), d. cbn [String.length]. rewrite Hn. split_and!; [done|done|].
  intros t. rewrite string_app_cons. exact (Hg t).
Qed.

Lemma get_app_length s x t : String.get (String.length s) (s +:+ String x t) = Some x.
Proof. induction s as [|c s IH]; [done|]. rewrite string_app_cons. exact IH. Qed.

Lemma strip_digit ds t c mult m :
  all_digits ds = true → ds ≠ EmptyString → is_digit c = false →
  strip_suffix (ds +:+ t) c mult (String.length ds, m) = Ret (String.length ds, m).
Proof.
  intros Hd Hne Hc. destruct (get_last_digit _ Hd Hne) as (n & d & -> & Hdd & Hg).
  unfold strip_suffix. rewrite Hg, (tolower_digit _ Hdd).
  by rewrite Ascii.eqb_sym, (digit_char _ _ Hdd Hc).
Qed.

Lemma strip_hit s x t c mult m :
  strip_suffix (s +:+ String x t) c mult (S (String.length s), m) =
  Ret (if Ascii.eqb (tolower x) c then (String.length s, mult) else (S (String.length s), m)).
Proof. unfold strip_suffix. by rewrite get_app_length. Qed.

Lemma string_app_assoc (a b c : string) : (a +:+ b) +:+ c = a +:+ (b +:+ c).
Proof. induction a as [|x a IH]; [done|]. by rewrite !string_app_cons, IH. Qed.

Lemma string_length_app (a b : string) :
  String.length (a +:+ b) = (String.length a + String.length b)%nat.
Proof.
  induction a as [|x a IH]; [done|]. rewrite string_app_cons. cbn. by rewrite IH.
Qed.

Lemma stoi_digits_Ret ds :
  ds ≠ EmptyString → digits_val 0 ds <= INT_MAX → stoi_digits ds = Ret (digits_val 0 ds).
Proof.
  intros Hne Hb. unfold stoi_digits. rewrite decide_False by done.
  by rewrite (proj2 (Z.leb_le _ _) Hb).
Qed.

(** The digits are read once the suffix is stripped. *)
Lemma GetValue_finish ds t Length mult Setting (st : outcome (nat * Z)) :
  st = Ret (String.length ds, mult) →
  all_digits ds = true → ds ≠ EmptyString → digits_val 0 ds <= INT_MAX →
  mult ∈ [1; KB; MB; GB] → Length = ds +:+ t →
  ('(Length', Multiplier) ← st;
   let TheNumber := string_take Length' Length in
   if all_digits TheNumber then
     n ← stoi_digits TheNumber; Ret (w64 (n * Multiplier))
   else Ret Setting) = Ret (digits_val 0 ds * mult).
Proof.
  intros -> Hd Hne Hb Hm ->. cbn. rewrite string_take_app, Hd.
  rewrite (stoi_digits_Ret _ Hne Hb). cbn. f_equal.
  pose proof (digits_val_nonneg 0 ds Hd ltac:(lia)).
  apply Z.mod_small. unfold INT_MAX, KB, MB, GB in *.
  repeat (apply elem_of_cons in Hm as [->|Hm]; [lia|]). by apply elem_of_nil in Hm.
Qed.

Lemma GetValue_plain ds t Setting :
  all_digits ds = true → ds ≠ EmptyString → digits_val 0 ds <= INT_MAX →
  GetValue (ds +:+ t) (String.length ds) Setting = Ret (digits_val 0 ds * 1).
Proof.
  intros Hd Hne Hb. unfold GetValue.
  rewrite strip_digit by done. cbn [mbind outcome_bind].
  rewrite strip_digit by done. cbn [mbind outcome_bind].
  rewrite strip_digit by done.
  by eapply (GetValue_finish ds t); [done..|set_solver|].
Qed.

Lemma GetValue_suffix ds x mult t Setting :
  all_digits ds = true → ds ≠ EmptyString → digits_val 0 ds <= INT_MAX →
  (tolower x, mult) ∈ [("k", KB); ("m", MB); ("g", GB)]%char →
  GetValue (ds +:+ String x t) (S (String.length ds)) Setting
  = Ret (digits_val 0 ds * mult).
Proof.
  intros Hd Hne Hb Hm. unfold GetValue. rewrite strip_hit.
  rewrite !elem_of_cons in Hm. destruct Hm as [[= Hx ->]|[[= Hx ->]|[[= Hx ->]|[]%elem_of_nil]]];
    rewrite Hx; cbn [mbind outcome_bind].
  - rewrite Ascii.eqb_refl. rewrite strip_digit by done. cbn [mbind outcome_bind].
    rewrite strip_digit by done. by eapply (GetValue_finish ds); [done..|set_solver|].
  - change (Ascii.eqb "m" "k") with false. cbv iota. rewrite strip_hit, Hx.
    cbn [mbind outcome_bind]. rewrite Ascii.eqb_refl, strip_digit by done.
    by eapply (GetValue_finish ds); [done..|set_solver|].
  - change (Ascii.eqb "g" "k") with false. cbv iota. rewrite strip_hit, Hx.
    cbn [mbind outcome_bind]. change (Ascii.eqb "g" "m") with false. cbv iota.
    rewrite strip_hit, Hx, Ascii.eqb_refl.
    by eapply (GetValue_finish ds); [done..|set_solver|].
Qed.

Lemma GetValue_number s v t Setting :
  pool_number s v → GetValue (s +:+ t) (String.length s) Setting = Ret v.
Proof.
  intros (ds & suffix & mult & -> & Hd & Hne & Hb & -> & Hm).
  rewrite string_app_assoc, string_length_app. apply elem_of_cons in Hm as [[= -> ->]|Hm].
  { cbn [String.length]. rewrite Nat.add_0_r. by apply GetValue_plain. }
  assert (∃ x, suffix = String x EmptyString ∧
               (tolower x, mult) ∈ [("k", KB); ("m", MB); ("g", GB)]%char)
    as (x & -> & Hx).
  { rewrite !elem_of_cons in Hm.
    destruct Hm as [[= -> ->]|[[= -> ->]|[[= -> ->]|[[= -> ->]|[[= -> ->]|[[= -> ->]|
      []%elem_of_nil]]]]]]; eexists; (split; [reflexivity|]); vm_compute; set_solver. }
  cbn [String.length]. rewrite Nat.add_1_r. by apply GetValue_suffix.
Qed.

Lemma pool_number_no_char s v c :
  pool_number s v → c ∈ [","; ";"]%char → has_char c s = false.
Proof.
  intros (ds & suffix & mult & -> & Hd & _ & _ & _ & Hm) Hc. rewrite has_char_app.
  rewrite all_digits_no_char; [|by repeat (apply elem_of_cons in Hc as [->|Hc]; [done|]);
    apply elem_of_nil in Hc|done]. cbn [orb].
  repeat (apply elem_of_cons in Hc as [->|Hc];
    [repeat (apply elem_of_cons in Hm as [[= -> ->]|Hm]; [done|]);
     by apply elem_of_nil in Hm|]).
  by apply elem_of_nil in Hc.
Qed.

Lemma pool_number_front s v : pool_number s v → ∃ d r, s = String d r ∧ is_digit d = true.
Proof.
  intros (ds & suffix & mult & -> & Hd & Hne & _).
  destruct ds as [|d ds]; [done|]. exists d, (ds +:+ suffix). split; [done|].
  unfold all_digits in Hd. cbn in Hd. by apply andb_true_iff in Hd as [? _].
Qed.

Lemma ParamParser_more s v r Setting ws :
  pool_number s v →
  ParamParser (s +:+ String "," r) Setting ws = Ret (mkParam true r v (Some true)).
Proof.
  intros Hs. pose proof (pool_number_no_char _ _ "," Hs ltac:(set_solver)) as Hc.
  unfold ParamParser. rewrite decide_False by (intros [_ ?]%string_app_eq_nil; done).
  rewrite (find_char_app _ _ _ Hc), string_drop_app, (GetValue_number _ _ _ _ Hs).
  destruct (pool_number_front _ _ Hs) as (d & s' & -> & _). done.
Qed.

Lemma ParamParser_last s v Setting ws :
  pool_number s v → ParamParser s Setting ws = Ret (mkParam false s v (Some true)).
Proof.
  intros Hs. pose proof (pool_number_no_char _ _ "," Hs ltac:(set_solver)) as Hc.
  unfold ParamParser. rewrite decide_False
    by (destruct (pool_number_front _ _ Hs) as (d & s' & -> & _); done).
  rewrite (find_char_None _ _ Hc).
  pose proof (GetValue_number s v "" Setting Hs) as Hv. rewrite string_app_nil_r in Hv.
  by rewrite Hv.
Qed.

(** A stage whose parameter is present sets the field of the addressed types. *)
Lemma mem_stage_set t get set P ws c v more r :
  (∀ s w, ParamParser P s w = Ret (mkParam more r v (Some true))) →
  (∀ v p, get (set v p) = v) → (∀ v w p, set v (set w p) = set v p) →
  mem_stage t get set P ws c = Ret (more, r, Some true, upd_cfg t (set v) c).
Proof.
  intros HP Hgs Hss. unfold mem_stage. rewrite HP. cbn.
  destruct t; cbn; try done. change (decide (All = All)) with (@left _ (All ≠ All) (eq_refl All));
    rewrite bool_decide_true by done.
  unfold upd_cfg; cbn. by rewrite !Hgs, ?Hss.
Qed.

Lemma MemParser_section s c :
  section_ok s →
  MemParser (sec_max s +:+ String "," (sec_cap s +:+ String "," (sec_slab s))) (sec_type s) c
  = Ret (apply_section c s).
Proof.
  intros (Hm & Hc & Hs). unfold MemParser.
  erewrite mem_stage_set; [|intros; by apply ParamParser_more|done|done].
  cbn [mbind outcome_bind].
  erewrite mem_stage_set; [|intros; by apply ParamParser_more|done|done].
  cbn [mbind outcome_bind].
  erewrite mem_stage_set; [|intros; by apply ParamParser_last|done|done].
  cbn. unfold apply_section. by destruct (sec_type s).
Qed.

Lemma MemTypeParser_section s c :
  section_ok s → MemTypeParser (print_section s) c = Ret (apply_section c s).
Proof.
  intros Hok. rewrite <- (MemParser_section s c Hok). unfold print_section, MemTypeParser.
  destruct (sec_type s) eqn:E; try reflexivity.
  destruct Hok as (Hm & _). destruct (pool_number_front _ _ Hm) as (d & r & -> & Hd).
  rewrite string_app_nil_l, string_app_cons. cbn [is_prefix].
  by rewrite !(digit_char d) by done.
Qed.

Lemma split_all_no d s : has_char d s = false → split_all d s = [s].
Proof.
  induction s as [|c s IH]; [done|]. rewrite has_char_cons.
  intros [Hc Hs]%orb_false_iff. cbn. by rewrite Ascii.eqb_sym, Hc, (IH Hs).
Qed.

Lemma split_all_app d t s :
  has_char d t = false → split_all d (t +:+ String d s) = t :: split_all d s.
Proof.
  induction t as [|c t IH]; intros H.
  { rewrite string_app_nil_l. cbn. by rewrite Ascii.eqb_refl. }
  rewrite has_char_cons in H. apply orb_false_iff in H as [Hc Ht].
  rewrite string_app_cons. cbn. by rewrite Ascii.eqb_sym, Hc, (IH Ht).
Qed.

Lemma split_all_join d ts :
  ts ≠ [] → Forall (λ t, has_char d t = false) ts → split_all d (join d ts) = ts.
Proof.
  intros Hne H. induction H as [|t ts Ht Hts IH]; [done|].
  destruct ts as [|t' ts]; cbn [join]; [by apply split_all_no|].
  rewrite (split_all_app _ _ _ Ht). f_equal. by apply IH.
Qed.

Lemma print_section_no_semicolon s : section_ok s → has_char ";" (print_section s) = false.
Proof.
  intros (Hm & Hc & Hs). unfold print_section.
  rewrite !has_char_app, !has_char_cons, !has_char_app, !has_char_cons.
  rewrite !(pool_number_no_char _ _ ";" Hm), !(pool_number_no_char _ _ ";" Hc),
    !(pool_number_no_char _ _ ";" Hs) by set_solver.
  by destruct (sec_type s).
Qed.

Lemma parse_params_sections st secs :
  EnableBuffersSet st = true → MaxSizeSet st = true → Forall section_ok secs →
  parse_params st (print_section <$> secs) =
  Ret (mkState true true (enable_buffers st) (MaxSize st) (foldl apply_section (cfgs st) secs)).
Proof.
  intros He Hm H. revert st He Hm. induction H as [|s secs Hs _ IH]; intros st He Hm.
  { destruct st; cbn in *; by subst. }
  cbn [fmap list_fmap parse_params]. unfold parse_param. rewrite He, Hm. cbn [negb andb].
  rewrite (MemTypeParser_section _ _ Hs). cbn [mbind outcome_bind]. by rewrite IH.
Qed.

Lemma value_or_number s v w : pool_number s v → value_or s w = Ret v.
Proof.
  intros Hs. unfold value_or. rewrite decide_False
    by (destruct (pool_number_front _ _ Hs) as (d & s' & -> & _); done).
  pose proof (GetValue_number s v "" w Hs) as Hv. by rewrite string_app_nil_r in Hv.
Qed.

Lemma pool_number_digit s v : pool_number s v → empty_or_digit s = true.
Proof. intros Hs. by destruct (pool_number_front _ _ Hs) as (d & s' & -> & ?). Qed.

Lemma parse_param_buffers st s v :
  pool_number s v → EnableBuffersSet st = false →
  parse_param st s = Ret (mkState true (MaxSizeSet st) v (MaxSize st) (cfgs st)).
Proof.
  intros Hs He. unfold parse_param.
  rewrite He. cbn [negb andb]. by rewrite (pool_number_digit _ _ Hs), (value_or_number _ _ _ Hs).
Qed.

Lemma parse_param_max st s v :
  pool_number s v → EnableBuffersSet st = true → MaxSizeSet st = false →
  parse_param st s = Ret (mkState true true (enable_buffers st) v (cfgs st)).
Proof.
  intros Hs He Hm. unfold parse_param.
  rewrite He, Hm. cbn [negb andb]. by rewrite (pool_number_digit _ _ Hs), (value_or_number _ _ _ Hs).
Qed.

Ltac pool_number_by ds suffix mult :=
  exists ds%string, suffix%string, mult; split_and!;
  first [reflexivity | discriminate | vm_compute; discriminate
        | rewrite !elem_of_cons; auto 10].

(** * Properties *)

(** a complete settings string is read as written: the first two numbers are
    EnableBuffers and MaxPoolSize, each section sets its three limits for its
    memory type (for every type without one), later sections win, and
    everything not mentioned keeps its default. *)
Theorem parse_complete_config eb ebv mx mxv secs trace :
  pool_number eb ebv → pool_number mx mxv → Forall section_ok secs →
  parseDisjointPoolConfig (join ";" (eb :: mx :: (print_section <$> secs))) trace =
  Ret (mkAll ebv (Some mxv)
         (upd_cfg All (finish_cfg mxv trace)
            (foldl apply_section (Configs (default_configs 0)) secs))).
Proof.
  intros Heb Hmx Hs. unfold parseDisjointPoolConfig. rewrite split_all_join; [|done|].
  - cbn [parse_params]. rewrite (parse_param_buffers _ _ _ Heb) by done.
    cbn [mbind outcome_bind]. rewrite (parse_param_max _ _ _ Hmx) by done.
    cbn [mbind outcome_bind]. by rewrite parse_params_sections.
  - constructor; [by apply (pool_number_no_char _ _ ";" Heb); set_solver|].
    constructor; [by apply (pool_number_no_char _ _ ";" Hmx); set_solver|].
    apply Forall_fmap. eapply Forall_impl; [exact Hs|]. apply print_section_no_semicolon.
Qed.

Lemma parse_complete_config_witness :
  ∃ r, parseDisjointPoolConfig "1;32M;host:1M,4,64K" 1 = Ret r ∧
       MaxPoolableSize (host_cfg (Configs r)) = 1048576 ∧
       limits r = Some 33554432.
Proof.
  eexists. split.
  - apply (parse_complete_config "1" 1 "32M" (32 * MB)
             [mkSection Host "1M" (1 * MB) "4" 4 "64K" (64 * KB)] 1).
    + pool_number_by "1" "" 1.
    + pool_number_by "32" "M" MB.
    + constructor; [split_and!; cbn|constructor];
        [pool_number_by "1" "M" MB|pool_number_by "4" "" 1|pool_number_by "64" "K" KB].
  - split; reflexivity.
Defined.

(** a section that omits MaxPoolableSize, which the documented grammar
    allows, reads the uninitialised ParamWasSet: undefined behaviour for every
    memory type and whatever follows. *)
Theorem omitted_MaxPoolableSize_undefined t ps c :
  MemTypeParser (type_prefix t +:+ String "," ps) c = Undef.
Proof.
  assert (∀ t, MemParser (String "," ps) t c = Undef) as H.
  { intros t'. unfold MemParser, mem_stage, ParamParser.
    rewrite (decide_False (P := String "," ps = EmptyString)) by done. reflexivity. }
  unfold MemTypeParser. destruct t; exact (H _).
Qed.

(** no value read from the settings overflows: [GetValue] returns the old
    setting or a non-negative [int] times its unit, within [size_t] without
    wrapping; if it throws, the number is empty or exceeds [int]. *)
Theorem GetValue_bounds Param Length Setting v :
  GetValue Param Length Setting = Ret v →
  v = Setting ∨
  ∃ n unit, 0 <= n <= INT_MAX ∧ unit ∈ [1; KB; MB; GB] ∧ v = n * unit ∧ v < 2 ^ 64.
Proof.
  unfold GetValue. intros H.
  assert (∀ P c m st st', strip_suffix P c m st = Ret st' → st'.2 = st.2 ∨ st'.2 = m) as Hs.
  { intros P c m [[|n] k] st'; cbn; [done|]. destruct (String.get n P); [|done].
    destruct (Ascii.eqb _ _); intros [= <-]; auto. }
  apply bind_Ret in H as (s1 & H1%Hs & H). apply bind_Ret in H as (s2 & H2%Hs & H).
  apply bind_Ret in H as ([len unit] & H3%Hs & H). cbn in *.
  destruct (all_digits (string_take len Param)) eqn:Ed; [|left; congruence].
  apply bind_Ret in H as (n & Hn & H). injection H as <-. right. exists n, unit.
  unfold stoi_digits in Hn. case_decide; [done|].
  destruct (Z.leb_spec (digits_val 0 (string_take len Param)) INT_MAX) as [Hb|]; [|done].
  injection Hn as <-. pose proof (digits_val_nonneg 0 _ Ed ltac:(lia)) as H0.
  assert (unit ∈ [1; KB; MB; GB]) as Hu by (rewrite !elem_of_cons; intuition congruence).
  assert (1 <= unit <= GB) as Hub.
  { unfold KB, MB, GB in *. repeat (apply elem_of_cons in Hu as [->|Hu]; [lia|]).
    by apply elem_of_nil in Hu. }
  assert (digits_val 0 (string_take len Param) * unit < 2 ^ 64).
  { unfold INT_MAX, GB in *. nia. }
  split_and!; [lia|lia|done|apply Z.mod_small; nia|].
  unfold w64. rewrite Z.mod_small; [done|nia].
Qed.

Lemma GetValue_bounds_witness :
  GetValue "2147483647G" 11 0 = Ret (2147483647 * GB) ∧ 2147483647 * GB < 2 ^ 64.
Proof.
  assert (GetValue "2147483647G" 11 0 = Ret (2147483647 * GB)) as H by reflexivity.
  split; [exact H|].
  destruct (GetValue_bounds _ _ _ _ H) as [He|(n & u & _ & _ & _ & Hlt)].
  - vm_compute in He. discriminate.
  - exact Hlt.
Defined.
