(* ===== verification/SanCommon.v ===== *)
(** * SanCommon: source/loader/layers/sanitizer/sanitizer_common

    What the two sanitizers share: the arithmetic on [uptr] copied from
    compiler-rt (sanitizer_common.hpp), the allocation types, and the calls
    the layer makes into the next layer's dispatch table ([urDdiTable]) with
    the error-propagating style of the [UR_CALL] macro.

    The next layer is a parameter: [drv] answers each call from the history of
    the calls made before it.  [assert]s are not executed (NDEBUG); where the
    code relies on one, the theorem has it as a hypothesis. *)
From S2P Require Import Prelude.

(** ** Arithmetic on [uptr] *)

(** [~z] on 64 bits. *)
Definition not64 (z : Z) : Z := w64 (Z.lnot z).

Definition IsPowerOfTwo (x : Z) : bool :=
  (Z.land x (w64 (x - 1)) =? 0) && negb (x =? 0).

Definition RoundUpTo (Size boundary : Z) : Z :=
  Z.land (w64 (Size + boundary - 1)) (not64 (w64 (boundary - 1))).

Definition RoundDownTo (x boundary : Z) : Z :=
  Z.land x (not64 (w64 (boundary - 1))).

Definition IsAligned (a alignment : Z) : bool :=
  Z.land a (w64 (alignment - 1)) =? 0.

(** [16 << rz_log]: the shift is on [int]. *)
Definition RZLog2Size (rz_log : Z) : Z := Z.shiftl 16 rz_log.

(** [log2(rz_size) - 4] is computed in [double] and converted to [uptr]: below
    16 the conversion of a negative value is undefined. *)
Definition RZSize2Log (rz_size : Z) : outcome Z :=
  if rz_size <? 16 then Undef else Ret (Z.log2 rz_size - 4).

Definition ComputeRZLog (user_requested_size min_size max_size : Z) : outcome Z :=
  let rz_log :=
    if user_requested_size <=? 64 - 16 then 0
    else if user_requested_size <=? 128 - 32 then 1
    else if user_requested_size <=? 512 - 64 then 2
    else if user_requested_size <=? 4096 - 128 then 3
    else if user_requested_size <=? Z.shiftl 1 14 - 256 then 4
    else if user_requested_size <=? Z.shiftl 1 15 - 512 then 5
    else if user_requested_size <=? Z.shiftl 1 16 - 1024 then 6
    else 7 in
  min_log ← RZSize2Log min_size;
  max_log ← RZSize2Log max_size;
  Ret (Z.min (Z.max rz_log min_log) max_log).

Definition AlignTo (Value Align : Z) : Z :=
  w64 (w64 (Value + Align - 1) / Align * Align).

Definition GetSizeAndRedzoneSizeForLocal (Size Granularity Alignment : Z) : Z :=
  let Res :=
    if Size <=? 4 then 16
    else if Size <=? 16 then 32
    else if Size <=? 128 then w64 (Size + 32)
    else if Size <=? 512 then w64 (Size + 64)
    else if Size <=? 4096 then w64 (Size + 128)
    else w64 (Size + 256) in
  AlignTo (Z.max Res (w64 (2 * Granularity))) Alignment.

(** ** Device and allocation types *)

Inductive DeviceType := DT_UNKNOWN | CPU | GPU_PVC | GPU_DG2.

Inductive AllocType :=
| AT_UNKNOWN | DEVICE_USM | SHARED_USM | HOST_USM | MEM_BUFFER | DEVICE_GLOBAL.

#[export] Instance DeviceType_eq_dec : EqDecision DeviceType.
Proof. solve_decision. Defined.
#[export] Instance AllocType_eq_dec : EqDecision AllocType.
Proof. solve_decision. Defined.

(** Conversion to [u8]. *)
Definition u8 (z : Z) : Z := z mod 256.

(** ** Calls into the next layer

    Handles and addresses are [Z]; 0 is the null handle.  [Enqueue_USMFill] is a
    fill with one byte that neither waits nor returns an event; the commands
    below take a wait list and say whether the caller asked for an event, which
    is then the value of the call.  [Mem_Forward] is any call on a memory object that
    the layer does not keep, passed on as it is.  The last group are calls to the operating
    system, and the host's own writes to memory. *)

Inductive ddi_call :=
| VirtualMem_Reserve (ctx start size : Z)
| VirtualMem_Free (ctx start size : Z)
| VirtualMem_Map (ctx start size phys : Z)
| VirtualMem_Unmap (ctx start size : Z)
| VirtualMem_Granularity (ctx dev : Z)
| PhysicalMem_Create (ctx dev size : Z)
| PhysicalMem_Release (phys : Z)
| USM_DeviceAlloc (ctx dev : Z) (align : option Z) (pool size : Z)
| USM_HostAlloc (ctx : Z) (align : option Z) (pool size : Z)
| USM_SharedAlloc (ctx dev : Z) (align : option Z) (pool size : Z)
| USM_Free (ctx ptr : Z)
| USM_PoolCreate (ctx : Z)
| USM_PoolRelease (pool : Z)
| Enqueue_USMFill (queue ptr value size : Z)
| Context_Retain (ctx : Z)
| Context_Release (ctx : Z)
| Context_Create (dev : Z)
| Queue_Create (ctx dev : Z)
| Queue_Finish (queue : Z)
| Queue_Release (queue : Z)
| Device_LocalMemSize (dev : Z)
| Device_Parent (dev : Z)
| Device_Alignment (dev : Z)
| Device_SharedSystemUSM (dev : Z)
| Device_Type (dev : Z)
| Queue_Context (queue : Z)
| Queue_Device (queue : Z)
| Context_FirstDevice (ctx : Z)
| Mem_Forward (mem : Z)
| Enqueue_Fill (queue ptr : Z) (pattern : list Z) (size : Z) (waits : list Z) (out : bool)
| Enqueue_Memcpy (queue : Z) (blocking : bool) (dst src size : Z) (waits : list Z) (out : bool)
| Enqueue_Fill2D (queue ptr pitch : Z) (pattern : list Z) (width height : Z) (waits : list Z)
    (out : bool)
| Enqueue_Memcpy2D (queue : Z) (blocking : bool) (dst dst_pitch src src_pitch width height : Z)
    (waits : list Z) (out : bool)
| Enqueue_EventsWait (queue : Z) (waits : list Z) (out : bool)
| Event_Wait (events : list Z)
| Os_Mmap (addr size : Z) (writable : bool)
| Os_Munmap (addr size : Z)
| Os_DontDump (addr size : Z)
| Host_Memset (addr value size : Z).

#[export] Instance ddi_call_eq_dec : EqDecision ddi_call.
Proof. solve_decision. Defined.

(** A call's result code and the value it writes through its out parameter. *)
Definition driver := list ddi_call → ddi_call → ur_result_t * Z.

(** Why an execution does not come back: [exit(1)], undefined behaviour, or
    (loops only) more iterations than the model was given. *)
Inductive halt := Exited | Undefined | NoFuel.

(** What a function that uses [UR_CALL] does: go on, return early, or stop. *)
Inductive step (A : Type) := Go (a : A) | Fail (r : ur_result_t) | Halt (w : halt).
Arguments Go {A} a.
Arguments Fail {A} r.
Arguments Halt {A} w.

(** State passing over an object of type [S] and the history of calls. *)
Definition M (S A : Type) := S → list ddi_call → step A * S * list ddi_call.

Section monad.
Context {S : Type}.
#[global] Instance M_ret : MRet (M S) := λ A a s h, (Go a, s, h).
#[global] Instance M_bind : MBind (M S) := λ A B f m s h,
  match m s h with
  | (Go a, s', h') => f a s' h'
  | (Fail r, s', h') => (Fail r, s', h')
  | (Halt w, s', h') => (Halt w, s', h')
  end.
Definition get : M S S := λ s h, (Go s, s, h).
Definition modify (f : S → S) : M S unit := λ s h, (Go tt, f s, h).
Definition fail {A} (r : ur_result_t) : M S A := λ s h, (Fail r, s, h).
Definition stop {A} (w : halt) : M S A := λ s h, (Halt w, s, h).
(** Use of a value that may not exist. *)
Definition deref {A} (o : option A) : M S A :=
  match o with Some a => mret a | None => stop Undefined end.

(** A call whose result the caller inspects. *)
Definition call (drv : driver) (c : ddi_call) : M S (ur_result_t * Z) :=
  λ s h, (Go (drv h c), s, h ++ [c]).

(** [UR_CALL(Call)] *)
Definition UR_CALL (drv : driver) (c : ddi_call) : M S Z :=
  r ← call drv c;
  if decide (r.1 = UR_RESULT_SUCCESS) then mret r.2 else fail r.1.

(** The result code a method returns when its body ends with
    [return UR_RESULT_SUCCESS]. *)
Definition result_of {A} (r : step A) : option ur_result_t :=
  match r with
  | Go _ => Some UR_RESULT_SUCCESS
  | Fail r => Some r
  | Halt _ => None
  end.
End monad.

(** Run a method body and hand its result code to the caller. *)
Definition try {S A} (m : M S A) : M S ur_result_t := λ s h,
  match m s h with
  | (Go _, s', h') => (Go UR_RESULT_SUCCESS, s', h')
  | (Fail r, s', h') => (Go r, s', h')
  | (Halt w, s', h') => (Halt w, s', h')
  end.

(** ** Maps from addresses, as [std::map] *)

(** The greatest key not above [a]: the entry before [upper_bound(a)]. *)
Definition floor_key (m : gmap Z Z) (a : Z) : option Z :=
  foldr (λ kv acc, if kv.1 <=? a then Some (match acc with Some k => Z.max k kv.1 | None => kv.1 end)
                   else acc) None (map_to_list m).

(** [std::map::emplace]: an existing entry stays. *)
Definition emplace (k id : Z) (m : gmap Z Z) : gmap Z Z :=
  match m !! k with Some _ => m | None => <[k := id]> m end.

(** ** Lemmas *)

Lemma land_not64_pow2 x k :
  0 <= x < 2 ^ 64 → 0 <= k < 64 → Z.land x (not64 (2 ^ k - 1)) = x - x mod 2 ^ k.
Proof.
  intros Hx Hk. unfold not64, w64.
  rewrite <- (Z.land_ones _ 64), Z.land_assoc, (Z.land_comm _ (Z.ones 64)), Z.land_assoc by lia.
  rewrite (Z.land_comm (Z.ones 64)), Z.land_ones by lia. rewrite (Z.mod_small x) by lia.
  rewrite <- Z.ldiff_land.
  replace (2 ^ k - 1) with (Z.ones k) by (rewrite Z.ones_equiv; lia).
  rewrite Z.ldiff_ones_r, Z.shiftl_mul_pow2, Z.shiftr_div_pow2 by lia.
  pose proof (Z_div_mod_eq_full x (2 ^ k)). lia.
Qed.

Lemma w64_range z : 0 <= w64 z < 2 ^ 64.
Proof. unfold w64. apply Z.mod_pos_bound. lia. Qed.

Lemma pow2_range k : 0 <= k < 64 → 0 < 2 ^ k <= 2 ^ 63.
Proof.
  intros Hk. split; [apply Z.pow_pos_nonneg; lia|]. apply Z.pow_le_mono_r; lia.
Qed.

Lemma RoundDownTo_spec x k :
  0 <= x < 2 ^ 64 → 0 <= k < 64 → RoundDownTo x (2 ^ k) = x - x mod 2 ^ k.
Proof.
  intros Hx Hk. unfold RoundDownTo. pose proof (pow2_range k Hk).
  rewrite (w64_small (2 ^ k - 1)) by lia. by apply land_not64_pow2.
Qed.

(** Without wrap-around, the least multiple of the boundary above [Size]. *)
Lemma RoundUpTo_spec x k :
  0 <= x → 0 <= k < 64 → x + 2 ^ k - 1 < 2 ^ 64 →
  x <= RoundUpTo x (2 ^ k) < x + 2 ^ k ∧ (2 ^ k | RoundUpTo x (2 ^ k)).
Proof.
  intros Hx Hk Hov. unfold RoundUpTo. pose proof (pow2_range k Hk).
  rewrite (w64_small (2 ^ k - 1)), (w64_small (x + 2 ^ k - 1)) by lia.
  rewrite land_not64_pow2 by lia. split.
  - pose proof (Z.mod_pos_bound (x + 2 ^ k - 1) (2 ^ k)). lia.
  - exists ((x + 2 ^ k - 1) / 2 ^ k).
    pose proof (Z_div_mod_eq_full (x + 2 ^ k - 1) (2 ^ k)). lia.
Qed.

Lemma IsAligned_spec a k :
  0 <= a → 0 <= k < 64 → IsAligned a (2 ^ k) = true ↔ (2 ^ k | a).
Proof.
  intros Ha Hk. unfold IsAligned. pose proof (pow2_range k Hk).
  rewrite (w64_small (2 ^ k - 1)) by lia.
  replace (2 ^ k - 1) with (Z.ones k) by (rewrite Z.ones_equiv; lia).
  rewrite Z.land_ones, Z.eqb_eq by lia. rewrite Z.mod_divide by lia. done.
Qed.

Lemma RZSize2Log_inv n v : RZSize2Log n = Ret v → 16 <= n ∧ v = Z.log2 n - 4.
Proof. unfold RZSize2Log. destruct (Z.ltb_spec n 16); intros [= <-]. lia. Qed.

Lemma bind_Go {S A B} (m : M S A) (f : A → M S B) s h a s' h' :
  m s h = (Go a, s', h') → (m ≫= f) s h = f a s' h'.
Proof. unfold mbind, M_bind. by intros ->. Qed.

Lemma bind_Go_inv {S A B} (m : M S A) (f : A → M S B) s h b s' h' :
  (m ≫= f) s h = (Go b, s', h') →
  ∃ a s1 h1, m s h = (Go a, s1, h1) ∧ f a s1 h1 = (Go b, s', h').
Proof.
  unfold mbind, M_bind. destruct (m s h) as [[[a|r|w] s1] h1]; [|done..]. intros H. eauto.
Qed.

Definition floor_step (a : Z) (kv : Z * Z) (acc : option Z) : option Z :=
  if kv.1 <=? a then Some (match acc with Some k => Z.max k kv.1 | None => kv.1 end) else acc.

Lemma floor_list_spec a (l : list (Z * Z)) :
  match foldr (floor_step a) None l with
  | Some k => k ∈ l.*1 ∧ k <= a ∧ ∀ k', k' ∈ l.*1 → k' <= a → k' <= k
  | None => ∀ k', k' ∈ l.*1 → a < k'
  end.
Proof.
  induction l as [|[k v] l IH]; cbn; [by intros k' ?%elem_of_nil|].
  unfold floor_step at 1. cbn [fst].
  destruct (foldr (floor_step a) None l) as [m|]; destruct (Z.leb_spec k a); cbn in *.
  - destruct IH as (Hm & Hma & Hmax). split_and!; [|lia|].
    + destruct (Z.max_spec m k) as [[_ ->]|[_ ->]]; [by left|by right].
    + intros k' [->|Hk']%elem_of_cons ?; [lia|]. specialize (Hmax k' Hk'). lia.
  - destruct IH as (Hm & Hma & Hmax). split_and!; [by right|lia|].
    intros k' [->|Hk']%elem_of_cons ?; [lia|]. by apply Hmax.
  - split_and!; [by left|lia|].
    intros k' [->|Hk']%elem_of_cons ?; [lia|]. specialize (IH k' Hk'). lia.
  - intros k' [->|Hk']%elem_of_cons; [lia|]. by apply IH.
Qed.

Lemma elem_of_keys (m : gmap Z Z) k : k ∈ (map_to_list m).*1 ↔ is_Some (m !! k).
Proof.
  rewrite list_elem_of_fmap. split.
  - intros ([k' v] & -> & H%elem_of_map_to_list). cbn. eauto.
  - intros [v Hv]. exists (k, v). split; [done|]. by apply elem_of_map_to_list.
Qed.

Lemma floor_key_Some m a k :
  floor_key m a = Some k ↔
  is_Some (m !! k) ∧ k <= a ∧ ∀ k', is_Some (m !! k') → k' <= a → k' <= k.
Proof.
  pose proof (floor_list_spec a (map_to_list m)) as H.
  change (foldr (floor_step a) None (map_to_list m)) with (floor_key m a) in H.
  split.
  - intros E. rewrite E in H. destruct H as (Hk & Hka & Hmax). rewrite elem_of_keys in Hk.
    split_and!; [done|done|]. intros k' Hk'. apply Hmax. by apply elem_of_keys.
  - intros (Hk & Hka & Hmax). destruct (floor_key m a) as [k'|].
    + destruct H as (Hk' & Hk'a & Hmax'). f_equal. apply Z.le_antisymm.
      * apply Hmax; [by apply elem_of_keys|done].
      * apply Hmax'; [by apply elem_of_keys|done].
    + specialize (H k). rewrite elem_of_keys in H. specialize (H Hk). lia.
Qed.

Lemma UR_CALL_inv drv {S} c (s : S) h v s' h' :
  UR_CALL drv c s h = (Go v, s', h') →
  drv h c = (UR_RESULT_SUCCESS, v) ∧ s' = s ∧ h' = h ++ [c].
Proof.
  unfold UR_CALL, call, mbind, M_bind. destruct (drv h c) as [r w]. cbn.
  case_decide as Hr; cbn; intros [= <- <- <-]. by subst.
Qed.

Lemma AlignTo_spec v a :
  0 <= v < 2 ^ 63 → 0 < a < 2 ^ 62 → (a | AlignTo v a) ∧ v <= AlignTo v a < v + a.
Proof.
  intros Hv Ha. unfold AlignTo. rewrite (w64_small (v + a - 1)) by lia.
  pose proof (Z_div_mod_eq_full (v + a - 1) a).
  pose proof (Z.mod_pos_bound (v + a - 1) a).
  rewrite w64_small by nia. split; [|nia]. exists ((v + a - 1) / a). lia.
Qed.

(** The class that [ComputeRZLog] computes before clamping. *)
Definition rz_class (user_requested_size : Z) : Z :=
  if user_requested_size <=? 48 then 0
  else if user_requested_size <=? 96 then 1
  else if user_requested_size <=? 448 then 2
  else if user_requested_size <=? 3968 then 3
  else if user_requested_size <=? 16128 then 4
  else if user_requested_size <=? 32256 then 5
  else if user_requested_size <=? 64512 then 6
  else 7.

Ltac case_leb := repeat match goal with |- context [?a <=? ?b] => destruct (Z.leb_spec a b) end.

Lemma rz_class_range sz : 0 <= rz_class sz <= 7.
Proof. unfold rz_class. case_leb; lia. Qed.

Lemma rz_class_mono sz sz' c c' : sz <= sz' → c = rz_class sz → c' = rz_class sz' → c <= c'.
Proof. unfold rz_class. intros ? -> ->. case_leb; lia. Qed.

Lemma ComputeRZLog_pow2 sz i j :
  4 <= i → 4 <= j →
  ∃ c, c = rz_class sz ∧
       ComputeRZLog sz (2 ^ i) (2 ^ j) = Ret (Z.min (Z.max c (i - 4)) (j - 4)).
Proof.
  intros Hi Hj. eexists. split; [done|]. unfold ComputeRZLog, RZSize2Log.
  assert (∀ k, 4 <= k → (2 ^ k <? 16) = false) as Hk.
  { intros k ?. apply Z.ltb_ge. change 16 with (2 ^ 4). apply Z.pow_le_mono_r; lia. }
  rewrite !Hk, !Z.log2_pow2 by lia. reflexivity.
Qed.

Lemma IsPowerOfTwo_pow2 k : 0 <= k < 64 → IsPowerOfTwo (2 ^ k) = true.
Proof.
  intros Hk. unfold IsPowerOfTwo. pose proof (pow2_range k Hk).
  rewrite (w64_small (2 ^ k - 1)) by lia.
  replace (2 ^ k - 1) with (Z.ones k) by (rewrite Z.ones_equiv; lia).
  rewrite Z.land_ones, Z.mod_same by lia. cbn [Z.eqb andb].
  destruct (Z.eqb_spec (2 ^ k) 0); [lia|done].
Qed.

(** * Properties *)

(** the redzone of a heap allocation is always chosen (with bounds that are
    powers of two from 16 to 2048, the defaults being 16 and 2048): it is a
    power of two within the bounds and does not shrink as the size grows. *)
Theorem redzone_size_bounds sz sz' i j :
  4 <= i <= j → j <= 11 → sz <= sz' →
  ∃ a a', ComputeRZLog sz (2 ^ i) (2 ^ j) = Ret a ∧
          ComputeRZLog sz' (2 ^ i) (2 ^ j) = Ret a' ∧
          2 ^ i <= RZLog2Size a <= 2 ^ j ∧ RZLog2Size a <= RZLog2Size a' ∧
          IsPowerOfTwo (RZLog2Size a) = true.
Proof.
  intros Hi Hj Hs.
  destruct (ComputeRZLog_pow2 sz i j) as (c & Hc & ->); [lia..|].
  destruct (ComputeRZLog_pow2 sz' i j) as (c' & Hc' & ->); [lia..|].
  pose proof (rz_class_mono sz sz' c c' Hs Hc Hc').
  assert (0 <= c <= 7) by (subst c; apply rz_class_range).
  eexists _, _. split_and!; [done|done|..]; unfold RZLog2Size; rewrite ?Z.shiftl_mul_pow2 by lia.
  1,2: change 16 with (2 ^ 4); rewrite <- Z.pow_add_r by lia; apply Z.pow_le_mono_r; lia.
  - apply Z.mul_le_mono_nonneg_l; [lia|]. apply Z.pow_le_mono_r; lia.
  - change 16 with (2 ^ 4). rewrite <- Z.pow_add_r by lia. apply IsPowerOfTwo_pow2. lia.
Qed.

Lemma redzone_size_bounds_witness :
  ∃ a a', ComputeRZLog 100 (2 ^ 4) (2 ^ 11) = Ret a ∧
          ComputeRZLog 5000 (2 ^ 4) (2 ^ 11) = Ret a' ∧
          2 ^ 4 <= RZLog2Size a <= 2 ^ 11 ∧ RZLog2Size a <= RZLog2Size a' ∧
          IsPowerOfTwo (RZLog2Size a) = true.
Proof. apply (redzone_size_bounds 100 5000 4 11); lia. Defined.

(** the size reserved for a local variable with its redzone is a multiple of
    the alignment, holds the variable followed by at least 12 bytes, and is at
    least two granules. *)
Theorem local_redzone_size_ok Size Granularity Alignment :
  0 <= Size < 2 ^ 62 → 0 <= Granularity < 2 ^ 61 → 0 < Alignment < 2 ^ 61 →
  (Alignment | GetSizeAndRedzoneSizeForLocal Size Granularity Alignment) ∧
  Size + 12 <= GetSizeAndRedzoneSizeForLocal Size Granularity Alignment ∧
  2 * Granularity <= GetSizeAndRedzoneSizeForLocal Size Granularity Alignment.
Proof.
  intros Hs Hg Ha. unfold GetSizeAndRedzoneSizeForLocal.
  rewrite (w64_small (2 * Granularity)) by lia.
  set (Res := if Size <=? 4 then 16 else _).
  assert (Size + 12 <= Res <= Size + 256) as HR.
  { unfold Res. rewrite !w64_small by lia.
    repeat (case_match; [lia|]). lia. }
  destruct (AlignTo_spec (Z.max Res (2 * Granularity)) Alignment) as [Hd Hb]; [lia..|].
  split; [done|]. lia.
Qed.

Lemma local_redzone_size_ok_witness :
  (32 | GetSizeAndRedzoneSizeForLocal 100 16 32) ∧
  100 + 12 <= GetSizeAndRedzoneSizeForLocal 100 16 32 ∧
  2 * 16 <= GetSizeAndRedzoneSizeForLocal 100 16 32.
Proof. apply (local_redzone_size_ok 100 16 32); lia. Defined.
