(* ===== verification/AsanShadow.v ===== *)
(** * AsanShadow: source/loader/layers/sanitizer/asan/asan_shadow.{cpp,hpp}

    The shadow memory of the address sanitizer: the mapping of an address to
    its shadow byte per device type, set-up and tear-down, poisoning on the
    host (CPU) and through the driver with pages mapped on demand (GPU), and
    the scratch shadow of local and private memory.

    [Shadow] and [ShadowLaws] state what the interceptor needs of a
    [ShadowMemory]; the CPU and the GPU model are its two instances.  The
    function-local statics of the GPU methods, which all GPU shadow objects
    share, are the record [gpu_statics].  Locks, logging and the statistics
    counters are left out. *)
From S2P Require Import Prelude SanCommon.

(** ** Constants of asan_libdevice.hpp *)

Definition ASAN_SHADOW_SCALE : Z := 4.
Definition ASAN_SHADOW_GRANULARITY : Z := Z.shiftl 1 ASAN_SHADOW_SCALE.
Definition ASAN_PRIVATE_SIZE : Z := 0xffffff + 1.

(** [(char)z] *)
Definition schar (z : Z) : Z := if z <? 128 then z else z - 256.

Definition kUsmDeviceRedzoneMagic : Z := schar 0x81.
Definition kUsmHostRedzoneMagic : Z := schar 0x82.
Definition kUsmSharedRedzoneMagic : Z := schar 0x83.
Definition kMemBufferRedzoneMagic : Z := schar 0x84.
Definition kDeviceGlobalRedzoneMagic : Z := schar 0x85.
Definition kNullPointerRedzoneMagic : Z := schar 0x86.
Definition kUsmDeviceDeallocatedMagic : Z := schar 0x91.
Definition kUsmHostDeallocatedMagic : Z := schar 0x92.
Definition kUsmSharedDeallocatedMagic : Z := schar 0x93.
Definition kMemBufferDeallocatedMagic : Z := schar 0x93.

(** ** The address mapping *)

Definition MemToShadow_CPU (ShadowBegin Ptr : Z) : Z :=
  w64 (ShadowBegin + Z.shiftr Ptr ASAN_SHADOW_SCALE).

Definition MemToShadow_PVC (ShadowBegin Ptr : Z) : Z :=
  if negb (Z.land Ptr 0xFF00000000000000 =? 0)
  then w64 (ShadowBegin + 0x80000000000 +
            Z.shiftr (Z.land Ptr 0xFFFFFFFFFFFF) ASAN_SHADOW_SCALE)
  else w64 (ShadowBegin + Z.shiftr (Z.land Ptr 0x7FFFFFFFFFFF) ASAN_SHADOW_SCALE).

Definition MemToShadow_DG2 (ShadowBegin Ptr : Z) : Z :=
  if negb (Z.land Ptr 0xFFFF000000000000 =? 0)
  then w64 (ShadowBegin + 0x80000000000 +
            Z.shiftr (Z.land Ptr 0x7FFFFFFFFFFF) ASAN_SHADOW_SCALE)
  else w64 (ShadowBegin + Z.shiftr Ptr ASAN_SHADOW_SCALE).

Definition CPU_ShadowSize : Z := 0x80000000000.
Definition PVC_ShadowSize : Z := 0x180000000000.
Definition DG2_ShadowSize : Z := 0x100000000000.

(** The virtual methods, by the device type that selects the class in
    [GetShadowMemory]; [None]: no class. *)
Definition GetShadowSize (ty : DeviceType) : option Z :=
  match ty with
  | CPU => Some CPU_ShadowSize
  | GPU_PVC => Some PVC_ShadowSize
  | GPU_DG2 => Some DG2_ShadowSize
  | DT_UNKNOWN => None
  end.

Definition MemToShadow (ty : DeviceType) (ShadowBegin Ptr : Z) : option Z :=
  match ty with
  | CPU => Some (MemToShadow_CPU ShadowBegin Ptr)
  | GPU_PVC => Some (MemToShadow_PVC ShadowBegin Ptr)
  | GPU_DG2 => Some (MemToShadow_DG2 ShadowBegin Ptr)
  | DT_UNKNOWN => None
  end.

(** ** What the interceptor uses of a shadow memory *)

Class Shadow (S : Type) := {
  (** [EnqueuePoisonShadow(Queue, Ptr, Size, Value)] *)
  poison : Z → Z → Z → Z → M S unit;
  (** [MemToShadow(Ptr)] *)
  m2s : S → Z → Z;
  (** the shadow byte at a shadow address *)
  sh_view : S → list ddi_call → Z → Z
}.

(** The shadow of [p, p + n) is the run of bytes, one per granule, that starts
    at the shadow of [p]. *)
Definition contiguous (f : Z → Z) (p n : Z) : Prop :=
  ∀ i, 0 <= i < n → f (p + i) = f p + ((p + i) / 16 - p / 16).

(** Poisoning writes the value to the shadow of the range and nothing else. *)
Class ShadowLaws (S : Type) `{Shadow S} (inv : S → list ddi_call → Prop) := {
  poison_ok q p n v s h s' h' :
    inv s h → 0 <= p → 0 <= n → p + n <= 2 ^ 64 → contiguous (m2s s) p n →
    poison q p n v s h = (Go tt, s', h') →
    inv s' h' ∧ (∀ x, m2s s' x = m2s s x) ∧
    ∀ a, sh_view s' h' a =
      if (0 <? n) && (m2s s p <=? a) && (a <=? m2s s (p + n - 1)) then u8 v
      else sh_view s h a
}.

(** ** Host shadow: [ShadowMemoryCPU] *)

(** [memset(addr, v, n)] on a byte memory; bytes not in the map are zero, as in
    a fresh anonymous mapping. *)
Definition memset (addr v : Z) (n : Z) (m : gmap Z Z) : gmap Z Z :=
  foldr (λ i m, <[addr + i := v]> m) m (seqZ 0 n).

Definition byte_at (m : gmap Z Z) (a : Z) : Z := default 0 (m !! a).

(** [c_setup] and [c_destroyed] are the function-local static results. *)
Record cpu_shadow := mkCpu {
  c_begin : Z;
  c_end : Z;
  c_mem : gmap Z Z;
  c_setup : option ur_result_t;
  c_destroyed : option ur_result_t
}.

Definition cpu_poison (Queue Ptr Size Value : Z) : M cpu_shadow unit :=
  if Size =? 0 then mret tt
  else modify (λ s,
    let ShadowBegin := MemToShadow_CPU (c_begin s) Ptr in
    let ShadowEnd := MemToShadow_CPU (c_begin s) (w64 (Ptr + Size - 1)) in
    mkCpu (c_begin s) (c_end s)
      (memset ShadowBegin (u8 Value) (w64 (ShadowEnd - ShadowBegin + 1)) (c_mem s))
      (c_setup s) (c_destroyed s)).

(** [mmap] stands for the address [MmapNoReserve] returns. *)
Definition cpu_Setup (mmap : Z) : M cpu_shadow ur_result_t :=
  s ← get;
  match c_setup s with
  | Some r => mret r
  | None =>
      r ← try (
        modify (λ s, mkCpu mmap (c_end s) (c_mem s) (c_setup s) (c_destroyed s));;
        (if mmap =? 0 then fail UR_RESULT_ERROR_OUT_OF_HOST_MEMORY
         else
           modify (λ s, mkCpu (c_begin s) (w64 (c_begin s + CPU_ShadowSize)) (c_mem s)
                          (c_setup s) (c_destroyed s));;
           cpu_poison 0 0 4096 kNullPointerRedzoneMagic));
      modify (λ s, mkCpu (c_begin s) (c_end s) (c_mem s) (Some r) (c_destroyed s));;
      mret r
  end.

(** [munmap] stands for the result of [Munmap]. *)
Definition cpu_Destory (munmap : bool) : M cpu_shadow ur_result_t :=
  s ← get;
  if c_begin s =? 0 then mret UR_RESULT_SUCCESS
  else match c_destroyed s with
  | Some r => mret r
  | None =>
      let r := if munmap then UR_RESULT_SUCCESS else UR_RESULT_ERROR_UNKNOWN in
      modify (λ s, mkCpu (c_begin s) (c_end s) (c_mem s) (c_setup s) (Some r));;
      mret r
  end.

Definition cpu_AllocShadow : M cpu_shadow (Z * Z) :=
  s ← get; mret (c_begin s, c_end s).

#[export] Instance cpu_Shadow : Shadow cpu_shadow := {
  poison := cpu_poison;
  m2s s p := MemToShadow_CPU (c_begin s) p;
  sh_view s _ a := byte_at (c_mem s) a
}.

(** ** GPU shadow: [ShadowMemoryGPU] *)

Record gpu_shadow := mkGpu {
  g_type : DeviceType;             (* the final class: GPU_PVC or GPU_DG2 *)
  Context : Z;
  Device : Z;
  ShadowBegin : Z;
  ShadowEnd : Z;
  VirtualMemMaps : gmap Z Z;
  LocalShadowOffset : Z;
  PrivateShadowOffset : Z
}.

(** The function-local statics, one per process for every GPU object. *)
Record gpu_statics := mkStatics {
  Setup_Result : option ur_result_t;
  Destory_Result : option ur_result_t;
  Poison_PageSize : option Z;
  Local_LastAllocedSize : Z;
  Private_LastAllocedSize : Z
}.

Definition no_statics : gpu_statics := mkStatics None None None 0 0.

Definition gpu := (gpu_shadow * gpu_statics)%type.

Definition set_Shadow (b e : Z) (g : gpu_shadow) : gpu_shadow :=
  mkGpu (g_type g) (Context g) (Device g) b e (VirtualMemMaps g)
    (LocalShadowOffset g) (PrivateShadowOffset g).
Definition set_Maps (m : gmap Z Z) (g : gpu_shadow) : gpu_shadow :=
  mkGpu (g_type g) (Context g) (Device g) (ShadowBegin g) (ShadowEnd g) m
    (LocalShadowOffset g) (PrivateShadowOffset g).
Definition set_Local (o : Z) (g : gpu_shadow) : gpu_shadow :=
  mkGpu (g_type g) (Context g) (Device g) (ShadowBegin g) (ShadowEnd g) (VirtualMemMaps g)
    o (PrivateShadowOffset g).
Definition set_Private (o : Z) (g : gpu_shadow) : gpu_shadow :=
  mkGpu (g_type g) (Context g) (Device g) (ShadowBegin g) (ShadowEnd g) (VirtualMemMaps g)
    (LocalShadowOffset g) o.

Definition set_Setup_Result (r : ur_result_t) (s : gpu_statics) : gpu_statics :=
  mkStatics (Some r) (Destory_Result s) (Poison_PageSize s)
    (Local_LastAllocedSize s) (Private_LastAllocedSize s).
Definition set_Destory_Result (r : ur_result_t) (s : gpu_statics) : gpu_statics :=
  mkStatics (Setup_Result s) (Some r) (Poison_PageSize s)
    (Local_LastAllocedSize s) (Private_LastAllocedSize s).
Definition set_PageSize (p : Z) (s : gpu_statics) : gpu_statics :=
  mkStatics (Setup_Result s) (Destory_Result s) (Some p)
    (Local_LastAllocedSize s) (Private_LastAllocedSize s).
Definition set_LastLocal (n : Z) (s : gpu_statics) : gpu_statics :=
  mkStatics (Setup_Result s) (Destory_Result s) (Poison_PageSize s) n
    (Private_LastAllocedSize s).
Definition set_LastPrivate (n : Z) (s : gpu_statics) : gpu_statics :=
  mkStatics (Setup_Result s) (Destory_Result s) (Poison_PageSize s)
    (Local_LastAllocedSize s) n.

Definition gpu_MemToShadow (g : gpu_shadow) (Ptr : Z) : Z :=
  default 0 (MemToShadow (g_type g) (ShadowBegin g) Ptr).
Definition gpu_ShadowSize (g : gpu_shadow) : Z := default 0 (GetShadowSize (g_type g)).

Section gpu.
Variable drv : driver.
#[local] Abbreviation G := (M gpu).

Definition obj : G gpu_shadow := s ← get; mret s.1.
Definition upd (f : gpu_shadow → gpu_shadow) : G unit := modify (λ s, (f s.1, s.2)).
Definition statics : G gpu_statics := s ← get; mret s.2.
Definition upd_statics (f : gpu_statics → gpu_statics) : G unit :=
  modify (λ s, (s.1, f s.2)).

(** [GetVirtualMemGranularity]: the result code is only asserted. *)
Definition GetVirtualMemGranularity (ctx dev : Z) : G Z :=
  r ← call drv (VirtualMem_Granularity ctx dev); mret r.2.

(** [static const size_t PageSize = GetVirtualMemGranularity(...)] *)
Definition static_PageSize : G Z :=
  st ← statics;
  match Poison_PageSize st with
  | Some p => mret p
  | None =>
      g ← obj;
      p ← GetVirtualMemGranularity (Context g) (Device g);
      upd_statics (set_PageSize p);;
      mret p
  end.

(** One page of the loop of [EnqueuePoisonShadow]. *)
Definition map_page (Queue MappedPtr PageSize : Z) : G unit :=
  g ← obj;
  match VirtualMemMaps g !! MappedPtr with
  | Some _ => mret tt
  | None =>
      PhysicalMem ← UR_CALL drv (PhysicalMem_Create (Context g) (Device g) PageSize);
      UR_CALL drv (VirtualMem_Map (Context g) MappedPtr PageSize PhysicalMem);;
      UR_CALL drv (Enqueue_USMFill Queue MappedPtr 0 PageSize);;
      upd (λ g, set_Maps (<[MappedPtr := PhysicalMem]> (VirtualMemMaps g)) g)
  end.

(** [for (MappedPtr = ...; MappedPtr <= ShadowEnd; MappedPtr += PageSize)] *)
Fixpoint map_pages (fuel : nat) (Queue MappedPtr ShadowEnd PageSize : Z) : G unit :=
  if MappedPtr <=? ShadowEnd then
    match fuel with
    | O => stop NoFuel
    | S fuel' =>
        map_page Queue MappedPtr PageSize;;
        map_pages fuel' Queue (w64 (MappedPtr + PageSize)) ShadowEnd PageSize
    end
  else mret tt.

Definition pages_fuel (first last PageSize : Z) : nat :=
  Z.to_nat ((last - first) / PageSize + 1).

Definition EnqueuePoisonShadow (Queue Ptr Size Value : Z) : G unit :=
  if Size =? 0 then mret tt
  else
    g ← obj;
    let ShadowBegin := gpu_MemToShadow g Ptr in
    let ShadowEnd := gpu_MemToShadow g (w64 (Ptr + Size - 1)) in
    PageSize ← static_PageSize;
    let First := RoundDownTo ShadowBegin PageSize in
    map_pages (pages_fuel First ShadowEnd PageSize) Queue First ShadowEnd PageSize;;
    UR_CALL drv
      (Enqueue_USMFill Queue ShadowBegin (u8 Value) (w64 (ShadowEnd - ShadowBegin + 1)));;
    mret tt.

(** The body of [Setup]'s static initialiser.  The temporary queue is
    finished and released whatever the poisoning returns. *)
Definition Setup_body : G unit :=
  g ← obj;
  Begin ← UR_CALL drv (VirtualMem_Reserve (Context g) 0x100000000000000 (gpu_ShadowSize g));
  upd (set_Shadow Begin (w64 (Begin + gpu_ShadowSize g)));;
  call drv (Context_Retain (Context g));;
  gran ← GetVirtualMemGranularity (Context g) (Device g);
  q ← call drv (Queue_Create (Context g) (Device g));
  r ← try (EnqueuePoisonShadow q.2 0 (w64 (Z.shiftl gran ASAN_SHADOW_SCALE))
             kNullPointerRedzoneMagic);
  call drv (Queue_Finish q.2);;
  call drv (Queue_Release q.2);;
  (if decide (r = UR_RESULT_SUCCESS) then mret tt else fail r).

Definition Setup : G ur_result_t :=
  st ← statics;
  match Setup_Result st with
  | Some r => mret r
  | None => r ← try Setup_body; upd_statics (set_Setup_Result r);; mret r
  end.

Fixpoint unmap_all (ctx PageSize : Z) (maps : list (Z * Z)) : G unit :=
  match maps with
  | [] => mret tt
  | (MappedPtr, PhysicalMem) :: maps' =>
      UR_CALL drv (VirtualMem_Unmap ctx MappedPtr PageSize);;
      UR_CALL drv (PhysicalMem_Release PhysicalMem);;
      unmap_all ctx PageSize maps'
  end.

(** The body of [Destory]'s static initialiser. *)
Definition Destory_body : G unit :=
  g ← obj;
  PageSize ← GetVirtualMemGranularity (Context g) (Device g);
  unmap_all (Context g) PageSize (map_to_list (VirtualMemMaps g));;
  UR_CALL drv (VirtualMem_Free (Context g) (ShadowBegin g) (gpu_ShadowSize g));;
  UR_CALL drv (Context_Release (Context g));;
  mret tt.

Definition Destory_static : G ur_result_t :=
  st ← statics;
  match Destory_Result st with
  | Some r => mret r
  | None => r ← try Destory_body; upd_statics (set_Destory_Result r);; mret r
  end.

(** Free the private shadow when there is one. *)
Definition Destory_private : G unit :=
  g ← obj;
  if PrivateShadowOffset g =? 0 then mret tt
  else
    UR_CALL drv (USM_Free (Context g) (PrivateShadowOffset g));;
    upd (set_Private 0).

Definition Destory : G unit :=
  Destory_private;;
  Result ← Destory_static;
  if ur_result_is_zero Result then fail Result   (* [if (!Result) return Result;] *)
  else
    g ← obj;
    (if LocalShadowOffset g =? 0 then mret tt
     else
       UR_CALL drv (USM_Free (Context g) (LocalShadowOffset g));;
       upd (set_Local 0));;
    g ← obj;
    if ShadowBegin g =? 0 then mret tt
    else
      UR_CALL drv (VirtualMem_Free (Context g) (ShadowBegin g) (gpu_ShadowSize g));;
      UR_CALL drv (Context_Release (Context g));;
      upd (set_Shadow 0 0).

(** [AllocLocalShadow] and [AllocPrivateShadow] differ in the size per work
    group and in the fields they use. *)
Section scratch.
Variable offset : gpu_shadow → Z.
Variable set_offset : Z → gpu_shadow → gpu_shadow.
Variable last : gpu_statics → Z.
Variable set_last : Z → gpu_statics → gpu_statics.

Definition alloc_scratch (Queue RequiredShadowSize : Z) : G unit :=
  g ← obj;
  st ← statics;
  (if offset g =? 0 then mret tt
   else
     UR_CALL drv (USM_Free (Context g) (offset g));;
     upd (set_offset 0);; upd_statics (set_last 0));;
  p ← UR_CALL drv (USM_DeviceAlloc (Context g) (Device g) None 0 RequiredShadowSize);
  upd (set_offset p);;
  URes ← call drv (Enqueue_USMFill Queue p 0 RequiredShadowSize);
  (if decide (URes.1 = UR_RESULT_SUCCESS) then mret tt
   else
     UR_CALL drv (USM_Free (Context g) p);;
     upd (set_offset 0);; upd_statics (set_last 0));;
  upd_statics (set_last RequiredShadowSize).

Definition AllocScratchShadow (Queue RequiredShadowSize : Z) : G (Z * Z) :=
  st ← statics;
  (if last st <? RequiredShadowSize then alloc_scratch Queue RequiredShadowSize
   else mret tt);;
  g ← obj;
  mret (offset g, w64 (offset g + RequiredShadowSize - 1)).
End scratch.

(** The pair is ([Begin], [End]). *)
Definition AllocLocalShadow (Queue NumWG : Z) : G (Z * Z) :=
  g ← obj;
  LocalMemorySize ← call drv (Device_LocalMemSize (Device g));
  AllocScratchShadow LocalShadowOffset set_Local Local_LastAllocedSize set_LastLocal Queue
    (Z.shiftr (w64 (NumWG * LocalMemorySize.2)) ASAN_SHADOW_SCALE).

Definition AllocPrivateShadow (Queue NumWG : Z) : G (Z * Z) :=
  AllocScratchShadow PrivateShadowOffset set_Private Private_LastAllocedSize set_LastPrivate
    Queue (Z.shiftr (w64 (NumWG * ASAN_PRIVATE_SIZE)) ASAN_SHADOW_SCALE).
End gpu.

(** ** The documented address layout *)

(** USM addresses of asan_shadow.hpp: below [2^47] everywhere, and the device
    allocations of the two GPUs. *)
Definition usm_address (ty : DeviceType) (p : Z) : Prop :=
  match ty with
  | DT_UNKNOWN => False
  | CPU => 0 <= p < 2 ^ 47
  | GPU_PVC => 0 <= p < 2 ^ 47 ∨ 0xff00000000000000 <= p <= 0xff00ffffffffffff
  | GPU_DG2 => 0 <= p < 2 ^ 47 ∨ 0xffff800000000000 <= p <= 0xffffffffffffffff
  end.

(** The first device address. *)
Definition device_base (ty : DeviceType) : Z :=
  match ty with GPU_PVC => 0xff00000000000000 | _ => 0xffff800000000000 end.

Definition shadow_offset (ty : DeviceType) (p : Z) : Z :=
  if p <? 2 ^ 47 then p / 16 else 0x80000000000 + (p - device_base ty) / 16.

(** ** Lemmas: the address mapping *)

Lemma land_high p k m :
  0 <= p < 2 ^ 64 → 0 <= k < 64 → m = not64 (2 ^ k - 1) → Z.land p m = p - p mod 2 ^ k.
Proof. intros Hp Hk ->. by apply land_not64_pow2. Qed.

Lemma shiftr_scale p : Z.shiftr p ASAN_SHADOW_SCALE = p / 16.
Proof. by rewrite Z.shiftr_div_pow2. Qed.

Lemma land_high_zero p k m :
  0 <= p < 2 ^ 64 → 0 <= k < 64 → m = not64 (2 ^ k - 1) →
  (Z.land p m =? 0) = (p <? 2 ^ k).
Proof.
  intros Hp Hk Hm. rewrite (land_high p k m Hp Hk Hm).
  pose proof (pow2_range k Hk). pose proof (Z.mod_pos_bound p (2 ^ k)).
  pose proof (Z_div_mod_eq_full p (2 ^ k)).
  destruct (Z.ltb_spec p (2 ^ k)) as [Hlt|Hge].
  - rewrite Z.mod_small by lia. apply Z.eqb_eq. lia.
  - apply Z.eqb_neq. lia.
Qed.

Lemma MemToShadow_spec ty base sz p :
  usm_address ty p → 0 <= base → GetShadowSize ty = Some sz → base + sz <= 2 ^ 64 →
  MemToShadow ty base p = Some (base + shadow_offset ty p) ∧ 0 <= shadow_offset ty p < sz.
Proof.
  intros Hp Hb Hsz Hov. unfold shadow_offset.
  destruct ty; cbn in *; [done|..]; injection Hsz as <-;
    unfold CPU_ShadowSize, PVC_ShadowSize, DG2_ShadowSize in *.
  - rewrite (proj2 (Z.ltb_lt p (2 ^ 47))) by lia. unfold MemToShadow_CPU.
    rewrite shiftr_scale, w64_small by lia_div. split; [done|lia_div].
  - unfold MemToShadow_PVC. rewrite (land_high_zero p 56) by (done || lia).
    change 0xFFFFFFFFFFFF with (Z.ones 48). change 0x7FFFFFFFFFFF with (Z.ones 47).
    rewrite !Z.land_ones, !shiftr_scale by lia.
    destruct Hp as [Hp|Hp].
    + rewrite !(proj2 (Z.ltb_lt p _)) by lia. cbn [negb]. rewrite Z.mod_small by lia.
      rewrite w64_small by lia_div. split; [done|lia_div].
    + rewrite !(proj2 (Z.ltb_ge p _)) by lia. cbn [negb].
      replace (p mod 2 ^ 48) with (p - 0xff00000000000000) by lia_div.
      rewrite w64_small by lia_div. split; [f_equal; lia|lia_div].
  - unfold MemToShadow_DG2. rewrite (land_high_zero p 48) by (done || lia).
    change 0x7FFFFFFFFFFF with (Z.ones 47).
    rewrite !Z.land_ones, !shiftr_scale by lia.
    destruct Hp as [Hp|Hp].
    + rewrite !(proj2 (Z.ltb_lt p _)) by lia. cbn [negb].
      rewrite w64_small by lia_div. split; [done|lia_div].
    + rewrite !(proj2 (Z.ltb_ge p _)) by lia. cbn [negb].
      replace (p mod 2 ^ 47) with (p - 0xffff800000000000) by lia_div.
      rewrite w64_small by lia_div. split; [f_equal; lia|lia_div].
Qed.

Lemma shadow_offset_granule ty p q :
  usm_address ty p → usm_address ty q →
  shadow_offset ty p = shadow_offset ty q ↔ p / 16 = q / 16.
Proof.
  intros Hp Hq. unfold shadow_offset.
  destruct (Z.ltb_spec p (2 ^ 47)), (Z.ltb_spec q (2 ^ 47)); [done|..];
    destruct ty; cbn in *; try lia; lia_div.
Qed.

(** A range within one part of the layout has a contiguous shadow. *)
Lemma MemToShadow_contiguous ty base sz p n (f : Z → Z) :
  GetShadowSize ty = Some sz → 0 <= base → base + sz <= 2 ^ 64 →
  (∀ i, 0 <= i < n → usm_address ty (p + i)) → (p < 2 ^ 47 → p + n <= 2 ^ 47) →
  (∀ x, f x = default 0 (MemToShadow ty base x)) → contiguous f p n.
Proof.
  intros Hsz Hb Hov Hu Hlow Hf i Hi. rewrite !Hf.
  pose proof (Hu i Hi) as Hui. pose proof (Hu 0 ltac:(lia)) as Hu0. rewrite Z.add_0_r in Hu0.
  destruct (MemToShadow_spec ty base sz _ Hui Hb Hsz Hov) as [-> _].
  destruct (MemToShadow_spec ty base sz _ Hu0 Hb Hsz Hov) as [-> _]. cbn [from_option id].
  unfold shadow_offset.
  destruct (Z.ltb_spec p (2 ^ 47)), (Z.ltb_spec (p + i) (2 ^ 47)); [lia..|].
  assert (device_base ty mod 16 = 0) by (by destruct ty). lia_div.
Qed.

Lemma gpu_MemToShadow_bound g p :
  g_type g = GPU_PVC ∨ g_type g = GPU_DG2 → 0 <= p < 2 ^ 64 → 0 <= ShadowBegin g →
  ShadowBegin g + gpu_ShadowSize g <= 2 ^ 64 →
  ShadowBegin g <= gpu_MemToShadow g p < ShadowBegin g + gpu_ShadowSize g.
Proof.
  intros Ht Hp Hb. unfold gpu_MemToShadow, gpu_ShadowSize, MemToShadow, GetShadowSize.
  destruct Ht as [-> | ->]; cbn [from_option id]; unfold PVC_ShadowSize, DG2_ShadowSize; intros Hov.
  - unfold MemToShadow_PVC. rewrite (land_high_zero p 56) by (done || lia).
    change 0xFFFFFFFFFFFF with (Z.ones 48). change 0x7FFFFFFFFFFF with (Z.ones 47).
    rewrite !Z.land_ones, !shiftr_scale by lia.
    destruct (Z.ltb_spec p (2 ^ 56)); cbn [negb]; rewrite w64_small by lia_div; lia_div.
  - unfold MemToShadow_DG2. rewrite (land_high_zero p 48) by (done || lia).
    change 0x7FFFFFFFFFFF with (Z.ones 47).
    rewrite !Z.land_ones, !shiftr_scale by lia.
    destruct (Z.ltb_spec p (2 ^ 48)); cbn [negb]; rewrite w64_small by lia_div; lia_div.
Qed.

(** ** Lemmas: the host shadow implements the interface *)

Lemma memset_lookup addr v n m a :
  byte_at (memset addr v n m) a =
  if (addr <=? a) && (a <? addr + n) then v else byte_at m a.
Proof.
  unfold memset.
  assert (∀ l, byte_at (foldr (λ i m, <[addr + i := v]> m) m l) a =
               if bool_decide (a - addr ∈ l) then v else byte_at m a) as Hl.
  { induction l as [|i l IH]; [done|]. cbn [foldr]. unfold byte_at in *.
    destruct (decide (addr + i = a)) as [<-|Hne].
    - rewrite lookup_insert_eq. rewrite bool_decide_true; [done|].
      replace (addr + i - addr) with i by lia. by left.
    - rewrite lookup_insert_ne by done. rewrite IH.
      rewrite (bool_decide_ext (a - addr ∈ i :: l) (a - addr ∈ l)); [done|].
      rewrite elem_of_cons. split; [intros [?|?]; [lia|done]|by right]. }
  rewrite Hl. rewrite (bool_decide_ext _ (addr <= a ∧ a < addr + n)).
  2: { rewrite elem_of_seqZ. lia. }
  destruct (Z.leb_spec addr a), (Z.ltb_spec a (addr + n)); cbn [andb];
    case_bool_decide; (done || lia).
Qed.

Definition cpu_inv (s : cpu_shadow) (h : list ddi_call) : Prop :=
  0 <= c_begin s ∧ c_begin s + CPU_ShadowSize <= 2 ^ 63.

#[export] Instance cpu_ShadowLaws : ShadowLaws cpu_shadow cpu_inv.
Proof.
  constructor. intros q p n v s h s' h' Hinv Hp Hn Hpn Hc. cbn in *. unfold cpu_poison.
  destruct (Z.eqb_spec n 0) as [->|Hn0].
  { intros [= <- <-]. split_and!; [done|done|]. done. }
  intros [= <- <-]. cbn. split_and!; [exact Hinv|done|]. intros a.
  rewrite (w64_small (p + n - 1)) by lia.
  pose proof (Hc (n - 1) ltac:(lia)) as He. replace (p + (n - 1)) with (p + n - 1) in He by lia.
  rewrite He. pose proof (w64_range (c_begin s + Z.shiftr p ASAN_SHADOW_SCALE)) as Hr.
  change (w64 _) with (MemToShadow_CPU (c_begin s) p) in Hr.
  rewrite memset_lookup.
  replace (MemToShadow_CPU (c_begin s) p + ((p + n - 1) / 16 - p / 16) -
           MemToShadow_CPU (c_begin s) p + 1) with ((p + n - 1) / 16 - p / 16 + 1) by lia.
  rewrite w64_small by lia_div. rewrite (proj2 (Z.ltb_lt 0 n)) by lia. cbn [andb].
  destruct (Z.leb_spec (MemToShadow_CPU (c_begin s) p) a); cbn [andb]; [|done].
  match goal with |- (if ?x <? ?y then _ else _) = (if ?x <=? ?z then _ else _) =>
    destruct (Z.ltb_spec x y), (Z.leb_spec x z) end; (done || lia).
Qed.

(** ** Lemmas: the GPU shadow implements the interface *)

Lemma obj_bind {A} (f : gpu_shadow → M gpu A) s h : (obj ≫= f) s h = f s.1 s h.
Proof. done. Qed.
Lemma statics_bind {A} (f : gpu_statics → M gpu A) s h : (statics ≫= f) s h = f s.2 s h.
Proof. done. Qed.

(** The documented behaviour of the driver that poisoning relies on: a
    successful fill writes its range; creating and mapping physical memory
    changes nothing outside the mapped range; the granularity is fixed. *)
Class DriverMemory (drv : driver) (view : list ddi_call → Z → Z) (page : Z) := {
  fill_writes h q a v n x :
    (drv h (Enqueue_USMFill q a v n)).1 = UR_RESULT_SUCCESS →
    view (h ++ [Enqueue_USMFill q a v n]) x = if (a <=? x) && (x <? a + n) then v else view h x;
  create_keeps h c d n x : view (h ++ [PhysicalMem_Create c d n]) x = view h x;
  map_keeps h c a n ph x : ¬ (a <= x < a + n) → view (h ++ [VirtualMem_Map c a n ph]) x = view h x;
  granularity_keeps h c d x : view (h ++ [VirtualMem_Granularity c d]) x = view h x;
  granularity_value h c d : (drv h (VirtualMem_Granularity c d)).2 = page
}.

Section gpu_laws.
Context (drv : driver) (view : list ddi_call → Z → Z) (k : Z).
Context (Hk : 0 <= k <= 40) `{!DriverMemory drv view (2 ^ k)}.
#[local] Abbreviation page := (2 ^ k).

(** What the shadow memory of a GPU object looks like between two calls:
    pages that are not mapped have not been written. *)
Definition gpu_inv (s : gpu) (h : list ddi_call) : Prop :=
  (g_type s.1 = GPU_PVC ∨ g_type s.1 = GPU_DG2) ∧
  0 <= ShadowBegin s.1 ∧ ShadowBegin s.1 + gpu_ShadowSize s.1 <= 2 ^ 63 ∧
  (Poison_PageSize s.2 = None ∨ Poison_PageSize s.2 = Some page) ∧
  ∀ x, VirtualMemMaps s.1 !! (x - x mod page) = None → view h x = 0.

Definition gpu_frame (s s' : gpu) : Prop :=
  g_type s'.1 = g_type s.1 ∧ ShadowBegin s'.1 = ShadowBegin s.1 ∧
  VirtualMemMaps s.1 ⊆ VirtualMemMaps s'.1.

Lemma page_pos : 0 < page <= 2 ^ 40.
Proof.
  split; [apply Z.pow_pos_nonneg; lia|]. apply Z.pow_le_mono_r; lia.
Qed.

Lemma map_page_ok q P s h s' h' :
  gpu_inv s h → (page | P) → map_page drv q P page s h = (Go tt, s', h') →
  gpu_inv s' h' ∧ gpu_frame s s' ∧ (∀ x, view h' x = view h x) ∧
  is_Some (VirtualMemMaps s'.1 !! P) ∧ s'.2 = s.2.
Proof.
  intros Hinv HP. pose proof page_pos as Hpg. unfold map_page. rewrite obj_bind.
  destruct (VirtualMemMaps s.1 !! P) as [ph|] eqn:HPm.
  { intros [= <- <-]. split_and!; try done. }
  intros H. apply bind_Go_inv in H as (ph & s1 & h1 & (Hc & -> & ->)%UR_CALL_inv & H).
  apply bind_Go_inv in H as (w & s2 & h2 & (Hm & -> & ->)%UR_CALL_inv & H).
  apply bind_Go_inv in H as (w' & s3 & h3 & (Hf & -> & ->)%UR_CALL_inv & H).
  injection H as <- <-. destruct Hinv as (Ht & Hb & Hov & Hps & Hz).
  assert (∀ x, view (((h ++ [PhysicalMem_Create (Context s.1) (Device s.1) page])
                      ++ [VirtualMem_Map (Context s.1) P page ph])
                     ++ [Enqueue_USMFill q P 0 page]) x = view h x) as Hview.
  { intros x. rewrite fill_writes by (by rewrite Hf).
    destruct (decide (P <= x < P + page)) as [Hin|Hout].
    - rewrite (proj2 (Z.leb_le P x)), (proj2 (Z.ltb_lt x (P + page))) by lia. cbn [andb].
      symmetry. apply Hz. replace (x - x mod page) with P; [done|].
      destruct HP as [z ->]. rewrite (Z.mod_eq x page) by lia.
      replace (x / page) with z; [lia|]. apply (Z.div_unique x page z (x - z * page)); lia.
    - replace ((P <=? x) && (x <? P + page)) with false.
      2: { destruct (Z.leb_spec P x), (Z.ltb_spec x (P + page)); cbn; try done; lia. }
      by rewrite map_keeps, create_keeps. }
  split_and!; cbn; try done.
  - split_and!; cbn; try done. intros x Hx. rewrite Hview.
    apply lookup_insert_None in Hx as [Hx _]. by apply Hz.
  - split_and!; cbn; try done. by apply insert_subseteq.
  - rewrite lookup_insert_eq. eauto.
Qed.

Lemma gpu_frame_trans s1 s2 s3 : gpu_frame s1 s2 → gpu_frame s2 s3 → gpu_frame s1 s3.
Proof.
  intros (E1 & B1 & H1) (E2 & B2 & H2). split_and!; [congruence|congruence|by etrans].
Qed.

Lemma map_pages_ok fuel q P last s h s' h' :
  gpu_inv s h → (page | P) → 0 <= P → last < 2 ^ 63 →
  map_pages drv fuel q P last page s h = (Go tt, s', h') →
  gpu_inv s' h' ∧ gpu_frame s s' ∧ (∀ x, view h' x = view h x) ∧ s'.2 = s.2 ∧
  ∀ P', P <= P' <= last → (page | P') → is_Some (VirtualMemMaps s'.1 !! P').
Proof.
  pose proof page_pos as Hpg.
  revert P s h. induction fuel as [|fuel IH]; intros P s h Hinv HP HP0 Hl; cbn [map_pages];
    (destruct (Z.leb_spec P last) as [Hle|Hgt];
     [|intros [= <- <-]; split_and!; try done; intros; lia]); [done|].
  intros H0. apply bind_Go_inv in H0 as ([] & s1 & h1 & H1 & H2).
  destruct (map_page_ok _ _ _ _ _ _ Hinv HP H1) as (Hinv1 & Hf1 & Hv1 & Hm1 & Hs1).
  rewrite w64_small in H2 by lia.
  destruct (IH (P + page) s1 h1 Hinv1) as (Hinv2 & Hf2 & Hv2 & Hs2 & Hm2); try done; [|lia|].
  { apply Z.divide_add_r; [done|]. apply Z.divide_refl. }
  split_and!; [done|by eapply gpu_frame_trans| |congruence|].
  - intros x. by rewrite Hv2, Hv1.
  - intros P' Hb' HP'. destruct (decide (P' = P)) as [->|Hne].
    + destruct Hm1 as [ph Hph]. exists ph. destruct Hf2 as (_ & _ & Hsub).
      by eapply lookup_weaken.
    + apply Hm2; [|done]. destruct HP as [z ->], HP' as [z' ->]. split; [|lia].
      assert (z + 1 <= z') by nia. nia.
Qed.

(** The number of iterations given to the loop suffices. *)
Lemma map_pages_fuel fuel q P last s h s' h' :
  0 <= P → last < 2 ^ 63 → last - P < Z.of_nat fuel * page →
  map_pages drv fuel q P last page s h ≠ (Halt NoFuel, s', h').
Proof.
  pose proof page_pos as Hpg.
  revert P s h. induction fuel as [|fuel IH]; intros P s h HP Hl Hf; cbn [map_pages];
    (destruct (Z.leb_spec P last) as [Hle|Hgt]; [|done]); [lia|].
  unfold mbind at 1, M_bind at 1.
  destruct (map_page drv q P page s h) as [[[[]|r|w] s1] h1] eqn:Hm; [|done|].
  - rewrite w64_small by lia. apply IH; lia.
  - exfalso. clear IH. revert Hm. unfold map_page, obj, UR_CALL, call, upd, modify, get, mbind, M_bind,
      mret, M_ret, fail. cbn.
    destruct (VirtualMemMaps s.1 !! P); [done|].
    repeat (case_decide; cbn; [|done]). done.
Qed.

Lemma static_PageSize_ok s h :
  gpu_inv s h →
  ∃ s' h', static_PageSize drv s h = (Go page, s', h') ∧ gpu_inv s' h' ∧
           s'.1 = s.1 ∧ ∀ x, view h' x = view h x.
Proof.
  intros Hinv. pose proof Hinv as (Ht & Hb & Hov & Hps & Hz).
  unfold static_PageSize, statics, obj, upd_statics, modify, GetVirtualMemGranularity, call,
    get, mbind, M_bind, mret, M_ret. cbn.
  destruct Hps as [-> | ->]; [|by exists s, h].
  rewrite granularity_value. eexists _, _. split; [done|].
  assert (∀ x, view (h ++ [VirtualMem_Granularity (Context s.1) (Device s.1)]) x = view h x)
    as Hv by (intros x; apply granularity_keeps).
  split; [|split; [done|exact Hv]].
  split_and!; cbn; try done; [by right|]. intros x Hx. rewrite Hv. by apply Hz.
Qed.
Lemma EnqueuePoisonShadow_ok q p n v s h s' h' :
  gpu_inv s h → 0 <= p → 0 <= n → p + n <= 2 ^ 64 → contiguous (gpu_MemToShadow s.1) p n →
  EnqueuePoisonShadow drv q p n v s h = (Go tt, s', h') →
  gpu_inv s' h' ∧ gpu_frame s s' ∧
  (∀ a, view h' a =
     if (0 <? n) && (gpu_MemToShadow s.1 p <=? a) && (a <=? gpu_MemToShadow s.1 (p + n - 1))
     then u8 v else view h a) ∧
  (∀ P, 0 < n → (page | P) →
     gpu_MemToShadow s.1 p - page < P <= gpu_MemToShadow s.1 (p + n - 1) →
     is_Some (VirtualMemMaps s'.1 !! P)).
Proof.
  intros Hinv Hp Hn Hpn Hc. unfold EnqueuePoisonShadow.
  destruct (Z.eqb_spec n 0) as [->|Hn0].
  { intros [= <- <-]. split_and!; [apply Hinv..|done|done|done|lia]. }
  rewrite obj_bind, (w64_small (p + n - 1)) by lia.
  pose proof Hinv as (Ht & Hb & Hov & _ & _). pose proof page_pos as Hpg.
  pose proof (gpu_MemToShadow_bound s.1 p Ht ltac:(lia) Hb ltac:(lia)) as Hbp.
  pose proof (gpu_MemToShadow_bound s.1 (p + n - 1) Ht ltac:(lia) Hb ltac:(lia)) as Hbe.
  pose proof (Hc (n - 1) ltac:(lia)) as He. replace (p + (n - 1)) with (p + n - 1) in He by lia.
  assert (gpu_MemToShadow s.1 p <= gpu_MemToShadow s.1 (p + n - 1)) as Hle by lia_div.
  set (b := gpu_MemToShadow s.1 p) in *. set (e := gpu_MemToShadow s.1 (p + n - 1)) in *.
  clearbody b e. clear Hc He.
  destruct (static_PageSize_ok s h Hinv) as (s1 & h1 & H1 & Hinv1 & Hs1 & Hv1).
  rewrite (bind_Go _ _ _ _ _ _ _ H1). intros H.
  apply bind_Go_inv in H as ([] & s2 & h2 & H2 & H).
  apply bind_Go_inv in H as (w & s3 & h3 & (Hfill & -> & ->)%UR_CALL_inv & [= <- <-]).
  pose proof (RoundDownTo_spec b k ltac:(lia) ltac:(lia)) as HRD.
  pose proof (Z.mod_pos_bound b page ltac:(lia)) as Hmod.
  assert (page | RoundDownTo b page) as Hdiv.
  { rewrite HRD. exists (b / page). pose proof (Z_div_mod_eq_full b page). lia. }
  assert (0 <= RoundDownTo b page) as Hnn.
  { rewrite HRD. pose proof (Z.mod_le b page ltac:(lia) ltac:(lia)). lia. }
  destruct (map_pages_ok _ _ _ e _ _ _ _ Hinv1 Hdiv Hnn ltac:(lia) H2)
    as ((Ht2 & Hb2 & Hov2 & Hps2 & Hz2) & Hf & Hv2 & Hs2 & Hmap).
  rewrite w64_small in * by lia.
  assert (∀ a, view (h2 ++ [Enqueue_USMFill q b (u8 v) (e - b + 1)]) a =
               if (b <=? a) && (a <=? e) then u8 v else view h a) as Hview.
  { intros a. rewrite fill_writes by (by rewrite Hfill). rewrite Hv2, Hv1.
    replace (a <? b + (e - b + 1)) with (a <=? e); [done|].
    destruct (Z.leb_spec a e), (Z.ltb_spec a (b + (e - b + 1))); (done || lia). }
  assert (gpu_frame s s2) as Hfr.
  { destruct Hf as (? & ? & ?). rewrite Hs1 in *. by split_and!. }
  split; [split_and!; try done|split; [done|]].
  - intros x Hx. rewrite Hview.
    destruct (Z.leb_spec b x), (Z.leb_spec x e); cbn [andb]; try (rewrite <- Hv1, <- Hv2; by apply Hz2).
    destruct (Hmap (x - x mod page)) as [? Hsome]; [| |congruence].
    + rewrite HRD. pose proof (Z_div_mod_eq_full b page). pose proof (Z_div_mod_eq_full x page).
      pose proof (Z.mod_pos_bound x page ltac:(lia)).
      assert (b / page <= x / page) by (apply Z.div_le_mono; lia). nia.
    + exists (x / page). pose proof (Z_div_mod_eq_full x page). lia.
  - split.
    + intros a. rewrite Hview, (proj2 (Z.ltb_lt 0 n)) by lia. done.
    + intros P _ HP HPr. apply Hmap; [|done]. rewrite HRD. split; [|lia].
      destruct HP as [z ->]. pose proof (Z_div_mod_eq_full b page).
      assert (b / page <= z); [|nia]. 
      assert (b / page < z + 1); [|lia]. apply Z.div_lt_upper_bound; lia.
Qed.
End gpu_laws.

(** The GPU shadow as a [Shadow], and its laws. *)
Definition gpu_Shadow (drv : driver) (view : list ddi_call → Z → Z) : Shadow gpu := {|
  poison := EnqueuePoisonShadow drv;
  m2s s p := gpu_MemToShadow s.1 p;
  sh_view _ h a := view h a
|}.

Lemma gpu_ShadowLaws drv view k :
  0 <= k <= 40 → DriverMemory drv view (2 ^ k) →
  @ShadowLaws gpu (gpu_Shadow drv view) (gpu_inv view k).
Proof.
  intros Hk HD. constructor. intros q p n v s h s' h' Hinv Hp Hn Hpn Hc H. cbn in *.
  destruct (EnqueuePoisonShadow_ok drv view k Hk q p n v s h s' h' Hinv Hp Hn Hpn Hc H)
    as (Hinv' & (Ht & Hb & _) & Hv & _).
  split_and!; [done| |done]. intros x. unfold gpu_MemToShadow. by rewrite Ht, Hb.
Qed.

(** ** A concrete driver for the witnesses

    Every call succeeds, except huge allocations, and fills when [fills] is
    false; [replay] is the memory its fills leave. *)
Definition sample_driver (fills : bool) : driver := λ h c,
  match c with
  | VirtualMem_Granularity _ _ => (UR_RESULT_SUCCESS, 2 ^ 16)
  | VirtualMem_Reserve _ _ _ => (UR_RESULT_SUCCESS, 2 ^ 40)
  | USM_DeviceAlloc _ _ _ _ n | USM_HostAlloc _ _ _ n | USM_SharedAlloc _ _ _ _ n =>
      if n <=? 2 ^ 40
      then (UR_RESULT_SUCCESS, 2 ^ 46 + 2 ^ 20 * (Z.of_nat (length h) mod 2 ^ 20))
      else (UR_RESULT_ERROR_OUT_OF_RESOURCES, 0)
  | Device_LocalMemSize _ => (UR_RESULT_SUCCESS, 2 ^ 16)
  | Enqueue_USMFill _ _ _ _ =>
      (if fills then UR_RESULT_SUCCESS else UR_RESULT_ERROR_OUT_OF_DEVICE_MEMORY, 0)
  | _ => (UR_RESULT_SUCCESS, Z.of_nat (length h) + 1)
  end.

Definition replay_fill (m : Z → Z) (c : ddi_call) : Z → Z := λ x,
  match c with
  | Enqueue_USMFill _ a v n => if (a <=? x) && (x <? a + n) then v else m x
  | _ => m x
  end.
Definition replay (h : list ddi_call) : Z → Z := foldl replay_fill (λ _, 0) h.

Lemma sample_DriverMemory : DriverMemory (sample_driver true) replay (2 ^ 16).
Proof. constructor; intros; unfold replay; rewrite ?foldl_snoc; done. Qed.

Definition sample_gpu : gpu_shadow := mkGpu GPU_PVC 1 2 (2 ^ 40) (2 ^ 40 + PVC_ShadowSize) ∅ 0 0.

Lemma sample_inv : gpu_inv replay 16 (sample_gpu, no_statics) [].
Proof. split_and!; cbn; [by left|lia|unfold gpu_ShadowSize; cbn; unfold PVC_ShadowSize; lia|by left|done]. Qed.

(** * Properties *)

(** on every device type the shadow of a USM address lies in the shadow
    region, and two addresses have the same shadow byte exactly when they are
    in the same 16-byte granule. *)
Theorem MemToShadow_granule ty base sz p q :
  usm_address ty p → usm_address ty q →
  GetShadowSize ty = Some sz → 0 <= base → base + sz <= 2 ^ 64 →
  ∃ sp sq, MemToShadow ty base p = Some sp ∧ MemToShadow ty base q = Some sq ∧
           base <= sp < base + sz ∧ (sp = sq ↔ p / 16 = q / 16).
Proof.
  intros Hp Hq Hsz Hb Hov.
  destruct (MemToShadow_spec ty base sz p) as [-> Hr]; [done..|].
  destruct (MemToShadow_spec ty base sz q) as [-> _]; [done..|].
  eexists _, _. split_and!; [done|done|lia|lia|].
  rewrite <- (shadow_offset_granule ty) by done. lia.
Qed.

Lemma MemToShadow_granule_witness :
  ∃ sp sq, MemToShadow GPU_PVC (2 ^ 40) 0xff00000012345678 = Some sp ∧
           MemToShadow GPU_PVC (2 ^ 40) 0x12345678 = Some sq ∧
           2 ^ 40 <= sp < 2 ^ 40 + PVC_ShadowSize ∧
           (sp = sq ↔ 0xff00000012345678 / 16 = 0x12345678 / 16).
Proof.
  apply (MemToShadow_granule GPU_PVC); cbn; [lia|lia|done|lia|unfold PVC_ShadowSize; lia].
Defined.

(** C34: when GPU poisoning reports success, the shadow of the range holds the
    value, every other shadow byte is unchanged (bytes of pages mapped only now
    included: they read as zero before and after), every page the range touches
    is mapped, earlier mappings are kept, and unmapped pages stay unwritten. *)
Theorem gpu_poison_writes_range drv view k q p n v s h s' h' :
  0 <= k <= 40 → DriverMemory drv view (2 ^ k) → gpu_inv view k s h →
  0 <= p → 0 <= n → p + n <= 2 ^ 64 → contiguous (gpu_MemToShadow s.1) p n →
  EnqueuePoisonShadow drv q p n v s h = (Go tt, s', h') →
  gpu_inv view k s' h' ∧ VirtualMemMaps s.1 ⊆ VirtualMemMaps s'.1 ∧
  (∀ a, view h' a =
     if (0 <? n) && (gpu_MemToShadow s.1 p <=? a) && (a <=? gpu_MemToShadow s.1 (p + n - 1))
     then u8 v else view h a) ∧
  (∀ P, 0 < n → (2 ^ k | P) →
     gpu_MemToShadow s.1 p - 2 ^ k < P <= gpu_MemToShadow s.1 (p + n - 1) →
     is_Some (VirtualMemMaps s'.1 !! P)).
Proof.
  intros Hk HD Hinv Hp Hn Hpn Hc H.
  destruct (EnqueuePoisonShadow_ok drv view k Hk q p n v s h s' h' Hinv Hp Hn Hpn Hc H)
    as (Hinv' & (_ & _ & Hsub) & Hv & Hm). done.
Qed.

Lemma gpu_poison_writes_range_witness :
  ∃ s' h', EnqueuePoisonShadow (sample_driver true) 7 4096 64 kUsmHostRedzoneMagic
             (sample_gpu, no_statics) [] = (Go tt, s', h') ∧
           replay h' (2 ^ 40 + 257) = 0x82 ∧
           is_Some (VirtualMemMaps s'.1 !! (2 ^ 40)).
Proof.
  eexists _, _. split; [vm_compute; reflexivity|].
  match goal with |- replay ?h _ = _ ∧ is_Some (VirtualMemMaps (fst ?s) !! _) =>
    destruct (gpu_poison_writes_range (sample_driver true) replay 16 7 4096 64
                kUsmHostRedzoneMagic (sample_gpu, no_statics) [] s h)
      as (_ & _ & Hv & Hm)
  end.
  - lia.
  - exact sample_DriverMemory.
  - exact sample_inv.
  - lia.
  - lia.
  - lia.
  - apply (MemToShadow_contiguous GPU_PVC (2 ^ 40) PVC_ShadowSize); try done; cbn; lia.
  - vm_compute. reflexivity.
  - split; [rewrite Hv; reflexivity|]. apply Hm; [lia|by exists (2 ^ 24)|].
    split; [vm_compute; reflexivity|vm_compute; discriminate].
Defined.

Definition is_USM_Free (c : ddi_call) : bool :=
  match c with USM_Free _ _ => true | _ => false end.

Lemma unmap_all_calls drv ctx ps maps s h s' h' :
  unmap_all drv ctx ps maps s h = (Go tt, s', h') →
  s' = s ∧ ∃ t, h' = h ++ t ∧ Forall (λ c, is_USM_Free c = false) t.
Proof.
  revert h. induction maps as [|[a ph] maps IH]; intros h; cbn [unmap_all].
  { intros [= <- <-]. split; [done|]. exists []. by rewrite app_nil_r. }
  intros H. apply bind_Go_inv in H as (? & ? & ? & (_ & -> & ->)%UR_CALL_inv & H).
  apply bind_Go_inv in H as (? & ? & ? & (_ & -> & ->)%UR_CALL_inv & H).
  apply IH in H as (-> & t & -> & Ht). split; [done|].
  eexists. split; [by rewrite <- !app_assoc|]. by repeat constructor.
Qed.

Lemma Destory_body_calls drv s h s' h' :
  Destory_body drv s h = (Go tt, s', h') →
  s' = s ∧ ∃ t, h' = h ++ t ∧ Forall (λ c, is_USM_Free c = false) t.
Proof.
  unfold Destory_body. rewrite obj_bind. intros H.
  apply bind_Go_inv in H as (? & s1 & h1 & Hg & H). injection Hg as <- <- <-.
  apply bind_Go_inv in H as ([] & ? & ? & (-> & t & -> & Ht)%unmap_all_calls & H).
  apply bind_Go_inv in H as (? & ? & ? & (_ & -> & ->)%UR_CALL_inv & H).
  apply bind_Go_inv in H as (? & ? & ? & (_ & -> & ->)%UR_CALL_inv & [= <- <-]).
  split; [done|]. eexists. split; [by rewrite <- !app_assoc|].
  constructor; [done|]. apply Forall_app. split; [done|]. by repeat constructor.
Qed.

(** when the shadow teardown succeeds, Destory returns success without
    having freed the local shadow (no USM free is issued at all) or reset the
    shadow range: the test for the result is inverted, success being zero.  When
    the teardown fails, Destory goes on and its error is not what is returned
    if the remaining calls succeed. *)
Theorem Destory_test_inverted drv s h :
  Destory_Result s.2 = None → PrivateShadowOffset s.1 = 0 →
  (∀ s1 h1, Destory_body drv s h = (Go tt, s1, h1) →
     Destory drv s h =
       (Fail UR_RESULT_SUCCESS, (s.1, set_Destory_Result UR_RESULT_SUCCESS s.2), h1) ∧
     Forall (λ c, is_USM_Free c = false) (drop (length h) h1)) ∧
  (∀ r s1 h1, Destory_body drv s h = (Fail r, s1, h1) → r ≠ UR_RESULT_SUCCESS →
     LocalShadowOffset s1.1 = 0 → ShadowBegin s1.1 = 0 →
     Destory drv s h = (Go tt, (s1.1, set_Destory_Result r s1.2), h1)).
Proof.
  intros Hd Hp. split.
  - intros s1 h1 H. destruct (Destory_body_calls _ _ _ _ _ H) as (-> & t & -> & Ht).
    unfold Destory, Destory_private. unfold mbind at 1, M_bind at 1. rewrite obj_bind, Hp.
    cbn [Z.eqb mret M_ret]. unfold Destory_static. unfold mbind at 1, M_bind at 1.
    rewrite statics_bind, Hd. unfold mbind at 1, M_bind at 1, try. rewrite H.
    split; [done|]. by rewrite drop_app_length.
  - intros r s1 h1 H Hr Hl Hb.
    unfold Destory, Destory_private. unfold mbind at 1, M_bind at 1. rewrite obj_bind, Hp.
    cbn [Z.eqb mret M_ret]. unfold Destory_static. unfold mbind at 1, M_bind at 1.
    rewrite statics_bind, Hd. unfold mbind at 1, M_bind at 1, try. rewrite H.
    unfold mbind at 1, M_bind at 1, mret, M_ret. cbn [upd_statics modify].
    assert (ur_result_is_zero r = false) as Hz by (by destruct r).
    unfold upd_statics, modify. cbn [fst snd]. rewrite Hz.
    rewrite obj_bind. unfold mbind at 1, M_bind at 1. cbn. rewrite Hl. cbn.
    rewrite obj_bind. cbn. by rewrite Hb.
Qed.

Definition sample_local : gpu :=
  (mkGpu GPU_PVC 1 2 (2 ^ 40) (2 ^ 40 + PVC_ShadowSize) {[2 ^ 40 := 5]} 4096 0,
   mkStatics (Some UR_RESULT_SUCCESS) None (Some (2 ^ 16)) 512 0).

Lemma Destory_test_inverted_witness :
  ∃ s' h', Destory (sample_driver true) sample_local [] = (Fail UR_RESULT_SUCCESS, s', h') ∧
           LocalShadowOffset s'.1 = 4096 ∧ Forall (λ c, is_USM_Free c = false) h'.
Proof.
  destruct (Destory_test_inverted (sample_driver true) sample_local []) as [H _];
    [reflexivity|reflexivity|].
  destruct (H sample_local
              [VirtualMem_Granularity 1 2; VirtualMem_Unmap 1 (2 ^ 40) (2 ^ 16);
               PhysicalMem_Release 5; VirtualMem_Free 1 (2 ^ 40) PVC_ShadowSize;
               Context_Release 1]) as [-> Hf]; [vm_compute; reflexivity|].
  eexists _, _. split; [reflexivity|]. split; [reflexivity|exact Hf].
Defined.

(** when zeroing a freshly allocated local shadow fails, the memory is freed
    but success is returned with a null Begin; the size is recorded all the
    same, so every later request up to that size returns the null Begin again
    without allocating. *)
Theorem local_shadow_fill_failure drv s h q wg lms p r x x' :
  let req := Z.shiftr (w64 (wg * lms)) ASAN_SHADOW_SCALE in
  let h1 := h ++ [Device_LocalMemSize (Device s.1)] in
  let h2 := h1 ++ [USM_DeviceAlloc (Context s.1) (Device s.1) None 0 req] in
  let h3 := h2 ++ [Enqueue_USMFill q p 0 req] in
  let h4 := h3 ++ [USM_Free (Context s.1) p] in
  LocalShadowOffset s.1 = 0 → Local_LastAllocedSize s.2 < req →
  drv h (Device_LocalMemSize (Device s.1)) = (UR_RESULT_SUCCESS, lms) →
  drv h1 (USM_DeviceAlloc (Context s.1) (Device s.1) None 0 req) = (UR_RESULT_SUCCESS, p) →
  drv h2 (Enqueue_USMFill q p 0 req) = (r, x) → r ≠ UR_RESULT_SUCCESS →
  drv h3 (USM_Free (Context s.1) p) = (UR_RESULT_SUCCESS, x') →
  ∃ s', AllocLocalShadow drv q wg s h = (Go (0, w64 (req - 1)), s', h4) ∧
  ∀ h' wg' q' lms', drv h' (Device_LocalMemSize (Device s.1)) = (UR_RESULT_SUCCESS, lms') →
    Z.shiftr (w64 (wg' * lms')) ASAN_SHADOW_SCALE <= req →
    AllocLocalShadow drv q' wg' s' h' =
      (Go (0, w64 (Z.shiftr (w64 (wg' * lms')) ASAN_SHADOW_SCALE - 1)), s',
       h' ++ [Device_LocalMemSize (Device s.1)]).
Proof.
  intros req h1 h2 h3 h4 Ho Hl Hlms Ha Hf Hr Hfr.
  exists (set_Local 0 s.1, set_LastLocal req (set_LastLocal 0 s.2)). split.
  - unfold AllocLocalShadow. rewrite obj_bind. unfold mbind at 1, M_bind at 1, call at 1.
    rewrite Hlms. cbn [snd]. fold req h1. unfold AllocScratchShadow. rewrite statics_bind.
    rewrite (proj2 (Z.ltb_lt _ _) Hl). unfold mbind at 1, M_bind at 1, alloc_scratch.
    rewrite obj_bind, statics_bind, Ho. cbn [Z.eqb]. unfold mbind at 1, M_bind at 1.
    cbn [mret M_ret]. unfold mbind at 1, M_bind at 1, UR_CALL at 1, call at 1.
    unfold mbind at 1, M_bind at 1. rewrite Ha. cbn [fst snd]. fold h2.
    rewrite decide_True by done. cbn [mret M_ret].
    unfold upd, modify, mbind, M_bind, call. cbn [fst snd]. rewrite Hf. cbn [fst snd]. fold h3.
    rewrite decide_False by done. unfold UR_CALL, call, mbind, M_bind.
    rewrite Hfr. cbn. fold h4. done.
  - intros h' wg' q' lms' Hlms' Hle. unfold AllocLocalShadow. rewrite obj_bind. cbn [fst].
    unfold mbind at 1, M_bind at 1, call at 1. cbn [set_Local Device]. rewrite Hlms'.
    cbn [snd]. unfold AllocScratchShadow. rewrite statics_bind. cbn [snd set_LastLocal Local_LastAllocedSize].
    rewrite (proj2 (Z.ltb_ge _ _)) by lia. reflexivity.
Qed.

Lemma local_shadow_fill_failure_witness :
  ∃ s' h', AllocLocalShadow (sample_driver false) 7 4 (sample_gpu, no_statics) [] =
             (Go (0, 16383), s', h') ∧
  AllocLocalShadow (sample_driver false) 7 2 s' h' =
    (Go (0, 8191), s', h' ++ [Device_LocalMemSize 2]).
Proof.
  destruct (local_shadow_fill_failure (sample_driver false) (sample_gpu, no_statics) [] 7 4
              (2 ^ 16) (2 ^ 46 + 2 ^ 20) UR_RESULT_ERROR_OUT_OF_DEVICE_MEMORY 0 4)
    as (s' & H & H'); try reflexivity; [discriminate|].
  eexists s', _. split; [exact H|].
  exact (H' _ 2 7 (2 ^ 16) eq_refl ltac:(vm_compute; discriminate)).
Defined.

(** set-up runs for the first GPU object only.  A second GPU object (the
    other device type of the same process) gets the first one's result without
    any driver call, keeps a null shadow base, and maps a host address [p] to
    the low address [p / 16] instead of a shadow region. *)
Theorem second_gpu_type_not_set_up drv g1 g2 st h r s1 h1 p :
  Setup_Result st = None → Setup drv (g1, st) h = (Go r, s1, h1) →
  ShadowBegin g2 = 0 → g_type g2 = GPU_PVC ∨ g_type g2 = GPU_DG2 → 0 <= p < 2 ^ 47 →
  Setup drv (g2, s1.2) h1 = (Go r, (g2, s1.2), h1) ∧ gpu_MemToShadow g2 p = p / 16.
Proof.
  intros Hst H Hb Ht Hp. split.
  - unfold Setup in *. rewrite statics_bind in *. cbn [snd] in *. rewrite Hst in H.
    apply bind_Go_inv in H as (r' & s2 & h2 & _ & [= <- <- <-]). reflexivity.
  - unfold gpu_MemToShadow. rewrite Hb.
    destruct (GetShadowSize (g_type g2)) as [sz|] eqn:Hsz; [|by destruct Ht as [Ht|Ht]; rewrite Ht in Hsz].
    destruct (MemToShadow_spec (g_type g2) 0 sz p) as [-> _]; [|done|done| |].
    + destruct Ht as [-> | ->]; cbn; lia.
    + destruct Ht as [Ht|Ht]; rewrite Ht in Hsz; injection Hsz as <-;
        unfold PVC_ShadowSize, DG2_ShadowSize; lia.
    + cbn. unfold shadow_offset. rewrite (proj2 (Z.ltb_lt p _)) by lia. done.
Qed.

Lemma second_gpu_type_not_set_up_witness :
  ∃ s1 h1, Setup (sample_driver true) (mkGpu GPU_PVC 1 2 0 0 ∅ 0 0, no_statics) [] =
             (Go UR_RESULT_SUCCESS, s1, h1) ∧
  Setup (sample_driver true) (mkGpu GPU_DG2 3 4 0 0 ∅ 0 0, s1.2) h1 =
    (Go UR_RESULT_SUCCESS, (mkGpu GPU_DG2 3 4 0 0 ∅ 0 0, s1.2), h1).
Proof.
  eexists _, _. split; [vm_compute; reflexivity|].
  eapply (second_gpu_type_not_set_up (sample_driver true) (mkGpu GPU_PVC 1 2 0 0 ∅ 0 0)
            (mkGpu GPU_DG2 3 4 0 0 ∅ 0 0) no_statics [] UR_RESULT_SUCCESS _ _ 0);
    [reflexivity|vm_compute; reflexivity|reflexivity|by right|lia].
Defined.
