(* ===== verification/AsanInterceptor.v ===== *)
(** * AsanInterceptor: source/loader/layers/sanitizer/asan

    The bookkeeping of the address sanitizer: allocation and release of USM
    with redzones (asan_interceptor.cpp), the quarantine of released chunks
    (asan_quarantine.{cpp,hpp}), the statistics (asan_statistics.cpp), pointer
    validation (asan_validator.cpp) and the shadow update of a chunk.

    The [AllocInfo] objects are shared between the allocation map, the
    per-context lists and the quarantine, so they live in a store and are
    referred to by identity.  A quarantine element is an iterator into the
    allocation map, that is, a key; using it after the entry was erased is
    undefined.  Stack traces, logging and locks are left out. *)
From S2P Require Import Prelude SanCommon AsanShadow.

(** ** Data *)

Record AllocInfo := mkAI {
  AllocBegin : Z;
  UserBegin : Z;
  UserEnd : Z;
  AllocSize : Z;
  Type_ : AllocType;
  IsReleased : bool;
  AI_Context : Z;
  AI_Device : Z
}.

Definition getRedzoneSize (ai : AllocInfo) : Z :=
  w64 (AllocSize ai - w64 (UserEnd ai - UserBegin ai)).

(** [AsanStats]; the overhead, a [double] only printed, is left out. *)
Record AsanStats := mkStats {
  UsmMalloced : Z;
  UsmMallocedRedzones : Z;
  UsmFreed : Z;
  ShadowMalloced : Z
}.

Record AsanOptions := mkOptions {
  MinRZSize : Z;
  MaxRZSize : Z;
  MaxQuarantineSizeMB : Z;
  HaltOnError : bool;
  PrintStats : bool;
  DetectLeaks : bool
}.

Definition default_options : AsanOptions := mkOptions 16 2048 8 true false true.

(** [USMPool = None]: the pool was not asked for yet. *)
Record ContextInfo := mkCI {
  USMPool : option Z;
  DeviceList : list Z;
  AllocInfosMap : gmap Z (list Z);
  Stats : option AsanStats
}.

Record DeviceInfo := mkDI {
  DI_Alignment : Z;
  IsSupportSharedSystemUSM : bool
}.

Record QuarantineCache := mkCache { m_List : list Z; m_Size : Z }.

Record Quarantine := mkQuarantine {
  m_Map : gmap Z QuarantineCache;
  m_MaxQuarantineSize : Z
}.

(** What the interceptor reports to the user. *)
Inductive report :=
| BadFree (Addr : Z) (ai : option Z)
| BadContext (Addr : Z) (ai : Z)
| DoubleFree (Addr : Z) (ai : Z)
| MemoryLeak (ai : Z).

Record interceptor := mkI {
  m_Options : AsanOptions;
  m_ContextMap : gmap Z ContextInfo;
  m_DeviceMap : gmap Z DeviceInfo;
  m_AllocationMap : gmap Z Z;          (* AllocBegin to the object *)
  m_Quarantine : option Quarantine;
  store : gmap Z AllocInfo;            (* the objects *)
  next_id : Z;
  reports : list report
}.

Definition set_ContextMap (m : gmap Z ContextInfo) (i : interceptor) : interceptor :=
  mkI (m_Options i) m (m_DeviceMap i) (m_AllocationMap i) (m_Quarantine i) (store i) (next_id i)
    (reports i).
Definition set_DeviceMap (m : gmap Z DeviceInfo) (i : interceptor) : interceptor :=
  mkI (m_Options i) (m_ContextMap i) m (m_AllocationMap i) (m_Quarantine i) (store i) (next_id i)
    (reports i).
Definition set_AllocationMap (m : gmap Z Z) (i : interceptor) : interceptor :=
  mkI (m_Options i) (m_ContextMap i) (m_DeviceMap i) m (m_Quarantine i) (store i) (next_id i)
    (reports i).
Definition set_Quarantine (q : option Quarantine) (i : interceptor) : interceptor :=
  mkI (m_Options i) (m_ContextMap i) (m_DeviceMap i) (m_AllocationMap i) q (store i) (next_id i)
    (reports i).
Definition set_store (s : gmap Z AllocInfo) (n : Z) (i : interceptor) : interceptor :=
  mkI (m_Options i) (m_ContextMap i) (m_DeviceMap i) (m_AllocationMap i) (m_Quarantine i) s n
    (reports i).
Definition add_report (r : report) (i : interceptor) : interceptor :=
  mkI (m_Options i) (m_ContextMap i) (m_DeviceMap i) (m_AllocationMap i) (m_Quarantine i)
    (store i) (next_id i) (reports i ++ [r]).

Definition set_AllocInfos (m : gmap Z (list Z)) (ci : ContextInfo) : ContextInfo :=
  mkCI (USMPool ci) (DeviceList ci) m (Stats ci).
Definition set_USMPool (p : Z) (ci : ContextInfo) : ContextInfo :=
  mkCI (Some p) (DeviceList ci) (AllocInfosMap ci) (Stats ci).
Definition set_Stats (s : option AsanStats) (ci : ContextInfo) : ContextInfo :=
  mkCI (USMPool ci) (DeviceList ci) (AllocInfosMap ci) s.
Definition set_Released (ai : AllocInfo) : AllocInfo :=
  mkAI (AllocBegin ai) (UserBegin ai) (UserEnd ai) (AllocSize ai) (Type_ ai) true
    (AI_Context ai) (AI_Device ai).

(** The constructor: no quarantine when its size is zero. *)
Definition new_interceptor (o : AsanOptions) : interceptor :=
  mkI o ∅ ∅ ∅
    (if MaxQuarantineSizeMB o =? 0 then None
     else Some (mkQuarantine ∅ (w64 (MaxQuarantineSizeMB o * 1024 * 1024))))
    ∅ 0 [].

(** ** Statistics *)

Definition UpdateUSMMalloced (MallocedSize RedzoneSize : Z) (s : AsanStats) : AsanStats :=
  mkStats (w64 (UsmMalloced s + MallocedSize)) (w64 (UsmMallocedRedzones s + RedzoneSize))
    (UsmFreed s) (ShadowMalloced s).

Definition UpdateUSMFreed (FreedSize : Z) (s : AsanStats) : AsanStats :=
  mkStats (UsmMalloced s) (UsmMallocedRedzones s) (w64 (UsmFreed s + FreedSize))
    (ShadowMalloced s).

Definition UpdateUSMRealFreed (o : AsanOptions) (FreedSize RedzoneSize : Z) (s : AsanStats)
  : AsanStats :=
  mkStats (w64 (UsmMalloced s - FreedSize)) (w64 (UsmMallocedRedzones s - RedzoneSize))
    (if MaxQuarantineSizeMB o =? 0 then UsmFreed s else w64 (UsmFreed s - FreedSize))
    (ShadowMalloced s).

Definition UpdateShadowMalloced (ShadowSize : Z) (s : AsanStats) : AsanStats :=
  mkStats (UsmMalloced s) (UsmMallocedRedzones s) (UsmFreed s)
    (w64 (ShadowMalloced s + ShadowSize)).

Definition UpdateShadowFreed (ShadowSize : Z) (s : AsanStats) : AsanStats :=
  mkStats (UsmMalloced s) (UsmMallocedRedzones s) (UsmFreed s)
    (w64 (ShadowMalloced s - ShadowSize)).

(** [AsanStatsWrapper]: an update does nothing without a [Stat] object. *)
Definition with_stats (f : AsanStats → AsanStats) (ci : ContextInfo) : ContextInfo :=
  set_Stats (f <$> Stats ci) ci.

(** ** Quarantine *)

(** [while (Cache.size() + AllocSize > m_MaxQuarantineSize)]: dequeue from the
    front; [size_of] follows an iterator. *)
Fixpoint quarantine_dequeue (size_of : Z → option Z) (AllocSize Max : Z) (l : list Z) (size : Z)
  : option (list Z * QuarantineCache) :=
  if Max <? w64 (size + AllocSize) then
    match l with
    | [] => Some ([], mkCache [] size)
    | It :: l' =>
        n ← size_of It;
        r ← quarantine_dequeue size_of AllocSize Max l' (w64 (size - n));
        Some (It :: r.1, r.2)
    end
  else Some ([], mkCache l size).

Definition quarantine_enqueue (It n : Z) (c : QuarantineCache) : QuarantineCache :=
  mkCache (m_List c ++ [It]) (w64 (m_Size c + n)).

Definition getCache (Device : Z) (q : Quarantine) : QuarantineCache :=
  default (mkCache [] 0) (m_Map q !! Device).

(** [Quarantine::put]: the list of evicted iterators. *)
Definition quarantine_put (size_of : Z → option Z) (Device It : Z) (q : Quarantine)
  : option (list Z * Quarantine) :=
  n ← size_of It;
  let Cache := getCache Device q in
  r ← quarantine_dequeue size_of n (m_MaxQuarantineSize q) (m_List Cache) (m_Size Cache);
  Some (r.1, mkQuarantine (<[Device := quarantine_enqueue It n r.2]> (m_Map q))
               (m_MaxQuarantineSize q)).

(** ** The allocation map *)

Definition findAllocInfoByAddress (i : interceptor) (Address : Z) : option (Z * Z * AllocInfo) :=
  It ← floor_key (m_AllocationMap i) Address;
  id ← m_AllocationMap i !! It;
  ai ← store i !! id;
  if (Address <? AllocBegin ai) || (w64 (AllocBegin ai + AllocSize ai) <=? Address) then None
  else Some (It, id, ai).

Definition key_le (a b : Z * Z) : Prop := a.1 <= b.1.
#[export] Instance key_le_dec : RelDecision key_le.
Proof. intros a b. unfold key_le. apply _. Defined.

(** The chunks of a context, in the order of their addresses. *)
Definition findAllocInfoByContext (i : interceptor) (Context : Z) : list Z :=
  filter (λ id, AI_Context <$> (store i !! id) = Some Context)
    (snd <$> merge_sort key_le (map_to_list (m_AllocationMap i))).

(** Follow an iterator to the size of its chunk. *)
Definition it_size (i : interceptor) (It : Z) : option Z :=
  id ← m_AllocationMap i !! It; ai ← store i !! id; Some (AllocSize ai).

(** [ContextInfo::insertAllocInfo] *)
Definition insertAllocInfo (Devices : list Z) (id : Z) (ci : ContextInfo) : ContextInfo :=
  set_AllocInfos
    (foldl (λ m d, <[d := default [] (m !! d) ++ [id]]> m) (AllocInfosMap ci) Devices) ci.

Section interceptor.
Variable drv : driver.
#[local] Abbreviation I := (M interceptor).

(** [m_ContextMap[Context]] of an unknown context is a null pointer. *)
Definition getContextInfo (Context : Z) : I ContextInfo :=
  i ← get; deref (m_ContextMap i !! Context).
Definition getDeviceInfo (Device : Z) : I DeviceInfo :=
  i ← get; deref (m_DeviceMap i !! Device).

Definition update_context (Context : Z) (f : ContextInfo → ContextInfo) : I unit :=
  modify (λ i, set_ContextMap (alter f Context (m_ContextMap i)) i).

(** [ContextInfo::getUSMPool]: the pool is created once; a failed creation
    leaves the null pool. *)
Definition getUSMPool (Context : Z) : I Z :=
  ci ← getContextInfo Context;
  match USMPool ci with
  | Some p => mret p
  | None =>
      r ← call drv (USM_PoolCreate Context);
      let p := if decide (r.1 = UR_RESULT_SUCCESS) then r.2 else 0 in
      update_context Context (set_USMPool p);;
      mret p
  end.

Definition alloc_call (Context Device : Z) (Properties : option Z) (Pool NeededSize : Z)
    (Type_ : AllocType) : I Z :=
  match Type_ with
  | DEVICE_USM | MEM_BUFFER =>
      UR_CALL drv (USM_DeviceAlloc Context Device Properties Pool NeededSize)
  | HOST_USM => UR_CALL drv (USM_HostAlloc Context Properties Pool NeededSize)
  | SHARED_USM => UR_CALL drv (USM_SharedAlloc Context Device Properties Pool NeededSize)
  | AT_UNKNOWN | DEVICE_GLOBAL => fail UR_RESULT_ERROR_INVALID_ARGUMENT
  end.

(** The alignment used: the requested one, else the device's, at least 16. *)
Definition effective_alignment (Properties : option Z) (di : option DeviceInfo) : Z :=
  let Alignment := default 0 Properties in
  let Alignment :=
    if Alignment =? 0
    then match di with Some d => w32 (DI_Alignment d) | None => ASAN_SHADOW_GRANULARITY end
    else Alignment in
  if Alignment <? ASAN_SHADOW_GRANULARITY then ASAN_SHADOW_GRANULARITY else Alignment.

Definition needed_size (Size RZSize Alignment : Z) : Z :=
  let NeededSize := w64 (RoundUpTo Size Alignment + RZSize * 2) in
  if ASAN_SHADOW_GRANULARITY <? Alignment then w64 (NeededSize + Alignment) else NeededSize.

Definition user_begin (AllocBegin RZSize Alignment : Z) : Z :=
  let UserBegin := w64 (AllocBegin + RZSize) in
  if IsAligned UserBegin Alignment then UserBegin else RoundUpTo UserBegin Alignment.

(** Create the object and enter it in the lists and the map. *)
Definition register_alloc (Context Device : Z) (ai : AllocInfo) : I unit :=
  i ← get;
  let id := next_id i in
  modify (set_store (<[id := ai]> (store i)) (id + 1));;
  update_context Context
    (λ ci, insertAllocInfo (if Device =? 0 then DeviceList ci else [Device]) id ci);;
  modify (λ i, set_AllocationMap (emplace (AllocBegin ai) id (m_AllocationMap i)) i).

Definition allocateMemory (Context Device : Z) (Properties : option Z) (Pool Size : Z)
    (Type_ : AllocType) : I Z :=
  getContextInfo Context;;
  di ← (if Device =? 0 then mret None else d ← getDeviceInfo Device; mret (Some d));
  let Alignment0 := default 0 Properties in
  if negb (Z.land Alignment0 (w32 (Alignment0 - 1)) =? 0)
  then fail UR_RESULT_ERROR_INVALID_ARGUMENT
  else
    let Alignment := effective_alignment Properties di in
    i ← get;
    match ComputeRZLog Size (MinRZSize (m_Options i)) (MaxRZSize (m_Options i)) with
    | Ret RZLog =>
        let RZSize := RZLog2Size RZLog in
        let NeededSize := needed_size Size RZSize Alignment in
        Pool ← (if Pool =? 0 then getUSMPool Context else mret Pool);
        AllocBegin ← alloc_call Context Device Properties Pool NeededSize Type_;
        update_context Context
          (with_stats (UpdateUSMMalloced NeededSize (w64 (NeededSize - Size))));;
        let UserBegin := user_begin AllocBegin RZSize Alignment in
        let UserEnd := w64 (UserBegin + Size) in
        register_alloc Context Device
          (mkAI AllocBegin UserBegin UserEnd NeededSize Type_ false Context Device);;
        mret UserBegin
    | _ => stop Undefined
    end.

(** [Report...; if (HaltOnError) exitWithErrors(); return UR_RESULT_SUCCESS;] *)
Definition report_and_return (r : report) : I unit :=
  modify (add_report r);;
  i ← get;
  if HaltOnError (m_Options i) then stop Exited else mret tt.

Definition erase_it (It : Z) : I unit :=
  modify (λ i, set_AllocationMap (delete It (m_AllocationMap i)) i).

(** The loop over the evicted iterators. *)
Fixpoint release_evicted (Context : Z) (ReleaseList : list Z) : I unit :=
  match ReleaseList with
  | [] => mret tt
  | It :: ReleaseList' =>
      i ← get;
      id ← deref (m_AllocationMap i !! It);
      ToFree ← deref (store i !! id);
      update_context Context
        (with_stats (UpdateUSMRealFreed (m_Options i) (AllocSize ToFree)
                       (getRedzoneSize ToFree)));;
      UR_CALL drv (USM_Free Context (AllocBegin ToFree));;
      erase_it It;;
      release_evicted Context ReleaseList'
  end.

(** The release of a chunk that passed the checks. *)
Definition release_checked (Context It id : Z) (ai : AllocInfo) : I unit :=
  modify (λ i, set_store (<[id := set_Released ai]> (store i)) (next_id i) i);;
  update_context Context (λ ci,
    insertAllocInfo (if decide (Type_ ai = HOST_USM) then DeviceList ci else [AI_Device ai])
      id ci);;
  i ← get;
  match m_Quarantine i with
  | None =>
      update_context Context
        (with_stats (UpdateUSMRealFreed (m_Options i) (AllocSize ai) (getRedzoneSize ai)));;
      erase_it It;;
      UR_CALL drv (USM_Free Context (AllocBegin ai));;
      mret tt
  | Some q =>
      r ← deref (quarantine_put (it_size i) (AI_Device ai) It q);
      modify (set_Quarantine (Some r.2));;
      release_evicted Context r.1;;
      update_context Context (with_stats (UpdateUSMFreed (AllocSize ai)))
  end.

Definition releaseMemory (Context Addr : Z) : I unit :=
  getContextInfo Context;;
  i ← get;
  match findAllocInfoByAddress i Addr with
  | None => report_and_return (BadFree Addr None)
  | Some (It, id, ai) =>
      if decide (AI_Context ai ≠ Context) then
        report_and_return
          (if UserBegin ai =? Addr then BadContext Addr id else BadFree Addr None)
      else if negb (Addr =? UserBegin ai) then report_and_return (BadFree Addr (Some id))
      else if IsReleased ai then report_and_return (DoubleFree Addr id)
      else release_checked Context It id ai
  end.

(** [insertContext], [eraseContext], [insertDevice], [eraseDevice] *)
Definition insertContext (Context : Z) : I ContextInfo :=
  i ← get;
  match m_ContextMap i !! Context with
  | Some ci => mret ci
  | None =>
      let ci := mkCI None [] ∅
                  (if PrintStats (m_Options i) then Some (mkStats 0 0 0 0) else None) in
      call drv (Context_Retain Context);;
      modify (λ i, set_ContextMap (<[Context := ci]> (m_ContextMap i)) i);;
      mret ci
  end.

Definition insertDevice (Device : Z) : I DeviceInfo :=
  i ← get;
  match m_DeviceMap i !! Device with
  | Some di => mret di
  | None =>
      f ← call drv (Device_SharedSystemUSM Device);
      a ← UR_CALL drv (Device_Alignment Device);
      let di := mkDI a (negb (f.2 =? 0)) in
      modify (λ i, set_DeviceMap (<[Device := di]> (m_DeviceMap i)) i);;
      mret di
  end.

(** The loop of the leak check. *)
Fixpoint report_leaks (AllocInfos : list Z) : I unit :=
  match AllocInfos with
  | [] => mret tt
  | id :: ids =>
      i ← get;
      ai ← deref (store i !! id);
      (if IsReleased ai then mret tt else modify (add_report (MemoryLeak id)));;
      report_leaks ids
  end.

(** [~ContextInfo]: results of the calls are only asserted. *)
Definition destroy_context (Context : Z) (ci : ContextInfo) : I unit :=
  (match USMPool ci with
   | Some p => if p =? 0 then mret tt else call drv (USM_PoolRelease p);; mret tt
   | None => mret tt
   end);;
  call drv (Context_Release Context);;
  i ← get;
  if DetectLeaks (m_Options i) then report_leaks (findAllocInfoByContext i Context)
  else mret tt.

(** The erased object is destroyed here: nothing else keeps it alive between
    calls. *)
Definition eraseContext (Context : Z) : I unit :=
  i ← get;
  match m_ContextMap i !! Context with
  | None => mret tt
  | Some ci =>
      modify (λ i, set_ContextMap (delete Context (m_ContextMap i)) i);;
      destroy_context Context ci
  end.

Definition eraseDevice (Device : Z) : I unit :=
  modify (λ i, set_DeviceMap (delete Device (m_DeviceMap i)) i).
End interceptor.

(** ** The shadow of a chunk *)

Section shadow.
Context {S : Type} `{Shadow S}.

(** [None]: the assertion that rejects other types. *)
Definition released_magic (t : AllocType) : Z :=
  match t with
  | HOST_USM => kUsmHostDeallocatedMagic
  | DEVICE_USM => kUsmDeviceDeallocatedMagic
  | SHARED_USM => kUsmSharedDeallocatedMagic
  | MEM_BUFFER => kMemBufferDeallocatedMagic
  | AT_UNKNOWN | DEVICE_GLOBAL => 0xff
  end.

Definition redzone_magic (t : AllocType) : Z :=
  match t with
  | HOST_USM => kUsmHostRedzoneMagic
  | DEVICE_USM => kUsmDeviceRedzoneMagic
  | SHARED_USM => kUsmSharedRedzoneMagic
  | MEM_BUFFER => kMemBufferRedzoneMagic
  | DEVICE_GLOBAL => kDeviceGlobalRedzoneMagic
  | AT_UNKNOWN => 0xff
  end.

Definition enqueueAllocInfo (Queue : Z) (AI : AllocInfo) : M S unit :=
  if IsReleased AI then
    poison Queue (AllocBegin AI) (AllocSize AI) (released_magic (Type_ AI))
  else
    poison Queue (AllocBegin AI) (AllocSize AI) 0;;
    let TailBegin := RoundUpTo (UserEnd AI) ASAN_SHADOW_GRANULARITY in
    let TailEnd := w64 (AllocBegin AI + AllocSize AI) in
    (if TailBegin =? UserEnd AI then mret tt
     else
       let Value := w64 (UserEnd AI - RoundDownTo (UserEnd AI) ASAN_SHADOW_GRANULARITY) in
       poison Queue (UserEnd AI) 1 (u8 Value));;
    let ShadowByte := redzone_magic (Type_ AI) in
    poison Queue (AllocBegin AI) (w64 (UserBegin AI - AllocBegin AI)) ShadowByte;;
    poison Queue TailBegin (w64 (TailEnd - TailBegin)) ShadowByte.

Fixpoint enqueue_all (Queue : Z) (l : list AllocInfo) : M S unit :=
  match l with
  | [] => mret tt
  | AI :: l' => enqueueAllocInfo Queue AI;; enqueue_all Queue l'
  end.

(** [updateShadowMemory]: the pending chunks of the device, cleared on
    success. *)
Definition updateShadowMemory (Context Device Queue : Z) : M (interceptor * S) unit :=
  λ st h,
    match m_ContextMap st.1 !! Context with
    | None => (Halt Undefined, st, h)
    | Some ci =>
        let ids := default [] (AllocInfosMap ci !! Device) in
        match mapM (λ id, store st.1 !! id) ids with
        | None => (Halt Undefined, st, h)
        | Some ais =>
            match enqueue_all Queue ais st.2 h with
            | (Go _, s', h') =>
                (Go tt,
                 (set_ContextMap
                    (<[Context := set_AllocInfos (<[Device := []]> (AllocInfosMap ci)) ci]>
                       (m_ContextMap st.1)) st.1, s'), h')
            | (Fail r, s', h') => (Fail r, (st.1, s'), h')
            | (Halt w, s', h') => (Halt w, (st.1, s'), h')
            end
        end
    end.
End shadow.

(** ** Pointer validation *)

Inductive ValidateUSMResult :=
| SUCCESS
| NULL_POINTER
| MAYBE_HOST_POINTER
| RELEASED_POINTER (ai : Z)
| BAD_CONTEXT (ai : Z)
| BAD_DEVICE (ai : Z)
| OUT_OF_BOUNDS (ai : Z).

(** [Parent] stands for [GetParentDevice]; 0 for a root device. *)
Definition IsSameDevice (Parent : Z → Z) (Device1 Device2 : Z) : bool :=
  if Device1 =? Device2 then true
  else
    let root d := if Parent d =? 0 then d else Parent d in
    root Device1 =? root Device2.

Definition ValidateUSMPointer (Parent : Z → Z) (i : interceptor) (Context Device Ptr : Z)
  : option ValidateUSMResult :=
  match findAllocInfoByAddress i Ptr with
  | None =>
      DI ← m_DeviceMap i !! Device;
      Some (if IsSupportSharedSystemUSM DI then SUCCESS else MAYBE_HOST_POINTER)
  | Some (_, id, AI) =>
      Some (
        if negb (AI_Context AI =? Context) then BAD_CONTEXT id
        else if negb (AI_Device AI =? 0) && negb (IsSameDevice Parent (AI_Device AI) Device)
        then BAD_DEVICE id
        else if IsReleased AI then RELEASED_POINTER id
        else if (Ptr <? UserBegin AI) || (UserEnd AI <=? Ptr) then OUT_OF_BOUNDS id
        else SUCCESS)
  end.

(** The number of work groups computed by [prepareLaunch]: the division is on
    [size_t], the product is kept in 32 bits. *)
Definition NumWG (GlobalWorkSize LocalWorkSize : list Z) : Z :=
  foldl (λ n gl, w32 (n * (w64 (gl.1 + gl.2 - 1) / gl.2))) 1 (zip GlobalWorkSize LocalWorkSize).

(** ** Specification vocabulary *)

(** The geometry of a chunk: granule-aligned ends and user begin. *)
Definition chunk_ok (ai : AllocInfo) : Prop :=
  0 <= AllocBegin ai ∧ AllocBegin ai + AllocSize ai <= 2 ^ 64 - 16 ∧ 0 < AllocSize ai ∧
  AllocBegin ai mod 16 = 0 ∧ AllocSize ai mod 16 = 0 ∧ UserBegin ai mod 16 = 0 ∧
  AllocBegin ai <= UserBegin ai <= UserEnd ai ∧ UserEnd ai <= AllocBegin ai + AllocSize ai.

(** Reading the shadow byte [b] of address [a]: zero makes the granule
    accessible, 1 to 15 its first bytes, anything else (negative) nothing. *)
Definition accessible (b a : Z) : Prop := b = 0 ∨ 0 < b < 16 ∧ a mod 16 < b.

(** ** Lemmas: the shadow of a chunk *)

Lemma leb_shift x y u v : (x + (u - y) <=? x + (v - y)) = (u <=? v).
Proof. apply eq_true_iff_eq. rewrite !Z.leb_le. lia. Qed.

Lemma contiguous_sub f p n d m :
  contiguous f p n → 0 <= d → 0 <= m → d + m <= n → contiguous f (p + d) m.
Proof.
  intros Hc Hd Hm Hdm i Hi. rewrite (Hc d) by lia.
  replace (p + d + i) with (p + (d + i)) by lia. rewrite (Hc (d + i)) by lia. lia.
Qed.

Lemma contiguous_ext f g p n : (∀ x, g x = f x) → contiguous f p n → contiguous g p n.
Proof. intros Hfg Hc i Hi. rewrite !Hfg. by apply Hc. Qed.

Section shadow_lemmas.
Context {S : Type} `{HS : Shadow S} (inv : S → list ddi_call → Prop) `{!ShadowLaws S inv}.

(** Poisoning a part of a chunk, seen from the chunk. *)
Lemma poison_part q B n d m v s h s' h' :
  inv s h → 0 <= B → B + n <= 2 ^ 64 → contiguous (m2s s) B n →
  0 <= d → 0 <= m → d + m <= n →
  poison q (B + d) m v s h = (Go tt, s', h') →
  inv s' h' ∧ (∀ x, m2s s' x = m2s s x) ∧
  (∀ a, B <= a < B + n → sh_view s' h' (m2s s a) =
     if (0 <? m) && ((B + d) / 16 <=? a / 16) && (a / 16 <=? (B + d + m - 1) / 16)
     then u8 v else sh_view s h (m2s s a)) ∧
  (∀ x, ¬ (m2s s B <= x <= m2s s (B + n - 1)) → sh_view s' h' x = sh_view s h x).
Proof.
  intros Hinv HB HBn Hc Hd Hm Hdm H.
  destruct (poison_ok q (B + d) m v s h s' h' Hinv ltac:(lia) Hm ltac:(lia)
              (contiguous_sub _ _ _ _ _ Hc Hd Hm Hdm) H) as (Hinv' & Hf & Hv).
  assert (∀ a, B <= a < B + n → m2s s a = m2s s B + (a / 16 - B / 16)) as Hg.
  { intros a Ha. pose proof (Hc (a - B) ltac:(lia)) as E.
    by replace (B + (a - B)) with a in E by lia. }
  split_and!; [done|done|..].
  - intros a Ha. rewrite Hv. destruct (Z.ltb_spec 0 m); cbn [andb]; [|done].
    rewrite (Hg a), (Hg (B + d)), (Hg (B + d + m - 1)) by lia.
    by rewrite !leb_shift.
  - intros x Hx. rewrite Hv. destruct (Z.ltb_spec 0 m); cbn [andb]; [|done].
    rewrite (Hg (B + d)), (Hg (B + d + m - 1)) by lia.
    rewrite (Hg (B + n - 1)) in Hx by lia.
    match goal with |- (if (?u <=? x) && (x <=? ?w) then _ else _) = _ =>
      destruct (Z.leb_spec u x), (Z.leb_spec x w); cbn [andb]; try done end.
    exfalso. apply Hx. lia_div.
Qed.

(** The values written around and after the user's bytes are never
    accessible. *)
Lemma magic_inaccessible t a :
  ¬ accessible (u8 (released_magic t)) a ∧ ¬ accessible (u8 (redzone_magic t)) a.
Proof. destruct t; vm_compute; split; intros [?|[[_ ?] _]]; done. Qed.
Lemma enqueue_released q AI s h s' h' :
  inv s h → chunk_ok AI → contiguous (m2s s) (AllocBegin AI) (AllocSize AI) →
  poison q (AllocBegin AI) (AllocSize AI) (released_magic (Type_ AI)) s h = (Go tt, s', h') →
  inv s' h' ∧ (∀ x, m2s s' x = m2s s x) ∧
  (∀ a, AllocBegin AI <= a < AllocBegin AI + AllocSize AI →
     ¬ accessible (sh_view s' h' (m2s s a)) a) ∧
  (∀ x, ¬ (m2s s (AllocBegin AI) <= x <= m2s s (AllocBegin AI + AllocSize AI - 1)) →
     sh_view s' h' x = sh_view s h x).
Proof.
  intros Hinv (HB & Hn & Hn0 & _) Hc H.
  rewrite <- (Z.add_0_r (AllocBegin AI)) in H.
  destruct (poison_part q (AllocBegin AI) (AllocSize AI) 0 (AllocSize AI) _ s h s' h' Hinv HB ltac:(lia) Hc
              ltac:(lia) ltac:(lia) ltac:(lia) H) as (Hi & Hf & Hv & Ho).
  split_and!; [done|done| |done].
  intros a Ha. rewrite Hv by done. rewrite !Z.add_0_r.
  rewrite (proj2 (Z.ltb_lt 0 _)), (proj2 (Z.leb_le _ _)), (proj2 (Z.leb_le _ _)) by lia_div.
  apply magic_inaccessible.
Qed.

(** What the four poisonings of a live chunk leave in its shadow. *)
Lemma enqueue_live q AI s h s' h' :
  inv s h → chunk_ok AI → contiguous (m2s s) (AllocBegin AI) (AllocSize AI) →
  IsReleased AI = false → enqueueAllocInfo q AI s h = (Go tt, s', h') →
  let TB := RoundUpTo (UserEnd AI) 16 in
  inv s' h' ∧ (∀ x, m2s s' x = m2s s x) ∧
  (∀ a, AllocBegin AI <= a < AllocBegin AI + AllocSize AI →
     sh_view s' h' (m2s s a) =
       if TB <=? a then u8 (redzone_magic (Type_ AI))
       else if a <? UserBegin AI then u8 (redzone_magic (Type_ AI))
       else if a / 16 =? UserEnd AI / 16 then UserEnd AI mod 16 else 0) ∧
  (∀ x, ¬ (m2s s (AllocBegin AI) <= x <= m2s s (AllocBegin AI + AllocSize AI - 1)) →
     sh_view s' h' x = sh_view s h x).
Proof.
  intros Hinv (HB & Hn & Hn0 & HBm & Hnm & HUm & HU & HE) Hc Hr. unfold enqueueAllocInfo.
  rewrite Hr. change ASAN_SHADOW_GRANULARITY with (2 ^ 4). cbv zeta.
  destruct (RoundUpTo_spec (UserEnd AI) 4) as [HTB [z Hz]]; [lia..|].
  rewrite RoundDownTo_spec, (w64_small (AllocBegin AI + AllocSize AI)),
    (w64_small (UserBegin AI - AllocBegin AI)) by lia.
  change (2 ^ 4) with 16 in *. set (TB := RoundUpTo (UserEnd AI) 16) in *. clearbody TB.
  set (B := AllocBegin AI) in *. set (n := AllocSize AI) in *. clearbody B n.
  set (UB := UserBegin AI) in *. set (UE := UserEnd AI) in *. clearbody UB UE.
  set (mg := redzone_magic (Type_ AI)). clearbody mg. clear Hr.
  replace (UE - (UE - UE mod 16)) with (UE mod 16) by lia.
  assert (TB <= B + n) as HTBn by lia_div.
  rewrite (w64_small (UE mod 16)), (w64_small (B + n - TB)) by lia_div.
  intros H. apply bind_Go_inv in H as ([] & s1 & h1 & H1 & H).
  apply bind_Go_inv in H as ([] & s2 & h2 & H2 & H).
  apply bind_Go_inv in H as ([] & s3 & h3 & H3 & H4).
  rewrite <- (Z.add_0_r B) in H1 at 1.
  destruct (poison_part q B n 0 n _ _ _ _ _ Hinv HB ltac:(lia) Hc ltac:(lia) ltac:(lia)
              ltac:(lia) H1) as (I1 & F1 & V1 & O1).
  assert (contiguous (m2s s1) B n) as Hc1 by (by eapply contiguous_ext).
  assert (inv s2 h2 ∧ (∀ x, m2s s2 x = m2s s x) ∧
          (∀ a, B <= a < B + n → sh_view s2 h2 (m2s s a) =
             if a / 16 =? UE / 16 then UE mod 16 else 0) ∧
          (∀ x, ¬ (m2s s B <= x <= m2s s (B + n - 1)) → sh_view s2 h2 x = sh_view s h x))
    as (I2 & F2 & V2 & O2).
  { assert (∀ a, B <= a < B + n → sh_view s1 h1 (m2s s a) = 0) as V1'.
    { intros a Ha. rewrite V1, Z.add_0_r by done.
      by rewrite (proj2 (Z.ltb_lt 0 n)), !(proj2 (Z.leb_le _ _)) by lia_div. }
    destruct (Z.eqb_spec TB UE) as [HTE|HTE].
    - injection H2 as <- <-. split_and!; [done|done| |done]. intros a Ha. rewrite V1' by done.
      case_match; [lia_div|done].
    - replace UE with (B + (UE - B)) in H2 at 1 by lia.
      destruct (poison_part q B n (UE - B) 1 _ _ _ _ _ I1 HB ltac:(lia) Hc1 ltac:(lia)
                  ltac:(lia) ltac:(lia_div) H2) as (I2 & F2 & V2 & O2).
      split_and!; [done|intros; by rewrite F2, F1| |].
      + intros a Ha. rewrite <- F1, V2 by done. rewrite F1, V1' by done.
        replace (B + (UE - B)) with UE by lia. replace (UE + 1 - 1) with UE by lia.
        unfold u8. rewrite !(Z.mod_small _ 256) by lia_div.
        destruct (Z.eqb_spec (a / 16) (UE / 16)), (Z.leb_spec (UE / 16) (a / 16)),
          (Z.leb_spec (a / 16) (UE / 16)); (done || lia).
      + intros x Hx. rewrite O2 by (by rewrite !F1). by apply O1. }
  assert (contiguous (m2s s2) B n) as Hc2 by (by eapply contiguous_ext).
  rewrite <- (Z.add_0_r B) in H3 at 1.
  destruct (poison_part q B n 0 (UB - B) _ _ _ _ _ I2 HB ltac:(lia) Hc2 ltac:(lia)
              ltac:(lia) ltac:(lia) H3) as (I3 & F3 & V3 & O3).
  assert (contiguous (m2s s3) B n) as Hc3
    by (eapply contiguous_ext; [|exact Hc]; intros; by rewrite F3, F2).
  replace TB with (B + (TB - B)) in H4 at 1 by lia.
  destruct (poison_part q B n (TB - B) (B + n - TB) _ _ _ _ _ I3 HB ltac:(lia) Hc3
              ltac:(lia) ltac:(lia) ltac:(lia) H4) as (I4 & F4 & V4 & O4).
  split_and!; [done|intros; by rewrite F4, F3, F2| |].
  - intros a Ha. rewrite <- F2, <- F3, V4 by done. rewrite F3, V3 by done. rewrite F2, V2 by done.
    replace (B + (TB - B)) with TB by lia. rewrite Z.add_0_r.
    replace (TB + (B + n - TB) - 1) with (B + n - 1) by lia.
    replace (B + (UB - B) - 1) with (UB - 1) by lia.
    assert (((0 <? B + n - TB) && (TB / 16 <=? a / 16) && (a / 16 <=? (B + n - 1) / 16)) =
            (TB <=? a)) as ->.
    { destruct (Z.leb_spec TB a).
      - rewrite (proj2 (Z.ltb_lt _ _)), !(proj2 (Z.leb_le _ _)) by lia_div. done.
      - rewrite (proj2 (Z.leb_gt (TB / 16) (a / 16))) by lia_div.
        by rewrite andb_false_r. }
    destruct (Z.leb_spec TB a); [done|].
    assert (((0 <? UB - B) && (B / 16 <=? a / 16) && (a / 16 <=? (UB - 1) / 16)) =
            (a <? UB)) as ->; [|done].
    destruct (Z.ltb_spec a UB).
    + rewrite (proj2 (Z.ltb_lt _ _)), !(proj2 (Z.leb_le _ _)) by lia_div. done.
    + rewrite (proj2 (Z.leb_gt (a / 16) ((UB - 1) / 16))) by lia_div. by rewrite !andb_false_r.
  - intros x Hx. rewrite O4 by (by rewrite !F3, !F2). rewrite O3 by (by rewrite !F2).
    by apply O2.
Qed.
End shadow_lemmas.

(** ** Lemmas: allocation *)

(** The calls that return a chunk, with its size. *)
Definition chunk_request (c : ddi_call) : option Z :=
  match c with
  | USM_DeviceAlloc _ _ _ _ n | USM_SharedAlloc _ _ _ _ n | USM_HostAlloc _ _ _ n => Some n
  | _ => None
  end.

(** Chunks lie inside the address space and are granule-aligned. *)
Definition driver_chunks (drv : driver) : Prop :=
  ∀ h c n a, chunk_request c = Some n → drv h c = (UR_RESULT_SUCCESS, a) →
    0 <= a ∧ a + n <= 2 ^ 64 - 16 ∧ a mod 16 = 0.

Lemma getContextInfo_bind {A} c (f : ContextInfo → M interceptor A) i h :
  (getContextInfo c ≫= f) i h =
  match m_ContextMap i !! c with Some ci => f ci i h | None => (Halt Undefined, i, h) end.
Proof. unfold getContextInfo, mbind, M_bind, get. by destruct (m_ContextMap i !! c). Qed.

Lemma get_bind {S A} (f : S → M S A) s h : (get ≫= f) s h = f s s h.
Proof. done. Qed.
Lemma modify_bind {S A} (g : S → S) (f : unit → M S A) s h : (modify g ≫= f) s h = f tt (g s) h.
Proof. done. Qed.

Lemma deref_bind {S A B} (a : A) (f : A → M S B) s h : (deref (Some a) ≫= f) s h = f a s h.
Proof. done. Qed.

Lemma update_context_bind {A} c g (f : unit → M interceptor A) i h :
  (update_context c g ≫= f) i h = f tt (set_ContextMap (alter g c (m_ContextMap i)) i) h.
Proof. done. Qed.

Lemma UR_CALL_inv' {S} drv c (s : S) h v s' h' :
  UR_CALL drv c s h = (Go v, s', h') →
  drv h c = (UR_RESULT_SUCCESS, v) ∧ s' = s ∧ h' = h ++ [c].
Proof.
  unfold UR_CALL, call, mbind, M_bind. destruct (drv h c) as [r w]. cbn.
  case_decide as Hr; cbn; intros [= <- <- <-]. by subst.
Qed.

Lemma alloc_call_inv drv ctx dev props pool n ty i h a i' h' :
  alloc_call drv ctx dev props pool n ty i h = (Go a, i', h') →
  ∃ c, chunk_request c = Some n ∧ drv h c = (UR_RESULT_SUCCESS, a) ∧ i' = i ∧ h' = h ++ [c].
Proof.
  destruct ty; cbn; intros H; try discriminate;
    apply UR_CALL_inv' in H as (Hd & -> & ->); eexists; split_and!; try done; done.
Qed.

Lemma getUSMPool_keeps drv c i h p i' h' :
  getUSMPool drv c i h = (Go p, i', h') →
  m_AllocationMap i' = m_AllocationMap i ∧ store i' = store i ∧ next_id i' = next_id i ∧
  m_Quarantine i' = m_Quarantine i ∧ m_Options i' = m_Options i ∧ reports i' = reports i ∧
  ∃ hs, h' = h ++ hs.
Proof.
  unfold getUSMPool. rewrite getContextInfo_bind.
  destruct (m_ContextMap i !! c) as [ci|]; [|done].
  destruct (USMPool ci); intros [= <- <- <-]; split_and!; try done; [exists []|by eexists].
  by rewrite app_nil_r.
Qed.

Lemma divide_16_pow k : 4 <= k → (16 | 2 ^ k).
Proof.
  intros. exists (2 ^ (k - 4)). change 16 with (2 ^ 4).
  rewrite <- Z.pow_add_r by lia. f_equal. lia.
Qed.

Lemma redzone_pow2 sz a b rzlog :
  4 <= a <= b → b <= 11 → ComputeRZLog sz (2 ^ a) (2 ^ b) = Ret rzlog →
  16 <= RZLog2Size rzlog <= 2048 ∧ (16 | RZLog2Size rzlog).
Proof.
  intros Ha Hb. destruct (ComputeRZLog_pow2 sz a b) as (c & Hc & ->); [lia..|].
  pose proof (rz_class_range sz). intros [= <-]. unfold RZLog2Size.
  rewrite Z.shiftl_mul_pow2 by lia.
  set (e := Z.min (Z.max c (a - 4)) (b - 4)). assert (0 <= e <= 7) by lia.
  assert (1 <= 2 ^ e <= 2 ^ 7).
  { split; [change 1 with (2 ^ 0)|]; apply Z.pow_le_mono_r; lia. }
  split; [lia|]. by exists (2 ^ e); lia.
Qed.

(** The geometry computed by [allocateMemory]. *)
Lemma layout_ok B sz rz k :
  0 <= B → B mod 16 = 0 → 0 <= sz < 2 ^ 62 → 16 <= rz <= 2048 → (16 | rz) → 4 <= k < 32 →
  B + needed_size sz rz (2 ^ k) <= 2 ^ 64 - 16 →
  let n := needed_size sz rz (2 ^ k) in
  let u := user_begin B rz (2 ^ k) in
  (2 ^ k | u) ∧ B + rz <= u ∧ u + sz + rz <= B + n ∧ n mod 16 = 0.
Proof.
  intros HB HBm Hsz Hrz Hdiv Hk. unfold needed_size, user_begin.
  pose proof (pow2_range k ltac:(lia)) as Hp.
  assert (16 <= 2 ^ k <= 2 ^ 31) as Hpk.
  { split; [change 16 with (2 ^ 4)|]; apply Z.pow_le_mono_r; lia. }
  destruct (RoundUpTo_spec sz k) as [Hr Hrd]; [lia..|].
  set (R := RoundUpTo sz (2 ^ k)) in *. clearbody R.
  rewrite (w64_small (R + rz * 2)) by lia.
  change ASAN_SHADOW_GRANULARITY with 16.
  assert ((if 16 <? 2 ^ k then w64 (R + rz * 2 + 2 ^ k) else R + rz * 2) =
          R + rz * 2 + (if 16 <? 2 ^ k then 2 ^ k else 0)) as ->.
  { destruct (16 <? 2 ^ k); [apply w64_small|]; lia. }
  intros Hn. rewrite (w64_small (B + rz)) by (case_match; lia).
  assert (2 ^ k mod 16 = 0) as Hk16.
  { apply Z.mod_divide; [lia|]. apply divide_16_pow; lia. }
  assert (R mod 16 = 0) as HR16.
  { apply Z.mod_divide; [lia|]. etrans; [|exact Hrd]. apply divide_16_pow; lia. }
  assert (rz mod 16 = 0) as Hz16 by (apply Z.mod_divide; [lia|done]).
  assert ((R + rz * 2 + (if 16 <? 2 ^ k then 2 ^ k else 0)) mod 16 = 0) as Hm
    by (case_match; lia_div).
  destruct (IsAligned (B + rz) (2 ^ k)) eqn:Ha.
  - apply IsAligned_spec in Ha; [|lia..].
    split_and!; [done|lia| |done]. case_match; lia.
  - destruct (Z.ltb_spec 16 (2 ^ k)) as [Hlt|Hge].
    + destruct (RoundUpTo_spec (B + rz) k) as [Hu Hud]; [lia..|].
      split_and!; [done|lia|lia|done].
    + assert (2 ^ k = 16) as E by lia. exfalso.
      assert (IsAligned (B + rz) (2 ^ k) = true); [|congruence].
      apply IsAligned_spec; [lia..|]. rewrite E. apply Z.mod_divide; [lia|]. lia_div.
Qed.

Lemma getUSMPool_context drv c i h p i' h' :
  getUSMPool drv c i h = (Go p, i', h') → is_Some (m_ContextMap i' !! c).
Proof.
  unfold getUSMPool. rewrite getContextInfo_bind.
  destruct (m_ContextMap i !! c) as [ci|] eqn:Hci; [|done].
  destruct (USMPool ci); intros [= <- <- <-]; [eauto|].
  cbn. rewrite lookup_alter_eq, Hci. eauto.
Qed.

(** The object that [allocateMemory] makes and where it enters it. *)
Lemma allocateMemory_inv drv ctx dev props pool sz ty i h p i' h' :
  allocateMemory drv ctx dev props pool sz ty i h = (Go p, i', h') →
  let al := effective_alignment props (if dev =? 0 then None else m_DeviceMap i !! dev) in
  ∃ rzlog B c h1 ci,
    ComputeRZLog sz (MinRZSize (m_Options i)) (MaxRZSize (m_Options i)) = Ret rzlog ∧
    h' = h1 ++ [c] ∧
    (let n := needed_size sz (RZLog2Size rzlog) al in
     chunk_request c = Some n ∧ drv h1 c = (UR_RESULT_SUCCESS, B) ∧
     p = user_begin B (RZLog2Size rzlog) al ∧
     store i' = <[next_id i := mkAI B p (w64 (p + sz)) n ty false ctx dev]> (store i)) ∧
    (∃ hs, h1 = h ++ hs) ∧ next_id i' = next_id i + 1 ∧
    m_AllocationMap i' = emplace B (next_id i) (m_AllocationMap i) ∧
    m_Quarantine i' = m_Quarantine i ∧ m_Options i' = m_Options i ∧ reports i' = reports i ∧
    m_ContextMap i' !! ctx =
      Some (insertAllocInfo (if dev =? 0 then DeviceList ci else [dev]) (next_id i) ci).
Proof.
  unfold allocateMemory. rewrite getContextInfo_bind.
  destruct (m_ContextMap i !! ctx) as [ci0|] eqn:Hci; [|done]. intros H.
  set (al := effective_alignment props (if dev =? 0 then None else m_DeviceMap i !! dev)).
  apply bind_Go_inv in H as (di & i0 & h0 & H0 & H).
  assert (di = (if dev =? 0 then None else m_DeviceMap i !! dev) ∧ i0 = i ∧ h0 = h) as (-> & -> & ->).
  { destruct (dev =? 0); [by injection H0 as <- <- <-|].
    unfold getDeviceInfo, mbind, M_bind, get in H0. cbn in H0.
    destruct (m_DeviceMap i !! dev); [|done]. by injection H0 as <- <- <-. }
  destruct (negb _) eqn:Hpow; [done|]. rewrite get_bind in H.
  fold al in H. destruct (ComputeRZLog _ _ _) as [rzlog| |] eqn:Hrz; [|done..].
  apply bind_Go_inv in H as (pool' & i1 & h1 & Hpool & H).
  assert (m_AllocationMap i1 = m_AllocationMap i ∧ store i1 = store i ∧ next_id i1 = next_id i ∧
          m_Quarantine i1 = m_Quarantine i ∧ m_Options i1 = m_Options i ∧
          reports i1 = reports i ∧ is_Some (m_ContextMap i1 !! ctx) ∧ ∃ hs, h1 = h ++ hs)
    as (Em & Es & En & Eq & Eo & Er & [ci1 Hci1] & Hh).
  { destruct (pool =? 0).
    - pose proof (getUSMPool_context _ _ _ _ _ _ _ Hpool).
      apply getUSMPool_keeps in Hpool as (?&?&?&?&?&?&?). by split_and!.
    - injection Hpool as <- <- <-. split_and!; try done. exists []. by rewrite app_nil_r. }
  apply bind_Go_inv in H as (B & i2 & h2 & (c & Hc & Hd & -> & ->)%alloc_call_inv & H).
  apply bind_Go_inv in H as ([] & i3 & h3 & H3 & H). injection H3 as <- <-.
  apply bind_Go_inv in H as ([] & i4 & h4 & H4 & H). injection H as <- <- <-.
  injection H4 as <- <-. cbn.
  eexists rzlog, B, c, h1, _. rewrite En, Em, Es. split_and!; try done.
  rewrite !lookup_alter_eq, Hci1. reflexivity.
Qed.

Lemma insertAllocInfo_in ds id m d :
  d ∈ ds ∨ id ∈ default [] (m !! d) →
  id ∈ default [] (foldl (λ (m : gmap Z (list Z)) d, <[d := default [] (m !! d) ++ [id]]> m) m ds
                   !! d).
Proof.
  revert m. induction ds as [|d' ds IH]; intros m; cbn [foldl].
  { by intros [[]%elem_of_nil|?]. }
  intros H. apply IH. destruct (decide (d' = d)) as [->|Hne].
  - right. rewrite lookup_insert_eq. cbn. apply elem_of_app. right. by apply list_elem_of_singleton.
  - rewrite lookup_insert_ne by done. destruct H as [[?|?]%elem_of_cons|?]; [by subst|auto..].
Qed.

(** ** Lemmas: the quarantine *)

(** The size a cache must have. *)
Definition sizes (size_of : Z → option Z) (l : list Z) : Z :=
  foldr (λ It n, default 0 (size_of It) + n) 0 l.

Lemma sizes_app f l1 l2 : sizes f (l1 ++ l2) = sizes f l1 + sizes f l2.
Proof. induction l1 as [|x l1 IH]; cbn; [done|]. unfold sizes in *. lia. Qed.

Lemma sizes_nonneg f l : (∀ It n, f It = Some n → 0 <= n) → 0 <= sizes f l.
Proof.
  intros Hf. induction l as [|x l IH]; cbn; [lia|]. unfold sizes in *.
  destruct (f x) as [n|] eqn:E; cbn; [specialize (Hf _ _ E)|]; lia.
Qed.

Lemma quarantine_dequeue_spec f n Max l sz evs c :
  (∀ It n, f It = Some n → 0 <= n) → sz = sizes f l → 0 <= n → sizes f l + n < 2 ^ 64 →
  quarantine_dequeue f n Max l sz = Some (evs, c) →
  l = evs ++ m_List c ∧ m_Size c = sizes f (m_List c) ∧
  (m_Size c + n <= Max ∨ m_List c = []) ∧
  ∀ evs' x, evs = evs' ++ [x] → Max < sizes f l - sizes f evs' + n.
Proof.
  intros Hf -> Hn. revert evs. induction l as [|x l IH]; intros evs Hb; cbn [quarantine_dequeue].
  - intros H. assert (evs = [] ∧ c = mkCache [] 0) as [-> ->]
      by (destruct (Max <? _); injection H as <- <-; done).
    split_and!; [done|done|by right|]. intros [|??] ?; discriminate.
  - cbn [sizes foldr] in Hb. change (foldr _ 0 l) with (sizes f l) in Hb.
    pose proof (sizes_nonneg f l Hf).
    change (sizes f (x :: l)) with (default 0 (f x) + sizes f l) in *.
    assert (0 <= default 0 (f x)) as Hx.
    { destruct (f x) as [v|] eqn:E; cbn; [by apply (Hf _ _ E)|lia]. }
    rewrite (w64_small (default 0 (f x) + sizes f l + n)) by lia.
    destruct (Z.ltb_spec Max (default 0 (f x) + sizes f l + n)) as [Hlt|Hge].
    + destruct (f x) as [v|] eqn:Ex; [|done]. cbn [mbind option_bind from_option id] in *.
      rewrite w64_small by lia. replace (v + sizes f l - v) with (sizes f l) by lia.
      destruct (quarantine_dequeue f n Max l (sizes f l)) as [[evs1 c1]|] eqn:E; [|done].
      cbn. intros [= <- <-]. destruct (IH evs1) as (Hl & Hsz & Hm & Hmin); [lia|done|].
      split_and!; [by rewrite Hl at 1|done|done|].
      intros [|y evs'] x' He; injection He as <- He.
      * cbn. lia.
      * specialize (Hmin _ _ He). cbn [sizes foldr]. rewrite Ex.
        change (foldr _ 0 evs') with (sizes f evs'). cbn [from_option id]. lia.
    + intros [= <- <-]. split_and!; [done|done|left; cbn; lia|]. intros [|??] ?; discriminate.
Qed.

(** ** Lemmas: release *)

(** The invariant between two calls: map entries point to the chunk they are
    named after, and each cache of the quarantine lists, without repetition,
    released chunks of its device that are still in the map. *)
Record interceptor_wf (i : interceptor) : Prop := {
  wf_map k id : m_AllocationMap i !! k = Some id →
    ∃ ai, store i !! id = Some ai ∧ AllocBegin ai = k;
  wf_next id ai : store i !! id = Some ai → id < next_id i;
  wf_quarantine q d It : m_Quarantine i = Some q → It ∈ m_List (getCache d q) →
    ∃ id ai, m_AllocationMap i !! It = Some id ∧ store i !! id = Some ai ∧
             IsReleased ai = true ∧ AI_Device ai = d;
  wf_nodup q d : m_Quarantine i = Some q → NoDup (m_List (getCache d q))
}.

(** A released chunk that is still in the map is in the quarantine.  This lasts
    as long as the driver refuses no release: an evicted chunk whose release is
    refused has left the quarantine but not the map. *)
Definition released_quarantined (i : interceptor) : Prop := ∀ k id ai,
  m_AllocationMap i !! k = Some id → store i !! id = Some ai → IsReleased ai = true →
  ∃ q, m_Quarantine i = Some q ∧ k ∈ m_List (getCache (AI_Device ai) q).

Definition frees_succeed (drv : driver) (h : list ddi_call) : Prop := ∀ h1 ctx a h2,
  h = h1 ++ USM_Free ctx a :: h2 → (drv h1 (USM_Free ctx a)).1 = UR_RESULT_SUCCESS.

Lemma findAllocInfo_Some i a It id ai :
  findAllocInfoByAddress i a = Some (It, id, ai) →
  floor_key (m_AllocationMap i) a = Some It ∧ m_AllocationMap i !! It = Some id ∧
  store i !! id = Some ai ∧
  (a <? AllocBegin ai) || (w64 (AllocBegin ai + AllocSize ai) <=? a) = false.
Proof.
  unfold findAllocInfoByAddress. destruct (floor_key _ a) as [k|]; [|done]. cbn.
  destruct (m_AllocationMap i !! k) as [id'|] eqn:Hm; [|done]. cbn.
  destruct (store i !! id') as [ai'|] eqn:Hs; [|done]. cbn.
  destruct (_ || _) eqn:Hr; [done|]. by intros [= <- <- <-].
Qed.

Lemma quarantine_dequeue_app f n Max l sz evs c :
  quarantine_dequeue f n Max l sz = Some (evs, c) → l = evs ++ m_List c.
Proof.
  revert sz evs. induction l as [|x l IH]; intros sz evs; cbn;
    (destruct (Max <? _); [|by intros [= <- <-]]); [by intros [= <- <-]|].
  destruct (f x) as [v|]; [|done]. cbn.
  destruct (quarantine_dequeue f n Max l _) as [[evs1 c1]|] eqn:E; [|done].
  cbn. intros [= <- <-]. cbn. f_equal. by eapply IH.
Qed.

Lemma quarantine_put_app f d It q evs q' :
  quarantine_put f d It q = Some (evs, q') →
  ∃ rest, m_List (getCache d q) = evs ++ rest ∧ m_List (getCache d q') = rest ++ [It] ∧
          ∀ d', d' ≠ d → getCache d' q' = getCache d' q.
Proof.
  unfold quarantine_put. destruct (f It) as [n|]; [|done]. cbn.
  destruct (quarantine_dequeue _ _ _ _ _) as [[evs1 c1]|] eqn:E; [|done]. cbn.
  intros [= <- <-]. exists (m_List c1). split_and!.
  - by eapply quarantine_dequeue_app.
  - unfold getCache. cbn. by rewrite lookup_insert_eq.
  - intros d' Hd'. unfold getCache. cbn. by rewrite lookup_insert_ne.
Qed.

Lemma quarantine_put_exists f d It q :
  (∀ k, k ∈ m_List (getCache d q) ++ [It] → is_Some (f k)) → is_Some (quarantine_put f d It q).
Proof.
  intros Hf. unfold quarantine_put. destruct (Hf It) as [n ->]; [apply elem_of_app; right; by left|]. cbn.
  assert (∀ l sz, (∀ k, k ∈ l → is_Some (f k)) → is_Some (quarantine_dequeue f n (m_MaxQuarantineSize q) l sz))
    as Hd.
  { induction l as [|x l IH]; intros sz Hl; cbn; destruct (_ <? _); try by eexists.
    destruct (Hl x) as [v ->]; [by left|]. cbn.
    destruct (IH (w64 (sz - v))) as [r ->]; [|by eexists]. intros k Hk. apply Hl. by right. }
  destruct (Hd (m_List (getCache d q)) (m_Size (getCache d q))) as [r ->]; [|by eexists].
  intros k Hk. apply Hf, elem_of_app. by left.
Qed.

Lemma frees_succeed_app drv h1 h2 : frees_succeed drv (h1 ++ h2) → frees_succeed drv h1.
Proof. intros H h ctx a h' ->. apply (H h ctx a (h' ++ h2)). by rewrite <- app_assoc. Qed.

Lemma frees_refused drv h ctx a :
  (drv h (USM_Free ctx a)).1 ≠ UR_RESULT_SUCCESS → ¬ frees_succeed drv (h ++ [USM_Free ctx a]).
Proof. intros Hr H. by apply Hr, (H h ctx a []). Qed.

(** From [i] to [i'] the entries of [gone] leave the map. *)
Record erased (ctx : Z) (gone : list Z) (i i' : interceptor) : Prop := {
  er_map k : m_AllocationMap i' !! k = if decide (k ∈ gone) then None else m_AllocationMap i !! k;
  er_store : store i' = store i;
  er_next : next_id i' = next_id i;
  er_quarantine : m_Quarantine i' = m_Quarantine i;
  er_context : is_Some (m_ContextMap i !! ctx) → is_Some (m_ContextMap i' !! ctx)
}.

(** The calls that free [evs], the last of which is refused when [r] says so. *)
Definition freed (drv : driver) (ctx : Z) (r : step unit) (evs : list Z) (h h' : list ddi_call)
  : Prop :=
  h' = h ++ (USM_Free ctx <$> evs) ∧
  match r with
  | Go _ => True
  | Fail _ => ∃ evs' x, evs = evs' ++ [x] ∧
      (drv (h ++ (USM_Free ctx <$> evs')) (USM_Free ctx x)).1 ≠ UR_RESULT_SUCCESS
  | Halt _ => False
  end.

Lemma freed_one drv ctx x (i : interceptor) h :
  let '(r, i', h') := (UR_CALL drv (USM_Free ctx x);; mret tt) i h in
  i' = i ∧ freed drv ctx r [x] h h'.
Proof.
  unfold UR_CALL, call, mbind, M_bind, freed. cbn.
  case_decide as Hr; cbn; (split_and!; [done|done|]); [done|].
  exists [], x. cbn. by rewrite app_nil_r.
Qed.

Lemma freed_refused drv ctx e evs h h' : freed drv ctx (Fail e) evs h h' → ¬ frees_succeed drv h'.
Proof.
  intros (-> & evs' & x & -> & Hr). rewrite fmap_app, app_assoc. by apply frees_refused.
Qed.

(** The eviction loop frees the chunks one after the other and erases those
    whose release succeeds. *)
Lemma release_evicted_inv drv ctx evs i h :
  NoDup evs →
  (∀ It, It ∈ evs → ∃ id ai, m_AllocationMap i !! It = Some id ∧ store i !! id = Some ai ∧
                             AllocBegin ai = It) →
  let '(r, i', h') := release_evicted drv ctx evs i h in
  ∃ gone out tl, evs = out ++ tl ∧ freed drv ctx r out h h' ∧ erased ctx gone i i' ∧
    match r with Go _ => gone = out ∧ tl = [] | _ => ∃ x, out = gone ++ [x] end.
Proof.
  revert i h. induction evs as [|It evs IH]; intros i h Hnd Hin.
  { exists [], [], []. unfold freed. cbn. rewrite app_nil_r. by split_and!. }
  apply NoDup_cons in Hnd as [HIt Hnd]. cbn [release_evicted]. rewrite get_bind.
  destruct (Hin It) as (id & ai & Hm & Hs & HB); [by left|].
  rewrite Hm, deref_bind, Hs, deref_bind. cbv beta. rewrite update_context_bind, HB.
  set (i1 := set_ContextMap _ i).
  assert (is_Some (m_ContextMap i !! ctx) → is_Some (m_ContextMap i1 !! ctx)) as Hc1.
  { intros Hc. by apply lookup_alter_is_Some. }
  unfold UR_CALL, call, mbind, M_bind. cbn. case_decide as Hr; cbn.
  - specialize (IH (set_AllocationMap (delete It (m_AllocationMap i1)) i1) (h ++ [USM_Free ctx It])).
    destruct (release_evicted _ _ _ _ _) as [[r i'] h'].
    destruct IH as (gone & out & tl & -> & [-> Hf] & [Em Es En Eq Ec] & Hg); [done| |].
    { cbn. intros k Hk. destruct (Hin k) as (id' & ai' & ? & ? & ?); [by right|].
      exists id', ai'. by rewrite lookup_delete_ne by (intros ->; done). }
    exists (It :: gone), (It :: out), tl. split_and!; [done| | |].
    + unfold freed. cbn. rewrite <- app_assoc. split; [done|]. destruct r as [|e|]; [done| |done].
      destruct Hf as (evs' & x & -> & Hx). exists (It :: evs'), x. cbn.
      by rewrite <- app_assoc in Hx.
    + constructor; [|done|done|done|auto].
      intros k. rewrite Em. cbn. destruct (decide (k = It)) as [->|Hne].
      * rewrite lookup_delete_eq, (decide_True (P := It ∈ It :: gone)) by by left. by case_decide.
      * rewrite lookup_delete_ne by done. apply decide_ext. rewrite elem_of_cons. naive_solver.
    + destruct r as [|e|]; [by destruct Hg as [-> ->]|destruct Hg as [x ->]; by exists x..].
  - exists [], [It], evs. split_and!; [done| | |by exists It].
    + split; [done|]. exists [], It. cbn. by rewrite app_nil_r.
    + constructor; [|done..|auto]. intros k. by rewrite decide_False by apply not_elem_of_nil.
Qed.

(** What the release of a chunk that passed the checks does. *)
Lemma release_checked_inv drv ctx It id ai i h :
  interceptor_wf i → m_AllocationMap i !! It = Some id → store i !! id = Some ai →
  IsReleased ai = false → is_Some (m_ContextMap i !! ctx) →
  let '(r, i', h') := release_checked drv ctx It id ai i h in
  ∃ evs gone tl,
    freed drv ctx r evs h h' ∧
    (∀ k, m_AllocationMap i' !! k = if decide (k ∈ gone) then None else m_AllocationMap i !! k) ∧
    store i' = <[id := set_Released ai]> (store i) ∧ next_id i' = next_id i ∧
    is_Some (m_ContextMap i' !! ctx) ∧
    match r with Go _ => gone = evs ∧ tl = [] | _ => gone = evs ∨ ∃ x, evs = gone ++ [x] end ∧
    match m_Quarantine i with
    | None => m_Quarantine i' = None ∧ evs = [It] ∧ gone = [It]
    | Some q =>
        ∃ q' rest, m_Quarantine i' = Some q' ∧
          m_List (getCache (AI_Device ai) q) = (evs ++ tl) ++ rest ∧
          m_List (getCache (AI_Device ai) q') = rest ++ [It] ∧
          ∀ d, d ≠ AI_Device ai → getCache d q' = getCache d q
    end.
Proof.
  intros Hwf Hm Hs Hr Hctx. unfold release_checked.
  rewrite modify_bind. cbv beta. rewrite update_context_bind, get_bind. cbv beta. cbn [m_Quarantine set_ContextMap set_store].
  destruct (wf_map i Hwf _ _ Hm) as (ai' & Hs' & HB).
  assert (ai' = ai) as -> by congruence. clear Hs'.
  destruct (m_Quarantine i) as [q|] eqn:Hq.
  - set (i0 := set_ContextMap _ _).
    assert (∀ k id', m_AllocationMap i !! k = Some id' → ∃ a, store i0 !! id' = Some a ∧ AllocBegin a = k)
      as H0.
    { intros k id' Hk. destruct (wf_map i Hwf _ _ Hk) as (a & Ha & Hb).
      cbn. destruct (decide (id' = id)) as [->|Hne].
      - exists (set_Released ai). rewrite lookup_insert_eq. split; [done|]. cbn. congruence.
      - exists a. by rewrite lookup_insert_ne. }
    assert (∀ d k, k ∈ m_List (getCache d q) ∨ k = It → is_Some (it_size i0 k)) as Hsz.
    { intros d k Hk. unfold it_size.
      assert (is_Some (m_AllocationMap i !! k)) as [id' Hid'].
      { destruct Hk as [Hk| ->]; [|eauto]. destruct (wf_quarantine i Hwf q d k Hq Hk) as (?&?&?&_). eauto. }
      destruct (H0 _ _ Hid') as (a & Ha & _). cbn in *. rewrite Hid'. cbn. rewrite Ha. eauto. }
    destruct (quarantine_put_exists (it_size i0) (AI_Device ai) It q) as ([evs q'] & Hput).
    { intros k Hk. apply (Hsz (AI_Device ai)). apply elem_of_app in Hk as [?|?%list_elem_of_singleton]; auto. }
    rewrite Hput, deref_bind. cbv beta. rewrite modify_bind. cbn [fst snd].
    destruct (quarantine_put_app _ _ _ _ _ _ Hput) as (rest & Hl & Hl' & Ho).
    pose proof (wf_nodup i Hwf q (AI_Device ai) Hq) as Hnd. rewrite Hl in Hnd.
    apply NoDup_app in Hnd as (Hnd & Hdis & _).
    pose proof (release_evicted_inv drv ctx evs (set_Quarantine (Some q') i0) h Hnd) as He.
    unfold mbind, M_bind. destruct (release_evicted _ _ _ _ _) as [[r i1] h1].
    destruct He as (gone & out & tl & -> & Hf & [Em Es En Eq Ec] & Hg).
    { intros k Hk. destruct (wf_quarantine i Hwf q (AI_Device ai) k Hq) as (id' & _ & Hmk & _).
      { rewrite Hl. apply elem_of_app; by left. }
      destruct (H0 _ _ Hmk) as (a & ? & ?). by exists id', a. }
    assert (is_Some (m_ContextMap i1 !! ctx)) as Hc1.
    { apply Ec. cbn. by apply lookup_alter_is_Some. }
    cbn in Em, Es, En, Eq. destruct r as [u|e|w]; cbn; [|..|by destruct Hf].
    + exists out, gone, tl. split; [done|]. split; [done|]. split; [done|]. split; [done|].
      split; [by apply lookup_alter_is_Some|]. split; [done|]. exists q', rest. by split_and!.
    + exists out, gone, tl. split; [done|]. split; [done|]. split; [done|]. split; [done|].
      split; [done|]. split; [by right|]. exists q', rest. by split_and!.
  - rewrite update_context_bind. cbv beta. unfold erase_it. rewrite modify_bind. cbv beta. rewrite HB.
    match goal with |- context [(UR_CALL drv (USM_Free ctx It);; mret tt) ?j h] =>
      pose proof (freed_one drv ctx It j h) as Hf; set (i1 := j) in * end.
    destruct ((UR_CALL drv (USM_Free ctx It);; mret tt) i1 h) as [[r i'] h'].
    destruct Hf as [-> Hf]. exists [It], [It], [].
    split; [done|]. split; [|split; [done|split; [done|split; [|split]]]].
    + intros k. cbn. destruct (decide (k = It)) as [->|Hne].
      * rewrite lookup_delete_eq, decide_True; [done|by left].
      * rewrite lookup_delete_ne, decide_False; [done| |done]. by intros ->%list_elem_of_singleton.
    + cbn. by rewrite !lookup_alter_is_Some.
    + destruct r; auto.
    + by rewrite <- Hq.
Qed.

Lemma wf_proj i i' :
  interceptor_wf i → m_AllocationMap i' = m_AllocationMap i → store i' = store i →
  next_id i' = next_id i → m_Quarantine i' = m_Quarantine i → interceptor_wf i'.
Proof.
  intros [W1 W2 W3 W4] Em Es En Eq. constructor; rewrite ?Em, ?Es, ?En, ?Eq; auto.
Qed.

Lemma report_inv r i h i' h' :
  report_and_return r i h = (Go tt, i', h') → i' = add_report r i ∧ h' = h.
Proof.
  unfold report_and_return. rewrite modify_bind, get_bind.
  destruct (HaltOnError _); [done|]. by intros [= <- <-].
Qed.

(** An object has one entry. *)
Lemma wf_inj i k1 k2 id :
  interceptor_wf i → m_AllocationMap i !! k1 = Some id → m_AllocationMap i !! k2 = Some id → k1 = k2.
Proof.
  intros Hwf H1 H2. destruct (wf_map i Hwf _ _ H1) as (a1 & Ha1 & <-), (wf_map i Hwf _ _ H2) as (a2 & Ha2 & <-).
  congruence.
Qed.

(** Marking a chunk released keeps the entries and their objects. *)
Lemma released_store i id ai k id' a :
  store i !! id = Some ai → m_AllocationMap i !! k = Some id' → store i !! id' = Some a →
  ∃ a', <[id := set_Released ai]> (store i) !! id' = Some a' ∧ AllocBegin a' = AllocBegin a ∧
        AI_Device a' = AI_Device a ∧ (IsReleased a = true → IsReleased a' = true) ∧
        (id' ≠ id → a' = a).
Proof.
  intros Hs Hk Ha. destruct (decide (id' = id)) as [->|Hne].
  - exists (set_Released ai). rewrite lookup_insert_eq. assert (a = ai) as -> by congruence. done.
  - exists a. rewrite lookup_insert_ne by done. done.
Qed.

Lemma release_checked_wf drv ctx It id ai i h :
  interceptor_wf i → m_AllocationMap i !! It = Some id → store i !! id = Some ai →
  IsReleased ai = false → is_Some (m_ContextMap i !! ctx) →
  let '(r, i', h') := release_checked drv ctx It id ai i h in interceptor_wf i'.
Proof.
  intros Hwf Hm Hs Hr Hctx.
  pose proof (release_checked_inv drv ctx It id ai i h Hwf Hm Hs Hr Hctx) as H.
  destruct (release_checked _ _ _ _ _ _ _) as [[r i'] h'].
  destruct H as (evs & gone & tl & Hf & Hm' & Es & En & _ & Hg & Hq).
  assert (∀ k, k ∈ gone → k ∈ evs) as Hsub.
  { destruct r; [by destruct Hg as [-> _]|..]; (destruct Hg as [->|[x ->]]; [done|]);
      intros k Hk; apply elem_of_app; by left. }
  assert (∀ k id', m_AllocationMap i' !! k = Some id' → (k ∉ gone) ∧ m_AllocationMap i !! k = Some id')
    as Hback by (intros k id'; rewrite Hm'; by case_decide).
  constructor.
  - intros k id' [_ Hk]%Hback. destruct (wf_map i Hwf _ _ Hk) as (a & Ha & HB). rewrite Es.
    destruct (released_store i id ai k id' a Hs Hk Ha) as (a' & ? & ? & _). exists a'. by rewrite <- HB.
  - intros id' a. rewrite Es, En. intros [[<- _]|[_ ?]]%lookup_insert_Some; by eapply wf_next.
  - intros q' d k Hq' Hin. destruct (m_Quarantine i) as [q|] eqn:Hqi; [|destruct Hq; congruence].
    destruct Hq as (q'' & rest & Hq'' & Hl & Hl' & Ho). assert (q'' = q') as -> by congruence.
    assert ((k = It ∧ d = AI_Device ai ∧ (It ∉ gone)) ∨ (k ∉ gone) ∧ k ∈ m_List (getCache d q))
      as [(-> & -> & HIt)|(Hnk & Hk)].
    { pose proof (wf_nodup i Hwf q (AI_Device ai) Hqi) as Hn. rewrite Hl in Hn.
      apply NoDup_app in Hn as (_ & Hdis & _).
      assert (∀ x, x ∈ gone → x ∈ evs ++ tl) as Hgone.
      { intros x Hx. apply elem_of_app. left. by apply Hsub. }
      destruct (decide (d = AI_Device ai)) as [->|Hd].
      - rewrite Hl' in Hin. apply elem_of_app in Hin as [Hin| ->%list_elem_of_singleton].
        + right. split; [intros ?; eapply Hdis; eauto|]. rewrite Hl. apply elem_of_app; by right.
        + left. split_and!; [done..|]. intros Hx%Hgone.
          destruct (wf_quarantine i Hwf q (AI_Device ai) It Hqi) as (?&?&?&?&?&_); [|congruence].
          rewrite Hl. apply elem_of_app; by left.
      - rewrite Ho in Hin by done. right. split; [|done]. intros Hx%Hgone.
        destruct (wf_quarantine i Hwf q d k Hqi Hin) as (i1 & a1 & Hm1 & Hs1 & Hr1 & Hd1).
        destruct (wf_quarantine i Hwf q (AI_Device ai) k Hqi) as (i2 & a2 & Hm2 & Hs2 & _ & Hd2);
          [rewrite Hl; apply elem_of_app; by left|congruence]. }
    + exists id, (set_Released ai). by rewrite Hm', decide_False, Es, lookup_insert_eq.
    + destruct (wf_quarantine i Hwf q d k Hqi Hk) as (i1 & a1 & Hm1 & Hs1 & Hr1 & Hd1).
      destruct (released_store i id ai k i1 a1 Hs Hm1 Hs1) as (a' & ? & _ & ? & ? & _).
      exists i1, a'. rewrite Hm', decide_False, Es by done. split_and!; [done|done|auto|congruence].
  - intros q' d Hq'. destruct (m_Quarantine i) as [q|] eqn:Hqi; [|destruct Hq; congruence].
    destruct Hq as (q'' & rest & Hq'' & Hl & Hl' & Ho). assert (q'' = q') as -> by congruence.
    destruct (decide (d = AI_Device ai)) as [->|Hd]; [|rewrite Ho by done; by apply (wf_nodup i)].
    pose proof (wf_nodup i Hwf q (AI_Device ai) Hqi) as Hn. rewrite Hl in Hn.
    apply NoDup_app in Hn as (_ & _ & Hn). rewrite Hl'.
    apply NoDup_app. split_and!; [done| |apply NoDup_singleton].
    intros k Hk ->%list_elem_of_singleton.
    destruct (wf_quarantine i Hwf q (AI_Device ai) It Hqi) as (?&?&?&?&?&_);
      [rewrite Hl; apply elem_of_app; by right|congruence].
Qed.

(** A release that comes back without an error also keeps every released chunk
    of the map in the quarantine. *)
Lemma release_checked_quarantined drv ctx It id ai i h i' h' :
  interceptor_wf i → m_AllocationMap i !! It = Some id → store i !! id = Some ai →
  IsReleased ai = false → is_Some (m_ContextMap i !! ctx) →
  release_checked drv ctx It id ai i h = (Go tt, i', h') →
  released_quarantined i → released_quarantined i'.
Proof.
  intros Hwf Hm Hs Hr Hctx E Hrq.
  pose proof (release_checked_inv drv ctx It id ai i h Hwf Hm Hs Hr Hctx) as H. rewrite E in H.
  destruct H as (evs & gone & tl & Hf & Hm' & Es & En & _ & [-> ->] & Hq). rewrite app_nil_r in Hq.
  intros k id' a. rewrite Hm'. case_decide as Hnk; [done|]. rewrite Es. intros Hk.
  destruct (decide (id' = id)) as [->|Hne].
  - rewrite lookup_insert_eq. intros [= <-] _. cbn.
    assert (k = It) as -> by (by eapply wf_inj).
    destruct (m_Quarantine i) as [q|]; [|destruct Hq as (_ & -> & _); exfalso; apply Hnk; by left].
    destruct Hq as (q' & rest & -> & _ & Hl' & _). exists q'. split; [done|].
    rewrite Hl'. apply elem_of_app. right. by left.
  - rewrite lookup_insert_ne by done. intros Hs' Hr'.
    destruct (Hrq _ _ _ Hk Hs' Hr') as (q & Hqi & Hin). rewrite Hqi in Hq.
    destruct Hq as (q' & rest & -> & Hl & Hl' & Ho). exists q'. split; [done|].
    destruct (decide (AI_Device a = AI_Device ai)) as [E'|E'].
    + rewrite E' in *. rewrite Hl in Hin. rewrite Hl'.
      apply elem_of_app in Hin as [?|?]; [done|]. apply elem_of_app. by left.
    + by rewrite Ho.
Qed.

(** The two ways in which [releaseMemory] ends. *)
Lemma releaseMemory_cases drv ctx a i h :
  is_Some (m_ContextMap i !! ctx) →
  (∃ r, releaseMemory drv ctx a i h = report_and_return r i h) ∨
  ∃ It id ai, findAllocInfoByAddress i a = Some (It, id, ai) ∧ AI_Context ai = ctx ∧
              a = UserBegin ai ∧ IsReleased ai = false ∧
              releaseMemory drv ctx a i h = release_checked drv ctx It id ai i h.
Proof.
  intros [ci Hci]. unfold releaseMemory. rewrite getContextInfo_bind, Hci, get_bind. cbv beta.
  destruct (findAllocInfoByAddress i a) as [[[It id] ai]|]; [|eauto].
  case_decide as Hctx; [eauto|].
  destruct (Z.eqb_spec a (UserBegin ai)) as [Ha|Ha]; cbn [negb]; [|eauto].
  destruct (IsReleased ai) eqn:Hr; [eauto|].
  right. exists It, id, ai. split_and!; [done| |done..].
  destruct (decide (AI_Context ai = ctx)) as [|Hne]; [done|by destruct Hctx].
Qed.

Lemma report_ends r i h :
  report_and_return r i h =
    (if HaltOnError (m_Options i) then Halt Exited else Go tt, add_report r i, h).
Proof.
  unfold report_and_return. rewrite modify_bind, get_bind. cbn.
  by destruct (HaltOnError (m_Options i)).
Qed.

(** A release in a known context: what is freed, and what becomes of the
    entries and the objects. *)
Lemma releaseMemory_spec drv ctx a i h :
  interceptor_wf i → is_Some (m_ContextMap i !! ctx) →
  let '(r, i', h') := releaseMemory drv ctx a i h in
  interceptor_wf i' ∧ r ≠ Halt Undefined ∧ r ≠ Halt NoFuel ∧
  (r = Go tt → released_quarantined i → released_quarantined i') ∧
  (∀ e, r = Fail e → ¬ frees_succeed drv h') ∧
  ∃ evs gone, h' = h ++ (USM_Free ctx <$> evs) ∧ NoDup evs ∧
    (∀ k, k ∈ evs → ∃ id ai, m_AllocationMap i !! k = Some id ∧ store i' !! id = Some ai ∧
                             IsReleased ai = true) ∧
    (∀ k, m_AllocationMap i' !! k = if decide (k ∈ gone) then None else m_AllocationMap i !! k) ∧
    match r with
    | Fail _ => gone = evs ∨ ∃ x, evs = gone ++ [x]
    | _ => gone = evs
    end.
Proof.
  intros Hwf Hc. destruct (releaseMemory_cases drv ctx a i h Hc) as [[rp ->]|(It & id & ai & Hf & Hx & Ha & Hr & ->)].
  - rewrite report_ends. cbv beta iota. split_and!; [by eapply wf_proj|by destruct (HaltOnError _)|by destruct (HaltOnError _)| | |].
    + done.
    + intros e. by destruct (HaltOnError _).
    + exists [], []. cbn. rewrite app_nil_r. split_and!; [done|apply NoDup_nil_2| | |by destruct (HaltOnError _)].
      * by intros k ?%elem_of_nil.
      * intros k. by rewrite decide_False by apply not_elem_of_nil.
  - apply findAllocInfo_Some in Hf as (_ & Hm & Hs & _).
    pose proof (release_checked_wf drv ctx It id ai i h Hwf Hm Hs Hr Hc) as Hwf'.
    pose proof (λ i' h', release_checked_quarantined drv ctx It id ai i h i' h' Hwf Hm Hs Hr Hc) as Hrq.
    pose proof (release_checked_inv drv ctx It id ai i h Hwf Hm Hs Hr Hc) as H.
    destruct (release_checked _ _ _ _ _ _ _) as [[r i'] h'].
    destruct H as (evs & gone & tl & Hfr & Hm' & Es & _ & _ & Hg & Hq). split_and!; [done| | | | |].
    + by intros ->; destruct Hfr.
    + by intros ->; destruct Hfr.
    + intros ->. by apply (Hrq i' h').
    + intros e ->. by eapply freed_refused.
    + exists evs, gone. split_and!; [by destruct Hfr| | |done|].
      * destruct (m_Quarantine i) as [q|] eqn:Hqi; [|destruct Hq as (_ & -> & _); apply NoDup_singleton].
        destruct Hq as (q' & rest & _ & Hl & _). pose proof (wf_nodup i Hwf q (AI_Device ai) Hqi) as Hn.
        rewrite Hl in Hn. by apply NoDup_app in Hn as ((Hn & _)%NoDup_app & _).
      * intros k Hk. rewrite Es. destruct (m_Quarantine i) as [q|] eqn:Hqi.
        -- destruct Hq as (q' & rest & _ & Hl & _).
           destruct (wf_quarantine i Hwf q (AI_Device ai) k Hqi) as (id' & a' & Hmk & Hsk & Hrk & _).
           { rewrite Hl, <- app_assoc. apply elem_of_app. by left. }
           destruct (released_store i id ai k id' a' Hs Hmk Hsk) as (a2 & ? & _ & _ & ? & _).
           exists id', a2. split_and!; auto.
        -- destruct Hq as (_ & -> & _). apply list_elem_of_singleton in Hk as ->.
           exists id, (set_Released ai). by rewrite lookup_insert_eq.
      * destruct r; [by destruct Hg|done|by destruct Hfr].
Qed.

(** An allocation keeps the invariant when the driver's chunk is not one that
    is still in the map. *)
Definition fresh_chunk (drv : driver) (i : interceptor) (h' : list ddi_call) : Prop :=
  ∀ h1 c n B, h' = h1 ++ [c] → chunk_request c = Some n → drv h1 c = (UR_RESULT_SUCCESS, B) →
  m_AllocationMap i !! B = None.

Lemma allocateMemory_wf drv ctx dev props pool sz ty i h p i' h' :
  interceptor_wf i → fresh_chunk drv i h' →
  allocateMemory drv ctx dev props pool sz ty i h = (Go p, i', h') →
  interceptor_wf i' ∧ (released_quarantined i → released_quarantined i').
Proof.
  intros Hwf Hfresh H.
  apply allocateMemory_inv in H as (rzlog & B & c & h1 & ci & _ & Hh & (Hc & Hd & _ & Es) & _ & En & Em & Eq & _).
  specialize (Hfresh _ _ _ _ Hh Hc Hd). unfold emplace in Em. rewrite Hfresh in Em.
  assert (∀ id ai, store i !! id = Some ai → id ≠ next_id i) as Hnew.
  { intros id ai Hi ->. apply (wf_next i Hwf) in Hi. lia. }
  assert (∀ k id, m_AllocationMap i !! k = Some id → id ≠ next_id i ∧ k ≠ B) as Hold.
  { intros k id Hk. destruct (wf_map i Hwf _ _ Hk) as (ai & Hs & _). split; [by eapply Hnew|].
    intros ->. congruence. }
  split; [constructor|].
  - intros k id. rewrite Em, Es. intros [[<- <-]|[Hne Hk]]%lookup_insert_Some.
    + eexists. by rewrite lookup_insert_eq.
    + rewrite lookup_insert_ne; [by apply (wf_map i)|]. intros E. by destruct (Hold _ _ Hk).
  - intros id ai. rewrite Es, En. intros [[<- _]|[_ Hs]]%lookup_insert_Some; [lia|].
    apply (wf_next i Hwf) in Hs. lia.
  - intros q d k Hq Hin. rewrite Eq in Hq.
    destruct (wf_quarantine i Hwf _ _ _ Hq Hin) as (id & ai & Hk & Hs & Hr & Hd').
    destruct (Hold _ _ Hk). exists id, ai. rewrite Em, Es, !lookup_insert_ne by done. done.
  - intros q d. rewrite Eq. by apply (wf_nodup i).
  - intros Hrq k id ai. rewrite Em, Es, Eq. intros [[<- <-]|[Hne Hk]]%lookup_insert_Some.
    + rewrite lookup_insert_eq. by intros [= <-].
    + destruct (Hold _ _ Hk). rewrite lookup_insert_ne by done. by apply Hrq.
Qed.

Lemma new_interceptor_wf o : interceptor_wf (new_interceptor o).
Proof.
  constructor; cbn; try done.
  - intros q d It. destruct (_ =? 0); [done|]. intros [= <-]. by intros ?%elem_of_nil.
  - intros q d. destruct (_ =? 0); [done|]. intros [= <-]. apply NoDup_nil_2.
Qed.

(** ** Lemmas: contexts and leaks *)

Definition leaked (i : interceptor) (id : Z) : bool :=
  match store i !! id with Some ai => negb (IsReleased ai) | None => false end.

Lemma report_leaks_spec ids i h :
  (∀ id, id ∈ ids → is_Some (store i !! id)) →
  report_leaks ids i h =
    (Go tt, foldl (λ i r, add_report r i) i (MemoryLeak <$> filter (λ id, leaked i id) ids), h).
Proof.
  revert i. induction ids as [|id ids IH]; intros i Hin; [done|]. cbn [report_leaks].
  rewrite get_bind. destruct (Hin id) as [ai Hai]; [by left|]. rewrite Hai, deref_bind. cbv beta.
  rewrite filter_cons. assert (leaked i id = negb (IsReleased ai)) as Hlk
    by (unfold leaked; by rewrite Hai).
  destruct (IsReleased ai); cbn [negb] in Hlk.
  - rewrite (decide_False (P := leaked i id)) by (rewrite Hlk; intros []). apply IH. intros ? ?. apply Hin. by right.
  - rewrite (decide_True (P := leaked i id)) by (rewrite Hlk; exact I). rewrite modify_bind. rewrite IH; [done|].
    intros ? ?. apply Hin. by right.
Qed.

Lemma add_reports_proj rs i :
  let i' := foldl (λ i r, add_report r i) i rs in
  reports i' = reports i ++ rs ∧ m_AllocationMap i' = m_AllocationMap i ∧
  store i' = store i ∧ next_id i' = next_id i ∧ m_Quarantine i' = m_Quarantine i ∧
  m_ContextMap i' = m_ContextMap i.
Proof.
  revert i. induction rs as [|r rs IH]; intros i; cbn [foldl]; [by rewrite app_nil_r|].
  destruct (IH (add_report r i)) as (-> & -> & -> & -> & -> & ->). cbn. by rewrite <- app_assoc.
Qed.

Lemma elem_of_findAllocInfoByContext i c id :
  id ∈ findAllocInfoByContext i c ↔
  (∃ k, m_AllocationMap i !! k = Some id) ∧ AI_Context <$> (store i !! id) = Some c.
Proof.
  unfold findAllocInfoByContext. rewrite list_elem_of_filter, list_elem_of_fmap.
  split.
  - intros (Hc & ([k id'] & -> & Hin)). split; [|done]. exists k. cbn.
    apply elem_of_map_to_list. by rewrite <- (merge_sort_Permutation key_le).
  - intros ((k & Hk) & Hc). split; [done|]. exists (k, id). split; [done|].
    rewrite (merge_sort_Permutation key_le). by apply elem_of_map_to_list.
Qed.

(** What [eraseContext] leaves. *)
Lemma eraseContext_inv drv c ci i h i' h' :
  m_ContextMap i !! c = Some ci → eraseContext drv c i h = (Go tt, i', h') →
  m_AllocationMap i' = m_AllocationMap i ∧ store i' = store i ∧ next_id i' = next_id i ∧
  m_Quarantine i' = m_Quarantine i ∧ m_ContextMap i' !! c = None ∧
  reports i' = reports i ++
    (if DetectLeaks (m_Options i)
     then MemoryLeak <$> filter (λ id, leaked i id) (findAllocInfoByContext i c) else []).
Proof.
  intros Hci. unfold eraseContext. rewrite get_bind, Hci. cbv beta. rewrite modify_bind. cbv beta.
  unfold destroy_context. intros H. apply bind_Go_inv in H as ([] & i1 & h1 & H1 & H).
  assert (i1 = set_ContextMap (delete c (m_ContextMap i)) i) as ->.
  { destruct (USMPool ci) as [p|]; [destruct (p =? 0)|]; by injection H1. }
  clear H1. apply bind_Go_inv in H as (r & i2 & h2 & [= _ <- _] & H).
  rewrite get_bind in H. cbn [m_Options set_ContextMap] in H.
  destruct (DetectLeaks (m_Options i)).
  - rewrite report_leaks_spec in H.
    2: { intros id [_ Hid]%elem_of_findAllocInfoByContext.
         destruct (store _ !! id); [eauto|done]. }
    injection H as <- _. edestruct add_reports_proj as (-> & -> & -> & -> & -> & ->).
    cbn. by rewrite lookup_delete_eq.
  - injection H as <- _. cbn. rewrite lookup_delete_eq, app_nil_r. done.
Qed.

(** What the calls other than releases leave alone: the entries, the objects and
    the quarantine; and the history only grows. *)
Record untouched (i : interceptor) (h : list ddi_call) (i' : interceptor) (h' : list ddi_call)
  : Prop := {
  ut_map : m_AllocationMap i' = m_AllocationMap i;
  ut_store : store i' = store i;
  ut_next : next_id i' = next_id i;
  ut_quarantine : m_Quarantine i' = m_Quarantine i;
  ut_history : ∃ hs, h' = h ++ hs
}.

Lemma untouched_refl i h : untouched i h i h.
Proof. split; [done..|]. exists []. by rewrite app_nil_r. Qed.

Lemma untouched_trans i1 h1 i2 h2 i3 h3 :
  untouched i1 h1 i2 h2 → untouched i2 h2 i3 h3 → untouched i1 h1 i3 h3.
Proof.
  intros [A B C D [hs ->]] [A' B' C' D' [hs' ->]]. split; [congruence..|].
  exists (hs ++ hs'). by rewrite app_assoc.
Qed.

Definition leaves_alone {A} (m : M interceptor A) : Prop := ∀ i h,
  let '(_, i', h') := m i h in untouched i h i' h'.

Lemma la_bind {A B} (m : M interceptor A) (f : A → M interceptor B) :
  leaves_alone m → (∀ a, leaves_alone (f a)) → leaves_alone (m ≫= f).
Proof.
  intros Hm Hf i h. unfold mbind, M_bind. specialize (Hm i h). destruct (m i h) as [[[a|e|w] i1] h1]; [|done..].
  specialize (Hf a i1 h1). destruct (f a i1 h1) as [[r i2] h2]. by eapply untouched_trans.
Qed.

Lemma la_ret {A} (a : A) : leaves_alone (mret a).
Proof. intros i h. apply untouched_refl. Qed.
Lemma la_get : leaves_alone get.
Proof. intros i h. apply untouched_refl. Qed.
Lemma la_fail {A} r : leaves_alone (fail (A := A) r).
Proof. intros i h. apply untouched_refl. Qed.
Lemma la_stop {A} w : leaves_alone (stop (A := A) w).
Proof. intros i h. apply untouched_refl. Qed.
Lemma la_deref {A} (o : option A) : leaves_alone (deref o).
Proof. intros i h. destruct o; apply untouched_refl. Qed.
Lemma la_call drv c : leaves_alone (call drv c).
Proof. intros i h. split; [done..|]. by exists [c]. Qed.
Lemma la_UR_CALL drv c : leaves_alone (UR_CALL drv c).
Proof. apply la_bind; [apply la_call|]. intros r. case_decide; [apply la_ret|apply la_fail]. Qed.
Lemma la_modify f :
  (∀ i, m_AllocationMap (f i) = m_AllocationMap i ∧ store (f i) = store i ∧ next_id (f i) = next_id i ∧
        m_Quarantine (f i) = m_Quarantine i) → leaves_alone (modify f).
Proof. intros Hf i h. destruct (Hf i) as (?&?&?&?). split; [done..|]. exists []. by rewrite app_nil_r. Qed.
Lemma la_update_context c f : leaves_alone (update_context c f).
Proof. by apply la_modify. Qed.

Create HintDb left_alone.
#[export] Hint Resolve la_ret la_get la_fail la_stop la_deref la_call la_UR_CALL la_update_context : left_alone.
#[export] Hint Extern 1 (leaves_alone (modify _)) => by apply la_modify : left_alone.

Ltac alone :=
  repeat first
    [ solve [eauto with left_alone]
    | apply la_bind; [|intros ?]
    | case_match ].

Lemma la_getUSMPool drv c : leaves_alone (getUSMPool drv c).
Proof. unfold getUSMPool, getContextInfo. alone. Qed.
Lemma la_insertContext drv c : leaves_alone (insertContext drv c).
Proof. unfold insertContext. alone. Qed.
Lemma la_insertDevice drv d : leaves_alone (insertDevice drv d).
Proof. unfold insertDevice. alone. Qed.
Lemma la_report_leaks ids : leaves_alone (report_leaks ids).
Proof. induction ids; cbn; alone. Qed.
#[export] Hint Resolve la_getUSMPool la_report_leaks : left_alone.
Lemma la_eraseContext drv c : leaves_alone (eraseContext drv c).
Proof. unfold eraseContext, destroy_context. alone. Qed.
Lemma la_eraseDevice d : leaves_alone (eraseDevice d).
Proof. unfold eraseDevice. alone. Qed.
Lemma la_alloc_call drv ctx dev props pool n ty : leaves_alone (alloc_call drv ctx dev props pool n ty).
Proof. unfold alloc_call. alone. Qed.
#[export] Hint Resolve la_alloc_call : left_alone.

(** Calls that change nothing when they fail. *)
Definition fails_clean {A} (m : M interceptor A) : Prop := ∀ i h,
  match m i h with (Fail _, i', h') => untouched i h i' h' | _ => True end.

Lemma fc_la {A} (m : M interceptor A) : leaves_alone m → fails_clean m.
Proof. intros Hm i h. specialize (Hm i h). by destruct (m i h) as [[[] ?] ?]. Qed.

Lemma fc_bind {A B} (m : M interceptor A) (f : A → M interceptor B) :
  leaves_alone m → (∀ a, fails_clean (f a)) → fails_clean (m ≫= f).
Proof.
  intros Hm Hf i h. unfold mbind, M_bind. specialize (Hm i h).
  destruct (m i h) as [[[a|e|w] i1] h1]; [|done..].
  specialize (Hf a i1 h1). destruct (f a i1 h1) as [[[] i2] h2]; [done| |done]. by eapply untouched_trans.
Qed.

Lemma fc_get_bind {A} (f : interceptor → M interceptor A) :
  (∀ j, fails_clean (f j)) → fails_clean (get ≫= f).
Proof. intros Hf. apply fc_bind; [apply la_get|done]. Qed.

Lemma allocateMemory_fails_clean drv ctx dev props pool sz ty :
  fails_clean (allocateMemory drv ctx dev props pool sz ty).
Proof.
  unfold allocateMemory, getContextInfo, getDeviceInfo.
  apply fc_bind; [alone|intros _]. apply fc_bind; [alone|intros di].
  destruct (negb _); [apply fc_la; alone|]. apply fc_bind; [alone|intros j].
  destruct (ComputeRZLog _ _ _); [|apply fc_la; alone..].
  apply fc_bind; [alone|intros p]. apply fc_bind; [alone|intros B]. apply fc_bind; [alone|intros _].
  by intros i h.
Qed.

(** What holds between two calls. *)
Definition sound (drv : driver) (s : interceptor * list ddi_call) : Prop :=
  interceptor_wf s.1 ∧ (frees_succeed drv s.2 → released_quarantined s.1).

Lemma untouched_sound drv i h i' h' : untouched i h i' h' → sound drv (i, h) → sound drv (i', h').
Proof.
  intros [Em Es En Eq [hs ->]] [Hwf Hrq]. split; [by eapply wf_proj|]. intros Hf%frees_succeed_app.
  intros k id ai. cbn. rewrite Em, Es, Eq. by apply Hrq.
Qed.

(** One operation of the interceptor that comes back, with or without an
    error; the driver hands out no chunk that is still in the map. *)
Definition comes_back {A} (r : step A) : Prop := match r with Halt _ => False | _ => True end.

Inductive istep (drv : driver) :
    interceptor * list ddi_call → interceptor * list ddi_call → Prop :=
| step_allocate ctx dev props pool sz ty r i h i' h' :
    allocateMemory drv ctx dev props pool sz ty i h = (r, i', h') → comes_back r →
    ((∃ p, r = Go p) → fresh_chunk drv i h') → istep drv (i, h) (i', h')
| step_release ctx a r i h i' h' :
    releaseMemory drv ctx a i h = (r, i', h') → comes_back r → istep drv (i, h) (i', h')
| step_insertContext ctx r i h i' h' :
    insertContext drv ctx i h = (r, i', h') → comes_back r → istep drv (i, h) (i', h')
| step_eraseContext ctx r i h i' h' :
    eraseContext drv ctx i h = (r, i', h') → comes_back r → istep drv (i, h) (i', h')
| step_insertDevice dev r i h i' h' :
    insertDevice drv dev i h = (r, i', h') → comes_back r → istep drv (i, h) (i', h')
| step_eraseDevice dev r i h i' h' :
    eraseDevice dev i h = (r, i', h') → comes_back r → istep drv (i, h) (i', h').

Lemma release_sound drv ctx a r i h i' h' :
  sound drv (i, h) → releaseMemory drv ctx a i h = (r, i', h') → comes_back r → sound drv (i', h').
Proof.
  intros [Hwf Hrq] E Hr. destruct (m_ContextMap i !! ctx) as [ci|] eqn:Hci.
  - pose proof (releaseMemory_spec drv ctx a i h Hwf ltac:(eauto)) as H. rewrite E in H.
    destruct H as (Hwf' & _ & _ & Hgo & Hfail & evs & gone & -> & _). split; [done|]. cbn.
    destruct r as [[]|e|w]; [|intros Hf; by destruct (Hfail e)|done].
    intros Hf. apply Hgo; [done|]. by eapply Hrq, frees_succeed_app.
  - unfold releaseMemory in E. rewrite getContextInfo_bind, Hci in E. by injection E as <- _ _.
Qed.

Lemma istep_sound drv s s' : istep drv s s' → sound drv s → sound drv s'.
Proof.
  intros [ctx dev props pool sz ty r i h i' h' H Hr Hf|ctx a r i h i' h' H Hr|ctx r i h i' h' H Hr
         |ctx r i h i' h' H Hr|dev r i h i' h' H Hr|dev r i h i' h' H Hr] Hs.
  - destruct r as [p|e|w]; [|pose proof (allocateMemory_fails_clean drv ctx dev props pool sz ty i h) as Hc;
      rewrite H in Hc; by eapply untouched_sound|done].
    destruct (allocateMemory_wf _ _ _ _ _ _ _ _ _ _ _ _ (proj1 Hs) (Hf ltac:(eauto)) H) as [Hwf Hrq].
    split; [done|]. cbn.
    apply allocateMemory_inv in H as (rzlog & B & c & h1 & ci & _ & -> & _ & (hs & ->) & _).
    intros Hfs. apply Hrq, Hs. cbn. rewrite <- app_assoc in Hfs. by eapply frees_succeed_app.
  - by eapply release_sound.
  - pose proof (la_insertContext drv ctx i h) as Hc. rewrite H in Hc. by eapply untouched_sound.
  - pose proof (la_eraseContext drv ctx i h) as Hc. rewrite H in Hc. by eapply untouched_sound.
  - pose proof (la_insertDevice drv dev i h) as Hc. rewrite H in Hc. by eapply untouched_sound.
  - pose proof (la_eraseDevice dev i h) as Hc. rewrite H in Hc. by eapply untouched_sound.
Qed.

Lemma reachable_sound drv o i h : rtc (istep drv) (new_interceptor o, []) (i, h) → sound drv (i, h).
Proof.
  intros H. assert (sound drv (new_interceptor o, [])) as H0.
  { split; [apply new_interceptor_wf|]. intros _ k id ai. cbn. by rewrite lookup_empty. }
  revert H H0. generalize ((new_interceptor o, []) : interceptor * list ddi_call). generalize (i, h).
  intros s' s. induction 1 as [|s1 s2 s3 Hstep _ IH]; [done|]. intros Hs. apply IH. by eapply istep_sound.
Qed.

(** Releasing a chunk leaves the entry below an address inside it. *)
Lemma find_after_release drv ctx a It id ai q i h i' h' :
  interceptor_wf i → findAllocInfoByAddress i a = Some (It, id, ai) →
  IsReleased ai = false → is_Some (m_ContextMap i !! ctx) → m_Quarantine i = Some q →
  release_checked drv ctx It id ai i h = (Go tt, i', h') →
  findAllocInfoByAddress i' a = Some (It, id, set_Released ai) ∧
  is_Some (m_ContextMap i' !! ctx).
Proof.
  intros Hwf Hf Hr Hctx Hq H.
  destruct (findAllocInfo_Some _ _ _ _ _ Hf) as (Hk & Hm & Hs & Hin).
  pose proof (release_checked_inv drv ctx It id ai i h Hwf Hm Hs Hr Hctx) as Hinv. rewrite H in Hinv.
  destruct Hinv as (evs & gone & tl & _ & Hm' & Es & _ & Hc & [-> ->] & Hcase). rewrite Hq in Hcase.
  destruct Hcase as (q' & rest & _ & Hl & _).
  assert (It ∉ evs) as HIt.
  { intros Hx. destruct (wf_quarantine i Hwf q (AI_Device ai) It Hq) as (?&?&?&?&?&_); [|congruence].
    rewrite Hl, app_nil_r. apply elem_of_app. by left. }
  split; [|done].
  assert (floor_key (m_AllocationMap i') a = Some It) as Hk'.
  { apply floor_key_Some in Hk as (_ & Hle & Hmax). apply floor_key_Some. split_and!; [|done|].
    - rewrite Hm', decide_False by done. eauto.
    - intros k'. rewrite Hm'. case_decide; [by intros []|]. apply Hmax. }
  unfold findAllocInfoByAddress. rewrite Hk'. cbn. rewrite Hm', decide_False by done.
  rewrite Hm. cbn. rewrite Es, lookup_insert_eq. cbn. by rewrite Hin.
Qed.

(** * Properties *)

(** C20: after the shadow update of a chunk, reading the shadow byte of an address
    of the chunk says accessible exactly for the user's bytes of a live chunk
    (to the byte, partial last granule included) and for none of a released
    one; no shadow byte outside the chunk's shadow is touched. *)
Theorem shadow_encodes_chunk {S} `{HS : Shadow S} (inv : S → list ddi_call → Prop)
    `{!ShadowLaws S inv} q AI s h s' h' :
  inv s h → chunk_ok AI → contiguous (m2s s) (AllocBegin AI) (AllocSize AI) →
  enqueueAllocInfo q AI s h = (Go tt, s', h') →
  (∀ a, AllocBegin AI <= a < AllocBegin AI + AllocSize AI →
     accessible (sh_view s' h' (m2s s' a)) a ↔
     IsReleased AI = false ∧ UserBegin AI <= a < UserEnd AI) ∧
  (∀ x, ¬ (m2s s (AllocBegin AI) <= x <= m2s s (AllocBegin AI + AllocSize AI - 1)) →
     sh_view s' h' x = sh_view s h x).
Proof.
  intros Hinv Hok Hc H. destruct (IsReleased AI) eqn:Hr.
  - unfold enqueueAllocInfo in H. rewrite Hr in H.
    destruct (enqueue_released inv q AI s h s' h' Hinv Hok Hc H) as (_ & Hf & Ha & Ho).
    split; [|done]. intros a Hin. rewrite Hf. split; [intros Hacc; by destruct (Ha a Hin)|].
    by intros [? _].
  - destruct (enqueue_live inv q AI s h s' h' Hinv Hok Hc Hr H) as (_ & Hf & Hv & Ho).
    split; [|done]. intros a Hin. rewrite Hf, Hv by done.
    destruct Hok as (HB & Hn & Hn0 & HBm & Hnm & HUm & HU & HE).
    destruct (RoundUpTo_spec (UserEnd AI) 4) as [HTB [z Hz]]; [lia..|].
    change (2 ^ 4) with 16 in *.
    destruct (magic_inaccessible (Type_ AI) a) as [_ Hmg].
    destruct (Z.leb_spec (RoundUpTo (UserEnd AI) 16) a); [split; [by intros ?|lia]|].
    destruct (Z.ltb_spec a (UserBegin AI)); [split; [by intros ?|lia]|].
    unfold accessible. destruct (Z.eqb_spec (a / 16) (UserEnd AI / 16)); lia_div.
Qed.

Definition sample_chunk : AllocInfo := mkAI 4096 4112 4210 240 HOST_USM false 1 0.
Definition sample_cpu : cpu_shadow := mkCpu (2 ^ 40) 0 ∅ None None.

Lemma shadow_encodes_chunk_witness :
  ∃ s' h', enqueueAllocInfo 0 sample_chunk sample_cpu [] = (Go tt, s', h') ∧
           accessible (sh_view s' h' (m2s s' 4209)) 4209 ∧
           ¬ accessible (sh_view s' h' (m2s s' 4210)) 4210.
Proof.
  eexists _, _. split; [vm_compute; reflexivity|].
  match goal with |- accessible (sh_view ?s ?h _) _ ∧ _ =>
    destruct (shadow_encodes_chunk cpu_inv 0 sample_chunk sample_cpu [] s h) as [Ha _] end.
  - split; [vm_compute; discriminate|vm_compute; discriminate].
  - unfold chunk_ok; cbn. lia.
  - apply (MemToShadow_contiguous CPU (2 ^ 40) CPU_ShadowSize); try done; cbn; lia.
  - vm_compute. reflexivity.
  - split; [apply Ha|intros Hx; apply Ha in Hx as [_ Hx]]; cbn in *; lia.
Defined.

(** a successful allocation returns a pointer with the requested alignment
    inside a new live chunk that keeps at least 16 bytes before the user's
    memory and 16 after it, is granule-aligned (so its shadow is exact), is
    entered under its address in the allocation map, and is pending a shadow
    update on its device, or on every device of the context for host memory. *)
Theorem allocateMemory_layout drv ctx dev props pool sz ty i h p i' h' a b k :
  driver_chunks drv →
  MinRZSize (m_Options i) = 2 ^ a → MaxRZSize (m_Options i) = 2 ^ b → 4 <= a <= b → b <= 11 →
  0 <= sz < 2 ^ 62 →
  effective_alignment props (if dev =? 0 then None else m_DeviceMap i !! dev) = 2 ^ k →
  4 <= k < 32 →
  allocateMemory drv ctx dev props pool sz ty i h = (Go p, i', h') →
  ∃ ai ci,
    store i' = <[next_id i := ai]> (store i) ∧
    m_AllocationMap i' = emplace (AllocBegin ai) (next_id i) (m_AllocationMap i) ∧
    p = UserBegin ai ∧ UserEnd ai = p + sz ∧ (2 ^ k | p) ∧
    AllocBegin ai + 16 <= p ∧ UserEnd ai + 16 <= AllocBegin ai + AllocSize ai ∧
    chunk_ok ai ∧ IsReleased ai = false ∧ Type_ ai = ty ∧ AI_Context ai = ctx ∧
    AI_Device ai = dev ∧
    m_ContextMap i' !! ctx = Some ci ∧
    ∀ d, d ∈ (if dev =? 0 then DeviceList ci else [dev]) →
         next_id i ∈ default [] (AllocInfosMap ci !! d).
Proof.
  intros Hdrv Ha Hb Hab Hb11 Hsz Hal Hk H.
  apply allocateMemory_inv in H as (rzlog & B & c & h1 & ci & Hrz & _ & (Hc & Hd & Hp & Hs) & _ & _ &
                                    Hm & _ & _ & _ & Hci).
  rewrite Hal in *. rewrite Ha, Hb in Hrz.
  destruct (redzone_pow2 sz a b rzlog) as (Hr16 & Hrd); [lia..|done|].
  destruct (Hdrv _ _ _ _ Hc Hd) as (HB & HBn & HBm).
  destruct (layout_ok B sz (RZLog2Size rzlog) k HB HBm Hsz Hr16 Hrd Hk HBn)
    as (Hdiv & Hlo & Hhi & Hn). rewrite <- Hp in *.
  assert (p mod 16 = 0) as Hp16.
  { apply Z.mod_divide; [lia|]. etrans; [|exact Hdiv]. apply divide_16_pow; lia. }
  rewrite (w64_small (p + sz)) in Hs by lia.
  eexists _, _. split_and!; [exact Hs|exact Hm|try done..]; cbn.
  - lia.
  - lia.
  - unfold chunk_ok; cbn. lia.
  - intros d Hin. apply insertAllocInfo_in. left. done.
Qed.

Lemma sample_driver_chunks b : driver_chunks (sample_driver b).
Proof.
  intros h c n a Hc Hd. destruct c; try discriminate; injection Hc as ->; cbn in Hd;
    (destruct (Z.leb_spec n (2 ^ 40)); [|done]); injection Hd as <-;
    set (l := Z.of_nat (length h)); pose proof (Z.mod_pos_bound l (2 ^ 20));
    (split_and!; [lia|lia|]);
    (replace (2 ^ 46 + 2 ^ 20 * (l mod 2 ^ 20)) with ((2 ^ 42 + 2 ^ 16 * (l mod 2 ^ 20)) * 16) by lia);
    apply Z.mod_mul; lia.
Qed.

(** One context with two devices. *)
Definition sample_interceptor (o : AsanOptions) : interceptor :=
  set_ContextMap {[1 := mkCI None [10; 11] ∅ None; 2 := mkCI None [10] ∅ None]}
    (set_DeviceMap {[10 := mkDI 128 false; 11 := mkDI 64 true]} (new_interceptor o)).

Lemma allocateMemory_layout_witness :
  ∃ p i' h',
    allocateMemory (sample_driver true) 1 10 None 0 1000 DEVICE_USM
      (sample_interceptor default_options) [] = (Go p, i', h') ∧
    ∃ ai, store i' = {[0 := ai]} ∧ (128 | p) ∧
          UserEnd ai + 16 <= AllocBegin ai + AllocSize ai.
Proof.
  eexists _, _, _. split; [vm_compute; reflexivity|].
  match goal with |- ∃ ai, store ?i = _ ∧ (128 | ?p) ∧ _ =>
    destruct (allocateMemory_layout (sample_driver true) 1 10 None 0 1000 DEVICE_USM
                (sample_interceptor default_options) [] p i
                [USM_PoolCreate 1; USM_DeviceAlloc 1 10 None 1 1408] 4 11 7)
      as (ai & ci & Hs & _ & _ & _ & Hd & _ & He & _)
  end.
  - apply sample_driver_chunks.
  - reflexivity.
  - reflexivity.
  - lia.
  - lia.
  - lia.
  - reflexivity.
  - lia.
  - vm_compute. reflexivity.
  - exists ai. split; [exact Hs|]. split; [exact Hd|exact He].
Defined.

(** putting a chunk in the quarantine is first in, first out: the evicted
    chunks are the oldest of the device's cache in order and the new chunk is
    last; the accounted size stays the sum of the sizes; afterwards the cache
    fits the limit or holds only the new chunk; no chunk is evicted that did
    not have to be; the caches of other devices are untouched. *)
Theorem quarantine_put_fifo f dev it q evs q' :
  (∀ It n, f It = Some n → 0 <= n) →
  let c := getCache dev q in
  let c' := getCache dev q' in
  m_Size c = sizes f (m_List c) → sizes f (m_List c ++ [it]) < 2 ^ 64 →
  quarantine_put f dev it q = Some (evs, q') →
  m_List c ++ [it] = evs ++ m_List c' ∧ m_Size c' = sizes f (m_List c') ∧
  (m_Size c' <= m_MaxQuarantineSize q ∨ m_List c' = [it]) ∧
  (∀ evs' x, evs = evs' ++ [x] →
     m_MaxQuarantineSize q < sizes f (m_List c ++ [it]) - sizes f evs') ∧
  (∀ d, d ≠ dev → getCache d q' = getCache d q).
Proof.
  intros Hf c c' Hsz Hb H. rewrite sizes_app in Hb. cbn in Hb.
  unfold quarantine_put in H. destruct (f it) as [n|] eqn:Hit; [|done].
  cbn [mbind option_bind from_option id] in *. fold c in H.
  destruct (quarantine_dequeue f n _ (m_List c) (m_Size c)) as [[evs1 c1]|] eqn:E; [|done].
  cbn in H. injection H as <- <-.
  pose proof (Hf _ _ Hit) as Hn. pose proof (sizes_nonneg f (m_List c) Hf).
  destruct (quarantine_dequeue_spec f n _ _ _ _ _ Hf Hsz Hn ltac:(lia) E) as (Hl & Hs1 & Hm & Hmin).
  assert (c' = quarantine_enqueue it n c1) as ->.
  { unfold c', getCache. cbn. by rewrite lookup_insert_eq. }
  cbn [quarantine_enqueue m_List m_Size].
  assert (0 <= sizes f (m_List c1) + n <= sizes f (m_List c) + n).
  { rewrite Hl, sizes_app. pose proof (sizes_nonneg f evs1 Hf).
    pose proof (sizes_nonneg f (m_List c1) Hf). lia. }
  rewrite Hs1, w64_small by lia.
  split_and!.
  - by rewrite Hl, app_assoc.
  - rewrite sizes_app. cbn. rewrite Hit. cbn [from_option id]. lia.
  - destruct Hm as [Hm|Hm]; [left; lia|right; by rewrite Hm].
  - intros evs' x He. rewrite sizes_app. cbn. rewrite Hit. specialize (Hmin _ _ He).
    cbn [from_option id]. lia.
  - intros d Hd. unfold getCache. cbn. by rewrite lookup_insert_ne.
Qed.

Lemma quarantine_put_fifo_witness :
  quarantine_put (λ _, Some 40) 0 3 (mkQuarantine {[0 := mkCache [1; 2] 80]} 100) =
    Some ([1], mkQuarantine {[0 := mkCache [2; 3] 80]} 100) ∧
  [1; 2] ++ [3] = [1] ++ [2; 3].
Proof.
  assert (quarantine_put (λ _, Some 40) 0 3 (mkQuarantine {[0 := mkCache [1; 2] 80]} 100) =
            Some ([1], mkQuarantine {[0 := mkCache [2; 3] 80]} 100)) as E by reflexivity.
  split; [exact E|].
  destruct (quarantine_put_fifo (λ _, Some 40) 0 3 (mkQuarantine {[0 := mkCache [1; 2] 80]} 100)
              [1] (mkQuarantine {[0 := mkCache [2; 3] 80]} 100)) as [H _];
    [intros ?? [= <-]; lia|reflexivity|vm_compute; reflexivity|exact E|exact H].
Defined.

(** C16: in every state reached from a fresh interceptor by any sequence of
    allocations, releases, and context and device insertions and erasures,
    with or without an error (the driver handing out no chunk whose entry is
    still in the allocation map), a release in a known context comes back or
    ends the process with a report, and is never undefined.  What it asks the
    driver to free is a list of distinct chunks that were in the map and that
    are all released, so no live chunk is ever freed; only their entries leave
    the map, every one of them unless the driver refuses a call, and then all
    but at most the refused one, which is the last.  The map, the objects and
    the quarantine agree again afterwards, and as long as no free was ever
    refused every released chunk of the map is in the quarantine. *)
Theorem reachable_release_sound drv o ctx a i h :
  rtc (istep drv) (new_interceptor o, []) (i, h) → is_Some (m_ContextMap i !! ctx) →
  let '(r, i', h') := releaseMemory drv ctx a i h in
  r ≠ Halt Undefined ∧ r ≠ Halt NoFuel ∧ interceptor_wf i' ∧
  (comes_back r → frees_succeed drv h' → released_quarantined i') ∧
  ∃ evs gone, h' = h ++ (USM_Free ctx <$> evs) ∧ NoDup evs ∧
    (∀ k, k ∈ evs → ∃ id ai, m_AllocationMap i !! k = Some id ∧ store i' !! id = Some ai ∧
                             IsReleased ai = true) ∧
    (∀ k, m_AllocationMap i' !! k = if decide (k ∈ gone) then None else m_AllocationMap i !! k) ∧
    match r with
    | Fail _ => gone = evs ∨ ∃ x, evs = gone ++ [x]
    | _ => gone = evs
    end.
Proof.
  intros Hs%reachable_sound Hc. pose proof (releaseMemory_spec drv ctx a i h (proj1 Hs) Hc) as H.
  destruct (releaseMemory drv ctx a i h) as [[r i'] h'] eqn:E.
  destruct H as (Hwf & Hu & Hn & _ & _ & Hx). split_and!; [done..| |done].
  intros Hr. by apply (release_sound drv ctx a r i h i' h' Hs E Hr).
Qed.

(** Two live chunks of 700000 bytes; releasing the second evicts the first from
    a quarantine of one megabyte. *)
Definition two_live : interceptor * list ddi_call :=
  let m := insertContext (sample_driver true) 1;;
           allocateMemory (sample_driver true) 1 0 None 0 700000 HOST_USM;;
           allocateMemory (sample_driver true) 1 0 None 0 700000 HOST_USM;;
           releaseMemory (sample_driver true) 1 (2 ^ 46 + 2 ^ 20 * 2 + 2048) in
  let '(_, i, h) := m (new_interceptor (mkOptions 16 2048 1 true false true)) [] in (i, h).

Lemma reachable_release_sound_witness :
  let '(r, i', h') :=
    releaseMemory (sample_driver true) 1 (2 ^ 46 + 2 ^ 20 * 3 + 2048) two_live.1 two_live.2 in
  m_AllocationMap two_live.1 = {[2 ^ 46 + 2 ^ 20 * 2 := 0; 2 ^ 46 + 2 ^ 20 * 3 := 1]} ∧
  ∃ evs, h' = two_live.2 ++ (USM_Free 1 <$> evs) ∧ NoDup evs ∧ evs = [2 ^ 46 + 2 ^ 20 * 2].
Proof.
  assert (rtc (istep (sample_driver true)) (new_interceptor (mkOptions 16 2048 1 true false true), [])
            two_live) as Hr.
  { eapply rtc_l; [eapply (step_insertContext _ 1); [vm_compute; reflexivity|done]|].
    eapply rtc_l; [eapply (step_allocate _ 1 0 None 0 700000 HOST_USM); [vm_compute; reflexivity|done|]|].
    { intros _ h1 c n B _ _ _. done. }
    eapply rtc_l; [eapply (step_allocate _ 1 0 None 0 700000 HOST_USM); [vm_compute; reflexivity|done|]|].
    { intros _ h1 c n B Hh. apply (app_inj_tail [_; _; _]) in Hh as [<- <-].
      vm_compute. intros [= <-] [= <-]. reflexivity. }
    eapply rtc_l; [eapply (step_release _ 1 (2 ^ 46 + 2 ^ 20 * 2 + 2048)); [vm_compute; reflexivity|done]|].
    apply rtc_refl. }
  assert (bool_decide (m_ContextMap two_live.1 !! 1 = None) = false) as Hc by (vm_compute; reflexivity).
  assert ((releaseMemory (sample_driver true) 1 (2 ^ 46 + 2 ^ 20 * 3 + 2048) two_live.1 two_live.2).2 =
          two_live.2 ++ [USM_Free 1 (2 ^ 46 + 2 ^ 20 * 2)]) as E by (vm_compute; reflexivity).
  assert (m_AllocationMap two_live.1 = {[2 ^ 46 + 2 ^ 20 * 2 := 0; 2 ^ 46 + 2 ^ 20 * 3 := 1]}) as Hm
    by (vm_compute; reflexivity).
  rewrite (surjective_pairing two_live) in Hr.
  pose proof (reachable_release_sound (sample_driver true) _ 1 (2 ^ 46 + 2 ^ 20 * 3 + 2048) _ _ Hr) as H.
  destruct (releaseMemory (sample_driver true) 1 (2 ^ 46 + 2 ^ 20 * 3 + 2048) _ _) as [[r i'] h'].
  destruct H as (_ & _ & _ & _ & evs & gone & He & Hn & _).
  { apply bool_decide_eq_false in Hc. by apply not_eq_None_Some. }
  split; [exact Hm|]. exists evs. split; [done|]. split; [done|].
  cbn [snd] in E. rewrite E in He. apply app_inv_head in He.
  destruct evs as [|x [|y evs]]; [done| |done]. by injection He as ->.
Defined.

(** with the quarantine on, releasing a live chunk a second time is
    reported as a double free of that very chunk (and ends the process when
    halt_on_error is set) instead of reaching the driver. *)
Theorem double_free_reported drv ctx a It id ai q i h i' h' :
  interceptor_wf i → findAllocInfoByAddress i a = Some (It, id, ai) →
  AI_Context ai = ctx → a = UserBegin ai → IsReleased ai = false →
  m_Quarantine i = Some q →
  releaseMemory drv ctx a i h = (Go tt, i', h') →
  releaseMemory drv ctx a i' h' = report_and_return (DoubleFree a id) i' h'.
Proof.
  intros Hwf Hf Hctx Ha Hr Hq H.
  assert (is_Some (m_ContextMap i !! ctx) ∧
          release_checked drv ctx It id ai i h = (Go tt, i', h')) as [Hc H'].
  { unfold releaseMemory in H. rewrite getContextInfo_bind in H.
    destruct (m_ContextMap i !! ctx); [|done]. rewrite get_bind in H. cbv beta in H.
    rewrite Hf, decide_False, Ha, Z.eqb_refl, Hr in H by (intros []; done). split; [eauto|done]. }
  destruct (find_after_release _ _ _ _ _ _ _ _ _ _ _ Hwf Hf Hr Hc Hq H') as (Hf' & [ci' Hci']).
  unfold releaseMemory. rewrite getContextInfo_bind, Hci', get_bind. cbv beta. rewrite Hf'. cbn.
  rewrite decide_False by (intros []; done). by rewrite Ha, Z.eqb_refl.
Qed.

Definition sample_allocated : interceptor :=
  set_AllocationMap {[4096 := 0]}
    (set_store {[0 := sample_chunk]} 1 (sample_interceptor default_options)).

Lemma sample_allocated_wf : interceptor_wf sample_allocated.
Proof.
  assert (∀ k id, m_AllocationMap sample_allocated !! k = Some id → k = 4096 ∧ id = 0) as Hm.
  { intros k id H. change (({[4096 := 0]} : gmap Z Z) !! k = Some id) in H.
    by apply lookup_singleton_Some in H as [<- <-]. }
  assert (∀ id ai, store sample_allocated !! id = Some ai → id = 0 ∧ ai = sample_chunk) as Hs.
  { intros id ai H. change (({[0 := sample_chunk]} : gmap Z AllocInfo) !! id = Some ai) in H.
    by apply lookup_singleton_Some in H as [<- <-]. }
  constructor.
  - intros k id [-> ->]%Hm. by exists sample_chunk.
  - intros id ai [-> ->]%Hs. cbn. lia.
  - intros q d It [= <-] H%elem_of_nil. done.
  - intros q d [= <-]. apply NoDup_nil_2.
Qed.

Lemma double_free_reported_witness :
  ∃ i' h', releaseMemory (sample_driver true) 1 4112 sample_allocated [] = (Go tt, i', h') ∧
           releaseMemory (sample_driver true) 1 4112 i' h' =
             report_and_return (DoubleFree 4112 0) i' h'.
Proof.
  eexists _, _. split; [vm_compute; reflexivity|].
  eapply (double_free_reported (sample_driver true) 1 4112 4096 0 sample_chunk
            (mkQuarantine ∅ (w64 (8 * 1024 * 1024))) sample_allocated []);
    [exact sample_allocated_wf|reflexivity..|vm_compute; reflexivity].
Defined.

(** erasing a context reports a leak for exactly the live chunks of that
    context that are still in the allocation map. *)
Theorem leaks_reported drv c ci i h i' h' :
  m_ContextMap i !! c = Some ci → DetectLeaks (m_Options i) = true →
  eraseContext drv c i h = (Go tt, i', h') →
  ∃ ids, reports i' = reports i ++ (MemoryLeak <$> ids) ∧
    ∀ id, id ∈ ids ↔
      ∃ k ai, m_AllocationMap i !! k = Some id ∧ store i !! id = Some ai ∧
              AI_Context ai = c ∧ IsReleased ai = false.
Proof.
  intros Hci Hd H. destruct (eraseContext_inv _ _ _ _ _ _ _ Hci H) as (_ & _ & _ & _ & _ & Hr).
  rewrite Hd in Hr. eexists. split; [exact Hr|]. intros id.
  rewrite list_elem_of_filter, elem_of_findAllocInfoByContext. unfold leaked. split.
  - intros (Hl & (k & Hk) & Hc). destruct (store i !! id) as [ai|]; [|done].
    injection Hc as Hc. exists k, ai. split_and!; [done|done|done|].
    destruct (IsReleased ai); [done|done].
  - intros (k & ai & Hk & -> & <- & ->). split_and!; [done|eauto|done].
Qed.

Lemma leaks_reported_witness :
  ∃ i' h', eraseContext (sample_driver true) 1 sample_allocated [] = (Go tt, i', h') ∧
           ∃ ids, reports i' = MemoryLeak <$> ids ∧ 0 ∈ ids.
Proof.
  eexists _, _. split; [vm_compute; reflexivity|].
  match goal with |- ∃ ids, reports ?i = _ ∧ _ =>
    destruct (leaks_reported (sample_driver true) 1 (mkCI None [10; 11] ∅ None) sample_allocated []
                i [Context_Release 1]) as (ids & Hr & Hin) end;
    [reflexivity|reflexivity|vm_compute; reflexivity|].
  exists ids. split; [exact Hr|]. apply Hin. exists 4096, sample_chunk. by split_and!.
Defined.

(** the quarantine is per device, not per context: a release in context 2
    that evicts a chunk of context 1 asks the driver to free it in context 2. *)
Theorem quarantine_frees_in_wrong_context :
  ∃ i p1 p2 i' h h',
    (p1 ← allocateMemory (sample_driver true) 1 0 None 0 700000 HOST_USM;
     p2 ← allocateMemory (sample_driver true) 2 0 None 0 700000 HOST_USM;
     releaseMemory (sample_driver true) 1 p1;; mret (p1, p2))
      (sample_interceptor (mkOptions 16 2048 1 true false true)) [] = (Go (p1, p2), i, h) ∧
    releaseMemory (sample_driver true) 2 p2 i h = (Go tt, i', h') ∧
    ∃ It id ai, findAllocInfoByAddress i p1 = Some (It, id, ai) ∧ AI_Context ai = 1 ∧
                h' = h ++ [USM_Free 2 It].
Proof.
  eexists _, _, _, _, _, _. split; [vm_compute; reflexivity|].
  split; [vm_compute; reflexivity|]. eexists _, _, _. split; [vm_compute; reflexivity|].
  split; reflexivity.
Qed.

(** the size computations of an allocation wrap: with the default redzones a
    host allocation of [2^64 - k] bytes, [1 <= k <= 15], asks the driver for
    4096 bytes only and, if these are granted, reports success. *)
Theorem huge_allocation_wraps drv c ci i h k pool B :
  1 <= k <= 15 → m_ContextMap i !! c = Some ci → pool ≠ 0 →
  MinRZSize (m_Options i) = 16 → MaxRZSize (m_Options i) = 2048 →
  drv h (USM_HostAlloc c None pool 4096) = (UR_RESULT_SUCCESS, B) →
  ∃ i', allocateMemory drv c 0 None pool (2 ^ 64 - k) HOST_USM i h =
          (Go (user_begin B 2048 16), i', h ++ [USM_HostAlloc c None pool 4096]).
Proof.
  intros Hk Hci Hp Hmin Hmax Hd. unfold allocateMemory.
  rewrite getContextInfo_bind, Hci. cbn [Z.eqb]. unfold mbind at 1, M_bind at 1.
  cbn [mret M_ret]. change (negb (Z.land (default 0 None) (w32 (default 0 None - 1)) =? 0))
    with false. cbv iota. rewrite get_bind, Hmin, Hmax.
  assert (ComputeRZLog (2 ^ 64 - k) 16 2048 = Ret 7) as ->.
  { destruct (ComputeRZLog_pow2 (2 ^ 64 - k) 4 11) as (cl & -> & E); [lia..|].
    change (2 ^ 4) with 16 in E. change (2 ^ 11) with 2048 in E. rewrite E.
    unfold rz_class. case_leb; try lia. done. }
  cbv beta zeta iota. assert (needed_size (2 ^ 64 - k) (RZLog2Size 7) 16 = 4096) as Hn.
  { unfold needed_size, RoundUpTo. change ASAN_SHADOW_GRANULARITY with 16.
    cbn [Z.ltb Z.compare]. replace (w64 (2 ^ 64 - k + 16 - 1)) with (15 - k)
      by (unfold w64; lia_div).
    change (not64 (w64 (16 - 1))) with (not64 (2 ^ 4 - 1)).
    rewrite land_not64_pow2 by lia. replace (15 - k - (15 - k) mod 2 ^ 4) with 0 by lia_div.
    reflexivity. }
  change (effective_alignment None None) with 16. rewrite Hn.
  change (RZLog2Size 7) with 2048. rewrite (proj2 (Z.eqb_neq pool 0) Hp).
  unfold mbind at 1, M_bind at 1. cbn [mret M_ret alloc_call].
  unfold mbind at 1, M_bind at 1, UR_CALL, call. unfold mbind at 1, M_bind at 1. rewrite Hd.
  cbn [fst snd]. rewrite decide_True by done. eexists. reflexivity.
Qed.

Lemma huge_allocation_wraps_witness :
  ∃ i', allocateMemory (sample_driver true) 1 0 None 5 (2 ^ 64 - 1) HOST_USM
          (sample_interceptor default_options) [] =
        (Go (user_begin (2 ^ 46) 2048 16), i', [USM_HostAlloc 1 None 5 4096]).
Proof.
  apply (huge_allocation_wraps (sample_driver true) 1 (mkCI None [10; 11] ∅ None)
           (sample_interceptor default_options) [] 1 5 (2 ^ 46));
    [lia|reflexivity|lia|reflexivity|reflexivity|reflexivity].
Defined.
