(* ===== verification/MsanState.v ===== *)
(** * MsanState: the objects of source/loader/layers/sanitizer/msan

    The data of the memory sanitizer: the shadow memories (msan_shadow.hpp), the
    maps of the interceptor (msan_interceptor.hpp), the allocations
    (msan_allocator.hpp) and the buffers (msan_buffer.hpp), with the lookup of an
    allocation by an address inside it.

    A process has one shadow memory per device type, the function-local statics
    of [GetMsanShadowMemory]; the devices point to these.  [std::shared_ptr]s to
    allocations and buffers are identities into stores.  Stack traces, logging and
    locks are left out, and the flag [IsReleased], which nothing sets. *)
From S2P Require Import Prelude SanCommon.

(** ** Data *)

Record MsanAllocInfo := mkAI {
  AllocBegin : Z;
  AllocSize : Z;
  AI_Context : Z;
  AI_Device : Z
}.

(** [VirtualMemMaps]: the physical memory of a mapped page and the allocations
    that have shadow there. *)
Record MsanShadowMemory := mkShadow {
  Sh_Context : Z;
  Sh_Device : Z;
  ShadowBegin : Z;
  ShadowEnd : Z;
  VirtualMemMaps : gmap Z (Z * gset Z)
}.

(** The results that the methods keep in function-local statics. *)
Record shadow_statics := mkStatics {
  CPU_Setup_Result : option ur_result_t;
  CPU_Destory_Result : option ur_result_t;
  GPU_Setup_Result : option ur_result_t;
  GPU_Destory_Result : option ur_result_t;
  Release_PageSize : option Z
}.

Definition no_statics : shadow_statics := mkStatics None None None None None.

(** [Shadow] names the static object that the pointer leads to. *)
Record DeviceInfo := mkDI {
  Type_ : DeviceType;
  Alignment : Z;
  Shadow : option DeviceType;
  IsSupportSharedSystemUSM : bool
}.

Record ContextInfo := mkCI {
  MaxAllocatedSize : Z;
  CI_RefCount : Z;
  DeviceList : list Z
}.

Record SubBuffer_t := mkSub { Parent : Z; Origin : Z }.

(** [Allocations] has the pointer for each device, and at 0 the one for the
    migration; [Mappings] the offset and size of each mapped pointer. *)
Record MemBuffer := mkMB {
  MB_Context : Z;
  MB_Size : Z;
  HostPtr : Z;
  Allocations : gmap Z Z;
  Mappings : gmap Z (Z * Z);
  LastSyncedDevice : Z * Z;
  SubBuffer : option SubBuffer_t;
  MB_RefCount : Z
}.

Record msan := mkMsan {
  statics : shadow_statics;
  objects : DeviceType → option MsanShadowMemory;
  m_ContextMap : gmap Z ContextInfo;
  m_DeviceMap : gmap Z DeviceInfo;
  m_AllocationMap : gmap Z Z;             (* AllocBegin to the object *)
  store : gmap Z MsanAllocInfo;
  m_MemBufferMap : gset Z;                (* handles of buffers, see [buffers] *)
  buffers : gmap Z MemBuffer;
  next_id : Z
}.

Definition new_msan : msan := mkMsan no_statics (λ _, None) ∅ ∅ ∅ ∅ ∅ ∅ 1.

(** ** Updates *)

Definition set_statics (st : shadow_statics) (s : msan) : msan :=
  mkMsan st (objects s) (m_ContextMap s) (m_DeviceMap s) (m_AllocationMap s) (store s)
    (m_MemBufferMap s) (buffers s) (next_id s).
Definition set_object (ty : DeviceType) (o : MsanShadowMemory) (s : msan) : msan :=
  mkMsan (statics s) (λ t, if decide (t = ty) then Some o else objects s t) (m_ContextMap s)
    (m_DeviceMap s) (m_AllocationMap s) (store s) (m_MemBufferMap s) (buffers s) (next_id s).
Definition set_ContextMap (m : gmap Z ContextInfo) (s : msan) : msan :=
  mkMsan (statics s) (objects s) m (m_DeviceMap s) (m_AllocationMap s) (store s)
    (m_MemBufferMap s) (buffers s) (next_id s).
Definition set_DeviceMap (m : gmap Z DeviceInfo) (s : msan) : msan :=
  mkMsan (statics s) (objects s) (m_ContextMap s) m (m_AllocationMap s) (store s)
    (m_MemBufferMap s) (buffers s) (next_id s).
Definition set_AllocationMap (m : gmap Z Z) (s : msan) : msan :=
  mkMsan (statics s) (objects s) (m_ContextMap s) (m_DeviceMap s) m (store s)
    (m_MemBufferMap s) (buffers s) (next_id s).
Definition add_alloc (ai : MsanAllocInfo) (s : msan) : msan :=
  mkMsan (statics s) (objects s) (m_ContextMap s) (m_DeviceMap s) (m_AllocationMap s)
    (<[next_id s := ai]> (store s)) (m_MemBufferMap s) (buffers s) (next_id s + 1).
Definition set_buffer (b : Z) (mb : MemBuffer) (s : msan) : msan :=
  mkMsan (statics s) (objects s) (m_ContextMap s) (m_DeviceMap s) (m_AllocationMap s) (store s)
    (m_MemBufferMap s) (<[b := mb]> (buffers s)) (next_id s).
Definition set_MemBufferMap (m : gset Z) (s : msan) : msan :=
  mkMsan (statics s) (objects s) (m_ContextMap s) (m_DeviceMap s) (m_AllocationMap s) (store s)
    m (buffers s) (next_id s).
Definition bump_id (s : msan) : msan :=
  mkMsan (statics s) (objects s) (m_ContextMap s) (m_DeviceMap s) (m_AllocationMap s) (store s)
    (m_MemBufferMap s) (buffers s) (next_id s + 1).

Definition set_range (b e : Z) (o : MsanShadowMemory) : MsanShadowMemory :=
  mkShadow (Sh_Context o) (Sh_Device o) b e (VirtualMemMaps o).
Definition set_maps (m : gmap Z (Z * gset Z)) (o : MsanShadowMemory) : MsanShadowMemory :=
  mkShadow (Sh_Context o) (Sh_Device o) (ShadowBegin o) (ShadowEnd o) m.

Definition set_CPU_Setup (r : ur_result_t) (st : shadow_statics) : shadow_statics :=
  mkStatics (Some r) (CPU_Destory_Result st) (GPU_Setup_Result st) (GPU_Destory_Result st)
    (Release_PageSize st).
Definition set_CPU_Destory (r : ur_result_t) (st : shadow_statics) : shadow_statics :=
  mkStatics (CPU_Setup_Result st) (Some r) (GPU_Setup_Result st) (GPU_Destory_Result st)
    (Release_PageSize st).
Definition set_GPU_Setup (r : ur_result_t) (st : shadow_statics) : shadow_statics :=
  mkStatics (CPU_Setup_Result st) (CPU_Destory_Result st) (Some r) (GPU_Destory_Result st)
    (Release_PageSize st).
Definition set_GPU_Destory (r : ur_result_t) (st : shadow_statics) : shadow_statics :=
  mkStatics (CPU_Setup_Result st) (CPU_Destory_Result st) (GPU_Setup_Result st) (Some r)
    (Release_PageSize st).
Definition set_Release_PageSize (p : Z) (st : shadow_statics) : shadow_statics :=
  mkStatics (CPU_Setup_Result st) (CPU_Destory_Result st) (GPU_Setup_Result st)
    (GPU_Destory_Result st) (Some p).

(** ** The allocation map *)

(** The iterator (its key), the object and what it holds. *)
Definition findAllocInfoByAddress (s : msan) (Address : Z) : option (Z * Z * MsanAllocInfo) :=
  It ← floor_key (m_AllocationMap s) Address;
  id ← m_AllocationMap s !! It;
  ai ← store s !! id;
  if (Address <? AllocBegin ai) || (w64 (AllocBegin ai + AllocSize ai) <=? Address) then None
  else Some (It, id, ai).

(** ** Calls on the state *)

(** The object behind the [this] pointer of a shadow memory of type [ty]. *)
Definition obj (ty : DeviceType) : M msan MsanShadowMemory :=
  s ← get; deref (objects s ty).
Definition upd (ty : DeviceType) (f : MsanShadowMemory → MsanShadowMemory) : M msan unit :=
  o ← obj ty; modify (set_object ty (f o)).
Definition upd_statics (f : shadow_statics → shadow_statics) : M msan unit :=
  modify (λ s, set_statics (f (statics s)) s).

(** [m_ContextMap[Context]] of an unknown context is a null pointer. *)
Definition getContextInfo (Context : Z) : M msan ContextInfo :=
  s ← get; deref (m_ContextMap s !! Context).
Definition getDeviceInfo (Device : Z) : M msan DeviceInfo :=
  s ← get; deref (m_DeviceMap s !! Device).

Definition upd_context (Context : Z) (f : ContextInfo → ContextInfo) : M msan unit :=
  modify (λ s, set_ContextMap (alter f Context (m_ContextMap s)) s).
Definition upd_device (Device : Z) (f : DeviceInfo → DeviceInfo) : M msan unit :=
  modify (λ s, set_DeviceMap (alter f Device (m_DeviceMap s)) s).
