(* ===== verification/MsanShadow.v ===== *)
(** * MsanShadow: source/loader/layers/sanitizer/msan/msan_shadow.{cpp,hpp}

    The shadow memories of the memory sanitizer, one shadow byte for each byte:
    where the shadow of an address is, set-up and tear-down, writing the shadow of
    a range on the host (CPU) or through the driver with pages mapped on demand
    (GPU), and giving pages back.

    A method takes the device type [ty] that selects its class; the object is the
    static one of that type.  When a call fails after it stored an event through
    [OutEvent], the model forgets the event. *)
From S2P Require Import Prelude SanCommon MsanState.

(** ** The address layouts *)

Definition CPU_SHADOW1_BEGIN : Z := 0x010000000000.
Definition CPU_SHADOW1_END : Z := 0x100000000000.
Definition CPU_SHADOW2_BEGIN : Z := 0x200000000000.
Definition CPU_SHADOW2_END : Z := 0x300000000000.
Definition CPU_SHADOW3_BEGIN : Z := 0x500000000000.
Definition CPU_SHADOW3_END : Z := 0x510000000000.
Definition CPU_SHADOW_MASK : Z := 0x500000000000.

Definition MemToShadow_CPU (Ptr : Z) : Z := Z.lxor Ptr CPU_SHADOW_MASK.

Definition MemToShadow_PVC (ShadowBegin ShadowEnd Ptr : Z) : Z :=
  if Ptr <? ShadowBegin
  then w64 (Ptr + w64 (ShadowBegin - 0xff00000000000000))
  else w64 (Ptr - w64 (0xff00ffffffffffff - ShadowEnd)).

Definition MemToShadow_DG2 (ShadowBegin ShadowEnd Ptr : Z) : Z :=
  if Ptr <? ShadowBegin
  then w64 (Ptr + w64 (ShadowBegin - 0xffff800000000000))
  else w64 (Ptr - w64 (0xffffffffffffffff - ShadowEnd)).

(** The virtual methods; no class has type [DT_UNKNOWN]. *)
Definition MemToShadow (ty : DeviceType) (o : MsanShadowMemory) (Ptr : Z) : Z :=
  match ty with
  | CPU => MemToShadow_CPU Ptr
  | GPU_PVC => MemToShadow_PVC (ShadowBegin o) (ShadowEnd o) Ptr
  | GPU_DG2 => MemToShadow_DG2 (ShadowBegin o) (ShadowEnd o) Ptr
  | DT_UNKNOWN => 0
  end.

Definition GetShadowSize (ty : DeviceType) : Z :=
  match ty with GPU_PVC => 0x800000000000 | GPU_DG2 => 0x400000000000 | _ => 0 end.

Section shadow.
Variable drv : driver.

(** ** Calls to the system (sanitizer_common/linux/sanitizer_utils.cpp) *)

Definition EXEC_PAGESIZE : Z := 4096.

(** The value of [Os_Mmap] is what [mmap] returns: the address, or [MAP_FAILED]. *)
Definition MmapFixedNoReserve (Addr Size : Z) : M msan Z :=
  P ← call drv (Os_Mmap (RoundDownTo Addr EXEC_PAGESIZE) (RoundUpTo Size EXEC_PAGESIZE) true);
  mret P.2.
Definition ProtectMemoryRange (Addr Size : Z) : M msan Z :=
  P ← call drv (Os_Mmap (RoundDownTo Addr EXEC_PAGESIZE) (RoundUpTo Size EXEC_PAGESIZE) false);
  mret P.2.
Definition Munmap (Addr Size : Z) : M msan bool :=
  r ← call drv (Os_Munmap Addr Size); mret (r.2 =? 0).
Definition DontCoredumpRange (Addr Size : Z) : M msan unit :=
  call drv (Os_DontDump (RoundDownTo Addr EXEC_PAGESIZE) (RoundUpTo Size EXEC_PAGESIZE));; mret tt.

(** [GetVirtualMemGranularity]: the result code is only asserted. *)
Definition GetVirtualMemGranularity (ctx dev : Z) : M msan Z :=
  r ← call drv (VirtualMem_Granularity ctx dev); mret r.2.

(** [if (cond) return r;] *)
Definition return_if (cond : bool) (r : ur_result_t) : M msan unit :=
  if cond then fail r else mret tt.

(** A function-local static result: the body runs the first time only. *)
Definition once (get_result : shadow_statics → option ur_result_t)
    (set_result : ur_result_t → shadow_statics → shadow_statics) (body : M msan unit) : M msan unit :=
  s ← get;
  r ← match get_result (statics s) with
      | Some r => mret r
      | None => r ← try body; upd_statics (set_result r);; mret r
      end;
  if decide (r = UR_RESULT_SUCCESS) then mret tt else fail r.

(** ** [MsanShadowMemoryCPU] *)

Definition CPU_Setup_body : M msan unit :=
  P ← MmapFixedNoReserve CPU_SHADOW1_BEGIN (CPU_SHADOW1_END - CPU_SHADOW1_BEGIN);
  return_if (P =? 0) UR_RESULT_ERROR_OUT_OF_HOST_MEMORY;;
  P ← ProtectMemoryRange CPU_SHADOW1_END (CPU_SHADOW2_BEGIN - CPU_SHADOW1_END);
  return_if (P =? 0) UR_RESULT_ERROR_OUT_OF_HOST_MEMORY;;
  P ← MmapFixedNoReserve CPU_SHADOW2_BEGIN (CPU_SHADOW2_END - CPU_SHADOW2_BEGIN);
  return_if (P =? 0) UR_RESULT_ERROR_OUT_OF_HOST_MEMORY;;
  P ← ProtectMemoryRange CPU_SHADOW2_END (CPU_SHADOW3_BEGIN - CPU_SHADOW2_END);
  return_if (P =? 0) UR_RESULT_ERROR_OUT_OF_HOST_MEMORY;;
  P ← MmapFixedNoReserve CPU_SHADOW3_BEGIN (CPU_SHADOW3_END - CPU_SHADOW3_BEGIN);
  return_if (P =? 0) UR_RESULT_ERROR_OUT_OF_HOST_MEMORY;;
  upd CPU (set_range CPU_SHADOW1_BEGIN CPU_SHADOW3_END);;
  DontCoredumpRange CPU_SHADOW1_BEGIN (CPU_SHADOW3_END - CPU_SHADOW1_BEGIN).

(** [!Munmap(...) == 0] compares the negation with zero. *)
Definition CPU_Destory_body : M msan unit :=
  ok ← Munmap CPU_SHADOW1_BEGIN (CPU_SHADOW1_END - CPU_SHADOW1_BEGIN);
  return_if (negb ok) UR_RESULT_ERROR_UNKNOWN;;
  ok ← Munmap CPU_SHADOW1_END (CPU_SHADOW2_BEGIN - CPU_SHADOW1_END);
  return_if (negb ok) UR_RESULT_ERROR_UNKNOWN;;
  ok ← Munmap CPU_SHADOW2_BEGIN (CPU_SHADOW2_END - CPU_SHADOW2_BEGIN);
  return_if (Z.b2z (negb ok) =? 0) UR_RESULT_ERROR_UNKNOWN;;
  ok ← Munmap CPU_SHADOW2_END (CPU_SHADOW3_BEGIN - CPU_SHADOW2_END);
  return_if (negb ok) UR_RESULT_ERROR_UNKNOWN;;
  ok ← Munmap CPU_SHADOW3_BEGIN (CPU_SHADOW3_END - CPU_SHADOW3_BEGIN);
  return_if (Z.b2z (negb ok) =? 0) UR_RESULT_ERROR_UNKNOWN;;
  upd CPU (set_range 0 0).

Definition CPU_Setup : M msan unit := once CPU_Setup_Result set_CPU_Setup CPU_Setup_body.

Definition CPU_Destory : M msan unit :=
  o ← obj CPU;
  if (ShadowBegin o =? 0) && (ShadowEnd o =? 0) then mret tt
  else once CPU_Destory_Result set_CPU_Destory CPU_Destory_body.

(** [if (OutEvent) UR_CALL(pfnEventsWait(...))]: the event. *)
Definition events_wait (Queue : Z) (EventWaitList : list Z) (out : bool) : M msan Z :=
  if out then UR_CALL drv (Enqueue_EventsWait Queue EventWaitList true) else mret 0.

Definition CPU_EnqueuePoisonShadow (Queue Ptr Size Value : Z) (EventWaitList : list Z) (out : bool)
  : M msan Z :=
  (if Size =? 0 then mret tt
   else
     let ShadowBegin := MemToShadow_CPU Ptr in
     let ShadowEnd := MemToShadow_CPU (w64 (Ptr + Size - 1)) in
     call drv (Host_Memset ShadowBegin (u8 Value) (w64 (ShadowEnd - ShadowBegin + 1)));; mret tt);;
  events_wait Queue EventWaitList out.

(** ** [MsanShadowMemoryGPU] *)

(** A fill with one byte. *)
Definition EnqueueUSMBlockingSet (Queue Ptr Value Size : Z) (EventWaitList : list Z) (out : bool)
  : M msan Z :=
  UR_CALL drv (Enqueue_Fill Queue Ptr [u8 Value] Size EventWaitList out).

Section gpu.
Variable ty : DeviceType.

Definition GPU_Setup_body : M msan unit :=
  o ← obj ty;
  let ShadowSize := GetShadowSize ty in
  Begin ← UR_CALL drv (VirtualMem_Reserve (Sh_Context o) 0x100000000000000 ShadowSize);
  upd ty (set_range Begin (w64 (Begin + ShadowSize)));;
  call drv (Context_Retain (Sh_Context o));;
  mret tt.

Definition GPU_Setup : M msan unit := once GPU_Setup_Result set_GPU_Setup GPU_Setup_body.

(** The context is released whatever freeing returned. *)
Definition GPU_Destory_body : M msan unit :=
  o ← obj ty;
  r ← call drv (VirtualMem_Free (Sh_Context o) (ShadowBegin o) (GetShadowSize ty));
  call drv (Context_Release (Sh_Context o));;
  if decide (r.1 = UR_RESULT_SUCCESS) then mret tt else fail r.1.

Definition GPU_Destory : M msan unit :=
  o ← obj ty;
  if ShadowBegin o =? 0 then mret tt
  else once GPU_Destory_Result set_GPU_Destory GPU_Destory_body.

(** [VirtualMemMaps[MappedPtr].first = PhysicalMem] and
    [VirtualMemMaps[MappedPtr].second.insert(id)]: a missing entry is made. *)
Definition set_physical (MappedPtr PhysicalMem : Z) (o : MsanShadowMemory) : MsanShadowMemory :=
  set_maps (<[MappedPtr :=
    (PhysicalMem, default ∅ (snd <$> VirtualMemMaps o !! MappedPtr))]> (VirtualMemMaps o)) o.
Definition add_user (MappedPtr id : Z) (o : MsanShadowMemory) : MsanShadowMemory :=
  let e := default (0, ∅) (VirtualMemMaps o !! MappedPtr) in
  set_maps (<[MappedPtr := (e.1, {[id]} ∪ e.2)]> (VirtualMemMaps o)) o.

(** One page of the loop of [EnqueueMapShadow]: the events to wait for next. *)
Definition map_new_page (Queue MappedPtr PageSize : Z) (EventWaitList : list Z) (out : bool)
  : M msan (list Z) :=
  o ← obj ty;
  match VirtualMemMaps o !! MappedPtr with
  | Some _ => mret EventWaitList
  | None =>
      PhysicalMem ← UR_CALL drv (PhysicalMem_Create (Sh_Context o) (Sh_Device o) PageSize);
      UR_CALL drv (VirtualMem_Map (Sh_Context o) MappedPtr PageSize PhysicalMem);;
      ev ← EnqueueUSMBlockingSet Queue MappedPtr 0 PageSize EventWaitList out;
      upd ty (set_physical MappedPtr PhysicalMem);;
      mret (if out then [ev] else [])
  end.

Definition map_shadow_page (Queue Ptr MappedPtr PageSize : Z) (EventWaitList : list Z) (out : bool)
  : M msan (list Z) :=
  wl ← map_new_page Queue MappedPtr PageSize EventWaitList out;
  s ← get;
  (match findAllocInfoByAddress s Ptr with
   | Some (_, id, _) => upd ty (add_user MappedPtr id)
   | None => mret tt
   end);;
  mret wl.

(** [for (MappedPtr = ...; MappedPtr <= ShadowEnd; MappedPtr += PageSize)] *)
Fixpoint map_shadow_pages (fuel : nat) (Queue Ptr MappedPtr ShadowEnd PageSize : Z)
    (EventWaitList : list Z) (out : bool) : M msan (list Z) :=
  if MappedPtr <=? ShadowEnd then
    match fuel with
    | O => stop NoFuel
    | S fuel' =>
        wl ← map_shadow_page Queue Ptr MappedPtr PageSize EventWaitList out;
        map_shadow_pages fuel' Queue Ptr (w64 (MappedPtr + PageSize)) ShadowEnd PageSize wl out
    end
  else mret EventWaitList.

Definition pages_fuel (first last PageSize : Z) : nat :=
  Z.to_nat ((last - first) / PageSize + 1).

(** The list that the caller's vector holds afterwards. *)
Definition EnqueueMapShadow (Queue Ptr Size : Z) (EventWaitList : list Z) (out : bool)
  : M msan (list Z) :=
  o ← obj ty;
  PageSize ← GetVirtualMemGranularity (Sh_Context o) (Sh_Device o);
  let ShadowBegin := MemToShadow ty o Ptr in
  let ShadowEnd := MemToShadow ty o (w64 (Ptr + Size - 1)) in
  let First := RoundDownTo ShadowBegin PageSize in
  map_shadow_pages (pages_fuel First ShadowEnd PageSize) Queue Ptr First ShadowEnd PageSize
    EventWaitList out.

Definition GPU_EnqueuePoisonShadow (Queue Ptr Size Value : Z) (EventWaitList : list Z) (out : bool)
  : M msan Z :=
  if Size =? 0 then events_wait Queue EventWaitList out
  else
    Events ← EnqueueMapShadow Queue Ptr Size EventWaitList out;
    o ← obj ty;
    let ShadowBegin := MemToShadow ty o Ptr in
    let ShadowEnd := MemToShadow ty o (w64 (Ptr + Size - 1)) in
    EnqueueUSMBlockingSet Queue ShadowBegin Value (w64 (ShadowEnd - ShadowBegin + 1)) Events out.

(** [static const size_t PageSize] of [ReleaseShadow]. *)
Definition static_PageSize : M msan Z :=
  s ← get;
  match Release_PageSize (statics s) with
  | Some p => mret p
  | None =>
      o ← obj ty;
      p ← GetVirtualMemGranularity (Sh_Context o) (Sh_Device o);
      upd_statics (set_Release_PageSize p);;
      mret p
  end.

(** One page of the loop of [ReleaseShadow]: the entry stays. *)
Definition release_page (id MappedPtr PageSize : Z) : M msan unit :=
  o ← obj ty;
  match VirtualMemMaps o !! MappedPtr with
  | None => mret tt
  | Some (PhysicalMem, users) =>
      let users := users ∖ {[id]} in
      upd ty (λ o, set_maps (<[MappedPtr := (PhysicalMem, users)]> (VirtualMemMaps o)) o);;
      if decide (users = ∅) then
        UR_CALL drv (VirtualMem_Unmap (Sh_Context o) MappedPtr PageSize);;
        UR_CALL drv (PhysicalMem_Release PhysicalMem);;
        mret tt
      else mret tt
  end.

Fixpoint release_pages (fuel : nat) (id MappedPtr ShadowEnd PageSize : Z) : M msan unit :=
  if MappedPtr <=? ShadowEnd then
    match fuel with
    | O => stop NoFuel
    | S fuel' =>
        release_page id MappedPtr PageSize;;
        release_pages fuel' id (w64 (MappedPtr + PageSize)) ShadowEnd PageSize
    end
  else mret tt.

Definition GPU_ReleaseShadow (id : Z) : M msan unit :=
  o ← obj ty;
  s ← get;
  AI ← deref (store s !! id);
  let ShadowBegin := MemToShadow ty o (AllocBegin AI) in
  let ShadowEnd := MemToShadow ty o (w64 (AllocBegin AI + AllocSize AI)) in
  PageSize ← static_PageSize;
  let First := RoundDownTo ShadowBegin PageSize in
  release_pages (pages_fuel First ShadowEnd PageSize) id First ShadowEnd PageSize.
End gpu.

(** ** The virtual methods and [GetMsanShadowMemory] *)

Definition Setup (ty : DeviceType) : M msan unit :=
  match ty with CPU => CPU_Setup | DT_UNKNOWN => stop Undefined | _ => GPU_Setup ty end.
Definition Destory (ty : DeviceType) : M msan unit :=
  match ty with CPU => CPU_Destory | DT_UNKNOWN => stop Undefined | _ => GPU_Destory ty end.
Definition EnqueuePoisonShadow (ty : DeviceType) (Queue Ptr Size Value : Z) (EventWaitList : list Z)
    (out : bool) : M msan Z :=
  match ty with
  | CPU => CPU_EnqueuePoisonShadow Queue Ptr Size Value EventWaitList out
  | DT_UNKNOWN => stop Undefined
  | _ => GPU_EnqueuePoisonShadow ty Queue Ptr Size Value EventWaitList out
  end.
Definition ReleaseShadow (ty : DeviceType) (id : Z) : M msan unit :=
  match ty with CPU => mret tt | DT_UNKNOWN => stop Undefined | _ => GPU_ReleaseShadow ty id end.

(** The static object of the type is made at the first call; [None] is the
    null pointer. *)
Definition GetMsanShadowMemory (Context Device : Z) (ty : DeviceType) : M msan (option DeviceType) :=
  if decide (ty = DT_UNKNOWN) then mret None
  else
    s ← get;
    (match objects s ty with
     | Some _ => mret tt
     | None => modify (set_object ty (mkShadow Context Device 0 0 ∅))
     end);;
    mret (Some ty).
End shadow.
