(* ===== verification/MsanLayout.v ===== *)
(** * MsanLayout: where the shadow of the memory sanitizer lies

    The address layouts documented in msan_shadow.hpp as lists of segments, and
    what [MemToShadow] does on them: each segment moves as a whole, into the
    reserved range, and no two addresses share a shadow byte. *)
From S2P Require Import Prelude SanCommon MsanState MsanShadow.

(** ** The documented layout *)

(** The first and the last address of device USM. *)
Definition device_first (ty : DeviceType) : Z :=
  match ty with GPU_PVC => 0xff00000000000000 | _ => 0xffff800000000000 end.
Definition device_last (ty : DeviceType) : Z :=
  match ty with GPU_PVC => 0xff00ffffffffffff | _ => 0xffffffffffffffff end.

Definition is_gpu (ty : DeviceType) : bool :=
  match ty with GPU_PVC | GPU_DG2 => true | _ => false end.

(** A shadow memory as [Setup] leaves it: a GPU reserves its range, which is
    aligned to a page of [2 ^ k] bytes, among the addresses of device USM. *)
Definition layout_ok (ty : DeviceType) (k : Z) (o : MsanShadowMemory) : Prop :=
  match ty with
  | CPU => ShadowBegin o = CPU_SHADOW1_BEGIN ∧ ShadowEnd o = CPU_SHADOW3_END
  | DT_UNKNOWN => False
  | _ => device_first ty <= ShadowBegin o ∧ ShadowEnd o = ShadowBegin o + GetShadowSize ty ∧
         ShadowEnd o <= device_last ty ∧ (2 ^ k | ShadowBegin o)
  end.

(** Segments [(first, end, distance to the shadow)] of addresses an application
    may use.  The last address of device USM is not among them. *)
Definition segments (ty : DeviceType) (o : MsanShadowMemory) : list (Z * Z * Z) :=
  match ty with
  | CPU => [(0, 0x010000000000, 0x500000000000);
            (0x510000000000, 0x600000000000, - 0x500000000000);
            (0x700000000000, 0x800000000000, - 0x500000000000)]
  | DT_UNKNOWN => []
  | _ => [(device_first ty, ShadowBegin o, ShadowBegin o - device_first ty);
          (ShadowEnd o, device_last ty, ShadowEnd o - device_last ty)]
  end.

Definition in_segment (sg : Z * Z * Z) (x : Z) : Prop := sg.1.1 <= x < sg.1.2.
Definition app_address (ty : DeviceType) (o : MsanShadowMemory) (x : Z) : Prop :=
  ∃ sg, sg ∈ segments ty o ∧ in_segment sg x.

(** A range inside one segment. *)
Definition placed (ty : DeviceType) (o : MsanShadowMemory) (p n : Z) : Prop :=
  ∃ sg, sg ∈ segments ty o ∧ sg.1.1 <= p ∧ p + n <= sg.1.2.

(** The addresses that hold shadow. *)
Definition shadow_zone (ty : DeviceType) (o : MsanShadowMemory) (a : Z) : Prop :=
  match ty with
  | CPU => CPU_SHADOW1_BEGIN <= a < CPU_SHADOW1_END ∨ CPU_SHADOW2_BEGIN <= a < CPU_SHADOW2_END ∨
           CPU_SHADOW3_BEGIN <= a < CPU_SHADOW3_END
  | DT_UNKNOWN => False
  | _ => ShadowBegin o <= a < ShadowEnd o
  end.

(** ** Lemmas *)

Lemma elem_of_segments_CPU o sg :
  sg ∈ segments CPU o →
  sg = (0, 0x010000000000, 0x500000000000) ∨
  sg = (0x510000000000, 0x600000000000, - 0x500000000000) ∨
  sg = (0x700000000000, 0x800000000000, - 0x500000000000).
Proof. unfold segments. rewrite !elem_of_cons, elem_of_nil. tauto. Qed.

Lemma elem_of_segments_GPU ty o sg :
  is_gpu ty = true → sg ∈ segments ty o →
  sg = (device_first ty, ShadowBegin o, ShadowBegin o - device_first ty) ∨
  sg = (ShadowEnd o, device_last ty, ShadowEnd o - device_last ty).
Proof.
  intros Hg. destruct ty; try done; unfold segments; rewrite !elem_of_cons, elem_of_nil; tauto.
Qed.

Lemma land_high_part x q n :
  0 <= n → Z.land x (Z.shiftl q n) = Z.shiftl (Z.land (Z.shiftr x n) q) n.
Proof.
  intros Hn. apply Z.bits_inj'. intros i Hi.
  rewrite Z.land_spec, !Z.shiftl_spec by lia.
  destruct (Z.lt_ge_cases i n).
  - rewrite !(Z.testbit_neg_r _ (i - n)) by lia. apply andb_false_r.
  - rewrite Z.land_spec, Z.shiftr_spec by lia. by replace (i - n + n) with i by lia.
Qed.

(** The exclusive or, through the top three bits of an address. *)
Lemma MemToShadow_CPU_eq x q :
  Z.shiftr x 44 = q → MemToShadow_CPU x = x + CPU_SHADOW_MASK - 2 * Z.shiftl (Z.land q 5) 44.
Proof.
  intros Hq. unfold MemToShadow_CPU.
  pose proof (Z.add_lxor_2land x CPU_SHADOW_MASK) as H.
  change CPU_SHADOW_MASK with (Z.shiftl 5 44) in H at 2.
  rewrite land_high_part, Hq in H by lia. lia.
Qed.

Lemma shiftr44 x q : q * 2 ^ 44 <= x < (q + 1) * 2 ^ 44 → Z.shiftr x 44 = q.
Proof.
  intros H. rewrite Z.shiftr_div_pow2 by lia. symmetry.
  apply (Z.div_unique x (2 ^ 44) q (x - q * 2 ^ 44)); lia.
Qed.

(** A segment moves as a whole. *)
Lemma MemToShadow_segment ty k o sg x :
  layout_ok ty k o → sg ∈ segments ty o → in_segment sg x → MemToShadow ty o x = x + sg.2.
Proof.
  intros Hl Hs Hx. destruct ty; [done|..].
  - apply elem_of_segments_CPU in Hs as [-> | [-> | ->]]; unfold in_segment in Hx; cbn in *.
    + rewrite (MemToShadow_CPU_eq x 0) by (apply shiftr44; lia). unfold CPU_SHADOW_MASK.
      change (Z.shiftl (Z.land 0 5) 44) with 0. lia.
    + rewrite (MemToShadow_CPU_eq x 5) by (apply shiftr44; lia). unfold CPU_SHADOW_MASK.
      change (Z.shiftl (Z.land 5 5) 44) with 0x500000000000. lia.
    + rewrite (MemToShadow_CPU_eq x 7) by (apply shiftr44; lia). unfold CPU_SHADOW_MASK.
      change (Z.shiftl (Z.land 7 5) 44) with 0x500000000000. lia.
  - destruct Hl as (Hb & He & Ht & _). cbn in Hb, He, Ht.
    apply (elem_of_segments_GPU GPU_PVC) in Hs as [-> | ->]; [..|done];
      unfold in_segment in Hx; cbn in *; unfold MemToShadow_PVC.
    + rewrite (proj2 (Z.ltb_lt _ _)) by lia. rewrite (w64_small (_ - _)) by lia.
      rewrite w64_small by lia. lia.
    + rewrite (proj2 (Z.ltb_ge _ _)) by lia. rewrite (w64_small (0xff00ffffffffffff - _)) by lia.
      rewrite w64_small by lia. lia.
  - destruct Hl as (Hb & He & Ht & _). cbn in Hb, He, Ht.
    apply (elem_of_segments_GPU GPU_DG2) in Hs as [-> | ->]; [..|done];
      unfold in_segment in Hx; cbn in *; unfold MemToShadow_DG2.
    + rewrite (proj2 (Z.ltb_lt _ _)) by lia. rewrite (w64_small (_ - _)) by lia.
      rewrite w64_small by lia. lia.
    + rewrite (proj2 (Z.ltb_ge _ _)) by lia. rewrite (w64_small (0xffffffffffffffff - _)) by lia.
      rewrite w64_small by lia. lia.
Qed.

(** Case analysis on the segments of two addresses. *)
Ltac segment_cases :=
  repeat match goal with
  | H : _ ∈ segments CPU _ |- _ => apply elem_of_segments_CPU in H as [-> | [-> | ->]]
  | H : _ ∈ segments GPU_PVC _ |- _ => apply (elem_of_segments_GPU GPU_PVC) in H as [-> | ->]; [| |done]
  | H : _ ∈ segments GPU_DG2 _ |- _ => apply (elem_of_segments_GPU GPU_DG2) in H as [-> | ->]; [| |done]
  end; unfold in_segment in *; cbn [fst snd device_first device_last] in *.

Lemma app_address_bounds ty k o x :
  layout_ok ty k o → app_address ty o x → 0 <= x < 2 ^ 64 - 1.
Proof.
  intros Hl (sg & Hs & Hx). destruct ty; [done|..].
  - segment_cases; lia.
  - destruct Hl as (Hb & He & Ht & _). cbn in Hb, He, Ht. segment_cases; cbn; lia.
  - destruct Hl as (Hb & He & Ht & _). cbn in Hb, He, Ht. segment_cases; cbn; lia.
Qed.

Lemma MemToShadow_zone ty k o x :
  layout_ok ty k o → app_address ty o x → shadow_zone ty o (MemToShadow ty o x).
Proof.
  intros Hl (sg & Hs & Hx). rewrite (MemToShadow_segment ty k o sg x Hl Hs Hx).
  destruct ty; [done|..].
  - unfold shadow_zone, CPU_SHADOW1_BEGIN, CPU_SHADOW1_END, CPU_SHADOW2_BEGIN, CPU_SHADOW2_END,
      CPU_SHADOW3_BEGIN, CPU_SHADOW3_END. segment_cases; lia.
  - destruct Hl as (Hb & He & Ht & _). cbn in Hb, He, Ht. segment_cases; cbn; lia.
  - destruct Hl as (Hb & He & Ht & _). cbn in Hb, He, Ht. segment_cases; cbn; lia.
Qed.

Lemma MemToShadow_inj ty k o x y :
  layout_ok ty k o → app_address ty o x → app_address ty o y →
  MemToShadow ty o x = MemToShadow ty o y → x = y.
Proof.
  intros Hl (sg & Hs & Hx) (sg' & Hs' & Hy).
  rewrite (MemToShadow_segment ty k o sg x Hl Hs Hx), (MemToShadow_segment ty k o sg' y Hl Hs' Hy).
  destruct ty; [done|..].
  - segment_cases; lia.
  - destruct Hl as (Hb & He & Ht & _). cbn in Hb, He, Ht. segment_cases; cbn; lia.
  - destruct Hl as (Hb & He & Ht & _). cbn in Hb, He, Ht. segment_cases; cbn; lia.
Qed.

(** What an application uses is not shadow. *)
Lemma app_address_apart ty k o x : layout_ok ty k o → app_address ty o x → ¬ shadow_zone ty o x.
Proof.
  intros Hl (sg & Hs & Hx). destruct ty; [done|..].
  - unfold shadow_zone, CPU_SHADOW1_BEGIN, CPU_SHADOW1_END, CPU_SHADOW2_BEGIN, CPU_SHADOW2_END,
      CPU_SHADOW3_BEGIN, CPU_SHADOW3_END. segment_cases; lia.
  - destruct Hl as (Hb & He & Ht & _). cbn in Hb, He, Ht. segment_cases; cbn; lia.
  - destruct Hl as (Hb & He & Ht & _). cbn in Hb, He, Ht. segment_cases; cbn; lia.
Qed.

Lemma placed_app ty o p n x : placed ty o p n → p <= x < p + n → app_address ty o x.
Proof. intros (sg & Hs & H1 & H2) Hx. exists sg. split; [done|]. unfold in_segment. lia. Qed.

Lemma placed_contiguous ty k o p n x :
  layout_ok ty k o → placed ty o p n → p <= x < p + n →
  MemToShadow ty o x = MemToShadow ty o p + (x - p).
Proof.
  intros Hl (sg & Hs & H1 & H2) Hx.
  rewrite (MemToShadow_segment ty k o sg x Hl Hs), (MemToShadow_segment ty k o sg p Hl Hs);
    unfold in_segment; lia.
Qed.

(** ** The layout as one statement *)

(** C25: on every device type two addresses that an application may use have
    different shadow bytes, which lie in the shadow of the type and not among
    these addresses; and the shadow of a range inside one segment is a range of
    the same length. *)
Theorem shadow_layout ty k o x y :
  layout_ok ty k o → app_address ty o x → app_address ty o y →
  shadow_zone ty o (MemToShadow ty o x) ∧ ¬ app_address ty o (MemToShadow ty o x) ∧
  (MemToShadow ty o x = MemToShadow ty o y → x = y) ∧
  (∀ p n, placed ty o p n → p <= x < p + n →
     MemToShadow ty o x = MemToShadow ty o p + (x - p)).
Proof.
  intros Hl Hx Hy. pose proof (MemToShadow_zone ty k o x Hl Hx) as Hz.
  split_and!; [done| | |].
  - intros Ha. by apply (app_address_apart ty k o _ Hl Ha).
  - by apply (MemToShadow_inj ty k).
  - intros p n Hp Hr. by apply (placed_contiguous ty k o p n).
Qed.

Definition sample_shadow : MsanShadowMemory :=
  mkShadow 1 2 0xff00400000000000 (0xff00400000000000 + 0x800000000000) ∅.

Lemma shadow_layout_witness :
  shadow_zone GPU_PVC sample_shadow (MemToShadow GPU_PVC sample_shadow 0xff00000000001000) ∧
  MemToShadow GPU_PVC sample_shadow 0xff00000000001000 ≠
    MemToShadow GPU_PVC sample_shadow 0xff00f00000000000.
Proof.
  destruct (shadow_layout GPU_PVC 16 sample_shadow 0xff00000000001000 0xff00f00000000000)
    as (Hz & _ & Hinj & _).
  - cbn. split_and!; [lia|lia|lia|]. by exists 0xff0040000000.
  - eexists. split; [left|]. unfold in_segment; cbn; lia.
  - eexists. split; [right; left|]. unfold in_segment; cbn; lia.
  - split; [exact Hz|]. intros He. specialize (Hinj He). discriminate Hinj.
Defined.

(** The last address of device USM has its shadow just past the reserved range. *)
Lemma last_address_outside ty k o :
  is_gpu ty = true → layout_ok ty k o → MemToShadow ty o (device_last ty) = ShadowEnd o.
Proof.
  intros Hg Hl. destruct ty; try done; destruct Hl as (Hb & He & Ht & _); cbn in *.
  - unfold MemToShadow_PVC. rewrite (proj2 (Z.ltb_ge _ _)) by lia.
    rewrite (w64_small (0xff00ffffffffffff - ShadowEnd o)) by lia. rewrite w64_small by lia. lia.
  - unfold MemToShadow_DG2. rewrite (proj2 (Z.ltb_ge _ _)) by lia.
    rewrite (w64_small (0xffffffffffffffff - ShadowEnd o)) by lia. rewrite w64_small by lia. lia.
Qed.
