(* ===== verification/MsanMemory.v ===== *)
(** * MsanMemory: the logic of sanitizer calls, and what driver calls do to memory

    [mruns] is the program logic of the monad [M] that the sanitizers share: a run
    never halts, extends the history of driver calls, returns early with errors
    only, and ends in one of two postconditions.  [refused] says that the driver refused a call since some
    point.  [touched] and [written] are the documented effect of each driver call
    on memory; [busy] says which queues may have commands left, and whether the
    commands so far run one after the other; [DeviceMemory] has the laws that a
    driver has to meet for those that do. *)
From S2P Require Import Prelude SanCommon.

(** ** The logic *)

Section logic.
Context {S : Type}.
Implicit Types (s : S) (h : list ddi_call).

(** [Q] when the body goes on, [E] when it returns early, with an error. *)
Definition mruns {A} (m : M S A) (Q : A → S → list ddi_call → Prop) (E : S → list ddi_call → Prop)
    (s : S) (h : list ddi_call) : Prop :=
  match m s h with
  | (Go a, s', h') => h `prefix_of` h' ∧ Q a s' h'
  | (Fail r, s', h') => r ≠ UR_RESULT_SUCCESS ∧ h `prefix_of` h' ∧ E s' h'
  | (Halt _, _, _) => False
  end.

Lemma mr_ret {A} (a : A) (Q : A → S → list ddi_call → Prop) E s h :
  Q a s h → mruns (mret a) Q E s h.
Proof. by split. Qed.

Lemma mr_mono {A} (m : M S A) (Q Q' : A → S → list ddi_call → Prop) (E E' : S → list ddi_call → Prop) s h :
  mruns m Q E s h →
  (∀ a s' h', h `prefix_of` h' → Q a s' h' → Q' a s' h') →
  (∀ s' h', h `prefix_of` h' → E s' h' → E' s' h') → mruns m Q' E' s h.
Proof. unfold mruns. destruct (m s h) as [[[a|r|w] s'] h']; [naive_solver..|done]. Qed.

Lemma mr_bind {A B} (m : M S A) (f : A → M S B) Q E s h :
  mruns m (λ a s1 h1, h `prefix_of` h1 → mruns (f a) Q E s1 h1) E s h → mruns (m ≫= f) Q E s h.
Proof.
  unfold mruns, mbind, M_bind. destruct (m s h) as [[[a|r|w] s1] h1]; [|done..].
  intros [Hp H]. specialize (H Hp). destruct (f a s1 h1) as [[[b|r|w] s2] h2]; [..|done];
    destruct_and?; split_and!; (done || by etrans).
Qed.

Lemma mr_fail {A} r (Q : A → S → list ddi_call → Prop) (E : S → list ddi_call → Prop) s h :
  r ≠ UR_RESULT_SUCCESS → E s h → mruns (fail r) Q E s h.
Proof. by split. Qed.

Lemma mr_get (Q : S → S → list ddi_call → Prop) E s h : Q s s h → mruns get Q E s h.
Proof. by split. Qed.

Lemma mr_modify f (Q : unit → S → list ddi_call → Prop) E s h : Q tt (f s) h → mruns (modify f) Q E s h.
Proof. by split. Qed.

Lemma mr_deref {A} (o : option A) a (Q : A → S → list ddi_call → Prop) E s h :
  o = Some a → Q a s h → mruns (deref o) Q E s h.
Proof. intros -> H. by split. Qed.

Lemma mr_call drv c (Q : ur_result_t * Z → S → list ddi_call → Prop) E s h :
  Q (drv h c) s (h ++ [c]) → mruns (call drv c) Q E s h.
Proof. split; [by apply prefix_app_r|done]. Qed.

Lemma mr_UR_CALL drv c (Q : Z → S → list ddi_call → Prop) (E : S → list ddi_call → Prop) s h :
  (∀ v, drv h c = (UR_RESULT_SUCCESS, v) → Q v s (h ++ [c])) →
  ((drv h c).1 ≠ UR_RESULT_SUCCESS → E s (h ++ [c])) → mruns (UR_CALL drv c) Q E s h.
Proof.
  intros HQ HE. unfold mruns, UR_CALL, call, mbind, M_bind. destruct (drv h c) as [r v] eqn:Hd. cbn.
  case_decide as Hr; cbn in *; [|split_and!; [done|by apply prefix_app_r|by apply HE]].
  split; [by apply prefix_app_r|]. apply HQ. by rewrite <- Hr.
Qed.

Lemma mr_try {A} (m : M S A) (Q : ur_result_t → S → list ddi_call → Prop) (E : S → list ddi_call → Prop) s h :
  mruns m (λ _ s' h', Q UR_RESULT_SUCCESS s' h') (λ s' h', ∀ r, r ≠ UR_RESULT_SUCCESS → Q r s' h') s h →
  mruns (try m) Q E s h.
Proof. unfold mruns, try. destruct (m s h) as [[[a|r|w] s'] h']; naive_solver. Qed.

Lemma mr_eqn {A} (m : M S A) (Q : A → S → list ddi_call → Prop) (E : S → list ddi_call → Prop) s h :
  mruns m Q E s h → mruns m (λ a s' h', m s h = (Go a, s', h') ∧ Q a s' h') E s h.
Proof. unfold mruns. destruct (m s h) as [[[a|r|w] s'] h']; naive_solver. Qed.

Lemma mr_assoc {A B C} (m : M S A) (f : A → M S B) (g : B → M S C) Q E s h :
  mruns (m ≫= λ a, f a ≫= g) Q E s h → mruns ((m ≫= f) ≫= g) Q E s h.
Proof.
  unfold mruns, mbind, M_bind. by destruct (m s h) as [[[a|r|w] s1] h1].
Qed.
End logic.

(** One step of a body. *)
Ltac mr_step :=
  lazymatch goal with
  | |- mruns (mret _) _ _ _ _ => apply mr_ret
  | |- mruns ((_ ≫= _) ≫= _) _ _ _ _ => apply mr_assoc
  | |- mruns (_ ≫= _) _ _ _ _ => apply mr_bind
  | |- mruns get _ _ _ _ => apply mr_get
  | |- mruns (modify _) _ _ _ _ => apply mr_modify
  | |- mruns (deref _) _ _ _ _ => eapply mr_deref; [first [eassumption|reflexivity]|]
  | |- mruns (call _ _) _ _ _ _ => apply mr_call
  | |- _ `prefix_of` _ → _ => intros ?
  end.
Ltac mr_steps := repeat mr_step.

(** ** Refused calls *)

(** A call after [h0] that the driver refused. *)
Definition refused (drv : driver) (h0 h : list ddi_call) : Prop :=
  ∃ pre c, (pre ++ [c]) `prefix_of` h ∧ h0 `prefix_of` pre ∧ (drv pre c).1 ≠ UR_RESULT_SUCCESS.

Lemma refused_last drv h0 h c :
  h0 `prefix_of` h → (drv h c).1 ≠ UR_RESULT_SUCCESS → refused drv h0 (h ++ [c]).
Proof. intros Hp Hr. by exists h, c. Qed.

Lemma refused_mono drv h0 h1 h h' :
  refused drv h1 h → h0 `prefix_of` h1 → h `prefix_of` h' → refused drv h0 h'.
Proof. intros (pre & c & Hp & H1 & Hr) H0 Hh. exists pre, c. split_and!; [by etrans|by etrans|done]. Qed.

(** ** The documented effect of a call on memory *)

Definition flat_in (n o : Z) : bool := (0 <=? o) && (o <? n).
Definition rect_in (pitch width height o : Z) : bool :=
  (0 <=? o) && (o / pitch <? height) && (o mod pitch <? width).

(** The bytes whose contents may change. *)
Definition touched (c : ddi_call) (x : Z) : bool :=
  match c with
  | Enqueue_USMFill _ a _ n => flat_in n (x - a)
  | Enqueue_Fill _ a _ n _ _ => flat_in n (x - a)
  | Enqueue_Memcpy _ _ d _ n _ _ => flat_in n (x - d)
  | Enqueue_Fill2D _ a pitch _ w ht _ _ => rect_in pitch w ht (x - a)
  | Enqueue_Memcpy2D _ _ d dp _ _ w ht _ _ => rect_in dp w ht (x - d)
  | Host_Memset a _ n => flat_in n (x - a)
  | VirtualMem_Map _ a n _ | VirtualMem_Unmap _ a n | VirtualMem_Free _ a n => flat_in n (x - a)
  | Os_Mmap a n _ | Os_Munmap a n => flat_in n (x - a)
  | _ => false
  end.

(** Where a copy takes the byte at [x] from. *)
Definition source (c : ddi_call) (x : Z) : option Z :=
  match c with
  | Enqueue_Memcpy _ _ d s _ _ _ => Some (s + (x - d))
  | Enqueue_Memcpy2D _ _ d dp s sp _ _ _ _ => Some (s + ((x - d) / dp * sp + (x - d) mod dp))
  | _ => None
  end.

(** What a write leaves at [x], from the memory [m] before. *)
Definition written (m : Z → Z) (c : ddi_call) (x : Z) : option Z :=
  match c with
  | Enqueue_USMFill _ _ v _ | Host_Memset _ v _ => Some v
  | Enqueue_Fill _ a pat _ _ _ => pat !! Z.to_nat ((x - a) mod Z.of_nat (length pat))
  | Enqueue_Fill2D _ a pitch pat _ _ _ _ =>
      pat !! Z.to_nat ((x - a) mod pitch mod Z.of_nat (length pat))
  | Enqueue_Memcpy _ _ _ _ _ _ _ | Enqueue_Memcpy2D _ _ _ _ _ _ _ _ _ _ => m <$> source c x
  | _ => None
  end.

(** A copy that does not overlap. *)
Definition apart (c : ddi_call) : Prop :=
  ∀ x y, touched c x = true → touched c y = true → source c y ≠ Some x.

(** Commands without a source do not overlap. *)
Lemma apart_fill c : (∀ x, source c x = None) → apart c.
Proof. intros H x y _ _. by rewrite H. Qed.

Lemma flat_in_spec n o : flat_in n o = true ↔ 0 <= o < n.
Proof. unfold flat_in. rewrite andb_true_iff, Z.leb_le, Z.ltb_lt. lia. Qed.

(** ** Queues

    A command that is enqueued runs some time later.  Commands of one in-order
    queue run in the order of the calls; the order of commands of two queues
    depends on waits, which are left out here. *)

(** The queue of a command on memory, and whether the call waits for it. *)
Definition command_queue (c : ddi_call) : option Z :=
  match c with
  | Enqueue_USMFill q _ _ _ | Enqueue_Fill q _ _ _ _ _ | Enqueue_Memcpy q _ _ _ _ _ _
  | Enqueue_Fill2D q _ _ _ _ _ _ _ | Enqueue_Memcpy2D q _ _ _ _ _ _ _ _ _ => Some q
  | _ => None
  end.
Definition is_blocking (c : ddi_call) : bool :=
  match c with Enqueue_Memcpy _ b _ _ _ _ _ | Enqueue_Memcpy2D _ b _ _ _ _ _ _ _ _ => b | _ => false end.

Section queues.
Context (drv : driver) (in_order : Z → bool).

(** The queues that may have commands left after a call, from those [p] before;
    [None] when it is not known that the commands run one after the other: a
    command on a queue that is not in-order or while another queue has commands
    left, a write by the host while a queue has. *)
Definition order (h : list ddi_call) (p : gset Z) (c : ddi_call) : option (gset Z) :=
  let ok := bool_decide ((drv h c).1 = UR_RESULT_SUCCESS) in
  match command_queue c with
  | Some q =>
      if ok then
        if bool_decide (p ⊆ {[q]}) && in_order q then Some (if is_blocking c then ∅ else {[q]}) else None
      else Some p
  | None =>
      match c with
      | Host_Memset _ _ _ => if bool_decide (p = ∅) then Some ∅ else None
      | Queue_Finish q => Some (if ok then p ∖ {[q]} else p)
      | _ => Some p
      end
  end.

(** The last call first. *)
Fixpoint busy_rev (r : list ddi_call) : option (gset Z) :=
  match r with [] => Some ∅ | c :: r' => p ← busy_rev r'; order (reverse r') p c end.
Definition busy (h : list ddi_call) : option (gset Z) := busy_rev (reverse h).

Lemma busy_snoc h c : busy (h ++ [c]) = p ← busy h; order h p c.
Proof. unfold busy. rewrite reverse_snoc. cbn. by rewrite reverse_involutive. Qed.

Lemma busy_before h c : is_Some (busy (h ++ [c])) → is_Some (busy h).
Proof. rewrite busy_snoc. destruct (busy h); [eauto|by intros [? ?]]. Qed.
End queues.

(** ** Memory *)

(** Answers that the code does not look at, or only asserts. *)
Class Answers (drv : driver) (page : Z) := {
  memset_succeeds h a v n : (drv h (Host_Memset a v n)).1 = UR_RESULT_SUCCESS;
  page_size h c d : (drv h (VirtualMem_Granularity c d)).2 = page
}.

(** [mem h] is the memory once the commands of [h] have run, where [zone] holds;
    nothing is known of it unless they run one after the other.  Queues are
    created in-order. *)
Class DeviceMemory (drv : driver) (mem : list ddi_call → Z → Z) (in_order : Z → bool) (zone : Z → Prop)
    (page : Z) := {
  device_answers :: Answers drv page;
  created_in_order h ctx dev : in_order (drv h (Queue_Create ctx dev)).2 = true;
  mem_keeps h c x :
    is_Some (busy drv in_order (h ++ [c])) → zone x → touched c x = false → mem (h ++ [c]) x = mem h x;
  mem_writes h c x v :
    is_Some (busy drv in_order (h ++ [c])) → (drv h c).1 = UR_RESULT_SUCCESS → apart c → zone x →
    touched c x = true → written (mem h) c x = Some v → mem (h ++ [c]) x = v
}.

(** *** Call by call

    A memory that takes each call in turn is one for all histories, which makes the
    lemmas simpler; on those whose commands run one after the other it is the
    memory of the driver ([serial_ordered]). *)
Class SerialMemory (drv : driver) (view : list ddi_call → Z → Z) (zone : Z → Prop) (page : Z) := {
  serial_answers :: Answers drv page;
  call_keeps h c x : zone x → touched c x = false → view (h ++ [c]) x = view h x;
  call_writes h c x v :
    (drv h c).1 = UR_RESULT_SUCCESS → apart c → zone x → touched c x = true →
    written (view h) c x = Some v → view (h ++ [c]) x = v
}.

(** The calls in turn. *)
Definition replay_call (m : Z → Z) (c : ddi_call) : Z → Z := λ x,
  if touched c x then default (m x) (written m c x) else m x.
Definition replay (h : list ddi_call) : Z → Z := foldl replay_call (λ _, 0) h.

Lemma replay_snoc h c : replay (h ++ [c]) = replay_call (replay h) c.
Proof. unfold replay. by rewrite foldl_snoc. Qed.

Lemma replay_keeps m c x : touched c x = false → replay_call m c x = m x.
Proof. unfold replay_call. by intros ->. Qed.
Lemma replay_writes m c x v : touched c x = true → written m c x = Some v → replay_call m c x = v.
Proof. unfold replay_call. by intros -> ->. Qed.

Lemma replay_SerialMemory drv zone page : Answers drv page → SerialMemory drv replay zone page.
Proof.
  constructor; [done|..]; intros *; rewrite replay_snoc; intros; [by apply replay_keeps|by apply replay_writes].
Qed.

Lemma replay_DeviceMemory drv zone page : Answers drv page → DeviceMemory drv replay (λ _, true) zone page.
Proof.
  constructor; [done|done|..]; intros *; rewrite replay_snoc; intros; [by apply replay_keeps|by apply replay_writes].
Qed.

(** The memory of the driver, with the calls in turn from where it is not known. *)
Fixpoint serial_rev (drv : driver) (in_order : Z → bool) (mem : list ddi_call → Z → Z) (r : list ddi_call)
  : Z → Z :=
  match r with
  | [] => mem []
  | c :: r' =>
      match busy_rev drv in_order (c :: r') with
      | Some _ => mem (reverse (c :: r'))
      | None => replay_call (serial_rev drv in_order mem r') c
      end
  end.
Definition serial drv in_order mem (h : list ddi_call) : Z → Z := serial_rev drv in_order mem (reverse h).

Section serial.
Context (drv : driver) (mem : list ddi_call → Z → Z) (in_order : Z → bool) (zone : Z → Prop) (page : Z).
#[local] Abbreviation busy := (busy drv in_order).
#[local] Abbreviation serial := (serial drv in_order mem).

Lemma serial_ordered h : is_Some (busy h) → serial h = mem h.
Proof.
  unfold MsanMemory.serial, MsanMemory.busy. rewrite <- (reverse_involutive h) at 3.
  destruct (reverse h) as [|c r]; [done|]. cbn [serial_rev].
  by destruct (busy_rev drv in_order (c :: r)); [|intros [? ?]].
Qed.

Lemma serial_snoc h c : busy (h ++ [c]) = None → serial (h ++ [c]) = replay_call (serial h) c.
Proof.
  unfold MsanMemory.serial, MsanMemory.busy. rewrite reverse_snoc. cbn [serial_rev]. by intros ->.
Qed.

Lemma serial_SerialMemory : DeviceMemory drv mem in_order zone page → SerialMemory drv serial zone page.
Proof.
  intros HD. constructor; [apply HD|..]; intros h c x *; destruct (busy (h ++ [c])) as [p|] eqn:Hb.
  - assert (is_Some (busy (h ++ [c]))) as Hs by eauto. pose proof (busy_before _ _ _ _ Hs).
    rewrite !serial_ordered by done. intros. by apply mem_keeps.
  - rewrite serial_snoc by done. intros _. apply replay_keeps.
  - assert (is_Some (busy (h ++ [c]))) as Hs by eauto. pose proof (busy_before _ _ _ _ Hs).
    rewrite !serial_ordered by done. intros. by eapply mem_writes.
  - rewrite serial_snoc by done. intros _ _ _. apply replay_writes.
Qed.
End serial.
