(* ===== verification/MsanPoison.v ===== *)
(** * MsanPoison: writing the shadow of a range

    What [EnqueuePoisonShadow] leaves, for the shadow memory of either kind: the
    shadow of the range holds the value, pages are mapped as needed, and nothing
    that is mapped elsewhere changes, also when the driver refuses a call; the
    loop over the pages ends. *)
From S2P Require Import Prelude SanCommon MsanState MsanShadow MsanLayout MsanMemory.

(** The reserved range of the shadow memory of type [ty] in a state, once it is
    set up: the fields that never change again. *)
Definition set_up (ty : DeviceType) (b e : Z) (s : msan) : Prop :=
  ∃ o, objects s ty = Some o ∧ ShadowBegin o = b ∧ ShadowEnd o = e.

Definition maps_of (ty : DeviceType) (s : msan) : gmap Z (Z * gset Z) :=
  default ∅ (VirtualMemMaps <$> objects s ty).

(** States that differ in the mapped pages of one shadow memory only, and have
    no fewer of them. *)
Definition grown (ty : DeviceType) (s s' : msan) : Prop :=
  statics s' = statics s ∧ m_ContextMap s' = m_ContextMap s ∧ m_DeviceMap s' = m_DeviceMap s ∧
  m_AllocationMap s' = m_AllocationMap s ∧ store s' = store s ∧
  m_MemBufferMap s' = m_MemBufferMap s ∧ buffers s' = buffers s ∧ next_id s' = next_id s ∧
  (∀ t, t ≠ ty → objects s' t = objects s t) ∧
  (∀ b e, set_up ty b e s → set_up ty b e s') ∧
  (∀ P, is_Some (maps_of ty s !! P) → is_Some (maps_of ty s' !! P)).

#[export] Instance grown_refl ty : Reflexive (grown ty).
Proof. intros s. by split_and!. Qed.
#[export] Instance grown_trans ty : Transitive (grown ty).
Proof.
  intros s1 s2 s3 (A1 & A2 & A3 & A4 & A5 & A6 & A7 & A8 & A9 & A10 & A11)
    (B1 & B2 & B3 & B4 & B5 & B6 & B7 & B8 & B9 & B10 & B11).
  split_and!; try (by etrans); [|by auto..].
  intros t Ht. rewrite (B9 t Ht). by apply A9.
Qed.

Lemma grown_update ty s o m :
  objects s ty = Some o → (∀ P, is_Some (VirtualMemMaps o !! P) → is_Some (m !! P)) →
  grown ty s (set_object ty (set_maps m o) s).
Proof.
  intros Ho Hm. split_and!; try done.
  - intros t Ht. cbn. by rewrite decide_False.
  - intros b e (o' & Ho' & Hb & He). rewrite Ho in Ho'. injection Ho' as <-.
    exists (set_maps m o). split_and!; [|done|done]. cbn. by rewrite decide_True.
  - intros P. unfold maps_of. cbn. rewrite decide_True, Ho by done. cbn. apply Hm.
Qed.

Lemma maps_of_update ty s o : maps_of ty (set_object ty o s) = VirtualMemMaps o.
Proof. unfold maps_of. cbn. by rewrite decide_True. Qed.

Section poison.
Context (drv : driver) (view : list ddi_call → Z → Z) (ty : DeviceType) (k SB SE : Z).

(** The set-up shadow memory, without its pages. *)
Definition range : MsanShadowMemory := mkShadow 0 0 SB SE ∅.
#[local] Abbreviation page := (2 ^ k).
#[local] Abbreviation m2s := (MemToShadow ty range).
#[local] Abbreviation zone := (shadow_zone ty range).
#[local] Abbreviation app := (app_address ty range).


(** The page of a shadow byte is mapped; host shadow always is. *)
Definition mapped (s : msan) (a : Z) : Prop :=
  is_gpu ty = true → is_Some (maps_of ty s !! (a - a mod page)).

Lemma MemToShadow_set_up s :
  set_up ty SB SE s → ∃ o, objects s ty = Some o ∧ ∀ y, MemToShadow ty o y = m2s y.
Proof.
  intros (o & Ho & Hb & He). exists o. split; [done|]. intros y.
  destruct ty; unfold MemToShadow; cbn; by rewrite ?Hb, ?He.
Qed.

Lemma zone_gpu a : is_gpu ty = true → zone a → SB <= a < SE.
Proof. by destruct ty. Qed.

Context (Hk : 0 <= k <= 46) (Hl : layout_ok ty k range).

Lemma page_bounds : 0 < page <= 2 ^ 46.
Proof. split; [apply Z.pow_pos_nonneg; lia|apply Z.pow_le_mono_r; lia]. Qed.

Lemma gpu_range : is_gpu ty = true → 0 <= SB ∧ SE < 2 ^ 64 ∧ (page | SB) ∧ (page | SE).
Proof.
  intros Hg. pose proof page_bounds as Hp. pose proof Hl as Hl'.
  destruct ty; try done; cbn in Hl'; destruct Hl' as (Hb & He & Ht & Hd).
  - split_and!; [lia|lia|done|]. rewrite He. apply Z.divide_add_r; [done|].
    exists (2 ^ (47 - k)). rewrite <- Z.pow_add_r by lia. by replace (47 - k + k) with 47 by lia.
  - split_and!; [lia|lia|done|]. rewrite He. apply Z.divide_add_r; [done|].
    exists (2 ^ (46 - k)). rewrite <- Z.pow_add_r by lia. by replace (46 - k + k) with 46 by lia.
Qed.

Lemma page_down a b :
  a <= b → a - a mod page <= b - b mod page <= b ∧ (page | b - b mod page).
Proof.
  intros Hab. pose proof page_bounds. pose proof (Z.mod_pos_bound b page ltac:(lia)).
  pose proof (Z.mod_eq a page ltac:(lia)) as Ha. pose proof (Z.mod_eq b page ltac:(lia)) as Hb.
  pose proof (Z.mul_le_mono_nonneg_l _ _ page ltac:(lia) (Z.div_le_mono a b page ltac:(lia) Hab)).
  split; [lia|]. exists (b / page). lia.
Qed.

(** An aligned page either holds a byte or not. *)
Lemma page_of P x : (page | P) → flat_in page (x - P) = true → x - x mod page = P.
Proof.
  intros [z ->] [H1 H2]%flat_in_spec. pose proof page_bounds.
  rewrite (Z.mod_eq x page) by lia. replace (x / page) with z; [lia|].
  apply (Z.div_unique x page z (x - z * page)); lia.
Qed.

Context `{HD : !SerialMemory drv view zone page}.

(** Memory that a call may not change. *)
Definition kept (s : msan) (h h' : list ddi_call) : Prop :=
  ∀ a, zone a → mapped s a → view h' a = view h a.

Lemma kept_refl s h : kept s h h.
Proof. done. Qed.

Lemma kept_bytes_trans s s' h h1 h2 : grown ty s s' → kept s h h1 → kept s' h1 h2 → kept s h h2.
Proof.
  intros (_ & _ & _ & _ & _ & _ & _ & _ & _ & _ & Hg) H1 H2 a Hz Hm.
  rewrite H2; [by apply H1|done|]. intros Hgp. apply Hg, Hm, Hgp.
Qed.

(** A call that writes one page that is not mapped yet, or nothing. *)
Lemma kept_call s h c P :
  (page | P) → maps_of ty s !! P = None → is_gpu ty = true →
  (∀ x, touched c x = true → flat_in page (x - P) = true) → kept s h (h ++ [c]).
Proof.
  intros HP Hn Hg Ht a Hz Hm. destruct (touched c a) eqn:Hc; [|by apply call_keeps].
  exfalso. specialize (Ht a Hc). apply (page_of P a HP) in Ht.
  destruct (Hm Hg) as [e He]. rewrite Ht, Hn in He. discriminate.
Qed.

Lemma kept_quiet s h c : (∀ x, touched c x = false) → kept s h (h ++ [c]).
Proof. intros Ht a Hz _. by apply call_keeps. Qed.

Lemma kept_snoc s h h1 c : kept s h h1 → kept s h1 (h1 ++ [c]) → kept s h (h1 ++ [c]).
Proof. intros H1 H2. by eapply (kept_bytes_trans s s). Qed.

(** ** Mapping pages *)

Lemma map_new_page_runs q P wl out s h0 h :
  is_gpu ty = true → set_up ty SB SE s → (page | P) → h0 `prefix_of` h →
  mruns (map_new_page drv ty q P page wl out)
    (λ _ s' h', grown ty s s' ∧ kept s h h' ∧ is_Some (maps_of ty s' !! P))
    (λ s' h', grown ty s s' ∧ kept s h h' ∧ refused drv h0 h') s h.
Proof.
  intros Hg (o & Ho & Hb & He) HP Hh. unfold map_new_page, obj. mr_steps.
  assert (maps_of ty s = VirtualMemMaps o) as Hmo by (unfold maps_of; by rewrite Ho).
  destruct (VirtualMemMaps o !! P) as [e|] eqn:HPo.
  { apply mr_ret. split_and!; [done|done|]. rewrite Hmo, HPo. eauto. }
  assert (∀ c, (∀ x, touched c x = true → flat_in page (x - P) = true) → ∀ h, kept s h (h ++ [c]))
    as Hkc by (intros c Hc h1; eapply kept_call; [done|by rewrite Hmo|done|done]).
  assert (kept s h (h ++ [PhysicalMem_Create (Sh_Context o) (Sh_Device o) page])) as Hk1
    by (by apply kept_quiet).
  apply mr_bind, mr_UR_CALL; [|intros Hr; split_and!; [done|done|by apply refused_last]].
  intros ph _ Hp1.
  assert (∀ c, (∀ x, touched c x = true → flat_in page (x - P) = true) →
               kept s h ((h ++ [PhysicalMem_Create (Sh_Context o) (Sh_Device o) page]) ++ [c])) as Hk2
    by (intros c Hc; apply kept_snoc; [done|by apply Hkc]).
  apply mr_bind, mr_UR_CALL.
  2: { intros Hr. split_and!; [done|by apply Hk2|apply refused_last; [by etrans|done]]. }
  intros ? _ Hp2.
  assert (kept s h (((h ++ [PhysicalMem_Create (Sh_Context o) (Sh_Device o) page]) ++
                     [VirtualMem_Map (Sh_Context o) P page ph]) ++
                     [Enqueue_Fill q P [u8 0] page wl out])) as Hk3
    by (apply kept_snoc; [by apply Hk2|by apply Hkc]).
  apply mr_bind, mr_UR_CALL.
  2: { intros Hr. split_and!; [done|done|].
       apply refused_last; [by repeat (etrans; [eassumption|])|done]. }
  intros ev _ Hp3. unfold upd, obj. mr_steps. split_and!.
  - unfold set_physical. apply grown_update; [done|]. intros P' HP'. rewrite lookup_insert_is_Some'. auto.
  - done.
  - rewrite maps_of_update. unfold set_physical, set_maps. cbn. by rewrite lookup_insert_eq.
Qed.

Lemma map_shadow_page_runs q p P wl out s h0 h :
  is_gpu ty = true → set_up ty SB SE s → (page | P) → h0 `prefix_of` h →
  mruns (map_shadow_page drv ty q p P page wl out)
    (λ _ s' h', grown ty s s' ∧ kept s h h' ∧ is_Some (maps_of ty s' !! P))
    (λ s' h', grown ty s s' ∧ kept s h h' ∧ refused drv h0 h') s h.
Proof.
  intros Hg Hs HP Hh. unfold map_shadow_page. apply mr_bind.
  eapply mr_mono; [by apply map_new_page_runs|..|done].
  intros wl' s1 h1 _ (Hgr & Hkept & Hm) _. mr_steps.
  destruct (findAllocInfoByAddress s1 p) as [[[It id] ai]|]; mr_steps; [|done].
  pose proof Hgr as (_ & _ & _ & _ & _ & _ & _ & _ & _ & Hup & _).
  destruct (Hup _ _ Hs) as (o & Ho & _). unfold upd, obj. mr_steps.
  assert (grown ty s1 (set_object ty (add_user P id o) s1)) as Hg2.
  { unfold add_user. apply grown_update; [done|]. intros P' HP'. rewrite lookup_insert_is_Some'. auto. }
  split_and!; [by etrans|done|]. by apply Hg2.
Qed.

Lemma map_shadow_pages_runs fuel q p P last wl out s h0 h :
  is_gpu ty = true → set_up ty SB SE s → (page | P) → 0 <= P → last < SE → h0 `prefix_of` h →
  last - P < Z.of_nat fuel * page →
  mruns (map_shadow_pages drv ty fuel q p P last page wl out)
    (λ _ s' h', grown ty s s' ∧ kept s h h' ∧
       ∀ P', P <= P' <= last → (page | P') → is_Some (maps_of ty s' !! P'))
    (λ s' h', grown ty s s' ∧ kept s h h' ∧ refused drv h0 h') s h.
Proof.
  intros Hg. pose proof page_bounds as Hpg. destruct (gpu_range Hg) as (HSB & HSE & _ & HdE).
  revert P wl s h. induction fuel as [|fuel IH]; intros P wl s h Hs HP HP0 Hlast Hh Hf;
    cbn [map_shadow_pages]; (destruct (Z.leb_spec P last) as [Hle|Hgt];
     [|apply mr_ret; split_and!; try done; intros; lia]); [lia|].
  apply mr_bind. eapply mr_mono; [by apply map_shadow_page_runs|..|done].
  intros wl1 s1 h1 Hp1 (Hg1 & Hk1 & Hm1) _.
  assert (P + page <= SE) as HPS.
  { destruct HP as [z ->], HdE as [z' ->]. assert (z < z') by nia. nia. }
  rewrite w64_small by lia.
  assert (set_up ty SB SE s1) as Hs1 by (by apply Hg1).
  eapply mr_mono; [apply (IH (P + page) wl1 s1 h1 Hs1)|..].
  - apply Z.divide_add_r; [done|apply Z.divide_refl].
  - lia.
  - done.
  - by etrans.
  - lia.
  - intros wl2 s2 h2 Hp2 (Hg2 & Hk2 & Hm2). split_and!; [by etrans|by eapply kept_bytes_trans|].
    intros P' Hb' HP'. destruct (decide (P' = P)) as [->|Hne]; [by apply Hg2|].
    apply Hm2; [|done]. destruct HP as [z ->], HP' as [z' ->]. split; [|lia].
    assert (z + 1 <= z') by nia. nia.
  - intros s2 h2 Hp2 (Hg2 & Hk2 & Hr2). split_and!; [by etrans|by eapply kept_bytes_trans|done].
Qed.

(** ** Writing the shadow of a range *)

(** The shadow outside [p, p + n) is as before where it was mapped. *)
Definition spared (p n : Z) (s : msan) (h h' : list ddi_call) : Prop :=
  ∀ x, app x → ¬ (p <= x < p + n) → mapped s (m2s x) → view h' (m2s x) = view h (m2s x).

(** What poisoning [p, p + n) with [v] leaves. *)
Definition poisoned (p n v : Z) (s s' : msan) (h h' : list ddi_call) : Prop :=
  (∀ x, p <= x < p + n → mapped s' (m2s x) ∧ view h' (m2s x) = v) ∧ spared p n s h h'.

Lemma m2s_zone x : app x → zone (m2s x).
Proof. apply (MemToShadow_zone ty k). exact Hl. Qed.

(** The shadow of a placed range, as an interval. *)
Lemma m2s_range p n x :
  placed ty range p n → 0 < n → app x →
  flat_in n (m2s x - m2s p) = bool_decide (p <= x < p + n).
Proof.
  intros Hp Hn Hx. case_bool_decide as Hr.
  - apply flat_in_spec. rewrite (placed_contiguous ty k _ p n x) by done. lia.
  - destruct (flat_in n (m2s x - m2s p)) eqn:Hf; [|done]. apply flat_in_spec in Hf. exfalso. apply Hr.
    assert (x = p + (m2s x - m2s p)) as ->; [|lia].
    assert (p <= p + (m2s x - m2s p) < p + n) as Hb by lia.
    apply (MemToShadow_inj ty k range); [done|done|by eapply placed_app|].
    rewrite (placed_contiguous ty k _ p n (p + _)) by done. lia.
Qed.

Lemma kept_m2s s h h' x : kept s h h' → app x → mapped s (m2s x) → view h' (m2s x) = view h (m2s x).
Proof. intros Hkept Hx Hm. apply Hkept; [by apply m2s_zone|done]. Qed.

Lemma written_byte m q a v n wl out x : written m (Enqueue_Fill q a [v] n wl out) x = Some v.
Proof. cbn [written length]. by rewrite Z.mod_1_r. Qed.

Lemma spared_kept p n s h h' : kept s h h' → spared p n s h h'.
Proof. intros Hkept x Hx _ Hm. by apply (kept_m2s s). Qed.

(** A call that writes the shadow of the range and nothing else. *)
Lemma spared_call p n s h h1 c :
  placed ty range p n → 0 < n → kept s h h1 →
  (∀ x, touched c x = flat_in n (x - m2s p)) → spared p n s h (h1 ++ [c]).
Proof.
  intros Hp Hn Hkept Hc x Hx Hr Hm. rewrite call_keeps; [by apply (kept_m2s s)|by apply m2s_zone|].
  rewrite Hc, m2s_range by done. by rewrite bool_decide_false.
Qed.

Lemma written_call p n s v h c :
  placed ty range p n → 0 < n → (drv h c).1 = UR_RESULT_SUCCESS → (∀ x, source c x = None) →
  (∀ x, touched c x = flat_in n (x - m2s p)) → (∀ x, written (view h) c x = Some v) →
  (∀ x, p <= x < p + n → mapped s (m2s x)) →
  ∀ x, p <= x < p + n → mapped s (m2s x) ∧ view (h ++ [c]) (m2s x) = v.
Proof.
  intros Hp Hn Hr Hs Hc Hw Hm x Hx. pose proof (placed_app ty _ p n x Hp Hx) as Ha.
  split; [by apply Hm|]. apply call_writes; [done|by apply apart_fill|by apply m2s_zone| |done].
  rewrite Hc, m2s_range by done. by rewrite bool_decide_true.
Qed.

(** Waiting for events changes nothing. *)
Lemma events_wait_runs q wl out (Q : Z → msan → list ddi_call → Prop) (E : msan → list ddi_call → Prop) s h0 h :
  h0 `prefix_of` h → (∀ v, Q v s h) →
  (∀ v, Q v s (h ++ [Enqueue_EventsWait q wl true])) →
  (refused drv h0 (h ++ [Enqueue_EventsWait q wl true]) → E s (h ++ [Enqueue_EventsWait q wl true])) →
  mruns (events_wait drv q wl out) Q E s h.
Proof.
  intros Hh H1 H2 H3. unfold events_wait. destruct out; [|by apply mr_ret].
  apply mr_UR_CALL; [done|]. intros Hr. by apply H3, refused_last.
Qed.

Lemma view_quiet h c x : (∀ y, touched c y = false) → app x → view (h ++ [c]) (m2s x) = view h (m2s x).
Proof. intros Ht Hx. apply call_keeps; [by apply m2s_zone|done]. Qed.

Lemma poisoned_quiet p n v s s' h h' c :
  (∀ y, touched c y = false) → 0 < n → placed ty range p n →
  poisoned p n v s s' h h' → poisoned p n v s s' h (h' ++ [c]).
Proof.
  intros Ht Hn Hp [H1 H2]. split.
  - intros x Hx. destruct (H1 x Hx) as [Hm Hv]. split; [done|].
    rewrite view_quiet; [done|done|by eapply placed_app].
  - intros x Hx Hr Hm. rewrite view_quiet by done. by apply H2.
Qed.

(** The shadow of the first and of the last byte. *)
Lemma m2s_ends p n :
  placed ty range p n → 0 < n →
  0 <= p ∧ p + n < 2 ^ 64 ∧ m2s (p + n - 1) = m2s p + (n - 1) ∧ zone (m2s p) ∧ zone (m2s p + (n - 1)).
Proof.
  intros Hp Hn.
  assert (app p) as Hap by (eapply placed_app; [done|lia]).
  assert (app (p + n - 1)) as Hae by (eapply placed_app; [done|lia]).
  pose proof (app_address_bounds ty k range _ Hl Hap).
  pose proof (app_address_bounds ty k range _ Hl Hae).
  assert (m2s (p + n - 1) = m2s p + (n - 1)) as He.
  { rewrite (placed_contiguous ty k range p n (p + n - 1)) by (done || lia). lia. }
  split_and!; [lia|lia|done|by apply m2s_zone|]. rewrite <- He. by apply m2s_zone.
Qed.

Lemma EnqueueMapShadow_runs q p n wl out s h0 h :
  is_gpu ty = true → set_up ty SB SE s → placed ty range p n → 0 < n → h0 `prefix_of` h →
  mruns (EnqueueMapShadow drv ty q p n wl out)
    (λ _ s' h', grown ty s s' ∧ kept s h h' ∧ ∀ x, p <= x < p + n → mapped s' (m2s x))
    (λ s' h', grown ty s s' ∧ kept s h h' ∧ refused drv h0 h') s h.
Proof.
  intros Hg Hs Hp Hn Hh. destruct (m2s_ends p n Hp Hn) as (Hp0 & Hpn & He & Hzp & Hze).
  apply zone_gpu in Hzp, Hze; [|done..].
  pose proof page_bounds as Hpg. destruct (gpu_range Hg) as (HSB & HSE & HdB & HdE).
  unfold EnqueueMapShadow, GetVirtualMemGranularity, obj.
  destruct (MemToShadow_set_up s Hs) as (o & Ho & Hm2s). mr_steps. rewrite !Hm2s.
  rewrite page_size, (w64_small (p + n - 1)), He by lia.
  assert (kept s h (h ++ [VirtualMem_Granularity (Sh_Context o) (Sh_Device o)])) as Hk1
    by (by apply kept_quiet).
  rewrite (RoundDownTo_spec (m2s p) k) by lia.
  destruct (page_down (m2s p) (m2s p)) as [Hpd Hdiv]; [lia|].
  assert (0 <= m2s p - m2s p mod page) as HF by (pose proof (Z.mod_le (m2s p) page); lia).
  set (First := m2s p - m2s p mod page) in *.
  eapply mr_mono; [eapply (map_shadow_pages_runs _ _ _ _ _ _ _ _ h0)|..]; try done.
  - lia.
  - by etrans.
  - unfold pages_fuel.
    pose proof (Z.div_pos (m2s p + (n - 1) - First) page ltac:(lia) ltac:(lia)).
    rewrite Z2Nat.id by lia.
    pose proof (Z_div_mod_eq_full (m2s p + (n - 1) - First) page).
    pose proof (Z.mod_pos_bound (m2s p + (n - 1) - First) page ltac:(lia)). lia.
  - intros wl1 s1 h1 Hp1 (Hg1 & Hk2 & Hmap). split_and!; [done|by eapply (kept_bytes_trans s s)|].
    intros x Hx _. rewrite (placed_contiguous ty k range p n x) by done.
    destruct (page_down (m2s p) (m2s p + (x - p))); [lia|]. apply Hmap; [lia|done].
  - intros s1 h1 Hp1 (Hg1 & Hk2 & Hr). split_and!; [done|by eapply (kept_bytes_trans s s)|done].
Qed.

Lemma GPU_poison_runs q p n v wl out s h0 h :
  is_gpu ty = true → set_up ty SB SE s → placed ty range p n → 0 < n → h0 `prefix_of` h →
  mruns (GPU_EnqueuePoisonShadow drv ty q p n v wl out)
    (λ _ s' h', grown ty s s' ∧ poisoned p n (u8 v) s s' h h')
    (λ s' h', grown ty s s' ∧ spared p n s h h' ∧ refused drv h0 h') s h.
Proof.
  intros Hg Hs Hp Hn Hh. unfold GPU_EnqueuePoisonShadow. rewrite (proj2 (Z.eqb_neq n 0)) by lia.
  destruct (m2s_ends p n Hp Hn) as (Hp0 & Hpn & He & Hzp & Hze).
  apply zone_gpu in Hzp, Hze; [|done..]. destruct (gpu_range Hg) as (HSB & HSE & _).
  apply mr_bind. eapply mr_mono; [by apply EnqueueMapShadow_runs|..].
  - intros wl1 s1 h1 Hp1 (Hg1 & Hk1 & Hm) _.
    assert (set_up ty SB SE s1) as Hs1 by (by apply Hg1).
    destruct (MemToShadow_set_up s1 Hs1) as (o1 & Ho1 & Hm2s1). unfold obj. mr_steps.
    rewrite !Hm2s1, (w64_small (p + n - 1)), He, w64_small by lia.
    replace (m2s p + (n - 1) - m2s p + 1) with n by lia.
    apply mr_UR_CALL.
    + intros w Hw. split; [done|]. split; [|by apply spared_call].
      eapply written_call; [done|done|by rewrite Hw|done|done|intros; apply written_byte|done].
    + intros Hr. split_and!; [done|by apply spared_call|]. by apply refused_last; [etrans|].
  - intros s1 h1 Hp1 (Hg1 & Hk1 & Hr). split_and!; [done|by apply spared_kept|done].
Qed.

Lemma CPU_poison_runs q p n v wl out s h0 h :
  ty = CPU → placed ty range p n → 0 < n → h0 `prefix_of` h →
  mruns (CPU_EnqueuePoisonShadow drv q p n v wl out)
    (λ _ s' h', grown ty s s' ∧ poisoned p n (u8 v) s s' h h')
    (λ s' h', grown ty s s' ∧ spared p n s h h' ∧ refused drv h0 h') s h.
Proof.
  intros Hty Hp Hn Hh. unfold CPU_EnqueuePoisonShadow. rewrite (proj2 (Z.eqb_neq n 0)) by lia.
  destruct (m2s_ends p n Hp Hn) as (Hp0 & Hpn & He & _).
  assert (∀ y, MemToShadow_CPU y = m2s y) as Hm by (by subst ty).
  rewrite !Hm, (w64_small (p + n - 1)), He by lia.
  replace (m2s p + (n - 1) - m2s p + 1) with n by lia. rewrite (w64_small n) by lia. mr_steps.
  assert (poisoned p n (u8 v) s s h (h ++ [Host_Memset (m2s p) (u8 v) n])) as Hps.
  { split; [|by apply spared_call].
    eapply written_call; [done|done|apply memset_succeeds|done|done|done|].
    intros x _ Hg. by subst ty. }
  apply (events_wait_runs _ _ _ _ _ _ h0); [by etrans|done|..].
  - intros _. split; [done|]. by apply poisoned_quiet.
  - intros Hr. split_and!; [done| |done]. by apply (poisoned_quiet p n (u8 v) s s).
Qed.

(** Which class a shadow memory has. *)
Lemma poison_class :
  ty = CPU ∧ (∀ q p n v wl out, EnqueuePoisonShadow drv ty q p n v wl out =
                                CPU_EnqueuePoisonShadow drv q p n v wl out) ∨
  is_gpu ty = true ∧ (∀ q p n v wl out, EnqueuePoisonShadow drv ty q p n v wl out =
                                        GPU_EnqueuePoisonShadow drv ty q p n v wl out).
Proof. pose proof Hl as Hl'. destruct ty; [done|by left|by right..]. Qed.

(** Poisoning a range, whatever the type. *)
Lemma poison_runs q p n v wl out s h0 h :
  set_up ty SB SE s → placed ty range p n → 0 <= n → h0 `prefix_of` h →
  mruns (EnqueuePoisonShadow drv ty q p n v wl out)
    (λ _ s' h', grown ty s s' ∧ poisoned p n (u8 v) s s' h h')
    (λ s' h', grown ty s s' ∧ spared p n s h h' ∧ refused drv h0 h') s h.
Proof.
  intros Hs Hp Hn Hh.
  destruct (decide (n = 0)) as [->|Hn0].
  - assert (mruns (events_wait drv q wl out)
      (λ _ s' h', grown ty s s' ∧ poisoned p 0 (u8 v) s s' h h')
      (λ s' h', grown ty s s' ∧ spared p 0 s h h' ∧ refused drv h0 h') s h) as Hw.
    { assert (∀ c, (∀ y, touched c y = false) → spared p 0 s h (h ++ [c])) as Hq.
      { intros c Hc. by apply spared_kept, kept_quiet. }
      apply (events_wait_runs _ _ _ _ _ _ h0); [done|..].
      - intros _. split; [done|]. split; [lia|done].
      - intros _. split; [done|]. split; [lia|by apply Hq].
      - intros Hr. split_and!; [done|by apply Hq|done]. }
    destruct poison_class as [[_ Heq] | [_ Heq]]; rewrite Heq; [by apply mr_bind, mr_ret|done].
  - destruct poison_class as [[Ht Heq] | [Hg Heq]]; rewrite Heq.
    + apply CPU_poison_runs; [done|done|lia|done].
    + apply GPU_poison_runs; [done|done|done|lia|done].
Qed.
End poison.
