(* ===== verification/MsanInterceptor.v ===== *)
(** * MsanInterceptor: source/loader/layers/sanitizer/msan/msan_interceptor.cpp, msan_ddi.cpp

    The memory sanitizer between an application and the adapters: contexts and
    devices, allocation and release of USM, the globals of programs, fills and
    copies of USM, and what a launch passes to a kernel.  Allocations of device
    memory start out poisoned; commands that write memory update its shadow. *)
From S2P Require Import Prelude SanCommon MsanState MsanShadow.

(** [ur_device_type_t] *)
Definition UR_DEVICE_TYPE_GPU : Z := 3.
Definition UR_DEVICE_TYPE_CPU : Z := 4.
Definition UR_DEVICE_TYPE_FPGA : Z := 5.

(** [MsanLaunchInfo] as the interceptor fills it; [IsRecover] and the report are
    for the device code. *)
Record MsanLaunchInfo := mkLaunch {
  GlobalShadowOffset : Z;
  GlobalShadowOffsetEnd : Z;
  DeviceTy : DeviceType;
  Debug : bool;
  CleanShadow : Z
}.

Record USMLaunchInfo := mkUSMLaunch { Data : Z; LI_Context : Z; LI_Device : Z }.

(** A device global as a program describes it. *)
Record DeviceGlobalInfo := mkGlobal { GV_Size : Z; GV_Addr : Z }.

Section interceptor.
Variable drv : driver.

(** A call whose result is not looked at. *)
Definition call_ (c : ddi_call) : M msan unit := call drv c;; mret tt.

(** ** sanitizer_utils.cpp *)

(** [ManagedQueue Queue(Context, Device); f; ~ManagedQueue]: the results are only
    asserted; the destructor runs whether [f] returned early or not. *)
Definition with_queue {A} (Context Device : Z) (f : Z → M msan A) : M msan A := λ s h,
  let q := (drv h (Queue_Create Context Device)).2 in
  match f q s (h ++ [Queue_Create Context Device]) with
  | (Halt w, s', h') => (Halt w, s', h')
  | (r, s', h') => (r, s', h' ++ [Queue_Finish q; Queue_Release q])
  end.

(** The results are only asserted. *)
Definition GetDeviceType (Context Device : Z) : M msan DeviceType :=
  t ← call drv (Device_Type Device);
  if (t.2 =? UR_DEVICE_TYPE_CPU) || (t.2 =? UR_DEVICE_TYPE_FPGA) then mret CPU
  else if t.2 =? UR_DEVICE_TYPE_GPU then
    p ← call drv (USM_DeviceAlloc Context Device None 0 4);
    let Type_ := if Z.shiftr p.2 52 =? 0xff0 then GPU_PVC else GPU_DG2 in
    call_ (USM_Free Context p.2);;
    mret Type_
  else mret DT_UNKNOWN.

Definition GetDeviceUSMCapability (Device : Z) : M msan bool :=
  f ← call drv (Device_SharedSystemUSM Device); mret (negb (f.2 =? 0)).

(** ** Contexts and devices *)

(** The constructor of [ContextInfo] retains the handle. *)
Definition insertContext (Context : Z) : M msan unit :=
  s ← get;
  match m_ContextMap s !! Context with
  | Some _ => mret tt
  | None =>
      call_ (Context_Retain Context);;
      modify (λ s, set_ContextMap (<[Context := mkCI 1024 1 []]> (m_ContextMap s)) s)
  end.

(** The map held the last pointer: the destructor releases the handle. *)
Definition eraseContext (Context : Z) : M msan unit :=
  s ← get;
  match m_ContextMap s !! Context with
  | None => mret tt
  | Some _ =>
      modify (λ s, set_ContextMap (delete Context (m_ContextMap s)) s);;
      call_ (Context_Release Context)
  end.

Definition insertDevice (Device : Z) : M msan unit :=
  s ← get;
  match m_DeviceMap s !! Device with
  | Some _ => mret tt
  | None =>
      usm ← GetDeviceUSMCapability Device;
      a ← UR_CALL drv (Device_Alignment Device);
      modify (λ s, set_DeviceMap (<[Device := mkDI DT_UNKNOWN a None usm]> (m_DeviceMap s)) s)
  end.

Definition eraseDevice (Device : Z) : M msan unit :=
  modify (λ s, set_DeviceMap (delete Device (m_DeviceMap s)) s).

Definition set_Type (ty : DeviceType) (di : DeviceInfo) : DeviceInfo :=
  mkDI ty (Alignment di) (Shadow di) (IsSupportSharedSystemUSM di).
Definition set_Shadow (sh : option DeviceType) (di : DeviceInfo) : DeviceInfo :=
  mkDI (Type_ di) (Alignment di) sh (IsSupportSharedSystemUSM di).

(** [DeviceInfo::allocShadowMemory]: the null pointer is only asserted. *)
Definition allocShadowMemory (Context Device : Z) : M msan unit :=
  di ← getDeviceInfo Device;
  sh ← GetMsanShadowMemory Context Device (Type_ di);
  upd_device Device (set_Shadow sh);;
  ty ← deref sh;
  Setup drv ty.

Definition setup_device (Context Device : Z) : M msan unit :=
  insertDevice Device;;
  ty ← GetDeviceType Context Device;
  upd_device Device (set_Type ty);;
  (if decide (ty = DT_UNKNOWN) then fail UR_RESULT_ERROR_INVALID_DEVICE else mret tt);;
  di ← getDeviceInfo Device;
  (match Shadow di with
   | Some _ => mret tt
   | None => allocShadowMemory Context Device
   end);;
  upd_context Context (λ ci, mkCI (MaxAllocatedSize ci) (CI_RefCount ci) (DeviceList ci ++ [Device])).

Fixpoint setup_devices (Context : Z) (Devices : list Z) : M msan unit :=
  match Devices with
  | [] => mret tt
  | d :: ds => setup_device Context d;; setup_devices Context ds
  end.

Definition setupContext (Context : Z) (Devices : list Z) : M msan unit :=
  insertContext Context;; setup_devices Context Devices.

(** [UR_ASSERT(ContextInfo != nullptr, ...)]; the null entry that looking for an
    unknown context leaves in the map is not modelled. *)
Definition known_context (Context : Z) : M msan ContextInfo :=
  s ← get;
  match m_ContextMap s !! Context with
  | Some ci => mret ci
  | None => fail UR_RESULT_ERROR_INVALID_VALUE
  end.

Definition urContextRetain (Context : Z) : M msan unit :=
  UR_CALL drv (Context_Retain Context);;
  known_context Context;;
  upd_context Context (λ ci, mkCI (MaxAllocatedSize ci) (CI_RefCount ci + 1) (DeviceList ci)).

Definition urContextRelease (Context : Z) : M msan unit :=
  UR_CALL drv (Context_Release Context);;
  ci ← known_context Context;
  upd_context Context (λ ci, mkCI (MaxAllocatedSize ci) (CI_RefCount ci - 1) (DeviceList ci));;
  if CI_RefCount ci - 1 =? 0 then eraseContext Context else mret tt.

(** The destructor of the interceptor, for the devices in the order [Devices]. *)
Fixpoint destroy_shadows (Devices : list DeviceInfo) : M msan unit :=
  match Devices with
  | [] => mret tt
  | di :: dis => ty ← deref (Shadow di); try (Destory drv ty);; destroy_shadows dis
  end.

(** ** Allocation and release *)

(** The shadow that a device's pointer leads to, and its class. *)
Definition shadow_of (Device : Z) : M msan (DeviceType * MsanShadowMemory) :=
  di ← getDeviceInfo Device;
  ty ← deref (Shadow di);
  o ← obj ty;
  mret (ty, o).

Definition raise_max (Size : Z) (ci : ContextInfo) : ContextInfo :=
  mkCI (Z.max (MaxAllocatedSize ci) Size) (CI_RefCount ci) (DeviceList ci).

Definition usm_alloc (Context Device : Z) (Properties : option Z) (Pool Size : Z) (t : AllocType)
  : M msan Z :=
  match t with
  | DEVICE_USM => UR_CALL drv (USM_DeviceAlloc Context Device Properties Pool Size)
  | HOST_USM => UR_CALL drv (USM_HostAlloc Context Properties Pool Size)
  | SHARED_USM => UR_CALL drv (USM_SharedAlloc Context Device Properties Pool Size)
  | _ => mret 0
  end.

(** The new object, in the map. *)
Definition register_alloc (ai : MsanAllocInfo) : M msan unit :=
  s ← get;
  modify (add_alloc ai);;
  modify (λ s', set_AllocationMap (emplace (AllocBegin ai) (next_id s) (m_AllocationMap s')) s').

(** The result of [EnqueuePoisonShadow] is dropped. *)
Definition allocateMemory (Context Device : Z) (Properties : option Z) (Pool Size : Z)
    (t : AllocType) : M msan Z :=
  getContextInfo Context;;
  (if Device =? 0 then mret tt else getDeviceInfo Device;; mret tt);;
  Allocated ← usm_alloc Context Device Properties Pool Size t;
  upd_context Context (raise_max Size);;
  if decide (t = DEVICE_USM) then
    register_alloc (mkAI Allocated Size Context Device);;
    with_queue Context Device (λ Queue,
      di ← getDeviceInfo Device;
      ty ← deref (Shadow di);
      try (EnqueuePoisonShadow drv ty Queue Allocated Size 0xff [] false));;
    mret Allocated
  else mret Allocated.

Definition erase_it (It : Z) : M msan unit :=
  modify (λ s, set_AllocationMap (delete It (m_AllocationMap s)) s).

Definition releaseMemory (Context Ptr : Z) : M msan unit :=
  s ← get;
  (match findAllocInfoByAddress s Ptr with
   | Some (It, _, _) => erase_it It
   | None => mret tt
   end);;
  UR_CALL drv (USM_Free Context Ptr);;
  mret tt.

Definition findAllocInfoByContext (s : msan) (Context : Z) : list (Z * Z) :=
  filter (λ kv, AI_Context <$> (store s !! kv.2) = Some Context) (map_to_list (m_AllocationMap s)).

(** ** The globals of a program on one device

    [GVInfos] stands for the array read from the device. *)
Fixpoint register_globals (Context : Z) (ty : DeviceType) (Queue : Z) (GVInfos : list DeviceGlobalInfo)
  : M msan unit :=
  match GVInfos with
  | [] => mret tt
  | g :: gs =>
      EnqueuePoisonShadow drv ty Queue (GV_Addr g) (GV_Size g) 0 [] false;;
      upd_context Context (raise_max (GV_Size g));;
      register_globals Context ty Queue gs
  end.

Definition registerDeviceGlobals (Context Device : Z) (GVInfos : list DeviceGlobalInfo) : M msan unit :=
  getContextInfo Context;;
  with_queue Context Device (λ Queue,
    di ← getDeviceInfo Device;
    match GVInfos with
    | [] => mret tt
    | _ => ty ← deref (Shadow di); register_globals Context ty Queue GVInfos
    end).

(** ** Fills and copies of USM

    [EnqueueUSMBlockingSet(..., &Event)] and the driver's entry points with one
    event; the shadow commands do not wait. *)

Definition urEnqueueUSMFill (Queue Mem : Z) (pattern : list Z) (size : Z) (waits : list Z) (out : bool)
  : M msan Z :=
  ev ← UR_CALL drv (Enqueue_Fill Queue Mem pattern size waits true);
  s ← get;
  Events ← match findAllocInfoByAddress s Mem with
    | Some (_, _, MemInfo) =>
        sh ← shadow_of (AI_Device MemInfo);
        let MemShadow := MemToShadow sh.1 sh.2 Mem in
        ev' ← EnqueueUSMBlockingSet drv Queue MemShadow 0 size [] true;
        mret [ev; ev']
    | None => mret [ev]
    end;
  events_wait drv Queue Events out.

Definition urEnqueueUSMMemcpy (Queue : Z) (blocking : bool) (Dst Src size : Z) (waits : list Z)
    (out : bool) : M msan Z :=
  ev ← UR_CALL drv (Enqueue_Memcpy Queue blocking Dst Src size waits true);
  s ← get;
  Events ← match findAllocInfoByAddress s Src, findAllocInfoByAddress s Dst with
    | Some (_, _, SrcInfo), Some _ =>
        sh ← shadow_of (AI_Device SrcInfo);
        let SrcShadow := MemToShadow sh.1 sh.2 Src in
        let DstShadow := MemToShadow sh.1 sh.2 Dst in
        ev' ← UR_CALL drv (Enqueue_Memcpy Queue blocking DstShadow SrcShadow size [] true);
        mret [ev; ev']
    | None, Some (_, _, DstInfo) =>
        sh ← shadow_of (AI_Device DstInfo);
        let DstShadow := MemToShadow sh.1 sh.2 Dst in
        ev' ← EnqueueUSMBlockingSet drv Queue DstShadow 0 size [] true;
        mret [ev; ev']
    | _, None => mret [ev]
    end;
  events_wait drv Queue Events out.

Definition urEnqueueUSMFill2D (Queue Mem pitch : Z) (pattern : list Z) (width height : Z)
    (waits : list Z) (out : bool) : M msan Z :=
  ev ← UR_CALL drv (Enqueue_Fill2D Queue Mem pitch pattern width height waits true);
  s ← get;
  Events ← match findAllocInfoByAddress s Mem with
    | Some (_, _, MemInfo) =>
        sh ← shadow_of (AI_Device MemInfo);
        let MemShadow := MemToShadow sh.1 sh.2 Mem in
        ev' ← UR_CALL drv (Enqueue_Fill2D Queue MemShadow pitch [0] width height [] true);
        mret [ev; ev']
    | None => mret [ev]
    end;
  events_wait drv Queue Events out.

Definition urEnqueueUSMMemcpy2D (Queue : Z) (blocking : bool) (Dst dstPitch Src srcPitch width height : Z)
    (waits : list Z) (out : bool) : M msan Z :=
  ev ← UR_CALL drv (Enqueue_Memcpy2D Queue blocking Dst dstPitch Src srcPitch width height waits true);
  s ← get;
  Events ← match findAllocInfoByAddress s Src, findAllocInfoByAddress s Dst with
    | Some (_, _, SrcInfo), Some _ =>
        sh ← shadow_of (AI_Device SrcInfo);
        let SrcShadow := MemToShadow sh.1 sh.2 Src in
        let DstShadow := MemToShadow sh.1 sh.2 Dst in
        ev' ← UR_CALL drv (Enqueue_Memcpy2D Queue blocking DstShadow dstPitch SrcShadow srcPitch
                             width height [] true);
        mret [ev; ev']
    | None, Some (_, _, DstInfo) =>
        sh ← shadow_of (AI_Device DstInfo);
        let DstShadow := MemToShadow sh.1 sh.2 Dst in
        ev' ← UR_CALL drv (Enqueue_Fill2D Queue DstShadow dstPitch [0] width height [] true);
        mret [ev; ev']
    | _, None => mret [ev]
    end;
  events_wait drv Queue Events out.

(** ** What a launch gets *)

(** [UR_CALL(Context.pfnRetain); UR_CALL(Device.pfnRetain); ...]; the retained
    device has no counterpart among the calls of the model. *)
Definition USMLaunchInfo_initialize (Context Device sizeof : Z) : M msan USMLaunchInfo :=
  UR_CALL drv (Context_Retain Context);;
  p ← UR_CALL drv (USM_SharedAlloc Context Device None 0 sizeof);
  mret (mkUSMLaunch p Context Device).

(** The part of [prepareLaunch] that fills in [LaunchInfo.Data] for an
    instrumented kernel. *)
Definition prepare_launch_info (li : USMLaunchInfo) (Device : Z) (debug : bool) : M msan MsanLaunchInfo :=
  ci ← getContextInfo (LI_Context li);
  di ← getDeviceInfo Device;
  sh ← shadow_of Device;
  p ← UR_CALL drv (USM_DeviceAlloc (LI_Context li) Device None 0 (MaxAllocatedSize ci));
  mret (mkLaunch (ShadowBegin sh.2) (ShadowEnd sh.2) (Type_ di) debug p).
End interceptor.
