(* ===== verification/MsanTracking.v ===== *)
(** * MsanTracking: the shadow follows what an application writes

    The contract of the memory sanitizer.  A [tracker] is what an application
    expects: which chunks of device memory it has, and whether each of their bytes
    is initialised.  [allowed] says when a call may be made; [after] is what it
    does to the tracker.  The theorems relate the calls of [MsanInterceptor] to
    this: in every reachable state the calls are defined, and the shadow byte of
    every byte the tracker is sure about is what the tracker says. *)
From S2P Require Import Prelude SanCommon MsanState MsanShadow MsanLayout MsanMemory.
From S2P Require Import MsanPoison MsanInterceptor.

(** ** The contract *)

(** A byte has no shadow that can be relied on (its chunk was refused shadow),
    has shadow of unknown contents (a refused command was to write it), or has
    this shadow: 0 when initialised and 255 when not. *)
Inductive shadow_byte := Lost | Unsure | Holds (v : Z).

Record tracker := mkT { chunks : gmap Z Z; bytes : Z → shadow_byte }.

Definition no_chunks : tracker := mkT ∅ (λ _, Lost).

(** The chunk that an address is in. *)
Definition chunk_of (t : tracker) (a : Z) : option (Z * Z) :=
  k ← floor_key (chunks t) a;
  n ← chunks t !! k;
  if a <? k + n then Some (k, n) else None.

(** What becomes of a byte that is to hold [v]; [ok]: the driver refused nothing. *)
Definition store_byte (ok : bool) (old new : shadow_byte) : shadow_byte :=
  match old with
  | Lost => Lost
  | _ => if ok then match new with Lost => Unsure | b => b end else Unsure
  end.

(** Fresh shadow, which does not depend on what was there. *)
Definition fresh_byte (ok : bool) (v : Z) : shadow_byte := if ok then Holds v else Lost.

Definition set_bytes (D : Z → bool) (f : Z → shadow_byte) (t : tracker) : tracker :=
  mkT (chunks t) (λ x, if D x then f x else bytes t x).

Definition add_chunk (p n : Z) (t : tracker) : tracker := mkT (<[p := n]> (chunks t)) (bytes t).
Definition drop_chunk (p : Z) (t : tracker) : tracker := mkT (delete p (chunks t)) (bytes t).

Definition in_range (p n x : Z) : bool := flat_in n (x - p).

(** A write of the region [R] of offsets from [d]. *)
Definition write_region (ok : bool) (d : Z) (R : Z → bool) (f : Z → shadow_byte) (t : tracker) : tracker :=
  set_bytes (λ x, R (x - d)) (λ x, store_byte ok (bytes t x) (f (x - d))) t.

Definition fill_region (ok : bool) (d : Z) (R : Z → bool) (t : tracker) : tracker :=
  match chunk_of t d with
  | Some _ => write_region ok d R (λ _, Holds 0) t
  | None => t
  end.

(** A copy takes the byte at offset [o] from the offset [σ o] of the source. *)
Definition copy_region (ok : bool) (d : Z) (R : Z → bool) (src : Z) (σ : Z → Z) (t : tracker) : tracker :=
  match chunk_of t src, chunk_of t d with
  | Some _, Some _ => write_region ok d R (λ o, bytes t (src + σ o)) t
  | None, Some _ => write_region ok d R (λ _, Holds 0) t
  | _, None => t
  end.

(** Offsets of a copy in two dimensions. *)
Definition rect_source (dp sp o : Z) : Z := o / dp * sp + o mod dp.

(** ** The calls *)

Inductive op :=
| SetupContext (Context : Z) (Devices : list Z)
| ContextRetain (Context : Z)
| ContextRelease (Context : Z)
| Allocate (Context Device : Z) (Properties : option Z) (Pool Size : Z) (t : AllocType)
| Release (Context Ptr : Z)
| Globals (Context Device : Z) (GVInfos : list DeviceGlobalInfo)
| USMFill (Queue Mem : Z) (pattern : list Z) (size : Z) (waits : list Z) (out : bool)
| USMMemcpy (Queue : Z) (blocking : bool) (Dst Src size : Z) (waits : list Z) (out : bool)
| USMFill2D (Queue Mem pitch : Z) (pattern : list Z) (width height : Z) (waits : list Z) (out : bool)
| USMMemcpy2D (Queue : Z) (blocking : bool) (Dst dstPitch Src srcPitch width height : Z)
    (waits : list Z) (out : bool).

Definition run_op (drv : driver) (c : op) : M msan Z :=
  match c with
  | SetupContext Context Devices => setupContext drv Context Devices;; mret 0
  | ContextRetain Context => urContextRetain drv Context;; mret 0
  | ContextRelease Context => urContextRelease drv Context;; mret 0
  | Allocate Context Device Properties Pool Size t =>
      allocateMemory drv Context Device Properties Pool Size t
  | Release Context Ptr => releaseMemory drv Context Ptr;; mret 0
  | Globals Context Device GVInfos => registerDeviceGlobals drv Context Device GVInfos;; mret 0
  | USMFill q p pat n w out => urEnqueueUSMFill drv q p pat n w out
  | USMMemcpy q b d s n w out => urEnqueueUSMMemcpy drv q b d s n w out
  | USMFill2D q p pitch pat wd ht w out => urEnqueueUSMFill2D drv q p pitch pat wd ht w out
  | USMMemcpy2D q b d dp s sp wd ht w out => urEnqueueUSMMemcpy2D drv q b d dp s sp wd ht w out
  end.

(** What a call does; [r] is the pointer it returned, [None] when it failed. *)
Definition after (c : op) (ok : bool) (r : option Z) (t : tracker) : tracker :=
  match c with
  | SetupContext _ _ | ContextRetain _ | ContextRelease _ => t
  | Allocate _ _ _ _ Size ty =>
      match r with
      | Some p => if decide (ty = DEVICE_USM)
                  then set_bytes (in_range p Size) (λ _, fresh_byte ok 255) (add_chunk p Size t)
                  else t
      | None => t
      end
  | Release _ Ptr =>
      match chunk_of t Ptr with
      | Some (k, n) => set_bytes (in_range k n) (λ _, Lost) (drop_chunk k t)
      | None => t
      end
  | Globals _ _ GVInfos =>
      set_bytes (λ x, existsb (λ g, in_range (GV_Addr g) (GV_Size g) x) GVInfos)
        (λ _, fresh_byte ok 0) t
  | USMFill _ p _ n _ _ => fill_region ok p (flat_in n) t
  | USMMemcpy _ _ d s n _ _ => copy_region ok d (flat_in n) s id t
  | USMFill2D _ p pitch _ wd ht _ _ => fill_region ok p (rect_in pitch wd ht) t
  | USMMemcpy2D _ _ d dp s sp wd ht _ _ => copy_region ok d (rect_in dp wd ht) s (rect_source dp sp) t
  end.

Section tracking.
Context (drv : driver) (view : list ddi_call → Z → Z) (ty : DeviceType) (k SB SE : Z).
#[local] Abbreviation range := (range SB SE).
#[local] Abbreviation page := (2 ^ k).
#[local] Abbreviation m2s := (MemToShadow ty range).
#[local] Abbreviation zone := (shadow_zone ty range).
#[local] Abbreviation app := (app_address ty range).
#[local] Abbreviation mapped := (mapped ty k).

(** The device has a shadow memory. *)
Definition has_shadow (s : msan) (Device : Z) : Prop :=
  ∃ di, m_DeviceMap s !! Device = Some di ∧ Shadow di = Some ty.

(** A command stays in the chunk of its pointer; one on other memory does not
    write shadow. *)
Definition stays (t : tracker) (d : Z) (R : Z → bool) : Prop :=
  match chunk_of t d with
  | Some (b, n) => ∀ o, R o = true → b <= d + o < b + n
  | None => ∀ o, R o = true → ¬ zone (d + o)
  end.

Definition reads_chunk (t : tracker) (src : Z) (R : Z → bool) (σ : Z → Z) : Prop :=
  match chunk_of t src with
  | Some (b, n) => ∀ o, R o = true → b <= src + σ o < b + n
  | None => True
  end.

Definition disjoint (d : Z) (R : Z → bool) (src : Z) (σ : Z → Z) : Prop :=
  ∀ o o', R o = true → R o' = true → d + o' ≠ src + σ o.

Definition copy_allowed (t : tracker) (d : Z) (R : Z → bool) (src : Z) (σ : Z → Z) : Prop :=
  stays t d R ∧ reads_chunk t src R σ ∧ disjoint d R src σ.

(** When a call may be made: handles are known, device allocations are not empty
    and land at a fresh place, commands stay in their chunks. *)
Definition allowed (c : op) (s : msan) (h : list ddi_call) (t : tracker) : Prop :=
  match c with
  | SetupContext _ _ | Release _ _ => True
  | ContextRetain Context | ContextRelease Context => is_Some (m_ContextMap s !! Context)
  | Allocate Context Device Properties Pool Size at_ =>
      is_Some (m_ContextMap s !! Context) ∧ (Device ≠ 0 → is_Some (m_DeviceMap s !! Device)) ∧
      (at_ = DEVICE_USM →
       0 < Size ∧ has_shadow s Device ∧
       ∀ p, drv h (USM_DeviceAlloc Context Device Properties Pool Size) = (UR_RESULT_SUCCESS, p) →
         placed ty range p Size ∧
         ∀ b n, chunks t !! b = Some n → p + Size <= b ∨ b + n <= p)
  | Globals Context Device GVInfos =>
      is_Some (m_ContextMap s !! Context) ∧ has_shadow s Device ∧
      Forall (λ g, 0 <= GV_Size g ∧ placed ty range (GV_Addr g) (GV_Size g)) GVInfos
  | USMFill _ p _ n _ _ => stays t p (flat_in n)
  | USMMemcpy _ _ d s n _ _ => copy_allowed t d (flat_in n) s id
  | USMFill2D _ p pitch _ wd ht _ _ => stays t p (rect_in pitch wd ht)
  | USMMemcpy2D _ _ d dp s sp wd ht _ _ => copy_allowed t d (rect_in dp wd ht) s (rect_source dp sp)
  end.

(** What the state has to do with the tracker. *)
Definition setup_result (s : msan) : option ur_result_t :=
  if is_gpu ty then GPU_Setup_Result (statics s) else CPU_Setup_Result (statics s).

Definition chunk_entry (s : msan) (t : tracker) (b id : Z) : Prop :=
  ∃ ai, store s !! id = Some ai ∧ AllocBegin ai = b ∧ chunks t !! b = Some (AllocSize ai) ∧
        has_shadow s (AI_Device ai).

Record tracks (s : msan) (h : list ddi_call) (t : tracker) : Prop := {
  tr_setup : setup_result s = Some UR_RESULT_SUCCESS → set_up ty SB SE s;
  tr_device d di sh :
    m_DeviceMap s !! d = Some di → Shadow di = Some sh →
    sh = ty ∧ set_up ty SB SE s ∧ setup_result s = Some UR_RESULT_SUCCESS;
  tr_entry b id : m_AllocationMap s !! b = Some id → chunk_entry s t b id;
  tr_chunk b n : chunks t !! b = Some n →
    is_Some (m_AllocationMap s !! b) ∧ 0 < n ∧ placed ty range b n;
  tr_store id ai : store s !! id = Some ai → id < next_id s;
  tr_apart b n b' n' :
    chunks t !! b = Some n → chunks t !! b' = Some n' → b ≠ b' → b + n <= b' ∨ b' + n' <= b;
  tr_bytes x : bytes t x ≠ Lost →
    setup_result s = Some UR_RESULT_SUCCESS ∧ app x ∧ mapped s (m2s x) ∧
    ∀ v, bytes t x = Holds v → view h (m2s x) = v
}.

(** The devices of the process are of the type [ty], as far as they are supported,
    and [SB] is the address that reserving its range yields. *)
Class OneType := {
  one_type h c d s t s' h' :
    GetDeviceType drv c d s h = (Go t, s', h') → t = ty ∨ t = DT_UNKNOWN;
  reserved h c a n v : drv h (VirtualMem_Reserve c a n) = (UR_RESULT_SUCCESS, v) → v = SB
}.

(** Runs of an application, which also waits for queues; the layer hands that call on
    as it is.  A context whose set-up fails ends a run. *)
Inductive reaches : msan → list ddi_call → tracker → Prop :=
| reaches_new : reaches new_msan [] no_chunks
| reaches_finish q s h t : reaches s h t → reaches s (h ++ [Queue_Finish q]) t
| reaches_op c s h t ok r s' h' :
    reaches s h t → allowed c s h t →
    run_op drv c s h = (r, s', h') →
    (∀ Context Devices, c = SetupContext Context Devices → ∃ v, r = Go v) →
    (ok = true → ¬ refused drv h h') →
    reaches s' h' (after c ok (match r with Go p => Some p | _ => None end) t).

Context (Hk : 0 <= k <= 46) (Hl : layout_ok ty k range) `{HD : !SerialMemory drv view zone page}.

(** ** Lemmas: chunks *)

Lemma floor_key_dom (m m' : gmap Z Z) a :
  (∀ b, is_Some (m !! b) ↔ is_Some (m' !! b)) → floor_key m a = floor_key m' a.
Proof.
  intros Hd. apply option_eq. intros b. rewrite !floor_key_Some.
  split; intros (H1 & H2 & H3); (split_and!; [by apply Hd|done|]); intros b' Hb'; apply H3; by apply Hd.
Qed.

Lemma tracks_dom s h t b : tracks s h t → is_Some (chunks t !! b) ↔ is_Some (m_AllocationMap s !! b).
Proof.
  intros HR. split.
  - intros [n Hn]. by destruct (tr_chunk s h t HR b n Hn).
  - intros [id Hid]. destruct (tr_entry s h t HR b id Hid) as (ai & _ & _ & Hc & _). eauto.
Qed.

Lemma placed_bound b n : 0 < n → placed ty range b n → 0 <= b ∧ b + n < 2 ^ 64.
Proof. intros Hn Hp. destruct (m2s_ends ty k SB SE Hl b n Hp Hn) as (? & ? & _). done. Qed.

(** Looking up an address in the allocation map and in the tracker. *)
Lemma find_chunk s h t a :
  tracks s h t →
  match chunk_of t a with
  | Some (b, n) =>
      ∃ id ai, findAllocInfoByAddress s a = Some (b, id, ai) ∧ has_shadow s (AI_Device ai) ∧
               chunks t !! b = Some n ∧ 0 < n ∧ placed ty range b n ∧ b <= a < b + n
  | None => findAllocInfoByAddress s a = None
  end.
Proof.
  intros HR. unfold chunk_of, findAllocInfoByAddress.
  rewrite (floor_key_dom (m_AllocationMap s) (chunks t))
    by (intros b; symmetry; by apply (tracks_dom s h)).
  destruct (floor_key (chunks t) a) as [b|] eqn:Hf; [|done]. cbn.
  apply floor_key_Some in Hf as ([n Hn] & Hba & _). rewrite Hn. cbn.
  destruct (tr_chunk s h t HR b n Hn) as ([id Hid] & Hn0 & Hp).
  destruct (tr_entry s h t HR b id Hid) as (ai & Hst & Hb & Hc & Hsh).
  rewrite Hn in Hc. injection Hc as Hc. destruct (placed_bound b n Hn0 Hp).
  rewrite Hid. cbn. rewrite Hst. cbn. rewrite Hb, <- Hc, w64_small by lia.
  rewrite (proj2 (Z.ltb_ge a b)) by lia. cbn [orb].
  destruct (Z.ltb_spec a (b + n)), (Z.leb_spec (b + n) a); try lia; [|done].
  exists id, ai. by split_and!.
Qed.

Lemma shadow_of_runs s h t d (Q : DeviceType * MsanShadowMemory → msan → list ddi_call → Prop)
    (E : msan → list ddi_call → Prop) h' :
  tracks s h t → has_shadow s d →
  (∀ o, (∀ x, MemToShadow ty o x = m2s x) → Q (ty, o) s h') → mruns (shadow_of d) Q E s h'.
Proof.
  intros HR (di & Hd & Hsh) HQ. destruct (tr_device s h t HR d di ty Hd Hsh) as (_ & Hup & _).
  destruct (MemToShadow_set_up ty SB SE s Hup) as (o & Ho & Hm).
  unfold shadow_of, getDeviceInfo, obj. mr_steps. by apply HQ.
Qed.
End tracking.

(** Only the memory after the history counts. *)
Lemma tracks_view view view' ty k SB SE s h t :
  view h = view' h → tracks view ty k SB SE s h t → tracks view' ty k SB SE s h t.
Proof. intros He [H1 H2 H3 H4 H5 H6 H7]. constructor; try done. by rewrite <- He. Qed.
