(* ===== verification/MsanCommands.v ===== *)
(** * MsanCommands: fills and copies keep the shadow up to date

    A command on memory and the command on its shadow: where the shadow of a region
    is, that the command of the application leaves the shadow alone, and that the
    four USM commands of [MsanInterceptor] do to the shadow what [MsanTracking]
    says they do to the tracker. *)
From S2P Require Import Prelude SanCommon MsanState MsanShadow MsanLayout MsanMemory.
From S2P Require Import MsanPoison MsanInterceptor MsanTracking.

(** ** The shape of the commands *)

(** A command [c0] that fills memory at [d], and the one on its shadow. *)
Definition fill_program (drv : driver) (q : Z) (c0 : ddi_call) (c1 : Z → ddi_call) (d : Z) (out : bool) : M msan Z :=
  ev ← UR_CALL drv c0;
  s ← get;
  Events ← match findAllocInfoByAddress s d with
    | Some (_, _, MemInfo) =>
        sh ← shadow_of (AI_Device MemInfo);
        ev' ← UR_CALL drv (c1 (MemToShadow sh.1 sh.2 d));
        mret [ev; ev']
    | None => mret [ev]
    end;
  events_wait drv q Events out.

(** A copy [c0] from [src] to [d], and the one of the shadow; or a fill when the source
    has none. *)
Definition copy_program (drv : driver) (q : Z) (c0 : ddi_call) (cc : Z → Z → ddi_call) (cf : Z → ddi_call)
    (d src : Z) (out : bool) : M msan Z :=
  ev ← UR_CALL drv c0;
  s ← get;
  Events ← match findAllocInfoByAddress s src, findAllocInfoByAddress s d with
    | Some (_, _, SrcInfo), Some _ =>
        sh ← shadow_of (AI_Device SrcInfo);
        ev' ← UR_CALL drv (cc (MemToShadow sh.1 sh.2 d) (MemToShadow sh.1 sh.2 src));
        mret [ev; ev']
    | None, Some (_, _, DstInfo) =>
        sh ← shadow_of (AI_Device DstInfo);
        ev' ← UR_CALL drv (cf (MemToShadow sh.1 sh.2 d));
        mret [ev; ev']
    | _, None => mret [ev]
    end;
  events_wait drv q Events out.

Section commands.
Context (drv : driver) (view : list ddi_call → Z → Z) (ty : DeviceType) (k SB SE : Z).
#[local] Abbreviation range := (range SB SE).
#[local] Abbreviation page := (2 ^ k).
#[local] Abbreviation m2s := (MemToShadow ty range).
#[local] Abbreviation zone := (shadow_zone ty range).
#[local] Abbreviation app := (app_address ty range).
#[local] Abbreviation mapped := (mapped ty k).
#[local] Abbreviation tracks := (tracks view ty k SB SE).
#[local] Abbreviation has_shadow := (has_shadow ty).
#[local] Abbreviation chunk_entry := (chunk_entry ty).
Context (Hk : 0 <= k <= 46) (Hl : layout_ok ty k range) `{HD : !SerialMemory drv view zone page}.

(** ** Commands on memory *)

(** A command that touches the region [R] of offsets from [d]. *)
Definition on_region (c : ddi_call) (d : Z) (R : Z → bool) : Prop := ∀ x, touched c x = R (x - d).

(** Shadow as the last command left it: [f] on the region, unchanged elsewhere. *)
Definition updated (d : Z) (R : Z → bool) (f : Z → Z) (h h' : list ddi_call) : Prop :=
  ∀ x, app x → view h' (m2s x) = if R (x - d) then f (x - d) else view h (m2s x).
Definition elsewhere (d : Z) (R : Z → bool) (h h' : list ddi_call) : Prop :=
  ∀ x, app x → R (x - d) = false → view h' (m2s x) = view h (m2s x).

(** The region of the shadow of a command in a chunk. *)
Lemma shadow_region b n d R x :
  placed ty range b n → b <= d < b + n → (∀ o, R o = true → b <= d + o < b + n) → app x →
  R (m2s x - m2s d) = R (x - d).
Proof.
  intros Hp Hd HR Hx.
  pose proof (placed_contiguous ty k range b n) as Hc.
  destruct (R (x - d)) eqn:H1.
  - specialize (HR _ H1). replace (d + (x - d)) with x in HR by lia.
    rewrite (Hc x Hl Hp HR), (Hc d Hl Hp Hd). rewrite <- H1. f_equal. lia.
  - destruct (R (m2s x - m2s d)) eqn:H2; [|done]. specialize (HR _ H2).
    remember (m2s x - m2s d) as o eqn:Ho.
    assert (x = d + o) as Hxo; [|replace (x - d) with o in H1 by lia; congruence].
    apply (MemToShadow_inj ty k range); [done|done|by eapply placed_app|].
    rewrite (Hc (d + o) Hl Hp HR). pose proof (Hc d Hl Hp Hd). lia.
Qed.

(** A command of the application does not touch the shadow. *)
Lemma user_command s h0 t d R c h x :
  tracks s h0 t → stays ty SB SE t d R → on_region c d R → app x →
  view (h ++ [c]) (m2s x) = view h (m2s x).
Proof.
  intros HR Hs Hc Hx. apply call_keeps; [by apply (m2s_zone ty k SB SE)|]. rewrite Hc.
  destruct (R (m2s x - d)) eqn:HRx; [|done]. exfalso.
  pose proof (m2s_zone ty k SB SE Hl x Hx) as Hz. unfold stays in Hs.
  pose proof (find_chunk view ty k SB SE Hk Hl s h0 t d HR) as Hf.
  destruct (chunk_of t d) as [[b n]|].
  - destruct Hf as (id & ai & _ & _ & _ & Hn & Hp & _). specialize (Hs _ HRx).
    replace (d + (m2s x - d)) with (m2s x) in Hs by lia.
    apply (app_address_apart ty k range (m2s x) Hl); [by eapply placed_app|done].
  - specialize (Hs _ HRx). by replace (d + (m2s x - d)) with (m2s x) in Hs by lia.
Qed.

(** The shadow command of a write. *)
Lemma shadow_command b n d R f c h :
  placed ty range b n → b <= d < b + n → (∀ o, R o = true → b <= d + o < b + n) →
  on_region c (m2s d) R → apart c → (drv h c).1 = UR_RESULT_SUCCESS →
  (∀ o, R o = true → written (view h) c (m2s d + o) = Some (f o)) →
  updated d R f h (h ++ [c]).
Proof.
  intros Hp Hd HR Hc Ha Hr Hw x Hx. pose proof (shadow_region b n d R x Hp Hd HR Hx) as Hreg.
  pose proof (m2s_zone ty k SB SE Hl x Hx) as Hz.
  destruct (R (x - d)) eqn:HRx.
  - apply call_writes; [done|done|done|by rewrite Hc|].
    assert (m2s x - m2s d = x - d) as He.
    { pose proof (placed_contiguous ty k range b n) as Hcg.
      rewrite (Hcg x Hl Hp), (Hcg d Hl Hp Hd); [lia|].
      specialize (HR _ HRx). lia. }
    replace (m2s x) with (m2s d + (x - d)) by lia. by apply Hw.
  - apply call_keeps; [done|]. by rewrite Hc.
Qed.

Lemma shadow_command_keeps b n d R c h :
  placed ty range b n → b <= d < b + n → (∀ o, R o = true → b <= d + o < b + n) →
  on_region c (m2s d) R → elsewhere d R h (h ++ [c]).
Proof.
  intros Hp Hd HR Hc x Hx HRx. apply call_keeps; [by apply (m2s_zone ty k SB SE)|].
  by rewrite Hc, (shadow_region b n d R x Hp Hd HR Hx).
Qed.

(** The end of a command: waiting for both events. *)
Lemma wait_runs q Events out h0 h s :
  h0 `prefix_of` h →
  mruns (events_wait drv q Events out)
    (λ _ s' h', s' = s ∧ (∀ x, app x → view h' (m2s x) = view h (m2s x)))
    (λ s' h', s' = s ∧ (∀ x, app x → view h' (m2s x) = view h (m2s x)) ∧ refused drv h0 h') s h.
Proof.
  intros Hh.
  assert (∀ x, app x → view (h ++ [Enqueue_EventsWait q Events true]) (m2s x) = view h (m2s x)) as Hq
    by (intros x Hx; apply call_keeps; [by apply (m2s_zone ty k SB SE)|done]).
  by apply (events_wait_runs drv q _ _ _ _ _ h0).
Qed.

(** ** Keeping the tracker *)

Lemma tracks_bytes s h t h' bs :
  tracks s h t → (∀ x, bs x ≠ Lost → bytes t x ≠ Lost) →
  (∀ x v, app x → bs x = Holds v → view h' (m2s x) = v) → tracks s h' (mkT (chunks t) bs).
Proof.
  intros HR Hd Hv. destruct HR as [H1 H2 H3 H4 H5 H6 H7]. constructor; try done.
  intros x Hx. destruct (H7 x (Hd x Hx)) as (Hst & Ha & Hm & _). split_and!; [done|done|done|].
  intros v. by apply Hv.
Qed.

Lemma tracks_unchanged s h t h' :
  tracks s h t → (∀ x, app x → view h' (m2s x) = view h (m2s x)) → tracks s h' t.
Proof.
  intros HR Hv. destruct t as [cs bs]. apply (tracks_bytes s h (mkT cs bs)); [done|done|].
  intros x v Ha Hb. rewrite Hv by done.
  assert (bytes (mkT cs bs) x ≠ Lost) as Hne by (cbn; congruence).
  destruct (tr_bytes _ _ _ _ _ _ _ _ HR x Hne) as (_ & _ & _ & H). by apply H.
Qed.

Lemma tracks_Holds s h t x v : tracks s h t → bytes t x = Holds v → view h (m2s x) = v.
Proof.
  intros HR Hb. assert (bytes t x ≠ Lost) as Hne by congruence.
  destruct (tr_bytes _ _ _ _ _ _ _ _ HR x Hne) as (_ & _ & _ & H). by apply H.
Qed.

Lemma store_byte_Lost ok b b' : store_byte ok b b' ≠ Lost → b ≠ Lost.
Proof. by destruct b. Qed.

Lemma store_byte_Holds ok b b' v : store_byte ok b b' = Holds v → ok = true ∧ b' = Holds v.
Proof. by destruct b, ok, b'. Qed.

(** A command that did what it was to do, and one that was refused. *)
Lemma tracks_write s h t h' d R f fb ok :
  tracks s h t → updated d R f h h' → (∀ o v, R o = true → fb o = Holds v → f o = v) →
  tracks s h' (write_region ok d R fb t).
Proof.
  intros HR Hu Hf. apply (tracks_bytes s h); [done|..].
  - intros x. destruct (R (x - d)); [apply store_byte_Lost|done].
  - intros x v Ha. rewrite Hu by done. destruct (R (x - d)) eqn:HRx; [|by apply (tracks_Holds s h t)].
    intros [_ Hb]%store_byte_Holds. by apply Hf.
Qed.

Lemma tracks_elsewhere s h t h' d R fb :
  tracks s h t → elsewhere d R h h' → tracks s h' (write_region false d R fb t).
Proof.
  intros HR He. apply (tracks_bytes s h); [done|..].
  - intros x. destruct (R (x - d)); [apply store_byte_Lost|done].
  - intros x v Ha. destruct (R (x - d)) eqn:HRx; [by intros [? _]%store_byte_Holds|].
    rewrite He by done. by apply (tracks_Holds s h t).
Qed.

(** ** The end of a command *)

Lemma write_tail q c1 ev out b n d R f s h0 h h1 :
  h0 `prefix_of` h1 → (∀ x, app x → view h1 (m2s x) = view h (m2s x)) →
  placed ty range b n → b <= d < b + n → (∀ o, R o = true → b <= d + o < b + n) →
  on_region c1 (m2s d) R → apart c1 →
  (∀ o, R o = true → written (view h1) c1 (m2s d + o) = Some (f o)) →
  mruns (Events ← (ev' ← UR_CALL drv c1; mret [ev; ev']); events_wait drv q Events out)
    (λ _ s' h', s' = s ∧ updated d R f h h')
    (λ s' h', s' = s ∧ elsewhere d R h h' ∧ refused drv h0 h') s h1.
Proof.
  intros Hh Hv Hp Hd HR Hc Ha Hw. apply mr_bind, mr_bind, mr_UR_CALL.
  - intros v Hr Hp1. apply mr_ret. intros _.
    assert (updated d R f h (h1 ++ [c1])) as Hu.
    { intros x Hx. rewrite (shadow_command b n d R f c1 h1) by (done || by rewrite Hr).
      by destruct (R (x - d)); [|apply Hv]. }
    eapply mr_mono; [apply (wait_runs _ _ _ h0); by etrans|..]; cbn beta.
    + intros _ s' h' _ [-> Hq]. split; [done|]. intros x Hx. rewrite Hq by done. by apply Hu.
    + intros s' h' _ (-> & Hq & Hrf). split_and!; [done| |done].
      intros x Hx HRx. rewrite Hq, Hu, HRx by done. done.
  - intros Hr. split_and!; [done| |by apply refused_last].
    intros x Hx HRx. rewrite (shadow_command_keeps b n d R c1 h1) by done. by apply Hv.
Qed.

Lemma plain_tail q ev out s h0 h h1 :
  h0 `prefix_of` h1 → (∀ x, app x → view h1 (m2s x) = view h (m2s x)) →
  mruns (Events ← mret [ev]; events_wait drv q Events out)
    (λ _ s' h', s' = s ∧ (∀ x, app x → view h' (m2s x) = view h (m2s x)))
    (λ s' h', s' = s ∧ (∀ x, app x → view h' (m2s x) = view h (m2s x)) ∧ refused drv h0 h') s h1.
Proof.
  intros Hh Hv. apply mr_bind, mr_ret. intros _.
  eapply mr_mono; [by apply (wait_runs _ _ _ h0)|..]; cbn beta.
  - intros _ s' h' _ [-> Hq]. split; [done|]. intros x Hx. by rewrite Hq, Hv.
  - intros s' h' _ (-> & Hq & Hr). split_and!; [done| |done]. intros x Hx. by rewrite Hq, Hv.
Qed.

(** The state is as before and the tracker as [T ok], or [T false] when the
    driver refused a call since [h0]. *)
Definition keeps_tracker {A} (h0 : list ddi_call) (T : bool → tracker) (m : M msan A)
    (s : msan) (h : list ddi_call) : Prop :=
  mruns m (λ _ s' h', s' = s ∧ ∀ ok, tracks s h' (T ok))
    (λ s' h', s' = s ∧ tracks s h' (T false) ∧ refused drv h0 h') s h.

(** Nothing to do. *)
Lemma plain_runs q ev out s h0 h h1 t :
  tracks s h t → h0 `prefix_of` h1 → (∀ x, app x → view h1 (m2s x) = view h (m2s x)) →
  keeps_tracker h0 (λ _, t) (Events ← mret [ev]; events_wait drv q Events out) s h1.
Proof.
  intros HR Hh Hv. eapply mr_mono; [by apply (plain_tail q ev out s h0 h)|..]; cbn beta.
  - intros _ s' h' _ [-> Hq]. split; [done|]. intros _. by apply (tracks_unchanged s h).
  - intros s' h' _ (-> & Hq & Hr). split_and!; [done| |done]. by apply (tracks_unchanged s h).
Qed.

(** A command on the shadow of a chunk; [f] is what it writes. *)
Lemma shadow_runs q ev out b n d R f fb dev (c1 : (DeviceType * MsanShadowMemory) → ddi_call) c s h0 h h1 t :
  tracks s h t → has_shadow s dev → h0 `prefix_of` h1 →
  (∀ x, app x → view h1 (m2s x) = view h (m2s x)) →
  placed ty range b n → b <= d < b + n → (∀ o, R o = true → b <= d + o < b + n) →
  (∀ o, (∀ x, MemToShadow ty o x = m2s x) → c1 (ty, o) = c) →
  on_region c (m2s d) R → apart c →
  (∀ o, R o = true → written (view h1) c (m2s d + o) = Some (f o)) →
  (∀ o v, R o = true → fb o = Holds v → f o = v) →
  keeps_tracker h0 (λ ok, write_region ok d R fb t)
    (Events ← (sh ← shadow_of dev; ev' ← UR_CALL drv (c1 sh); mret [ev; ev']);
     events_wait drv q Events out) s h1.
Proof.
  intros HR Hsh Hh Hv Hp Hd HRc Hc1 Hc Ha Hw Hfb.
  apply mr_assoc, mr_bind. eapply (shadow_of_runs view); [done|done|].
  intros o Hm _. rewrite (Hc1 o Hm).
  eapply mr_mono; [by apply (write_tail q c ev out b n d R f s h0 h h1)|..]; cbn beta.
  - intros _ s' h' _ [-> Hup]. split; [done|]. intros ok. by eapply (tracks_write s h t h' d R f).
  - intros s' h' _ (-> & He & Hr). split_and!; [done| |done]. by apply (tracks_elsewhere s h).
Qed.

(** The driver refused the command of the application itself. *)
Lemma refused_command s h t c0 d R fb :
  tracks s h t → (∀ x, app x → view (h ++ [c0]) (m2s x) = view h (m2s x)) →
  tracks s (h ++ [c0]) (write_region false d R fb t).
Proof. intros HR Hu. apply (tracks_elsewhere s h); [done|]. intros x Hx _. by apply Hu. Qed.

(** ** Fills and copies *)

Lemma fill_runs q c0 (c1 : Z → ddi_call) d R out s h t :
  tracks s h t → stays ty SB SE t d R → on_region c0 d R →
  (∀ a, on_region (c1 a) a R) → (∀ a x, source (c1 a) x = None) →
  (∀ a m o, R o = true → written m (c1 a) (a + o) = Some 0) →
  keeps_tracker h (λ ok, fill_region ok d R t) (fill_program drv q c0 c1 d out) s h.
Proof.
  intros HR Hs Hc0 Hc1 Hsrc Hw. unfold fill_region.
  pose proof (find_chunk view ty k SB SE Hk Hl s h t d HR) as Hf. pose proof Hs as Hs'. unfold stays in Hs'.
  assert (∀ x, app x → view (h ++ [c0]) (m2s x) = view h (m2s x)) as Hu
    by (intros x Hx; by eapply user_command).
  apply mr_bind, mr_UR_CALL.
  2: { intros Hr. split_and!; [done| |by apply refused_last].
       destruct (chunk_of t d); [by apply refused_command|by apply (tracks_unchanged s h)]. }
  intros ev _ Hp1. apply mr_bind, mr_get. intros _. destruct (chunk_of t d) as [[b n]|].
  - destruct Hf as (id & ai & -> & Hsh & Hn & Hn0 & Hp & Hd). cbn beta iota.
    eapply (shadow_runs q ev out b n d R (λ _, 0) _ _ _ (c1 (m2s d)) s h h); try done.
    + intros o Hm. cbn [fst snd]. by rewrite Hm.
    + by apply apart_fill.
    + intros o' Ho'. by apply Hw.
    + by intros o' v _ [= <-].
  - rewrite Hf. by apply (plain_runs q ev out s h h).
Qed.

(** A copy inside the shadow does not overlap either. *)
Lemma shadow_apart b n b' n' d src (R : Z → bool) (σ : Z → Z) c x y :
  placed ty range b n → placed ty range b' n' →
  (∀ o, R o = true → b <= d + o < b + n) → b <= d < b + n →
  (∀ o, R o = true → b' <= src + σ o < b' + n') → b' <= src < b' + n' →
  disjoint d R src σ → on_region c (m2s d) R →
  (∀ o, R o = true → source c (m2s d + o) = Some (m2s src + σ o)) →
  touched c x = true → touched c y = true → source c y ≠ Some x.
Proof.
  intros Hp Hp' HR Hd HR' Hs Hdis Hc Hsrc Hx Hy. rewrite Hc in Hx, Hy.
  pose proof (Hsrc _ Hy) as He. replace (m2s d + (y - m2s d)) with y in He by lia.
  rewrite He. intros [= Hxy].
  pose proof (placed_contiguous ty k range b n) as Hcg.
  pose proof (placed_contiguous ty k range b' n') as Hcg'.
  apply (Hdis _ _ Hy Hx). apply (MemToShadow_inj ty k range); [done|..].
  - eapply placed_app; [exact Hp|by apply HR].
  - eapply placed_app; [exact Hp'|by apply HR'].
  - pose proof (HR _ Hx) as Hbx. pose proof (HR' _ Hy) as Hby.
    rewrite (Hcg _ Hl Hp Hbx), (Hcg' _ Hl Hp' Hby).
    pose proof (Hcg d Hl Hp Hd). pose proof (Hcg' src Hl Hp' Hs). lia.
Qed.

(** The byte a shadow copy takes. *)
Lemma shadow_source b' n' src (σ : Z → Z) o :
  placed ty range b' n' → b' <= src < b' + n' → b' <= src + σ o < b' + n' →
  m2s (src + σ o) = m2s src + σ o.
Proof.
  intros Hp Hs Ho. pose proof (placed_contiguous ty k range b' n') as Hcg.
  rewrite (Hcg _ Hl Hp Ho). pose proof (Hcg src Hl Hp Hs). lia.
Qed.

Lemma copy_runs q c0 (cc : Z → Z → ddi_call) (cf : Z → ddi_call) d src R σ out s h t :
  tracks s h t → copy_allowed ty SB SE t d R src σ → on_region c0 d R →
  (∀ a a', on_region (cc a a') a R) → (∀ a, on_region (cf a) a R) →
  (∀ a x, source (cf a) x = None) →
  (∀ a m o, R o = true → written m (cf a) (a + o) = Some 0) →
  (∀ a a' o, R o = true → source (cc a a') (a + o) = Some (a' + σ o)) →
  (∀ a a' m x, written m (cc a a') x = m <$> source (cc a a') x) →
  keeps_tracker h (λ ok, copy_region ok d R src σ t) (copy_program drv q c0 cc cf d src out) s h.
Proof.
  intros HR (Hs & Hrd & Hdis) Hc0 Hcc Hcf Hsf Hwf Hsc Hwc. unfold copy_region.
  pose proof (find_chunk view ty k SB SE Hk Hl s h t d HR) as Hf.
  pose proof (find_chunk view ty k SB SE Hk Hl s h t src HR) as Hf'.
  assert (∀ x, app x → view (h ++ [c0]) (m2s x) = view h (m2s x)) as Hu
    by (intros x Hx; by eapply user_command).
  unfold stays in Hs. unfold reads_chunk in Hrd.
  apply mr_bind, mr_UR_CALL.
  2: { intros Hr. split_and!; [done| |by apply refused_last].
       destruct (chunk_of t src), (chunk_of t d);
         [by apply refused_command|by apply (tracks_unchanged s h)
         |by apply refused_command|by apply (tracks_unchanged s h)]. }
  intros ev _ Hp1. apply mr_bind, mr_get. intros _.
  destruct (chunk_of t d) as [[b n]|], (chunk_of t src) as [[b' n']|].
  - destruct Hf as (id & ai & -> & Hsh & Hn & Hn0 & Hp & Hd).
    destruct Hf' as (id' & ai' & -> & Hsh' & Hn' & Hn0' & Hp' & Hd'). cbn beta iota.
    eapply (shadow_runs q ev out b n d R (λ o, view h (m2s (src + σ o))) _ _ _
              (cc (m2s d) (m2s src)) s h h); try done.
    + intros o Hm. cbn [fst snd]. by rewrite !Hm.
    + intros x y. eapply (shadow_apart b n b' n' d src R σ); auto.
    + intros o' Ho'. rewrite Hwc, Hsc by done. cbn. f_equal.
      rewrite <- (shadow_source b' n' src σ o') by auto. apply Hu.
      eapply placed_app; [exact Hp'|by apply Hrd].
    + cbn beta. intros o' v Ho' Hb. by apply (tracks_Holds s h t).
  - destruct Hf as (id & ai & -> & Hsh & Hn & Hn0 & Hp & Hd). rewrite Hf'. cbn beta iota.
    eapply (shadow_runs q ev out b n d R (λ _, 0) _ _ _ (cf (m2s d)) s h h); try done.
    + intros o Hm. cbn [fst snd]. by rewrite Hm.
    + by apply apart_fill.
    + intros o' Ho'. by apply Hwf.
    + by intros o' v _ [= <-].
  - destruct Hf' as (id' & ai' & -> & _). rewrite Hf. by apply (plain_runs q ev out s h h).
  - rewrite Hf, Hf'. by apply (plain_runs q ev out s h h).
Qed.

(** ** Commands *)

(** What a call does to the tracker, whatever the driver answers; it fails only
    when the driver refused something. *)
Definition sound_op (c : op) (s : msan) (h : list ddi_call) (t : tracker) : Prop :=
  mruns (run_op drv c)
    (λ p s' h', ∀ ok, (ok = true → ¬ refused drv h h') → tracks s' h' (after c ok (Some p) t))
    (λ s' h', refused drv h h' ∧
       ∀ ok, (ok = true → ¬ refused drv h h') → tracks s' h' (after c ok None t)) s h.

Lemma sound_command c s h t :
  (∀ ok r, after c ok r t = after c ok None t) →
  keeps_tracker h (λ ok, after c ok None t) (run_op drv c) s h → sound_op c s h t.
Proof.
  intros Ha Hkt. eapply mr_mono; [exact Hkt|..]; cbn beta.
  - intros p s' h' _ [-> HR] ok _. by rewrite Ha.
  - intros s' h' _ (-> & HR & Hr). split; [done|]. intros ok Hok. destruct ok; [|done].
    by destruct (Hok eq_refl).
Qed.

Lemma rect_byte m q a pitch wd ht wl out x : written m (Enqueue_Fill2D q a pitch [0] wd ht wl out) x = Some 0.
Proof. cbn [written length]. by rewrite Z.mod_1_r. Qed.

Lemma USMFill_sound q p pat n wl out s h t :
  tracks s h t → stays ty SB SE t p (flat_in n) → sound_op (USMFill q p pat n wl out) s h t.
Proof.
  intros HR Hs. apply sound_command; [done|].
  apply (fill_runs q _ (λ a, Enqueue_Fill q a [u8 0] n [] true)); try done.
  intros. by rewrite written_byte.
Qed.

Lemma USMFill2D_sound q p pitch pat wd ht wl out s h t :
  tracks s h t → stays ty SB SE t p (rect_in pitch wd ht) →
  sound_op (USMFill2D q p pitch pat wd ht wl out) s h t.
Proof.
  intros HR Hs. apply sound_command; [done|].
  apply (fill_runs q _ (λ a, Enqueue_Fill2D q a pitch [0] wd ht [] true)); try done.
  intros. by apply rect_byte.
Qed.

Lemma USMMemcpy_sound q b d src n wl out s h t :
  tracks s h t → copy_allowed ty SB SE t d (flat_in n) src id →
  sound_op (USMMemcpy q b d src n wl out) s h t.
Proof.
  intros HR Hs. apply sound_command; [done|].
  apply (copy_runs q _ (λ a a', Enqueue_Memcpy q b a a' n [] true)
           (λ a, Enqueue_Fill q a [u8 0] n [] true)); try done.
  - intros. by rewrite written_byte.
  - intros a a' o Ho. cbn. do 2 f_equal. lia.
Qed.

Lemma USMMemcpy2D_sound q b d dp src sp wd ht wl out s h t :
  tracks s h t → copy_allowed ty SB SE t d (rect_in dp wd ht) src (rect_source dp sp) →
  sound_op (USMMemcpy2D q b d dp src sp wd ht wl out) s h t.
Proof.
  intros HR Hs. apply sound_command; [done|].
  apply (copy_runs q _ (λ a a', Enqueue_Memcpy2D q b a dp a' sp wd ht [] true)
           (λ a, Enqueue_Fill2D q a dp [0] wd ht [] true)); try done.
  - intros. by apply rect_byte.
  - intros a a' o Ho. cbn. unfold rect_source. by replace (a + o - a) with o by lia.
Qed.
End commands.
