(* ===== verification/MsanOrder.v ===== *)
(** * MsanOrder: the sanitizer's commands run one after the other

    An application that uses one in-order queue and waits for it before it allocates
    device memory or loads globals: then also the commands that the memory
    sanitizer adds, on that queue and on queues of its own, run in the order of the
    calls ([MsanMemory.busy]). *)
From S2P Require Import Prelude SanCommon MsanState MsanShadow MsanLayout MsanMemory.
From S2P Require Import MsanPoison MsanInterceptor MsanTracking MsanCommands.

Section within.
Context (drv : driver) (in_order : Z → bool).
#[local] Abbreviation busy := (busy drv in_order).

(** ** Calls that leave commands on the queues [A] at most *)

Definition within {B} (A : gset Z) (m : M msan B) : Prop := ∀ s h p,
  busy h = Some p → p ⊆ A → ∃ p', busy (m s h).2 = Some p' ∧ p' ⊆ A.

(** A driver call that may be made while the queues [A] have commands. *)
Definition fits (A : gset Z) (c : ddi_call) : Prop :=
  match command_queue c with
  | Some q => A ⊆ {[q]} ∧ in_order q = true ∧ (is_blocking c = true ∨ q ∈ A)
  | None => match c with Host_Memset _ _ _ => A = ∅ | _ => True end
  end.

Lemma within_ret {B} A (b : B) : within A (mret b).
Proof. intros s h p Hp HA. by exists p. Qed.
Lemma within_get A : within A (get (S := msan)).
Proof. intros s h p Hp HA. by exists p. Qed.
Lemma within_modify A (f : msan → msan) : within A (modify f).
Proof. intros s h p Hp HA. by exists p. Qed.
Lemma within_fail {B} A r : within A (fail (A := B) r).
Proof. intros s h p Hp HA. by exists p. Qed.
Lemma within_stop {B} A w : within A (stop (A := B) w).
Proof. intros s h p Hp HA. by exists p. Qed.
Lemma within_deref {B} A (o : option B) : within A (deref o).
Proof. intros s h p Hp HA. exists p. by destruct o. Qed.

Lemma within_bind {B C} A (m : M msan B) (f : B → M msan C) :
  within A m → (∀ b, within A (f b)) → within A (m ≫= f).
Proof.
  intros Hm Hf s h p Hp HA. destruct (Hm s h p Hp HA) as (p1 & Hp1 & HA1). unfold mbind, M_bind.
  destruct (m s h) as [[[b|r|w] s1] h1]; [by eapply Hf|by exists p1..].
Qed.

Lemma within_call A c : fits A c → within A (call drv c).
Proof.
  intros Hc s h p Hp HA. unfold call. cbn [snd]. rewrite busy_snoc, Hp. cbn [mbind option_bind].
  unfold order, fits in *.
  destruct (command_queue c) as [q|].
  - destruct Hc as (HAq & Hio & Hb). case_bool_decide; [|eauto].
    rewrite bool_decide_true, Hio by (by etrans). cbn. eexists. split; [done|].
    destruct (is_blocking c); [apply empty_subseteq|]. destruct Hb as [|Hb]; [done|].
    by apply singleton_subseteq_l.
  - destruct c; try by eauto.
    + eexists. split; [done|]. case_bool_decide; [|done]. etrans; [apply subseteq_difference_l|]; done.
    + subst A. assert (p = ∅) as -> by set_solver. eexists. split; [by rewrite bool_decide_true|done].
Qed.

Lemma within_UR_CALL A c : fits A c → within A (UR_CALL drv c).
Proof.
  intros Hc. apply within_bind; [by apply within_call|]. intros r.
  case_decide; [apply within_ret|apply within_fail].
Qed.

Lemma within_try {B} A (m : M msan B) : within A m → within A (try m).
Proof.
  intros Hm s h p Hp HA. destruct (Hm s h p Hp HA) as (p1 & Hp1 & HA1). unfold try.
  destruct (m s h) as [[[b|r|w] s1] h1]; by exists p1.
Qed.

End within.

Create HintDb ordered.
#[export] Hint Resolve within_ret within_get within_modify within_fail within_stop within_deref within_call
  within_UR_CALL within_try : ordered.
#[export] Hint Extern 1 (fits _ _ _) => done : ordered.

Ltac in_turn :=
  repeat first
    [ solve [eauto with ordered]
    | apply within_bind; [|intros ?]
    | case_match ].

Section order.
Context (drv : driver) (in_order : Z → bool).
#[local] Abbreviation busy := (busy drv in_order).
#[local] Abbreviation within := (within drv in_order).
#[local] Abbreviation fits := (fits in_order).

Lemma within_obj A ty : within A (obj ty).
Proof. unfold obj. in_turn. Qed.
Lemma within_upd A ty f : within A (upd ty f).
Proof. unfold upd, obj. in_turn. Qed.
Lemma within_upd_statics A f : within A (upd_statics f).
Proof. unfold upd_statics. in_turn. Qed.
Lemma within_getContextInfo A c : within A (getContextInfo c).
Proof. unfold getContextInfo. in_turn. Qed.
Lemma within_getDeviceInfo A d : within A (getDeviceInfo d).
Proof. unfold getDeviceInfo. in_turn. Qed.
Lemma within_upd_context A c f : within A (upd_context c f).
Proof. unfold upd_context. in_turn. Qed.
Lemma within_upd_device A d f : within A (upd_device d f).
Proof. unfold upd_device. in_turn. Qed.
#[local] Hint Resolve within_obj within_upd within_upd_statics within_getContextInfo within_getDeviceInfo
  within_upd_context within_upd_device : ordered.
Lemma within_shadow_of A d : within A (shadow_of d).
Proof. unfold shadow_of. in_turn. Qed.
Lemma within_events_wait A q wl out : within A (events_wait drv q wl out).
Proof. unfold events_wait. in_turn. Qed.
#[local] Hint Resolve within_shadow_of within_events_wait : ordered.

(** ** Commands of the application *)

Lemma fits_one q c : command_queue c = Some q → in_order q = true → fits {[q]} c.
Proof. unfold fits. intros -> ->. split_and!; [done..|]. right. set_solver. Qed.

Lemma within_fill q c0 (c1 : Z → ddi_call) d out :
  fits {[q]} c0 → (∀ a, fits {[q]} (c1 a)) → within {[q]} (fill_program drv q c0 c1 d out).
Proof. intros H0 H1. unfold fill_program. in_turn. Qed.

Lemma within_copy q c0 (cc : Z → Z → ddi_call) (cf : Z → ddi_call) d src out :
  fits {[q]} c0 → (∀ a b, fits {[q]} (cc a b)) → (∀ a, fits {[q]} (cf a)) →
  within {[q]} (copy_program drv q c0 cc cf d src out).
Proof. intros H0 H1 H2. unfold copy_program. in_turn. Qed.

(** ** Writing shadow *)

(** The queues that writing shadow of this type leaves busy. *)
Definition shadow_queues (ty : DeviceType) (q : Z) : gset Z := if is_gpu ty then {[q]} else ∅.

Section gpu.
Context (q : Z) (Hq : in_order q = true).
#[local] Hint Extern 1 (fits _ _) => by apply fits_one : ordered.

Lemma within_map_new_page ty P ps wl out : within {[q]} (map_new_page drv ty q P ps wl out).
Proof. unfold map_new_page, EnqueueUSMBlockingSet. in_turn. Qed.
#[local] Hint Resolve within_map_new_page : ordered.

Lemma within_map_shadow_pages ty fuel p P last ps wl out :
  within {[q]} (map_shadow_pages drv ty fuel q p P last ps wl out).
Proof.
  revert P wl. induction fuel as [|fuel IH]; intros P wl; cbn [map_shadow_pages];
    [case_match; in_turn|]. case_match; [|in_turn]. apply within_bind; [|intros ?; apply IH].
  unfold map_shadow_page. in_turn.
Qed.
#[local] Hint Resolve within_map_shadow_pages : ordered.

Lemma within_GPU_poison ty p n v wl out : within {[q]} (GPU_EnqueuePoisonShadow drv ty q p n v wl out).
Proof.
  unfold GPU_EnqueuePoisonShadow, EnqueueMapShadow, GetVirtualMemGranularity, EnqueueUSMBlockingSet. in_turn.
Qed.
End gpu.

Lemma within_poison ty q p n v wl out : in_order q = true →
  within (shadow_queues ty q) (EnqueuePoisonShadow drv ty q p n v wl out).
Proof.
  intros Hq. unfold shadow_queues. destruct ty; cbn [is_gpu EnqueuePoisonShadow]; [..|by apply within_GPU_poison|by apply within_GPU_poison].
  - in_turn.
  - unfold CPU_EnqueuePoisonShadow. in_turn.
Qed.
#[local] Hint Resolve within_poison : ordered.

(** ** Queues of the layer's own *)

(** From no commands left to commands on [q] at most. *)
Definition from_idle {B} (q : Z) (m : M msan B) : Prop := ∀ s h,
  busy h = Some ∅ → ∃ p, busy (m s h).2 = Some p ∧ p ⊆ {[q]}.

Lemma from_idle_within {B} A q (m : M msan B) : A ⊆ {[q]} → within A m → from_idle q m.
Proof.
  intros HA Hm s h Hh. destruct (Hm s h ∅ Hh) as (p & Hp & HpA); [apply empty_subseteq|].
  exists p. split; [done|]. by etrans.
Qed.

Lemma from_idle_bind {B C} q (m : M msan B) (f : B → M msan C) :
  within ∅ m → (∀ b, from_idle q (f b)) → from_idle q (m ≫= f).
Proof.
  intros Hm Hf s h Hh. destruct (Hm s h ∅ Hh) as (p & Hp & HpA); [done|].
  assert (p = ∅) as -> by set_solver. unfold mbind, M_bind.
  destruct (m s h) as [[[b|r|w] s1] h1]; [by apply Hf|by eexists; split; [|apply empty_subseteq]..].
Qed.

Lemma shadow_queues_one ty q : shadow_queues ty q ⊆ {[q]}.
Proof. unfold shadow_queues. destruct (is_gpu ty); set_solver. Qed.

Lemma from_idle_poison {B} q d (f : DeviceType → M msan B) :
  (∀ ty, within (shadow_queues ty q) (f ty)) →
  from_idle q (di ← getDeviceInfo d; ty ← deref (Shadow di); f ty).
Proof.
  intros Hf. apply from_idle_bind; [in_turn|]. intros di. apply from_idle_bind; [in_turn|]. intros ty.
  eapply from_idle_within; [apply shadow_queues_one|apply Hf].
Qed.

Lemma busy_quiet h c p : command_queue c = None → busy h = Some p →
  match c with Host_Memset _ _ _ | Queue_Finish _ => False | _ => True end → busy (h ++ [c]) = Some p.
Proof. intros Hc Hp Hn. rewrite busy_snoc, Hp. cbn. unfold order. rewrite Hc. by destruct c. Qed.

Lemma busy_finish h q p : busy h = Some p →
  ∃ p', busy (h ++ [Queue_Finish q; Queue_Release q]) = Some p' ∧ p' ⊆ p ∧
        ((drv h (Queue_Finish q)).1 = UR_RESULT_SUCCESS → p ⊆ {[q]} → p' = ∅).
Proof.
  intros Hp. replace (h ++ [Queue_Finish q; Queue_Release q])
    with ((h ++ [Queue_Finish q]) ++ [Queue_Release q]) by (by rewrite <- app_assoc).
  eexists. split; [apply busy_quiet; [done| |done]; rewrite busy_snoc, Hp; done|].
  case_bool_decide; [|done]. split; [set_solver|]. intros _ Hq. set_solver.
Qed.

Context (Hcreated : ∀ h ctx dev, in_order (drv h (Queue_Create ctx dev)).2 = true).

(** Around the queue nothing is left, if finishing it succeeds. *)
Lemma busy_with_queue {B} ctx dev (f : Z → M msan B) s h :
  (∀ q, in_order q = true → from_idle q (f q)) → busy h = Some ∅ →
  ∃ p, busy (with_queue drv ctx dev f s h).2 = Some p ∧
       ((∀ h q, (drv h (Queue_Finish q)).1 = UR_RESULT_SUCCESS) →
        match (with_queue drv ctx dev f s h).1.1 with Halt _ => True | _ => p = ∅ end).
Proof.
  intros Hf Hh. unfold with_queue. set (q := (drv h (Queue_Create ctx dev)).2).
  destruct (Hf q (Hcreated h ctx dev) s (h ++ [Queue_Create ctx dev])) as (p & Hp & Hpq).
  { by apply busy_quiet. }
  destruct (f q s _) as [[[b|r|w] s1] h1]; cbn in *; [| |by eauto];
    destruct (busy_finish h1 q p Hp) as (p' & Hp' & _ & He); exists p'; split; auto.
Qed.

(** ** The calls of an application *)

(** When a call may be made, with the application's queue [Q]. *)
Definition in_turn_op (Q : Z) (c : op) (h : list ddi_call) : Prop :=
  match c with
  | Allocate _ _ _ _ _ DEVICE_USM | Globals _ _ _ => busy h = Some ∅
  | USMFill q _ _ _ _ _ | USMMemcpy q _ _ _ _ _ _ | USMFill2D q _ _ _ _ _ _ _
  | USMMemcpy2D q _ _ _ _ _ _ _ _ _ => q = Q ∧ ∃ p, busy h = Some p ∧ p ⊆ {[Q]}
  | _ => True
  end.

(** From no commands left, to commands that still run one after the other. *)
Definition settles {B} (m : M msan B) : Prop := ∀ s h, busy h = Some ∅ → is_Some (busy (m s h).2).

Lemma settles_bind {B C} (m : M msan B) (f : B → M msan C) :
  within ∅ m → (∀ b, settles (f b)) → settles (m ≫= f).
Proof.
  intros Hm Hf s h Hh. destruct (Hm s h ∅ Hh) as (p & Hp & HpA); [done|].
  assert (p = ∅) as -> by set_solver. unfold mbind, M_bind.
  destruct (m s h) as [[[b|r|w] s1] h1]; [by apply Hf|by eexists..].
Qed.

Lemma settles_ret {B C} (m : M msan B) (c : C) : settles m → settles (m;; mret c).
Proof.
  intros Hm s h Hh. specialize (Hm s h Hh). unfold mbind, M_bind.
  by destruct (m s h) as [[[b|r|w] s1] h1].
Qed.

Lemma settles_within {B} (m : M msan B) : within ∅ m → settles m.
Proof. intros Hm s h Hh. destruct (Hm s h ∅ Hh) as (p & Hp & _); [done|]. eauto. Qed.

Lemma settles_with_queue {B} ctx dev (f : Z → M msan B) :
  (∀ q, in_order q = true → from_idle q (f q)) → settles (with_queue drv ctx dev f).
Proof. intros Hf s h Hh. destruct (busy_with_queue ctx dev f s h Hf Hh) as (p & Hp & _). eauto. Qed.

Lemma within_register_globals ctx ty q gs : in_order q = true →
  within (shadow_queues ty q) (register_globals drv ctx ty q gs).
Proof.
  intros Hq. induction gs as [|g gs IH]; cbn [register_globals]; [in_turn|].
  apply within_bind; [by apply within_poison|intros _]. in_turn.
Qed.

Lemma settles_Globals ctx dev gs : settles (registerDeviceGlobals drv ctx dev gs).
Proof.
  unfold registerDeviceGlobals. apply settles_bind; [in_turn|intros _]. apply settles_with_queue.
  intros q Hq. apply from_idle_bind; [in_turn|intros di].
  destruct gs as [|g gs]; [eapply from_idle_within; [apply empty_subseteq|in_turn]|].
  apply from_idle_bind; [in_turn|intros ty].
  eapply from_idle_within; [apply shadow_queues_one|by apply within_register_globals].
Qed.

Lemma settles_Allocate ctx dev props pool n :
  settles (allocateMemory drv ctx dev props pool n DEVICE_USM).
Proof.
  unfold allocateMemory. do 2 (apply settles_bind; [in_turn|intros _]).
  apply settles_bind; [unfold usm_alloc; in_turn|intros a]. apply settles_bind; [in_turn|intros _]. rewrite decide_True by done.
  apply settles_bind; [unfold register_alloc; in_turn|intros _]. apply settles_ret, settles_with_queue.
  intros q Hq.
  apply (from_idle_poison q dev (λ ty, try (EnqueuePoisonShadow drv ty q a n 0xff [] false))). intros ty. by apply within_try, within_poison.
Qed.

(** Calls without commands. *)
Lemma within_once A g f m : within A m → within A (once g f m).
Proof. intros Hm. unfold once. in_turn. Qed.
#[local] Hint Resolve within_once : ordered.
Lemma within_return_if A b r : within A (return_if b r).
Proof. unfold return_if. in_turn. Qed.
#[local] Hint Resolve within_return_if : ordered.
Lemma within_Setup A ty : within A (Setup drv ty).
Proof.
  unfold Setup, CPU_Setup, GPU_Setup. destruct ty; [in_turn| |..]; apply within_once.
  - unfold CPU_Setup_body, MmapFixedNoReserve, ProtectMemoryRange, DontCoredumpRange. in_turn.
  - unfold GPU_Setup_body. in_turn.
  - unfold GPU_Setup_body. in_turn.
Qed.
#[local] Hint Resolve within_Setup : ordered.
Lemma within_setup_device A ctx d : within A (setup_device drv ctx d).
Proof.
  unfold setup_device, insertDevice, GetDeviceType, GetDeviceUSMCapability, allocShadowMemory,
    GetMsanShadowMemory, call_. in_turn.
Qed.
#[local] Hint Resolve within_setup_device : ordered.
Lemma within_setup_devices A ctx ds : within A (setup_devices drv ctx ds).
Proof. induction ds as [|d ds IH]; cbn [setup_devices]; in_turn. Qed.
#[local] Hint Resolve within_setup_devices : ordered.

Lemma op_in_turn Q c s h p :
  in_order Q = true → in_turn_op Q c h → busy h = Some p → is_Some (busy (run_op drv c s h).2).
Proof.
  intros HQ Hc Hp.
  assert (∀ m : M msan Z, within p m → is_Some (busy (m s h).2)) as Hq.
  { intros m Hm. destruct (Hm s h p Hp) as (p' & ? & _); eauto. }
  assert (∀ q (m : M msan Z), (q = Q ∧ ∃ p, busy h = Some p ∧ p ⊆ {[Q]}) → within {[q]} m →
            is_Some (busy (m s h).2)) as Hone.
  { intros q m (-> & p' & Hp' & HpQ) Hm. destruct (Hm s h p' Hp' HpQ) as (? & ? & _). eauto. }
  destruct c as [ctx ds|ctx|ctx|ctx dev props pool n at_|ctx ptr|ctx dev gs|q d pat n wl out|
    q b d src n wl out|q d pitch pat wd ht wl out|q b d dp src sp wd ht wl out]; cbn [run_op in_turn_op] in *.
  - apply Hq. unfold setupContext, insertContext, call_. in_turn.
  - apply Hq. unfold urContextRetain, known_context. in_turn.
  - apply Hq. unfold urContextRelease, known_context, eraseContext, call_. in_turn.
  - destruct at_; try by (apply Hq; unfold allocateMemory, usm_alloc; in_turn).
    by apply settles_Allocate.
  - apply Hq. unfold releaseMemory, erase_it. in_turn.
  - by apply (settles_ret _ _ (settles_Globals ctx dev gs)).
  - apply (Hone q); [done|]. destruct Hc as [-> _].
    apply (within_fill Q (Enqueue_Fill Q d pat n wl true) (λ a, Enqueue_Fill Q a [u8 0] n [] true));
      intros; by apply fits_one.
  - apply (Hone q); [done|]. destruct Hc as [-> _].
    apply (within_copy Q (Enqueue_Memcpy Q b d src n wl true)
      (λ a a', Enqueue_Memcpy Q b a a' n [] true) (λ a, Enqueue_Fill Q a [u8 0] n [] true));
      intros; by apply fits_one.
  - apply (Hone q); [done|]. destruct Hc as [-> _].
    apply (within_fill Q (Enqueue_Fill2D Q d pitch pat wd ht wl true)
      (λ a, Enqueue_Fill2D Q a pitch [0] wd ht [] true)); intros; by apply fits_one.
  - apply (Hone q); [done|]. destruct Hc as [-> _].
    apply (within_copy Q (Enqueue_Memcpy2D Q b d dp src sp wd ht wl true)
      (λ a a', Enqueue_Memcpy2D Q b a dp a' sp wd ht [] true)
      (λ a, Enqueue_Fill2D Q a dp [0] wd ht [] true)); intros; by apply fits_one.
Qed.

(** ** Runs *)

(** Runs whose calls are made in turn. *)
Inductive reaches_in_turn (ty : DeviceType) (SB SE Q : Z) : msan → list ddi_call → tracker → Prop :=
| in_turn_new : reaches_in_turn ty SB SE Q new_msan [] no_chunks
| in_turn_finish q s h t :
    reaches_in_turn ty SB SE Q s h t → reaches_in_turn ty SB SE Q s (h ++ [Queue_Finish q]) t
| in_turn_call c s h t ok r s' h' :
    reaches_in_turn ty SB SE Q s h t → allowed drv ty SB SE c s h t → in_turn_op Q c h →
    run_op drv c s h = (r, s', h') →
    (∀ Context Devices, c = SetupContext Context Devices → ∃ v, r = Go v) →
    (ok = true → ¬ refused drv h h') →
    reaches_in_turn ty SB SE Q s' h' (after c ok (match r with Go p => Some p | _ => None end) t).

Lemma in_turn_reaches ty SB SE Q s h t :
  in_order Q = true → reaches_in_turn ty SB SE Q s h t →
  reaches drv ty SB SE s h t ∧ is_Some (busy h).
Proof.
  intros HQ. induction 1 as [|q s h t _ [IH [p Hp]]|c s h t ok r s' h' _ [IH [p Hp]] Ha Hc Hrun Hset Hok].
  - split; [constructor|]. by eexists.
  - split; [by constructor|]. rewrite busy_snoc, Hp. by eexists.
  - split; [by econstructor|]. pose proof (op_in_turn Q c s h p HQ Hc Hp) as Ho. by rewrite Hrun in Ho.
Qed.
End order.
#[export] Hint Resolve within_obj within_upd within_getContextInfo within_getDeviceInfo within_upd_context
  within_shadow_of within_events_wait : ordered.
