(* ===== verification/MsanRuns.v ===== *)
(** * MsanRuns: the memory sanitizer keeps its contract

    Allocation and release, globals, contexts and devices; then the theorems about
    every state that the calls of an application reach. *)
From S2P Require Import Prelude SanCommon MsanState MsanShadow MsanLayout MsanMemory.
From S2P Require Import MsanPoison MsanInterceptor MsanTracking MsanCommands MsanOrder.

Section runs.
Context (drv : driver) (view : list ddi_call → Z → Z) (ty : DeviceType) (k SB SE : Z).
#[local] Abbreviation range := (range SB SE).
#[local] Abbreviation page := (2 ^ k).
#[local] Abbreviation m2s := (MemToShadow ty range).
#[local] Abbreviation zone := (shadow_zone ty range).
#[local] Abbreviation app := (app_address ty range).
#[local] Abbreviation mapped := (mapped ty k).
#[local] Abbreviation tracks := (tracks view ty k SB SE).
#[local] Abbreviation has_shadow := (has_shadow ty).
#[local] Abbreviation chunk_entry := (chunk_entry ty).
#[local] Abbreviation sound_op := (sound_op drv view ty k SB SE).
#[local] Abbreviation placed := (placed ty range).
Context (Hk : 0 <= k <= 46) (Hl : layout_ok ty k range) `{HD : !SerialMemory drv view zone page}.

(** ** Shadow written by the sanitizer itself *)

Lemma tracks_grown s s' h t :
  grown ty s s' → tracks s h t →
  (setup_result ty s' = setup_result ty s) ∧
  (∀ x, mapped s (m2s x) → mapped s' (m2s x)) ∧
  ∀ h' bs, (∀ x, bs x ≠ Lost → app x ∧ mapped s' (m2s x) ∧ setup_result ty s = Some UR_RESULT_SUCCESS ∧
                 ∀ v, bs x = Holds v → view h' (m2s x) = v) →
           tracks s' h' (mkT (chunks t) bs).
Proof.
  intros (G1 & G2 & G3 & G4 & G5 & G6 & G7 & G8 & G9 & G10 & G11) HR.
  assert (setup_result ty s' = setup_result ty s) as Hsr by (unfold setup_result; by rewrite G1).
  split; [done|]. split; [intros x Hm Hg; apply G11, Hm, Hg|].
  intros h' bs Hbs. destruct HR as [H1 H2 H3 H4 H5 H6 H7]. constructor; cbn.
  - rewrite Hsr. intros He. by apply G10, H1.
  - intros d di sh. rewrite G3, Hsr. intros Hd Hs. destruct (H2 d di sh Hd Hs) as (? & ? & ?).
    split_and!; [done|by apply G10|done].
  - intros b id. rewrite G4. intros Hb. destruct (H3 b id Hb) as (ai & Hst & Hbe & Hc & di & Hdi & Hsh).
    exists ai. rewrite G5. split_and!; [done|done|done|]. exists di. by rewrite G3.
  - intros b n. rewrite G4. apply H4.
  - intros id ai. rewrite G5, G8. apply H5.
  - done.
  - intros x Hx. rewrite Hsr. destruct (Hbs x Hx) as (? & ? & ? & ?). by split_and!.
Qed.

Lemma tracks_spared s s' h h' t p n :
  grown ty s s' → tracks s h t → spared view ty k SB SE p n s h h' →
  tracks s' h' (set_bytes (in_range p n) (λ _, Lost) t).
Proof.
  intros Hg HR Hsp. destruct (tracks_grown s s' h t Hg HR) as (_ & Hmm & Ht). apply Ht. intros x.
  unfold in_range. destruct (flat_in n (x - p)) eqn:Hf; [done|]. intros Hx.
  destruct (tr_bytes _ _ _ _ _ _ _ _ HR x Hx) as (Hst & Ha & Hm & Hv).
  split_and!; [done|by apply Hmm|done|]. intros v Hb. rewrite Hsp; [by apply Hv|done| |done].
  intros Hr. assert (flat_in n (x - p) = true); [apply flat_in_spec; lia|congruence].
Qed.

Lemma tracks_poisoned s s' h h' t p n v ok :
  grown ty s s' → tracks s h t → poisoned view ty k SB SE p n v s s' h h' → placed p n →
  setup_result ty s = Some UR_RESULT_SUCCESS →
  tracks s' h' (set_bytes (in_range p n) (λ _, fresh_byte ok v) t).
Proof.
  intros Hg HR [Hps Hsp] Hp Hst0. destruct (tracks_grown s s' h t Hg HR) as (_ & Hmm & Ht). apply Ht. intros x.
  unfold in_range. destruct (flat_in n (x - p)) eqn:Hf.
  - apply flat_in_spec in Hf. intros Hx. destruct (Hps x) as [Hm Hv]; [lia|].
    split_and!; [apply (placed_app ty _ p n); [done|lia]|done|done|]. destruct ok; [by intros v' [= <-]|done].
  - intros Hx. destruct (tr_bytes _ _ _ _ _ _ _ _ HR x Hx) as (Hst & Ha & Hm & Hv).
    split_and!; [done|by apply Hmm|done|]. intros v' Hb. rewrite Hsp; [by apply Hv|done| |done].
    intros Hr. assert (flat_in n (x - p) = true); [apply flat_in_spec; lia|congruence].
Qed.

(** Knowing less. *)
Lemma tracks_weaken s h t t' :
  tracks s h t → chunks t' = chunks t → (∀ x, bytes t' x ≠ Lost → bytes t' x = bytes t x) → tracks s h t'.
Proof.
  intros HR Hc Hb. destruct t' as [cs bs]; cbn in *; subst cs.
  destruct (tracks_grown s s h t) as (_ & _ & Ht); [done..|]. apply Ht.
  intros x Hx. pose proof (Hb x Hx) as He. rewrite He in Hx.
  destruct (tr_bytes _ _ _ _ _ _ _ _ HR x Hx) as (Hst & Ha & Hm & Hv). rewrite He. by split_and!.
Qed.

Lemma tracks_quiet s h t c : tracks s h t → (∀ x, touched c x = false) → tracks s (h ++ [c]) t.
Proof.
  intros HR Hq. apply (tracks_unchanged view ty k SB SE s h); [done|]. intros x Hx.
  apply call_keeps; [by apply (m2s_zone ty k SB SE)|done].
Qed.

Lemma tracks_context s h t m : tracks s h t → tracks (set_ContextMap m s) h t.
Proof. intros [H1 H2 H3 H4 H5 H6 H7]. by constructor. Qed.

(** ** Allocation *)

Lemma tracks_add s h t p n ai :
  tracks s h t → AllocBegin ai = p → AllocSize ai = n → has_shadow s (AI_Device ai) → 0 < n → placed p n →
  (∀ b m, chunks t !! b = Some m → p + n <= b ∨ b + m <= p) →
  tracks (set_AllocationMap (emplace p (next_id s) (m_AllocationMap s)) (add_alloc ai s)) h (add_chunk p n t).
Proof.
  intros HR Hb Hn Hsh Hn0 Hp Hfr.
  assert (chunks t !! p = None) as Hc0.
  { destruct (chunks t !! p) as [m|] eqn:Hc; [|done]. destruct (tr_chunk _ _ _ _ _ _ _ _ HR p m Hc) as (_ & Hm0 & _).
    destruct (Hfr p m Hc); lia. }
  assert (m_AllocationMap s !! p = None) as Hm0.
  { apply eq_None_not_Some. rewrite <- (tracks_dom view ty k SB SE s h t p HR), Hc0. by intros [? ?]. }
  unfold emplace. rewrite Hm0. destruct HR as [H1 H2 H3 H4 H5 H6 H7]. constructor; cbn; try done.
  - intros b id [[<- <-]|[Hne Hid]]%lookup_insert_Some.
    + exists ai. cbn. rewrite !lookup_insert_eq. by rewrite Hn.
    + destruct (H3 b id Hid) as (ai' & Hst & Hbe & Hc & Hd). exists ai'. cbn.
      rewrite !lookup_insert_ne; [by split_and!|done|]. specialize (H5 id ai' Hst). lia.
  - intros b m [[<- <-]|[Hne Hbm]]%lookup_insert_Some.
    + rewrite lookup_insert_eq. by split_and!.
    + rewrite lookup_insert_ne by done. by apply H4.
  - intros id ai' [[<- <-]|[Hne Hid]]%lookup_insert_Some; [lia|]. specialize (H5 id ai' Hid). lia.
  - intros b m b' m' [[<- <-]|[Hne Hbm]]%lookup_insert_Some [[<- <-]|[Hne' Hbm']]%lookup_insert_Some Hbb;
      [done|by apply Hfr|destruct (Hfr b m Hbm); lia|by apply H6].
Qed.

Lemma mr_with_queue {A} ctx dev (f : Z → M msan A) (Q : A → msan → list ddi_call → Prop)
    (E : msan → list ddi_call → Prop) s h :
  (∀ q, mruns (f q) (λ a s' h', Q a s' (h' ++ [Queue_Finish q; Queue_Release q]))
         (λ s' h', E s' (h' ++ [Queue_Finish q; Queue_Release q])) s (h ++ [Queue_Create ctx dev])) →
  mruns (with_queue drv ctx dev f) Q E s h.
Proof.
  intros Hf. specialize (Hf (drv h (Queue_Create ctx dev)).2). unfold mruns, with_queue in *.
  assert (∀ q h', (h ++ [Queue_Create ctx dev]) `prefix_of` h' →
            h `prefix_of` (h' ++ [Queue_Finish q; Queue_Release q])) as Hpre.
  { intros q h' Hp. etrans; [by apply prefix_app_r|]. etrans; [exact Hp|by apply prefix_app_r]. }
  destruct (f _ s (h ++ [Queue_Create ctx dev])) as [[[a|r|w] s'] h']; [..|done].
  - destruct Hf as [Hp Hq]. split; [by apply Hpre|done].
  - destruct Hf as (Hr & Hp & Hq). split; [done|]. split; [by apply Hpre|done].
Qed.

Lemma tracks_release s h t q : tracks s h t → tracks s (h ++ [Queue_Finish q; Queue_Release q]) t.
Proof.
  intros HR. replace (h ++ [Queue_Finish q; Queue_Release q])
    with ((h ++ [Queue_Finish q]) ++ [Queue_Release q]) by (by rewrite <- app_assoc).
  by apply tracks_quiet; [apply tracks_quiet|].
Qed.

Lemma set_up_of s h t d : tracks s h t → has_shadow s d → set_up ty SB SE s ∧ setup_result ty s = Some UR_RESULT_SUCCESS.
Proof. intros HR (di & Hd & Hs). by destruct (tr_device _ _ _ _ _ _ _ _ HR d di ty Hd Hs) as (_ & ? & ?). Qed.

(** A call that the driver is asked for at most, and that says nothing of the state. *)
Lemma usm_alloc_runs ctx dev props pool n at_ s h t :
  tracks s h t →
  mruns (usm_alloc drv ctx dev props pool n at_)
    (λ p s' h', s' = s ∧ tracks s h' t ∧
       (at_ = DEVICE_USM → drv h (USM_DeviceAlloc ctx dev props pool n) = (UR_RESULT_SUCCESS, p)))
    (λ s' h', s' = s ∧ tracks s h' t ∧ refused drv h h') s h.
Proof.
  intros HR. destruct at_; cbn [usm_alloc]; try (by apply mr_ret);
    (apply mr_UR_CALL; [intros v Hv|intros Hr]; split_and!; try done;
     (by apply tracks_quiet) || by apply refused_last).
Qed.

(** The shadow of a fresh chunk. *)
Lemma poison_chunk_runs ctx dev p n s h0 h t :
  tracks s h t → has_shadow s dev → placed p n → 0 <= n → h0 `prefix_of` h →
  mruns (with_queue drv ctx dev (λ Queue,
      di ← getDeviceInfo dev;
      ty ← deref (Shadow di);
      try (EnqueuePoisonShadow drv ty Queue p n 0xff [] false)))
    (λ _ s' h', ∀ ok, (ok = true → ¬ refused drv h0 h') →
       tracks s' h' (set_bytes (in_range p n) (λ _, fresh_byte ok 255) t))
    (λ _ _, False) s h.
Proof.
  intros HR Hsh Hp Hn Hh. destruct (set_up_of s h t dev HR Hsh) as [Hup Hst].
  apply mr_with_queue. intros q. destruct Hsh as (di & Hd & Hs). unfold getDeviceInfo. mr_steps.
  assert (tracks s (h ++ [Queue_Create ctx dev]) t) as HR1 by (by apply tracks_quiet).
  apply mr_try. eapply mr_mono; [apply (poison_runs drv view ty k SB SE Hk Hl q p n 0xff [] false s h0)|..]; try done.
  - by etrans; [|apply prefix_app_r].
  - cbn beta. intros _ s' h' _ [Hg Hps] ok _. apply tracks_release.
    by apply (tracks_poisoned s s' (h ++ [Queue_Create ctx dev]) h' t p n 255).
  - cbn beta. intros s' h' _ (Hg & Hsp & Hr) _ _ ok Hok. apply tracks_release.
    destruct ok; [|by apply (tracks_spared s s' (h ++ [Queue_Create ctx dev]))].
    exfalso. apply Hok; [done|]. eapply refused_mono; [exact Hr|done|by apply prefix_app_r].
Qed.

Lemma Allocate_sound ctx dev props pool n at_ s h t :
  tracks s h t → allowed drv ty SB SE (Allocate ctx dev props pool n at_) s h t →
  sound_op (Allocate ctx dev props pool n at_) s h t.
Proof.
  intros HR ([ci Hci] & Hdev & Hal). unfold sound_op. cbn [run_op after].
  unfold allocateMemory, getContextInfo. mr_steps.
  eapply mr_mono with (Q := λ _ s' h', s' = s ∧ h' = h) (E := λ _ _, False); [|..|done].
  { destruct (Z.eqb_spec dev 0) as [->|Hd]; [by apply mr_ret|].
    destruct (Hdev Hd) as [di Hdi]. unfold getDeviceInfo. mr_steps. done. }
  intros _ s1 h1 _ [-> ->] _. apply mr_bind.
  eapply mr_mono; [by apply usm_alloc_runs|..]; cbn beta.
  2: { intros s' h' _ (-> & HR' & Hr). split; [done|]. by intros ok _. }
  intros p s' h' _ (-> & HR' & Hdrv) Hh'. unfold upd_context. mr_steps.
  assert (∀ m, tracks (set_ContextMap m s) h' t) as HRc by (intros; by apply tracks_context).
  destruct (decide (at_ = DEVICE_USM)) as [->|]; [|by apply mr_ret].
  destruct (Hal eq_refl) as (Hn & Hsh & Hfr). destruct (Hfr p (Hdrv eq_refl)) as [Hp Hap].
  unfold register_alloc. mr_steps.
  eapply mr_mono; [eapply (poison_chunk_runs ctx dev p n _ h h' (add_chunk p n t))|..].
  - eapply (tracks_add (set_ContextMap (alter (raise_max n) ctx (m_ContextMap s)) s)); try done.
  - exact Hsh.
  - done.
  - lia.
  - done.
  - cbn beta. intros _ s2 h2 _ HR2 _. by apply mr_ret.
  - done.
Qed.

(** ** Release *)

Lemma tracks_drop s h t b n :
  tracks s h t → chunks t !! b = Some n →
  tracks (set_AllocationMap (delete b (m_AllocationMap s)) s) h
    (set_bytes (in_range b n) (λ _, Lost) (drop_chunk b t)).
Proof.
  intros HR Hb. destruct HR as [H1 H2 H3 H4 H5 H6 H7]. constructor; cbn; try done.
  - intros b' id [Hne Hid]%lookup_delete_Some. destruct (H3 b' id Hid) as (ai & ? & ? & ? & ?).
    exists ai. cbn. by rewrite lookup_delete_ne.
  - intros b' m [Hne Hm]%lookup_delete_Some. rewrite lookup_delete_ne by done. by apply H4.
  - intros c m c' m' [_ Hc]%lookup_delete_Some [_ Hc']%lookup_delete_Some. by apply H6.
  - intros x. destruct (in_range b n x); [done|]. apply H7.
Qed.

Lemma Release_sound ctx p s h t : tracks s h t → sound_op (Release ctx p) s h t.
Proof.
  intros HR. unfold sound_op. cbn [run_op after]. unfold releaseMemory. mr_steps.
  pose proof (find_chunk view ty k SB SE Hk Hl s h t p HR) as Hf.
  assert (mruns (match findAllocInfoByAddress s p with Some (It, _, _) => erase_it It | None => mret tt end)
    (λ _ s' h', h' = h ∧ tracks s' h match chunk_of t p with
        | Some (b, n) => set_bytes (in_range b n) (λ _, Lost) (drop_chunk b t)
        | None => t end) (λ _ _, False) s h) as He.
  { destruct (chunk_of t p) as [[b n]|].
    - destruct Hf as (id & ai & -> & _ & Hb & _). unfold erase_it. mr_steps. split; [done|].
      by apply tracks_drop.
    - rewrite Hf. by apply mr_ret. }
  eapply mr_mono; [exact He|..|done]. cbn beta. intros _ s' h' _ [-> HR'] _.
  mr_steps. apply mr_UR_CALL; [intros; mr_steps; intros; by apply tracks_quiet|].
  intros Hr. split; [by apply refused_last|]. intros. by apply tracks_quiet.
Qed.

(** ** Globals *)

Definition in_globals (gs : list DeviceGlobalInfo) (x : Z) : bool :=
  existsb (λ g, in_range (GV_Addr g) (GV_Size g) x) gs.

(** Writing two sets of bytes with one value. *)
Lemma set_bytes_app D1 D2 b t s h :
  tracks s h (set_bytes D2 (λ _, b) (set_bytes D1 (λ _, b) t)) →
  tracks s h (set_bytes (λ x, D1 x || D2 x) (λ _, b) t).
Proof.
  intros HR. eapply tracks_weaken; [exact HR|done|]. intros x _. cbn. by destruct (D1 x), (D2 x).
Qed.

Lemma register_globals_runs ctx q gs s h0 h t :
  tracks s h t → set_up ty SB SE s → setup_result ty s = Some UR_RESULT_SUCCESS → h0 `prefix_of` h →
  Forall (λ g, 0 <= GV_Size g ∧ placed (GV_Addr g) (GV_Size g)) gs →
  mruns (register_globals drv ctx ty q gs)
    (λ _ s' h', ∀ ok, tracks s' h' (set_bytes (in_globals gs) (λ _, fresh_byte ok 0) t))
    (λ s' h', tracks s' h' (set_bytes (in_globals gs) (λ _, Lost) t) ∧ refused drv h0 h') s h.
Proof.
  intros HR Hup Hst Hh Hgs. revert s h t HR Hup Hst Hh.
  induction Hgs as [|g gs [Hn Hp] Hgs IH]; intros s h t HR Hup Hst Hh; cbn [register_globals].
  { apply mr_ret. intros ok. by apply (tracks_weaken s h t). }
  apply mr_bind. eapply mr_mono; [by apply (poison_runs drv view ty k SB SE Hk Hl q _ _ 0 [] false s h0)|..];
    cbn beta.
  - intros _ s1 h1 Hp1 [Hg Hps] _.
    destruct (tracks_grown s s1 h t Hg HR) as (Hsr & _).
    unfold upd_context. mr_steps.
    assert (∀ ok, tracks (set_ContextMap (alter (raise_max (GV_Size g)) ctx (m_ContextMap s1)) s1) h1
              (set_bytes (in_range (GV_Addr g) (GV_Size g)) (λ _, fresh_byte ok 0) t)) as HR1.
    { intros ok. apply tracks_context. by apply (tracks_poisoned s s1 h). }
    assert (∀ ok, mruns (register_globals drv ctx ty q gs)
      (λ _ s' h', ∀ ok', tracks s' h' (set_bytes (in_globals gs) (λ _, fresh_byte ok' 0)
          (set_bytes (in_range (GV_Addr g) (GV_Size g)) (λ _, fresh_byte ok 0) t)))
      (λ s' h', tracks s' h' (set_bytes (in_globals gs) (λ _, Lost)
          (set_bytes (in_range (GV_Addr g) (GV_Size g)) (λ _, fresh_byte ok 0) t)) ∧ refused drv h0 h')
      (set_ContextMap (alter (raise_max (GV_Size g)) ctx (m_ContextMap s1)) s1) h1) as Hrest.
    { intros ok. apply IH; [apply HR1| |by etrans|by etrans].
      destruct Hg as (_ & _ & _ & _ & _ & _ & _ & _ & _ & Hgu & _). by apply Hgu. }
    pose proof (Hrest true) as Ht. pose proof (Hrest false) as Hf. unfold mruns in *.
    destruct (register_globals drv ctx ty q gs _ h1) as [[[a|r|w] s2] h2]; [..|done].
    + destruct Ht as [Hpp Ht], Hf as [_ Hf]. split; [done|].
      intros ok. apply set_bytes_app. destruct ok; [apply (Ht true)|apply (Hf false)].
    + destruct Hf as (? & ? & Hf & ?). split_and!; try done. by apply set_bytes_app.
  - intros s1 h1 Hp1 (Hg & Hsp & Hr). split; [|done].
    eapply (tracks_weaken _ _ (set_bytes (in_range (GV_Addr g) (GV_Size g)) (λ _, Lost) t));
      [by apply (tracks_spared s s1 h)|done|].
    intros x. unfold in_globals. cbn [bytes set_bytes existsb].
    by destruct (in_range (GV_Addr g) (GV_Size g) x), (existsb _ gs).
Qed.

Lemma Globals_sound ctx dev gs s h t :
  tracks s h t → allowed drv ty SB SE (Globals ctx dev gs) s h t → sound_op (Globals ctx dev gs) s h t.
Proof.
  intros HR ([ci Hci] & Hsh & Hgs). destruct (set_up_of s h t dev HR Hsh) as [Hup Hst].
  unfold sound_op. cbn [run_op after]. unfold registerDeviceGlobals, getContextInfo. mr_steps.
  apply mr_with_queue. intros q. destruct Hsh as (di & Hd & Hs). unfold getDeviceInfo. mr_steps.
  assert (tracks s (h ++ [Queue_Create ctx dev]) t) as HR1 by (by apply tracks_quiet).
  destruct gs as [|g gs].
  { apply mr_ret. intros _. apply mr_ret. intros ok _. apply tracks_release.
    by apply (tracks_weaken s _ t). }
  mr_steps.
  eapply mr_mono; [apply (register_globals_runs ctx q (g :: gs) s h _ t); try done; by apply prefix_app_r|..];
    cbn beta.
  - intros _ s' h' _ HR' _. apply mr_ret. intros ok _. apply tracks_release. apply HR'.
  - intros s' h' _ [HR' Hr].
    assert (refused drv h (h' ++ [Queue_Finish q; Queue_Release q])) as Hr'
      by (eapply refused_mono; [exact Hr|done|by apply prefix_app_r]).
    split; [done|]. intros ok Hok. apply tracks_release. destruct ok; [|done]. by destruct Hok.
Qed.

(** ** Contexts and devices *)

Lemma tracks_insert_device s h t d di :
  tracks s h t → m_DeviceMap s !! d = None → Shadow di = None →
  tracks (set_DeviceMap (<[d := di]> (m_DeviceMap s)) s) h t.
Proof.
  intros HR Hd Hs. destruct HR as [H1 H2 H3 H4 H5 H6 H7]. constructor; cbn; try done.
  - intros d' di' sh [[<- <-]|[_ ?]]%lookup_insert_Some ?; [congruence|by eapply H2].
  - intros b id Hb. destruct (H3 b id Hb) as (ai & ? & ? & ? & di' & Hdi & Hsh).
    exists ai. split_and!; [done|done|done|]. exists di'. split; [|done].
    cbn. rewrite lookup_insert_ne; [done|]. congruence.
Qed.

(** Changing what is not the shadow of a device. *)
Lemma tracks_alter_device s h t d f :
  tracks s h t → (∀ di, Shadow (f di) = Shadow di) →
  tracks (set_DeviceMap (alter f d (m_DeviceMap s)) s) h t.
Proof.
  intros HR Hf. destruct HR as [H1 H2 H3 H4 H5 H6 H7]. constructor; cbn; try done.
  - intros d' di' sh. rewrite lookup_alter_Some.
    intros [(<- & di & Hdi & ->)|[_ ?]] Hsh; [rewrite Hf in Hsh|]; by eapply H2.
  - intros b id Hb. destruct (H3 b id Hb) as (ai & ? & ? & ? & di & Hdi & Hsh).
    exists ai. split_and!; [done|done|done|]. destruct (decide (d = AI_Device ai)) as [->|Hne].
    + exists (f di). cbn. by rewrite lookup_alter_eq, Hdi, Hf.
    + exists di. cbn. by rewrite lookup_alter_ne.
Qed.

Lemma eraseContext_runs ctx s h t (E : msan → list ddi_call → Prop) :
  tracks s h t → mruns (eraseContext drv ctx) (λ _ s' h', tracks s' h' t) E s h.
Proof.
  intros HR. unfold eraseContext. mr_steps. destruct (m_ContextMap s !! ctx); mr_steps; [|done].
  unfold call_. mr_steps. apply tracks_quiet; [|done]. by apply tracks_context.
Qed.

Lemma ContextRetain_sound ctx s h t :
  tracks s h t → is_Some (m_ContextMap s !! ctx) → sound_op (ContextRetain ctx) s h t.
Proof.
  intros HR [ci Hci]. unfold sound_op. cbn [run_op after]. unfold urContextRetain. mr_steps.
  apply mr_UR_CALL; [|intros Hr; split; [by apply refused_last|]; intros; by apply tracks_quiet].
  intros v _. mr_steps.
  assert (tracks s (h ++ [Context_Retain ctx]) t) as HR1 by (by apply tracks_quiet).
  unfold known_context. mr_steps. rewrite Hci.
  mr_steps. unfold upd_context. mr_steps. intros ok _. by apply tracks_context.
Qed.

Lemma ContextRelease_sound ctx s h t :
  tracks s h t → is_Some (m_ContextMap s !! ctx) → sound_op (ContextRelease ctx) s h t.
Proof.
  intros HR [ci Hci]. unfold sound_op. cbn [run_op after]. unfold urContextRelease. mr_steps.
  apply mr_UR_CALL; [|intros Hr; split; [by apply refused_last|]; intros; by apply tracks_quiet].
  intros v _. mr_steps.
  assert (tracks s (h ++ [Context_Release ctx]) t) as HR1 by (by apply tracks_quiet).
  unfold known_context. mr_steps. rewrite Hci.
  mr_steps. unfold upd_context. mr_steps.
  destruct (CI_RefCount ci - 1 =? 0).
  - eapply mr_mono; [apply (eraseContext_runs _ _ _ t (λ _ _, False)); by apply tracks_context|..|done].
    cbn beta. intros _ s' h' _ HR' _. mr_steps. by intros.
  - mr_steps. intros ok _. by apply tracks_context.
Qed.

(** ** Setting up *)

Context `{HO : !OneType drv ty SB}.

Lemma range_end : is_gpu ty = true → w64 (SB + GetShadowSize ty) = SE.
Proof.
  intros Hg. destruct (gpu_range view ty k SB SE Hk Hl Hg) as (HSB & HSE & _).
  assert (SE = SB + GetShadowSize ty) as HE.
  { clear HD HO. pose proof Hl as Hl'. destruct ty; try done; by destruct Hl' as (_ & ? & _). }
  assert (0 <= GetShadowSize ty) by (clear; by destruct ty). rewrite w64_small; lia.
Qed.

Lemma GPU_Setup_body_runs o s h :
  is_gpu ty = true → objects s ty = Some o →
  mruns (GPU_Setup_body drv ty) (λ _ s' _, s' = set_object ty (set_range SB SE o) s) (λ _ _, True) s h.
Proof.
  intros Hg Ho. unfold GPU_Setup_body, obj. mr_steps.
  apply mr_UR_CALL; [|done]. intros v Hv _. apply (@reserved drv ty SB HO) in Hv as ->.
  rewrite range_end by done. unfold upd, obj. mr_steps. done.
Qed.

Lemma CPU_Setup_body_runs o s h :
  ty = CPU → objects s ty = Some o →
  mruns (CPU_Setup_body drv) (λ _ s' _, s' = set_object ty (set_range SB SE o) s) (λ _ _, True) s h.
Proof.
  intros Hty Ho.
  assert (SB = CPU_SHADOW1_BEGIN ∧ SE = CPU_SHADOW3_END) as [-> ->].
  { pose proof Hl as Hl'. rewrite Hty in Hl'. exact Hl'. }
  assert (∀ (b : bool) r s h (Q : unit → msan → list ddi_call → Prop) E,
    r ≠ UR_RESULT_SUCCESS → Q tt s h → E s h → mruns (return_if b r) Q E s h) as Hif.
  { intros b r s0 h0 Q E Hr HQ HE. destruct b; [by apply mr_fail|by apply mr_ret]. }
  unfold CPU_Setup_body, MmapFixedNoReserve, ProtectMemoryRange, DontCoredumpRange, upd, obj.
  do 5 (mr_steps; apply Hif; [done| |done]). mr_steps.
  rewrite Hty in Ho. mr_steps. by rewrite Hty.
Qed.

(** The class of the set-up. *)
Lemma Setup_class o s h (Q : unit → msan → list ddi_call → Prop) (E : msan → list ddi_call → Prop) :
  objects s ty = Some o → (∀ s h, E s h) →
  (setup_result ty s = Some UR_RESULT_SUCCESS → Q tt s h) →
  (setup_result ty s = None → ∀ s' h', objects s' ty = Some (set_range SB SE o) →
     setup_result ty s' = Some UR_RESULT_SUCCESS →
     m_DeviceMap s' = m_DeviceMap s → m_AllocationMap s' = m_AllocationMap s → store s' = store s →
     next_id s' = next_id s → m_ContextMap s' = m_ContextMap s → Q tt s' h') →
  mruns (Setup drv ty) Q E s h.
Proof.
  intros Ho HE H1 H2.
  assert (∀ get_result set_result body,
    (∀ s', setup_result ty s' = get_result (statics s')) →
    (∀ r st, get_result (set_result r st) = Some r) →
    mruns body (λ _ s' _, s' = set_object ty (set_range SB SE o) s) (λ _ _, True) s h →
    mruns (once get_result set_result body) Q E s h) as Honce.
  { intros gr sr body Hgr Hsr Hb. unfold once. mr_steps. rewrite Hgr in H1, H2.
    destruct (gr (statics s)) as [r|].
    - mr_steps. case_decide as Hr; [|by apply mr_fail]. mr_steps. subst r. by apply H1.
    - mr_steps. apply mr_try. eapply mr_mono; [exact Hb|..]; cbn beta.
      + intros _ s' h' _ -> _. unfold upd_statics. mr_steps. rewrite decide_True by done. mr_steps.
        apply (H2 eq_refl); try done.
        * cbn. by rewrite decide_True.
        * etrans; [apply Hgr|apply Hsr].
      + intros s' h' _ _ r Hr _. unfold upd_statics. mr_steps. rewrite decide_False by done.
        by apply mr_fail. }
  assert (ty = CPU ∨ is_gpu ty = true) as [Ht|Hg]
    by (clear -Hl; destruct ty; [done|by left|by right..]).
  - assert (Setup drv ty = CPU_Setup drv) as -> by (by rewrite Ht).
    apply Honce; [|done|by apply CPU_Setup_body_runs]. intros s'. unfold setup_result. by rewrite Ht.
  - assert (Setup drv ty = GPU_Setup drv ty) as ->.
    { clear HD HO Hl Honce H1 H2. by destruct ty. }
    apply Honce; [|done|by apply GPU_Setup_body_runs]. intros s'. unfold setup_result. by rewrite Hg.
Qed.

(** A device gets its shadow memory. *)
Lemma tracks_device s s' h h' t :
  tracks s h t → setup_result ty s' = Some UR_RESULT_SUCCESS → set_up ty SB SE s' →
  m_AllocationMap s' = m_AllocationMap s → store s' = store s → next_id s' = next_id s →
  (∀ d di sh, m_DeviceMap s' !! d = Some di → Shadow di = Some sh → sh = ty) →
  (∀ d, has_shadow s d → has_shadow s' d) →
  (∀ x, bytes t x ≠ Lost → (mapped s (m2s x) → mapped s' (m2s x)) ∧ h' = h) →
  tracks s' h' t.
Proof.
  intros HR Hst Hup Ha Hs Hi Hd Hsh Hb. destruct HR as [H1 H2 H3 H4 H5 H6 H7].
  constructor; rewrite ?Ha, ?Hs, ?Hi; try done.
  - intros d di sh Hdi Hsd. split_and!; [by eapply Hd|done|done].
  - intros b id Hid. destruct (H3 b id Hid) as (ai & ? & ? & ? & ?). exists ai.
    rewrite Hs. split_and!; try done. by apply Hsh.
  - intros x Hx. destruct (H7 x Hx) as (? & ? & ? & Hv). destruct (Hb x Hx) as [Hm ->].
    split_and!; [done|done|by apply Hm|done].
Qed.

Lemma has_shadow_alter s d f d' :
  (∀ di, Shadow di = Some ty → Shadow (f di) = Some ty) → has_shadow s d' →
  has_shadow (set_DeviceMap (alter f d (m_DeviceMap s)) s) d'.
Proof.
  intros Hf (di & Hdi & Hs). destruct (decide (d = d')) as [->|Hne].
  - exists (f di). cbn. rewrite lookup_alter_eq, Hdi. split; [done|by apply Hf].
  - exists di. cbn. by rewrite lookup_alter_ne.
Qed.

Lemma GetMsanShadowMemory_runs ctx d s h (Q : option DeviceType → msan → list ddi_call → Prop)
    (E : msan → list ddi_call → Prop) :
  ty ≠ DT_UNKNOWN →
  (∀ o s', objects s' ty = Some o → statics s' = statics s → m_DeviceMap s' = m_DeviceMap s →
     m_AllocationMap s' = m_AllocationMap s → store s' = store s → next_id s' = next_id s →
     m_ContextMap s' = m_ContextMap s →
     (is_Some (objects s ty) → objects s' = objects s) → Q (Some ty) s' h) →
  mruns (GetMsanShadowMemory ctx d ty) Q E s h.
Proof.
  intros Hty HQ. unfold GetMsanShadowMemory. rewrite decide_False by done. mr_steps.
  destruct (objects s ty) as [o|] eqn:Ho; mr_steps.
  - by apply (HQ o).
  - eapply HQ; try done; cbn; [by rewrite decide_True|..]; rewrite Ho; by intros [? ?].
Qed.

Lemma type_known : ty ≠ DT_UNKNOWN.
Proof. clear HD HO. pose proof Hl as Hl'. by destruct ty. Qed.

Lemma allocShadowMemory_runs ctx d di s h t :
  tracks s h t → m_DeviceMap s !! d = Some di → Type_ di = ty →
  mruns (allocShadowMemory drv ctx d) (λ _ s' h', tracks s' h' t) (λ _ _, True) s h.
Proof.
  intros HR Hd Ht. unfold allocShadowMemory, getDeviceInfo. mr_steps. rewrite Ht.
  apply GetMsanShadowMemory_runs; [apply type_known|].
  intros o s1 Ho G1 G2 G3 G4 G5 G6 Go _. unfold upd_device. mr_steps.
  assert (setup_result ty s1 = setup_result ty s) as Hsr by (unfold setup_result; by rewrite G1).
  set (s2 := set_DeviceMap (alter (set_Shadow (Some ty)) d (m_DeviceMap s1)) s1).
  assert (∀ d' di' sh, m_DeviceMap s2 !! d' = Some di' → Shadow di' = Some sh → sh = ty) as Hdev.
  { intros d' di' sh. cbn. rewrite lookup_alter_Some, G2.
    intros [(<- & di0 & _ & ->)|[_ Hdi]] Hsh; cbn in Hsh; [congruence|].
    by eapply (tr_device _ _ _ _ _ _ _ _ HR). }
  assert (∀ d', has_shadow s d' → has_shadow s2 d') as Hhs.
  { intros d' Hd'. apply has_shadow_alter; [done|]. destruct Hd' as (di' & ? & ?).
    exists di'. by rewrite G2. }
  apply (Setup_class o); [done|done|..].
  - intros Hst. assert (setup_result ty s = Some UR_RESULT_SUCCESS) as Hst' by (by rewrite <- Hsr).
    destruct (tr_setup _ _ _ _ _ _ _ _ HR Hst') as (o' & Ho' & Hb & He).
    assert (objects s1 = objects s) as Hobj by (apply Go; eauto).
    apply (tracks_device s s2 h); try done.
    + exists o'. cbn. by rewrite Hobj.
    + intros x _. split; [|done]. unfold MsanPoison.mapped, maps_of. cbn. by rewrite Hobj.
  - intros Hst s3 h3 Ho3 Hst3 G2' G3' G4' G5' _.
    apply (tracks_device s s3 h); try done.
    + by exists (set_range SB SE o).
    + by rewrite G3'.
    + by rewrite G4'.
    + by rewrite G5'.
    + by rewrite G2'.
    + intros d' Hd'. destruct (Hhs d' Hd') as (di' & ? & ?). exists di'. by rewrite G2'.
    + intros x Hx. destruct (tr_bytes _ _ _ _ _ _ _ _ HR x Hx) as (He & _).
      exfalso. assert (setup_result ty s2 = setup_result ty s1) as E2 by done. congruence.
Qed.

Lemma insertDevice_runs d s h t :
  tracks s h t →
  mruns (insertDevice drv d) (λ _ s' h', tracks s' h' t ∧ is_Some (m_DeviceMap s' !! d)) (λ _ _, True) s h.
Proof.
  intros HR. unfold insertDevice. mr_steps. destruct (m_DeviceMap s !! d) as [di|] eqn:Hd.
  { mr_steps. split; [done|]. rewrite Hd. eauto. }
  unfold GetDeviceUSMCapability. mr_steps. apply mr_UR_CALL; [|done]. intros a _ _. mr_steps. split.
  - apply tracks_insert_device; [by apply tracks_quiet; [apply tracks_quiet|]|done|done].
  - cbn. rewrite lookup_insert_eq. eauto.
Qed.

Lemma GetDeviceType_runs ctx d s h t :
  tracks s h t →
  mruns (GetDeviceType drv ctx d) (λ u s' h', s' = s ∧ tracks s h' t ∧ (u = ty ∨ u = DT_UNKNOWN))
    (λ _ _, True) s h.
Proof.
  intros HR.
  assert (mruns (GetDeviceType drv ctx d) (λ u s' h', s' = s ∧ tracks s h' t) (λ _ _, True) s h) as Hm.
  { unfold GetDeviceType, call_. mr_steps.
    assert (tracks s (h ++ [Device_Type d]) t) as HR1 by (by apply tracks_quiet).
    destruct (_ || _); mr_steps; [done|]. destruct (_ =? _); mr_steps; [|done]. split; [done|].
    by apply tracks_quiet; [apply tracks_quiet|]. }
  eapply mr_mono; [apply mr_eqn, Hm|..]; cbn beta; [|done].
  intros u s' h' _ (He & -> & HR'). split_and!; [done|done|]. by eapply (@one_type drv ty SB HO).
Qed.

Lemma setup_device_runs ctx d s h t :
  tracks s h t → mruns (setup_device drv ctx d) (λ _ s' h', tracks s' h' t) (λ _ _, True) s h.
Proof.
  intros HR. unfold setup_device. mr_steps.
  eapply mr_mono; [by apply insertDevice_runs|..]; cbn beta; [|done].
  intros _ s1 h1 _ [HR1 [di Hdi]] _. apply mr_bind.
  eapply mr_mono; [by apply GetDeviceType_runs|..]; cbn beta; [|done].
  intros u s' h2 _ (-> & HR2 & Hu) _. unfold upd_device. mr_steps.
  assert (tracks (set_DeviceMap (alter (set_Type u) d (m_DeviceMap s1)) s1) h2 t) as HR3
    by (by apply tracks_alter_device).
  case_decide as Hunk; [by apply mr_fail|]. destruct Hu as [-> |]; [|done]. mr_steps.
  assert (m_DeviceMap (set_DeviceMap (alter (set_Type ty) d (m_DeviceMap s1)) s1) !! d = Some (set_Type ty di))
    as Hdi' by (cbn; by rewrite lookup_alter_eq, Hdi).
  unfold getDeviceInfo, upd_context. mr_steps. destruct (Shadow (set_Type ty di)); mr_steps.
  - by apply tracks_context.
  - eapply mr_mono; [by eapply allocShadowMemory_runs|..]; cbn beta; [|done].
    intros _ s4 h4 _ HR4 _. mr_steps. by apply tracks_context.
Qed.

Lemma setup_devices_runs ctx ds s h t :
  tracks s h t → mruns (setup_devices drv ctx ds) (λ _ s' h', tracks s' h' t) (λ _ _, True) s h.
Proof.
  revert s h. induction ds as [|d ds IH]; intros s h HR; cbn [setup_devices]; [by apply mr_ret|].
  apply mr_bind. eapply mr_mono; [by apply setup_device_runs|..]; cbn beta; [|done].
  intros _ s1 h1 _ HR1 _. by apply IH.
Qed.

Lemma setupContext_runs ctx ds s h t :
  tracks s h t → mruns (setupContext drv ctx ds) (λ _ s' h', tracks s' h' t) (λ _ _, True) s h.
Proof.
  intros HR. unfold setupContext, insertContext, call_. mr_steps.
  destruct (m_ContextMap s !! ctx); mr_steps; apply setup_devices_runs; [done|].
  apply tracks_context. by apply tracks_quiet.
Qed.

(** ** Every reachable state *)

Lemma tracks_new : tracks new_msan [] no_chunks.
Proof.
  constructor; cbn; try done; unfold setup_result; cbn; by destruct (is_gpu ty).
Qed.

Definition is_setup (c : op) : bool := match c with SetupContext _ _ => true | _ => false end.

Lemma op_sound c s h t :
  is_setup c = false → tracks s h t → allowed drv ty SB SE c s h t → sound_op c s h t.
Proof.
  intros Hc HR Ha. destruct c; [done|..].
  - by apply ContextRetain_sound.
  - by apply ContextRelease_sound.
  - by apply Allocate_sound.
  - by apply Release_sound.
  - by apply Globals_sound.
  - by apply USMFill_sound.
  - by apply USMMemcpy_sound.
  - by apply USMFill2D_sound.
  - by apply USMMemcpy2D_sound.
Qed.

Lemma reaches_tracks s h t : reaches drv ty SB SE s h t → tracks s h t.
Proof.
  induction 1 as [|q s h t Hre IH|c s h t ok r s' h' Hre IH Ha Hrun Hset Hok];
    [apply tracks_new|by apply tracks_quiet|].
  destruct (is_setup c) eqn:Hc.
  - destruct c as [ctx ds| | | | | | | | |]; try done. destruct (Hset ctx ds eq_refl) as [v ->].
    pose proof (setupContext_runs ctx ds s h t IH) as Hm. cbn [after].
    cbn [run_op] in Hrun. unfold mruns in Hm. unfold mbind, M_bind in Hrun.
    destruct (setupContext drv ctx ds s h) as [[[u|e|w] s1] h1]; [|done..].
    injection Hrun as <- <- <-. by destruct Hm.
  - pose proof (op_sound c s h t Hc IH Ha) as Hs. unfold MsanCommands.sound_op, mruns in Hs. rewrite Hrun in Hs.
    destruct r as [p|e|w]; [by apply Hs| |done]. by apply Hs.
Qed.
End runs.

(** The shadow byte of [x] is [v], and on a GPU its page is mapped. *)
Definition shadow_is (view : list ddi_call → Z → Z) (ty : DeviceType) (k : Z) (s : msan)
    (h : list ddi_call) (x v : Z) : Prop :=
  ∃ o, objects s ty = Some o ∧ view h (MemToShadow ty o x) = v ∧
       (is_gpu ty = true →
        is_Some (VirtualMemMaps o !! (MemToShadow ty o x - MemToShadow ty o x mod 2 ^ k))).

(** * Properties *)

(** C5: on devices of one type, in every state that calls on contexts, device memory,
    globals, fills and copies reach, the shadow byte of each byte that the
    application's view of its memory is sure about is what that view says, once the
    commands have run: 255 from its allocation on, 0 once a fill, a copy from the
    host or a global wrote it, and what the source had after a copy on the device;
    on a GPU its page is mapped.  The commands are on one in-order queue, which is
    waited for before device memory is allocated or globals are loaded; a context
    whose set-up fails ends a run. *)
Theorem shadow_tracks_writes drv mem in_order ty k SB SE Q s h t x v :
  0 <= k <= 46 → layout_ok ty k (range SB SE) →
  DeviceMemory drv mem in_order (shadow_zone ty (range SB SE)) (2 ^ k) → OneType drv ty SB →
  in_order Q = true → reaches_in_turn drv in_order ty SB SE Q s h t → bytes t x = Holds v →
  shadow_is mem ty k s h x v.
Proof.
  intros Hk Hl HD HO HQ Hre Hb.
  destruct (in_turn_reaches drv in_order (created_in_order (DeviceMemory := HD)) ty SB SE Q s h t HQ Hre) as [Hr Ho].
  pose proof (serial_SerialMemory drv mem in_order _ _ HD) as HS.
  pose proof (reaches_tracks drv _ ty k SB SE Hk Hl (HD := HS) s h t Hr) as HR.
  assert (bytes t x ≠ Lost) as Hne by congruence.
  destruct (tr_bytes _ _ _ _ _ _ _ _ HR x Hne) as (Hst & _ & Hm & Hv).
  pose proof (tr_setup _ _ _ _ _ _ _ _ HR Hst) as Hup.
  destruct (MemToShadow_set_up ty SB SE s Hup) as (o & Hob & Hmo). exists o. rewrite !Hmo.
  rewrite serial_ordered in Hv by done.
  split_and!; [done|by apply Hv|]. intros Hg. specialize (Hm Hg). unfold maps_of in Hm. by rewrite Hob in Hm.
Qed.

(** C6: on devices of one type and until the set-up of a context fails, in every
    reachable state every allowed call ends and is defined; it fails with an error
    only, and other than for setting up a context only when the driver refused a
    call. *)
Theorem msan_calls_defined drv ty k SB SE s h t c :
  0 <= k <= 46 → layout_ok ty k (range SB SE) → Answers drv (2 ^ k) → OneType drv ty SB →
  reaches drv ty SB SE s h t → allowed drv ty SB SE c s h t →
  ∃ r s' h', run_op drv c s h = (r, s', h') ∧ h `prefix_of` h' ∧
    ((∃ p, r = Go p) ∨
     ∃ e, r = Fail e ∧ e ≠ UR_RESULT_SUCCESS ∧ (is_setup c = false → refused drv h h')).
Proof.
  intros Hk Hl HA HO Hre Ha.
  pose proof (replay_SerialMemory drv (shadow_zone ty (range SB SE)) (2 ^ k) HA) as HS.
  pose proof (reaches_tracks drv replay ty k SB SE Hk Hl s h t Hre) as HR.
  destruct (run_op drv c s h) as [[r s'] h'] eqn:Hrun. exists r, s', h'. split; [done|].
  destruct (is_setup c) eqn:Hc.
  - destruct c as [ctx ds| | | | | | | | |]; try done.
    pose proof (setupContext_runs drv replay ty k SB SE Hk Hl ctx ds s h t HR) as Hm.
    unfold mruns in Hm. cbn [run_op] in Hrun. unfold mbind, M_bind in Hrun.
    destruct (setupContext drv ctx ds s h) as [[[u|e|w] s1] h1]; [..|done]; injection Hrun as <- <- <-.
    + destruct Hm. split; [done|]. left. eauto.
    + destruct Hm as (? & ? & _). split; [done|]. right. exists e. by split_and!.
  - pose proof (op_sound drv replay ty k SB SE Hk Hl c s h t Hc HR Ha) as Hs.
    unfold sound_op, mruns in Hs. rewrite Hrun in Hs.
    destruct r as [p|e|w]; [..|done].
    + destruct Hs. split; [done|]. left. eauto.
    + destruct Hs as (? & ? & ? & _). split; [done|]. right. exists e. by split_and!.
Qed.
