(* ===== verification/MsanTest.v ===== *)
(** * MsanTest: the memory sanitizer on a concrete driver

    A driver that meets the laws of [MsanMemory] and [MsanTracking], a run of an
    application over it, and the witnesses of the theorems of [MsanRuns]. *)
From S2P Require Import Prelude SanCommon MsanState MsanShadow MsanLayout MsanMemory.
From S2P Require Import MsanPoison MsanInterceptor MsanTracking MsanCommands MsanOrder MsanRuns.

Definition test_begin : Z := 0xff00400000000000.
Definition test_end : Z := 0xff00c00000000000.

(** A GPU of the type PVC; chunks are 2^20 bytes apart; calls that [refuse] holds
    of are refused. *)
Definition test_driver (refuse : ddi_call → bool) : driver := λ h c,
  match c with
  | VirtualMem_Granularity _ _ => (UR_RESULT_SUCCESS, 2 ^ 16)
  | Host_Memset _ _ _ => (UR_RESULT_SUCCESS, 0)
  | VirtualMem_Reserve _ _ _ =>
      (if refuse c then UR_RESULT_ERROR_OUT_OF_RESOURCES else UR_RESULT_SUCCESS, test_begin)
  | USM_DeviceAlloc _ _ _ _ _ =>
      (if refuse c then UR_RESULT_ERROR_OUT_OF_DEVICE_MEMORY else UR_RESULT_SUCCESS,
       0xff00000000000000 + 2 ^ 20 * (Z.of_nat (length h) mod 2 ^ 20))
  | Device_Type _ => (UR_RESULT_SUCCESS, UR_DEVICE_TYPE_GPU)
  | Device_SharedSystemUSM _ => (UR_RESULT_SUCCESS, 0)
  | Os_Munmap _ _ => (UR_RESULT_SUCCESS, 0)
  | Os_Mmap a _ _ => (UR_RESULT_SUCCESS, a)
  | _ => (if refuse c then UR_RESULT_ERROR_OUT_OF_RESOURCES else UR_RESULT_SUCCESS,
          Z.of_nat (length h) + 1)
  end.

Definition willing : driver := test_driver (λ _, false).

Lemma test_answers refuse : Answers (test_driver refuse) (2 ^ 16).
Proof. done. Qed.

(** Every queue is in-order. *)
Definition any_queue (q : Z) : bool := true.

Lemma test_memory refuse :
  DeviceMemory (test_driver refuse) replay any_queue (shadow_zone GPU_PVC (range test_begin test_end)) (2 ^ 16).
Proof. apply replay_DeviceMemory, test_answers. Qed.

Lemma test_layout : layout_ok GPU_PVC 16 (range test_begin test_end).
Proof. cbn. unfold test_begin, test_end. split_and!; [lia..|]. by exists 0xff0040000000. Qed.

Lemma test_one_type refuse : OneType (test_driver refuse) GPU_PVC test_begin.
Proof.
  constructor.
  - intros h c d s t s' h' H. left. unfold GetDeviceType in H.
    set (p := 0xff00000000000000 + 2 ^ 20 * (Z.of_nat (length (h ++ [Device_Type d])) mod 2 ^ 20)).
    assert (Z.shiftr p 52 = 0xff0) as Hp.
    { rewrite Z.shiftr_div_pow2 by lia. unfold p.
      pose proof (Z.mod_pos_bound (Z.of_nat (length (h ++ [Device_Type d]))) (2 ^ 20) ltac:(lia)).
      symmetry. apply (Z.div_unique _ (2 ^ 52) 0xff0
        (2 ^ 20 * (Z.of_nat (length (h ++ [Device_Type d])) mod 2 ^ 20))); lia. }
    unfold mbind, M_bind, call, call_, mret, M_ret in H. cbn -[Z.shiftr Z.add Z.mul] in H. fold p in H.
    rewrite Hp in H. by injection H as <- _ _.
  - intros h c a n v. cbn. by intros [= _ <-].
Qed.

Lemma willing_accepts h c : (willing h c).1 = UR_RESULT_SUCCESS.
Proof. by destruct c. Qed.

Lemma willing_not_refused h h' : ¬ refused willing h h'.
Proof. intros (pre & c & _ & _ & Hr). by rewrite willing_accepts in Hr. Qed.

(** ** A run *)

(** One call on a driver that refuses nothing. *)
Definition play (drv : driver) (st : msan * list ddi_call * tracker) (c : op) : msan * list ddi_call * tracker :=
  match run_op drv c st.1.1 st.1.2 with
  | (Go p, s', h') => (s', h', after c true (Some p) st.2)
  | (_, s', h') => (s', h', st.2)
  end.

Definition reached (st : msan * list ddi_call * tracker) : Prop :=
  reaches_in_turn willing any_queue GPU_PVC test_begin test_end 5 st.1.1 st.1.2 st.2.

Lemma reached_reaches st : reached st → reaches willing GPU_PVC test_begin test_end st.1.1 st.1.2 st.2.
Proof. intros Hr. by apply (in_turn_reaches _ any_queue) in Hr as [? _]. Qed.

Definition went (drv : driver) (st : msan * list ddi_call * tracker) (c : op) : bool :=
  match run_op drv c st.1.1 st.1.2 with (Go _, _, _) => true | _ => false end.

Lemma play_reached st c :
  reached st → allowed willing GPU_PVC test_begin test_end c st.1.1 st.1.2 st.2 →
  in_turn_op willing any_queue 5 c st.1.2 → went willing st c = true → reached (play willing st c).
Proof.
  unfold reached, play, went. intros Hre Ha Hc.
  destruct (run_op willing c st.1.1 st.1.2) as [[[p|r|w] s'] h'] eqn:Hrun; intros Hw; try discriminate.
  apply (in_turn_call willing any_queue GPU_PVC test_begin test_end 5 c st.1.1 st.1.2 st.2 true (Go p)); [done..| |].
  - intros. by exists p.
  - intros _. apply willing_not_refused.
Qed.

(** Two chunks; a part of the first is filled and a larger part copied. *)
Definition chunk_a : Z := 0xff00000000800000.
Definition chunk_b : Z := 0xff00000001100000.
Definition new_run := (new_msan, @nil ddi_call, no_chunks).
Definition run1 := play willing new_run (SetupContext 7 [3]).
Definition run2 := play willing run1 (Allocate 7 3 None 0 64 DEVICE_USM).
Definition run3 := play willing run2 (Allocate 7 3 None 0 64 DEVICE_USM).
Definition run4 := play willing run3 (USMFill 5 chunk_a [1; 2] 16 [] true).
Definition copy := USMMemcpy 5 false chunk_b chunk_a 32 [] true.
Definition run5 := play willing run4 copy.

Lemma placed_low p : 0xff00000000000000 <= p <= 0xff00300000000000 →
  placed GPU_PVC (range test_begin test_end) p 64.
Proof.
  intros Hp. eexists. split; [left|]. cbn. unfold test_begin. lia.
Qed.

Lemma run1_reached : reached run1.
Proof. apply play_reached; [apply in_turn_new|done|done|vm_compute; reflexivity]. Qed.

Lemma run2_reached : reached run2.
Proof.
  apply play_reached; [apply run1_reached| |vm_compute; reflexivity|vm_compute; reflexivity].
  split; [by eexists; vm_compute|]. split; [intros _; by eexists; vm_compute|]. intros _.
  split; [lia|]. split; [eexists; split; [vm_compute; reflexivity|reflexivity]|].
  intros p Hp. vm_compute in Hp. injection Hp as <-. split; [apply placed_low; lia|].
  intros b n Hb. assert (chunks run1.2 = ∅) as He by (vm_compute; reflexivity).
  by rewrite He, lookup_empty in Hb.
Qed.

Lemma run2_chunks : chunks run2.2 = {[chunk_a := 64]}.
Proof. vm_compute. reflexivity. Qed.

Lemma run3_reached : reached run3.
Proof.
  apply play_reached; [apply run2_reached| |vm_compute; reflexivity|vm_compute; reflexivity].
  split; [by eexists; vm_compute|]. split; [intros _; by eexists; vm_compute|]. intros _.
  split; [lia|]. split; [eexists; split; [vm_compute; reflexivity|reflexivity]|].
  intros p Hp. vm_compute in Hp. injection Hp as <-. split; [apply placed_low; lia|].
  intros b n Hb. rewrite run2_chunks in Hb. apply lookup_singleton_Some in Hb as [<- <-].
  unfold chunk_a. lia.
Qed.

Lemma run4_reached : reached run4.
Proof.
  apply play_reached; [apply run3_reached| | |vm_compute; reflexivity].
  2: { split; [done|]. exists ∅. split; [vm_compute; reflexivity|set_solver]. }
  cbn [allowed]. unfold stays.
  assert (chunk_of run3.2 chunk_a = Some (chunk_a, 64)) as -> by (vm_compute; reflexivity).
  intros o Ho%flat_in_spec. lia.
Qed.

Lemma copy_is_allowed : allowed willing GPU_PVC test_begin test_end copy run4.1.1 run4.1.2 run4.2.
Proof.
  cbn [allowed copy]. unfold copy_allowed, stays, reads_chunk.
  assert (chunk_of run4.2 chunk_a = Some (chunk_a, 64)) as -> by (vm_compute; reflexivity).
  assert (chunk_of run4.2 chunk_b = Some (chunk_b, 64)) as -> by (vm_compute; reflexivity).
  split; [intros o Ho%flat_in_spec; lia|]. split; [intros o Ho%flat_in_spec; unfold id; lia|].
  intros o o' Ho%flat_in_spec Ho'%flat_in_spec. unfold chunk_a, chunk_b, id. lia.
Qed.

Lemma run5_reached : reached run5.
Proof.
  apply play_reached; [apply run4_reached|apply copy_is_allowed| |vm_compute; reflexivity].
  split; [done|]. exists {[5]}. split; [vm_compute; reflexivity|done].
Qed.

(** The copy has shadow 0 where the first chunk was filled and 255 behind. *)
Lemma shadow_tracks_writes_witness :
  shadow_is replay GPU_PVC 16 run5.1.1 run5.1.2 (chunk_b + 15) 0 ∧
  shadow_is replay GPU_PVC 16 run5.1.1 run5.1.2 (chunk_b + 16) 255.
Proof.
  split; (apply (shadow_tracks_writes willing replay any_queue GPU_PVC 16 test_begin test_end 5
      run5.1.1 run5.1.2 run5.2);
    [lia|apply test_layout|apply test_memory|apply test_one_type|done|apply run5_reached|vm_compute; reflexivity]).
Defined.

Lemma msan_calls_defined_witness :
  ∃ r s' h', run_op willing copy run4.1.1 run4.1.2 = (r, s', h') ∧ run4.1.2 `prefix_of` h' ∧
    ((∃ p, r = Go p) ∨
     ∃ e, r = Fail e ∧ e ≠ UR_RESULT_SUCCESS ∧ (is_setup copy = false → refused willing run4.1.2 h')).
Proof.
  apply (msan_calls_defined willing GPU_PVC 16 test_begin test_end run4.1.1 run4.1.2 run4.2);
    [lia|apply test_layout|apply test_answers|apply test_one_type|apply reached_reaches, run4_reached|apply copy_is_allowed].
Defined.
