(* ===== verification/MsanLimits.v ===== *)
(** * MsanLimits: where the memory sanitizer does not do what it means to

    Each lemma is about the definitions of [MsanShadow] and [MsanInterceptor]; the
    concrete ones run them on the driver of [MsanTest]. *)
From S2P Require Import Prelude SanCommon MsanState MsanShadow MsanLayout MsanMemory.
From S2P Require Import MsanPoison MsanInterceptor MsanTracking MsanCommands MsanRuns MsanTest.

(** ** Set-up and tear-down *)

(** [mmap] returns an address or [MAP_FAILED], never null: the set-up of the host
    shadow succeeds whatever it returns. *)
Lemma mmap_failure_unseen drv s h o :
  (∀ h a n w, (drv h (Os_Mmap a n w)).2 ≠ 0) → objects s CPU = Some o → CPU_Setup_Result (statics s) = None →
  ∃ s' h', CPU_Setup drv s h = (Go tt, s', h') ∧
           CPU_Setup_Result (statics s') = Some UR_RESULT_SUCCESS.
Proof.
  intros Hm Ho Hr. assert (∀ h a n w, ((drv h (Os_Mmap a n w)).2 =? 0) = false) as Hb
    by (intros; by apply Z.eqb_neq).
  unfold CPU_Setup, once, CPU_Setup_body, MmapFixedNoReserve, ProtectMemoryRange, DontCoredumpRange, return_if, upd,
    obj, upd_statics, try, call, get, modify, deref, mbind, M_bind, mret, M_ret.
  rewrite Hr. cbn. do 5 (rewrite Hb; cbn). rewrite Ho. cbn. eauto.
Qed.

Lemma mmap_failure_unseen_ex :
  let drv : driver := λ _ _, (UR_RESULT_SUCCESS, 2 ^ 64 - 1) in
  (CPU_Setup drv (set_object CPU (mkShadow 1 2 0 0 ∅) new_msan) []).1.1 = Go tt.
Proof. vm_compute. reflexivity. Qed.

(** When unmapping works, the tear-down of the host shadow reports an error after
    the third call and leaves the rest mapped. *)
Lemma unmapping_reports_an_error drv s h o :
  (∀ h a n, (drv h (Os_Munmap a n)).2 = 0) → objects s CPU = Some o → ShadowBegin o ≠ 0 →
  CPU_Destory_Result (statics s) = None →
  CPU_Destory drv s h =
    (Fail UR_RESULT_ERROR_UNKNOWN, set_statics (set_CPU_Destory UR_RESULT_ERROR_UNKNOWN (statics s)) s,
     h ++ [Os_Munmap CPU_SHADOW1_BEGIN (CPU_SHADOW1_END - CPU_SHADOW1_BEGIN)] ++
          [Os_Munmap CPU_SHADOW1_END (CPU_SHADOW2_BEGIN - CPU_SHADOW1_END)] ++
          [Os_Munmap CPU_SHADOW2_BEGIN (CPU_SHADOW2_END - CPU_SHADOW2_BEGIN)]).
Proof.
  intros Hm Ho Hb Hr.
  unfold CPU_Destory, once, CPU_Destory_body, Munmap, return_if, obj, upd_statics, try, call, get, modify,
    deref, fail, mbind, M_bind, mret, M_ret.
  rewrite Ho. cbn. rewrite (proj2 (Z.eqb_neq _ _) Hb). cbn. rewrite Hr. cbn. do 3 (rewrite Hm; cbn).
  by rewrite <- !app_assoc.
Qed.

(** A GPU of the other type shares the set-up of the first: it succeeds without
    a reservation, and the shadow of an address is the address after it. *)
Lemma second_gpu_type drv ty s h :
  is_gpu ty = true → GPU_Setup_Result (statics s) = Some UR_RESULT_SUCCESS →
  GPU_Setup drv ty s h = (Go tt, s, h) ∧
  ∀ o p, ShadowBegin o = 0 → ShadowEnd o = 0 → 0 <= p < 2 ^ 64 - 1 → MemToShadow GPU_DG2 o p = p + 1.
Proof.
  intros Hg Hr. split.
  - unfold GPU_Setup, once, get, mbind, M_bind, mret, M_ret. cbn. by rewrite Hr.
  - intros o p Hb He Hp. cbn. rewrite Hb, He. unfold MemToShadow_DG2. rewrite (proj2 (Z.ltb_ge _ _)) by lia.
    change (w64 (0xffffffffffffffff - 0)) with 0xffffffffffffffff. unfold w64.
    replace (p - 0xffffffffffffffff) with (p + 1 + -1 * 2 ^ 64) by lia.
    rewrite Z.mod_add by lia. apply Z.mod_small. lia.
Qed.

(** Freeing a GPU's shadow neither unmaps its pages nor releases their memory. *)
Lemma pages_outlive_shadow drv ty s h o :
  objects s ty = Some o →
  (GPU_Destory_body drv ty s h).2 =
    (h ++ [VirtualMem_Free (Sh_Context o) (ShadowBegin o) (GetShadowSize ty)]) ++
    [Context_Release (Sh_Context o)].
Proof.
  intros Ho. unfold GPU_Destory_body, obj, call, get, deref, fail, mbind, M_bind, mret, M_ret.
  cbn. rewrite Ho. cbn. by case_decide.
Qed.

(** After a context whose shadow could not be reserved, creating a context for the
    device succeeds, with a shadow at address 0. *)
Definition no_reserve : driver :=
  test_driver (λ c, match c with VirtualMem_Reserve _ _ _ => true | _ => false end).

Lemma second_context_without_shadow :
  let r1 := setupContext no_reserve 7 [3] new_msan [] in
  let r2 := setupContext no_reserve 8 [3] r1.1.2 r1.2 in
  r1.1.1 = Fail UR_RESULT_ERROR_OUT_OF_RESOURCES ∧ r2.1.1 = Go tt ∧
  ShadowBegin <$> objects r2.1.2 GPU_PVC = Some 0 ∧
  Shadow <$> m_DeviceMap r2.1.2 !! 3 = Some (Some GPU_PVC).
Proof. vm_compute. done. Qed.

(** ** Pages *)

(** The page of the last address of device memory is not in the reserved range. *)
Lemma last_page_outside ty k o :
  is_gpu ty = true → layout_ok ty k o → ¬ shadow_zone ty o (MemToShadow ty o (device_last ty)).
Proof.
  intros Hg Hl. rewrite (last_address_outside ty k o Hg Hl). destruct ty; try done; cbn; lia.
Qed.

(** Giving back a page that no allocation uses any more keeps its entry: it
    counts as mapped, and is unmapped again the next time. *)
Lemma released_page_stays drv ty id P ps ph s h o :
  objects s ty = Some o → VirtualMemMaps o !! P = Some (ph, {[id]}) →
  (∀ h c, (drv h c).1 = UR_RESULT_SUCCESS) →
  ∃ s', release_page drv ty id P ps s h =
          (Go tt, s', (h ++ [VirtualMem_Unmap (Sh_Context o) P ps]) ++ [PhysicalMem_Release ph]) ∧
        maps_of ty s' !! P = Some (ph, ∅) ∧
        (∀ q wl out h', map_new_page drv ty q P ps wl out s' h' = (Go wl, s', h')) ∧
        ∀ h', ∃ s'', release_page drv ty id P ps s' h' =
          (Go tt, s'', (h' ++ [VirtualMem_Unmap (Sh_Context o) P ps]) ++ [PhysicalMem_Release ph]).
Proof.
  intros Ho HP Hok.
  assert (∀ s o us h', objects s ty = Some o → VirtualMemMaps o !! P = Some (ph, us) → us ∖ {[id]} = ∅ →
    release_page drv ty id P ps s h' =
      (Go tt, set_object ty (set_maps (<[P := (ph, ∅)]> (VirtualMemMaps o)) o) s,
       (h' ++ [VirtualMem_Unmap (Sh_Context o) P ps]) ++ [PhysicalMem_Release ph])) as Hrel.
  { intros s1 o1 us h' Ho1 HP1 Hus.
    unfold release_page, upd, obj, UR_CALL, call, get, modify, deref, fail, mbind, M_bind, mret, M_ret.
    cbn. rewrite Ho1. cbn. rewrite HP1. cbn. rewrite Ho1. cbn. rewrite Hus.
    rewrite decide_True by done. cbn. by do 2 (rewrite decide_True by apply Hok; cbn). }
  eexists. split; [apply (Hrel s o {[id]}); [done|done|set_solver]|].
  set (s' := set_object ty _ s).
  set (o' := set_maps (<[P := (ph, ∅)]> (VirtualMemMaps o)) o).
  assert (objects s' ty = Some o') as Ho' by (cbn; by rewrite decide_True).
  assert (VirtualMemMaps o' !! P = Some (ph, ∅)) as HP' by (cbn; by rewrite lookup_insert_eq).
  split_and!.
  - unfold maps_of. by rewrite Ho'.
  - intros q wl out h'. unfold map_new_page, obj, get, deref, mbind, M_bind, mret, M_ret.
    rewrite Ho'. by rewrite HP'.
  - intros h'. eexists. apply (Hrel s' o' ∅); [done|done|set_solver].
Qed.

(** ** Events *)

(** A caller without an event: once a page was mapped, nothing that follows waits
    for the caller's events. *)
Lemma wait_list_dropped drv ty q P ps wl s h s' h' wl' o :
  objects s ty = Some o → VirtualMemMaps o !! P = None →
  map_new_page drv ty q P ps wl false s h = (Go wl', s', h') → wl' = [].
Proof.
  intros Ho HP. unfold map_new_page, upd, obj. intros H.
  apply bind_Go_inv in H as (o1 & s1 & h1 & Ho1 & H).
  assert (o1 = o ∧ s1 = s) as [-> ->].
  { revert Ho1. unfold get, deref, mbind, M_bind, mret, M_ret. rewrite Ho. by intros [= -> -> _]. }
  rewrite HP in H.
  apply bind_Go_inv in H as (? & s2 & h2 & _ & H). apply bind_Go_inv in H as (? & s3 & h3 & _ & H).
  apply bind_Go_inv in H as (? & s4 & h4 & _ & H). apply bind_Go_inv in H as (? & s5 & h5 & _ & H).
  by injection H as <- _ _.
Qed.

(** The shadow command of a fill does not wait for what the fill waits for. *)
Lemma shadow_fill_does_not_wait :
  let r := urEnqueueUSMFill willing 5 chunk_a [1] 16 [99] false run3.1.1 run3.1.2 in
  drop (length run3.1.2) r.2 =
    [Enqueue_Fill 5 chunk_a [1] 16 [99] true;
     Enqueue_Fill 5 (MemToShadow GPU_PVC (range test_begin test_end) chunk_a) [0] 16 [] true].
Proof. vm_compute. reflexivity. Qed.

(** ** Allocation and release *)

(** An allocation whose shadow could not be written succeeds, and all of it counts
    as initialised. *)
Definition no_pages : driver :=
  test_driver (λ c, match c with PhysicalMem_Create _ _ _ => true | _ => false end).

Lemma unpoisoned_allocation :
  let r1 := setupContext no_pages 7 [3] new_msan [] in
  let r2 := allocateMemory no_pages 7 3 None 0 64 DEVICE_USM r1.1.2 r1.2 in
  r2.1.1 = Go chunk_a ∧
  replay r2.2 (MemToShadow GPU_PVC (range test_begin test_end) chunk_a) = 0 ∧
  is_Some (findAllocInfoByAddress r2.1.2 chunk_a).
Proof. vm_compute. split_and!; [done|done|by eexists]. Qed.

(** A chunk that could not be freed is forgotten. *)
Lemma release_forgets_first drv ctx p s h It id ai e v :
  findAllocInfoByAddress s p = Some (It, id, ai) → drv h (USM_Free ctx p) = (e, v) → e ≠ UR_RESULT_SUCCESS →
  releaseMemory drv ctx p s h =
    (Fail e, set_AllocationMap (delete It (m_AllocationMap s)) s, h ++ [USM_Free ctx p]).
Proof.
  intros Hf Hd He. unfold releaseMemory, erase_it, UR_CALL, call, get, modify, fail, mbind, M_bind, mret, M_ret.
  cbn. rewrite Hf. cbn. rewrite Hd. cbn. by rewrite decide_False.
Qed.

(** ** Launches *)

(** The clean shadow that a launch gets is allocated and not written. *)
Lemma clean_shadow_not_written drv li dev debug s h l s' h' :
  prepare_launch_info drv li dev debug s h = (Go l, s', h') →
  ∃ n, h' = h ++ [USM_DeviceAlloc (LI_Context li) dev None 0 n].
Proof.
  unfold prepare_launch_info. intros H.
  apply bind_Go_inv in H as (ci & s1 & h1 & H1 & H).
  apply bind_Go_inv in H as (di & s2 & h2 & H2 & H).
  apply bind_Go_inv in H as (sh & s3 & h3 & H3 & H).
  assert (∀ A (o : option A) (a : A) s0 h0 s1 h1, @deref msan A o s0 h0 = (Go a, s1, h1) → h1 = h0) as Hd
    by (intros A [x|] a s0 h0 s1' h1' E; [by injection E as <- <- <-|discriminate E]).
  assert (h1 = h) as -> by (apply (Hd _ _ _ _ _ _ _ H1)).
  assert (h2 = h) as -> by (apply (Hd _ _ _ _ _ _ _ H2)).
  assert (h3 = h) as ->.
  { unfold shadow_of in H3. apply bind_Go_inv in H3 as (? & ? & ? & E1 & H3).
    apply bind_Go_inv in H3 as (? & ? & ? & E2 & H3). apply bind_Go_inv in H3 as (? & ? & ? & E3 & H3).
    injection H3 as _ _ <-. rewrite (Hd _ _ _ _ _ _ _ E3), (Hd _ _ _ _ _ _ _ E2). apply (Hd _ _ _ _ _ _ _ E1). }
  apply bind_Go_inv in H as (p & s4 & h4 & (_ & _ & ->)%UR_CALL_inv & H).
  injection H as _ _ <-. eauto.
Qed.
