(* ===== verification/MsanBuffer.v ===== *)
(** * MsanBuffer: source/loader/layers/sanitizer/msan/msan_buffer.{cpp,hpp}, msan_ddi.cpp

    Buffers under the memory sanitizer: device memory allocated where a buffer is
    first used, its contents moved through the host when the device changes, and
    the buffer commands, which work on that memory and its shadow. *)
From S2P Require Import Prelude SanCommon MsanState MsanShadow MsanInterceptor.

(** ** Flags *)

Definition UR_MEM_FLAG_USE_HOST_POINTER : Z := Z.shiftl 1 3.
Definition UR_MEM_FLAG_ALLOC_COPY_HOST_POINTER : Z := Z.shiftl 1 5.
Definition UR_MAP_FLAG_READ : Z := Z.shiftl 1 0.
Definition UR_MAP_FLAG_WRITE : Z := Z.shiftl 1 1.
Definition UR_MAP_FLAG_WRITE_INVALIDATE_REGION : Z := Z.shiftl 1 2.

Definition has_flag (flags f : Z) : bool := negb (Z.land flags f =? 0).

(** [ur_rect_offset_t], [ur_rect_region_t] *)
Record rect_offset := mkOffset { off_x : Z; off_y : Z; off_z : Z }.
Record rect_region := mkRegion { width : Z; height : Z; depth : Z }.

Section buffer.
Variable drv : driver.

(** ** [MemBuffer] *)

(** The object behind a [std::shared_ptr<MemBuffer>]. *)
Definition buffer (b : Z) : M msan MemBuffer := s ← get; deref (buffers s !! b).
Definition upd_buffer (b : Z) (f : MemBuffer → MemBuffer) : M msan unit :=
  mb ← buffer b; modify (set_buffer b (f mb)).

Definition set_allocation (Device Ptr : Z) (mb : MemBuffer) : MemBuffer :=
  mkMB (MB_Context mb) (MB_Size mb) (HostPtr mb) (<[Device := Ptr]> (Allocations mb)) (Mappings mb)
    (LastSyncedDevice mb) (SubBuffer mb) (MB_RefCount mb).
Definition clear_allocations (mb : MemBuffer) : MemBuffer :=
  mkMB (MB_Context mb) (MB_Size mb) (HostPtr mb) ∅ (Mappings mb)
    (LastSyncedDevice mb) (SubBuffer mb) (MB_RefCount mb).
Definition set_mappings (m : gmap Z (Z * Z)) (mb : MemBuffer) : MemBuffer :=
  mkMB (MB_Context mb) (MB_Size mb) (HostPtr mb) (Allocations mb) m
    (LastSyncedDevice mb) (SubBuffer mb) (MB_RefCount mb).
Definition set_synced (Device Handle : Z) (mb : MemBuffer) : MemBuffer :=
  mkMB (MB_Context mb) (MB_Size mb) (HostPtr mb) (Allocations mb) (Mappings mb)
    (Device, Handle) (SubBuffer mb) (MB_RefCount mb).
Definition set_MB_RefCount (n : Z) (mb : MemBuffer) : MemBuffer :=
  mkMB (MB_Context mb) (MB_Size mb) (HostPtr mb) (Allocations mb) (Mappings mb)
    (LastSyncedDevice mb) (SubBuffer mb) n.

(** [MemBuffer::getAlignment]: [__builtin_clzl(0)] and a shift by 64 are undefined. *)
Definition getAlignment (Size : Z) : option Z :=
  if (Size <=? 0) || (2 ^ 63 <=? Size) then None
  else Some (Z.min (Z.shiftl 1 (Z.log2 Size + 1)) 128).

(** [auto &Allocation = Allocations[Device]]: a missing entry is made, with null. *)
Definition allocation (b Device : Z) : M msan Z :=
  mb ← buffer b;
  let p := default 0 (Allocations mb !! Device) in
  upd_buffer b (set_allocation Device p);;
  mret p.

(** The part of [getHandle] that allocates on the device. *)
Definition allocate_on (b Device : Z) : M msan Z :=
  p ← allocation b Device;
  if p =? 0 then
    mb ← buffer b;
    align ← deref (getAlignment (MB_Size mb));
    p ← allocateMemory drv (MB_Context mb) Device (Some align) 0 (MB_Size mb) DEVICE_USM;
    upd_buffer b (set_allocation Device p);;
    (if HostPtr mb =? 0 then mret tt
     else
       with_queue drv (MB_Context mb) Device (λ Queue,
         UR_CALL drv (Enqueue_Memcpy Queue true p (HostPtr mb) (MB_Size mb) [] false);;
         di ← getDeviceInfo Device;
         ty ← deref (Shadow di);
         EnqueuePoisonShadow drv ty Queue p (MB_Size mb) 0 [] false;;
         mret tt));;
    mret p
  else mret p.

(** The part of [getHandle] that moves the contents from the last device. *)
Definition migrate (b Device Handle : Z) : M msan unit :=
  mb ← buffer b;
  let Last := LastSyncedDevice mb in
  if (Last.1 =? 0) || (Device =? Last.1) then mret tt
  else
    host ← allocation b 0;
    host ← (if host =? 0 then
              align ← deref (getAlignment (MB_Size mb));
              p ← UR_CALL drv (USM_HostAlloc (MB_Context mb) (Some align) 0 (MB_Size mb));
              upd_buffer b (set_allocation 0 p);;
              mret p
            else mret host);
    with_queue drv (MB_Context mb) Last.1 (λ Queue,
      UR_CALL drv (Enqueue_Memcpy Queue true host Last.2 (MB_Size mb) [] false));;
    with_queue drv (MB_Context mb) Device (λ Queue,
      UR_CALL drv (Enqueue_Memcpy Queue true Handle host (MB_Size mb) [] false));;
    mret tt.

Definition own_handle (b Device : Z) : M msan Z :=
  mb ← buffer b;
  Device ← (if Device =? 0 then d ← call drv (Context_FirstDevice (MB_Context mb)); mret d.2
            else mret Device);
  Handle ← allocate_on b Device;
  migrate b Device Handle;;
  upd_buffer b (set_synced Device Handle);;
  mret Handle.

(** Sub-buffers use their parent, which was made before them. *)
Fixpoint getHandle_fuel (fuel : nat) (b Device : Z) : M msan Z :=
  mb ← buffer b;
  match SubBuffer mb with
  | Some sub =>
      match fuel with
      | O => stop NoFuel
      | S fuel' => Handle ← getHandle_fuel fuel' (Parent sub) Device; mret (w64 (Handle + Origin sub))
      end
  | None => own_handle b Device
  end.
Definition getHandle (b Device : Z) : M msan Z := getHandle_fuel (Z.to_nat b) b Device.

(** [MemBuffer::free]: the entries in turn; one that fails leaves the map as it is. *)
Fixpoint free_all (Context : Z) (ptrs : list (Z * Z)) : M msan unit :=
  match ptrs with
  | [] => mret tt
  | (_, Ptr) :: ptrs' => UR_CALL drv (USM_Free Context Ptr);; free_all Context ptrs'
  end.
Definition free (b : Z) : M msan unit :=
  mb ← buffer b;
  free_all (MB_Context mb) (map_to_list (Allocations mb));;
  upd_buffer b clear_allocations.

(** ** The calls on buffers *)

(** [getMemBuffer(hBuffer)]: whether the handle is one of the layer's. *)
Definition is_buffer (b : Z) : M msan bool := s ← get; mret (bool_decide (b ∈ m_MemBufferMap s)).

(** A new object and its handle. *)
Definition new_buffer (mb : MemBuffer) : M msan Z :=
  s ← get;
  modify (set_buffer (next_id s) mb);;
  modify bump_id;;
  mret (next_id s).
Definition insertMemBuffer (b : Z) : M msan unit :=
  modify (λ s, set_MemBufferMap ({[b]} ∪ m_MemBufferMap s) s).
Definition eraseMemBuffer (b : Z) : M msan unit :=
  modify (λ s, set_MemBufferMap (m_MemBufferMap s ∖ {[b]}) s).

(** The copies of [urMemBufferCreate], one for each device of the context. *)
Fixpoint initial_copies (Context b Host size : Z) (Devices : list Z) : M msan unit :=
  match Devices with
  | [] => mret tt
  | d :: ds =>
      with_queue drv Context d (λ Queue,
        Handle ← getHandle b d;
        UR_CALL drv (Enqueue_Memcpy Queue true Handle Host size [] false);;
        di ← getDeviceInfo d;
        ty ← deref (Shadow di);
        EnqueuePoisonShadow drv ty Queue Handle size 0 [] false);;
      initial_copies Context b Host size ds
  end.

(** [Host] is [pProperties->pHost], 0 without properties. *)
Definition urMemBufferCreate (Context flags size Host : Z) : M msan Z :=
  let hostPtrOrNull := if has_flag flags UR_MEM_FLAG_USE_HOST_POINTER then Host else 0 in
  b ← new_buffer (mkMB Context size hostPtrOrNull ∅ ∅ (0, 0) None 1);
  (if negb (Host =? 0) && has_flag flags UR_MEM_FLAG_ALLOC_COPY_HOST_POINTER then
     ci ← getContextInfo Context;
     initial_copies Context b Host size (DeviceList ci)
   else mret tt);;
  insertMemBuffer b;;
  mret b.

Definition urMemRetain (b : Z) : M msan unit :=
  mine ← is_buffer b;
  if mine : bool then mb ← buffer b; upd_buffer b (set_MB_RefCount (MB_RefCount mb + 1))
  else UR_CALL drv (Mem_Forward b);; mret tt.

Definition urMemRelease (b : Z) : M msan unit :=
  mine ← is_buffer b;
  if mine : bool then
    mb ← buffer b;
    upd_buffer b (set_MB_RefCount (MB_RefCount mb - 1));;
    if MB_RefCount mb - 1 =? 0 then free b;; eraseMemBuffer b else mret tt
  else UR_CALL drv (Mem_Forward b);; mret tt.

Definition urMemBufferPartition (b origin size : Z) : M msan Z :=
  mine ← is_buffer b;
  if mine : bool then
    mb ← buffer b;
    if MB_Size mb <? w64 (origin + size) then fail UR_RESULT_ERROR_INVALID_BUFFER_SIZE
    else
      sub ← new_buffer (mkMB (MB_Context mb) size 0 ∅ ∅ (0, 0) (Some (mkSub b origin)) 1);
      insertMemBuffer sub;;
      mret sub
  else UR_CALL drv (Mem_Forward b).

Definition GetDevice (Queue : Z) : M msan Z := d ← call drv (Queue_Device Queue); mret d.2.
Definition GetContext (Queue : Z) : M msan Z := c ← call drv (Queue_Context Queue); mret c.2.

Definition urEnqueueMemBufferRead (Queue b : Z) (blocking : bool) (offset size Dst : Z) (waits : list Z)
    (out : bool) : M msan Z :=
  mine ← is_buffer b;
  if mine : bool then
    Device ← GetDevice Queue;
    Src ← getHandle b Device;
    UR_CALL drv (Enqueue_Memcpy Queue blocking Dst (w64 (Src + offset)) size waits out)
  else UR_CALL drv (Mem_Forward b).

(** The shadow command of a write and a fill. *)
Definition clear_shadow (Queue Device Ptr size : Z) (waits : list Z) : M msan Z :=
  sh ← shadow_of Device;
  UR_CALL drv (Enqueue_Fill Queue (MemToShadow sh.1 sh.2 Ptr) [0] size waits true).

Definition urEnqueueMemBufferWrite (Queue b : Z) (blocking : bool) (offset size Src : Z) (waits : list Z)
    (out : bool) : M msan Z :=
  mine ← is_buffer b;
  if mine : bool then
    Device ← GetDevice Queue;
    Dst ← getHandle b Device;
    ev ← UR_CALL drv (Enqueue_Memcpy Queue blocking (w64 (Dst + offset)) Src size waits true);
    ev' ← clear_shadow Queue Device (w64 (Dst + offset)) size waits;
    events_wait drv Queue [ev; ev'] out
  else UR_CALL drv (Mem_Forward b).

Definition urEnqueueMemBufferFill (Queue b : Z) (pattern : list Z) (offset size : Z) (waits : list Z)
    (out : bool) : M msan Z :=
  mine ← is_buffer b;
  if mine : bool then
    Device ← GetDevice Queue;
    Handle ← getHandle b Device;
    ev ← UR_CALL drv (Enqueue_Fill Queue (w64 (Handle + offset)) pattern size waits true);
    ev' ← clear_shadow Queue Device (w64 (Handle + offset)) size waits;
    events_wait drv Queue [ev; ev'] out
  else UR_CALL drv (Mem_Forward b).

Definition urEnqueueMemBufferCopy (Queue bSrc bDst srcOffset dstOffset size : Z) (waits : list Z)
    (out : bool) : M msan Z :=
  src ← is_buffer bSrc;
  dst ← is_buffer bDst;
  if (src : bool) && dst then
    Device ← GetDevice Queue;
    sh ← shadow_of Device;
    Src ← getHandle bSrc Device;
    Dst ← getHandle bDst Device;
    ev ← UR_CALL drv (Enqueue_Memcpy Queue false (w64 (Dst + dstOffset)) (w64 (Src + srcOffset)) size
                        waits true);
    let DstShadow := MemToShadow sh.1 sh.2 (w64 (Dst + dstOffset)) in
    let SrcShadow := MemToShadow sh.1 sh.2 (w64 (Src + srcOffset)) in
    ev' ← UR_CALL drv (Enqueue_Memcpy Queue false DstShadow SrcShadow size waits true);
    events_wait drv Queue [ev; ev'] out
  else if src || dst then fail UR_RESULT_ERROR_INVALID_MEM_OBJECT
  else UR_CALL drv (Mem_Forward bSrc).

(** [UR_ASSERT(AccessMode != UNKNOWN, ...)]: the mode has no other use. *)
Definition mode_known (flags : Z) : bool :=
  has_flag flags UR_MAP_FLAG_WRITE_INVALIDATE_REGION || has_flag flags UR_MAP_FLAG_READ ||
  has_flag flags UR_MAP_FLAG_WRITE.

(** The mapped pointer. *)
Definition urEnqueueMemBufferMap (Queue b : Z) (blocking : bool) (flags offset size : Z) (waits : list Z)
    (out : bool) : M msan Z :=
  mine ← is_buffer b;
  if mine : bool then
    (if mode_known flags then mret tt else fail UR_RESULT_ERROR_INVALID_ARGUMENT);;
    Device ← GetDevice Queue;
    mb ← buffer b;
    RetMap ← (if HostPtr mb =? 0 then
                Context ← GetContext Queue;
                align ← deref (getAlignment (MB_Size mb));
                UR_CALL drv (USM_HostAlloc Context (Some align) 0 size)
              else mret (w64 (HostPtr mb + offset)));
    Src ← getHandle b Device;
    UR_CALL drv (Enqueue_Memcpy Queue blocking RetMap (w64 (Src + offset)) size waits out);;
    mb ← buffer b;
    match Mappings mb !! RetMap with
    | Some _ => fail UR_RESULT_ERROR_INVALID_VALUE
    | None => upd_buffer b (set_mappings (<[RetMap := (offset, size)]> (Mappings mb)));; mret RetMap
    end
  else UR_CALL drv (Mem_Forward b).

Definition urEnqueueMemUnmap (Queue b MappedPtr : Z) (waits : list Z) (out : bool) : M msan unit :=
  mine ← is_buffer b;
  if mine : bool then
    mb ← buffer b;
    match Mappings mb !! MappedPtr with
    | None => fail UR_RESULT_ERROR_INVALID_VALUE
    | Some (Offset, Size) =>
        upd_buffer b (set_mappings (delete MappedPtr (Mappings mb)));;
        Context ← GetContext Queue;
        Device ← GetDevice Queue;
        Dst ← getHandle b Device;
        UR_CALL drv (Enqueue_Memcpy Queue true (w64 (Dst + Offset)) MappedPtr Size waits out);;
        if HostPtr mb =? 0 then UR_CALL drv (USM_Free Context MappedPtr);; mret tt else mret tt
    end
  else UR_CALL drv (Mem_Forward b);; mret tt.

Definition urMemGetNativeHandle (b Device : Z) : M msan Z :=
  mine ← is_buffer b;
  if mine : bool then getHandle b Device else UR_CALL drv (Mem_Forward b).

(** ** Rectangles *)

(** A pitch of 0 stands for the one of a tight region. *)
Definition pitch_or (pitch tight : Z) : Z := if pitch =? 0 then w64 tight else pitch.

Definition rect_origin (p : Z) (o : rect_offset) (RowPitch SlicePitch : Z) : Z :=
  w64 (p + off_x o + RowPitch * off_y o + SlicePitch * off_z o).

(** The loop over the rows of a slice of the shadow. *)
Fixpoint fill_rows (Queue DstShadow DstRowPitch width : Z) (waits : list Z) (rows : list Z)
  : M msan (list Z) :=
  match rows with
  | [] => mret []
  | HeightIndex :: rows' =>
      ev ← UR_CALL drv (Enqueue_Fill Queue (w64 (DstShadow + HeightIndex * DstRowPitch)) [0] width waits true);
      evs ← fill_rows Queue DstShadow DstRowPitch width waits rows';
      mret (ev :: evs)
  end.

(** The loop over the slices; the two flags are [IsDstDeviceUSM] and
    [IsSrcDeviceUSM]. *)
Fixpoint copy_slices (Queue Device : Z) (DstUSM SrcUSM : bool)
    (DstOrigin DstRowPitch DstSlicePitch SrcOrigin SrcRowPitch SrcSlicePitch : Z) (region : rect_region)
    (waits : list Z) (slices : list Z) : M msan (list Z) :=
  match slices with
  | [] => mret []
  | i :: slices' =>
      let Dst := w64 (DstOrigin + i * DstSlicePitch) in
      let Src := w64 (SrcOrigin + i * SrcSlicePitch) in
      ev ← UR_CALL drv (Enqueue_Memcpy2D Queue false Dst DstRowPitch Src SrcRowPitch
                          (width region) (height region) waits true);
      evs ← (if DstUSM then
               sh ← shadow_of Device;
               if SrcUSM then
                 ev' ← UR_CALL drv (Enqueue_Memcpy2D Queue false
                                      (MemToShadow sh.1 sh.2 Dst) DstRowPitch
                                      (MemToShadow sh.1 sh.2 Src) SrcRowPitch
                                      (width region) (height region) waits true);
                 mret [ev']
               else
                 fill_rows Queue (MemToShadow sh.1 sh.2 Dst) DstRowPitch (width region) waits
                   (seqZ 0 (height region))
             else mret []);
      evs' ← copy_slices Queue Device DstUSM SrcUSM DstOrigin DstRowPitch DstSlicePitch
               SrcOrigin SrcRowPitch SrcSlicePitch region waits slices';
      mret (ev :: evs ++ evs')
  end.

(** [&Events[0]] of an empty vector is undefined. *)
Definition EnqueueMemCopyRectHelper (Queue pSrc pDst : Z) (SrcOffset DstOffset : rect_offset)
    (region : rect_region) (SrcRowPitch SrcSlicePitch DstRowPitch DstSlicePitch : Z) (Blocking : bool)
    (waits : list Z) (out : bool) : M msan Z :=
  let SrcRowPitch := pitch_or SrcRowPitch (width region) in
  let SrcSlicePitch := pitch_or SrcSlicePitch (SrcRowPitch * height region) in
  let DstRowPitch := pitch_or DstRowPitch (width region) in
  let DstSlicePitch := pitch_or DstSlicePitch (DstRowPitch * height region) in
  let SrcOrigin := rect_origin pSrc SrcOffset SrcRowPitch SrcSlicePitch in
  let DstOrigin := rect_origin pDst DstOffset DstRowPitch DstSlicePitch in
  s ← get;
  let IsDstDeviceUSM := bool_decide (is_Some (findAllocInfoByAddress s DstOrigin)) in
  let IsSrcDeviceUSM := bool_decide (is_Some (findAllocInfoByAddress s SrcOrigin)) in
  Device ← GetDevice Queue;
  Events ← copy_slices Queue Device IsDstDeviceUSM IsSrcDeviceUSM DstOrigin DstRowPitch DstSlicePitch
             SrcOrigin SrcRowPitch SrcSlicePitch region waits (seqZ 0 (depth region));
  (if Blocking then deref (head Events);; UR_CALL drv (Event_Wait Events);; mret tt else mret tt);;
  if out then deref (head Events);; UR_CALL drv (Enqueue_EventsWait Queue Events true) else mret 0.

Definition urEnqueueMemBufferReadRect (Queue b : Z) (blocking : bool) (bufferOrigin hostOrigin : rect_offset)
    (region : rect_region) (bufferRowPitch bufferSlicePitch hostRowPitch hostSlicePitch Dst : Z)
    (waits : list Z) (out : bool) : M msan Z :=
  mine ← is_buffer b;
  if mine : bool then
    Device ← GetDevice Queue;
    SrcHandle ← getHandle b Device;
    EnqueueMemCopyRectHelper Queue SrcHandle Dst bufferOrigin hostOrigin region bufferRowPitch
      bufferSlicePitch hostRowPitch hostSlicePitch blocking waits out
  else UR_CALL drv (Mem_Forward b).

Definition urEnqueueMemBufferWriteRect (Queue b : Z) (blocking : bool) (bufferOrigin hostOrigin : rect_offset)
    (region : rect_region) (bufferRowPitch bufferSlicePitch hostRowPitch hostSlicePitch Src : Z)
    (waits : list Z) (out : bool) : M msan Z :=
  mine ← is_buffer b;
  if mine : bool then
    Device ← GetDevice Queue;
    DstHandle ← getHandle b Device;
    EnqueueMemCopyRectHelper Queue Src DstHandle hostOrigin bufferOrigin region hostRowPitch
      hostSlicePitch bufferRowPitch bufferSlicePitch blocking waits out
  else UR_CALL drv (Mem_Forward b).

Definition urEnqueueMemBufferCopyRect (Queue bSrc bDst : Z) (srcOrigin dstOrigin : rect_offset)
    (region : rect_region) (srcRowPitch srcSlicePitch dstRowPitch dstSlicePitch : Z)
    (waits : list Z) (out : bool) : M msan Z :=
  src ← is_buffer bSrc;
  dst ← is_buffer bDst;
  if (src : bool) && dst then
    Device ← GetDevice Queue;
    SrcHandle ← getHandle bSrc Device;
    DstHandle ← getHandle bDst Device;
    EnqueueMemCopyRectHelper Queue SrcHandle DstHandle srcOrigin dstOrigin region srcRowPitch
      srcSlicePitch dstRowPitch dstSlicePitch false waits out
  else if src || dst then fail UR_RESULT_ERROR_INVALID_MEM_OBJECT
  else UR_CALL drv (Mem_Forward bSrc).
End buffer.
