(* ===== verification/MsanBufferCalls.v ===== *)
(** * MsanBufferCalls: what holds of the buffers after every call

    [buffers_ok] is the invariant of the buffer objects: handles are live, the
    chain of parents of a sub-buffer ends, a sub-buffer has no memory of its own.
    It holds after every call on buffers and on USM, also after one that failed.
    [MsanHandles] builds on it. *)
From S2P Require Import Prelude SanCommon MsanState MsanShadow MsanLayout MsanMemory.
From S2P Require Import MsanPoison MsanInterceptor MsanTracking MsanCommands MsanRuns MsanBuffer.

(** ** Calls that leave the buffers alone *)

Definition same_buffers (s s' : msan) : Prop :=
  buffers s' = buffers s ∧ m_MemBufferMap s' = m_MemBufferMap s ∧ next_id s <= next_id s'.

#[export] Instance same_buffers_refl : Reflexive same_buffers.
Proof. intros s. by split_and!. Qed.
#[export] Instance same_buffers_trans : Transitive same_buffers.
Proof. intros s1 s2 s3 (?&?&?) (?&?&?). split_and!; [congruence..|lia]. Qed.

(** [rel R m]: the run of [m] changes the state along [R], however it ends. *)
Definition rel (R : msan → msan → Prop) {A} (m : M msan A) : Prop := ∀ s h, R s (m s h).1.2.
Abbreviation blind := (rel same_buffers).

Section rel.
Context (R : msan → msan → Prop) `{!Reflexive R, !Transitive R}.

Lemma rel_ret {A} (a : A) : rel R (mret a).
Proof. by intros s h. Qed.
Lemma rel_get : rel R get.
Proof. by intros s h. Qed.
Lemma rel_fail {A} r : rel R (fail r : M msan A).
Proof. by intros s h. Qed.
Lemma rel_stop {A} w : rel R (stop w : M msan A).
Proof. by intros s h. Qed.
Lemma rel_deref {A} (o : option A) : rel R (deref o).
Proof. by destruct o; intros s h. Qed.
Lemma rel_call drv c : rel R (call drv c).
Proof. by intros s h. Qed.
Lemma rel_bind {A B} (m : M msan A) (f : A → M msan B) : rel R m → (∀ a, rel R (f a)) → rel R (m ≫= f).
Proof.
  intros Hm Hf s h. specialize (Hm s h). unfold mbind, M_bind.
  destruct (m s h) as [[[a|r|w] s1] h1]; [|done..]. etrans; [exact Hm|apply Hf].
Qed.
Lemma rel_UR_CALL drv c : rel R (UR_CALL drv c).
Proof. apply rel_bind; [apply rel_call|]. intros r. case_decide; [apply rel_ret|apply rel_fail]. Qed.
Lemma rel_try {A} (m : M msan A) : rel R m → rel R (try m).
Proof. intros Hm s h. specialize (Hm s h). unfold try. by destruct (m s h) as [[[a|r|w] s1] h1]. Qed.
Lemma rel_modify f : (∀ s, R s (f s)) → rel R (modify f).
Proof. intros Hf s h. apply Hf. Qed.
Lemma rel_with_queue {A} drv ctx dev (f : Z → M msan A) : (∀ q, rel R (f q)) → rel R (with_queue drv ctx dev f).
Proof.
  intros Hf s h. unfold with_queue.
  match goal with |- context [f ?q s ?h] => specialize (Hf q s h); by destruct (f q s h) as [[[a|r|w] s1] h1] end.
Qed.
End rel.

Create HintDb rel.
#[export] Hint Resolve rel_ret rel_get rel_fail rel_stop rel_deref rel_call rel_UR_CALL : rel.

(** The steps of a body; what is left are updates and calls of other bodies. *)
Ltac rel_step :=
  lazymatch goal with
  | |- rel _ (_ ≫= _) => apply rel_bind; [typeclasses eauto| |intros ?]
  | |- rel _ (try _) => apply rel_try
  | |- rel _ (with_queue _ _ _ _) => apply rel_with_queue; intros ?
  | |- rel _ (match ?x with _ => _ end) => destruct x
  | |- rel _ _ => solve [eauto with rel typeclass_instances]
  end.
Ltac rel_steps := repeat rel_step.
Ltac blind_modify := apply rel_modify; intros; split_and!; (done || cbn; lia).

Lemma blind_upd ty f : blind (upd ty f).
Proof. unfold upd, obj. rel_steps. blind_modify. Qed.
Lemma blind_upd_statics f : blind (upd_statics f).
Proof. blind_modify. Qed.
Lemma blind_obj ty : blind (obj ty).
Proof. unfold obj. rel_steps. Qed.
Lemma blind_context c : blind (getContextInfo c).
Proof. unfold getContextInfo. rel_steps. Qed.
Lemma blind_device d : blind (getDeviceInfo d).
Proof. unfold getDeviceInfo. rel_steps. Qed.
Lemma blind_upd_context c f : blind (upd_context c f).
Proof. blind_modify. Qed.
Lemma blind_upd_device d f : blind (upd_device d f).
Proof. blind_modify. Qed.
#[export] Hint Resolve blind_upd blind_upd_statics blind_obj blind_context blind_device blind_upd_context
  blind_upd_device : rel.

Section blind_shadow.
Variable drv : driver.

Lemma blind_shadow_of d : blind (shadow_of d).
Proof. unfold shadow_of. rel_steps. Qed.
Lemma blind_events_wait q evs out : blind (events_wait drv q evs out).
Proof. unfold events_wait. rel_steps. Qed.
Lemma blind_fill q p v n evs out : blind (EnqueueUSMBlockingSet drv q p v n evs out).
Proof. unfold EnqueueUSMBlockingSet. rel_steps. Qed.
#[local] Hint Resolve blind_events_wait blind_fill : rel.

Lemma blind_map_pages ty fuel q p P last ps wl out : blind (map_shadow_pages drv ty fuel q p P last ps wl out).
Proof.
  revert P wl. induction fuel as [|fuel IH]; intros P wl; cbn [map_shadow_pages]; [rel_steps|].
  destruct (P <=? last); [|rel_steps].
  apply rel_bind; [typeclasses eauto| |intros wl'; apply IH].
  unfold map_shadow_page, map_new_page. rel_steps.
Qed.
#[local] Hint Resolve blind_map_pages : rel.

Lemma blind_poison ty q p n v evs out : blind (EnqueuePoisonShadow drv ty q p n v evs out).
Proof.
  unfold EnqueuePoisonShadow, CPU_EnqueuePoisonShadow, GPU_EnqueuePoisonShadow, EnqueueMapShadow,
    GetVirtualMemGranularity. rel_steps.
Qed.
#[local] Hint Resolve blind_poison : rel.

Lemma blind_register ai : blind (register_alloc ai).
Proof. unfold register_alloc. rel_steps; blind_modify. Qed.
#[local] Hint Resolve blind_register : rel.

Lemma blind_allocate ctx dev props pool n at_ : blind (allocateMemory drv ctx dev props pool n at_).
Proof. unfold allocateMemory, usm_alloc. rel_steps. Qed.
End blind_shadow.
#[export] Hint Resolve blind_shadow_of blind_events_wait blind_fill blind_poison blind_allocate : rel.

(** ** The invariant *)

(** What makes a sub-buffer: a parent that is older and live, in the same context,
    and no memory of its own. *)
Definition sub_ok (s : msan) (b : Z) (mb : MemBuffer) (sub : SubBuffer_t) : Prop :=
  Parent sub < b ∧ (∃ pm, buffers s !! Parent sub = Some pm ∧ MB_Context pm = MB_Context mb) ∧
  HostPtr mb = 0 ∧ Allocations mb = ∅ ∧ LastSyncedDevice mb = (0, 0).

Record buffers_ok (s : msan) : Prop := {
  bo_next : 0 < next_id s;
  bo_live b mb : buffers s !! b = Some mb → 0 < b < next_id s;
  bo_handle b : b ∈ m_MemBufferMap s → is_Some (buffers s !! b);
  bo_sub b mb sub : buffers s !! b = Some mb → SubBuffer mb = Some sub → sub_ok s b mb sub
}.

(** Updates of one buffer that keep what it is. *)
Definition tame (f : MemBuffer → MemBuffer) : Prop :=
  ∀ mb, MB_Context (f mb) = MB_Context mb ∧ SubBuffer (f mb) = SubBuffer mb ∧ HostPtr (f mb) = HostPtr mb ∧
        (SubBuffer mb ≠ None → Allocations mb = ∅ → Allocations (f mb) = ∅) ∧
        LastSyncedDevice (f mb) = LastSyncedDevice mb.

(** The object of [b] is a buffer with memory of its own. *)
Definition own_memory (s : msan) (b : Z) : Prop :=
  ∃ mb, buffers s !! b = Some mb ∧ SubBuffer mb = None.

(** The invariant is kept, and a buffer with memory of its own stays one. *)
Definition kept (s s' : msan) : Prop :=
  buffers_ok s → buffers_ok s' ∧ ∀ b, own_memory s b → own_memory s' b.

#[export] Instance kept_refl : Reflexive kept.
Proof. intros s Hs. by split. Qed.
#[export] Instance kept_trans : Transitive kept.
Proof. intros s1 s2 s3 H12 H23 H1. destruct (H12 H1) as [H2 Ho]. destruct (H23 H2) as [H3 Ho']. eauto. Qed.

Lemma same_buffers_kept s s' : same_buffers s s' → kept s s'.
Proof.
  intros (Hb & Hm & Hn) HI. split; [|intros b; unfold own_memory; by rewrite Hb].
  destruct HI as [H0 Hl Hh Hs]. constructor.
  - lia.
  - intros b mb. rewrite Hb. intros H. destruct (Hl b mb H). lia.
  - intros b. rewrite Hm, Hb. apply Hh.
  - intros b mb sub. unfold sub_ok. rewrite Hb. by apply Hs.
Qed.

Lemma rel_mono {A} (R R' : msan → msan → Prop) (m : M msan A) :
  (∀ s s', R s s' → R' s s') → rel R m → rel R' m.
Proof. intros H Hm s h. apply H, Hm. Qed.

Lemma kept_blind {A} (m : M msan A) : blind m → rel kept m.
Proof. apply rel_mono, same_buffers_kept. Qed.

(** Replacing the object of a live buffer. *)
Lemma buffers_ok_update s b mb mb' :
  buffers_ok s → buffers s !! b = Some mb → MB_Context mb' = MB_Context mb →
  SubBuffer mb' = SubBuffer mb →
  (∀ sub, SubBuffer mb = Some sub → sub_ok s b mb' sub) →
  buffers_ok (set_buffer b mb' s) ∧ ∀ b', own_memory s b' → own_memory (set_buffer b mb' s) b'.
Proof.
  intros HI Hb Hc Hsub Hs. pose proof HI as [H0 Hl Hh Hs0]. split.
  - assert (∀ p pm, buffers s !! p = Some pm → ∃ pm', <[b := mb']> (buffers s) !! p = Some pm' ∧
      MB_Context pm' = MB_Context pm) as Hp.
    { intros p pm Hpm. destruct (decide (p = b)) as [->|].
      - rewrite lookup_insert_eq. exists mb'. split; [done|]. congruence.
      - rewrite lookup_insert_ne by done. eauto. }
    assert (∀ b0 m0 sub, sub_ok s b0 m0 sub → sub_ok (set_buffer b mb' s) b0 m0 sub) as Hso.
    { intros b0 m0 sub (Hlt & (pm & Hpm & Hctx) & Hrest). split; [done|]. split; [|done].
      destruct (Hp _ _ Hpm) as (pm' & ? & ?). exists pm'. split; [done|]. congruence. }
    constructor; cbn.
    + done.
    + intros b0 m0. destruct (decide (b0 = b)) as [->|].
      * intros _. by apply (Hl b mb).
      * rewrite lookup_insert_ne by done. apply Hl.
    + intros b0 Hb0. rewrite lookup_insert_is_Some'. auto.
    + intros b0 m0 sub. destruct (decide (b0 = b)) as [->|].
      * rewrite lookup_insert_eq. intros [= <-]. rewrite Hsub. auto.
      * rewrite lookup_insert_ne by done. auto.
  - intros b' (m0 & Hm0 & Hn). unfold own_memory. cbn. destruct (decide (b' = b)) as [->|].
    + rewrite lookup_insert_eq. exists mb'. split; [done|]. congruence.
    + rewrite lookup_insert_ne by done. eauto.
Qed.

Lemma kept_tame b f : tame f → rel kept (upd_buffer b f).
Proof.
  intros Hf s h. unfold upd_buffer, buffer, mbind, M_bind, get, modify, deref, mret, M_ret. cbn.
  destruct (buffers s !! b) as [mb|] eqn:Hb; [|done]. cbn. intros HI.
  destruct (Hf mb) as (Hc & Hs & Hh & Ha & Hl).
  eapply buffers_ok_update; [done|done|done|done|]. intros sub Hsub.
  destruct (bo_sub s HI b mb sub Hb Hsub) as (? & (pm & ? & ?) & ? & ? & ?). split; [done|].
  split; [exists pm; split; congruence|]. split_and!; [congruence|by apply Ha; congruence|congruence].
Qed.

(** Replacing the object of a buffer with memory of its own. *)
Definition kept_by (b : Z) (s s' : msan) : Prop := own_memory s b → kept s s' ∧ own_memory s' b.

#[export] Instance kept_by_refl b : Reflexive (kept_by b).
Proof. intros s Hs. by split. Qed.
#[export] Instance kept_by_trans b : Transitive (kept_by b).
Proof.
  intros s1 s2 s3 H12 H23 H1. destruct (H12 H1) as [K12 H2]. destruct (H23 H2) as [K23 H3].
  split; [by etrans|done].
Qed.

Lemma kept_by_blind {A} b (m : M msan A) : blind m → rel (kept_by b) m.
Proof.
  apply rel_mono. intros s s' Hs Ho. split; [by apply same_buffers_kept|].
  destruct Hs as (Hb & _ & _). unfold own_memory. by rewrite Hb.
Qed.

Definition same_kind (f : MemBuffer → MemBuffer) : Prop :=
  ∀ mb, MB_Context (f mb) = MB_Context mb ∧ SubBuffer (f mb) = SubBuffer mb.

Lemma kept_own b f : same_kind f → rel (kept_by b) (upd_buffer b f).
Proof.
  intros Hf s h. unfold upd_buffer, buffer, mbind, M_bind, get, modify, deref, mret, M_ret. cbn.
  destruct (buffers s !! b) as [mb|] eqn:Hb; [|done]. cbn. intros (mb' & Hmb' & Hn).
  rewrite Hb in Hmb'. injection Hmb' as <-. destruct (Hf mb) as (Hc & Hs). split.
  - intros HI. eapply buffers_ok_update; [done..|]. intros sub Hsub. congruence.
  - exists (f mb). cbn. rewrite lookup_insert_eq. split; congruence.
Qed.

(** ** Handles *)

Section calls.
Variable drv : driver.
#[local] Hint Resolve kept_by_blind kept_blind : rel.

Lemma blind_buffer b : blind (buffer b).
Proof. unfold buffer. rel_steps. Qed.
Lemma blind_is_buffer b : blind (is_buffer b).
Proof. unfold is_buffer. rel_steps. Qed.
#[local] Hint Resolve blind_buffer blind_is_buffer : rel.

Lemma kept_by_allocation b d : rel (kept_by b) (allocation b d).
Proof. unfold allocation. rel_steps. by apply kept_own. Qed.
Lemma kept_by_set_allocation b d p : rel (kept_by b) (upd_buffer b (set_allocation d p)).
Proof. by apply kept_own. Qed.
Lemma kept_by_synced b d p : rel (kept_by b) (upd_buffer b (set_synced d p)).
Proof. by apply kept_own. Qed.
#[local] Hint Resolve kept_by_allocation kept_by_set_allocation kept_by_synced : rel.

Lemma kept_by_allocate_on b d : rel (kept_by b) (allocate_on drv b d).
Proof. unfold allocate_on. rel_steps. Qed.
Lemma kept_by_migrate b d p : rel (kept_by b) (migrate drv b d p).
Proof. unfold migrate. rel_steps. Qed.
#[local] Hint Resolve kept_by_allocate_on kept_by_migrate : rel.

Lemma kept_by_own_handle b d : rel (kept_by b) (own_handle drv b d).
Proof. unfold own_handle. rel_steps. Qed.

Lemma kept_getHandle_fuel fuel b d : rel kept (getHandle_fuel drv fuel b d).
Proof.
  revert b. induction fuel as [|fuel IH]; intros b s h; cbn [getHandle_fuel];
    unfold mbind at 1, M_bind at 1, buffer, get, deref, mbind at 1, M_bind at 1; cbn;
    (destruct (buffers s !! b) as [mb|] eqn:Hb; [|done]); cbn;
    (destruct (SubBuffer mb) as [sub|] eqn:Hs; [|]).
  - done.
  - apply kept_by_own_handle. by exists mb.
  - cut (rel kept (Handle ← getHandle_fuel drv fuel (Parent sub) d; mret (w64 (Handle + Origin sub)))); [auto|].
    apply rel_bind; [typeclasses eauto|apply IH|]. intros. rel_steps.
  - apply kept_by_own_handle. by exists mb.
Qed.

Lemma kept_getHandle b d : rel kept (getHandle drv b d).
Proof. apply kept_getHandle_fuel. Qed.
#[local] Hint Resolve kept_getHandle : rel.

(** ** Creation and release *)

Lemma kept_free_all ctx ps : blind (free_all drv ctx ps).
Proof. induction ps as [|[d p] ps IH]; cbn [free_all]; rel_steps. Qed.
Lemma kept_clear b : rel kept (upd_buffer b clear_allocations).
Proof. by apply kept_tame. Qed.
Lemma kept_refcount b n : rel kept (upd_buffer b (set_MB_RefCount n)).
Proof. by apply kept_tame. Qed.
Lemma kept_mappings b m : rel kept (upd_buffer b (set_mappings m)).
Proof. by apply kept_tame. Qed.
#[local] Hint Resolve kept_free_all kept_clear kept_refcount kept_mappings : rel.

Lemma kept_erase b : rel kept (eraseMemBuffer b).
Proof.
  apply rel_modify. intros s HI. split; [|done]. destruct HI as [H0 Hl Hh Hs]. constructor; [done..| |done].
  cbn. intros b' Hb'. apply Hh. set_solver.
Qed.
#[local] Hint Resolve kept_erase : rel.

Lemma kept_free b : rel kept (free drv b).
Proof. unfold free. rel_steps. Qed.
#[local] Hint Resolve kept_free : rel.

Lemma kept_initial_copies ctx b host n ds : rel kept (initial_copies drv ctx b host n ds).
Proof. induction ds as [|d ds IH]; cbn [initial_copies]; rel_steps. Qed.

Lemma kept_new s mb :
  (∀ sub, SubBuffer mb = Some sub →
     Parent sub < next_id s ∧ (∃ pm, buffers s !! Parent sub = Some pm ∧ MB_Context pm = MB_Context mb) ∧
     HostPtr mb = 0 ∧ Allocations mb = ∅ ∧ LastSyncedDevice mb = (0, 0)) →
  buffers_ok s →
  let s' := bump_id (set_buffer (next_id s) mb s) in
  buffers_ok s' ∧ (∀ b, own_memory s b → own_memory s' b) ∧ buffers s' !! next_id s = Some mb.
Proof.
  intros Hsub HI. pose proof HI as [H0 Hl Hh Hs].
  assert (∀ b m, buffers s !! b = Some m → <[next_id s := mb]> (buffers s) !! b = Some m) as Hp.
  { intros b m Hm. rewrite lookup_insert_ne; [done|]. destruct (Hl b m Hm). lia. }
  cbn. split_and!; [constructor; cbn|..].
  - lia.
  - intros b m. destruct (decide (b = next_id s)) as [->|]; [lia|]. rewrite lookup_insert_ne by done.
    intros H. destruct (Hl b m H). lia.
  - intros b Hb. destruct (Hh b Hb) as [m Hm]. rewrite (Hp b m Hm). eauto.
  - assert (∀ b m sub, sub_ok s b m sub → sub_ok (bump_id (set_buffer (next_id s) mb s)) b m sub) as Hso.
    { intros b m sub (? & (pm & ? & ?) & ?). split; [done|]. split; [|done]. exists pm. split; [by apply Hp|done]. }
    intros b m sub. destruct (decide (b = next_id s)) as [->|].
    + rewrite lookup_insert_eq. intros [= <-] H. apply Hso. by apply Hsub.
    + rewrite lookup_insert_ne by done. eauto.
  - intros b (m & Hm & Hn). exists m. split; [by apply Hp|done].
  - by rewrite lookup_insert_eq.
Qed.

Lemma buffers_ok_insert s b :
  buffers_ok s → is_Some (buffers s !! b) →
  buffers_ok (set_MemBufferMap ({[b]} ∪ m_MemBufferMap s) s).
Proof.
  intros [H0 Hl Hh Hs] Hb. constructor; [done..| |done]. cbn. intros b'. rewrite elem_of_union, elem_of_singleton.
  intros [->|H]; [done|auto].
Qed.

(** A new handle for a live object. *)
Lemma insert_runs b s h :
  buffers_ok s → is_Some (buffers s !! b) → buffers_ok (insertMemBuffer b s h).1.2.
Proof. apply buffers_ok_insert. Qed.

(** The calls of the component keep the invariant, however they end. *)
Definition keeps_ok {A} (m : M msan A) : Prop := ∀ s h, buffers_ok s → buffers_ok (m s h).1.2.

Lemma kept_keeps {A} (m : M msan A) : rel kept m → keeps_ok m.
Proof. intros Hm s h HI. by apply Hm. Qed.

(** A body that goes on with a buffer it made. *)
Lemma kept_then {A B} (m : M msan A) (f : A → M msan B) b s h :
  rel kept m → (∀ a s' h', buffers_ok s' → own_memory s' b → buffers_ok (f a s' h').1.2) →
  buffers_ok s → own_memory s b → buffers_ok ((m ≫= f) s h).1.2.
Proof.
  intros Hm Hf HI Ho. destruct (Hm s h HI) as [HI1 Ho1]. unfold mbind, M_bind.
  destruct (m s h) as [[[a|r|w] s1] h1]; [by auto|done..].
Qed.

Lemma keeps_create ctx flags n host : keeps_ok (urMemBufferCreate drv ctx flags n host).
Proof.
  intros s h HI. unfold urMemBufferCreate.
  set (mb := mkMB _ _ _ _ _ _ _ _). set (b := next_id s).
  set (rest := λ b, (if _ && _ then _ else _);; _).
  change ((new_buffer mb ≫= rest) s h) with (rest b (bump_id (set_buffer b mb s)) h).
  destruct (kept_new s mb) as (HI1 & _ & Hb); [done|done|]. fold b in HI1, Hb.
  assert (own_memory (bump_id (set_buffer b mb s)) b) as Ho by by exists mb.
  revert HI1 Ho. generalize (bump_id (set_buffer b mb s)). intros s1. apply kept_then.
  { pose proof kept_initial_copies. rel_steps. }
  intros _ s2 h2 HI2 (m & Hm & _). apply (insert_runs b s2 h2); [done|by exists m].
Qed.

Lemma keeps_partition b origin n : keeps_ok (urMemBufferPartition drv b origin n).
Proof.
  intros s h HI. unfold urMemBufferPartition, is_buffer, buffer, mbind, M_bind, get, deref, mret, M_ret. cbn.
  destruct (bool_decide _); cbn; [|by destruct (rel_UR_CALL kept drv (Mem_Forward b) s h HI)].
  destruct (buffers s !! b) as [mb|] eqn:Hb; [|done]. cbn. destruct (MB_Size mb <? _); [done|].
  set (new := mkMB _ _ _ _ _ _ _ _).
  destruct (kept_new s new) as (HI1 & _ & Hn); [|done|].
  { intros sub [= <-]. cbn. split; [by apply (bo_live s HI b mb)|]. split; [by exists mb|done]. }
  exact (buffers_ok_insert _ _ HI1 (mk_is_Some _ _ Hn)).
Qed.

(** ** The other calls *)

#[local] Hint Resolve kept_refcount kept_mappings : rel.
Lemma kept_retain b : rel kept (urMemRetain drv b).
Proof. unfold urMemRetain. rel_steps. Qed.
Lemma kept_release b : rel kept (urMemRelease drv b).
Proof. unfold urMemRelease. rel_steps. Qed.
Lemma kept_native b d : rel kept (urMemGetNativeHandle drv b d).
Proof. unfold urMemGetNativeHandle. rel_steps. Qed.

Lemma blind_GetDevice q : blind (GetDevice drv q).
Proof. unfold GetDevice. rel_steps. Qed.
Lemma blind_GetContext q : blind (GetContext drv q).
Proof. unfold GetContext. rel_steps. Qed.
#[local] Hint Resolve blind_GetDevice blind_GetContext : rel.
Lemma blind_clear_shadow q d p n wl : blind (clear_shadow drv q d p n wl).
Proof. unfold clear_shadow. rel_steps. Qed.
#[local] Hint Resolve blind_clear_shadow : rel.

Lemma kept_read q b bl off n dst wl out : rel kept (urEnqueueMemBufferRead drv q b bl off n dst wl out).
Proof. unfold urEnqueueMemBufferRead. rel_steps. Qed.
Lemma kept_write q b bl off n src wl out : rel kept (urEnqueueMemBufferWrite drv q b bl off n src wl out).
Proof. unfold urEnqueueMemBufferWrite. rel_steps. Qed.
Lemma kept_fill q b pat off n wl out : rel kept (urEnqueueMemBufferFill drv q b pat off n wl out).
Proof. unfold urEnqueueMemBufferFill. rel_steps. Qed.
Lemma kept_copy q b1 b2 o1 o2 n wl out : rel kept (urEnqueueMemBufferCopy drv q b1 b2 o1 o2 n wl out).
Proof. unfold urEnqueueMemBufferCopy. rel_steps. Qed.
Lemma kept_map q b bl fl off n wl out : rel kept (urEnqueueMemBufferMap drv q b bl fl off n wl out).
Proof. unfold urEnqueueMemBufferMap. rel_steps. Qed.
Lemma kept_unmap q b p wl out : rel kept (urEnqueueMemUnmap drv q b p wl out).
Proof. unfold urEnqueueMemUnmap. rel_steps. Qed.

Lemma blind_fill_rows q a pitch wd wl rows : blind (fill_rows drv q a pitch wd wl rows).
Proof. induction rows as [|r rows IH]; cbn [fill_rows]; rel_steps. Qed.
#[local] Hint Resolve blind_fill_rows : rel.
Lemma blind_slices q d bd bs D dp ds S sp ss rg wl sl : blind (copy_slices drv q d bd bs D dp ds S sp ss rg wl sl).
Proof. induction sl as [|i sl IH]; cbn [copy_slices]; rel_steps. Qed.
#[local] Hint Resolve blind_slices : rel.
Lemma blind_rect q S D so do rg sp ss dp ds bl wl out :
  blind (EnqueueMemCopyRectHelper drv q S D so do rg sp ss dp ds bl wl out).
Proof. unfold EnqueueMemCopyRectHelper. rel_steps. Qed.
#[local] Hint Resolve blind_rect : rel.

Lemma kept_read_rect q b bl bo ho rg bp bs hp hs dst wl out :
  rel kept (urEnqueueMemBufferReadRect drv q b bl bo ho rg bp bs hp hs dst wl out).
Proof. unfold urEnqueueMemBufferReadRect. rel_steps. Qed.
Lemma kept_write_rect q b bl bo ho rg bp bs hp hs src wl out :
  rel kept (urEnqueueMemBufferWriteRect drv q b bl bo ho rg bp bs hp hs src wl out).
Proof. unfold urEnqueueMemBufferWriteRect. rel_steps. Qed.
Lemma kept_copy_rect q b1 b2 so do rg sp ss dp ds wl out :
  rel kept (urEnqueueMemBufferCopyRect drv q b1 b2 so do rg sp ss dp ds wl out).
Proof. unfold urEnqueueMemBufferCopyRect. rel_steps. Qed.

(** ** The calls on contexts and USM *)

Lemma blind_call_ c : blind (call_ drv c).
Proof. unfold call_. rel_steps. Qed.
Lemma blind_return_if c r : blind (return_if c r).
Proof. unfold return_if. rel_steps. Qed.
#[local] Hint Resolve blind_call_ blind_return_if : rel.
Lemma blind_once g st body : blind body → blind (once g st body).
Proof. intros H. unfold once. rel_steps. Qed.
Lemma blind_Setup ty : blind (Setup drv ty).
Proof.
  unfold Setup, CPU_Setup, GPU_Setup. destruct ty; try apply blind_once;
    unfold CPU_Setup_body, GPU_Setup_body, MmapFixedNoReserve, ProtectMemoryRange, DontCoredumpRange; rel_steps.
Qed.
#[local] Hint Resolve blind_Setup : rel.
Lemma blind_GetMsanShadowMemory ctx d ty : blind (GetMsanShadowMemory ctx d ty).
Proof. unfold GetMsanShadowMemory. rel_steps; blind_modify. Qed.
Lemma blind_GetDeviceType ctx d : blind (GetDeviceType drv ctx d).
Proof. unfold GetDeviceType. rel_steps. Qed.
#[local] Hint Resolve blind_GetMsanShadowMemory blind_GetDeviceType : rel.
Lemma blind_insertDevice d : blind (insertDevice drv d).
Proof. unfold insertDevice, GetDeviceUSMCapability. rel_steps; blind_modify. Qed.
Lemma blind_allocShadowMemory ctx d : blind (allocShadowMemory drv ctx d).
Proof. unfold allocShadowMemory. rel_steps. Qed.
#[local] Hint Resolve blind_insertDevice blind_allocShadowMemory : rel.
Lemma blind_setup_devices ctx ds : blind (setup_devices drv ctx ds).
Proof. induction ds as [|d ds IH]; cbn [setup_devices]; unfold setup_device; rel_steps. Qed.
#[local] Hint Resolve blind_setup_devices : rel.
Lemma blind_globals ctx ty q gs : blind (register_globals drv ctx ty q gs).
Proof. induction gs as [|g gs IH]; cbn [register_globals]; rel_steps. Qed.
#[local] Hint Resolve blind_globals : rel.
Lemma blind_insertContext ctx : blind (insertContext drv ctx).
Proof. unfold insertContext. rel_steps; blind_modify. Qed.
Lemma blind_eraseContext ctx : blind (eraseContext drv ctx).
Proof. unfold eraseContext. rel_steps; blind_modify. Qed.
Lemma blind_known ctx : blind (known_context ctx).
Proof. unfold known_context. rel_steps. Qed.
Lemma blind_erase_it it : blind (erase_it it).
Proof. blind_modify. Qed.
#[local] Hint Resolve blind_insertContext blind_eraseContext blind_known blind_erase_it : rel.

Lemma blind_op c : blind (run_op drv c).
Proof.
  destruct c; cbn [run_op]; unfold setupContext, urContextRetain, urContextRelease, releaseMemory,
    registerDeviceGlobals, urEnqueueUSMFill, urEnqueueUSMMemcpy, urEnqueueUSMFill2D, urEnqueueUSMMemcpy2D;
    rel_steps.
Qed.
End calls.
