(* ===== verification/MsanHandles.v ===== *)
(** * MsanHandles: the memory behind a buffer of the memory sanitizer

    The invariant of the buffers in every reachable state, the recursion of
    [getHandle] and its end, the stability of a handle, and what commands on a
    resident buffer do to its shadow. *)
From S2P Require Import Prelude SanCommon MsanState MsanShadow MsanLayout MsanMemory.
From S2P Require Import MsanPoison MsanInterceptor MsanTracking MsanCommands MsanOrder MsanRuns MsanBuffer MsanBufferCalls.

(** ** Runs of an application with buffers *)

Inductive buffer_op :=
| MemBufferCreate (Context flags size Host : Z)
| MemRetain (b : Z)
| MemRelease (b : Z)
| MemBufferPartition (b origin size : Z)
| MemGetNativeHandle (b Device : Z)
| MemBufferRead (Queue b : Z) (blocking : bool) (offset size Dst : Z) (waits : list Z) (out : bool)
| MemBufferWrite (Queue b : Z) (blocking : bool) (offset size Src : Z) (waits : list Z) (out : bool)
| MemBufferFill (Queue b : Z) (pattern : list Z) (offset size : Z) (waits : list Z) (out : bool)
| MemBufferCopy (Queue bSrc bDst srcOffset dstOffset size : Z) (waits : list Z) (out : bool)
| MemBufferMap (Queue b : Z) (blocking : bool) (flags offset size : Z) (waits : list Z) (out : bool)
| MemUnmap (Queue b MappedPtr : Z) (waits : list Z) (out : bool)
| MemBufferReadRect (Queue b : Z) (blocking : bool) (bufferOrigin hostOrigin : rect_offset)
    (region : rect_region) (bufferRowPitch bufferSlicePitch hostRowPitch hostSlicePitch Dst : Z)
    (waits : list Z) (out : bool)
| MemBufferWriteRect (Queue b : Z) (blocking : bool) (bufferOrigin hostOrigin : rect_offset)
    (region : rect_region) (bufferRowPitch bufferSlicePitch hostRowPitch hostSlicePitch Src : Z)
    (waits : list Z) (out : bool)
| MemBufferCopyRect (Queue bSrc bDst : Z) (srcOrigin dstOrigin : rect_offset) (region : rect_region)
    (srcRowPitch srcSlicePitch dstRowPitch dstSlicePitch : Z) (waits : list Z) (out : bool).

Definition run_buffer (drv : driver) (c : buffer_op) : M msan Z :=
  match c with
  | MemBufferCreate ctx fl n host => urMemBufferCreate drv ctx fl n host
  | MemRetain b => urMemRetain drv b;; mret 0
  | MemRelease b => urMemRelease drv b;; mret 0
  | MemBufferPartition b o n => urMemBufferPartition drv b o n
  | MemGetNativeHandle b d => urMemGetNativeHandle drv b d
  | MemBufferRead q b bl o n dst wl out => urEnqueueMemBufferRead drv q b bl o n dst wl out
  | MemBufferWrite q b bl o n src wl out => urEnqueueMemBufferWrite drv q b bl o n src wl out
  | MemBufferFill q b pat o n wl out => urEnqueueMemBufferFill drv q b pat o n wl out
  | MemBufferCopy q b1 b2 o1 o2 n wl out => urEnqueueMemBufferCopy drv q b1 b2 o1 o2 n wl out
  | MemBufferMap q b bl fl o n wl out => urEnqueueMemBufferMap drv q b bl fl o n wl out
  | MemUnmap q b p wl out => urEnqueueMemUnmap drv q b p wl out;; mret 0
  | MemBufferReadRect q b bl bo ho rg bp bs hp hs dst wl out =>
      urEnqueueMemBufferReadRect drv q b bl bo ho rg bp bs hp hs dst wl out
  | MemBufferWriteRect q b bl bo ho rg bp bs hp hs src wl out =>
      urEnqueueMemBufferWriteRect drv q b bl bo ho rg bp bs hp hs src wl out
  | MemBufferCopyRect q b1 b2 so do rg sp ss dp ds wl out =>
      urEnqueueMemBufferCopyRect drv q b1 b2 so do rg sp ss dp ds wl out
  end.

(** Calls of any kind, however they end. *)
Inductive reaches_with_buffers (drv : driver) : msan → list ddi_call → Prop :=
| rwb_new : reaches_with_buffers drv new_msan []
| rwb_op c s h :
    reaches_with_buffers drv s h →
    reaches_with_buffers drv (run_op drv c s h).1.2 (run_op drv c s h).2
| rwb_buffer c s h :
    reaches_with_buffers drv s h →
    reaches_with_buffers drv (run_buffer drv c s h).1.2 (run_buffer drv c s h).2.

Lemma buffers_ok_new : buffers_ok new_msan.
Proof. constructor; cbn; [lia|..]; try (intros *; by rewrite lookup_empty); set_solver. Qed.

Lemma keeps_buffer_op drv c : keeps_ok (run_buffer drv c).
Proof.
  destruct c; cbn [run_buffer]; try (by apply keeps_create || by apply keeps_partition); apply kept_keeps.
  - apply rel_bind; [typeclasses eauto|apply kept_retain|]. intros. rel_steps.
  - apply rel_bind; [typeclasses eauto|apply kept_release|]. intros. rel_steps.
  - apply kept_native.
  - apply kept_read.
  - apply kept_write.
  - apply kept_fill.
  - apply kept_copy.
  - apply kept_map.
  - apply rel_bind; [typeclasses eauto|apply kept_unmap|]. intros. rel_steps.
  - apply kept_read_rect.
  - apply kept_write_rect.
  - apply kept_copy_rect.
Qed.

Lemma reaches_buffers_ok drv s h : reaches_with_buffers drv s h → buffers_ok s.
Proof.
  induction 1 as [|c s h _ IH|c s h _ IH]; [apply buffers_ok_new| |by apply keeps_buffer_op].
  by apply (kept_keeps _ (kept_blind _ (blind_op drv c))).
Qed.

(** ** The recursion of [getHandle] *)

Lemma buffer_runs b s h mb : buffers s !! b = Some mb → buffer b s h = (Go mb, s, h).
Proof. intros Hb. unfold buffer, get, deref, mbind, M_bind, mret, M_ret. by rewrite Hb. Qed.

Lemma bind_Go_eq {A B} (m : M msan A) (f : A → M msan B) s h a :
  m s h = (Go a, s, h) → (m ≫= f) s h = f a s h.
Proof. apply bind_Go. Qed.

Lemma bind_ext {A B} (m m' : M msan A) (f : A → M msan B) s h :
  m s h = m' s h → (m ≫= f) s h = (m' ≫= f) s h.
Proof. unfold mbind, M_bind. by intros ->. Qed.

Lemma getHandle_fuel_eq drv d s h : buffers_ok s → ∀ n m b,
  (Z.to_nat b <= n)%nat → (Z.to_nat b <= m)%nat →
  getHandle_fuel drv n b d s h = getHandle_fuel drv m b d s h.
Proof.
  intros HI. induction n as [|n IH]; intros m b Hn Hm; destruct m as [|m]; [done|..];
    cbn [getHandle_fuel];
    (destruct (buffers s !! b) as [mb|] eqn:Hb;
      [rewrite !(bind_Go_eq _ _ _ _ _ (buffer_runs b s h mb Hb))
      |unfold buffer, get, deref, mbind, M_bind; by rewrite Hb]);
    (destruct (SubBuffer mb) as [sub|] eqn:Hs; [|done]);
    destruct (bo_sub s HI b mb sub Hb Hs) as (Hlt & (pm & Hpm & _) & _);
    pose proof (bo_live s HI _ _ Hpm); pose proof (bo_live s HI _ _ Hb); try lia.
  apply bind_ext, IH; lia.
Qed.

(** The body of [getHandle] with the recursive call of the source. *)
Lemma getHandle_unfold drv b d s h mb :
  buffers_ok s → buffers s !! b = Some mb →
  getHandle drv b d s h =
    match SubBuffer mb with
    | Some sub => (Handle ← getHandle drv (Parent sub) d; mret (w64 (Handle + Origin sub))) s h
    | None => own_handle drv b d s h
    end.
Proof.
  intros HI Hb. unfold getHandle at 1.
  destruct (Z.to_nat b) as [|n] eqn:Hn; [pose proof (bo_live s HI _ _ Hb); lia|].
  cbn [getHandle_fuel]. rewrite (bind_Go_eq _ _ _ _ _ (buffer_runs b s h mb Hb)).
  destruct (SubBuffer mb) as [sub|] eqn:Hs; [|done].
  destruct (bo_sub s HI b mb sub Hb Hs) as (Hlt & (pm & Hpm & _) & _).
  pose proof (bo_live s HI _ _ Hpm). apply bind_ext, getHandle_fuel_eq; [done|lia|done].
Qed.

(** ** Stability *)

Lemma rel_run {A} R (m : M msan A) s h r s' h' : rel R m → m s h = (r, s', h') → R s s'.
Proof. intros Hm Hr. specialize (Hm s h). by rewrite Hr in Hm. Qed.

Lemma set_buffer_id b mb s : buffers s !! b = Some mb → set_buffer b mb s = s.
Proof. intros Hb. destruct s. unfold set_buffer. cbn in *. by rewrite insert_id. Qed.

Lemma set_allocation_id d p mb : Allocations mb !! d = Some p → set_allocation d p mb = mb.
Proof. intros Hp. destruct mb. unfold set_allocation. cbn in *. by rewrite insert_id. Qed.

(** The buffer has the allocation [p] for the device. *)
Definition holds (b d p : Z) (s : msan) : Prop :=
  ∃ mb, buffers s !! b = Some mb ∧ Allocations mb !! d = Some p.
Definition still_holds (b d p : Z) (s s' : msan) : Prop := holds b d p s → holds b d p s'.

#[export] Instance still_holds_refl b d p : Reflexive (still_holds b d p).
Proof. by intros s H. Qed.
#[export] Instance still_holds_trans b d p : Transitive (still_holds b d p).
Proof. unfold still_holds. intros s1 s2 s3. auto. Qed.

Lemma upd_buffer_runs b f s h mb :
  buffers s !! b = Some mb → upd_buffer b f s h = (Go tt, set_buffer b (f mb) s, h).
Proof. intros Hb. unfold upd_buffer. by rewrite (bind_Go_eq _ _ _ _ _ (buffer_runs b s h mb Hb)). Qed.

Lemma allocation_runs b d s h mb :
  buffers s !! b = Some mb →
  allocation b d s h =
    (Go (default 0 (Allocations mb !! d)),
     set_buffer b (set_allocation d (default 0 (Allocations mb !! d)) mb) s, h).
Proof.
  intros Hb. unfold allocation. rewrite (bind_Go_eq _ _ _ _ _ (buffer_runs b s h mb Hb)).
  unfold mbind at 1, M_bind at 1. by rewrite (upd_buffer_runs _ _ _ _ mb).
Qed.

Lemma blind_still b d p {A} (m : M msan A) : blind m → rel (still_holds b d p) m.
Proof.
  apply rel_mono. intros s s' (Hb & _) (mb & Hmb & Hp). exists mb. by rewrite Hb.
Qed.

Lemma still_set b d p d' p' : d' ≠ d → rel (still_holds b d p) (upd_buffer b (set_allocation d' p')).
Proof.
  intros Hd s h (mb & Hb & Hp). rewrite (upd_buffer_runs _ _ _ _ _ Hb). eexists.
  cbn. rewrite lookup_insert_eq. split; [done|]. cbn. by rewrite lookup_insert_ne.
Qed.

Lemma still_allocation b d p d' : d' ≠ d → rel (still_holds b d p) (allocation b d').
Proof.
  intros Hd s h (mb & Hb & Hp). rewrite (allocation_runs _ _ _ _ _ Hb). eexists.
  cbn. rewrite lookup_insert_eq. split; [done|]. cbn. by rewrite lookup_insert_ne.
Qed.

Lemma still_migrate drv b d p d' hd : d ≠ 0 → rel (still_holds b d p) (migrate drv b d' hd).
Proof.
  intros Hd. assert (0 ≠ d) as Hd' by done. unfold migrate.
  pose proof (@blind_still b d p) as Hbl. pose proof (still_set b d p 0) as Hs.
  pose proof (still_allocation b d p 0 Hd') as Ha. pose proof (blind_buffer b) as Hbuf.
  assert (∀ q, rel (still_holds b d p) (upd_buffer b (set_allocation 0 q))) as Hs' by auto.
  rel_steps.
Qed.

Lemma device_memory_inv drv ctx dev props pool n s h p s' h' :
  allocateMemory drv ctx dev props pool n DEVICE_USM s h = (Go p, s', h') →
  ∃ h0, drv h0 (USM_DeviceAlloc ctx dev props pool n) = (UR_RESULT_SUCCESS, p).
Proof.
  unfold allocateMemory, usm_alloc. intros H.
  apply bind_Go_inv in H as (? & s1 & h1 & _ & H). apply bind_Go_inv in H as (? & s2 & h2 & _ & H).
  apply bind_Go_inv in H as (q & s3 & h3 & (Hd & _ & _)%UR_CALL_inv & H).
  apply bind_Go_inv in H as (? & s4 & h4 & _ & H). rewrite decide_True in H by done.
  apply bind_Go_inv in H as (? & s5 & h5 & _ & H). apply bind_Go_inv in H as (? & s6 & h6 & _ & H).
  injection H as <- _ _. eauto.
Qed.

(** Device allocations are not null. *)
Definition never_null (drv : driver) : Prop :=
  ∀ h ctx dev props pool n p,
    drv h (USM_DeviceAlloc ctx dev props pool n) = (UR_RESULT_SUCCESS, p) → p ≠ 0.

Lemma allocate_on_holds drv b d s h p s' h' :
  never_null drv → allocate_on drv b d s h = (Go p, s', h') → p ≠ 0 ∧ holds b d p s'.
Proof.
  intros Hn H. unfold allocate_on in H. apply bind_Go_inv in H as (p0 & s1 & h1 & Ha & H).
  assert (holds b d p0 s1) as Hh.
  { unfold allocation in Ha. apply bind_Go_inv in Ha as (mb & s2 & h2 & Hb & Ha).
    unfold buffer, get, deref, mbind, M_bind in Hb.
    destruct (buffers s !! b) as [mb'|] eqn:Hmb; [|done]. injection Hb as -> <- <-.
    apply bind_Go_inv in Ha as (? & s3 & h3 & Hu & Ha). injection Ha as <- <- <-.
    rewrite (upd_buffer_runs _ _ _ _ _ Hmb) in Hu. injection Hu as <- <- <-.
    eexists. cbn. rewrite lookup_insert_eq. split; [done|]. cbn. by rewrite lookup_insert_eq. }
  destruct (Z.eqb_spec p0 0) as [->|Hp0]; [|by injection H as <- <- <-].
  apply bind_Go_inv in H as (mb & s2 & h2 & _ & H). apply bind_Go_inv in H as (al & s3 & h3 & _ & H).
  apply bind_Go_inv in H as (q & s4 & h4 & (h0 & Hq)%device_memory_inv & H).
  apply bind_Go_inv in H as ([] & s5 & h5 & Hu & H). apply bind_Go_inv in H as ([] & s6 & h6 & Hr & H).
  injection H as <- <- <-. split; [by eapply Hn|].
  assert (holds b d q s5) as Hq5.
  { unfold upd_buffer, buffer, get, deref, mbind, M_bind in Hu.
    destruct (buffers s4 !! b) as [m4|]; [|done]. injection Hu as <- <-.
    eexists. cbn. rewrite lookup_insert_eq. split; [done|]. cbn. by rewrite lookup_insert_eq. }
  assert (still_holds b d q s5 s6) as Hst by (eapply rel_run, Hr; apply blind_still; rel_steps).
  by apply Hst.
Qed.

(** The buffer is in sync with its memory [p] on the device. *)
Definition settled (b d p : Z) (s : msan) : Prop :=
  ∃ mb, buffers s !! b = Some mb ∧ SubBuffer mb = None ∧ Allocations mb !! d = Some p ∧
        LastSyncedDevice mb = (d, p) ∧ p ≠ 0.

Lemma resident_allocate drv b d p s h :
  holds b d p s → p ≠ 0 → allocate_on drv b d s h = (Go p, s, h).
Proof.
  intros (mb & Hb & Hp) Hn. unfold allocate_on.
  pose proof (allocation_runs b d s h mb Hb) as Ha.
  rewrite Hp in Ha. cbn [default id] in Ha. rewrite set_allocation_id, set_buffer_id in Ha by done.
  rewrite (bind_Go_eq _ _ _ _ _ Ha). by rewrite (proj2 (Z.eqb_neq p 0)).
Qed.

Lemma settled_handle drv b d p s h :
  settled b d p s → d ≠ 0 → own_handle drv b d s h = (Go p, s, h).
Proof.
  intros (mb & Hb & _ & Hp & Hl & Hn) Hd. unfold own_handle.
  rewrite (bind_Go_eq _ _ _ _ _ (buffer_runs b s h mb Hb)).
  rewrite (proj2 (Z.eqb_neq d 0)) by done. rewrite (bind_Go_eq (mret d) _ s h d) by done.
  rewrite (bind_Go_eq _ _ _ _ _ (resident_allocate drv b d p s h ltac:(by exists mb) Hn)).
  assert (migrate drv b d p s h = (Go tt, s, h)) as Hm.
  { unfold migrate. rewrite (bind_Go_eq _ _ _ _ _ (buffer_runs b s h mb Hb)). rewrite Hl. cbn [fst].
    by rewrite Z.eqb_refl, orb_true_r. }
  rewrite (bind_Go_eq _ _ _ _ _ Hm).
  assert (upd_buffer b (set_synced d p) s h = (Go tt, s, h)) as Hu.
  { rewrite (upd_buffer_runs _ _ _ _ _ Hb). f_equal. f_equal. rewrite <- (set_buffer_id b mb s Hb) at 2.
    f_equal. destruct mb. cbn in Hl. unfold set_synced. cbn. by rewrite Hl. }
  by rewrite (bind_Go_eq _ _ _ _ _ Hu).
Qed.

Lemma own_handle_settles drv b d s h p s' h' :
  never_null drv → d ≠ 0 → own_memory s b → own_handle drv b d s h = (Go p, s', h') → settled b d p s'.
Proof.
  intros Hnn Hd Ho H. pose proof (rel_run _ _ _ _ _ _ _ (kept_by_own_handle drv b d) H Ho) as [_ (mb' & Hb' & Hs')].
  unfold own_handle in H. apply bind_Go_inv in H as (mb & s1 & h1 & _ & H).
  rewrite (proj2 (Z.eqb_neq d 0)) in H by done. apply bind_Go_inv in H as (? & s2 & h2 & Hr & H).
  injection Hr as <- <- <-. apply bind_Go_inv in H as (q & s3 & h3 & Ha & H).
  destruct (allocate_on_holds _ _ _ _ _ _ _ _ Hnn Ha) as [Hq Hh].
  apply bind_Go_inv in H as ([] & s4 & h4 & Hm & H). apply bind_Go_inv in H as ([] & s5 & h5 & Hu & H).
  injection H as <- <- <-. destruct (rel_run _ _ _ _ _ _ _ (still_migrate drv b d q d q Hd) Hm Hh) as (m4 & Hm4 & Hp).
  rewrite (upd_buffer_runs _ _ _ _ _ Hm4) in Hu. injection Hu as <- <-.
  cbn in Hb'. rewrite lookup_insert_eq in Hb'. injection Hb' as <-.
  exists (set_synced d q m4). cbn. rewrite lookup_insert_eq. by split_and!.
Qed.

Lemma buffers_live b s h mb s' h' : buffer b s h = (Go mb, s', h') → buffers s !! b = Some mb.
Proof.
  unfold buffer, get, deref, mbind, M_bind. destruct (buffers s !! b); [|done]. by intros [= -> _ _].
Qed.

Lemma getHandle_live drv b d s h p s' h' :
  getHandle drv b d s h = (Go p, s', h') → is_Some (buffers s !! b).
Proof.
  unfold getHandle. intros H.
  destruct (Z.to_nat b); cbn [getHandle_fuel] in H; apply bind_Go_inv in H as (mb & s1 & h1 & Hb & _);
    exists mb; by eapply buffers_live.
Qed.

(** A live buffer stays what it is. *)
Definition same_sub (b : Z) (s s' : msan) : Prop :=
  ∀ mb, buffers s !! b = Some mb → ∃ mb', buffers s' !! b = Some mb' ∧ SubBuffer mb' = SubBuffer mb.

#[export] Instance same_sub_refl b : Reflexive (same_sub b).
Proof. intros s mb. eauto. Qed.
#[export] Instance same_sub_trans b : Transitive (same_sub b).
Proof.
  intros s1 s2 s3 H12 H23 mb H1. destruct (H12 mb H1) as (m2 & H2 & E2).
  destruct (H23 m2 H2) as (m3 & H3 & E3). exists m3. split; congruence.
Qed.

Lemma blind_same_sub b {A} (m : M msan A) : blind m → rel (same_sub b) m.
Proof. apply rel_mono. intros s s' (Hb & _) mb. rewrite Hb. eauto. Qed.

Lemma same_sub_upd b b' f : same_kind f → rel (same_sub b) (upd_buffer b' f).
Proof.
  intros Hf s h mb Hb. unfold upd_buffer, buffer, get, deref, modify, mbind, M_bind, mret, M_ret. cbn.
  destruct (buffers s !! b') as [mb'|] eqn:Hb'; cbn; [|eauto]. destruct (decide (b = b')) as [->|].
  - rewrite lookup_insert_eq. rewrite Hb in Hb'. injection Hb' as <-. eexists. split; [done|]. apply Hf.
  - rewrite lookup_insert_ne by done. eauto.
Qed.

Lemma same_sub_getHandle drv b n b' d : rel (same_sub b) (getHandle_fuel drv n b' d).
Proof.
  pose proof (@blind_same_sub b) as Hbl.
  revert b'. induction n as [|n IH]; intros b'; cbn [getHandle_fuel]; pose proof (blind_buffer b') as Hbuf;
    assert (∀ d p, rel (same_sub b) (upd_buffer b' (set_allocation d p))) as Hs by (intros; by apply same_sub_upd);
    assert (∀ d p, rel (same_sub b) (upd_buffer b' (set_synced d p))) as Hs' by (intros; by apply same_sub_upd);
    unfold own_handle, allocate_on, migrate, allocation; rel_steps.
Qed.

Lemma handle_again drv d : d ≠ 0 → never_null drv → ∀ n b s h p s' h',
  (Z.to_nat b <= n)%nat → buffers_ok s → getHandle drv b d s h = (Go p, s', h') →
  ∀ h2, getHandle drv b d s' h2 = (Go p, s', h2).
Proof.
  intros Hd Hnn. induction n as [|n IH]; intros b s h p s' h' Hn HI H h2;
    destruct (getHandle_live _ _ _ _ _ _ _ _ H) as [mb Hb]; pose proof (bo_live s HI _ _ Hb); [lia|].
  assert (buffers_ok s') as HI' by apply (rel_run _ _ _ _ _ _ _ (kept_getHandle drv b d) H HI).
  destruct (rel_run _ _ _ _ _ _ _ (same_sub_getHandle drv b _ b d) H mb Hb) as (mb' & Hb' & Hs').
  rewrite (getHandle_unfold _ _ _ _ _ _ HI' Hb'), Hs'.
  rewrite (getHandle_unfold _ _ _ _ _ _ HI Hb) in H. destruct (SubBuffer mb) as [sub|] eqn:Hs.
  - destruct (bo_sub s HI b mb sub Hb Hs) as (Hlt & (pm & Hpm & _) & _).
    pose proof (bo_live s HI _ _ Hpm). apply bind_Go_inv in H as (q & s1 & h1 & Hq & H).
    injection H as <- <- <-. by rewrite (bind_Go_eq _ _ _ _ _ (IH (Parent sub) s h q s1 h1 ltac:(lia) HI Hq h2)).
  - apply settled_handle; [|done]. eapply own_handle_settles; [done|done|by exists mb|done].
Qed.

(** ** Commands on resident buffers *)

(** The queue, the buffers, and the places in device memory of a fill, a write or
    a copy; [handle] has the memory behind each buffer. *)
Definition queue_of (c : buffer_op) : Z :=
  match c with
  | MemBufferFill q _ _ _ _ _ _ | MemBufferWrite q _ _ _ _ _ _ _ | MemBufferCopy q _ _ _ _ _ _ _ => q
  | _ => 0
  end.
Definition buffers_of (c : buffer_op) : list Z :=
  match c with
  | MemBufferFill _ b _ _ _ _ _ | MemBufferWrite _ b _ _ _ _ _ _ => [b]
  | MemBufferCopy _ b1 b2 _ _ _ _ _ => [b1; b2]
  | _ => []
  end.
Definition places_of (handle : Z → Z) (c : buffer_op) : list Z :=
  match c with
  | MemBufferFill _ b _ o _ _ _ | MemBufferWrite _ b _ o _ _ _ _ => [w64 (handle b + o)]
  | MemBufferCopy _ b1 b2 o1 o2 _ _ _ => [w64 (handle b1 + o1); w64 (handle b2 + o2)]
  | _ => []
  end.

(** A command on chunks of the application's, within them. *)
Definition buffer_allowed (ty : DeviceType) (SB SE : Z) (handle : Z → Z) (c : buffer_op) (t : tracker) : Prop :=
  (∀ a, a ∈ places_of handle c → is_Some (chunk_of t a)) ∧
  match c with
  | MemBufferFill _ b _ o n _ _ | MemBufferWrite _ b _ o n _ _ _ =>
      stays ty SB SE t (w64 (handle b + o)) (flat_in n)
  | MemBufferCopy _ b1 b2 o1 o2 n _ _ =>
      copy_allowed ty SB SE t (w64 (handle b2 + o2)) (flat_in n) (w64 (handle b1 + o1)) id
  | _ => False
  end.

(** What it does to the tracker. *)
Definition buffer_after (handle : Z → Z) (c : buffer_op) (ok : bool) (t : tracker) : tracker :=
  match c with
  | MemBufferFill _ b _ o n _ _ | MemBufferWrite _ b _ o n _ _ _ =>
      fill_region ok (w64 (handle b + o)) (flat_in n) t
  | MemBufferCopy _ b1 b2 o1 o2 n _ _ =>
      copy_region ok (w64 (handle b2 + o2)) (flat_in n) (w64 (handle b1 + o1)) id t
  | _ => t
  end.

(** A buffer of the layer's whose handle on the device is [p], now and later. *)
Definition resident (drv : driver) (s : msan) (d b p : Z) : Prop :=
  b ∈ m_MemBufferMap s ∧ ∀ h, getHandle drv b d s h = (Go p, s, h).

Lemma is_buffer_runs b s h : b ∈ m_MemBufferMap s → is_buffer b s h = (Go true, s, h).
Proof. intros Hb. unfold is_buffer, get, mbind, M_bind, mret, M_ret. by rewrite bool_decide_eq_true_2. Qed.

Section resident.
Context (drv : driver) (view : list ddi_call → Z → Z) (ty : DeviceType) (k SB SE : Z).
Context (Hk : 0 <= k <= 46) (Hl : layout_ok ty k (range SB SE)).
Context `{HD : !SerialMemory drv view (shadow_zone ty (range SB SE)) (2 ^ k)}.
#[local] Abbreviation tracks := (tracks view ty k SB SE).

Lemma shadow_of_eq s h t d h' o :
  tracks s h t → has_shadow ty s d → objects s ty = Some o → shadow_of d s h' = (Go (ty, o), s, h').
Proof.
  intros HR (di & Hd & Hsh) Ho.
  unfold shadow_of, getDeviceInfo, obj, get, deref, mbind, M_bind, mret, M_ret. by rewrite Hd, Hsh, Ho.
Qed.

Lemma GetDevice_bind {A} q (f : Z → M msan A) s h :
  (GetDevice drv q ≫= f) s h = f (drv h (Queue_Device q)).2 s (h ++ [Queue_Device q]).
Proof. done. Qed.

Lemma UR_CALL_ext {A} c (f g : Z → M msan A) s h :
  (∀ v, f v s (h ++ [c]) = g v s (h ++ [c])) → (UR_CALL drv c ≫= f) s h = (UR_CALL drv c ≫= g) s h.
Proof.
  intros Hfg. unfold mbind, M_bind. destruct (UR_CALL drv c s h) as [[[v|r|w] s1] h1] eqn:E; [|done..].
  apply UR_CALL_inv in E as (_ & -> & ->). apply Hfg.
Qed.

(** The shadow of an end in device memory is the one of the device of the queue. *)
Definition shadowed (s : msan) (o : MsanShadowMemory) (a : Z) : Prop :=
  ∃ It id ai, findAllocInfoByAddress s a = Some (It, id, ai) ∧
              ∀ h, shadow_of (AI_Device ai) s h = (Go (ty, o), s, h).

(** The commands of the source, in the shape of [MsanCommands]. *)
Lemma clear_command q a c0 n wl out d o s h :
  (∀ h, shadow_of d s h = (Go (ty, o), s, h)) → shadowed s o a →
  (ev ← UR_CALL drv c0; ev' ← clear_shadow drv q d a n wl; events_wait drv q [ev; ev'] out) s h =
    fill_program drv q c0 (λ a, Enqueue_Fill q a [0] n wl true) a out s h.
Proof.
  intros Hd (It & id & ai & Hf & Hs). unfold fill_program. apply UR_CALL_ext. intros ev.
  rewrite (bind_Go_eq get _ _ _ s) by done. rewrite Hf. unfold clear_shadow, mbind, M_bind.
  rewrite Hd, Hs. cbn [fst snd]. by destruct (UR_CALL drv _ s _) as [[[]]].
Qed.

Lemma fill_command q b pat off n wl out p d o s h :
  (drv h (Queue_Device q)).2 = d → resident drv s d b p → (∀ h, shadow_of d s h = (Go (ty, o), s, h)) →
  shadowed s o (w64 (p + off)) →
  urEnqueueMemBufferFill drv q b pat off n wl out s h =
    fill_program drv q (Enqueue_Fill q (w64 (p + off)) pat n wl true) (λ a, Enqueue_Fill q a [0] n wl true)
      (w64 (p + off)) out s (h ++ [Queue_Device q]).
Proof.
  intros Hq [Hm Hg] Hd Hs. unfold urEnqueueMemBufferFill.
  rewrite (bind_Go_eq _ _ _ _ _ (is_buffer_runs b s h Hm)), GetDevice_bind, Hq.
  rewrite (bind_Go_eq _ _ _ _ _ (Hg _)). by eapply clear_command.
Qed.

Lemma write_command q b bl off n src wl out p d o s h :
  (drv h (Queue_Device q)).2 = d → resident drv s d b p → (∀ h, shadow_of d s h = (Go (ty, o), s, h)) →
  shadowed s o (w64 (p + off)) →
  urEnqueueMemBufferWrite drv q b bl off n src wl out s h =
    fill_program drv q (Enqueue_Memcpy q bl (w64 (p + off)) src n wl true) (λ a, Enqueue_Fill q a [0] n wl true)
      (w64 (p + off)) out s (h ++ [Queue_Device q]).
Proof.
  intros Hq [Hm Hg] Hd Hs. unfold urEnqueueMemBufferWrite.
  rewrite (bind_Go_eq _ _ _ _ _ (is_buffer_runs b s h Hm)), GetDevice_bind, Hq.
  rewrite (bind_Go_eq _ _ _ _ _ (Hg _)). by eapply clear_command.
Qed.

Lemma copy_command q b1 b2 o1 o2 n wl out p1 p2 d o s h :
  (drv h (Queue_Device q)).2 = d → resident drv s d b1 p1 → resident drv s d b2 p2 →
  (∀ h, shadow_of d s h = (Go (ty, o), s, h)) →
  shadowed s o (w64 (p1 + o1)) → shadowed s o (w64 (p2 + o2)) →
  urEnqueueMemBufferCopy drv q b1 b2 o1 o2 n wl out s h =
    copy_program drv q (Enqueue_Memcpy q false (w64 (p2 + o2)) (w64 (p1 + o1)) n wl true)
      (λ a a', Enqueue_Memcpy q false a a' n wl true) (λ a, Enqueue_Fill q a [0] n wl true)
      (w64 (p2 + o2)) (w64 (p1 + o1)) out s (h ++ [Queue_Device q]).
Proof.
  intros Hq [Hm1 Hg1] [Hm2 Hg2] Hd (? & ? & ? & Hf1 & Hs1) (? & ? & ? & Hf2 & Hs2).
  unfold urEnqueueMemBufferCopy, copy_program.
  rewrite (bind_Go_eq _ _ _ _ _ (is_buffer_runs b1 s h Hm1)), (bind_Go_eq _ _ _ _ _ (is_buffer_runs b2 s h Hm2)).
  cbn [andb]. rewrite GetDevice_bind, Hq, (bind_Go_eq _ _ _ _ _ (Hd _)).
  rewrite (bind_Go_eq _ _ _ _ _ (Hg1 _)), (bind_Go_eq _ _ _ _ _ (Hg2 _)). apply UR_CALL_ext. intros ev.
  rewrite (bind_Go_eq get _ _ _ s) by done. rewrite Hf1, Hf2. cbn [fst snd].
  unfold mbind, M_bind. rewrite Hs1. cbn [fst snd]. by destruct (UR_CALL drv _ s _) as [[[]]].
Qed.

(** The program of a command: one that does to the tracker what [buffer_after] says
    and that leaves commands on its queue only. *)
Lemma resident_program in_order handle c s h t d :
  in_order (queue_of c) = true →
  tracks s h t → has_shadow ty s d → (drv h (Queue_Device (queue_of c))).2 = d →
  (∀ b, b ∈ buffers_of c → resident drv s d b (handle b)) → buffer_allowed ty SB SE handle c t →
  ∃ m : M msan Z, run_buffer drv c s h = m s (h ++ [Queue_Device (queue_of c)]) ∧
    within drv in_order {[queue_of c]} m ∧
    keeps_tracker drv view ty k SB SE (h ++ [Queue_Device (queue_of c)]) (λ ok, buffer_after handle c ok t) m
      s (h ++ [Queue_Device (queue_of c)]).
Proof.
  intros Hin HR Hd Hq Hb [Hdev Ha].
  assert (∃ o, objects s ty = Some o) as [o Ho].
  { pose proof Hd as (di & Hdi & Hsh).
    destruct (tr_device _ _ _ _ _ _ _ _ HR d di ty Hdi Hsh) as (_ & (o & Ho & _) & _). eauto. }
  assert (∀ h, shadow_of d s h = (Go (ty, o), s, h)) as Hsd by (intros; by apply (shadow_of_eq s h t)).
  assert (∀ a, a ∈ places_of handle c → shadowed s o a) as Hch.
  { intros a Hin'. pose proof (find_chunk view ty k SB SE Hk Hl s h t a HR) as Hc.
    destruct (Hdev a Hin') as [[b n] Hbn]. rewrite Hbn in Hc. destruct Hc as (id' & ai' & Hf' & Hsh & _).
    exists b, id', ai'. split; [done|]. intros h'. by apply (shadow_of_eq s h t). }
  assert (tracks s (h ++ [Queue_Device (queue_of c)]) t) as HR1 by (by apply (tracks_quiet drv view ty k SB SE)).
  destruct c; try done; cbn [run_buffer queue_of buffers_of places_of buffer_after] in *; eexists;
    (split; [first [eapply write_command|eapply fill_command|eapply copy_command];
             [done|apply Hb; set_solver|..]; (done || (apply Hb; set_solver) || (apply Hch; set_solver))|]).
  - split; [by apply within_fill; intros; apply fits_one|].
    apply (fill_runs drv view ty k SB SE Hk Hl); try done. intros. by rewrite written_byte.
  - split; [by apply within_fill; intros; apply fits_one|].
    apply (fill_runs drv view ty k SB SE Hk Hl); try done. intros. by rewrite written_byte.
  - split; [by apply within_copy; intros; apply fits_one|].
    apply (copy_runs drv view ty k SB SE Hk Hl); try done.
    + intros. by rewrite written_byte.
    + intros a a' x Hx. cbn. do 2 f_equal. unfold id. lia.
Qed.
End resident.

(** * Properties *)

(** C24: in every state that calls on buffers, contexts and USM reach, also calls
    that failed, the handles of buffers are live, a sub-buffer has an older live
    parent in its context and no memory of its own, and the parents that
    [getHandle] goes through end. *)
Theorem buffers_stay_well_formed drv s h :
  reaches_with_buffers drv s h →
  buffers_ok s ∧
  ∀ b mb d h', buffers s !! b = Some mb →
    getHandle drv b d s h' =
      match SubBuffer mb with
      | Some sub => (Handle ← getHandle drv (Parent sub) d; mret (w64 (Handle + Origin sub))) s h'
      | None => own_handle drv b d s h'
      end.
Proof.
  intros Hre. assert (buffers_ok s) as HI by by eapply reaches_buffers_ok.
  split; [done|]. intros b mb d h' Hb. by apply getHandle_unfold.
Qed.

(** C23: once [getHandle] returned a handle for a device, it returns it again
    without any call and without a change, for sub-buffers too. *)
Theorem handle_stable drv s h b d p s' h' :
  reaches_with_buffers drv s h → d ≠ 0 → never_null drv →
  getHandle drv b d s h = (Go p, s', h') → ∀ h2, getHandle drv b d s' h2 = (Go p, s', h2).
Proof.
  intros Hre Hd Hn. apply (handle_again drv d Hd Hn (Z.to_nat b)); [done|]. by eapply reaches_buffers_ok.
Qed.

(** C21: while buffers are resident on the device of the queue, a fill, a write and a
    copy between them keep the shadow up to date, with or without events to wait
    for: they end, with an error only when the driver refused a call, and once the
    commands have run the shadow of the memory behind the buffers says what the
    command does to it.  The queue is in-order and no other has commands left. *)
Theorem resident_commands_track drv mem in_order ty k SB SE handle c s h t d p :
  0 <= k <= 46 → layout_ok ty k (range SB SE) →
  DeviceMemory drv mem in_order (shadow_zone ty (range SB SE)) (2 ^ k) →
  in_order (queue_of c) = true → busy drv in_order h = Some p → p ⊆ {[queue_of c]} →
  tracks mem ty k SB SE s h t → has_shadow ty s d → (drv h (Queue_Device (queue_of c))).2 = d →
  (∀ b, b ∈ buffers_of c → resident drv s d b (handle b)) → buffer_allowed ty SB SE handle c t →
  ∃ r h', run_buffer drv c s h = (r, s, h') ∧ h `prefix_of` h' ∧
    ((∃ ev, r = Go ev) ∨ ∃ e, r = Fail e ∧ e ≠ UR_RESULT_SUCCESS ∧ refused drv h h') ∧
    (∃ p', busy drv in_order h' = Some p' ∧ p' ⊆ {[queue_of c]}) ∧
    ∀ ok, (ok = true → ¬ refused drv h h') → tracks mem ty k SB SE s h' (buffer_after handle c ok t).
Proof.
  intros Hk Hl HD Hin Hp Hpq HR Hd Hq Hb Ha.
  pose proof (serial_SerialMemory drv mem in_order _ _ HD) as HS.
  assert (∀ h t, is_Some (busy drv in_order h) →
            tracks mem ty k SB SE s h t ↔ tracks (serial drv in_order mem) ty k SB SE s h t) as Hview.
  { intros h0 t0 Hs. split; apply tracks_view; by rewrite serial_ordered. }
  destruct (resident_program drv _ ty k SB SE Hk Hl (HD := HS) in_order handle c s h t d) as (m & Hm & Hw & Hkt);
    [done|by apply Hview|done..|].
  set (h1 := h ++ [Queue_Device (queue_of c)]) in *.
  assert (h `prefix_of` h1) as Hh1 by (by apply prefix_app_r).
  destruct (Hw s h1 p) as (p' & Hp' & Hpq'); [by apply busy_quiet|done|].
  unfold keeps_tracker, mruns in Hkt. rewrite Hm. clear Hm.
  destruct (m s h1) as [[[ev|e|w] s'] h'] eqn:Hrun; [..|done]; cbn [snd] in Hp'.
  - destruct Hkt as (Hpre & -> & Hok). eexists _, h'. split; [done|]. split_and!; [by etrans|by left; eauto|by eauto|].
    intros ok _. apply Hview; [by eauto|]. apply Hok.
  - destruct Hkt as (He & Hpre & -> & Hbad & Hr).
    assert (refused drv h h') as Hr' by (by eapply refused_mono).
    eexists _, h'. split; [done|]. split_and!; [by etrans|by right; eauto|by eauto|].
    intros ok Hok. apply Hview; [by eauto|]. destruct ok; [by destruct Hok|done].
Qed.
