(* ===== verification/MsanMigration.v ===== *)
(** * MsanMigration: the contents of a buffer on another device

    What [getHandle] does to memory when the device changes: the first time it
    allocates on the device and writes the shadow of the new memory, and each time
    it copies the contents through the host. *)
From S2P Require Import Prelude SanCommon MsanState MsanShadow MsanLayout MsanMemory.
From S2P Require Import MsanPoison MsanInterceptor MsanTracking MsanCommands MsanOrder MsanRuns.
From S2P Require Import MsanBuffer MsanBufferCalls MsanHandles.

(** ** A change of device *)

(** The calls of a queue of the layer's own, around one blocking copy. *)
Definition copied_by (q : Z) (c : ddi_call) (create : ddi_call) : list ddi_call :=
  [create] ++ [c] ++ [Queue_Finish q; Queue_Release q].

Lemma queue_copy_inv drv ctx dev (c : Z → ddi_call) s h r s' h' :
  with_queue drv ctx dev (λ q, UR_CALL drv (c q)) s h = (Go r, s', h') →
  let q := (drv h (Queue_Create ctx dev)).2 in
  s' = s ∧ (drv (h ++ [Queue_Create ctx dev]) (c q)).1 = UR_RESULT_SUCCESS ∧
  h' = h ++ copied_by q (c q) (Queue_Create ctx dev).
Proof.
  unfold with_queue. intros H.
  destruct (UR_CALL drv _ s _) as [[[v|e|w] s1] h1] eqn:Hc; [|done..]. injection H as <- <- <-.
  apply UR_CALL_inv in Hc as (Hd & -> & ->). cbn. split_and!; [done|by rewrite Hd|].
  unfold copied_by. by rewrite <- !app_assoc.
Qed.

(** Where a migration puts the contents meanwhile. *)
Definition staging (drv : driver) (mb : MemBuffer) (q : Z) : Prop :=
  (Allocations mb !! 0 = Some q ∧ q ≠ 0) ∨
  (default 0 (Allocations mb !! 0) = 0 ∧
   ∃ h a, drv h (USM_HostAlloc (MB_Context mb) a 0 (MB_Size mb)) = (UR_RESULT_SUCCESS, q)).

Lemma migrate_inv drv b d p s h mb d1 p1 s' h' :
  buffers s !! b = Some mb → LastSyncedDevice mb = (d1, p1) → d1 ≠ 0 → d ≠ d1 →
  migrate drv b d p s h = (Go tt, s', h') →
  ∃ q pre q1 q2, staging drv mb q ∧ (∀ c, c ∈ pre → ∀ x, touched c x = false) ∧
    let out := Enqueue_Memcpy q1 true q p1 (MB_Size mb) [] false in
    let back := Enqueue_Memcpy q2 true p q (MB_Size mb) [] false in
    let h1 := h ++ pre ++ [Queue_Create (MB_Context mb) d1] in
    let h2 := h1 ++ [out] ++ [Queue_Finish q1; Queue_Release q1; Queue_Create (MB_Context mb) d] in
    (drv h1 out).1 = UR_RESULT_SUCCESS ∧ (drv h2 back).1 = UR_RESULT_SUCCESS ∧
    h' = h2 ++ [back] ++ [Queue_Finish q2; Queue_Release q2].
Proof.
  intros Hb Hl Hd1 Hne H. unfold migrate in H.
  rewrite (bind_Go_eq _ _ _ _ _ (buffer_runs b s h mb Hb)) in H. rewrite Hl in H. cbn [fst snd] in H.
  rewrite (proj2 (Z.eqb_neq d1 0)), (proj2 (Z.eqb_neq d d1)) in H by done. cbn [orb] in H.
  apply bind_Go_inv in H as (q0 & s1 & h1 & Ha & H).
  rewrite (allocation_runs _ _ _ _ _ Hb) in Ha. injection Ha as <- <- <-.
  apply bind_Go_inv in H as (q & s2 & h2 & Hq & H).
  assert (∃ pre, h2 = h ++ pre ∧ staging drv mb q ∧ ∀ c, c ∈ pre → ∀ x, touched c x = false) as (pre & -> & Hst & Hpre).
  { destruct (Z.eqb_spec (default 0 (Allocations mb !! 0)) 0) as [E|E].
    - apply bind_Go_inv in Hq as (al & s3 & h3 & Hal & Hq). unfold deref in Hal.
      destruct (getAlignment _); [|done]. injection Hal as -> <- <-.
      apply bind_Go_inv in Hq as (q' & s4 & h4 & (Hd & -> & ->)%UR_CALL_inv & Hq).
      apply bind_Go_inv in Hq as ([] & s5 & h5 & Hu & Hq). injection Hq as -> <- <-.
      erewrite upd_buffer_runs in Hu by (cbn; by rewrite lookup_insert_eq). injection Hu as <- <-.
      eexists. split; [done|]. split; [right; eauto|]. intros c Hc%list_elem_of_singleton. by subst c.
    - injection Hq as <- <- <-. exists []. rewrite app_nil_r. split_and!; [done| |by intros c ?%elem_of_nil].
      left. destruct (Allocations mb !! 0); [done|by cbn in E]. }
  apply bind_Go_inv in H as (r1 & s3 & h3 & (-> & Hc1 & ->)%queue_copy_inv & H).
  apply bind_Go_inv in H as (r2 & s4 & h4 & (-> & Hc2 & ->)%queue_copy_inv & H). injection H as <- <-.
  exists q, pre, (drv (h ++ pre) (Queue_Create (MB_Context mb) d1)).2. eexists.
  split; [done|]. split; [done|]. unfold copied_by in *. rewrite <- !app_assoc in *. cbn in *.
  split; [exact Hc1|]. split; [exact Hc2|done].
Qed.

Section migration.
Context (drv : driver) (view : list ddi_call → Z → Z) (zone : Z → Prop) (page : Z).
Context `{HD : !SerialMemory drv view zone page}.

Lemma quiet_keeps l h x : zone x → (∀ c, c ∈ l → touched c x = false) → view (h ++ l) x = view h x.
Proof.
  intros Hx. revert h. induction l as [|c l IH]; intros h Hl; [by rewrite app_nil_r|].
  replace (h ++ c :: l) with ((h ++ [c]) ++ l) by by rewrite <- app_assoc.
  rewrite IH by (intros c' Hc'; apply Hl; by right). apply call_keeps; [done|]. apply Hl. by left.
Qed.

(** A copy between places that do not overlap. *)
Lemma copy_moves q d src n h :
  (drv h (Enqueue_Memcpy q true d src n [] false)).1 = UR_RESULT_SUCCESS →
  (∀ i j, 0 <= i < n → 0 <= j < n → d + i ≠ src + j) → (∀ i, 0 <= i < n → zone (d + i)) →
  ∀ i, 0 <= i < n →
    view (h ++ [Enqueue_Memcpy q true d src n [] false]) (d + i) = view h (src + i).
Proof.
  intros Hok Hap Hz i Hi. apply (call_writes h _ (d + i)); [done| |by apply Hz|..].
  - intros x y Hx%flat_in_spec Hy%flat_in_spec [= E]. apply (Hap (x - d) (y - d)); lia.
  - apply flat_in_spec. lia.
  - cbn. do 2 f_equal. lia.
Qed.

Lemma migrate_moves b d p s h mb d1 p1 s' h' :
  buffers s !! b = Some mb → LastSyncedDevice mb = (d1, p1) → d1 ≠ 0 → d ≠ d1 →
  (∀ q, staging drv mb q → ∀ i, 0 <= i < MB_Size mb →
     zone (q + i) ∧ zone (p1 + i) ∧ zone (p + i) ∧
     ∀ j, 0 <= j < MB_Size mb → q + i ≠ p1 + j ∧ p + i ≠ q + j) →
  migrate drv b d p s h = (Go tt, s', h') →
  (∀ i, 0 <= i < MB_Size mb → view h' (p + i) = view h (p1 + i)) ∧
  ∃ q, staging drv mb q ∧
    ∀ x, zone x → (∀ i, 0 <= i < MB_Size mb → x ≠ p + i ∧ x ≠ q + i) → view h' x = view h x.
Proof.
  intros Hb Hl Hd1 Hne Hsep H.
  destruct (migrate_inv _ _ _ _ _ _ _ _ _ _ _ Hb Hl Hd1 Hne H) as (q & pre & q1 & q2 & Hst & Hpre & Hc1 & Hc2 & ->).
  specialize (Hsep q Hst). set (n := MB_Size mb) in *.
  set (h1 := h ++ pre ++ [Queue_Create (MB_Context mb) d1]) in *.
  set (out := Enqueue_Memcpy q1 true q p1 n [] false) in *.
  set (mid := [Queue_Finish q1; Queue_Release q1; Queue_Create (MB_Context mb) d]) in *.
  set (back := Enqueue_Memcpy q2 true p q n [] false) in *. rewrite app_assoc in *.
  assert (∀ l h x, l = mid ∨ l = [Queue_Finish q2; Queue_Release q2] → zone x → view (h ++ l) x = view h x) as Hm.
  { intros l h0 x Hl0 Hx. apply quiet_keeps; [done|]. unfold mid in Hl0. intros c Hc.
    destruct Hl0 as [-> | ->]; set_unfold; naive_solver. }
  assert (∀ x, zone x → view h1 x = view h x) as H1.
  { intros x Hx. apply quiet_keeps; [done|]. intros c. rewrite elem_of_app.
    intros [Hc|Hc%list_elem_of_singleton]; [by apply Hpre|by subst c]. }
  split.
  - intros i Hi. destruct (Hsep i Hi) as (Zq & Z1 & Zp & _). rewrite app_assoc, (Hm _ _ _ (or_intror eq_refl)) by done.
    unfold back. rewrite copy_moves; [|done|intros; by apply Hsep|intros; by apply Hsep|done].
    rewrite (Hm _ _ _ (or_introl eq_refl)) by done. unfold out.
    rewrite copy_moves; [by apply H1|done|intros; by apply Hsep|intros; by apply Hsep|done].
  - exists q. split; [done|]. intros x Hx Hout. rewrite app_assoc, (Hm _ _ _ (or_intror eq_refl)) by done.
    assert (∀ c a, (∀ y, touched c y = flat_in n (y - a)) → (∀ i, 0 <= i < n → x ≠ a + i) → touched c x = false) as Ht.
    { intros c a Hc Ha. rewrite Hc. destruct (flat_in n (x - a)) eqn:E; [|done].
      apply flat_in_spec in E. destruct (Ha (x - a)); lia. }
    rewrite call_keeps by (done || (eapply Ht; [done|]; intros; by apply Hout)).
    rewrite (Hm _ _ _ (or_introl eq_refl)) by done.
    rewrite call_keeps by (done || (eapply Ht; [done|]; intros; by apply Hout)). by apply H1.
Qed.
End migration.

(** ** Calls that stay in a part of memory *)

(** From a state [I] to such a state, with calls that touch [D] only. *)
Definition went (I : msan → Prop) (D : Z → Prop) (s : msan) (h : list ddi_call) (s' : msan)
    (h' : list ddi_call) : Prop :=
  I s → I s' ∧ ∃ l, h' = h ++ l ∧ ∀ c x, c ∈ l → touched c x = true → D x.
Definition confined {A} (I : msan → Prop) (D : Z → Prop) (m : M msan A) : Prop :=
  ∀ s h, went I D s h (m s h).1.2 (m s h).2.

Section confined.
Context (I : msan → Prop) (D : Z → Prop).

Lemma confined_quiet {A} (m : M msan A) : (∀ s h, (m s h).1.2 = s ∧ (m s h).2 = h) → confined I D m.
Proof.
  intros Hm s h HI. destruct (Hm s h) as [-> ->]. split; [done|]. exists [].
  split; [by rewrite app_nil_r|]. by intros c x ?%elem_of_nil.
Qed.
Lemma confined_ret {A} (a : A) : confined I D (mret a).
Proof. by apply confined_quiet. Qed.
Lemma confined_fail {A} r : confined I D (fail (A := A) r).
Proof. by apply confined_quiet. Qed.
Lemma confined_stop {A} w : confined I D (stop (A := A) w).
Proof. by apply confined_quiet. Qed.
Lemma confined_get : confined I D get.
Proof. by apply confined_quiet. Qed.
Lemma confined_deref {A} (o : option A) : confined I D (deref o).
Proof. apply confined_quiet. intros s h. by destruct o. Qed.
Lemma confined_modify f : (∀ s, I s → I (f s)) → confined I D (modify f).
Proof.
  intros Hf s h HI. split; [by apply Hf|]. exists []. split; [by rewrite app_nil_r|].
  by intros c x ?%elem_of_nil.
Qed.

Lemma went_trans s h s1 h1 s2 h2 : went I D s h s1 h1 → went I D s1 h1 s2 h2 → went I D s h s2 h2.
Proof.
  intros H1 H2 HI. destruct (H1 HI) as (HI1 & l1 & -> & HD1). destruct (H2 HI1) as (HI2 & l2 & -> & HD2).
  split; [done|]. exists (l1 ++ l2). split; [by rewrite app_assoc|]. intros c x [Hc|Hc]%elem_of_app; eauto.
Qed.

Lemma confined_went {A} (m : M msan A) s h r s' h' : confined I D m → m s h = (r, s', h') → went I D s h s' h'.
Proof. intros Hm Hr. specialize (Hm s h). by rewrite Hr in Hm. Qed.

Lemma confined_bind_at {A B} (m : M msan A) (f : A → M msan B) s h :
  confined I D m → (∀ a s' h', m s h = (Go a, s', h') → went I D s' h' (f a s' h').1.2 (f a s' h').2) →
  went I D s h ((m ≫= f) s h).1.2 ((m ≫= f) s h).2.
Proof.
  intros Hm Hf. specialize (Hm s h). unfold mbind, M_bind.
  destruct (m s h) as [[[a|r|w] s1] h1]; [|done..]. eapply went_trans; [exact Hm|]. by apply Hf.
Qed.
Lemma confined_bind {A B} (m : M msan A) (f : A → M msan B) :
  confined I D m → (∀ a, confined I D (f a)) → confined I D (m ≫= f).
Proof. intros Hm Hf s h. apply confined_bind_at; [done|]. intros a s' h' _. apply Hf. Qed.

Lemma confined_call drv c : (∀ x, touched c x = true → D x) → confined I D (call drv c).
Proof.
  intros Hc s h HI. split; [done|]. exists [c]. split; [done|]. intros c' x ->%list_elem_of_singleton. apply Hc.
Qed.
Lemma confined_UR_CALL drv c : (∀ x, touched c x = true → D x) → confined I D (UR_CALL drv c).
Proof.
  intros Hc. apply confined_bind; [by apply confined_call|]. intros r.
  case_decide; [apply confined_ret|apply confined_fail].
Qed.
Lemma confined_try {A} (m : M msan A) : confined I D m → confined I D (try m).
Proof.
  intros Hm s h HI. destruct (Hm s h HI) as (HI1 & Hl). unfold try.
  by destruct (m s h) as [[[a|r|w] s1] h1].
Qed.
Lemma confined_with_queue {A} drv ctx dev (f : Z → M msan A) :
  (∀ q, confined I D (f q)) → confined I D (with_queue drv ctx dev f).
Proof.
  intros Hf s h HI. unfold with_queue. set (q := (drv h (Queue_Create ctx dev)).2).
  destruct (Hf q s (h ++ [Queue_Create ctx dev]) HI) as (HI1 & l & Hl & HD).
  assert (∀ l', (∀ c, c ∈ l' → c = Queue_Finish q ∨ c = Queue_Release q) → ∃ l0,
    (h ++ [Queue_Create ctx dev]) ++ l ++ l' = h ++ l0 ∧ ∀ c x, c ∈ l0 → touched c x = true → D x) as Hall.
  { intros l' Hl'. exists ([Queue_Create ctx dev] ++ l ++ l'). split; [by rewrite <- app_assoc|].
    intros c x. rewrite !elem_of_app. intros [->%list_elem_of_singleton|[Hc|[-> | ->]%Hl']]; [done|by eauto|done..]. }
  destruct (f q s _) as [[[a|r|w] s1] h1]; cbn in *; subst h1; (split; [done|]).
  - rewrite <- app_assoc. apply Hall. set_solver.
  - rewrite <- app_assoc. apply Hall. set_solver.
  - specialize (Hall []). rewrite app_nil_r in Hall. apply Hall. set_solver.
Qed.
End confined.

Create HintDb confined.
#[export] Hint Resolve confined_ret confined_fail confined_stop confined_get confined_deref confined_call
  confined_UR_CALL confined_try : confined.
#[export] Hint Extern 1 =>
  lazymatch goal with |- ∀ x, touched _ x = true → _ => done end : confined.
Ltac confine :=
  repeat lazymatch goal with
  | |- confined _ _ (_ ≫= _) => apply confined_bind; [|intros ?]
  | |- confined _ _ (match _ with _ => _ end) => case_match
  | |- _ => solve [eauto with confined]
  end.

(** ** Poisoning stays in the shadow *)

Section poison.
Context (drv : driver) (ty : DeviceType) (k SB SE d : Z).
Context (Hk : 0 <= k <= 46) (Hl : layout_ok ty k (range SB SE)) `{HA : !Answers drv (2 ^ k)}.
#[local] Abbreviation zone := (shadow_zone ty (range SB SE)).
#[local] Abbreviation m2s := (MemToShadow ty (range SB SE)).
#[local] Abbreviation placed := (placed ty (range SB SE)).

(** The device has a shadow memory, which is set up. *)
Definition shadow_ready (s : msan) : Prop := set_up ty SB SE s ∧ has_shadow ty s d.
#[local] Abbreviation stays_in := (confined shadow_ready zone).

Lemma confined_obj {A} (f : MsanShadowMemory → M msan A) :
  (∀ o, (∀ y, MemToShadow ty o y = m2s y) → stays_in (f o)) → stays_in (o ← obj ty; f o).
Proof.
  intros Hf s h HI. destruct (MemToShadow_set_up ty SB SE s (proj1 HI)) as (o & Ho & Hm).
  assert (obj ty s h = (Go o, s, h)) as Hr by (unfold obj, get, deref, mbind, M_bind, mret, M_ret; by rewrite Ho).
  unfold mbind, M_bind. rewrite Hr. by apply Hf.
Qed.

Lemma confined_upd f :
  (∀ o, ShadowBegin (f o) = ShadowBegin o ∧ ShadowEnd (f o) = ShadowEnd o) → stays_in (upd ty f).
Proof.
  intros Hf s h ((o & Ho & Hb & He) & Hd).
  assert (upd ty f s h = (Go tt, set_object ty (f o) s, h)) as ->
    by (unfold upd, obj, get, deref, modify, mbind, M_bind, mret, M_ret; by rewrite Ho).
  split; [split; [|done]|].
  - exists (f o). cbn. rewrite decide_True by done. destruct (Hf o). split_and!; congruence.
  - exists []. split; [by rewrite app_nil_r|]. by intros c x ?%elem_of_nil.
Qed.

#[local] Hint Extern 1 (confined _ _ (upd _ _)) => by apply confined_upd : confined.

Lemma confined_device {A} (f : DeviceType → M msan A) :
  stays_in (f ty) → stays_in (di ← getDeviceInfo d; ty' ← deref (Shadow di); f ty').
Proof.
  intros Hf s h HI. destruct HI as [Hu (di & Hdi & Hsh)].
  unfold getDeviceInfo, get, deref, mbind, M_bind, mret, M_ret. rewrite Hdi, Hsh. apply Hf.
  split; [done|]. by exists di.
Qed.

Lemma confined_map_new_page q P wl out :
  (∀ x, flat_in (2 ^ k) (x - P) = true → zone x) → stays_in (map_new_page drv ty q P (2 ^ k) wl out).
Proof.
  intros HP. unfold map_new_page, EnqueueUSMBlockingSet. apply confined_obj. intros o Ho.
  confine.
Qed.

Lemma confined_map_shadow_pages fuel q p P last wl out :
  is_gpu ty = true → (2 ^ k | P) → SB <= P → last < SE →
  stays_in (map_shadow_pages drv ty fuel q p P last (2 ^ k) wl out).
Proof.
  intros Hg. pose proof (page_bounds replay k SE Hk) as Hpg. destruct (gpu_range replay ty k SB SE Hk Hl Hg) as (HSB & HSE & _ & HdE).
  revert P wl. induction fuel as [|fuel IH]; intros P wl HP HPb Hlast; cbn [map_shadow_pages];
    (destruct (Z.leb_spec P last) as [Hle|Hgt]; [|apply confined_ret]); [apply confined_stop|].
  assert (P + 2 ^ k <= SE) as HPS.
  { destruct HP as [z ->], HdE as [z' ->]. assert (z < z') by nia. nia. }
  apply confined_bind.
  - unfold map_shadow_page. apply confined_bind; [apply confined_map_new_page|].
    + intros x Hx%flat_in_spec. destruct ty; try done; cbn; lia.
    + intros wl'. confine.
  - intros wl'. rewrite w64_small by lia. apply IH; [apply Z.divide_add_r; [done|apply Z.divide_refl]|lia|done].
Qed.

Lemma confined_poison q p n v wl out :
  placed p n → 0 < n → stays_in (EnqueuePoisonShadow drv ty q p n v wl out).
Proof.
  intros Hp Hn. destruct (m2s_ends ty k SB SE Hl p n Hp Hn) as (Hp0 & Hpn & He & Hzp & Hze).
  assert (∀ x, flat_in n (x - m2s p) = true → zone x) as Hz.
  { intros x Hx%flat_in_spec. assert (x = m2s (p + (x - m2s p))) as ->.
    - rewrite (placed_contiguous ty k (range SB SE) p n (p + _)) by (done || lia). lia.
    - apply (m2s_zone ty k SB SE Hl). eapply placed_app; [done|lia]. }
  assert (ty = CPU ∨ is_gpu ty = true) as [Ht|Hg] by (clear -Hl; destruct ty; [done|by left|by right..]).
  - assert (EnqueuePoisonShadow drv ty q p n v wl out = CPU_EnqueuePoisonShadow drv q p n v wl out) as ->
      by (by rewrite Ht).
    assert (∀ y, MemToShadow_CPU y = m2s y) as Hm by (by subst ty).
    unfold CPU_EnqueuePoisonShadow. rewrite (proj2 (Z.eqb_neq n 0)) by lia.
    rewrite !Hm, (w64_small (p + n - 1)), He by lia.
    replace (m2s p + (n - 1) - m2s p + 1) with n by lia. rewrite (w64_small n) by lia.
    unfold events_wait. confine.
  - assert (EnqueuePoisonShadow drv ty q p n v wl out = GPU_EnqueuePoisonShadow drv ty q p n v wl out) as ->
      by (clear -Hg; by destruct ty).
    unfold GPU_EnqueuePoisonShadow. rewrite (proj2 (Z.eqb_neq n 0)) by lia.
    pose proof (page_bounds replay k SE Hk) as Hpg. destruct (gpu_range replay ty k SB SE Hk Hl Hg) as (HSB & HSE & HdB & HdE).
    apply (zone_gpu ty SB SE) in Hzp as Hgp, Hze as Hge; [|done..]. apply confined_bind.
    + unfold EnqueueMapShadow, GetVirtualMemGranularity. apply confined_obj. intros o Ho. rewrite !Ho.
      intros s h. apply confined_bind_at; [confine|]. intros page s1 h1 Hpage.
      assert (page = 2 ^ k) as ->.
      { revert Hpage. unfold call, mbind, M_bind, mret, M_ret. intros [= <- _ _]. apply page_size. }
      rewrite (w64_small (p + n - 1)), He, (RoundDownTo_spec (m2s p) k) by lia.
      destruct (page_down replay k SE Hk (m2s p) (m2s p)) as [Hpd Hdiv]; [lia|].
      apply confined_map_shadow_pages; [done|done| |lia].
      destruct Hdiv as [z Hz'], HdB as [z' ->]. assert (z' < z + 1) by nia. nia.
    + intros evs. apply confined_obj. intros o Ho. rewrite !Ho, (w64_small (p + n - 1)), He by lia.
      replace (m2s p + (n - 1) - m2s p + 1) with n by lia. rewrite (w64_small n) by lia.
      unfold EnqueueUSMBlockingSet. by apply confined_UR_CALL.
Qed.

(** ** The first use on a device *)

Lemma shadow_ready_eq s s' :
  (∀ t, objects s' t = objects s t) → m_DeviceMap s' = m_DeviceMap s → shadow_ready s → shadow_ready s'.
Proof.
  intros Ho Hd [(o & Hob & Hr) (di & Hdi & Hsh)]. split; [exists o; by rewrite Ho|]. exists di. by rewrite Hd.
Qed.

(** Memory of a new chunk, and its shadow. *)
Definition new_memory (p n x : Z) : Prop := zone x ∨ p <= x < p + n.
#[local] Abbreviation grows p n := (went shadow_ready (new_memory p n)).

Lemma confined_new {A} p n (m : M msan A) : stays_in m → confined shadow_ready (new_memory p n) m.
Proof.
  intros Hm s h HI. destruct (Hm s h HI) as (HI' & l & Hl' & HD). split; [done|]. exists l. split; [done|].
  intros c x Hc Hx. left. by eapply HD.
Qed.
#[local] Hint Extern 1 (confined _ _ (modify _)) =>
  apply confined_modify; intros; by eapply shadow_ready_eq : confined.

Lemma first_allocation ctx props n s h p s' h' :
  placed p n → 0 < n →
  allocateMemory drv ctx d props 0 n DEVICE_USM s h = (Go p, s', h') → grows p n s h s' h'.
Proof.
  intros Hp Hn H. unfold allocateMemory in H.
  assert (∀ {A} (m : M msan A) s h r s' h', confined shadow_ready (new_memory p n) m → m s h = (r, s', h') →
            grows p n s h s' h') as Hc by (intros; by eapply confined_went).
  apply bind_Go_inv in H as (? & s1 & h1 & H1 & H).
  eapply went_trans; [eapply Hc, H1; unfold getContextInfo; confine|].
  apply bind_Go_inv in H as (? & s2 & h2 & H2 & H).
  eapply went_trans; [eapply Hc, H2; unfold getDeviceInfo; confine|].
  apply bind_Go_inv in H as (q & s3 & h3 & H3 & H).
  eapply went_trans; [eapply Hc, H3; unfold usm_alloc; confine|].
  apply bind_Go_inv in H as (? & s4 & h4 & H4 & H).
  eapply went_trans; [eapply Hc, H4; unfold upd_context; confine|]. rewrite decide_True in H by done.
  apply bind_Go_inv in H as (? & s5 & h5 & H5 & H).
  eapply went_trans; [eapply Hc, H5; unfold register_alloc; confine|].
  apply bind_Go_inv in H as (? & s6 & h6 & H6 & H). injection H as -> <- <-.
  eapply Hc, H6. apply confined_new, confined_with_queue. intros Q.
  by apply confined_device, confined_try, confined_poison.
Qed.

Lemma first_use b s h mb p s' h' :
  buffers s !! b = Some mb → default 0 (Allocations mb !! d) = 0 → placed p (MB_Size mb) →
  allocate_on drv b d s h = (Go p, s', h') →
  grows p (MB_Size mb) s h s' h' ∧ buffers s' !! b = Some (set_allocation d p mb).
Proof.
  intros Hb H0 Hp H. unfold allocate_on in H. apply bind_Go_inv in H as (p0 & s1 & h1 & Ha & H).
  rewrite (allocation_runs _ _ _ _ _ Hb), H0 in Ha. injection Ha as <- <- <-. cbn [Z.eqb] in H.
  set (mb1 := set_allocation d 0 mb) in *. set (s1 := set_buffer b mb1 s) in *.
  assert (buffers s1 !! b = Some mb1) as Hb1 by (cbn; by rewrite lookup_insert_eq).
  rewrite (bind_Go_eq _ _ _ _ _ (buffer_runs b s1 h mb1 Hb1)) in H. change (MB_Size mb1) with (MB_Size mb) in H.
  apply bind_Go_inv in H as (al & s2 & h2 & Hal & H).
  assert (0 < MB_Size mb ∧ s2 = s1 ∧ h2 = h) as (Hn & -> & ->).
  { unfold deref, getAlignment in Hal. destruct (Z.leb_spec (MB_Size mb) 0); [done|].
    destruct (_ || _); [done|]. by injection Hal as _ <- <-. }
  apply bind_Go_inv in H as (q & s3 & h3 & H3 & H).
  assert (buffers s3 !! b = Some mb1) as Hb3.
  { destruct (rel_run _ _ _ _ _ _ _ (blind_allocate drv _ _ _ _ _ _) H3) as (E & _). by rewrite E. }
  apply bind_Go_inv in H as ([] & s4 & h4 & H4 & H).
  rewrite (upd_buffer_runs _ _ _ _ mb1) in H4 by done. injection H4 as <- <-.
  apply bind_Go_inv in H as ([] & s5 & h5 & H5 & H). injection H as -> <- <-.
  apply first_allocation in H3; [|done..]. split.
  - eapply (went_trans _ _ _ _ s3 h3); [intros HI; apply H3; by eapply shadow_ready_eq|].
    assert (∀ m, grows p (MB_Size mb) s3 h3 (set_buffer b m s3) h3) as Hset.
    { intros m HI. split; [by eapply shadow_ready_eq|]. exists []. split; [by rewrite app_nil_r|].
      by intros c x ?%elem_of_nil. }
    eapply went_trans; [apply Hset|]. eapply confined_went, H5.
    destruct (_ =? _); [confine|]. apply confined_with_queue. intros Q. apply confined_bind.
    + apply confined_UR_CALL. intros x Hx%flat_in_spec. right. cbn in Hx. lia.
    + intros _. apply confined_new, (confined_device (λ ty, EnqueuePoisonShadow drv ty Q p _ 0 [] false;; mret tt)).
      apply confined_bind; [by apply confined_poison|intros _; confine].
  - assert (blind (if HostPtr mb1 =? 0 then mret tt
      else with_queue drv (MB_Context mb1) d (λ Queue,
        UR_CALL drv (Enqueue_Memcpy Queue true p (HostPtr mb1) (MB_Size mb) [] false);;
        di ← getDeviceInfo d; ty ← deref (Shadow di);
        EnqueuePoisonShadow drv ty Queue p (MB_Size mb) 0 [] false;; mret tt))) as Hbl by rel_steps.
    destruct (rel_run _ _ _ _ _ _ _ Hbl H5) as (E & _). rewrite E. cbn. rewrite lookup_insert_eq.
    f_equal. unfold set_allocation, mb1. cbn. by rewrite insert_insert_eq.
Qed.
End poison.

(** ** Calls that leave no commands behind *)

Section idle.
Context (drv : driver) (in_order : Z → bool).
Context (Hcreated : ∀ h ctx dev, in_order (drv h (Queue_Create ctx dev)).2 = true).
Context (Hfinish : ∀ h q, (drv h (Queue_Finish q)).1 = UR_RESULT_SUCCESS).
#[local] Abbreviation busy := (busy drv in_order).
#[local] Abbreviation within := (within drv in_order).

Definition idle {A} (m : M msan A) : Prop := ∀ s h, busy h = Some ∅ →
  match (m s h).1.1 with Halt _ => True | _ => busy (m s h).2 = Some ∅ end.

Lemma idle_within {A} (m : M msan A) : within ∅ m → idle m.
Proof.
  intros Hm s h Hh. destruct (Hm s h ∅ Hh) as (p & Hp & HpA); [done|].
  assert (p = ∅) as -> by set_solver. by destruct ((m s h).1.1).
Qed.

Lemma idle_bind {A B} (m : M msan A) (f : A → M msan B) : idle m → (∀ a, idle (f a)) → idle (m ≫= f).
Proof.
  intros Hm Hf s h Hh. specialize (Hm s h Hh). unfold mbind, M_bind.
  destruct (m s h) as [[[a|r|w] s1] h1]; cbn in *; [by apply Hf|done..].
Qed.

Lemma idle_with_queue {A} ctx dev (f : Z → M msan A) :
  (∀ q, in_order q = true → from_idle drv in_order q (f q)) → idle (with_queue drv ctx dev f).
Proof.
  intros Hf s h Hh. destruct (busy_with_queue drv in_order Hcreated ctx dev f s h Hf Hh) as (p & Hp & He).
  specialize (He Hfinish). by destruct ((with_queue drv ctx dev f s h).1.1); subst.
Qed.

Lemma fits_blocking q c :
  command_queue c = Some q → in_order q = true → is_blocking c = true → fits in_order ∅ c.
Proof. unfold fits. intros -> -> ->. split_and!; [apply empty_subseteq|done|by left]. Qed.

Lemma within_buffer b : within ∅ (buffer b).
Proof. unfold buffer. in_turn. Qed.
Lemma within_upd_buffer b f : within ∅ (upd_buffer b f).
Proof. unfold upd_buffer, buffer. in_turn. Qed.
Lemma within_allocation b d : within ∅ (allocation b d).
Proof. unfold allocation, upd_buffer, buffer. in_turn. Qed.
#[local] Hint Resolve within_buffer within_upd_buffer within_allocation : ordered.

Lemma idle_copy ctx dev (c : Z → ddi_call) :
  (∀ q, command_queue (c q) = Some q) → (∀ q, is_blocking (c q) = true) →
  idle (with_queue drv ctx dev (λ q, UR_CALL drv (c q))).
Proof.
  intros Hc Hb. apply idle_with_queue. intros q Hq. apply (from_idle_within drv in_order ∅); [set_solver|].
  by apply within_UR_CALL, (fits_blocking q).
Qed.

Lemma idle_allocate ctx dev props pool n :
  idle (allocateMemory drv ctx dev props pool n DEVICE_USM).
Proof.
  unfold allocateMemory. do 2 (apply idle_bind; [apply idle_within; in_turn|intros _]).
  apply idle_bind; [apply idle_within; unfold usm_alloc; in_turn|intros a].
  apply idle_bind; [apply idle_within; in_turn|intros _]. rewrite decide_True by done.
  apply idle_bind; [apply idle_within; unfold register_alloc; in_turn|intros _].
  apply idle_bind; [|intros _; apply idle_within; in_turn].
  apply idle_with_queue. intros q Hq.
  apply (from_idle_poison drv in_order q dev (λ ty, try (EnqueuePoisonShadow drv ty q a n 0xff [] false))).
  intros ty. by apply within_try, within_poison.
Qed.

Lemma idle_allocate_on b d : idle (allocate_on drv b d).
Proof.
  unfold allocate_on. apply idle_bind; [apply idle_within; in_turn|intros p].
  case_match; [|apply idle_within; in_turn].
  do 2 (apply idle_bind; [apply idle_within; in_turn|intros ?]).
  apply idle_bind; [apply idle_allocate|intros p'].
  apply idle_bind; [apply idle_within; in_turn|intros _].
  apply idle_bind; [|intros _; apply idle_within; in_turn].
  case_match; [apply idle_within; in_turn|]. apply idle_with_queue. intros q Hq.
  apply from_idle_bind; [by apply within_UR_CALL, (fits_blocking q)|intros _].
  apply (from_idle_poison drv in_order q d (λ ty, EnqueuePoisonShadow drv ty q p' _ 0 [] false;; mret tt)).
  intros ty. apply within_bind; [by apply within_poison|intros _; in_turn].
Qed.

Lemma idle_migrate b d p : idle (migrate drv b d p).
Proof.
  unfold migrate. apply idle_bind; [apply idle_within; in_turn|intros mb].
  case_match; [apply idle_within; in_turn|].
  do 2 (apply idle_bind; [apply idle_within; in_turn|intros ?]).
  do 2 (apply idle_bind; [by apply idle_copy|intros _]). apply idle_within. in_turn.
Qed.

Lemma idle_own_handle b d : idle (own_handle drv b d).
Proof.
  unfold own_handle. do 2 (apply idle_bind; [apply idle_within; in_turn|intros ?]).
  apply idle_bind; [apply idle_allocate_on|intros ?]. apply idle_bind; [apply idle_migrate|intros _].
  apply idle_within. in_turn.
Qed.
End idle.

(** ** A change of device, call by call *)

Section moves.
Context (drv : driver) (view : list ddi_call → Z → Z) (zone : Z → Prop) (ty : DeviceType) (k SB SE : Z).
Context (Hk : 0 <= k <= 46) (Hl : layout_ok ty k (range SB SE)) `{HD : !SerialMemory drv view zone (2 ^ k)}.
#[local] Abbreviation shadow := (shadow_zone ty (range SB SE)).

(** The memories of a move do not overlap, nor the staging area and the shadow. *)
Definition move_apart (mb : MemBuffer) (p1 r : Z) : Prop :=
  ∀ q, staging drv mb q → ∀ i, 0 <= i < MB_Size mb →
    (zone (q + i) ∧ zone (p1 + i) ∧ zone (r + i)) ∧ ¬ shadow (q + i) ∧
    ∀ j, 0 <= j < MB_Size mb → q + i ≠ p1 + j ∧ r + i ≠ q + j ∧ r + i ≠ p1 + j.

(** The contents from [p1] are at [r], and nothing else is new but the shadow of a
    first use. *)
Definition moved_to (mb : MemBuffer) (d p1 r : Z) (h h' : list ddi_call) : Prop :=
  (∀ i, 0 <= i < MB_Size mb → view h' (r + i) = view h (p1 + i)) ∧
  ∃ q, staging drv mb q ∧
    ∀ x, zone x → (∀ i, 0 <= i < MB_Size mb → x ≠ r + i ∧ x ≠ q + i) →
      default 0 (Allocations mb !! d) ≠ 0 ∨ ¬ shadow x → view h' x = view h x.

Lemma staging_allocation mb d r q : d ≠ 0 → staging drv (set_allocation d r mb) q ↔ staging drv mb q.
Proof. intros Hd. unfold staging, set_allocation. cbn. by rewrite lookup_insert_ne. Qed.

Lemma upd_buffer_history b f s h r s' h' : upd_buffer b f s h = (Go r, s', h') → h' = h.
Proof. unfold upd_buffer, buffer, get, deref, mbind, M_bind. destruct (buffers s !! b); [|done]. by intros [= _ _ ->]. Qed.

Lemma own_handle_moves s h b mb d d1 p1 r s' h' :
  shadow_ready ty SB SE d s → buffers s !! b = Some mb → LastSyncedDevice mb = (d1, p1) →
  d1 ≠ 0 → d ≠ 0 → d ≠ d1 → own_handle drv b d s h = (Go r, s', h') →
  placed ty (range SB SE) p1 (MB_Size mb) → placed ty (range SB SE) r (MB_Size mb) →
  move_apart mb p1 r → moved_to mb d p1 r h h'.
Proof.
  intros Hup Hb Hls Hd1 Hd Hne H Hp1 Hr Hsep. unfold own_handle in H.
  rewrite (bind_Go_eq _ _ _ _ _ (buffer_runs b s h mb Hb)), (proj2 (Z.eqb_neq d 0)) in H by done.
  rewrite (bind_Go_eq (mret d) _ s h d) in H by done.
  apply bind_Go_inv in H as (p & s1 & h1 & Ha & H). apply bind_Go_inv in H as ([] & s2 & h2 & Hm & H).
  apply bind_Go_inv in H as ([] & s3 & h3 & ->%upd_buffer_history & H). injection H as -> <- <-.
  destruct (Z.eq_dec (default 0 (Allocations mb !! d)) 0) as [H0|H0].
  - destruct (first_use drv ty k SB SE d Hk Hl b s h mb r s1 h1 Hb H0 Hr Ha) as [Hw Hb1].
    destruct (Hw Hup) as (_ & l & -> & Hnew). set (mb1 := set_allocation d r mb) in *.
    assert (∀ x, zone x → ¬ shadow x → (∀ i, 0 <= i < MB_Size mb → x ≠ r + i) → view (h ++ l) x = view h x) as Hkeep.
    { intros x Hx Hns Hnr. apply (quiet_keeps drv view zone (2 ^ k)); [done|]. intros c Hc.
      destruct (touched c x) eqn:Ht; [|done]. destruct (Hnew c x Hc Ht) as [?|?]; [done|].
      destruct (Hnr (x - r)); lia. }
    destruct (migrate_moves drv view zone (2 ^ k) b d r s1 (h ++ l) mb1 d1 p1 s2 h2 Hb1 Hls Hd1 Hne) as [Hc (q & Hq & Hf)].
    + intros q Hq i Hi. apply staging_allocation in Hq; [|done]. destruct (Hsep q Hq i Hi) as ((?&?&?) & _ & Hj).
      split_and!; [done..|]. intros j Hj'. by destruct (Hj j Hj') as (? & ? & _).
    + done.
    + apply staging_allocation in Hq; [|done]. split.
      * intros i Hi. rewrite Hc by done. destruct (Hsep q Hq i Hi) as ((?&?&?) & _ & _).
        apply Hkeep; [done| |].
        -- eapply app_address_apart; [done|]. eapply placed_app; [exact Hp1|lia].
        -- intros j Hj E. destruct (Hsep q Hq j Hj) as (_ & _ & Hji). destruct (Hji i Hi) as (_ & _ & Hn).
           by apply Hn.
      * exists q. split; [done|]. intros x Hx Hout [?|Hns]; [done|]. rewrite Hf by done.
        apply Hkeep; [done..|]. intros i Hi. by apply Hout.
  - assert (∃ p, Allocations mb !! d = Some p ∧ p ≠ 0) as (p & Hp & Hp0)
      by (destruct (Allocations mb !! d); [eauto|done]).
    rewrite (resident_allocate drv b d p s h ltac:(by exists mb) Hp0) in Ha. injection Ha as -> <- <-.
    destruct (migrate_moves drv view zone (2 ^ k) b d r s h mb d1 p1 s2 h2 Hb Hls Hd1 Hne) as [Hc (q & Hq & Hf)].
    + intros q Hq i Hi. destruct (Hsep q Hq i Hi) as ((?&?&?) & _ & Hj).
      split_and!; [done..|]. intros j Hj'. by destruct (Hj j Hj') as (? & ? & _).
    + done.
    + split; [done|]. exists q. split; [done|]. intros x Hx Hout _. by apply Hf.
Qed.
End moves.

(** * Properties *)

(** C22: when a buffer with memory of its own that was last used on another device is
    asked for, its memory on the device gets the contents from there.  No memory
    changes but that and the staging area and, when the device had no memory of the
    buffer yet, the shadow, where the new memory gets its own.  No commands are left
    on any queue before and after; the memories do not overlap. *)
Theorem migration_moves_contents drv mem in_order zone ty k SB SE s h b mb d d1 p1 r s' h' :
  0 <= k <= 46 → layout_ok ty k (range SB SE) → DeviceMemory drv mem in_order zone (2 ^ k) →
  (∀ h q, (drv h (Queue_Finish q)).1 = UR_RESULT_SUCCESS) →
  reaches_with_buffers drv s h → busy drv in_order h = Some ∅ → shadow_ready ty SB SE d s →
  buffers s !! b = Some mb → SubBuffer mb = None → LastSyncedDevice mb = (d1, p1) →
  d1 ≠ 0 → d ≠ 0 → d ≠ d1 →
  getHandle drv b d s h = (Go r, s', h') →
  placed ty (range SB SE) p1 (MB_Size mb) → placed ty (range SB SE) r (MB_Size mb) →
  move_apart drv zone ty SB SE mb p1 r →
  busy drv in_order h' = Some ∅ ∧ moved_to drv mem zone ty SB SE mb d p1 r h h'.
Proof.
  intros Hk Hl HD Hfin Hre Hidle Hup Hb Hs Hls Hd1 Hd Hne H Hp1 Hr Hsep.
  rewrite (getHandle_unfold _ _ _ _ _ mb (reaches_buffers_ok drv s h Hre) Hb), Hs in H.
  pose proof (idle_own_handle drv in_order (created_in_order (DeviceMemory := HD)) Hfin b d s h Hidle) as Hi.
  rewrite H in Hi. cbn in Hi. split; [done|].
  pose proof (serial_SerialMemory drv mem in_order _ _ HD) as HS.
  pose proof (own_handle_moves drv _ zone ty k SB SE Hk Hl (HD := HS) s h b mb d d1 p1 r s' h' Hup Hb Hls Hd1 Hd Hne H
    Hp1 Hr Hsep) as Hm.
  unfold moved_to in *. by rewrite !serial_ordered in Hm by eauto.
Qed.
