(* ===== verification/MsanBufferTest.v ===== *)
(** * MsanBufferTest: buffers of the memory sanitizer on a concrete driver

    A driver with two devices, runs of an application with buffers over it, and the
    witnesses of the theorems of [MsanHandles] and [MsanMigration]. *)
From S2P Require Import Prelude SanCommon MsanState MsanShadow MsanLayout MsanMemory MsanPoison MsanInterceptor.
From S2P Require Import MsanTracking MsanCommands MsanOrder MsanRuns MsanTest MsanBuffer MsanBufferCalls.
From S2P Require Import MsanHandles MsanMigration.

(** The device of a queue has its number, the context is 7, and host memory is in
    pages of its own. *)
Definition buffer_driver (refuse : ddi_call → bool) : driver := λ h c,
  match c with
  | Queue_Device q => (UR_RESULT_SUCCESS, q)
  | Queue_Context _ => (UR_RESULT_SUCCESS, 7)
  | USM_HostAlloc _ _ _ _ => (UR_RESULT_SUCCESS, 4096 * (1 + Z.of_nat (length h) mod 2 ^ 20))
  | _ => test_driver refuse h c
  end.

Definition able : driver := buffer_driver (λ _, false).

Lemma able_memory zone : DeviceMemory able replay any_queue zone (2 ^ 16).
Proof. by apply replay_DeviceMemory. Qed.

Lemma able_never_null : never_null able.
Proof.
  intros h ctx dev props pool n p. cbn. intros [= <-].
  pose proof (Z.mod_pos_bound (Z.of_nat (length h)) (2 ^ 20) ltac:(lia)). lia.
Qed.

(** Calls in turn, whatever they return. *)
Definition play_usm (drv : driver) (c : op) (st : msan * list ddi_call) : msan * list ddi_call :=
  let r := run_op drv c st.1 st.2 in (r.1.2, r.2).
Definition play_buffer (drv : driver) (st : msan * list ddi_call) (c : buffer_op) : msan * list ddi_call :=
  let r := run_buffer drv c st.1 st.2 in (r.1.2, r.2).
Definition started (drv : driver) : msan * list ddi_call := play_usm drv (SetupContext 7 [3; 4]) (new_msan, []).
Definition plays (drv : driver) (cs : list buffer_op) : msan * list ddi_call :=
  foldl (play_buffer drv) (started drv) cs.

Lemma plays_reached drv cs : reaches_with_buffers drv (plays drv cs).1 (plays drv cs).2.
Proof.
  unfold plays. assert (reaches_with_buffers drv (started drv).1 (started drv).2) as H0
    by apply (rwb_op drv (SetupContext 7 [3; 4])), rwb_new.
  revert H0. generalize (started drv). induction cs as [|c cs IH]; intros st Hst; [done|].
  apply IH. by apply rwb_buffer.
Qed.

(** A buffer of 64 bytes with a part of it, used on device 3. *)
Definition parted_calls : list buffer_op := [MemBufferCreate 7 0 64 0; MemBufferPartition 1 16 32].
Definition parted : msan * list ddi_call := plays able parted_calls.
Definition part_used : msan * list ddi_call := plays able (parted_calls ++ [MemGetNativeHandle 2 3]).

Lemma buffers_stay_well_formed_witness :
  buffers_ok part_used.1 ∧
  ∀ b mb d h', buffers part_used.1 !! b = Some mb →
    getHandle able b d part_used.1 h' =
      match SubBuffer mb with
      | Some sub => (Handle ← getHandle able (Parent sub) d; mret (w64 (Handle + Origin sub))) part_used.1 h'
      | None => own_handle able b d part_used.1 h'
      end.
Proof. exact (buffers_stay_well_formed able part_used.1 part_used.2 (plays_reached able _)). Defined.

(** The handle of the part is in the memory of the buffer. *)
Definition part_handle : Z := match getHandle able 2 3 parted.1 parted.2 with (Go p, _, _) => p | _ => 0 end.
Definition part_state : msan := (getHandle able 2 3 parted.1 parted.2).1.2.

Lemma handle_stable_witness :
  part_handle ≠ 0 ∧ ∀ h2, getHandle able 2 3 part_state h2 = (Go part_handle, part_state, h2).
Proof.
  split; [vm_compute; discriminate|].
  apply (handle_stable able parted.1 parted.2 2 3 part_handle part_state (getHandle able 2 3 parted.1 parted.2).2);
    [exact (plays_reached able _)|discriminate|exact able_never_null|vm_compute; reflexivity].
Defined.

(** A buffer that was used on device 3; it is asked for on device 4, and then on 3
    again. *)
Definition used_calls : list buffer_op := [MemBufferCreate 7 0 64 0; MemGetNativeHandle 1 3].
Definition used : msan * list ddi_call := plays able used_calls.
Definition moved : msan * list ddi_call := plays able (used_calls ++ [MemGetNativeHandle 1 4]).
Definition on_3 : Z := 18374686479685255168.
Definition on_4 : Z := 18374686479694692352.
Definition used_buffer : MemBuffer := mkMB 7 64 0 {[3 := on_3]} ∅ (3, on_3) None 1.
Definition moved_buffer : MemBuffer :=
  mkMB 7 64 0 (<[0 := 131072]> (<[4 := on_4]> {[3 := on_3]})) ∅ (4, on_4) None 1.
Definition there := getHandle able 1 4 used.1 used.2.
Definition back := getHandle able 1 3 moved.1 moved.2.

Lemma there_runs : there = (Go on_4, there.1.2, there.2).
Proof. vm_compute. reflexivity. Qed.
Lemma back_runs : back = (Go on_3, back.1.2, back.2).
Proof. vm_compute. reflexivity. Qed.

Lemma used_has : buffers used.1 !! 1 = Some used_buffer.
Proof. vm_compute. reflexivity. Qed.
Lemma moved_has : buffers moved.1 !! 1 = Some moved_buffer.
Proof. vm_compute. reflexivity. Qed.

Lemma shadows_ready : shadow_ready GPU_PVC test_begin test_end 4 used.1 ∧ shadow_ready GPU_PVC test_begin test_end 3 moved.1.
Proof. repeat split; (eexists; split; [vm_compute; reflexivity|vm_compute; done]). Qed.

Lemma idle_before : busy able any_queue used.2 = Some ∅ ∧ busy able any_queue moved.2 = Some ∅.
Proof. split; vm_compute; reflexivity. Qed.

Lemma staging_low d p q :
  staging able (mkMB 7 64 0 d ∅ p None 1) q → (∀ x, d !! 0 = Some x → 0 < x <= 2 ^ 32) → 0 < q <= 2 ^ 32.
Proof.
  intros [[Hq _]|(_ & h & a & [= <-])] Hd; [by apply Hd|].
  pose proof (Z.mod_pos_bound (Z.of_nat (length h)) (2 ^ 20) ltac:(lia)). lia.
Qed.

Lemma apart_low mb p1 r :
  MB_Size mb = 64 → (∀ q, staging able mb q → 0 < q <= 2 ^ 32) →
  0xff00000000000000 <= p1 → 0xff00000000000000 <= r → p1 + 64 <= r ∨ r + 64 <= p1 →
  move_apart able (λ _, True) GPU_PVC test_begin test_end mb p1 r.
Proof.
  intros Hn Hq Hp1 Hr Hpr q Hst i. specialize (Hq q Hst). rewrite Hn. intros Hi.
  split_and!; [done..| |intros j Hj; lia]. cbn. unfold test_begin. lia.
Qed.

Lemma used_apart : move_apart able (λ _, True) GPU_PVC test_begin test_end used_buffer on_3 on_4.
Proof.
  apply apart_low; [done| |unfold on_3; lia|unfold on_4; lia|unfold on_3, on_4; lia].
  intros q Hq. apply (staging_low _ _ _ Hq). intros x. by rewrite lookup_singleton_ne.
Qed.
Lemma moved_apart : move_apart able (λ _, True) GPU_PVC test_begin test_end moved_buffer on_4 on_3.
Proof.
  apply apart_low; [done| |unfold on_4; lia|unfold on_3; lia|unfold on_3, on_4; lia].
  intros q Hq. apply (staging_low _ _ _ Hq). intros x. rewrite lookup_insert_eq. intros [= <-]. lia.
Qed.
Lemma on_3_placed : placed GPU_PVC (range test_begin test_end) on_3 64.
Proof. apply placed_low. unfold on_3. lia. Qed.
Lemma on_4_placed : placed GPU_PVC (range test_begin test_end) on_4 64.
Proof. apply placed_low. unfold on_4. lia. Qed.
Lemma able_finishes h q : (able h (Queue_Finish q)).1 = UR_RESULT_SUCCESS.
Proof. done. Qed.

(** The first move to a device and a later one. *)
Lemma migration_moves_contents_witness :
  (busy able any_queue there.2 = Some ∅ ∧
   moved_to able replay (λ _, True) GPU_PVC test_begin test_end used_buffer 4 on_3 on_4 used.2 there.2) ∧
  (busy able any_queue back.2 = Some ∅ ∧
   moved_to able replay (λ _, True) GPU_PVC test_begin test_end moved_buffer 3 on_4 on_3 moved.2 back.2).
Proof.
  split.
  - exact (migration_moves_contents able replay any_queue (λ _, True) GPU_PVC 16 test_begin test_end used.1 used.2 1
      used_buffer 4 3 on_3 on_4 there.1.2 there.2 ltac:(lia) test_layout (able_memory _) able_finishes
      (plays_reached able used_calls) (proj1 idle_before) (proj1 shadows_ready) used_has eq_refl eq_refl
      ltac:(discriminate) ltac:(discriminate) ltac:(discriminate) there_runs on_3_placed on_4_placed used_apart).
  - exact (migration_moves_contents able replay any_queue (λ _, True) GPU_PVC 16 test_begin test_end moved.1 moved.2 1
      moved_buffer 3 4 on_4 on_3 back.1.2 back.2 ltac:(lia) test_layout (able_memory _) able_finishes
      (plays_reached able (used_calls ++ [MemGetNativeHandle 1 4])) (proj2 idle_before) (proj2 shadows_ready)
      moved_has eq_refl eq_refl ltac:(discriminate) ltac:(discriminate) ltac:(discriminate) back_runs
      on_4_placed on_3_placed moved_apart).
Defined.

(** A resident buffer on the chunk of the run of [MsanTest]. *)
Definition resident_buffer : MemBuffer := mkMB 7 64 0 {[3 := chunk_a]} ∅ (3, chunk_a) None 1.
Definition resident_state : msan := set_MemBufferMap {[1]} (set_buffer 1 resident_buffer run3.1.1).

Lemma tracks_buffers view ty k SB SE s h t m b mb :
  tracks view ty k SB SE s h t → tracks view ty k SB SE (set_MemBufferMap m (set_buffer b mb s)) h t.
Proof. intros [H1 H2 H3 H4 H5 H6 H7]. by constructor. Qed.

Lemma run3_tracks : tracks replay GPU_PVC 16 test_begin test_end run3.1.1 run3.1.2 run3.2.
Proof.
  exact (reaches_tracks willing replay GPU_PVC 16 test_begin test_end ltac:(lia) test_layout
    (HD := replay_SerialMemory _ _ _ (test_answers _)) (HO := test_one_type _) run3.1.1 run3.1.2 run3.2
    (reached_reaches run3 run3_reached)).
Qed.

Lemma resident_tracks :
  tracks replay GPU_PVC 16 test_begin test_end resident_state run3.1.2 run3.2.
Proof. apply tracks_buffers, run3_tracks. Qed.

Lemma resident_handle : resident able resident_state 3 1 chunk_a.
Proof.
  split; [vm_compute; reflexivity|]. intros h. unfold getHandle. change (Z.to_nat 1) with 1%nat. cbn [getHandle_fuel].
  rewrite (bind_Go_eq _ _ _ _ resident_buffer) by done. apply settled_handle; [|done].
  by exists resident_buffer.
Qed.

(** A fill that waits for an event. *)
Definition resident_fill : buffer_op := MemBufferFill 3 1 [1; 2] 8 16 [99] true.

Lemma resident_commands_track_witness :
  ∃ r h', run_buffer able resident_fill resident_state run3.1.2 = (r, resident_state, h') ∧ run3.1.2 `prefix_of` h' ∧
    ((∃ ev, r = Go ev) ∨ ∃ e, r = Fail e ∧ e ≠ UR_RESULT_SUCCESS ∧ refused able run3.1.2 h') ∧
    (∃ p', busy able any_queue h' = Some p' ∧ p' ⊆ {[3]}) ∧
    ∀ ok, (ok = true → ¬ refused able run3.1.2 h') →
      tracks replay GPU_PVC 16 test_begin test_end resident_state h'
        (buffer_after (λ _, chunk_a) resident_fill ok run3.2).
Proof.
  apply (resident_commands_track able replay any_queue GPU_PVC 16 test_begin test_end (λ _, chunk_a) resident_fill
    resident_state run3.1.2 run3.2 3 ∅); try reflexivity.
  - lia.
  - apply test_layout.
  - apply able_memory.
  - apply empty_subseteq.
  - apply resident_tracks.
  - eexists. split; [vm_compute; reflexivity|reflexivity].
  - intros b ->%list_elem_of_singleton. apply resident_handle.
  - split.
    + intros a ->%list_elem_of_singleton. eexists. vm_compute. reflexivity.
    + cbn [resident_fill]. unfold stays. assert (chunk_of run3.2 (w64 (chunk_a + 8)) = Some (chunk_a, 64)) as -> by (vm_compute; reflexivity).
      intros o Ho%flat_in_spec. change (w64 (chunk_a + 8)) with (chunk_a + 8). lia.
Defined.
