(* ===== verification/MsanBufferLimits.v ===== *)
(** * MsanBufferLimits: where buffers of the memory sanitizer go wrong

    Runs of the definitions of [MsanBuffer] on the driver of [MsanBufferTest]. *)
From S2P Require Import Prelude SanCommon MsanState MsanShadow MsanLayout MsanMemory MsanPoison MsanInterceptor.
From S2P Require Import MsanTracking MsanCommands MsanOrder MsanRuns MsanTest MsanBuffer MsanBufferCalls.
From S2P Require Import MsanHandles MsanMigration MsanBufferTest.

Definition shadow_at (h : list ddi_call) (p : Z) : Z :=
  replay h (MemToShadow GPU_PVC (range test_begin test_end) p).

(** The copy of the host memory into a buffer fails once: the next use of the
    buffer succeeds, with memory that was never written. *)
Definition no_copies : driver :=
  buffer_driver (λ c, match c with Enqueue_Memcpy _ _ _ _ _ _ _ => true | _ => false end).
Definition host_buffer : msan * list ddi_call :=
  plays no_copies [MemBufferCreate 7 UR_MEM_FLAG_USE_HOST_POINTER 64 4096].

Lemma failed_host_copy_forgotten :
  let r1 := getHandle no_copies 1 3 host_buffer.1 host_buffer.2 in
  let r2 := getHandle no_copies 1 3 r1.1.2 r1.2 in
  r1.1.1 = Fail UR_RESULT_ERROR_OUT_OF_RESOURCES ∧
  r2.1.1 = Go 18374686479685255168 ∧ r2.2 = r1.2 ∧ shadow_at r2.2 18374686479685255168 = 255.
Proof. vm_compute. done. Qed.

(** A creation that fails in the copy of the host memory drops the buffer and
    keeps its device memory. *)
Definition is_free (c : ddi_call) : bool := match c with USM_Free _ _ => true | _ => false end.

Lemma failed_creation_leaks :
  let st := started no_copies in
  let r := urMemBufferCreate no_copies 7 UR_MEM_FLAG_ALLOC_COPY_HOST_POINTER 64 4096 st.1 st.2 in
  r.1.1 = Fail UR_RESULT_ERROR_OUT_OF_RESOURCES ∧ m_MemBufferMap r.1.2 = ∅ ∧
  map_to_list (m_AllocationMap r.1.2) = [(18374686479686303744, 2)] ∧
  existsb is_free (drop (length st.2) r.2) = false.
Proof. vm_compute. done. Qed.

(** Releasing a buffer frees its memory while a part of it is in use: using the
    part on another device copies from the freed memory. *)
Definition orphan_calls : list buffer_op := parted_calls ++ [MemGetNativeHandle 2 3; MemRelease 1].
Definition orphan : msan * list ddi_call := plays able orphan_calls.
Definition orphan_used : msan * list ddi_call := plays able (orphan_calls ++ [MemGetNativeHandle 2 4]).
Definition frees (p : Z) (c : ddi_call) : bool := bool_decide (c = USM_Free 7 p).
Definition reads (p : Z) (c : ddi_call) : bool :=
  match c with Enqueue_Memcpy _ _ _ src _ _ _ => src =? p | _ => false end.

Lemma part_reads_freed_memory :
  existsb (frees on_3) orphan.2 = true ∧
  existsb (reads on_3) (drop (length orphan.2) orphan_used.2) = true.
Proof. vm_compute. done. Qed.

(** The memory of a released buffer still counts as an allocation. *)
Lemma released_buffer_stays_allocated :
  let s := (plays able [MemBufferCreate 7 0 64 0; MemGetNativeHandle 1 3; MemRelease 1]) in
  m_MemBufferMap s.1 = ∅ ∧ existsb is_free s.2 = true ∧
  map_to_list (m_AllocationMap s.1) ≠ [].
Proof. vm_compute. split_and!; done. Qed.

(** What the host wrote through a mapping stays uninitialised. *)
Definition mapped_calls : list buffer_op :=
  [MemBufferCreate 7 0 64 0; MemGetNativeHandle 1 3; MemBufferMap 3 1 true UR_MAP_FLAG_WRITE 0 64 [] false].
Definition mapping : Z :=
  match buffers (plays able mapped_calls).1 !! 1 with
  | Some mb => from_option fst 0 (head (map_to_list (Mappings mb)))
  | None => 0
  end.
Definition unmapped : msan * list ddi_call := plays able (mapped_calls ++ [MemUnmap 3 1 mapping [] false]).

Definition writes (p src : Z) (c : ddi_call) : bool :=
  match c with Enqueue_Memcpy _ _ d s n _ _ => (d =? p) && (s =? src) && (n =? 64) | _ => false end.

Lemma unmap_keeps_shadow :
  mapping ≠ 0 ∧ existsb (writes on_3 mapping) unmapped.2 = true ∧ shadow_at unmapped.2 on_3 = 255.
Proof. vm_compute. split_and!; done. Qed.

(** A buffer written on one device is uninitialised after it moved to another. *)
Definition written_on_3 : msan * list ddi_call :=
  plays able [MemBufferCreate 7 0 64 0; MemBufferWrite 3 1 true 0 64 4096 [] false].
Definition then_on_4 := getHandle able 1 4 written_on_3.1 written_on_3.2.
Definition copies_to (p : Z) (c : ddi_call) : bool :=
  match c with Enqueue_Memcpy _ _ d _ n _ _ => (d =? p) && (n =? 64) | _ => false end.

Lemma migration_loses_shadow :
  (getHandle able 1 3 written_on_3.1 written_on_3.2).1.1 = Go 18374686479686303744 ∧
  shadow_at written_on_3.2 18374686479686303744 = 0 ∧
  then_on_4.1.1 = Go 18374686479697838080 ∧ existsb (copies_to 18374686479697838080) then_on_4.2 = true ∧
  shadow_at then_on_4.2 18374686479697838080 = 255.
Proof. vm_compute. split_and!; done. Qed.

(** The sum of the offset and the size of a part is taken modulo [2^64]. *)
Lemma partition_wraps : (urMemBufferPartition able 1 (2 ^ 64 - 16) 32 written_on_3.1 written_on_3.2).1.1 = Go 3.
Proof. vm_compute. reflexivity. Qed.

(** A size of 0 has no most significant bit. *)
Lemma empty_buffer_undefined :
  let s := plays able [MemBufferCreate 7 0 0 0] in (getHandle able 1 3 s.1 s.2).1.1 = Halt Undefined.
Proof. vm_compute. reflexivity. Qed.
