(* ===== verification/Validation.v ===== *)
(** * Validation: source/loader/layers/validation

    The hand-written part of the validation layer: the reference counts behind
    leak and lifetime checking (ur_leak_check.hpp, struct [RefCountContext])
    and the bounds checks (ur_validation_layer.cpp).  The mutex, the backtraces
    and the [logger.debug] lines are left out; the [int64_t] counts do not
    overflow in any feasible run and are [Z]. *)
From S2P Require Import Prelude.

(** ** Reference counts *)

Record RefRuntimeInfo := mkRef { refCount : Z; type : Z }.

Inductive RefCountUpdateType :=
| REFCOUNT_CREATE_OR_INCREASE
| REFCOUNT_CREATE
| REFCOUNT_INCREASE
| REFCOUNT_DECREASE.

(** The messages of [logger.error]. *)
Inductive message :=
| AlreadyExists (ptr : Z)
| RetainNonexistent (ptr : Z)
| ReleaseNonexistent (ptr : Z)
| Retained (references : Z) (ptr : Z).

Record RefCountContext := mkRC {
  counts : gmap Z RefRuntimeInfo;
  adapterCount : Z;
  errors : list message
}.

Definition initial : RefCountContext := mkRC ∅ 0 [].

Definition add_ref (n : Z) (i : RefRuntimeInfo) : RefRuntimeInfo :=
  mkRef (refCount i + n) (type i).

Definition logInvalidReferences (c : RefCountContext) : list message :=
  (λ '(ptr, i), Retained (refCount i) ptr) <$> map_to_list (counts c).

(** The [switch] of [updateRefCount]; [false] is an early return. *)
Definition update_switch (ptr tid : Z) (t : RefCountUpdateType) (isAdapterHandle : bool)
    (c : RefCountContext) : bool * RefCountContext :=
  match t, counts c !! ptr with
  | REFCOUNT_CREATE_OR_INCREASE, None =>
      (true, mkRC (<[ptr := mkRef 1 tid]> (counts c))
               (if isAdapterHandle then adapterCount c + 1 else adapterCount c) (errors c))
  | REFCOUNT_CREATE, None =>
      (true, mkRC (<[ptr := mkRef 1 tid]> (counts c)) (adapterCount c) (errors c))
  | REFCOUNT_CREATE, Some _ =>
      (false, mkRC (counts c) (adapterCount c) (errors c ++ [AlreadyExists ptr]))
  | REFCOUNT_INCREASE, None =>
      (false, mkRC (counts c) (adapterCount c) (errors c ++ [RetainNonexistent ptr]))
  | (REFCOUNT_CREATE_OR_INCREASE | REFCOUNT_INCREASE), Some i =>
      (true, mkRC (<[ptr := add_ref 1 i]> (counts c)) (adapterCount c) (errors c))
  | REFCOUNT_DECREASE, o =>
      let i := match o with None => mkRef (-1) tid | Some i => add_ref (-1) i end in
      let m := <[ptr := i]> (counts c) in
      (true,
       if refCount i <? 0 then mkRC m (adapterCount c) (errors c ++ [ReleaseNonexistent ptr])
       else if (refCount i =? 0) && isAdapterHandle then mkRC m (adapterCount c - 1) (errors c)
       else mkRC m (adapterCount c) (errors c))
  end.

(** [if (it->second.refCount == 0) counts.erase(ptr);] *)
Definition erase_zero (ptr : Z) (m : gmap Z RefRuntimeInfo) : gmap Z RefRuntimeInfo :=
  match m !! ptr with
  | Some i => if refCount i =? 0 then delete ptr m else m
  | None => m
  end.

Definition updateRefCount (ptr tid : Z) (t : RefCountUpdateType) (isAdapterHandle : bool)
    (c : RefCountContext) : RefCountContext :=
  let '(go_on, c) := update_switch ptr tid t isAdapterHandle c in
  if go_on : bool then
    let c := mkRC (erase_zero ptr (counts c)) (adapterCount c) (errors c) in
    if adapterCount c =? 0
    then mkRC ∅ (adapterCount c) (errors c ++ logInvalidReferences c)
    else c
  else c.

Definition createRefCount (ptr tid : Z) : RefCountContext → RefCountContext :=
  updateRefCount ptr tid REFCOUNT_CREATE false.
Definition incrementRefCount (ptr tid : Z) (isAdapterHandle : bool) :=
  updateRefCount ptr tid REFCOUNT_INCREASE isAdapterHandle.
Definition decrementRefCount (ptr tid : Z) (isAdapterHandle : bool) :=
  updateRefCount ptr tid REFCOUNT_DECREASE isAdapterHandle.
Definition createOrIncrementRefCount (ptr tid : Z) (isAdapterHandle : bool) :=
  updateRefCount ptr tid REFCOUNT_CREATE_OR_INCREASE isAdapterHandle.

Definition isReferenceValid (ptr tid : Z) (c : RefCountContext) : bool :=
  match counts c !! ptr with
  | None => false
  | Some i => if refCount i <? 1 then false else type i =? tid
  end.

(** ** Bounds checks

    [RETURN_ON_FAILURE] is a macro whose argument, a query, is evaluated up to
    four times: [q k] is the answer to the [k]-th evaluation, the result and the
    value written.  A well-behaved query is constant. *)

Definition query := nat → ur_result_t * Z.

(** [inl r]: return [r]; [inr v]: go on with the value [v]. *)
Definition RETURN_ON_FAILURE (q : query) : ur_result_t + Z :=
  if decide ((q 0%nat).1 = UR_RESULT_ERROR_UNSUPPORTED_ENUMERATION) then inl UR_RESULT_SUCCESS
  else if decide ((q 1%nat).1 = UR_RESULT_ERROR_UNSUPPORTED_FEATURE) then inl UR_RESULT_SUCCESS
  else if decide ((q 2%nat).1 = UR_RESULT_SUCCESS) then inr (q 2%nat).2
  else inl (q 3%nat).1.

Notation "'CHECK' v ← q ; e" :=
  (match RETURN_ON_FAILURE q with inl r => r | inr v => e end)
  (at level 10, v name, q at level 100, e at level 200).

Definition bounds_buffer (size_q : query) (offset size : Z) : ur_result_t :=
  CHECK bufferSize ← size_q;
  if bufferSize <? w64 (size + offset) then UR_RESULT_ERROR_INVALID_SIZE else UR_RESULT_SUCCESS.

Record vec3 := mkVec3 { x : Z; y : Z; z : Z }.

(** [width], [height] and [depth] of the region are its [x], [y] and [z]. *)
Definition bounds_rect (size_q : query) (offset region : vec3) : ur_result_t :=
  CHECK bufferSize ← size_q;
  if (bufferSize <=? x offset) || (bufferSize <=? y offset) || (bufferSize <=? z offset)
  then UR_RESULT_ERROR_INVALID_SIZE
  else if bufferSize <? w64 (w64 (w64 (x region + x offset) * w64 (y region + y offset)) *
                             w64 (z region + z offset))
  then UR_RESULT_ERROR_INVALID_SIZE
  else UR_RESULT_SUCCESS.

(** [UR_USM_TYPE_UNKNOWN] is 0. *)
Definition bounds_usm (context_q type_q size_q : query) (offset size : Z) : ur_result_t :=
  CHECK urContext ← context_q;
  CHECK usmType ← type_q;
  if usmType =? 0 then UR_RESULT_SUCCESS
  else
    CHECK allocSize ← size_q;
    if allocSize <? w64 (size + offset) then UR_RESULT_ERROR_INVALID_SIZE
    else UR_RESULT_SUCCESS.

Definition boundsImage (width_q height_q depth_q : query) (origin region : vec3) : ur_result_t :=
  CHECK width ← width_q;
  if width <? w64 (x region + x origin) then UR_RESULT_ERROR_INVALID_SIZE
  else
    CHECK height0 ← height_q;
    let height := if height0 =? 0 then 1 else height0 in
    if height <? w64 (y region + y origin) then UR_RESULT_ERROR_INVALID_SIZE
    else
      CHECK depth0 ← depth_q;
      let depth := if depth0 =? 0 then 1 else depth0 in
      if depth <? w64 (z region + z origin) then UR_RESULT_ERROR_INVALID_SIZE
      else UR_RESULT_SUCCESS.

(** ** The specification of the counts

    A total count per handle, zero for a handle that is not recorded. *)

Definition spec_update (t : RefCountUpdateType) (n : Z) : Z :=
  match t with
  | REFCOUNT_CREATE_OR_INCREASE => n + 1
  | REFCOUNT_CREATE => if n =? 0 then 1 else n
  | REFCOUNT_INCREASE => if n =? 0 then 0 else n + 1
  | REFCOUNT_DECREASE => n - 1
  end.

Definition count (c : RefCountContext) (ptr : Z) : Z :=
  match counts c !! ptr with Some i => refCount i | None => 0 end.

(** No recorded count is zero, and nothing is recorded without an adapter. *)
Definition rc_wf (c : RefCountContext) : Prop :=
  (∀ p i, counts c !! p = Some i → refCount i ≠ 0) ∧
  (adapterCount c = 0 → counts c = ∅).

(** One call, and a run of calls. *)
Record rc_op := mkOp { op_ptr : Z; op_type : Z; op_kind : RefCountUpdateType; op_adapter : bool }.

Definition rc_step (c : RefCountContext) (o : rc_op) : RefCountContext :=
  updateRefCount (op_ptr o) (op_type o) (op_kind o) (op_adapter o) c.

Definition spec_step (f : Z → Z) (o : rc_op) : Z → Z := λ q,
  if decide (q = op_ptr o) then spec_update (op_kind o) (f q) else f q.

(** Some adapter is held after every call. *)
Fixpoint held (ops : list rc_op) (c : RefCountContext) : Prop :=
  match ops with
  | [] => True
  | o :: ops' => adapterCount (rc_step c o) ≠ 0 ∧ held ops' (rc_step c o)
  end.

(** ** Lemmas *)

Lemma update_switch_count p tid t a c :
  (∀ q i, counts c !! q = Some i → refCount i ≠ 0) →
  (∀ q, count (update_switch p tid t a c).2 q =
        if decide (q = p) then spec_update t (count c p) else count c q) ∧
  (∀ q i, q ≠ p → counts (update_switch p tid t a c).2 !! q = Some i → refCount i ≠ 0) ∧
  ((update_switch p tid t a c).1 = false →
     counts (update_switch p tid t a c).2 = counts c ∧
     adapterCount (update_switch p tid t a c).2 = adapterCount c).
Proof.
  intros Hz. unfold update_switch, count, spec_update.
  destruct (counts c !! p) as [i|] eqn:Hp; destruct t; cbn;
    try pose proof (Hz _ _ Hp);
    repeat match goal with |- context [if ?b then mkRC _ _ _ else _] => destruct b end;
    cbn; (split; [intros q|split; [intros q j Hq|done]]);
    try (rewrite lookup_insert_ne by done; apply Hz); try apply Hz.
  all: destruct (decide (q = p)) as [->|Hne];
    rewrite ?lookup_insert_eq, ?lookup_insert_ne, ?Hp by done; cbn; try done.
  all: destruct (Z.eqb_spec (refCount i) 0); done.
Qed.

Lemma decide_if_count c p q (g : Z → Z) :
  (if decide (q = p) then g (count c p) else count c q) =
  (if decide (q = p) then g (count c q) else count c q).
Proof. case_decide; [by subst|done]. Qed.

Lemma erase_zero_lookup p m q :
  match erase_zero p m !! q with Some i => refCount i | None => 0 end =
  match m !! q with Some i => refCount i | None => 0 end.
Proof.
  unfold erase_zero. destruct (m !! p) as [i|] eqn:Hp; [|done].
  destruct (Z.eqb_spec (refCount i) 0) as [H0|]; [|done].
  destruct (decide (q = p)) as [->|]; [by rewrite lookup_delete_eq, Hp|by rewrite lookup_delete_ne].
Qed.

Lemma erase_zero_nonzero p m :
  (∀ q i, q ≠ p → m !! q = Some i → refCount i ≠ 0) →
  ∀ q i, erase_zero p m !! q = Some i → refCount i ≠ 0.
Proof.
  intros Hm q i. unfold erase_zero. destruct (decide (q = p)) as [->|Hne].
  - destruct (m !! p) as [j|] eqn:Hp; [|congruence].
    destruct (Z.eqb_spec (refCount j) 0); [by rewrite lookup_delete_eq|congruence].
  - destruct (m !! p) as [j|]; [|by apply Hm].
    destruct (refCount j =? 0); [rewrite lookup_delete_ne by done|]; by apply Hm.
Qed.

(** One call follows the specification while an adapter is held; when the last
    adapter goes, everything still recorded is reported and forgotten. *)
Lemma rc_step_spec c o :
  rc_wf c →
  rc_wf (rc_step c o) ∧
  (adapterCount (rc_step c o) ≠ 0 →
     ∀ q, count (rc_step c o) q = spec_step (count c) o q) ∧
  (adapterCount (rc_step c o) = 0 → adapterCount c ≠ 0 →
     counts (rc_step c o) = ∅ ∧
     ∀ q n, Retained n q ∈ drop (length (errors c)) (errors (rc_step c o)) ↔
            n = spec_step (count c) o q ∧ n ≠ 0).
Proof.
  intros [Hz Ha]. unfold rc_step, updateRefCount.
  destruct (update_switch_count (op_ptr o) (op_type o) (op_kind o) (op_adapter o) c Hz)
    as (Hc & Hnz & Hsame).
  assert (∃ l, errors (update_switch (op_ptr o) (op_type o) (op_kind o) (op_adapter o) c).2 =
               errors c ++ l ∧ ∀ n q, Retained n q ∉ l) as (l & Hl & Hnr).
  { unfold update_switch.
    destruct (op_kind o), (counts c !! op_ptr o); cbn;
      repeat match goal with |- context [if ?b then mkRC _ _ _ else _] => destruct b end; cbn;
      first [exists []; rewrite app_nil_r; split; [done|]; by intros ?? ?%elem_of_nil
            | eexists; split; [done|]; intros ?? ?%list_elem_of_singleton; done]. }
  destruct (update_switch _ _ _ _ c) as [b c1]. cbn in *. unfold spec_step.
  destruct b; cbn.
  - destruct (Z.eqb_spec (adapterCount c1) 0) as [H0|H0]; cbn.
    + split; [split; [intros ?? ?; simplify_map_eq|done]|]. split; [done|].
      intros _ _. split; [done|]. intros q n. rewrite Hl, <- app_assoc, drop_app_length.
      rewrite elem_of_app. pose proof (Hc q) as Hcq. rewrite decide_if_count in Hcq.
      rewrite <- Hcq. unfold count. rewrite <- (erase_zero_lookup (op_ptr o) (counts c1) q).
      unfold logInvalidReferences. rewrite list_elem_of_fmap. cbn. split.
      * intros [?|([q' i] & [= -> ->] & Hin%elem_of_map_to_list)]; [by destruct (Hnr n q)|].
        rewrite Hin. split; [done|]. by eapply erase_zero_nonzero.
      * intros [-> Hn0]. right. destruct (erase_zero _ _ !! q) as [i|] eqn:E; [|done].
        exists (q, i). split; [done|]. by apply elem_of_map_to_list.
    + split; [split; [|done]|].
      * by apply erase_zero_nonzero.
      * split; [|done]. intros _ q. unfold count at 1. cbn. rewrite erase_zero_lookup.
        rewrite <- decide_if_count. apply Hc.
  - destruct (Hsame eq_refl) as [E1 E2]. split; [|split; [|by rewrite E2]].
    + split; [rewrite E1; exact Hz|by rewrite E1, E2].
    + intros _ q. rewrite Hc. apply decide_if_count.
Qed.

Lemma isReferenceValid_count c p tid :
  isReferenceValid p tid c = true →  1 <= count c p.
Proof.
  unfold isReferenceValid, count. destruct (counts c !! p) as [i|]; [|done].
  destruct (Z.ltb_spec (refCount i) 1); [done|]. intros _. lia.
Qed.

Lemma count_isReferenceValid c p :
  1 <= count c p → ∃ tid, isReferenceValid p tid c = true.
Proof.
  unfold isReferenceValid, count. destruct (counts c !! p) as [i|]; [|lia].
  intros H. exists (type i). rewrite (proj2 (Z.ltb_ge _ _)) by lia. by apply Z.eqb_eq.
Qed.

Lemma rc_run ops c :
  rc_wf c → held ops c →
  rc_wf (foldl rc_step c ops) ∧
  ∀ q, count (foldl rc_step c ops) q = foldl spec_step (count c) ops q.
Proof.
  revert c. induction ops as [|o ops IH]; intros c Hwf; cbn; [done|]. intros [Ha Hh].
  destruct (rc_step_spec c o Hwf) as (Hwf' & Hs & _). specialize (Hs Ha).
  destruct (IH _ Hwf' Hh) as [Hw Hc]. split; [done|]. intros q. rewrite Hc.
  assert (∀ f g : Z → Z, (∀ q, f q = g q) → ∀ q, foldl spec_step f ops q = foldl spec_step g ops q)
    as Hext; [|by apply Hext].
  clear. induction ops as [|o ops IH]; intros f g H q; cbn; [done|]. apply IH.
  intros q'. unfold spec_step. by rewrite H.
Qed.

Lemma const_query_return (r : ur_result_t) v :
  RETURN_ON_FAILURE (λ _, (r, v)) =
  if decide (r = UR_RESULT_SUCCESS) then inr v
  else if decide (r = UR_RESULT_ERROR_UNSUPPORTED_ENUMERATION ∨
                  r = UR_RESULT_ERROR_UNSUPPORTED_FEATURE) then inl UR_RESULT_SUCCESS
  else inl r.
Proof. by destruct r. Qed.

(** * Properties *)

(** C30: starting without records, over any run of creates, retains and releases
    during which an adapter stays held, the recorded count of every handle is
    its balance (creating an existing handle and retaining an unknown one
    change nothing, releasing an unknown one goes below zero), and a handle is
    accepted as valid, with some type, exactly when its balance is positive. *)
Theorem refcounts_are_balances o ops q :
  op_kind o = REFCOUNT_CREATE_OR_INCREASE → op_adapter o = true →
  held ops (rc_step initial o) →
  let c := foldl rc_step initial (o :: ops) in
  let balance := foldl spec_step (λ _, 0) (o :: ops) q in
  count c q = balance ∧ (1 <= balance ↔ ∃ tid, isReferenceValid q tid c = true).
Proof.
  intros Hk Ha Hh c balance.
  assert (rc_wf initial) as Hwf by (split; done).
  assert (held (o :: ops) initial) as Hh'.
  { split; [|done]. destruct o as [p t k a]. cbn in *. by subst. }
  destruct (rc_run _ _ Hwf Hh') as [_ Hc]. split; [apply Hc|].
  change balance with (foldl spec_step (count initial) (o :: ops) q). rewrite <- (Hc q).
  fold c. split; [apply count_isReferenceValid|].
  intros [tid H]. by eapply isReferenceValid_count.
Qed.

Lemma refcounts_are_balances_witness :
  count (foldl rc_step initial
           [mkOp 1 0 REFCOUNT_CREATE_OR_INCREASE true; mkOp 2 3 REFCOUNT_CREATE false;
            mkOp 2 3 REFCOUNT_INCREASE false; mkOp 2 3 REFCOUNT_DECREASE false]) 2 = 1.
Proof.
  apply (refcounts_are_balances (mkOp 1 0 REFCOUNT_CREATE_OR_INCREASE true)
           [mkOp 2 3 REFCOUNT_CREATE false; mkOp 2 3 REFCOUNT_INCREASE false;
            mkOp 2 3 REFCOUNT_DECREASE false] 2); [reflexivity|reflexivity|].
  cbn. split_and!; done.
Defined.

(** when a call drops the last adapter, exactly the handles whose balance is
    not zero are reported, with that balance, and all records are cleared. *)
Theorem last_adapter_reports_leaks c o :
  rc_wf c → adapterCount c ≠ 0 → adapterCount (rc_step c o) = 0 →
  counts (rc_step c o) = ∅ ∧
  ∀ q n, Retained n q ∈ drop (length (errors c)) (errors (rc_step c o)) ↔
         n = spec_step (count c) o q ∧ n ≠ 0.
Proof. intros Hwf Hc H0. by apply (rc_step_spec c o). Qed.

Definition sample_rc : RefCountContext := mkRC {[1 := mkRef 1 0; 2 := mkRef 3 5]} 1 [].

Lemma last_adapter_reports_leaks_witness :
  Retained 3 2 ∈ errors (rc_step sample_rc (mkOp 1 0 REFCOUNT_DECREASE true)).
Proof.
  destruct (last_adapter_reports_leaks sample_rc (mkOp 1 0 REFCOUNT_DECREASE true)) as [_ H].
  - split; [|done]. intros p i H.
    change (({[1 := mkRef 1 0; 2 := mkRef 3 5]} : gmap Z RefRuntimeInfo) !! p = Some i) in H.
    apply lookup_insert_Some in H as [[_ <-]|[_ H]]; [done|].
    by apply lookup_singleton_Some in H as [_ <-].
  - done.
  - done.
  - apply (H 2 3). split; [reflexivity|done].
Defined.

(** for a buffer of a known size the check accepts a transfer exactly when
    it fits, or when [size + offset] wraps around [2^64] to a value that fits:
    requests far outside the buffer are then accepted.  When the adapter does
    not support the query, everything is accepted. *)
Theorem buffer_bounds_wrap r B offset size :
  0 <= offset < 2 ^ 64 → 0 <= size < 2 ^ 64 →
  bounds_buffer (λ _, (r, B)) offset size = UR_RESULT_SUCCESS ↔
  (r = UR_RESULT_SUCCESS ∧
     (size + offset < 2 ^ 64 ∧ size + offset <= B ∨
      2 ^ 64 <= size + offset ∧ size + offset - 2 ^ 64 <= B)) ∨
  r = UR_RESULT_ERROR_UNSUPPORTED_ENUMERATION ∨ r = UR_RESULT_ERROR_UNSUPPORTED_FEATURE.
Proof.
  intros Ho Hs. unfold bounds_buffer. rewrite const_query_return.
  case_decide as Hr.
  - subst r. assert (w64 (size + offset) =
      if size + offset <? 2 ^ 64 then size + offset else size + offset - 2 ^ 64) as ->.
    { unfold w64. destruct (Z.ltb_spec (size + offset) (2 ^ 64)); lia_div. }
    destruct (Z.ltb_spec (size + offset) (2 ^ 64)) as [Hw|Hw];
      match goal with |- context [B <? ?w] => destruct (Z.ltb_spec B w) as [Hb|Hb] end; split; intros H;
      try done; try (left; split; [done|lia]);
      destruct H as [[_ H]|[H|H]]; (done || lia).
  - case_decide as Hu; [by split; [right|]|]. split; [done|]. intros [[? _]|?]; done.
Qed.

Lemma buffer_bounds_wrap_witness :
  bounds_buffer (λ _, (UR_RESULT_SUCCESS, 64)) (2 ^ 64 - 8) 16 = UR_RESULT_SUCCESS.
Proof. apply buffer_bounds_wrap; [lia|lia|]. left. split; [done|]. right. lia. Defined.
