(* ===== verification/PoolManager.v ===== *)
(** * PoolManager: source/common/ur_pool_manager.hpp

    USM pool descriptors, their equality and hash, the enumeration of devices
    and sub-devices from which they are made, and the table from descriptors to
    pools.  The adapter's queries ([urDeviceGetInfo], [urDevicePartition],
    [urContextGetInfo], [urDeviceGetNativeHandle]) and [std::hash] are
    parameters. *)
From S2P Require Import Prelude.

Inductive ur_usm_type_t :=
| UR_USM_TYPE_UNKNOWN | UR_USM_TYPE_HOST | UR_USM_TYPE_DEVICE | UR_USM_TYPE_SHARED.

#[export] Instance ur_usm_type_t_eq_dec : EqDecision ur_usm_type_t.
Proof. solve_decision. Defined.

(** Handles are [Z], 0 is null; [emplace_back()] zero-initialises. *)
Record pool_descriptor := mkDesc {
  poolHandle : Z;
  hContext : Z;
  hDevice : Z;
  type : ur_usm_type_t;
  deviceReadOnly : bool
}.

Definition isSharedAllocationReadOnlyOnDevice (d : pool_descriptor) : bool :=
  bool_decide (type d = UR_USM_TYPE_SHARED) && deviceReadOnly d.

Section queries.
(** [pfnGetNativeHandle]; [None]-like failures are result codes. *)
Variable native : Z → ur_result_t * Z.
(** [std::hash] of the four members that are hashed. *)
Variable hash_type : ur_usm_type_t → Z.
Variable hash_native : Z → Z.
Variable hash_bool : bool → Z.
Variable hash_pool : Z → Z.

(** The native handle of a descriptor's device; a failure is thrown. *)
Definition native_of (dev : Z) : outcome Z :=
  if dev =? 0 then Ret 0
  else if decide ((native dev).1 = UR_RESULT_SUCCESS) then Ret (native dev).2
  else Throw (Exn_ur (native dev).1).

(** [operator==] *)
Definition desc_eq (lhs rhs : pool_descriptor) : outcome bool :=
  lhsNative ← native_of (hDevice lhs);
  rhsNative ← native_of (hDevice rhs);
  Ret ((lhsNative =? rhsNative) && bool_decide (type lhs = type rhs) &&
       Bool.eqb (isSharedAllocationReadOnlyOnDevice lhs)
         (isSharedAllocationReadOnlyOnDevice rhs) &&
       (poolHandle lhs =? poolHandle rhs)).

(** [hash<pool_descriptor>]: [combine_hashes] xors the members' hashes. *)
Definition desc_hash (d : pool_descriptor) : outcome Z :=
  n ← native_of (hDevice d);
  Ret (Z.lxor (Z.lxor (Z.lxor (Z.lxor 0 (hash_type (type d))) (hash_native n))
                 (hash_bool (isSharedAllocationReadOnlyOnDevice d))) (hash_pool (poolHandle d))).

(** ** Devices *)

(** The compute-unit query (only its result matters), the two partition calls:
    the number of sub-devices, and the handles written into an array of the
    given length. *)
Variable compute_units : Z → ur_result_t.
Variable partition_count : Z → ur_result_t * Z.
Variable partition : Z → nat → ur_result_t * list Z.

(** What a fill of an array of [n] null handles leaves in it. *)
Definition filled (n : nat) (l : list Z) : list Z := resize n 0 l.

Definition urGetSubDevices (hDevice : Z) : ur_result_t * list Z :=
  let ret := compute_units hDevice in
  if decide (ret ≠ UR_RESULT_SUCCESS) then (ret, [])
  else
    let '(ret, deviceCount) := partition_count hDevice in
    if decide (ret ≠ UR_RESULT_SUCCESS) then (ret, [])
    else
      let n := Z.to_nat deviceCount in
      let '(ret, sub_devices) := partition hDevice n in
      if decide (ret ≠ UR_RESULT_SUCCESS) then (ret, [])
      else (UR_RESULT_SUCCESS, filled n sub_devices).

(** [addPoolsForDevicesRec] with the vector it appends to; [None]: the
    recursion is deeper than [fuel]. *)
Fixpoint addPoolsForDevicesRec (fuel : nat) (hDevice : Z) (acc : list Z)
  : option (ur_result_t * list Z) :=
  match fuel with
  | O => None
  | S fuel' =>
      let acc := acc ++ [hDevice] in
      let '(ret, subDevices) := urGetSubDevices hDevice in
      if decide (ret ≠ UR_RESULT_SUCCESS) then Some (ret, acc)
      else
        (fix go (subs : list Z) (acc : list Z) : option (ur_result_t * list Z) :=
           match subs with
           | [] => Some (UR_RESULT_SUCCESS, acc)
           | subDevice :: subs' =>
               match addPoolsForDevicesRec fuel' subDevice acc with
               | Some (ret, acc) =>
                   if decide (ret ≠ UR_RESULT_SUCCESS) then Some (ret, acc) else go subs' acc
               | None => None
               end
           end) subDevices acc
  end.

(** The loop over the context's devices; all devices are returned with the
    result when sub-devices are unsupported. *)
Fixpoint add_devices (fuel : nat) (devices todo : list Z) (acc : list Z)
  : option (ur_result_t * list Z) :=
  match todo with
  | [] => Some (UR_RESULT_SUCCESS, acc)
  | d :: todo' =>
      match addPoolsForDevicesRec fuel d acc with
      | Some (ret, acc) =>
          if decide (ret ≠ UR_RESULT_SUCCESS) then
            if decide (ret = UR_RESULT_ERROR_UNSUPPORTED_FEATURE) then Some (ret, devices)
            else Some (ret, [])
          else add_devices fuel devices todo' acc
      | None => None
      end
  end.

(** [context_count] and [context_devices] are the two context queries. *)
Definition urGetAllDevicesAndSubDevices (fuel : nat) (context_count : ur_result_t * Z)
    (context_devices : nat → ur_result_t * list Z) : option (ur_result_t * list Z) :=
  let '(ret, deviceCount) := context_count in
  if decide (ret ≠ UR_RESULT_SUCCESS ∨ deviceCount = 0) then Some (ret, [])
  else
    let n := Z.to_nat deviceCount in
    let '(ret, devices) := context_devices n in
    if decide (ret ≠ UR_RESULT_SUCCESS) then Some (ret, [])
    else add_devices fuel (filled n devices) (filled n devices) [].

(** The three descriptors of a device. *)
Definition device_descriptors (poolHandle hContext device : Z) : list pool_descriptor :=
  [mkDesc poolHandle hContext device UR_USM_TYPE_DEVICE false;
   mkDesc poolHandle hContext device UR_USM_TYPE_SHARED false;
   mkDesc poolHandle hContext device UR_USM_TYPE_SHARED true].

(** [pool_descriptor::create] *)
Definition create (fuel : nat) (context_count : ur_result_t * Z)
    (context_devices : nat → ur_result_t * list Z) (poolHandle hContext : Z)
  : option (ur_result_t * list pool_descriptor) :=
  '(ret, devices) ← urGetAllDevicesAndSubDevices fuel context_count context_devices;
  if decide (ret ≠ UR_RESULT_SUCCESS) then Some (ret, [])
  else
    Some (ret, mkDesc poolHandle hContext 0 UR_USM_TYPE_HOST false ::
               (devices ≫= device_descriptors poolHandle hContext)).

(** ** The manager

    The [std::unordered_map] keeps the hash of each key; a search looks only
    at the entries with the key's hash and compares those with [operator==]. *)

Record pool_entry := mkEntry { entry_hash : Z; entry_desc : pool_descriptor; entry_pool : Z }.

Definition pool_manager := list pool_entry.

Fixpoint find_hashed (h : Z) (desc : pool_descriptor) (m : pool_manager) : outcome (option Z) :=
  match m with
  | [] => Ret None
  | e :: m' =>
      if entry_hash e =? h then
        b ← desc_eq (entry_desc e) desc;
        if b : bool then Ret (Some (entry_pool e)) else find_hashed h desc m'
      else find_hashed h desc m'
  end.

(** An exception that leaves a [noexcept] function ends the process: [None]. *)
Definition noexcept {A} (o : outcome A) : option A :=
  match o with Ret a => Some a | _ => None end.

(** [try_emplace]: an equal descriptor keeps its pool. *)
Definition addPool (desc : pool_descriptor) (hPool : Z) (m : pool_manager)
  : option (ur_result_t * pool_manager) :=
  noexcept (
    h ← desc_hash desc;
    o ← find_hashed h desc m;
    match o with
    | Some _ => Ret (UR_RESULT_ERROR_INVALID_ARGUMENT, m)
    | None => Ret (UR_RESULT_SUCCESS, m ++ [mkEntry h desc hPool])
    end).

Definition getPool (desc : pool_descriptor) (m : pool_manager) : option (option Z) :=
  noexcept (h ← desc_hash desc; find_hashed h desc m).

(** [pool_manager::create]: every entry of the given map must be accepted. *)
Fixpoint create_manager (entries : list (pool_descriptor * Z)) (m : pool_manager)
  : option (ur_result_t * pool_manager) :=
  match entries with
  | [] => Some (UR_RESULT_SUCCESS, m)
  | (d, p) :: entries' =>
      '(ret, m') ← addPool d p m;
      if decide (ret ≠ UR_RESULT_SUCCESS) then Some (ret, []) else create_manager entries' m'
  end.

(** The loop of the v2 USM pool: the result of [addPool] is not looked at. *)
Fixpoint add_all (entries : list (pool_descriptor * Z)) (m : pool_manager)
  : option pool_manager :=
  match entries with
  | [] => Some m
  | (d, p) :: entries' => '(_, m') ← addPool d p m; add_all entries' m'
  end.

(** ** Specification *)

(** The pre-order of the device tree; [sub] are the sub-devices. *)
Fixpoint preorder (fuel : nat) (sub : Z → list Z) (d : Z) : list Z :=
  match fuel with
  | O => []
  | S fuel' => d :: (sub d ≫= preorder fuel' sub)
  end.

(** What a descriptor is compared by. *)
Definition desc_key (d : pool_descriptor) : Z * ur_usm_type_t * bool * Z :=
  (if hDevice d =? 0 then 0 else (native (hDevice d)).2, type d,
   isSharedAllocationReadOnlyOnDevice d, poolHandle d).

(** ** Lemmas *)

Section native_ok.
Hypothesis native_ok : ∀ d, d ≠ 0 → (native d).1 = UR_RESULT_SUCCESS.

Lemma native_of_ok d :
  native_of d = Ret (if d =? 0 then 0 else (native d).2).
Proof.
  unfold native_of. destruct (Z.eqb_spec d 0); [done|]. by rewrite decide_True by auto.
Qed.

Lemma desc_eq_key a b : desc_eq a b = Ret (bool_decide (desc_key a = desc_key b)).
Proof.
  unfold desc_eq, desc_key. rewrite !native_of_ok. cbn. f_equal.
  destruct (Z.eqb_spec (if hDevice a =? 0 then 0 else (native (hDevice a)).2)
              (if hDevice b =? 0 then 0 else (native (hDevice b)).2)) as [E|E]; cbn;
    [|rewrite bool_decide_false; [done|congruence]].
  destruct (decide (type a = type b)) as [Et|Et];
    [rewrite (bool_decide_true (type a = type b)) by done
    |rewrite (bool_decide_false (type a = type b)), bool_decide_false by congruence; done].
  cbn. destruct (Bool.eqb_spec (isSharedAllocationReadOnlyOnDevice a)
                   (isSharedAllocationReadOnlyOnDevice b)) as [Es|Es]; cbn;
    [|rewrite bool_decide_false; [done|congruence]].
  destruct (Z.eqb_spec (poolHandle a) (poolHandle b)) as [Ep|Ep];
    [rewrite bool_decide_true by congruence|rewrite bool_decide_false by congruence]; done.
Qed.

Lemma desc_hash_key a b : desc_key a = desc_key b → desc_hash a = desc_hash b.
Proof. unfold desc_hash, desc_key. rewrite !native_of_ok. by intros [= -> -> -> ->]. Qed.

Lemma desc_hash_ok d : ∃ h, desc_hash d = Ret h.
Proof. unfold desc_hash. rewrite native_of_ok. by eexists. Qed.

(** A stored hash is the hash of its descriptor. *)
Definition hashed (m : pool_manager) : Prop :=
  Forall (λ e, desc_hash (entry_desc e) = Ret (entry_hash e)) m.

(** The specification of a search: the first entry with the same key. *)
Fixpoint assoc_pool (k : Z * ur_usm_type_t * bool * Z) (es : list (pool_descriptor * Z))
  : option Z :=
  match es with
  | [] => None
  | (d, p) :: es' => if decide (desc_key d = k) then Some p else assoc_pool k es'
  end.

Definition entries_of (m : pool_manager) : list (pool_descriptor * Z) :=
  (λ e, (entry_desc e, entry_pool e)) <$> m.

Lemma find_hashed_key m d h :
  hashed m → desc_hash d = Ret h →
  find_hashed h d m = Ret (assoc_pool (desc_key d) (entries_of m)).
Proof.
  intros Hm Hh. induction Hm as [|e m He Hm IH]; [done|]. cbn.
  destruct (Z.eqb_spec (entry_hash e) h) as [E|E].
  - rewrite desc_eq_key. cbn. case_bool_decide; [by rewrite decide_True|by rewrite decide_False].
  - rewrite decide_False; [done|]. intros Hk%desc_hash_key. congruence.
Qed.

Lemma getPool_key m d :
  hashed m → getPool d m = Some (assoc_pool (desc_key d) (entries_of m)).
Proof.
  intros Hm. unfold getPool. destruct (desc_hash_ok d) as [h Hh]. rewrite Hh. cbn.
  by rewrite (find_hashed_key m d h).
Qed.

Lemma assoc_pool_app k l1 l2 :
  assoc_pool k (l1 ++ l2) =
  match assoc_pool k l1 with Some p => Some p | None => assoc_pool k l2 end.
Proof. induction l1 as [|[d p] l1 IH]; [done|]. cbn. by case_decide. Qed.

Lemma addPool_key m d p :
  hashed m → ∃ r m', addPool d p m = Some (r, m') ∧ hashed m' ∧
    (r = UR_RESULT_SUCCESS ↔ assoc_pool (desc_key d) (entries_of m) = None) ∧
    ∀ k, assoc_pool k (entries_of m') = assoc_pool k (entries_of m ++ [(d, p)]).
Proof.
  intros Hm. unfold addPool. destruct (desc_hash_ok d) as [h Hh]. rewrite Hh. cbn.
  rewrite (find_hashed_key m d h) by done. cbn.
  destruct (assoc_pool (desc_key d) (entries_of m)) as [q|] eqn:E; cbn.
  - eexists _, _. split_and!; [done..|]. intros k. rewrite assoc_pool_app. cbn.
    destruct (assoc_pool k (entries_of m)) eqn:E'; [done|]. case_decide; [congruence|done].
  - eexists _, _. split_and!; [done|apply Forall_app_2; [done|by constructor]|done|].
    intros k. unfold entries_of. by rewrite fmap_app.
Qed.

Lemma add_all_key es m :
  hashed m → ∃ m', add_all es m = Some m' ∧ hashed m' ∧
    ∀ k, assoc_pool k (entries_of m') = assoc_pool k (entries_of m ++ es).
Proof.
  revert m. induction es as [|[d p] es IH]; intros m Hm; cbn.
  { exists m. split_and!; [done..|]. intros k. by rewrite app_nil_r. }
  destruct (addPool_key m d p Hm) as (r & m1 & -> & Hm1 & _ & E1). cbn.
  destruct (IH m1 Hm1) as (m2 & -> & Hm2 & E2).
  exists m2. split_and!; [done..|]. intros k. rewrite E2, assoc_pool_app, E1, <-assoc_pool_app.
  by rewrite <-app_assoc.
Qed.
End native_ok.

(** ** Enumeration lemmas *)

End queries.

Section tree.
Variable compute_units : Z → ur_result_t.
Variable partition_count : Z → ur_result_t * Z.
Variable partition : Z → nat → ur_result_t * list Z.
(** The sub-devices every query answers with, and a height that bounds the
    depth of the device tree. *)
Variable sub : Z → list Z.
Variable height : Z → nat.
Hypothesis partition_ok : 
  ∀ d, urGetSubDevices compute_units partition_count partition d = (UR_RESULT_SUCCESS, sub d).
Hypothesis height_ok : ∀ d s, s ∈ sub d → (height s < height d)%nat.

Lemma addPoolsForDevicesRec_preorder fuel d acc :
  (height d < fuel)%nat →
  addPoolsForDevicesRec compute_units partition_count partition fuel d acc =
    Some (UR_RESULT_SUCCESS, acc ++ preorder fuel sub d).
Proof.
  revert d acc. induction fuel as [|fuel IH]; intros d acc Hf; [lia|].
  cbn -[urGetSubDevices]. rewrite partition_ok. rewrite decide_False by auto.
  assert (Hs : ∀ s, s ∈ sub d → (height s < fuel)%nat) by (intros s ?%height_ok; lia).
  match goal with |- ?go _ _ = _ =>
    enough (G : ∀ subs acc', (∀ s, s ∈ subs → (height s < fuel)%nat) →
      go subs acc' = Some (UR_RESULT_SUCCESS, acc' ++ (subs ≫= preorder fuel sub)))
  end.
  { rewrite G by done. by rewrite <-app_assoc. }
  intros subs. induction subs as [|s subs IHs]; intros acc' Hsub; cbn.
  { by rewrite app_nil_r. }
  rewrite IH by (apply Hsub; left). rewrite decide_False by auto.
  rewrite IHs by (intros; apply Hsub; by right). by rewrite <-app_assoc.
Qed.

Lemma add_devices_preorder fuel devices todo acc :
  (∀ d, d ∈ todo → (height d < fuel)%nat) →
  add_devices compute_units partition_count partition fuel devices todo acc =
    Some (UR_RESULT_SUCCESS, acc ++ (todo ≫= preorder fuel sub)).
Proof.
  revert acc. induction todo as [|d todo IH]; intros acc H; cbn.
  { by rewrite app_nil_r. }
  rewrite addPoolsForDevicesRec_preorder by (apply H; left). rewrite decide_False by auto.
  rewrite IH by (intros; apply H; by right). by rewrite <-app_assoc.
Qed.
End tree.

(** ** Theorems *)

(** C32: The USM pools registered in order are found again by key: looking up a
    descriptor yields the pool of the first registered descriptor with the same
    native device, type, read-only property and pool handle, or nothing.  In
    particular a sub-device that has its parent's native handle shares the
    parent's pools.  This holds for every hash function of the members. *)
Theorem getPool_after_add_all native hash_type hash_native hash_bool hash_pool entries
  (native_ok : ∀ d, d ≠ 0 → (native d).1 = UR_RESULT_SUCCESS) :
  ∃ m, add_all native hash_type hash_native hash_bool hash_pool entries [] = Some m ∧
    ∀ desc, getPool native hash_type hash_native hash_bool hash_pool desc m =
              Some (assoc_pool native (desc_key native desc) entries).
Proof.
  destruct (add_all_key native hash_type hash_native hash_bool hash_pool native_ok entries [])
    as (m & Hm & Hh & Hk); [by constructor|].
  exists m. split; [done|]. intros desc. rewrite getPool_key by done. by rewrite Hk.
Qed.

(** Devices 1 and 2 have the native handle 7; the hash collides everywhere. *)
Example getPool_after_add_all_witness :
  ∃ m, add_all (λ d, (UR_RESULT_SUCCESS, if d =? 3 then 9 else 7)) (λ _, 0) (λ _, 0) (λ _, 0)
      (λ _, 0)
      [(mkDesc 5 6 1 UR_USM_TYPE_DEVICE false, 100); (mkDesc 5 6 2 UR_USM_TYPE_DEVICE false, 101);
       (mkDesc 5 6 3 UR_USM_TYPE_DEVICE false, 102)] [] = Some m ∧
    getPool (λ d, (UR_RESULT_SUCCESS, if d =? 3 then 9 else 7)) (λ _, 0) (λ _, 0) (λ _, 0)
      (λ _, 0) (mkDesc 5 6 2 UR_USM_TYPE_DEVICE false) m = Some (Some 100).
Proof.
  destruct (getPool_after_add_all (λ d, (UR_RESULT_SUCCESS, if d =? 3 then 9 else 7)) (λ _, 0)
    (λ _, 0) (λ _, 0) (λ _, 0)
    [(mkDesc 5 6 1 UR_USM_TYPE_DEVICE false, 100); (mkDesc 5 6 2 UR_USM_TYPE_DEVICE false, 101);
     (mkDesc 5 6 3 UR_USM_TYPE_DEVICE false, 102)]) as (m & Hm & Hk); [done|].
  exists m. split; [done|]. rewrite Hk. vm_compute. reflexivity.
Defined.

(** When every partition query succeeds and the device tree has finite
    depth, [pool_descriptor::create] lists one host descriptor and then a
    device, a shared and a read-only shared descriptor for every device and
    sub-device in pre-order. *)
Theorem create_descriptors compute_units partition_count partition sub (height : Z → nat) fuel
  n devices context_devices poolHandle hContext
  (partition_ok : ∀ d, urGetSubDevices compute_units partition_count partition d =
                         (UR_RESULT_SUCCESS, sub d))
  (height_ok : ∀ d s, s ∈ sub d → (height s < height d)%nat)
  (fuel_ok : ∀ d, d ∈ devices → (height d < fuel)%nat)
  (devices_ok : context_devices (length devices) = (UR_RESULT_SUCCESS, devices))
  (n_ok : n = Z.of_nat (length devices)) :
  create compute_units partition_count partition fuel (UR_RESULT_SUCCESS, n) context_devices
      poolHandle hContext =
    Some (UR_RESULT_SUCCESS,
      mkDesc poolHandle hContext 0 UR_USM_TYPE_HOST false ::
      ((devices ≫= preorder fuel sub) ≫= device_descriptors poolHandle hContext)).
Proof.
  unfold create, urGetAllDevicesAndSubDevices. subst n.
  destruct devices as [|d devices]; [done|].
  rewrite decide_False by (intros [?|?]; [done|by cbn in *; lia]).
  rewrite Nat2Z.id, devices_ok, decide_False by auto.
  unfold filled. rewrite resize_all_alt by done.
  by rewrite (add_devices_preorder compute_units partition_count partition sub height) by done.
Qed.

(** One device 1 with the sub-devices 2 and 3. *)
Example create_descriptors_witness :
  create (λ _, UR_RESULT_SUCCESS) (λ d, (UR_RESULT_SUCCESS, if d =? 1 then 2 else 0))
      (λ d _, (UR_RESULT_SUCCESS, if d =? 1 then [2; 3] else [])) 2 (UR_RESULT_SUCCESS, 1)
      (λ _, (UR_RESULT_SUCCESS, [1])) 5 6 =
    Some (UR_RESULT_SUCCESS,
      mkDesc 5 6 0 UR_USM_TYPE_HOST false ::
      (([1] ≫= preorder 2 (λ d, if d =? 1 then [2; 3] else [])) ≫= device_descriptors 5 6)).
Proof.
  apply (create_descriptors _ _ _ (λ d, if d =? 1 then [2; 3] else [])
           (λ d, if d =? 1 then 1%nat else 0%nat)).
  - intros d. unfold urGetSubDevices. by destruct (Z.eqb_spec d 1).
  - intros d s. destruct (Z.eqb_spec d 1); rewrite ?elem_of_cons, ?elem_of_nil.
    + intros [->|[->|[]]]; cbn; lia.
    + intros [].
  - intros d [->|[]%elem_of_nil]%elem_of_cons; cbn; lia.
  - reflexivity.
  - reflexivity.
Defined.

(** When the first device cannot be partitioned by compute slices because
    the feature is unsupported, the enumeration returns the context's devices
    together with the error, and [pool_descriptor::create] discards them: it
    returns the error and no descriptor, not even the host one. *)
Theorem unsupported_partition_loses_devices compute_units partition_count partition fuel
  n devices context_devices poolHandle hContext d
  (unsupported : urGetSubDevices compute_units partition_count partition d =
                   (UR_RESULT_ERROR_UNSUPPORTED_FEATURE, []))
  (devices_ok : context_devices (length devices) = (UR_RESULT_SUCCESS, devices))
  (first : head devices = Some d)
  (n_ok : n = Z.of_nat (length devices)) :
  urGetAllDevicesAndSubDevices compute_units partition_count partition (S fuel)
      (UR_RESULT_SUCCESS, n) context_devices =
    Some (UR_RESULT_ERROR_UNSUPPORTED_FEATURE, devices) ∧
  create compute_units partition_count partition (S fuel) (UR_RESULT_SUCCESS, n) context_devices
      poolHandle hContext = Some (UR_RESULT_ERROR_UNSUPPORTED_FEATURE, []).
Proof.
  assert (E : urGetAllDevicesAndSubDevices compute_units partition_count partition (S fuel)
      (UR_RESULT_SUCCESS, n) context_devices =
    Some (UR_RESULT_ERROR_UNSUPPORTED_FEATURE, devices)).
  { unfold urGetAllDevicesAndSubDevices. subst n.
    destruct devices as [|d' devices]; [done|]. injection first as ->.
    rewrite decide_False by (intros [?|?]; [done|by cbn in *; lia]).
    rewrite Nat2Z.id, devices_ok, decide_False by auto.
    unfold filled. rewrite resize_all_alt by done.
    cbn -[urGetSubDevices]. by rewrite unsupported. }
  split; [done|]. unfold create. by rewrite E.
Qed.

Example unsupported_partition_loses_devices_witness :
  create (λ _, UR_RESULT_SUCCESS) (λ _, (UR_RESULT_ERROR_UNSUPPORTED_FEATURE, 0))
      (λ _ _, (UR_RESULT_SUCCESS, [])) 1 (UR_RESULT_SUCCESS, 1) (λ _, (UR_RESULT_SUCCESS, [1])) 5 6
    = Some (UR_RESULT_ERROR_UNSUPPORTED_FEATURE, []).
Proof.
  apply (unsupported_partition_loses_devices _ _ _ 0 1 [1] _ 5 6 1); reflexivity.
Defined.
