(* ===== verification/CommandListCache.v ===== *)
(** * CommandListCache: level_zero/v2/command_list_cache.cpp

    The cache of Level Zero command lists of a v2 context, with the result-code
    translation of level_zero/common.cpp.  The Level Zero driver, its flag
    constants and [std::hash] are parameters; the mutex makes every operation
    atomic, so a run is a sequence of operations in any order. *)
From S2P Require Import Prelude.

(** ** Level Zero results: the codes the adapter names *)

Inductive ze_result_t : Set :=
| ZE_RESULT_SUCCESS
| ZE_RESULT_NOT_READY
| ZE_RESULT_ERROR_DEVICE_LOST
| ZE_RESULT_ERROR_OUT_OF_HOST_MEMORY
| ZE_RESULT_ERROR_OUT_OF_DEVICE_MEMORY
| ZE_RESULT_ERROR_MODULE_BUILD_FAILURE
| ZE_RESULT_ERROR_MODULE_LINK_FAILURE
| ZE_RESULT_ERROR_INSUFFICIENT_PERMISSIONS
| ZE_RESULT_ERROR_NOT_AVAILABLE
| ZE_RESULT_ERROR_UNINITIALIZED
| ZE_RESULT_ERROR_UNSUPPORTED_FEATURE
| ZE_RESULT_ERROR_INVALID_ARGUMENT
| ZE_RESULT_ERROR_INVALID_NULL_POINTER
| ZE_RESULT_ERROR_INVALID_SIZE
| ZE_RESULT_ERROR_UNSUPPORTED_SIZE
| ZE_RESULT_ERROR_UNSUPPORTED_ALIGNMENT
| ZE_RESULT_ERROR_INVALID_SYNCHRONIZATION_OBJECT
| ZE_RESULT_ERROR_INVALID_ENUMERATION
| ZE_RESULT_ERROR_UNSUPPORTED_ENUMERATION
| ZE_RESULT_ERROR_UNSUPPORTED_IMAGE_FORMAT
| ZE_RESULT_ERROR_INVALID_NATIVE_BINARY
| ZE_RESULT_ERROR_INVALID_KERNEL_NAME
| ZE_RESULT_ERROR_INVALID_FUNCTION_NAME
| ZE_RESULT_ERROR_OVERLAPPING_REGIONS
| ZE_RESULT_ERROR_INVALID_GROUP_SIZE_DIMENSION
| ZE_RESULT_OTHER (code : Z).

#[export] Instance ze_result_t_eq_dec : EqDecision ze_result_t.
Proof. solve_decision. Defined.

Definition ze2urResult (ZeResult : ze_result_t) : ur_result_t :=
  match ZeResult with
  | ZE_RESULT_SUCCESS => UR_RESULT_SUCCESS
  | ZE_RESULT_ERROR_DEVICE_LOST => UR_RESULT_ERROR_DEVICE_LOST
  | ZE_RESULT_ERROR_INSUFFICIENT_PERMISSIONS => UR_RESULT_ERROR_INVALID_OPERATION
  | ZE_RESULT_ERROR_NOT_AVAILABLE => UR_RESULT_ERROR_INVALID_OPERATION
  | ZE_RESULT_ERROR_UNINITIALIZED => UR_RESULT_ERROR_UNINITIALIZED
  | ZE_RESULT_ERROR_INVALID_ARGUMENT => UR_RESULT_ERROR_INVALID_ARGUMENT
  | ZE_RESULT_ERROR_INVALID_NULL_POINTER => UR_RESULT_ERROR_INVALID_VALUE
  | ZE_RESULT_ERROR_INVALID_SIZE => UR_RESULT_ERROR_INVALID_VALUE
  | ZE_RESULT_ERROR_UNSUPPORTED_SIZE => UR_RESULT_ERROR_INVALID_VALUE
  | ZE_RESULT_ERROR_UNSUPPORTED_ALIGNMENT => UR_RESULT_ERROR_INVALID_VALUE
  | ZE_RESULT_ERROR_INVALID_SYNCHRONIZATION_OBJECT => UR_RESULT_ERROR_INVALID_EVENT
  | ZE_RESULT_ERROR_INVALID_ENUMERATION => UR_RESULT_ERROR_INVALID_VALUE
  | ZE_RESULT_ERROR_UNSUPPORTED_ENUMERATION => UR_RESULT_ERROR_INVALID_VALUE
  | ZE_RESULT_ERROR_UNSUPPORTED_IMAGE_FORMAT => UR_RESULT_ERROR_INVALID_VALUE
  | ZE_RESULT_ERROR_INVALID_NATIVE_BINARY => UR_RESULT_ERROR_INVALID_BINARY
  | ZE_RESULT_ERROR_INVALID_KERNEL_NAME
  | ZE_RESULT_ERROR_INVALID_FUNCTION_NAME => UR_RESULT_ERROR_INVALID_KERNEL_NAME
  | ZE_RESULT_ERROR_OVERLAPPING_REGIONS => UR_RESULT_ERROR_INVALID_OPERATION
  | ZE_RESULT_ERROR_INVALID_GROUP_SIZE_DIMENSION => UR_RESULT_ERROR_INVALID_WORK_GROUP_SIZE
  | ZE_RESULT_ERROR_MODULE_BUILD_FAILURE => UR_RESULT_ERROR_PROGRAM_BUILD_FAILURE
  | ZE_RESULT_ERROR_OUT_OF_DEVICE_MEMORY => UR_RESULT_ERROR_OUT_OF_DEVICE_MEMORY
  | ZE_RESULT_ERROR_OUT_OF_HOST_MEMORY => UR_RESULT_ERROR_OUT_OF_HOST_MEMORY
  | ZE_RESULT_ERROR_UNSUPPORTED_FEATURE => UR_RESULT_ERROR_UNSUPPORTED_FEATURE
  | ZE_RESULT_ERROR_MODULE_LINK_FAILURE => UR_RESULT_ERROR_PROGRAM_LINK_FAILURE
  | _ => UR_RESULT_ERROR_UNKNOWN
  end.

(** [ZE2UR_CALL_THROWS] of a call that delivers [a]. *)
Definition ZE2UR_CALL_THROWS {A} (ZeResult : ze_result_t) (a : A) : outcome A :=
  if decide (ZeResult = ZE_RESULT_SUCCESS) then Ret a
  else Throw (Exn_ur (ze2urResult ZeResult)).

(** ** Descriptors *)

Record immediate_command_list_descriptor_t := mkImm {
  ZeDevice : Z; IsInOrder : bool; Ordinal : Z; CopyOffloadEnabled : bool;
  Mode : Z; Priority : Z; Index : option Z
}.

Record regular_command_list_descriptor_t := mkReg {
  rZeDevice : Z; rIsInOrder : bool; rOrdinal : Z; rCopyOffloadEnabled : bool
}.

Inductive command_list_descriptor_t :=
| Imm (d : immediate_command_list_descriptor_t)
| Reg (d : regular_command_list_descriptor_t).

#[export] Instance imm_eq_dec : EqDecision immediate_command_list_descriptor_t.
Proof. solve_decision. Defined.
#[export] Instance reg_eq_dec : EqDecision regular_command_list_descriptor_t.
Proof. solve_decision. Defined.
#[export] Instance desc_eq_dec : EqDecision command_list_descriptor_t.
Proof. solve_decision. Defined.

(** The two [operator==]. *)
Definition imm_eqb (lhs rhs : immediate_command_list_descriptor_t) : bool :=
  (ZeDevice lhs =? ZeDevice rhs) && Bool.eqb (IsInOrder lhs) (IsInOrder rhs) &&
  (Mode lhs =? Mode rhs) && (Priority lhs =? Priority rhs) &&
  bool_decide (Index lhs = Index rhs).

Definition reg_eqb (lhs rhs : regular_command_list_descriptor_t) : bool :=
  (rZeDevice lhs =? rZeDevice rhs) && (rOrdinal lhs =? rOrdinal rhs) &&
  Bool.eqb (rIsInOrder lhs) (rIsInOrder rhs).

(** [operator==] of the variant. *)
Definition desc_eqb (lhs rhs : command_list_descriptor_t) : bool :=
  match lhs, rhs with
  | Imm l, Imm r => imm_eqb l r
  | Reg l, Reg r => reg_eqb l r
  | _, _ => false
  end.

(** What the driver is asked for. *)
Record queue_desc := mkQueue {
  q_ordinal : Z; q_mode : Z; q_priority : Z; q_flags : Z; q_index : Z;
  q_copyOffloadEnabled : bool
}.
Record list_desc := mkList { l_flags : Z; l_ordinal : Z; l_copyOffloadEnabled : bool }.

Inductive ze_request :=
| CreateImmediate (ctx dev : Z) (q : queue_desc)
| Create (ctx dev : Z) (l : list_desc).

(** The standard hashes of the members. *)
Record std_hashes := mkHashes {
  hash_device : Z → Z; hash_bool : bool → Z; hash_u32 : Z → Z; hash_mode : Z → Z;
  hash_priority : Z → Z; hash_index : option Z → Z
}.

(** The Level Zero flag constants. *)
Record ze_flags := mkFlags {
  ZE_COMMAND_QUEUE_FLAG_IN_ORDER : Z;
  ZE_COMMAND_QUEUE_FLAG_EXPLICIT_ONLY : Z;
  ZE_COMMAND_LIST_FLAG_IN_ORDER : Z
}.

(** The driver: its state, the creation of a command list, and the command
    lists it has made with what was asked for. *)
Class ZeDriver (D : Type) := {
  ze_create : D → ze_request → D * (ze_result_t * Z);
  ze_made : D → gmap Z ze_request
}.

(** A successful creation delivers a handle that is not in use; a failure
    creates nothing. *)
Class ZeDriverLaws (D : Type) `{ZeDriver D} := {
  ze_create_ok : ∀ (d d' : D) req h, ze_create d req = (d', (ZE_RESULT_SUCCESS, h)) →
    ze_made d !! h = None ∧ ze_made d' = <[h := req]> (ze_made d);
  ze_create_fail : ∀ (d d' : D) req r h, ze_create d req = (d', (r, h)) →
    r ≠ ZE_RESULT_SUCCESS → ze_made d' = ze_made d
}.

Section cache.
Context {D : Type} `{ZeDriver D}.
Variable hs : std_hashes.
Variable fl : ze_flags.
(** [ZeContext] of the constructor. *)
Variable ctx : Z.

(** [command_list_descriptor_hash_t] *)
Definition desc_hash (desc : command_list_descriptor_t) : Z :=
  match desc with
  | Imm i => fold_left Z.lxor
      [hash_device hs (ZeDevice i); hash_u32 hs (Ordinal i); hash_bool hs (IsInOrder i);
       hash_mode hs (Mode i); hash_priority hs (Priority i); hash_index hs (Index i)] 0
  | Reg r => fold_left Z.lxor
      [hash_device hs (rZeDevice r); hash_bool hs (rIsInOrder r); hash_u32 hs (rOrdinal r)] 0
  end.

Definition request_of (desc : command_list_descriptor_t) : ze_request :=
  match desc with
  | Imm i =>
      let flags := if IsInOrder i then ZE_COMMAND_QUEUE_FLAG_IN_ORDER fl else 0 in
      CreateImmediate ctx (ZeDevice i)
        (mkQueue (Ordinal i) (Mode i) (Priority i)
           (match Index i with
            | Some _ => Z.lor flags (ZE_COMMAND_QUEUE_FLAG_EXPLICIT_ONLY fl)
            | None => flags
            end)
           (match Index i with Some n => n | None => 0 end) (CopyOffloadEnabled i))
  | Reg r =>
      Create ctx (rZeDevice r)
        (mkList (if rIsInOrder r then ZE_COMMAND_LIST_FLAG_IN_ORDER fl else 0) (rOrdinal r)
           (rCopyOffloadEnabled r))
  end.

Definition createCommandList (desc : command_list_descriptor_t) (d : D) : D * outcome Z :=
  let '(d', (ZeResult, ZeCommandList)) := ze_create d (request_of desc) in
  (d', ZE2UR_CALL_THROWS ZeResult ZeCommandList).

(** [ZeCommandListCache]: each key with its hash and its stack, top first. *)
Record entry := mkEntry {
  e_hash : Z; e_desc : command_list_descriptor_t; e_stack : list Z
}.
Definition command_list_cache_t := list entry.

(** Whether the table finds [desc] at an entry. *)
Definition hits (desc : command_list_descriptor_t) (e : entry) : bool :=
  (e_hash e =? desc_hash desc) && desc_eqb (e_desc e) desc.

(** The entries before the one found, that entry, the entries after it. *)
Fixpoint find_entry (desc : command_list_descriptor_t) (c : command_list_cache_t)
  : option (command_list_cache_t * entry * command_list_cache_t) :=
  match c with
  | [] => None
  | e :: c' =>
      if hits desc e then Some ([], e, c')
      else match find_entry desc c' with
           | Some (pre, e', post) => Some (e :: pre, e', post)
           | None => None
           end
  end.

Definition getCommandList (desc : command_list_descriptor_t) (d : D) (c : command_list_cache_t)
  : D * command_list_cache_t * outcome Z :=
  match find_entry desc c with
  | None => let '(d', o) := createCommandList desc d in (d', c, o)
  | Some (pre, e, post) =>
      match e_stack e with
      | [] => (d, c, Undef)
      | [h] => (d, pre ++ post, Ret h)
      | h :: st => (d, pre ++ mkEntry (e_hash e) (e_desc e) st :: post, Ret h)
      end
  end.

Definition addCommandList (desc : command_list_descriptor_t) (cmdList : Z)
    (c : command_list_cache_t) : command_list_cache_t :=
  match find_entry desc c with
  | None => c ++ [mkEntry (desc_hash desc) desc [cmdList]]
  | Some (pre, e, post) => pre ++ mkEntry (e_hash e) (e_desc e) (cmdList :: e_stack e) :: post
  end.

(** The unique handle is the list with the descriptor its deleter gives it
    back under. *)
Definition get_unique (desc : command_list_descriptor_t) (d : D) (c : command_list_cache_t)
  : D * command_list_cache_t * outcome (Z * command_list_descriptor_t) :=
  let '(d', c', o) := getCommandList desc d c in (d', c', h ← o; Ret (h, desc)).

Definition getImmediateCommandList (dev : Z) (inOrder : bool) (ordinal : Z) (offload : bool)
    (mode priority : Z) (index : option Z) (d : D) (c : command_list_cache_t)
  : D * command_list_cache_t * outcome (Z * command_list_descriptor_t) :=
  get_unique (Imm (mkImm dev inOrder ordinal offload mode priority index)) d c.

Definition getRegularCommandList (dev : Z) (inOrder : bool) (ordinal : Z) (offload : bool)
    (d : D) (c : command_list_cache_t)
  : D * command_list_cache_t * outcome (Z * command_list_descriptor_t) :=
  get_unique (Reg (mkReg dev inOrder ordinal offload)) d c.

Fixpoint count_lists (p : command_list_descriptor_t → bool) (c : command_list_cache_t) : nat :=
  match c with
  | [] => 0
  | e :: c' => (if p (e_desc e) then length (e_stack e) else 0) + count_lists p c'
  end.

Definition getNumImmediateCommandLists (c : command_list_cache_t) : nat :=
  count_lists (λ d, match d with Imm _ => true | Reg _ => false end) c.

Definition getNumRegularCommandLists (c : command_list_cache_t) : nat :=
  count_lists (λ d, match d with Imm _ => false | Reg _ => true end) c.

(** ** Runs *)

(** A driver state, the cache and the unique handles that are out. *)
Record state := mkState {
  drv : D; cache : command_list_cache_t; in_use : list (Z * command_list_descriptor_t)
}.

Inductive op :=
| GetImmediate (dev : Z) (inOrder : bool) (ordinal : Z) (offload : bool) (mode priority : Z)
    (index : option Z)
| GetRegular (dev : Z) (inOrder : bool) (ordinal : Z) (offload : bool)
| Destroy (n : nat).

Definition got (s : state)
    (r : D * command_list_cache_t * outcome (Z * command_list_descriptor_t)) : state :=
  let '(d, c, o) := r in
  mkState d c (match o with Ret u => u :: in_use s | _ => in_use s end).

(** A call of the cache, or the destruction of the [n]-th unique handle. *)
Definition run_op (s : state) (o : op) : state :=
  match o with
  | GetImmediate dev io ord off m p i =>
      got s (getImmediateCommandList dev io ord off m p i (drv s) (cache s))
  | GetRegular dev io ord off => got s (getRegularCommandList dev io ord off (drv s) (cache s))
  | Destroy n =>
      match in_use s !! n with
      | Some (h, desc) =>
          mkState (drv s) (addCommandList desc h (cache s)) (delete n (in_use s))
      | None => s
      end
  end.

Definition run (ops : list op) (s : state) : state := fold_left run_op ops s.
End cache.
Arguments state D : clear implicits.

(** ** Specification *)

(** The settings a cached list is looked up by: all but the copy offload. *)
Definition norm (d : command_list_descriptor_t) : command_list_descriptor_t :=
  match d with
  | Imm i => Imm (mkImm (ZeDevice i) (IsInOrder i) (Ordinal i) false (Mode i) (Priority i) (Index i))
  | Reg r => Reg (mkReg (rZeDevice r) (rIsInOrder r) (rOrdinal r) false)
  end.

Definition copy_offload (d : command_list_descriptor_t) : bool :=
  match d with Imm i => CopyOffloadEnabled i | Reg r => rCopyOffloadEnabled r end.

(** The lists in the cache. *)
Definition cached (c : command_list_cache_t) : list Z := c ≫= e_stack.

(** A fresh context's cache over a driver state. *)
Definition start {D} (d : D) : state D := mkState d [] [].

(** ** Lemmas *)

Lemma desc_eqb_norm a b : norm a = norm b → desc_eqb a b = true.
Proof.
  destruct a as [[]|[]], b as [[]|[]]; cbn; try done; intros [= -> -> ->]; subst; cbn;
    unfold imm_eqb, reg_eqb; cbn; rewrite ?Z.eqb_refl, ?eqb_reflx, ?bool_decide_true; done.
Qed.

Lemma lxor_inj_r a b c : Z.lxor a c = Z.lxor b c → a = b.
Proof.
  intros E%(f_equal (λ z, Z.lxor z c)).
  by rewrite !Z.lxor_assoc, Z.lxor_nilpotent, !Z.lxor_0_r in E.
Qed.

Lemma lxor_inj_l a b c : Z.lxor c a = Z.lxor c b → a = b.
Proof. rewrite !(Z.lxor_comm c). apply lxor_inj_r. Qed.

Section lemmas.
Context {D : Type} `{ZeDriver D}.
Variable hs : std_hashes.
Variable fl : ze_flags.
Variable ctx : Z.

Lemma desc_hash_norm a b : norm a = norm b → desc_hash hs a = desc_hash hs b.
Proof.
  destruct a as [[]|[]], b as [[]|[]]; cbn; try done; intros [= -> -> ->]; by subst.
Qed.

(** Equal keys with equal hashes agree in every setting but the offload when
    the hash tells ordinals apart. *)
Lemma hits_norm desc e :
  (∀ a b, hash_u32 hs a = hash_u32 hs b → a = b) →
  e_hash e = desc_hash hs (e_desc e) →
  hits hs desc e = true → norm (e_desc e) = norm desc.
Proof.
  intros inj He. unfold hits. rewrite He. intros [Eh%Z.eqb_eq Eq]%andb_prop.
  destruct (e_desc e) as [[]|[]], desc as [[]|[]]; cbn in *; try done;
    unfold imm_eqb, reg_eqb in Eq; cbn in Eq;
    rewrite !andb_true_iff, ?Z.eqb_eq, ?bool_decide_eq_true in Eq; destruct_and!;
    repeat match goal with H : Bool.eqb _ _ = true |- _ => apply eqb_prop in H end; subst;
    [|done].
  do 2 f_equal. apply inj.
  rewrite !Z.lxor_0_l in Eh. by do 4 apply lxor_inj_r in Eh; apply lxor_inj_l in Eh.
Qed.

Lemma hits_of_norm desc e :
  e_hash e = desc_hash hs (e_desc e) → norm (e_desc e) = norm desc → hits hs desc e = true.
Proof.
  intros He Hn. unfold hits.
  rewrite He, (desc_hash_norm _ _ Hn), Z.eqb_refl, (desc_eqb_norm _ _ Hn). done.
Qed.

Lemma find_entry_Some desc c pre e post :
  find_entry hs desc c = Some (pre, e, post) → c = pre ++ e :: post ∧ hits hs desc e = true.
Proof.
  revert pre. induction c as [|e' c IH]; [done|]. intros pre. cbn.
  destruct (hits hs desc e') eqn:E; [by intros [= <- -> ->]|].
  destruct (find_entry hs desc c) as [[[pre' e''] post']|]; [|done].
  intros [= <- -> ->]. by destruct (IH pre' eq_refl) as [-> ?].
Qed.

(** [h] was made for settings that [desc] asks for. *)
Definition served (m : gmap Z ze_request) (desc : command_list_descriptor_t) (h : Z) : Prop :=
  ∃ desc', m !! h = Some (request_of fl ctx desc') ∧ norm desc' = norm desc.

Definition entry_ok (m : gmap Z ze_request) (e : entry) : Prop :=
  e_hash e = desc_hash hs (e_desc e) ∧ e_stack e ≠ [] ∧
  ∀ h, h ∈ e_stack e → served m (e_desc e) h.

Record inv (s : state D) : Prop := {
  inv_cache : Forall (entry_ok (ze_made (drv s))) (cache s);
  inv_use : Forall (λ u, served (ze_made (drv s)) u.2 u.1) (in_use s);
  inv_all : (in_use s).*1 ++ cached (cache s) ≡ₚ (map_to_list (ze_made (drv s))).*1
}.

Lemma served_insert m desc h h' req :
  m !! h' = None → served m desc h → served (<[h' := req]> m) desc h.
Proof.
  intros Hn (d & Hd & Hk). exists d. split; [|done].
  by rewrite lookup_insert_ne by congruence.
Qed.

Lemma entry_ok_insert m e h' req :
  m !! h' = None → entry_ok m e → entry_ok (<[h' := req]> m) e.
Proof. intros Hn (?&?&?). split_and!; [done..|]. eauto using served_insert. Qed.

Lemma served_norm m d1 d2 h : norm d1 = norm d2 → served m d1 h → served m d2 h.
Proof. intros E (d&?&?). exists d. split; [done|congruence]. Qed.

Lemma cached_app c1 c2 : cached (c1 ++ c2) = cached c1 ++ cached c2.
Proof. apply bind_app. Qed.
Lemma cached_cons e c : cached (e :: c) = e_stack e ++ cached c.
Proof. done. Qed.

Context `{!ZeDriverLaws D}.
Hypothesis inj : ∀ a b, hash_u32 hs a = hash_u32 hs b → a = b.

Lemma inv_start d : ze_made d = ∅ → inv (start d).
Proof. intros E. split; cbn; [constructor|constructor|]. by rewrite E, map_to_list_empty. Qed.

(** Taking the top of a stack moves one list from the cache to its user. *)
Lemma inv_hit s desc pre e post h st c' :
  inv s → cache s = pre ++ e :: post → hits hs desc e = true → e_stack e = h :: st →
  c' = (match st with [] => pre ++ post | _ => pre ++ mkEntry (e_hash e) (e_desc e) st :: post end) →
  inv (mkState (drv s) c' ((h, desc) :: in_use s)).
Proof.
  intros [Hc Hu Ha] Ec Hh Es ->. rewrite Ec in Hc, Ha.
  apply Forall_app in Hc as [Hpre [(He1 & He2 & He3) Hpost]%Forall_cons].
  pose proof (hits_norm desc e inj He1 Hh) as Hn. rewrite Es in He3.
  split; cbn.
  - destruct st as [|h2 st]; (apply Forall_app_2; [done|]); [done|]. constructor; [|done].
    split_and!; [done..|]. intros h' ?. apply He3. by right.
  - constructor; [|done]. apply (served_norm _ (e_desc e)); [done|]. apply He3. by left.
  - rewrite <-Ha, !cached_app, cached_cons, Es. destruct st; rewrite ?cached_app, ?cached_cons;
      cbn [e_stack]; solve_Permutation.
Qed.

Lemma inv_got s desc : inv s → inv (got s (get_unique hs fl ctx desc (drv s) (cache s))).
Proof.
  intros Hi. unfold get_unique, getCommandList.
  destruct (find_entry hs desc (cache s)) as [[[pre e] post]|] eqn:Ef.
  - apply find_entry_Some in Ef as [Ec Hh].
    destruct (e_stack e) as [|h st] eqn:Es.
    { destruct Hi as [Hc _ _]. rewrite Ec in Hc. apply Forall_app in Hc as [_ Hc].
      apply Forall_cons in Hc as [(_&?&_) _]. done. }
    destruct st as [|h2 st]; by eapply (inv_hit s desc pre e post h).
  - unfold createCommandList.
    destruct (ze_create (drv s) (request_of fl ctx desc)) as [d' [r h]] eqn:Ed. cbn.
    unfold ZE2UR_CALL_THROWS. destruct Hi as [Hc Hu Ha]. case_decide as Hr; cbn.
    + subst r. apply ze_create_ok in Ed as [Hn Em]. split; cbn; rewrite Em.
      * eapply Forall_impl; [done|]. intros. by apply entry_ok_insert.
      * constructor; [|eapply Forall_impl; [done|]; intros; by apply served_insert].
        exists desc. cbn. by rewrite lookup_insert_eq.
      * rewrite map_to_list_insert by done. cbn. by rewrite Ha.
    + apply ze_create_fail in Ed; [|done]. split; cbn; by rewrite Ed.
Qed.

Lemma inv_add s desc h n :
  inv s → in_use s !! n = Some (h, desc) →
  inv (mkState (drv s) (addCommandList hs desc h (cache s)) (delete n (in_use s))).
Proof.
  intros [Hc Hu Ha] Hl.
  assert (Hs : served (ze_made (drv s)) desc h) by (exact (Forall_lookup_1 _ _ _ _ Hu Hl)).
  unfold addCommandList. pose proof (delete_Permutation _ _ _ Hl) as Hp.
  rewrite Hp in Ha. cbn in Ha.
  destruct (find_entry hs desc (cache s)) as [[[pre e] post]|] eqn:Ef.
  - apply find_entry_Some in Ef as [Ec Hh]. rewrite Ec in Hc, Ha.
    apply Forall_app in Hc as [Hpre [(He1 & He2 & He3) Hpost]%Forall_cons].
    pose proof (hits_norm desc e inj He1 Hh) as Hn.
    split; cbn.
    + apply Forall_app_2; [done|]. constructor; [|done]. split_and!; [done..|].
      intros h' [->|?]%elem_of_cons; [|by apply He3]. by apply (served_norm _ desc).
    + by apply Forall_delete.
    + rewrite <-Ha, !cached_app, !cached_cons. cbn [e_stack]. solve_Permutation.
  - split; cbn.
    + apply Forall_app_2; [done|]. repeat constructor; cbn; [done|].
      intros h' ->%list_elem_of_singleton. done.
    + by apply Forall_delete.
    + rewrite <-Ha, cached_app, cached_cons. cbn. solve_Permutation.
Qed.

Lemma inv_run ops s : inv s → inv (run hs fl ctx ops s).
Proof.
  revert s. induction ops as [|o ops IH]; [done|]. intros s Hi. cbn. apply IH.
  destruct o as [| |n]; cbn; [by apply inv_got..|].
  destruct (in_use s !! n) as [[h desc]|] eqn:E; [|done]. by apply inv_add.
Qed.

Lemma count_lists_cached c :
  (getNumImmediateCommandLists c + getNumRegularCommandLists c)%nat = length (cached c).
Proof.
  unfold getNumImmediateCommandLists, getNumRegularCommandLists.
  induction c as [|e c IH]; [done|]. rewrite cached_cons, length_app, <-IH. cbn.
  destruct (e_desc e); lia.
Qed.
End lemmas.

(** A list that is destroyed and asked for again under a key with the same hash
    that compares equal is handed out again. *)
Lemma reuse_after_destroy {D} `{ZeDriver D} hs fl ctx (d d' : D) o1 o2 desc1 desc2 h :
  (∀ s, run_op hs fl ctx s o1 = got s (get_unique hs fl ctx desc1 (drv s) (cache s))) →
  (∀ s, run_op hs fl ctx s o2 = got s (get_unique hs fl ctx desc2 (drv s) (cache s))) →
  ze_create d (request_of fl ctx desc1) = (d', (ZE_RESULT_SUCCESS, h)) →
  desc_hash hs desc1 = desc_hash hs desc2 → desc_eqb desc1 desc2 = true →
  run hs fl ctx [o1; Destroy 0; o2] (start d) = mkState d' [] [(h, desc2)].
Proof.
  intros E1 E2 Ec Eh Eq. unfold run. cbn [fold_left]. rewrite E1, E2.
  unfold get_unique, getCommandList, createCommandList, start. cbn [cache drv in_use find_entry].
  rewrite Ec. unfold ZE2UR_CALL_THROWS. rewrite decide_True by done. cbn -[hits desc_hash].
  assert (Hh : hits hs desc2 (mkEntry (desc_hash hs desc1) desc1 [h]) = true).
  { unfold hits. cbn [e_hash e_desc]. by rewrite Eh, Z.eqb_refl, Eq. }
  by rewrite Hh.
Qed.

(** ** A driver that satisfies the laws *)

Module TestDriver.
#[global] Instance driver : ZeDriver (gmap Z ze_request) := {
  ze_create m req := let h := fresh (dom m) in (<[h := req]> m, (ZE_RESULT_SUCCESS, h));
  ze_made m := m
}.

#[global] Instance driver_laws : ZeDriverLaws (gmap Z ze_request).
Proof.
  split; cbn.
  - intros d d' req h [= <- <-]. split; [|done]. apply not_elem_of_dom, is_fresh.
  - intros d d' req r h [= <- <- <-]. done.
Qed.

Definition hashes : std_hashes :=
  mkHashes (λ z, z) (λ b, if b then 1 else 0) (λ z, z) (λ z, z) (λ z, z)
    (λ o, match o with Some n => n | None => -3333 end).
Definition flags : ze_flags := mkFlags 2 1 4.
End TestDriver.

(** ** Theorems *)

(** C26: In every run of the cache, every command list that is out was created
    with the device, ordinal, order, mode, priority and index of the request
    it answers; no list is out twice or both out and cached; and every list
    the driver made is accounted for by the lists out and the two counters.
    Assumed: the driver's new handles are fresh, and [std::hash<uint32_t>] is
    injective (it is the identity in libstdc++). *)
Theorem cached_lists_sound {D} `{ZeDriver D} `{!ZeDriverLaws D} hs fl ctx (d : D) ops
  (inj : ∀ a b, hash_u32 hs a = hash_u32 hs b → a = b)
  (nothing_made : ze_made d = ∅) :
  let s := run hs fl ctx ops (start d) in
  (∀ h desc, (h, desc) ∈ in_use s →
     ∃ desc', ze_made (drv s) !! h = Some (request_of fl ctx desc') ∧ norm desc' = norm desc) ∧
  NoDup ((in_use s).*1 ++ cached (cache s)) ∧
  (length (in_use s) + getNumImmediateCommandLists (cache s) +
     getNumRegularCommandLists (cache s))%nat = size (ze_made (drv s)).
Proof.
  intros s. destruct (inv_run hs fl ctx inj ops (start d) (inv_start hs fl ctx d nothing_made))
    as [_ Hu Ha]. fold s in Hu, Ha. split_and!.
  - intros h desc Hin. by apply (proj1 (Forall_forall _ _) Hu) in Hin.
  - rewrite Ha. apply NoDup_fst_map_to_list.
  - rewrite <-Nat.add_assoc, count_lists_cached, <-(length_fmap fst (in_use s)), <-length_app, Ha.
    by rewrite length_fmap, length_map_to_list.
Qed.

Example cached_lists_sound_witness :
  in_use (run TestDriver.hashes TestDriver.flags 9
      [GetImmediate 1 true 0 true 1 0 None; GetRegular 1 true 0 true; Destroy 1;
       GetImmediate 1 true 2 true 1 0 None] (start (∅ : gmap Z ze_request))) =
    [(2, Imm (mkImm 1 true 2 true 1 0 None)); (1, Reg (mkReg 1 true 0 true))] ∧
  NoDup ((in_use (run TestDriver.hashes TestDriver.flags 9
      [GetImmediate 1 true 0 true 1 0 None; GetRegular 1 true 0 true; Destroy 1;
       GetImmediate 1 true 2 true 1 0 None] (start (∅ : gmap Z ze_request)))).*1).
Proof.
  destruct (cached_lists_sound TestDriver.hashes TestDriver.flags 9 (∅ : gmap Z ze_request)
      [GetImmediate 1 true 0 true 1 0 None; GetRegular 1 true 0 true; Destroy 1;
       GetImmediate 1 true 2 true 1 0 None]) as (_ & Hd & _); [done|done|].
  split; [|by apply NoDup_app in Hd as [? _]].
  vm_compute. reflexivity.
Defined.

(** The copy-offload setting is not part of the key: a list created with one
    setting, once returned, answers a request for the other setting, without
    asking the driver. *)
Theorem copy_offload_ignored {D} `{ZeDriver D} hs fl ctx (d d' : D) dev io ord b1 b2 m p i h
  (created : ze_create d (request_of fl ctx (Imm (mkImm dev io ord b1 m p i))) =
               (d', (ZE_RESULT_SUCCESS, h))) :
  run hs fl ctx [GetImmediate dev io ord b1 m p i; Destroy 0; GetImmediate dev io ord b2 m p i]
      (start d) =
    mkState d' [] [(h, Imm (mkImm dev io ord b2 m p i))].
Proof. eapply reuse_after_destroy; [done|done|done|done|]. by apply desc_eqb_norm. Qed.

Example copy_offload_ignored_witness :
  in_use (run TestDriver.hashes TestDriver.flags 9
      [GetImmediate 1 true 0 false 1 0 None; Destroy 0; GetImmediate 1 true 0 true 1 0 None]
      (start (∅ : gmap Z ze_request))) = [(0, Imm (mkImm 1 true 0 true 1 0 None))] ∧
  request_of TestDriver.flags 9 (Imm (mkImm 1 true 0 false 1 0 None)) =
    CreateImmediate 9 1 (mkQueue 0 1 0 2 0 false).
Proof.
  split; [|reflexivity].
  rewrite (copy_offload_ignored TestDriver.hashes TestDriver.flags 9 (∅ : gmap Z ze_request)
    (<[0 := CreateImmediate 9 1 (mkQueue 0 1 0 2 0 false)]> ∅) 1 true 0 false true 1 0 None 0);
    [reflexivity|vm_compute; reflexivity].
Defined.

(** [operator==] of immediate descriptors omits the ordinal although the hash
    includes it: where two ordinals have equal hashes, a list of one command
    queue group answers a request for the other. *)
Theorem ordinal_only_in_hash {D} `{ZeDriver D} hs fl ctx (d d' : D) dev io o1 o2 b m p i h
  (created : ze_create d (request_of fl ctx (Imm (mkImm dev io o1 b m p i))) =
               (d', (ZE_RESULT_SUCCESS, h)))
  (collide : hash_u32 hs o1 = hash_u32 hs o2) :
  run hs fl ctx [GetImmediate dev io o1 b m p i; Destroy 0; GetImmediate dev io o2 b m p i]
      (start d) =
    mkState d' [] [(h, Imm (mkImm dev io o2 b m p i))].
Proof.
  eapply reuse_after_destroy; [done|done|done|cbn; by rewrite collide|].
  by apply (desc_eqb_norm (Imm (mkImm dev io o1 b m p i)) (Imm (mkImm dev io o1 b m p i))).
Qed.

Example ordinal_only_in_hash_witness :
  in_use (run (mkHashes (λ z, z) (λ _, 0) (λ z, z mod 2) (λ z, z) (λ z, z) (λ _, 0))
      TestDriver.flags 9
      [GetImmediate 1 true 0 true 1 0 None; Destroy 0; GetImmediate 1 true 2 true 1 0 None]
      (start (∅ : gmap Z ze_request))) = [(0, Imm (mkImm 1 true 2 true 1 0 None))].
Proof.
  rewrite (ordinal_only_in_hash (mkHashes (λ z, z) (λ _, 0) (λ z, z mod 2) (λ z, z) (λ z, z)
      (λ _, 0)) TestDriver.flags 9 (∅ : gmap Z ze_request)
    (<[0 := CreateImmediate 9 1 (mkQueue 0 1 0 2 0 true)]> ∅) 1 true 0 2 true 1 0 None 0);
    [reflexivity|vm_compute; reflexivity|reflexivity].
Defined.
