(* ===== verification/L0Event.v ===== *)
(** * L0Event: level_zero/v2/event.cpp and what it uses

    Event timestamps, event objects and the ownership of their Level Zero
    events (v2/event.cpp, v2/common.hpp), the device clock (level_zero/
    device.cpp, device.hpp) and the scalar [getInfo] helpers of ur/ur.hpp.
    Assertions are those of a release build: they are not evaluated.  The
    results of the driver and of the queue's device query are arguments. *)
From S2P Require Import Prelude UrUtil CommandListCache.

(** ** Info queries: ur/ur.hpp *)

(** What the caller passes: the size of its buffer, whether the value pointer
    and the size pointer are non-null. *)
Record info_args := mkArgs { param_value_size : Z; has_value : bool; has_size_ret : bool }.

(** What a query writes through the two pointers. *)
Record info_out := mkOut { out_value : option Z; out_size : option Z }.
Definition no_out : info_out := mkOut None None.

Definition getInfoImpl (a : info_args) (value value_size : Z) : ur_result_t * info_out :=
  if negb (has_value a) && negb (has_size_ret a) then (UR_RESULT_ERROR_INVALID_NULL_POINTER, no_out)
  else if has_value a && (param_value_size a <? value_size) then
    (UR_RESULT_ERROR_INVALID_SIZE, no_out)
  else (UR_RESULT_SUCCESS,
        mkOut (if has_value a then Some value else None)
              (if has_size_ret a then Some value_size else None)).

(** [returnValue] of an 8-byte and of a 4-byte scalar. *)
Definition return_u64 (a : info_args) (v : Z) := getInfoImpl a v 8.
Definition return_u32 (a : info_args) (v : Z) := getInfoImpl a v 4.

(** ** Device clock *)

Record device_props := mkDev { timerResolution : Z; kernelTimestampValidBits : Z }.

(** A shift by the width or more would be undefined; the assertion bounds it. *)
Definition getTimestampMask (dev : device_props) : Z :=
  if kernelTimestampValidBits dev =? 64 then 2 ^ 64 - 1
  else w64 (w64 (Z.shiftl 1 (kernelTimestampValidBits dev)) - 1).

(** [clock] is the answer of [zeDeviceGetGlobalTimestamps]. *)
Definition urDeviceGetGlobalTimestamps (dev : device_props) (clock : ze_result_t * Z)
  : ur_result_t * Z :=
  if decide (clock.1 = ZE_RESULT_SUCCESS) then
    (UR_RESULT_SUCCESS, w64 (Z.land clock.2 (getTimestampMask dev) * timerResolution dev))
  else (ze2urResult clock.1, 0).

(** ** Timestamps *)

Definition adjustEndEventTimestamp
    (adjustedStartTimestamp endTimestamp timestampMaxValue timerResolution : Z) : Z :=
  let adjustedTimestamp := w64 (Z.land endTimestamp timestampMaxValue * timerResolution) in
  if adjustedTimestamp <? adjustedStartTimestamp then
    w64 (adjustedTimestamp + w64 (timestampMaxValue * timerResolution))
  else adjustedTimestamp.

Record event_profiling_data_t := mkProf {
  prof_hZeEvent : Z;
  adjustedEventStartTimestamp : Z;
  recordEventEndTimestamp : Z;
  adjustedEventEndTimestamp : Z;
  zeTimerResolution : Z;
  timestampMaxValue : Z
}.

Definition new_profiling_data (hZeEvent : Z) : event_profiling_data_t :=
  mkProf hZeEvent 0 0 0 0 0.

Definition recordingStarted (p : event_profiling_data_t) : bool :=
  negb (adjustedEventStartTimestamp p =? 0).
Definition recordingEnded (p : event_profiling_data_t) : bool :=
  negb (adjustedEventEndTimestamp p =? 0).

Section driver.
(** [zeEventQueryStatus] *)
Variable status : Z → ze_result_t.

Definition getEventEndTimestamp (p : event_profiling_data_t) : Z * event_profiling_data_t :=
  if negb (adjustedEventEndTimestamp p =? 0) then (adjustedEventEndTimestamp p, p)
  else if decide (status (prof_hZeEvent p) ≠ ZE_RESULT_SUCCESS) then (0, p)
  else
    let t := adjustEndEventTimestamp (adjustedEventStartTimestamp p) (recordEventEndTimestamp p)
               (timestampMaxValue p) (zeTimerResolution p) in
    (t, mkProf (prof_hZeEvent p) (adjustedEventStartTimestamp p) (recordEventEndTimestamp p) t
          (zeTimerResolution p) (timestampMaxValue p)).

(** The members set before a throw keep their new values. *)
Definition recordStartTimestamp (dev : device_props) (clock : ze_result_t * Z)
    (p : event_profiling_data_t) : event_profiling_data_t * outcome unit :=
  let q start := mkProf (prof_hZeEvent p) start (recordEventEndTimestamp p)
                   (adjustedEventEndTimestamp p) (timerResolution dev) (getTimestampMask dev) in
  let '(r, deviceStartTimestamp) := urDeviceGetGlobalTimestamps dev clock in
  if decide (r = UR_RESULT_SUCCESS) then (q deviceStartTimestamp, Ret tt)
  else (q (adjustedEventStartTimestamp p), Throw (Exn_ur r)).

(** ** Handle wrappers: v2/common.hpp *)

Record ze_handle_wrapper := mkWrap { handle : Z; ownZeHandle : bool }.

(** [destroy] of the handle type. *)
Variable destroy : Z → ze_result_t.

(** The handles given to [destroy], and the wrapper or what is thrown. *)
Definition wrapper_reset (w : ze_handle_wrapper) : list Z * outcome ze_handle_wrapper :=
  if handle w =? 0 then ([], Ret w)
  else if ownZeHandle w then
    let zeResult := destroy (handle w) in
    ([handle w],
     if decide (zeResult ≠ ZE_RESULT_SUCCESS ∧ zeResult ≠ ZE_RESULT_ERROR_UNINITIALIZED) then
       Throw (Exn_ur (ze2urResult zeResult))
     else Ret (mkWrap 0 (ownZeHandle w)))
  else ([], Ret (mkWrap 0 (ownZeHandle w))).

Definition wrapper_release (w : ze_handle_wrapper) : (Z * bool) * ze_handle_wrapper :=
  ((handle w, ownZeHandle w), mkWrap 0 (ownZeHandle w)).

(** The destructor swallows what [reset] throws. *)
Definition wrapper_destructor (w : ze_handle_wrapper) : list Z := (wrapper_reset w).1.
End driver.

(** ** Event objects *)

Definition EVENT_FLAGS_COUNTER : Z := 1.
Definition EVENT_FLAGS_PROFILING_ENABLED : Z := 2.
Definition UR_COMMAND_FORCE_UINT32 : Z := 2147483647.

(** A borrowed event of a provider, or a native handle. *)
Inductive event_variant :=
| Borrowed (e : Z)
| NativeEvent (w : ze_handle_wrapper).

(** [event_pool] is whether the pointer is non-null. *)
Record ur_event_handle_t_ := mkEvent {
  hContext : Z;
  event_pool : bool;
  hZeEvent : event_variant;
  hQueue : Z;
  commandType : Z;
  flags : Z;
  profilingData : event_profiling_data_t;
  RefCount : Z
}.

(** [std::get] of the wrong alternative throws. *)
Definition getZeEvent_of (pool : bool) (v : event_variant) : outcome Z :=
  match pool, v with
  | true, Borrowed e => Ret e
  | false, NativeEvent w => Ret (handle w)
  | _, _ => Throw Exn_other
  end.

Definition getZeEvent (ev : ur_event_handle_t_) : outcome Z :=
  getZeEvent_of (event_pool ev) (hZeEvent ev).

(** The private constructor. *)
Definition new_event (hContext : Z) (v : event_variant) (flags : Z) (pool : bool)
  : outcome ur_event_handle_t_ :=
  e ← getZeEvent_of pool v;
  Ret (mkEvent hContext pool v 0 UR_COMMAND_FORCE_UINT32 flags (new_profiling_data e) 1).

(** The constructor from a native handle; [pProperties] is its ownership flag. *)
Definition new_native_event (hContext hNativeEvent : Z) (pProperties : option bool)
  : outcome ur_event_handle_t_ :=
  new_event hContext
    (NativeEvent (mkWrap hNativeEvent (match pProperties with Some b => b | None => false end)))
    EVENT_FLAGS_PROFILING_ENABLED false.

Definition set_profilingData (p : event_profiling_data_t) (ev : ur_event_handle_t_) :=
  mkEvent (hContext ev) (event_pool ev) (hZeEvent ev) (hQueue ev) (commandType ev) (flags ev) p
    (RefCount ev).
Definition set_RefCount (n : Z) (ev : ur_event_handle_t_) :=
  mkEvent (hContext ev) (event_pool ev) (hZeEvent ev) (hQueue ev) (commandType ev) (flags ev)
    (profilingData ev) n.

Definition resetQueueAndCommand (hQueue commandType : Z) (ev : ur_event_handle_t_)
  : outcome ur_event_handle_t_ :=
  e ← getZeEvent ev;
  Ret (mkEvent (hContext ev) (event_pool ev) (hZeEvent ev) hQueue commandType (flags ev)
         (new_profiling_data e) (RefCount ev)).

(** The events [reset] passes to [zeEventHostReset]. *)
Definition reset (ev : ur_event_handle_t_) : outcome (list Z) :=
  if Z.land (flags ev) EVENT_FLAGS_COUNTER =? 0 then e ← getZeEvent ev; Ret [e] else Ret [].

Definition retain (ev : ur_event_handle_t_) : ur_result_t * ur_event_handle_t_ :=
  (UR_RESULT_SUCCESS, set_RefCount (w32 (RefCount ev + 1)) ev).

Definition isTimestamped (ev : ur_event_handle_t_) : bool := recordingStarted (profilingData ev).
Definition isProfilingEnabled (ev : ur_event_handle_t_) : bool :=
  negb (Z.land (flags ev) EVENT_FLAGS_PROFILING_ENABLED =? 0).

(** [release]: the reference is dropped; the event stays, waits in its queue
    for its end timestamp, or is released. *)
Inductive release_action := Kept | Deferred | Forced.

Definition release (status : Z → ze_result_t) (ev : ur_event_handle_t_)
  : ur_event_handle_t_ * release_action :=
  let ev := set_RefCount (w32 (RefCount ev - 1)) ev in
  if negb (RefCount ev =? 0) then (ev, Kept)
  else if isTimestamped ev then
    let '(t, p) := getEventEndTimestamp status (profilingData ev) in
    (set_profilingData p ev, if t =? 0 then Deferred else Forced)
  else (ev, Forced).

(** [forceRelease] of an event without a pool: what [delete this] destroys. *)
Definition forceRelease_native (destroy : Z → ze_result_t) (ev : ur_event_handle_t_)
  : outcome (list Z) :=
  match hZeEvent ev with
  | NativeEvent w =>
      let '(_, w) := wrapper_release w in Ret (wrapper_destructor destroy w)
  | Borrowed _ => Throw Exn_other
  end.

(** ** Entry points *)

(** [catch (...)] around a body. *)
Definition guarded {A} (handler : ur_result_t → A) (o : outcome A) : outcome A :=
  match o with Throw e => Ret (handler (exceptionToResult (Some e))) | _ => o end.

Inductive ur_event_info_t :=
| UR_EVENT_INFO_COMMAND_QUEUE | UR_EVENT_INFO_CONTEXT | UR_EVENT_INFO_COMMAND_TYPE
| UR_EVENT_INFO_COMMAND_EXECUTION_STATUS | UR_EVENT_INFO_REFERENCE_COUNT
| UR_EVENT_INFO_OTHER.

Definition UR_EVENT_STATUS_COMPLETE : Z := 0.
Definition UR_EVENT_STATUS_SUBMITTED : Z := 2.

Definition urEventGetInfo (status : Z → ze_result_t) (hEvent : ur_event_handle_t_)
    (propName : ur_event_info_t) (a : info_args) : outcome (ur_result_t * info_out) :=
  match propName with
  | UR_EVENT_INFO_COMMAND_EXECUTION_STATUS =>
      e ← getZeEvent hEvent;
      Ret (return_u32 a (if decide (status e = ZE_RESULT_NOT_READY) then UR_EVENT_STATUS_SUBMITTED
                         else UR_EVENT_STATUS_COMPLETE))
  | UR_EVENT_INFO_REFERENCE_COUNT => Ret (return_u32 a (RefCount hEvent))
  | UR_EVENT_INFO_COMMAND_QUEUE => Ret (return_u64 a (hQueue hEvent))
  | UR_EVENT_INFO_CONTEXT => Ret (return_u64 a (hContext hEvent))
  | UR_EVENT_INFO_COMMAND_TYPE => Ret (return_u32 a (commandType hEvent))
  | UR_EVENT_INFO_OTHER => Ret (UR_RESULT_ERROR_INVALID_VALUE, no_out)
  end.

Inductive ur_profiling_info_t :=
| UR_PROFILING_INFO_COMMAND_QUEUED | UR_PROFILING_INFO_COMMAND_SUBMIT
| UR_PROFILING_INFO_COMMAND_START | UR_PROFILING_INFO_COMMAND_END
| UR_PROFILING_INFO_COMMAND_COMPLETE | UR_PROFILING_INFO_OTHER.

(** [device] is what the queue answers for its device, [timestamps] the start
    and end ticks of [zeEventQueryKernelTimestamp]. *)
Definition urEventGetProfilingInfo (status : Z → ze_result_t) (device : ur_result_t * device_props)
    (timestamps : Z → ze_result_t * (Z * Z)) (hEvent : ur_event_handle_t_)
    (propName : ur_profiling_info_t) (a : info_args)
  : outcome (ur_event_handle_t_ * (ur_result_t * info_out)) :=
  guarded (λ r, (hEvent, (r, no_out))) (
  if negb (isProfilingEnabled hEvent) && negb (isTimestamped hEvent) then
    Ret (hEvent, (UR_RESULT_ERROR_PROFILING_INFO_NOT_AVAILABLE, no_out))
  else if isTimestamped hEvent then
    match propName with
    | UR_PROFILING_INFO_COMMAND_QUEUED | UR_PROFILING_INFO_COMMAND_SUBMIT =>
        Ret (hEvent, return_u64 a (adjustedEventStartTimestamp (profilingData hEvent)))
    | UR_PROFILING_INFO_COMMAND_END | UR_PROFILING_INFO_COMMAND_START
    | UR_PROFILING_INFO_COMMAND_COMPLETE =>
        let '(t, p) := getEventEndTimestamp status (profilingData hEvent) in
        Ret (set_profilingData p hEvent, return_u64 a t)
    | UR_PROFILING_INFO_OTHER => Ret (hEvent, (UR_RESULT_ERROR_INVALID_VALUE, no_out))
    end
  else if hQueue hEvent =? 0 then
    Ret (hEvent, (UR_RESULT_ERROR_PROFILING_INFO_NOT_AVAILABLE, no_out))
  else if decide (device.1 ≠ UR_RESULT_SUCCESS) then Throw (Exn_ur device.1)
  else
    let zeTimerResolution := timerResolution device.2 in
    let timestampMaxValue := getTimestampMask device.2 in
    match propName with
    | UR_PROFILING_INFO_COMMAND_START =>
        e ← getZeEvent hEvent;
        let '(r, (kernelStart, _)) := timestamps e in
        if decide (r ≠ ZE_RESULT_SUCCESS) then Ret (hEvent, (ze2urResult r, no_out))
        else Ret (hEvent,
               return_u64 a (w64 (Z.land kernelStart timestampMaxValue * zeTimerResolution)))
    | UR_PROFILING_INFO_COMMAND_END | UR_PROFILING_INFO_COMMAND_COMPLETE =>
        e ← getZeEvent hEvent;
        let '(r, (kernelStart, kernelEnd)) := timestamps e in
        if decide (r ≠ ZE_RESULT_SUCCESS) then Ret (hEvent, (ze2urResult r, no_out))
        else
          let contextStartTime := Z.land kernelStart timestampMaxValue in
          Ret (hEvent, return_u64 a (adjustEndEventTimestamp contextStartTime kernelEnd
                                       timestampMaxValue zeTimerResolution))
    | UR_PROFILING_INFO_COMMAND_QUEUED | UR_PROFILING_INFO_COMMAND_SUBMIT =>
        Ret (hEvent, return_u64 a 0)
    | UR_PROFILING_INFO_OTHER => Ret (hEvent, (UR_RESULT_ERROR_INVALID_VALUE, no_out))
    end).

(** [urEventWait]: [sync] is [zeEventHostSynchronize] without a time-out. *)
Fixpoint wait_all (sync : Z → ze_result_t) (phEventWaitList : list ur_event_handle_t_)
  : outcome ur_result_t :=
  match phEventWaitList with
  | [] => Ret UR_RESULT_SUCCESS
  | ev :: l =>
      e ← getZeEvent ev;
      if decide (sync e ≠ ZE_RESULT_SUCCESS) then Ret (ze2urResult (sync e)) else wait_all sync l
  end.

Definition urEventWait (sync : Z → ze_result_t) (phEventWaitList : list ur_event_handle_t_)
  : outcome ur_result_t := guarded id (wait_all sync phEventWaitList).

(** ** Lemmas *)

Lemma getTimestampMask_ones dev :
  0 ≤ kernelTimestampValidBits dev ≤ 64 →
  getTimestampMask dev = Z.ones (kernelTimestampValidBits dev).
Proof.
  intros Hb. unfold getTimestampMask. rewrite Z.ones_equiv, <-Z.sub_1_r.
  destruct (Z.eqb_spec (kernelTimestampValidBits dev) 64) as [->|Hn]; [done|].
  rewrite Z.shiftl_1_l. unfold w64.
  pose proof (Z.pow_lt_mono_r 2 (kernelTimestampValidBits dev) 64 ltac:(lia) ltac:(lia) ltac:(lia)).
  pose proof (Z.pow_pos_nonneg 2 (kernelTimestampValidBits dev) ltac:(lia) ltac:(lia)).
  rewrite (Z.mod_small (2 ^ kernelTimestampValidBits dev)) by lia. apply Z.mod_small. lia.
Qed.

Lemma land_mask dev t :
  0 ≤ kernelTimestampValidBits dev ≤ 64 →
  Z.land t (getTimestampMask dev) = t mod 2 ^ kernelTimestampValidBits dev.
Proof. intros Hb. rewrite getTimestampMask_ones by done. apply Z.land_ones. lia. Qed.

(** Two ticks less than a period apart. *)
Lemma mod_distance s e N :
  0 < N → s ≤ e < s + N →
  e - s = e mod N - s mod N + (if s mod N <=? e mod N then 0 else N).
Proof.
  intros HN Hse. pose proof (Z.div_mod s N ltac:(lia)). pose proof (Z.div_mod e N ltac:(lia)).
  pose proof (Z.mod_pos_bound s N HN). pose proof (Z.mod_pos_bound e N HN).
  assert (s / N ≤ e / N) by (apply Z.div_le_mono; lia).
  assert (e / N ≤ s / N + 1).
  { rewrite <-(Z_div_plus s 1 N), Z.mul_1_l by lia. apply Z.div_le_mono; lia. }
  destruct (Z.leb_spec (s mod N) (e mod N)).
  - assert (e / N = s / N) by nia. lia.
  - assert (e / N = s / N + 1) by nia. lia.
Qed.

(** ** Theorems *)

(** The duration reported for a timestamped event is exact when the device
    counter did not wrap between the start and the end, and one tick short when
    it did: [s] and [e] are the true tick counts, less than a counter period
    apart, and twice the period fits 64 bits of nanoseconds. *)
Theorem event_duration status dev s e p q
  (bits : 0 ≤ kernelTimestampValidBits dev ≤ 64)
  (resolution : 0 < timerResolution dev)
  (fits : 2 * 2 ^ kernelTimestampValidBits dev * timerResolution dev ≤ 2 ^ 64)
  (span : s ≤ e < s + 2 ^ kernelTimestampValidBits dev)
  (started : recordStartTimestamp dev (ZE_RESULT_SUCCESS, s) p = (q, Ret tt))
  (written : recordEventEndTimestamp p = e)
  (fresh : adjustedEventEndTimestamp p = 0)
  (signaled : status (prof_hZeEvent p) = ZE_RESULT_SUCCESS) :
  (getEventEndTimestamp status q).1 =
    adjustedEventStartTimestamp q + (e - s) * timerResolution dev -
    (if s mod 2 ^ kernelTimestampValidBits dev <=? e mod 2 ^ kernelTimestampValidBits dev
     then 0 else timerResolution dev).
Proof.
  unfold recordStartTimestamp, urDeviceGetGlobalTimestamps in started. cbn in started.
  injection started as <-. unfold getEventEndTimestamp. cbn.
  rewrite fresh, signaled. cbn. rewrite decide_False by (by intros []). cbn.
  unfold adjustEndEventTimestamp. rewrite !land_mask by done.
  rewrite getTimestampMask_ones, Z.ones_equiv, <-Z.sub_1_r, written by done.
  set (N := 2 ^ kernelTimestampValidBits dev) in *. set (r := timerResolution dev) in *.
  assert (0 < N) by (apply Z.pow_pos_nonneg; lia).
  rewrite (mod_distance s e N) by lia.
  pose proof (Z.mod_pos_bound s N ltac:(lia)). pose proof (Z.mod_pos_bound e N ltac:(lia)).
  unfold w64. rewrite (Z.mod_small (s mod N * r)), (Z.mod_small (e mod N * r)) by nia.
  generalize dependent (s mod N). generalize dependent (e mod N). intros E HE S HS.
  destruct (Z.leb_spec S E).
  - assert (S * r ≤ E * r) by (apply Z.mul_le_mono_nonneg_r; lia).
    destruct (Z.ltb_spec (E * r) (S * r)); lia.
  - assert (E * r < S * r) by (apply Z.mul_lt_mono_pos_r; lia).
    destruct (Z.ltb_spec (E * r) (S * r)); [|lia].
    rewrite (Z.mod_small ((N - 1) * r)), Z.mod_small by nia. lia.
Qed.

(** A 32-bit counter of 80 ns ticks that wraps during a 51-tick command. *)
Example event_duration_witness :
  (getEventEndTimestamp (λ _, ZE_RESULT_SUCCESS)
     (mkProf 5 (4294967290 * 80) 4294967341 0 80 4294967295)).1 =
  4294967290 * 80 + (4294967341 - 4294967290) * 80 - 80.
Proof.
  apply (event_duration (λ _, ZE_RESULT_SUCCESS) (mkDev 80 32) 4294967290 4294967341
    (mkProf 5 0 4294967341 0 0 0)); vm_compute; try reflexivity; try done.
Defined.

(** The wrap of the counter goes unnoticed in [urEventGetProfilingInfo]: the
    start it compares with is in ticks and the end in nanoseconds, so the end it
    reports can precede the start it reports. *)
Theorem profiling_end_before_start status dev timestamps ev ks ke
  (profiling : isProfilingEnabled ev = true)
  (untimed : isTimestamped ev = false)
  (queued : hQueue ev ≠ 0)
  (pooled : ∃ e, getZeEvent ev = Ret e ∧ timestamps e = (ZE_RESULT_SUCCESS, (ks, ke)))
  (bits : 0 ≤ kernelTimestampValidBits dev ≤ 64)
  (resolution : 0 < timerResolution dev)
  (fits : 2 ^ kernelTimestampValidBits dev * timerResolution dev ≤ 2 ^ 64)
  (wrapped : ke mod 2 ^ kernelTimestampValidBits dev < ks mod 2 ^ kernelTimestampValidBits dev)
  (late : ks mod 2 ^ kernelTimestampValidBits dev ≤
            ke mod 2 ^ kernelTimestampValidBits dev * timerResolution dev) :
  ∃ start_ns end_ns, end_ns < start_ns ∧
    urEventGetProfilingInfo status (UR_RESULT_SUCCESS, dev) timestamps ev
        UR_PROFILING_INFO_COMMAND_START (mkArgs 8 true false) =
      Ret (ev, (UR_RESULT_SUCCESS, mkOut (Some start_ns) None)) ∧
    urEventGetProfilingInfo status (UR_RESULT_SUCCESS, dev) timestamps ev
        UR_PROFILING_INFO_COMMAND_END (mkArgs 8 true false) =
      Ret (ev, (UR_RESULT_SUCCESS, mkOut (Some end_ns) None)).
Proof.
  destruct pooled as (e & He & Ht).
  unfold urEventGetProfilingInfo. rewrite profiling, untimed. cbn.
  destruct (Z.eqb_spec (hQueue ev) 0) as [?|_]; [done|]. rewrite He. cbn. rewrite Ht. cbn.
  unfold adjustEndEventTimestamp. rewrite !land_mask by done.
  set (N := 2 ^ kernelTimestampValidBits dev) in *. set (r := timerResolution dev) in *.
  assert (0 < N) by (apply Z.pow_pos_nonneg; lia).
  pose proof (Z.mod_pos_bound ks N ltac:(lia)). pose proof (Z.mod_pos_bound ke N ltac:(lia)).
  unfold w64. rewrite (Z.mod_small (ks mod N * r)), (Z.mod_small (ke mod N * r)) by nia.
  destruct (Z.ltb_spec (ke mod N * r) (ks mod N)); [lia|].
  eexists _, _. split_and!; [|done|done]. nia.
Qed.

Example profiling_end_before_start_witness :
  ∃ start_ns end_ns, end_ns < start_ns ∧
    urEventGetProfilingInfo (λ _, ZE_RESULT_SUCCESS) (UR_RESULT_SUCCESS, mkDev 80 32)
        (λ _, (ZE_RESULT_SUCCESS, (100, 4294967346)))
        (mkEvent 1 true (Borrowed 5) 7 0 2 (new_profiling_data 5) 1)
        UR_PROFILING_INFO_COMMAND_START (mkArgs 8 true false) =
      Ret (mkEvent 1 true (Borrowed 5) 7 0 2 (new_profiling_data 5) 1,
           (UR_RESULT_SUCCESS, mkOut (Some start_ns) None)) ∧
    urEventGetProfilingInfo (λ _, ZE_RESULT_SUCCESS) (UR_RESULT_SUCCESS, mkDev 80 32)
        (λ _, (ZE_RESULT_SUCCESS, (100, 4294967346)))
        (mkEvent 1 true (Borrowed 5) 7 0 2 (new_profiling_data 5) 1)
        UR_PROFILING_INFO_COMMAND_END (mkArgs 8 true false) =
      Ret (mkEvent 1 true (Borrowed 5) 7 0 2 (new_profiling_data 5) 1,
           (UR_RESULT_SUCCESS, mkOut (Some end_ns) None)).
Proof.
  apply (profiling_end_before_start (λ _, ZE_RESULT_SUCCESS) (mkDev 80 32)
    (λ _, (ZE_RESULT_SUCCESS, (100, 4294967346)))
    (mkEvent 1 true (Borrowed 5) 7 0 2 (new_profiling_data 5) 1) 100 4294967346);
    try reflexivity; try (vm_compute; done).
  - exists 5. done.
Defined.

(** A native event whose handle the runtime owns is never destroyed: the
    last release takes the handle out of its wrapper before the wrapper's
    destructor runs. *)
Theorem owned_native_event_leaks destroy status hContext h :
  ∃ ev ev', new_native_event hContext h (Some true) = Ret ev ∧
    release status ev = (ev', Forced) ∧ forceRelease_native destroy ev' = Ret [].
Proof. eexists _, _. split_and!; done. Qed.
