(* ===== verification/EventPool.v ===== *)
(** * EventPool: level_zero/v2 event providers and pools

    event_provider.hpp (the interface, a class here), event_provider_normal.cpp,
    event_provider_counter.cpp, event_pool.cpp, event_pool_cache.cpp, and the
    event operations that go through a pool (event.cpp, getSignalEvent of
    command_list_manager.cpp, queueFinish and deferEventFree of
    queue_immediate_in_order.cpp).  The Level Zero driver and the order
    [std::sort] gives to equal elements are parameters.  Vectors used as stacks
    are lists with the back first. *)
From S2P Require Import Prelude UrUtil CommandListCache L0Event.

Inductive queue_type := QUEUE_REGULAR | QUEUE_IMMEDIATE.

(** [ze_event_pool_desc_t] with the flags it sets: host visible, kernel
    timestamps, and the counter-based extension for a kind of queue. *)
Record pool_request := mkPoolRequest {
  count : nat; host_visible : bool; kernel_timestamp : bool; counter_based : option queue_type
}.

(** The driver's event functions, its state, and the events that exist. *)
Class ZeEvents (D : Type) := {
  zeEventPoolCreate : D → pool_request → D * (ze_result_t * Z);
  zeEventCreate : D → Z → nat → D * (ze_result_t * Z);
  zexCounterBasedEventCreate : D → D * (ze_result_t * Z);
  zeEventDestroy : D → Z → D * ze_result_t;
  zeEventPoolDestroy : D → Z → D * ze_result_t;
  ze_live : D → gset Z
}.

(** New events are new non-null handles; destroying one leaves the others. *)
Class ZeEventsLaws (D : Type) `{ZeEvents D} := {
  pool_create_live : ∀ (d : D) req, ze_live (zeEventPoolCreate d req).1 = ze_live d;
  pool_destroy_live : ∀ (d : D) p, ze_live (zeEventPoolDestroy d p).1 = ze_live d;
  event_create_ok : ∀ (d d' : D) p i h, zeEventCreate d p i = (d', (ZE_RESULT_SUCCESS, h)) →
    h ≠ 0 ∧ (h ∉ ze_live d) ∧ ze_live d' = {[h]} ∪ ze_live d;
  event_create_fail : ∀ (d d' : D) p i r h, zeEventCreate d p i = (d', (r, h)) →
    r ≠ ZE_RESULT_SUCCESS → ze_live d' = ze_live d;
  counter_create_ok : ∀ (d d' : D) h, zexCounterBasedEventCreate d = (d', (ZE_RESULT_SUCCESS, h)) →
    h ≠ 0 ∧ (h ∉ ze_live d) ∧ ze_live d' = {[h]} ∪ ze_live d;
  counter_create_fail : ∀ (d d' : D) r h, zexCounterBasedEventCreate d = (d', (r, h)) →
    r ≠ ZE_RESULT_SUCCESS → ze_live d' = ze_live d;
  event_destroy_live : ∀ (d : D) h, ze_live d ∖ {[h]} ⊆ ze_live (zeEventDestroy d h).1
}.

(** ** The interface: [event_provider]

    [outstanding] are the events that were allocated and not returned. *)
Class EventProvider (P : Type) := {
  provider_allocate : P → P * outcome Z;
  eventFlags : P → Z;
  outstanding : P → list Z;
  provider_wf : P → Prop
}.

(** What a client may rely on: an allocation hands out an event that is not
    out, or throws and hands out nothing; flags are fixed. *)
Definition allocation_ok (out out' : list Z) (o : outcome Z) : Prop :=
  match o with
  | Ret e => (e ∉ out) ∧ out' ≡ₚ e :: out
  | Throw _ => out' ≡ₚ out
  | Undef => False
  end.

Class EventProviderLaws (P : Type) `{EventProvider P} := {
  provider_allocate_ok : ∀ (p : P), provider_wf p →
    let '(p', o) := provider_allocate p in
    provider_wf p' ∧ eventFlags p' = eventFlags p ∧
    allocation_ok (outstanding p) (outstanding p') o;
  outstanding_NoDup : ∀ p : P, provider_wf p → NoDup (outstanding p)
}.

(** ** provider_counter *)

Section counter.
Context {D : Type} `{ZeEvents D}.

(** [cn_borrowed] are the events whose unique pointers are out; the handles
    translated by the constructor are the driver's business. *)
Record provider_counter := mkCounter {
  cn_drv : D; cn_freelist : list Z; cn_borrowed : list Z
}.

Definition provider_counter_allocate (p : provider_counter) : provider_counter * outcome Z :=
  match cn_freelist p with
  | e :: fl => (mkCounter (cn_drv p) fl (e :: cn_borrowed p), Ret e)
  | [] =>
      let '(d, (r, handle)) := zexCounterBasedEventCreate (cn_drv p) in
      match ZE2UR_CALL_THROWS r handle with
      | Ret e => (mkCounter d [] (e :: cn_borrowed p), Ret e)
      | Throw e => (mkCounter d [] (cn_borrowed p), Throw e)
      | Undef => (p, Undef)
      end
  end.

(** The deleter of a borrowed event. *)
Definition provider_counter_return (h : Z) (p : provider_counter) : provider_counter :=
  mkCounter (cn_drv p) (h :: cn_freelist p) (list_difference (cn_borrowed p) [h]).

Definition counter_wf (p : provider_counter) : Prop :=
  NoDup (cn_freelist p ++ cn_borrowed p) ∧
  ∀ h, h ∈ cn_freelist p ++ cn_borrowed p → h ∈ ze_live (cn_drv p).

#[export] Instance counter_provider : EventProvider provider_counter := {
  provider_allocate := provider_counter_allocate;
  eventFlags _ := EVENT_FLAGS_COUNTER;
  outstanding := cn_borrowed;
  provider_wf := counter_wf
}.

#[export] Instance counter_laws `{!ZeEventsLaws D} : EventProviderLaws provider_counter.
Proof.
  split; [|by intros p [(_&_&?)%NoDup_app _]].
  intros p [Hn Hl]. cbn. unfold provider_counter_allocate.
  destruct p as [d fl bo]; cbn in *. destruct fl as [|e fl]; cbn in *.
  - destruct (zexCounterBasedEventCreate d) as [d' [r h]] eqn:E.
    unfold ZE2UR_CALL_THROWS. case_decide as Hr; cbn.
    + subst r. apply counter_create_ok in E as (_ & Hh & Hd).
      assert (h ∉ bo) by (intros ?; by apply Hh, Hl).
      split_and!; [|done|done|done]. split; cbn; [by constructor|].
      rewrite Hd. intros h' [->|?]%elem_of_cons; [set_solver|]. apply elem_of_union_r. by apply Hl.
    + apply counter_create_fail in E; [|done]. split_and!; [|done|done]. split; cbn; [done|].
      by rewrite E.
  - apply NoDup_cons in Hn as [He Hn]. split_and!; [|done| |done].
    + split; cbn.
      * by rewrite <-Permutation_middle, NoDup_cons.
      * intros h Hh. apply Hl. rewrite elem_of_cons, elem_of_app in *.
        rewrite elem_of_cons in Hh. tauto.
    + intros ?. apply He, elem_of_app. by right.
Qed.
End counter.
Arguments provider_counter D : clear implicits.

(** ** provider_normal *)

Definition EVENTS_BURST : nat := 64.

(** A pool of Level Zero events: its address, its handle, the free events
    and those whose unique pointers are out. *)
Record provider_pool := mkPP {
  pp_id : Z; pp_pool : Z; pp_freelist : list Z; pp_borrowed : list Z
}.

Definition nfree (p : provider_pool) : nat := length (pp_freelist p).

(** Null when the pool is exhausted. *)
Definition provider_pool_allocate (p : provider_pool) : Z * provider_pool :=
  match pp_freelist p with
  | [] => (0, p)
  | e :: fl => (e, mkPP (pp_id p) (pp_pool p) fl (e :: pp_borrowed p))
  end.

(** The deleter of a borrowed event. *)
Definition provider_pool_return (handle : Z) (p : provider_pool) : provider_pool :=
  mkPP (pp_id p) (pp_pool p) (handle :: pp_freelist p) (list_difference (pp_borrowed p) [handle]).

(** What the code relies on of [std::sort]: a rearrangement, ascending in the
    comparison it is given. *)
Class SortsByFree (std_sort : list provider_pool → list provider_pool) := {
  std_sort_perm : ∀ l, std_sort l ≡ₚ l;
  std_sort_sorted : ∀ l, Sorted (λ a b, (nfree a ≤ nfree b)%nat) (std_sort l)
}.

Section normal.
Context {D : Type} `{ZeEvents D}.
Variable std_sort : list provider_pool → list provider_pool.

(** The descriptor the constructor of [provider_pool] fills in. *)
Definition pool_request_of (queue : queue_type) (flags : Z) : pool_request :=
  mkPoolRequest EVENTS_BURST true
    (negb (Z.land flags EVENT_FLAGS_PROFILING_ENABLED =? 0))
    (if negb (Z.land flags EVENT_FLAGS_COUNTER =? 0) then Some queue else None).

(** The loop that creates the events [i ... n-1], given those created. *)
Fixpoint create_events (n : nat) (i : nat) (pool : Z) (d : D) (created : list Z)
  : D * (list Z * outcome unit) :=
  match n with
  | O => (d, (created, Ret tt))
  | S n' =>
      let '(d, (r, h)) := zeEventCreate d pool i in
      match ZE2UR_CALL_THROWS r h with
      | Ret h => create_events n' (S i) pool d (h :: created)
      | Throw e => (d, (created, Throw e))
      | Undef => (d, (created, Undef))
      end
  end.

(** The destructors of the event wrappers, in the vector's order. *)
Definition destroy_events (created : list Z) (d : D) : D :=
  fold_left (λ d h, (zeEventDestroy d h).1) (reverse created) d.

(** The constructor of [provider_pool]; a throw unwinds what it made. *)
Definition provider_pool_new (id : Z) (queue : queue_type) (flags : Z) (d : D)
  : D * outcome provider_pool :=
  let '(d, (r, pool)) := zeEventPoolCreate d (pool_request_of queue flags) in
  match ZE2UR_CALL_THROWS r pool with
  | Ret pool =>
      let '(d, (created, o)) := create_events EVENTS_BURST 0 pool d [] in
      match o with
      | Ret _ => (d, Ret (mkPP id pool created []))
      | Throw e => ((zeEventPoolDestroy (destroy_events created d) pool).1, Throw e)
      | Undef => (d, Undef)
      end
  | Throw e => (d, Throw e)
  | Undef => (d, Undef)
  end.

Record provider_normal := mkNormal {
  queueType : queue_type; pn_flags : Z; pools : list provider_pool;
  next_id : Z; pn_drv : D
}.

Definition set_pools (l : list provider_pool) (p : provider_normal) : provider_normal :=
  mkNormal (queueType p) (pn_flags p) l (next_id p) (pn_drv p).

(** [createProviderPool] and [emplace_back]. *)
Definition createProviderPool (p : provider_normal) : provider_normal * outcome unit :=
  let '(d, o) := provider_pool_new (next_id p) (queueType p) (pn_flags p) (pn_drv p) in
  match o with
  | Ret pp => (mkNormal (queueType p) (pn_flags p) (pp :: pools p) (next_id p + 1) d, Ret tt)
  | Throw e => (mkNormal (queueType p) (pn_flags p) (pools p) (next_id p) d, Throw e)
  | Undef => (p, Undef)
  end.

(** An allocation from [pools.back()]; null when it is exhausted. *)
Definition allocate_back (l : list provider_pool) : Z * list provider_pool :=
  match l with
  | [] => (0, [])
  | b :: l' => let '(e, b) := provider_pool_allocate b in (e, b :: l')
  end.

(** Continue with the new state unless the step threw. *)
Definition and_then (x : provider_normal * outcome unit)
    (k : provider_normal → provider_normal * outcome Z) : provider_normal * outcome Z :=
  match x with
  | (p, Ret _) => k p
  | (p, Throw e) => (p, Throw e)
  | (p, Undef) => (p, Undef)
  end.

Definition sort_pools (l : list provider_pool) : list provider_pool :=
  reverse (std_sort (reverse l)).

(** [provider_normal::allocate]; it calls itself after making a pool. *)
Fixpoint provider_normal_allocate_fuel (fuel : nat) (p : provider_normal)
  : provider_normal * outcome Z :=
  match fuel with
  | O => (p, Undef)
  | S fuel' =>
      and_then (if decide (pools p = []) then createProviderPool p else (p, Ret tt)) (λ p,
        let '(event, l) := allocate_back (pools p) in
        if negb (event =? 0) then (set_pools l p, Ret event)
        else
          let '(event, l) := allocate_back (sort_pools (pools p)) in
          if negb (event =? 0) then (set_pools l p, Ret event)
          else and_then (createProviderPool (set_pools l p)) (provider_normal_allocate_fuel fuel'))
  end.

(** One nested call is enough: see [provider_normal_allocate_total]. *)
Definition provider_normal_allocate (p : provider_normal) : provider_normal * outcome Z :=
  provider_normal_allocate_fuel 2 p.

(** The deleter of an event of the pool [id]. *)
Definition provider_normal_return (id h : Z) (p : provider_normal) : provider_normal :=
  set_pools ((λ pp, if pp_id pp =? id then provider_pool_return h pp else pp) <$> pools p) p.

Definition free_events (l : list provider_pool) : list Z := l ≫= pp_freelist.
Definition borrowed_events (l : list provider_pool) : list Z := l ≫= pp_borrowed.

Definition normal_wf (p : provider_normal) : Prop :=
  NoDup (free_events (pools p) ++ borrowed_events (pools p)) ∧
  (∀ h, h ∈ free_events (pools p) ++ borrowed_events (pools p) → h ≠ 0 ∧ h ∈ ze_live (pn_drv p)) ∧
  ∀ pp, pp ∈ pools p → pp_id pp < next_id p.

#[export] Instance normal_provider : EventProvider provider_normal := {
  provider_allocate := provider_normal_allocate;
  eventFlags := pn_flags;
  outstanding p := borrowed_events (pools p);
  provider_wf := normal_wf
}.

(** *** Lemmas *)

Context `{!ZeEventsLaws D}.

Lemma create_events_ok n i pool d created d' cr o :
  create_events n i pool d created = (d', (cr, o)) →
  ∃ new, cr = new ++ created ∧ NoDup new ∧ ze_live d' = list_to_set new ∪ ze_live d ∧
    (∀ h, h ∈ new → h ≠ 0 ∧ h ∉ ze_live d) ∧
    match o with Ret _ => length new = n | Throw _ => True | Undef => False end.
Proof.
  revert i d created. induction n as [|n IH]; intros i d created; cbn.
  { intros [= <- <- <-]. exists []. split_and!; [done|constructor|set_solver|set_solver|done]. }
  destruct (zeEventCreate d pool i) as [d1 [r h]] eqn:E. unfold ZE2UR_CALL_THROWS.
  case_decide as Hr.
  - subst r. apply event_create_ok in E as (H0 & Hh & Hd).
    intros (new & -> & Hn & Hl & Hf & Ho)%IH.
    exists (new ++ [h]). rewrite <-app_assoc. split_and!; [done| | | |].
    + apply NoDup_app. split_and!; [done| |apply NoDup_singleton].
      intros x Hx%Hf Hxh%list_elem_of_singleton. subst x. set_solver.
    + rewrite Hl, Hd, list_to_set_app_L. set_solver.
    + intros x [Hx%Hf|Hx%list_elem_of_singleton]%elem_of_app; [|subst x]; set_solver.
    + destruct o; [|done..]. rewrite length_app. cbn. lia.
  - apply event_create_fail in E; [|done]. intros [= <- <- <-].
    exists []. split_and!; [done|constructor|set_solver|set_solver|done].
Qed.

Lemma destroy_events_live created d :
  ze_live d ∖ list_to_set created ⊆ ze_live (destroy_events created d).
Proof.
  unfold destroy_events.
  assert (E : (list_to_set created : gset Z) = list_to_set (reverse created)) by set_solver.
  rewrite E. clear E. generalize (reverse created) as l. clear created. intros l. revert d. induction l as [|h l IH]; intros d; cbn; [set_solver|].
  etransitivity; [|apply IH]. pose proof (event_destroy_live d h). set_solver.
Qed.

Lemma provider_pool_new_ok id q fl d d' o :
  provider_pool_new id q fl d = (d', o) →
  ze_live d ⊆ ze_live d' ∧
  match o with
  | Ret pp => pp_id pp = id ∧ nfree pp = EVENTS_BURST ∧ pp_borrowed pp = [] ∧
      NoDup (pp_freelist pp) ∧
      ∀ h, h ∈ pp_freelist pp → h ≠ 0 ∧ (h ∉ ze_live d) ∧ h ∈ ze_live d'
  | Throw _ => True
  | Undef => False
  end.
Proof.
  unfold provider_pool_new.
  pose proof (pool_create_live d (pool_request_of q fl)) as Hp.
  destruct (zeEventPoolCreate d (pool_request_of q fl)) as [d1 [r pool]]. cbn in Hp.
  unfold ZE2UR_CALL_THROWS. case_decide; [|intros [= <- <-]; by rewrite Hp].
  destruct (create_events EVENTS_BURST 0 pool d1 []) as [d2 [cr o']] eqn:E.
  apply create_events_ok in E as (new & -> & Hn & Hl & Hf & Ho). rewrite app_nil_r in *.
  destruct o' as [[]|e|]; [| |done]; intros [= <- <-].
  - split; [rewrite Hl, Hp; set_solver|]. cbn. split_and!; [done..|].
    intros h Hh. pose proof (Hf h Hh). rewrite Hl, elem_of_union, elem_of_list_to_set, <-Hp.
    tauto.
  - split; [|done]. rewrite pool_destroy_live.
    etransitivity; [|apply destroy_events_live]. rewrite Hl, Hp in *.
    intros x Hx. apply elem_of_difference. split; [set_solver|].
    rewrite elem_of_list_to_set. intros []%Hf. congruence.
Qed.

Lemma createProviderPool_ok p p' o :
  normal_wf p → createProviderPool p = (p', o) →
  normal_wf p' ∧ pn_flags p' = pn_flags p ∧
  match o with
  | Ret _ => ∃ pp, pools p' = pp :: pools p ∧ nfree pp = EVENTS_BURST ∧ pp_borrowed pp = []
  | Throw _ => pools p' = pools p
  | Undef => False
  end.
Proof.
  intros (Hn & Hl & Hi). unfold createProviderPool.
  destruct (provider_pool_new (next_id p) (queueType p) (pn_flags p) (pn_drv p)) as [d o'] eqn:E.
  apply provider_pool_new_ok in E as [Hsub Ho].
  destruct o' as [pp|e|]; [| |done]; intros [= <- <-].
  - destruct Ho as (Hid & Hfree & Hb & Hnd & Hf). split_and!; [|done|eauto].
    unfold normal_wf, free_events, borrowed_events. cbn. rewrite Hb. cbn. rewrite <-app_assoc.
    split_and!.
    + apply NoDup_app. split_and!; [done| |done]. intros h (_&?&_)%Hf [_ ?]%Hl. done.
    + intros h [Hh%Hf|[? ?]%Hl]%elem_of_app; [tauto|]. split; [done|]. by apply Hsub.
    + intros x [->|Hx%Hi]%elem_of_cons; lia.
  - split_and!; [|done|done]. unfold normal_wf. cbn. split_and!; [done| |done].
    intros h [? ?]%Hl. split; [done|]. by apply Hsub.
Qed.

Lemma allocate_back_ok l e l' :
  (∀ h, h ∈ free_events l → h ≠ 0) → allocate_back l = (e, l') →
  (e = 0 ∧ l' = l ∧ (match l with [] => True | b :: _ => nfree b = 0%nat end)) ∨
  (e ≠ 0 ∧ free_events l ≡ₚ e :: free_events l' ∧ borrowed_events l' ≡ₚ e :: borrowed_events l ∧
   pp_id <$> l' = pp_id <$> l).
Proof.
  destruct l as [|b l]; cbn; [intros _ [= <- <-]; by left|].
  unfold provider_pool_allocate, nfree. destruct (pp_freelist b) as [|h fl] eqn:Eb; cbn.
  - intros _ [= <- <-]. by left.
  - intros Hnz [= <- <-]. right.
    split_and!; [apply Hnz; by left|done|done|done].
Qed.

Context `{!SortsByFree std_sort}.

Lemma sort_pools_perm l : sort_pools l ≡ₚ l.
Proof. unfold sort_pools. by rewrite reverse_Permutation, std_sort_perm, reverse_Permutation. Qed.

Lemma free_events_perm l l' : l ≡ₚ l' → free_events l ≡ₚ free_events l'.
Proof. intros E. unfold free_events. by rewrite E. Qed.

Lemma borrowed_events_perm l l' : l ≡ₚ l' → borrowed_events l ≡ₚ borrowed_events l'.
Proof. intros E. unfold borrowed_events. by rewrite E. Qed.

(** After the sort the back has the most free events. *)
Lemma sort_pools_back l b l' pp :
  sort_pools l = b :: l' → pp ∈ l → (nfree pp ≤ nfree b)%nat.
Proof.
  unfold sort_pools. intros E Hpp. pose proof (std_sort_sorted (reverse l)) as Hs.
  rewrite <-(reverse_involutive (std_sort _)), E, reverse_cons in Hs.
  assert (Hin : pp ∈ reverse l' ++ [b]).
  { rewrite <-reverse_cons, <-E, reverse_involutive, std_sort_perm. by rewrite elem_of_reverse. }
  apply Sorted_StronglySorted in Hs; [|intros ???; lia].
  apply elem_of_app in Hin as [Hin|Hin].
  - eapply (StronglySorted_app_1_elem_of _ _ _ pp b Hs); [done|by left].
  - apply list_elem_of_singleton in Hin as ->. done.
Qed.

(** When even that one is exhausted, all are. *)
Lemma sort_pools_exhausted l :
  match sort_pools l with [] => True | b :: _ => nfree b = 0%nat end → free_events l = [].
Proof.
  intros Hb. destruct (sort_pools l) as [|b l'] eqn:E.
  { pose proof (sort_pools_perm l) as Hp. rewrite E in Hp. by apply Permutation_nil in Hp as ->. }
  assert (Hall : ∀ pp, pp ∈ l → pp_freelist pp = []).
  { intros pp Hpp. pose proof (sort_pools_back _ _ _ _ E Hpp). apply length_zero_iff_nil.
    unfold nfree in *. lia. }
  clear -Hall. induction l as [|pp l IH]; [done|]. unfold free_events. cbn.
  rewrite Hall by (by left). apply IH. intros ??. apply Hall. by right.
Qed.

(** What a successful allocation does to the pools. *)
Definition took (p p' : provider_normal) (e : Z) : Prop :=
  normal_wf p' ∧ pn_flags p' = pn_flags p ∧ (e ∉ borrowed_events (pools p)) ∧
  borrowed_events (pools p') ≡ₚ e :: borrowed_events (pools p).

Lemma take_from_back p l0 l e :
  normal_wf p → l0 ≡ₚ pools p → allocate_back l0 = (e, l) → e ≠ 0 →
  took p (set_pools l p) e ∧ length l = length (pools p).
Proof.
  intros (Hn & Hl & Hi) Hp Ha He.
  destruct (allocate_back_ok l0 e l) as [(-> & _)|(_ & Hf & Hb & Hid)]; [|done|done|].
  { intros h Hh. rewrite (free_events_perm _ _ Hp) in Hh. apply Hl, elem_of_app. by left. }
  rewrite (free_events_perm _ _ Hp) in Hf. rewrite (borrowed_events_perm _ _ Hp) in Hb.
  assert (Hall : free_events (pools p) ++ borrowed_events (pools p) ≡ₚ
                   free_events l ++ borrowed_events l).
  { rewrite Hf, Hb. solve_Permutation. }
  split; [split_and!|].
  - unfold normal_wf. cbn. split_and!.
    + by rewrite <-Hall.
    + intros h. rewrite <-Hall. apply Hl.
    + intros pp Hpp%(list_elem_of_fmap_2 pp_id). rewrite Hid in Hpp.
      apply list_elem_of_fmap in Hpp as (pp' & -> & Hpp'). rewrite Hp in Hpp'. by apply Hi.
  - done.
  - intros Hin. rewrite Hf in Hn. cbn in Hn. apply NoDup_cons in Hn as [Hn _].
    apply Hn, elem_of_app. by right.
  - done.
  - rewrite <-Hp, <-(length_fmap pp_id l0), <-Hid. by rewrite length_fmap.
Qed.

Lemma allocate_back_null p l0 l :
  normal_wf p → l0 ≡ₚ pools p → allocate_back l0 = (0, l) →
  l = l0 ∧ match l0 with [] => True | b :: _ => nfree b = 0%nat end.
Proof.
  intros (_ & Hl & _) Hp Ha. destruct (allocate_back_ok l0 0 l) as [(_&?&?)|[? _]]; try done.
  intros h Hh. rewrite (free_events_perm _ _ Hp) in Hh. apply Hl, elem_of_app. by left.
Qed.

(** A pool with a free event is found at once. *)
Lemma allocate_fuel_free fuel p :
  normal_wf p → free_events (pools p) ≠ [] →
  ∃ p' e, provider_normal_allocate_fuel (S fuel) p = (p', Ret e) ∧ took p p' e ∧
    length (pools p') = length (pools p).
Proof.
  intros Hw Hf. cbn. rewrite decide_False by (intros E; by rewrite E in Hf). cbn.
  destruct (allocate_back (pools p)) as [e l] eqn:E1.
  destruct (Z.eqb_spec e 0) as [->|He]; cbn; [|eexists _, _; split; [done|];
    by eapply take_from_back].
  destruct (allocate_back (sort_pools (pools p))) as [e l'] eqn:E2.
  destruct (Z.eqb_spec e 0) as [->|He]; cbn; [|eexists _, _; split; [done|];
    eapply take_from_back; eauto using sort_pools_perm].
  apply (allocate_back_null p) in E2 as [_ Hb]; [|done|apply sort_pools_perm].
  by apply sort_pools_exhausted in Hb.
Qed.

Lemma free_events_new pp l : nfree pp = EVENTS_BURST → free_events (pp :: l) ≠ [].
Proof.
  unfold nfree, free_events. cbn. destruct (pp_freelist pp); [|done]. cbn. intros [=].
Qed.

(** The outcome of an allocation that makes a pool. *)
Definition grew (p p' : provider_normal) (o : outcome Z) : Prop :=
  match o with
  | Ret e => took p p' e ∧ length (pools p') = S (length (pools p))
  | Throw _ => normal_wf p' ∧ pn_flags p' = pn_flags p ∧
      borrowed_events (pools p') ≡ₚ borrowed_events (pools p)
  | Undef => False
  end.

(** Making a pool and allocating: [q] has the pools of [p] in some order. *)
Lemma create_then_allocate fuel p q p' o :
  normal_wf q → pn_flags q = pn_flags p → pools q ≡ₚ pools p →
  and_then (createProviderPool q) (provider_normal_allocate_fuel (S fuel)) = (p', o) →
  grew p p' o.
Proof.
  intros Hq Hqf Hqp. destruct (createProviderPool q) as [q' oq] eqn:Ec.
  apply createProviderPool_ok in Ec as (Hq' & Hqf' & Ho); [|done].
  destruct oq as [[]|x|]; [| |done]; unfold and_then.
  - destruct Ho as (pp & Ep & Hfree & Hb).
    destruct (allocate_fuel_free fuel q') as (p1 & e & -> & (Ht1 & Ht2 & Ht3 & Ht4) & Hlen);
      [done|rewrite Ep; by apply free_events_new|].
    assert (Eb : borrowed_events (pools q') ≡ₚ borrowed_events (pools p)).
    { rewrite Ep. unfold borrowed_events at 1. cbn. rewrite Hb. cbn.
      by apply borrowed_events_perm. }
    intros [= <- <-]. split; [|by rewrite Hlen, Ep, <-Hqp].
    split_and!; [done|congruence|by rewrite <-Eb|by rewrite <-Eb].
  - intros [= <- <-]. split_and!; [done|congruence|].
    rewrite Ho. by apply borrowed_events_perm.
Qed.

(** With no pool at all, the first test makes one. *)
Lemma allocate_fuel_empty fuel p :
  normal_wf p → pools p = [] →
  provider_normal_allocate_fuel (S fuel) p =
    and_then (createProviderPool p) (provider_normal_allocate_fuel (S fuel)).
Proof.
  intros Hw Hp. cbn [provider_normal_allocate_fuel]. rewrite decide_True by done.
  destruct (createProviderPool p) as [q [[]|x|]] eqn:Ec; [|done..].
  apply createProviderPool_ok in Ec as (_ & _ & pp & Ep & _); [|done].
  cbn [and_then]. rewrite decide_False by (rewrite Ep; done). done.
Qed.

(** Otherwise one pool is made, or the failure to make it is thrown. *)
Lemma allocate_fuel_exhausted fuel p p' o :
  normal_wf p → free_events (pools p) = [] →
  provider_normal_allocate_fuel (S (S fuel)) p = (p', o) → grew p p' o.
Proof.
  intros Hw Hf. destruct (decide (pools p = [])) as [Hp|Hp].
  { rewrite allocate_fuel_empty by done. by apply create_then_allocate. }
  cbn [provider_normal_allocate_fuel]. rewrite decide_False by done. cbn [and_then].
  assert (Hnone : ∀ l e l', l ≡ₚ pools p → allocate_back l = (e, l') → e = 0 ∧ l' ≡ₚ pools p).
  { intros l e l' Hl Ha. apply allocate_back_ok in Ha as [(-> & -> & _)|(_ & Hfe & _)]; [done| |].
    - rewrite (free_events_perm _ _ Hl), Hf in Hfe. by apply Permutation_nil_cons in Hfe.
    - intros h. by rewrite (free_events_perm _ _ Hl), Hf, elem_of_nil. }
  destruct (allocate_back (pools p)) as [e1 l1] eqn:E1.
  apply Hnone in E1 as [-> _]; [|done]. cbn [Z.eqb negb].
  destruct (allocate_back (sort_pools (pools p))) as [e2 l2] eqn:E2.
  apply Hnone in E2 as [-> Hl2]; [|apply sort_pools_perm]. cbn [Z.eqb negb].
  apply create_then_allocate; [|done|done].
  destruct Hw as (Hn & Hl & Hi). split_and!; cbn.
  - by rewrite (free_events_perm _ _ Hl2), (borrowed_events_perm _ _ Hl2).
  - intros h. rewrite (free_events_perm _ _ Hl2), (borrowed_events_perm _ _ Hl2). apply Hl.
  - intros pp. rewrite Hl2. apply Hi.
Qed.

#[export] Instance normal_laws : EventProviderLaws provider_normal.
Proof.
  split; [|by intros p [(_&_&?)%NoDup_app _]].
  intros p Hw. cbn [provider_allocate normal_provider]. unfold provider_normal_allocate.
  destruct (decide (free_events (pools p) = [])) as [Hf|Hf].
  - destruct (provider_normal_allocate_fuel 2 p) as [p' o] eqn:E.
    apply allocate_fuel_exhausted in E; [|done|done].
    destruct o as [e|e|]; cbn in *; [|tauto|done]. destruct E as [(?&?&?&?) _]. tauto.
  - destruct (allocate_fuel_free 1 p) as (p' & e & -> & (?&?&?&?) & _); [done..|]. done.
Qed.
End normal.
Arguments provider_normal D : clear implicits.

(** ** event_pool *)

Section event_pool.
Context {P : Type} `{EventProvider P}.
(** The context of the pool's events. *)
Variable hContext : Z.

(** Events are named by their index in the deque, which never shrinks. *)
Record pool := mkPool {
  provider : P; events : list ur_event_handle_t_; freelist : list nat
}.

Definition getFlags (p : pool) : Z := eventFlags (provider p).

(** The loop of [allocate] that fills the free list, [n] events to go. *)
Fixpoint burst (n : nat) (p : pool) : pool * outcome unit :=
  match n with
  | O => (p, Ret tt)
  | S n' =>
      let '(prov, o) := provider_allocate (provider p) in
      match e ← o; new_event hContext (Borrowed e) (getFlags p) true with
      | Ret ev => burst n' (mkPool prov (events p ++ [ev]) (length (events p) :: freelist p))
      | Throw x => (mkPool prov (events p) (freelist p), Throw x)
      | Undef => (mkPool prov (events p) (freelist p), Undef)
      end
  end.

Definition allocate (p : pool) : pool * outcome nat :=
  let '(p, o) := match freelist p with [] => burst EVENTS_BURST p | _ => (p, Ret tt) end in
  match o with
  | Ret _ =>
      match freelist p with
      | i :: fl => (mkPool (provider p) (events p) fl, Ret i)
      | [] => (p, Undef)
      end
  | Throw x => (p, Throw x)
  | Undef => (p, Undef)
  end.

(** ** A pool in use

    The pool, the queue's deferred events, and the events that were passed to
    [zeEventHostReset]. *)
Record world := mkWorld { the_pool : pool; deferredEvents : list nat; host_resets : list Z }.

Definition set_event (i : nat) (ev : ur_event_handle_t_) (p : pool) : pool :=
  mkPool (provider p) (<[i := ev]> (events p)) (freelist p).

(** [event_pool::free]: the event comes back with the pool's own reference. *)
Definition free (i : nat) (w : world) : world * outcome unit :=
  match events (the_pool w) !! i with
  | None => (w, Undef)
  | Some ev =>
      match reset ev with
      | Ret rs =>
          let p := set_event i (set_RefCount (w32 (RefCount ev + 1)) ev) (the_pool w) in
          (mkWorld (mkPool (provider p) (events p) (i :: freelist p)) (deferredEvents w)
             (host_resets w ++ rs), Ret tt)
      | Throw x => (w, Throw x)
      | Undef => (w, Undef)
      end
  end.

(** [forceRelease] of a pooled event, [releaseDeferred] without its assertions. *)
Definition forceRelease (i : nat) (w : world) : world * outcome ur_result_t :=
  let '(w, o) := free i w in (w, _ ← o; Ret UR_RESULT_SUCCESS).

Definition releaseDeferred (i : nat) (w : world) : world * outcome ur_result_t := forceRelease i w.

Definition deferEventFree (i : nat) (w : world) : world :=
  mkWorld (the_pool w) (deferredEvents w ++ [i]) (host_resets w).

(** [getSignalEvent] with a user event and a queue. *)
Definition getSignalEvent (queue commandType : Z) (w : world) : world * outcome nat :=
  let '(p, o) := allocate (the_pool w) in
  let w := mkWorld p (deferredEvents w) (host_resets w) in
  match o with
  | Ret i =>
      match events p !! i with
      | None => (w, Undef)
      | Some ev =>
          match resetQueueAndCommand queue commandType ev with
          | Ret ev => (mkWorld (set_event i ev p) (deferredEvents w) (host_resets w), Ret i)
          | Throw x => (w, Throw x)
          | Undef => (w, Undef)
          end
      end
  | Throw x => (w, Throw x)
  | Undef => (w, Undef)
  end.

(** [retain] and [release] of an event of the pool. *)
Definition urEventRetain (i : nat) (w : world) : world * outcome ur_result_t :=
  match events (the_pool w) !! i with
  | None => (w, Undef)
  | Some ev =>
      let '(r, ev) := retain ev in
      (mkWorld (set_event i ev (the_pool w)) (deferredEvents w) (host_resets w), Ret r)
  end.

Definition urEventRelease (status : Z → ze_result_t) (i : nat) (w : world)
  : world * outcome ur_result_t :=
  match events (the_pool w) !! i with
  | None => (w, Undef)
  | Some ev =>
      let '(ev, a) := release status ev in
      let w := mkWorld (set_event i ev (the_pool w)) (deferredEvents w) (host_resets w) in
      match a with
      | Kept => (w, Ret UR_RESULT_SUCCESS)
      | Deferred => (deferEventFree i w, Ret UR_RESULT_SUCCESS)
      | Forced => forceRelease i w
      end
  end.

(** [recordStartTimestamp] of an event, with the device of its queue. *)
Definition event_recordStart (dev : device_props) (clock : ze_result_t * Z) (i : nat) (w : world)
  : world * outcome unit :=
  match events (the_pool w) !! i with
  | None => (w, Undef)
  | Some ev =>
      let '(p, o) := recordStartTimestamp dev clock (profilingData ev) in
      (mkWorld (set_event i (set_profilingData p ev) (the_pool w)) (deferredEvents w)
         (host_resets w), o)
  end.

(** The loop of [queueFinish] over the deferred events. *)
Fixpoint release_deferred (l : list nat) (w : world) : world * outcome ur_result_t :=
  match l with
  | [] => (w, Ret UR_RESULT_SUCCESS)
  | i :: l' =>
      let '(w, o) := releaseDeferred i w in
      match o with
      | Ret r => if decide (r ≠ UR_RESULT_SUCCESS) then (w, Ret r) else release_deferred l' w
      | _ => (w, o)
      end
  end.

(** [queueFinish] up to the deferred kernels; [sync] is the result of
    [zeCommandListHostSynchronize]. *)
Definition queueFinish (sync : ze_result_t) (w : world) : world * outcome ur_result_t :=
  if decide (sync ≠ ZE_RESULT_SUCCESS) then (w, Ret (ze2urResult sync))
  else
    let '(w, o) := release_deferred (deferredEvents w) w in
    if decide (o = Ret UR_RESULT_SUCCESS) then
      (mkWorld (the_pool w) [] (host_resets w), Ret UR_RESULT_SUCCESS)
    else (w, o).

(** ** Runs *)

Inductive op :=
| Signal (queue commandType : Z)
| Retain (i : nat)
| Release (status : Z → ze_result_t) (i : nat)
| RecordStart (dev : device_props) (clock : ze_result_t * Z) (i : nat)
| Finish (sync : ze_result_t).

Definition run_op (o : op) (w : world) : world :=
  match o with
  | Signal q c => (getSignalEvent q c w).1
  | Retain i => (urEventRetain i w).1
  | Release status i => (urEventRelease status i w).1
  | RecordStart dev clock i => (event_recordStart dev clock i w).1
  | Finish sync => (queueFinish sync w).1
  end.

(** An event the user holds: made, neither free nor waiting in the queue. *)
Definition live (w : world) (i : nat) : Prop :=
  (i < length (events (the_pool w)))%nat ∧ (i ∉ freelist (the_pool w)) ∧ (i ∉ deferredEvents w).

(** The rules for users: only live events are named, and a 32-bit count is
    not retained past its range. *)
Definition valid (w : world) (o : op) : Prop :=
  match o with
  | Retain i => live w i ∧
      ∀ ev, events (the_pool w) !! i = Some ev → RefCount ev < 2 ^ 32 - 1
  | Release _ i | RecordStart _ _ i => live w i
  | Signal _ _ | Finish _ => True
  end.

Inductive reachable : world → Prop :=
| reachable_start p : provider_wf p → outstanding p = [] → reachable (mkWorld (mkPool p [] []) [] [])
| reachable_step w o : reachable w → valid w o → reachable (run_op o w).

(** ** Invariant *)

(** The Level Zero event of a pooled event. *)
Definition ze_of (ev : ur_event_handle_t_) : Z :=
  match hZeEvent ev with Borrowed e => e | NativeEvent w => handle w end.

(** A pooled event: borrowed from the provider, with the pool's flags. *)
Definition pooled (fl : Z) (ev : ur_event_handle_t_) : Prop :=
  event_pool ev = true ∧ (∃ e, hZeEvent ev = Borrowed e) ∧ flags ev = fl.

(** The references an event in each place has. *)
Definition count_ok (free deferred : list nat) (i : nat) (ev : ur_event_handle_t_) : Prop :=
  (i ∈ free → RefCount ev = 1) ∧ (i ∈ deferred → RefCount ev = 0) ∧
  (i ∉ free → i ∉ deferred → 1 ≤ RefCount ev < 2 ^ 32).

Record pool_inv (p : pool) (deferred : list nat) : Prop := {
  pi_wf : provider_wf (provider p);
  pi_out : outstanding (provider p) ≡ₚ ze_of <$> events p;
  pi_pooled : ∀ ev, ev ∈ events p → pooled (eventFlags (provider p)) ev;
  pi_places : NoDup (freelist p ++ deferred);
  pi_bound : ∀ i, i ∈ freelist p ++ deferred → (i < length (events p))%nat;
  pi_count : ∀ i ev, events p !! i = Some ev → count_ok (freelist p) deferred i ev
}.

(** ** Lemmas *)

Context `{!EventProviderLaws P}.

(** One event changes, keeping its Level Zero event; the places of the others
    stay. *)
Lemma update_inv p def i ev ev' fl def' :
  pool_inv p def → events p !! i = Some ev →
  event_pool ev' = event_pool ev → hZeEvent ev' = hZeEvent ev → flags ev' = flags ev →
  NoDup (fl ++ def') → (∀ j, j ∈ fl ++ def' → (j < length (events p))%nat) →
  (∀ j, j ≠ i → (j ∈ fl ↔ j ∈ freelist p) ∧ (j ∈ def' ↔ j ∈ def)) →
  count_ok fl def' i ev' →
  pool_inv (mkPool (provider p) (<[i := ev']> (events p)) fl) def'.
Proof.
  intros [Hw Ho Hp Hn Hb Hc] Hi E1 E2 E3 Hn' Hb' Hj Hci. split; cbn; try done.
  - assert (E : ze_of ev' = ze_of ev) by (unfold ze_of; by rewrite E2).
    rewrite list_fmap_insert, E, list_insert_id; [done|]. by rewrite list_lookup_fmap, Hi.
  - intros x [j Hx]%list_elem_of_lookup. apply list_lookup_insert_Some in Hx as [(_ & <- & _)|[_ Hx]].
    + apply list_elem_of_lookup_2, Hp in Hi as (? & ? & ?). unfold pooled. by rewrite E1, E2, E3.
    + eapply Hp, list_elem_of_lookup_2, Hx.
  - by rewrite length_insert.
  - intros j x Hx. apply list_lookup_insert_Some in Hx as [(<- & <- & _)|[Hne Hx]]; [done|].
    destruct (Hj j ltac:(done)) as [Hf Hd]. destruct (Hc j x Hx) as (H1 & H2 & H3).
    unfold count_ok. rewrite Hf, Hd. done.
Qed.

(** A new event of the provider joins the free list. *)
Lemma push_inv p def prov e :
  pool_inv p def → provider_wf prov → eventFlags prov = getFlags p →
  outstanding prov ≡ₚ e :: outstanding (provider p) →
  ∀ ev, new_event hContext (Borrowed e) (getFlags p) true = Ret ev →
  pool_inv (mkPool prov (events p ++ [ev]) (length (events p) :: freelist p)) def.
Proof.
  intros [Hw Ho Hp Hn Hb Hc] Hw' Hf Ho' ev [= <-]. split; cbn.
  - done.
  - rewrite Ho', fmap_app, Ho. cbn. by rewrite Permutation_app_comm.
  - intros ev [Hev%Hp|Hev]%elem_of_app.
    + by rewrite Hf.
    + apply list_elem_of_singleton in Hev as ->. unfold pooled. cbn. rewrite Hf. eauto.
  - constructor; [|done]. intros ?%Hb. lia.
  - intros i. rewrite length_app, elem_of_cons. cbn. intros [->|?%Hb]; lia.
  - intros i ev Hi. unfold count_ok. rewrite elem_of_cons.
    apply lookup_app_Some in Hi as [Hi|[Hge Hi]].
    + assert (i ≠ length (events p)) by (apply lookup_lt_Some in Hi; lia).
      destruct (Hc i ev Hi) as (H1 & H2 & H3). split_and!; naive_solver.
    + apply list_lookup_singleton_Some in Hi as [Hi <-]. cbn.
      assert (i = length (events p)) as -> by lia.
      split_and!; [done| |naive_solver]. intros Hd.
      assert (length (events p) < length (events p))%nat; [|lia].
      apply Hb, elem_of_app. by right.
Qed.

(** The provider may change when it throws. *)
Lemma provider_inv p def prov :
  pool_inv p def → provider_wf prov → eventFlags prov = getFlags p →
  outstanding prov ≡ₚ outstanding (provider p) →
  pool_inv (mkPool prov (events p) (freelist p)) def.
Proof.
  intros [Hw Ho Hp Hn Hb Hc] Hw' Hf Ho'. split; cbn; [done|by rewrite Ho'| |done..].
  intros ev Hev. rewrite Hf. by apply Hp.
Qed.

(** What filling the free list does, also when the provider throws midway. *)
Lemma burst_inv n p def p' o :
  pool_inv p def → burst n p = (p', o) →
  pool_inv p' def ∧ (∃ new, events p' = events p ++ new) ∧
  (∃ fl, freelist p' = fl ++ freelist p ∧ ∀ i, i ∈ fl → (length (events p) ≤ i)%nat) ∧
  match o with
  | Ret _ => length (events p') = (n + length (events p))%nat ∧
             length (freelist p') = (n + length (freelist p))%nat
  | Throw _ => True
  | Undef => False
  end.
Proof.
  revert p. induction n as [|n IH]; intros p Hi; cbn.
  { intros [= <- <-]. split_and!; [done|by exists []; rewrite app_nil_r|by exists []; set_solver|done|done]. }
  pose proof (provider_allocate_ok (provider p) (pi_wf _ _ Hi)) as Hok.
  destruct (provider_allocate (provider p)) as [prov o1]. destruct Hok as (Hw & Hf & Ha).
  destruct o1 as [e|x|]; cbn in Ha |- *; [| |done].
  - destruct Ha as [_ Ha]. intros Hrest.
    destruct (IH _ (push_inv p def prov e Hi Hw Hf Ha _ eq_refl) Hrest)
      as (Hp & [new Hnew] & (fl & Hfl & Hge) & Ho). cbn in *.
    split_and!; [done| | |].
    + exists ([mkEvent hContext true (Borrowed e) 0 UR_COMMAND_FORCE_UINT32 (getFlags p)
               (new_profiling_data e) 1] ++ new). by rewrite Hnew, <-app_assoc.
    + exists (fl ++ [length (events p)]). rewrite Hfl, <-app_assoc. split; [done|].
      intros i [Hin|Hin]%elem_of_app.
      * apply Hge in Hin. rewrite length_app in Hin. cbn in Hin. lia.
      * apply list_elem_of_singleton in Hin. lia.
    + destruct o; [|done..]. rewrite length_app in Ho. cbn in Ho. lia.
  - intros [= <- <-]. split_and!; [by apply provider_inv| | |done]; cbn.
    + exists []. by rewrite app_nil_r.
    + exists []. set_solver.
Qed.

(** An allocation takes an event from the free list or a new one. *)
Lemma allocate_inv p def p' o :
  pool_inv p def → allocate p = (p', o) →
  pool_inv p' def ∧ (∃ new, events p' = events p ++ new) ∧
  match o with
  | Ret i => (i ∉ freelist p') ∧ (i ∉ def) ∧ (i < length (events p'))%nat ∧
      (i ∈ freelist p ∨ (length (events p) ≤ i)%nat) ∧
      (∀ j, (j < length (events p))%nat → j ≠ i → (j ∈ freelist p' ↔ j ∈ freelist p)) ∧
      ∀ ev, events p' !! i = Some ev → RefCount ev = 1
  | Throw _ => ∀ j, (j < length (events p))%nat → (j ∈ freelist p' ↔ j ∈ freelist p)
  | Undef => False
  end.
Proof.
  intros Hi. unfold allocate.
  assert (Hburst : ∃ p1 o1,
    match freelist p with [] => burst EVENTS_BURST p | _ => (p, Ret tt) end = (p1, o1) ∧
    pool_inv p1 def ∧ (∃ new, events p1 = events p ++ new) ∧
    (∃ fl, freelist p1 = fl ++ freelist p ∧ ∀ i, i ∈ fl → (length (events p) ≤ i)%nat) ∧
    match o1 with Ret _ => freelist p1 ≠ [] | Throw _ => True | Undef => False end).
  { destruct (freelist p) as [|i0 fl0] eqn:Ef.
    - destruct (burst EVENTS_BURST p) as [p1 o1] eqn:Eb. exists p1, o1.
      apply (burst_inv _ _ def) in Eb as (?&?&Hfl&Ho); [|done]. rewrite Ef in Hfl, Ho.
      split_and!; [done..|]. destruct o1; [|done..]. intros E. rewrite E in Ho. cbn in Ho. lia.
    - exists p, (Ret tt). split_and!; [done|done|by exists []; rewrite app_nil_r| |by rewrite Ef].
      exists []. rewrite Ef. set_solver. }
  destruct Hburst as (p1 & o1 & -> & H1 & Hnew & (fl & Hfl & Hge) & Ho1).
  assert (Hold : ∀ j, (j < length (events p))%nat → j ∈ fl → False).
  { intros j Hj Hjf%Hge. lia. }
  destruct o1 as [[]|x|]; [| |done].
  2:{ intros [= <- <-]. split_and!; [done..|]. intros j Hj. rewrite Hfl, elem_of_app. naive_solver. }
  destruct (freelist p1) as [|i fl1] eqn:Efl; [done|]. intros [= <- <-].
  destruct H1 as [Hw Ho Hp Hn Hb Hc]. rewrite Efl in Hn, Hb, Hc.
  assert (Hin : i ∈ fl ++ freelist p) by (rewrite <-Hfl; by left).
  cbn in Hn. apply NoDup_cons in Hn as [Hni Hn]. rewrite elem_of_app in Hni.
  assert (Hlt : (i < length (events p1))%nat) by (apply Hb; by left).
  split_and!; [|done|tauto|tauto|done| | |].
  - split; cbn; [done..| |].
    + intros j Hj. apply Hb. by right.
    + intros j ev Hj. destruct (Hc j ev Hj) as (H1 & H2 & H3). unfold count_ok.
      rewrite elem_of_cons in H1, H3. destruct (decide (j = i)) as [->|Hne]; [|naive_solver].
      split_and!; [naive_solver..|]. intros _ _. rewrite H1 by (by left). lia.
  - apply elem_of_app in Hin as [?%Hge|?]; [by right|by left].
  - intros j Hj Hne. cbn. trans (j ∈ i :: fl1); [rewrite elem_of_cons; naive_solver|].
    rewrite Hfl, elem_of_app. naive_solver.
  - intros ev Hev. eapply Hc; [done|by left].
Qed.

Definition winv (w : world) : Prop := pool_inv (the_pool w) (deferredEvents w).

Lemma winv_lookup p def i :
  pool_inv p def → (i < length (events p))%nat →
  ∃ ev, events p !! i = Some ev ∧ pooled (eventFlags (provider p)) ev.
Proof.
  intros Hi [ev Hev]%lookup_lt_is_Some_2. exists ev. split; [done|].
  eapply pi_pooled; [done|]. by eapply list_elem_of_lookup_2.
Qed.

(** [update_inv] where no event moves. *)
Lemma update_inv_same p def i ev ev' :
  pool_inv p def → events p !! i = Some ev →
  event_pool ev' = event_pool ev → hZeEvent ev' = hZeEvent ev → flags ev' = flags ev →
  count_ok (freelist p) def i ev' → pool_inv (set_event i ev' p) def.
Proof.
  intros Hi Hev E1 E2 E3 Hc. eapply (update_inv p def i ev); eauto using pi_places, pi_bound.
Qed.

Lemma free_eq i w fl ev :
  events (the_pool w) !! i = Some ev → pooled fl ev →
  ∃ rs, free i w =
    (mkWorld (mkPool (provider (the_pool w))
                (<[i := set_RefCount (w32 (RefCount ev + 1)) ev]> (events (the_pool w)))
                (i :: freelist (the_pool w)))
       (deferredEvents w) (host_resets w ++ rs), Ret tt).
Proof.
  intros Hev (Hp & [e He] & _). unfold free. rewrite Hev. unfold reset, getZeEvent.
  rewrite Hp, He. destruct (Z.land (flags ev) EVENT_FLAGS_COUNTER =? 0); cbn; by eexists.
Qed.

Lemma release_eq status ev ev' a :
  release status ev = (ev', a) → 1 ≤ RefCount ev < 2 ^ 32 →
  event_pool ev' = event_pool ev ∧ hZeEvent ev' = hZeEvent ev ∧ flags ev' = flags ev ∧
  RefCount ev' = RefCount ev - 1 ∧ (a = Kept ↔ RefCount ev ≠ 1).
Proof.
  unfold release. intros E Hc. cbn in E. unfold w32 in E.
  rewrite (Z.mod_small (RefCount ev - 1)) in E by lia.
  destruct (Z.eqb_spec (RefCount ev - 1) 0) as [H0|H0]; cbn in E.
  - assert (Ha : a ≠ Kept ∧ event_pool ev' = event_pool ev ∧ hZeEvent ev' = hZeEvent ev ∧
      flags ev' = flags ev ∧ RefCount ev' = RefCount ev - 1).
    { destruct (isTimestamped _); [destruct (getEventEndTimestamp _ _) as [t pr]|];
        injection E as <- <-; [destruct (t =? 0)|]; done. }
    destruct Ha as (Ha & ? & ? & ? & ?). split_and!; try done. split; [done|lia].
  - injection E as <- <-. split_and!; try done. split; [lia|done].
Qed.

(** An event that leaves its user for the free list. *)
Lemma freed_inv p def i ev n :
  pool_inv p def → events p !! i = Some ev → (i ∉ freelist p) → (i ∉ def) → n = 1 →
  ∀ ev', event_pool ev' = event_pool ev → hZeEvent ev' = hZeEvent ev → flags ev' = flags ev →
  pool_inv (mkPool (provider p) (<[i := set_RefCount n ev']> (events p)) (i :: freelist p)) def.
Proof.
  intros Hi Hev Hf Hd -> ev' E1 E2 E3. eapply (update_inv p def i ev); try done; cbn.
  - constructor; [|by eapply pi_places]. rewrite elem_of_app. tauto.
  - intros j [->|Hj]%elem_of_cons; [by eapply lookup_lt_Some|by eapply pi_bound].
  - intros j Hne. rewrite elem_of_cons. naive_solver.
Qed.

(** A deferred event that comes back. *)
Lemma undeferred_inv p i l ev :
  pool_inv p (i :: l) → events p !! i = Some ev →
  pool_inv (mkPool (provider p) (<[i := set_RefCount (w32 (RefCount ev + 1)) ev]> (events p))
              (i :: freelist p)) l.
Proof.
  intros Hi Hev. pose proof (pi_places _ _ Hi) as Hn. pose proof (pi_bound _ _ Hi) as Hb.
  assert (Hperm : freelist p ++ i :: l ≡ₚ (i :: freelist p) ++ l) by solve_Permutation.
  rewrite Hperm in Hn. eapply (update_inv p (i :: l) i ev); try done.
  - intros j. rewrite <-Hperm. apply Hb.
  - intros j Hne. rewrite !elem_of_cons. naive_solver.
  - destruct (pi_count _ _ Hi i ev Hev) as (_ & H0 & _).
    cbn in Hn. apply NoDup_cons in Hn as [Hn _]. rewrite elem_of_app in Hn.
    unfold count_ok. rewrite elem_of_cons. cbn. rewrite H0 by (by left).
    split_and!; [done|tauto|tauto].
Qed.

Lemma release_deferred_inv l w :
  pool_inv (the_pool w) l →
  ∃ w', release_deferred l w = (w', Ret UR_RESULT_SUCCESS) ∧ pool_inv (the_pool w') [] ∧
    deferredEvents w' = deferredEvents w ∧
    freelist (the_pool w') = reverse l ++ freelist (the_pool w) ∧
    length (events (the_pool w')) = length (events (the_pool w)).
Proof.
  revert w. induction l as [|i l IH]; intros w Hi; cbn [release_deferred].
  { exists w. split_and!; try done. }
  destruct (winv_lookup _ _ i Hi) as (ev & Hev & Hp).
  { eapply pi_bound; [done|]. apply elem_of_app. right. by left. }
  unfold releaseDeferred, forceRelease. destruct (free_eq i w _ ev Hev Hp) as [rs ->]. cbn -[reverse].
  destruct (IH (mkWorld (mkPool (provider (the_pool w))
     (<[i := set_RefCount (w32 (RefCount ev + 1)) ev]> (events (the_pool w)))
     (i :: freelist (the_pool w))) (deferredEvents w) (host_resets w ++ rs)))
    as (w' & -> & H1 & H2 & H3 & H4); [by apply undeferred_inv|].
  exists w'. split_and!; [done..| |by rewrite H4; apply length_insert].
  by rewrite H3, reverse_cons, <-app_assoc.
Qed.

Lemma signal_inv q c w w' o :
  winv w → getSignalEvent q c w = (w', o) →
  winv w' ∧ deferredEvents w' = deferredEvents w ∧
  match o with
  | Ret i => ¬ live w i ∧ (i ∉ deferredEvents w) ∧ live w' i ∧
      (∀ j, live w j → live w' j) ∧
      ∃ ev, events (the_pool w') !! i = Some ev ∧ RefCount ev = 1 ∧ hQueue ev = q ∧
            commandType ev = c ∧ isTimestamped ev = false
  | Throw _ => ∀ j, live w j → live w' j
  | Undef => False
  end.
Proof.
  intros Hw. unfold getSignalEvent.
  destruct (allocate (the_pool w)) as [p o1] eqn:Ea.
  apply (allocate_inv _ (deferredEvents w)) in Ea as (Hp & [new Hnew] & Ho); [|done].
  assert (Hlen : (length (events (the_pool w)) ≤ length (events p))%nat).
  { rewrite Hnew, length_app. lia. }
  destruct o1 as [i|x|]; [| |done].
  - destruct Ho as (Hif & Hid & Hlt & Hwas & Hoth & Hrc).
    destruct (winv_lookup p _ i Hp Hlt) as (ev & Hev & Hpl).
    rewrite Hev. destruct Hpl as (Hep & [e He] & _).
    unfold resetQueueAndCommand, getZeEvent. rewrite Hep, He. cbn. intros [= <- <-].
    split_and!; cbn; [|done| |done| | |].
    + unfold winv. cbn. rewrite <-Hep at 1. eapply update_inv_same; [done|done|done|by rewrite He|done|].
      unfold count_ok. cbn. rewrite (Hrc ev Hev). naive_solver lia.
    + unfold live. intros (? & ? & ?). destruct Hwas; [done|lia].
    + unfold live. cbn. by rewrite length_insert.
    + intros j (Hj1 & Hj2 & Hj3). unfold live. cbn. rewrite length_insert.
      destruct (decide (j = i)) as [->|Hne]; [done|].
      split_and!; [lia|by rewrite Hoth|done].
    + eexists. rewrite list_lookup_insert_eq by done. split_and!; try done. cbn. by apply Hrc.
  - intros [= <- <-]. split_and!; [done|done|]. intros j (?&?&?). unfold live. cbn.
    split_and!; [lia|by rewrite Ho|done].
Qed.

Lemma release_inv status i w :
  winv w → live w i → winv (urEventRelease status i w).1.
Proof.
  intros Hw (Hlt & Hf & Hd). destruct (winv_lookup _ _ i Hw Hlt) as (ev & Hev & Hp).
  unfold urEventRelease. rewrite Hev. destruct (release status ev) as [ev' a] eqn:E.
  destruct (pi_count _ _ Hw i ev Hev) as (_ & _ & Hc). specialize (Hc Hf Hd).
  apply release_eq in E as (E1 & E2 & E3 & Hrc & Ha); [|done].
  assert (Hlk : events (set_event i ev' (the_pool w)) !! i = Some ev')
    by (apply list_lookup_insert_eq, Hlt).
  destruct a; cbn [fst].
  - apply (update_inv_same _ _ i ev); try done. unfold count_ok.
    rewrite Hrc. assert (RefCount ev ≠ 1) by by apply Ha. split_and!; [done..|]. lia.
  - assert (RefCount ev = 1) by (destruct (decide (RefCount ev = 1)); [done|naive_solver]).
    assert (Hperm : freelist (the_pool w) ++ deferredEvents w ++ [i] ≡ₚ
                    i :: (freelist (the_pool w) ++ deferredEvents w)) by solve_Permutation.
    unfold winv, deferEventFree. cbn [the_pool deferredEvents].
    apply (update_inv _ (deferredEvents w) i ev); try done.
    + rewrite Hperm. constructor; [|by eapply pi_places]. rewrite elem_of_app. tauto.
    + intros j. rewrite Hperm. intros [->|Hj]%elem_of_cons; [done|by eapply pi_bound].
    + intros j Hne. rewrite elem_of_app, list_elem_of_singleton. tauto.
    + unfold count_ok. rewrite Hrc, elem_of_app, list_elem_of_singleton. naive_solver lia.
  - assert (RefCount ev = 1) by (destruct (decide (RefCount ev = 1)); [done|naive_solver]).
    unfold forceRelease.
    destruct (free_eq i (mkWorld (set_event i ev' (the_pool w)) (deferredEvents w) (host_resets w))
      (eventFlags (provider (the_pool w))) ev' Hlk) as [rs ->].
    { destruct Hp as (? & ? & ?). unfold pooled. by rewrite E1, E2, E3. }
    cbn. rewrite list_insert_insert_eq. unfold winv. cbn.
    apply (freed_inv _ _ i ev); try done. by rewrite Hrc; replace (RefCount ev) with 1.
Qed.

Lemma run_op_inv w o : winv w → valid w o → winv (run_op o w).
Proof.
  intros Hw Hv. destruct o as [q c|i|status i|dev clock i|sync]; cbn [run_op].
  - destruct (getSignalEvent q c w) as [w' o] eqn:E. by apply signal_inv in E as [? _].
  - destruct Hv as [(Hlt & Hf & Hd) Hmax].
    destruct (winv_lookup _ _ i Hw Hlt) as (ev & Hev & _). unfold urEventRetain. rewrite Hev.
    destruct (pi_count _ _ Hw i ev Hev) as (_ & _ & Hc). specialize (Hc Hf Hd).
    specialize (Hmax ev Hev). apply (update_inv_same _ _ i ev); try done.
    unfold count_ok. cbn. unfold w32. rewrite Z.mod_small by lia. split_and!; [done..|]. lia.
  - by apply release_inv.
  - destruct Hv as (Hlt & Hf & Hd). destruct (winv_lookup _ _ i Hw Hlt) as (ev & Hev & _).
    unfold event_recordStart. rewrite Hev.
    destruct (recordStartTimestamp dev clock (profilingData ev)) as [pr o].
    apply (update_inv_same _ _ i ev); try done. by apply (pi_count _ _ Hw i ev).
  - unfold queueFinish. case_decide; [done|].
    destruct (release_deferred_inv (deferredEvents w) w Hw) as (w' & -> & H1 & H2 & _).
    by rewrite decide_True.
Qed.

Lemma reachable_winv w : reachable w → winv w.
Proof.
  induction 1 as [p Hw Ho|w o _ IH Hv]; [|by apply run_op_inv].
  split; cbn; [done|by rewrite Ho| |constructor| |done]; intros ? []%elem_of_nil.
Qed.

(** Two events of the pool are two events of the driver. *)
Lemma distinct_ze p def i j ev ev' :
  pool_inv p def → events p !! i = Some ev → events p !! j = Some ev' → i ≠ j →
  ze_of ev ≠ ze_of ev'.
Proof.
  intros Hi Hev Hev' Hne E. apply Hne.
  pose proof (outstanding_NoDup _ (pi_wf _ _ Hi)) as Hn. rewrite (pi_out _ _ Hi) in Hn.
  eapply (NoDup_lookup _ _ _ (ze_of ev) Hn); rewrite list_lookup_fmap.
  - by rewrite Hev.
  - by rewrite Hev', E.
Qed.

(** ** Theorems *)

(** C17: In every run in which users name only events they hold, an event that
    [getSignalEvent] hands out was held by nobody, was not waiting in the queue
    and is backed by a Level Zero event of its own; it starts with one
    reference, its queue and command, and no timestamps; all other held events
    stay held.  When the provider throws, no event is lost. *)
Theorem event_handed_out_once w q c w' o
  (run : reachable w) (call : getSignalEvent q c w = (w', o)) :
  match o with
  | Ret i => ¬ live w i ∧ (i ∉ deferredEvents w) ∧ live w' i ∧
      (∀ j, live w j → live w' j) ∧
      ∃ ev, events (the_pool w') !! i = Some ev ∧
        (RefCount ev = 1 ∧ hQueue ev = q ∧ commandType ev = c ∧ isTimestamped ev = false) ∧
        ∀ j ev', events (the_pool w') !! j = Some ev' → j ≠ i → ze_of ev' ≠ ze_of ev
  | Throw _ => ∀ j, live w j → live w' j
  | Undef => False
  end.
Proof.
  apply signal_inv in call as (Hw' & _ & Ho); [|by apply reachable_winv].
  destruct o as [i|x|]; [|done..].
  destruct Ho as (H1 & H2 & H3 & H4 & ev & Hev & H5 & H6 & H7 & H8).
  split_and!; [done..|]. exists ev. split_and!; [done..|].
  intros j ev' Hev' Hne. by apply (distinct_ze _ _ j i ev' ev Hw').
Qed.

(** [queueFinish] gives every deferred event back to the pool, last
    deferred on top, with the pool's one reference, and empties the list. *)
Theorem finish_recycles w
  (run : reachable w) :
  ∃ w', queueFinish ZE_RESULT_SUCCESS w = (w', Ret UR_RESULT_SUCCESS) ∧ deferredEvents w' = [] ∧
    freelist (the_pool w') = reverse (deferredEvents w) ++ freelist (the_pool w) ∧
    (∀ j, live w' j ↔ live w j) ∧
    ∀ i ev, i ∈ deferredEvents w → events (the_pool w') !! i = Some ev → RefCount ev = 1.
Proof.
  destruct (release_deferred_inv (deferredEvents w) w (reachable_winv w run))
    as (w' & E & Hi & _ & Hf & Hlen).
  unfold queueFinish. rewrite decide_False by auto. rewrite E.
  rewrite decide_True by done. eexists. split; [done|]. cbn. split_and!; [done|done| |].
  - intros j. unfold live. cbn. rewrite Hlen, Hf, elem_of_app, elem_of_reverse, elem_of_nil. tauto.
  - intros i ev Hin Hev. eapply (pi_count _ _ Hi i ev Hev). rewrite Hf.
    apply elem_of_app. left. by apply elem_of_reverse.
Qed.
End event_pool.

(** ** event_pool_cache *)

Definition EVENT_FLAGS_USED_BITS : Z := 2.

(** [event_descriptor::index] *)
Definition index (device flags : Z) : Z :=
  Z.lor flags (w64 (Z.shiftl device EVENT_FLAGS_USED_BITS)).

Section event_pool_cache.
(** Pools, and how one is made: [providerCreate] may throw. *)
Context {X : Type}.
Variable providerCreate : Z → Z → outcome X.

(** The slots, each with its back first. *)
Definition event_pool_cache := list (list X).

Definition new_event_pool_cache (max_devices : nat) : event_pool_cache :=
  replicate (max_devices * 4) [].

(** [None] is the null pool. *)
Definition borrow (id flags : Z) (c : event_pool_cache) : event_pool_cache * outcome (option X) :=
  if Z.of_nat (length c) <=? index id flags then (c, Ret None)
  else
    let n := Z.to_nat (index id flags) in
    match c !! n with
    | Some (x :: vec) => (<[n := vec]> c, Ret (Some x))
    | Some [] =>
        match providerCreate id flags with
        | Ret x => (c, Ret (Some x))
        | Throw e => (c, Throw e)
        | Undef => (c, Undef)
        end
    | None => (c, Undef)
    end.

(** The deleter of a borrowed pool. *)
Definition give_back (id flags : Z) (x : X) (c : event_pool_cache) : event_pool_cache :=
  alter (cons x) (Z.to_nat (index id flags)) c.

(** A run: pools are borrowed and given back in any order. *)
Record cache_state := mkCache { slots : event_pool_cache; out : list (Z * Z * X) }.

Inductive cache_op := Borrow (id flags : Z) | Return (n : nat).

Definition cache_step (s : cache_state) (o : cache_op) : cache_state :=
  match o with
  | Borrow id flags =>
      let '(c, r) := borrow id flags (slots s) in
      mkCache c (match r with Ret (Some x) => (id, flags, x) :: out s | _ => out s end)
  | Return n =>
      match out s !! n with
      | Some (id, flags, x) => mkCache (give_back id flags x (slots s)) (delete n (out s))
      | None => s
      end
  end.

Definition cache_run (ops : list cache_op) (s : cache_state) : cache_state :=
  fold_left cache_step ops s.

(** Device ids and flag words the adapter uses. *)
Definition key_ok (id flags : Z) : Prop := 0 ≤ id < 2 ^ 62 ∧ 0 ≤ flags < 4.

Definition cache_op_ok (o : cache_op) : Prop :=
  match o with Borrow id flags => key_ok id flags | Return _ => True end.

(** What a pool was made for. *)
Variable made_for : X → Z * Z.

Definition cache_inv (s : cache_state) : Prop :=
  (∀ n vec x, slots s !! n = Some vec → x ∈ vec →
     key_ok (made_for x).1 (made_for x).2 ∧
     n = Z.to_nat (index (made_for x).1 (made_for x).2)) ∧
  (∀ id flags x, (id, flags, x) ∈ out s → key_ok id flags ∧ made_for x = (id, flags)).
End event_pool_cache.

Lemma index_value id flags : key_ok id flags → index id flags = 4 * id + flags.
Proof.
  intros [Hid Hfl]. unfold index, EVENT_FLAGS_USED_BITS, w64.
  rewrite Z.shiftl_mul_pow2 by lia. rewrite Z.mod_small by lia.
  pose proof (Z.add_lor_land flags (id * 2 ^ 2)).
  assert (Z.land flags (id * 2 ^ 2) = 0); [|lia].
  rewrite <-Z.shiftl_mul_pow2 by lia. apply Z.bits_inj'. intros n Hn.
  rewrite Z.land_spec, Z.bits_0. destruct (Z.ltb_spec n 2).
  - rewrite Z.shiftl_spec_low by lia. apply andb_false_r.
  - rewrite (Z.bits_above_log2 flags n), andb_false_l; [done|lia|].
    destruct (decide (flags = 0)) as [->|]; [cbn; lia|].
    enough (Z.log2 flags < 2) by lia. apply Z.log2_lt_pow2; lia.
Qed.

(** The index tells the pairs apart. *)
Lemma index_inj id1 f1 id2 f2 :
  key_ok id1 f1 → key_ok id2 f2 → index id1 f1 = index id2 f2 → id1 = id2 ∧ f1 = f2.
Proof.
  intros H1 H2. rewrite !index_value by done. destruct H1, H2. lia.
Qed.

Lemma borrow_inv {X} (providerCreate : Z → Z → outcome X) made_for id flags s c r :
  (∀ id flags x, providerCreate id flags = Ret x → made_for x = (id, flags)) →
  cache_inv made_for s → key_ok id flags → borrow providerCreate id flags (slots s) = (c, r) →
  cache_inv made_for
    (mkCache c (match r with Ret (Some x) => (id, flags, x) :: out s | _ => out s end)) ∧
  length c = length (slots s).
Proof.
  intros Hcr [Hs Ho] Hk. unfold borrow.
  case_match; [by intros [= <- <-]|].
  destruct (slots s !! Z.to_nat (index id flags)) as [[|x vec]|] eqn:E; [| |by intros [= <- <-]].
  - destruct (providerCreate id flags) as [x|e|] eqn:Ep; intros [= <- <-]; [|done..].
    split; [|done]. split; [done|]. cbn.
    intros id' fl' x' [[= -> -> ->]|?]%elem_of_cons; [split; [done|by apply Hcr]|by apply Ho].
  - intros [= <- <-]. split; [|apply length_insert]. split; cbn.
    + intros n vec' x' [(<- & <- & _)|[_ Hn]]%list_lookup_insert_Some Hx; [|by eapply Hs].
      eapply Hs; [done|by right].
    + intros id' fl' x' [[= -> -> ->]|?]%elem_of_cons; [|by apply Ho]. split; [done|].
      destruct (Hs _ _ x E ltac:(by left)) as [Hkx Hn].
      assert (index id flags = index (made_for x).1 (made_for x).2) as Hi.
      { rewrite !index_value in * by done. destruct Hk, Hkx. lia. }
      apply index_inj in Hi as [-> ->]; [|done..]. by destruct (made_for x).
Qed.

Lemma return_inv {X} made_for (s : cache_state (X := X)) n id flags x :
  cache_inv made_for s → out s !! n = Some (id, flags, x) →
  cache_inv made_for (mkCache (give_back id flags x (slots s)) (delete n (out s))).
Proof.
  intros [Hs Ho] Hn. destruct (Ho id flags x) as [Hk Hm]; [by eapply list_elem_of_lookup_2|].
  split; cbn [slots out].
  - intros m vec x' Hl Hx. unfold give_back, event_pool_cache in Hl.
    destruct (decide (m = Z.to_nat (index id flags))) as [->|Hne].
    + rewrite list_lookup_alter_eq in Hl.
      apply fmap_Some in Hl as (vec' & Hl & ->). apply elem_of_cons in Hx as [->|Hx];
        [by rewrite Hm|by eapply Hs].
    + rewrite list_lookup_alter_ne in Hl by done. by eapply Hs.
  - intros id' fl' x' Hin. apply Ho. rewrite (delete_Permutation _ _ _ Hn). by right.
Qed.

Lemma cache_run_inv {X} (providerCreate : Z → Z → outcome X) made_for ops s :
  (∀ id flags x, providerCreate id flags = Ret x → made_for x = (id, flags)) →
  Forall cache_op_ok ops → cache_inv made_for s →
  cache_inv made_for (cache_run providerCreate ops s) ∧
  length (slots (cache_run providerCreate ops s)) = length (slots s).
Proof.
  intros Hcr Hops. revert s. induction Hops as [|o ops Ho Hops IH]; intros s Hs; [done|].
  assert (Hstep : cache_inv made_for (cache_step providerCreate s o) ∧
    length (slots (cache_step providerCreate s o)) = length (slots s)).
  { destruct o as [id flags|n]; cbn.
    - destruct (borrow providerCreate id flags (slots s)) as [c r] eqn:E.
      by eapply borrow_inv.
    - destruct (out s !! n) as [[[id flags] x]|] eqn:E; [|done].
      split; [by apply return_inv|]. apply length_alter. }
  destruct Hstep as [Hi Hl]. destruct (IH _ Hi) as [Hi' Hl']. by rewrite <-Hl.
Qed.

(** Through any sequence of borrows and returns, a borrowed event pool is one
    that was made for exactly the device and the flags it is borrowed for, and
    the null pool is given exactly to devices past the maximum.
    Assumed: [providerCreate] makes what it is asked for; ids are below 2^62
    and flags use the two bits the cache reserves. *)
Theorem borrowed_pool_matches {X} (providerCreate : Z → Z → outcome X) made_for max_devices ops
  (created : ∀ id flags x, providerCreate id flags = Ret x → made_for x = (id, flags))
  (ops_ok : Forall cache_op_ok ops) :
  let s := cache_run providerCreate ops (mkCache (new_event_pool_cache max_devices) []) in
  (∀ id flags x, (id, flags, x) ∈ out s → made_for x = (id, flags)) ∧
  ∀ id flags, key_ok id flags →
    (borrow providerCreate id flags (slots s)).2 = Ret None ↔ Z.of_nat max_devices ≤ id.
Proof.
  intros s. destruct (cache_run_inv providerCreate made_for ops
    (mkCache (new_event_pool_cache max_devices) [])) as [[_ Ho] Hl]; [done|done| |].
  { split; cbn; [|by intros ??? []%elem_of_nil].
    intros n vec x [-> _]%lookup_replicate []%elem_of_nil. }
  fold s in Ho, Hl. cbn in Hl. unfold new_event_pool_cache in Hl. rewrite length_replicate in Hl.
  split; [by intros id flags x [_ ?]%Ho|].
  intros id flags Hk. unfold borrow. rewrite index_value, Hl by done. destruct Hk as [Hid Hfl].
  destruct (Z.leb_spec (Z.of_nat (max_devices * 4)) (4 * id + flags)).
  { split; [lia|done]. }
  split; [|lia]. intros Hb. exfalso.
  destruct (slots s !! _) as [[|x vec]|] eqn:E; cbn in Hb; [|done|done].
  by destruct (providerCreate id flags).
Qed.

(** C36: [provider_normal] makes a pool of Level Zero events only when every pool
    it has is exhausted, and then exactly one, after which it returns: with a
    free event anywhere an allocation succeeds without the driver.  An
    allocation hands out an event that is not out; a failed one changes no
    event.  [allocate] calls itself at most once. *)
Theorem provider_normal_on_demand {D} `{ZeEvents D} `{!ZeEventsLaws D} std_sort
  `{!SortsByFree std_sort} (p : provider_normal D)
  (wf : normal_wf p) :
  (free_events (pools p) ≠ [] → ∀ fuel,
     ∃ p' e, provider_normal_allocate_fuel std_sort (S fuel) p = (p', Ret e) ∧ took p p' e ∧
       length (pools p') = length (pools p)) ∧
  (free_events (pools p) = [] → ∀ fuel p' o,
     provider_normal_allocate_fuel std_sort (S (S fuel)) p = (p', o) → grew p p' o).
Proof.
  split; intros Hf fuel; [by apply allocate_fuel_free|].
  intros p' o. by apply allocate_fuel_exhausted.
Qed.

(** ** A driver and a sort that satisfy the laws *)

Module EventTests.
Definition new_handle (d : gset Z) : Z := fresh ({[0]} ∪ d).

#[global] Instance driver : ZeEvents (gset Z) := {
  zeEventPoolCreate d _ := (d, (ZE_RESULT_SUCCESS, 1));
  zeEventCreate d _ _ := ({[new_handle d]} ∪ d, (ZE_RESULT_SUCCESS, new_handle d));
  zexCounterBasedEventCreate d := ({[new_handle d]} ∪ d, (ZE_RESULT_SUCCESS, new_handle d));
  zeEventDestroy d h := (d ∖ {[h]}, ZE_RESULT_SUCCESS);
  zeEventPoolDestroy d _ := (d, ZE_RESULT_SUCCESS);
  ze_live d := d
}.

#[global] Instance driver_laws : ZeEventsLaws (gset Z).
Proof.
  assert (Hnew : ∀ d : gset Z, new_handle d ≠ 0 ∧ new_handle d ∉ d).
  { intros d. pose proof (is_fresh ({[0]} ∪ d)) as Hf. unfold new_handle. set_solver. }
  split; cbn; try done.
  - intros d d' p i h [= <- <-]. destruct (Hnew d). done.
  - by intros d d' p i r h [= <- <- <-].
  - intros d d' h [= <- <-]. destruct (Hnew d). done.
  - by intros d d' r h [= <- <- <-].
Qed.

Definition fewer (a b : provider_pool) : Prop := (nfree a ≤ nfree b)%nat.
#[global] Instance fewer_dec : RelDecision fewer.
Proof. intros a b. unfold fewer. apply _. Defined.

Definition sort : list provider_pool → list provider_pool := merge_sort fewer.

#[global] Instance sort_ok : SortsByFree sort.
Proof.
  assert (Total fewer) by (intros a b; unfold fewer; lia).
  split; [apply merge_sort_Permutation|]. intros l. by apply (Sorted_merge_sort fewer).
Qed.

(** A counter-based provider and a pool over it. *)
Definition empty_counter : provider_counter (gset Z) := mkCounter ∅ [] [].
Definition start_world : world (P := provider_counter (gset Z)) :=
  mkWorld (mkPool empty_counter [] []) [] [].
Definition ready (_ : Z) : ze_result_t := ZE_RESULT_SUCCESS.
Definition not_ready (_ : Z) : ze_result_t := ZE_RESULT_NOT_READY.

Lemma start_reachable : reachable 7 start_world.
Proof. apply reachable_start; [split; [constructor|by intros ? []%elem_of_nil]|done]. Qed.

(** An event is handed out, timestamped, and released before its end is
    written: it waits in the queue. *)
Definition deferred_world : world (P := provider_counter (gset Z)) :=
  run_op 7 (Release not_ready 63)
    (run_op 7 (RecordStart (mkDev 80 32) (ZE_RESULT_SUCCESS, 5) 63)
       (run_op 7 (Signal 3 4) start_world)).

Lemma deferred_reachable : reachable 7 deferred_world.
Proof.
  assert (Hlive : ∀ w : world (P := provider_counter (gset Z)),
    bool_decide (63 < length (events (the_pool w)))%nat &&
    bool_decide (63 ∉ freelist (the_pool w))%nat &&
    bool_decide (63 ∉ deferredEvents w)%nat = true → live w 63).
  { intros w. rewrite !andb_true_iff, !bool_decide_eq_true. by intros [[? ?] ?]. }
  unfold deferred_world. repeat (apply reachable_step).
  - apply start_reachable.
  - done.
  - apply Hlive. vm_compute. reflexivity.
  - apply Hlive. vm_compute. reflexivity.
Qed.

Definition one_pool : provider_normal (gset Z) :=
  (createProviderPool (mkNormal QUEUE_IMMEDIATE 2 [] 0 ∅)).1.
End EventTests.

Example event_handed_out_once_witness :
  (getSignalEvent 7 3 4 EventTests.deferred_world).2 = Ret 62%nat ∧
  ¬ live EventTests.deferred_world 62.
Proof.
  split; [vm_compute; reflexivity|].
  apply (event_handed_out_once 7 EventTests.deferred_world 3 4
    (getSignalEvent 7 3 4 EventTests.deferred_world).1 (Ret 62%nat) EventTests.deferred_reachable).
  vm_compute. reflexivity.
Defined.

Example finish_recycles_witness :
  deferredEvents EventTests.deferred_world = [63%nat] ∧
  ∃ w', queueFinish ZE_RESULT_SUCCESS EventTests.deferred_world = (w', Ret UR_RESULT_SUCCESS) ∧
    deferredEvents w' = [] ∧ head (freelist (the_pool w')) = Some 63%nat.
Proof.
  split; [vm_compute; reflexivity|].
  destruct (finish_recycles 7 EventTests.deferred_world EventTests.deferred_reachable)
    as (w' & E & Hd & Hf & _).
  exists w'. split_and!; [done|done|]. rewrite Hf. vm_compute. reflexivity.
Defined.

(** Device 1 with profiling; device 9 is past the maximum of two devices. *)
Example borrowed_pool_matches_witness :
  (borrow (λ id flags, Ret (id, flags)) 9 1
     (slots (cache_run (λ id flags, Ret (id, flags)) [Borrow 1 3; Return 0; Borrow 1 3]
               (mkCache (new_event_pool_cache 2) [])))).2 = Ret None.
Proof.
  apply (borrowed_pool_matches (λ id flags, Ret (id, flags)) (λ x, x) 2
    [Borrow 1 3; Return 0; Borrow 1 3]).
  - intros id flags x [= <-]. done.
  - repeat constructor; vm_compute; try done.
  - repeat constructor; vm_compute; done.
  - vm_compute. discriminate.
Defined.

Example provider_normal_on_demand_witness :
  length (pools EventTests.one_pool) = 1%nat ∧
  ∃ p' e, provider_normal_allocate_fuel EventTests.sort 1 EventTests.one_pool = (p', Ret e) ∧
    took EventTests.one_pool p' e ∧ length (pools p') = 1%nat.
Proof.
  split; [vm_compute; reflexivity|].
  apply (provider_normal_on_demand EventTests.sort EventTests.one_pool).
  - apply (createProviderPool_ok (mkNormal QUEUE_IMMEDIATE 2 [] 0 ∅) EventTests.one_pool (Ret tt)).
    + split_and!; [constructor|by intros ? []%elem_of_nil|by intros ? []%elem_of_nil].
    + vm_compute. reflexivity.
  - vm_compute. discriminate.
Defined.
