(* ===== verification/UrHelpers.v ===== *)
(** * UrHelpers: ur/ur.hpp

    Arithmetic that the adapters share: the test for powers of two and the
    choice of a work-group size that divides the global size. *)
From S2P Require Import Prelude.

Definition isPowerOf2 (Value : Z) : bool := negb (Value =? 0) && (Z.land Value (Value - 1) =? 0).

(** The loop of [roundToHighestFactorOfGlobalSize] on the number of threads. *)
Fixpoint round_down (n : nat) (GlobalWorkSizeInDim : Z) : nat :=
  match n with
  | S (S _ as n') =>
      if negb (GlobalWorkSizeInDim mod Z.of_nat n =? 0) then round_down n' GlobalWorkSizeInDim
      else n
  | _ => n
  end.

Definition roundToHighestFactorOfGlobalSize (ThreadsPerBlockInDim GlobalWorkSizeInDim : Z) : Z :=
  Z.of_nat (round_down (Z.to_nat ThreadsPerBlockInDim) GlobalWorkSizeInDim).

(** The [do]-loop over the first dimension; [None] when the fuel runs out. *)
Fixpoint round_inner (fuel : nat) (T GlobalSize : Z) : option Z :=
  match fuel with
  | O => None
  | S fuel' =>
      let T := roundToHighestFactorOfGlobalSize T GlobalSize in
      if negb (isPowerOf2 T) && (32 <? T) && negb (T - 1 =? 0)
      then round_inner fuel' (T - 1) GlobalSize else Some T
  end.

(** [roundToHighestFactorOfGlobalSizeIn3d]; a division by zero is undefined. *)
Definition roundToHighestFactorOfGlobalSizeIn3d
    (GlobalSize MaxBlockDim : Z * Z * Z) (MaxBlockSize : Z) : outcome (Z * Z * Z) :=
  let '(g0, g1, g2) := GlobalSize in
  let '(m0, m1, m2) := MaxBlockDim in
  let first := Z.min g0 (Z.min MaxBlockSize m0) in
  match round_inner (S (Z.to_nat first)) first g0 with
  | None => Undef
  | Some t0 =>
      if t0 =? 0 then Undef else
      let t1 := roundToHighestFactorOfGlobalSize (Z.min g1 (Z.min (MaxBlockSize / t0) m1)) g1 in
      if w64 (t1 * t0) =? 0 then Undef else
      let t2 := roundToHighestFactorOfGlobalSize
                  (Z.min g2 (Z.min (MaxBlockSize / w64 (t1 * t0)) m2)) g2 in
      Ret (t0, t1, t2)
  end.

(** What the rounding means: the largest value up to a bound with a property. *)
Definition largest (P : Z → Prop) (bound t : Z) : Prop :=
  1 ≤ t ≤ bound ∧ P t ∧ ∀ t', t < t' ≤ bound → ¬ P t'.

(** ** Lemmas *)

Lemma largest_min P a b c t : largest P (Z.min a (Z.min b c)) t → 1 ≤ t ≤ Z.min a c ∧ P t.
Proof. intros (B & Pt & _). split; [lia|done]. Qed.

Lemma isPowerOf2_spec v : 0 ≤ v → isPowerOf2 v = true ↔ ∃ k, 0 ≤ k ∧ v = 2 ^ k.
Proof.
  intros Hv. unfold isPowerOf2. rewrite andb_true_iff, negb_true_iff, Z.eqb_neq, Z.eqb_eq. split.
  - intros [Hn Hl]. exists (Z.log2 v). split; [apply Z.log2_nonneg|].
    pose proof (Z.log2_spec v ltac:(lia)) as [Hlo Hhi].
    destruct (decide (v = 2 ^ Z.log2 v)) as [|Hne]; [done|exfalso].
    assert (E : Z.log2 (v - 1) = Z.log2 v) by (apply Z.log2_unique; [apply Z.log2_nonneg|lia]).
    assert (B : Z.testbit (Z.land v (v - 1)) (Z.log2 v) = true).
    { rewrite Z.land_spec, Z.bit_log2 by lia. rewrite <- E, Z.bit_log2; [done|].
      pose proof (Z.log2_nonneg v).
      assert (0 < 2 ^ Z.log2 v) by (apply Z.pow_pos_nonneg; lia). lia. }
    rewrite Hl, Z.bits_0 in B. done.
  - intros (k & Hk & ->). assert (0 < 2 ^ k) by (apply Z.pow_pos_nonneg; lia).
    split; [lia|]. replace (2 ^ k - 1) with (Z.ones k) by (rewrite Z.ones_equiv; lia).
    rewrite Z.land_ones by lia. apply Z.mod_same. lia.
Qed.

Lemma round_down_spec n G : (1 ≤ n)%nat →
  (1 ≤ round_down n G ≤ n)%nat ∧ G mod Z.of_nat (round_down n G) = 0 ∧
  ∀ t, (round_down n G < t ≤ n)%nat → G mod Z.of_nat t ≠ 0.
Proof.
  induction n as [|[|n] IH]; intros Hn; [lia| |].
  - cbn [round_down]. split_and!; [lia|lia|apply Z.mod_1_r|lia].
  - cbn [round_down] in *. destruct (Z.eqb_spec (G mod Z.of_nat (S (S n))) 0) as [E|E]; cbn [negb].
    + split_and!; [lia..|done|lia].
    + destruct IH as (B & D & M); [lia|]. split_and!; [lia|lia|done|].
      intros t Ht. destruct (decide (t = S (S n))) as [->|]; [done|]. apply M. lia.
Qed.

Lemma round_largest T G : 1 ≤ T →
  largest (λ t, G mod t = 0) T (roundToHighestFactorOfGlobalSize T G).
Proof.
  intros HT. unfold roundToHighestFactorOfGlobalSize.
  destruct (round_down_spec (Z.to_nat T) G) as (B & D & M); [lia|].
  split_and!; [lia|lia|done|]. intros t' Ht' E. apply (M (Z.to_nat t')); [lia|].
  by rewrite Z2Nat.id by lia.
Qed.

(** The rounding cannot run out of fuel, and it is the largest divisor that is
    a power of two or at most 32. *)
Lemma round_inner_largest fuel T G : 1 ≤ T → T < Z.of_nat fuel →
  ∃ t, round_inner fuel T G = Some t ∧
    largest (λ t, G mod t = 0 ∧ (isPowerOf2 t = true ∨ t ≤ 32)) T t.
Proof.
  revert T. induction fuel as [|fuel IH]; intros T HT Hf; [lia|]. cbn [round_inner].
  destruct (round_largest T G HT) as (B & D & M). set (r := roundToHighestFactorOfGlobalSize T G) in *.
  destruct (negb _ && _ && _) eqn:E.
  - rewrite !andb_true_iff, negb_true_iff, Z.ltb_lt in E. destruct E as [[E1 E2] _].
    destruct (IH (r - 1)) as (t & Et & Ht & Pt & Mt); [lia..|]. exists t. split; [done|].
    split_and!; [lia|lia|apply Pt|apply Pt|].
    intros t' Ht' [D' Q']. destruct (decide (t' < r)) as [Hl|Hl].
    + apply (Mt t'); [lia|done].
    + destruct (decide (t' = r)) as [->|]; [destruct Q'; [congruence|lia]|].
      apply (M t'); [lia|done].
  - exists r. split; [done|]. split_and!; [lia|lia|done| |].
    + rewrite !andb_false_iff, !negb_false_iff, Z.ltb_ge, Z.eqb_eq in E.
      destruct E as [[E|E]|E]; [by left|by right|right; lia].
    + intros t' Ht' [D' _]. by apply (M t').
Qed.

(** The rounded block, with the limit of the whole block. *)
Lemma rounded_block g0 g1 g2 m0 m1 m2 total :
  1 ≤ g0 → 1 ≤ g1 → 1 ≤ g2 → 1 ≤ m0 → 1 ≤ m1 → 1 ≤ m2 → 1 ≤ total < 2 ^ 64 →
  ∃ t0 t1 t2,
    roundToHighestFactorOfGlobalSizeIn3d (g0, g1, g2) (m0, m1, m2) total = Ret (t0, t1, t2) ∧
    largest (λ t, g0 mod t = 0 ∧ (isPowerOf2 t = true ∨ t ≤ 32)) (Z.min g0 (Z.min total m0)) t0 ∧
    largest (λ t, g1 mod t = 0) (Z.min g1 (Z.min (total / t0) m1)) t1 ∧
    largest (λ t, g2 mod t = 0) (Z.min g2 (Z.min (total / (t1 * t0)) m2)) t2 ∧
    t0 * t1 * t2 ≤ total.
Proof.
  intros. unfold roundToHighestFactorOfGlobalSizeIn3d.
  set (first := Z.min g0 (Z.min total m0)).
  destruct (round_inner_largest (S (Z.to_nat first)) first g0) as (t0 & -> & L0); [lia..|].
  assert (B0 : 1 ≤ t0 ≤ total) by (destruct L0; lia).
  assert (1 ≤ total / t0) by (apply Z.div_le_lower_bound; lia).
  rewrite (proj2 (Z.eqb_neq t0 0)) by lia.
  pose proof (round_largest (Z.min g1 (Z.min (total / t0) m1)) g1 ltac:(lia)) as L1.
  set (t1 := roundToHighestFactorOfGlobalSize _ g1) in *.
  assert (B1 : 1 ≤ t1 ∧ t1 ≤ total / t0) by (destruct L1; lia).
  assert (Bt : t1 * t0 ≤ total) by (pose proof (Z.mul_div_le total t0); nia).
  rewrite w64_small by nia. rewrite (proj2 (Z.eqb_neq (t1 * t0) 0)) by nia.
  assert (1 ≤ total / (t1 * t0)) by (apply Z.div_le_lower_bound; nia).
  pose proof (round_largest (Z.min g2 (Z.min (total / (t1 * t0)) m2)) g2 ltac:(lia)) as L2.
  set (t2 := roundToHighestFactorOfGlobalSize _ g2) in *.
  assert (B2 : 1 ≤ t2 ∧ t2 ≤ total / (t1 * t0)) by (destruct L2; lia).
  exists t0, t1, t2. split_and!; [done..|].
  pose proof (Z.mul_div_le total (t1 * t0)). nia.
Qed.

(** ** Theorems *)

(** The work-group size that is chosen when the user gives none: in each
    dimension the largest divisor of the global size within the limits that
    the earlier dimensions leave, in the first one only powers of two and
    sizes up to 32; so it divides the range, respects the limit of every
    dimension and the limit of the whole block.  The search ends and divides
    by nothing that is zero. *)
Theorem rounded_block_is_largest g0 g1 g2 m0 m1 m2 total :
  1 ≤ g0 → 1 ≤ g1 → 1 ≤ g2 → 1 ≤ m0 → 1 ≤ m1 → 1 ≤ m2 → 1 ≤ total < 2 ^ 64 →
  ∃ t0 t1 t2,
    roundToHighestFactorOfGlobalSizeIn3d (g0, g1, g2) (m0, m1, m2) total = Ret (t0, t1, t2) ∧
    largest (λ t, g0 mod t = 0 ∧ (isPowerOf2 t = true ∨ t ≤ 32)) (Z.min g0 (Z.min total m0)) t0 ∧
    largest (λ t, g1 mod t = 0) (Z.min g1 (Z.min (total / t0) m1)) t1 ∧
    largest (λ t, g2 mod t = 0) (Z.min g2 (Z.min (total / (t1 * t0)) m2)) t2 ∧
    t0 * t1 * t2 ≤ total.
Proof. apply rounded_block. Qed.

Lemma rounded_block_is_largest_witness :
  roundToHighestFactorOfGlobalSizeIn3d (96, 10, 7) (1024, 1024, 64) 1024 = Ret (32, 10, 1)
  ∧ ∃ t0 t1 t2, roundToHighestFactorOfGlobalSizeIn3d (96, 10, 7) (1024, 1024, 64) 1024
    = Ret (t0, t1, t2) ∧ t0 * t1 * t2 ≤ 1024.
Proof.
  split; [vm_compute; reflexivity|].
  destruct (rounded_block_is_largest 96 10 7 1024 1024 64 1024) as (t0 & t1 & t2 & E & _ & _ & _ & B);
    [lia..|]. exists t0, t1, t2. split; [exact E|exact B].
Defined.

(** A global size of zero in the second dimension divides by zero. *)
Lemma zero_dimension_divides_by_zero g0 g2 m0 m1 m2 total :
  1 ≤ g0 → 1 ≤ m0 → 1 ≤ m1 → 1 ≤ total →
  roundToHighestFactorOfGlobalSizeIn3d (g0, 0, g2) (m0, m1, m2) total = Undef.
Proof.
  intros. unfold roundToHighestFactorOfGlobalSizeIn3d.
  destruct (round_inner_largest (S (Z.to_nat (Z.min g0 (Z.min total m0)))) (Z.min g0 (Z.min total m0)) g0)
    as (t0 & -> & [B0 _]); [lia..|].
  assert (0 ≤ total / t0) by (apply Z.div_pos; lia).
  rewrite (proj2 (Z.eqb_neq t0 0)) by lia.
  by rewrite Z.min_l by lia.
Qed.

(** The first dimension need not be a power of two. *)
Example inner_not_pow2 :
  roundToHighestFactorOfGlobalSizeIn3d (30, 1, 1) (1024, 1024, 64) 1024 = Ret (30, 1, 1).
Proof. vm_compute. reflexivity. Qed.
