(* ===== verification/NativeCpuLaunch.v ===== *)
(** * NativeCpuLaunch: native_cpu/enqueue.cpp, urEnqueueKernelLaunch

    The index space of a kernel launch, the work-group checks, and the order
    in which work is run: inline without the construction kit, or split across
    the thread pool with it (NATIVECPU_USE_OCK).  Kernels are generated code:
    what a kernel call covers is [item_of] (one item) without the kit and
    [items_of] (a whole work-group) with it.  Loops have 32-bit counters; a
    launch whose loop never ends has no value for any fuel. *)
From S2P Require Import Prelude.

Record range3 := mkR { d0 : Z; d1 : Z; d2 : Z }.

#[export] Instance range3_eq_dec : EqDecision range3.
Proof. solve_decision. Defined.

Definition map3 (f : Z → Z → Z) (a b : range3) : range3 :=
  mkR (f (d0 a) (d0 b)) (f (d1 a) (d1 b)) (f (d2 a) (d2 b)).

(** ** NDRDescT *)

Record NDRDescT := mkNDR {
  WorkDim : nat; GlobalOffset : range3; GlobalSize : range3; LocalSize : range3
}.

(** The caller's arrays have [WorkDim] elements; the other elements get the
    defaults of the second loop. *)
Definition fill3 (WorkDim : nat) (l : list Z) (dflt : Z) : range3 :=
  let at_ i := if (i <? WorkDim)%nat then nth i l 0 else dflt in
  mkR (at_ 0%nat) (at_ 1%nat) (at_ 2%nat).

Definition NDRDesc (WorkDim : nat) (GlobalWorkOffset GlobalWorkSize : list Z)
    (LocalWorkSize : option (list Z)) : NDRDescT :=
  let local := match LocalWorkSize with Some l => l | None => replicate WorkDim 1 end in
  mkNDR WorkDim (fill3 WorkDim GlobalWorkOffset 0) (fill3 WorkDim GlobalWorkSize 1)
    (fill3 WorkDim local (if nth 0 local 0 =? 0 then 0 else 1)).

(** ** native_cpu::state

    The four sub-group fields are constants of the constructor that nothing
    here reads; they are left out. *)

Record state := mkState {
  MGlobal_id : range3; MGlobal_range : range3; MWorkGroup_size : range3;
  MWorkGroup_id : range3; MLocal_id : range3; MNumGroups : range3; MGlobalOffset : range3
}.

Definition zero3 : range3 := mkR 0 0 0.

(** A division by zero is undefined. *)
Definition div3 (a b : range3) : outcome range3 :=
  if (d0 b =? 0) || (d1 b =? 0) || (d2 b =? 0) then Undef else Ret (map3 Z.div a b).

(** The constructor. *)
Definition new_state (global local offset : range3) : outcome state :=
  n ← div3 global local;
  Ret (mkState zero3 global local zero3 zero3 n offset).

Definition global_id (s : state) (group local : range3) : range3 :=
  map3 (λ a b, w64 (a + b))
    (map3 (λ a b, w64 (a + b)) (map3 (λ a b, w64 (a * b)) (MWorkGroup_size s) group) local)
    (MGlobalOffset s).

(** The two [update]s. *)
Definition update_item (group local : range3) (s : state) : state :=
  mkState (global_id s group local) (MGlobal_range s) (MWorkGroup_size s) group local
    (MNumGroups s) (MGlobalOffset s).
Definition update_group (group : range3) (s : state) : state :=
  mkState (MGlobal_id s) (MGlobal_range s) (MWorkGroup_size s) group (MLocal_id s)
    (MNumGroups s) (MGlobalOffset s).

(** ** Checks *)

(** The constraints a kernel may have. *)
Record kernel_constraints := mkConstraints {
  ReqdWGSize : option range3; MaxWGSize : option range3; MaxLinearWGSize : option Z
}.

Definition nth3 (r : range3) (i : nat) : Z :=
  match i with 0%nat => d0 r | 1%nat => d1 r | _ => d2 r end.

(** The loop over the dimensions; [inl] is the early return. *)
Fixpoint check_dims (k : kernel_constraints) (dim : nat) (local : list Z) (TotalNumWIs : Z)
  : ur_result_t + Z :=
  match local with
  | [] => inr TotalNumWIs
  | l :: local' =>
      let TotalNumWIs := w64 (TotalNumWIs * l) in
      if match ReqdWGSize k with Some r => negb (l =? nth3 r dim) | None => false end
      then inl UR_RESULT_ERROR_INVALID_WORK_GROUP_SIZE
      else if match MaxWGSize k with Some r => nth3 r dim <? l | None => false end
      then inl UR_RESULT_ERROR_INVALID_WORK_GROUP_SIZE
      else check_dims k (S dim) local' TotalNumWIs
  end.

Definition check_local (k : kernel_constraints) (WorkDim : nat) (pLocalWorkSize : option (list Z))
  : ur_result_t :=
  match pLocalWorkSize with
  | None => UR_RESULT_SUCCESS
  | Some local =>
      match check_dims k 0 (take WorkDim local) 1 with
      | inl r => r
      | inr TotalNumWIs =>
          match MaxLinearWGSize k with
          | Some m => if m <? TotalNumWIs then UR_RESULT_ERROR_INVALID_WORK_GROUP_SIZE
                      else UR_RESULT_SUCCESS
          | None => UR_RESULT_SUCCESS
          end
      end
  end.

(** ** Loops *)

(** The values of the counter of [for (unsigned g = lo; g < n; g++)]. *)
Fixpoint for_u32 (fuel : nat) (lo n : Z) : option (list Z) :=
  match fuel with
  | O => None
  | S fuel' => if lo <? n then cons lo <$> for_u32 fuel' (w32 (lo + 1)) n else Some []
  end.

Definition flat {A} (l : list (list A)) : list A := l ≫= id.

(** The nest of loops over the three dimensions, the last outermost. *)
Definition nest (fuel : nat) (n : range3) : option (list range3) :=
  l2 ← for_u32 fuel 0 (d2 n);
  flat <$> mapM (λ g2,
    l1 ← for_u32 fuel 0 (d1 n);
    flat <$> mapM (λ g1, fmap (λ g0, mkR g0 g1 g2) <$> for_u32 fuel 0 (d0 n)) l1) l2.

(** The nest over the outer two dimensions. *)
Definition nest12 (fuel : nat) (n : range3) : option (list (Z * Z)) :=
  l2 ← for_u32 fuel 0 (d2 n);
  flat <$> mapM (λ g2, fmap (λ g1, (g1, g2)) <$> for_u32 fuel 0 (d1 n)) l2.

(** ** Execution without the construction kit

    The states the kernel is called with, in order. *)
Definition run_items (fuel : nat) (ndr : NDRDescT) (numWG : range3) (s : state)
  : option (list state) :=
  groups ← nest fuel numWG;
  flat <$> mapM (λ g, fmap (λ l, update_item g l s) <$> nest fuel (LocalSize ndr)) groups.

(** ** Execution with the construction kit

    The tasks given to the thread pool, each the states its kernel calls get,
    and the states of the calls made inline. *)
Record schedule := mkSchedule { tasks : list (list state); inline : list state }.

Definition append (a b : schedule) : schedule :=
  mkSchedule (tasks a ++ tasks b) (inline a ++ inline b).
Definition flatten (l : list schedule) : schedule := fold_right append (mkSchedule [] []) l.

Definition getResizedState (ndr : NDRDescT) (itemsPerThread : Z) : outcome state :=
  new_state (GlobalSize ndr) (mkR itemsPerThread (d1 (LocalSize ndr)) (d2 (LocalSize ndr)))
    (GlobalOffset ndr).

(** A range: the items of dimension 0 are divided among the threads, the rest
    is peeled and run inline. *)
Definition run_range (fuel : nat) (numParallelThreads : Z) (ndr : NDRDescT) (numWG : range3)
    (s resized : state) (itemsPerThread : Z) : option schedule :=
  outer ← nest12 fuel numWG;
  flatten <$> mapM (λ '(g1, g2),
    g0s ← for_u32 fuel 0 numParallelThreads;
    peel ← for_u32 fuel (w32 (w64 (numParallelThreads * itemsPerThread))) (d0 numWG);
    Some (mkSchedule
            ((λ g0, [update_group (mkR g0 g1 g2) resized]) <$> g0s)
            ((λ g0, update_group (mkR g0 g1 g2) s) <$> peel))) outer.

(** Dimensions 1 and 2 split across the pool. *)
Definition run_outer (fuel : nat) (numWG : range3) (s : state) : option schedule :=
  outer ← nest12 fuel numWG;
  ts ← mapM (λ '(g1, g2), fmap (λ g0, update_group (mkR g0 g1 g2) s) <$> for_u32 fuel 0 (d0 numWG))
         outer;
  Some (mkSchedule ts []).

(** The calls at the indices [base + i] for the counter values [is_]; an index
    out of range is undefined. *)
Definition pick (groups : list state) (base : Z) (is_ : list Z) : outcome (list state) :=
  mapM (λ i, match groups !! Z.to_nat (w64 (base + i)) with Some s => Ret s | None => Undef end) is_.

(** Groups of work-groups, one per thread, and a task for the remainder. *)
Definition run_chunks (fuel : nat) (numParallelThreads : Z) (groups : list state)
  : option (outcome schedule) :=
  let numGroups := Z.of_nat (length groups) in
  let groupsPerThread := numGroups / numParallelThreads in
  let remainder := numGroups mod numParallelThreads in
  threads ← for_u32 fuel 0 numParallelThreads;
  is_ ← for_u32 fuel 0 groupsPerThread;
  rest ← for_u32 fuel 0 remainder;
  Some (
    ts ← mapM (λ thread, pick groups (w64 (thread * groupsPerThread)) is_) threads;
    if remainder =? 0 then Ret (mkSchedule ts [])
    else
      t ← pick groups (w64 (numParallelThreads * groupsPerThread)) rest;
      Ret (mkSchedule (ts ++ [t]) [])).

Definition run_pool (fuel : nat) (numParallelThreads : Z) (hasLocalArgs : bool) (ndr : NDRDescT)
    (numWG : range3) (s : state) : option (outcome schedule) :=
  let isLocalSizeOne :=
    (d0 (LocalSize ndr) =? 1) && (d1 (LocalSize ndr) =? 1) && (d2 (LocalSize ndr) =? 1) in
  if isLocalSizeOne && (numParallelThreads <? d0 (GlobalSize ndr)) && negb hasLocalArgs then
    if numParallelThreads =? 0 then Some Undef
    else
      let itemsPerThread := d0 (GlobalSize ndr) / numParallelThreads in
      match getResizedState ndr itemsPerThread with
      | Ret resized => Ret <$> run_range fuel numParallelThreads ndr numWG s resized itemsPerThread
      | _ => Some Undef
      end
  else if numParallelThreads <=? w64 (d1 numWG * d2 numWG) then
    sch ← run_outer fuel numWG s;
    Some (if (numParallelThreads =? 0) && negb (bool_decide (tasks sch = [])) then Undef
          else Ret sch)
  else
    groups ← nest fuel numWG;
    run_chunks fuel numParallelThreads ((λ g, update_group g s) <$> groups).

(** ** urEnqueueKernelLaunch

    What a launch does once its wait list is complete: the schedule, or an
    error before anything runs. *)
Record launch_args := mkLaunch {
  hasQueue : bool; hasKernel : bool; workDim : nat;
  pGlobalWorkOffset : option (list Z); pGlobalWorkSize : list Z;
  pLocalWorkSize : option (list Z)
}.

Definition check_args (k : kernel_constraints) (a : launch_args) : ur_result_t :=
  if negb (hasQueue a) then UR_RESULT_ERROR_INVALID_NULL_HANDLE
  else if negb (hasKernel a) then UR_RESULT_ERROR_INVALID_NULL_HANDLE
  else if bool_decide (pGlobalWorkOffset a = None) then UR_RESULT_ERROR_INVALID_NULL_POINTER
  else if (workDim a =? 0)%nat then UR_RESULT_ERROR_INVALID_WORK_DIMENSION
  else if negb (workDim a <? 4)%nat then UR_RESULT_ERROR_INVALID_WORK_DIMENSION
  else if nth 0 (pGlobalWorkSize a) 0 =? 0 then UR_RESULT_ERROR_UNSUPPORTED_FEATURE
  else check_local k (workDim a) (pLocalWorkSize a).

Definition launch_ndr (a : launch_args) : NDRDescT :=
  NDRDesc (workDim a) (match pGlobalWorkOffset a with Some l => l | None => [] end)
    (pGlobalWorkSize a) (pLocalWorkSize a).

(** [use_ock] is the build option. *)
Definition urEnqueueKernelLaunch (fuel : nat) (use_ock : bool) (numParallelThreads : Z)
    (hasLocalArgs : bool) (k : kernel_constraints) (a : launch_args)
  : option (outcome (ur_result_t * schedule)) :=
  let r := check_args k a in
  if decide (r ≠ UR_RESULT_SUCCESS) then Some (Ret (r, mkSchedule [] []))
  else
    let ndr := launch_ndr a in
    match div3 (GlobalSize ndr) (LocalSize ndr),
          new_state (GlobalSize ndr) (LocalSize ndr) (GlobalOffset ndr) with
    | Ret numWG, Ret s =>
        if use_ock then
          fmap (λ o, sch ← o; Ret (UR_RESULT_SUCCESS, sch))
            (run_pool fuel numParallelThreads hasLocalArgs ndr numWG s)
        else
          l ← run_items fuel ndr numWG s;
          Some (Ret (UR_RESULT_SUCCESS, mkSchedule [] l))
    | _, _ => Some Undef
    end.

(** ** Specification *)

(** The points of a box from the origin. *)
Definition box (n : range3) : list range3 :=
  seqZ 0 (d2 n) ≫= λ z, seqZ 0 (d1 n) ≫= λ y, (λ x, mkR x y z) <$> seqZ 0 (d0 n).

(** The items a kernel call covers: its own, or all of its work-group. *)
Definition item_of (s : state) : range3 := MGlobal_id s.
Definition items_of (s : state) : list range3 :=
  (λ l, global_id s (MWorkGroup_id s) l) <$> box (MWorkGroup_size s).

(** The index space of a launch. *)
Definition index_space (ndr : NDRDescT) : list range3 :=
  map3 Z.add (GlobalOffset ndr) <$> box (GlobalSize ndr).

(** The part of the range that whole work-groups cover. *)
Definition whole_groups (ndr : NDRDescT) : range3 :=
  map3 (λ G L, L * (G / L)) (GlobalSize ndr) (LocalSize ndr).

(** The points of the index space in whole work-groups. *)
Definition covered (ndr : NDRDescT) : list range3 :=
  map3 Z.add (GlobalOffset ndr) <$> box (whole_groups ndr).

(** What a launch runs. *)
Definition executed (use_ock : bool) (sch : schedule) : list range3 :=
  if use_ock then (flat (tasks sch) ++ inline sch) ≫= items_of else item_of <$> inline sch.

(** 32-bit ranges, positive local sizes, ids in 64 bits. *)
Definition axis_ok (G L off : Z) : Prop := 0 ≤ G < 2 ^ 32 ∧ 0 < L ∧ 0 ≤ off ∧ off + G ≤ 2 ^ 64.
Definition launchable (ndr : NDRDescT) : Prop :=
  axis_ok (d0 (GlobalSize ndr)) (d0 (LocalSize ndr)) (d0 (GlobalOffset ndr)) ∧
  axis_ok (d1 (GlobalSize ndr)) (d1 (LocalSize ndr)) (d1 (GlobalOffset ndr)) ∧
  axis_ok (d2 (GlobalSize ndr)) (d2 (LocalSize ndr)) (d2 (GlobalOffset ndr)).

(** Fuel for every loop of a launch. *)
Definition enough (fuel : nat) (n : range3) : Prop :=
  d0 n < Z.of_nat fuel ∧ d1 n < Z.of_nat fuel ∧ d2 n < Z.of_nat fuel.

(** ** Lemmas *)

Lemma for_u32_seqZ fuel lo n :
  0 ≤ lo < 2 ^ 32 → n < 2 ^ 32 → n - lo < Z.of_nat fuel → (0 < fuel)%nat →
  for_u32 fuel lo n = Some (seqZ lo (n - lo)).
Proof.
  revert lo. induction fuel as [|fuel IH]; intros lo Hlo Hn Hf H0; [lia|]. cbn.
  destruct (Z.ltb_spec lo n).
  - unfold w32. rewrite Z.mod_small by lia. rewrite IH by lia. cbn.
    rewrite (seqZ_cons lo (n - lo)) by lia.
    do 3 f_equal; lia.
  - by rewrite seqZ_nil by lia.
Qed.

Lemma for_u32_from0 fuel n :
  0 ≤ n < 2 ^ 32 → n < Z.of_nat fuel → for_u32 fuel 0 n = Some (seqZ 0 n).
Proof. intros. rewrite for_u32_seqZ by lia. by rewrite Z.sub_0_r. Qed.

(** A bound of 2^32 or more is never reached. *)
Lemma for_u32_diverges fuel lo n : 0 ≤ lo < 2 ^ 32 → 2 ^ 32 ≤ n → for_u32 fuel lo n = None.
Proof.
  revert lo. induction fuel as [|fuel IH]; intros lo Hlo Hn; [done|]. cbn.
  destruct (Z.ltb_spec lo n); [|lia]. rewrite IH; [done| |done].
  unfold w32. pose proof (Z.mod_pos_bound (lo + 1) (2 ^ 32)). lia.
Qed.

Lemma flat_mapM {A B} (f : A → option (list B)) g l :
  (∀ x, x ∈ l → f x = Some (g x)) → flat <$> mapM f l = Some (l ≫= g).
Proof.
  intros H. rewrite (mapM_Some_2 f l (g <$> l)).
  - cbn. f_equal. unfold flat. induction l as [|x l IH]; [done|]. cbn.
    rewrite IH; [done|]. intros y Hy. apply H. by right.
  - apply Forall2_fmap_r, Forall_Forall2_diag, Forall_forall. done.
Qed.

Lemma bind_bind {A B C} (l : list A) (f : A → list B) (g : B → list C) :
  (l ≫= f) ≫= g = l ≫= (λ x, f x ≫= g).
Proof. induction l as [|x l IH]; [done|]. cbn. by rewrite bind_app, IH. Qed.

#[export] Instance bind_Permutation {A B} (f : A → list B) :
  Proper ((≡ₚ) ==> (≡ₚ)) (mbind (M := list) f).
Proof.
  intros l k. induction 1 as [|x l k _ IH|x y l|l1 l2 l3 _ IH1 _ IH2]; cbn.
  - done.
  - by apply Permutation_app_head.
  - rewrite !app_assoc. apply Permutation_app_tail, Permutation_app_comm.
  - by transitivity (l2 ≫= f).
Qed.

#[export] Instance flat_Permutation {A} : Proper ((≡ₚ) ==> (≡ₚ)) (@flat A).
Proof. intros l k H. unfold flat. by rewrite H. Qed.

Lemma fmap_bind {A B C} (l : list A) (f : A → B) (g : B → list C) :
  (f <$> l) ≫= g = l ≫= (λ x, g (f x)).
Proof. induction l as [|x l IH]; [done|]. cbn. by rewrite IH. Qed.

Lemma bind_fmap {A B C} (l : list A) (f : A → list B) (g : B → C) :
  g <$> (l ≫= f) = l ≫= (λ x, g <$> f x).
Proof. induction l as [|x l IH]; [done|]. cbn. by rewrite fmap_app, IH. Qed.

Lemma bind_ext_in {A B} (l : list A) (f g : A → list B) :
  (∀ x, x ∈ l → f x = g x) → l ≫= f = l ≫= g.
Proof.
  induction l as [|x l IH]; intros H; [done|]. cbn.
  rewrite H by (by left). f_equal. apply IH. intros y Hy. apply H. by right.
Qed.

Lemma flat_fmap {A B} (l : list A) (f : A → list B) : flat (f <$> l) = l ≫= f.
Proof. unfold flat. by rewrite fmap_bind. Qed.

Lemma elem_of_box n p :
  p ∈ box n ↔ 0 ≤ d0 p < d0 n ∧ 0 ≤ d1 p < d1 n ∧ 0 ≤ d2 p < d2 n.
Proof.
  unfold box. rewrite list_elem_of_bind. setoid_rewrite elem_of_seqZ.
  setoid_rewrite list_elem_of_bind. setoid_rewrite elem_of_seqZ.
  setoid_rewrite list_elem_of_fmap. setoid_rewrite elem_of_seqZ. destruct p as [x y z]. cbn.
  split.
  - intros (z' & (y' & (x' & [= -> -> ->] & Hx) & Hy) & Hz). lia.
  - intros (Hx & Hy & Hz). exists z. split; [|lia]. exists y. split; [|lia].
    exists x. split; [done|lia].
Qed.

Lemma NoDup_box n : NoDup (box n).
Proof.
  unfold box. apply NoDup_bind; [| |apply NoDup_seqZ].
  - intros z1 z2 p _ _ (y1 & H1 & _)%list_elem_of_bind (y2 & H2 & _)%list_elem_of_bind.
    apply list_elem_of_fmap in H1 as (? & -> & _), H2 as (? & [=] & _). done.
  - intros z _. apply NoDup_bind; [| |apply NoDup_seqZ].
    + intros y1 y2 p _ _ (? & -> & _)%list_elem_of_fmap (? & [=] & _)%list_elem_of_fmap. done.
    + intros y _. apply NoDup_fmap_2; [|apply NoDup_seqZ]. by intros ?? [=].
Qed.

Lemma nest_box fuel n :
  (0 ≤ d0 n < 2 ^ 32) → (0 ≤ d1 n < 2 ^ 32) → (0 ≤ d2 n < 2 ^ 32) → enough fuel n →
  nest fuel n = Some (box n).
Proof.
  intros H0 H1 H2 (F0 & F1 & F2). unfold nest, box.
  rewrite (for_u32_from0 fuel (d0 n)), (for_u32_from0 fuel (d1 n)), (for_u32_from0 fuel (d2 n))
    by done. cbn. apply flat_mapM. intros z _. cbn. apply flat_mapM. done.
Qed.

(** The outer pairs, in the order of the nest. *)
Definition outer12 (n : range3) : list (Z * Z) :=
  seqZ 0 (d2 n) ≫= λ z, (λ y, (y, z)) <$> seqZ 0 (d1 n).

Lemma nest12_outer fuel n :
  (0 ≤ d1 n < 2 ^ 32) → (0 ≤ d2 n < 2 ^ 32) → enough fuel n → nest12 fuel n = Some (outer12 n).
Proof.
  intros H1 H2 (F0 & F1 & F2). unfold nest12, outer12.
  rewrite (for_u32_from0 fuel (d1 n)), (for_u32_from0 fuel (d2 n)) by done. cbn.
  apply flat_mapM. done.
Qed.

Lemma outer12_box n :
  outer12 n ≫= (λ '(y, z), (λ x, mkR x y z) <$> seqZ 0 (d0 n)) = box n.
Proof.
  unfold outer12, box. rewrite bind_bind. apply bind_ext_in. intros z _. by rewrite fmap_bind.
Qed.

(** One axis of the index space. *)
Lemma axis_id G L off g l :
  axis_ok G L off → 0 ≤ g < G / L → 0 ≤ l < L →
  w64 (w64 (w64 (L * g) + l) + off) = off + (L * g + l) ∧ 0 ≤ L * g + l < L * (G / L).
Proof.
  intros (HG & HL & Ho & Hoff) Hg Hl. pose proof (Z.mul_div_le G L HL).
  assert (L * g + l < L * (G / L)) by nia. assert (0 ≤ L * g) by nia.
  unfold w64. rewrite (Z.mod_small (L * g)), (Z.mod_small (L * g + l)) by lia.
  rewrite Z.mod_small; lia.
Qed.

Lemma axis_inj L g1 l1 g2 l2 :
  0 ≤ l1 < L → 0 ≤ l2 < L → L * g1 + l1 = L * g2 + l2 → g1 = g2 ∧ l1 = l2.
Proof. intros H1 H2 E. assert (g1 = g2) by nia. split; [done|]. subst. lia. Qed.

Lemma axis_split G L x :
  0 < L → 0 ≤ x < L * (G / L) → 0 ≤ x / L < G / L ∧ 0 ≤ x mod L < L ∧ x = L * (x / L) + x mod L.
Proof.
  intros HL Hx. pose proof (Z.div_mod x L ltac:(lia)). pose proof (Z.mod_pos_bound x L HL).
  split_and!; try lia; nia.
Qed.

(** The items of all work-groups are the covered part of the index space. *)
Lemma groups_cover ndr s :
  launchable ndr → MWorkGroup_size s = LocalSize ndr → MGlobalOffset s = GlobalOffset ndr →
  box (map3 Z.div (GlobalSize ndr) (LocalSize ndr)) ≫=
    (λ g, global_id s g <$> box (LocalSize ndr)) ≡ₚ covered ndr.
Proof.
  intros (A0 & A1 & A2) Es Eo. unfold global_id. rewrite Es, Eo. unfold covered, whole_groups.
  destruct ndr as [wd [o0 o1 o2] [G0 G1 G2] [L0 L1 L2]]. cbn in *.
  assert (Hid : ∀ g l, g ∈ box (map3 Z.div (mkR G0 G1 G2) (mkR L0 L1 L2)) →
    l ∈ box (mkR L0 L1 L2) →
    map3 (λ a b, w64 (a + b)) (map3 (λ a b, w64 (a + b))
      (map3 (λ a b, w64 (a * b)) (mkR L0 L1 L2) g) l) (mkR o0 o1 o2) =
    mkR (o0 + (L0 * d0 g + d0 l)) (o1 + (L1 * d1 g + d1 l)) (o2 + (L2 * d2 g + d2 l))).
  { intros g l (B0 & B1 & B2)%elem_of_box (C0 & C1 & C2)%elem_of_box. unfold map3. cbn in *.
    f_equal; eapply axis_id; eauto. }
  assert (Hl : ∀ l, l ∈ box (mkR L0 L1 L2) → 0 ≤ d0 l < L0 ∧ 0 ≤ d1 l < L1 ∧ 0 ≤ d2 l < L2)
    by (intros l Hl%elem_of_box; done).
  apply NoDup_Permutation.
  - apply NoDup_bind; [| |apply NoDup_box].
    + intros g1 g2 p Hg1 Hg2 (l1 & -> & Hl1)%list_elem_of_fmap (l2 & E & Hl2)%list_elem_of_fmap.
      rewrite !Hid in E by done. injection E as E0 E1 E2.
      destruct (Hl l1 Hl1) as (?&?&?), (Hl l2 Hl2) as (?&?&?), g1 as [x1 y1 z1], g2 as [x2 y2 z2].
      cbn in *. f_equal; [apply (axis_inj L0 x1 (d0 l1) x2 (d0 l2))|
        apply (axis_inj L1 y1 (d1 l1) y2 (d1 l2))|apply (axis_inj L2 z1 (d2 l1) z2 (d2 l2))]; lia.
    + intros g Hg. apply NoDup_fmap_2_strong; [|apply NoDup_box].
      intros l1 l2 Hl1 Hl2 E. rewrite !Hid in E by done. destruct l1, l2. cbn in E.
      injection E as ???. f_equal; lia.
  - apply NoDup_fmap_2; [|apply NoDup_box]. intros [] [] [= ???]. f_equal; lia.
  - intros p. rewrite list_elem_of_bind, list_elem_of_fmap. split.
    + intros (g & (l & -> & Hl')%list_elem_of_fmap & Hg). rewrite Hid by done.
      exists (mkR (L0 * d0 g + d0 l) (L1 * d1 g + d1 l) (L2 * d2 g + d2 l)). split; [done|].
      apply elem_of_box in Hg as (?&?&?), Hl' as (?&?&?). cbn in *.
      apply elem_of_box. cbn. destruct (axis_id G0 L0 o0 (d0 g) (d0 l)) as [_ ?]; [done..|].
      destruct (axis_id G1 L1 o1 (d1 g) (d1 l)) as [_ ?]; [done..|].
      destruct (axis_id G2 L2 o2 (d2 g) (d2 l)) as [_ ?]; done.
    + intros (q & -> & (Q0 & Q1 & Q2)%elem_of_box). cbn in *.
      destruct (axis_split G0 L0 (d0 q)) as (? & ? & E0); [apply A0|done|].
      destruct (axis_split G1 L1 (d1 q)) as (? & ? & E1); [apply A1|done|].
      destruct (axis_split G2 L2 (d2 q)) as (? & ? & E2); [apply A2|done|].
      exists (mkR (d0 q / L0) (d1 q / L1) (d2 q / L2)).
      assert (Hg : mkR (d0 q / L0) (d1 q / L1) (d2 q / L2) ∈
        box (map3 Z.div (mkR G0 G1 G2) (mkR L0 L1 L2))) by (apply elem_of_box; done).
      split; [|done]. apply list_elem_of_fmap.
      exists (mkR (d0 q mod L0) (d1 q mod L1) (d2 q mod L2)).
      assert (Hm : mkR (d0 q mod L0) (d1 q mod L1) (d2 q mod L2) ∈ box (mkR L0 L1 L2))
        by (apply elem_of_box; done).
      split; [|done]. rewrite Hid by done. unfold map3. cbn. by rewrite <-E0, <-E1, <-E2.
Qed.

(** The state every launch starts from. *)
Lemma div3_ok a b : 0 < d0 b → 0 < d1 b → 0 < d2 b → div3 a b = Ret (map3 Z.div a b).
Proof.
  intros H0 H1 H2. unfold div3.
  destruct (Z.eqb_spec (d0 b) 0), (Z.eqb_spec (d1 b) 0), (Z.eqb_spec (d2 b) 0); done || lia.
Qed.

Definition state_of (ndr : NDRDescT) : state :=
  mkState zero3 (GlobalSize ndr) (LocalSize ndr) zero3 zero3
    (map3 Z.div (GlobalSize ndr) (LocalSize ndr)) (GlobalOffset ndr).

Definition numWG (ndr : NDRDescT) : range3 := map3 Z.div (GlobalSize ndr) (LocalSize ndr).

Lemma axis_groups G L off : axis_ok G L off → 0 ≤ G / L < 2 ^ 32 ∧ G / L ≤ G.
Proof.
  intros (HG & HL & _). pose proof (Z.div_pos G L). assert (G / L ≤ G) by (apply Z.div_le_upper_bound; nia).
  lia.
Qed.

Lemma numWG_bounds ndr :
  launchable ndr →
  (0 ≤ d0 (numWG ndr) < 2 ^ 32 ∧ d0 (numWG ndr) ≤ d0 (GlobalSize ndr)) ∧
  (0 ≤ d1 (numWG ndr) < 2 ^ 32 ∧ d1 (numWG ndr) ≤ d1 (GlobalSize ndr)) ∧
  (0 ≤ d2 (numWG ndr) < 2 ^ 32 ∧ d2 (numWG ndr) ≤ d2 (GlobalSize ndr)).
Proof. intros (A0 & A1 & A2). split_and!; eapply axis_groups; eauto. Qed.

Lemma numWG_enough ndr fuel :
  launchable ndr → enough fuel (GlobalSize ndr) → enough fuel (numWG ndr).
Proof.
  intros HA (F0 & F1 & F2). destruct (numWG_bounds ndr HA) as ([_ H0] & [_ H1] & [_ H2]).
  split_and!; eapply Z.le_lt_trans; eauto.
Qed.

Lemma axis_local G L off : axis_ok G L off → 0 < G / L → 0 ≤ L < 2 ^ 32.
Proof. intros (HG & HL & _) Hp. pose proof (Z.mul_div_le G L HL). nia. Qed.

(** Work-group calls over any list of groups. *)
Lemma group_calls_items ndr gs :
  ((λ g, update_group g (state_of ndr)) <$> gs) ≫= items_of =
  gs ≫= (λ g, global_id (state_of ndr) g <$> box (LocalSize ndr)).
Proof. by rewrite fmap_bind. Qed.

(** *** Without the kit *)

Lemma run_items_ok fuel ndr :
  launchable ndr → enough fuel (GlobalSize ndr) → enough fuel (LocalSize ndr) →
  ∃ l, run_items fuel ndr (numWG ndr) (state_of ndr) = Some l ∧
    item_of <$> l = box (numWG ndr) ≫= (λ g, global_id (state_of ndr) g <$> box (LocalSize ndr)).
Proof.
  intros HA HF FL. unfold run_items.
  destruct (numWG_bounds ndr HA) as ([B0 _] & [B1 _] & [B2 _]).
  rewrite (nest_box fuel (numWG ndr)) by auto using numWG_enough. cbn [mbind option_bind].
  rewrite (flat_mapM _ (λ g, (λ l, update_item g l (state_of ndr)) <$> box (LocalSize ndr))).
  - eexists. split; [done|]. rewrite bind_fmap. apply bind_ext_in. intros g _.
    by rewrite <-list_fmap_compose.
  - intros g (H0 & H1 & H2)%elem_of_box. destruct HA as (A0 & A1 & A2).
    rewrite nest_box; [done|..|done].
    + apply (axis_local _ _ _ A0), (Z.le_lt_trans _ (d0 g)); apply H0.
    + apply (axis_local _ _ _ A1), (Z.le_lt_trans _ (d1 g)); apply H1.
    + apply (axis_local _ _ _ A2), (Z.le_lt_trans _ (d2 g)); apply H2.
Qed.

(** *** With the kit: splitting dimensions 1 and 2 *)

Lemma run_outer_ok fuel ndr :
  launchable ndr → enough fuel (GlobalSize ndr) →
  ∃ sch, run_outer fuel (numWG ndr) (state_of ndr) = Some sch ∧ inline sch = [] ∧
    flat (tasks sch) = (λ g, update_group g (state_of ndr)) <$> box (numWG ndr).
Proof.
  intros HA HF. unfold run_outer.
  destruct (numWG_bounds ndr HA) as ([B0 _] & [B1 _] & [B2 _]).
  pose proof (numWG_enough ndr fuel HA HF) as HE.
  rewrite nest12_outer by done. rewrite (for_u32_from0 fuel (d0 (numWG ndr))) by (done || apply HE).
  cbn [mbind option_bind fmap option_fmap option_map].
  rewrite (mapM_Some_2 _ _ ((λ '(g1, g2), (λ g0, update_group (mkR g0 g1 g2) (state_of ndr)) <$>
    seqZ 0 (d0 (numWG ndr))) <$> outer12 (numWG ndr))).
  - eexists. split; [done|]. split; [done|]. cbn [tasks]. rewrite flat_fmap, <-outer12_box, bind_fmap.
    apply bind_ext_in. intros [y z] _. by rewrite <-list_fmap_compose.
  - apply Forall2_fmap_r, Forall_Forall2_diag, Forall_forall. by intros [y z] _.
Qed.

(** *** With the kit: groups of work-groups *)

Lemma pick_ok gs base n :
  0 ≤ base → 0 ≤ n → base + n ≤ Z.of_nat (length gs) → Z.of_nat (length gs) ≤ 2 ^ 64 →
  pick gs base (seqZ 0 n) = Ret (take (Z.to_nat n) (drop (Z.to_nat base) gs)).
Proof.
  intros Hb Hn Hlen Hmax. unfold pick. apply mapM_Ret.
  apply Forall2_same_length_lookup. split.
  { rewrite length_seqZ, length_take, length_drop. lia. }
  intros i x y [-> Hi]%lookup_seqZ Hy. rewrite lookup_take_Some, lookup_drop in Hy.
  destruct Hy as [Hy _]. unfold w64. rewrite Z.mod_small by lia.
  replace (Z.to_nat (base + (0 + Z.of_nat i))) with (Z.to_nat base + i)%nat by lia. by rewrite Hy.
Qed.

Lemma take_chunks (gs : list state) q T :
  seq 0 T ≫= (λ t, take q (drop (t * q) gs)) = take (T * q) gs.
Proof.
  induction T as [|T IH]; [done|].
  rewrite seq_S, bind_app, IH. cbn. rewrite app_nil_r.
  rewrite take_take_drop. f_equal. lia.
Qed.

Lemma run_chunks_ok fuel T gs :
  1 ≤ T < 2 ^ 32 → T < Z.of_nat fuel → Z.of_nat (length gs) / T < 2 ^ 32 →
  Z.of_nat (length gs) / T < Z.of_nat fuel → Z.of_nat (length gs) < 2 ^ 64 →
  ∃ sch, run_chunks fuel T gs = Some (Ret sch) ∧ inline sch = [] ∧ flat (tasks sch) = gs.
Proof.
  intros HT HfT Hq Hfq Hmax. unfold run_chunks. set (N := Z.of_nat (length gs)) in *.
  pose proof (Z.div_mod N T ltac:(lia)) as Hdm. pose proof (Z.mod_pos_bound N T ltac:(lia)).
  assert (0 ≤ N / T) by (apply Z.div_pos; lia).
  rewrite (for_u32_from0 fuel T), (for_u32_from0 fuel (N / T)), (for_u32_from0 fuel (N mod T)) by lia.
  cbn [mbind option_bind].
  set (q := Z.to_nat (N / T)).
  assert (Hts : mapM (λ thread, pick gs (w64 (thread * (N / T))) (seqZ 0 (N / T))) (seqZ 0 T) =
                Ret ((λ t, take q (drop (t * q) gs)) <$> seq 0 (Z.to_nat T))).
  { apply mapM_Ret, Forall2_same_length_lookup. split.
    { by rewrite length_seqZ, length_fmap, length_seq. }
    intros i x y [-> Hi]%lookup_seqZ Hy. rewrite list_lookup_fmap, lookup_seq_lt in Hy by lia.
    injection Hy as <-. unfold w64. rewrite Z.mod_small by nia.
    rewrite pick_ok by (fold N; nia). subst q. do 3 f_equal. nia. }
  rewrite Hts. cbn [mbind outcome_bind].
  destruct (Z.eqb_spec (N mod T) 0) as [Hr|Hr].
  - eexists. split; [done|]. split; [done|]. cbn [tasks]. rewrite flat_fmap, take_chunks.
    apply take_ge. subst q. nia.
  - unfold w64. rewrite (Z.mod_small (T * (N / T))) by nia.
    rewrite pick_ok by (fold N; lia). cbn.
    eexists. split; [done|]. split; [done|]. cbn [tasks]. unfold flat. rewrite bind_app.
    fold (flat ((λ t, take q (drop (t * q) gs)) <$> seq 0 (Z.to_nat T))).
    rewrite flat_fmap, take_chunks. cbn. rewrite app_nil_r.
    replace (Z.to_nat (T * (N / T))) with (Z.to_nat T * q)%nat by (subst q; nia).
    rewrite (take_ge (drop _ _)) by (rewrite length_drop; subst q; nia). apply take_drop.
Qed.

(** *** With the kit: a range, divided along dimension 0 *)

Lemma flatten_tasks l : flat (tasks (flatten l)) = l ≫= λ x, flat (tasks x).
Proof.
  induction l as [|x l IH]; [done|]. cbn [flatten fold_right append tasks mbind list_bind].
  unfold flat. rewrite bind_app. fold (flat (tasks x)). f_equal. apply IH.
Qed.

Lemma flatten_inline l : inline (flatten l) = l ≫= inline.
Proof. induction l as [|x l IH]; [done|]. cbn. by rewrite <-IH. Qed.

Lemma bind_split {A B} (l : list A) (f g : A → list B) :
  l ≫= (λ x, f x ++ g x) ≡ₚ (l ≫= f) ++ (l ≫= g).
Proof. induction l as [|x l IH]; [done|]. cbn. rewrite IH. solve_Permutation. Qed.

(** A box cut along dimension 0. *)
Lemma box_split a b y z :
  0 ≤ a → 0 ≤ b →
  box (mkR (a + b) y z) ≡ₚ
  box (mkR a y z) ++
  (outer12 (mkR a y z) ≫= λ '(g1, g2), (λ g0, mkR g0 g1 g2) <$> seqZ a b).
Proof.
  intros Ha Hb. rewrite <-(outer12_box (mkR (a + b) y z)), <-(outer12_box (mkR a y z)), <-bind_split.
  apply reflexive_eq, bind_ext_in. intros [g1 g2] _. cbn.
  by rewrite seqZ_app, Z.add_0_l, fmap_app.
Qed.

Section range.
Context (ndr : NDRDescT) (T : Z).
Hypothesis HA : launchable ndr.
Hypothesis HL : LocalSize ndr = mkR 1 1 1.
Hypothesis HT : 1 ≤ T < 2 ^ 32.
Hypothesis HG : T < d0 (GlobalSize ndr).

Let ipt := d0 (GlobalSize ndr) / T.

(** The launch the resized state describes. *)
Definition resized_ndr : NDRDescT :=
  mkNDR (WorkDim ndr) (GlobalOffset ndr)
    (mkR (T * ipt) (d1 (GlobalSize ndr)) (d2 (GlobalSize ndr))) (mkR ipt 1 1).

Lemma ipt_pos : 0 < ipt.
Proof. apply Z.div_str_pos. lia. Qed.

Lemma ipt_le : T * ipt ≤ d0 (GlobalSize ndr).
Proof. apply Z.mul_div_le. lia. Qed.

Lemma resized_launchable : launchable resized_ndr.
Proof.
  pose proof ipt_pos. pose proof ipt_le.
  destruct HA as ((G0 & _ & O0) & (G1 & _ & O1) & (G2 & _ & O2)).
  unfold launchable, axis_ok, resized_ndr. cbn [GlobalSize LocalSize GlobalOffset d0 d1 d2].
  split_and!; try (done || lia); nia.
Qed.

Lemma numWG_range : numWG ndr = GlobalSize ndr.
Proof. unfold numWG, map3. rewrite HL. cbn. destruct (GlobalSize ndr). by rewrite !Z.div_1_r. Qed.

Lemma numWG_resized :
  numWG resized_ndr = mkR T (d1 (GlobalSize ndr)) (d2 (GlobalSize ndr)).
Proof.
  pose proof ipt_pos. unfold numWG, map3, resized_ndr. cbn.
  by rewrite Z.div_mul, !Z.div_1_r by lia.
Qed.

Lemma covered_range : covered ndr = map3 Z.add (GlobalOffset ndr) <$> box (GlobalSize ndr).
Proof.
  unfold covered, whole_groups, map3 at 2. rewrite HL. cbn [d0 d1 d2].
  rewrite !Z.div_1_r, !Z.mul_1_l. by destruct (GlobalSize ndr).
Qed.

(** A peeled call runs one item. *)
Lemma peeled_item g :
  g ∈ box (GlobalSize ndr) →
  items_of (update_group g (state_of ndr)) = [map3 Z.add (GlobalOffset ndr) g].
Proof.
  intros (H0 & H1 & H2)%elem_of_box. destruct HA as (A0 & A1 & A2).
  assert (Hax : ∀ G off x, axis_ok G 1 off → 0 ≤ x < G → w64 (w64 (w64 (1 * x) + 0) + off) = off + x).
  { intros G off x HG' Hx. destruct (axis_id G 1 off x 0) as [-> _]; [done| |lia|lia].
    by rewrite Z.div_1_r. }
  rewrite HL in A0, A1, A2. unfold items_of. cbn [MWorkGroup_size update_group state_of].
  rewrite HL. change (box (mkR 1 1 1)) with [zero3].
  cbn [fmap list_fmap map]. unfold global_id, map3. cbn. rewrite HL. cbn [d0 d1 d2].
  do 2 f_equal; (eapply Hax; eassumption).
Qed.

(** The tasks are the whole-group calls of the resized launch. *)
Lemma range_tasks resized :
  MWorkGroup_size resized = mkR ipt 1 1 → MGlobalOffset resized = GlobalOffset ndr →
  (outer12 (GlobalSize ndr) ≫= λ '(g1, g2),
     (λ g0, update_group (mkR g0 g1 g2) resized) <$> seqZ 0 T) ≫= items_of ≡ₚ
  map3 Z.add (GlobalOffset ndr) <$>
    box (mkR (T * ipt) (d1 (GlobalSize ndr)) (d2 (GlobalSize ndr))).
Proof.
  intros Hs Ho. pose proof (groups_cover resized_ndr resized resized_launchable Hs Ho) as Hc.
  fold (numWG resized_ndr) in Hc. rewrite numWG_resized in Hc.
  replace (covered resized_ndr) with (map3 Z.add (GlobalOffset ndr) <$>
    box (mkR (T * ipt) (d1 (GlobalSize ndr)) (d2 (GlobalSize ndr)))) in Hc.
  2: { unfold covered. do 2 f_equal. unfold whole_groups, map3, resized_ndr. cbn.
       pose proof ipt_pos. rewrite Z.div_mul, !Z.div_1_r by lia. f_equal; lia. }
  rewrite <-Hc, <-(outer12_box (mkR T _ _)). apply reflexive_eq.
  rewrite !bind_bind. apply bind_ext_in. intros [y z] _. cbn [d0]. rewrite !fmap_bind.
  apply bind_ext_in. intros x _. unfold items_of. cbn [MWorkGroup_size update_group]. by rewrite Hs.
Qed.

Lemma range_peel lo n :
  0 ≤ lo → lo + n ≤ d0 (GlobalSize ndr) →
  (outer12 (GlobalSize ndr) ≫= λ '(g1, g2),
     (λ g0, update_group (mkR g0 g1 g2) (state_of ndr)) <$> seqZ lo n) ≫= items_of =
  map3 Z.add (GlobalOffset ndr) <$>
    (outer12 (GlobalSize ndr) ≫= λ '(g1, g2), (λ g0, mkR g0 g1 g2) <$> seqZ lo n).
Proof.
  intros Hlo Hn. rewrite bind_fmap, bind_bind. apply bind_ext_in. intros [y z] Hyz.
  rewrite fmap_bind. apply list_elem_of_bind in Hyz as (z' & Hy & Hz%elem_of_seqZ).
  apply list_elem_of_fmap in Hy as (y' & [= -> ->] & Hy%elem_of_seqZ).
  assert (Hx : ∀ x, x ∈ seqZ lo n → items_of (update_group (mkR x y' z') (state_of ndr)) =
    [map3 Z.add (GlobalOffset ndr) (mkR x y' z')]).
  { intros x Hx%elem_of_seqZ. apply peeled_item, elem_of_box. cbn. lia. }
  rewrite (bind_ext_in _ _ _ Hx), <-list_fmap_compose. clear Hx.
  induction (seqZ lo n) as [|x l IH]; [done|]. cbn. by f_equal.
Qed.

Lemma run_range_ok fuel resized :
  enough fuel (GlobalSize ndr) → T < Z.of_nat fuel →
  resized = mkState zero3 (GlobalSize ndr) (mkR ipt 1 1) zero3 zero3 (MNumGroups resized)
              (GlobalOffset ndr) →
  ∃ sch, run_range fuel T ndr (GlobalSize ndr) (state_of ndr) resized ipt = Some sch ∧
    executed true sch ≡ₚ covered ndr.
Proof.
  intros HF HfT Hres. pose proof ipt_pos as Hp. pose proof ipt_le as Hle.
  destruct (HA) as ((G0 & _ & _) & (G1 & _ & _) & (G2 & _ & _)).
  unfold run_range. rewrite nest12_outer by done. cbn [mbind option_bind].
  assert (Hw : w32 (w64 (T * ipt)) = T * ipt)
    by (unfold w32, w64; rewrite (Z.mod_small (T * ipt)) by lia; apply Z.mod_small; lia).
  rewrite Hw, (for_u32_from0 fuel T), (for_u32_seqZ fuel (T * ipt))
    by (try done; destruct HF as (F0 & _); lia).
  cbn [mbind option_bind].
  rewrite (mapM_Some_2 _ _ ((λ '(g1, g2), mkSchedule
     ((λ g0, [update_group (mkR g0 g1 g2) resized]) <$> seqZ 0 T)
     ((λ g0, update_group (mkR g0 g1 g2) (state_of ndr)) <$>
        seqZ (T * ipt) (d0 (GlobalSize ndr) - T * ipt))) <$> outer12 (GlobalSize ndr)))
    by (apply Forall2_fmap_r, Forall_Forall2_diag, Forall_forall; by intros [y z] _).
  eexists. split; [done|]. unfold executed.
  rewrite bind_app, flatten_tasks, flatten_inline, !fmap_bind.
  rewrite covered_range.
  transitivity (map3 Z.add (GlobalOffset ndr) <$>
    box (mkR (T * ipt + (d0 (GlobalSize ndr) - T * ipt)) (d1 (GlobalSize ndr)) (d2 (GlobalSize ndr)))).
  2: { apply reflexive_eq. do 2 f_equal. destruct (GlobalSize ndr). cbn. f_equal. lia. }
  rewrite box_split by lia. rewrite fmap_app. apply Permutation_app.
  - rewrite <-(range_tasks resized) by (rewrite Hres; done).
    apply reflexive_eq. f_equal. apply bind_ext_in. intros [y z] _. cbn [tasks].
    rewrite flat_fmap. induction (seqZ 0 T) as [|x l IH]; [done|]. cbn. by f_equal.
  - apply reflexive_eq. rewrite <-(range_peel (T * ipt)) by lia. f_equal. apply bind_ext_in.
    by intros [y z] _.
Qed.
End range.

(** *** The launch *)

Lemma length_box n :
  0 ≤ d0 n → 0 ≤ d1 n → 0 ≤ d2 n → Z.of_nat (length (box n)) = d0 n * (d1 n * d2 n).
Proof.
  intros H0 H1 H2.
  assert (Hl : ∀ {A} (f : Z → list A) k m, 0 ≤ k → (∀ z, Z.of_nat (length (f z)) = m) →
    Z.of_nat (length (seqZ 0 k ≫= f)) = k * m).
  { intros A f k m Hk Hf. rewrite <-(Z2Nat.id k) at 2 by done.
    rewrite <-(length_seqZ 0 k). induction (seqZ 0 k) as [|z l IH]; [done|].
    cbn [mbind list_bind length]. rewrite length_app, Nat2Z.inj_add, Hf, IH. lia. }
  unfold box. rewrite (Hl _ _ _ (d1 n * d0 n)); [ring|done|]. intros z.
  apply Hl; [done|]. intros y. rewrite length_fmap, length_seqZ. lia.
Qed.

Lemma NoDup_covered ndr : NoDup (covered ndr).
Proof. apply NoDup_fmap_2; [|apply NoDup_box]. intros [] [] [= ???]. f_equal; lia. Qed.

Lemma covered_all ndr :
  (d0 (LocalSize ndr) | d0 (GlobalSize ndr)) → (d1 (LocalSize ndr) | d1 (GlobalSize ndr)) →
  (d2 (LocalSize ndr) | d2 (GlobalSize ndr)) → launchable ndr → covered ndr = index_space ndr.
Proof.
  intros D0 D1 D2 ((_ & P0 & _) & (_ & P1 & _) & (_ & P2 & _)). unfold covered, index_space.
  do 2 f_equal. unfold whole_groups, map3. destruct (GlobalSize ndr) as [G0 G1 G2]. cbn in *.
  f_equal; symmetry; apply Z_div_exact_full_2; try lia; by apply Z.mod_divide; [lia|].
Qed.

Section launch.
Context (fuel : nat) (T : Z) (ndr : NDRDescT).
Hypothesis HA : launchable ndr.
Hypothesis HF : enough fuel (GlobalSize ndr).
Hypothesis HFT : T < Z.of_nat fuel.
Hypothesis HT : 1 ≤ T < 2 ^ 32.

Lemma executed_groups sch :
  flat (tasks sch) ++ inline sch = ((λ g, update_group g (state_of ndr)) <$> box (numWG ndr)) →
  executed true sch ≡ₚ covered ndr.
Proof.
  intros E. unfold executed. rewrite E, group_calls_items.
  by rewrite (groups_cover ndr (state_of ndr)).
Qed.

Lemma few_groups :
  w64 (d1 (numWG ndr) * d2 (numWG ndr)) < T →
  Z.of_nat (length (box (numWG ndr))) < 2 ^ 64 ∧
  Z.of_nat (length (box (numWG ndr))) / T ≤ d0 (numWG ndr).
Proof.
  destruct (numWG_bounds ndr HA) as ([B0 _] & [B1 _] & [B2 _]).
  unfold w64. rewrite Z.mod_small by nia. intros Hlt. rewrite length_box by lia.
  split; [nia|]. apply Z.div_le_upper_bound; nia.
Qed.

Lemma run_pool_ok hasLocalArgs :
  ∃ sch, run_pool fuel T hasLocalArgs ndr (numWG ndr) (state_of ndr) = Some (Ret sch) ∧
    executed true sch ≡ₚ covered ndr.
Proof.
  unfold run_pool. destruct (_ && _ && _) eqn:Hr.
  - rewrite !andb_true_iff, !Z.eqb_eq, Z.ltb_lt in Hr. destruct Hr as [[[[L0 L1] L2] HG] _].
    assert (HL : LocalSize ndr = mkR 1 1 1) by (destruct (LocalSize ndr); cbn in *; by subst).
    destruct (Z.eqb_spec T 0); [lia|]. unfold getResizedState, new_state.
    pose proof (ipt_pos ndr T HT HG).
    rewrite div3_ok by (cbn; lia). cbn [mbind outcome_bind mret outcome_ret].
    rewrite L1, L2, (numWG_range ndr T HL HG).
    match goal with |- context [run_range _ _ _ _ _ ?r _] =>
      destruct (run_range_ok ndr T HA HL HT HG fuel r HF HFT eq_refl) as (sch & Hrun & Hsch)
    end.
    exists sch. by rewrite Hrun.
  - destruct (Z.leb_spec T (w64 (d1 (numWG ndr) * d2 (numWG ndr)))) as [Hle|Hlt].
    + destruct (run_outer_ok fuel ndr HA HF) as (sch & -> & Hi & Ht). cbn [mbind option_bind].
      destruct (Z.eqb_spec T 0); [lia|]. exists sch. split; [done|].
      apply executed_groups. by rewrite Hi, app_nil_r.
    + destruct (few_groups Hlt) as [Hlen Hdiv].
      destruct (numWG_bounds ndr HA) as ([B0 E0] & [B1 _] & [B2 _]).
      rewrite nest_box by auto using numWG_enough. cbn [mbind option_bind].
      edestruct (run_chunks_ok fuel T ((λ g, update_group g (state_of ndr)) <$> box (numWG ndr)))
        as (sch & -> & Hi & Ht); rewrite ?length_fmap; try done.
      * eapply Z.le_lt_trans; [done|]. apply B0.
      * eapply Z.le_lt_trans; [done|]. eapply Z.le_lt_trans; [done|]. apply HF.
      * exists sch. split; [done|]. apply executed_groups. by rewrite Hi, app_nil_r.
Qed.
End launch.

(** ** Properties *)

Lemma launch_unfold fuel use_ock T hasLocalArgs k a :
  check_args k a = UR_RESULT_SUCCESS → launchable (launch_ndr a) →
  urEnqueueKernelLaunch fuel use_ock T hasLocalArgs k a =
  let ndr := launch_ndr a in
  if use_ock then
    fmap (λ o, sch ← o; Ret (UR_RESULT_SUCCESS, sch))
      (run_pool fuel T hasLocalArgs ndr (numWG ndr) (state_of ndr))
  else l ← run_items fuel ndr (numWG ndr) (state_of ndr);
       Some (Ret (UR_RESULT_SUCCESS, mkSchedule [] l)).
Proof.
  intros Hc ((_ & P0 & _) & (_ & P1 & _) & (_ & P2 & _)). unfold urEnqueueKernelLaunch. rewrite Hc.
  rewrite decide_False by (intros Hn; by apply Hn). unfold new_state. rewrite div3_ok by done. done.
Qed.

(** C27: an accepted launch, with or without the construction kit and for any
    number of threads, returns and runs every point of the whole work-groups of
    its range exactly once; when the local size divides the global size, these
    are all the points of the index space.  Every schedule is hence a
    permutation of the plain nest of loops. *)
Theorem every_item_runs_once fuel use_ock T hasLocalArgs k a :
  check_args k a = UR_RESULT_SUCCESS → launchable (launch_ndr a) → 1 ≤ T < 2 ^ 32 →
  enough fuel (GlobalSize (launch_ndr a)) → enough fuel (LocalSize (launch_ndr a)) →
  T < Z.of_nat fuel →
  ∃ sch, urEnqueueKernelLaunch fuel use_ock T hasLocalArgs k a = Some (Ret (UR_RESULT_SUCCESS, sch)) ∧
    executed use_ock sch ≡ₚ covered (launch_ndr a) ∧ NoDup (executed use_ock sch) ∧
    ((d0 (LocalSize (launch_ndr a)) | d0 (GlobalSize (launch_ndr a))) →
     (d1 (LocalSize (launch_ndr a)) | d1 (GlobalSize (launch_ndr a))) →
     (d2 (LocalSize (launch_ndr a)) | d2 (GlobalSize (launch_ndr a))) →
     executed use_ock sch ≡ₚ index_space (launch_ndr a)).
Proof.
  intros Hc HA HT HF HFL HFT. rewrite launch_unfold by done. set (ndr := launch_ndr a) in *.
  assert (∃ sch, (if use_ock then
      fmap (λ o, sch ← o; Ret (UR_RESULT_SUCCESS, sch))
        (run_pool fuel T hasLocalArgs ndr (numWG ndr) (state_of ndr))
    else l ← run_items fuel ndr (numWG ndr) (state_of ndr);
         Some (Ret (UR_RESULT_SUCCESS, mkSchedule [] l))) = Some (Ret (UR_RESULT_SUCCESS, sch)) ∧
    executed use_ock sch ≡ₚ covered ndr) as (sch & Hr & Hp).
  { destruct use_ock.
    - destruct (run_pool_ok fuel T ndr HA HF HFT HT hasLocalArgs) as (sch & -> & Hp). by exists sch.
    - destruct (run_items_ok fuel ndr HA HF HFL) as (l & -> & El). eexists. split; [done|].
      unfold executed. cbn [inline]. by rewrite El, (groups_cover ndr (state_of ndr)). }
  exists sch. cbn zeta. split_and!; [done|done| |].
  - rewrite Hp. apply NoDup_covered.
  - intros D0 D1 D2. by rewrite Hp, covered_all.
Qed.

(** A launch of a 5 x 2 range offset by (10, 0), local size one, 2 threads. *)
Definition sample_launch : launch_args :=
  mkLaunch true true 2 (Some [10; 0]) [5; 2] None.
Definition no_constraints : kernel_constraints := mkConstraints None None None.


Lemma every_item_runs_once_witness :
  launchable (launch_ndr sample_launch) ∧
  ∃ sch, urEnqueueKernelLaunch 6 true 2 false no_constraints sample_launch =
           Some (Ret (UR_RESULT_SUCCESS, sch)) ∧
    executed true sch ≡ₚ covered (launch_ndr sample_launch) ∧ NoDup (executed true sch) ∧
    ((1 | 5) → (1 | 2) → (1 | 1) → executed true sch ≡ₚ index_space (launch_ndr sample_launch)).
Proof.
  assert (H : launchable (launch_ndr sample_launch)) by (split_and!; vm_compute; done).
  split; [exact H|].
  exact (every_item_runs_once 6 true 2 false no_constraints sample_launch eq_refl H
    ltac:(split; vm_compute; done) ltac:(split_and!; vm_compute; done)
    ltac:(split_and!; vm_compute; done) ltac:(vm_compute; done)).
Defined.

Lemma for_u32_head fuel n : 0 < n → for_u32 fuel 0 n = None ∨ ∃ l, for_u32 fuel 0 n = Some (0 :: l).
Proof.
  intros Hn. destruct fuel as [|fuel]; [by left|]. cbn.
  destruct (Z.ltb_spec 0 n); [|lia]. destruct (for_u32 fuel _ n) as [l|]; cbn; eauto.
Qed.

Lemma nest_diverges fuel n : 2 ^ 32 ≤ d0 n → 0 < d1 n → 0 < d2 n → nest fuel n = None.
Proof.
  intros H0 H1 H2. unfold nest.
  destruct (for_u32_head fuel (d2 n) H2) as [->|[l2 ->]]; [done|]. cbn [mbind option_bind].
  destruct (for_u32_head fuel (d1 n) H1) as [->|[l1 ->]]; [done|]. cbn [mbind option_bind].
  cbn [mapM]. by rewrite for_u32_diverges.
Qed.

(** the group counters are 32 bits wide.  Without the construction kit, an
    accepted launch of 2^32 or more work-groups along dimension 0 never
    returns. *)
Theorem launch_never_ends fuel T hasLocalArgs k a :
  check_args k a = UR_RESULT_SUCCESS →
  0 < d0 (LocalSize (launch_ndr a)) → 0 < d1 (LocalSize (launch_ndr a)) →
  0 < d2 (LocalSize (launch_ndr a)) →
  2 ^ 32 ≤ d0 (numWG (launch_ndr a)) → 0 < d1 (numWG (launch_ndr a)) →
  0 < d2 (numWG (launch_ndr a)) →
  urEnqueueKernelLaunch fuel false T hasLocalArgs k a = None.
Proof.
  intros Hc L0 L1 L2 N0 N1 N2. unfold urEnqueueKernelLaunch. rewrite Hc.
  rewrite decide_False by (intros Hn; by apply Hn). unfold new_state. rewrite div3_ok by done.
  cbn [mbind outcome_bind]. fold (numWG (launch_ndr a)). unfold run_items.
  by rewrite (nest_diverges fuel (numWG _)).
Qed.

Lemma launch_never_ends_witness :
  urEnqueueKernelLaunch 100 false 1 false no_constraints
    (mkLaunch true true 1 (Some [0]) [2 ^ 32] None) = None.
Proof. apply launch_never_ends; vm_compute; done. Defined.

(** *** The work-group checks *)

(** A local size at dimension [dim] meets the per-dimension constraints. *)
Definition dim_ok (k : kernel_constraints) (dim : nat) (l : Z) : Prop :=
  (∀ r, ReqdWGSize k = Some r → l = nth3 r dim) ∧ (∀ r, MaxWGSize k = Some r → l ≤ nth3 r dim).

Definition product (l : list Z) : Z := foldr Z.mul 1 l.

Lemma w64_w64 x : w64 (w64 x) = w64 x.
Proof. unfold w64. by rewrite Zmod_mod. Qed.

Lemma w64_mul_l x y : w64 (w64 x * y) = w64 (x * y).
Proof. unfold w64. by rewrite Zmult_mod_idemp_l. Qed.

Lemma dims_cons {k dim l local} :
  (∀ i x, (l :: local) !! i = Some x → dim_ok k (dim + i) x) ↔
  dim_ok k dim l ∧ (∀ i x, local !! i = Some x → dim_ok k (S dim + i) x).
Proof.
  split.
  - intros H. split; [rewrite <-(Nat.add_0_r dim); by apply H|].
    intros i x Hx. rewrite Nat.add_succ_comm. by apply H.
  - intros [H0 H] [|i] x Hx; [injection Hx as <-; by rewrite Nat.add_0_r|].
    rewrite <-Nat.add_succ_comm. by apply H.
Qed.

Lemma check_dims_spec k dim local total :
  total = w64 total →
  (check_dims k dim local total = inl UR_RESULT_ERROR_INVALID_WORK_GROUP_SIZE ∧
    ¬ (∀ i l, local !! i = Some l → dim_ok k (dim + i) l)) ∨
  (check_dims k dim local total = inr (w64 (total * product local)) ∧
    (∀ i l, local !! i = Some l → dim_ok k (dim + i) l)).
Proof.
  revert dim total. induction local as [|l local IH]; intros dim total Ht.
  - right. cbn [product foldr check_dims]. rewrite Z.mul_1_r. by rewrite <-Ht.
  - cbn [check_dims]. setoid_rewrite dims_cons.
    destruct (match ReqdWGSize k with Some _ => _ | None => _ end) eqn:E1.
    { left. split; [done|]. intros [[H _] _]. destruct (ReqdWGSize k) as [r|]; [|done].
      rewrite (H r) in E1 by done. by rewrite Z.eqb_refl in E1. }
    destruct (match MaxWGSize k with Some _ => _ | None => _ end) eqn:E2.
    { left. split; [done|]. intros [[_ H] _]. destruct (MaxWGSize k) as [r|]; [|done].
      specialize (H r eq_refl). apply Z.ltb_lt in E2. lia. }
    assert (Hl : dim_ok k dim l).
    { split; intros r Hr; [rewrite Hr in E1|rewrite Hr in E2].
      - destruct (Z.eqb_spec l (nth3 r dim)); [done|discriminate].
      - by apply Z.ltb_ge in E2. }
    destruct (IH (S dim) (w64 (total * l)) (eq_sym (w64_w64 _))) as [[-> Hn]|[-> Hall]].
    + left. split; [done|]. tauto.
    + right. split; [|done]. rewrite w64_mul_l. do 2 f_equal. cbn. unfold product. lia.
Qed.

(** a local size is accepted exactly when every dimension equals the
    required one and is at most the largest one, and the product of its
    dimensions, in 64 bits, is at most the linear limit; otherwise the launch
    reports an invalid work-group size before anything runs. *)
Theorem check_local_spec k wd local :
  (check_local k wd (Some local) = UR_RESULT_SUCCESS ∧
    (∀ i l, take wd local !! i = Some l → dim_ok k i l) ∧
    (∀ m, MaxLinearWGSize k = Some m → w64 (product (take wd local)) ≤ m)) ∨
  (check_local k wd (Some local) = UR_RESULT_ERROR_INVALID_WORK_GROUP_SIZE ∧
    ¬ ((∀ i l, take wd local !! i = Some l → dim_ok k i l) ∧
       (∀ m, MaxLinearWGSize k = Some m → w64 (product (take wd local)) ≤ m))).
Proof.
  unfold check_local.
  destruct (check_dims_spec k 0 (take wd local) 1 eq_refl) as [[-> Hn]|[-> Hall]].
  - right. split; [done|]. tauto.
  - rewrite Z.mul_1_l. destruct (MaxLinearWGSize k) as [m|].
    + destruct (Z.ltb_spec m (w64 (product (take wd local)))).
      * right. split; [done|]. intros [_ H']. specialize (H' m eq_refl). lia.
      * left. split_and!; [done|done|]. by intros m' [= <-].
    + left. by split_and!.
Qed.

(** A local size whose product wraps passes the linear limit. *)
Example linear_limit_wraps :
  check_local (mkConstraints None None (Some 1024)) 2 (Some [2 ^ 32; 2 ^ 32]) = UR_RESULT_SUCCESS.
Proof. reflexivity. Qed.

(** A tail that no whole group covers is never run. *)
Example tail_dropped :
  map item_of (match urEnqueueKernelLaunch 10 false 1 false no_constraints
    (mkLaunch true true 1 (Some [0]) [5] (Some [2])) with
    | Some (Ret (_, s)) => inline s | _ => [] end) =
  [mkR 0 0 0; mkR 1 0 0; mkR 2 0 0; mkR 3 0 0].
Proof. vm_compute. reflexivity. Qed.

(** Only the first global size is checked against zero. *)
Example zero_second_dimension :
  urEnqueueKernelLaunch 10 false 1 false no_constraints (mkLaunch true true 2 (Some [0; 0]) [5; 0] None)
  = Some (Ret (UR_RESULT_SUCCESS, mkSchedule [] [])).
Proof. vm_compute. reflexivity. Qed.

(** No thread in the pool. *)
Example no_threads :
  urEnqueueKernelLaunch 10 true 0 false no_constraints (mkLaunch true true 1 (Some [0]) [5] None)
  = Some Undef.
Proof. vm_compute. reflexivity. Qed.
