(* ===== verification/NativeCpuThreadPool.v ===== *)
(** * NativeCpuThreadPool: native_cpu/threadpool.hpp

    The worker threads of the pool as a state machine.  A step is one critical
    section of [m_workMutex], one notification, one task, or one step of the
    destructor; steps of different threads interleave freely.  Every worker
    keeps the history of what was pushed to it and of what it ran.  Tasks
    return; a task's future is ready once it has run. *)
From S2P Require Import Prelude UrUtil.

(** ** worker_thread *)

(** Where a worker's loop is: about to take the mutex, waiting on the condition
    variable, in a task, past the task but before [--m_numTasks], or ended. *)
Inductive phase (A : Type) :=
  | Ready | Asleep | Running (a : A) | Ran | Exited.
Arguments Ready {A}. Arguments Asleep {A}. Arguments Running {A} a.
Arguments Ran {A}. Arguments Exited {A}.

Record worker_thread (A : Type) := mkWorker {
  m_threadId : nat;
  m_isRunning : bool;
  m_tasks : list A;
  m_numTasks : Z;
  w_phase : phase A;
  to_notify : nat;        (** calls of [schedule] between the push and the notification *)
  pushed : list A;        (** history *)
  w_done : list (nat * A) (** history: thread id and task *)
}.
Arguments mkWorker {A}. Arguments m_threadId {A}. Arguments m_isRunning {A}.
Arguments m_tasks {A}. Arguments m_numTasks {A}. Arguments w_phase {A}.
Arguments to_notify {A}. Arguments pushed {A}. Arguments w_done {A}.

Section worker.
Context {A : Type}.
Implicit Types w : worker_thread A.

(** The constructor holds the mutex until [m_isRunning] is set. *)
Definition new_worker (threadId : nat) : worker_thread A :=
  mkWorker threadId true [] 0 Ready 0 [] [].

Definition set_phase (p : phase A) w : worker_thread A :=
  mkWorker (m_threadId w) (m_isRunning w) (m_tasks w) (m_numTasks w) p (to_notify w)
    (pushed w) (w_done w).

(** The locked part of [schedule]. *)
Definition push (a : A) w : worker_thread A :=
  mkWorker (m_threadId w) (m_isRunning w) (m_tasks w ++ [a]) (w64 (m_numTasks w + 1)) (w_phase w)
    (S (to_notify w)) (pushed w ++ [a]) (w_done w).

Definition wake (p : phase A) : phase A := match p with Asleep => Ready | _ => p end.

(** [notify_one] at the end of [schedule]; a worker has one thread. *)
Definition notify w : option (worker_thread A) :=
  match to_notify w with
  | O => None
  | S n => Some (mkWorker (m_threadId w) (m_isRunning w) (m_tasks w) (m_numTasks w)
                   (wake (w_phase w)) n (pushed w) (w_done w))
  end.

(** The wait may end without a notification. *)
Definition spurious w : option (worker_thread A) :=
  match w_phase w with Asleep => Some (set_phase Ready w) | _ => None end.

(** The loop from taking the mutex to releasing it: sleep, leave the loop or
  take the first task. *)
Definition take_task w : option (worker_thread A) :=
  match w_phase w with
  | Ready =>
      match m_tasks w with
      | [] => Some (set_phase (if m_isRunning w then Asleep else Exited) w)
      | a :: ts => Some (mkWorker (m_threadId w) (m_isRunning w) ts (m_numTasks w)
                           (Running a) (to_notify w) (pushed w) (w_done w))
      end
  | _ => None
  end.

(** [task(m_threadId)]. *)
Definition run_task w : option (worker_thread A) :=
  match w_phase w with
  | Running a => Some (mkWorker (m_threadId w) (m_isRunning w) (m_tasks w) (m_numTasks w) Ran
                         (to_notify w) (pushed w) (w_done w ++ [(m_threadId w, a)]))
  | _ => None
  end.

(** [--m_numTasks]. *)
Definition count_task w : option (worker_thread A) :=
  match w_phase w with
  | Ran => Some (mkWorker (m_threadId w) (m_isRunning w) (m_tasks w) (w64 (m_numTasks w - 1)) Ready
                   (to_notify w) (pushed w) (w_done w))
  | _ => None
  end.

Definition num_pending_tasks w : Z := m_numTasks w.

(** The locked part of [stop], with [notify_all]. *)
Definition stop w : worker_thread A :=
  mkWorker (m_threadId w) false (m_tasks w) (m_numTasks w) (wake (w_phase w)) (to_notify w)
    (pushed w) (w_done w).

(** [join] returns when the thread has ended. *)
Definition joinable_now w : bool := match w_phase w with Exited => true | _ => false end.
End worker.

(** ** simple_thread_pool *)

(** [destroying] is the worker the destructor is at, and whether it has been
    told to stop. *)
Record simple_thread_pool (A : Type) := mkPool {
  m_workers : list (worker_thread A); destroying : option (nat * bool)
}.
Arguments mkPool {A}. Arguments m_workers {A}. Arguments destroying {A}.

Inductive label (A : Type) :=
  | LPush (i : nat) (a : A) | LNotify (i : nat) | LSpurious (i : nat)
  | LTake (i : nat) | LRun (i : nat) | LCount (i : nat)
  | LDestroy | LStop | LJoin.
Arguments LPush {A} i a. Arguments LNotify {A} i. Arguments LSpurious {A} i.
Arguments LTake {A} i. Arguments LRun {A} i. Arguments LCount {A} i.
Arguments LDestroy {A}. Arguments LStop {A}. Arguments LJoin {A}.

Section pool.
Context {A : Type}.
Implicit Types w : worker_thread A.
Implicit Types p : simple_thread_pool A.

(** [emplace_front] reverses the order. *)
Definition new_pool (m_numThreads : nat) : simple_thread_pool A :=
  mkPool (reverse (new_worker <$> seq 0 m_numThreads)) None.

Definition at_worker (i : nat) (f : worker_thread A → option (worker_thread A)) p
  : option (simple_thread_pool A) :=
  w ← m_workers p !! i; w' ← f w; Some (mkPool (<[i := w']> (m_workers p)) (destroying p)).

(** A call of [schedule] must not overlap the destructor. *)
Definition pool_step (l : label A) p : option (simple_thread_pool A) :=
  match l with
  | LPush i a =>
      if decide (destroying p = None) then at_worker i (λ w, Some (push a w)) p else None
  | LNotify i => at_worker i notify p
  | LSpurious i => at_worker i spurious p
  | LTake i => at_worker i take_task p
  | LRun i => at_worker i run_task p
  | LCount i => at_worker i count_task p
  | LDestroy =>
      if decide (destroying p = None) then
        if forallb (λ w, to_notify w =? 0)%nat (m_workers p)
        then Some (mkPool (m_workers p) (Some (0%nat, false))) else None
      else None
  | LStop =>
      match destroying p with
      | Some (i, false) =>
          p' ← at_worker i (λ w, Some (stop w)) p; Some (mkPool (m_workers p') (Some (i, true)))
      | _ => None
      end
  | LJoin =>
      match destroying p with
      | Some (i, true) =>
          w ← m_workers p !! i;
          if joinable_now w then Some (mkPool (m_workers p) (Some (S i, false))) else None
      | _ => None
      end
  end.

Fixpoint run_pool_steps (ls : list (label A)) p : option (simple_thread_pool A) :=
  match ls with
  | [] => Some p
  | l :: ls' => p' ← pool_step l p; run_pool_steps ls' p'
  end.

(** The destructor has returned. *)
Definition destroyed p : Prop := destroying p = Some (length (m_workers p), false).

(** [std::min_element]: the first smallest. *)
Fixpoint min_element {B} (lt : B → B → bool) (best : nat * B) (i : nat) (l : list B) : nat :=
  match l with
  | [] => best.1
  | x :: l' => min_element lt (if lt x best.2 then (i, x) else best) (S i) l'
  end.

(** Dereferencing the end of an empty list is undefined. *)
Definition best_worker p : outcome nat :=
  match m_workers p with
  | [] => Undef
  | w :: ws => Ret (min_element (λ w1 w2, num_pending_tasks w1 <? num_pending_tasks w2) (0%nat, w) 1 ws)
  end.

(** [schedule] with the counters as they are; under contention the choice is
    any worker. *)
Definition schedule (a : A) p : outcome (option (simple_thread_pool A)) :=
  i ← best_worker p; Ret (run_pool_steps [LPush i a; LNotify i] p).

Definition pool_pending_tasks p : Z := foldl (λ n w, w64 (n + num_pending_tasks w)) 0 (m_workers p).
End pool.

(** ** get_num_threads *)

(** [std::stoul]: white space, an optional sign, the longest digit prefix; a
    minus sign negates in 64 bits. *)
Definition stoul (s : string) : outcome Z :=
  let t := skip_space s in
  let '(sgn, u) :=
    match t with
    | String c u =>
        if Ascii.eqb c "-" then (-1, u)
        else if Ascii.eqb c "+" then (1, u) else (1, t)
    | EmptyString => (1, EmptyString)
    end in
  n ← stoul_digits (take_digits u); Ret (w64 (sgn * n)).

(** [hardware_concurrency] is an argument. *)
Definition get_num_threads (envVar : option string) (hardware_concurrency : Z) : outcome Z :=
  match envVar with Some v => stoul v | None => Ret hardware_concurrency end.

(** The constructor is [noexcept]: an exception here ends the program. *)
Definition make_pool {A} (envVar : option string) (hardware_concurrency : Z)
  : outcome (simple_thread_pool A) :=
  n ← get_num_threads envVar hardware_concurrency; Ret (new_pool (Z.to_nat n)).

(** ** Invariant *)

(** The task a worker holds. *)
Definition held {A} (p : phase A) : list A := match p with Running a => [a] | _ => [] end.
(** The tasks it counts besides the queue. *)
Definition counted {A} (p : phase A) : nat := match p with Running _ | Ran => 1 | _ => 0 end.

Record worker_ok {A} (w : worker_thread A) : Prop := {
  ok_history : pushed w = (w_done w).*2 ++ held (w_phase w) ++ m_tasks w;
  ok_threads : Forall (λ d, d.1 = m_threadId w) (w_done w);
  ok_count : m_numTasks w = w64 (Z.of_nat (counted (w_phase w) + length (m_tasks w)));
  ok_asleep : w_phase w = Asleep → (0 < to_notify w)%nat ∨ (m_isRunning w ∧ m_tasks w = []);
  ok_exited : w_phase w = Exited → m_isRunning w = false ∧ m_tasks w = []
}.

(** What the destructor's progress says about the worker at position [i]. *)
Definition phase_ok {A} (d : option (nat * bool)) (i : nat) (w : worker_thread A) : Prop :=
  match d with
  | None => m_isRunning w = true
  | Some (j, stopped) =>
      to_notify w = 0%nat ∧
      ((i < j)%nat → w_phase w = Exited) ∧
      (i = j → m_isRunning w = negb stopped) ∧
      ((j < i)%nat → m_isRunning w = true)
  end.

Definition pool_ok {A} (p : simple_thread_pool A) : Prop :=
  ∀ i w, m_workers p !! i = Some w →
    worker_ok w ∧ phase_ok (destroying p) i w ∧ (i + S (m_threadId w))%nat = length (m_workers p).

(** ** Lemmas *)

Section worker_lemmas.
Context {A : Type}.
Implicit Types w : worker_thread A.

Lemma new_worker_ok i : worker_ok (new_worker (A := A) i).
Proof. by split. Qed.

Lemma w64_succ n k : n = w64 (Z.of_nat k) → w64 (n + 1) = w64 (Z.of_nat (S k)).
Proof. intros ->. unfold w64. rewrite Zplus_mod_idemp_l. f_equal. lia. Qed.

Lemma push_ok a w : m_isRunning w = true → worker_ok w → worker_ok (push a w).
Proof.
  intros Hr [H1 H2 H3 H4 H5]. split; cbn [m_threadId m_isRunning m_tasks m_numTasks w_phase to_notify pushed w_done push].
  - rewrite H1. by rewrite <-!app_assoc.
  - done.
  - rewrite length_app. cbn [length]. rewrite Nat.add_assoc, Nat.add_1_r. by apply w64_succ.
  - intros _. left. lia.
  - intros He. destruct (H5 He) as [Hn _]. congruence.
Qed.

Lemma wake_inv (p : phase A) : wake p ≠ Asleep.
Proof. by destruct p. Qed.

Lemma wake_held (p : phase A) : held (wake p) = held p ∧ counted (wake p) = counted p.
Proof. by destruct p. Qed.

Lemma wake_Exited (p : phase A) : wake p = Exited ↔ p = Exited.
Proof. by destruct p. Qed.

Lemma notify_ok w w' :
  worker_ok w → notify w = Some w' →
  worker_ok w' ∧ m_isRunning w' = m_isRunning w ∧ m_threadId w' = m_threadId w ∧
  to_notify w = S (to_notify w') ∧ (w_phase w = Exited → w_phase w' = Exited).
Proof.
  intros [H1 H2 H3 H4 H5] Hn. unfold notify in Hn. destruct (to_notify w) as [|n]; [done|].
  injection Hn as <-. destruct (wake_held (w_phase w)) as [Hh Hc]. split; [|cbn; by rewrite wake_Exited].
  split; cbn [m_threadId m_isRunning m_tasks m_numTasks w_phase to_notify pushed w_done];
    rewrite ?Hh, ?Hc; try done.
  - intros E. by apply wake_inv in E.
  - by rewrite wake_Exited.
Qed.

(** A step of the worker's own thread, or a wake-up without notification. *)
Definition own_step w w' : Prop :=
  spurious w = Some w' ∨ take_task w = Some w' ∨ run_task w = Some w' ∨ count_task w = Some w'.

Lemma own_step_ok w w' :
  worker_ok w → own_step w w' →
  worker_ok w' ∧ m_isRunning w' = m_isRunning w ∧ m_threadId w' = m_threadId w ∧
  to_notify w' = to_notify w ∧ w_phase w ≠ Exited ∧ pushed w' = pushed w.
Proof.
  intros [H1 H2 H3 H4 H5] [Hs|[Hs|[Hs|Hs]]].
  - unfold spurious in Hs. destruct (w_phase w) eqn:E; try done. injection Hs as <-.
    split; [|done]. by split.
  - unfold take_task in Hs. destruct (w_phase w) eqn:E; try done.
    destruct (m_tasks w) as [|a ts] eqn:Et; injection Hs as <-; (split; [|done]).
    + split; cbn; rewrite ?Et in *; destruct (m_isRunning w) eqn:Er; cbn; naive_solver.
    + split; cbn; try done.
  - unfold run_task in Hs. destruct (w_phase w) as [| |a| |] eqn:E; try done. injection Hs as <-.
    split; [|done]. split; cbn; try done.
    + rewrite H1, fmap_app, <-!app_assoc. done.
    + apply Forall_app. by split; [|constructor].
  - unfold count_task in Hs. destruct (w_phase w) eqn:E; try done. injection Hs as <-.
    split; [|done]. split; cbn; try done.
    rewrite H3. unfold w64. rewrite Zminus_mod_idemp_l. f_equal. cbn. lia.
Qed.

Lemma stop_ok w :
  worker_ok w → worker_ok (stop w).
Proof.
  intros [H1 H2 H3 H4 H5]. destruct (wake_held (w_phase w)) as [Hh Hc].
  split; cbn [m_threadId m_isRunning m_tasks m_numTasks w_phase to_notify pushed w_done stop];
    rewrite ?Hh, ?Hc; try done.
  - intros E. by apply wake_inv in E.
  - rewrite wake_Exited. intros E. split; [done|]. by apply H5.
Qed.
End worker_lemmas.

Section pool_lemmas.
Context {A : Type}.
Implicit Types w : worker_thread A.
Implicit Types p : simple_thread_pool A.

Lemma new_pool_ok n : pool_ok (new_pool (A := A) n).
Proof.
  intros i w Hw. unfold new_pool in Hw. cbn [m_workers] in Hw.
  assert (Hi : (i < n)%nat).
  { apply lookup_lt_Some in Hw. by rewrite length_reverse, length_fmap, length_seq in Hw. }
  rewrite reverse_lookup in Hw by (rewrite length_fmap, length_seq; done).
  rewrite length_fmap, length_seq, list_lookup_fmap, lookup_seq_lt in Hw by lia.
  injection Hw as <-. split_and!; [apply new_worker_ok|done|].
  cbn [m_workers new_pool]. rewrite length_reverse, length_fmap, length_seq. cbn. lia.
Qed.

(** A step at one worker, the destructor standing still. *)
Lemma at_worker_ok i f p p' :
  pool_ok p → at_worker i f p = Some p' →
  (∀ w w', m_workers p !! i = Some w → f w = Some w' → worker_ok w → phase_ok (destroying p) i w →
     worker_ok w' ∧ phase_ok (destroying p) i w' ∧ m_threadId w' = m_threadId w) →
  pool_ok p' ∧ destroying p' = destroying p ∧ length (m_workers p') = length (m_workers p).
Proof.
  intros Hp Ha Hf. unfold at_worker in Ha.
  destruct (m_workers p !! i) as [w|] eqn:Hw; [|done]. cbn in Ha.
  destruct (f w) as [w'|] eqn:Hfw; [|done]. injection Ha as <-.
  destruct (Hp i w Hw) as (Hok & Hph & Hid). destruct (Hf w w' eq_refl Hfw Hok Hph) as (Hok' & Hph' & Hid').
  split; [|cbn; by rewrite length_insert]. intros k x Hk. cbn in Hk |- *. rewrite length_insert.
  destruct (decide (k = i)) as [->|Hne].
  - rewrite list_lookup_insert_eq in Hk by (by eapply lookup_lt_Some). injection Hk as <-.
    split_and!; [done|done|]. by rewrite Hid'.
  - rewrite list_lookup_insert_ne in Hk by done. by apply Hp.
Qed.

Lemma own_step_phase d i w w' : own_step w w' → worker_ok w → phase_ok d i w → phase_ok d i w'.
Proof.
  intros Hs Hok Hph. destruct (own_step_ok w w' Hok Hs) as (_ & Hr & _ & Hn & Hne & _).
  unfold phase_ok in *. rewrite Hr, Hn. destruct d as [[j b]|]; [|done].
  destruct Hph as (H1 & H2 & H3 & H4). split_and!; [done| |done|done]. intros Hlt. by destruct Hne; auto.
Qed.

Lemma own_at_worker_ok i f p p' :
  (∀ w w', f w = Some w' → own_step w w') → pool_ok p → at_worker i f p = Some p' →
  pool_ok p' ∧ destroying p' = destroying p ∧ length (m_workers p') = length (m_workers p).
Proof.
  intros Hf Hp Ha. apply (at_worker_ok i f p p' Hp Ha). intros w w' _ Hw Hok Hph.
  pose proof (Hf w w' Hw) as Hown. destruct (own_step_ok w w' Hok Hown) as (? & _ & ? & _).
  split_and!; [done| |done]. by apply (own_step_phase _ i w).
Qed.

Lemma pool_step_ok l p p' :
  pool_ok p → pool_step l p = Some p' →
  pool_ok p' ∧ length (m_workers p') = length (m_workers p).
Proof.
  intros Hp Hs. destruct l as [i a|i|i|i|i|i| | |]; cbn in Hs.
  - case_decide as Hd; [|done]. destruct (at_worker_ok i _ p p' Hp Hs) as (? & _ & ?); [|done].
    intros w w' _ [= <-] Hok Hph. rewrite Hd in Hph |- *. split_and!; [by apply push_ok|done|done].
  - destruct (at_worker_ok i _ p p' Hp Hs) as (? & _ & ?); [|done].
    intros w w' _ Hn Hok Hph. destruct (notify_ok w w' Hok Hn) as (H1 & H2 & H3 & H4 & H5).
    split_and!; [done| |done]. unfold phase_ok in *. rewrite H2.
    destruct (destroying p) as [[j b]|]; [|done]. destruct Hph. lia.
  - destruct (own_at_worker_ok i _ p p' (λ w w' H, or_introl H) Hp Hs); naive_solver.
  - destruct (own_at_worker_ok i _ p p' (λ w w' H, or_intror (or_introl H)) Hp Hs); naive_solver.
  - destruct (own_at_worker_ok i _ p p' (λ w w' H, or_intror (or_intror (or_introl H))) Hp Hs); naive_solver.
  - destruct (own_at_worker_ok i _ p p' (λ w w' H, or_intror (or_intror (or_intror H))) Hp Hs); naive_solver.
  - case_decide as Hd; [|done]. destruct (forallb _ _) eqn:Hf; [|done]. injection Hs as <-.
    split; [|done]. intros i w Hw. cbn in Hw |- *. destruct (Hp i w Hw) as (? & Hph & ?).
    split; [done|]. split; [|done]. rewrite Hd in Hph. rewrite forallb_forall in Hf.
    specialize (Hf w). rewrite <-list_elem_of_In in Hf. apply list_elem_of_lookup_2 in Hw.
    apply Hf, Nat.eqb_eq in Hw. split_and!; [done|lia|done|done].
  - destruct (destroying p) as [[i []]|] eqn:Hd; [done| |done].
    unfold at_worker in Hs. destruct (m_workers p !! i) as [w|] eqn:Hw; [|done].
    injection Hs as <-. split; [|cbn; by rewrite length_insert]. intros k x Hk. cbn in Hk |- *.
    rewrite length_insert. destruct (Hp i w Hw) as (Hok & Hph & Hid). rewrite Hd in Hph.
    destruct Hph as (H1 & H2 & H3 & H4). destruct (decide (k = i)) as [->|Hne].
    + rewrite list_lookup_insert_eq in Hk by (by eapply lookup_lt_Some). injection Hk as <-.
      split; [by apply stop_ok|]. split; [|done]. split_and!; [done|lia|done|lia].
    + rewrite list_lookup_insert_ne in Hk by done. destruct (Hp k x Hk) as (? & Hph' & ?).
      split; [done|]. split; [|done]. rewrite Hd in Hph'. destruct Hph' as (?&?&?&?).
      split_and!; [done|done|done|done].
  - destruct (destroying p) as [[i []]|] eqn:Hd; [|done|done].
    destruct (m_workers p !! i) as [w|] eqn:Hw; [|done]. cbn in Hs.
    destruct (joinable_now w) eqn:Hj; [|done]. injection Hs as <-. split; [|done].
    intros k x Hk. cbn in Hk |- *. destruct (Hp k x Hk) as (? & Hph & ?). split; [done|]. split; [|done].
    rewrite Hd in Hph. destruct Hph as (H1 & H2 & H3 & H4). split_and!; [done| |intros ->; apply H4; lia|lia || (intros; apply H4; lia)].
    intros Hlt. destruct (decide (k = i)) as [->|Hne]; [|apply H2; lia].
    rewrite Hw in Hk. injection Hk as <-. unfold joinable_now in Hj. by destruct (w_phase w).
Qed.

Lemma run_pool_steps_ok ls p p' :
  pool_ok p → run_pool_steps ls p = Some p' →
  pool_ok p' ∧ length (m_workers p') = length (m_workers p).
Proof.
  revert p. induction ls as [|l ls IH]; intros p Hp Hr; cbn in Hr; [by injection Hr as <-|].
  destruct (pool_step l p) as [q|] eqn:Hs; [|done]. destruct (pool_step_ok l p q Hp Hs) as [Hq Hl].
  destruct (IH q Hq Hr) as [? ?]. split; [done|congruence].
Qed.
End pool_lemmas.

(** ** What was pushed and what ran *)

Definition all_pushed {A} (p : simple_thread_pool A) : list A := m_workers p ≫= pushed.
Definition all_done {A} (p : simple_thread_pool A) : list A := m_workers p ≫= λ w, (w_done w).*2.
(** The tasks given to the pool by a run. *)
Definition pushes {A} (ls : list (label A)) : list A :=
  omap (λ l, match l with LPush _ a => Some a | _ => None end) ls.

Section history.
Context {A : Type}.
Implicit Types p : simple_thread_pool A.

Lemma insert_bind {B C} (l : list B) i x y (f : B → list C) e :
  l !! i = Some x → f y = f x ++ e → <[i := y]> l ≫= f ≡ₚ (l ≫= f) ++ e.
Proof.
  intros Hx Hf. revert i Hx. induction l as [|z l IH]; intros [|i] Hx; try discriminate; cbn in *.
  - injection Hx as ->. rewrite Hf. solve_Permutation.
  - rewrite (IH i Hx). by rewrite app_assoc.
Qed.

Lemma at_worker_pushed i f e p p' :
  at_worker i f p = Some p' → (∀ w w', f w = Some w' → pushed w' = pushed w ++ e) →
  all_pushed p' ≡ₚ all_pushed p ++ e.
Proof.
  intros Ha Hf. unfold at_worker in Ha. destruct (m_workers p !! i) as [w|] eqn:Hw; [|done].
  cbn in Ha. destruct (f w) as [w'|] eqn:Hfw; [|done]. injection Ha as <-.
  by apply (insert_bind _ _ w); [|apply Hf].
Qed.

Lemma pool_step_pushed l p p' :
  pool_step l p = Some p' → all_pushed p' ≡ₚ all_pushed p ++ pushes [l].
Proof.
  intros Hs. destruct l as [i a|i|i|i|i|i| | |]; cbn in Hs |- *;
    try (eapply at_worker_pushed; [eassumption|]; intros w w' Hf; rewrite app_nil_r).
  - case_decide; [|done]. eapply at_worker_pushed; [eassumption|]. by intros w w' [= <-].
  - unfold notify in Hf. destruct (to_notify w); [done|]. by injection Hf as <-.
  - unfold spurious in Hf. destruct (w_phase w); try done. by injection Hf as <-.
  - unfold take_task in Hf. destruct (w_phase w); try done.
    destruct (m_tasks w); by injection Hf as <-.
  - unfold run_task in Hf. destruct (w_phase w); try done. by injection Hf as <-.
  - unfold count_task in Hf. destruct (w_phase w); try done. by injection Hf as <-.
  - rewrite app_nil_r. case_decide; [|done]. destruct (forallb _ _); [|done]. by injection Hs as <-.
  - destruct (destroying p) as [[i []]|]; [done| |done].
    destruct (at_worker i _ p) as [q|] eqn:Ha; [|done]. injection Hs as <-.
    change (all_pushed (mkPool (m_workers q) (Some (i, true)))) with (all_pushed q).
    eapply at_worker_pushed; [exact Ha|]. intros w w' [= <-]. by rewrite app_nil_r.
  - rewrite app_nil_r. destruct (destroying p) as [[i []]|]; [|done|done].
    destruct (m_workers p !! i) as [w|]; [|done]. cbn in Hs.
    destruct (joinable_now w); [|done]. by injection Hs as <-.
Qed.

Lemma run_pool_pushed ls p p' :
  run_pool_steps ls p = Some p' → all_pushed p' ≡ₚ all_pushed p ++ pushes ls.
Proof.
  revert p. induction ls as [|l ls IH]; intros p Hr; cbn in Hr.
  - injection Hr as <-. by rewrite app_nil_r.
  - destruct (pool_step l p) as [q|] eqn:Hs; [|done]. rewrite (IH q Hr), (pool_step_pushed l p q Hs).
    rewrite <-app_assoc. by destruct l.
Qed.

Lemma new_pool_pushed n : all_pushed (new_pool (A := A) n) = [].
Proof.
  unfold all_pushed, new_pool. cbn. assert (H : ∀ l, (∀ w, w ∈ l → pushed w = []) → l ≫= pushed (A := A) = []).
  { induction l as [|w l IH]; intros Hl; [done|]. cbn. rewrite (Hl w) by (by left).
    apply IH. intros x Hx. apply Hl. by right. }
  apply H. intros w Hw. apply elem_of_reverse, list_elem_of_fmap in Hw as (i & -> & _). done.
Qed.

(** A pool with nothing held and nothing queued has run all it was given. *)
Lemma all_done_pushed p :
  (∀ i w, m_workers p !! i = Some w → (w_done w).*2 = pushed w) → all_done p = all_pushed p.
Proof.
  unfold all_done, all_pushed. induction (m_workers p) as [|w l IH]; intros H; [done|]. cbn.
  rewrite (H 0%nat w) by done. f_equal. apply IH. intros i x Hx. by apply (H (S i)).
Qed.

Lemma at_worker_done i f p p' :
  at_worker i f p = Some p' → (∀ w w', f w = Some w' → w_done w `prefix_of` w_done w') →
  ∃ e, all_done p' ≡ₚ all_done p ++ e.
Proof.
  intros Ha Hf. unfold at_worker in Ha. destruct (m_workers p !! i) as [w|] eqn:Hw; [|done].
  cbn in Ha. destruct (f w) as [w'|] eqn:Hfw; [|done]. injection Ha as <-.
  destruct (Hf w w' Hfw) as [e He]. exists (e.*2). apply (insert_bind _ _ w); [done|].
  by rewrite He, fmap_app.
Qed.

Lemma pool_step_done l p p' : pool_step l p = Some p' → ∃ e, all_done p' ≡ₚ all_done p ++ e.
Proof.
  intros Hs. destruct l as [i a|i|i|i|i|i| | |]; cbn in Hs |- *;
    try (eapply at_worker_done; [eassumption|]; intros w w' Hf).
  - case_decide; [|done]. eapply at_worker_done; [eassumption|]. by intros w w' [= <-].
  - unfold notify in Hf. destruct (to_notify w); [done|]. by injection Hf as <-.
  - unfold spurious in Hf. destruct (w_phase w); try done. by injection Hf as <-.
  - unfold take_task in Hf. destruct (w_phase w); try done.
    destruct (m_tasks w); by injection Hf as <-.
  - unfold run_task in Hf. destruct (w_phase w); try done. injection Hf as <-. by eexists.
  - unfold count_task in Hf. destruct (w_phase w); try done. by injection Hf as <-.
  - case_decide; [|done]. destruct (forallb _ _); [|done]. injection Hs as <-.
    exists []. by rewrite app_nil_r.
  - destruct (destroying p) as [[i []]|]; [done| |done].
    destruct (at_worker i _ p) as [q|] eqn:Ha; [|done]. injection Hs as <-.
    eapply (at_worker_done i _ p q); [exact Ha|]. by intros w w' [= <-].
  - exists []. rewrite app_nil_r. destruct (destroying p) as [[i []]|]; [|done|done].
    destruct (m_workers p !! i) as [w|]; [|done]. cbn in Hs.
    destruct (joinable_now w); [|done]. by injection Hs as <-.
Qed.

Lemma run_pool_done ls p p' :
  run_pool_steps ls p = Some p' → ∃ e, all_done p' ≡ₚ all_done p ++ e.
Proof.
  revert p. induction ls as [|l ls IH]; intros p Hr; cbn in Hr.
  - injection Hr as <-. exists []. by rewrite app_nil_r.
  - destruct (pool_step l p) as [q|] eqn:Hs; [|done].
    destruct (pool_step_done l p q Hs) as [e1 H1], (IH q Hr) as [e2 H2].
    exists (e1 ++ e2). by rewrite H2, H1, app_assoc.
Qed.

(** What ran was pushed, and no more often. *)
Lemma done_pushed p : pool_ok p → ∃ e, all_pushed p ≡ₚ all_done p ++ e.
Proof.
  intros Hp. assert (H : ∀ w, w ∈ m_workers p → ∃ e, pushed w = (w_done w).*2 ++ e).
  { intros w (i & Hw)%list_elem_of_lookup. destruct (Hp i w Hw) as ([H _ _ _ _] & _). eauto. }
  unfold all_pushed, all_done. clear Hp. induction (m_workers p) as [|w l IH]; [by exists []|].
  destruct IH as [e He]; [intros x Hx; apply H; by right|].
  destruct (H w) as [e' He']; [by left|]. exists (e' ++ e). cbn. rewrite He', He. solve_Permutation.
Qed.

Lemma destroyed_exited p i w :
  pool_ok p → destroyed p → m_workers p !! i = Some w → w_phase w = Exited.
Proof.
  intros Hp Hd Hw. destruct (Hp i w Hw) as (_ & Hph & _). rewrite Hd in Hph.
  destruct Hph as (_ & H & _). apply H. by eapply lookup_lt_Some.
Qed.
End history.

(** C19: once the destructor has returned, every task given to the pool has run
    exactly once, each worker ran its tasks in the order they were pushed to it
    and under its own thread id, and no queue holds a task: for every number of
    threads and every interleaving. *)
Theorem destroyed_pool_ran_all {A} n (ls : list (label A)) p :
  run_pool_steps ls (new_pool n) = Some p → destroyed p →
  all_done p ≡ₚ pushes ls ∧
  (∀ i w, m_workers p !! i = Some w →
     (w_done w).*2 = pushed w ∧ Forall (λ d, (d.1 < n)%nat ∧ d.1 = m_threadId w) (w_done w) ∧
     m_tasks w = []).
Proof.
  intros Hr Hd. destruct (run_pool_steps_ok ls _ p (new_pool_ok n) Hr) as [Hp Hl].
  assert (Hw : ∀ i w, m_workers p !! i = Some w → (w_done w).*2 = pushed w ∧ m_tasks w = []).
  { intros i w Hw. pose proof (destroyed_exited p i w Hp Hd Hw) as He.
    destruct (Hp i w Hw) as ([H1 _ _ _ H5] & _ & _). destruct (H5 He) as [_ Ht].
    rewrite He, Ht in H1. cbn in H1. by rewrite app_nil_r in H1. }
  split.
  - rewrite all_done_pushed by (intros i w H; by apply (Hw i)).
    by rewrite (run_pool_pushed _ _ _ Hr), new_pool_pushed.
  - intros i w H. destruct (Hw i w H) as [? ?]. split_and!; [done| |done].
    destruct (Hp i w H) as ([_ H2 _ _ _] & _ & Hid). rewrite Hl in Hid.
    cbn in Hid. rewrite length_reverse, length_fmap, length_seq in Hid.
    eapply Forall_impl; [exact H2|]. intros d Hd'. cbn in *. split; [lia|done].
Qed.

(** ** Progress *)

(** Steps left to a worker before it sleeps or ends. *)
Definition worker_weight {A} (w : worker_thread A) : nat :=
  3 * length (m_tasks w) +
  match w_phase w with Exited => 0 | Asleep => 1 | Ready => 2 | Ran => 3 | Running _ => 4 end.

(** Steps left to the destructor. *)
Definition destructor_weight (n : nat) (d : option (nat * bool)) : nat :=
  match d with
  | None => 3 * n + 1
  | Some (i, stopped) => 3 * (n - i) - (if stopped then 2 else 0)
  end.

Definition pool_weight {A} (p : simple_thread_pool A) : nat :=
  sum_list_with worker_weight (m_workers p) + destructor_weight (length (m_workers p)) (destroying p).

(** The steps of worker threads and of the destructor; a wake-up without a
    notification is not one. *)
Definition is_progress {A} (l : label A) : bool :=
  match l with LTake _ | LRun _ | LCount _ | LStop | LJoin => true | _ => false end.

(** The destructor stays within the list. *)
Definition destructor_ok {A} (p : simple_thread_pool A) : Prop :=
  match destroying p with
  | None => True
  | Some (i, stopped) =>
      (i ≤ length (m_workers p))%nat ∧ (stopped = true → (i < length (m_workers p))%nat)
  end.

Section progress.
Context {A : Type}.
Implicit Types p : simple_thread_pool A.

Lemma sum_insert {B} (f : B → nat) l i x y :
  l !! i = Some x → (sum_list_with f (<[i := y]> l) + f x = sum_list_with f l + f y)%nat.
Proof.
  revert i. induction l as [|z l IH]; intros [|i] H; try discriminate; simpl in *.
  - injection H as ->. lia.
  - specialize (IH i H). unfold insert in *. lia.
Qed.

(** A step at a worker that lowers its weight by one lowers the pool's. *)
Lemma at_worker_weight i f p p' :
  at_worker i f p = Some p' → (∀ w w', f w = Some w' → (worker_weight w' < worker_weight w)%nat) →
  (pool_weight p' < pool_weight p)%nat.
Proof.
  intros Ha Hf. unfold at_worker in Ha. destruct (m_workers p !! i) as [w|] eqn:Hw; [|done].
  cbn in Ha. destruct (f w) as [w'|] eqn:Hfw; [|done]. injection Ha as <-.
  unfold pool_weight. cbn [m_workers destroying]. rewrite length_insert.
  pose proof (sum_insert worker_weight _ i w w' Hw). specialize (Hf w w' Hfw). lia.
Qed.

Lemma progress_weight l p p' :
  is_progress l → pool_step l p = Some p' → (pool_weight p' < pool_weight p)%nat.
Proof.
  intros Hl Hs. destruct l as [| | |i|i|i| | |]; try done; cbn in Hs.
  - eapply at_worker_weight; [exact Hs|]. intros w w' Hf. unfold take_task in Hf.
    unfold worker_weight. destruct (w_phase w); try done.
    destruct (m_tasks w) eqn:Et; injection Hf as <-; cbn; rewrite ?Et;
      [destruct (m_isRunning w)|]; cbn; lia.
  - eapply at_worker_weight; [exact Hs|]. intros w w' Hf. unfold run_task in Hf.
    unfold worker_weight. destruct (w_phase w); try done. injection Hf as <-. cbn. lia.
  - eapply at_worker_weight; [exact Hs|]. intros w w' Hf. unfold count_task in Hf.
    unfold worker_weight. destruct (w_phase w); try done. injection Hf as <-. cbn. lia.
  - destruct (destroying p) as [[i []]|] eqn:Hd; [done| |done]. unfold at_worker in Hs.
    destruct (m_workers p !! i) as [w|] eqn:Hw; [|done]. injection Hs as <-.
    unfold pool_weight. cbn [m_workers destroying]. rewrite length_insert, Hd.
    pose proof (sum_insert worker_weight _ i w (stop w) Hw). apply lookup_lt_Some in Hw.
    assert (worker_weight (stop w) ≤ S (worker_weight w))%nat
      by (unfold worker_weight; cbn; destruct (w_phase w); cbn; lia).
    unfold destructor_weight. lia.
  - destruct (destroying p) as [[i []]|] eqn:Hd; [|done|done].
    destruct (m_workers p !! i) as [w|] eqn:Hw; [|done]. cbn in Hs.
    destruct (joinable_now w); [|done]. injection Hs as <-. unfold pool_weight.
    cbn [m_workers destroying]. rewrite Hd. apply lookup_lt_Some in Hw. unfold destructor_weight. lia.
Qed.

(** A worker that is told to stop and has not ended has a step. *)
Lemma stopped_worker_steps i p w :
  pool_ok p → destroying p = Some (i, true) → m_workers p !! i = Some w →
  ∃ l p', is_progress l ∧ pool_step l p = Some p'.
Proof.
  intros Hp Hd Hw. destruct (Hp i w Hw) as ([_ _ _ H4 _] & Hph & _). rewrite Hd in Hph.
  destruct Hph as (Hn & _ & Hr & _). specialize (Hr eq_refl). cbn in Hr.
  destruct (w_phase w) as [| |a| |] eqn:E.
  - exists (LTake i). cbn. unfold at_worker. rewrite Hw. cbn. unfold take_task. rewrite E.
    destruct (m_tasks w); by eexists.
  - destruct (H4 eq_refl) as [H|[H _]]; [lia|by rewrite Hr in H].
  - exists (LRun i). cbn. unfold at_worker. rewrite Hw. cbn. unfold run_task. rewrite E. by eexists.
  - exists (LCount i). cbn. unfold at_worker. rewrite Hw. cbn. unfold count_task. rewrite E. by eexists.
  - exists LJoin. cbn. rewrite Hd, Hw. cbn. unfold joinable_now. rewrite E. by eexists.
Qed.

Lemma destructor_steps p :
  pool_ok p → destructor_ok p → destroying p ≠ None → ¬ destroyed p → ∃ l p', is_progress l ∧ pool_step l p = Some p'.
Proof.
  intros Hp Hb Hn Hnd. unfold destructor_ok in Hb. destruct (destroying p) as [[i b]|] eqn:Hd; [|done].
  destruct Hb as [Hle Hlt].
  assert (Hi : (i < length (m_workers p))%nat).
  { destruct b; [by apply Hlt|]. destruct (decide (i = length (m_workers p))) as [->|]; [|lia].
    by destruct Hnd. }
  destruct (lookup_lt_is_Some_2 _ _ Hi) as [w Hw]. destruct b.
  - by apply (stopped_worker_steps i p w).
  - exists LStop. cbn. rewrite Hd. unfold at_worker. rewrite Hw. cbn. by eexists.
Qed.

Lemma at_worker_destructor i f p p' :
  at_worker i f p = Some p' →
  destroying p' = destroying p ∧ length (m_workers p') = length (m_workers p).
Proof.
  unfold at_worker. destruct (m_workers p !! i) as [w|]; [|done]. cbn.
  destruct (f w); [|done]. intros [= <-]. cbn. by rewrite length_insert.
Qed.

Lemma pool_step_destructor l p p' :
  destructor_ok p → pool_step l p = Some p' →
  destructor_ok p' ∧ (destroying p ≠ None → destroying p' ≠ None).
Proof.
  intros Hd Hs. unfold destructor_ok in *.
  assert (Hat : ∀ i f, at_worker i f p = Some p' →
    match destroying p' with None => True | Some (i, b) =>
      (i ≤ length (m_workers p'))%nat ∧ (b = true → (i < length (m_workers p'))%nat) end ∧
    (destroying p ≠ None → destroying p' ≠ None)).
  { intros i f [-> ->]%at_worker_destructor. done. }
  destruct l as [i a|i|i|i|i|i| | |]; cbn in Hs; try (by eapply Hat).
  - case_decide; [|done]. by eapply Hat.
  - case_decide; [|done]. destruct (forallb _ _); [|done]. injection Hs as <-. cbn. split; [lia|done].
  - destruct (destroying p) as [[i []]|]; [done| |done].
    destruct (at_worker i _ p) as [q|] eqn:Ha; [|done]. injection Hs as <-. cbn.
    pose proof (at_worker_destructor _ _ _ _ Ha) as [_ ->]. split; [|done].
    unfold at_worker in Ha. destruct (m_workers p !! i) eqn:Hi; [|done].
    apply lookup_lt_Some in Hi. lia.
  - destruct (destroying p) as [[i []]|]; [|done|done].
    destruct (m_workers p !! i) as [w|] eqn:Hi; [|done]. cbn in Hs.
    destruct (joinable_now w); [|done]. injection Hs as <-. cbn. apply lookup_lt_Some in Hi.
    split; [|done]. split; [lia|done].
Qed.

Lemma run_pool_destructor ls p p' :
  destructor_ok p → run_pool_steps ls p = Some p' →
  destructor_ok p' ∧ (destroying p ≠ None → destroying p' ≠ None).
Proof.
  revert p. induction ls as [|l ls IH]; intros p Hd Hr; cbn in Hr; [by injection Hr as <-|].
  destruct (pool_step l p) as [q|] eqn:Hs; [|done].
  destruct (pool_step_destructor l p q Hd Hs) as [Hq Hn]. destruct (IH q Hq Hr) as [? Hm]. auto.
Qed.

Lemma progress_bound ls p p' :
  forallb is_progress ls → run_pool_steps ls p = Some p' → (length ls ≤ pool_weight p)%nat.
Proof.
  revert p. induction ls as [|l ls IH]; intros p Hl Hr; cbn in Hr |- *; [lia|].
  cbn in Hl. apply andb_True in Hl as [Hl Hls]. destruct (pool_step l p) as [q|] eqn:Hs; [|done].
  specialize (IH q Hls Hr). pose proof (progress_weight l p q Hl Hs). lia.
Qed.

Lemma progress_to_end p :
  pool_ok p → destructor_ok p → destroying p ≠ None →
  ∃ ls p', forallb is_progress ls ∧ run_pool_steps ls p = Some p' ∧ destroyed p'.
Proof.
  remember (pool_weight p) as n eqn:Hn. revert p Hn.
  induction (lt_wf n) as [n _ IH]; intros p -> Hp Hd Hne.
  destruct (decide (destroying p = Some (length (m_workers p), false))) as [H|H].
  { by exists [], p. }
  destruct (destructor_steps p Hp Hd Hne H) as (l & q & Hl & Hs).
  destruct (pool_step_ok l p q Hp Hs) as [Hq _].
  destruct (pool_step_destructor l p q Hd Hs) as [Hdq Hnq].
  destruct (IH _ (progress_weight l p q Hl Hs) q eq_refl Hq Hdq (Hnq Hne)) as (ls & p' & Hls & Hr & He).
  exists (l :: ls), p'. split_and!; [by apply andb_True|cbn; by rewrite Hs|done].
Qed.
End progress.

(** C28: once the destructor has begun, no interleaving blocks or runs for ever:
    wake-ups without notification aside, any continuation has at most
    [pool_weight] steps, and every one that has not reached the end of the
    destructor can be continued to it.  In particular no worker sleeps through
    its last tasks or through the request to stop. *)
Theorem destructor_terminates {A} n (ls ls' : list (label A)) p p' :
  run_pool_steps ls (new_pool n) = Some p → destroying p ≠ None →
  forallb is_progress ls' → run_pool_steps ls' p = Some p' →
  (length ls' ≤ pool_weight p)%nat ∧
  ∃ ls'' p'', forallb is_progress ls'' ∧ run_pool_steps ls'' p' = Some p'' ∧ destroyed p''.
Proof.
  intros Hr Hne Hl' Hr'. split; [by eapply progress_bound|].
  destruct (run_pool_steps_ok ls _ p (new_pool_ok n) Hr) as [Hp _].
  destruct (run_pool_destructor ls (new_pool n) p I Hr) as [Hd _].
  destruct (run_pool_steps_ok ls' p p' Hp Hr') as [Hp' _].
  destruct (run_pool_destructor ls' p p' Hd Hr') as [Hd' Hn']. apply progress_to_end; auto.
Qed.

(** C39: no wake-up is lost: a worker that sleeps has nothing to do, unless a
    call of [schedule] is about to notify it; and the counter used to choose a
    worker is the length of its queue and the task it runs. *)
Theorem no_lost_wakeup {A} n (ls : list (label A)) p i w :
  run_pool_steps ls (new_pool n) = Some p → m_workers p !! i = Some w →
  (w_phase w = Asleep → to_notify w = 0%nat → m_isRunning w ∧ m_tasks w = []) ∧
  num_pending_tasks w = w64 (Z.of_nat (counted (w_phase w) + length (m_tasks w))).
Proof.
  intros Hr Hw. destruct (run_pool_steps_ok ls _ p (new_pool_ok n) Hr) as [Hp _].
  destruct (Hp i w Hw) as ([_ _ H3 H4 _] & _ & _). split; [|done].
  intros Ha Hn. destruct (H4 Ha); [lia|done].
Qed.

(** A pool of two threads: three tasks, then the destructor. *)
Definition sample_run : list (label nat) :=
  [LTake 1; LPush 0 10; LNotify 0; LPush 1 11; LTake 0; LPush 0 12; LRun 0; LNotify 1; LNotify 0;
   LDestroy; LStop; LTake 1; LCount 0; LTake 0; LRun 0; LRun 1; LCount 0; LTake 0; LJoin;
   LStop; LCount 1; LTake 1; LJoin]%nat.

Definition pool_after (n : nat) (ls : list (label nat)) : simple_thread_pool nat :=
  default (new_pool 0) (run_pool_steps ls (new_pool n)).

Lemma destroyed_pool_ran_all_witness :
  let p := pool_after 2 sample_run in
  all_done p = [10; 12; 11]%nat ∧ all_done p ≡ₚ pushes sample_run ∧
  (∀ i w, m_workers p !! i = Some w →
     (w_done w).*2 = pushed w ∧ Forall (λ d, (d.1 < 2)%nat ∧ d.1 = m_threadId w) (w_done w) ∧
     m_tasks w = []).
Proof.
  split; [vm_compute; reflexivity|].
  apply (destroyed_pool_ran_all 2 sample_run); vm_compute; reflexivity.
Defined.

(** The same run from where the destructor begins. *)
Lemma destructor_terminates_witness :
  let p := pool_after 2 (take 10 sample_run) in
  let p' := pool_after 2 (take 12 sample_run) in
  (2 ≤ pool_weight p)%nat ∧
  ∃ ls p'', forallb is_progress ls ∧ run_pool_steps ls p' = Some p'' ∧ destroyed p''.
Proof.
  apply (destructor_terminates 2 (take 10 sample_run) [LStop; LTake 1%nat]);
    [vm_compute; reflexivity|vm_compute; discriminate|exact I|vm_compute; reflexivity].
Defined.

Lemma no_lost_wakeup_witness :
  ∃ w, m_workers (pool_after 1 [LTake 0; LPush 0 10]%nat) !! 0%nat = Some w ∧
    w_phase w = Asleep ∧ to_notify w = 1%nat ∧
    (w_phase w = Asleep → to_notify w = 0%nat → m_isRunning w ∧ m_tasks w = []) ∧
    num_pending_tasks w = w64 (Z.of_nat (counted (w_phase w) + length (m_tasks w))).
Proof.
  exists (mkWorker 0 true [10%nat] 1 Asleep 1 [10%nat] []). split; [vm_compute; reflexivity|].
  split; [reflexivity|]. split; [reflexivity|].
  apply (no_lost_wakeup 1 [LTake 0; LPush 0 10]%nat (pool_after 1 [LTake 0; LPush 0 10]%nat) 0);
    vm_compute; reflexivity.
Defined.

(** ** The choice of a worker *)

Lemma min_element_bound {B} (lt : B → B → bool) best i l n :
  (best.1 < n)%nat → (i + length l ≤ n)%nat → (min_element lt best i l < n)%nat.
Proof.
  revert best i. induction l as [|x l IH]; intros best i Hb Hi; cbn in *; [done|].
  apply IH; [destruct (lt x best.2); cbn; lia|lia].
Qed.

(** A pool with a thread accepts every task; without one, [schedule] is undefined. *)
Lemma schedule_ok {A} (a : A) p :
  pool_ok p → destroying p = None → m_workers p ≠ [] →
  ∃ p', schedule a p = Ret (Some p') ∧ all_pushed p' ≡ₚ all_pushed p ++ [a].
Proof.
  intros Hp Hd Hne. unfold schedule, best_worker.
  destruct (m_workers p) as [|w ws] eqn:Hws; [done|]. cbn [mbind outcome_bind].
  set (i := min_element _ _ _ _).
  assert (Hi : (i < length (m_workers p))%nat).
  { rewrite Hws. apply min_element_bound; cbn; lia. }
  destruct (lookup_lt_is_Some_2 _ _ Hi) as [x Hx].
  assert (∃ p', run_pool_steps [LPush i a; LNotify i] p = Some p') as [p' Hr].
  { cbn. rewrite decide_True by done. unfold at_worker. rewrite Hx. cbn.
    rewrite list_lookup_insert_eq by done. cbn. by eexists. }
  exists p'. rewrite Hr. split; [done|]. by rewrite (run_pool_pushed _ _ _ Hr).
Qed.

Lemma schedule_no_threads {A} (a : A) : schedule a (new_pool 0) = Undef.
Proof. done. Qed.

Example get_num_threads_tests :
  get_num_threads None 8 = Ret 8 ∧
  get_num_threads (Some " 4x"%string) 8 = Ret 4 ∧
  get_num_threads (Some "-1"%string) 8 = Ret SIZE_MAX ∧
  get_num_threads (Some "0"%string) 8 = Ret 0 ∧
  get_num_threads (Some "all"%string) 8 = Throw Exn_invalid_argument.
Proof. repeat split. Qed.
