(* ===== verification/NativeCpuQueue.v ===== *)
(** * NativeCpuQueue: native_cpu/event.cpp, event.hpp, queue.hpp, enqueue.cpp

    Events, queues and kernel launches on top of the thread pool: a launch
    gives its tasks to the pool and its event the futures; waiting for the event
    waits for the futures.  Calls that wait have no value while a future is not
    ready; the workers' steps during a call are an argument of it.  Time stamps
    and the kernel's local-argument bookkeeping are not in this file. *)
From S2P Require Import Prelude UrUtil NativeCpuThreadPool NativeCpuLaunch.

Inductive ur_command_t :=
  | UR_COMMAND_KERNEL_LAUNCH | UR_COMMAND_EVENTS_WAIT | UR_COMMAND_EVENTS_WAIT_WITH_BARRIER
  | UR_COMMAND_MEM_BUFFER_READ | UR_COMMAND_MEM_BUFFER_WRITE | UR_COMMAND_MEM_BUFFER_COPY
  | UR_COMMAND_USM_MEMCPY | UR_COMMAND_USM_FILL.

(** A task of the pool: the identity of its future, and its kernel calls. *)
Definition task : Type := nat * list state.

#[export] Instance state_eq_dec : EqDecision state.
Proof. solve_decision. Defined.

(** What a launch was asked to do and how it was split (history). *)
Record launch_record := mkLaunched {
  l_hasLocalArgs : bool; l_constraints : kernel_constraints; l_args : launch_args;
  l_schedule : schedule
}.

Record ur_event_handle_t_ := mkEvent {
  e_queue : nat; e_command : ur_command_t; e_done : bool; e_futures : list nat; e_refs : nat;
  e_launch : option launch_record
}.

(** Events are ordered by address. *)
Record ur_queue_handle_t_ := mkQueue { q_events : gset nat; q_inOrder : bool }.

Record world := mkWorld {
  w_pool : simple_thread_pool task;
  w_events : gmap nat ur_event_handle_t_;
  w_queues : gmap nat ur_queue_handle_t_;
  next_event : nat; next_task : nat
}.

Definition UR_QUEUE_FLAG_OUT_OF_ORDER_EXEC_MODE_ENABLE : Z := 1.

(** The constructor; the properties are optional. *)
Definition new_queue (flags : option Z) : ur_queue_handle_t_ :=
  mkQueue ∅ (match flags with
             | Some f => Z.land f UR_QUEUE_FLAG_OUT_OF_ORDER_EXEC_MODE_ENABLE =? 0
             | None => true end).

(** ** Events *)

(** A future is ready once its task has run. *)
Definition is_ready (p : simple_thread_pool task) (id : nat) : bool :=
  bool_decide (id ∈ (all_done p).*1).

Definition on_queue (f : gset nat → gset nat) (q : nat) (qs : gmap nat ur_queue_handle_t_)
  : gmap nat ur_queue_handle_t_ :=
  alter (λ x, mkQueue (f (q_events x)) (q_inOrder x)) q qs.

Definition addEvent (e : nat) := on_queue ({[e]} ∪.).
Definition removeEvent (e : nat) := on_queue (.∖ {[e]}).

(** The constructor. *)
Definition new_event (q : nat) (c : ur_command_t) (l : option launch_record) (futures : list nat)
    (w : world) : option (nat * world) :=
  _ ← w_queues w !! q;
  let e := next_event w in
  Some (e, mkWorld (w_pool w) (<[e := mkEvent q c false futures 1 l]> (w_events w))
             (addEvent e q (w_queues w)) (S e) (next_task w)).

Definition set_done (ev : ur_event_handle_t_) : ur_event_handle_t_ :=
  mkEvent (e_queue ev) (e_command ev) true (e_futures ev) (e_refs ev) (e_launch ev).

(** [wait]; without a value while a future is not ready. *)
Definition wait (e : nat) (w : world) : option world :=
  ev ← w_events w !! e;
  if e_done ev then Some w
  else if forallb (is_ready (w_pool w)) (e_futures ev) then
    Some (mkWorld (w_pool w) (<[e := set_done ev]> (w_events w))
            (removeEvent e (e_queue ev) (w_queues w)) (next_event w) (next_task w))
  else None.

Fixpoint urEventWait (es : list nat) (w : world) : option world :=
  match es with
  | [] => Some w
  | e :: es' => w' ← wait e w; urEventWait es' w'
  end.

Definition set_refs (n : nat) (ev : ur_event_handle_t_) : ur_event_handle_t_ :=
  mkEvent (e_queue ev) (e_command ev) (e_done ev) (e_futures ev) n (e_launch ev).

Definition urEventRetain (e : nat) (w : world) : option world :=
  ev ← w_events w !! e;
  Some (mkWorld (w_pool w) (<[e := set_refs (S (e_refs ev)) ev]> (w_events w)) (w_queues w)
          (next_event w) (next_task w)).

(** [decrementOrDelete]; the destructor waits when the event is not done. *)
Definition urEventRelease (e : nat) (w : world) : option world :=
  ev ← w_events w !! e;
  match e_refs ev with
  | S (S n) =>
      Some (mkWorld (w_pool w) (<[e := set_refs (S n) ev]> (w_events w)) (w_queues w)
              (next_event w) (next_task w))
  | _ =>
      w' ← wait e w;
      Some (mkWorld (w_pool w') (delete e (w_events w')) (w_queues w') (next_event w') (next_task w'))
  end.

(** ** Queues *)

Definition first_event (s : gset nat) : option nat :=
  match elements s with [] => None | x :: l => Some (foldr Nat.min x l) end.

Fixpoint finish (fuel : nat) (q : nat) (w : world) : option world :=
  match fuel with
  | O => None
  | S fuel' =>
      x ← w_queues w !! q;
      match first_event (q_events x) with
      | None => Some w
      | Some e => w' ← wait e w; finish fuel' q w'
      end
  end.

(** ** Commands *)

(** [withTimingEvent] when an event is asked for; the command itself is done
    before it returns. *)
Definition withTimingEvent (c : ur_command_t) (q : nat) (waits : list nat) (w : world)
  : option world :=
  w ← urEventWait waits w;
  p ← new_event q c None [] w; Some p.2.

Definition set_pool (p : simple_thread_pool task) (w : world) : world :=
  mkWorld p (w_events w) (w_queues w) (next_event w) (next_task w).

Section commands.
(** The build option NATIVECPU_USE_OCK, and the fuel of the loops. *)
Context (use_ock : bool) (fuel : nat).

(** A launch: [during] is the interleaving of its pushes with the workers'
    steps, [waiting] the workers' steps while an in-order launch waits. *)
Definition enqueue_launch (q : nat) (waits : list nat) (hasLocalArgs : bool) (k : kernel_constraints)
    (a : launch_args) (during waiting : list (label task)) (w : world)
  : option (ur_result_t * world) :=
  w ← urEventWait waits w;
  r ← urEnqueueKernelLaunch fuel use_ock (Z.of_nat (length (m_workers (w_pool w)))) hasLocalArgs k a;
  match r with
  | Ret (res, sch) =>
      if decide (res ≠ UR_RESULT_SUCCESS) then Some (res, w)
      else
        let ids := seq (next_task w) (length (tasks sch)) in
        if decide (pushes during = zip ids (tasks sch)) then
          p ← run_pool_steps during (w_pool w);
          '(e, w) ← new_event q UR_COMMAND_KERNEL_LAUNCH
                      (Some (mkLaunched hasLocalArgs k a sch)) ids
                      (mkWorld p (w_events w) (w_queues w) (next_event w)
                         (next_task w + length (tasks sch)));
          x ← w_queues w !! q;
          if q_inOrder x then
            if decide (pushes waiting = []) then
              p ← run_pool_steps waiting (w_pool w);
              w ← urEventWait [e] (set_pool p w); Some (res, w)
            else None
          else Some (res, w)
        else None
  | _ => None
  end.

(** The calls of a program, and the workers' steps between them. *)
Inductive action :=
  | APool (l : label task)
  | AQueue (q : nat) (flags : option Z)
  | ALaunch (q : nat) (waits : list nat) (hasLocalArgs : bool) (k : kernel_constraints)
      (a : launch_args) (during waiting : list (label task))
  | ACommand (c : ur_command_t) (q : nat) (waits : list nat)
  | AWait (es : list nat) | ARetain (e : nat) | ARelease (e : nat)
  | AFinish (q : nat).

Definition act (x : action) (w : world) : option world :=
  match x with
  | APool l => if decide (pushes [l] = []) then p ← pool_step l (w_pool w); Some (set_pool p w) else None
  | AQueue q flags =>
      match w_queues w !! q with
      | Some _ => None
      | None => Some (mkWorld (w_pool w) (w_events w) (<[q := new_queue flags]> (w_queues w))
                        (next_event w) (next_task w))
      end
  | ALaunch q waits hl k a during waiting =>
      snd <$> enqueue_launch q waits hl k a during waiting w
  | ACommand c q waits => withTimingEvent c q waits w
  | AWait es => urEventWait es w
  | ARetain e => urEventRetain e w
  | ARelease e => urEventRelease e w
  | AFinish q => finish (S (next_event w)) q w
  end.

Fixpoint run_actions (xs : list action) (w : world) : option world :=
  match xs with
  | [] => Some w
  | x :: xs' => w' ← act x w; run_actions xs' w'
  end.
End commands.

Definition initial (numThreads : nat) : world := mkWorld (new_pool numThreads) ∅ ∅ 0 0.

(** ** Invariant *)

Section invariant.
Context (use_ock : bool) (fuel n : nat).

(** Futures are made once, below [nt]. *)
Record tasks_ok (p : simple_thread_pool task) (nt : nat) : Prop := {
  tk_pool : pool_ok p;
  tk_size : length (m_workers p) = n;
  tk_once : NoDup (all_pushed p).*1;
  tk_fresh : ∀ t, t ∈ all_pushed p → (t.1 < nt)%nat
}.

(** An event's launch went to the pool as its futures. *)
Definition launch_ok (p : simple_thread_pool task) (ev : ur_event_handle_t_) (l : launch_record) : Prop :=
  ∃ ts : list task, ts.*1 = e_futures ev ∧ ts.*2 = tasks (l_schedule l) ∧ NoDup ts.*1 ∧
    (∀ t, t ∈ ts → t ∈ all_pushed p) ∧
    urEnqueueKernelLaunch fuel use_ock (Z.of_nat n) (l_hasLocalArgs l) (l_constraints l) (l_args l) =
      Some (Ret (UR_RESULT_SUCCESS, l_schedule l)).

Definition event_ok (p : simple_thread_pool task) (ev : ur_event_handle_t_) : Prop :=
  (e_done ev = true → forallb (is_ready p) (e_futures ev)) ∧
  match e_launch ev with None => True | Some l => launch_ok p ev l end.

(** Queues hold the events that are not done. *)
Definition queue_ok (evs : gmap nat ur_event_handle_t_) (q : nat) (x : ur_queue_handle_t_) : Prop :=
  ∀ e, e ∈ q_events x ↔ ∃ ev, evs !! e = Some ev ∧ e_queue ev = q ∧ e_done ev = false.

Record world_ok (w : world) : Prop := {
  wk_tasks : tasks_ok (w_pool w) (next_task w);
  wk_fresh : ∀ e ev, w_events w !! e = Some ev → (e < next_event w)%nat;
  wk_events : ∀ e ev, w_events w !! e = Some ev → event_ok (w_pool w) ev;
  wk_queues : ∀ q x, w_queues w !! q = Some x → queue_ok (w_events w) q x;
  wk_home : ∀ e ev, w_events w !! e = Some ev → is_Some (w_queues w !! e_queue ev)
}.

Lemma initial_ok : world_ok (initial n).
Proof.
  split; cbn; try done.
  split; rewrite ?new_pool_pushed; cbn.
  - apply new_pool_ok.
  - by rewrite length_reverse, length_fmap, length_seq.
  - constructor.
  - intros t Ht. by apply not_elem_of_nil in Ht.
Qed.

(** *** The pool moves on *)

Definition pool_le (p p' : simple_thread_pool task) : Prop :=
  (∀ t, t ∈ all_pushed p → t ∈ all_pushed p') ∧ (∀ t, t ∈ all_done p → t ∈ all_done p').

Lemma is_ready_mono p p' l :
  pool_le p p' → forallb (is_ready p) l → forallb (is_ready p') l.
Proof.
  intros [_ H]. rewrite !forallb_True. intros Hl. eapply Forall_impl; [exact Hl|]. intros id.
  unfold is_ready. cbn. rewrite !bool_decide_spec, !list_elem_of_fmap. naive_solver.
Qed.

Lemma event_ok_mono p p' ev : pool_le p p' → event_ok p ev → event_ok p' ev.
Proof.
  intros Hle [H1 H2]. split; [intros Hd; by eapply is_ready_mono; [|apply H1]|].
  destruct (e_launch ev) as [l|]; [|done]. destruct H2 as (ts & ? & ? & ? & H & ?).
  exists ts. split_and!; try done. intros t Ht. by apply Hle, H.
Qed.

Lemma run_pool_tasks ls p p' nt nt' :
  tasks_ok p nt → run_pool_steps ls p = Some p' → (nt ≤ nt')%nat → NoDup (pushes ls).*1 →
  (∀ t, t ∈ pushes ls → (nt ≤ t.1 < nt')%nat) →
  tasks_ok p' nt' ∧ pool_le p p' ∧ (∀ t, t ∈ pushes ls → t ∈ all_pushed p').
Proof.
  intros [Hp Hl Ho Hf] Hr Hnt Hnd Hfr. destruct (run_pool_steps_ok _ _ _ Hp Hr) as [Hp' Hl'].
  pose proof (run_pool_pushed _ _ _ Hr) as Hpu. destruct (run_pool_done _ _ _ Hr) as [d Hd].
  split_and!.
  - split; [done|congruence| |].
    + rewrite Hpu, fmap_app. apply NoDup_app. split_and!; [done| |done].
      intros id (t & -> & Ht)%list_elem_of_fmap (t' & E & Ht')%list_elem_of_fmap.
      specialize (Hf t Ht). specialize (Hfr t' Ht'). lia.
    + intros t. rewrite Hpu, elem_of_app. intros [Ht|Ht]; [specialize (Hf t Ht)|specialize (Hfr t Ht)]; lia.
  - split; intros t Ht; [rewrite Hpu|rewrite Hd]; apply elem_of_app; by left.
  - intros t Ht. rewrite Hpu, elem_of_app. by right.
Qed.

Lemma set_pool_world p w nt :
  world_ok w → tasks_ok p nt → pool_le (w_pool w) p →
  world_ok (mkWorld p (w_events w) (w_queues w) (next_event w) nt).
Proof.
  intros [H1 H2 H3 H4 H5] Hp Hle. split; cbn; try done.
  intros e ev He. eapply event_ok_mono; [done|]. by eapply H3.
Qed.

Lemma run_pool_world ls p w :
  world_ok w → run_pool_steps ls (w_pool w) = Some p → pushes ls = [] → world_ok (set_pool p w).
Proof.
  intros Hw Hr Hpu. destruct (run_pool_tasks ls (w_pool w) p (next_task w) (next_task w)) as (Ht & Hle & _);
    try done.
  - apply Hw.
  - rewrite Hpu. constructor.
  - rewrite Hpu. intros t Ht. by apply not_elem_of_nil in Ht.
  - by apply set_pool_world.
Qed.

(** *** Events *)

(** The events are as before, except that one may have become done and left
    its queue. *)
Lemma wait_ok e w w' :
  world_ok w → wait e w = Some w' →
  world_ok w' ∧ w_pool w' = w_pool w ∧ next_event w' = next_event w ∧ next_task w' = next_task w ∧
  (∃ ev, w_events w' !! e = Some ev ∧ e_done ev = true) ∧
  (∀ q x, w_queues w !! q = Some x → ∃ x', w_queues w' !! q = Some x' ∧
     q_inOrder x' = q_inOrder x ∧ q_events x' = q_events x ∖ {[e]}).
Proof.
  intros Hw Hs. unfold wait in Hs. destruct (w_events w !! e) as [ev|] eqn:He; [|done]. cbn in Hs.
  destruct (e_done ev) eqn:Hd.
  - injection Hs as <-. split_and!; try done; [by exists ev|]. intros q x Hx. exists x.
    split_and!; [done|done|]. pose proof (wk_queues _ Hw q x Hx e) as Hq.
    apply set_eq. intros y. rewrite elem_of_difference, elem_of_singleton. split; [|tauto].
    intros Hy. split; [done|]. intros ->. apply Hq in Hy as (ev' & ? & _ & ?). congruence.
  - destruct (forallb _ _) eqn:Hf; [|done]. injection Hs as <-.
    destruct Hw as [H1 H2 H3 H4 H5]. destruct (H5 e ev He) as [xq Hxq].
    split_and!; try done.
    + split; cbn; [done| | | |].
      * intros e' ev' [[<- <-]|[Hne H]]%lookup_insert_Some; [by eapply H2|by eapply H2].
      * intros e' ev' [[<- <-]|[Hne H]]%lookup_insert_Some; [|by eapply H3].
        destruct (H3 e ev He) as [_ Hl]. split; [intros _; cbn; by rewrite Hf|done].
      * intros q x Hx e'. unfold removeEvent, on_queue in Hx.
        apply lookup_alter_Some in Hx as [(<- & x0 & Hx0 & ->)|(Hne & Hx)].
        { cbn [q_events]. rewrite elem_of_difference, elem_of_singleton, (H4 _ _ Hx0 e').
          destruct (decide (e' = e)) as [->|Hne].
          - rewrite lookup_insert_eq. split; [tauto|]. by intros (? & [= <-] & _ & ?).
          - rewrite lookup_insert_ne by done. tauto. }
        rewrite (H4 _ _ Hx e'). destruct (decide (e' = e)) as [->|Hne'].
        { rewrite lookup_insert_eq. split; intros (? & H & E & ?); simplify_eq. }
        by rewrite lookup_insert_ne.
      * intros e' ev' [[<- <-]|[Hne H]]%lookup_insert_Some; unfold removeEvent, on_queue;
          rewrite lookup_alter_is_Some; [exact (H5 e ev He)|by eapply H5].
    + exists (set_done ev). cbn. by rewrite lookup_insert_eq.
    + intros q x Hx. cbn. unfold removeEvent, on_queue.
      destruct (decide (q = e_queue ev)) as [->|Hne].
      * rewrite lookup_alter_eq, Hx. by eexists.
      * rewrite lookup_alter_ne by done. exists x. split_and!; [done|done|].
        pose proof (H4 q x Hx e) as Hq. apply set_eq. intros y.
        rewrite elem_of_difference, elem_of_singleton. split; [|tauto]. intros Hy. split; [done|].
        intros ->. apply Hq in Hy as (ev' & ? & ? & _). by simplify_eq.
Qed.

Lemma urEventWait_ok es w w' :
  world_ok w → urEventWait es w = Some w' →
  world_ok w' ∧ w_pool w' = w_pool w ∧ next_event w' = next_event w ∧ next_task w' = next_task w.
Proof.
  revert w. induction es as [|e es IH]; intros w Hw Hs; cbn in Hs; [by injection Hs as <-|].
  destruct (wait e w) as [w1|] eqn:Hw1; [|done]. cbn in Hs.
  destruct (wait_ok e w w1 Hw Hw1) as (Hok & E1 & E2 & E3 & _).
  destruct (IH w1 Hok Hs) as (? & ? & ? & ?). split_and!; congruence.
Qed.

Lemma new_event_ok q c l futures w e w' :
  world_ok w → new_event q c l futures w = Some (e, w') →
  match l with None => True | Some l => launch_ok (w_pool w) (mkEvent q c false futures 1 (Some l)) l end →
  world_ok w' ∧ w_pool w' = w_pool w ∧ next_task w' = next_task w ∧ e = next_event w.
Proof.
  intros [H1 H2 H3 H4 H5] Hn Hl. unfold new_event in Hn.
  destruct (w_queues w !! q) as [x|] eqn:Hx; [|done]. injection Hn as <- <-. split; [|done].
  assert (Hfresh : w_events w !! next_event w = None).
  { destruct (w_events w !! next_event w) as [ev|] eqn:E; [|done]. specialize (H2 _ _ E). lia. }
  split; cbn; [done| | | |].
  - intros e' ev' [[<- <-]|[Hne H]]%lookup_insert_Some; [lia|]. specialize (H2 _ _ H). lia.
  - intros e' ev' [[<- <-]|[Hne H]]%lookup_insert_Some; [|by eapply H3].
    split; [done|]. cbn. by destruct l.
  - intros q' x' Hx' e'. unfold addEvent, on_queue in Hx'.
    apply lookup_alter_Some in Hx' as [(<- & x0 & Hx0 & ->)|(Hne & Hx')].
    + cbn [q_events]. rewrite elem_of_union, elem_of_singleton, (H4 _ _ Hx0 e').
      destruct (decide (e' = next_event w)) as [->|Hne].
      * rewrite lookup_insert_eq. split; [|by left]. intros _. by eexists.
      * rewrite lookup_insert_ne by done. naive_solver.
    + rewrite (H4 _ _ Hx' e'). destruct (decide (e' = next_event w)) as [->|Hne'].
      { rewrite lookup_insert_eq, Hfresh.
        split; [by intros (? & ? & _)|by intros (x1 & [= <-] & E & _)]. }
      by rewrite lookup_insert_ne.
  - intros e' ev' [[<- <-]|[Hne H]]%lookup_insert_Some; unfold addEvent, on_queue;
      rewrite lookup_alter_is_Some; [cbn; by rewrite Hx|by eapply H5].
Qed.

(** Changing the reference count, or deleting an event that is done. *)
Lemma set_refs_ok e ev k w :
  world_ok w → w_events w !! e = Some ev →
  world_ok (mkWorld (w_pool w) (<[e := set_refs k ev]> (w_events w)) (w_queues w) (next_event w)
    (next_task w)).
Proof.
  intros [H1 H2 H3 H4 H5] He. split; cbn; [done| | | |].
  - intros e' ev' [[<- <-]|[Hne H]]%lookup_insert_Some; by eapply H2.
  - intros e' ev' [[<- <-]|[Hne H]]%lookup_insert_Some; [|by eapply H3].
    exact (H3 e ev He).
  - intros q x Hx e'. rewrite (H4 q x Hx e'). destruct (decide (e' = e)) as [->|Hne].
    + rewrite lookup_insert_eq, He. split; intros (x1 & [= <-] & ? & ?); by eexists.
    + by rewrite lookup_insert_ne.
  - intros e' ev' [[<- <-]|[Hne H]]%lookup_insert_Some; [exact (H5 e ev He)|by eapply H5].
Qed.

Lemma delete_done_ok e ev w :
  world_ok w → w_events w !! e = Some ev → e_done ev = true →
  world_ok (mkWorld (w_pool w) (delete e (w_events w)) (w_queues w) (next_event w) (next_task w)).
Proof.
  intros [H1 H2 H3 H4 H5] He Hd. split; cbn; [done| | | |].
  - intros e' ev' [_ H]%lookup_delete_Some. by eapply H2.
  - intros e' ev' [_ H]%lookup_delete_Some. by eapply H3.
  - intros q x Hx e'. rewrite (H4 q x Hx e'). setoid_rewrite lookup_delete_Some.
    split; intros (ev' & H & E1 & E2); [|naive_solver]. exists ev'. split_and!; try done.
    intros ->. congruence.
  - intros e' ev' [_ H]%lookup_delete_Some. by eapply H5.
Qed.

Lemma finish_ok k q w w' :
  world_ok w → finish k q w = Some w' →
  world_ok w' ∧ w_pool w' = w_pool w ∧ ∃ x, w_queues w' !! q = Some x ∧ q_events x = ∅.
Proof.
  revert w. induction k as [|k IH]; intros w Hw Hf; [done|]. cbn in Hf.
  destruct (w_queues w !! q) as [x|] eqn:Hx; [|done]. cbn in Hf.
  destruct (first_event (q_events x)) as [e|] eqn:He.
  - destruct (wait e w) as [w1|] eqn:Hw1; [|done]. cbn in Hf.
    destruct (wait_ok e w w1 Hw Hw1) as (Hok & E1 & _). destruct (IH w1 Hok Hf) as (? & ? & ?).
    split_and!; [done|congruence|done].
  - injection Hf as <-. split_and!; [done|done|]. exists x. split; [done|].
    unfold first_event in He. destruct (elements (q_events x)) eqn:El; [|done].
    by apply elements_empty_inv, leibniz_equiv in El.
Qed.

Lemma zip_seq_tasks k (ts : list (list state)) :
  (zip (seq k (length ts)) ts).*1 = seq k (length ts) ∧ (zip (seq k (length ts)) ts).*2 = ts.
Proof. split; [apply fst_zip|apply snd_zip]; rewrite length_seq; lia. Qed.

Lemma enqueue_launch_ok q waits hl k a during waiting w r w' :
  world_ok w → enqueue_launch use_ock fuel q waits hl k a during waiting w = Some (r, w') →
  world_ok w'.
Proof.
  intros Hw Hs. unfold enqueue_launch in Hs.
  destruct (urEventWait waits w) as [w1|] eqn:Hw1; [|done]. cbn in Hs.
  destruct (urEventWait_ok _ _ _ Hw Hw1) as (Hok1 & _ & _ & _). clear Hw Hw1.
  rewrite (tk_size _ _ (wk_tasks _ Hok1)) in Hs.
  destruct (urEnqueueKernelLaunch _ _ _ _ _ _) as [[[res sch]| |]|] eqn:Hl; try done. cbn in Hs.
  destruct (decide (res ≠ UR_RESULT_SUCCESS)) as [|Hres]; [by injection Hs as <- <-|].
  apply dec_stable in Hres. subst res.
  destruct (decide _) as [Hpu|]; [|done].
  destruct (run_pool_steps during (w_pool w1)) as [p1|] eqn:Hr1; [|done]. cbn in Hs.
  destruct (zip_seq_tasks (next_task w1) (tasks sch)) as [Hz1 Hz2].
  destruct (run_pool_tasks during _ p1 _ (next_task w1 + length (tasks sch)) (wk_tasks _ Hok1) Hr1)
    as (Ht1 & Hle1 & Hin1); [lia| | |].
  { rewrite Hpu, Hz1. apply NoDup_seq. }
  { intros t Ht. rewrite Hpu in Ht. apply (list_elem_of_fmap_2 fst) in Ht.
    rewrite Hz1 in Ht. apply elem_of_seq in Ht. lia. }
  destruct (new_event _ _ _ _ _) as [[e w2]|] eqn:Hn; [|done]. cbn in Hs.
  destruct (new_event_ok _ _ _ _ _ _ _ (set_pool_world p1 w1 _ Hok1 Ht1 Hle1) Hn) as (Hok2 & _).
  { exists (zip (seq (next_task w1) (length (tasks sch))) (tasks sch)). cbn.
    split_and!; [done|done|rewrite Hz1; apply NoDup_seq| |done].
    intros t Ht. apply Hin1. by rewrite Hpu. }
  destruct (w_queues w2 !! q) as [x|]; [|done]. cbn in Hs.
  destruct (q_inOrder x); [|by injection Hs as <- <-].
  destruct (decide (pushes waiting = [])) as [Hpw|]; [|done].
  destruct (run_pool_steps waiting (w_pool w2)) as [p2|] eqn:Hr2; [|done]. cbn in Hs.
  destruct (wait e (set_pool p2 w2)) as [w3|] eqn:Hw3; [|done]. injection Hs as <- <-.
  by apply (wait_ok _ _ _ (run_pool_world _ _ _ Hok2 Hr2 Hpw) Hw3).
Qed.

Lemma act_ok x w w' : world_ok w → act use_ock fuel x w = Some w' → world_ok w'.
Proof.
  intros Hw Hs. destruct x as [l|q flags|q waits hl k a during waiting|c q waits|es|e|e|q]; cbn in Hs.
  - destruct (decide _) as [Hp|]; [|done]. destruct (pool_step l (w_pool w)) as [p|] eqn:Hst; [|done].
    injection Hs as <-. apply (run_pool_world [l]); [done|cbn; by rewrite Hst|done].
  - destruct (w_queues w !! q) eqn:Hq; [done|]. injection Hs as <-.
    destruct Hw as [H1 H2 H3 H4 H5]. split; cbn; [done|done|done| |].
    + intros q' x [[<- <-]|[Hne Hx]]%lookup_insert_Some; [|by eapply H4].
      intros e. split; [intros He; by apply elem_of_empty in He|]. intros (ev & He & E & _).
      destruct (H5 e ev He) as [y Hy]. congruence.
    + intros e ev He. destruct (decide (e_queue ev = q)) as [->|Hne].
      * rewrite lookup_insert_eq. by eexists.
      * rewrite lookup_insert_ne by done. by eapply H5.
  - destruct (enqueue_launch _ _ _ _ _ _ _ _ _ _) as [[r w1]|] eqn:Hl; [|done].
    injection Hs as <-. by eapply enqueue_launch_ok.
  - unfold withTimingEvent in Hs. destruct (urEventWait waits w) as [w1|] eqn:Hw1; [|done].
    cbn in Hs. destruct (new_event _ _ _ _ _) as [[e w2]|] eqn:Hn; [|done]. injection Hs as <-.
    destruct (urEventWait_ok _ _ _ Hw Hw1) as (Hok1 & _).
    by apply (new_event_ok _ _ _ _ _ _ _ Hok1 Hn).
  - by apply (urEventWait_ok _ _ _ Hw Hs).
  - unfold urEventRetain in Hs. destruct (w_events w !! e) as [ev|] eqn:He; [|done]. injection Hs as <-.
    by apply set_refs_ok.
  - unfold urEventRelease in Hs. destruct (w_events w !! e) as [ev|] eqn:He; [|done]. cbn in Hs.
    assert (Hdel : (w' ← wait e w; Some (mkWorld (w_pool w') (delete e (w_events w')) (w_queues w')
      (next_event w') (next_task w'))) = Some w' → world_ok w').
    { intros Hs'. destruct (wait e w) as [w1|] eqn:Hw1; [|done]. injection Hs' as <-.
      destruct (wait_ok _ _ _ Hw Hw1) as (Hok1 & _ & _ & _ & (ev1 & He1 & Hd1) & _).
      by eapply delete_done_ok. }
    destruct (e_refs ev) as [|[|m]]; [by apply Hdel|by apply Hdel|].
    injection Hs as <-. by apply set_refs_ok.
  - by apply (finish_ok (S (next_event w)) q w w' Hw Hs).
Qed.

Lemma run_actions_ok xs w w' : world_ok w → run_actions use_ock fuel xs w = Some w' → world_ok w'.
Proof.
  revert w. induction xs as [|x xs IH]; intros w Hw Hs; cbn in Hs; [by injection Hs as <-|].
  destruct (act use_ock fuel x w) as [w1|] eqn:Ha; [|done]. apply (IH w1); [by eapply act_ok|done].
Qed.
End invariant.

(** ** Properties *)

(** The tasks of an event that have run, with multiplicity. *)
Definition ran_tasks (w : world) (ev : ur_event_handle_t_) : list (list state) :=
  (filter (λ t : task, t.1 ∈ e_futures ev) (all_done (w_pool w))).*2.

Lemma NoDup_fst_inj {A B} (l : list (A * B)) x y :
  NoDup l.*1 → x ∈ l → y ∈ l → x.1 = y.1 → x = y.
Proof.
  induction l as [|z l IH]; intros Hnd Hx Hy E; [by apply not_elem_of_nil in Hx|].
  cbn in Hnd. apply NoDup_cons in Hnd as [Hz Hnd].
  apply elem_of_cons in Hx as [->|Hx], Hy as [->|Hy]; [done| | |by apply IH].
  - destruct Hz. rewrite E. by apply list_elem_of_fmap_2.
  - destruct Hz. rewrite <-E. by apply list_elem_of_fmap_2.
Qed.

(** Tasks of the pool whose futures are ready have run once. *)
Lemma ready_ran_once n p nt (ts : list task) :
  tasks_ok n p nt → NoDup ts.*1 → (∀ t, t ∈ ts → t ∈ all_pushed p) → forallb (is_ready p) ts.*1 →
  filter (λ t : task, t.1 ∈ ts.*1) (all_done p) ≡ₚ ts.
Proof.
  intros [Hp _ Ho _] Hnd Hin Hr. destruct (done_pushed p Hp) as [e He].
  assert (Hnd' : NoDup (all_pushed p)) by (by eapply NoDup_fmap_1).
  assert (Hd : ∀ t, t ∈ all_done p → t ∈ all_pushed p) by (intros t Ht; rewrite He; apply elem_of_app; by left).
  apply NoDup_Permutation.
  - apply NoDup_filter. rewrite He in Hnd'. by apply NoDup_app in Hnd' as [? _].
  - by eapply NoDup_fmap_1.
  - intros t. rewrite list_elem_of_filter. split.
    + intros [(t' & E & Ht')%list_elem_of_fmap Ht]. replace t with t'; [done|].
      apply (NoDup_fst_inj (all_pushed p)); auto.
    + intros Ht. split; [by apply list_elem_of_fmap_2|].
      rewrite forallb_True, Forall_forall in Hr. specialize (Hr t.1).
      unfold is_ready in Hr. rewrite bool_decide_spec in Hr.
      destruct (proj1 (list_elem_of_fmap _ _ _) (Hr (list_elem_of_fmap_2 fst _ _ Ht))) as (t' & E & Ht').
      replace t with t'; [done|]. apply (NoDup_fst_inj (all_pushed p)); auto.
Qed.

Lemma launch_success fuel use_ock T hl k a sch :
  urEnqueueKernelLaunch fuel use_ock T hl k a = Some (Ret (UR_RESULT_SUCCESS, sch)) →
  check_args k a = UR_RESULT_SUCCESS.
Proof. unfold urEnqueueKernelLaunch. case_decide as Hc; [by intros [= ? _]|done]. Qed.

(** C2: in every reachable state, with any number of threads and any
    interleaving of calls, workers and wake-ups, a launch whose event is done has
    run every point of its range's whole work-groups exactly once. *)
Theorem done_launch_ran_all use_ock fuel n xs w e ev l :
  run_actions use_ock fuel xs (initial n) = Some w →
  w_events w !! e = Some ev → e_done ev = true → e_launch ev = Some l →
  1 ≤ Z.of_nat n < 2 ^ 32 → launchable (launch_ndr (l_args l)) →
  enough fuel (GlobalSize (launch_ndr (l_args l))) → enough fuel (LocalSize (launch_ndr (l_args l))) →
  Z.of_nat n < Z.of_nat fuel →
  executed use_ock (mkSchedule (ran_tasks w ev) (inline (l_schedule l))) ≡ₚ
    covered (launch_ndr (l_args l)).
Proof.
  intros Hr He Hd Hl Hn HA HF HFL HFT.
  pose proof (run_actions_ok use_ock fuel n xs _ w (initial_ok use_ock fuel n) Hr) as Hw.
  destruct (wk_events _ _ _ _ Hw e ev He) as [Hready Hlaunch]. rewrite Hl in Hlaunch.
  destruct Hlaunch as (ts & Hf & Hts & Hnd & Hin & Heq).
  pose proof (launch_success _ _ _ _ _ _ _ Heq) as Hc.
  destruct (every_item_runs_once fuel use_ock (Z.of_nat n) (l_hasLocalArgs l) (l_constraints l)
    (l_args l) Hc HA Hn HF HFL HFT) as (sch & Heq' & Hp & _).
  rewrite Heq in Heq'. injection Heq' as <-. rewrite <-Hp.
  assert (Hran : ran_tasks w ev ≡ₚ tasks (l_schedule l)).
  { unfold ran_tasks. rewrite <-Hf, <-Hts. apply fmap_Permutation.
    eapply ready_ran_once; [apply Hw|done|done|]. rewrite Hf. by apply Hready. }
  unfold executed. cbn [tasks inline]. destruct use_ock; [|done].
  by rewrite !bind_app, Hran.
Qed.

(** A queue's events are among the handles handed out. *)
Lemma queue_size use_ock fuel n w q x :
  world_ok use_ock fuel n w → w_queues w !! q = Some x → (size (q_events x) ≤ next_event w)%nat.
Proof.
  intros Hw Hx. rewrite <-(size_set_seq (C := gset nat) 0 (next_event w)). apply subseteq_size.
  intros e He. apply (wk_queues _ _ _ _ Hw q x Hx) in He as (ev & He & _).
  apply elem_of_set_seq. apply (wk_fresh _ _ _ _ Hw) in He. lia.
Qed.

Lemma first_event_elem s e : first_event s = Some e → e ∈ s.
Proof.
  unfold first_event. intros H. rewrite <-elem_of_elements.
  destruct (elements s) as [|x l]; [done|]. injection H as <-.
  assert (Hm : foldr Nat.min x l = x ∨ foldr Nat.min x l ∈ l).
  { clear. induction l as [|y l IH]; [by left|]. cbn. destruct (Nat.min_dec y (foldr Nat.min x l)) as [->| ->].
    - right. by left.
    - destruct IH as [?|?]; [by left|right; by right]. }
  destruct Hm as [->|Hm]; [by left|by right].
Qed.

Lemma finish_total use_ock fuel n k q w x :
  world_ok use_ock fuel n w → w_queues w !! q = Some x → (size (q_events x) < k)%nat →
  (∀ e ev, e ∈ q_events x → w_events w !! e = Some ev → forallb (is_ready (w_pool w)) (e_futures ev)) →
  ∃ w', finish k q w = Some w'.
Proof.
  revert w x. induction k as [|k IH]; intros w x Hw Hx Hk Hr; [lia|]. cbn. rewrite Hx. cbn.
  destruct (first_event (q_events x)) as [e|] eqn:He; [|by eexists].
  apply first_event_elem in He.
  destruct (proj1 (wk_queues _ _ _ _ Hw q x Hx e) He) as (ev & Hev & Hq & Hd).
  assert (∃ w1, wait e w = Some w1) as [w1 Hw1].
  { unfold wait. rewrite Hev. cbn. rewrite Hd. specialize (Hr e ev He Hev).
    destruct (forallb _ _); [by eexists|done]. }
  rewrite Hw1. cbn. destruct (wait_ok use_ock fuel n e w w1 Hw Hw1) as (Hok & Ep & _ & _ & _ & Hqs).
  destruct (Hqs q x Hx) as (x' & Hx' & _ & Ex'). apply (IH w1 x' Hok Hx').
  - rewrite Ex', size_difference, size_singleton by set_solver.
    assert (size (q_events x) ≠ 0%nat); [|lia]. intros E. apply size_empty_inv in E. set_solver.
  - intros e' ev' He' Hev'. rewrite Ex' in He'. rewrite Ep.
    unfold wait in Hw1. rewrite Hev in Hw1. cbn in Hw1. rewrite Hd in Hw1.
    destruct (forallb _ _); [|done]. injection Hw1 as <-. cbn in Hev'.
    rewrite lookup_insert_ne in Hev' by set_solver. eapply Hr; [|done]. set_solver.
Qed.

(** C37: [urQueueFinish] ends once the futures of the queue's events are ready,
    within one wait per event of the queue; it leaves the queue empty, every
    event of the queue done. *)
Theorem queue_finish_terminates use_ock fuel n xs w q x :
  run_actions use_ock fuel xs (initial n) = Some w → w_queues w !! q = Some x →
  (∀ e ev, e ∈ q_events x → w_events w !! e = Some ev → forallb (is_ready (w_pool w)) (e_futures ev)) →
  ∃ w', finish (S (next_event w)) q w = Some w' ∧ w_pool w' = w_pool w ∧
    (∃ x', w_queues w' !! q = Some x' ∧ q_events x' = ∅) ∧
    (∀ e ev, w_events w' !! e = Some ev → e_queue ev = q → e_done ev = true).
Proof.
  intros Hr Hx Hready.
  pose proof (run_actions_ok use_ock fuel n xs _ w (initial_ok use_ock fuel n) Hr) as Hw.
  pose proof (queue_size _ _ _ w q x Hw Hx).
  destruct (finish_total use_ock fuel n (S (next_event w)) q w x Hw Hx ltac:(lia) Hready) as [w' Hf].
  destruct (finish_ok use_ock fuel n _ q w w' Hw Hf) as (Hw' & Hp & x' & Hx' & Hem).
  exists w'. split_and!; [done|done|by exists x'|]. intros e ev He Hq.
  destruct (e_done ev) eqn:Hd; [done|].
  assert (He' : e ∈ q_events x') by (apply (wk_queues _ _ _ _ Hw' q x' Hx' e); by exists ev).
  rewrite Hem in He'. by apply elem_of_empty in He'.
Qed.

(** A launch of [sample_launch] on an out-of-order queue of a pool of two
    threads: four tasks, run while the launch submits them and after. *)
Definition sample_schedule : schedule :=
  match urEnqueueKernelLaunch 6 true 2 false no_constraints sample_launch with
  | Some (Ret (_, sch)) => sch | _ => mkSchedule [] [] end.

Definition sample_task (i : nat) : task := (i, default [] (tasks sample_schedule !! i)).

Definition sample_program : list action :=
  [AQueue 0 (Some 1%Z);
   ALaunch 0 [] false no_constraints sample_launch
     [LTake 0; LPush 0 (sample_task 0); LNotify 0; LPush 1 (sample_task 1); LTake 0; LNotify 1;
      LPush 1 (sample_task 2); LRun 0; LNotify 1; LPush 0 (sample_task 3); LNotify 0]%nat [];
   APool (LTake 1); APool (LRun 1); APool (LCount 1); APool (LCount 0); APool (LTake 0);
   APool (LRun 0); APool (LTake 1); APool (LRun 1)]%nat.

Definition world_after (xs : list action) : world := default (initial 0) (run_actions true 6 xs (initial 2)).

Lemma done_launch_ran_all_witness :
  ∃ ev l, w_events (world_after (sample_program ++ [AWait [0%nat]])) !! 0%nat = Some ev ∧
    e_launch ev = Some l ∧
    executed true (mkSchedule (ran_tasks (world_after (sample_program ++ [AWait [0%nat]])) ev)
                    (inline (l_schedule l))) ≡ₚ covered (launch_ndr (l_args l)).
Proof.
  eexists (mkEvent 0 UR_COMMAND_KERNEL_LAUNCH true [0; 1; 2; 3]%nat 1
             (Some (mkLaunched false no_constraints sample_launch sample_schedule))), _.
  split; [vm_compute; reflexivity|]. split; [reflexivity|].
  apply (done_launch_ran_all true 6 2 (sample_program ++ [AWait [0%nat]]) _ 0).
  - vm_compute. reflexivity.
  - vm_compute. reflexivity.
  - reflexivity.
  - reflexivity.
  - split; vm_compute; done.
  - split_and!; vm_compute; done.
  - split_and!; vm_compute; done.
  - split_and!; vm_compute; done.
  - vm_compute; done.
Defined.

Lemma queue_finish_terminates_witness :
  ∃ w', finish 2 0 (world_after sample_program) = Some w' ∧
    w_pool w' = w_pool (world_after sample_program) ∧
    (∃ x', w_queues w' !! 0%nat = Some x' ∧ q_events x' = ∅) ∧
    (∀ e ev, w_events w' !! e = Some ev → e_queue ev = 0%nat → e_done ev = true).
Proof.
  pose proof (queue_finish_terminates true 6 2 sample_program (world_after sample_program) 0
    (mkQueue {[0%nat]} false)) as H.
  replace (next_event (world_after sample_program)) with 1%nat in H by (vm_compute; reflexivity).
  apply H; clear H.
  - vm_compute. reflexivity.
  - vm_compute. reflexivity.
  - intros e ev He Hev. cbn in He. apply elem_of_singleton in He. subst e.
    assert (E : w_events (world_after sample_program) !! 0%nat =
      Some (mkEvent 0 UR_COMMAND_KERNEL_LAUNCH false [0; 1; 2; 3]%nat 1
             (Some (mkLaunched false no_constraints sample_launch sample_schedule))))
      by (vm_compute; reflexivity).
    rewrite E in Hev. injection Hev as <-. vm_compute. exact I.
Defined.

(** The launch event is not done until somebody waits for it, and a wait before
    the tasks have run does not return. *)
Example wait_blocks :
  run_actions true 6 (take 4 sample_program ++ [AWait [0%nat]]) (initial 2) = None.
Proof. vm_compute. reflexivity. Qed.
