(* ===== verification/NativeCpuKernel.v ===== *)
(** * NativeCpuKernel: native_cpu/kernel.hpp, kernel.cpp, common.hpp

    Kernel objects of the native CPU adapter: the argument list with its owned
    copies, the pool of local memory that is cut into one slice per argument
    and thread, and reference counting.  Memory is a heap of blocks; a pointer
    is a block and an offset, and blocks of the caller ([b_user]) must not be
    reallocated or freed.  Allocation succeeds. *)
From S2P Require Import Prelude.

(** ** Memory *)

Record block := mkBlock { b_user : bool; b_bytes : list Z }.
Abbreviation heap := (gmap nat block).
(** [None] is the null pointer. *)
Abbreviation ptr := (option (nat * Z)).

#[export] Instance block_eq_dec : EqDecision block.
Proof. solve_decision. Defined.

Definition alloc (n : Z) (h : heap) : nat * heap :=
  let b := fresh (dom h) in (b, <[b := mkBlock false (replicate (Z.to_nat n) 0)]> h).

(** [free]. *)
Definition free (p : ptr) (h : heap) : outcome heap :=
  match p with
  | None => Ret h
  | Some (b, off) =>
      match h !! b with
      | Some x => if b_user x || negb (off =? 0) then Undef else Ret (delete b h)
      | None => Undef
      end
  end.

(** [realloc]: the old bytes up to the new size, then unspecified ones (0 here). *)
Definition realloc (p : ptr) (n : Z) (h : heap) : outcome (ptr * heap) :=
  match p with
  | None => let '(b, h) := alloc n h in Ret (Some (b, 0), h)
  | Some (b, off) =>
      match h !! b with
      | Some x =>
          if b_user x || negb (off =? 0) then Undef
          else
            let c := fresh (dom h) in
            let k := Z.to_nat n in
            Ret (Some (c, 0),
                 <[c := mkBlock false (take k (b_bytes x ++ replicate k 0))]> (delete b h))
      | None => Undef
      end
  end.

(** [memcpy] of [src] to [p]. *)
Definition write (p : ptr) (src : list Z) (h : heap) : outcome heap :=
  match p with
  | None => if decide (src = []) then Ret h else Undef
  | Some (b, off) =>
      match h !! b with
      | Some x =>
          if (0 <=? off) && (off + Z.of_nat (length src) <=? Z.of_nat (length (b_bytes x))) then
            let k := Z.to_nat off in
            Ret (<[b := mkBlock (b_user x)
                          (take k (b_bytes x) ++ src ++ drop (k + length src) (b_bytes x))]> h)
          else Undef
      | None => Undef
      end
  end.

(** ** arguments *)

Record arguments := mkArguments { Indices : list ptr; ParamSizes : list Z; OwnsMem : list bool }.

Definition no_arguments : arguments := mkArguments [] [] [].

Definition resize {A} (n : nat) (d : A) (l : list A) : list A := l ++ replicate (n - length l) d.

Definition resize_args (n : nat) (a : arguments) : arguments :=
  mkArguments (resize n None (Indices a)) (resize n 0 (ParamSizes a)) (resize n false (OwnsMem a)).

Definition addArg (Index : nat) (Arg : list Z) (a : arguments) (h : heap) : outcome (arguments * heap) :=
  let Size := Z.of_nat (length Arg) in
  '(a, h) ←
    (if (length (Indices a) <? S Index)%nat then
       let a := resize_args (S Index) a in
       let '(b, h) := alloc Size h in
       Ret (mkArguments (<[Index := Some (b, 0)]> (Indices a)) (<[Index := Size]> (ParamSizes a))
              (<[Index := true]> (OwnsMem a)), h)
     else if nth Index (ParamSizes a) 0 =? Size then Ret (a, h)
     else
       '(p, h) ← realloc (nth Index (Indices a) None) Size h;
       Ret (mkArguments (<[Index := p]> (Indices a)) (<[Index := Size]> (ParamSizes a)) (OwnsMem a), h));
  h ← write (nth Index (Indices a) None) Arg h;
  Ret (a, h).

Definition addPtrArg (Index : nat) (Arg : ptr) (a : arguments) : arguments :=
  let a :=
    if (length (Indices a) <? S Index)%nat then
      let a := resize_args (S Index) a in
      mkArguments (Indices a) (<[Index := 8]> (ParamSizes a)) (<[Index := false]> (OwnsMem a))
    else a in
  mkArguments (<[Index := Arg]> (Indices a)) (ParamSizes a) (OwnsMem a).

(** The loop over the arguments. *)
Fixpoint free_owned (ps : list ptr) (owns : list bool) (h : heap) : outcome heap :=
  match ps, owns with
  | p :: ps', o :: owns' => h ← (if o then free p h else Ret h); free_owned ps' owns' h
  | _, _ => Ret h
  end.

Definition deallocate (a : arguments) (h : heap) : outcome heap := free_owned (Indices a) (OwnsMem a) h.

(** ** ur_kernel_handle_t_ *)

Record local_arg_info_t := mkLocal { argIndex : nat; argSize : Z }.

Record ur_kernel_handle_t_ := mkKernel {
  Args : arguments; _localArgInfo : list local_arg_info_t;
  _localMemPool : ptr; _localMemPoolSize : Z; _refCount : Z
}.

Definition new_kernel : ur_kernel_handle_t_ := mkKernel no_arguments [] None 0 1.

(** The base class starts at one, and the copy constructor increments. *)
Definition copy_kernel (k : ur_kernel_handle_t_) : ur_kernel_handle_t_ :=
  mkKernel (Args k) (_localArgInfo k) (_localMemPool k) (_localMemPoolSize k) 2.

Definition set_args (a : arguments) (k : ur_kernel_handle_t_) : ur_kernel_handle_t_ :=
  mkKernel a (_localArgInfo k) (_localMemPool k) (_localMemPoolSize k) (_refCount k).
Definition set_locals (l : list local_arg_info_t) (k : ur_kernel_handle_t_) : ur_kernel_handle_t_ :=
  mkKernel (Args k) l (_localMemPool k) (_localMemPoolSize k) (_refCount k).
Definition set_count (n : Z) (k : ur_kernel_handle_t_) : ur_kernel_handle_t_ :=
  mkKernel (Args k) (_localArgInfo k) (_localMemPool k) (_localMemPoolSize k) n.

Definition hasLocalArgs (k : ur_kernel_handle_t_) : bool :=
  match _localArgInfo k with [] => false | _ => true end.

(** The size computed by the loop. *)
Definition reqSize (numParallelThreads : Z) (l : list local_arg_info_t) : Z :=
  foldl (λ s e, w64 (s + w64 (argSize e * numParallelThreads))) 0 l.

Definition updateMemPool (numParallelThreads : Z) (k : ur_kernel_handle_t_) (h : heap)
  : outcome (ur_kernel_handle_t_ * heap) :=
  let r := reqSize numParallelThreads (_localArgInfo k) in
  if (r =? 0) || (r =? _localMemPoolSize k) then Ret (k, h)
  else
    '(p, h) ← realloc (_localMemPool k) r h;
    Ret (mkKernel (Args k) (_localArgInfo k) p r (_refCount k), h).

Definition ptr_add (p : ptr) (n : Z) : ptr :=
  match p with Some (b, off) => Some (b, w64 (off + n)) | None => None end.

(** One round of the loop: the arguments and the offset. *)
Definition handle_local (numParallelThread threadId : Z) (pool : ptr) (st : list ptr * Z)
    (e : local_arg_info_t) : list ptr * Z :=
  (<[argIndex e := ptr_add pool (w64 (st.2 + w64 (argSize e * threadId)))]> st.1,
   w64 (st.2 + w64 (argSize e * numParallelThread))).

Definition handleLocalArgs (numParallelThread threadId : Z) (k : ur_kernel_handle_t_)
  : ur_kernel_handle_t_ :=
  let '(is_, _) := foldl (handle_local numParallelThread threadId (_localMemPool k))
                     (Indices (Args k), 0) (_localArgInfo k) in
  set_args (mkArguments is_ (ParamSizes (Args k)) (OwnsMem (Args k))) k.

(** ** Entry points (handles are not null) *)

Definition urKernelSetArgValue (argIndex : nat) (pArgValue : list Z) (k : ur_kernel_handle_t_) (h : heap)
  : outcome (ur_result_t * ur_kernel_handle_t_ * heap) :=
  if decide (pArgValue = []) then Ret (UR_RESULT_ERROR_INVALID_KERNEL_ARGUMENT_SIZE, k, h)
  else '(a, h) ← addArg argIndex pArgValue (Args k) h; Ret (UR_RESULT_SUCCESS, set_args a k, h).

Definition urKernelSetArgPointer (argIndex : nat) (pArgValue : ptr) (k : ur_kernel_handle_t_)
  : ur_result_t * ur_kernel_handle_t_ :=
  if decide (pArgValue = None) then (UR_RESULT_ERROR_INVALID_NULL_POINTER, k)
  else (UR_RESULT_SUCCESS, set_args (addPtrArg argIndex pArgValue (Args k)) k).

(** The memory of the buffer, or null without a buffer. *)
Definition urKernelSetArgMemObj (argIndex : nat) (mem : ptr) (k : ur_kernel_handle_t_)
  : ur_result_t * ur_kernel_handle_t_ :=
  (UR_RESULT_SUCCESS, set_args (addPtrArg argIndex mem (Args k)) k).

Definition urKernelSetArgLocal (argIndex : nat) (argSize : Z) (k : ur_kernel_handle_t_)
  : ur_result_t * ur_kernel_handle_t_ :=
  (UR_RESULT_SUCCESS,
   set_locals (_localArgInfo k ++ [mkLocal argIndex argSize])
     (set_args (addPtrArg argIndex None (Args k)) k)).

Definition urKernelRetain (k : ur_kernel_handle_t_) : ur_kernel_handle_t_ :=
  set_count (w32 (_refCount k + 1)) k.

(** The destructor. *)
Definition destroy_kernel (k : ur_kernel_handle_t_) (h : heap) : outcome heap :=
  if w32 (_refCount k - 1) =? 0 then h ← free (_localMemPool k) h; deallocate (Args k) h else Ret h.

(** [decrementOrDelete]: [None] once the object is deleted. *)
Definition urKernelRelease (k : ur_kernel_handle_t_) (h : heap)
  : outcome (option ur_kernel_handle_t_ * heap) :=
  let k := set_count (w32 (_refCount k - 1)) k in
  if _refCount k =? 0 then h ← destroy_kernel k h; Ret (None, h) else Ret (Some k, h).

(** ** Setting arguments

    A program sets each index by value or by pointer, not both: [K i] says that
    [i] is set by value. *)
Inductive set_op := SetVal (i : nat) (v : list Z) | SetPtr (i : nat) (p : ptr).

Definition run_set (o : set_op) (s : arguments * heap) : outcome (arguments * heap) :=
  match o with
  | SetVal i v => addArg i v s.1 s.2
  | SetPtr i p => Ret (addPtrArg i p s.1, s.2)
  end.

Fixpoint run_sets (ops : list set_op) (s : arguments * heap) : outcome (arguments * heap) :=
  match ops with
  | [] => Ret s
  | o :: ops' => s' ← run_set o s; run_sets ops' s'
  end.

Definition consistent (K : nat → bool) (o : set_op) : Prop :=
  match o with SetVal i v => K i = true ∧ v ≠ [] | SetPtr i _ => K i = false end.

(** The last value and the last pointer of an index. *)
Fixpoint last_val (i : nat) (ops : list set_op) (d : list Z) : list Z :=
  match ops with
  | [] => d
  | SetVal j v :: ops' => last_val i ops' (if decide (j = i) then v else d)
  | SetPtr _ _ :: ops' => last_val i ops' d
  end.
Fixpoint last_ptr (i : nat) (ops : list set_op) (d : ptr) : ptr :=
  match ops with
  | [] => d
  | SetPtr j p :: ops' => last_ptr i ops' (if decide (j = i) then p else d)
  | SetVal _ _ :: ops' => last_ptr i ops' d
  end.

(** What a kernel sees at an index. *)
Definition arg_value (a : arguments) (h : heap) (i : nat) : list Z :=
  match nth i (Indices a) None with
  | Some (b, _) => match h !! b with Some x => b_bytes x | None => [] end
  | None => []
  end.

Definition slot (a : arguments) (i : nat) : ptr := nth i (Indices a) None.
Definition slot_size (a : arguments) (i : nat) : Z := nth i (ParamSizes a) 0.
Definition slot_owned (a : arguments) (i : nat) : bool := nth i (OwnsMem a) false.

(** The value arguments hold [V], the pointer arguments [P]; [h0] is the memory
    of everybody else. *)
Record args_ok (K : nat → bool) (h0 : heap) (V : nat → list Z) (P : nat → ptr)
    (a : arguments) (h : heap) : Prop := {
  ao_len : length (ParamSizes a) = length (Indices a) ∧ length (OwnsMem a) = length (Indices a);
  ao_frame : h0 ⊆ h;
  ao_val : ∀ i, K i = true →
    (slot a i = None ∧ slot_size a i = 0 ∧ V i = [] ∧ slot_owned a i = false) ∨
    (∃ b, slot a i = Some (b, 0) ∧ h0 !! b = None ∧ h !! b = Some (mkBlock false (V i)) ∧
       slot_size a i = Z.of_nat (length (V i)));
  ao_inj : ∀ i j b, K i = true → K j = true → slot a i = Some (b, 0) → slot a j = Some (b, 0) → i = j;
  ao_ptr : ∀ i, K i = false → slot a i = P i ∧ slot_owned a i = false;
  ao_dom : ∀ b, is_Some (h !! b) → h0 !! b = None → ∃ i, K i = true ∧ slot a i = Some (b, 0)
}.

Lemma nth_insert {A} i j (x d : A) l :
  (i < length l)%nat → nth j (<[i := x]> l) d = if decide (j = i) then x else nth j l d.
Proof.
  intros Hi. destruct (decide (j = i)) as [->|Hne]; rewrite !nth_lookup.
  - by rewrite list_lookup_insert_eq.
  - by rewrite list_lookup_insert_ne.
Qed.

Lemma nth_resize {A} n j (d : A) l : nth j (resize n d l) d = nth j l d.
Proof.
  unfold resize. destruct (decide (j < length l)%nat).
  - by rewrite app_nth1.
  - rewrite app_nth2 by lia. rewrite (nth_overflow l) by lia.
    destruct (decide (j - length l < n - length l)%nat).
    + rewrite nth_lookup, lookup_replicate_2 by lia. done.
    + by rewrite nth_overflow by (rewrite length_replicate; lia).
Qed.

Lemma length_resize {A} n (d : A) l : length (resize n d l) = Nat.max n (length l).
Proof. unfold resize. rewrite length_app, length_replicate. lia. Qed.

(** [a'] is [a] with a new slot at [i]. *)
Definition slot_set (a a' : arguments) (i : nat) (p : ptr) (sz : Z) (o : bool) : Prop :=
  (length (ParamSizes a') = length (Indices a') ∧ length (OwnsMem a') = length (Indices a')) ∧
  ∀ j, slot a' j = (if decide (j = i) then p else slot a j) ∧
       slot_size a' j = (if decide (j = i) then sz else slot_size a j) ∧
       slot_owned a' j = (if decide (j = i) then o else slot_owned a j).

Lemma slot_set_resized a i p sz o :
  length (ParamSizes a) = length (Indices a) ∧ length (OwnsMem a) = length (Indices a) →
  (length (Indices a) < S i)%nat →
  slot_set a (mkArguments (<[i := p]> (Indices (resize_args (S i) a)))
                (<[i := sz]> (ParamSizes (resize_args (S i) a)))
                (<[i := o]> (OwnsMem (resize_args (S i) a)))) i p sz o.
Proof.
  intros [H1 H2] Hlt. split; cbn.
  - rewrite !length_insert, !length_resize. lia.
  - intros j. unfold slot, slot_size, slot_owned. cbn.
    by rewrite !nth_insert, !nth_resize by (rewrite length_resize; lia).
Qed.

Lemma slot_set_in_place a i p sz :
  length (ParamSizes a) = length (Indices a) ∧ length (OwnsMem a) = length (Indices a) →
  (i < length (Indices a))%nat →
  slot_set a (mkArguments (<[i := p]> (Indices a)) (<[i := sz]> (ParamSizes a)) (OwnsMem a))
    i p sz (slot_owned a i).
Proof.
  intros [H1 H2] Hlt. split; cbn.
  - rewrite !length_insert. lia.
  - intros j. unfold slot, slot_size, slot_owned. cbn. rewrite !nth_insert by lia.
    split_and!; [done|done|]. by destruct (decide (j = i)) as [->|].
Qed.

Definition upd {A} (f : nat → A) (i : nat) (x : A) (j : nat) : A := if decide (j = i) then x else f j.

(** The slot [i] of [a'] is a block of its own with [Size] bytes; the other
    slots and blocks are those of [a]. *)
Definition prepared (h0 : heap) (a : arguments) (h : heap) (i : nat) (size : nat)
    (a' : arguments) (h' : heap) : Prop :=
  ∃ b bs o, slot_set a a' i (Some (b, 0)) (Z.of_nat size) o ∧
    h' !! b = Some (mkBlock false bs) ∧ length bs = size ∧ h0 !! b = None ∧
    (h !! b = None ∨ slot a i = Some (b, 0)) ∧
    (∀ c, c ≠ b → h' !! c = if decide (slot a i = Some (c, 0)) then None else h !! c).

(** The part of [addArg] before the copy. *)
Definition prepare (i : nat) (size : nat) (a : arguments) (h : heap) : outcome (arguments * heap) :=
  if (length (Indices a) <? S i)%nat then
    let a := resize_args (S i) a in
    let '(b, h) := alloc (Z.of_nat size) h in
    Ret (mkArguments (<[i := Some (b, 0)]> (Indices a)) (<[i := Z.of_nat size]> (ParamSizes a))
           (<[i := true]> (OwnsMem a)), h)
  else if nth i (ParamSizes a) 0 =? Z.of_nat size then Ret (a, h)
  else
    '(p, h) ← realloc (nth i (Indices a) None) (Z.of_nat size) h;
    Ret (mkArguments (<[i := p]> (Indices a)) (<[i := Z.of_nat size]> (ParamSizes a)) (OwnsMem a), h).

Lemma addArg_prepare i v a h :
  addArg i v a h = ('(a, h) ← prepare i (length v) a h; h ← write (slot a i) v h; Ret (a, h)).
Proof. reflexivity. Qed.

Lemma fresh_heap (h : heap) : h !! fresh (dom h) = None.
Proof. apply not_elem_of_dom, is_fresh. Qed.

Lemma prepare_ok K h0 V P a h i size :
  args_ok K h0 V P a h → K i = true → (0 < size)%nat →
  ∃ a' h', prepare i size a h = Ret (a', h') ∧ prepared h0 a h i size a' h'.
Proof.
  intros [H1 H2 H3 H4 H5 H6] HK Hs. unfold prepare.
  assert (Hf0 : h0 !! fresh (dom h) = None).
  { destruct (h0 !! fresh (dom h)) as [x|] eqn:E; [|done].
    pose proof (lookup_weaken _ _ _ _ E H2) as E'. by rewrite fresh_heap in E'. }
  destruct (Nat.ltb_spec (length (Indices a)) (S i)) as [Hlt|Hge].
  - eexists _, _. split; [done|].
    exists (fresh (dom h)), (replicate size 0), true. split_and!.
    + by apply slot_set_resized.
    + rewrite lookup_insert_eq. by rewrite Nat2Z.id.
    + by rewrite length_replicate.
    + done.
    + left. apply fresh_heap.
    + intros c Hc. rewrite lookup_insert_ne by done. unfold slot. by rewrite nth_overflow by lia.
  - fold (slot_size a i) (slot a i).
    destruct (H3 i HK) as [(Es & Esz & _)|(b & Es & Hb0 & Hb & Esz)].
    + rewrite Esz, Es. destruct (Z.eqb_spec 0 (Z.of_nat size)); [lia|]. cbn.
      eexists _, _. split; [done|]. exists (fresh (dom h)), (replicate size 0), (slot_owned a i).
      split_and!; [by apply slot_set_in_place; [|lia]| |by rewrite length_replicate|done| |].
      * rewrite lookup_insert_eq. by rewrite Nat2Z.id.
      * left. apply fresh_heap.
      * intros c Hc. rewrite lookup_insert_ne by done. by rewrite Es.
    + rewrite Esz. destruct (Z.eqb_spec (Z.of_nat (length (V i))) (Z.of_nat size)) as [E|Hne].
      * eexists _, _. split; [done|]. exists b, (V i), (slot_owned a i).
        split_and!; [|done|lia|done|by right|].
        -- split; [done|]. intros j. destruct (decide (j = i)) as [->|]; [|done].
           split_and!; [done|congruence|done].
        -- intros c Hc. rewrite Es. by rewrite decide_False by congruence.
      * rewrite Es. cbn. rewrite Hb. cbn. eexists _, _. split; [done|].
        exists (fresh (dom h)), (take size (V i ++ replicate size 0)), (slot_owned a i).
        split_and!; [by apply slot_set_in_place; [|lia]| | |done|left; apply fresh_heap|].
        -- rewrite lookup_insert_eq. by rewrite Nat2Z.id.
        -- rewrite length_take, length_app, length_replicate. lia.
        -- intros c Hc. rewrite lookup_insert_ne by done. rewrite Es.
           destruct (decide (Some (b, 0) = Some (c, 0))) as [[= ->]|Hne'].
           ++ by rewrite lookup_delete_eq.
           ++ by rewrite lookup_delete_ne by congruence.
Qed.

Lemma addArg_ok K h0 V P a h i v :
  args_ok K h0 V P a h → K i = true → v ≠ [] →
  ∃ a' h', addArg i v a h = Ret (a', h') ∧ args_ok K h0 (upd V i v) P a' h'.
Proof.
  intros Hok HK Hv.
  destruct (prepare_ok K h0 V P a h i (length v) Hok HK) as (a1 & h1 & Hprep & b & bs & o & [Hl Hs] & Hb & Hbs & Hb0 & Hold & Hrest).
  { destruct v; [done|cbn; lia]. }
  destruct Hok as [H1 H2 H3 H4 H5 H6].
  exists a1, (<[b := mkBlock false v]> h1). split.
  { rewrite addArg_prepare, Hprep. cbn. destruct (Hs i) as (-> & _). rewrite decide_True by done.
    cbn. rewrite Hb. cbn [b_bytes b_user]. rewrite Hbs.
    destruct (Z.leb_spec (0 + Z.of_nat (length v)) (Z.of_nat (length v))); [|lia]. cbn.
    do 3 f_equal. f_equal. rewrite drop_ge by lia. by rewrite app_nil_r. }
  assert (Hother : ∀ j c, K j = true → j ≠ i → slot a j = Some (c, 0) → h !! c = Some (mkBlock false (V j)) →
    c ≠ b ∧ h1 !! c = h !! c).
  { intros j c Kj Hji Ej Hc. assert (c ≠ b).
    { intros ->. destruct Hold as [E|E]; [congruence|]. destruct Hji. by eapply H4. }
    split; [done|]. rewrite Hrest by done. rewrite decide_False; [done|].
    intros Ei. destruct Hji. by eapply H4. }
  split.
  - done.
  - apply map_subseteq_spec. intros c x Hc. rewrite lookup_insert_ne by congruence.
    rewrite Hrest by congruence. rewrite decide_False; [by eapply lookup_weaken|].
    intros Ei. destruct (H3 i HK) as [(E & _)|(b' & E & E0 & _)]; congruence.
  - intros j Kj. destruct (Hs j) as (Ej & Esz & Eo). unfold upd. rewrite Ej, Esz, Eo.
    destruct (decide (j = i)) as [->|Hne].
    + right. exists b. split_and!; [done|done|by rewrite lookup_insert_eq|done].
    + destruct (H3 j Kj) as [?|(c & Ec & Hc0 & Hc & Hsz)]; [by left|]. right. exists c.
      destruct (Hother j c Kj Hne Ec Hc) as [Hcb Hh]. rewrite lookup_insert_ne by done.
      split_and!; [done|done|congruence|done].
  - intros j k c Kj Kk. destruct (Hs j) as (-> & _), (Hs k) as (-> & _).
    destruct (decide (j = i)) as [->|Hj], (decide (k = i)) as [->|Hk]; [done| | |by apply H4].
    + intros [= <-] Ek. destruct (H3 k Kk) as [(E & _)|(c & Ec & _ & Hc & _)]; [congruence|].
      destruct (Hother k c Kk Hk Ec Hc). congruence.
    + intros Ej [= <-]. destruct (H3 j Kj) as [(E & _)|(c & Ec & _ & Hc & _)]; [congruence|].
      destruct (Hother j c Kj Hj Ec Hc). congruence.
  - intros j Kj. destruct (Hs j) as (-> & _ & ->). rewrite !decide_False by congruence. by apply H5.
  - intros c Hc Hc0. destruct (decide (c = b)) as [->|Hne].
    + exists i. destruct (Hs i) as (-> & _). by rewrite decide_True.
    + rewrite lookup_insert_ne, Hrest in Hc by done.
      destruct (decide (slot a i = Some (c, 0))); [by destruct Hc|].
      destruct (H6 c Hc Hc0) as (j & Kj & Ej). exists j. split; [done|].
      destruct (Hs j) as (-> & _). rewrite decide_False by congruence. done.
Qed.

Lemma addPtrArg_ok K h0 V P a h i p :
  args_ok K h0 V P a h → K i = false → args_ok K h0 V (upd P i p) (addPtrArg i p a) h.
Proof.
  intros [H1 H2 H3 H4 H5 H6] HK.
  assert (∃ sz o, slot_set a (addPtrArg i p a) i p sz o ∧ o = false) as (sz & o & [Hl Hs] & ->).
  { unfold addPtrArg. destruct (Nat.ltb_spec (length (Indices a)) (S i)).
    - exists 8, false. split; [by apply slot_set_resized|done].
    - exists (slot_size a i), (slot_owned a i). split; [|by apply H5]. split; cbn; [rewrite length_insert; lia|].
      intros j. unfold slot, slot_size, slot_owned. cbn. rewrite nth_insert by lia.
      split_and!; [done|by destruct (decide (j = i)) as [->|]|by destruct (decide (j = i)) as [->|]]. }
  assert (Hs' : ∀ j, K j = true → slot (addPtrArg i p a) j = slot a j ∧
    slot_size (addPtrArg i p a) j = slot_size a j ∧ slot_owned (addPtrArg i p a) j = slot_owned a j).
  { intros j Kj. destruct (Hs j) as (-> & -> & ->). by rewrite !decide_False by congruence. }
  split; [done|done| | | |].
  - intros j Kj. destruct (Hs' j Kj) as (-> & -> & ->). by apply H3.
  - intros j k b Kj Kk. destruct (Hs' j Kj) as (-> & _), (Hs' k Kk) as (-> & _). by apply H4.
  - intros j Kj. destruct (Hs j) as (-> & _ & ->). unfold upd.
    destruct (decide (j = i)); [done|by apply H5].
  - intros b Hb Hb0. destruct (H6 b Hb Hb0) as (j & Kj & Ej). exists j. split; [done|].
    by destruct (Hs' j Kj) as (-> & _).
Qed.

Lemma args_ok_ext K h0 V P V' P' a h :
  args_ok K h0 V P a h → (∀ i, V i = V' i) → (∀ i, P i = P' i) → args_ok K h0 V' P' a h.
Proof.
  intros [H1 H2 H3 H4 H5 H6] HV HP. split; try done.
  - intros i Ki. rewrite <-HV. by apply H3.
  - intros i Ki. rewrite <-HP. by apply H5.
Qed.

Lemma run_sets_ok K h0 V P ops a h :
  args_ok K h0 V P a h → Forall (consistent K) ops →
  ∃ a' h', run_sets ops (a, h) = Ret (a', h') ∧
    args_ok K h0 (λ i, last_val i ops (V i)) (λ i, last_ptr i ops (P i)) a' h'.
Proof.
  revert V P a h. induction ops as [|o ops IH]; intros V P a h Hok Hc; [by exists a, h|].
  apply Forall_cons in Hc as [Ho Hc]. destruct o as [i v|i p]; cbn in Ho |- *.
  - destruct Ho as [Ki Hv]. destruct (addArg_ok K h0 V P a h i v Hok Ki Hv) as (a1 & h1 & -> & Hok1).
    cbn. destruct (IH _ _ _ _ Hok1 Hc) as (a2 & h2 & Hr & Hok2). exists a2, h2. split; [done|].
    eapply args_ok_ext; [exact Hok2| |done]. intros j. unfold upd.
    by destruct (decide (j = i)), (decide (i = j)).
  - destruct (IH _ _ _ _ (addPtrArg_ok K h0 V P a h i p Hok Ho) Hc) as (a2 & h2 & Hr & Hok2).
    exists a2, h2. split; [done|]. eapply args_ok_ext; [exact Hok2|done|]. intros j. unfold upd.
    by destruct (decide (j = i)), (decide (i = j)).
Qed.

Lemma no_arguments_ok K h0 : args_ok K h0 (λ _, []) (λ _, None) no_arguments h0.
Proof.
  split; cbn; [done|done| | | |].
  - intros i _. left. unfold slot, slot_size, slot_owned. by destruct i.
  - intros i j b _ _ E. unfold slot in E. by destruct i.
  - intros i _. unfold slot, slot_owned. by destruct i.
  - intros b [x Hx] E. congruence.
Qed.

(** The loop of [deallocate] over a suffix of the arguments. *)
Lemma free_owned_ok ps os k (h : heap) :
  length os = length ps →
  (∀ i, nth i os false = true → ∃ b x, nth i ps None = Some (b, 0) ∧ h !! b = Some x ∧ b_user x = false) →
  (∀ i j b, nth i os false = true → nth j os false = true → nth i ps None = Some (b, k) →
     nth j ps None = Some (b, k) → i = j) → k = 0 →
  ∃ h', free_owned ps os h = Ret h' ∧
    ∀ b, h' !! b = if existsb (λ po, po.2 && bool_decide (po.1 = Some (b, 0))) (zip ps os) then None else h !! b.
Proof.
  intros Hl Hlive Hinj ->. revert os h Hl Hlive Hinj.
  induction ps as [|p ps IH]; intros [|o os] h Hl Hlive Hinj; try done; [by exists h|].
  cbn [free_owned]. destruct o; cycle 1.
  { cbn [mbind outcome_bind]. destruct (IH os h) as (h' & -> & Hh); [by injection Hl| | |by exists h'].
    - intros i. apply (Hlive (S i)).
    - intros i j b Hi Hj Ei Ej. by injection (Hinj (S i) (S j) b Hi Hj Ei Ej). }
  destruct (Hlive 0%nat eq_refl) as (b & x & Ep & Hb & Hu). cbn in Ep. subst p.
  unfold free at 1. rewrite Hb, Hu. cbn [orb negb Z.eqb mbind outcome_bind].
  destruct (IH os (delete b h)) as (h' & -> & Hh); [by injection Hl| | |].
  - intros i Hi. destruct (Hlive (S i) Hi) as (c & y & Ec & Hc & Hy). cbn in Ec. exists c, y.
    split_and!; [done| |done]. rewrite lookup_delete_ne; [done|]. intros ->.
    by specialize (Hinj 0%nat (S i) c eq_refl Hi eq_refl Ec).
  - intros i j c Hi Hj Ei Ej. by injection (Hinj (S i) (S j) c Hi Hj Ei Ej).
  - exists h'. split; [done|]. intros c. rewrite Hh. cbn [existsb zip zip_with fst snd andb].
    destruct (decide (b = c)) as [->|Hne].
    + rewrite bool_decide_true by done. cbn. rewrite lookup_delete_eq. by destruct (existsb _ _).
    + rewrite bool_decide_false by congruence. cbn. by rewrite lookup_delete_ne.
Qed.

(** ** Properties *)

Lemma deallocate_ok K h0 V P a h :
  args_ok K h0 V P a h →
  ∃ h', deallocate a h = Ret h' ∧ h0 ⊆ h' ∧
    ((∀ i, K i = true → slot a i ≠ None → slot_owned a i = true) → h' = h0).
Proof.
  intros [[H1 H1'] H2 H3 H4 H5 H6].
  assert (Hlive : ∀ i, slot_owned a i = true → K i = true ∧
    ∃ b x, slot a i = Some (b, 0) ∧ h0 !! b = None ∧ h !! b = Some x ∧ b_user x = false).
  { intros i Hi. destruct (K i) eqn:Ki; [|destruct (H5 i Ki); congruence]. split; [done|].
    destruct (H3 i Ki) as [(_ & _ & _ & ?)|(b & Ei & E0 & Hb & _)]; [congruence|]. by exists b, (mkBlock false (V i)). }
  destruct (free_owned_ok (Indices a) (OwnsMem a) 0 h H1') as (h' & Hf & Hh); [| |done|].
  { intros i Hi. destruct (Hlive i Hi) as (_ & b & x & ? & _ & ? & ?). by exists b, x. }
  { intros i j b Hi Hj Ei Ej. destruct (Hlive i Hi) as [Ki _], (Hlive j Hj) as [Kj _]. by eapply H4. }
  assert (Hfreed : ∀ b, existsb (λ po, po.2 && bool_decide (po.1 = Some (b, 0)))
      (zip (Indices a) (OwnsMem a)) = true ↔ ∃ i, slot_owned a i = true ∧ slot a i = Some (b, 0)).
  { intros b. rewrite existsb_exists. split.
    - intros ([p o] & Hin & Hpo). apply list_elem_of_In, list_elem_of_lookup in Hin as [i Hi].
      apply lookup_zip_with_Some in Hi as (p' & o' & [= <- <-] & Hp & Ho). cbn in Hpo.
      apply andb_true_iff in Hpo as [-> Hp'%bool_decide_eq_true]. exists i.
      unfold slot_owned, slot. by rewrite (nth_lookup_Some _ _ _ _ Ho), (nth_lookup_Some _ _ _ _ Hp).
    - intros (i & Ho & Hp). exists (slot a i, slot_owned a i). cbn. rewrite Ho, Hp.
      rewrite bool_decide_true by done. split; [|done].
      assert (i < length (OwnsMem a))%nat.
      { destruct (decide (i < length (OwnsMem a))%nat); [done|]. unfold slot_owned in Ho.
        rewrite nth_overflow in Ho by lia. done. }
      apply list_elem_of_In, list_elem_of_lookup. exists i. rewrite lookup_zip_with.
      destruct (lookup_lt_is_Some_2 (OwnsMem a) i ltac:(lia)) as [o Eo].
      destruct (lookup_lt_is_Some_2 (Indices a) i ltac:(lia)) as [p Ep].
      unfold slot_owned in Ho. unfold slot in Hp. rewrite (nth_lookup_Some _ _ _ _ Eo) in Ho.
      rewrite (nth_lookup_Some _ _ _ _ Ep) in Hp. rewrite Ep, Eo. cbn. by subst. }
  exists h'. split; [done|]. split.
  - apply map_subseteq_spec. intros b x Hb. rewrite Hh. destruct (existsb _ _) eqn:E; [|by eapply lookup_weaken].
    apply Hfreed in E as (i & Ho & Ei). destruct (Hlive i Ho) as (_ & c & ? & Ec & ? & _). congruence.
  - intros Hall. apply map_eq. intros b. rewrite Hh. destruct (existsb _ _) eqn:E.
    + apply Hfreed in E as (i & Ho & Ei). destruct (Hlive i Ho) as (_ & c & ? & Ec & ? & _). congruence.
    + destruct (h0 !! b) as [x|] eqn:E0; [by eapply lookup_weaken|].
      destruct (h !! b) as [x|] eqn:Eh; [|done]. destruct (H6 b) as (i & Ki & Ei); [by eexists|done|].
      assert (existsb (λ po, po.2 && bool_decide (po.1 = Some (b, 0))) (zip (Indices a) (OwnsMem a)) = true).
      { apply Hfreed. exists i. split; [apply Hall; congruence|done]. }
      congruence.
Qed.

(** C33: a program that sets each argument always by value or always by pointer
    has defined behaviour, whatever the order and the sizes: the kernel sees the
    last value and the last pointer of every index, no memory of anybody else is
    touched, and freeing the arguments frees no block twice and nothing of
    others; when no value was set into a gap it frees all that was allocated. *)
Theorem kernel_args_refine K h0 ops :
  Forall (consistent K) ops →
  ∃ a h, run_sets ops (no_arguments, h0) = Ret (a, h) ∧ h0 ⊆ h ∧
    (∀ i, K i = true → arg_value a h i = last_val i ops []) ∧
    (∀ i, K i = false → slot a i = last_ptr i ops None) ∧
    ∃ h', deallocate a h = Ret h' ∧ h0 ⊆ h' ∧
      ((∀ i, K i = true → slot a i ≠ None → slot_owned a i = true) → h' = h0).
Proof.
  intros Hc. destruct (run_sets_ok K h0 _ _ ops _ _ (no_arguments_ok K h0) Hc) as (a & h & Hr & Hok).
  exists a, h. split; [done|]. split; [by apply Hok|]. split_and!.
  - intros i Ki. unfold arg_value. fold (slot a i).
    destruct (ao_val _ _ _ _ _ _ Hok i Ki) as [(-> & _ & -> & _)|(b & -> & _ & -> & _)]; done.
  - intros i Ki. by destruct (ao_ptr _ _ _ _ _ _ Hok i Ki).
  - by eapply deallocate_ok.
Qed.

Definition sample_sets : list set_op :=
  [SetVal 0 [1; 2; 3; 4]; SetPtr 1 (Some (7%nat, 16)); SetVal 2 [9]; SetVal 0 [5; 6]; SetVal 2 [8]].

Lemma kernel_args_refine_witness :
  ∃ a h, run_sets sample_sets (no_arguments, {[7%nat := mkBlock true [0]]}) = Ret (a, h) ∧
    {[7%nat := mkBlock true [0]]} ⊆ h ∧
    (∀ i, negb (i =? 1)%nat = true → arg_value a h i = last_val i sample_sets []) ∧
    (∀ i, negb (i =? 1)%nat = false → slot a i = last_ptr i sample_sets None) ∧
    ∃ h', deallocate a h = Ret h' ∧ {[7%nat := mkBlock true [0]]} ⊆ h' ∧
      ((∀ i, negb (i =? 1)%nat = true → slot a i ≠ None → slot_owned a i = true) →
       h' = {[7%nat := mkBlock true [0]]}).
Proof.
  apply (kernel_args_refine (λ i, negb (i =? 1)%nat)). unfold sample_sets.
  repeat constructor; done.
Defined.

(** *** Local memory *)

Definition total_size (l : list local_arg_info_t) : Z := foldr (λ e s, argSize e + s) 0 l.

(** Where the slice of thread [t] for the [k]-th local argument starts. *)
Definition slice_start (T : Z) (l : list local_arg_info_t) (k : nat) (t : Z) : Z :=
  T * total_size (take k l) + match l !! k with Some e => argSize e * t | None => 0 end.

Definition locals_ok (T : Z) (l : list local_arg_info_t) : Prop :=
  Forall (λ e, 0 ≤ argSize e) l ∧ 0 < T ∧ T * total_size l < 2 ^ 64.

Lemma total_size_cons e l : total_size (e :: l) = argSize e + total_size l.
Proof. done. Qed.

Lemma total_size_nonneg l : Forall (λ e, 0 ≤ argSize e) l → 0 ≤ total_size l.
Proof. induction 1 as [|e l He _ IH]; [done|]. rewrite total_size_cons. lia. Qed.

Lemma reqSize_foldl T l s :
  0 < T → Forall (λ e, 0 ≤ argSize e) l → 0 ≤ s → s + T * total_size l < 2 ^ 64 →
  foldl (λ s e, w64 (s + w64 (argSize e * T))) s l = s + T * total_size l.
Proof.
  intros HT Hl. revert s. induction Hl as [|e l He Hl IH]; intros s Hs Hb; cbn [foldl].
  - cbn. lia.
  - rewrite total_size_cons in *. pose proof (total_size_nonneg l Hl).
    rewrite (w64_small (argSize e * T)) by nia. rewrite w64_small by nia.
    rewrite IH by nia. lia.
Qed.

Lemma reqSize_eq T l : locals_ok T l → reqSize T l = T * total_size l.
Proof. intros (Hl & HT & Hb). unfold reqSize. by rewrite reqSize_foldl. Qed.

Lemma slice_start_cons T e l k t :
  slice_start T (e :: l) (S k) t = T * argSize e + slice_start T l k t.
Proof.
  unfold slice_start. change ((e :: l) !! S k) with (l !! k). rewrite firstn_cons, total_size_cons. lia.
Qed.

Lemma handle_local_foldl T t b is_ l s :
  0 < T → 0 ≤ t < T → Forall (λ e, 0 ≤ argSize e) l → NoDup (argIndex <$> l) →
  Forall (λ e, (argIndex e < length is_)%nat) l → 0 ≤ s → s + T * total_size l < 2 ^ 64 →
  let r := foldl (handle_local T t (Some (b, 0))) (is_, s) l in
  length r.1 = length is_ ∧
  (∀ i, i ∉ (argIndex <$> l) → nth i r.1 None = nth i is_ None) ∧
  (∀ k e, l !! k = Some e → nth (argIndex e) r.1 None = Some (b, s + slice_start T l k t)).
Proof.
  intros HT Ht Hl. revert is_ s. induction Hl as [|e l He Hl IH]; intros is_ s Hnd Hi Hs Hb; [done|].
  cbn [foldl]. rewrite total_size_cons in Hb. pose proof (total_size_nonneg l Hl).
  apply NoDup_cons in Hnd as [Hne Hnd]. apply Forall_cons in Hi as [Hie Hi].
  assert (Hstep : handle_local T t (Some (b, 0)) (is_, s) e =
    (<[argIndex e := ptr_add (Some (b, 0)) (w64 (s + w64 (argSize e * t)))]> is_, s + argSize e * T)).
  { unfold handle_local. cbn [fst snd]. rewrite (w64_small (argSize e * T)) by nia.
    by rewrite (w64_small (s + argSize e * T)) by nia. }
  rewrite Hstep. cbn zeta. clear Hstep.
  destruct (IH (<[argIndex e := ptr_add (Some (b, 0)) (w64 (s + w64 (argSize e * t)))]> is_)
    (s + argSize e * T)) as (E1 & E2 & E3); [done| |nia|nia|].
  { eapply Forall_impl; [exact Hi|]. intros x Hx. cbn. by rewrite length_insert. }
  split_and!.
  - by rewrite E1, length_insert.
  - intros i Hin. cbn in Hin. apply not_elem_of_cons in Hin as [Hne' Hin].
    rewrite E2 by done. rewrite nth_insert by done. by rewrite decide_False.
  - intros [|k] x Hx; cbn in Hx.
    + injection Hx as <-. rewrite E2 by done. rewrite nth_insert, decide_True by done.
      assert (0 ≤ argSize e * t ≤ argSize e * T) by nia. assert (0 ≤ T * total_size l) by nia.
      unfold ptr_add, slice_start. cbn [take lookup list_lookup total_size foldr].
      rewrite (w64_small (argSize e * t)), (w64_small (s + _)), w64_small by lia.
      do 2 f_equal. lia.
    + rewrite (E3 k x Hx), slice_start_cons. do 2 f_equal. lia.
Qed.

Lemma total_size_take k e l :
  Forall (λ e, 0 ≤ argSize e) l → l !! k = Some e →
  total_size (take k l) + argSize e ≤ total_size l ∧ 0 ≤ total_size (take k l) ∧ 0 ≤ argSize e.
Proof.
  intros Hl. revert k. induction Hl as [|x l Hx Hl IH]; intros [|k] Hk; try discriminate.
  - injection Hk as ->. pose proof (total_size_nonneg l Hl). rewrite total_size_cons.
    change (total_size (take 0 (e :: l))) with 0. lia.
  - rewrite firstn_cons, !total_size_cons. specialize (IH k Hk). lia.
Qed.

Lemma total_size_lt j k e l :
  Forall (λ e, 0 ≤ argSize e) l → l !! j = Some e → (j < k)%nat →
  total_size (take j l) + argSize e ≤ total_size (take k l).
Proof.
  intros Hl Hj Hjk. assert (Hj' : take k l !! j = Some e) by (by rewrite lookup_take_lt).
  destruct (total_size_take j e (take k l)) as (H & _); [by apply Forall_take|done|].
  by rewrite take_take, Nat.min_l in H by lia.
Qed.

(** before a work-group runs, each local argument of the thread points to
    its slice of the pool; the slices lie in the pool's size, and those of
    different arguments or different threads do not overlap. *)
Theorem local_slices T t b k :
  locals_ok T (_localArgInfo k) → 0 ≤ t < T → _localMemPool k = Some (b, 0) →
  NoDup (argIndex <$> _localArgInfo k) →
  Forall (λ e, (argIndex e < length (Indices (Args k)))%nat) (_localArgInfo k) →
  let l := _localArgInfo k in
  (∀ j e, l !! j = Some e →
     slot (Args (handleLocalArgs T t k)) (argIndex e) = Some (b, slice_start T l j t) ∧
     0 ≤ slice_start T l j t ∧ slice_start T l j t + argSize e ≤ reqSize T l ∧
     (∀ j' e' t', l !! j' = Some e' → 0 ≤ t' < T → (j, t) ≠ (j', t') →
        slice_start T l j t + argSize e ≤ slice_start T l j' t' ∨
        slice_start T l j' t' + argSize e' ≤ slice_start T l j t)) ∧
  (∀ i, i ∉ (argIndex <$> l) → slot (Args (handleLocalArgs T t k)) i = slot (Args k) i).
Proof.
  intros Hok Ht Hp Hnd Hi. cbn zeta. rewrite (reqSize_eq T _ Hok). destruct Hok as (Hl & HT & Hb).
  pose proof (handle_local_foldl T t b (Indices (Args k)) _ 0 HT Ht Hl Hnd Hi ltac:(lia) ltac:(lia))
    as (E1 & E2 & E3).
  unfold handleLocalArgs, slot. rewrite Hp.
  destruct (foldl _ _ _) as [is_ s]. cbn [fst Args set_args Indices] in *.
  split; [|done]. intros j e Hj. rewrite (E3 j e Hj), Z.add_0_l.
  destruct (total_size_take j e _ Hl Hj) as (Hle & H0 & He).
  split; [done|]. assert (Hs : slice_start T (_localArgInfo k) j t =
    T * total_size (take j (_localArgInfo k)) + argSize e * t) by (unfold slice_start; by rewrite Hj).
  rewrite Hs. split_and!; [nia|nia|].
  intros j' e' t' Hj' Ht' Hne. unfold slice_start. rewrite Hj'.
  destruct (total_size_take j' e' _ Hl Hj') as (_ & H0' & He').
  destruct (lt_eq_lt_dec j j') as [[Hlt| ->]|Hlt].
  - left. pose proof (total_size_lt j j' e _ Hl Hj Hlt). nia.
  - rewrite Hj in Hj'. injection Hj' as <-. assert (t ≠ t') by (intros ->; done).
    destruct (Z.lt_ge_cases t t'); [left|right]; nia.
  - right. pose proof (total_size_lt j' j e' _ Hl Hj' Hlt). nia.
Qed.

Definition sample_locals : ur_kernel_handle_t_ :=
  mkKernel (mkArguments [None; None; None] [8; 8; 8] [false; false; false])
    [mkLocal 0 16; mkLocal 2 100] (Some (3%nat, 0)) 464 1.

Lemma local_slices_witness :
  (∀ j e, [mkLocal 0 16; mkLocal 2 100] !! j = Some e →
     slot (Args (handleLocalArgs 4 3 sample_locals)) (argIndex e) =
       Some (3%nat, slice_start 4 [mkLocal 0 16; mkLocal 2 100] j 3) ∧
     0 ≤ slice_start 4 [mkLocal 0 16; mkLocal 2 100] j 3 ∧
     slice_start 4 [mkLocal 0 16; mkLocal 2 100] j 3 + argSize e ≤ reqSize 4 [mkLocal 0 16; mkLocal 2 100] ∧
     (∀ j' e' t', [mkLocal 0 16; mkLocal 2 100] !! j' = Some e' → 0 ≤ t' < 4 → (j, 3) ≠ (j', t') →
        slice_start 4 [mkLocal 0 16; mkLocal 2 100] j 3 + argSize e ≤
          slice_start 4 [mkLocal 0 16; mkLocal 2 100] j' t' ∨
        slice_start 4 [mkLocal 0 16; mkLocal 2 100] j' t' + argSize e' ≤
          slice_start 4 [mkLocal 0 16; mkLocal 2 100] j 3)) ∧
  (∀ i, i ∉ (argIndex <$> [mkLocal 0 16; mkLocal 2 100]) →
     slot (Args (handleLocalArgs 4 3 sample_locals)) i = slot (Args sample_locals) i).
Proof.
  apply (local_slices 4 3 3 sample_locals).
  - split_and!; [cbn; repeat apply Forall_cons_2; try apply Forall_nil; done|done|vm_compute; done].
  - lia.
  - reflexivity.
  - apply (bool_decide_unpack (NoDup [0%nat; 2%nat])). vm_compute. exact I.
  - cbn. repeat apply Forall_cons_2; try apply Forall_nil; cbn; lia.
Defined.

(** *** Ownership *)

(** releasing a kernel never frees its local memory or its argument copies:
    the object is deleted when the count reaches zero, and its destructor
    decrements once more before it compares with zero. *)
Theorem kernel_release_leaks k h :
  1 ≤ _refCount k < 2 ^ 32 →
  urKernelRelease k h = Ret (if _refCount k =? 1 then None else Some (set_count (_refCount k - 1) k), h).
Proof.
  intros Hc. unfold urKernelRelease, destroy_kernel. cbn [_refCount set_count].
  assert (w32 (_refCount k - 1) = _refCount k - 1) as -> by (apply Z.mod_small; lia).
  destruct (Z.eqb_spec (_refCount k) 1) as [->|Hne]; [done|].
  by destruct (Z.eqb_spec (_refCount k - 1) 0); [lia|].
Qed.

Lemma kernel_release_leaks_witness :
  urKernelRelease sample_locals {[3%nat := mkBlock false [0]]} = Ret (None, {[3%nat := mkBlock false [0]]}).
Proof. apply (kernel_release_leaks sample_locals). split; vm_compute; done. Defined.

(** A copy is never the last owner. *)
Lemma copy_never_frees k h : destroy_kernel (copy_kernel k) h = Ret h.
Proof. done. Qed.

(** A value argument after a pointer argument of the same index is written
    through the pointer. *)
Example value_over_pointer :
  run_sets [SetPtr 0 (Some (7%nat, 0)); SetVal 0 [1; 2; 3; 4; 5; 6; 7; 8]]
    (no_arguments, {[7%nat := mkBlock true (replicate 8 0)]}) =
  Ret (mkArguments [Some (7%nat, 0)] [8] [false], {[7%nat := mkBlock true [1; 2; 3; 4; 5; 6; 7; 8]]}).
Proof. vm_compute. reflexivity. Qed.

(** With another size the caller's memory is reallocated. *)
Example value_over_pointer_undefined :
  run_sets [SetPtr 0 (Some (7%nat, 0)); SetVal 0 [1]]
    (no_arguments, {[7%nat := mkBlock true (replicate 8 0)]}) = Undef.
Proof. vm_compute. reflexivity. Qed.

(** A value set into a gap is not owned and is never freed. *)
Example gap_not_owned :
  (s ← run_sets [SetVal 1 [1]; SetVal 0 [2]] (no_arguments, ∅); deallocate s.1 s.2) =
  Ret {[1%nat := mkBlock false [2]]}.
Proof. vm_compute. reflexivity. Qed.

(** Two launches with a local argument each and no wait between them: the second
    one reallocates the pool, and the copy of the kernel in the first launch's
    tasks keeps a dangling pointer. *)
Example pool_moves_under_launch :
  match updateMemPool 2 (urKernelSetArgLocal 0 16 new_kernel).2 ∅ with
  | Ret (k1, h1) =>
      let in_flight := handleLocalArgs 2 1 (copy_kernel k1) in
      match updateMemPool 2 (urKernelSetArgLocal 0 16 k1).2 h1 with
      | Ret (_, h2) => slot (Args in_flight) 0 = Some (0%nat, 16) ∧ h2 !! 0%nat = None
      | _ => False
      end
  | _ => False
  end.
Proof. vm_compute. by split. Qed.
