(* ===== verification/NativeCpuMem.v ===== *)
(** * NativeCpuMem: native_cpu/enqueue.cpp (memory commands), context.hpp, usm.cpp

    The bodies of the copy and fill commands on a flat byte memory, and USM
    allocation with its hidden header.  An access outside mapped memory is
    undefined.  The wait list and the event around a body are in
    NativeCpuQueue. *)
From S2P Require Import Prelude UrHelpers NativeCpuLaunch.

(** ** Memory *)

(** The mapped bytes; addresses are 64-bit. *)
Abbreviation memory := (gmap Z Z).

Definition load (a : Z) (m : memory) : outcome Z :=
  match m !! a with Some v => Ret v | None => Undef end.
Definition store (a v : Z) (m : memory) : outcome memory :=
  match m !! a with Some _ => Ret (<[a := v]> m) | None => Undef end.

Definition bytes_at (p : Z) (n : Z) : list Z := (λ i, w64 (p + i)) <$> seqZ 0 n.

(** Read all, then write all. *)
Fixpoint store_all (l : list (Z * Z)) (m : memory) : outcome memory :=
  match l with
  | [] => Ret m
  | (a, v) :: l' => m' ← store a v m; store_all l' m'
  end.

Definition memmove (dst src size : Z) (m : memory) : outcome memory :=
  vs ← mapM (λ a, load a m) (bytes_at src size);
  store_all (zip (bytes_at dst size) vs) m.

(** [memcpy] of overlapping ranges is undefined. *)
Definition memcpy (dst src size : Z) (m : memory) : outcome memory :=
  if existsb (λ a, bool_decide (a ∈ bytes_at src size)) (bytes_at dst size)
  then Undef else memmove dst src size m.

(** [memcpy] from memory of the caller that no command writes. *)
Definition memcpy_from (dst : Z) (src : list Z) (m : memory) : outcome memory :=
  store_all (zip (bytes_at dst (Z.of_nat (length src))) src) m.

(** ** Copies *)

Record ur_rect_offset_t := mkOffset { off_x : Z; off_y : Z; off_z : Z }.
Record ur_rect_region_t := mkRegion { width : Z; height : Z; depth : Z }.

(** The index computed for one byte, in 64 bits. *)
Definition rect_index (o : ur_rect_offset_t) (rowPitch slicePitch w h d : Z) : Z :=
  w64 ((d + off_z o) * slicePitch + (h + off_y o) * rowPitch + w + off_x o).

(** The counters of the three loops, the last innermost. *)
Definition rect_points (r : ur_rect_region_t) : list (Z * Z * Z) :=
  seqZ 0 (width r) ≫= λ w, seqZ 0 (height r) ≫= λ h, (λ d, (w, h, d)) <$> seqZ 0 (depth r).

(** A pitch of zero stands for tightly packed rows and slices. *)
Definition row_pitch (p : Z) (r : ur_rect_region_t) : Z := if p =? 0 then width r else p.
Definition slice_pitch (p row : Z) (r : ur_rect_region_t) : Z :=
  if p =? 0 then w64 (row * height r) else p.

(** One byte at a time. *)
Fixpoint copy_bytes (l : list (Z * Z)) (m : memory) : outcome memory :=
  match l with
  | [] => Ret m
  | (dst, src) :: l' => v ← load src m; m' ← store dst v m; copy_bytes l' m'
  end.

Definition enqueueMemBufferReadWriteRect_impl (IsRead : bool) (Buff DstMem : Z)
    (BufferOffset HostOffset : ur_rect_offset_t) (region : ur_rect_region_t)
    (BufferRowPitch BufferSlicePitch HostRowPitch HostSlicePitch : Z) (m : memory) : outcome memory :=
  let brp := row_pitch BufferRowPitch region in
  let bsp := slice_pitch BufferSlicePitch brp region in
  let hrp := row_pitch HostRowPitch region in
  let hsp := slice_pitch HostSlicePitch hrp region in
  copy_bytes
    ((λ '(w, h, d),
        let buff := w64 (Buff + rect_index BufferOffset brp bsp w h d) in
        let host := w64 (DstMem + rect_index HostOffset hrp hsp w h d) in
        if IsRead then (host, buff) else (buff, host)) <$> rect_points region) m.

(** Copying a buffer reads it as the host memory of the other. *)
Definition urEnqueueMemBufferReadRect := enqueueMemBufferReadWriteRect_impl true.
Definition urEnqueueMemBufferWriteRect := enqueueMemBufferReadWriteRect_impl false.
Definition urEnqueueMemBufferCopyRect (src dst : Z) := enqueueMemBufferReadWriteRect_impl true src dst.

Definition doCopy_impl (DstPtr SrcPtr Size : Z) (m : memory) : outcome memory :=
  if negb (SrcPtr =? DstPtr) && negb (Size =? 0) then memmove DstPtr SrcPtr Size m else Ret m.

Definition urEnqueueMemBufferRead (hBuffer offset size pDst : Z) := doCopy_impl pDst (w64 (hBuffer + offset)) size.
Definition urEnqueueMemBufferWrite (hBuffer offset size pSrc : Z) := doCopy_impl (w64 (hBuffer + offset)) pSrc size.
Definition urEnqueueMemBufferCopy (hBufferSrc hBufferDst srcOffset dstOffset size : Z) :=
  doCopy_impl (w64 (hBufferDst + dstOffset)) (w64 (hBufferSrc + srcOffset)) size.

(** Null pointers are 0. *)
Definition urEnqueueUSMMemcpy (hasQueue : bool) (pDst pSrc size : Z) (m : memory)
  : outcome (ur_result_t * memory) :=
  if negb hasQueue then Ret (UR_RESULT_ERROR_INVALID_QUEUE, m)
  else if pDst =? 0 then Ret (UR_RESULT_ERROR_INVALID_NULL_POINTER, m)
  else if pSrc =? 0 then Ret (UR_RESULT_ERROR_INVALID_NULL_POINTER, m)
  else m ← memcpy pDst pSrc size m; Ret (UR_RESULT_SUCCESS, m).

(** ** Fills *)

(** The counter is 32 bits wide, the offset 64. *)
Definition fill_steps (startingPtr steps : Z) (pPattern : list Z) (m : memory) : outcome memory :=
  foldl (λ o i, m ← o; memcpy_from (w64 (startingPtr + i * Z.of_nat (length pPattern))) pPattern m)
    (Ret m) (seqZ 0 steps).

Definition urEnqueueMemBufferFill (hasQueue : bool) (hBuffer : Z) (pPattern : list Z) (offset size : Z)
    (m : memory) : outcome (ur_result_t * memory) :=
  if negb hasQueue then Ret (UR_RESULT_ERROR_INVALID_NULL_HANDLE, m)
  else
    let patternSize := Z.of_nat (length pPattern) in
    if patternSize =? 0 then Undef
    else
      let steps := w32 (size / patternSize) in
      m ← fill_steps (w64 (hBuffer + offset)) steps pPattern m;
      Ret (UR_RESULT_SUCCESS, m).

(** The default case: [step] is an [unsigned int]. *)
Fixpoint fill_loop (fuel : nat) (ptr step size : Z) (pPattern : list Z) (m : memory)
  : option (outcome memory) :=
  match fuel with
  | O => None
  | S fuel' =>
      if step <? size then
        match memcpy_from (w64 (ptr + step)) pPattern m with
        | Ret m' => fill_loop fuel' ptr (w32 (step + Z.of_nat (length pPattern))) size pPattern m'
        | o => Some o
        end
      else Some (Ret m)
  end.

Definition urEnqueueUSMFill (fuel : nat) (ptr : Z) (pPattern : option (list Z)) (size : Z) (m : memory)
  : option (outcome (ur_result_t * memory)) :=
  let patternSize := match pPattern with Some p => Z.of_nat (length p) | None => 0 end in
  if ptr =? 0 then Some (Ret (UR_RESULT_ERROR_INVALID_NULL_POINTER, m))
  else match pPattern with
  | None => Some (Ret (UR_RESULT_ERROR_INVALID_NULL_POINTER, m))
  | Some p =>
      if patternSize =? 0 then Some (Ret (UR_RESULT_ERROR_INVALID_SIZE, m))
      else if size =? 0 then Some (Ret (UR_RESULT_ERROR_INVALID_SIZE, m))
      else if negb (patternSize <? size) then Some (Ret (UR_RESULT_ERROR_INVALID_SIZE, m))
      else if negb (size mod patternSize =? 0) then Some (Ret (UR_RESULT_ERROR_INVALID_SIZE, m))
      else
        fmap (λ o, m ← o; Ret (UR_RESULT_SUCCESS, m))
          (if bool_decide (patternSize ∈ [1; 2; 4; 8]) then
             (* memset, or std::fill with elements of the pattern's size *)
             Some (fill_steps ptr (size / patternSize) p m)
           else fill_loop fuel ptr 0 size p m)
  end.

(** ** USM *)

(** [sizeof] and [alignof] of [usm_alloc_info] on a 64-bit platform. *)
Definition alloc_header_size : Z := 48.
Definition alloc_header_align : Z := 8.

Definition get_padding (alignment : Z) : Z :=
  if (alignment =? 0) || (alloc_header_size mod alignment =? 0) then 0
  else if alignment <=? alloc_header_size then alignment - alloc_header_size mod alignment
  else alignment - alloc_header_size.

Inductive ur_usm_type_t :=
  | UR_USM_TYPE_UNKNOWN | UR_USM_TYPE_HOST | UR_USM_TYPE_DEVICE | UR_USM_TYPE_SHARED.

#[export] Instance ur_usm_type_eq_dec : EqDecision ur_usm_type_t.
Proof. solve_decision. Defined.

(** [base_ptr], [device] and [pool] are not kept. *)
Record usm_alloc_info := mkInfo { usm_type : ur_usm_type_t; usm_size : Z; base_alloc_ptr : Z }.

Definition usm_alloc_info_null_entry : usm_alloc_info := mkInfo UR_USM_TYPE_UNKNOWN 0 0.

(** The C++ heap: live blocks by address, with their sizes.  The headers are
    kept by their address. *)
Record usm_state := mkUsm {
  live : gmap Z Z; headers : gmap Z usm_alloc_info; allocations : gset Z
}.

Section usm.
(** [aligned_malloc]: the address for an alignment and a size, 0 on failure. *)
Context (aligned_malloc : gmap Z Z → Z → Z → Z).

Definition get_alloc_info_addr (ptr : Z) : Z := w64 (ptr - alloc_header_size).

Definition malloc_size (alignment size : Z) : Z :=
  w64 (alloc_header_size + get_padding alignment + size).

(** Writing the header outside the block is undefined. *)
Definition add_alloc (alignment : Z) (type : ur_usm_type_t) (size : Z) (s : usm_state)
  : outcome (Z * usm_state) :=
  let alignment := Z.max alignment alloc_header_align in
  let n := malloc_size alignment size in
  let alloc := aligned_malloc (live s) alignment n in
  if alloc =? 0 then Ret (0, s)
  else
    let ptr := w64 (alloc_header_size + get_padding alignment + alloc) in
    let info_addr := get_alloc_info_addr ptr in
    if info_addr =? 0 then Ret (0, s)
    else if (alloc <=? info_addr) && (info_addr + alloc_header_size <=? alloc + n) then
      Ret (ptr, mkUsm (<[alloc := n]> (live s))
                  (<[info_addr := mkInfo type size alloc]> (headers s)) ({[ptr]} ∪ allocations s))
    else Undef.

(** Reading a header where there is none, or freeing what is not a block, is
    undefined. *)
Definition remove_alloc (ptr : Z) (s : usm_state) : outcome (ur_result_t * usm_state) :=
  match headers s !! get_alloc_info_addr ptr with
  | None => Undef
  | Some info =>
      if decide (usm_type info = UR_USM_TYPE_UNKNOWN) then Ret (UR_RESULT_ERROR_INVALID_MEM_OBJECT, s)
      else match live s !! base_alloc_ptr info with
      | None => Undef
      | Some _ => Ret (UR_RESULT_SUCCESS,
                       mkUsm (delete (base_alloc_ptr info) (live s))
                         (delete (get_alloc_info_addr ptr) (headers s)) (allocations s ∖ {[ptr]}))
      end
  end.

Definition get_alloc_info_entry (ptr : Z) (s : usm_state) : outcome usm_alloc_info :=
  if bool_decide (ptr ∈ allocations s) then
    match headers s !! get_alloc_info_addr ptr with Some i => Ret i | None => Undef end
  else Ret usm_alloc_info_null_entry.

(** The pointer is [None] when there is none to return. *)
Definition alloc_helper (align : option Z) (size : Z) (hasResult : bool) (type : ur_usm_type_t)
    (s : usm_state) : outcome (ur_result_t * option Z * usm_state) :=
  let alignment := match align with Some a => if a =? 0 then 1 else a | None => 1 end in
  if negb (isPowerOf2 alignment) then Ret (UR_RESULT_ERROR_UNSUPPORTED_ALIGNMENT, None, s)
  else if negb hasResult then Ret (UR_RESULT_ERROR_INVALID_NULL_POINTER, None, s)
  else if negb (0 <? size) then Ret (UR_RESULT_ERROR_INVALID_USM_SIZE, None, s)
  else
    '(ptr, s) ← add_alloc alignment type size s;
    if ptr =? 0 then Ret (UR_RESULT_ERROR_OUT_OF_RESOURCES, None, s)
    else Ret (UR_RESULT_SUCCESS, Some ptr, s).

Definition urUSMHostAlloc (align : option Z) (size : Z) (hasResult : bool) :=
  alloc_helper align size hasResult UR_USM_TYPE_HOST.
Definition urUSMDeviceAlloc (align : option Z) (size : Z) (hasResult : bool) :=
  alloc_helper align size hasResult UR_USM_TYPE_DEVICE.
Definition urUSMSharedAlloc (align : option Z) (size : Z) (hasResult : bool) :=
  alloc_helper align size hasResult UR_USM_TYPE_SHARED.

Definition urUSMFree (hasContext : bool) (pMem : Z) (s : usm_state) : outcome (ur_result_t * usm_state) :=
  if pMem =? 0 then Ret (UR_RESULT_ERROR_INVALID_NULL_POINTER, s)
  else if negb hasContext then Ret (UR_RESULT_ERROR_INVALID_NULL_POINTER, s)
  else remove_alloc pMem s.
End usm.

(** ** Lemmas *)

Lemma bytes_at_seqZ p n : 0 ≤ p → p + n ≤ 2 ^ 64 → bytes_at p n = seqZ p n.
Proof.
  intros Hp Hn. unfold bytes_at. apply list_eq_same_length with (n := Z.to_nat n);
    [by rewrite length_seqZ|by rewrite length_fmap, length_seqZ|].
  intros i x y Hi Hx Hy. apply list_lookup_fmap_Some in Hx as (j & -> & [-> Hj]%lookup_seqZ).
  apply lookup_seqZ in Hy as [-> _]. unfold w64. rewrite Z.mod_small by lia. lia.
Qed.

(** The bytes from [p] on are [l], the others those of [m]. *)
Definition written (m m' : memory) (p : Z) (l : list Z) : Prop :=
  ∀ a, m' !! a = if decide (p ≤ a < p + Z.of_nat (length l)) then l !! Z.to_nat (a - p) else m !! a.

Definition mapped (m : memory) (p n : Z) : Prop := ∀ a, p ≤ a < p + n → is_Some (m !! a).

Lemma store_seq_ok p l m :
  mapped m p (Z.of_nat (length l)) →
  ∃ m', store_all (zip (seqZ p (Z.of_nat (length l))) l) m = Ret m' ∧ written m m' p l.
Proof.
  revert p m. induction l as [|v l IH]; intros p m Hm.
  - exists m. split; [done|]. intros a. rewrite decide_False; [done|cbn; lia].
  - cbn [length] in *. rewrite seqZ_cons by lia. cbn [zip zip_with store_all].
    destruct (Hm p ltac:(lia)) as [x Hx]. unfold store. rewrite Hx. cbn [mbind outcome_bind].
    replace (Z.pred (Z.of_nat (S (length l)))) with (Z.of_nat (length l)) by lia.
    replace (Z.succ p) with (p + 1) by lia.
    destruct (IH (p + 1) (<[p := v]> m)) as (m' & Hs & Hw).
    { intros a Ha. rewrite lookup_insert_ne by lia. apply Hm. lia. }
    exists m'. split; [exact Hs|]. intros a. rewrite Hw. cbn [length].
    destruct (decide (a = p)) as [->|Hne].
    + rewrite decide_False, decide_True by lia. by rewrite lookup_insert_eq, Z.sub_diag.
    + destruct (decide (p + 1 ≤ a < p + 1 + Z.of_nat (length l))).
      * rewrite decide_True by lia. by replace (Z.to_nat (a - p)) with (S (Z.to_nat (a - (p + 1)))) by lia.
      * rewrite decide_False by lia. by rewrite lookup_insert_ne.
Qed.

Lemma memcpy_from_ok p l m :
  0 ≤ p → p + Z.of_nat (length l) ≤ 2 ^ 64 → mapped m p (Z.of_nat (length l)) →
  ∃ m', memcpy_from p l m = Ret m' ∧ written m m' p l.
Proof. intros. unfold memcpy_from. rewrite bytes_at_seqZ by done. by apply store_seq_ok. Qed.

(** [n] copies of the pattern from [p] on. *)
Definition filled (m m' : memory) (p n : Z) (l : list Z) : Prop :=
  ∀ a, m' !! a = if decide (p ≤ a < p + n * Z.of_nat (length l))
                 then l !! Z.to_nat ((a - p) mod Z.of_nat (length l)) else m !! a.

Lemma filled_mapped m m' p n l q k :
  filled m m' p n l → 0 < Z.of_nat (length l) → mapped m q k → mapped m' q k.
Proof.
  intros Hf Hl Hm a Ha. rewrite Hf. destruct (decide _); [|by apply Hm].
  apply lookup_lt_is_Some. pose proof (Z.mod_pos_bound (a - p) _ Hl). lia.
Qed.

Lemma filled_step m m1 m2 p n l :
  0 ≤ n → 0 < Z.of_nat (length l) → filled m m1 p n l → written m1 m2 (p + n * Z.of_nat (length l)) l →
  filled m m2 p (n + 1) l.
Proof.
  intros Hn Hl Hf Hw a. rewrite Hw. set (k := Z.of_nat (length l)) in *.
  destruct (decide (p + n * k ≤ a < p + n * k + k)) as [H|H].
  - rewrite decide_True by nia. f_equal. f_equal.
    replace (a - p) with (a - (p + n * k) + n * k) by lia.
    rewrite Z.mod_add, Z.mod_small by lia. done.
  - rewrite Hf. fold k. destruct (decide (p ≤ a < p + n * k)).
    + by rewrite decide_True by nia.
    + by rewrite decide_False by nia.
Qed.

Lemma fill_steps_ok p n l m :
  0 ≤ p → 0 ≤ n → 0 < Z.of_nat (length l) → p + n * Z.of_nat (length l) ≤ 2 ^ 64 →
  mapped m p (n * Z.of_nat (length l)) →
  ∃ m', fill_steps p n l m = Ret m' ∧ filled m m' p n l.
Proof.
  intros Hp Hn Hl. revert n Hn. apply (natlike_ind (λ n, _ → _ → _)).
  - intros _ _. exists m. split; [done|]. intros a. by rewrite decide_False by lia.
  - intros n Hn IH Hb Hm. destruct IH as (m1 & Hf & Hfill); [nia| |].
    { intros a Ha. apply Hm. nia. }
    unfold fill_steps in *. replace (Z.succ n) with (n + 1) by lia.
    rewrite seqZ_app, foldl_app, Hf by lia. rewrite Z.add_0_l.
    rewrite (seqZ_cons n 1), seqZ_nil by lia.
    cbn [foldl mbind outcome_bind]. unfold w64. rewrite Z.mod_small by nia.
    destruct (memcpy_from_ok (p + n * Z.of_nat (length l)) l m1) as (m2 & Hs & Hw); [nia|nia| |].
    { eapply filled_mapped; [done|done|]. intros a Ha. apply Hm. nia. }
    exists m2. split; [exact Hs|]. by apply (filled_step m m1).
Qed.

(** ** Fills *)

(** a buffer fill whose size is a multiple of the pattern's writes the
    pattern over the whole range and nothing else. *)
Theorem buffer_fill_exact hBuffer l offset n m :
  l ≠ [] → 0 ≤ hBuffer → 0 ≤ offset → 0 ≤ n < 2 ^ 32 →
  hBuffer + offset + n * Z.of_nat (length l) ≤ 2 ^ 64 - 1 →
  mapped m (hBuffer + offset) (n * Z.of_nat (length l)) →
  ∃ m', urEnqueueMemBufferFill true hBuffer l offset (n * Z.of_nat (length l)) m =
          Ret (UR_RESULT_SUCCESS, m') ∧ filled m m' (hBuffer + offset) n l.
Proof.
  intros Hl Hb Ho Hn Hend Hm. unfold urEnqueueMemBufferFill. cbn [negb].
  assert (0 < Z.of_nat (length l)) by (destruct l; [done|cbn; lia]).
  destruct (Z.eqb_spec (Z.of_nat (length l)) 0); [lia|].
  rewrite Z.div_mul by lia. unfold w32, w64 at 1. rewrite (Z.mod_small n) by lia.
  rewrite Z.mod_small by nia.
  destruct (fill_steps_ok (hBuffer + offset) n l m) as (m' & -> & Hf); [lia|lia|done|lia|done|].
  by exists m'.
Qed.

Lemma foldl_Undef {A B} (f : outcome A → B → outcome A) l :
  (∀ b, f Undef b = Undef) → foldl f Undef l = Undef.
Proof. intros Hf. induction l as [|b l IH]; [done|]. cbn. by rewrite Hf. Qed.

Lemma written_mapped m m' p l q k : written m m' p l → mapped m q k → mapped m' q k.
Proof.
  intros Hw Hm a Ha. rewrite Hw. destruct (decide _); [|by apply Hm]. apply lookup_lt_is_Some. lia.
Qed.

(** The default loop below 2^32 is the plain one. *)
Lemma fill_loop_ok fuel ptr i n l m m1 :
  let k := Z.of_nat (length l) in
  0 ≤ ptr → 0 ≤ i ≤ n → 0 < k → n * k < 2 ^ 32 → ptr + n * k ≤ 2 ^ 64 → mapped m ptr (n * k) →
  filled m m1 ptr i l → n - i < Z.of_nat fuel →
  ∃ m', fill_loop fuel ptr (i * k) (n * k) l m1 = Some (Ret m') ∧ filled m m' ptr n l.
Proof.
  cbn zeta. intros Hp Hi Hk Hn Hb Hm. revert i m1 Hi. induction fuel as [|fuel IH]; intros i m1 Hi Hf Hfuel; [lia|].
  cbn [fill_loop]. destruct (Z.ltb_spec (i * Z.of_nat (length l)) (n * Z.of_nat (length l))) as [Hlt|Hge].
  - assert (i < n) by nia. unfold w64 at 1. rewrite Z.mod_small by nia.
    destruct (memcpy_from_ok (ptr + i * Z.of_nat (length l)) l m1) as (m2 & -> & Hw); [nia|nia| |].
    { eapply filled_mapped; [done|done|]. intros a Ha. apply Hm. nia. }
    unfold w32. rewrite Z.mod_small by nia.
    replace (i * Z.of_nat (length l) + Z.of_nat (length l)) with ((i + 1) * Z.of_nat (length l)) by lia.
    apply IH; [lia| |lia]. eapply filled_step; [lia|done|done|done].
  - assert (i = n) by nia. subst i. by exists m1.
Qed.

(** a USM fill is accepted exactly when the pattern is smaller than the size
    and divides it; below 2^32 bytes it then ends and fills the whole range and
    nothing else, on every path of the switch.  A pattern as large as the
    allocation is refused. *)
Theorem usm_fill_exact fuel ptr l size m :
  0 < ptr → 0 ≤ size < 2 ^ 32 → ptr + size ≤ 2 ^ 64 → mapped m ptr size → size < Z.of_nat fuel →
  let k := Z.of_nat (length l) in
  if decide (0 < k ∧ k < size ∧ size mod k = 0) then
    ∃ m', urEnqueueUSMFill fuel ptr (Some l) size m = Some (Ret (UR_RESULT_SUCCESS, m')) ∧
      filled m m' ptr (size / k) l
  else urEnqueueUSMFill fuel ptr (Some l) size m = Some (Ret (UR_RESULT_ERROR_INVALID_SIZE, m)).
Proof.
  intros Hp Hs Hb Hm Hfuel. cbn zeta. unfold urEnqueueUSMFill.
  destruct (Z.eqb_spec ptr 0); [lia|].
  destruct (Z.eqb_spec (Z.of_nat (length l)) 0) as [|Hk]; [by rewrite decide_False by lia|].
  destruct (Z.eqb_spec size 0); [by rewrite decide_False by lia|].
  destruct (Z.ltb_spec (Z.of_nat (length l)) size); [|by rewrite decide_False by lia].
  destruct (Z.eqb_spec (size mod Z.of_nat (length l)) 0) as [Hmod|]; [|by rewrite decide_False by lia].
  rewrite decide_True by lia. cbn [negb].
  assert (Hsize : size / Z.of_nat (length l) * Z.of_nat (length l) = size)
    by (pose proof (Z.div_mod size (Z.of_nat (length l)) Hk); lia).
  assert (Hpos : 0 ≤ size / Z.of_nat (length l)) by (apply Z.div_pos; lia).
  destruct (bool_decide _).
  - destruct (fill_steps_ok ptr (size / Z.of_nat (length l)) l m) as (m' & -> & Hf);
      rewrite ?Hsize; try lia; [done|]. by exists m'.
  - destruct (fill_loop_ok fuel ptr 0 (size / Z.of_nat (length l)) l m m) as (m' & Hl & Hf);
      rewrite ?Hsize; try lia; [done| | |].
    + intros a. by rewrite decide_False by lia.
    + assert (size / Z.of_nat (length l) ≤ size) by (apply Z.div_le_upper_bound; nia). lia.
    + rewrite Hsize, Z.mul_0_l in Hl. rewrite Hl. by exists m'.
Qed.

(** the offset of the default case is 32 bits wide: filling 2^32 bytes or
    more with a pattern of, say, 3 bytes never ends. *)
Theorem usm_fill_never_ends fuel ptr l size m :
  let k := Z.of_nat (length l) in
  0 < ptr → 2 ^ 32 ≤ size → k ∉ [1; 2; 4; 8] → 0 < k < 2 ^ 32 → size mod k = 0 →
  ptr + 2 ^ 32 + k ≤ 2 ^ 64 → mapped m ptr (2 ^ 32 + k) →
  urEnqueueUSMFill fuel ptr (Some l) size m = None.
Proof.
  cbn zeta. intros Hp Hs Hk Hpos Hmod Hb Hm. unfold urEnqueueUSMFill.
  destruct (Z.eqb_spec ptr 0); [lia|]. destruct (Z.eqb_spec (Z.of_nat (length l)) 0); [lia|].
  destruct (Z.eqb_spec size 0); [lia|]. destruct (Z.ltb_spec (Z.of_nat (length l)) size); [|lia].
  rewrite Hmod, Z.eqb_refl. cbn [negb]. rewrite bool_decide_false by done.
  assert (Hloop : ∀ fuel step m, 0 ≤ step < 2 ^ 32 → mapped m ptr (2 ^ 32 + Z.of_nat (length l)) →
    fill_loop fuel ptr step size l m = None).
  { clear fuel m Hm. induction fuel as [|fuel IH]; intros step m Hstep Hm; [done|]. cbn [fill_loop].
    destruct (Z.ltb_spec step size); [|lia]. unfold w64 at 1. rewrite Z.mod_small by lia.
    destruct (memcpy_from_ok (ptr + step) l m) as (m' & -> & Hw); [lia|lia| |].
    { intros a Ha. apply Hm. lia. }
    apply IH; [|by eapply written_mapped]. unfold w32.
    pose proof (Z.mod_pos_bound (step + Z.of_nat (length l)) (2 ^ 32)). lia. }
  by rewrite Hloop.
Qed.

(** ** Copies *)

(** The destinations get the bytes the sources had; nothing else changes. *)
Definition copied (l : list (Z * Z)) (m m' : memory) : Prop :=
  (∀ d s, (d, s) ∈ l → m' !! d = m !! s) ∧ (∀ a, a ∉ l.*1 → m' !! a = m !! a).

Lemma copy_bytes_ok l m :
  NoDup l.*1 → (∀ a, a ∈ l.*1 → a ∉ l.*2) →
  (∀ a, a ∈ l.*1 → is_Some (m !! a)) → (∀ a, a ∈ l.*2 → is_Some (m !! a)) →
  ∃ m', copy_bytes l m = Ret m' ∧ copied l m m'.
Proof.
  revert m. induction l as [|[d s] l IH]; intros m Hnd Hdis Hd Hs.
  { exists m. split; [done|]. split; [|done]. intros ? ? H. by apply not_elem_of_nil in H. }
  cbn in *. apply NoDup_cons in Hnd as [Hdl Hnd].
  destruct (Hs s) as [v Hv]; [by left|]. destruct (Hd d) as [v' Hv']; [by left|].
  unfold load, store. rewrite Hv. cbn [mbind outcome_bind]. rewrite Hv'. cbn [mbind outcome_bind].
  assert (Hne : ∀ a, a ∈ s :: l.*2 → a ≠ d) by (intros a Ha ->; by apply (Hdis d); [left|]).
  destruct (IH (<[d := v]> m)) as (m' & Hc & Hcp & Hrest); [done| | | |].
  { intros a Ha Ha'. apply (Hdis a); by right. }
  { intros a Ha. rewrite lookup_insert_is_Some. right. split; [by intros ->|]. apply Hd. by right. }
  { intros a Ha. rewrite lookup_insert_ne by (symmetry; apply Hne; by right). apply Hs. by right. }
  exists m'. split; [done|]. split.
  - intros d' s' [[= -> ->]|Hin]%elem_of_cons.
    + rewrite Hrest by done. by rewrite lookup_insert_eq.
    + rewrite (Hcp d' s' Hin), lookup_insert_ne; [done|]. symmetry. apply Hne. right.
      by apply (list_elem_of_fmap_2 snd _ (d', s')).
  - intros a Ha. apply not_elem_of_cons in Ha as [Had Ha]. rewrite Hrest by done.
    by rewrite lookup_insert_ne.
Qed.

(** Where the byte [(w, h, d)] of a rectangle is. *)
Definition rect_addr (base : Z) (o : ur_rect_offset_t) (row slice : Z) (p : Z * Z * Z) : Z :=
  base + ((p.2 + off_z o) * slice + (p.1.2 + off_y o) * row + p.1.1 + off_x o).

Lemma elem_of_rect_points r w h d :
  (w, h, d) ∈ rect_points r ↔ 0 ≤ w < width r ∧ 0 ≤ h < height r ∧ 0 ≤ d < depth r.
Proof.
  unfold rect_points. rewrite list_elem_of_bind. setoid_rewrite elem_of_seqZ.
  setoid_rewrite list_elem_of_bind. setoid_rewrite elem_of_seqZ.
  setoid_rewrite list_elem_of_fmap. setoid_rewrite elem_of_seqZ. split.
  - intros (w' & (h' & (d' & [= -> -> ->] & Hd) & Hh) & Hw). lia.
  - intros (Hw & Hh & Hd). exists w. split; [|lia]. exists h. split; [|lia].
    exists d. split; [done|lia].
Qed.

Lemma NoDup_rect_points r : NoDup (rect_points r).
Proof.
  unfold rect_points. apply NoDup_bind; [| |apply NoDup_seqZ].
  - intros w1 w2 p _ _ (h1 & H1 & _)%list_elem_of_bind (h2 & H2 & _)%list_elem_of_bind.
    apply list_elem_of_fmap in H1 as (? & -> & _), H2 as (? & [=] & _). done.
  - intros w _. apply NoDup_bind; [| |apply NoDup_seqZ].
    + intros h1 h2 p _ _ (? & -> & _)%list_elem_of_fmap (? & [=] & _)%list_elem_of_fmap. done.
    + intros h _. apply NoDup_fmap_2; [|apply NoDup_seqZ]. by intros ?? [=].
Qed.

(** Rows do not reach into each other, nor slices. *)
Lemma rect_addr_inj base o row slice r p q :
  width r ≤ row → row * height r ≤ slice → p ∈ rect_points r → q ∈ rect_points r →
  rect_addr base o row slice p = rect_addr base o row slice q → p = q.
Proof.
  destruct p as [[w1 h1] d1], q as [[w2 h2] d2]. intros Hrow Hslice.
  rewrite !elem_of_rect_points. intros (W1 & H1 & D1) (W2 & H2 & D2) E. unfold rect_addr in E. cbn in E.
  assert (row * h1 + w1 < slice) by nia. assert (row * h2 + w2 < slice) by nia.
  assert (0 ≤ row * h1) by nia. assert (0 ≤ row * h2) by nia.
  destruct (axis_inj slice d1 (row * h1 + w1) d2 (row * h2 + w2)) as [-> E']; [lia|lia|lia|].
  destruct (axis_inj row h1 w1 h2 w2) as [-> ->]; [lia|lia|lia|done].
Qed.

(** The addresses of a rectangle need no wrap-around. *)
Definition rect_fits (base : Z) (o : ur_rect_offset_t) (row slice : Z) (r : ur_rect_region_t) : Prop :=
  ∀ p, p ∈ rect_points r → 0 ≤ rect_addr base o row slice p < 2 ^ 64.

Lemma rect_index_addr base o row slice r w h d :
  rect_fits base o row slice r → (w, h, d) ∈ rect_points r →
  w64 (base + rect_index o row slice w h d) = rect_addr base o row slice (w, h, d).
Proof.
  intros Hf Hin. specialize (Hf _ Hin). unfold rect_index, w64. rewrite Zplus_mod_idemp_r.
  unfold rect_addr in *. cbn [fst snd] in *. by apply Z.mod_small.
Qed.

(** a rectangular read, write or copy moves exactly the bytes of the region,
    for every origin and pitch, zero pitches standing for packed rows and
    slices; bytes between the rows of the destination keep their values. *)
Theorem rect_copy_exact (IsRead : bool) Buff DstMem bo ho r brp bsp hrp hsp m :
  let brp' := row_pitch brp r in let bsp' := slice_pitch bsp brp' r in
  let hrp' := row_pitch hrp r in let hsp' := slice_pitch hsp hrp' r in
  let buff := rect_addr Buff bo brp' bsp' in let host := rect_addr DstMem ho hrp' hsp' in
  let dst := if IsRead then host else buff in let src := if IsRead then buff else host in
  rect_fits Buff bo brp' bsp' r → rect_fits DstMem ho hrp' hsp' r →
  (if IsRead then width r ≤ hrp' ∧ hrp' * height r ≤ hsp' else width r ≤ brp' ∧ brp' * height r ≤ bsp') →
  (∀ p q, p ∈ rect_points r → q ∈ rect_points r → buff p ≠ host q) →
  (∀ p, p ∈ rect_points r → is_Some (m !! buff p) ∧ is_Some (m !! host p)) →
  ∃ m', enqueueMemBufferReadWriteRect_impl IsRead Buff DstMem bo ho r brp bsp hrp hsp m = Ret m' ∧
    (∀ p, p ∈ rect_points r → m' !! dst p = m !! src p) ∧
    (∀ a, (∀ p, p ∈ rect_points r → a ≠ dst p) → m' !! a = m !! a).
Proof.
  cbn zeta. intros Fb Fh Hp Hdis Hm. unfold enqueueMemBufferReadWriteRect_impl.
  set (buff := rect_addr Buff bo _ _) in *. set (host := rect_addr DstMem ho _ _) in *.
  set (dst := if IsRead then host else buff). set (src := if IsRead then buff else host).
  erewrite (list_fmap_ext _ (λ p : Z * Z * Z, (dst p, src p)) (rect_points r)).
  2: { intros i [[w h] d] Hi%list_elem_of_lookup_2. rewrite !(rect_index_addr _ _ _ _ r) by done.
       by destruct IsRead. }
  assert (Hinj : ∀ p q, p ∈ rect_points r → q ∈ rect_points r → dst p = dst q → p = q).
  { intros p q. destruct IsRead; eapply rect_addr_inj; apply Hp. }
  destruct (copy_bytes_ok ((λ p : Z * Z * Z, (dst p, src p)) <$> rect_points r) m) as (m' & -> & Hc & Hr).
  - rewrite <-list_fmap_compose. apply NoDup_fmap_2_strong; [|apply NoDup_rect_points]. exact Hinj.
  - rewrite <-!list_fmap_compose. intros a (p & -> & Hpp)%list_elem_of_fmap (q & E & Hq)%list_elem_of_fmap.
    cbn in E. unfold dst, src in E. destruct IsRead; [by apply (Hdis q p)|by apply (Hdis p q)].
  - rewrite <-list_fmap_compose. intros a (p & -> & Hpp)%list_elem_of_fmap. cbn. unfold dst.
    destruct IsRead; by apply Hm.
  - rewrite <-list_fmap_compose. intros a (p & -> & Hpp)%list_elem_of_fmap. cbn. unfold src.
    destruct IsRead; by apply Hm.
  - exists m'. split; [done|]. split.
    + intros p Hpp. apply Hc. apply list_elem_of_fmap. by exists p.
    + intros a Ha. apply Hr. rewrite <-list_fmap_compose.
      intros (p & -> & Hpp)%list_elem_of_fmap. by apply (Ha p).
Qed.

Lemma mapM_load src n m :
  0 ≤ n → mapped m src n →
  ∃ vs, mapM (λ a, load a m) (seqZ src n) = Ret vs ∧ Z.of_nat (length vs) = n ∧
    ∀ i, 0 ≤ i < n → m !! (src + i) = vs !! Z.to_nat i.
Proof.
  intros Hn Hm. exists ((λ a : Z, default 0 (m !! a)) <$> seqZ src n). split_and!.
  - apply mapM_Ret, Forall2_fmap_r, Forall_Forall2_diag, Forall_forall. intros a Ha%elem_of_seqZ.
    unfold load. destruct (Hm a) as [v E]; [lia|]. rewrite E. cbn. rewrite E. done.
  - rewrite length_fmap, length_seqZ. lia.
  - intros i Hi. rewrite list_lookup_fmap, lookup_seqZ_lt by lia. cbn.
    rewrite Z2Nat.id by lia. by destruct (Hm (src + i)) as [v ->]; [lia|].
Qed.

(** a linear copy gives every byte of the destination the value its source
    byte had before the copy, whether or not the ranges overlap, and changes
    nothing else. *)
Theorem linear_copy_exact DstPtr SrcPtr Size m :
  0 ≤ DstPtr → 0 ≤ SrcPtr → 0 ≤ Size → DstPtr + Size ≤ 2 ^ 64 → SrcPtr + Size ≤ 2 ^ 64 →
  mapped m DstPtr Size → mapped m SrcPtr Size →
  ∃ m', doCopy_impl DstPtr SrcPtr Size m = Ret m' ∧
    ∀ a, m' !! a = if decide (DstPtr ≤ a < DstPtr + Size) then m !! (SrcPtr + (a - DstPtr)) else m !! a.
Proof.
  intros Hd Hs Hz Bd Bs Md Ms. unfold doCopy_impl.
  destruct (Z.eqb_spec SrcPtr DstPtr) as [->|Hne]; cbn [negb andb].
  { exists m. split; [done|]. intros a. destruct (decide _); [f_equal; lia|done]. }
  destruct (Z.eqb_spec Size 0) as [->|Hsz]; cbn [negb andb].
  { exists m. split; [done|]. intros a. by rewrite decide_False by lia. }
  unfold memmove. rewrite !bytes_at_seqZ by done.
  destruct (mapM_load SrcPtr Size m Hz Ms) as (vs & -> & Hl & Hv). cbn [mbind outcome_bind].
  rewrite <-Hl in Md |- *. destruct (store_seq_ok DstPtr vs m Md) as (m' & -> & Hw).
  exists m'. split; [done|]. intros a. rewrite Hw. destruct (decide _); [|done].
  by rewrite Hv by lia.
Qed.

(** ** USM allocation *)

(** What [std::aligned_alloc] documents: null, or an aligned block of its own. *)
Definition malloc_spec (aligned_malloc : gmap Z Z → Z → Z → Z) : Prop :=
  ∀ live al n, 0 < al → 0 < n → let p := aligned_malloc live al n in
    p = 0 ∨ (0 < p ∧ p + n ≤ 2 ^ 64 ∧ p mod al = 0 ∧ live !! p = None ∧
             ∀ b k, live !! b = Some k → p + n ≤ b ∨ b + k ≤ p).

(** Headers lie in live blocks, and every pointer handed out has one. *)
Definition usm_ok (s : usm_state) : Prop :=
  (∀ h i, headers s !! h = Some i → ∃ n, live s !! base_alloc_ptr i = Some n ∧
     base_alloc_ptr i ≤ h ∧ h + alloc_header_size ≤ base_alloc_ptr i + n) ∧
  (∀ p, p ∈ allocations s → is_Some (headers s !! get_alloc_info_addr p)).

Lemma padding_spec a :
  0 < a → 0 ≤ get_padding a ∧ get_padding a < a + alloc_header_size ∧
  (alloc_header_size + get_padding a) mod a = 0.
Proof.
  intros Ha. unfold get_padding. destruct (Z.eqb_spec a 0); [lia|]. cbn [orb].
  pose proof (Z.mod_pos_bound alloc_header_size a Ha). pose proof (Z.div_mod alloc_header_size a ltac:(lia)) as Hd.
  assert (alloc_header_size = 48) by reflexivity.
  destruct (Z.eqb_spec (alloc_header_size mod a) 0) as [E|].
  - rewrite Z.add_0_r. lia.
  - destruct (Z.leb_spec a alloc_header_size).
    + split_and!; [lia|lia|].
      replace (alloc_header_size + (a - alloc_header_size mod a)) with ((alloc_header_size / a + 1) * a) by lia.
      by rewrite Z.mod_mul by lia.
    + split_and!; [lia|lia|]. replace (alloc_header_size + (a - alloc_header_size)) with a by lia.
      by rewrite Z.mod_same by lia.
Qed.

Lemma pow2_max a : isPowerOf2 a = true → 0 < a → Z.max a alloc_header_align mod a = 0.
Proof.
  intros Hp Ha. change alloc_header_align with 8. destruct (Z.le_gt_cases 8 a).
  - rewrite Z.max_l by lia. by rewrite Z.mod_same by lia.
  - assert (a = 1 ∨ a = 2 ∨ a = 3 ∨ a = 4 ∨ a = 5 ∨ a = 6 ∨ a = 7) as [->|[->|[->|[->|[->|[->| ->]]]]]]
      by lia; done.
Qed.

Section usm_proofs.
Context (aligned_malloc : gmap Z Z → Z → Z → Z).
Hypothesis Hmalloc : malloc_spec aligned_malloc.

(** What a successful allocation adds. *)
Definition allocated (a : Z) (type : ur_usm_type_t) (size ptr : Z) (s s' : usm_state) : Prop :=
  ∃ base n, ptr mod a = 0 ∧ 0 < base ∧ base + alloc_header_size ≤ ptr ∧ ptr + size = base + n ∧
    base + n ≤ 2 ^ 64 ∧ live s !! base = None ∧
    (∀ b k, live s !! b = Some k → base + n ≤ b ∨ b + k ≤ base) ∧
    s' = mkUsm (<[base := n]> (live s))
           (<[ptr - alloc_header_size := mkInfo type size base]> (headers s)) ({[ptr]} ∪ allocations s).

Lemma add_alloc_ok alignment type size s :
  isPowerOf2 alignment = true → 0 < alignment → 0 < size →
  alloc_header_size + get_padding (Z.max alignment alloc_header_align) + size < 2 ^ 64 →
  add_alloc aligned_malloc alignment type size s = Ret (0, s) ∨
  ∃ ptr s', add_alloc aligned_malloc alignment type size s = Ret (ptr, s') ∧ ptr ≠ 0 ∧
    allocated alignment type size ptr s s'.
Proof.
  intros Hp2 Ha Hs Hfit. unfold add_alloc. set (al := Z.max alignment alloc_header_align) in *.
  assert (0 < al) by (unfold al; lia).
  destruct (padding_spec al) as (P0 & P1 & P2); [done|].
  assert (H48 : alloc_header_size = 48) by reflexivity.
  assert (Hn : malloc_size al size = alloc_header_size + get_padding al + size)
    by (unfold malloc_size, w64; apply Z.mod_small; lia).
  rewrite Hn. set (n := alloc_header_size + get_padding al + size) in *.
  destruct (Hmalloc (live s) al n) as [->|(M1 & M2 & M3 & M4 & M5)]; [lia|lia|by left|].
  set (base := aligned_malloc (live s) al n) in *.
  destruct (Z.eqb_spec base 0); [lia|]. right.
  assert (Hptr : w64 (alloc_header_size + get_padding al + base) = alloc_header_size + get_padding al + base)
    by (unfold w64; apply Z.mod_small; lia).
  rewrite Hptr. set (ptr := alloc_header_size + get_padding al + base) in *.
  assert (Hinfo : get_alloc_info_addr ptr = ptr - alloc_header_size)
    by (unfold get_alloc_info_addr, w64; apply Z.mod_small; lia).
  rewrite Hinfo. destruct (Z.eqb_spec (ptr - alloc_header_size) 0); [lia|].
  destruct (Z.leb_spec base (ptr - alloc_header_size)); [|lia].
  destruct (Z.leb_spec (ptr - alloc_header_size + alloc_header_size) (base + n)); [|lia].
  cbn [andb]. eexists _, _. split; [done|]. split; [lia|]. exists base, n.
  assert (Hmod : ptr mod al = 0).
  { unfold ptr. rewrite Z.add_mod, P2, M3 by lia. by rewrite Z.mod_0_l by lia. }
  split_and!; try done; try lia.
  apply Z.mod_divide in Hmod; [|lia]. apply Z.mod_divide; [lia|].
  etransitivity; [|exact Hmod]. apply Z.mod_divide; [lia|]. by apply pow2_max.
Qed.

Lemma allocated_ok a type size ptr s s' :
  usm_ok s → 0 < size → allocated a type size ptr s s' →
  usm_ok s' ∧ get_alloc_info_addr ptr = ptr - alloc_header_size ∧
  headers s !! (ptr - alloc_header_size) = None ∧ ptr ∉ allocations s.
Proof.
  intros [H1 H2] Hs (base & n & _ & B1 & B2 & B3 & B4 & B5 & B6 & ->).
  assert (H48 : alloc_header_size = 48) by reflexivity.
  assert (Hinfo : get_alloc_info_addr ptr = ptr - alloc_header_size)
    by (unfold get_alloc_info_addr, w64; apply Z.mod_small; lia).
  assert (Hfresh : ∀ h i, headers s !! h = Some i → h ≠ ptr - alloc_header_size).
  { intros h i Hi ->. destruct (H1 _ _ Hi) as (k & Hk & L1 & L2).
    destruct (B6 _ _ Hk); lia. }
  assert (Hnone : headers s !! (ptr - alloc_header_size) = None).
  { destruct (headers s !! _) as [i|] eqn:E; [|done]. by destruct (Hfresh _ _ E). }
  assert (Hnew : ptr ∉ allocations s).
  { intros Hin. destruct (H2 _ Hin) as [i Hi]. rewrite Hinfo in Hi. congruence. }
  split_and!; [|done|done|done]. split; cbn.
  - intros h i [[<- <-]|[Hne Hi]]%lookup_insert_Some.
    + exists n. rewrite lookup_insert_eq. cbn. split_and!; [done|lia|lia].
    + destruct (H1 _ _ Hi) as (k & Hk & ?). exists k. split; [|done].
      rewrite lookup_insert_ne by congruence. done.
  - intros p [->%elem_of_singleton|Hp]%elem_of_union.
    + rewrite Hinfo, lookup_insert_eq. by eexists.
    + rewrite lookup_insert_is_Some'. right. by apply H2.
Qed.
End usm_proofs.

(** for a power-of-two alignment and a size that fits, a USM allocation either
    reports that memory is out or returns a pointer aligned as asked, in a block
    of its own that also holds the hidden header right before it; queries find
    that header, the freed pointer gives back exactly the state before, and no
    other allocation's header is touched. *)
Theorem usm_alloc_free aligned_malloc align size type s :
  malloc_spec aligned_malloc → usm_ok s →
  let a := match align with Some a => if a =? 0 then 1 else a | None => 1 end in
  isPowerOf2 a = true → 0 < a → 0 < size → type ≠ UR_USM_TYPE_UNKNOWN →
  alloc_header_size + get_padding (Z.max a alloc_header_align) + size < 2 ^ 64 →
  alloc_helper aligned_malloc align size true type s = Ret (UR_RESULT_ERROR_OUT_OF_RESOURCES, None, s) ∨
  ∃ ptr s', alloc_helper aligned_malloc align size true type s = Ret (UR_RESULT_SUCCESS, Some ptr, s') ∧
    usm_ok s' ∧ allocated a type size ptr s s' ∧
    (∃ base, get_alloc_info_entry ptr s' = Ret (mkInfo type size base)) ∧
    urUSMFree true ptr s' = Ret (UR_RESULT_SUCCESS, s).
Proof.
  intros Hm Hs a Hp Ha Hsz Ht Hfit. unfold alloc_helper. fold a. rewrite Hp. cbn [negb].
  destruct (Z.ltb_spec 0 size); [|lia]. cbn [negb].
  destruct (add_alloc_ok _ Hm a type size s) as [->|(ptr & s' & -> & Hne & Hal)]; try done; [by left|].
  right. cbn [mbind outcome_bind]. destruct (Z.eqb_spec ptr 0); [done|]. exists ptr, s'.
  destruct (allocated_ok a type size ptr s s' Hs Hsz Hal) as (Hok & Hinfo & Hh & Hn).
  split_and!; [done|done|done| |].
  - destruct Hal as (base & n' & _ & _ & _ & _ & _ & _ & _ & ->). exists base.
    unfold get_alloc_info_entry. cbn. rewrite bool_decide_true by set_solver.
    by rewrite Hinfo, lookup_insert_eq.
  - destruct Hal as (base & n' & _ & _ & _ & _ & _ & Hl & _ & ->).
    unfold urUSMFree, remove_alloc. destruct (Z.eqb_spec ptr 0); [done|]. cbn [negb headers live allocations].
    rewrite Hinfo, lookup_insert_eq. cbn [usm_type base_alloc_ptr]. rewrite decide_False by done.
    rewrite lookup_insert_eq. rewrite !delete_insert_id by done.
    replace (({[ptr]} ∪ allocations s) ∖ {[ptr]}) with (allocations s) by set_solver. by destruct s.
Qed.

(** the size with its header is computed in 64 bits: a request so large that it
    wraps is not refused, and the header is written outside the block. *)
Theorem usm_alloc_wraps aligned_malloc alignment type size s :
  let al := Z.max alignment alloc_header_align in
  0 < alignment → 0 < size < 2 ^ 64 → 2 ^ 64 ≤ alloc_header_size + get_padding al + size →
  let base := aligned_malloc (live s) al (malloc_size al size) in
  0 < base → base + alloc_header_size + get_padding al < 2 ^ 64 →
  add_alloc aligned_malloc alignment type size s = Undef.
Proof.
  cbn zeta. intros Ha Hs Hwrap Hb Hfit. unfold add_alloc.
  set (al := Z.max alignment alloc_header_align) in *. assert (0 < al) by (unfold al; lia).
  destruct (padding_spec al) as (P0 & P1 & _); [done|].
  set (base := aligned_malloc _ _ _) in *. assert (H48 : alloc_header_size = 48) by reflexivity.
  destruct (Z.eqb_spec base 0); [lia|].
  assert (Hptr : w64 (alloc_header_size + get_padding al + base) = alloc_header_size + get_padding al + base)
    by (unfold w64; apply Z.mod_small; lia).
  rewrite Hptr.
  assert (Hinfo : get_alloc_info_addr (alloc_header_size + get_padding al + base) = get_padding al + base)
    by (unfold get_alloc_info_addr, w64; rewrite Z.mod_small; lia).
  rewrite Hinfo. destruct (Z.eqb_spec (get_padding al + base) 0); [lia|].
  assert (Hn : malloc_size al size < alloc_header_size + get_padding al).
  { unfold malloc_size, w64. pose proof (Z.mod_pos_bound (alloc_header_size + get_padding al + size) (2 ^ 64)).
    assert (alloc_header_size + get_padding al + size =
      (alloc_header_size + get_padding al + size - 2 ^ 64) + 1 * 2 ^ 64) as -> by lia.
    rewrite Z.mod_add by lia.
    destruct (Z.lt_ge_cases (alloc_header_size + get_padding al + size - 2 ^ 64) (2 ^ 64)).
    - rewrite Z.mod_small by lia. lia.
    - lia. }
  destruct (Z.leb_spec (get_padding al + base + alloc_header_size) (base + malloc_size al size)); [lia|].
  by rewrite andb_false_r.
Qed.

(** *** Witnesses *)

(** An allocator that hands out the first aligned address past all blocks. *)
Definition heap_top (live : gmap Z Z) : Z := map_fold (λ b k t, Z.max (Z.max b (b + k)) t) 0 live.

Definition bump_malloc (live : gmap Z Z) (al n : Z) : Z :=
  let p := (heap_top live / al + 1) * al in if p + n <=? 2 ^ 64 then p else 0.

Lemma heap_top_spec live : 0 ≤ heap_top live ∧ ∀ b k, live !! b = Some k → b ≤ heap_top live ∧ b + k ≤ heap_top live.
Proof.
  unfold heap_top. apply (map_fold_weak_ind (λ r m, 0 ≤ r ∧ ∀ b k, m !! b = Some k → b ≤ r ∧ b + k ≤ r)).
  - split; [done|]. intros b k H. by rewrite lookup_empty in H.
  - intros b k m r Hb [H0 H]. split; [lia|]. intros b' k' [[<- <-]|[_ H']]%lookup_insert_Some; [lia|].
    specialize (H b' k' H'). lia.
Qed.

Lemma bump_malloc_spec : malloc_spec bump_malloc.
Proof.
  intros live al n Hal Hn. cbn zeta. unfold bump_malloc. destruct (heap_top_spec live) as [H0 H].
  destruct (Z.leb_spec ((heap_top live / al + 1) * al + n) (2 ^ 64)); [right|by left].
  pose proof (Z.div_mod (heap_top live) al ltac:(lia)). pose proof (Z.mod_pos_bound (heap_top live) al Hal).
  assert (0 ≤ heap_top live / al) by (apply Z.div_pos; lia).
  assert (heap_top live < (heap_top live / al + 1) * al) by nia.
  split_and!; [nia|done|by apply Z.mod_mul; lia| |].
  - destruct (live !! _) as [k|] eqn:E; [|done]. apply H in E. lia.
  - intros b k Hb. apply H in Hb. right. lia.
Qed.

Definition empty_usm : usm_state := mkUsm ∅ ∅ ∅.

Lemma usm_alloc_free_witness :
  malloc_spec bump_malloc ∧ usm_ok empty_usm ∧
  (alloc_helper bump_malloc (Some 64) 100 true UR_USM_TYPE_HOST empty_usm =
     Ret (UR_RESULT_ERROR_OUT_OF_RESOURCES, None, empty_usm) ∨
   ∃ ptr s', alloc_helper bump_malloc (Some 64) 100 true UR_USM_TYPE_HOST empty_usm =
       Ret (UR_RESULT_SUCCESS, Some ptr, s') ∧
     usm_ok s' ∧ allocated 64 UR_USM_TYPE_HOST 100 ptr empty_usm s' ∧
     (∃ base, get_alloc_info_entry ptr s' = Ret (mkInfo UR_USM_TYPE_HOST 100 base)) ∧
     urUSMFree true ptr s' = Ret (UR_RESULT_SUCCESS, empty_usm)).
Proof.
  assert (Hs : usm_ok empty_usm) by (split; [intros h i H; cbn in H; by rewrite lookup_empty in H|intros p H; cbn in H; set_solver]).
  split; [exact bump_malloc_spec|]. split; [exact Hs|].
  apply (usm_alloc_free bump_malloc (Some 64) 100 UR_USM_TYPE_HOST empty_usm bump_malloc_spec Hs);
    [reflexivity|reflexivity|reflexivity|discriminate|reflexivity].
Defined.

Lemma usm_alloc_wraps_witness :
  add_alloc bump_malloc 8 UR_USM_TYPE_HOST (2 ^ 64 - 40) empty_usm = Undef.
Proof. apply usm_alloc_wraps; vm_compute; repeat split; discriminate. Defined.

(** A small memory: 40 bytes from address 100. *)
Definition sample_memory : memory := list_to_map ((λ a, (a, a - 100)) <$> seqZ 100 40).

Lemma sample_mapped p n : 100 ≤ p → p + n ≤ 140 → mapped sample_memory p n.
Proof.
  intros H1 H2 a Ha. apply elem_of_dom. unfold sample_memory. rewrite dom_list_to_map.
  apply elem_of_list_to_set. rewrite <-list_fmap_compose. apply list_elem_of_fmap. exists a.
  split; [done|]. apply elem_of_seqZ. lia.
Qed.

Lemma linear_copy_exact_witness :
  ∃ m', doCopy_impl 103 100 8 sample_memory = Ret m' ∧
    ∀ a, m' !! a = if decide (103 ≤ a < 103 + 8) then sample_memory !! (100 + (a - 103))
                   else sample_memory !! a.
Proof. apply (linear_copy_exact 103 100 8 sample_memory); try lia; apply sample_mapped; lia. Defined.

Lemma buffer_fill_exact_witness :
  ∃ m', urEnqueueMemBufferFill true 100 [7; 8; 9] 1 (4 * Z.of_nat (length [7; 8; 9])) sample_memory =
          Ret (UR_RESULT_SUCCESS, m') ∧ filled sample_memory m' (100 + 1) 4 [7; 8; 9].
Proof.
  apply (buffer_fill_exact 100 [7; 8; 9] 1 4 sample_memory); [done|lia|lia|lia|cbn; lia|].
  apply sample_mapped; cbn; lia.
Defined.

Lemma usm_fill_exact_witness :
  ∃ m', urEnqueueUSMFill 20 101 (Some [7; 8; 9]) 12 sample_memory =
          Some (Ret (UR_RESULT_SUCCESS, m')) ∧ filled sample_memory m' 101 (12 / Z.of_nat (length [7; 8; 9])) [7; 8; 9].
Proof.
  pose proof (usm_fill_exact 20 101 [7; 8; 9] 12 sample_memory ltac:(lia) ltac:(lia) ltac:(lia)
    ltac:(apply sample_mapped; lia) ltac:(lia)) as H.
  cbn zeta in H. rewrite decide_True in H by (split_and!; [cbn; lia|cbn; lia|reflexivity]). exact H.
Defined.

(** The pattern of the full size is refused, although only larger ones are
    documented as errors. *)
Example usm_fill_whole_allocation_refused :
  urEnqueueUSMFill 20 101 (Some [7; 8; 9]) 3 sample_memory =
  Some (Ret (UR_RESULT_ERROR_INVALID_SIZE, sample_memory)).
Proof. reflexivity. Qed.

(** Every byte from 4096 on, 2^32 + 3 of them. *)
Definition large_memory : memory := set_to_map (λ a, (a, 0)) (list_to_set (C := gset Z) (seqZ 4096 (2 ^ 32 + 3))).

Lemma usm_fill_never_ends_witness :
  urEnqueueUSMFill 1000 4096 (Some [7; 8; 9]) (2 ^ 32 + 2) large_memory = None.
Proof.
  apply usm_fill_never_ends; [lia|lia| |cbn [length]; lia|reflexivity|cbn [length]; lia|].
  - apply (bool_decide_unpack (3 ∉ [1; 2; 4; 8])). vm_compute. exact I.
  - intros a Ha. exists 0. unfold large_memory. apply lookup_set_to_map; [by intros ?? _ _ E|].
    exists a. split; [|done]. apply elem_of_list_to_set, elem_of_seqZ. cbn [length] in Ha. lia.
Defined.

(** A rectangle of 2 x 2 x 2 bytes read with row pitch 3 and slice pitch 7 into a
    packed one. *)
Lemma rect_copy_exact_witness :
  ∃ m', urEnqueueMemBufferReadRect 100 120 (mkOffset 1 0 0) (mkOffset 0 0 0) (mkRegion 2 2 2) 3 7 0 0
          sample_memory = Ret m' ∧
    (∀ p, p ∈ rect_points (mkRegion 2 2 2) →
       m' !! rect_addr 120 (mkOffset 0 0 0) 2 4 p = sample_memory !! rect_addr 100 (mkOffset 1 0 0) 3 7 p) ∧
    (∀ a, (∀ p, p ∈ rect_points (mkRegion 2 2 2) → a ≠ rect_addr 120 (mkOffset 0 0 0) 2 4 p) →
       m' !! a = sample_memory !! a).
Proof.
  assert (Hb : ∀ p, p ∈ rect_points (mkRegion 2 2 2) →
    100 ≤ rect_addr 100 (mkOffset 1 0 0) 3 7 p < 120 ∧ 120 ≤ rect_addr 120 (mkOffset 0 0 0) 2 4 p < 140).
  { intros [[w h] d] H%elem_of_rect_points. unfold rect_addr. cbn in *. lia. }
  apply (rect_copy_exact true 100 120 (mkOffset 1 0 0) (mkOffset 0 0 0) (mkRegion 2 2 2) 3 7 0 0 sample_memory).
  - intros p Hp. specialize (Hb p Hp). change (slice_pitch 7 _ _) with 7. change (row_pitch 3 _) with 3. lia.
  - intros p Hp. specialize (Hb p Hp). change (row_pitch 0 _) with 2. change (slice_pitch 0 2 _) with 4. lia.
  - split; vm_compute; discriminate.
  - intros p q Hp Hq. pose proof (Hb p Hp). pose proof (Hb q Hq).
    change (slice_pitch 7 _ _) with 7. change (row_pitch 3 _) with 3.
    change (row_pitch 0 _) with 2. change (slice_pitch 0 2 _) with 4. lia.
  - intros p Hp. pose proof (Hb p Hp).
    change (slice_pitch 7 _ _) with 7. change (row_pitch 3 _) with 3.
    change (row_pitch 0 _) with 2. change (slice_pitch 0 2 _) with 4.
    split; [apply (sample_mapped (rect_addr 100 (mkOffset 1 0 0) 3 7 p) 1); lia|].
    apply (sample_mapped (rect_addr 120 (mkOffset 0 0 0) 2 4 p) 1); lia.
Defined.
