(* ===== verification/CudaFill.v ===== *)
(** * CudaFill: the fills of cuda/enqueue.cpp

    Which memset calls a fill makes for a pattern of any size, and that
    together they write the pattern over and over.  What a memset call does to
    device memory is the driver's and is a hypothesis ([memset_spec]). *)
From S2P Require Import Prelude.

(** Work that is put on a stream: [cuMemcpyAsync], [cuMemsetD8/16/32Async],
    [cuMemsetD2D8/16/32Async] (the word size in bytes first) and
    [cuLaunchKernel]. *)
Inductive work :=
  | Memcpy (dst src size : Z)
  | MemsetD (word ptr value n : Z)
  | MemsetD2D (word ptr pitch value width height : Z)
  | LaunchKernel (f : Z) (grid block : Z * Z * Z) (shared_bytes : Z).

(** A little-endian word. *)
Definition le (bytes : list Z) : Z := foldr (λ b acc, b + 256 * acc) 0 bytes.
Definition byte_of (v i : Z) : Z := (v / 256 ^ i) mod 256.

(** [pPatternWords[step]] for words of [n] bytes. *)
Definition word_at (n : Z) (pattern : list Z) (step : Z) : Z :=
  le (take (Z.to_nat n) (drop (Z.to_nat (step * n)) pattern)).

(** [BackendWordSize] *)
Definition BackendWordSize (PatternSize : Z) : Z :=
  if PatternSize mod 4 =? 0 then 4 else if PatternSize mod 2 =? 0 then 2 else 1.

(** [UseOnlyFirstValue]: the loop stops at the first word that differs. *)
Definition UseOnlyFirstValue (n steps : Z) (pattern : list Z) : bool :=
  forallb (λ step, word_at n pattern step =? word_at n pattern 0) (seqZ 1 (steps - 1)).

(** [commonMemSetLargePattern]; the pattern size is a [uint32_t]. *)
Definition commonMemSetLargePattern (PatternSize Size : Z) (pattern : list Z) (Ptr : Z)
  : list work :=
  let PatternSize := w32 PatternSize in
  let n := BackendWordSize PatternSize in
  let NumberOfSteps := PatternSize / n in
  let Pitch := NumberOfSteps * n in
  let Height := Size / PatternSize in
  let steps := if UseOnlyFirstValue n NumberOfSteps pattern then 1 else NumberOfSteps in
  (λ Step, if Step =? 0 then MemsetD n Ptr (word_at n pattern 0) (Size / n)
           else MemsetD2D n (w64 (Ptr + Step * n)) Pitch (word_at n pattern Step) 1 Height)
  <$> seqZ 0 steps.

(** The [switch] of [urEnqueueUSMFill] and [urEnqueueMemBufferFill]. *)
Definition fill_work (ptr patternSize : Z) (pattern : list Z) (size : Z) : list work :=
  let N := size / patternSize in
  if (patternSize =? 1) || (patternSize =? 2) || (patternSize =? 4)
  then [MemsetD patternSize ptr (word_at patternSize pattern 0) N]
  else commonMemSetLargePattern patternSize size pattern ptr.

Section memory.
(** What a piece of work does to the bytes of device memory. *)
Variable run_work : work → (Z → Z) → Z → Z.

(** [cuMemsetD8/16/32Async]: [n] words from [ptr] on.
    [cuMemsetD2D8/16/32Async]: [height] rows of [width] words, [pitch] bytes apart.
    A pointer to words of 2 or 4 bytes and their pitch are multiples of the word
    size; nothing is known of other calls. *)
Record memset_spec : Prop := mkMemset {
  memset_in : ∀ word ptr v n m a, ptr mod word = 0 → 0 ≤ a - ptr < word * n →
    run_work (MemsetD word ptr v n) m a = byte_of v ((a - ptr) mod word);
  memset_out : ∀ word ptr v n m a, ptr mod word = 0 → ¬ 0 ≤ a - ptr < word * n →
    run_work (MemsetD word ptr v n) m a = m a;
  memset2d_in : ∀ word ptr pitch v width height m a, ptr mod word = 0 → pitch mod word = 0 →
    0 ≤ a - ptr < pitch * height → (a - ptr) mod pitch < word * width →
    run_work (MemsetD2D word ptr pitch v width height) m a
    = byte_of v (((a - ptr) mod pitch) mod word);
  memset2d_out : ∀ word ptr pitch v width height m a, ptr mod word = 0 → pitch mod word = 0 →
    ¬ (0 ≤ a - ptr < pitch * height ∧ (a - ptr) mod pitch < word * width) →
    run_work (MemsetD2D word ptr pitch v width height) m a = m a
}.

Definition run_all (ws : list work) (m : Z → Z) : Z → Z :=
  foldl (λ m w, run_work w m) m ws.
End memory.

(** What a fill means. *)
Definition filled (ptr size : Z) (pattern : list Z) (m : Z → Z) (a : Z) : Z :=
  if bool_decide (0 ≤ a - ptr < size)
  then pattern !!! Z.to_nat ((a - ptr) mod Z.of_nat (length pattern)) else m a.

(** ** Lemmas *)

Lemma byte_of_le bytes i : Forall (λ b, 0 ≤ b < 256) bytes → (i < length bytes)%nat →
  byte_of (le bytes) (Z.of_nat i) = bytes !!! i.
Proof.
  intros Hb. revert i. induction Hb as [|b l Hb Hl IH]; intros i Hi; cbn [length] in Hi; [lia|].
  unfold byte_of in *. destruct i as [|i]; cbn [le foldr]; fold (le l).
  - change (Z.of_nat 0) with 0. rewrite Z.pow_0_r, Z.div_1_r.
    rewrite Z.mul_comm, Z_mod_plus_full. by rewrite Z.mod_small.
  - rewrite Nat2Z.inj_succ, Z.pow_succ_r, <- Z.div_div by lia.
    replace ((b + 256 * le l) / 256) with (le l).
    + cbn. rewrite IH by lia. done.
    + rewrite Z.mul_comm, Z.div_add by lia. rewrite (Z.div_small b 256) by lia. lia.
Qed.

Lemma byte_of_word n pattern step j : Forall (λ b, 0 ≤ b < 256) pattern →
  0 ≤ step → 0 ≤ j < n → (step + 1) * n ≤ Z.of_nat (length pattern) →
  byte_of (word_at n pattern step) j = pattern !!! Z.to_nat (step * n + j).
Proof.
  intros Hp Hs Hj Hl. unfold word_at. rewrite <- (Z2Nat.id j) by lia.
  assert (0 ≤ step * n) by nia. assert (step * n + n ≤ Z.of_nat (length pattern)) by lia.
  rewrite byte_of_le.
  - rewrite lookup_total_take, lookup_total_drop, decide_True by lia. f_equal. lia.
  - by apply Forall_take, Forall_drop.
  - rewrite length_take, length_drop. lia.
Qed.

Lemma BackendWordSize_spec P : 0 < P →
  let n := BackendWordSize P in (n = 1 ∨ n = 2 ∨ n = 4) ∧ P = (P / n) * n ∧ 0 < P / n.
Proof.
  intros HP n. assert (Hn : (n = 1 ∨ n = 2 ∨ n = 4) ∧ P mod n = 0).
  { subst n. unfold BackendWordSize. destruct (Z.eqb_spec (P mod 4) 0) as [E4|_]; [split; lia|].
    destruct (Z.eqb_spec (P mod 2) 0) as [E2|_]; [split; lia|]. rewrite Z.mod_1_r. lia. }
  destruct Hn as [Hn Hm]. repeat split; [done| |].
  - pose proof (Z.div_mod P n). lia.
  - pose proof (Z.div_mod P n). nia.
Qed.

(** Which byte of a repeated pattern an offset selects. *)
Lemma mod_mod_word i n s : 0 < n → 0 < s → 0 ≤ i →
  (i mod (s * n)) / n < s ∧ i mod n = (i mod (s * n)) mod n
  ∧ i mod (s * n) = (i mod (s * n)) / n * n + i mod n.
Proof.
  intros Hn Hs Hi. pose proof (Z.mod_pos_bound i (s * n) ltac:(nia)) as B.
  assert (E : i mod n = (i mod (s * n)) mod n).
  { rewrite (Z.div_mod i (s * n)) at 1 by nia.
    replace (s * n * (i / (s * n)) + i mod (s * n))
      with (i mod (s * n) + (s * (i / (s * n))) * n) by ring.
    by rewrite Z_mod_plus_full. }
  repeat split; [|done|].
  - apply Z.div_lt_upper_bound; nia.
  - rewrite E. pose proof (Z.div_mod (i mod (s * n)) n). lia.
Qed.

Lemma ltb_succ a k : a ≠ k → (a <? k + 1) = (a <? k).
Proof. destruct (Z.ltb_spec a (k + 1)), (Z.ltb_spec a k); lia. Qed.

Section exact.
Context (run_work : work → (Z → Z) → Z → Z) (Hrun : memset_spec run_work).
Context (pattern : list Z) (ptr size : Z) (m : Z → Z).
Hypothesis Hbytes : Forall (λ b, 0 ≤ b < 256) pattern.
Hypothesis Hsize : 0 ≤ size.

(** One memset fills when the words of the pattern are all the first one. *)
Lemma memset_fills n s : ptr mod n = 0 → 0 < n → 0 < s → Z.of_nat (length pattern) = s * n → size mod n = 0 →
  (∀ step, 0 ≤ step < s → word_at n pattern step = word_at n pattern 0) →
  ∀ a, run_work (MemsetD n ptr (word_at n pattern 0) (size / n)) m a = filled ptr size pattern m a.
Proof.
  intros Hal Hn Hs Hl Hm Hw a. unfold filled.
  assert (En : n * (size / n) = size) by (pose proof (Z.div_mod size n); lia).
  case_bool_decide as Ha.
  - rewrite (memset_in _ Hrun) by (exact Hal || lia).
    destruct (mod_mod_word (a - ptr) n s) as (B & _ & E); [lia..|].
    pose proof (Z.mod_pos_bound (a - ptr) (s * n) ltac:(nia)) as B2.
    pose proof (Z.div_pos ((a - ptr) mod (s * n)) n ltac:(lia) ltac:(lia)).
    rewrite <- (Hw ((a - ptr) mod (s * n) / n)) by lia.
    pose proof (Z.mod_pos_bound (a - ptr) n Hn).
    rewrite Hl, byte_of_word; [f_equal; lia|done|lia|lia|nia].
  - by rewrite (memset_out _ Hrun) by (exact Hal || lia).
Qed.

(** The state after the first [k] of the strided fills. *)
Definition partly n (s k a : Z) : Z :=
  if bool_decide (0 ≤ a - ptr < size) then
    let step := ((a - ptr) mod (s * n)) / n in
    byte_of (word_at n pattern (if step <? k then step else 0)) ((a - ptr) mod n)
  else m a.

Lemma partly_all n s a : 0 < n → 0 < s → Z.of_nat (length pattern) = s * n →
  partly n s s a = filled ptr size pattern m a.
Proof.
  intros Hn Hs Hl. unfold partly, filled. case_bool_decide as Ha; [|done]. cbn zeta.
  destruct (mod_mod_word (a - ptr) n s) as (B & _ & E); [lia..|].
  pose proof (Z.mod_pos_bound (a - ptr) (s * n) ltac:(nia)) as B2.
  pose proof (Z.div_pos ((a - ptr) mod (s * n)) n ltac:(lia) ltac:(lia)).
  destruct (Z.ltb_spec ((a - ptr) mod (s * n) / n) s); [|lia].
  pose proof (Z.mod_pos_bound (a - ptr) n Hn).
  rewrite Hl, byte_of_word; [f_equal; lia|done|lia|lia|nia].
Qed.

Lemma partly_first n s a : ptr mod n = 0 → 0 < n → 0 < s → size mod n = 0 →
  run_work (MemsetD n ptr (word_at n pattern 0) (size / n)) m a = partly n s 1 a.
Proof.
  intros Hal Hn Hs Hm. unfold partly.
  assert (En : n * (size / n) = size) by (pose proof (Z.div_mod size n); lia).
  case_bool_decide as Ha; cbn zeta.
  - rewrite (memset_in _ Hrun) by (exact Hal || lia). f_equal. f_equal.
    pose proof (Z.mod_pos_bound (a - ptr) (s * n) ltac:(nia)) as B2.
    pose proof (Z.div_pos ((a - ptr) mod (s * n)) n ltac:(lia) ltac:(lia)).
    destruct (Z.ltb_spec ((a - ptr) mod (s * n) / n) 1); lia.
  - by rewrite (memset_out _ Hrun) by (exact Hal || lia).
Qed.

(** Step [k] writes the words at index [k] of every copy of the pattern. *)
Lemma partly_step n s k m' a : ptr mod n = 0 → 0 < n → 1 ≤ k < s → size mod (s * n) = 0 →
  m' a = partly n s k a →
  run_work (MemsetD2D n (ptr + k * n) (s * n) (word_at n pattern k) 1 (size / (s * n))) m' a
  = partly n s (k + 1) a.
Proof.
  intros Hal Hn Hk Hm. unfold partly.
  assert (Hal1 : (ptr + k * n) mod n = 0) by (by rewrite Z_mod_plus_full).
  assert (Hal2 : (s * n) mod n = 0) by apply Z_mod_mult.
  assert (Hkp : 0 ≤ k * n ∧ k * n + n ≤ s * n) by nia.
  assert (Hsn : 0 < s * n) by lia.
  assert (Hmw : 0 ≤ a - ptr → (a - ptr) mod (s * n)
    = (a - ptr) mod (s * n) / n * n + (a - ptr) mod n).
  { intros Hi. by destruct (mod_mod_word (a - ptr) n s) as (_ & _ & E); [lia..|]. }
  assert (Ep : s * n * (size / (s * n)) = size) by (pose proof (Z.div_mod size (s * n)); lia).
  generalize dependent (s * n). intros p Hm Hal2 [Hk0 Hkp] Hp Hmw Ep Hm'. clear Hk s.
  assert (Ei : a - ptr = a - (ptr + k * n) + k * n) by lia.
  set (x := a - (ptr + k * n)) in *. set (i := a - ptr) in *.
  assert (Hxd : a - (ptr + k * n) = x) by done. clearbody x i.
  destruct (decide (0 ≤ i < size ∧ i mod p / n = k)) as [[Hi Ek]|Hno].
  - specialize (Hmw ltac:(lia)). rewrite Ek in *.
    rewrite bool_decide_eq_true_2 by done.
    pose proof (Z.mod_pos_bound i n Hn) as Bn. pose proof (Z.div_mod i p ltac:(lia)) as Di.
    assert (Hq : 0 ≤ i / p) by (apply Z.div_pos; lia).
    assert (Hqs : i / p < size / p) by (apply Z.div_lt_upper_bound; lia).
    assert (Ex : x = i mod n + i / p * p) by lia.
    assert (Exm : x mod p = i mod n).
    { rewrite Ex, Z_mod_plus_full. apply Z.mod_small. lia. }
    rewrite (memset2d_in _ Hrun); rewrite ?Hxd; [|exact Hal1|exact Hal2|clear Hal Hal1 Hal2; nia|rewrite Exm; lia].
    rewrite Exm, Z.mod_mod by lia. by rewrite (proj2 (Z.ltb_lt k (k + 1)) ltac:(lia)).
  - rewrite (memset2d_out _ Hrun); rewrite ?Hxd; [|exact Hal1|exact Hal2|].
    + rewrite Hm'. case_bool_decide as Hi; [|done].
      rewrite ltb_succ; [done|]. intros E. by apply Hno.
    + intros [Hx Hxm]. apply Hno.
      pose proof (Z.mod_pos_bound x p Hp) as Bx. pose proof (Z.div_mod x p ltac:(lia)) as Dx.
      assert (Hq : 0 ≤ x / p) by (apply Z.div_pos; lia).
      assert (Hqs : x / p < size / p) by (apply Z.div_lt_upper_bound; lia).
      assert (Eim : i mod p = k * n + x mod p).
      { replace i with (k * n + x mod p + x / p * p) by lia.
        rewrite Z_mod_plus_full. apply Z.mod_small. lia. }
      split; [nia|]. rewrite Eim, Z.add_comm, Z.div_add by lia.
      rewrite Z.div_small by lia. lia.
Qed.

Lemma partly_steps n s j k m' : ptr mod n = 0 → 0 < n → 1 ≤ k → k + Z.of_nat j ≤ s → size mod (s * n) = 0 →
  0 ≤ ptr → ptr + s * n ≤ 2 ^ 64 →
  (∀ a, m' a = partly n s k a) → ∀ a,
  run_all run_work
    ((λ Step, if Step =? 0 then MemsetD n ptr (word_at n pattern 0) (size / n)
      else MemsetD2D n (w64 (ptr + Step * n)) (s * n) (word_at n pattern Step) 1 (size / (s * n)))
      <$> seqZ k (Z.of_nat j)) m' a = partly n s (k + Z.of_nat j) a.
Proof.
  intros Hal Hn. revert k m'. induction j as [|j IH]; intros k m' Hk Hj Hm Hp0 Hp Hm' a.
  - cbn. rewrite Hm'. f_equal. lia.
  - rewrite seqZ_cons by lia. cbn [fmap list_fmap run_all foldl]. rewrite Nat2Z.inj_succ in *.
    replace (Z.pred (Z.succ (Z.of_nat j))) with (Z.of_nat j) by lia.
    replace (k + Z.succ (Z.of_nat j)) with (Z.succ k + Z.of_nat j) by lia.
    apply IH; [lia..|]. intros a'.
    rewrite (proj2 (Z.eqb_neq k 0)) by lia.
    rewrite w64_small by nia. rewrite <- Z.add_1_r. apply partly_step; [done|lia|lia|done|done].
Qed.
End exact.

(** ** Theorems *)

(** C38: A fill with a pattern of any size writes the pattern over and over into
    exactly the requested range, whatever mix of memset calls it makes: one
    call for 1, 2 or 4 bytes or a pattern that repeats its first word, and one
    call per word otherwise.  Assumed: the size is a positive multiple of the
    pattern size, as the API requires, the range fits the address space, and
    the pointer is a multiple of the word size that the fill picks for the
    pattern, which the memset calls need and the API does not ask for. *)
Theorem fill_exact run_work pattern ptr size m a :
  memset_spec run_work →
  Forall (λ b, 0 ≤ b < 256) pattern → 0 < Z.of_nat (length pattern) < 2 ^ 32 →
  0 < size → size mod Z.of_nat (length pattern) = 0 → 0 ≤ ptr → ptr + size ≤ 2 ^ 64 →
  ptr mod BackendWordSize (Z.of_nat (length pattern)) = 0 →
  run_all run_work (fill_work ptr (Z.of_nat (length pattern)) pattern size) m a
  = filled ptr size pattern m a.
Proof.
  intros Hrun Hb HP Hsz Hm Hp0 Hp Hal. unfold fill_work.
  assert (HPs : Z.of_nat (length pattern) ≤ size) by (apply Z.divide_pos_le; [lia|by apply Z.mod_divide; lia]).
  destruct (_ || _) eqn:Esmall.
  - assert (BackendWordSize (Z.of_nat (length pattern)) = Z.of_nat (length pattern)) as Eb.
    { rewrite !orb_true_iff, !Z.eqb_eq in Esmall. by destruct Esmall as [[-> | ->]| ->]. }
    rewrite Eb in Hal.
    cbn. apply (memset_fills run_work Hrun pattern ptr size m Hb ltac:(lia)) with (s := 1); [lia..|].
    intros step Hstep. f_equal. lia.
  - unfold commonMemSetLargePattern. cbn zeta.
    assert (Ew : w32 (Z.of_nat (length pattern)) = Z.of_nat (length pattern)).
    { unfold w32. apply Z.mod_small. lia. }
    rewrite Ew. destruct (BackendWordSize_spec (Z.of_nat (length pattern))) as (Hn & Es & Hs0); [lia|].
    set (n := BackendWordSize _) in *. set (s := Z.of_nat (length pattern) / n) in *.
    assert (Hn0 : 0 < n) by lia. rewrite Es in Hm, HPs |- *. fold s in Hm, HPs |- *.
    assert (Hmn : size mod n = 0).
    { apply Z.mod_divide in Hm; [|lia]. apply Z.mod_divide; [lia|]. destruct Hm as [z Hz].
      exists (z * s). lia. }
    destruct (UseOnlyFirstValue n s pattern) eqn:Eu.
    + cbn. eapply (memset_fills run_work Hrun pattern ptr size m Hb ltac:(lia)) with (s := s); [done|done|done|lia|done|].
      intros step Hstep. destruct (decide (step = 0)) as [->|Hne]; [done|].
      unfold UseOnlyFirstValue in Eu. rewrite forallb_forall in Eu.
      apply Z.eqb_eq, Eu, list_elem_of_In, elem_of_seqZ. lia.
    + rewrite seqZ_cons by lia. cbn [fmap list_fmap run_all foldl Z.eqb].
      replace (Z.pred s) with (Z.of_nat (Z.to_nat (s - 1))) by lia.
      change (Z.succ 0) with 1.
      etrans; [apply (partly_steps run_work Hrun pattern ptr size m); [first [exact Hal|lia]..| |]|].
      * lia.
      * intros a'. apply (partly_first run_work Hrun); first [exact Hal|done|lia].
      * replace (1 + Z.of_nat (Z.to_nat (s - 1))) with s by lia.
        apply partly_all; done || lia.
Qed.

(** A device memory that satisfies the hypotheses. *)
Definition test_work (w : work) (m : Z → Z) (a : Z) : Z :=
  match w with
  | MemsetD word ptr v n =>
      if bool_decide (0 ≤ a - ptr < word * n) then byte_of v ((a - ptr) mod word) else m a
  | MemsetD2D word ptr pitch v width height =>
      if bool_decide (0 ≤ a - ptr < pitch * height ∧ (a - ptr) mod pitch < word * width)
      then byte_of v (((a - ptr) mod pitch) mod word) else m a
  | _ => m a
  end.

Lemma test_work_spec : memset_spec test_work.
Proof.
  split; intros; cbn;
    [rewrite bool_decide_eq_true_2 | rewrite bool_decide_eq_false_2
    |rewrite bool_decide_eq_true_2 | rewrite bool_decide_eq_false_2]; done.
Qed.

Lemma fill_exact_witness :
  run_all test_work (fill_work 1000 6 [1; 2; 1; 2; 9; 7] 12) (λ _, 0) 1011 = 7
  ∧ fill_work 1000 6 [1; 2; 1; 2; 9; 7] 12
    = [MemsetD 2 1000 513 6; MemsetD2D 2 1002 6 513 1 2; MemsetD2D 2 1004 6 1801 1 2].
Proof.
  split; [|vm_compute; reflexivity].
  etrans; [apply (fill_exact test_work [1; 2; 1; 2; 9; 7] 1000 12 (λ _, 0) 1011 test_work_spec)|];
    [repeat constructor; lia|cbn; lia|lia|reflexivity|lia|lia|reflexivity|reflexivity].
Defined.
