(* ===== verification/CudaLaunch.v ===== *)
(** * CudaLaunch: launch geometry of cuda/enqueue.cpp

    [guessLocalWorkSize] and [setKernelParams]: the threads of a block and the
    blocks of the grid for a kernel launch, with all the checks on the way.
    What the occupancy calculator and [cuFuncSetAttribute] answer are
    arguments. *)
From S2P Require Import Prelude UrHelpers.

(** The limits of the device. *)
Record ur_device_handle_t_ := mkDevice {
  MaxWorkItemSizes : nat → Z; MaxWorkGroupSize : Z; MaxRegsPerBlock : Z;
  MaxCapacityLocalMem : Z; MaxLocalMemSizeChosen : bool; MaxChosenLocalMem : Z
}.

(** What a launch needs of the kernel; [k_local] is [getLocalSize()]. *)
Record ur_kernel_handle_t_ := mkKernel {
  ReqdThreadsPerBlock : nat → Z; MaxThreadsPerBlock : nat → Z; MaxLinearThreadsPerBlock : Z;
  RegsPerThread : Z; k_local : Z; get : Z; get_with_offset_parameter : Z
}.

(** Sizes in three dimensions. *)
Definition dims : Type := Z * Z * Z.
Definition dim (d : dims) (i : nat) : Z :=
  let '(a, b, c) := d in match i with 0%nat => a | 1%nat => b | _ => c end.
Definition of_dims (f : nat → Z) : dims := (f 0%nat, f 1%nat, f 2%nat).

(** [guessLocalWorkSize]; [occupancy] is what [cuOccupancyMaxPotentialBlockSize]
    answers. *)
Definition guessLocalWorkSize (Device : ur_device_handle_t_) (GlobalWorkSize : dims) (WorkDim : nat)
    (occupancy : ur_result_t * Z) : outcome dims :=
  let GlobalSizeNormalized := of_dims (λ i, if (i <? WorkDim)%nat then dim GlobalWorkSize i else 1) in
  match occupancy with
  | (UR_RESULT_SUCCESS, MaxBlockSize) =>
      roundToHighestFactorOfGlobalSizeIn3d GlobalSizeNormalized
        (of_dims (MaxWorkItemSizes Device)) (w64 MaxBlockSize)
  | (r, _) => Throw (Exn_ur r)
  end.

Definition hasExceededMaxRegistersPerBlock (Device : ur_device_handle_t_)
    (Kernel : ur_kernel_handle_t_) (BlockSize : Z) : bool :=
  MaxRegsPerBlock Device <? w64 (BlockSize * RegsPerThread Kernel).

(** The closure [IsValid] of [setKernelParams]: the size in one dimension. *)
Definition IsValid (Device : ur_device_handle_t_) (Kernel : ur_kernel_handle_t_)
    (Global Local : dims) (Dim : nat) : ur_result_t :=
  let L := dim Local Dim in
  if negb (ReqdThreadsPerBlock Kernel Dim =? 0) && negb (L =? ReqdThreadsPerBlock Kernel Dim)
  then UR_RESULT_ERROR_INVALID_WORK_GROUP_SIZE
  else if negb (MaxThreadsPerBlock Kernel Dim =? 0) && (MaxThreadsPerBlock Kernel Dim <? L)
  then UR_RESULT_ERROR_INVALID_WORK_GROUP_SIZE
  else if MaxWorkItemSizes Device Dim <? L then UR_RESULT_ERROR_INVALID_WORK_GROUP_SIZE
  else if 0 =? L then UR_RESULT_ERROR_INVALID_WORK_GROUP_SIZE
  else if negb (0 =? dim Global Dim mod L) then UR_RESULT_ERROR_INVALID_WORK_GROUP_SIZE
  else UR_RESULT_SUCCESS.

(** The loop over the dimensions: the size of the group, or the first error. *)
Fixpoint check_dims (Device : ur_device_handle_t_) (Kernel : ur_kernel_handle_t_)
    (Global Local : dims) (ds : list nat) (size : Z) : ur_result_t + Z :=
  match ds with
  | [] => inr size
  | d :: ds' =>
      match IsValid Device Kernel Global Local d with
      | UR_RESULT_SUCCESS =>
          check_dims Device Kernel Global Local ds' (w64 (size * dim Local d))
      | e => inl e
      end
  end.

(** The part of [setKernelParams] that finds the threads of a block. *)
Definition threads_per_block (Device : ur_device_handle_t_) (Kernel : ur_kernel_handle_t_)
    (WorkDim : nat) (Global : dims) (Local : option dims) (occupancy : ur_result_t * Z)
  : outcome (ur_result_t + dims) :=
  match Local with
  | Some L =>
      match check_dims Device Kernel Global L (seq 0 WorkDim) 1 with
      | inl e => Ret (inl e)
      | inr size =>
          if negb (MaxLinearThreadsPerBlock Kernel =? 0) && (MaxLinearThreadsPerBlock Kernel <? size)
          then Ret (inl UR_RESULT_ERROR_INVALID_WORK_GROUP_SIZE)
          else if hasExceededMaxRegistersPerBlock Device Kernel size
          then Ret (inl UR_RESULT_ERROR_OUT_OF_RESOURCES)
          else Ret (inr (of_dims (λ i, if (i <? WorkDim)%nat then dim L i
                                       else match i with 0%nat => 32 | _ => 1 end)))
      end
  | None => inr <$> guessLocalWorkSize Device Global WorkDim occupancy
  end.

(** What a launch passes to [cuLaunchKernel]: block, grid, function and the
    implicit offset argument, when the kernel has one. *)
Record launch_params := mkParams {
  ThreadsPerBlock : dims; BlocksPerGrid : dims; CuFunc : Z; ImplicitOffset : option dims
}.

(** The checks on local memory; [attribute] is the result of
    [cuFuncSetAttribute]. *)
Definition check_local_memory (Device : ur_device_handle_t_) (LocalSize : Z)
    (attribute : ur_result_t) : outcome ur_result_t :=
  let set := match attribute with
             | UR_RESULT_SUCCESS => Ret UR_RESULT_SUCCESS | r => Throw (Exn_ur r) end in
  if w32 (MaxCapacityLocalMem Device) <? LocalSize then Ret UR_RESULT_ERROR_ADAPTER_SPECIFIC
  else if MaxLocalMemSizeChosen Device then
    if MaxChosenLocalMem Device <? 0 then Ret UR_RESULT_ERROR_ADAPTER_SPECIFIC
    else if w32 (MaxChosenLocalMem Device) <? LocalSize then Ret UR_RESULT_ERROR_ADAPTER_SPECIFIC
    else set
  else set.

(** [try { ... } catch (ur_result_t Err)]. *)
Definition catch_ur {A} (m : outcome (ur_result_t + A)) : outcome (ur_result_t + A) :=
  match m with Throw (Exn_ur r) => Ret (inl r) | _ => m end.

(** [setKernelParams]. *)
Definition setKernelParams (Device : ur_device_handle_t_) (WorkDim : nat)
    (GlobalWorkOffset : option dims) (Global : dims) (Local : option dims)
    (Kernel : ur_kernel_handle_t_) (occupancy : ur_result_t * Z) (attribute : ur_result_t)
  : outcome (ur_result_t + launch_params) :=
  catch_ur (
    r ← threads_per_block Device Kernel WorkDim Global Local occupancy;
    match r with
    | inl e => Ret (inl e)
    | inr T =>
        if MaxWorkGroupSize Device <? w64 (w64 (dim T 0 * dim T 1) * dim T 2)
        then Ret (inl UR_RESULT_ERROR_INVALID_WORK_GROUP_SIZE) else
        let Blocks := of_dims (λ i, if (i <? WorkDim)%nat
                        then w64 (w64 (dim Global i + dim T i) - 1) / dim T i else 1) in
        let off i := match GlobalWorkOffset with
                     | Some o => if (i <? WorkDim)%nat then dim o i else 0 | None => 0 end in
        let wants := negb (off 0%nat =? 0) || negb (off 1%nat =? 0) || negb (off 2%nat =? 0) in
        let '(f, implicit) :=
          if negb (get_with_offset_parameter Kernel =? 0)
          then (if wants then get_with_offset_parameter Kernel else get Kernel,
                Some (of_dims (λ i, w32 (off i))))
          else (get Kernel, None) in
        m ← check_local_memory Device (k_local Kernel) attribute;
        match m with
        | UR_RESULT_SUCCESS => Ret (inr (mkParams T Blocks f implicit))
        | e => Ret (inl e)
        end
    end).

(** The checks at the start of [enqueueKernelLaunch]; [true]: nothing to launch. *)
Definition enqueue_checks (WorkDim : nat) (same_device : bool) (Global : dims) : ur_result_t + bool :=
  if negb same_device then inl UR_RESULT_ERROR_INVALID_KERNEL
  else if negb (0 <? WorkDim)%nat then inl UR_RESULT_ERROR_INVALID_WORK_DIMENSION
  else if negb (WorkDim <? 4)%nat then inl UR_RESULT_ERROR_INVALID_WORK_DIMENSION
  else inr (dim Global 0 =? 0).

(** ** Specification *)

(** A local size that the kernel and the device accept in one dimension. *)
Definition local_ok (Device : ur_device_handle_t_) (Kernel : ur_kernel_handle_t_)
    (g l : Z) (i : nat) : Prop :=
  (ReqdThreadsPerBlock Kernel i = 0 ∨ l = ReqdThreadsPerBlock Kernel i) ∧
  (MaxThreadsPerBlock Kernel i = 0 ∨ l ≤ MaxThreadsPerBlock Kernel i) ∧
  l ≤ MaxWorkItemSizes Device i ∧ l ≠ 0 ∧ g mod l = 0.

(** Sizes of a sane device: the largest block still fits 64 bits. *)
Definition device_ok (Device : ur_device_handle_t_) : Prop :=
  (∀ i, (i < 3)%nat → 1 ≤ MaxWorkItemSizes Device i) ∧
  MaxWorkItemSizes Device 0 * MaxWorkItemSizes Device 1 * MaxWorkItemSizes Device 2 < 2 ^ 64.

(** ** Lemmas *)

Lemma of_dims_dim f i : (i < 3)%nat → dim (of_dims f) i = f i.
Proof. intros Hi. destruct i as [|[|[|]]]; [done..|lia]. Qed.

Lemma below3 i : (i < 3)%nat → i = 0%nat ∨ i = 1%nat ∨ i = 2%nat.
Proof. lia. Qed.

Lemma IsValid_spec Device Kernel Global Local i :
  IsValid Device Kernel Global Local i = UR_RESULT_SUCCESS ↔
  local_ok Device Kernel (dim Global i) (dim Local i) i.
Proof.
  unfold IsValid, local_ok.
  destruct (Z.eqb_spec (ReqdThreadsPerBlock Kernel i) 0), (Z.eqb_spec (dim Local i) (ReqdThreadsPerBlock Kernel i));
    cbn [negb andb]; try (split; [discriminate|lia]).
  all: destruct (Z.eqb_spec (MaxThreadsPerBlock Kernel i) 0), (Z.ltb_spec (MaxThreadsPerBlock Kernel i) (dim Local i));
    cbn [negb andb]; try (split; [discriminate|intuition lia]).
  all: destruct (Z.ltb_spec (MaxWorkItemSizes Device i) (dim Local i));
    try (split; [discriminate|intuition lia]).
  all: destruct (Z.eqb_spec 0 (dim Local i)); try (split; [discriminate|intuition lia]).
  all: destruct (Z.eqb_spec 0 (dim Global i mod dim Local i)); cbn [negb];
    [split; [intuition lia|done]|split; [discriminate|intuition lia]].
Qed.

Lemma checked_dims_spec Device Kernel G L ds size n :
  check_dims Device Kernel G L ds size = inr n →
  (∀ d, d ∈ ds → local_ok Device Kernel (dim G d) (dim L d) d).
Proof.
  revert size. induction ds as [|d ds IH]; intros size; cbn [check_dims].
  - intros _ d Hd. by apply elem_of_nil in Hd.
  - destruct (IsValid Device Kernel G L d) eqn:E; try discriminate.
    intros Hn d' [->|Hd]%elem_of_cons; [by apply IsValid_spec|]. by apply (IH (w64 (size * dim L d))).
Qed.

Lemma ceil_div g t : 1 ≤ t ≤ g → g ≤ 2 ^ 63 → g mod t = 0 →
  w64 (w64 (g + t) - 1) / t * t = g.
Proof.
  intros Ht Hg Hm. assert (E : w64 (w64 (g + t) - 1) = g + (t - 1)).
  { destruct (decide (g + t < 2 ^ 64)) as [Hs|Hb]; [rewrite (w64_small (g + t)), w64_small by lia; lia|].
    replace (g + t) with (2 ^ 64) by lia. unfold w64. rewrite Z.mod_same by lia.
    assert (g = 2 ^ 63 ∧ t = 2 ^ 63) as [-> ->] by lia. done. }
  rewrite E. pose proof (Z.div_mod g t ltac:(lia)) as D.
  replace (g + (t - 1)) with ((t - 1) + g / t * t) by lia.
  rewrite Z.div_add, Z.div_small by lia. lia.
Qed.

Lemma ceil_div_zero t : 1 ≤ t < 2 ^ 64 → w64 (w64 (0 + t) - 1) / t = 0.
Proof. intros Ht. rewrite Z.add_0_l, (w64_small t), w64_small by lia. apply Z.div_small. lia. Qed.

(** The block that is found, in either way. *)
Lemma threads_per_block_spec Device Kernel WorkDim G Local occ T :
  (1 ≤ WorkDim ≤ 3)%nat → device_ok Device →
  (∀ i, (i < WorkDim)%nat → 1 ≤ dim G i) → 1 ≤ occ.2 < 2 ^ 31 →
  (∀ L i, Local = Some L → (i < WorkDim)%nat → 0 ≤ dim L i) →
  threads_per_block Device Kernel WorkDim G Local occ = Ret (inr T) →
  ∀ i, (i < 3)%nat →
    1 ≤ dim T i ≤ MaxWorkItemSizes Device i ∧
    (if (i <? WorkDim)%nat then dim G i mod dim T i = 0 else dim T i = 1) ∧
    (∀ L, Local = Some L → (i < WorkDim)%nat → dim T i = dim L i ∧
       local_ok Device Kernel (dim G i) (dim L i) i).
Proof.
  intros HW [Hdev _] HG Hocc HL E i Hi. destruct Local as [L|]; cbn [threads_per_block] in E.
  - destruct (check_dims _ _ _ _ _ _) as [e|size] eqn:Ec; [discriminate|].
    destruct (_ && _); [discriminate|]. destruct (hasExceededMaxRegistersPerBlock _ _ _); [discriminate|].
    injection E as <-. pose proof (checked_dims_spec _ _ _ _ _ _ _ Ec) as Hok.
    rewrite of_dims_dim by done. destruct (Nat.ltb_spec i WorkDim) as [Hlt|Hge].
    + specialize (Hok i ltac:(apply elem_of_seq; lia)). specialize (HL L i eq_refl Hlt).
      destruct Hok as (Hr & Hm & Hmax & Hz & Hd). split_and!; [lia|lia|done|].
      intros L' [= <-] _. done.
    + assert (i ≠ 0%nat) by lia. destruct i; [done|]. specialize (Hdev (S i) Hi).
      split_and!; [lia|lia|done|]. lia.
  - unfold guessLocalWorkSize in E. destruct occ as [r m]. cbn [snd] in Hocc.
    destruct r; try discriminate. unfold of_dims in E.
    pose proof (Hdev 0%nat ltac:(lia)). pose proof (Hdev 1%nat ltac:(lia)). pose proof (Hdev 2%nat ltac:(lia)).
    set (g i := if (i <? WorkDim)%nat then dim G i else 1) in E.
    assert (Hg : ∀ i, 1 ≤ g i) by (intros j; unfold g; destruct (Nat.ltb_spec j WorkDim); [by apply HG|lia]).
    destruct (rounded_block (g 0%nat) (g 1%nat) (g 2%nat) (MaxWorkItemSizes Device 0)
      (MaxWorkItemSizes Device 1) (MaxWorkItemSizes Device 2) (w64 m))
      as (t0 & t1 & t2 & Er & L0 & L1 & L2 & _); [done..|rewrite w64_small; lia|].
    assert (ET : Ret (inr (t0, t1, t2)) = Ret (inr T) :> outcome (ur_result_t + dims)).
    { rewrite <- E. exact (eq_sym (f_equal (fmap inr) Er)). }
    injection ET as <-.
    assert (Hall : 1 ≤ dim (t0, t1, t2) i ≤ Z.min (g i) (MaxWorkItemSizes Device i)
      ∧ g i mod dim (t0, t1, t2) i = 0).
    { destruct (largest_min _ _ _ _ _ L0) as [B0 [D0 _]], (largest_min _ _ _ _ _ L1) as [B1 D1],
        (largest_min _ _ _ _ _ L2) as [B2 D2].
      by destruct (below3 i Hi) as [->|[->| ->]]. }
    clear L0 L1 L2 Er.
    destruct Hall as [B D]. unfold g in B, D. split_and!; [lia|lia| |done].
    destruct (i <? WorkDim)%nat; [done|lia].
Qed.

(** ** Theorems *)

(** C31: A launch that [setKernelParams] accepts covers its range exactly: in
    every dimension the grid times the block is the global size (one in the
    dimensions that are not used), the block respects the device's limits on work
    items and on the work group, and a local size that was given is the block and
    satisfies the kernel's required and largest sizes too.  Nothing is said of the
    kernel's sizes when no local size is given, nor of registers.  Assumed: positive
    global sizes up to 2^63 and a device whose largest block does not overflow 64
    bits. *)
Theorem launch_covers_range Device WorkDim offset G Local Kernel occ attribute p :
  (1 ≤ WorkDim ≤ 3)%nat → device_ok Device →
  (∀ i, (i < WorkDim)%nat → 1 ≤ dim G i ≤ 2 ^ 63) → 1 ≤ occ.2 < 2 ^ 31 →
  (∀ L i, Local = Some L → (i < WorkDim)%nat → 0 ≤ dim L i) →
  setKernelParams Device WorkDim offset G Local Kernel occ attribute = Ret (inr p) →
  let T := ThreadsPerBlock p in
  (∀ i, (i < 3)%nat →
     dim (BlocksPerGrid p) i * dim T i = (if (i <? WorkDim)%nat then dim G i else 1) ∧
     1 ≤ dim T i ≤ MaxWorkItemSizes Device i ∧
     (∀ L, Local = Some L → (i < WorkDim)%nat → dim T i = dim L i ∧
        local_ok Device Kernel (dim G i) (dim L i) i)) ∧
  dim T 0 * dim T 1 * dim T 2 ≤ MaxWorkGroupSize Device.
Proof.
  intros HW Hdev HG Hocc HL E. unfold setKernelParams, catch_ur in E.
  destruct (threads_per_block _ _ _ _ _ _) as [[e|T]|[]|] eqn:ET; cbn in E; try discriminate.
  destruct (_ <? _) eqn:Emax; [discriminate|]. apply Z.ltb_ge in Emax.
  pose proof (threads_per_block_spec _ _ _ _ _ _ _ HW Hdev ltac:(intros; by apply HG) Hocc HL ET) as HT.
  assert (Ep : ThreadsPerBlock p = T ∧ BlocksPerGrid p = of_dims (λ i, if (i <? WorkDim)%nat
    then w64 (w64 (dim G i + dim T i) - 1) / dim T i else 1)).
  { destruct (negb (get_with_offset_parameter Kernel =? 0)); cbn in E;
      destruct (check_local_memory _ _ _) as [[]|[]|]; cbn in E; try discriminate;
      injection E as <-; done. }
  destruct Ep as [-> ->]. cbn zeta. split.
  - intros i Hi. destruct (HT i Hi) as (B & D & Loc). split_and!; [|lia|lia|done].
    rewrite of_dims_dim by done. destruct (Nat.ltb_spec i WorkDim) as [Hlt|]; [|by rewrite D].
    specialize (HG i Hlt). apply ceil_div; [|lia|done]. split; [lia|].
    apply Z.divide_pos_le; [lia|]. by apply Z.mod_divide; [lia|].
  - destruct Hdev as [_ Hdev].
    destruct (HT 0%nat ltac:(lia)) as (B0 & _), (HT 1%nat ltac:(lia)) as (B1 & _), (HT 2%nat ltac:(lia)) as (B2 & _).
    assert (dim T 0 * dim T 1 ≤ MaxWorkItemSizes Device 0 * MaxWorkItemSizes Device 1) by nia.
    assert (dim T 0 * dim T 1 * dim T 2
      ≤ MaxWorkItemSizes Device 0 * MaxWorkItemSizes Device 1 * MaxWorkItemSizes Device 2).
    { apply Z.mul_le_mono_nonneg; nia. }
    assert (dim T 0 * dim T 1 < 2 ^ 64).
    { apply Z.le_lt_trans with (dim T 0 * dim T 1 * dim T 2); [nia|lia]. }
    rewrite (w64_small (dim T 0 * dim T 1)) in Emax by nia. rewrite w64_small in Emax by nia. lia.
Qed.

Definition test_device : ur_device_handle_t_ :=
  mkDevice (λ i, match i with 0%nat | 1%nat => 1024 | _ => 64 end) 1024 65536 49152 false 0.
Definition test_kernel : ur_kernel_handle_t_ :=
  mkKernel (λ _, 0) (λ _, 0) 0 32 256 7 8.

Lemma launch_covers_range_witness :
  setKernelParams test_device 2 (Some (5, 0, 0)) (96, 10, 0) (Some (48, 5, 0)) test_kernel
    (UR_RESULT_SUCCESS, 1024) UR_RESULT_SUCCESS
  = Ret (inr (mkParams (48, 5, 1) (2, 2, 1) 8 (Some (5, 0, 0)))) ∧ 2 * 48 = 96 ∧ 2 * 5 = 10.
Proof.
  split; [vm_compute; reflexivity|].
  destruct (launch_covers_range test_device 2 (Some (5, 0, 0)) (96, 10, 0) (Some (48, 5, 0))
    test_kernel (UR_RESULT_SUCCESS, 1024) UR_RESULT_SUCCESS
    (mkParams (48, 5, 1) (2, 2, 1) 8 (Some (5, 0, 0)))) as [H _].
  - lia.
  - split; [|cbn; lia]. intros [|[|[|]]] Hi; cbn; lia.
  - intros [|[|]] Hi; cbn; lia.
  - cbn. lia.
  - intros L [|[|]] [= <-] Hi; cbn; lia.
  - vm_compute. reflexivity.
  - split; [exact (proj1 (H 0%nat ltac:(lia)))|exact (proj1 (H 1%nat ltac:(lia)))].
Defined.

(** Only the first size is checked before the search, which divides by zero
    when another one is zero and no local size is given. *)
Lemma zero_second_size_divides_by_zero :
  enqueue_checks 2 true (64, 0, 1) = inr false ∧
  setKernelParams test_device 2 None (64, 0, 1) None test_kernel (UR_RESULT_SUCCESS, 1024)
    UR_RESULT_SUCCESS = Undef.
Proof. split; vm_compute; reflexivity. Qed.

(** The implicit offset has 32 bits: a larger offset is cut without an error. *)
Lemma offset_truncated :
  setKernelParams test_device 1 (Some (4294967301, 0, 0)) (64, 1, 1) (Some (64, 1, 1)) test_kernel
    (UR_RESULT_SUCCESS, 1024) UR_RESULT_SUCCESS
  = Ret (inr (mkParams (64, 1, 1) (1, 1, 1) 8 (Some (5, 0, 0)))).
Proof. vm_compute. reflexivity. Qed.

(** The size the kernel requires is only compared with a size that is given. *)
Lemma required_size_ignored :
  let k := mkKernel (λ i, match i with 0%nat => 16 | _ => 1 end) (λ _, 0) 0 32 256 7 0 in
  setKernelParams test_device 1 None (64, 1, 1) None k (UR_RESULT_SUCCESS, 1024) UR_RESULT_SUCCESS
  = Ret (inr (mkParams (64, 1, 1) (1, 1, 1) 7 None)).
Proof. vm_compute. reflexivity. Qed.
