(* ===== verification/CudaKernel.v ===== *)
(** * CudaKernel: the kernel arguments of cuda/kernel.hpp

    [ur_kernel_handle_t_::arguments]: one storage array in which every argument
    gets a slot, and the layout of the local memory that the kernel's local
    arguments share.  An access outside an array is undefined ([None]). *)
From S2P Require Import Prelude CudaFill.

(** An element of [ArgPointers]: into [Storage] or to the implicit offset. *)
Inductive arg_ptr := Slot (pos : nat) | Implicit.

Definition MaxParamBytes : nat := 4000.
(** [sizeof(double) * 16] *)
Definition MaxAlignment : Z := 128.

Record arguments := mkArgs {
  Storage : list Z; ParamSizes : list nat; ArgPointers : list arg_ptr; InsertPos : nat;
  AlignedLocalMemSize : list Z; OriginalLocalMemSize : list Z; WorkGroupMemory : Z;
  ImplicitOffsetArgs : list Z
}.

Definition new_arguments : arguments :=
  mkArgs (replicate MaxParamBytes 0) [] [Implicit] 0 [] [] 0 (replicate 12 0).

Definition set_aligned (f : list Z → list Z) (a : arguments) : arguments :=
  mkArgs (Storage a) (ParamSizes a) (ArgPointers a) (InsertPos a) (f (AlignedLocalMemSize a))
    (OriginalLocalMemSize a) (WorkGroupMemory a) (ImplicitOffsetArgs a).
Definition set_original (f : list Z → list Z) (a : arguments) : arguments :=
  mkArgs (Storage a) (ParamSizes a) (ArgPointers a) (InsertPos a) (AlignedLocalMemSize a)
    (f (OriginalLocalMemSize a)) (WorkGroupMemory a) (ImplicitOffsetArgs a).

(** The eight bytes of a [size_t]. *)
Definition size_t_bytes (v : Z) : list Z := byte_of v <$> seqZ 0 8.

Definition memcpy (p : arg_ptr) (bytes : list Z) (a : arguments) : option arguments :=
  match p with
  | Slot pos =>
      if (pos + length bytes <=? length (Storage a))%nat
      then Some (mkArgs (list_inserts pos bytes (Storage a)) (ParamSizes a) (ArgPointers a)
                   (InsertPos a) (AlignedLocalMemSize a) (OriginalLocalMemSize a)
                   (WorkGroupMemory a) (ImplicitOffsetArgs a))
      else None
  | Implicit =>
      if (length bytes <=? length (ImplicitOffsetArgs a))%nat
      then Some (mkArgs (Storage a) (ParamSizes a) (ArgPointers a) (InsertPos a)
                   (AlignedLocalMemSize a) (OriginalLocalMemSize a) (WorkGroupMemory a)
                   (list_inserts 0 bytes (ImplicitOffsetArgs a)))
      else None
  end.

(** The growth at the start of [addArg]. *)
Definition expand (Index : nat) (a : arguments) : arguments :=
  if (length (ArgPointers a) <? Index + 2)%nat
  then mkArgs (Storage a) (resize (Index + 1) 0%nat (ParamSizes a))
         (resize (Index + 2) (default Implicit (last (ArgPointers a))) (ArgPointers a)) (InsertPos a)
         (resize (Index + 1) 0 (AlignedLocalMemSize a)) (resize (Index + 1) 0 (OriginalLocalMemSize a))
         (WorkGroupMemory a) (ImplicitOffsetArgs a)
  else a.

(** [addArg], after the growth. *)
Definition store_arg (Index : nat) (Arg : list Z) (LocalSize : Z) (a : arguments) : option arguments :=
  size ← ParamSizes a !! Index;
  if (size =? 0)%nat then
    b ← memcpy (Slot (InsertPos a)) Arg a;
    Some (mkArgs (Storage b) (<[Index := length Arg]> (ParamSizes b))
            (<[Index := Slot (InsertPos a)]> (ArgPointers b)) (InsertPos b + length Arg)
            (<[Index := LocalSize]> (AlignedLocalMemSize b)) (OriginalLocalMemSize b)
            (WorkGroupMemory b) (ImplicitOffsetArgs b))
  else
    p ← ArgPointers a !! Index;
    b ← memcpy p Arg a;
    Some (set_aligned <[Index := LocalSize]> b).

Definition addArg (Index : nat) (Arg : list Z) (LocalSize : Z) (a : arguments) : option arguments :=
  store_arg Index Arg LocalSize (expand Index a).

(** [std::accumulate] over [size_t]. *)
Definition accumulate (init : Z) (l : list Z) : Z := fold_left (λ acc x, w64 (acc + x)) l init.

(** [calcAlignedLocalArgument]: the new state, the aligned size and offset. *)
Definition calcAlignedLocalArgument (Index : nat) (Size : Z) (a : arguments)
  : option (arguments * Z * Z) :=
  let a := if (length (ArgPointers a) <? Index + 2)%nat
           then set_original (resize (Index + 1) 0) (set_aligned (resize (Index + 1) 0) a) else a in
  if (length (OriginalLocalMemSize a) <=? Index)%nat then None else
  let a := set_original <[Index := Size]> a in
  let LocalOffset := accumulate (WorkGroupMemory a) (take Index (AlignedLocalMemSize a)) in
  let Alignment := Z.min MaxAlignment Size in
  if Alignment =? 0 then None else
  let Pad := LocalOffset mod Alignment in
  let AlignedLocalOffset := if Pad =? 0 then LocalOffset else w64 (LocalOffset + (Alignment - Pad)) in
  Some (a, w64 (Size + w64 (AlignedLocalOffset - LocalOffset)), AlignedLocalOffset).

(** The loop of [updateLocalArgOffset], for [n] more arguments. *)
Fixpoint update_loop (n : nat) (SuccIndex : nat) (a : arguments) : option arguments :=
  match n with
  | O => Some a
  | S n' =>
      size ← OriginalLocalMemSize a !! SuccIndex;
      if size =? 0 then update_loop n' (S SuccIndex) a
      else
        r ← calcAlignedLocalArgument SuccIndex size a;
        let '(a, SuccAlignedLocalSize, SuccAlignedLocalOffset) := r in
        let a := set_aligned <[SuccIndex := SuccAlignedLocalSize]> a in
        p ← ArgPointers a !! SuccIndex;
        a ← memcpy p (size_t_bytes SuccAlignedLocalOffset) a;
        update_loop n' (S SuccIndex) a
  end.

Definition updateLocalArgOffset (StartIndex : nat) (a : arguments) : option arguments :=
  update_loop (length (ArgPointers a) - 1 - StartIndex) StartIndex a.

Definition addLocalArg (Index : nat) (Size : Z) (a : arguments) : option arguments :=
  r ← calcAlignedLocalArgument Index Size a;
  let '(a, AlignedLocalSize, AlignedLocalOffset) := r in
  a ← addArg Index (size_t_bytes AlignedLocalOffset) AlignedLocalSize a;
  updateLocalArgOffset (Index + 1) a.

Definition setWorkGroupMemory (MemSize : Z) (a : arguments) : option arguments :=
  if WorkGroupMemory a =? MemSize then Some a
  else updateLocalArgOffset 0
         (mkArgs (Storage a) (ParamSizes a) (ArgPointers a) (InsertPos a) (AlignedLocalMemSize a)
            (OriginalLocalMemSize a) MemSize (ImplicitOffsetArgs a)).

(** The sum starts from an [int], so it is cut to 32 bits on the way. *)
Definition getLocalSize (a : arguments) : Z :=
  w32 (fold_left (λ acc x, w32 (acc + x)) (AlignedLocalMemSize a) 0 + WorkGroupMemory a).

(** The entry points; the size is checked first. *)
Definition urKernelSetArgValue (argIndex : nat) (value : list Z) (a : arguments)
  : option (ur_result_t * arguments) :=
  if (length value =? 0)%nat then Some (UR_RESULT_ERROR_INVALID_KERNEL_ARGUMENT_SIZE, a)
  else pair UR_RESULT_SUCCESS <$> addArg argIndex value 0 a.

Definition urKernelSetArgLocal (argIndex : nat) (argSize : Z) (a : arguments)
  : option (ur_result_t * arguments) :=
  if argSize =? 0 then Some (UR_RESULT_ERROR_INVALID_KERNEL_ARGUMENT_SIZE, a)
  else pair UR_RESULT_SUCCESS <$> addLocalArg argIndex argSize a.

Definition urKernelSetArgPointer (argIndex : nat) (pArgValue : Z) (a : arguments)
  : option (ur_result_t * arguments) :=
  pair UR_RESULT_SUCCESS <$> addArg argIndex (size_t_bytes pArgValue) 0 a.

(** [urKernelSetArgMemObj] for a null object and for a buffer at [CuPtr]. *)
Definition urKernelSetArgMemObj (argIndex : nat) (CuPtr : option Z) (a : arguments)
  : option (ur_result_t * arguments) :=
  match CuPtr with
  | None => pair UR_RESULT_SUCCESS <$> addArg argIndex [] 0 a
  | Some p => pair UR_RESULT_SUCCESS <$> addArg argIndex (size_t_bytes p) 0 a
  end.

(** [MemObjArgs] and [addMemObjArg]: memory object, index, access flags. *)
Fixpoint addMemObjArg (Index hMem Flags : Z) (l : list (Z * Z * Z)) : list (Z * Z * Z) :=
  match l with
  | [] => [(hMem, Index, Flags)]
  | arg :: l' =>
      if arg.1.2 =? Index then (hMem, Index, Flags) :: l'
      else arg :: addMemObjArg Index hMem Flags l'
  end.

(** ** Specification *)

(** The first multiple of [align] from [pos] on. *)
Definition align_up (pos align : Z) : Z := pos + (- pos) mod align.

(** Where the local arguments go, from [pos] on; size 0 is no local argument. *)
Fixpoint offsets (pos : Z) (sizes : list Z) : list Z :=
  match sizes with
  | [] => []
  | s :: l =>
      if s =? 0 then pos :: offsets pos l
      else let o := align_up pos (Z.min MaxAlignment s) in o :: offsets (o + s) l
  end.

(** The position after the last local argument. *)
Fixpoint layout_end (pos : Z) (sizes : list Z) : Z :=
  match sizes with
  | [] => pos
  | s :: l => if s =? 0 then layout_end pos l
              else layout_end (align_up pos (Z.min MaxAlignment s) + s) l
  end.

(** What is done to the arguments of a kernel. *)
Inductive arg_op :=
  | SetValue (Index : nat) (value : list Z)
  | SetLocal (Index : nat) (size : Z)
  | SetWorkGroupMemory (size : Z).

Definition run_op (op : arg_op) (a : arguments) : option arguments :=
  match op with
  | SetValue i v => snd <$> urKernelSetArgValue i v a
  | SetLocal i s => snd <$> urKernelSetArgLocal i s a
  | SetWorkGroupMemory n => setWorkGroupMemory n a
  end.

(** The parameters of a kernel have a fixed kind and size. *)
Inductive kind := KValue (size : nat) | KLocal.

Definition op_ok (sig : nat → kind) (op : arg_op) : Prop :=
  match op with
  | SetValue i v => v ≠ [] ∧ sig i = KValue (length v)
  | SetLocal i s => 0 < s ∧ sig i = KLocal
  | SetWorkGroupMemory n => 0 ≤ n
  end.

(** No sum of sizes wraps. *)
Definition fits (a : arguments) : Prop :=
  WorkGroupMemory a + foldr (λ s acc, s + 128 + acc) 0 (OriginalLocalMemSize a) < 2 ^ 64.

Definition fits_after (op : arg_op) (a : arguments) : Prop :=
  match op with
  | SetValue _ _ => True
  | SetLocal i s => fits (set_original <[i := s]> (expand i a))
  | SetWorkGroupMemory n => n + foldr (λ s acc, s + 128 + acc) 0 (OriginalLocalMemSize a) < 2 ^ 64
  end.

Inductive arg_run (sig : nat → kind) : list arg_op → arguments → Prop :=
  | run_new : arg_run sig [] new_arguments
  | run_step ops op a a' : arg_run sig ops a → op_ok sig op → fits_after op a → run_op op a = Some a' →
      arg_run sig (ops ++ [op]) a'.

(** What was set last. *)
Definition last_value (ops : list arg_op) (i : nat) : option (list Z) :=
  fold_left (λ r op, match op with SetValue j v => if decide (j = i) then Some v else r | _ => r end)
    ops None.
Definition last_local (ops : list arg_op) (i : nat) : Z :=
  fold_left (λ r op, match op with SetLocal j s => if decide (j = i) then s else r | _ => r end)
    ops 0.
Definition last_memory (ops : list arg_op) : Z :=
  fold_left (λ r op, match op with SetWorkGroupMemory n => n | _ => r end) ops 0.

(** The bytes that the kernel sees as argument [i]. *)
Definition holds (a : arguments) (i : nat) (bytes : list Z) : Prop :=
  ∃ pos, ArgPointers a !! i = Some (Slot pos) ∧
    ∀ j b, bytes !! j = Some b → Storage a !! (pos + j)%nat = Some b.

(** ** Lemmas: the layout *)

(** The sizes with the padding before them. *)
Fixpoint aligned_sizes (pos : Z) (sizes : list Z) : list Z :=
  match sizes with
  | [] => []
  | s :: l =>
      if s =? 0 then 0 :: aligned_sizes pos l
      else let o := align_up pos (Z.min MaxAlignment s) in (o + s - pos) :: aligned_sizes (o + s) l
  end.

Definition total (l : list Z) : Z := foldr Z.add 0 l.
Definition room (sizes : list Z) : Z := foldr (λ s acc, s + 128 + acc) 0 sizes.

Lemma align_up_bounds pos s : 0 < s →
  pos ≤ align_up pos (Z.min MaxAlignment s) ≤ pos + 128
  ∧ align_up pos (Z.min MaxAlignment s) mod Z.min MaxAlignment s = 0.
Proof.
  intros Hs. unfold align_up, MaxAlignment. set (al := Z.min 128 s).
  assert (Ha : 0 < al ≤ 128) by lia. pose proof (Z.mod_pos_bound (- pos) al ltac:(lia)).
  split; [lia|]. rewrite Zplus_mod_idemp_r. replace (pos + - pos) with 0 by lia. done.
Qed.

Lemma align_up_code pos al : 0 < al →
  (if pos mod al =? 0 then pos else pos + (al - pos mod al)) = align_up pos al.
Proof.
  intros Ha. unfold align_up. destruct (Z.eqb_spec (pos mod al) 0) as [E|E].
  - rewrite Z.mod_opp_l_z by lia. lia.
  - rewrite Z.mod_opp_l_nz by lia. lia.
Qed.

Lemma layout_end_app pos l1 l2 : layout_end pos (l1 ++ l2) = layout_end (layout_end pos l1) l2.
Proof. revert pos. induction l1 as [|s l1 IH]; intros pos; [done|]. cbn. by destruct (s =? 0). Qed.

Lemma offsets_app pos l1 l2 :
  offsets pos (l1 ++ l2) = offsets pos l1 ++ offsets (layout_end pos l1) l2.
Proof.
  revert pos. induction l1 as [|s l1 IH]; intros pos; [done|]. cbn.
  destruct (s =? 0); cbn; by rewrite IH.
Qed.

Lemma aligned_app pos l1 l2 :
  aligned_sizes pos (l1 ++ l2) = aligned_sizes pos l1 ++ aligned_sizes (layout_end pos l1) l2.
Proof.
  revert pos. induction l1 as [|s l1 IH]; intros pos; [done|]. cbn.
  destruct (s =? 0); cbn; by rewrite IH.
Qed.

Lemma length_offsets pos l : length (offsets pos l) = length l.
Proof. revert pos. induction l as [|s l IH]; intros pos; [done|]. cbn. destruct (s =? 0); cbn; by rewrite IH. Qed.

Lemma length_aligned pos l : length (aligned_sizes pos l) = length l.
Proof. revert pos. induction l as [|s l IH]; intros pos; [done|]. cbn. destruct (s =? 0); cbn; by rewrite IH. Qed.

Lemma total_aligned pos l : pos + total (aligned_sizes pos l) = layout_end pos l.
Proof.
  revert pos. induction l as [|s l IH]; intros pos; cbn; [lia|].
  destruct (s =? 0); cbn; rewrite <- IH; unfold total; lia.
Qed.

Lemma aligned_nonneg pos l : Forall (λ s, 0 ≤ s) l → Forall (λ s, 0 ≤ s) (aligned_sizes pos l).
Proof.
  intros H. revert pos. induction H as [|s l Hs _ IH]; intros pos; cbn; [constructor|].
  destruct (Z.eqb_spec s 0); constructor; [lia|done| |done].
  pose proof (align_up_bounds pos s). lia.
Qed.

Lemma layout_end_bounds pos l : Forall (λ s, 0 ≤ s) l →
  pos ≤ layout_end pos l ≤ pos + room l.
Proof.
  intros H. revert pos. induction H as [|s l Hs _ IH]; intros pos; cbn; [lia|].
  unfold room in *. destruct (Z.eqb_spec s 0) as [->|]; [specialize (IH pos); lia|].
  pose proof (align_up_bounds pos s ltac:(lia)).
  specialize (IH (align_up pos (Z.min MaxAlignment s) + s)). lia.
Qed.

Lemma room_app l1 l2 : room (l1 ++ l2) = room l1 + room l2.
Proof. unfold room. induction l1 as [|s l1 IH]; cbn; [done|]. rewrite IH. lia. Qed.

Lemma room_nonneg l : Forall (λ s, 0 ≤ s) l → 0 ≤ room l.
Proof. unfold room. induction 1; cbn; lia. Qed.

Lemma total_nonneg l : Forall (λ s, 0 ≤ s) l → 0 ≤ total l.
Proof. unfold total. induction 1; cbn; lia. Qed.

Lemma accumulate_total init l : Forall (λ s, 0 ≤ s) l → 0 ≤ init → init + total l < 2 ^ 64 →
  accumulate init l = init + total l.
Proof.
  intros H. revert init. induction H as [|s l Hs Hl IH]; intros init Hi Hf; cbn in *; [lia|].
  unfold accumulate in *. cbn. pose proof (total_nonneg l Hl). unfold total in *.
  rewrite w64_small by lia. rewrite IH by lia. lia.
Qed.

Lemma sum_int l acc : fold_left (λ acc x, w32 (acc + x)) l acc mod 2 ^ 32 = (acc + total l) mod 2 ^ 32.
Proof.
  revert acc. induction l as [|s l IH]; intros acc; cbn; [f_equal; lia|].
  rewrite IH. unfold w32. rewrite Zplus_mod_idemp_l. f_equal. unfold total. lia.
Qed.

(** The local arguments of a layout are aligned, in order and disjoint. *)
Lemma offsets_spec pos l i s o : Forall (λ s, 0 ≤ s) l →
  l !! i = Some s → s ≠ 0 → offsets pos l !! i = Some o →
  o mod Z.min MaxAlignment s = 0 ∧ pos ≤ o ∧ o + s ≤ layout_end pos l ∧
  ∀ j s' o', (i < j)%nat → l !! j = Some s' → s' ≠ 0 → offsets pos l !! j = Some o' → o + s ≤ o'.
Proof.
  intros H Hi Hs Ho.
  apply list_elem_of_split_length in Hi as (l1 & l2 & -> & ->).
  apply Forall_app in H as [H1 [Hs0 H2]%Forall_cons].
  rewrite offsets_app, lookup_app_r in Ho by (rewrite length_offsets; lia).
  rewrite length_offsets, Nat.sub_diag in Ho. cbn in Ho. destruct (Z.eqb_spec s 0); [done|].
  injection Ho as <-. pose proof (align_up_bounds (layout_end pos l1) s ltac:(lia)) as [B D].
  pose proof (layout_end_bounds pos l1 H1) as B1.
  set (o := align_up _ _) in *.
  split_and!; [done|lia| |].
  - rewrite layout_end_app. cbn. rewrite (proj2 (Z.eqb_neq s 0)) by done. fold o.
    pose proof (layout_end_bounds (o + s) l2 H2). lia.
  - intros j s' o' Hj Hl Hs' Ho'.
    rewrite lookup_app_r in Hl by lia. rewrite offsets_app, lookup_app_r in Ho' by (rewrite length_offsets; lia).
    rewrite length_offsets in Ho'. cbn in Ho'. rewrite (proj2 (Z.eqb_neq s 0)) in Ho' by done. fold o in Ho'.
    destruct (j - length l1)%nat as [|m] eqn:Em; [lia|]. cbn in Hl, Ho'.
    assert (G : ∀ l p m s' o', Forall (λ s, 0 ≤ s) l → l !! m = Some s' → s' ≠ 0 →
      offsets p l !! m = Some o' → p ≤ o').
    { clear. induction l as [|s l IH]; intros p m s' o' Hl Hm Hs' Ho'; [done|].
      apply Forall_cons in Hl as [Hs Hl]. cbn in Ho'.
      destruct m as [|m]; cbn in Hm.
      - injection Hm as ->. rewrite (proj2 (Z.eqb_neq s' 0)) in Ho' by done. injection Ho' as <-.
        pose proof (align_up_bounds p s'). lia.
      - destruct (Z.eqb_spec s 0); cbn in Ho'; [by eapply IH|].
        pose proof (align_up_bounds p s ltac:(lia)).
        specialize (IH _ _ _ _ Hl Hm Hs' Ho'). lia. }
    by eapply (G l2 (o + s) m).
Qed.

(** ** Lemmas: slots *)

Record args_inv (sig : nat → kind) (a : arguments) : Prop := mkArgsInv {
  inv_ptrs : length (ArgPointers a) = S (length (ParamSizes a));
  inv_last : last (ArgPointers a) = Some Implicit;
  inv_aligned : length (AlignedLocalMemSize a) = length (ParamSizes a);
  inv_original : length (OriginalLocalMemSize a) = length (ParamSizes a);
  inv_cap : (InsertPos a ≤ length (Storage a))%nat;
  inv_slot : ∀ i n, ParamSizes a !! i = Some n → n ≠ 0%nat →
    ∃ pos, ArgPointers a !! i = Some (Slot pos) ∧ (pos + n ≤ InsertPos a)%nat ∧
      n = match sig i with KValue k => k | KLocal => 8%nat end;
  inv_disjoint : ∀ i j ni nj pi pj, i ≠ j →
    ParamSizes a !! i = Some ni → ni ≠ 0%nat → ArgPointers a !! i = Some (Slot pi) →
    ParamSizes a !! j = Some nj → nj ≠ 0%nat → ArgPointers a !! j = Some (Slot pj) →
    (pi + ni ≤ pj ∨ pj + nj ≤ pi)%nat;
  inv_sizes : ∀ i s, OriginalLocalMemSize a !! i = Some s →
    0 ≤ s ∧ (s ≠ 0 → sig i = KLocal ∧ ParamSizes a !! i = Some 8%nat);
  inv_memory : 0 ≤ WorkGroupMemory a
}.

(** Everything but the bytes in the slots is the same. *)
Definition same_shape (a a' : arguments) : Prop :=
  ParamSizes a' = ParamSizes a ∧ ArgPointers a' = ArgPointers a ∧ InsertPos a' = InsertPos a ∧
  OriginalLocalMemSize a' = OriginalLocalMemSize a ∧ WorkGroupMemory a' = WorkGroupMemory a ∧
  length (Storage a') = length (Storage a) ∧
  length (AlignedLocalMemSize a') = length (AlignedLocalMemSize a).

Lemma same_shape_inv sig a a' : args_inv sig a → same_shape a a' → args_inv sig a'.
Proof.
  intros [] (E1 & E2 & E3 & E4 & E5 & E6 & E7).
  split; rewrite ?E1, ?E2, ?E3, ?E4, ?E5, ?E6, ?E7; done.
Qed.

Lemma same_shape_trans a b c : same_shape a b → same_shape b c → same_shape a c.
Proof. unfold same_shape. intuition congruence. Qed.

(** Writing argument [i] in place changes that argument only. *)
Lemma memcpy_slot sig a i bytes : args_inv sig a →
  ParamSizes a !! i = Some (length bytes) → bytes ≠ [] →
  ∃ p a', ArgPointers a !! i = Some p ∧ memcpy p bytes a = Some a' ∧ same_shape a a' ∧
    AlignedLocalMemSize a' = AlignedLocalMemSize a ∧ holds a' i bytes ∧
    ∀ j v, j ≠ i → ParamSizes a !! j = Some (length v) → v ≠ [] → holds a j v → holds a' j v.
Proof.
  intros Ha Hn Hb.
  destruct (inv_slot _ _ Ha i _ Hn) as (pos & Hp & Hle & _); [by destruct bytes|].
  pose proof (inv_cap _ _ Ha) as Hcap. exists (Slot pos). eexists. split; [done|].
  cbn [memcpy]. rewrite (proj2 (Nat.leb_le _ _)) by lia. split; [reflexivity|].
  split; [unfold same_shape; cbn; by rewrite length_inserts|]. split; [done|]. split.
  - exists pos. split; [done|]. intros j b Hj. cbn [Storage].
    pose proof (lookup_lt_Some _ _ _ Hj). rewrite list_lookup_inserts by lia.
    by replace (pos + j - pos)%nat with j by lia.
  - intros j v Hji Hv Hv0 (q & Hq & Hh). exists q. split; [done|]. intros m b Hm. cbn [Storage].
    pose proof (lookup_lt_Some _ _ _ Hm).
    destruct (inv_disjoint _ _ Ha j i _ _ q pos Hji Hv ltac:(by destruct v) Hq Hn ltac:(by destruct bytes) Hp).
    + rewrite list_lookup_inserts_lt by lia. by apply Hh.
    + rewrite list_lookup_inserts_ge by lia. by apply Hh.
Qed.

Lemma set_aligned_shape f a : (∀ l, length (f l) = length l) → same_shape a (set_aligned f a).
Proof. intros Hf. unfold same_shape. cbn. by rewrite Hf. Qed.

Lemma holds_same a a' i v : Storage a' = Storage a → ArgPointers a' !! i = ArgPointers a !! i →
  holds a i v → holds a' i v.
Proof. intros E1 E2 (p & Hp & H). exists p. by rewrite E1, E2. Qed.

(** The growth keeps everything. *)
Lemma expand_inv sig a i : args_inv sig a →
  args_inv sig (expand i a) ∧ (i < length (ParamSizes (expand i a)))%nat ∧
  (∀ j n, ParamSizes a !! j = Some n → ParamSizes (expand i a) !! j = Some n
     ∧ ArgPointers (expand i a) !! j = ArgPointers a !! j
     ∧ AlignedLocalMemSize (expand i a) !! j = AlignedLocalMemSize a !! j
     ∧ OriginalLocalMemSize (expand i a) !! j = OriginalLocalMemSize a !! j) ∧
  (∀ j n, ParamSizes a !! j = None → ParamSizes (expand i a) !! j = Some n →
     n = 0%nat ∧ OriginalLocalMemSize (expand i a) !! j = Some 0
     ∧ AlignedLocalMemSize (expand i a) !! j = Some 0) ∧
  Storage (expand i a) = Storage a ∧ InsertPos (expand i a) = InsertPos a
  ∧ WorkGroupMemory (expand i a) = WorkGroupMemory a.
Proof.
  intros Ha. pose proof Ha as []. unfold expand.
  destruct (Nat.ltb_spec (length (ArgPointers a)) (i + 2)) as [Hlt|Hge].
  2: { split_and!; [done|lia|done|congruence|done..]. }
  assert (Hlen : (length (ParamSizes a) < i + 1)%nat) by lia.
  rewrite inv_last0. cbn [default].
  assert (Hold : ∀ j n, ParamSizes a !! j = Some n →
    resize (i + 1) 0%nat (ParamSizes a) !! j = Some n ∧
    resize (i + 2) Implicit (ArgPointers a) !! j = ArgPointers a !! j ∧
    resize (i + 1) 0 (AlignedLocalMemSize a) !! j = AlignedLocalMemSize a !! j ∧
    resize (i + 1) 0 (OriginalLocalMemSize a) !! j = OriginalLocalMemSize a !! j).
  { intros j n Hj. pose proof (lookup_lt_Some _ _ _ Hj).
    rewrite !lookup_resize by lia. done. }
  assert (Hnew : ∀ j n, ParamSizes a !! j = None → resize (i + 1) 0%nat (ParamSizes a) !! j = Some n →
    n = 0%nat ∧ resize (i + 1) 0 (OriginalLocalMemSize a) !! j = Some 0
    ∧ resize (i + 1) 0 (AlignedLocalMemSize a) !! j = Some 0).
  { intros j n Hn Hs. apply lookup_ge_None in Hn.
    pose proof (lookup_lt_Some _ _ _ Hs) as Hj. rewrite length_resize in Hj.
    rewrite lookup_resize_new in Hs by lia. injection Hs as <-. rewrite !lookup_resize_new by lia. done. }
  split_and!; cbn; [|rewrite length_resize; lia|done|done|done|done|done].
  split; cbn; rewrite ?length_resize; [lia| |lia|lia|done| | | |done].
  - rewrite resize_ge by lia. rewrite last_app. replace (i + 2 - length (ArgPointers a))%nat
      with (S (i + 1 - length (ArgPointers a))) by lia. by rewrite replicate_S_end, last_snoc.
  - intros j n Hj Hn. destruct (ParamSizes a !! j) as [m|] eqn:Em; [|by destruct (Hnew j n Em Hj)].
    destruct (Hold j m Em) as (E1 & E2 & _). rewrite E2. replace n with m by congruence.
    apply inv_slot0; congruence.
  - intros j k nj nk pj pk Hjk Hj Hnj Hpj Hk Hnk Hpk.
    destruct (ParamSizes a !! j) as [mj|] eqn:Ej; [|by destruct (Hnew j nj Ej Hj)].
    destruct (ParamSizes a !! k) as [mk|] eqn:Ek; [|by destruct (Hnew k nk Ek Hk)].
    destruct (Hold j mj Ej) as (E1 & E2 & _), (Hold k mk Ek) as (E3 & E4 & _).
    rewrite E2 in Hpj. rewrite E4 in Hpk. apply (inv_disjoint0 j k); congruence.
  - intros j s Hs. pose proof (lookup_lt_Some _ _ _ Hs) as Hj. rewrite length_resize in Hj.
    destruct (ParamSizes a !! j) as [m|] eqn:Em.
    + destruct (Hold j m Em) as (E1 & _ & _ & E4). rewrite E4 in Hs.
      destruct (inv_sizes0 j s Hs) as [B C]. split; [done|]. intros Hn.
      destruct (C Hn) as [C1 C2]. split; [done|congruence].
    + destruct (Hnew j 0%nat Em) as (_ & E4 & _).
      { apply lookup_ge_None in Em. by rewrite lookup_resize_new by lia. }
      rewrite E4 in Hs. injection Hs as <-. done.
Qed.

(** Storing argument [i]: its slot holds the value, the others are kept. *)
Lemma store_spec sig a a' i v ls : args_inv sig a → v ≠ [] →
  length v = match sig i with KValue k => k | KLocal => 8%nat end →
  store_arg i v ls a = Some a' →
  args_inv sig a' ∧ ParamSizes a' = <[i := length v]> (ParamSizes a) ∧
  ParamSizes a' !! i = Some (length v) ∧
  AlignedLocalMemSize a' = <[i := ls]> (AlignedLocalMemSize a) ∧
  OriginalLocalMemSize a' = OriginalLocalMemSize a ∧ WorkGroupMemory a' = WorkGroupMemory a ∧
  holds a' i v ∧
  ∀ j w, j ≠ i → ParamSizes a !! j = Some (length w) → w ≠ [] → holds a j w → holds a' j w.
Proof.
  intros Ha Hv Hsig E. unfold store_arg in E.
  apply bind_Some in E as (n & Hn & E). pose proof (lookup_lt_Some _ _ _ Hn) as Hi.
  destruct (Nat.eqb_spec n 0) as [->|Hn0].
  - apply bind_Some in E as (b & Hb & [= <-]). cbn [memcpy] in Hb.
    destruct (Nat.leb_spec (InsertPos a + length v) (length (Storage a))) as [Hcap|]; [|done].
    injection Hb as <-. cbn in *. pose proof Ha as [].
    assert (Hv0 : length v ≠ 0%nat) by by destruct v.
    split_and!; [|done|by rewrite list_lookup_insert_eq|done|done|done| |].
    + split; cbn; rewrite ?length_insert, ?length_inserts; try done.
      * rewrite last_lookup, length_insert. rewrite last_lookup, inv_ptrs0 in inv_last0.
        cbn in *. rewrite inv_ptrs0. cbn. by rewrite list_lookup_insert_ne by lia.
      * intros j m [(<- & -> & _)|(Hne & Hj)]%lookup_insert_cases Hm.
        -- exists (InsertPos a). rewrite list_lookup_insert_eq by lia. by split_and!.
        -- destruct (inv_slot0 j m Hj Hm) as (p & Hp & Hle & Hk).
           exists p. rewrite list_lookup_insert_ne by done. split_and!; [done|lia|done].
      * intros j k nj nk pj pk Hjk Hj Hnj Hpj Hk Hnk Hpk.
        apply lookup_insert_cases in Hj, Hpj, Hk, Hpk.
        destruct Hj as [(<- & -> & _)|(Hne & Hj)], Hk as [(<- & -> & _)|(Hne' & Hk)]; [done| | |].
        -- destruct Hpj as [(_ & [= ->] & _)|[]]; [|done]. destruct Hpk as [[]|(_ & Hpk)]; [done|].
           destruct (inv_slot0 k nk Hk Hnk) as (p & Hp & Hle & _). assert (p = pk) by congruence. lia.
        -- destruct Hpk as [(_ & [= ->] & _)|[]]; [|done]. destruct Hpj as [[]|(_ & Hpj)]; [done|].
           destruct (inv_slot0 j nj Hj Hnj) as (p & Hp & Hle & _). assert (p = pj) by congruence. lia.
        -- destruct Hpj as [[]|(_ & Hpj)]; [done|]. destruct Hpk as [[]|(_ & Hpk)]; [done|].
           by apply (inv_disjoint0 j k).
      * intros j s Hs. destruct (inv_sizes0 j s Hs) as [B C]. split; [done|]. intros Hs0.
        destruct (C Hs0) as [C1 C2]. split; [done|].
        rewrite list_lookup_insert_ne; [done|]. intros <-. congruence.
    + exists (InsertPos a). cbn. rewrite list_lookup_insert_eq by lia. split; [done|].
      intros j b Hj. pose proof (lookup_lt_Some _ _ _ Hj). rewrite list_lookup_inserts by lia.
      by replace (InsertPos a + j - InsertPos a)%nat with j by lia.
    + intros j w Hj Hw Hw0 (p & Hp & Hh). exists p. cbn. rewrite list_lookup_insert_ne by done.
      split; [done|]. intros m b Hm. pose proof (lookup_lt_Some _ _ _ Hm).
      destruct (inv_slot0 j _ Hw) as (p' & Hp' & Hle & _); [by destruct w|].
      assert (p' = p) as -> by congruence. rewrite list_lookup_inserts_lt by lia. by apply Hh.
  - destruct (inv_slot _ _ Ha i n Hn Hn0) as (pos & Hpos & _ & Hk).
    assert (n = length v) as -> by congruence.
    destruct (memcpy_slot sig a i v Ha Hn Hv) as (p & b & Hp & Hb & Hsh & Hal & Hh & Ho).
    rewrite Hp in E. cbn [mbind option_bind] in E. rewrite Hb in E. cbn [mbind option_bind] in E.
    injection E as <-.
    assert (Hsh' : same_shape a (set_aligned <[i:=ls]> b)).
    { eapply same_shape_trans; [done|]. apply set_aligned_shape. intros l. apply length_insert. }
    pose proof Hsh' as (E1 & E2 & E3 & E4 & E5 & _).
    split_and!; [by eapply same_shape_inv| |by rewrite E1|cbn; by rewrite Hal|done|done| |].
    + rewrite E1. by rewrite list_insert_id.
    + by eapply holds_same; [| |exact Hh].
    + intros j w Hj Hw Hw0 Hhj. eapply holds_same; [| |by eapply Ho]; done.
Qed.

(** ** Lemmas: local memory *)

(** The first [k] local arguments are laid out, and their slots hold the offsets. *)
Definition laid (a : arguments) (k : nat) : Prop :=
  take k (AlignedLocalMemSize a)
    = aligned_sizes (WorkGroupMemory a) (take k (OriginalLocalMemSize a)) ∧
  (∀ j s o, (j < k)%nat → OriginalLocalMemSize a !! j = Some s → s ≠ 0 →
    offsets (WorkGroupMemory a) (OriginalLocalMemSize a) !! j = Some o →
    holds a j (size_t_bytes o)) ∧
  ∀ j, OriginalLocalMemSize a !! j = Some 0 → AlignedLocalMemSize a !! j = Some 0.

Lemma take_take_le {A} (l : list A) k k' : (k' ≤ k)%nat → take k' (take k l) = take k' l.
Proof. intros H. by rewrite take_take, Nat.min_l. Qed.

Lemma aligned_take pos l k : take k (aligned_sizes pos l) = aligned_sizes pos (take k l).
Proof.
  revert pos k. induction l as [|s l IH]; intros pos [|k]; cbn; try done.
  destruct (s =? 0); cbn; by rewrite IH.
Qed.

Lemma offsets_take pos l k : take k (offsets pos l) = offsets pos (take k l).
Proof.
  revert pos k. induction l as [|s l IH]; intros pos [|k]; cbn; try done.
  destruct (s =? 0); cbn; by rewrite IH.
Qed.

Lemma offsets_prefix pos l l' k j : take k l = take k l' → (j < k)%nat →
  offsets pos l !! j = offsets pos l' !! j.
Proof.
  intros E Hj. rewrite <- (lookup_take_lt (offsets pos l) k) by done.
  rewrite <- (lookup_take_lt (offsets pos l') k) by done. by rewrite !offsets_take, E.
Qed.

Lemma laid_prefix a k k' : laid a k → (k' ≤ k)%nat → laid a k'.
Proof.
  intros (E & H & Z0) Hk. split_and!; [|intros; eapply H; eauto; lia|done].
  rewrite <- (take_take_le (AlignedLocalMemSize a) k k'), E by done.
  by rewrite aligned_take, take_take_le by done.
Qed.

Lemma original_nonneg sig a : args_inv sig a → Forall (λ s, 0 ≤ s) (OriginalLocalMemSize a).
Proof. intros Ha. apply Forall_lookup. intros i s Hs. by destruct (inv_sizes _ _ Ha i s Hs). Qed.

Lemma room_take l k : Forall (λ s, 0 ≤ s) l → room (take k l) ≤ room l.
Proof.
  intros H. rewrite <- (take_drop k l) at 2. rewrite room_app.
  pose proof (room_nonneg (drop k l) ltac:(by apply Forall_drop)). lia.
Qed.

(** The arithmetic of [calcAlignedLocalArgument]. *)
Lemma calc_spec wgm sizes aligned s : Forall (λ s, 0 ≤ s) sizes → 0 ≤ wgm → 0 < s →
  wgm + room sizes + s + 128 < 2 ^ 64 → aligned = aligned_sizes wgm sizes →
  let LocalOffset := accumulate wgm aligned in
  let Alignment := Z.min MaxAlignment s in
  let o := align_up (layout_end wgm sizes) Alignment in
  Alignment ≠ 0 ∧
  (if LocalOffset mod Alignment =? 0 then LocalOffset
   else w64 (LocalOffset + (Alignment - LocalOffset mod Alignment))) = o ∧
  w64 (s + w64 (o - LocalOffset)) = o + s - layout_end wgm sizes.
Proof.
  intros Hs Hw Hs0 Hf -> LocalOffset Alignment o.
  pose proof (layout_end_bounds wgm sizes Hs) as B.
  assert (E : LocalOffset = layout_end wgm sizes).
  { unfold LocalOffset. rewrite accumulate_total.
    - apply total_aligned.
    - by apply aligned_nonneg.
    - done.
    - rewrite total_aligned. lia. }
  rewrite E. pose proof (align_up_bounds (layout_end wgm sizes) s Hs0) as [B1 _].
  fold Alignment in B1. fold o in B1.
  assert (Ha : 0 < Alignment ≤ 128) by (unfold Alignment, MaxAlignment; lia).
  split; [lia|]. pose proof (align_up_code (layout_end wgm sizes) Alignment ltac:(lia)) as Ec.
  fold o in Ec. split.
  - destruct (_ =? 0); [done|]. rewrite Ec. apply w64_small. lia.
  - rewrite (w64_small (o - _)) by lia. rewrite w64_small by lia. lia.
Qed.

Lemma size_t_bytes_length v : length (size_t_bytes v) = 8%nat.
Proof. done. Qed.

Lemma size_t_bytes_ne v : size_t_bytes v ≠ [].
Proof. done. Qed.

Lemma fits_room a : fits a ↔ WorkGroupMemory a + room (OriginalLocalMemSize a) < 2 ^ 64.
Proof. done. Qed.

Lemma take_S_insert {A} (l : list A) k x : (k < length l)%nat → take (S k) (<[k := x]> l) = take k l ++ [x].
Proof.
  intros Hk. rewrite (take_S_r _ _ x) by by rewrite list_lookup_insert_eq.
  by rewrite take_insert_ge by lia.
Qed.

(** Laying out one more argument. *)
Lemma laid_step sig a b k s o : args_inv sig a → laid a k → (k < length (ParamSizes a))%nat →
  OriginalLocalMemSize a !! k = Some s →
  o = align_up (layout_end (WorkGroupMemory a) (take k (OriginalLocalMemSize a))) (Z.min MaxAlignment s) →
  OriginalLocalMemSize b = OriginalLocalMemSize a → WorkGroupMemory b = WorkGroupMemory a →
  AlignedLocalMemSize b = <[k := if s =? 0 then 0
      else o + s - layout_end (WorkGroupMemory a) (take k (OriginalLocalMemSize a))]>
      (AlignedLocalMemSize a) →
  (s ≠ 0 → holds b k (size_t_bytes o)) →
  (∀ j v, (j < k)%nat → ParamSizes a !! j = Some (length v) → v ≠ [] → holds a j v → holds b j v) →
  laid b (S k).
Proof.
  intros Ha (E & H & Z0) Hk Hs Eo E1 E2 E3 Hh Ho.
  assert (Hal : (k < length (AlignedLocalMemSize a))%nat) by (rewrite (inv_aligned _ _ Ha); lia).
  split_and!.
  - rewrite E3, E1, E2, take_S_insert, E by done. rewrite (take_S_r _ _ s) by done.
    rewrite aligned_app. f_equal. cbn. destruct (s =? 0); [done|]. by rewrite <- Eo.
  - rewrite E1, E2. intros j s' o' Hj Hs' Hs0 Ho'. destruct (decide (j = k)) as [->|Hne].
    + assert (s' = s) as -> by congruence.
      rewrite (offsets_prefix _ _ (take (S k) (OriginalLocalMemSize a)) (S k)) in Ho'
        by (rewrite ?take_take_le; done || lia).
      rewrite (take_S_r _ _ s) in Ho' by done.
      assert (Hlen : length (take k (OriginalLocalMemSize a)) = k).
      { rewrite length_take. rewrite (inv_original _ _ Ha). lia. }
      rewrite offsets_app, lookup_app_r in Ho' by (rewrite length_offsets; lia).
      rewrite length_offsets, Hlen, Nat.sub_diag in Ho'. cbn in Ho'.
      rewrite (proj2 (Z.eqb_neq s 0)) in Ho' by done. cbn in Ho'. injection Ho' as <-.
      rewrite <- Eo. by apply Hh.
    + apply Ho; [lia| |apply size_t_bytes_ne|eapply H; eauto; lia].
      rewrite size_t_bytes_length. destruct (inv_sizes _ _ Ha j s' Hs') as [_ C]. by apply C.
  - rewrite E1, E3. intros j Hj. destruct (decide (j = k)) as [->|Hne].
    + assert (s = 0) as -> by congruence. by rewrite list_lookup_insert_eq.
    + rewrite list_lookup_insert_ne by done. by apply Z0.
Qed.

(** The loop lays out the rest and touches no value. *)
Lemma update_spec sig n k a : args_inv sig a → laid a k → fits a →
  (k + n)%nat = length (ParamSizes a) →
  ∃ a', update_loop n k a = Some a' ∧ same_shape a a' ∧ laid a' (k + n) ∧
    ∀ j v, OriginalLocalMemSize a !! j = Some 0 → ParamSizes a !! j = Some (length v) → v ≠ [] →
      holds a j v → holds a' j v.
Proof.
  revert k a. induction n as [|n IH]; intros k a Ha Hl Hf Hn.
  { exists a. rewrite Nat.add_0_r. split_and!; try done. }
  cbn [update_loop]. pose proof (original_nonneg _ _ Ha) as Hnn.
  destruct (lookup_lt_is_Some_2 (OriginalLocalMemSize a) k) as [s Hs];
    [rewrite (inv_original _ _ Ha); lia|].
  rewrite Hs. cbn [mbind option_bind]. destruct (inv_sizes _ _ Ha k s Hs) as [Hs0 HsK].
  destruct (Z.eqb_spec s 0) as [->|Hne].
  - replace (k + S n)%nat with (S k + n)%nat in * by lia.
    apply IH; [done| |done|done].
    eapply (laid_step sig a a k 0); try done; [lia|]. cbn. rewrite list_insert_id; [done|].
    by apply Hl.
  - set (o := align_up (layout_end (WorkGroupMemory a) (take k (OriginalLocalMemSize a)))
      (Z.min MaxAlignment s)).
    destruct (calc_spec (WorkGroupMemory a) (take k (OriginalLocalMemSize a))
      (take k (AlignedLocalMemSize a)) s) as (C1 & C2 & C3).
    { by apply Forall_take. }
    { by apply (inv_memory sig). }
    { lia. }
    { apply (proj1 (fits_room a)) in Hf. rewrite <- (take_drop_middle (OriginalLocalMemSize a) k s Hs) in Hf.
      rewrite room_app in Hf. cbn in Hf. fold (room (drop (S k) (OriginalLocalMemSize a))) in Hf.
      pose proof (room_nonneg (drop (S k) (OriginalLocalMemSize a)) ltac:(by apply Forall_drop)). lia. }
    { apply Hl. }
    fold o in C2, C3.
    assert (Ecalc : calcAlignedLocalArgument k s a
      = Some (a, o + s - layout_end (WorkGroupMemory a) (take k (OriginalLocalMemSize a)), o)).
    { unfold calcAlignedLocalArgument. rewrite (inv_ptrs _ _ Ha).
      rewrite (proj2 (Nat.ltb_ge _ _)) by lia.
      rewrite (inv_original _ _ Ha), (proj2 (Nat.leb_gt _ _)) by lia.
      assert (Eid : set_original <[k := s]> a = a).
      { unfold set_original. rewrite list_insert_id by done. by destruct a. }
      rewrite Eid. rewrite (proj2 (Z.eqb_neq _ 0)) by done. by rewrite C2, C3. }
    rewrite Ecalc. cbn [mbind option_bind].
    set (b := set_aligned _ a).
    assert (Hb : same_shape a b) by (apply set_aligned_shape; intros l; apply length_insert).
    destruct (memcpy_slot sig b k (size_t_bytes o)) as (p & c & Hp & Hc & Hsh & Hal & Hh & Ho).
    { by eapply same_shape_inv. }
    { rewrite size_t_bytes_length. by apply HsK. }
    { apply size_t_bytes_ne. }
    rewrite Hp. cbn [mbind option_bind]. rewrite Hc. cbn [mbind option_bind].
    assert (Hac : same_shape a c) by by eapply same_shape_trans.
    pose proof Hac as (F1 & F2 & F3 & F4 & F5 & _).
    destruct (IH (S k) c) as (a' & E & Hsh' & Hla & Hv).
    { by eapply same_shape_inv. }
    { eapply (laid_step sig a c k s o); try done; [lia| |].
      - rewrite Hal. by rewrite (proj2 (Z.eqb_neq s 0)).
      - intros j v Hj Hpj Hv Hhj. apply Ho; [lia|done|done|]. by eapply holds_same; [| |exact Hhj]. }
    { apply (proj2 (fits_room c)). rewrite F4, F5. by apply (proj1 (fits_room a)). }
    { rewrite F1. lia. }
    exists a'. replace (k + S n)%nat with (S k + n)%nat by lia.
    split_and!; [done|by eapply same_shape_trans|done|].
    intros j v Hj Hpj Hv0 Hhj. apply Hv; [by rewrite F4|by rewrite F1|done|].
    apply Ho; [intros ->; congruence|done|done|]. by eapply holds_same; [| |exact Hhj].
Qed.

(** ** Lemmas: the operations *)

Definition orig (a : arguments) (i : nat) : Z := default 0 (OriginalLocalMemSize a !! i).

Lemma aligned_zeros pos m : aligned_sizes pos (replicate m 0) = replicate m 0.
Proof. induction m as [|m IH]; cbn; [done|]. by rewrite IH. Qed.

Lemma expand_laid sig a i : args_inv sig a → laid a (length (ParamSizes a)) →
  laid (expand i a) (length (ParamSizes (expand i a))).
Proof.
  intros Ha Hl. pose proof Ha as []. pose proof Hl as (E & H & Z0).
  destruct (expand_inv sig a i Ha) as (He & Hi & Hold & Hnew & Hst & Hip & Hw).
  split_and!.
  - rewrite <- (inv_aligned _ _ He) at 1. rewrite firstn_all.
    rewrite <- (inv_original _ _ He) at 1. rewrite firstn_all. rewrite Hw.
    rewrite <- inv_aligned0 in E at 1. rewrite <- inv_original0 in E at 1. rewrite !firstn_all in E.
    unfold expand. destruct (Nat.ltb_spec (length (ArgPointers a)) (i + 2)) as [Hlt|]; [|done]. cbn.
    rewrite !resize_ge by lia. rewrite aligned_app, aligned_zeros, <- E, inv_aligned0, inv_original0. done.
  - intros j s o Hj Hs Hs0 Ho. destruct (ParamSizes a !! j) as [m|] eqn:Em.
    + destruct (Hold j m Em) as (_ & E2 & _ & E4). rewrite E4 in Hs.
      eapply holds_same; [done|exact E2|]. apply (H j s o); [by eapply lookup_lt_Some|done|done|].
      rewrite <- Ho, Hw. apply (offsets_prefix _ _ _ (S j)); [|lia].
      apply list_eq. intros k. destruct (decide (k < S j)%nat) as [Hk|Hk].
      * rewrite !lookup_take_lt by lia. pose proof (lookup_lt_Some _ _ _ Em).
        destruct (lookup_lt_is_Some_2 (ParamSizes a) k) as [mk Hmk]; [lia|].
        by destruct (Hold k mk Hmk) as (_ & _ & _ & ->).
      * by rewrite !lookup_take_ge by lia.
    + destruct (lookup_lt_is_Some_2 (ParamSizes (expand i a)) j Hj) as [m Hm].
      destruct (Hnew j m Em Hm) as (_ & E4 & _). congruence.
  - intros j Hj. destruct (ParamSizes a !! j) as [m|] eqn:Em.
    + destruct (Hold j m Em) as (_ & _ & E3 & E4). rewrite E3. apply Z0. by rewrite <- E4.
    + pose proof (lookup_lt_Some _ _ _ Hj) as Hjl. rewrite (inv_original _ _ He) in Hjl.
      destruct (lookup_lt_is_Some_2 (ParamSizes (expand i a)) j Hjl) as [m Hm].
      by destruct (Hnew j m Em Hm) as (_ & _ & ->).
Qed.

Lemma expand_holds sig a i j v : args_inv sig a → ParamSizes a !! j = Some (length v) →
  holds a j v → holds (expand i a) j v.
Proof.
  intros Ha Hj. destruct (expand_inv sig a i Ha) as (_ & _ & Hold & _ & Hst & _).
  apply holds_same; [done|]. by destruct (Hold j _ Hj) as (_ & -> & _).
Qed.

Lemma expand_orig sig a i j : args_inv sig a → orig (expand i a) j = orig a j.
Proof.
  intros Ha. destruct (expand_inv sig a i Ha) as (He & _ & Hold & Hnew & _). unfold orig.
  destruct (ParamSizes a !! j) as [m|] eqn:Em; [by destruct (Hold j m Em) as (_ & _ & _ & ->)|].
  assert (OriginalLocalMemSize a !! j = None) as ->.
  { apply lookup_ge_None. rewrite (inv_original _ _ Ha). by apply lookup_ge_None. }
  destruct (ParamSizes (expand i a) !! j) as [m|] eqn:Em'; [by destruct (Hnew j m Em Em') as (_ & -> & _)|].
  assert (OriginalLocalMemSize (expand i a) !! j = None) as ->; [|done].
  apply lookup_ge_None. rewrite (inv_original _ _ He). by apply lookup_ge_None.
Qed.

(** Setting a value. *)
Lemma set_value_spec sig a a' i v : args_inv sig a → laid a (length (ParamSizes a)) →
  v ≠ [] → sig i = KValue (length v) → addArg i v 0 a = Some a' →
  args_inv sig a' ∧ laid a' (length (ParamSizes a')) ∧ WorkGroupMemory a' = WorkGroupMemory a ∧
  ParamSizes a' !! i = Some (length v) ∧ holds a' i v ∧ (∀ j, orig a' j = orig a j) ∧
  ∀ j w, j ≠ i → ParamSizes a !! j = Some (length w) → w ≠ [] → holds a j w →
    ParamSizes a' !! j = Some (length w) ∧ holds a' j w.
Proof.
  intros Ha Hl Hv Hsig E. unfold addArg in E.
  destruct (expand_inv sig a i Ha) as (He & Hi & Hold & Hnew & Hst & Hip & Hw).
  pose proof (expand_laid sig a i Ha Hl) as Hle.
  destruct (store_spec sig (expand i a) a' i v 0 He Hv) as (Ha' & P1 & P2 & P3 & P4 & P5 & P6 & P7);
    [by rewrite Hsig|done|].
  assert (Hz : OriginalLocalMemSize (expand i a) !! i = Some 0).
  { destruct (lookup_lt_is_Some_2 (OriginalLocalMemSize (expand i a)) i) as [s Hs];
      [by rewrite (inv_original _ _ He)|].
    destruct (inv_sizes _ _ He i s Hs) as [_ C]. destruct (decide (s = 0)) as [->|Hs0]; [done|].
    destruct (C Hs0). congruence. }
  assert (Hal : AlignedLocalMemSize a' = AlignedLocalMemSize (expand i a)).
  { rewrite P3. apply list_insert_id. by apply Hle. }
  split_and!; [done| |by rewrite P5|done|done| |].
  - rewrite P1, length_insert. destruct Hle as (E1 & E2 & E3). split_and!; [by rewrite Hal, P4, P5| |by rewrite Hal, P4].
    rewrite P4, P5. intros j s o Hj Hs Hs0 Ho. apply P7; [intros ->; congruence| |apply size_t_bytes_ne|by eapply E2].
    rewrite size_t_bytes_length. destruct (inv_sizes _ _ He j s Hs) as [_ C]. by apply C.
  - intros j. unfold orig. rewrite P4. by apply (expand_orig sig).
  - intros j w Hj Hjw Hw0 Hh. destruct (Hold j _ Hjw) as (Hw' & _). split.
    + rewrite P1. by rewrite list_lookup_insert_ne.
    + apply P7; [done|done|done|]. by eapply expand_holds.
Qed.

(** Changing the work-group memory. *)
Lemma set_memory_spec sig a a' n : args_inv sig a → laid a (length (ParamSizes a)) → 0 ≤ n →
  fits_after (SetWorkGroupMemory n) a → setWorkGroupMemory n a = Some a' →
  args_inv sig a' ∧ laid a' (length (ParamSizes a')) ∧ WorkGroupMemory a' = n ∧
  (∀ j, orig a' j = orig a j) ∧
  ∀ j w, sig j = KValue (length w) → ParamSizes a !! j = Some (length w) → w ≠ [] → holds a j w →
    ParamSizes a' !! j = Some (length w) ∧ holds a' j w.
Proof.
  intros Ha Hl Hn Hf E. unfold setWorkGroupMemory in E.
  destruct (Z.eqb_spec (WorkGroupMemory a) n) as [<-|Hne]; [injection E as <-; done|].
  unfold updateLocalArgOffset in E. set (b := mkArgs _ _ _ _ _ _ n _) in E.
  assert (Hb : args_inv sig b) by (destruct Ha; by split).
  destruct (update_spec sig (length (ParamSizes b)) 0 b Hb) as (c & Ec & Hsh & Hlc & Hv).
  - split_and!; [done|lia|apply Hl].
  - done.
  - done.
  - cbn in E. rewrite (inv_ptrs _ _ Ha) in E. cbn in E. rewrite !Nat.sub_0_r in E.
    cbn in Ec. rewrite Ec in E. injection E as <-.
    pose proof Hsh as (F1 & F2 & F3 & F4 & F5 & _).
    split_and!; [by eapply same_shape_inv|by rewrite F1|done| |].
    + intros j. unfold orig. by rewrite F4.
    + intros j w Hs Hw Hw0 Hh. split; [by rewrite F1|].
      apply Hv; [|done|done|by eapply holds_same; [| |exact Hh]].
      destruct (lookup_lt_is_Some_2 (OriginalLocalMemSize a) j) as [s Hj].
      { rewrite (inv_original _ _ Ha). by eapply lookup_lt_Some. }
      cbn. rewrite Hj. f_equal. destruct (decide (s = 0)) as [|Hs0]; [done|].
      destruct (inv_sizes _ _ Ha j s Hj) as [_ C]. destruct (C Hs0). congruence.
Qed.

Lemma resize_same {A} (l : list A) x n : length l = n → resize n x l = l.
Proof. intros <-. apply resize_all. Qed.

(** [calcAlignedLocalArgument] before the growth gives what it gives after. *)
Lemma calc_result sig a i s : args_inv sig a → laid a (length (ParamSizes a)) → 0 < s →
  fits (set_original <[i := s]> (expand i a)) →
  let e := expand i a in
  let p := layout_end (WorkGroupMemory a) (take i (OriginalLocalMemSize e)) in
  let o := align_up p (Z.min MaxAlignment s) in
  ∃ a0, calcAlignedLocalArgument i s a = Some (a0, o + s - p, o)
    ∧ expand i a0 = set_original <[i := s]> e.
Proof.
  intros Ha Hl Hs Hf e p o.
  destruct (expand_inv sig a i Ha) as (He & Hi & _ & _ & _ & _ & Hw). fold e in He, Hi, Hw, Hf.
  pose proof (expand_laid sig a i Ha Hl) as Hle. fold e in Hle.
  pose proof (original_nonneg _ _ He) as Hnn.
  set (r := if (length (ArgPointers a) <? i + 2)%nat
    then set_original (resize (i + 1) 0) (set_aligned (resize (i + 1) 0) a) else a).
  assert (Hr : AlignedLocalMemSize r = AlignedLocalMemSize e ∧ OriginalLocalMemSize r = OriginalLocalMemSize e
    ∧ WorkGroupMemory r = WorkGroupMemory a).
  { unfold r, e, expand. by destruct (_ <? _)%nat. }
  destruct Hr as (R1 & R2 & R3).
  destruct (calc_spec (WorkGroupMemory a) (take i (OriginalLocalMemSize e))
    (take i (AlignedLocalMemSize e)) s) as (C1 & C2 & C3).
  - by apply Forall_take.
  - by apply (inv_memory sig).
  - done.
  - apply (proj1 (fits_room _)) in Hf. cbn [set_original OriginalLocalMemSize WorkGroupMemory] in Hf.
    rewrite insert_take_drop, room_app in Hf by (rewrite (inv_original _ _ He); lia). cbn in Hf.
    fold (room (drop (S i) (OriginalLocalMemSize e))) in Hf.
    pose proof (room_nonneg (drop (S i) (OriginalLocalMemSize e)) ltac:(by apply Forall_drop)).
    rewrite Hw in Hf. lia.
  - rewrite <- Hw. apply (laid_prefix e _ i) in Hle; [|lia]. apply Hle.
  - fold p o in C2, C3. exists (set_original <[i := s]> r). split.
    + unfold calcAlignedLocalArgument. fold r.
      rewrite (proj2 (Nat.leb_gt _ _)) by (rewrite R2, (inv_original _ _ He); lia).
      cbn [set_original AlignedLocalMemSize WorkGroupMemory].
      change (WorkGroupMemory (set_original <[i:=s]> r)) with (WorkGroupMemory r).
      change (AlignedLocalMemSize (set_original <[i:=s]> r)) with (AlignedLocalMemSize r).
      rewrite R1, R3, (proj2 (Z.eqb_neq _ 0)) by done. by rewrite C2, C3.
    + unfold e, expand. change (ArgPointers (set_original <[i:=s]> r)) with (ArgPointers r).
      unfold r. destruct (Nat.ltb_spec (length (ArgPointers a)) (i + 2)) as [Hlt|Hge].
      * cbn. rewrite (proj2 (Nat.ltb_lt _ _)) by done. unfold set_original; cbn.
        rewrite (resize_same (resize _ _ (AlignedLocalMemSize a))) by apply length_resize.
        rewrite (resize_same (<[i:=s]> _)) by (rewrite length_insert; apply length_resize). done.
      * by rewrite (proj2 (Nat.ltb_ge _ _)) by lia.
Qed.

Lemma store_set_original i v ls f a :
  store_arg i v ls (set_original f a) = set_original f <$> store_arg i v ls a.
Proof.
  unfold store_arg. cbn. destruct (ParamSizes a !! i) as [n|]; [|done]. cbn.
  destruct (n =? 0)%nat; cbn.
  - by destruct (_ <=? _)%nat.
  - destruct (ArgPointers a !! i) as [[pos|]|]; cbn; [|by destruct (_ <=? _)%nat|done].
    by destruct (_ <=? _)%nat.
Qed.

(** Setting a local argument. *)
Lemma set_local_spec sig a a' i s : args_inv sig a → laid a (length (ParamSizes a)) → 0 < s →
  sig i = KLocal → fits_after (SetLocal i s) a → addLocalArg i s a = Some a' →
  args_inv sig a' ∧ laid a' (length (ParamSizes a')) ∧ WorkGroupMemory a' = WorkGroupMemory a ∧
  (∀ j, orig a' j = if decide (i = j) then s else orig a j) ∧
  ∀ j w, sig j = KValue (length w) → ParamSizes a !! j = Some (length w) → w ≠ [] → holds a j w →
    ParamSizes a' !! j = Some (length w) ∧ holds a' j w.
Proof.
  intros Ha Hl Hs Hsig Hf E. unfold addLocalArg in E.
  destruct (calc_result sig a i s Ha Hl Hs Hf) as (a0 & Ec & Ee). rewrite Ec in E.
  cbn [mbind option_bind] in E. unfold addArg in E. rewrite Ee, store_set_original in E.
  destruct (expand_inv sig a i Ha) as (He & Hi & Hold & _ & _ & _ & Hw).
  pose proof (expand_laid sig a i Ha Hl) as Hle.
  set (e := expand i a) in *.
  set (p := layout_end (WorkGroupMemory a) (take i (OriginalLocalMemSize e))) in *.
  set (o := align_up p (Z.min MaxAlignment s)) in *.
  apply bind_Some in E as (c2 & Hc2 & E). apply fmap_Some in Hc2 as (c & Hc & ->).
  destruct (store_spec sig e c i (size_t_bytes o) (o + s - p) He) as (Hci & P1 & P2 & P3 & P4 & P5 & P6 & P7);
    [apply size_t_bytes_ne|by rewrite Hsig|done|].
  rewrite size_t_bytes_length in P1, P2.
  set (b := set_original <[i := s]> c) in *.
  assert (Hb : args_inv sig b).
  { destruct Hci. split; try done.
    - cbn. by rewrite length_insert.
    - cbn. intros j sj [(<- & -> & _)|(Hne & Hj)]%lookup_insert_cases; [|by apply inv_sizes0].
      split; [lia|done]. }
  assert (Hbo : OriginalLocalMemSize b = <[i:=s]> (OriginalLocalMemSize e)) by (cbn; by rewrite P4).
  assert (Hti : take i (OriginalLocalMemSize b) = take i (OriginalLocalMemSize e)).
  { rewrite Hbo. by rewrite take_insert_ge by lia. }
  set (x := set_aligned (λ _, AlignedLocalMemSize e) b).
  assert (Hx : args_inv sig x).
  { eapply same_shape_inv; [exact Hb|]. unfold same_shape. split_and!; try done.
    change (AlignedLocalMemSize x) with (AlignedLocalMemSize e).
    change (AlignedLocalMemSize b) with (AlignedLocalMemSize c). by rewrite P3, length_insert. }
  destruct (laid_prefix e _ i Hle) as (L1 & L2 & L3); [lia|].
  assert (Hlx : laid x i).
  { split_and!; cbn.
    - change (take i (AlignedLocalMemSize e) = aligned_sizes (WorkGroupMemory c) (take i (OriginalLocalMemSize b))).
      by rewrite Hti, P5.
    - change (<[i:=s]> (OriginalLocalMemSize c)) with (OriginalLocalMemSize b).
      intros j sj oj Hj Hsj Hs0 Hoj. rewrite Hbo, list_lookup_insert_ne in Hsj by lia.
      rewrite (offsets_prefix _ _ (OriginalLocalMemSize e) i) in Hoj by done.
      rewrite P5 in Hoj. apply (holds_same c); [done..|].
      apply P7; [lia| |apply size_t_bytes_ne|by eapply L2].
      rewrite size_t_bytes_length. destruct (inv_sizes _ _ He j sj Hsj) as [_ C]. by apply C.
    - intros j [(_ & Hz & _)|(_ & Hj)]%lookup_insert_cases; [lia|]. rewrite P4 in Hj. by apply L3. }
  assert (Hlen : length (ParamSizes b) = length (ParamSizes e)) by (cbn; by rewrite P1, length_insert).
  assert (Hlb : laid b (S i)).
  { eapply (laid_step sig x b i s o); try done.
    - cbn. change (ParamSizes c) with (ParamSizes b). lia.
    - change (OriginalLocalMemSize x) with (OriginalLocalMemSize b). rewrite Hbo.
      rewrite list_lookup_insert_eq; [done|]. rewrite (inv_original _ _ He). lia.
    - change (OriginalLocalMemSize x) with (OriginalLocalMemSize b). rewrite Hti. cbn. by rewrite P5, Hw.
    - change (OriginalLocalMemSize x) with (OriginalLocalMemSize b). rewrite Hti.
      rewrite (proj2 (Z.eqb_neq s 0)) by lia. cbn. rewrite P3, P5, Hw. done. }
  unfold updateLocalArgOffset in E.
  destruct (update_spec sig (length (ParamSizes b) - S i) (S i) b Hb Hlb) as (d & Ed & Hsh & Hld & Hv).
  - apply (proj2 (fits_room b)). apply (proj1 (fits_room _)) in Hf.
    change (WorkGroupMemory b) with (WorkGroupMemory c). rewrite Hbo, P5. exact Hf.
  - lia.
  - rewrite (inv_ptrs _ _ Hb) in E.
    replace (S (length (ParamSizes b)) - 1 - (i + 1))%nat with (length (ParamSizes b) - S i)%nat in E by lia.
    replace (i + 1)%nat with (S i) in E by lia. rewrite Ed in E. injection E as <-.
    pose proof Hsh as (F1 & F2 & F3 & F4 & F5 & _).
    replace (S i + (length (ParamSizes b) - S i))%nat with (length (ParamSizes b)) in Hld by lia.
    split_and!; [exact (same_shape_inv sig b d Hb Hsh)|by rewrite F1| | |].
    + rewrite F5. change (WorkGroupMemory b) with (WorkGroupMemory c). by rewrite P5.
    + intros j. unfold orig at 1. rewrite F4, Hbo. case_decide as Hij.
      * subst j. rewrite list_lookup_insert_eq; [done|]. rewrite (inv_original _ _ He). lia.
      * rewrite list_lookup_insert_ne by done. apply (expand_orig sig a i j Ha).
    + intros j w Hjs Hjw Hw0 Hh. assert (Hji : j ≠ i) by (intros ->; congruence).
      destruct (Hold j _ Hjw) as (Hjw' & _).
      assert (Hpb : ParamSizes b !! j = Some (length w)) by (cbn; rewrite P1; by rewrite list_lookup_insert_ne).
      split; [by rewrite F1|]. apply Hv; [|done|done|].
      * destruct (lookup_lt_is_Some_2 (OriginalLocalMemSize b) j) as [sj Hj].
        { rewrite (inv_original _ _ Hb). by eapply lookup_lt_Some. }
        rewrite Hj. f_equal. destruct (decide (sj = 0)) as [|Hs0]; [done|].
        destruct (inv_sizes _ _ Hb j sj Hj) as [_ C]. destruct (C Hs0). congruence.
      * apply (holds_same c); [done..|]. apply P7; [done|done|done|]. by eapply expand_holds.
Qed.

Record run_inv (sig : nat → kind) (ops : list arg_op) (a : arguments) : Prop := mkRunInv {
  ri_args : args_inv sig a;
  ri_laid : laid a (length (ParamSizes a));
  ri_memory : WorkGroupMemory a = last_memory ops;
  ri_local : ∀ i, orig a i = last_local ops i;
  ri_value : ∀ i v, last_value ops i = Some v →
    v ≠ [] ∧ sig i = KValue (length v) ∧ ParamSizes a !! i = Some (length v) ∧ holds a i v
}.

Lemma new_args_inv sig : args_inv sig new_arguments.
Proof. split; cbn; try done; try lia; by intros [|]. Qed.

Lemma run_run_inv sig ops a : arg_run sig ops a → run_inv sig ops a.
Proof.
  induction 1 as [|ops op a a' _ [Ha Hl Hm Ho Hv] Hok Hf E].
  - split; [apply new_args_inv| |done|by intros [|]|done].
    split_and!; [done|intros; cbn in *; lia|by intros [|]].
  - unfold run_op in E. destruct op as [i v|i s|n]; cbn [op_ok] in Hok.
    + destruct Hok as [Hv0 Hsig]. unfold urKernelSetArgValue in E.
      assert (length v ≠ 0%nat) as Hlv by by destruct v. rewrite (proj2 (Nat.eqb_neq _ 0)) in E by done.
      rewrite <- option_fmap_compose in E. cbn in E. rewrite option_fmap_id in E.
      destruct (set_value_spec sig a a' i v Ha Hl Hv0 Hsig E) as (H1 & H2 & H3 & H4 & H5 & H6 & H7).
      split; [done|done| | |].
      * rewrite H3, Hm. unfold last_memory. by rewrite fold_left_app.
      * intros j. rewrite H6, Ho. unfold last_local. by rewrite fold_left_app.
      * intros j w. unfold last_value. rewrite fold_left_app. cbn. case_decide as Hij.
        -- intros [= <-]. subst j. done.
        -- intros Hw. destruct (Hv j w Hw) as (Hw0 & Hws & Hwp & Hwh).
           destruct (H7 j w) as [? ?]; [by intros ->|done..].
    + destruct Hok as [Hs Hsig]. unfold urKernelSetArgLocal in E. rewrite (proj2 (Z.eqb_neq s 0)) in E by lia.
      rewrite <- option_fmap_compose in E. cbn in E. rewrite option_fmap_id in E.
      destruct (set_local_spec sig a a' i s Ha Hl Hs Hsig Hf E) as (H1 & H2 & H3 & H4 & H5).
      split; [done|done| | |].
      * rewrite H3, Hm. unfold last_memory. by rewrite fold_left_app.
      * intros j. rewrite H4. unfold last_local. rewrite fold_left_app. cbn. case_decide; [done|apply Ho].
      * intros j w. unfold last_value. rewrite fold_left_app. cbn. intros Hw.
        destruct (Hv j w Hw) as (Hw0 & Hws & Hwp & Hwh). by destruct (H5 j w).
    + destruct (set_memory_spec sig a a' n Ha Hl Hok Hf E) as (H1 & H2 & H3 & H4 & H5).
      split; [done|done| | |].
      * rewrite H3. unfold last_memory. by rewrite fold_left_app.
      * intros j. rewrite H4, Ho. unfold last_local. by rewrite fold_left_app.
      * intros j w. unfold last_value. rewrite fold_left_app. cbn. intros Hw.
        destruct (Hv j w Hw) as (Hw0 & Hws & Hwp & Hwh). by destruct (H5 j w).
Qed.

(** ** Theorems *)

(** C29: After any sequence of settings of a kernel's value and local parameters and of its
    work-group memory, where each parameter keeps its kind and size, every value
    parameter shows the bytes set last, and the local parameters show the offsets of a
    layout in which each region starts at a multiple of its size (128 at most), behind
    the work-group memory, after all regions of lower parameters and inside
    [getLocalSize()].  Assumed: the sizes do not overflow 64 bits, and no write leaves
    the 4000 bytes of storage. *)
Theorem kernel_arguments_laid_out sig ops a :
  arg_run sig ops a →
  let wgm := last_memory ops in
  let sizes := last_local ops <$> seq 0 (length (ParamSizes a)) in
  (∀ i v, last_value ops i = Some v → holds a i v) ∧
  (∀ i s, last_local ops i = s → s ≠ 0 → ∃ o,
     offsets wgm sizes !! i = Some o ∧ holds a i (size_t_bytes o) ∧
     o mod Z.min MaxAlignment s = 0 ∧ wgm ≤ o ∧ o + s ≤ layout_end wgm sizes ∧
     ∀ j o', (i < j)%nat → last_local ops j ≠ 0 → offsets wgm sizes !! j = Some o' → o + s ≤ o') ∧
  getLocalSize a = w32 (layout_end wgm sizes).
Proof.
  intros Hrun wgm sizes. destruct (run_run_inv sig ops a Hrun) as [Ha Hl Hm Ho Hv].
  assert (Hsz : OriginalLocalMemSize a = sizes).
  { apply list_eq. intros i. unfold sizes. rewrite list_lookup_fmap.
    destruct (decide (i < length (ParamSizes a))%nat) as [Hi|Hi].
    - rewrite lookup_seq_lt by done. cbn. rewrite <- Ho. unfold orig.
      destruct (lookup_lt_is_Some_2 (OriginalLocalMemSize a) i) as [s ->]; [|done].
      by rewrite (inv_original _ _ Ha).
    - rewrite lookup_seq_ge by lia. cbn. apply lookup_ge_None. rewrite (inv_original _ _ Ha). lia. }
  assert (Hat : ∀ i, last_local ops i ≠ 0 → sizes !! i = Some (last_local ops i)).
  { intros i Hi. rewrite <- Hsz. rewrite <- Ho in Hi |- *. unfold orig in *.
    by destruct (OriginalLocalMemSize a !! i). }
  pose proof (original_nonneg _ _ Ha) as Hnn. rewrite Hsz in Hnn.
  split_and!.
  - intros i v Hi. by destruct (Hv i v Hi) as (_ & _ & _ & ?).
  - intros i s <- Hs. pose proof (Hat i Hs) as Hi. pose proof (lookup_lt_Some _ _ _ Hi) as Hlen.
    destruct (lookup_lt_is_Some_2 (offsets wgm sizes) i) as [o Hoi]; [by rewrite length_offsets|].
    exists o. destruct (offsets_spec wgm sizes i _ o Hnn Hi Hs Hoi) as (D1 & D2 & D3 & D4).
    split_and!; try done.
    + destruct Hl as (_ & Hh & _). apply (Hh i (last_local ops i)); [|by rewrite Hsz|done|by rewrite Hm, Hsz].
      rewrite <- (inv_original _ _ Ha), Hsz. done.
    + intros j o' Hj Hjs Ho'. by eapply D4; [|apply Hat| |].
  - unfold getLocalSize. destruct Hl as (E & _ & _).
    rewrite <- (inv_aligned _ _ Ha) in E at 1. rewrite <- (inv_original _ _ Ha) in E at 1.
    rewrite !firstn_all in E. unfold w32 at 1 3. rewrite <- Zplus_mod_idemp_l, sum_int, Zplus_mod_idemp_l.
    fold wgm in Hm. rewrite E, Hm, Hsz, <- total_aligned. f_equal. lia.
Qed.

Definition test_sig (i : nat) : kind := match i with 1%nat => KValue 4 | _ => KLocal end.
Definition test_ops : list arg_op :=
  [SetLocal 2 16; SetValue 1 [7; 7; 7; 7]; SetLocal 0 12; SetWorkGroupMemory 100; SetValue 1 [1; 2; 3; 4]].

Ltac build_run :=
  first [apply run_new
        |eapply run_step; [build_run|first [by split|vm_compute; discriminate]|by vm_compute|vm_compute; reflexivity]].

Lemma test_run : ∃ a, arg_run test_sig test_ops a ∧ getLocalSize a = 144.
Proof.
  eexists. split.
  - unfold test_ops.
    change [SetLocal 2 16; SetValue 1 [7; 7; 7; 7]; SetLocal 0 12; SetWorkGroupMemory 100; SetValue 1 [1; 2; 3; 4]]
      with ((((([] ++ [SetLocal 2 16]) ++ [SetValue 1 [7; 7; 7; 7]]) ++ [SetLocal 0 12])
        ++ [SetWorkGroupMemory 100]) ++ [SetValue 1 [1; 2; 3; 4]]).
    build_run.
  - vm_compute. reflexivity.
Defined.

Lemma kernel_arguments_laid_out_witness :
  ∃ a, arg_run test_sig test_ops a ∧ getLocalSize a = w32 (layout_end 100 [12; 0; 16])
    ∧ holds a 1 [1; 2; 3; 4].
Proof.
  destruct test_run as (a & Hrun & Hsize). exists a. split; [exact Hrun|].
  pose proof (kernel_arguments_laid_out test_sig test_ops a Hrun) as (H1 & _ & _).
  split; [rewrite Hsize; vm_compute; reflexivity|]. apply H1. vm_compute. reflexivity.
Defined.

(** The size of the storage is not checked. *)
Lemma storage_overflow :
  (a ← addArg 0 (replicate 2500 1) 0 new_arguments; addArg 1 (replicate 2500 2) 0 a) = None.
Proof. vm_compute. reflexivity. Qed.

(** A null memory object is set as an argument of no bytes: an index that was
    set before keeps its old pointer, and a new one points to what is set next. *)
Lemma null_argument_keeps_old :
  ∃ a, (r ← urKernelSetArgMemObj 0 (Some 4096) new_arguments; urKernelSetArgMemObj 0 None r.2)
       = Some (UR_RESULT_SUCCESS, a)
    ∧ holds a 0 (size_t_bytes 4096).
Proof.
  eexists. split; [vm_compute; reflexivity|]. exists 0%nat. split; [done|].
  intros j b Hj. do 8 (destruct j as [|j]; [by injection Hj as <-|]). done.
Qed.

Lemma null_argument_shows_next :
  ∃ a, (r ← urKernelSetArgMemObj 0 None new_arguments; urKernelSetArgValue 1 [5; 6; 7; 8] r.2)
       = Some (UR_RESULT_SUCCESS, a)
    ∧ holds a 0 [5; 6; 7; 8] ∧ holds a 1 [5; 6; 7; 8].
Proof.
  eexists. split; [vm_compute; reflexivity|].
  split; exists 0%nat; (split; [done|]); intros j b Hj;
    do 4 (destruct j as [|j]; [by injection Hj as <-|]); done.
Qed.

(** A parameter that was local keeps its local size: setting it as a value and
    then another local parameter overwrites the value. *)
Lemma value_after_local_overwritten :
  ∃ a, (a ← addLocalArg 1 16 new_arguments; a ← addArg 1 [9; 9; 9; 9; 9; 9; 9; 9] 0 a;
        addLocalArg 0 32 a) = Some a
    ∧ holds a 1 (size_t_bytes 32).
Proof.
  eexists. split; [vm_compute; reflexivity|]. exists 0%nat. split; [done|].
  intros j b Hj. do 8 (destruct j as [|j]; [by injection Hj as <-|]). done.
Qed.
