(* ===== verification/CudaQueue.v ===== *)
(** * CudaQueue: queues and events of the CUDA adapter

    cuda/queue.hpp, queue.cpp, event.hpp, event.cpp and the commands of
    enqueue.cpp.  A queue spreads its commands over pools of CUDA streams and
    keeps track, with counters and flags, of what a barrier or a finish still has
    to wait for.  The driver is the class [CudaDriver]; its laws say how streams
    and events order commands.  Calls of the adapter are atomic steps; the
    HIP adapter (hip/queue.hpp, hip/event.hpp) has the same code. *)
From S2P Require Import Prelude CudaFill CudaLaunch.

Abbreviation CUstream := Z (only parsing).
Abbreviation CUevent := Z (only parsing).

Inductive CUresult :=
  | CUDA_SUCCESS | CUDA_ERROR_INVALID_VALUE | CUDA_ERROR_OUT_OF_MEMORY | CUDA_ERROR_DEINITIALIZED
  | CUDA_ERROR_INVALID_DEVICE | CUDA_ERROR_INVALID_CONTEXT | CUDA_ERROR_NOT_READY
  | CUDA_ERROR_LAUNCH_OUT_OF_RESOURCES | CUDA_ERROR_NOT_PERMITTED | CUDA_ERROR_OTHER (code : Z).

Definition mapErrorUR (Result : CUresult) : ur_result_t :=
  match Result with
  | CUDA_SUCCESS => UR_RESULT_SUCCESS
  | CUDA_ERROR_NOT_PERMITTED => UR_RESULT_ERROR_INVALID_OPERATION
  | CUDA_ERROR_INVALID_CONTEXT => UR_RESULT_ERROR_INVALID_CONTEXT
  | CUDA_ERROR_INVALID_DEVICE => UR_RESULT_ERROR_INVALID_DEVICE
  | CUDA_ERROR_INVALID_VALUE => UR_RESULT_ERROR_INVALID_VALUE
  | CUDA_ERROR_OUT_OF_MEMORY => UR_RESULT_ERROR_OUT_OF_HOST_MEMORY
  | CUDA_ERROR_LAUNCH_OUT_OF_RESOURCES => UR_RESULT_ERROR_OUT_OF_RESOURCES
  | _ => UR_RESULT_ERROR_UNKNOWN
  end.

(** [checkErrorUR]: what is thrown.  The variable UR_CUDA_ABORT is not set. *)
Definition checkErrorUR (Result : CUresult) : option ur_result_t :=
  match Result with
  | CUDA_SUCCESS | CUDA_ERROR_DEINITIALIZED => None
  | r => Some (mapErrorUR r)
  end.

(** ** The driver *)

(** The calls of the driver that the queue makes.  [cuCtx] stands for
    [cuCtxGetCurrent] and [cuCtxSetCurrent]; [submit] for the calls that put work
    on a stream, with a number that identifies the command (history). *)
Inductive cu_call :=
  | cuCtx (device : Z)
  | cuCtxGetStreamPriorityRange (greatest : bool)
  | cuStreamCreateWithPriority (flags priority : Z)
  | cuStreamGetFlags (s : CUstream)
  | cuStreamSynchronize (s : CUstream)
  | cuStreamQuery (s : CUstream)
  | cuStreamWaitEvent (s : CUstream) (e : CUevent)
  | cuStreamDestroy (s : CUstream)
  | cuEventCreate (flags : Z)
  | cuEventRecord (e : CUevent) (s : CUstream)
  | cuEventSynchronize (e : CUevent)
  | cuEventQuery (e : CUevent)
  | cuEventDestroy (e : CUevent)
  | submit (w : work) (c : nat) (s : CUstream).

(** A call answers a code, a handle or value, and the new state.
    [after d s c]: what is put on stream [s] from now on starts after command [c]
    is done; [recorded d e c]: event [e], as last recorded, occurs after [c] is
    done; [finished d c]: [c] is done; [runs_after d c c']: [c] was submitted so
    that it starts after [c'] is done. *)
Class CudaDriver (D : Type) := {
  cu : cu_call → D → CUresult * Z * D;
  after : D → CUstream → nat → Prop;
  recorded : D → CUevent → nat → Prop;
  finished : D → nat → Prop;
  runs_after : D → nat → nat → Prop;
  live_event : D → CUevent → Prop;
  live_stream : D → CUstream → Prop
}.

(** The events whose record a call replaces, and what it destroys. *)
Definition rerecorded (call : cu_call) (r : CUresult) (e : CUevent) : Prop :=
  match call with cuEventRecord e' _ => r = CUDA_SUCCESS ∧ e = e' | _ => False end.
Definition gone_event (call : cu_call) (e : CUevent) : Prop :=
  match call with cuEventDestroy e' => e = e' | _ => False end.
Definition gone_stream (call : cu_call) (s : CUstream) : Prop :=
  match call with cuStreamDestroy s' => s = s' | _ => False end.

Record keeps `{CudaDriver D} (E G S : Z → Prop) (d d' : D) : Prop := mkKeeps {
  k_after : ∀ s c, ¬ S s → after d s c → after d' s c;
  k_finished : ∀ c, finished d c → finished d' c;
  k_runs : ∀ c c', runs_after d c c' → runs_after d' c c';
  k_recorded : ∀ e c, live_event d e → ¬ E e → ¬ G e → recorded d e c → recorded d' e c;
  k_event : ∀ e, live_event d e → ¬ G e → live_event d' e;
  k_stream : ∀ s, live_stream d s → ¬ S s → live_stream d' s
}.

(** The documented behaviour.  A call never undoes an ordering, except that
    recording replaces the last record and destroying ends a handle; new handles
    are not null and not in use; [CUDA_ERROR_DEINITIALIZED] is only answered
    while the process shuts down. *)
Class CudaDriverLaws (D : Type) `{CudaDriver D} := {
  cu_keeps : ∀ call (d d' : D) r h, cu call d = (r, h, d') →
    keeps (rerecorded call r) (gone_event call) (gone_stream call) d d';
  cu_up : ∀ call (d d' : D) r h, cu call d = (r, h, d') → r ≠ CUDA_ERROR_DEINITIALIZED;
  cu_finished_after : ∀ (d : D) s c, finished d c → after d s c;
  cu_create_stream : ∀ f p (d d' : D) s,
    cu (cuStreamCreateWithPriority f p) d = (CUDA_SUCCESS, s, d') →
    s ≠ 0 ∧ ¬ live_stream d s ∧ live_stream d' s;
  cu_create_event : ∀ f (d d' : D) e, cu (cuEventCreate f) d = (CUDA_SUCCESS, e, d') →
    e ≠ 0 ∧ ¬ live_event d e ∧ live_event d' e;
  cu_wait : ∀ s e (d d' : D) h c, cu (cuStreamWaitEvent s e) d = (CUDA_SUCCESS, h, d') →
    recorded d e c → after d' s c;
  cu_record : ∀ s e (d d' : D) h c, cu (cuEventRecord e s) d = (CUDA_SUCCESS, h, d') →
    after d s c → recorded d' e c;
  cu_synchronize : ∀ s (d d' : D) h c, cu (cuStreamSynchronize s) d = (CUDA_SUCCESS, h, d') →
    after d s c → finished d' c;
  cu_event_synchronize : ∀ e (d d' : D) h c, cu (cuEventSynchronize e) d = (CUDA_SUCCESS, h, d') →
    recorded d e c → finished d' c;
  cu_query : ∀ s (d d' : D) h c, cu (cuStreamQuery s) d = (CUDA_SUCCESS, h, d') →
    after d s c → finished d' c;
  cu_event_query : ∀ e (d d' : D) h c, cu (cuEventQuery e) d = (CUDA_SUCCESS, h, d') →
    recorded d e c → finished d' c;
  cu_submit : ∀ wk c s (d d' : D) h, cu (submit wk c s) d = (CUDA_SUCCESS, h, d') →
    after d' s c ∧ ∀ c', after d s c' → runs_after d' c c'
}.

(** ** Data *)

(** One pool of streams: [ComputeStreams] with [ComputeAppliedBarrier],
    [ComputeStreamIndex], [NumComputeStreams] and [LastSyncComputeStreams], or
    the same for the transfer streams. *)
Record stream_pool := mkPool {
  Streams : list CUstream; AppliedBarrier : list bool;
  StreamIndex : Z; NumStreams : Z; LastSyncStreams : Z
}.

Inductive which := compute | transfer.

#[export] Instance which_eq_dec : EqDecision which.
Proof. solve_decision. Defined.

Record ur_queue_handle_t_ := mkQueue {
  ComputePool : stream_pool; TransferPool : stream_pool; DelayCompute : list bool;
  HostSubmitTimeStream : CUstream; BarrierEvent : CUevent; BarrierTmpEvent : CUevent;
  q_RefCount : Z; EventCount : Z; Flags : Z; URFlags : Z; Priority : Z;
  q_HasOwnership : bool; q_Device : Z
}.

Inductive ur_command_t :=
  | UR_COMMAND_KERNEL_LAUNCH | UR_COMMAND_EVENTS_WAIT | UR_COMMAND_EVENTS_WAIT_WITH_BARRIER
  | UR_COMMAND_USM_FILL | UR_COMMAND_USM_MEMCPY | UR_COMMAND_TIMESTAMP_RECORDING_EXP.

#[export] Instance ur_command_eq_dec : EqDecision ur_command_t.
Proof. solve_decision. Defined.

(** [e_covers]: the commands whose end the recorded event marks (history). *)
Record ur_event_handle_t_ := mkEvent {
  CommandType : ur_command_t; e_RefCount : Z; e_HasOwnership : bool; HasBeenWaitedOn : bool;
  IsRecorded : bool; IsStarted : bool; IsInterop : bool; StreamToken : Z; EventID : Z;
  EvEnd : CUevent; EvStart : CUevent; EvQueued : CUevent; e_Queue : option nat; e_Stream : CUstream;
  e_covers : list nat
}.

(** What happened (history): a command of a queue, with the commands that its
    wait list stands for; a barrier of a queue, with the commands it orders. *)
Inductive entry :=
  | HCommand (q : nat) (c : nat) (waits : list nat)
  | HBarrier (q : nat) (covers : list nat).

Record world (D : Type) := mkWorld {
  drv : D; queues : gmap nat ur_queue_handle_t_; events : gmap nat ur_event_handle_t_;
  ThreadLocalStream : CUstream; HostSubmitTimeStreamFlag : bool; next_id : nat;
  history : list entry
}.
Arguments mkWorld {D}. Arguments drv {D}. Arguments queues {D}. Arguments events {D}.
Arguments ThreadLocalStream {D}. Arguments HostSubmitTimeStreamFlag {D}.
Arguments next_id {D}. Arguments history {D}.

Definition UINT32_MAX : Z := 2 ^ 32 - 1.
Definition UR_QUEUE_FLAG_OUT_OF_ORDER_EXEC_MODE_ENABLE : Z := 1.
Definition UR_QUEUE_FLAG_PROFILING_ENABLE : Z := 2.
Definition UR_QUEUE_FLAG_PRIORITY_LOW : Z := 32.
Definition UR_QUEUE_FLAG_PRIORITY_HIGH : Z := 64.
Definition UR_QUEUE_FLAG_USE_DEFAULT_STREAM : Z := 512.
Definition UR_QUEUE_FLAG_SYNC_WITH_DEFAULT_STREAM : Z := 1024.
Definition CU_STREAM_DEFAULT : Z := 0.
Definition CU_STREAM_NON_BLOCKING : Z := 1.
Definition CU_EVENT_DEFAULT : Z := 0.
Definition CU_EVENT_DISABLE_TIMING : Z := 2.
Definition DefaultNumComputeStreams : nat := 128.
Definition DefaultNumTransferStreams : nat := 64.

(** Updates of the records. *)
Definition pool (k : which) (x : ur_queue_handle_t_) : stream_pool :=
  match k with compute => ComputePool x | transfer => TransferPool x end.
Definition set_pool (k : which) (p : stream_pool) (x : ur_queue_handle_t_) : ur_queue_handle_t_ :=
  mkQueue (match k with compute => p | transfer => ComputePool x end)
    (match k with compute => TransferPool x | transfer => p end) (DelayCompute x)
    (HostSubmitTimeStream x) (BarrierEvent x) (BarrierTmpEvent x) (q_RefCount x) (EventCount x)
    (Flags x) (URFlags x) (Priority x) (q_HasOwnership x) (q_Device x).
Definition set_delay (f : list bool → list bool) (x : ur_queue_handle_t_) : ur_queue_handle_t_ :=
  mkQueue (ComputePool x) (TransferPool x) (f (DelayCompute x))
    (HostSubmitTimeStream x) (BarrierEvent x) (BarrierTmpEvent x) (q_RefCount x) (EventCount x)
    (Flags x) (URFlags x) (Priority x) (q_HasOwnership x) (q_Device x).
Definition set_handles (host barrier tmp : CUevent) (x : ur_queue_handle_t_) : ur_queue_handle_t_ :=
  mkQueue (ComputePool x) (TransferPool x) (DelayCompute x) host barrier tmp (q_RefCount x)
    (EventCount x) (Flags x) (URFlags x) (Priority x) (q_HasOwnership x) (q_Device x).
Definition set_counts (refs count : Z) (x : ur_queue_handle_t_) : ur_queue_handle_t_ :=
  mkQueue (ComputePool x) (TransferPool x) (DelayCompute x) (HostSubmitTimeStream x)
    (BarrierEvent x) (BarrierTmpEvent x) refs count (Flags x) (URFlags x) (Priority x)
    (q_HasOwnership x) (q_Device x).

(** [++Num] with the stream just created; [Index++]; one flag; all flags; [LastSync]. *)
Definition push_stream (s : CUstream) (p : stream_pool) : stream_pool :=
  mkPool (<[Z.to_nat (NumStreams p) := s]> (Streams p)) (AppliedBarrier p) (StreamIndex p)
    (NumStreams p + 1) (LastSyncStreams p).
Definition bump_index (p : stream_pool) : stream_pool :=
  mkPool (Streams p) (AppliedBarrier p) (w32 (StreamIndex p + 1)) (NumStreams p) (LastSyncStreams p).
Definition set_applied (f : list bool → list bool) (p : stream_pool) : stream_pool :=
  mkPool (Streams p) (f (AppliedBarrier p)) (StreamIndex p) (NumStreams p) (LastSyncStreams p).
Definition set_sync (n : Z) (p : stream_pool) : stream_pool :=
  mkPool (Streams p) (AppliedBarrier p) (StreamIndex p) (NumStreams p) n.

Definition on_pool (k : which) (f : stream_pool → stream_pool) (x : ur_queue_handle_t_)
  : ur_queue_handle_t_ := set_pool k (f (pool k x)) x.

(** The constructor of a queue. *)
Definition new_pool (streams : list CUstream) : stream_pool :=
  mkPool streams (replicate (length streams) false) 0 0 0.
Definition new_queue (ComputeStreams TransferStreams : list CUstream) (device flags urflags priority : Z)
    (owned : bool) : ur_queue_handle_t_ :=
  mkQueue (new_pool ComputeStreams) (new_pool TransferStreams)
    (replicate (length ComputeStreams) false) 0 0 0 1 0 flags urflags priority owned device.

(** [hasBeenSynchronized] and [canReuseStream]. *)
Definition hasBeenSynchronized (x : ur_queue_handle_t_) (Token : Z) : bool :=
  if Token =? UINT32_MAX then false else Token <? LastSyncStreams (ComputePool x).

Definition canReuseStream (x : ur_queue_handle_t_) (Token : Z) : bool :=
  if Token =? UINT32_MAX then false
  else (w32 (StreamIndex (ComputePool x) - Token) <=? Z.of_nat (length (Streams (ComputePool x))))
       && negb (hasBeenSynchronized x Token).

(** ** The monad of the adapter's code

    A call returns, throws a result code, ends the process ([die]), or is
    undefined; [OutOfFuel] only comes from the fuel of a loop. *)
Inductive res (A : Type) := Val (a : A) | Exc (r : ur_result_t) | Die | UB | OutOfFuel.
Arguments Val {A}. Arguments Exc {A}. Arguments Die {A}. Arguments UB {A}. Arguments OutOfFuel {A}.

Definition M (D A : Type) := world D → res A * world D.

#[global] Instance M_ret {D} : MRet (M D) := λ A a w, (Val a, w).
#[global] Instance M_bind {D} : MBind (M D) := λ A B f m w,
  match m w with
  | (Val a, w') => f a w'
  | (Exc r, w') => (Exc r, w')
  | (Die, w') => (Die, w') | (UB, w') => (UB, w') | (OutOfFuel, w') => (OutOfFuel, w')
  end.

Section adapter.
Context {D : Type} `{CudaDriver D}.

Definition fail {A} (r : res A) : M D A := λ w, (r, w).
Definition throw {A} (r : ur_result_t) : M D A := fail (Exc r).
Definition gets {A} (f : world D → A) : M D A := λ w, (Val (f w), w).
Definition modify (f : world D → world D) : M D unit := λ w, (Val tt, f w).
Definition some {A} (o : option A) : M D A := match o with Some a => mret a | None => fail UB end.

Definition set_drv (d : D) (w : world D) : world D :=
  mkWorld d (queues w) (events w) (ThreadLocalStream w) (HostSubmitTimeStreamFlag w) (next_id w)
    (history w).
Definition set_queues (f : gmap nat ur_queue_handle_t_ → gmap nat ur_queue_handle_t_) (w : world D) :=
  mkWorld (drv w) (f (queues w)) (events w) (ThreadLocalStream w) (HostSubmitTimeStreamFlag w)
    (next_id w) (history w).
Definition set_events (f : gmap nat ur_event_handle_t_ → gmap nat ur_event_handle_t_) (w : world D) :=
  mkWorld (drv w) (queues w) (f (events w)) (ThreadLocalStream w) (HostSubmitTimeStreamFlag w)
    (next_id w) (history w).
Definition set_tls (s : CUstream) (w : world D) : world D :=
  mkWorld (drv w) (queues w) (events w) s (HostSubmitTimeStreamFlag w) (next_id w) (history w).
Definition set_once (b : bool) (w : world D) : world D :=
  mkWorld (drv w) (queues w) (events w) (ThreadLocalStream w) b (next_id w) (history w).
Definition push_history (h : entry) (w : world D) : world D :=
  mkWorld (drv w) (queues w) (events w) (ThreadLocalStream w) (HostSubmitTimeStreamFlag w)
    (next_id w) (h :: history w).
Definition take_id (w : world D) : world D :=
  mkWorld (drv w) (queues w) (events w) (ThreadLocalStream w) (HostSubmitTimeStreamFlag w)
    (S (next_id w)) (history w).

Definition get_queue (q : nat) : M D ur_queue_handle_t_ := o ← gets (λ w, queues w !! q); some o.
Definition get_event (h : nat) : M D ur_event_handle_t_ := o ← gets (λ w, events w !! h); some o.
Definition upd_queue (q : nat) (f : ur_queue_handle_t_ → ur_queue_handle_t_) : M D unit :=
  modify (set_queues (alter f q)).
Definition upd_event (h : nat) (f : ur_event_handle_t_ → ur_event_handle_t_) : M D unit :=
  modify (set_events (alter f h)).

(** A call of the driver: its raw answer, and [UR_CHECK_ERROR]. *)
Definition raw (c : cu_call) : M D (CUresult * Z) := λ w,
  let '(r, h, d') := cu c (drv w) in (Val (r, h), set_drv d' w).
Definition UR_CHECK_ERROR (c : cu_call) : M D Z :=
  r ← raw c;
  match checkErrorUR r.1 with None => mret r.2 | Some e => throw e end.
Definition call (c : cu_call) : M D unit := _ ← UR_CHECK_ERROR c; mret tt.

(** [UR_CHECK_ERROR] on a [ur_result_t]. *)
Definition check_ur (r : ur_result_t) : M D unit :=
  match r with UR_RESULT_SUCCESS => mret tt | _ => throw r end.

(** [try { ... } catch (ur_result_t Err) { return Err; }] *)
Definition catch (m : M D ur_result_t) : M D ur_result_t := λ w,
  match m w with (Exc r, w') => (Val r, w') | o => o end.
Definition catch_with {A} (a : A) (m : M D (ur_result_t * A)) : M D (ur_result_t * A) := λ w,
  match m w with (Exc r, w') => (Val (r, a), w') | o => o end.

(** [ScopedContext Active(Device)] *)
Definition ScopedContext (Device : Z) : M D unit :=
  if Device =? 0 then throw UR_RESULT_ERROR_INVALID_DEVICE else call (cuCtx Device).

(** ** Streams *)

(** [computeStreamWaitForBarrierIfNeeded], [transferStreamWaitForBarrierIfNeeded]. *)
Definition waitForBarrierIfNeeded (k : which) (q : nat) (Stream : CUstream) (StreamI : nat) : M D unit :=
  x ← get_queue q;
  if BarrierEvent x =? 0 then mret tt else
  b ← some (AppliedBarrier (pool k x) !! StreamI);
  if (b : bool) then mret tt else
  call (cuStreamWaitEvent Stream (BarrierEvent x));;
  upd_queue q (on_pool k (set_applied <[StreamI := true]>)).

(** A new stream while the pool has room. *)
Definition createStreamIfRoom (k : which) (q : nat) : M D unit :=
  x ← get_queue q;
  if NumStreams (pool k x) <? Z.of_nat (length (Streams (pool k x))) then
    s ← UR_CHECK_ERROR (cuStreamCreateWithPriority (Flags x) (Priority x));
    upd_queue q (on_pool k (push_stream s))
  else mret tt.

Definition count_true (l : list bool) : nat := foldr (λ b n, if (b : bool) then S n else n) 0%nat l.

(** The loop of [getNextComputeStream]: index of the stream, and the token. *)
Fixpoint nextCompute (fuel : nat) (q : nat) : M D (nat * Z) :=
  match fuel with
  | O => fail OutOfFuel
  | S fuel' =>
      createStreamIfRoom compute q;;
      x ← get_queue q;
      let Token := StreamIndex (ComputePool x) in
      upd_queue q (on_pool compute bump_index);;
      let n := Z.of_nat (length (Streams (ComputePool x))) in
      if n =? 0 then fail UB else
      let StreamI := Z.to_nat (Token mod n) in
      delayed ← some (DelayCompute x !! StreamI);
      if (delayed : bool) then upd_queue q (set_delay <[StreamI := false]>);; nextCompute fuel' q
      else mret (StreamI, Token)
  end.

(** [getNextComputeStream(StreamToken)]; the token is not written when the
    thread-local stream is used. *)
Definition getNextComputeStream (q : nat) : M D (CUstream * option Z) :=
  tls ← gets ThreadLocalStream;
  if negb (tls =? 0) then mret (tls, None) else
  x ← get_queue q;
  r ← nextCompute (S (count_true (DelayCompute x))) q;
  x ← get_queue q;
  res ← some (Streams (ComputePool x) !! r.1);
  waitForBarrierIfNeeded compute q res r.1;;
  mret (res, Some r.2).

(** [getNextComputeStream] with a wait list: reuse the stream of a dependency. *)
Fixpoint reuseStream (q : nat) (EventWaitList : list nat) : M D (CUstream * option Z) :=
  match EventWaitList with
  | [] => getNextComputeStream q
  | h :: l =>
      e ← get_event h;
      x ← get_queue q;
      if bool_decide (e_Queue e = Some q) && canReuseStream x (StreamToken e) then
        let n := Z.of_nat (length (DelayCompute x)) in
        if n =? 0 then fail UB else
        let StreamI := Z.to_nat (StreamToken e mod n) in
        upd_queue q (set_delay <[StreamI := true]>);;
        waitForBarrierIfNeeded compute q (e_Stream e) StreamI;;
        mret (e_Stream e, Some (StreamToken e))
      else reuseStream q l
  end.

Definition getNextComputeStreamFor (q : nat) (EventWaitList : list nat) : M D (CUstream * option Z) :=
  tls ← gets ThreadLocalStream;
  if negb (tls =? 0) then mret (tls, None) else reuseStream q EventWaitList.

Definition getNextTransferStream (q : nat) : M D CUstream :=
  tls ← gets ThreadLocalStream;
  if negb (tls =? 0) then mret tls else
  x ← get_queue q;
  if (length (Streams (TransferPool x)) =? 0)%nat then r ← getNextComputeStream q; mret r.1 else
  createStreamIfRoom transfer q;;
  x ← get_queue q;
  let StreamI := Z.to_nat (StreamIndex (TransferPool x)
                           mod Z.of_nat (length (Streams (TransferPool x)))) in
  upd_queue q (on_pool transfer bump_index);;
  Result ← some (Streams (TransferPool x) !! StreamI);
  waitForBarrierIfNeeded transfer q Result StreamI;;
  mret Result.

(** The loops of [SyncCompute] and [SyncTransfer] over some of the streams. *)
Fixpoint syncList (k : which) (q : nat) (F : CUstream → M D unit) (l : list nat) : M D unit :=
  match l with
  | [] => mret tt
  | i :: l' =>
      x ← get_queue q;
      s ← some (Streams (pool k x) !! i);
      F s;;
      match k with
      | compute => upd_queue q (set_delay <[i := false]>)
      | transfer => mret tt
      end;;
      syncList k q F l'
  end.

(** The streams that were used since the last reset. *)
Definition usedStreams (p : stream_pool) : list nat :=
  let Size := Z.of_nat (length (Streams p)) in
  let Start := LastSyncStreams p in
  let End := if NumStreams p <? Size then NumStreams p else StreamIndex p in
  let range a b := seq (Z.to_nat a) (Z.to_nat (b - a)) in
  if Size <=? w32 (End - Start) then range 0 Size
  else if Start mod Size <=? End mod Size then range (Start mod Size) (End mod Size)
  else range (Start mod Size) Size ++ range 0 (End mod Size).

(** The two halves of [syncStreams]. *)
Definition syncPool (ResetUsed : bool) (k : which) (q : nat) (F : CUstream → M D unit) : M D unit :=
  x ← get_queue q;
  let p := pool k x in
  let Size := Z.of_nat (length (Streams p)) in
  if bool_decide (k = transfer) && (Size =? 0) then mret tt else
  let End := if NumStreams p <? Size then NumStreams p else StreamIndex p in
  (if ResetUsed then upd_queue q (on_pool k (set_sync End)) else mret tt);;
  syncList k q F (usedStreams p).

Definition syncStreams (ResetUsed : bool) (q : nat) (F : CUstream → M D unit) : M D unit :=
  syncPool ResetUsed compute q F;; syncPool ResetUsed transfer q F.

(** The streams that exist, for [forEachStream] and [allOf]. *)
Definition createdStreams (p : stream_pool) : list CUstream :=
  take (Z.to_nat (Z.min (Z.of_nat (length (Streams p))) (NumStreams p))) (Streams p).

Fixpoint forEach (F : CUstream → M D unit) (l : list CUstream) : M D unit :=
  match l with [] => mret tt | s :: l' => F s;; forEach F l' end.

Definition forEachStream (q : nat) (F : CUstream → M D unit) : M D unit :=
  x ← get_queue q;
  forEach F (createdStreams (ComputePool x));; forEach F (createdStreams (TransferPool x)).

(** [std::all_of]: stops at the first that fails. *)
Fixpoint all_of (F : CUstream → M D bool) (l : list CUstream) : M D bool :=
  match l with
  | [] => mret true
  | s :: l' => b ← F s; if (b : bool) then all_of F l' else mret false
  end.

Definition allOf (q : nat) (F : CUstream → M D bool) : M D bool :=
  x ← get_queue q;
  b ← all_of F (createdStreams (ComputePool x));
  if (b : bool) then all_of F (createdStreams (TransferPool x)) else mret false.

(** ** Events *)

(** [createHostSubmitTimeStream]; the flag is a static variable: one for all queues. *)
Definition createHostSubmitTimeStream (q : nat) : M D unit :=
  b ← gets HostSubmitTimeStreamFlag;
  if (b : bool) then mret tt else
  s ← UR_CHECK_ERROR (cuStreamCreateWithPriority CU_STREAM_NON_BLOCKING 0);
  upd_queue q (λ x, set_handles s (BarrierEvent x) (BarrierTmpEvent x) x);;
  modify (set_once true).

Definition add_refs (n : Z) (x : ur_queue_handle_t_) : ur_queue_handle_t_ :=
  set_counts (w32 (q_RefCount x + n)) (EventCount x) x.

Definition RequiresTimings (x : ur_queue_handle_t_) (Type_ : ur_command_t) : bool :=
  negb (Z.land (URFlags x) UR_QUEUE_FLAG_PROFILING_ENABLE =? 0)
  || bool_decide (Type_ = UR_COMMAND_TIMESTAMP_RECORDING_EXP).

(** [makeNative]: the constructor retains the queue.  A token that was not
    written is undefined. *)
Definition makeNative (Type_ : ur_command_t) (q : nat) (Stream : CUstream) (Token : option Z) : M D nat :=
  x ← get_queue q;
  let timings := RequiresTimings x Type_ in
  (if timings then createHostSubmitTimeStream q else mret tt);;
  EvEnd ← UR_CHECK_ERROR (cuEventCreate (if timings then CU_EVENT_DEFAULT else CU_EVENT_DISABLE_TIMING));
  EvQueued ← (if timings then UR_CHECK_ERROR (cuEventCreate CU_EVENT_DEFAULT) else mret 0);
  EvStart ← (if timings then UR_CHECK_ERROR (cuEventCreate CU_EVENT_DEFAULT) else mret 0);
  Token ← some Token;
  h ← gets next_id;
  modify take_id;;
  modify (set_events <[h := mkEvent Type_ 1 true false false false false Token 0 EvEnd EvStart
                             EvQueued (Some q) Stream []]>);;
  upd_queue q (add_refs 1);;
  mret h.

Definition mark (waited recorded started : bool) (id refs : Z) (covers : list nat)
    (e : ur_event_handle_t_) : ur_event_handle_t_ :=
  mkEvent (CommandType e) refs (e_HasOwnership e) waited recorded started (IsInterop e)
    (StreamToken e) id (EvEnd e) (EvStart e) (EvQueued e) (e_Queue e) (e_Stream e) covers.

(** [start]; a failure is returned, and the event counts as started. *)
Definition start (h : nat) : M D ur_result_t :=
  e ← get_event h;
  q ← some (e_Queue e);
  x ← get_queue q;
  r ← catch (
    (if RequiresTimings x (CommandType e) then
       call (cuEventRecord (EvQueued e) (HostSubmitTimeStream x));;
       call (cuEventRecord (EvStart e) (e_Stream e))
     else mret tt);;
    mret UR_RESULT_SUCCESS);
  upd_event h (λ e, mark (HasBeenWaitedOn e) (IsRecorded e) true (EventID e) (e_RefCount e) (e_covers e) e);;
  mret r.

(** [record]; [covers] are the commands before it on the stream (history).  An
    event counter that wraps ends the process. *)
Definition record (h : nat) (covers : list nat) : M D ur_result_t :=
  e ← get_event h;
  if IsRecorded e || negb (IsStarted e) then mret UR_RESULT_ERROR_INVALID_EVENT else
  match e_Queue e with
  | None => mret UR_RESULT_ERROR_INVALID_QUEUE
  | Some q =>
      Result ← catch (
        x ← get_queue q;
        let id := w32 (EventCount x + 1) in
        upd_queue q (λ x, set_counts (q_RefCount x) id x);;
        upd_event h (λ e, mark (HasBeenWaitedOn e) (IsRecorded e) (IsStarted e) id (e_RefCount e) (e_covers e) e);;
        if id =? 0 then fail Die else
        call (cuEventRecord (EvEnd e) (e_Stream e));;
        mret UR_RESULT_SUCCESS);
      match Result with
      | UR_RESULT_SUCCESS =>
          upd_event h (λ e, mark (HasBeenWaitedOn e) true (IsStarted e) (EventID e) (e_RefCount e) covers e);;
          mret UR_RESULT_SUCCESS
      | r => mret r
      end
  end.

Definition wait (h : nat) : M D ur_result_t :=
  catch (
    e ← get_event h;
    call (cuEventSynchronize (EvEnd e));;
    upd_event h (λ e, mark true (IsRecorded e) (IsStarted e) (EventID e) (e_RefCount e) (e_covers e) e);;
    mret UR_RESULT_SUCCESS).

(** [isCompleted]; every failure of the query is [false]. *)
Definition isCompleted (h : nat) : M D bool :=
  e ← get_event h;
  if negb (IsRecorded e) then mret false
  else if HasBeenWaitedOn e then mret true
  else r ← raw (cuEventQuery (EvEnd e));
       mret match r.1 with CUDA_SUCCESS => true | _ => false end.

Inductive ur_event_status_t := UR_EVENT_STATUS_COMPLETE | UR_EVENT_STATUS_RUNNING | UR_EVENT_STATUS_SUBMITTED.

Definition getExecutionStatus (h : nat) : M D ur_event_status_t :=
  e ← get_event h;
  if negb (IsRecorded e) then mret UR_EVENT_STATUS_SUBMITTED
  else b ← isCompleted h; mret (if (b : bool) then UR_EVENT_STATUS_COMPLETE else UR_EVENT_STATUS_RUNNING).

Section sort.
(** [std::sort] of [forLatestEvents]. *)
Variable std_sort : list (nat * ur_event_handle_t_) → list (nat * ur_event_handle_t_).

(** The loop of [forLatestEvents]; [first] is [i == 0]. *)
Fixpoint latestLoop (F : nat → ur_event_handle_t_ → M D ur_result_t) (first : bool)
    (LastSeenStream : CUstream) (l : list (nat * ur_event_handle_t_)) : M D ur_result_t :=
  match l with
  | [] => mret UR_RESULT_SUCCESS
  | (h, e) :: l' =>
      if negb first && negb (IsInterop e) && (e_Stream e =? LastSeenStream)
      then latestLoop F false LastSeenStream l'
      else
        Result ← F h e;
        match Result with
        | UR_RESULT_SUCCESS => latestLoop F false (e_Stream e) l'
        | r => mret r
        end
  end.

(** The wait list with the events it points to. *)
Fixpoint get_events (l : list nat) : M D (list (nat * ur_event_handle_t_)) :=
  match l with
  | [] => mret []
  | h :: l' => e ← get_event h; r ← get_events l'; mret ((h, e) :: r)
  end.

(** [forLatestEvents]; [None] is a null list. *)
Definition forLatestEvents (EventWaitList : option (list nat))
    (F : nat → ur_event_handle_t_ → M D ur_result_t) : M D ur_result_t :=
  match EventWaitList with
  | None | Some [] => mret UR_RESULT_ERROR_INVALID_EVENT_WAIT_LIST
  | Some [h] => e ← get_event h; F h e
  | Some l => Events ← get_events l; latestLoop F true 0 (std_sort Events)
  end.

(** [enqueueEventsWait]; nothing to do for a null list. *)
Definition enqueueEventsWait (q : nat) (Stream : CUstream) (EventWaitList : option (list nat))
  : M D ur_result_t :=
  match EventWaitList with
  | None => mret UR_RESULT_SUCCESS
  | Some _ =>
      catch (
        x ← get_queue q;
        ScopedContext (q_Device x);;
        forLatestEvents EventWaitList (λ _ e,
          if e_Stream e =? Stream then mret UR_RESULT_SUCCESS
          else call (cuStreamWaitEvent Stream (EvEnd e));; mret UR_RESULT_SUCCESS))
  end.

(** ** Commands *)

(** What a wait list stands for (history). *)
Definition covered_by (EventWaitList : option (list nat)) (w : world D) : list nat :=
  h ← default [] EventWaitList;
  match events w !! h with Some e => e_covers e | None => [] end.

Definition list_of (EventWaitList : option (list nat)) : list nat := default [] EventWaitList.

(** Work on a stream: the command's number is the length of the history. *)
Definition submit_work (q : nat) (wk : work) (Stream : CUstream) (waits : list nat) : M D nat :=
  c ← gets (λ w, length (history w));
  call (submit wk c Stream);;
  modify (push_history (HCommand q c waits));;
  mret c.

Fixpoint submit_all (q : nat) (wks : list work) (Stream : CUstream) (waits : list nat) : M D (list nat) :=
  match wks with
  | [] => mret []
  | wk :: wks' =>
      c ← submit_work q wk Stream waits;
      cs ← submit_all q wks' Stream waits;
      mret (c :: cs)
  end.

(** The event of a command, when one is asked for; it is deleted, and with it
    its reference to the queue, when an exception leaves the block. *)
Definition drop_event (h : nat) (w : world D) : world D :=
  match events w !! h with
  | Some e => match e_Queue e with
              | Some q => set_queues (alter (add_refs (-1)) q) (set_events (delete h) w)
              | None => set_events (delete h) w
              end
  | None => w
  end.

Definition guard_event {A} (h : nat) (m : M D A) : M D A := λ w,
  match m w with (Exc r, w') => (Exc r, drop_event h w') | o => o end.

Definition with_event (phEvent : bool) (Type_ : ur_command_t) (q : nat) (Stream : CUstream)
    (Token : option Z) (body : M D (list nat)) (last : M D unit) : M D (option nat) :=
  if phEvent then
    h ← makeNative Type_ q Stream Token;
    guard_event h (
      r ← start h; check_ur r;;
      covers ← body;
      r ← record h covers; check_ur r;;
      last;;
      mret (Some h))
  else body;; last;; mret None.

(** [Event->getQueue()->hasBeenSynchronized(Event->getComputeStreamToken())]: the
    queue of an event made from a native one is a null pointer. *)
Definition event_synchronized (e : ur_event_handle_t_) : M D bool :=
  match e_Queue e with
  | Some q => x ← get_queue q; mret (hasBeenSynchronized x (StreamToken e))
  | None => fail UB
  end.

(** [urEnqueueEventsWaitWithBarrier], for the question it asks of an event. *)
Definition barrier_asking (synchronized : ur_event_handle_t_ → M D bool) (q : nat)
    (phEventWaitList : option (list nat)) (phEvent : bool) : M D (ur_result_t * option nat) :=
  catch_with None (
    x ← get_queue q;
    ScopedContext (q_Device x);;
    st ← getNextComputeStreamFor q (list_of phEventWaitList);
    let '(CuStream, Token) := st in
    x ← get_queue q;
    (if BarrierEvent x =? 0 then
       e ← UR_CHECK_ERROR (cuEventCreate CU_EVENT_DISABLE_TIMING);
       upd_queue q (λ x, set_handles (HostSubmitTimeStream x) e (BarrierTmpEvent x) x)
     else mret tt);;
    (match list_of phEventWaitList with
     | [] =>
         x ← get_queue q;
         (if BarrierTmpEvent x =? 0 then
            e ← UR_CHECK_ERROR (cuEventCreate CU_EVENT_DISABLE_TIMING);
            upd_queue q (λ x, set_handles (HostSubmitTimeStream x) (BarrierEvent x) e x)
          else mret tt);;
         x ← get_queue q;
         syncStreams false q (λ s,
           if CuStream =? s then mret tt
           else call (cuEventRecord (BarrierTmpEvent x) s);;
                call (cuStreamWaitEvent CuStream (BarrierTmpEvent x)))
     | _ =>
         _ ← forLatestEvents phEventWaitList (λ _ e,
           b ← synchronized e;
           if (b : bool) then mret UR_RESULT_SUCCESS
           else call (cuStreamWaitEvent CuStream (EvEnd e));; mret UR_RESULT_SUCCESS);
         mret tt
     end);;
    covers ← gets (λ w, match list_of phEventWaitList with
                        | [] => omap (λ h, match h with
                                           | HCommand q' c _ => if decide (q' = q) then Some c else None
                                           | _ => None end) (history w)
                        | _ => covered_by phEventWaitList w
                        end);
    x ← get_queue q;
    call (cuEventRecord (BarrierEvent x) CuStream);;
    upd_queue q (λ x, on_pool transfer (set_applied (λ l, replicate (length l) false))
                        (on_pool compute (set_applied (λ l, replicate (length l) false)) x));;
    modify (push_history (HBarrier q covers));;
    (if phEvent then
       h ← makeNative UR_COMMAND_EVENTS_WAIT_WITH_BARRIER q CuStream Token;
       r ← start h; check_ur r;;
       r ← record h covers; check_ur r;;
       mret (UR_RESULT_SUCCESS, Some h)
     else mret (UR_RESULT_SUCCESS, None))).

(** [urEnqueueEventsWaitWithBarrier]. *)
Definition urEnqueueEventsWaitWithBarrier := barrier_asking event_synchronized.

Definition urEnqueueEventsWait := urEnqueueEventsWaitWithBarrier.

(** [enqueueKernelLaunch] in a context with one device, so no memory migrates;
    [params] is the result of [setKernelParams]. *)
Definition enqueueKernelLaunch (q : nat) (same_device : bool) (workDim : nat) (pGlobalWorkSize : dims)
    (params : outcome (ur_result_t + launch_params)) (LocalSize : Z)
    (phEventWaitList : option (list nat)) (phEvent : bool) : M D (ur_result_t * option nat) :=
  match enqueue_checks workDim same_device pGlobalWorkSize with
  | inl e => mret (e, None)
  | inr true => urEnqueueEventsWaitWithBarrier q phEventWaitList phEvent
  | inr false =>
      match params with
      | Ret (inl e) => mret (e, None)
      | Ret (inr p) =>
          catch_with None (
            x ← get_queue q;
            ScopedContext (q_Device x);;
            st ← getNextComputeStreamFor q (list_of phEventWaitList);
            let '(CuStream, Token) := st in
            r ← enqueueEventsWait q CuStream phEventWaitList; check_ur r;;
            waits ← gets (covered_by phEventWaitList);
            o ← with_event phEvent UR_COMMAND_KERNEL_LAUNCH q CuStream Token
                  (submit_all q [LaunchKernel (CuFunc p) (BlocksPerGrid p) (ThreadsPerBlock p) LocalSize]
                     CuStream waits) (mret tt);
            mret (UR_RESULT_SUCCESS, o))
      | _ => fail UB
      end
  end.

(** [urEnqueueUSMFill]. *)
Definition urEnqueueUSMFill (q : nat) (ptr patternSize : Z) (pattern : list Z) (size : Z)
    (phEventWaitList : option (list nat)) (phEvent : bool) : M D (ur_result_t * option nat) :=
  catch_with None (
    x ← get_queue q;
    ScopedContext (q_Device x);;
    st ← getNextComputeStreamFor q (list_of phEventWaitList);
    let '(CuStream, Token) := st in
    r ← enqueueEventsWait q CuStream phEventWaitList; check_ur r;;
    waits ← gets (covered_by phEventWaitList);
    o ← with_event phEvent UR_COMMAND_USM_FILL q CuStream Token
          (submit_all q (fill_work ptr patternSize pattern size) CuStream waits) (mret tt);
    mret (UR_RESULT_SUCCESS, o)).

(** [urEnqueueUSMMemcpy]: the result of waiting is returned at the end, and does not
    keep the copy from being made. *)
Definition urEnqueueUSMMemcpy (q : nat) (blocking : bool) (pDst pSrc size : Z)
    (phEventWaitList : option (list nat)) (phEvent : bool) : M D (ur_result_t * option nat) :=
  catch_with None (
    x ← get_queue q;
    ScopedContext (q_Device x);;
    CuStream ← getNextTransferStream q;
    Result ← enqueueEventsWait q CuStream phEventWaitList;
    waits ← gets (λ w, match Result with UR_RESULT_SUCCESS => covered_by phEventWaitList w | _ => [] end);
    o ← with_event phEvent UR_COMMAND_USM_MEMCPY q CuStream (Some UINT32_MAX)
          (submit_all q [Memcpy pDst pSrc size] CuStream waits)
          (if blocking then call (cuStreamSynchronize CuStream) else mret tt);
    mret (Result, o)).

(** [urEnqueueTimestampRecordingExp]: always makes an event. *)
Definition urEnqueueTimestampRecordingExp (q : nat) (blocking : bool)
    (phEventWaitList : option (list nat)) : M D (ur_result_t * option nat) :=
  catch_with None (
    x ← get_queue q;
    ScopedContext (q_Device x);;
    st ← getNextComputeStream q;
    r ← enqueueEventsWait q st.1 phEventWaitList; check_ur r;;
    waits ← gets (covered_by phEventWaitList);
    o ← with_event true UR_COMMAND_TIMESTAMP_RECORDING_EXP q st.1 (Some UINT32_MAX) (mret waits)
          (if blocking then call (cuStreamSynchronize st.1) else mret tt);
    mret (UR_RESULT_SUCCESS, o)).

(** ** Waiting *)

Definition urQueueFinish (q : nat) : M D ur_result_t :=
  catch (
    x ← get_queue q;
    ScopedContext (q_Device x);;
    syncStreams true q (λ s, call (cuStreamSynchronize s));;
    mret UR_RESULT_SUCCESS).

(** [urEventWait]; the device is that of the first event's context, [dev]. *)
Definition urEventWait (dev : Z) (phEventWaitList : list nat) : M D ur_result_t :=
  catch (
    (match phEventWaitList with [] => fail UB | _ => mret tt end);;
    ScopedContext dev;;
    forLatestEvents (Some phEventWaitList) (λ h _, wait h)).
End sort.

(** [UR_QUEUE_INFO_EMPTY] of [urQueueGetInfo]. *)
Definition queue_is_empty (q : nat) : M D (ur_result_t * bool) :=
  catch_with false (
    b ← allOf q (λ S,
      r ← raw (cuStreamQuery S);
      match r.1 with
      | CUDA_SUCCESS => mret true
      | CUDA_ERROR_NOT_READY => mret false
      | e => match checkErrorUR e with Some r => throw r | None => mret false end
      end);
    mret (UR_RESULT_SUCCESS, b)).

(** ** Creation, references and native handles *)

Definition new_queue_in (x : ur_queue_handle_t_) : M D nat :=
  q ← gets next_id;
  modify take_id;;
  modify (set_queues <[q := x]>);;
  mret q.

(** [urQueueCreate]; [None] for the properties is a null pointer, or one of another type. *)
Definition urQueueCreate (Devices : list Z) (hDevice : Z) (pProps : option Z) : M D (ur_result_t * option nat) :=
  catch_with None (
    if bool_decide (hDevice ∈ Devices) then
      let URFlags := default 0 pProps in
      let Flags := if URFlags =? UR_QUEUE_FLAG_USE_DEFAULT_STREAM then CU_STREAM_DEFAULT
                   else if URFlags =? UR_QUEUE_FLAG_SYNC_WITH_DEFAULT_STREAM then 0
                   else CU_STREAM_NON_BLOCKING in
      let IsOutOfOrder := negb (Z.land URFlags UR_QUEUE_FLAG_OUT_OF_ORDER_EXEC_MODE_ENABLE =? 0) in
      Priority ← (if negb (Z.land URFlags UR_QUEUE_FLAG_PRIORITY_HIGH =? 0) then
                    ScopedContext hDevice;; UR_CHECK_ERROR (cuCtxGetStreamPriorityRange true)
                  else if negb (Z.land URFlags UR_QUEUE_FLAG_PRIORITY_LOW =? 0) then
                    ScopedContext hDevice;; UR_CHECK_ERROR (cuCtxGetStreamPriorityRange false)
                  else mret 0);
      q ← new_queue_in (new_queue
            (replicate (if IsOutOfOrder then DefaultNumComputeStreams else 1) 0)
            (replicate (if IsOutOfOrder then DefaultNumTransferStreams else 0) 0)
            hDevice Flags URFlags Priority true);
      mret (UR_RESULT_SUCCESS, Some q)
    else mret (UR_RESULT_ERROR_INVALID_DEVICE, None)).

(** [urQueueCreateWithNativeHandle]: one stream, which exists already. *)
Definition urQueueCreateWithNativeHandle (CuStream device : Z) (isNativeHandleOwned : bool)
  : M D (ur_result_t * option nat) :=
  CuFlags ← UR_CHECK_ERROR (cuStreamGetFlags CuStream);
  URFlags ← (if CuFlags =? CU_STREAM_DEFAULT then mret UR_QUEUE_FLAG_USE_DEFAULT_STREAM
             else if CuFlags =? CU_STREAM_NON_BLOCKING then mret UR_QUEUE_FLAG_SYNC_WITH_DEFAULT_STREAM
             else fail Die);
  q ← new_queue_in (new_queue [CuStream] [] device CuFlags URFlags 0 isNativeHandleOwned);
  upd_queue q (on_pool compute (λ p, mkPool (Streams p) (AppliedBarrier p) (StreamIndex p) 1
                                       (LastSyncStreams p)));;
  mret (UR_RESULT_SUCCESS, Some q).

(** [urQueueGetNativeHandle] *)
Definition urQueueGetNativeHandle (q : nat) : M D CUstream :=
  x ← get_queue q;
  ScopedContext (q_Device x);;
  r ← getNextComputeStream q;
  mret r.1.

Definition urQueueRetain (q : nat) : M D ur_result_t :=
  upd_queue q (add_refs 1);; mret UR_RESULT_SUCCESS.

(** [urQueueRelease]; the last one destroys the streams and the object. *)
Definition urQueueRelease (q : nat) : M D ur_result_t :=
  _ ← get_queue q;
  upd_queue q (add_refs (-1));;
  x ← get_queue q;
  if 0 <? q_RefCount x then mret UR_RESULT_SUCCESS else
  r ← catch (
    if negb (q_HasOwnership x) then mret UR_RESULT_SUCCESS else
    ScopedContext (q_Device x);;
    forEachStream q (λ S, call (cuStreamSynchronize S);; call (cuStreamDestroy S));;
    (if negb (HostSubmitTimeStream x =? 0) then
       call (cuStreamSynchronize (HostSubmitTimeStream x));;
       call (cuStreamDestroy (HostSubmitTimeStream x))
     else mret tt);;
    mret UR_RESULT_SUCCESS);
  modify (set_queues (delete q));;
  mret r.

Definition urEventRetain (h : nat) : M D ur_result_t :=
  e ← get_event h;
  let refs := w32 (e_RefCount e + 1) in
  upd_event h (λ e, mark (HasBeenWaitedOn e) (IsRecorded e) (IsStarted e) (EventID e) refs (e_covers e) e);;
  if refs =? 0 then fail Die else mret UR_RESULT_SUCCESS.

(** [release] of the event. *)
Definition release (e : ur_event_handle_t_) : M D ur_result_t :=
  if negb (e_HasOwnership e) then mret UR_RESULT_SUCCESS else
  q ← some (e_Queue e);
  x ← get_queue q;
  call (cuEventDestroy (EvEnd e));;
  (if RequiresTimings x (CommandType e)
   then call (cuEventDestroy (EvQueued e));; call (cuEventDestroy (EvStart e))
   else mret tt);;
  mret UR_RESULT_SUCCESS.

(** [urEventRelease]; the last one also lets go of the queue. *)
Definition urEventRelease (h : nat) : M D ur_result_t :=
  e ← get_event h;
  if e_RefCount e =? 0 then fail Die else
  let refs := w32 (e_RefCount e - 1) in
  upd_event h (λ e, mark (HasBeenWaitedOn e) (IsRecorded e) (IsStarted e) (EventID e) refs (e_covers e) e);;
  if refs =? 0 then
    r ← (λ w, match release e w with (Exc _, w') => (Val UR_RESULT_ERROR_OUT_OF_RESOURCES, w') | o => o end);
    (match e_Queue e with Some q => _ ← urQueueRelease q; mret tt | None => mret tt end);;
    modify (set_events (delete h));;
    mret r
  else mret UR_RESULT_SUCCESS.

(** [urEventCreateWithNativeHandle] *)
Definition urEventCreateWithNativeHandle (hNativeEvent : CUevent) : M D nat :=
  h ← gets next_id;
  modify take_id;;
  modify (set_events <[h := mkEvent UR_COMMAND_EVENTS_WAIT 1 false false false false true UINT32_MAX 0
                             hNativeEvent 0 0 None 0 []]>);;
  mret h.
End adapter.

(** ** A driver that satisfies the laws *)

Module TestDriver.
(** What each stream and event waits for, what is done, what runs after what, and
    which calls fail. *)
Record state := mkState {
  on_stream : gmap Z (list nat); on_event : gmap Z (list nat); done_ : list nat;
  order : list (nat * nat); bad : cu_call → bool
}.

Definition stream_of (d : state) (s : Z) : list nat := default [] (on_stream d !! s).
Definition event_of (d : state) (e : Z) : list nat := default [] (on_event d !! e).

Definition ok (h : Z) (d : state) : CUresult * Z * state := (CUDA_SUCCESS, h, d).

Definition step (c : cu_call) (d : state) : CUresult * Z * state :=
  if bad d c then (CUDA_ERROR_INVALID_VALUE, 0, d) else
  match c with
  | cuStreamCreateWithPriority _ _ =>
      let s := fresh (dom (on_stream d) ∪ {[0]}) in
      ok s (mkState (<[s := []]> (on_stream d)) (on_event d) (done_ d) (order d) (bad d))
  | cuEventCreate _ =>
      let e := fresh (dom (on_event d) ∪ {[0]}) in
      ok e (mkState (on_stream d) (<[e := []]> (on_event d)) (done_ d) (order d) (bad d))
  | cuStreamSynchronize s =>
      ok 0 (mkState (on_stream d) (on_event d) (stream_of d s ++ done_ d) (order d) (bad d))
  | cuEventSynchronize e =>
      ok 0 (mkState (on_stream d) (on_event d) (event_of d e ++ done_ d) (order d) (bad d))
  | cuStreamQuery s =>
      (if bool_decide (stream_of d s ⊆ done_ d) then CUDA_SUCCESS else CUDA_ERROR_NOT_READY, 0, d)
  | cuEventQuery e =>
      (if bool_decide (event_of d e ⊆ done_ d) then CUDA_SUCCESS else CUDA_ERROR_NOT_READY, 0, d)
  | cuStreamWaitEvent s e =>
      ok 0 (mkState (<[s := event_of d e ++ stream_of d s]> (on_stream d)) (on_event d) (done_ d)
              (order d) (bad d))
  | cuEventRecord e s =>
      ok 0 (mkState (on_stream d) (<[e := stream_of d s]> (on_event d)) (done_ d) (order d) (bad d))
  | cuStreamDestroy s =>
      ok 0 (mkState (delete s (on_stream d)) (on_event d) (done_ d) (order d) (bad d))
  | cuEventDestroy e =>
      ok 0 (mkState (on_stream d) (delete e (on_event d)) (done_ d) (order d) (bad d))
  | submit _ c s =>
      ok 0 (mkState (<[s := c :: stream_of d s]> (on_stream d)) (on_event d) (done_ d)
              ((pair c <$> (stream_of d s ++ done_ d)) ++ order d) (bad d))
  | cuCtx _ | cuCtxGetStreamPriorityRange _ | cuStreamGetFlags _ => ok 0 d
  end.

#[global] Instance driver : CudaDriver state := {
  cu := step;
  after d s c := c ∈ stream_of d s ∨ c ∈ done_ d;
  recorded d e c := c ∈ event_of d e ∨ c ∈ done_ d;
  finished d c := c ∈ done_ d;
  runs_after d c c' := (c, c') ∈ order d;
  live_event d e := e ∈ dom (on_event d);
  live_stream d s := s ∈ dom (on_stream d)
}.

Definition start_state (bad : cu_call → bool) : world state :=
  mkWorld (mkState ∅ ∅ [] [] bad) ∅ ∅ 0 false 0 [].
Definition sort : list (nat * ur_event_handle_t_) → list (nat * ur_event_handle_t_) := λ l, l.
End TestDriver.
