(* ===== verification/CudaOrder.v ===== *)
(** * CudaOrder: the queues of the CUDA adapter order commands

    An invariant of [CudaQueue]'s states, kept by every call, and what follows
    from it: commands start after their wait lists and the barriers before them,
    and waiting calls wait for all there is to wait for. *)
From S2P Require Import Prelude CudaFill CudaLaunch CudaQueue.

(** ** What a call does *)

(** A call that returns satisfies [Q], one that throws an error [E]; it may end the
    process, and is never undefined. *)
Definition wp {D A} (m : M D A) (Q : A → world D → Prop) (E : world D → Prop) (w : world D) : Prop :=
  match m w with
  | (Val a, w') => Q a w'
  | (Exc r, w') => r ≠ UR_RESULT_SUCCESS ∧ E w'
  | (Die, _) => True
  | _ => False
  end.

Lemma wp_ret {D A} (a : A) Q E (w : world D) : Q a w → wp (mret a) Q E w.
Proof. done. Qed.

Lemma wp_bind {D A B} (m : M D A) (f : A → M D B) Q E w :
  wp m (λ a w', wp (f a) Q E w') E w → wp (m ≫= f) Q E w.
Proof. unfold wp, mbind, M_bind. by destruct (m w) as [[] w']. Qed.

Lemma wp_mono {D A} (m : M D A) (Q Q' : A → world D → Prop) (E E' : world D → Prop) w :
  wp m Q E w → (∀ a w', Q a w' → Q' a w') → (∀ w', E w' → E' w') → wp m Q' E' w.
Proof. unfold wp. intros Hm HQ HE. destruct (m w) as [[] w']; auto. intros. naive_solver. Qed.

Lemma wp_gets {D A} (f : world D → A) Q E w : Q (f w) w → wp (gets f) Q E w.
Proof. done. Qed.

Lemma wp_modify {D} f Q E (w : world D) : Q tt (f w) → wp (modify f) Q E w.
Proof. done. Qed.

Section invariant.
Context {D : Type} `{!CudaDriver D, !CudaDriverLaws D}.

(** ** History *)

Definition submitted (h : list entry) (q c : nat) : Prop := ∃ ws, HCommand q c ws ∈ h.
Definition barred (h : list entry) (q c : nat) : Prop := ∃ cs, HBarrier q cs ∈ h ∧ c ∈ cs.

(** Every command has a number of its own, and runs after its wait list and after
    what the barriers before it order; the newest entry comes first. *)
Fixpoint ordered (d : D) (h : list entry) : Prop :=
  match h with
  | [] => True
  | HCommand q c ws :: h' =>
      c = length h' ∧ (∀ c', c' ∈ ws ∨ barred h' q c' → runs_after d c c') ∧ ordered d h'
  | HBarrier _ _ :: h' => ordered d h'
  end.

(** ** The invariant *)

Definition size (p : stream_pool) : Z := Z.of_nat (length (Streams p)).

Record pool_ok (p : stream_pool) : Prop := mkPoolOk {
  po_applied : length (AppliedBarrier p) = length (Streams p);
  po_num : 0 ≤ NumStreams p ≤ size p;
  po_size : size p < 2 ^ 32;
  po_sync : 0 ≤ LastSyncStreams p ≤ StreamIndex p;
  po_index : StreamIndex p < 2 ^ 32;
  po_used : NumStreams p = Z.min (StreamIndex p) (size p) ∨ NumStreams p = size p;
  po_flag : ∀ i, AppliedBarrier p !! i = Some true → Z.of_nat i < NumStreams p
}.

(** The stream of a token. *)
Definition at_token (p : stream_pool) (t : Z) : option CUstream :=
  Streams p !! Z.to_nat (t mod size p).

(** A stream that the next wait for everything will reach. *)
Definition in_use (p : stream_pool) (s : CUstream) : Prop :=
  ∃ t, LastSyncStreams p ≤ t < StreamIndex p ∧ at_token p t = Some s.

Definition exists_in (x : ur_queue_handle_t_) (s : CUstream) : Prop :=
  ∃ k i, Streams (pool k x) !! i = Some s ∧ Z.of_nat i < NumStreams (pool k x).

Definition barrier_ok (d : D) (x : ur_queue_handle_t_) (c : nat) : Prop :=
  BarrierEvent x ≠ 0 ∧ recorded d (BarrierEvent x) c ∧
  ∀ k i s, AppliedBarrier (pool k x) !! i = Some true → Streams (pool k x) !! i = Some s → after d s c.

Record queue_ok (d : D) (h : list entry) (q : nat) (x : ur_queue_handle_t_) : Prop := mkQueueOk {
  qo_pool : ∀ k, pool_ok (pool k x);
  qo_some : 0 < size (ComputePool x);
  qo_delay : length (DelayCompute x) = length (Streams (ComputePool x));
  qo_count : 0 ≤ EventCount x < 2 ^ 32;
  qo_device : q_Device x ≠ 0;
  qo_cover : ∀ c, submitted h q c →
    finished d c ∨ ∃ k s, in_use (pool k x) s ∧ after d s c;
  qo_barrier : ∀ c, barred h q c → barrier_ok d x c
}.

(** A token of a command on stream [s]. *)
Definition token_ok (x : ur_queue_handle_t_) (t : Z) (s : CUstream) : Prop :=
  0 ≤ t < StreamIndex (ComputePool x) ∧ at_token (ComputePool x) t = Some s.

Record event_ok (d : D) (x : ur_queue_handle_t_) (e : ur_event_handle_t_) : Prop := mkEventOk {
  eo_interop : IsInterop e = false;
  eo_id : EventID e ≤ EventCount x;
  eo_stream : exists_in x (e_Stream e);
  eo_token : StreamToken e = UINT32_MAX ∨ token_ok x (StreamToken e) (e_Stream e);
  eo_covers : IsRecorded e = false → e_covers e = [];
  eo_end : EvEnd e ≠ 0;
  eo_recorded : ∀ c, c ∈ e_covers e → recorded d (EvEnd e) c ∧ after d (e_Stream e) c;
  eo_waited : HasBeenWaitedOn e = true → ∀ c, c ∈ e_covers e → finished d c
}.

(** Who uses an event of the driver, and for what. *)
Inductive role := RBarrier (q : nat) | RTmp (q : nat) | REnd (h : nat) | RStart (h : nat) | RQueued (h : nat).

Definition claim (w : world D) (e : CUevent) (r : role) : Prop :=
  e ≠ 0 ∧
  match r with
  | RBarrier q => ∃ x, queues w !! q = Some x ∧ BarrierEvent x = e
  | RTmp q => ∃ x, queues w !! q = Some x ∧ BarrierTmpEvent x = e
  | REnd h => ∃ ev, events w !! h = Some ev ∧ IsInterop ev = false ∧ EvEnd ev = e
  | RStart h => ∃ ev, events w !! h = Some ev ∧ EvStart ev = e
  | RQueued h => ∃ ev, events w !! h = Some ev ∧ EvQueued ev = e
  end.

(** Recording the event anew, with driver state [d'], loses nothing. *)
Definition droppable (w : world D) (d' : D) (e : CUevent) (r : role) : Prop :=
  match r with
  | RBarrier q => ∀ c, barred (history w) q c → recorded d' e c
  | REnd h => ∀ ev, events w !! h = Some ev → IsRecorded ev = false
  | RTmp _ | RStart _ | RQueued _ => True
  end.

(** Event [e] of queue [q] tells that command [c] is done: through its record, and
    through its token once the queue has been synchronised. *)
Definition stands_for (w : world D) (q : nat) (e : ur_event_handle_t_) (c : nat) : Prop :=
  recorded (drv w) (EvEnd e) c ∧
  ∀ x, queues w !! q = Some x → StreamToken e ≠ UINT32_MAX →
    StreamToken e < LastSyncStreams (ComputePool x) → finished (drv w) c.

Definition owns (w : world D) (s : CUstream) (q : nat) : Prop :=
  ∃ x, queues w !! q = Some x ∧ exists_in x s.

Record Inv (w : world D) : Prop := mkInv {
  i_order : ordered (drv w) (history w);
  i_queue : ∀ q x, queues w !! q = Some x → queue_ok (drv w) (history w) q x;
  i_event : ∀ h e, events w !! h = Some e →
    match e_Queue e with
    | Some q => ∃ x, queues w !! q = Some x ∧ event_ok (drv w) x e
    | None => IsInterop e = true ∧ e_covers e = [] ∧ e_Stream e = 0 ∧ StreamToken e = UINT32_MAX ∧
        e_HasOwnership e = false
    end;
  i_newer : ∀ h1 e1 h2 e2 q, events w !! h1 = Some e1 → events w !! h2 = Some e2 →
    e_Queue e1 = Some q → e_Queue e2 = Some q →
    e_Stream e1 = e_Stream e2 → EventID e1 ≤ EventID e2 → IsRecorded e2 = true →
    ∀ c, c ∈ e_covers e1 → stands_for w q e2 c;
  i_claim_live : ∀ e r, claim w e r → live_event (drv w) e;
  i_claim_fun : ∀ e r1 r2, claim w e r1 → claim w e r2 → r1 = r2;
  i_own_live : ∀ s q, owns w s q → s ≠ 0 ∧ live_stream (drv w) s;
  i_own_fun : ∀ s q1 q2, owns w s q1 → owns w s q2 → q1 = q2;
  i_event_id : ∀ h e, events w !! h = Some e → (h < next_id w)%nat;
  i_queue_id : ∀ q x, queues w !! q = Some x → (q < next_id w)%nat;
  i_history : ∀ n, n ∈ history w → (match n with HCommand q _ _ | HBarrier q _ => q end < next_id w)%nat;
  i_tls : ThreadLocalStream w = 0
}.

(** ** Monotonicity *)

(** A driver that has only gained orderings; [E] may have lost its record. *)
Definition dle (E : CUevent → Prop) (d d' : D) : Prop := keeps E (λ _, False) (λ _, False) d d'.

Lemma dle_refl E d : dle E d d.
Proof. split; auto. Qed.

Lemma dle_trans E d1 d2 d3 : dle E d1 d2 → dle E d2 d3 → dle E d1 d3.
Proof.
  intros [A1 B1 C1 F1 G1 I1] [A2 B2 C2 F2 G2 I2].
  split; eauto 8.
Qed.

Lemma dle_weaken (E E' : CUevent → Prop) d d' : (∀ e, E e → E' e) → dle E d d' → dle E' d d'.
Proof. intros HE []. split; eauto 6. Qed.

Lemma ordered_mono d d' h : (∀ c c', runs_after d c c' → runs_after d' c c') → ordered d h → ordered d' h.
Proof.
  intros Hr. induction h as [|[q c ws|q cs] h IH]; cbn; [done| |done].
  intros (-> & Hc & Ho). split_and!; [done| |by apply IH]. intros c' Hc'. by apply Hr, Hc.
Qed.

Lemma queue_ok_drv E G d d' h q x : keeps E G (λ _, False) d d' →
  (∀ c, barred h q c → recorded d (BarrierEvent x) c → recorded d' (BarrierEvent x) c) →
  queue_ok d h q x → queue_ok d' h q x.
Proof.
  intros Hd Hrec []. split; try done.
  - intros c Hc. destruct (qo_cover0 c Hc) as [Hf|(k & s & Hs & Ha)].
    + left. by apply Hd.
    + right. exists k, s. split; [done|]. apply Hd; tauto.
  - intros c Hc. destruct (qo_barrier0 c Hc) as (Hb & Hr & Ha). split_and!; [done|by apply Hrec|].
    intros k i s Hi Hs. destruct Hd. apply k_after; [tauto|]. by eapply Ha.
Qed.

Lemma event_ok_drv E G d d' x e : keeps E G (λ _, False) d d' →
  (IsRecorded e = true → ∀ c, recorded d (EvEnd e) c → recorded d' (EvEnd e) c) →
  event_ok d x e → event_ok d' x e.
Proof.
  intros Hd Hrec []. split; try done.
  - intros c Hc. destruct (eo_recorded0 c Hc) as [Hr Ha].
    split; [|apply Hd; tauto]. apply Hrec; [|done].
    destruct (IsRecorded e); [done|]. rewrite eo_covers0 in Hc by done. by apply elem_of_nil in Hc.
  - intros Hw c Hc. apply Hd. by apply eo_waited0.
Qed.

(** A step of the driver keeps the invariant. *)
#[export] Instance rerecorded_dec c r e : Decision (rerecorded c r e).
Proof. destruct c; try apply False_dec. cbn. destruct r; try (right; by intros []); destruct (decide (e = e0)); [left|right]; naive_solver. Defined.

Lemma Inv_keeps E `{!∀ e, Decision (E e)} G w d' : Inv w → keeps E G (λ _, False) (drv w) d' →
  (∀ e r, E e → claim w e r → droppable w d' e r) → (∀ e r, G e → ¬ claim w e r) → Inv (set_drv d' w).
Proof.
  intros [] Hk HE HG.
  assert (Hrec : ∀ e r c, claim w e r → recorded (drv w) e c → (E e → recorded d' e c) → recorded d' e c).
  { intros e r c Hcl Hc Hor. destruct (decide (E e)) as [Hin|Hin]; [by apply Hor|].
    apply Hk; [by eapply i_claim_live0|done|intros HGe; by apply (HG e r)|done]. }
  assert (Hend : ∀ h e q, events w !! h = Some e → e_Queue e = Some q → claim w (EvEnd e) (REnd h)).
  { intros h e q He Hq. specialize (i_event0 h e He). rewrite Hq in i_event0.
    destruct i_event0 as (x & _ & Hok). split; [apply Hok|exists e; split_and!; [done|apply Hok|done]]. }
  assert (Hended : ∀ h e q c, events w !! h = Some e → e_Queue e = Some q → IsRecorded e = true →
    recorded (drv w) (EvEnd e) c → recorded d' (EvEnd e) c).
  { intros h e q c He Hq Hr Hc. eapply Hrec; [by eapply Hend|done|].
    intros HEe. pose proof (HE _ _ HEe (Hend h e q He Hq) e He). congruence. }
  split; cbn; try done.
  - eapply ordered_mono; [|done]. apply Hk.
  - intros q x Hx. eapply queue_ok_drv; [exact Hk| |by auto]. intros c Hb Hc.
    destruct (qo_barrier _ _ _ _ (i_queue0 q x Hx) c Hb) as [Hz _].
    assert (Hcl : claim w (BarrierEvent x) (RBarrier q)) by (split; [done|by exists x]).
    eapply Hrec; [done|done|]. intros HEx. by apply (HE _ _ HEx Hcl).
  - intros h e He. specialize (i_event0 h e He). destruct (e_Queue e) as [q|] eqn:Hq; [|done].
    destruct i_event0 as (x & Hx & Hok). exists x. split; [done|].
    eapply event_ok_drv; [exact Hk| |done]. intros Hr c Hc. by eapply Hended.
  - intros h1 e1 h2 e2 q He1 He2 Hq1 Hq2 Hs Hid Hr c Hc.
    destruct (i_newer0 h1 e1 h2 e2 q He1 He2 Hq1 Hq2 Hs Hid Hr c Hc) as [Hrc Hfin].
    split; cbn; [by eapply Hended|]. intros x Hx Ht Hlt. apply Hk. by eapply Hfin.
  - intros e r Hc. apply Hk; [by apply (i_claim_live0 e r)|intros HGe; by apply (HG e r)].
  - intros s q Ho. destruct (i_own_live0 s q Ho) as [Hz Hl]. split; [done|]. apply Hk; tauto.
Qed.

Lemma Inv_drv E `{!∀ e, Decision (E e)} w d' : Inv w → dle E (drv w) d' →
  (∀ e r, E e → claim w e r → droppable w d' e r) → Inv (set_drv d' w).
Proof. intros Hi Hd HE. by eapply (Inv_keeps E). Qed.

(** ** Updates of a queue *)

Record grows (x x' : ur_queue_handle_t_) : Prop := mkGrows {
  g_count : EventCount x ≤ EventCount x';
  g_stream : ∀ k i s, Streams (pool k x) !! i = Some s → Z.of_nat i < NumStreams (pool k x) →
    Streams (pool k x') !! i = Some s ∧ Z.of_nat i < NumStreams (pool k x');
  g_size : ∀ k, size (pool k x') = size (pool k x);
  g_index : ∀ k, StreamIndex (pool k x) ≤ StreamIndex (pool k x')
}.

(** The commands on the streams whose tokens become synchronised are done. *)
Definition syncs (w : world D) (q : nat) (x x' : ur_queue_handle_t_) : Prop :=
  ∀ h e t c, events w !! h = Some e → e_Queue e = Some q → c ∈ e_covers e →
    token_ok x t (e_Stream e) → LastSyncStreams (ComputePool x) ≤ t →
    t < LastSyncStreams (ComputePool x') → finished (drv w) c.

Lemma syncs_same w q x x' : LastSyncStreams (ComputePool x') = LastSyncStreams (ComputePool x) → syncs w q x x'.
Proof. intros E h e t c _ _ _ _. lia. Qed.

Lemma size_eq p p' : length (Streams p') = length (Streams p) → size p' = size p.
Proof. unfold size. lia. Qed.

Lemma at_token_created p t s : pool_ok p → 0 ≤ t < StreamIndex p → at_token p t = Some s →
  Z.of_nat (Z.to_nat (t mod size p)) < NumStreams p.
Proof.
  intros [] Ht Hs. apply lookup_lt_Some in Hs. assert (Hsz : 0 < size p) by (unfold size; lia).
  pose proof (Z.mod_pos_bound t (size p) Hsz). rewrite Z2Nat.id by lia.
  destruct po_used0 as [Hm|Hm]; [|lia].
  destruct (decide (size p ≤ t)); [lia|]. rewrite (Z.mod_small t) by lia. lia.
Qed.

Lemma grows_exists x x' s : grows x x' → exists_in x s → exists_in x' s.
Proof. intros [] (k & i & Hs & Hi). exists k, i. by apply g_stream0. Qed.

Lemma grows_token x x' t s : pool_ok (ComputePool x) → grows x x' →
  token_ok x t s → token_ok x' t s.
Proof.
  intros Hp [] [Ht Hs]. pose proof (g_index0 compute). cbn in *.
  split; [lia|]. pose proof (at_token_created _ t s Hp Ht Hs) as Hi. unfold at_token in *.
  pose proof (g_size0 compute) as Es. cbn in Es. rewrite Es.
  by destruct (g_stream0 compute _ _ Hs Hi).
Qed.

Lemma event_ok_grows d x x' e : pool_ok (ComputePool x) → grows x x' →
  event_ok d x e → event_ok d x' e.
Proof.
  intros Hp Hg []. pose proof (g_count _ _ Hg). split; try done.
  - lia.
  - by eapply grows_exists.
  - destruct eo_token0 as [Ht|Ht]; [by left|right]. by eapply grows_token.
Qed.

Lemma set_queues_alter f q x (w : world D) : queues w !! q = Some x →
  set_queues (alter f q) w = set_queues <[q := f x]> w.
Proof.
  intros Hx. unfold set_queues. f_equal. apply map_eq. intros q'.
  destruct (decide (q' = q)) as [->|Hne].
  - by rewrite lookup_alter_eq, Hx, lookup_insert_eq.
  - by rewrite lookup_alter_ne, lookup_insert_ne.
Qed.

(** An event of the driver that nobody uses. *)
Definition unclaimed (w : world D) (e : CUevent) : Prop :=
  live_event (drv w) e ∧ ∀ r, ¬ claim w e r.

(** At most one of the two events is new. *)
Definition handles_ok (w : world D) (x x' : ur_queue_handle_t_) : Prop :=
  (BarrierEvent x' = BarrierEvent x ∧ BarrierTmpEvent x' = BarrierTmpEvent x) ∨
  (unclaimed w (BarrierEvent x') ∧ BarrierTmpEvent x' = BarrierTmpEvent x) ∨
  (BarrierEvent x' = BarrierEvent x ∧ unclaimed w (BarrierTmpEvent x')).

Lemma claim_insert w q x x' e r : queues w !! q = Some x → handles_ok w x x' →
  claim (set_queues <[q := x']> w) e r →
  claim w e r ∨ unclaimed w e ∧
    ((r = RBarrier q ∧ e = BarrierEvent x' ∧ e ≠ BarrierEvent x ∧ BarrierTmpEvent x' = BarrierTmpEvent x) ∨
     (r = RTmp q ∧ e = BarrierTmpEvent x' ∧ e ≠ BarrierTmpEvent x ∧ BarrierEvent x' = BarrierEvent x)).
Proof.
  intros Hx Hh [Hz Hc].
  assert (HT : e = BarrierTmpEvent x → claim w e (RTmp q)) by (intros ->; split; [done|by exists x]).
  assert (HB : e = BarrierEvent x → claim w e (RBarrier q)) by (intros ->; split; [done|by exists x]).
  destruct r as [q'|q'|h|h|h]; cbn in Hc; try (left; by split).
  - destruct Hc as (y & Hy & He). destruct (decide (q' = q)) as [->|Hne].
    + rewrite lookup_insert_eq in Hy. injection Hy as <-.
      destruct (decide (e = BarrierEvent x)) as [|Hn]; [left; by apply HB|].
      destruct Hh as [[E1 E2]|[[U E2]|[E1 U]]]; [congruence| |congruence].
      right. rewrite He in U. split; [done|]. by left.
    + rewrite lookup_insert_ne in Hy by done. left. split; [done|by exists y].
  - destruct Hc as (y & Hy & He). destruct (decide (q' = q)) as [->|Hne].
    + rewrite lookup_insert_eq in Hy. injection Hy as <-.
      destruct (decide (e = BarrierTmpEvent x)) as [|Hn]; [left; by apply HT|].
      destruct Hh as [[E1 E2]|[[U E2]|[E1 U]]]; [congruence|congruence|].
      right. rewrite He in U. split; [done|]. by right.
    + rewrite lookup_insert_ne in Hy by done. left. split; [done|by exists y].
Qed.

Lemma owns_insert w q x x' s q' : queues w !! q = Some x →
  owns (set_queues <[q := x']> w) s q' → owns w s q' ∨ q' = q ∧ exists_in x' s.
Proof.
  intros Hx (y & Hy & Hs). cbn in Hy. destruct (decide (q' = q)) as [->|Hne].
  - rewrite lookup_insert_eq in Hy. injection Hy as <-. by right.
  - rewrite lookup_insert_ne in Hy by done. left. by exists y.
Qed.

Lemma Inv_queue w q x x' : Inv w → queues w !! q = Some x →
  queue_ok (drv w) (history w) q x' → grows x x' → syncs w q x x' → handles_ok w x x' →
  (∀ s, exists_in x' s → exists_in x s ∨ s ≠ 0 ∧ live_stream (drv w) s ∧ ∀ q', ¬ owns w s q') →
  Inv (set_queues <[q := x']> w).
Proof.
  intros Hi Hx Hok Hg Hsy Hh Hnew. pose proof Hi as []. split; cbn; try done.
  - intros q' y Hy. destruct (decide (q' = q)) as [->|Hne].
    + rewrite lookup_insert_eq in Hy. by injection Hy as <-.
    + rewrite lookup_insert_ne in Hy by done. by apply i_queue0.
  - intros h e He. specialize (i_event0 h e He). destruct (e_Queue e) as [q'|]; [|done].
    destruct i_event0 as (y & Hy & Hev). destruct (decide (q' = q)) as [->|Hne].
    + rewrite lookup_insert_eq. exists x'. split; [done|]. assert (y = x) as -> by congruence.
      eapply event_ok_grows; [|done|done]. apply (qo_pool _ _ _ _ (i_queue0 q x Hx) compute).
    + rewrite lookup_insert_ne by done. by exists y.
  - intros h1 e1 h2 e2 q' H1 H2 Hq1 Hq2 Hs Hid Hr c Hc.
    destruct (i_newer0 h1 e1 h2 e2 q' H1 H2 Hq1 Hq2 Hs Hid Hr c Hc) as [Hrc Hfin].
    split; cbn; [done|]. intros y [[<- <-]|[_ Hy]]%lookup_insert_Some; [|by apply Hfin].
    intros Ht Hlt. destruct (decide (StreamToken e2 < LastSyncStreams (ComputePool x))) as [Hl|Hl].
    { by apply (Hfin x). }
    pose proof (i_event0 h2 e2 H2) as Hev. rewrite Hq2 in Hev. destruct Hev as (y & Hy & Hok2).
    assert (y = x) as -> by congruence. destruct (eo_token _ _ _ Hok2) as [|Htk]; [done|].
    rewrite <- Hs in Htk. apply (Hsy h1 e1 _ c H1 Hq1 Hc Htk); [lia|done].
  - intros e r Hc. destruct (claim_insert w q x x' e r Hx Hh Hc) as [Hc'|[[Hl _] _]]; [|done].
    by apply (i_claim_live0 e r).
  - intros e r1 r2 H1 H2.
    destruct (claim_insert w q x x' e r1 Hx Hh H1) as [C1|[[_ U1] C1]],
      (claim_insert w q x x' e r2 Hx Hh H2) as [C2|[[_ U2] C2]].
    + by apply (i_claim_fun0 e).
    + by destruct (U2 _ C1).
    + by destruct (U1 _ C2).
    + destruct C1 as [(-> & E1 & N1 & T1)|(-> & E1 & N1 & T1)],
        C2 as [(-> & E2 & N2 & T2)|(-> & E2 & N2 & T2)]; congruence.
  - intros s q' Ho. destruct (owns_insert w q x x' s q' Hx Ho) as [Ho'|[-> Hs]]; [by apply (i_own_live0 s q')|].
    destruct (Hnew s Hs) as [Hs'|(? & ? & _)]; [|done]. apply (i_own_live0 s q). by exists x.
  - assert (Hcase : ∀ s q', owns (set_queues <[q := x']> w) s q' →
      owns w s q' ∨ (q' = q ∧ ∀ q'', ¬ owns w s q'')).
    { intros s q' Ho. destruct (owns_insert w q x x' s q' Hx Ho) as [Ho'|[-> Hs]]; [by left|].
      destruct (Hnew s Hs) as [Hs'|(_ & _ & Hn)]; [left; by exists x|by right]. }
    intros s q1 q2 H1 H2. destruct (Hcase s q1 H1) as [O1|[-> N1]], (Hcase s q2 H2) as [O2|[-> N2]].
    + by apply (i_own_fun0 s).
    + by destruct (N2 q1).
    + by destruct (N1 q2).
    + done.
  - intros q' y Hy. destruct (decide (q' = q)) as [->|Hne]; [by eapply i_queue_id0|].
    rewrite lookup_insert_ne in Hy by done. by eapply i_queue_id0.
Qed.

(** ** Updates of the history *)

Lemma barred_command h q q' c ws c' : barred (HCommand q' c ws :: h) q c' ↔ barred h q c'.
Proof.
  unfold barred. split; intros (cs & Hin & Hc).
  - apply elem_of_cons in Hin as [?|Hin]; [done|]. by exists cs.
  - exists cs. split; [by apply elem_of_cons; right|done].
Qed.

Lemma submitted_barrier h q q' cs c : submitted (HBarrier q' cs :: h) q c ↔ submitted h q c.
Proof.
  unfold submitted. split; intros (ws & Hin).
  - apply elem_of_cons in Hin as [?|Hin]; [done|]. by exists ws.
  - exists ws. by apply elem_of_cons; right.
Qed.

Lemma Inv_command w q x c ws : Inv w → queues w !! q = Some x → c = length (history w) →
  (∃ k s, in_use (pool k x) s ∧ after (drv w) s c) →
  (∀ c', c' ∈ ws ∨ barred (history w) q c' → runs_after (drv w) c c') →
  Inv (push_history (HCommand q c ws) w).
Proof.
  intros [] Hx -> Hs Hr. split; cbn; try done.
  - intros q' y Hy. destruct (i_queue0 q' y Hy). split; try done.
    + intros c' (ws' & [[= -> -> ->]|Hin]%elem_of_cons).
      * right. by assert (y = x) as -> by congruence.
      * apply qo_cover0. by exists ws'.
    + intros c' Hc'%barred_command. by apply qo_barrier0.
  - intros n [->|Hn]%elem_of_cons; [by eapply i_queue_id0|by apply i_history0].
Qed.

Lemma Inv_push_barrier w q x cs : Inv w → queues w !! q = Some x →
  (∀ c, c ∈ cs → BarrierEvent x ≠ 0 ∧ recorded (drv w) (BarrierEvent x) c) →
  (∀ k i, AppliedBarrier (pool k x) !! i ≠ Some true) →
  Inv (push_history (HBarrier q cs) w).
Proof.
  intros [] Hx Hr Hf. split; cbn; try done.
  - intros q' y Hy. destruct (i_queue0 q' y Hy). split; try done.
    + intros c Hc%submitted_barrier. by apply qo_cover0.
    + intros c (cs' & [[= -> ->]|Hin]%elem_of_cons & Hc).
      * assert (y = x) as -> by congruence. destruct (Hr c Hc). split_and!; [done..|].
        intros k i s Hi. by destruct (Hf k i).
      * apply qo_barrier0. by exists cs'.
  - intros n [->|Hn]%elem_of_cons; [by eapply i_queue_id0|by apply i_history0].
Qed.

(** ** Updates of the events *)

(** The fields that never change. *)
Definition same_event (e e' : ur_event_handle_t_) : Prop :=
  IsInterop e' = IsInterop e ∧ StreamToken e' = StreamToken e ∧ EvEnd e' = EvEnd e ∧
  EvStart e' = EvStart e ∧ EvQueued e' = EvQueued e ∧ e_Queue e' = e_Queue e ∧ e_Stream e' = e_Stream e.

Lemma claim_event w h e e' ev r : events w !! h = Some e → same_event e e' →
  claim (set_events <[h := e']> w) ev r → claim w ev r.
Proof.
  intros He (E1 & _ & E2 & E3 & E4 & _) [Hz Hc]. split; [done|].
  destruct r as [q|q|g|g|g]; cbn in *; try done.
  all: destruct Hc as (y & Hy & Hrest); destruct (decide (g = h)) as [->|Hne];
    [rewrite lookup_insert_eq in Hy; injection Hy as <-; exists e
    |rewrite lookup_insert_ne in Hy by done; by exists y].
  all: intuition congruence.
Qed.

Lemma Inv_event w h e e' q x : Inv w → events w !! h = Some e → e_Queue e = Some q →
  queues w !! q = Some x → same_event e e' → event_ok (drv w) x e' →
  (∀ g e2, g ≠ h → events w !! g = Some e2 → e_Queue e2 = Some q → e_Stream e2 = e_Stream e →
     (EventID e2 ≤ EventID e' → IsRecorded e' = true → ∀ c, c ∈ e_covers e2 → stands_for w q e c) ∧
     (EventID e' ≤ EventID e2 → IsRecorded e2 = true → ∀ c, c ∈ e_covers e' → stands_for w q e2 c)) →
  (∀ c, c ∈ e_covers e' → stands_for w q e c) →
  Inv (set_events <[h := e']> w).
Proof.
  intros [] He Hq Hx Hsame Hok Hnew Hself. pose proof Hsame as (E1 & E2 & E3 & E4 & E5 & E6 & E7).
  split; cbn; try done.
  - intros g e2 Hg. destruct (decide (g = h)) as [->|Hne].
    + rewrite lookup_insert_eq in Hg. injection Hg as <-. rewrite E6, Hq. by exists x.
    + rewrite lookup_insert_ne in Hg by done. by apply i_event0 in Hg.
  - intros h1 e1 h2 e2 q' H1 H2 Hq1 Hq2 Hs Hid Hr.
    destruct (decide (h1 = h)) as [->|N1], (decide (h2 = h)) as [->|N2];
      rewrite ?lookup_insert_eq in H1; rewrite ?lookup_insert_eq in H2;
      rewrite ?lookup_insert_ne in H1 by done; rewrite ?lookup_insert_ne in H2 by done.
    + injection H1 as <-. rewrite E6, Hq in Hq1. injection Hq1 as <-. injection H2 as <-.
      unfold stands_for. rewrite E2, E3. by apply Hself.
    + injection H1 as <-. rewrite E7 in Hs. rewrite E6, Hq in Hq1. injection Hq1 as <-.
      by apply (Hnew h2 e2 N2 H2 Hq2 (eq_sym Hs)).
    + injection H2 as <-. rewrite E7 in Hs. rewrite E6, Hq in Hq2. injection Hq2 as <-.
      unfold stands_for. rewrite E2, E3. by apply (Hnew h1 e1 N1 H1 Hq1 Hs).
    + intros c Hc. by apply (i_newer0 h1 e1 h2 e2 q').
  - intros ev r Hc. apply (i_claim_live0 ev r). by eapply claim_event.
  - intros ev r1 r2 H1 H2. apply (i_claim_fun0 ev); by eapply claim_event.
  - intros g e2 Hg. destruct (decide (g = h)) as [->|Hne]; [by eapply i_event_id0|].
    rewrite lookup_insert_ne in Hg by done. by eapply i_event_id0.
Qed.

Lemma same_mark a b c i n l e : same_event e (mark a b c i n l e).
Proof. by repeat split. Qed.

(** Changing only the flags that nothing depends on. *)
Lemma Inv_mark w h e waited started refs : Inv w → events w !! h = Some e →
  (waited = true → ∀ c, c ∈ e_covers e → finished (drv w) c) →
  Inv (set_events <[h := mark waited (IsRecorded e) started (EventID e) refs (e_covers e) e]> w).
Proof.
  intros Hi He Hwait. pose proof (i_event _ Hi h e He) as Hev.
  destruct (e_Queue e) as [q|] eqn:Hq.
  - destruct Hev as (x & Hx & Hok).
    assert (Hself : ∀ c, c ∈ e_covers e → stands_for w q e c).
    { intros c Hc. apply (i_newer _ Hi h e h e q); try done.
      destruct (IsRecorded e) eqn:Hr; [done|]. rewrite (eo_covers _ _ _ Hok Hr) in Hc. by apply elem_of_nil in Hc. }
    eapply Inv_event; try done; [by destruct Hok|].
    intros g e2 Hne Hg Hq2 Hs. split; intros Hid Hr c Hc.
    + by apply (i_newer _ Hi g e2 h e q).
    + by apply (i_newer _ Hi h e g e2 q).
  - destruct Hi. split; cbn; try done.
    + intros g e2 Hg. destruct (decide (g = h)) as [->|Hne].
      * rewrite lookup_insert_eq in Hg. injection Hg as <-. cbn. by rewrite Hq.
      * rewrite lookup_insert_ne in Hg by done. by apply i_event0 in Hg.
    + intros h1 e1 h2 e2 q' H1 H2 Hq1 Hq2.
      assert (h1 ≠ h ∧ h2 ≠ h) as [N1 N2].
      { split; intros ->; [rewrite lookup_insert_eq in H1; injection H1 as <-
          |rewrite lookup_insert_eq in H2; injection H2 as <-]; cbn in *; congruence. }
      rewrite lookup_insert_ne in H1 by done. rewrite lookup_insert_ne in H2 by done.
      by apply (i_newer0 h1 e1 h2 e2 q').
    + intros ev r Hc. apply (i_claim_live0 ev r).
      by eapply (claim_event w h e); [|apply same_mark|].
    + intros ev r1 r2 H1 H2.
      apply (i_claim_fun0 ev); by eapply (claim_event w h e); [|apply same_mark|].
    + intros g e2 Hg. destruct (decide (g = h)) as [->|Hne]; [by eapply i_event_id0|].
      rewrite lookup_insert_ne in Hg by done. by eapply i_event_id0.
Qed.

Lemma Inv_delete_event w h : Inv w → Inv (set_events (delete h) w).
Proof.
  intros []. assert (Hsub : ∀ ev r, claim (set_events (delete h) w) ev r → claim w ev r).
  { intros ev r [Hz Hc]. split; [done|]. destruct r; cbn in *; try done;
      destruct Hc as (y & [_ Hy]%lookup_delete_Some & Hr); by exists y. }
  split; cbn; try done.
  - intros g e [_ Hg]%lookup_delete_Some. by apply i_event0 in Hg.
  - intros h1 e1 h2 e2 q [_ H1]%lookup_delete_Some [_ H2]%lookup_delete_Some. by apply (i_newer0 h1 e1 h2).
  - intros ev r Hc. by apply (i_claim_live0 ev r), Hsub.
  - intros ev r1 r2 H1 H2. apply (i_claim_fun0 ev); by apply Hsub.
  - intros g e [_ Hg]%lookup_delete_Some. by eapply i_event_id0.
Qed.

(** A new event; its handles are null or new, and different. *)
Lemma Inv_new_event w q x e : Inv w → queues w !! q = Some x → e_Queue e = Some q →
  event_ok (drv w) x e → IsRecorded e = false → unclaimed w (EvEnd e) →
  (EvStart e ≠ 0 → unclaimed w (EvStart e) ∧ EvStart e ≠ EvEnd e) →
  (EvQueued e ≠ 0 → unclaimed w (EvQueued e) ∧ EvQueued e ≠ EvEnd e ∧ EvQueued e ≠ EvStart e) →
  Inv (set_events <[next_id w := e]> (take_id w)).
Proof.
  intros [] Hx Hq Hok Hrec Hend Hstart Hqueued.
  assert (Hnone : events w !! next_id w = None).
  { destruct (events w !! next_id w) as [e2|] eqn:E; [|done]. apply i_event_id0 in E. lia. }
  assert (Hcov : e_covers e = []) by (by apply Hok).
  set (n := next_id w) in *.
  assert (Hcl : ∀ ev r, claim (set_events <[n := e]> (take_id w)) ev r →
    claim w ev r ∨ unclaimed w ev ∧ ((r = REnd n ∧ ev = EvEnd e) ∨ (r = RStart n ∧ ev = EvStart e)
      ∨ (r = RQueued n ∧ ev = EvQueued e))).
  { intros ev r [Hz Hc]. destruct r as [q'|q'|g|g|g]; cbn in Hc; try (by left; split).
    all: destruct Hc as (y & Hy & Hr); destruct (decide (g = n)) as [->|Hne];
      [rewrite lookup_insert_eq in Hy; injection Hy as <-; right
      |rewrite lookup_insert_ne in Hy by done; left; split; [done|by exists y]].
    - destruct Hr as [_ <-]. split; [done|]. by left.
    - subst ev. split; [by apply Hstart|]. by right; left.
    - subst ev. split; [by apply Hqueued|]. by right; right. }
  split; cbn; try done.
  - intros g e2 Hg. destruct (decide (g = n)) as [->|Hne].
    + rewrite lookup_insert_eq in Hg. injection Hg as <-. rewrite Hq. by exists x.
    + rewrite lookup_insert_ne in Hg by done. by apply i_event0 in Hg.
  - intros h1 e1 h2 e2 q' H1 H2 Hq1 Hq2 Hs Hid Hr c Hc.
    assert (h1 ≠ n) as N1 by (intros ->; rewrite lookup_insert_eq in H1; injection H1 as <-;
      rewrite Hcov in Hc; by apply elem_of_nil in Hc).
    assert (h2 ≠ n) as N2 by (intros ->; rewrite lookup_insert_eq in H2; injection H2 as <-; congruence).
    rewrite lookup_insert_ne in H1 by done. rewrite lookup_insert_ne in H2 by done.
    by apply (i_newer0 h1 e1 h2 e2 q').
  - intros ev r Hc. destruct (Hcl ev r Hc) as [Hc'|[[Hl _] _]]; [by apply (i_claim_live0 ev r)|done].
  - intros ev r1 r2 H1 H2. pose proof (proj1 H1) as Hz.
    destruct (Hcl ev r1 H1) as [C1|[[_ U1] C1]], (Hcl ev r2 H2) as [C2|[[_ U2] C2]].
    + by apply (i_claim_fun0 ev).
    + by destruct (U2 _ C1).
    + by destruct (U1 _ C2).
    + destruct C1 as [[-> E1]|[[-> E1]|[-> E1]]], C2 as [[-> E2]|[[-> E2]|[-> E2]]]; try done;
        exfalso; subst ev; intuition congruence.
  - intros g e2 Hg. destruct (decide (g = n)) as [->|Hne]; [lia|].
    rewrite lookup_insert_ne in Hg by done. apply i_event_id0 in Hg. lia.
  - intros q' y Hy. apply i_queue_id0 in Hy. lia.
  - intros m Hm. apply i_history0 in Hm. lia.
Qed.

(** ** Specifications of calls *)

(** What a later state still has. *)
Record le (w w' : world D) : Prop := mkLe {
  le_after : ∀ s c, after (drv w) s c → after (drv w') s c;
  le_finished : ∀ c, finished (drv w) c → finished (drv w') c;
  le_barred : ∀ q c, barred (history w') q c → barred (history w) q c;
  le_events : ∀ h, is_Some (events w !! h) → is_Some (events w' !! h)
}.

Definition same_core (x x' : ur_queue_handle_t_) : Prop :=
  ∀ k, Streams (pool k x') = Streams (pool k x) ∧ StreamIndex (pool k x') = StreamIndex (pool k x) ∧
    NumStreams (pool k x') = NumStreams (pool k x) ∧
    LastSyncStreams (pool k x') = LastSyncStreams (pool k x).

(** Queue [q] keeps its streams and counters. *)
Definition frame (q : nat) (w w' : world D) : Prop :=
  le w w' ∧ ∀ x, queues w !! q = Some x → ∃ x', queues w' !! q = Some x' ∧ same_core x x'.

Definition spec {A} (q : nat) (m : M D A) (w : world D) (Q : A → world D → Prop) : Prop :=
  wp m (λ a w', Inv w' ∧ frame q w w' ∧ Q a w') Inv w.

Lemma le_refl w : le w w.
Proof. by split. Qed.

Lemma le_trans w1 w2 w3 : le w1 w2 → le w2 w3 → le w1 w3.
Proof. intros [] []. split; eauto. Qed.

Lemma same_core_refl x : same_core x x.
Proof. done. Qed.

Lemma same_core_trans x y z : same_core x y → same_core y z → same_core x z.
Proof.
  intros H1 H2 k.
  destruct (H1 k) as (A1 & A2 & A3 & A4), (H2 k) as (B1 & B2 & B3 & B4).
  split_and!; congruence.
Qed.

Lemma frame_refl q w : frame q w w.
Proof. split; [apply le_refl|]. intros x Hx. by exists x. Qed.

Lemma frame_trans q w1 w2 w3 : frame q w1 w2 → frame q w2 w3 → frame q w1 w3.
Proof.
  intros [L1 F1] [L2 F2]. split; [by eapply le_trans|]. intros x Hx.
  destruct (F1 x Hx) as (y & Hy & Hxy), (F2 y Hy) as (z & Hz & Hyz).
  exists z. split; [done|by eapply same_core_trans].
Qed.

Lemma spec_bind {A B} q (m : M D A) (f : A → M D B) w Q R :
  spec q m w Q →
  (∀ a w', Inv w' → frame q w w' → Q a w' → spec q (f a) w' R) →
  spec q (m ≫= f) w R.
Proof.
  intros Hm Hf. apply wp_bind. eapply wp_mono; [exact Hm| |done].
  intros a w' (Hi & Hfr & Hq). eapply wp_mono; [by apply Hf| |done].
  intros b w'' (Hi' & Hfr' & Hr). split_and!; [done|by eapply frame_trans|done].
Qed.

Lemma spec_mono {A} q (m : M D A) w (Q Q' : A → world D → Prop) :
  spec q m w Q → (∀ a w', Inv w' → frame q w w' → Q a w' → Q' a w') → spec q m w Q'.
Proof. intros Hm HQ. eapply wp_mono; [exact Hm| |done]. intros a w' (? & ? & ?). by auto. Qed.

Lemma spec_ret {A} q (a : A) w (Q : A → world D → Prop) : Inv w → Q a w → spec q (mret a) w Q.
Proof. intros Hi Hq. apply wp_ret. split_and!; [done|apply frame_refl|done]. Qed.

Lemma spec_gets {A} q (f : world D → A) w (Q : A → world D → Prop) :
  Inv w → Q (f w) w → spec q (gets f) w Q.
Proof. intros Hi Hq. apply wp_gets. split_and!; [done|apply frame_refl|done]. Qed.

Lemma spec_throw {A} q r w (Q : A → world D → Prop) : r ≠ UR_RESULT_SUCCESS → Inv w → spec q (throw r) w Q.
Proof. done. Qed.

Lemma spec_some {A} q (o : option A) a w (Q : A → world D → Prop) :
  o = Some a → Inv w → Q a w → spec q (some o) w Q.
Proof. intros ->. apply spec_ret. Qed.

Lemma spec_get_queue q q' x w (Q : _ → world D → Prop) : queues w !! q' = Some x → Inv w → Q x w →
  spec q (get_queue q') w Q.
Proof.
  intros Hx Hi Hq. unfold spec, wp, get_queue, mbind, M_bind, gets. rewrite Hx. cbn.
  split_and!; [done|apply frame_refl|done].
Qed.

Lemma spec_get_event q h e w (Q : _ → world D → Prop) : events w !! h = Some e → Inv w → Q e w →
  spec q (get_event h) w Q.
Proof.
  intros He Hi Hq. unfold spec, wp, get_event, mbind, M_bind, gets. rewrite He. cbn.
  split_and!; [done|apply frame_refl|done].
Qed.

Lemma spec_check_ur q r w : Inv w → spec q (check_ur r) w (λ _ w', r = UR_RESULT_SUCCESS ∧ w' = w).
Proof. intros Hi. destruct r; try done. by apply spec_ret. Qed.

(** A call of the driver that does not replace a record in use. *)
Definition harmless (w : world D) (c : cu_call) : Prop :=
  (∀ h d' e r, cu c (drv w) = (CUDA_SUCCESS, h, d') → rerecorded c CUDA_SUCCESS e → claim w e r →
     droppable w d' e r) ∧
  (∀ e, ¬ gone_event c e) ∧ ∀ s, ¬ gone_stream c s.

Lemma rerecorded_success c r e : rerecorded c r e → rerecorded c CUDA_SUCCESS e ∧ r = CUDA_SUCCESS.
Proof. destruct c; cbn; try done. tauto. Qed.

Lemma harmless_dle w c r h d' : harmless w c → cu c (drv w) = (r, h, d') →
  dle (rerecorded c r) (drv w) d'.
Proof.
  intros (_ & Hg & Hs) Ec. destruct (cu_keeps _ _ _ _ _ Ec). split; auto.
Qed.

Lemma harmless_Inv w c r h d' : Inv w → harmless w c → cu c (drv w) = (r, h, d') →
  Inv (set_drv d' w).
Proof.
  intros Hi Hc Ec. eapply (Inv_drv (rerecorded c r)); [done|by eapply harmless_dle|].
  intros e ro [He ->]%rerecorded_success Hcl. exact (proj1 Hc h d' e ro Ec He Hcl).
Qed.

Lemma dle_le w d' E : dle E (drv w) d' → le w (set_drv d' w).
Proof. intros []. split; cbn; eauto. Qed.

Lemma spec_raw q c w : Inv w → harmless w c →
  spec q (raw c) w (λ r w', cu c (drv w) = (r.1, r.2, drv w') ∧ w' = set_drv (drv w') w).
Proof.
  intros Hi Hc. unfold spec, wp, raw. destruct (cu c (drv w)) as [[r h] d'] eqn:Ec.
  split_and!; [by eapply harmless_Inv| |done|done].
  split; [eapply dle_le, harmless_dle; done|]. intros x Hx. by exists x.
Qed.

Lemma spec_check_error q c w : Inv w → harmless w c →
  spec q (UR_CHECK_ERROR c) w (λ h w', cu c (drv w) = (CUDA_SUCCESS, h, drv w') ∧ w' = set_drv (drv w') w).
Proof.
  intros Hi Hc. eapply spec_bind; [by apply spec_raw|].
  intros [r h] w' Hi' _ [Ec Ew]. cbn in *. pose proof (cu_up _ _ _ _ _ Ec).
  destruct r; try done; by apply spec_ret.
Qed.

Lemma spec_call q c w : Inv w → harmless w c →
  spec q (call c) w (λ _ w', ∃ h, cu c (drv w) = (CUDA_SUCCESS, h, drv w') ∧ w' = set_drv (drv w') w).
Proof.
  intros Hi Hc. eapply spec_bind; [by apply spec_check_error|].
  intros h w' Hi' _ [Ec Ew]. apply spec_ret; [done|by exists h].
Qed.

Lemma quiet_harmless w c :
  match c with cuEventRecord _ _ | cuEventDestroy _ | cuStreamDestroy _ => False | _ => True end →
  harmless w c.
Proof. intros Hq. destruct c; try done; split_and!; cbn; intros; tauto. Qed.

Lemma spec_context q dev w : Inv w → spec q (ScopedContext dev) w (λ _ w', w' = set_drv (drv w') w).
Proof.
  intros Hi. unfold ScopedContext. destruct (dev =? 0); [done|].
  eapply spec_mono; [apply spec_call; [done|by apply quiet_harmless]|]. by intros _ w' _ _ (h & _ & Ew).
Qed.

(** [try]-[catch] turns an exception into a result, with the invariant only. *)
Lemma wp_catch (m : M D ur_result_t) (Q : ur_result_t → world D → Prop) w :
  wp m Q (λ w', ∀ r, r ≠ UR_RESULT_SUCCESS → Q r w') w → wp (catch m) Q (λ _, False) w.
Proof. unfold wp, catch. destruct (m w) as [[] w']; naive_solver. Qed.

(** ** Selecting a stream *)

Lemma pool_on_pool k f x : pool k (on_pool k f x) = f (pool k x).
Proof. by destruct k. Qed.

Lemma pool_on_pool_ne k k' f x : k' ≠ k → pool k' (on_pool k f x) = pool k' x.
Proof. by destruct k, k'. Qed.

Lemma pool_on_pool_cases k k' f x : pool k' (on_pool k f x) = if decide (k' = k) then f (pool k x) else pool k' x.
Proof. by destruct k, k'. Qed.

Lemma le_queues w f : le w (set_queues f w).
Proof. by split. Qed.

Lemma spec_upd_queue q f w x (Q : unit → world D → Prop) : queues w !! q = Some x →
  Inv (set_queues <[q := f x]> w) → same_core x (f x) → Q tt (set_queues <[q := f x]> w) →
  spec q (upd_queue q f) w Q.
Proof.
  intros Hx Hi Hc Hq. apply wp_modify. rewrite (set_queues_alter f q x) by done.
  split_and!; [done| |done]. split; [apply le_queues|]. intros y Hy. cbn.
  rewrite lookup_insert_eq. exists (f x). split; [done|]. by assert (y = x) as -> by congruence.
Qed.

Lemma grows_same_core x x' : same_core x x' → EventCount x ≤ EventCount x' → grows x x'.
Proof.
  intros Hc He. split; [done| | |].
  - intros k i s Hs Hi. destruct (Hc k) as (-> & _ & -> & _). done.
  - intros k. unfold size. by destruct (Hc k) as (-> & _).
  - intros k. destruct (Hc k) as (_ & -> & _). done.
Qed.

Lemma exists_same_core x x' s : same_core x x' → exists_in x' s → exists_in x s.
Proof.
  intros Hc (k & i & Hs & Hi). exists k, i. destruct (Hc k) as (E1 & _ & E3 & _).
  by rewrite E1 in Hs; rewrite E3 in Hi.
Qed.

(** An update that leaves the streams alone. *)
Lemma Inv_same_core w q x x' : Inv w → queues w !! q = Some x → same_core x x' →
  queue_ok (drv w) (history w) q x' → EventCount x ≤ EventCount x' → handles_ok w x x' →
  Inv (set_queues <[q := x']> w).
Proof.
  intros Hi Hx Hc Hok He Hh.
  eapply Inv_queue; [done|done|done|by apply grows_same_core|apply syncs_same, (Hc compute)|done|].
  intros s Hs. left. by eapply exists_same_core.
Qed.

Lemma in_use_core p p' s : Streams p' = Streams p → StreamIndex p' = StreamIndex p →
  LastSyncStreams p' = LastSyncStreams p → in_use p s → in_use p' s.
Proof.
  intros E1 E2 E3 (t & Ht & Hs). exists t. unfold at_token, size in *. by rewrite E1, E2, E3.
Qed.

Lemma applied_pool_ok p i : pool_ok p → Z.of_nat i < NumStreams p →
  pool_ok (set_applied <[i := true]> p).
Proof.
  intros [] Hi. split; cbn; try done; [by rewrite length_insert|].
  intros j [(<- & _ & _)|(_ & Hj)]%lookup_insert_cases; [done|by apply po_flag0].
Qed.

Lemma barrier_ok_flags d x x' c : barrier_ok d x c → BarrierEvent x' = BarrierEvent x →
  (∀ k i s, AppliedBarrier (pool k x') !! i = Some true → Streams (pool k x') !! i = Some s →
     AppliedBarrier (pool k x) !! i = Some true ∧ Streams (pool k x) !! i = Some s ∨ after d s c) →
  barrier_ok d x' c.
Proof.
  intros (H1 & H2 & H3) E Hf. rewrite <- E in H1, H2. split_and!; [done..|].
  intros k i s Hi Hs. destruct (Hf k i s Hi Hs) as [[? ?]|?]; [by eapply H3|done].
Qed.

(** A stream waits for the barriers of its queue. *)
Definition behind (q : nat) (s : CUstream) (w : world D) : Prop :=
  ∀ c, barred (history w) q c → after (drv w) s c.

Lemma spec_wait_barrier k q s i w x : Inv w → queues w !! q = Some x →
  Streams (pool k x) !! i = Some s → Z.of_nat i < NumStreams (pool k x) →
  spec q (waitForBarrierIfNeeded k q s i) w (λ _ w', behind q s w' ∧ events w' = events w ∧ history w' = history w).
Proof.
  intros Hi Hx Hs Hn. unfold waitForBarrierIfNeeded.
  pose proof (i_queue _ Hi q x Hx) as Hq.
  eapply spec_bind; [eapply (spec_get_queue _ _ _ _ (λ a w', a = x ∧ w' = w)); done|].
  intros ? ? _ _ [-> ->].
  destruct (Z.eqb_spec (BarrierEvent x) 0) as [Hz|Hz].
  { apply spec_ret; [done|]. split_and!; [|done..]. intros c Hc. by destruct (qo_barrier _ _ _ _ Hq c Hc). }
  destruct (lookup_lt_is_Some_2 (AppliedBarrier (pool k x)) i) as [b Hb].
  { rewrite (po_applied _ (qo_pool _ _ _ _ Hq k)). by eapply lookup_lt_Some. }
  eapply spec_bind; [eapply (spec_some _ _ _ _ (λ a w', a = b ∧ w' = w)); done|].
  intros ? ? _ _ [-> ->]. destruct b.
  { apply spec_ret; [done|]. split_and!; [|done..]. intros c Hc.
    destruct (qo_barrier _ _ _ _ Hq c Hc) as (_ & _ & Ha). by eapply Ha. }
  eapply spec_bind; [apply spec_call; [done|by apply quiet_harmless]|].
  intros _ w1 Hi1 _ (h & Ec & Ew). rewrite Ew in *. cbn [drv set_drv] in *.
  assert (Hbeh : behind q s w1).
  { intros c Hc. rewrite Ew in Hc. eapply cu_wait; [exact Ec|].
    by destruct (qo_barrier _ _ _ _ Hq c Hc) as (_ & Hr & _). }
  rewrite Ew in Hbeh.
  apply (spec_upd_queue q _ _ x); [done| | |split_and!; [exact Hbeh|done..]].
  - pose proof (i_queue _ Hi1 q x Hx) as [].
    apply (Inv_same_core _ q x); [done|done| | |done|by left; destruct k].
    + intros k'. rewrite pool_on_pool_cases. by case_decide as E; [rewrite E|].
    + split; try done.
      * intros k'. rewrite pool_on_pool_cases. case_decide as E; [|done].
        apply applied_pool_ok; [apply qo_pool0|done].
      * by destruct k.
      * by destruct k.
      * intros c Hc. destruct (qo_cover0 c Hc) as [Hf|(k' & s' & Hu & Ha)]; [by left|right].
        exists k', s'. split; [|done]. rewrite pool_on_pool_cases. by case_decide as E; [rewrite E in Hu|].
      * intros c Hc. eapply barrier_ok_flags; [by apply qo_barrier0|by destruct k|].
        intros k' j s'. rewrite pool_on_pool_cases. case_decide as E; [|by left].
        subst k'. cbn. intros [(<- & _ & _)|(_ & Hj)]%lookup_insert_cases Hs'; [|by left].
        right. assert (s' = s) as -> by congruence. by apply Hbeh.
  - intros k'. rewrite pool_on_pool_cases. by case_decide as E; [rewrite E|].
Qed.

Lemma wp_get_queue q x Q E (w : world D) : queues w !! q = Some x → Q x w → wp (get_queue q) Q E w.
Proof. intros Hx Hq. unfold wp, get_queue, mbind, M_bind, gets. by rewrite Hx. Qed.

Lemma wp_some {A} (a : A) o Q E (w : world D) : o = Some a → Q a w → wp (some o) Q E w.
Proof. by intros ->. Qed.

Lemma wp_upd_queue q f x Q E (w : world D) : queues w !! q = Some x →
  Q tt (set_queues <[q := f x]> w) → wp (upd_queue q f) Q E w.
Proof. intros Hx Hq. apply wp_modify. by rewrite (set_queues_alter f q x). Qed.

Lemma set_queues_twice q x x' (w : world D) :
  set_queues <[q := x']> (set_queues <[q := x]> w) = set_queues <[q := x']> w.
Proof. unfold set_queues. cbn. f_equal. apply insert_insert_eq. Qed.

(** What creating a stream does to the state, before the index moves on. *)
Definition created (k : which) (x x1 : ur_queue_handle_t_) (w : world D) (d' : D) : Prop :=
  (NumStreams (pool k x) < size (pool k x) ∧ ∃ s, x1 = on_pool k (push_stream s) x ∧
     s ≠ 0 ∧ live_stream d' s ∧ ∀ q', ¬ owns w s q') ∨
  (size (pool k x) ≤ NumStreams (pool k x) ∧ x1 = x).

Lemma world_same (w : world D) q x : queues w !! q = Some x →
  w = set_queues <[q := x]> (set_drv (drv w) w).
Proof. intros Hx. destruct w. unfold set_queues, set_drv. cbn in *. by rewrite insert_id. Qed.

Lemma wp_create k q x w : Inv w → queues w !! q = Some x →
  wp (createStreamIfRoom k q) (λ _ w1, ∃ x1 d', w1 = set_queues <[q := x1]> (set_drv d' w) ∧
    dle (λ _, False) (drv w) d' ∧ created k x x1 w d') Inv w.
Proof.
  intros Hi Hx. unfold createStreamIfRoom. apply wp_bind.
  unfold wp at 1. unfold get_queue, mbind, M_bind, gets. rewrite Hx. cbn -[size].
  fold (size (pool k x)). destruct (Z.ltb_spec (NumStreams (pool k x)) (size (pool k x))).
  - apply wp_bind. eapply wp_mono.
    + apply (spec_check_error q); [done|by apply quiet_harmless].
    + intros s w1 (Hi1 & _ & Ec & Ew). apply wp_modify.
      exists (on_pool k (push_stream s) x), (drv w1).
      destruct (cu_create_stream _ _ _ _ _ Ec) as (Hs0 & Hs1 & Hs2). split_and!.
      * rewrite (set_queues_alter _ q x) by (by rewrite Ew). by rewrite Ew at 1.
      * eapply dle_weaken; [|eapply harmless_dle; [|exact Ec]; by apply quiet_harmless]. done.
      * left. split; [done|]. exists s. split_and!; [done..|].
        intros q' Ho. by destruct (i_own_live _ Hi s q' Ho).
    + done.
  - apply wp_ret. exists x, (drv w). split_and!; [by apply world_same|apply dle_refl|by right].
Qed.

Lemma push_pool_ok p s : pool_ok p → NumStreams p < size p → StreamIndex p + 1 < 2 ^ 32 →
  pool_ok (bump_index (push_stream s p)).
Proof.
  intros [] Hn Hx. assert (Hw : w32 (StreamIndex p + 1) = StreamIndex p + 1).
  { unfold w32. apply Z.mod_small. lia. }
  split; unfold size in *; cbn; rewrite ?Hw, ?length_insert; try lia.
  intros i Hi. specialize (po_flag0 i Hi). lia.
Qed.

Lemma bump_pool_ok p : pool_ok p → size p ≤ NumStreams p → StreamIndex p + 1 < 2 ^ 32 →
  pool_ok (bump_index p).
Proof.
  intros [] Hn Hx. assert (Hw : w32 (StreamIndex p + 1) = StreamIndex p + 1).
  { unfold w32. apply Z.mod_small. lia. }
  split; unfold size in *; cbn; rewrite ?Hw; try lia. done.
Qed.

(** The next stream of a pool, with the stream it needed. *)
Lemma Inv_bump k q x x1 w d' : Inv w → queues w !! q = Some x → dle (λ _, False) (drv w) d' →
  created k x x1 w d' → StreamIndex (pool k x) + 1 < 2 ^ 32 →
  Inv (set_queues <[q := on_pool k bump_index x1]> (set_drv d' w)) ∧
  grows x (on_pool k bump_index x1).
Proof.
  intros Hi Hx Hd Hc Hlt.
  assert (Hid : Inv (set_drv d' w)) by (by eapply (Inv_drv (λ _, False)); [| |intros ? ? []]).
  pose proof (i_queue _ Hid q x Hx) as [].
  assert (Hpool : ∀ k', pool_ok (pool k' (on_pool k bump_index x1))).
  { intros k'. rewrite pool_on_pool_cases. case_decide as E.
    - subst k'. destruct Hc as [(Hn & s & -> & _)|[Hn ->]].
      + rewrite pool_on_pool. by apply push_pool_ok; [apply qo_pool0| |].
      + by apply bump_pool_ok; [apply qo_pool0| |].
    - destruct Hc as [(_ & s & -> & _)|[_ ->]]; [|done]. by rewrite pool_on_pool_ne. }
  assert (Hst : ∀ k' i s, Streams (pool k' x) !! i = Some s → Z.of_nat i < NumStreams (pool k' x) →
    Streams (pool k' (on_pool k bump_index x1)) !! i = Some s).
  { intros k' i s Hs Hlt'. rewrite pool_on_pool_cases. case_decide as E.
    - subst k'. destruct Hc as [(_ & s' & -> & _)|[_ ->]]; [|done]. rewrite pool_on_pool. cbn.
      rewrite list_lookup_insert_ne by lia. done.
    - destruct Hc as [(_ & s' & -> & _)|[_ ->]]; [|done]. by rewrite pool_on_pool_ne. }
  assert (Hg : grows x (on_pool k bump_index x1)).
  { split.
    - by destruct Hc as [(_ & s & -> & _)|[_ ->]]; destruct k.
    - intros k' i s Hs Hlt'. split; [by apply Hst|]. rewrite pool_on_pool_cases. case_decide as E.
      + subst k'. destruct Hc as [(_ & s' & -> & _)|[_ ->]]; [|done]. rewrite pool_on_pool. cbn. lia.
      + destruct Hc as [(_ & s' & -> & _)|[_ ->]]; [|done]. by rewrite pool_on_pool_ne.
    - intros k'. rewrite pool_on_pool_cases. unfold size. case_decide as E.
      + subst k'. destruct Hc as [(_ & s' & -> & _)|[_ ->]]; [|done].
        rewrite pool_on_pool. cbn. by rewrite length_insert.
      + destruct Hc as [(_ & s' & -> & _)|[_ ->]]; [|done]. by rewrite pool_on_pool_ne.
    - intros k'. rewrite pool_on_pool_cases. case_decide as E.
      + subst k'. pose proof (po_sync _ (qo_pool0 k)).
        assert (Hw : w32 (StreamIndex (pool k x) + 1) = StreamIndex (pool k x) + 1)
          by (unfold w32; apply Z.mod_small; lia).
        destruct Hc as [(_ & s' & -> & _)|[_ ->]]; rewrite ?pool_on_pool; cbn; rewrite Hw; lia.
      + destruct Hc as [(_ & s' & -> & _)|[_ ->]]; [|done]. by rewrite pool_on_pool_ne.
  }
  split; [|done].
  assert (Hflags : ∀ k', AppliedBarrier (pool k' (on_pool k bump_index x1)) = AppliedBarrier (pool k' x)).
  { intros k'. by destruct Hc as [(_ & s' & -> & _)|[_ ->]]; destruct k, k'. }
  assert (Hrest : BarrierEvent (on_pool k bump_index x1) = BarrierEvent x ∧
    BarrierTmpEvent (on_pool k bump_index x1) = BarrierTmpEvent x ∧
    DelayCompute (on_pool k bump_index x1) = DelayCompute x ∧
    EventCount (on_pool k bump_index x1) = EventCount x ∧ q_Device (on_pool k bump_index x1) = q_Device x).
  { by destruct Hc as [(_ & s' & -> & _)|[_ ->]]; destruct k. }
  destruct Hrest as (R1 & R2 & R3 & R4 & R5).
  pose proof (g_size _ _ Hg compute) as Hsz.
  apply (Inv_queue _ q x); [done|done| |done| |by left|].
  - split; rewrite ?R4, ?R5; [done| | |done|done| |].
    + change (0 < size (pool compute (on_pool k bump_index x1))). by rewrite Hsz.
    + rewrite R3, qo_delay0. unfold size in Hsz. cbn [pool] in Hsz. lia.
    + intros c Hsub. destruct (qo_cover0 c Hsub) as [Hf|(k' & s' & (t & Ht & Hat) & Ha)]; [by left|right].
      exists k', s'. split; [|done]. exists t.
      assert (Hsync : LastSyncStreams (pool k' (on_pool k bump_index x1)) = LastSyncStreams (pool k' x)).
      { by destruct Hc as [(_ & s0 & -> & _)|[_ ->]]; destruct k, k'. }
      pose proof (g_index _ _ Hg k'). rewrite Hsync. split; [lia|].
      pose proof (po_sync _ (qo_pool0 k')).
      pose proof (at_token_created _ t s' (qo_pool0 k') ltac:(lia) Hat).
      unfold at_token in *. rewrite (g_size _ _ Hg k'). by apply Hst.
    + intros c Hbar. eapply barrier_ok_flags; [by apply qo_barrier0|done|].
      intros k' i s Hi' Hs. rewrite Hflags in Hi'. left. split; [done|].
      pose proof (po_flag _ (qo_pool0 k') i Hi') as Hlt'.
      destruct (lookup_lt_is_Some_2 (Streams (pool k' x)) i) as [s0 Hs0].
      { rewrite <- (po_applied _ (qo_pool0 k')). by eapply lookup_lt_Some. }
      rewrite (Hst k' i s0 Hs0 Hlt') in Hs. by rewrite Hs0.
  - apply syncs_same. by destruct Hc as [(_ & s' & -> & _)|[_ ->]]; destruct k.
  - intros s (k' & i & Hs & Hlt'). revert Hs Hlt'. rewrite pool_on_pool_cases. case_decide as E.
    + subst k'. destruct Hc as [(_ & s' & -> & Hs0 & Hl & Hno)|[_ ->]].
      * rewrite pool_on_pool. cbn. intros [(_ & -> & _)|(Hne & Hs)]%lookup_insert_cases Hlt'.
        -- right. done.
        -- left. exists k, i. split; [done|lia].
      * cbn. intros Hs Hlt'. left. by exists k, i.
    + intros Hs Hlt'. left. exists k', i.
      destruct Hc as [(_ & s' & -> & _)|[_ ->]]; [|done]. by rewrite !pool_on_pool_ne in Hs, Hlt' by done.
Qed.

(** Only the driver and queue [q] change. *)
Record only_queue (q : nat) (w w' : world D) : Prop := mkOnly {
  oq_le : le w w';
  oq_events : events w' = events w;
  oq_history : history w' = history w
}.

Lemma only_trans q w1 w2 w3 : only_queue q w1 w2 → only_queue q w2 w3 → only_queue q w1 w3.
Proof. intros [] []. split; [by eapply le_trans|congruence|congruence]. Qed.

Lemma only_set q w f d' E : dle E (drv w) d' → only_queue q w (set_queues f (set_drv d' w)).
Proof. intros Hd. split; [|done|done]. destruct (dle_le w d' E Hd). by split. Qed.

Lemma count_true_insert l i : l !! i = Some true → count_true l = S (count_true (<[i := false]> l)).
Proof.
  unfold count_true. revert i. induction l as [|b l IH]; intros [|i] Hi; cbn in *; try done.
  - injection Hi as ->. done.
  - rewrite (IH i Hi). by destruct b.
Qed.

Lemma count_true_le l : (count_true l ≤ length l)%nat.
Proof. unfold count_true. induction l as [|[] l IH]; cbn in *; lia. Qed.

Lemma delay_ok d h q x f : length (f (DelayCompute x)) = length (DelayCompute x) → queue_ok d h q x →
  queue_ok d h q (set_delay f x).
Proof.
  intros Hf []. split; try done. cbn. by rewrite Hf.
Qed.

Lemma Inv_delay w q x f : Inv w → queues w !! q = Some x →
  length (f (DelayCompute x)) = length (DelayCompute x) →
  Inv (set_queues <[q := set_delay f x]> w).
Proof.
  intros Hi Hx Hf. eapply Inv_same_core; [done|done|by intros []| |done|by left].
  apply delay_ok; [done|by apply i_queue].
Qed.

(** The loop ends, one round for each delayed stream at most, and delivers a
    token that the next wait for everything covers. *)
Lemma wp_nextCompute fuel q w x : Inv w → queues w !! q = Some x →
  (count_true (DelayCompute x) < fuel)%nat →
  StreamIndex (ComputePool x) + Z.of_nat fuel < 2 ^ 32 →
  wp (nextCompute fuel q) (λ r w', Inv w' ∧ only_queue q w w' ∧ ∃ x' s, queues w' !! q = Some x' ∧
    token_ok x' r.2 s ∧ LastSyncStreams (ComputePool x') ≤ r.2 ∧
    Streams (ComputePool x') !! r.1 = Some s ∧ Z.of_nat r.1 < NumStreams (ComputePool x')
    ∧ Z.of_nat r.1 = r.2 mod size (ComputePool x')) Inv w.
Proof.
  revert w x. induction fuel as [|fuel IH]; intros w x Hi Hx Hf Hlt; [lia|].
  cbn [nextCompute]. apply wp_bind. eapply wp_mono; [by apply wp_create| |done].
  intros _ w1 (x1 & d' & -> & Hd & Hc).
  destruct (Inv_bump compute q x x1 w d' Hi Hx Hd Hc) as [Hi2 Hg]; [cbn; lia|].
  set (x2 := on_pool compute bump_index x1) in *.
  set (w2 := set_queues <[q := x2]> (set_drv d' w)) in *.
  assert (Ho : only_queue q w w2) by (by eapply only_set).
  assert (Hx2 : queues w2 !! q = Some x2) by (cbn; apply lookup_insert_eq).
  set (w1 := set_queues <[q := x1]> (set_drv d' w)) in *.
  assert (Hx1 : queues w1 !! q = Some x1) by (cbn; apply lookup_insert_eq).
  assert (Hw2 : set_queues <[q := x2]> w1 = w2) by apply set_queues_twice.
  apply wp_bind, (wp_get_queue _ x1); [done|]. apply wp_bind, (wp_upd_queue _ _ x1); [done|].
  fold x2. rewrite Hw2.
  pose proof (i_queue _ Hi q x Hx) as Hq. pose proof (i_queue _ Hi2 q x2 Hx2) as Hq2.
  assert (E1 : StreamIndex (ComputePool x1) = StreamIndex (ComputePool x)
    ∧ length (Streams (ComputePool x1)) = length (Streams (ComputePool x)) ∧ DelayCompute x1 = DelayCompute x).
  { destruct Hc as [(_ & s & -> & _)|[_ ->]]; [|done]. cbn. by rewrite length_insert. }
  destruct E1 as (E1 & E2 & E3). rewrite E1, E2, E3. fold (size (ComputePool x)).
  pose proof (qo_some _ _ _ _ Hq) as Hsz. rewrite (proj2 (Z.eqb_neq _ 0)) by lia.
  set (t := StreamIndex (ComputePool x)) in *.
  pose proof (Z.mod_pos_bound t (size (ComputePool x)) Hsz) as Bm.
  set (i := Z.to_nat (t mod size (ComputePool x))) in *.
  destruct (lookup_lt_is_Some_2 (DelayCompute x) i) as [b Hb].
  { rewrite (qo_delay _ _ _ _ Hq). apply Nat2Z.inj_lt. change (Z.of_nat i < size (ComputePool x)). lia. }
  apply wp_bind, (wp_some b); [done|].
  pose proof (po_sync _ (qo_pool _ _ _ _ Hq compute)) as Hsync. cbn in Hsync. fold t in Hsync.
  destruct b.
  - apply wp_bind, (wp_upd_queue _ _ x2); [done|].
    pose proof (Inv_delay w2 q x2 <[i := false]> Hi2 Hx2 ltac:(intros; apply length_insert)) as Hi3.
    set (w3 := set_queues _ w2) in *.
    eapply wp_mono; [apply (IH w3 (set_delay <[i := false]> x2)); [done|cbn; apply lookup_insert_eq| |]| |done].
    + change (DelayCompute (set_delay <[i:=false]> x2)) with (<[i:=false]> (DelayCompute x1)).
      rewrite E3. rewrite (count_true_insert _ i Hb) in Hf. lia.
    + change (StreamIndex (ComputePool (set_delay <[i:=false]> x2))) with (w32 (StreamIndex (ComputePool x1) + 1)).
      rewrite E1. fold t. unfold w32. rewrite Z.mod_small by lia. lia.
    + intros r w' (Hi' & Ho' & Hr). split_and!; [done| |done].
      eapply only_trans; [exact Ho|]. eapply only_trans; [|exact Ho']. split; [apply le_queues|done|done].
  - apply wp_ret. split_and!; [done|done|].
    assert (Hidx : StreamIndex (ComputePool x2) = t + 1).
    { change (StreamIndex (ComputePool x2)) with (w32 (StreamIndex (ComputePool x1) + 1)). rewrite E1.
      fold t. unfold w32. apply Z.mod_small. lia. }
    assert (Hsz2 : size (ComputePool x2) = size (ComputePool x)) by (apply (g_size _ _ Hg compute)).
    destruct (lookup_lt_is_Some_2 (Streams (ComputePool x2)) i) as [s Hs].
    { apply Nat2Z.inj_lt. change (Z.of_nat i < size (ComputePool x2)). lia. }
    assert (Hat : at_token (ComputePool x2) t = Some s) by (unfold at_token; by rewrite Hsz2).
    exists x2, s. cbn [fst snd]. split_and!; [done|split; [lia|done]| |done| |].
    + replace (LastSyncStreams (ComputePool x2)) with (LastSyncStreams (ComputePool x)); [cbn; lia|].
      by destruct Hc as [(_ & s' & -> & _)|[_ ->]].
    + pose proof (at_token_created (ComputePool x2) t s (qo_pool _ _ _ _ Hq2 compute)) as Hcr.
      rewrite Hsz2 in Hcr. apply Hcr; [lia|done].
    + rewrite Hsz2. unfold i. lia.
Qed.

(** A stream on which a command of queue [q] may be put, with its token. *)
Definition placed (q : nat) (w : world D) (s : CUstream) (t : Z) : Prop :=
  ∃ x, queues w !! q = Some x ∧ exists_in x s ∧ (∃ k, in_use (pool k x) s) ∧
    (t = UINT32_MAX ∨ token_ok x t s ∧ LastSyncStreams (ComputePool x) ≤ t).

Definition usable (q : nat) (w : world D) (s : CUstream) (t : Z) : Prop :=
  placed q w s t ∧ behind q s w.

Lemma token_ok_core x x' t s : same_core x x' → token_ok x t s → token_ok x' t s.
Proof.
  intros Hc [Ht Hs]. destruct (Hc compute) as (E1 & E2 & _). cbn in E1, E2.
  unfold token_ok, at_token, size in *. by rewrite E1, E2.
Qed.

Lemma placed_frame q w w' s t : frame q w w' → placed q w s t → placed q w' s t.
Proof.
  intros [Hle Hf] (x & Hx & (k & i & Hs & Hn) & (k' & Hu) & Ht).
  destruct (Hf x Hx) as (x' & Hx' & Hc). exists x'. split_and!; [done| | |].
  - exists k, i. destruct (Hc k) as (-> & _ & -> & _). done.
  - exists k'. destruct (Hc k') as (E1 & E2 & _ & E4). by eapply in_use_core.
  - destruct Ht as [Ht|[Ht Hl]]; [by left|right]. split; [by eapply token_ok_core|].
    destruct (Hc compute) as (_ & _ & _ & E). cbn in E. by rewrite E.
Qed.

Lemma usable_frame q w w' s t : frame q w w' → usable q w s t → usable q w' s t.
Proof.
  intros Hf [Hp Hb]. split; [by eapply placed_frame|].
  intros c Hc. apply Hf. by apply Hb, Hf.
Qed.

Lemma frame_only q w w' : frame q w w' → events w' = events w → history w' = history w →
  only_queue q w w'.
Proof. intros [Hl _] He Hh. by split. Qed.

(** Both counters can move on without wrapping. *)
Definition room (w : world D) (q : nat) : Prop :=
  ∀ x, queues w !! q = Some x →
    StreamIndex (ComputePool x) + size (ComputePool x) + 1 < 2 ^ 32 ∧
    StreamIndex (TransferPool x) + 1 < 2 ^ 32.

Definition selects {A} (q : nat) (m : M D A) (w : world D) (Q : A → world D → Prop) : Prop :=
  wp m (λ a w', Inv w' ∧ only_queue q w w' ∧ Q a w') Inv w.

Lemma selects_next q w x : Inv w → queues w !! q = Some x → room w q →
  selects q (getNextComputeStream q) w
    (λ r w', ∃ t, r.2 = Some t ∧ usable q w' r.1 t).
Proof.
  intros Hi Hx Hr. unfold getNextComputeStream. apply wp_bind, wp_gets.
  rewrite (i_tls _ Hi). cbn [Z.eqb negb]. apply wp_bind, (wp_get_queue _ x); [done|].
  destruct (Hr x Hx) as [Hr1 _]. pose proof (i_queue _ Hi q x Hx) as Hq.
  pose proof (count_true_le (DelayCompute x)) as Hct. rewrite (qo_delay _ _ _ _ Hq) in Hct.
  apply wp_bind. eapply wp_mono; [apply (wp_nextCompute _ q w x); [done|done|lia|]| |done].
  { unfold size in Hr1. lia. }
  intros [i t] w1 (Hi1 & Ho1 & x1 & s & Hx1 & Ht & Hl & Hs & Hn & _). cbn [fst snd] in *.
  apply wp_bind, (wp_get_queue _ x1); [done|]. apply wp_bind, (wp_some s); [done|]. apply wp_bind.
  eapply wp_mono; [apply (spec_wait_barrier compute q s i w1 x1); done| |done].
  intros _ w' (Hi' & Hf & Hb & He & Hh). apply wp_ret. split_and!; [done| |].
  - eapply only_trans; [done|by apply frame_only].
  - exists t. split; [done|]. split; [|done]. eapply placed_frame; [exact Hf|].
    exists x1. split_and!; [done|by exists compute, i| |by right].
    exists compute, t. split; [cbn; destruct Ht; lia|apply Ht].
Qed.

Lemma selects_reuse q evs w x : Inv w → queues w !! q = Some x → room w q →
  (∀ h, h ∈ evs → is_Some (events w !! h)) →
  selects q (reuseStream q evs) w (λ r w', ∃ t, r.2 = Some t ∧ usable q w' r.1 t).
Proof.
  intros Hi Hx Hr. induction evs as [|h evs IH]; intros Hev; cbn [reuseStream].
  { by eapply selects_next. }
  destruct (Hev h) as [e He]; [by apply elem_of_cons; left|].
  apply wp_bind. unfold get_event. apply wp_bind, wp_gets, (wp_some e); [done|].
  apply wp_bind, (wp_get_queue _ x); [done|].
  destruct (bool_decide _ && _) eqn:E.
  2: { apply IH. intros g Hg. apply Hev. apply elem_of_cons. by right. }
  apply andb_true_iff in E as [Eq Er]. apply bool_decide_eq_true in Eq.
  pose proof (i_event _ Hi h e He) as Hok. rewrite Eq in Hok. destruct Hok as (y & Hy & Hok).
  assert (y = x) as -> by congruence. pose proof (i_queue _ Hi q x Hx) as Hq.
  unfold canReuseStream, hasBeenSynchronized in Er.
  destruct (Z.eqb_spec (StreamToken e) UINT32_MAX) as [|Htok]; [done|].
  apply andb_true_iff in Er as [_ Er]. apply negb_true_iff, Z.ltb_ge in Er.
  destruct (eo_token _ _ _ Hok) as [|Ht]; [done|].
  rewrite (qo_delay _ _ _ _ Hq). fold (size (ComputePool x)).
  pose proof (qo_some _ _ _ _ Hq). rewrite (proj2 (Z.eqb_neq _ 0)) by lia.
  set (i := Z.to_nat (StreamToken e mod size (ComputePool x))).
  pose proof (at_token_created _ _ _ (qo_pool _ _ _ _ Hq compute) (proj1 Ht) (proj2 Ht)) as Hn.
  cbn [pool] in Hn. fold i in Hn.
  set (x1 := set_delay <[i := true]> x). set (w1 := set_queues <[q := x1]> w).
  assert (Hi1 : Inv w1) by (apply (Inv_delay _ _ _ _ Hi Hx); intros; apply length_insert).
  assert (Hx1 : queues w1 !! q = Some x1) by (cbn; apply lookup_insert_eq).
  apply wp_bind, (wp_upd_queue _ _ x); [done|]. fold x1. fold w1.
  apply wp_bind.
  eapply wp_mono; [apply (spec_wait_barrier compute q (e_Stream e) i w1 x1); [done|done|apply Ht|done]| |done].
  intros _ w' (Hi' & Hf & Hb & He' & Hh). apply wp_ret. split_and!; [done| |].
  - eapply only_trans; [|by apply frame_only]. by split; [apply le_queues| |].
  - exists (StreamToken e). split; [done|]. split; [|done]. eapply placed_frame; [exact Hf|].
    exists x1. split_and!; [done|exists compute, i; split; [apply Ht|done]| |by right].
    exists compute, (StreamToken e). split; [cbn; destruct Ht; lia|apply Ht].
Qed.

Lemma selects_for q evs w x : Inv w → queues w !! q = Some x → room w q →
  (∀ h, h ∈ evs → is_Some (events w !! h)) →
  selects q (getNextComputeStreamFor q evs) w (λ r w', ∃ t, r.2 = Some t ∧ usable q w' r.1 t).
Proof.
  intros Hi Hx Hr Hev. unfold getNextComputeStreamFor. apply wp_bind, wp_gets.
  rewrite (i_tls _ Hi). cbn [Z.eqb negb]. by eapply selects_reuse.
Qed.

Lemma selects_transfer q w x : Inv w → queues w !! q = Some x → room w q →
  selects q (getNextTransferStream q) w (λ s w', usable q w' s UINT32_MAX).
Proof.
  intros Hi Hx Hr. unfold getNextTransferStream. apply wp_bind, wp_gets.
  rewrite (i_tls _ Hi). cbn [Z.eqb negb]. apply wp_bind, (wp_get_queue _ x); [done|].
  destruct (Nat.eqb_spec (length (Streams (TransferPool x))) 0) as [Hz|Hz].
  { apply wp_bind. eapply wp_mono; [by eapply selects_next| |done].
    intros [s o] w' (Hi' & Ho & t & _ & (y & Hy & H1 & H2 & _) & Hb). apply wp_ret.
    split_and!; [done|done|]. split; [|done]. exists y. split_and!; [done..|by left]. }
  destruct (Hr x Hx) as [_ Hr2]. pose proof (i_queue _ Hi q x Hx) as Hq.
  apply wp_bind. eapply wp_mono; [by apply wp_create| |done].
  intros _ w1 (x1 & d' & -> & Hd & Hc).
  destruct (Inv_bump transfer q x x1 w d' Hi Hx Hd Hc) as [Hi2 Hg]; [done|].
  set (x2 := on_pool transfer bump_index x1) in *.
  set (w2 := set_queues <[q := x2]> (set_drv d' w)) in *.
  set (w1 := set_queues <[q := x1]> (set_drv d' w)) in *.
  assert (Hx1 : queues w1 !! q = Some x1) by (cbn; apply lookup_insert_eq).
  assert (Hx2 : queues w2 !! q = Some x2) by (cbn; apply lookup_insert_eq).
  assert (Hw2 : set_queues <[q := x2]> w1 = w2) by apply set_queues_twice.
  apply wp_bind, (wp_get_queue _ x1); [done|]. apply wp_bind, (wp_upd_queue _ _ x1); [done|].
  fold x2. rewrite Hw2. pose proof (i_queue _ Hi2 q x2 Hx2) as Hq2.
  assert (E1 : StreamIndex (TransferPool x1) = StreamIndex (TransferPool x)
    ∧ length (Streams (TransferPool x1)) = length (Streams (TransferPool x))
    ∧ LastSyncStreams (TransferPool x1) = LastSyncStreams (TransferPool x)).
  { destruct Hc as [(_ & s & -> & _)|[_ ->]]; [|done]. cbn. by rewrite length_insert. }
  destruct E1 as (E1 & E2 & E3). rewrite E1, E2. fold (size (TransferPool x)).
  set (t := StreamIndex (TransferPool x)) in *.
  assert (Hsz : 0 < size (TransferPool x)) by (unfold size; lia).
  pose proof (Z.mod_pos_bound t (size (TransferPool x)) Hsz) as Bm.
  set (i := Z.to_nat (t mod size (TransferPool x))) in *.
  assert (Hsz2 : size (TransferPool x2) = size (TransferPool x)) by (apply (g_size _ _ Hg transfer)).
  assert (Est : Streams (TransferPool x2) = Streams (TransferPool x1)) by done.
  destruct (lookup_lt_is_Some_2 (Streams (TransferPool x2)) i) as [s Hs].
  { apply Nat2Z.inj_lt. change (Z.of_nat i < size (TransferPool x2)). lia. }
  pose proof (po_sync _ (qo_pool _ _ _ _ Hq transfer)) as Hsync. cbn in Hsync. fold t in Hsync.
  assert (Hidx : StreamIndex (TransferPool x2) = t + 1).
  { change (StreamIndex (TransferPool x2)) with (w32 (StreamIndex (TransferPool x1) + 1)). rewrite E1.
    fold t. unfold w32. apply Z.mod_small. lia. }
  assert (Hat : at_token (TransferPool x2) t = Some s) by (unfold at_token; by rewrite Hsz2).
  assert (Hn : Z.of_nat i < NumStreams (TransferPool x2)).
  { pose proof (at_token_created (TransferPool x2) t s (qo_pool _ _ _ _ Hq2 transfer)) as Hcr.
    rewrite Hsz2 in Hcr. apply Hcr; [lia|done]. }
  rewrite <- Est. apply wp_bind, (wp_some s); [done|]. apply wp_bind.
  eapply wp_mono; [apply (spec_wait_barrier transfer q s i w2 x2); done| |done].
  intros _ w' (Hi' & Hf & Hb & He & Hh). apply wp_ret. split_and!; [done| |].
  - eapply only_trans; [by eapply only_set|by apply frame_only].
  - split; [|done]. eapply placed_frame; [exact Hf|].
    exists x2. split_and!; [done|by exists transfer, i| |by left].
    exists transfer, t. split; [|done]. cbn [pool].
    change (LastSyncStreams (TransferPool x2)) with (LastSyncStreams (TransferPool x1)). rewrite E3. lia.
Qed.
End invariant.
