(* ===== verification/CudaWait.v ===== *)
(** * CudaWait: waiting for lists of events in the CUDA adapter

    [forLatestEvents] waits for the newest event of each stream only; with the
    invariant of [CudaOrder] that is waiting for all of them.  The specifications
    of the calls that wait, record and submit are built on it. *)
From S2P Require Import Prelude CudaFill CudaLaunch CudaQueue CudaOrder.

Section waiting.
Context {D : Type} `{!CudaDriver D, !CudaDriverLaws D}.
Implicit Types w : world D.

(** ** Waiting for a list of events *)

(** The order of [forLatestEvents]: by stream, the newest first. *)
Definition before (a b : nat * ur_event_handle_t_) : Prop :=
  e_Stream a.2 < e_Stream b.2 ∨ e_Stream a.2 = e_Stream b.2 ∧ EventID a.2 > EventID b.2.

(** [std::sort]: a permutation in which no element is before an earlier one. *)
Class SortsEvents (std_sort : list (nat * ur_event_handle_t_) → list (nat * ur_event_handle_t_)) := {
  sort_permutation : ∀ l, std_sort l ≡ₚ l;
  sort_sorted : ∀ l, StronglySorted (λ a b, ¬ before b a) (std_sort l)
}.

(** The events of a wait list: recorded, or made from a native event. *)
Definition waitable (w : world D) (evs : list nat) : Prop :=
  ∀ h, h ∈ evs → ∃ e, events w !! h = Some e ∧ (IsRecorded e = true ∨ IsInterop e = true).

Section latest.
Context (P : world D → Prop) (done_ : ur_event_handle_t_ → world D → Prop) (E : world D → Prop).
Context (F : nat → ur_event_handle_t_ → M D ur_result_t) (L : list (nat * ur_event_handle_t_)).
Hypothesis HF : ∀ h e w, (h, e) ∈ L → P w →
  wp (F h e) (λ r w', P w' ∧ (r = UR_RESULT_SUCCESS → done_ e w') ∧ ∀ y, done_ y w → done_ y w') E w.
(** An event that is done stands for the earlier ones of its stream. *)
Hypothesis Hnewer : ∀ w a b, P w → a ∈ L → b ∈ L → done_ a.2 w → e_Stream a.2 = e_Stream b.2 →
  IsInterop b.2 = false → EventID b.2 ≤ EventID a.2 → done_ b.2 w.

Lemma wp_latestLoop l first last w : P w → StronglySorted (λ a b, ¬ before b a) l →
  (∀ y, y ∈ l → y ∈ L) →
  (first = false → ∃ a, a ∈ L ∧ done_ a.2 w ∧ e_Stream a.2 = last ∧ ∀ b, b ∈ l → ¬ before b a) →
  wp (latestLoop F first last l) (λ r w', P w' ∧
    (r = UR_RESULT_SUCCESS → ∀ y, y ∈ l → done_ y.2 w') ∧ ∀ y, done_ y w → done_ y w') E w.
Proof.
  revert first last w. induction l as [|[h e] l IH]; intros first last w HP Hs HL Hlast; cbn [latestLoop].
  { apply wp_ret. split_and!; [done|by intros _ y Hy%elem_of_nil|done]. }
  apply StronglySorted_cons in Hs as [Hall Hs]. rewrite Forall_forall in Hall.
  assert (HLl : ∀ y, y ∈ l → y ∈ L) by (intros y Hy; apply HL, elem_of_cons; by right).
  assert (Hin : (h, e) ∈ L) by (apply HL, elem_of_cons; by left).
  destruct (_ && _) eqn:Eskip.
  - apply andb_true_iff in Eskip as [Eskip Est]. apply andb_true_iff in Eskip as [Ef Ei].
    apply negb_true_iff in Ef, Ei. apply Z.eqb_eq in Est. destruct (Hlast Ef) as (a & Ha & Hd & Hst & Hb).
    assert (Hde : done_ e w).
    { apply (Hnewer w a (h, e)); cbn; try done; [congruence|].
      assert (Hn := Hb (h, e) ltac:(apply elem_of_cons; by left)). unfold before in Hn. cbn in Hn. lia. }
    eapply wp_mono; [apply IH; [done|done|done|]| |done].
    + intros _. exists a. split_and!; try done. intros b Hbl. apply Hb, elem_of_cons. by right.
    + intros r w' (HP' & Hr & Hm). split_and!; [done| |done].
      intros Hok y [->|Hy]%elem_of_cons; [by apply Hm|by apply Hr].
  - apply wp_bind. eapply wp_mono; [by apply (HF h e w)| |done].
    intros r w1 (HP1 & Hr1 & Hm1). destruct r; try (apply wp_ret; split_and!; done).
    eapply wp_mono; [apply IH; [done|done|done|]| |done].
    + intros _. exists (h, e). split_and!; [done|by apply Hr1|done|]. intros b Hb. by apply Hall.
    + intros r w' (HP' & Hr & Hm). split_and!; [done| |by auto].
      intros Hok y [->|Hy]%elem_of_cons; [by apply Hm, Hr1|by apply Hr].
Qed.
End latest.

Lemma get_events_spec evs (w : world D) : (∀ h, h ∈ evs → is_Some (events w !! h)) →
  ∃ L, get_events evs w = (Val L, w) ∧
    (∀ h e, (h, e) ∈ L → h ∈ evs ∧ events w !! h = Some e) ∧ L.*1 = evs.
Proof.
  induction evs as [|h evs IH]; intros Hev; cbn [get_events].
  { exists []. split_and!; [done|by intros h e []%elem_of_nil|done]. }
  destruct (Hev h) as [e He]; [by apply elem_of_cons; left|].
  destruct IH as (L & EL & HL & Hfst); [intros g Hg; apply Hev, elem_of_cons; by right|].
  exists ((h, e) :: L). split_and!.
  - unfold mbind, M_bind, get_event, gets, mbind, M_bind. rewrite He. cbn. by rewrite EL.
  - intros g e' [[= -> ->]|Hg]%elem_of_cons; [split; [by apply elem_of_cons; left|done]|].
    destruct (HL g e' Hg). split; [apply elem_of_cons; by right|done].
  - cbn. by rewrite Hfst.
Qed.

Lemma waitable_some w evs : waitable w evs → ∀ h, h ∈ evs → is_Some (events w !! h).
Proof. intros Hw h Hh. destruct (Hw h Hh) as (e & He & _). by exists e. Qed.

Context (std_sort : list (nat * ur_event_handle_t_) → list (nat * ur_event_handle_t_)).
Context `{!SortsEvents std_sort}.

(** Waiting for the latest event of each stream is waiting for all of them. *)
Lemma wp_forLatestEvents P done_ E F evs w0 :
  waitable w0 evs → P w0 →
  (∀ h e w, h ∈ evs → events w0 !! h = Some e → P w →
     wp (F h e) (λ r w', P w' ∧ (r = UR_RESULT_SUCCESS → done_ e w') ∧ ∀ y, done_ y w → done_ y w') E w) →
  (∀ w ha a hb b, P w → ha ∈ evs → hb ∈ evs → events w0 !! ha = Some a → events w0 !! hb = Some b →
     done_ a w → e_Stream a = e_Stream b → IsInterop b = false → EventID b ≤ EventID a → done_ b w) →
  wp (forLatestEvents std_sort (Some evs) F) (λ r w', P w' ∧
    (r = UR_RESULT_SUCCESS → ∀ h e, h ∈ evs → events w0 !! h = Some e → done_ e w')) E w0.
Proof.
  intros Hw HP HF Hnewer. pose proof (waitable_some _ _ Hw) as Hev. unfold forLatestEvents.
  destruct evs as [|h [|h2 evs]].
  - apply wp_ret. split; [done|]. done.
  - destruct (Hev h) as [e He]; [by apply elem_of_cons; left|].
    apply wp_bind. unfold get_event. apply wp_bind, wp_gets, (wp_some e); [done|].
    eapply wp_mono; [apply (HF h e w0); [by apply elem_of_cons; left|done|done]| |done].
    intros r w' (HP' & Hr & _). split; [done|]. intros Hok g e' Hg He'.
    apply list_elem_of_singleton in Hg as ->. assert (e' = e) as -> by congruence. by apply Hr.
  - destruct (get_events_spec (h :: h2 :: evs) w0 Hev) as (L & EL & HL & Hfst).
    apply wp_bind. unfold wp at 1. rewrite EL.
    eapply wp_mono; [apply (wp_latestLoop P done_ E F L) with (first := true)| |done].
    + intros g e w Hg HPw. destruct (HL g e Hg). by apply HF.
    + intros w [ha a] [hb b] HPw Ha Hb. destruct (HL ha a Ha), (HL hb b Hb). cbn. intros. by apply (Hnewer w ha a hb b).
    + done.
    + apply sort_sorted.
    + intros y. by rewrite sort_permutation.
    + done.
    + intros r w' (HP' & Hr & _). split; [done|]. intros Hok g e Hg He.
      rewrite <- Hfst in Hg. apply list_elem_of_fmap in Hg as ([g' e'] & -> & Hg).
      destruct (HL g' e' Hg) as [_ He']. cbn in He. assert (e' = e) as <- by congruence.
      apply (Hr Hok (g', e')). by rewrite sort_permutation.
Qed.

(** Only the driver moves, and loses nothing. *)
Definition drv_step (w w' : world D) : Prop :=
  w' = set_drv (drv w') w ∧ dle (λ _, False) (drv w) (drv w').

Lemma drv_step_refl w : drv_step w w.
Proof. split; [by destruct w|apply dle_refl]. Qed.

Lemma drv_step_trans w1 w2 w3 : drv_step w1 w2 → drv_step w2 w3 → drv_step w1 w3.
Proof.
  intros [E1 D1] [E2 D2]. split; [|by eapply dle_trans]. rewrite E2 at 1. rewrite E1. done.
Qed.

Lemma drv_step_after w w' s c : drv_step w w' → after (drv w) s c → after (drv w') s c.
Proof. intros [_ []]. by apply k_after; intros []. Qed.

Lemma drv_step_Inv w w' : Inv w → drv_step w w' → Inv w'.
Proof. intros Hi [E Hd]. rewrite E. eapply (Inv_drv (λ _, False)); [done|done|by intros ? ? []]. Qed.

Lemma drv_step_frame q w w' : drv_step w w' → frame q w w'.
Proof.
  intros [E Hd]. rewrite E. split; [by eapply dle_le|]. intros x Hx. by exists x.
Qed.

Definition is_quiet (c : cu_call) : bool :=
  match c with cuEventRecord _ _ | cuEventDestroy _ | cuStreamDestroy _ => false | _ => true end.

Lemma quiet_dle c r h (d d' : D) : is_quiet c = true → cu c d = (r, h, d') → dle (λ _, False) d d'.
Proof.
  intros Hc Ec. destruct (cu_keeps _ _ _ _ _ Ec) as [K1 K2 K3 K4 K5 K6].
  split; intros; eauto; destruct c; try done; eauto.
Qed.

Lemma wp_raw c w : is_quiet c = true →
  wp (raw c) (λ r w', drv_step w w' ∧ cu c (drv w) = (r.1, r.2, drv w')) (λ _, False) w.
Proof.
  intros Hc. unfold wp, raw. destruct (cu c (drv w)) as [[r h] d'] eqn:Ec.
  split; [|done]. split; [done|by eapply quiet_dle].
Qed.

Lemma wp_check c w : is_quiet c = true →
  wp (UR_CHECK_ERROR c) (λ h w', drv_step w w' ∧ cu c (drv w) = (CUDA_SUCCESS, h, drv w'))
    (drv_step w) w.
Proof.
  intros Hc. apply wp_bind. eapply wp_mono; [by apply wp_raw| |done].
  intros [r h] w' [Hd Ec]. cbn in *. pose proof (cu_up _ _ _ _ _ Ec).
  destruct r; try done; by apply wp_ret.
Qed.

Lemma wp_call c w : is_quiet c = true →
  wp (call c) (λ _ w', drv_step w w' ∧ ∃ h, cu c (drv w) = (CUDA_SUCCESS, h, drv w')) (drv_step w) w.
Proof.
  intros Hc. apply wp_bind. eapply wp_mono; [by apply wp_check| |done].
  intros h w' [Hd Ec]. apply wp_ret. split; [done|by exists h].
Qed.

Lemma wp_context dev w : wp (ScopedContext dev) (λ _ w', drv_step w w') (drv_step w) w.
Proof.
  unfold ScopedContext. destruct (dev =? 0); [split; [done|apply drv_step_refl]|].
  eapply wp_mono; [by apply wp_call|by intros _ w' [? _]|done].
Qed.

Lemma covered_by_In evs w (c : nat) : c ∈ covered_by (Some evs) w ↔
  ∃ h e, h ∈ evs ∧ events w !! h = Some e ∧ c ∈ e_covers e.
Proof.
  unfold covered_by. cbn [default]. rewrite list_elem_of_bind. split.
  - intros (h & Hc & Hh). destruct (events w !! h) as [e|] eqn:He; [by exists h, e|by apply elem_of_nil in Hc].
  - intros (h & e & Hh & He & Hc). exists h. by rewrite He.
Qed.

(** What the events of one stream that are not newer than [e] stand for. *)
Definition older w (e : ur_event_handle_t_) (c : nat) : Prop :=
  ∃ h' e', events w !! h' = Some e' ∧ IsInterop e' = false ∧ e_Stream e' = e_Stream e ∧
    EventID e' ≤ EventID e ∧ c ∈ e_covers e'.

Lemma older_self w h e c : Inv w → events w !! h = Some e → c ∈ e_covers e → older w e c.
Proof.
  intros Hi He Hc. exists h, e. split_and!; try done.
  pose proof (i_event _ Hi h e He) as Hev. destruct (e_Queue e) as [q|].
  - destruct Hev as (x & _ & Hok). apply Hok.
  - destruct Hev as (_ & E & _). rewrite E in Hc. by apply elem_of_nil in Hc.
Qed.

(** The recorded event [e] stands for all that. *)
Lemma older_stands w h e c : Inv w → events w !! h = Some e →
  IsRecorded e = true ∨ IsInterop e = true → older w e c →
  ∃ q, e_Queue e = Some q ∧ stands_for w q e c ∧ after (drv w) (e_Stream e) c ∧
    claim w (EvEnd e) (REnd h).
Proof.
  intros Hi He Hr (h' & e' & He' & Hint & Hs & Hid & Hc).
  pose proof (i_event _ Hi h' e' He') as Hev'. destruct (e_Queue e') as [q'|] eqn:Hq'.
  2: { by destruct Hev' as [? _]; congruence. }
  destruct Hev' as (x' & Hx' & Hok').
  assert (Ho' : owns w (e_Stream e') q') by (exists x'; split; [done|apply Hok']).
  pose proof (i_event _ Hi h e He) as Hev. destruct (e_Queue e) as [q|] eqn:Hq.
  2: { destruct Hev as (_ & _ & E & _). destruct (i_own_live _ Hi _ _ Ho') as [Hz _]. congruence. }
  destruct Hev as (x & Hx & Hok). pose proof (eo_interop _ _ _ Hok) as Hni.
  assert (Ho : owns w (e_Stream e) q) by (exists x; split; [done|apply Hok]).
  rewrite Hs in Ho'. pose proof (i_own_fun _ Hi _ _ _ Ho Ho') as ->.
  exists q'. split_and!; [done| | |].
  - apply (i_newer _ Hi h' e' h e q'); try done. by destruct Hr as [|]; [|congruence].
  - rewrite <- Hs. by apply Hok'.
  - split; [apply Hok|by exists e].
Qed.

(** A wait list is waited for, in the sense [G], when each event that the loop
    picks is. *)
Lemma wp_wait_list (G : D → nat → Prop) P E F evs w0 :
  Inv w0 → waitable w0 evs → P w0 →
  (∀ h e w, h ∈ evs → events w0 !! h = Some e → P w →
     wp (F h e) (λ r w', P w' ∧ (∀ c, G (drv w) c → G (drv w') c) ∧
       (r = UR_RESULT_SUCCESS → ∀ c, older w0 e c → G (drv w') c)) E w) →
  wp (forLatestEvents std_sort (Some evs) F) (λ r w', P w' ∧
    (r = UR_RESULT_SUCCESS → ∀ c, c ∈ covered_by (Some evs) w0 → G (drv w') c)) E w0.
Proof.
  intros Hi Hw HP HF.
  eapply wp_mono; [apply (wp_forLatestEvents P (λ e w, ∀ c, older w0 e c → G (drv w) c))| |done].
  - done.
  - done.
  - intros h e w Hh He HPw. eapply wp_mono; [by apply HF| |done].
    intros r w' (HP' & Hm & Hd). by split_and!; [|..|intros y Hy c Hc; by apply Hm, Hy].
  - intros w ha a hb b _ _ _ _ _ Ha Hs _ Hid c (h' & e' & He' & Hint & Hs' & Hid' & Hc).
    apply Ha. exists h', e'. split_and!; [done..|congruence|lia|done].
  - intros r w' [HP' Hr]. split; [done|]. intros Hok c (h & e & Hh & He & Hc)%covered_by_In.
    apply (Hr Hok h e Hh He). by eapply older_self.
Qed.

Lemma recorded_step w w' h e c : Inv w → drv_step w w' → claim w (EvEnd e) (REnd h) →
  recorded (drv w) (EvEnd e) c → recorded (drv w') (EvEnd e) c.
Proof. intros Hi [_ Hd] Hcl. apply Hd; [by eapply i_claim_live|tauto|tauto]. Qed.
Definition waitable_list w (evs : option (list nat)) : Prop :=
  match evs with None => True | Some l => waitable w l end.

(** [cuStreamWaitEvent] orders the stream after all that the event stands for. *)
Lemma wp_wait_event s w0 w h e : Inv w0 → drv_step w0 w → events w0 !! h = Some e →
  IsRecorded e = true ∨ IsInterop e = true →
  wp (call (cuStreamWaitEvent s (EvEnd e));; mret UR_RESULT_SUCCESS)
    (λ r w', drv_step w0 w' ∧ (∀ c, after (drv w) s c → after (drv w') s c) ∧
       (r = UR_RESULT_SUCCESS → ∀ c, older w0 e c → after (drv w') s c)) (drv_step w0) w.
Proof.
  intros Hi H0 He Hr. apply wp_bind. eapply wp_mono; [by apply wp_call| |].
  2: { intros w' Hd. by eapply drv_step_trans. }
  intros _ w' [Hd [a Ec]]. apply wp_ret. split_and!; [by eapply drv_step_trans|by intros c; apply (drv_step_after w)|].
  intros _ c Hc. destruct (older_stands w0 h e c Hi He Hr Hc) as (q & _ & [Hrec _] & _ & Hcl).
  eapply cu_wait; [exact Ec|]. by eapply (recorded_step w0).
Qed.

Lemma wp_enqueueEventsWait q s evs w x : Inv w → queues w !! q = Some x → waitable_list w evs →
  wp (enqueueEventsWait std_sort q s evs) (λ r w', drv_step w w' ∧
    (r = UR_RESULT_SUCCESS → ∀ c, c ∈ covered_by evs w → after (drv w') s c)) (λ _, False) w.
Proof.
  intros Hi Hx Hw. unfold enqueueEventsWait. destruct evs as [evs|].
  2: { apply wp_ret. split; [apply drv_step_refl|]. by intros _ c []%elem_of_nil. }
  apply wp_catch. apply wp_bind, (wp_get_queue _ x); [done|]. apply wp_bind.
  eapply wp_mono; [apply wp_context| |by intros w' Hd r Hr].
  intros ? w0 Hd. cbn in Hd. assert (Hi0 : Inv w0) by (by eapply drv_step_Inv).
  assert (Hev : events w0 = events w) by (destruct Hd as [-> _]; done).
  eapply wp_mono; [apply (wp_wait_list (λ d, after d s) (drv_step w0) (drv_step w0)); [done| |apply drv_step_refl|]| |].
  - intros h Hh. rewrite Hev. by apply Hw.
  - intros h e w1 Hh He H1. destruct (Hw h Hh) as (e' & He' & Hr).
    rewrite Hev in He. assert (e' = e) as -> by congruence. rewrite <- Hev in He.
    destruct (Z.eqb_spec (e_Stream e) s) as [<-|Hne].
    + apply wp_ret. split_and!; [done|done|]. intros _ c Hc.
      destruct (older_stands w0 h e c Hi0 He Hr Hc) as (_ & _ & _ & Ha & _). by eapply drv_step_after.
    + by eapply wp_wait_event.
  - intros r w' [H1 Hr]. split; [by eapply drv_step_trans|]. intros Hok c Hc. apply (Hr Hok).
    unfold covered_by in *. by rewrite Hev.
  - intros w' H1 r Hr. split; [by eapply drv_step_trans|done].
Qed.
End waiting.
