(* ===== verification/CudaTestDriver.v ===== *)
(** * CudaTestDriver: a driver and a sort that satisfy the laws

    The driver [TestDriver] of CudaQueue obeys the laws of [CudaDriverLaws], so that
    the theorems about the CUDA adapter speak of runs that exist; merge sort sorts
    the events of a wait list as [std::sort] does. *)
From stdpp Require Import sorting.
From S2P Require Import Prelude CudaFill CudaLaunch CudaQueue CudaOrder CudaWait.

Section test_driver.
Import TestDriver.
Implicit Types d : state.

Lemma stream_of_insert d s s' l o e r b :
  stream_of (mkState (<[s := l]> (on_stream d)) o e r b) s' = if decide (s' = s) then l else stream_of d s'.
Proof.
  unfold stream_of. cbn. destruct (decide (s' = s)) as [->|]; [by rewrite lookup_insert_eq|].
  by rewrite lookup_insert_ne.
Qed.

Lemma event_of_insert d s s' l o e r b :
  event_of (mkState o (<[s := l]> (on_event d)) e r b) s' = if decide (s' = s) then l else event_of d s'.
Proof.
  unfold event_of. cbn. destruct (decide (s' = s)) as [->|]; [by rewrite lookup_insert_eq|].
  by rewrite lookup_insert_ne.
Qed.

(** A handle that is not in use. *)
Lemma fresh_not_used (X : gset Z) : fresh (X ∪ {[0%Z]}) ≠ 0%Z ∧ fresh (X ∪ {[0%Z]}) ∉ X.
Proof. pose proof (is_fresh (X ∪ {[0%Z]})). set_solver. Qed.

Lemma unused_stream_empty d s : s ∉ dom (on_stream d) → stream_of d s = [].
Proof. intros Hn%not_elem_of_dom. unfold stream_of. by rewrite Hn. Qed.

(** What stays after a call that changes only what is done or ordered, a stream or an event. *)
Lemma test_keeps_more (E G S : Z → Prop) d d' :
  (∀ s, ¬ S s → stream_of d s ⊆ stream_of d' s) → done_ d ⊆ done_ d' → order d ⊆ order d' →
  (∀ e, e ∈ dom (on_event d) → ¬ E e → ¬ G e → event_of d e ⊆ event_of d' e) →
  (∀ e, e ∈ dom (on_event d) → ¬ G e → e ∈ dom (on_event d')) →
  (∀ s, s ∈ dom (on_stream d) → ¬ S s → s ∈ dom (on_stream d')) →
  keeps E G S d d'.
Proof.
  intros Hs Hd Ho He Hle Hls. split; cbn.
  - intros s c Hn [Hc|Hc]; [left; by eapply Hs|right; by apply Hd].
  - intros c Hc. by apply Hd.
  - intros c c' Hc. by apply Ho.
  - intros e c Hl HE HG [Hc|Hc]; [left; by eapply He|right; by apply Hd].
  - done.
  - done.
Qed.

Lemma test_step_keeps c d r h d' : step c d = (r, h, d') →
  keeps (rerecorded c r) (gone_event c) (gone_stream c) d d'.
Proof.
  unfold step. intros H. destruct (bad d c); [by injection H as <- <- <-; apply test_keeps_more|].
  destruct c; injection H as <- <- <-; apply test_keeps_more; cbn [on_stream on_event done_ order];
    try done; try set_solver.
  - intros s _. rewrite stream_of_insert. case_decide as Hs; [|done]. rewrite unused_stream_empty; [done|].
    rewrite Hs. apply fresh_not_used.
  - intros s' _. rewrite stream_of_insert. case_decide as Hs; [|done]. rewrite Hs. set_solver.
  - intros s' Hs. cbn in Hs. unfold stream_of. cbn. by rewrite lookup_delete_ne.
  - intros e He _ _. rewrite event_of_insert. case_decide as Hn; [|done]. rewrite Hn in He.
    by apply fresh_not_used in He.
  - intros e' _ Hr _. rewrite event_of_insert. case_decide as Hn; [|done]. by destruct Hr.
  - intros e' _ _ Hg. cbn in Hg. unfold event_of. cbn. by rewrite lookup_delete_ne.
  - intros s' _. rewrite stream_of_insert. case_decide as Hs; [|done]. rewrite Hs. set_solver.
Qed.

#[export] Instance test_driver_laws : CudaDriverLaws state.
Proof.
  assert (Hstep : ∀ c d r h d', step c d = (r, h, d') → r = CUDA_SUCCESS → bad d c = false).
  { intros c d r h d' H ->. unfold step in H. by destruct (bad d c). }
  split.
  - intros c d d' r h. apply test_step_keeps.
  - cbn. intros c d d' r h. unfold step. destruct (bad d c); [by intros [= <- _ _]|].
    destruct c; try (by intros [= <- _ _]); by case_bool_decide; intros [= <- _ _].
  - cbn. by right.
  - cbn. intros f p d d' s H. unfold step in H. rewrite (Hstep _ _ _ _ _ H eq_refl) in H. injection H as <- <-.
    split; [apply fresh_not_used|]. split; [apply fresh_not_used|]. cbn. set_solver.
  - cbn. intros f d d' e H. unfold step in H. rewrite (Hstep _ _ _ _ _ H eq_refl) in H. injection H as <- <-.
    split; [apply fresh_not_used|]. split; [apply fresh_not_used|]. cbn. set_solver.
  - cbn. intros s e d d' h c H. unfold step in H. rewrite (Hstep _ _ _ _ _ H eq_refl) in H. injection H as _ <-.
    rewrite stream_of_insert, decide_True by done. cbn. set_solver.
  - cbn. intros s e d d' h c H. unfold step in H. rewrite (Hstep _ _ _ _ _ H eq_refl) in H. injection H as _ <-.
    rewrite event_of_insert, decide_True by done. by cbn.
  - cbn. intros s d d' h c H. unfold step in H. rewrite (Hstep _ _ _ _ _ H eq_refl) in H. injection H as _ <-.
    cbn. set_solver.
  - cbn. intros e d d' h c H. unfold step in H. rewrite (Hstep _ _ _ _ _ H eq_refl) in H. injection H as _ <-.
    cbn. set_solver.
  - cbn. intros s d d' h c H. unfold step in H. rewrite (Hstep _ _ _ _ _ H eq_refl) in H.
    case_bool_decide; [|done]. injection H as _ <-. set_solver.
  - cbn. intros e d d' h c H. unfold step in H. rewrite (Hstep _ _ _ _ _ H eq_refl) in H.
    case_bool_decide; [|done]. injection H as _ <-. set_solver.
  - cbn. intros wk c s d d' h H. unfold step in H. rewrite (Hstep _ _ _ _ _ H eq_refl) in H. injection H as _ <-.
    rewrite stream_of_insert, decide_True by done. cbn. split; [set_solver|].
    intros c' Hc. apply elem_of_app. left. apply list_elem_of_fmap. exists c'. split; [done|].
    by apply elem_of_app.
Qed.
End test_driver.

(** ** A sort *)

(** By stream, the newest first. *)
Definition not_after (a b : nat * ur_event_handle_t_) : Prop :=
  e_Stream a.2 < e_Stream b.2 ∨ e_Stream a.2 = e_Stream b.2 ∧ EventID b.2 ≤ EventID a.2.

#[export] Instance not_after_dec : RelDecision not_after.
Proof. unfold RelDecision, not_after. intros. apply _. Defined.

#[export] Instance not_after_total : Total not_after.
Proof. intros a b. unfold not_after. lia. Qed.

#[export] Instance not_after_trans : Transitive not_after.
Proof. intros a b c. unfold not_after. lia. Qed.

Definition sort_events : list (nat * ur_event_handle_t_) → list (nat * ur_event_handle_t_) :=
  merge_sort not_after.

#[export] Instance sort_events_sorts : SortsEvents sort_events.
Proof.
  split.
  - intros l. apply merge_sort_Permutation.
  - intros l. pose proof (StronglySorted_merge_sort not_after l) as Hs. unfold sort_events.
    induction Hs as [|a l' _ IH Ha]; constructor; [done|].
    eapply Forall_impl; [exact Ha|]. intros b. unfold not_after, before. lia.
Qed.

(** ** Runs *)

(** The state after a call. *)
Definition run {A} (m : M TestDriver.state A) (w : world TestDriver.state) : world TestDriver.state := (m w).2.

Lemma run_eq {A} (m : M TestDriver.state A) w r : (m w).1 = r → m w = (r, run m w).
Proof. intros <-. unfold run. by destruct (m w). Qed.

(** An out-of-order queue for device 1: its number is 0.  A copy with event 1, a
    barrier with event 2, and a copy that waits for event 1. *)
Definition no_failure : world TestDriver.state := TestDriver.start_state (λ _, false).
Definition with_queue := run (urQueueCreate [1] 1 (Some UR_QUEUE_FLAG_OUT_OF_ORDER_EXEC_MODE_ENABLE)) no_failure.
Definition with_copy := run (urEnqueueUSMMemcpy sort_events 0 false 4096 8192 16 None true) with_queue.
Definition with_barrier := run (urEnqueueEventsWaitWithBarrier sort_events 0 None true) with_copy.
Definition with_copies := run (urEnqueueUSMMemcpy sort_events 0 false 4096 8192 16 (Some [1%nat]) true) with_barrier.

Lemma with_barrier_runs : urEnqueueEventsWaitWithBarrier sort_events 0 None true with_copy =
  (Val (UR_RESULT_SUCCESS, Some 2%nat), with_barrier).
Proof. unfold with_barrier. apply run_eq. by vm_compute. Qed.

Lemma with_copies_runs : urEnqueueUSMMemcpy sort_events 0 false 4096 8192 16 (Some [1%nat]) true with_barrier =
  (Val (UR_RESULT_SUCCESS, Some 3%nat), with_copies).
Proof. unfold with_copies. apply run_eq. by vm_compute. Qed.
