(* ===== verification/CudaCommand.v ===== *)
(** * CudaCommand: commands and their events in the CUDA adapter

    The invariant of [CudaOrder] holds through the calls that make an event, put
    work on a stream and record the event. *)
From S2P Require Import Prelude CudaFill CudaLaunch CudaQueue CudaOrder CudaWait.

Section command.
Context {D : Type} `{!CudaDriver D, !CudaDriverLaws D}.
Implicit Types w : world D.

Lemma unclaimed_drv E w d' e : dle E (drv w) d' → unclaimed w e → unclaimed (set_drv d' w) e.
Proof. intros [] [Hl Hc]. split; [|done]. apply k_event; tauto. Qed.

(** Updates that leave the streams of the queue alone. *)
Record core_update (x x' : ur_queue_handle_t_) : Prop := mkCoreUpdate {
  cu_core : same_core x x';
  cu_applied : ∀ k, AppliedBarrier (pool k x') = AppliedBarrier (pool k x);
  cu_delay : DelayCompute x' = DelayCompute x;
  cu_count : EventCount x ≤ EventCount x' < 2 ^ 32;
  cu_device : q_Device x' = q_Device x;
  cu_handles : BarrierEvent x' = BarrierEvent x ∧ BarrierTmpEvent x' = BarrierTmpEvent x
}.

Lemma queue_ok_core d h q x x' : queue_ok d h q x → core_update x x' → queue_ok d h q x'.
Proof.
  intros [P1 P2 P3 P4 P5 P6 P7] [Hc A Hdel He Hdev [Hb Ht]].
  assert (Hpool : ∀ k, pool_ok (pool k x')).
  { intros k. pose proof (Hc k) as (E1 & E2 & E3 & E4). destruct (P1 k).
    split; unfold size in *; by rewrite ?E1, ?E2, ?E3, ?E4, ?A. }
  pose proof (Hc compute) as (Ec & _). cbn in Ec.
  split; [done| | |lia|congruence| |].
  - unfold size. by rewrite Ec.
  - congruence.
  - intros c Hs. destruct (P6 c Hs) as [|(k & s & Hu & Ha)]; [by left|right].
    exists k, s. split; [|done]. destruct (Hc k) as (E1 & E2 & _ & E4). by eapply in_use_core.
  - intros c Hbar. eapply barrier_ok_flags; [by apply P7|done|].
    intros k i s Hi' Hs. left. destruct (Hc k) as (E1 & _). by rewrite A in Hi'; rewrite E1 in Hs.
Qed.

Lemma Inv_core w q x x' : Inv w → queues w !! q = Some x → core_update x x' →
  Inv (set_queues <[q := x']> w).
Proof.
  intros Hi Hx Hu. apply (Inv_same_core _ q x); [done|done|apply Hu| |apply Hu|left; apply Hu].
  eapply queue_ok_core; [by apply i_queue|done].
Qed.

Lemma spec_core q f w x (Q : unit → world D → Prop) : Inv w → queues w !! q = Some x →
  core_update x (f x) → Q tt (set_queues <[q := f x]> w) → spec q (upd_queue q f) w Q.
Proof.
  intros Hi Hx Hu HQ. apply (spec_upd_queue q f w x); [done|by eapply Inv_core|apply Hu|done].
Qed.

(** Handles, flags and reference counts that nothing depends on. *)
Lemma core_host s x : 0 ≤ EventCount x < 2 ^ 32 →
  core_update x (set_handles s (BarrierEvent x) (BarrierTmpEvent x) x).
Proof. intros ?. split; try done; cbn; lia. Qed.

Lemma core_refs n x : 0 ≤ EventCount x < 2 ^ 32 → core_update x (add_refs n x).
Proof. intros ?. split; try done; cbn; lia. Qed.

(** The host stream and the reference count are nobody's concern. *)
Lemma spec_host_stream q w x : Inv w → queues w !! q = Some x →
  spec q (createHostSubmitTimeStream q) w (λ _ w', events w' = events w ∧ history w' = history w).
Proof.
  intros Hi Hx. unfold createHostSubmitTimeStream.
  eapply spec_bind; [by apply (spec_gets q _ w (λ b w', w' = w))|]. intros b ? _ _ ->.
  destruct b; [by apply spec_ret|].
  eapply spec_bind; [by apply spec_check_error; [|apply quiet_harmless]|].
  intros s w1 Hi1 Hf1 [_ Ew]. assert (Hx1 : queues w1 !! q = Some x) by (by rewrite Ew).
  assert (He1 : events w1 = events w ∧ history w1 = history w) by (rewrite Ew; done).
  eapply spec_bind; [apply (spec_core q _ w1 x (λ _ w', events w' = events w ∧ history w' = history w)); try done|].
  { apply core_host, (qo_count _ _ _ _ (i_queue _ Hi1 q x Hx1)). }
  intros ? w2 Hi2 ? He2. cbn in He2. apply wp_modify.
  split; [by destruct Hi2|]. split; [|exact He2]. split; [by split|]. intros y Hy. by exists y.
Qed.
(** A new event of the driver, when [b] asks for one, is nobody's. *)
Lemma spec_new_handle q (b : bool) f w : Inv w →
  spec q (if b then UR_CHECK_ERROR (cuEventCreate f) else mret 0) w (λ e w',
    w' = set_drv (drv w') w ∧ (b = true → e ≠ 0) ∧
    (e ≠ 0 → unclaimed w' e ∧ ∀ e', unclaimed w e' → e ≠ e') ∧
    ∀ e', unclaimed w e' → unclaimed w' e').
Proof.
  intros Hi. destruct b.
  2: { apply spec_ret; [done|]. split_and!; [by destruct w|done|done|done]. }
  assert (Hq : harmless w (cuEventCreate f)) by (by apply quiet_harmless).
  eapply spec_mono; [by apply spec_check_error|]. intros e w' Hi' _ [Ec Ew].
  destruct (cu_create_event _ _ _ _ Ec) as (Hz & Hn & Hl). pose proof (harmless_dle w _ _ _ _ Hq Ec) as Hd.
  rewrite Ew in *. cbn [drv set_drv] in *. split_and!; [done|done| |].
  - intros _. split; [|by intros e' [Hl' _] ->]. split; [done|]. intros r Hr.
    apply Hn. by apply (i_claim_live _ Hi e r).
  - intros e' He'. by eapply unclaimed_drv.
Qed.

(** A new event of queue [q], not yet recorded. *)
Definition made w h q s t : Prop :=
  ∃ e, events w !! h = Some e ∧ e_Queue e = Some q ∧ e_Stream e = s ∧ StreamToken e = t ∧
    IsRecorded e = false ∧ HasBeenWaitedOn e = false.

Lemma drv_queues w w' q x : w' = set_drv (drv w') w → queues w !! q = Some x → queues w' !! q = Some x.
Proof. by intros ->. Qed.

Lemma spec_makeNative ty q s t w : Inv w → placed q w s t →
  spec q (makeNative ty q s (Some t)) w (λ h w', made w' h q s t ∧ history w' = history w).
Proof.
  intros Hi Hp. pose proof Hp as (x & Hx & _). unfold makeNative.
  eapply spec_bind; [by apply (spec_get_queue q q x w (λ a w', a = x ∧ w' = w))|]. intros ? ? _ _ [-> ->].
  eapply (spec_bind q _ _ _ (λ _ w', history w' = history w)).
  { destruct (RequiresTimings x ty); [|by apply spec_ret].
    eapply spec_mono; [by apply (spec_host_stream q w x)|]. intros ? w' _ _ [_ E]. exact E. }
  intros ? w1 Hi1 Hf1 H1. cbn in H1.
  eapply spec_bind; [apply (spec_new_handle q true); exact Hi1|].
  intros end_ w2 Hi2 Hf2 (E2 & Z2 & U2 & _). specialize (Z2 eq_refl). destruct (U2 Z2) as [U2' _].
  eapply spec_bind; [apply (spec_new_handle q _ _ w2 Hi2)|]. intros queued w3 Hi3 Hf3 (E3 & _ & U3 & K3).
  eapply spec_bind; [apply (spec_new_handle q _ _ w3 Hi3)|]. intros start_ w4 Hi4 Hf4 (E4 & _ & U4 & K4).
  eapply spec_bind; [by apply (spec_some q (Some t) t w4 (λ a w', a = t ∧ w' = w4))|]. intros ? ? _ _ [-> ->].
  eapply spec_bind; [by apply (spec_gets q _ w4 (λ a w', a = next_id w4 ∧ w' = w4))|]. intros ? ? _ _ [-> ->].
  assert (Hp4 : placed q w4 s t).
  { eapply placed_frame; [|exact Hp]. eapply frame_trans; [exact Hf1|]. eapply frame_trans; [exact Hf2|].
    eapply frame_trans; [exact Hf3|exact Hf4]. }
  destruct Hp4 as (x4 & Hx4 & Hex & _ & Htok).
  set (e := mkEvent ty 1 true false false false false t 0 end_ start_ queued (Some q) s []).
  assert (Hi5 : Inv (set_events <[next_id w4 := e]> (take_id w4))).
  { apply (Inv_new_event w4 q x4 e); try done.
    - split; cbn; try done.
      + apply (qo_count _ _ _ _ (i_queue _ Hi4 q x4 Hx4)).
      + destruct Htok as [|[? _]]; [by left|by right].
      + by intros c []%elem_of_nil.
    - by apply K4, K3.
    - cbn. intros Hz. destruct (U4 Hz) as [? Hne]. split; [done|]. by apply Hne, K3.
    - cbn. intros Hz. destruct (U3 Hz) as [Hu Hne]. split_and!; [by apply K4|by apply Hne|].
      destruct (decide (start_ = 0)) as [->|Hs]; [done|]. destruct (U4 Hs) as [_ Hn]. by intros ->; apply (Hn start_). }
  assert (Hf5 : frame q w4 (set_events <[next_id w4 := e]> (take_id w4))).
  { split; [|by intros y Hy; exists y]. split; try done. cbn. intros g Hg. apply lookup_insert_is_Some'. by right. }
  assert (Hh : history w4 = history w) by (rewrite E4, E3, E2; done).
  apply wp_bind, wp_modify, wp_bind, wp_modify.
  set (w5 := set_events _ _) in *.
  assert (Hm : made w5 (next_id w4) q s t) by (exists e; cbn; split_and!; [apply lookup_insert_eq|done..]).
  eapply wp_mono; [eapply (spec_bind q _ _ w5 (λ _ w', made w' (next_id w4) q s t ∧ history w' = history w)
    (λ h w', made w' h q s t ∧ history w' = history w))| |done].
  - apply (spec_core q _ w5 x4); try done. apply core_refs, (qo_count _ _ _ _ (i_queue _ Hi4 q x4 Hx4)).
  - intros _ w6 Hi6 _ H6. by apply spec_ret.
  - intros h w' (? & ? & ?). split; [done|]. split; [by eapply frame_trans|done].
Qed.
(** Only the driver moves, and the invariant holds. *)
Definition hstep w w' : Prop := Inv w' ∧ w' = set_drv (drv w') w ∧ le w w'.

Lemma hstep_refl w : Inv w → hstep w w.
Proof. intros Hi. unfold hstep. split_and!; [done|by destruct w|apply le_refl]. Qed.

Lemma hstep_trans w1 w2 w3 : hstep w1 w2 → hstep w2 w3 → hstep w1 w3.
Proof.
  intros (_ & E1 & L1) (I2 & E2 & L2). unfold hstep. split_and!; [done| |by eapply le_trans].
  rewrite E2 at 1. rewrite E1. done.
Qed.

Lemma hstep_frame q w w' : hstep w w' → frame q w w'.
Proof. intros (_ & E & L). split; [done|]. intros x Hx. exists x. split; [by rewrite E|done]. Qed.

Lemma hstep_same w w' : hstep w w' →
  queues w' = queues w ∧ events w' = events w ∧ history w' = history w.
Proof. intros (_ & E & _). by rewrite E. Qed.

Lemma drv_hstep w w' : Inv w → drv_step w w' → hstep w w'.
Proof.
  intros Hi Hd. unfold hstep. split_and!; [by eapply drv_step_Inv|apply Hd|apply (drv_step_frame 0 _ _ Hd)].
Qed.

Lemma wp_harmless c w : Inv w → harmless w c →
  wp (call c) (λ _ w', hstep w w' ∧ ∃ h, cu c (drv w) = (CUDA_SUCCESS, h, drv w')) (hstep w) w.
Proof.
  intros Hi Hc. unfold call, UR_CHECK_ERROR.
  apply wp_bind, wp_bind. unfold wp at 1, raw. destruct (cu c (drv w)) as [[r h] d'] eqn:Ec.
  assert (Hs : hstep w (set_drv d' w)).
  { unfold hstep. split_and!; [by eapply harmless_Inv|done|by eapply dle_le, harmless_dle]. }
  pose proof (cu_up _ _ _ _ _ Ec). cbn. destruct r; first [done | by split | by (split; [|exists h])].
Qed.

(** An event that is not recorded, or serves time stamps, may be recorded. *)
Lemma record_harmless w e s r : Inv w → claim w e r → (∀ d', droppable w d' e r) → harmless w (cuEventRecord e s).
Proof.
  intros Hi Hc Hd. split; [|by split; intros ? []].
  intros h d' e' r' _ [_ ->] Hc'. by rewrite (i_claim_fun _ Hi _ _ _ Hc' Hc).
Qed.
(** Recording for a time stamp; a null event is nobody's. *)
Lemma stamp_harmless w h e s : Inv w → events w !! h = Some e →
  harmless w (cuEventRecord (EvQueued e) s) ∧ harmless w (cuEventRecord (EvStart e) s).
Proof.
  intros Hi He.
  assert (H0 : ∀ ev, ev = 0 → harmless w (cuEventRecord ev s)).
  { intros ev ->. split; [|by split; intros ? []]. intros h' d' e' r' _ [_ ->] [Hz _]. done. }
  split.
  - destruct (decide (EvQueued e = 0)); [by apply H0|].
    apply (record_harmless _ _ _ (RQueued h)); [done| |done]. split; [done|by exists e].
  - destruct (decide (EvStart e = 0)); [by apply H0|].
    apply (record_harmless _ _ _ (RStart h)); [done| |done]. split; [done|by exists e].
Qed.

Lemma set_events_alter f h e w : events w !! h = Some e →
  set_events (alter f h) w = set_events <[h := f e]> w.
Proof.
  intros He. unfold set_events. f_equal. apply map_eq. intros g.
  destruct (decide (g = h)) as [->|Hne].
  - by rewrite lookup_alter_eq, He, lookup_insert_eq.
  - by rewrite lookup_alter_ne, lookup_insert_ne.
Qed.

Lemma le_events_insert w h e : le w (set_events <[h := e]> w).
Proof. split; try done. intros g Hg. cbn. apply lookup_insert_is_Some'. by right. Qed.

Lemma frame_events_insert q w h e : frame q w (set_events <[h := e]> w).
Proof. split; [apply le_events_insert|]. intros x Hx. by exists x. Qed.

Lemma made_hstep w w' h q s t : hstep w w' → made w h q s t → made w' h q s t.
Proof. intros (_ & E & _). rewrite E. done. Qed.

Lemma spec_start q h s t w : Inv w → made w h q s t →
  spec q (start h) w (λ _ w', made w' h q s t ∧ history w' = history w).
Proof.
  intros Hi (e & He & Hq & Hs & Ht & Hr & Hwait). pose proof (i_event _ Hi h e He) as Hev. rewrite Hq in Hev.
  destruct Hev as (x & Hx & _). unfold start.
  eapply spec_bind; [by apply (spec_get_event q h e w (λ a w', a = e ∧ w' = w))|]. intros ? ? _ _ [-> ->].
  eapply spec_bind; [by apply (spec_some q _ q w (λ a w', a = q ∧ w' = w))|]. intros ? ? _ _ [-> ->].
  eapply spec_bind; [by apply (spec_get_queue q q x w (λ a w', a = x ∧ w' = w))|]. intros ? ? _ _ [-> ->].
  eapply (spec_bind q _ _ _ (λ _ w', hstep w w')).
  { eapply wp_mono; [apply (wp_catch _ (λ _ w', hstep w w'))| |done].
    - apply wp_bind. destruct (RequiresTimings x (CommandType e)).
      2: { apply wp_ret, wp_ret. by apply hstep_refl. }
      apply wp_bind. eapply wp_mono; [apply wp_harmless; [done|by eapply stamp_harmless]| |].
      2: { intros w' H r _. exact H. }
      intros ? w1 [H1 _]. pose proof (hstep_same _ _ H1) as (_ & Ee & _).
      eapply wp_mono; [apply wp_harmless; [apply H1|eapply stamp_harmless; [apply H1|by rewrite Ee]]| |].
      + intros ? w2 [H2 _]. apply wp_ret. by eapply hstep_trans.
      + intros w2 H2 r _. by eapply hstep_trans.
    - intros r w' H. split; [apply H|]. split; [by apply hstep_frame|exact H]. }
  intros r w1 Hi1 _ H1. cbn in H1. pose proof (hstep_same _ _ H1) as (_ & Ee & Eh).
  assert (He1 : events w1 !! h = Some e) by (by rewrite Ee).
  apply wp_bind, wp_modify. rewrite (set_events_alter _ h e) by done.
  apply wp_ret. split; [by apply Inv_mark; [..|congruence]|]. split; [apply frame_events_insert|]. split; [|done].
  exists (mark (HasBeenWaitedOn e) (IsRecorded e) true (EventID e) (e_RefCount e) (e_covers e) e).
  split_and!; [apply lookup_insert_eq|done..].
Qed.
(** ** Recording an event *)

(** The newest event of the queue becomes recorded. *)
Lemma Inv_record w h e q x covers : Inv w → events w !! h = Some e → e_Queue e = Some q →
  queues w !! q = Some x →
  StreamToken e = UINT32_MAX ∨ LastSyncStreams (ComputePool x) ≤ StreamToken e →
  HasBeenWaitedOn e = false →
  (∀ g e2, g ≠ h → events w !! g = Some e2 → e_Queue e2 = Some q → EventID e2 < EventID e) →
  (∀ c, c ∈ covers → recorded (drv w) (EvEnd e) c ∧ after (drv w) (e_Stream e) c) →
  (∀ g e2 c, events w !! g = Some e2 → e_Stream e2 = e_Stream e → c ∈ e_covers e2 →
     recorded (drv w) (EvEnd e) c) →
  Inv (set_events <[h := mark (HasBeenWaitedOn e) true (IsStarted e) (EventID e) (e_RefCount e) covers e]> w).
Proof.
  intros Hi He Hq Hx Htok Hwait Hnew Hcov Hold. pose proof (i_event _ Hi h e He) as Hev. rewrite Hq in Hev.
  destruct Hev as (y & Hy & [O1 O2 O3 O4 O5 O6 O7 O8]). assert (y = x) as -> by congruence.
  assert (Hst : ∀ c, recorded (drv w) (EvEnd e) c → stands_for w q e c).
  { intros c Hc. split; [done|]. intros z Hz Ht Hlt. assert (z = x) as -> by congruence. by destruct Htok; [|lia]. }
  apply (Inv_event w h e _ q x); [done|done|done|done|apply same_mark| | |].
  - split; try done. cbn. congruence.
  - intros g e2 Hne Hg Hq2 Hs. specialize (Hnew g e2 Hne Hg Hq2). cbn. split.
    + intros _ _ c Hc. by eapply Hst, Hold.
    + lia.
  - intros c Hc. by apply Hst, Hcov.
Qed.

(** The state once [record] has taken the next number of the queue. *)
Definition next_number (x : ur_queue_handle_t_) : Z := w32 (EventCount x + 1).
Definition counted (x : ur_queue_handle_t_) : ur_queue_handle_t_ :=
  set_counts (q_RefCount x) (next_number x) x.
Definition numbered (x : ur_queue_handle_t_) (e : ur_event_handle_t_) : ur_event_handle_t_ :=
  mark (HasBeenWaitedOn e) (IsRecorded e) (IsStarted e) (next_number x) (e_RefCount e) (e_covers e) e.
Definition numbered_in w q x h e : world D :=
  set_events <[h := numbered x e]> (set_queues <[q := counted x]> w).

Lemma next_number_spec x : 0 ≤ EventCount x < 2 ^ 32 → next_number x ≠ 0 →
  next_number x = EventCount x + 1 ∧ next_number x < 2 ^ 32.
Proof.
  intros Hn Hz. unfold next_number, w32 in *.
  destruct (decide (EventCount x + 1 = 2 ^ 32)) as [E|E]; [by rewrite E in Hz|].
  rewrite Z.mod_small by lia. lia.
Qed.

Lemma frame_numbered w q x h e : queues w !! q = Some x → frame q w (numbered_in w q x h e).
Proof.
  intros Hx. eapply frame_trans; [|apply frame_events_insert]. split; [apply le_queues|]. intros y Hy.
  exists (counted x). split; [cbn; by rewrite lookup_insert_eq|]. by assert (y = x) as -> by congruence.
Qed.

Lemma Inv_numbered w q x h e : Inv w → queues w !! q = Some x → events w !! h = Some e →
  e_Queue e = Some q → IsRecorded e = false → next_number x ≠ 0 → Inv (numbered_in w q x h e).
Proof.
  intros Hi Hx He Hq Hr Hz. pose proof (qo_count _ _ _ _ (i_queue _ Hi q x Hx)) as Hn.
  destruct (next_number_spec x Hn Hz) as [Hid Hlt].
  assert (Hc1 : EventCount (counted x) = next_number x) by done.
  assert (Hu : core_update x (counted x)) by (split; try done; rewrite ?Hc1; lia).
  pose proof (Inv_core w q x _ Hi Hx Hu) as Hi1. set (w1 := set_queues <[q := counted x]> w) in *.
  assert (Hx1 : queues w1 !! q = Some (counted x)) by apply lookup_insert_eq.
  pose proof (i_event _ Hi1 h e He) as Hev. rewrite Hq in Hev. destruct Hev as (y & Hy & Hok).
  assert (Some y = Some (counted x)) as [= ->] by (rewrite <- Hy; apply Hx1).
  assert (Hnil : e_covers e = []) by (by apply Hok). destruct Hok.
  apply (Inv_event w1 h e _ q (counted x)); [done|done|done|done|by repeat split|by split| |].
  - intros g e2 _ _ _ _. cbn. rewrite Hnil, Hr. split; [done|]. by intros _ _ c []%elem_of_nil.
  - cbn. rewrite Hnil. by intros c []%elem_of_nil.
Qed.

(** Numbering the event and recording the event of the driver. *)
Lemma wp_record_native w q x h e : Inv w → queues w !! q = Some x → events w !! h = Some e →
  e_Queue e = Some q → IsRecorded e = false →
  wp (catch (
      x ← get_queue q;
      let id := w32 (EventCount x + 1) in
      upd_queue q (λ x, set_counts (q_RefCount x) id x);;
      upd_event h (λ e, mark (HasBeenWaitedOn e) (IsRecorded e) (IsStarted e) id (e_RefCount e) (e_covers e) e);;
      if id =? 0 then fail Die else
      call (cuEventRecord (EvEnd e) (e_Stream e));;
      mret UR_RESULT_SUCCESS)) (λ r w', next_number x ≠ 0 ∧ hstep (numbered_in w q x h e) w' ∧
        (r = UR_RESULT_SUCCESS → ∀ c, after (drv w) (e_Stream e) c → recorded (drv w') (EvEnd e) c))
    (λ _, False) w.
Proof.
  intros Hi Hx He Hq Hr. pose proof (i_event _ Hi h e He) as Hev. rewrite Hq in Hev.
  destruct Hev as (y & _ & Hok).
  apply wp_catch, wp_bind, (wp_get_queue _ x); [done|]. fold (next_number x). cbv zeta.
  apply wp_bind, (wp_upd_queue _ _ x); [done|]. fold (counted x).
  apply wp_bind, wp_modify. rewrite (set_events_alter _ h e) by done. fold (numbered x e).
  fold (numbered_in w q x h e). destruct (Z.eqb_spec (next_number x) 0) as [|Hz]; [done|].
  pose proof (Inv_numbered w q x h e Hi Hx He Hq Hr Hz) as Hi2.
  apply wp_bind. eapply wp_mono; [apply wp_harmless; [done|]| |].
  - apply (record_harmless _ _ _ (REnd h)); [done| |].
    + split; [apply Hok|exists (numbered x e)]. split_and!; [apply lookup_insert_eq|apply Hok|done].
    + intros d' ev Hev. cbn in Hev. rewrite lookup_insert_eq in Hev. by injection Hev as <-.
  - intros ? w3 [H3 [a Ec]]. apply wp_ret. split_and!; [done|done|]. intros _ c Hc. by eapply cu_record.
  - by intros w3 H3 r Hr2.
Qed.

Lemma spec_record q h s t covers w : Inv w → made w h q s t → placed q w s t →
  (∀ c, c ∈ covers → after (drv w) s c) →
  spec q (record h covers) w (λ r w', history w' = history w ∧ (r = UR_RESULT_SUCCESS →
    ∃ e, events w' !! h = Some e ∧ IsRecorded e = true ∧ e_covers e = covers)).
Proof.
  intros Hi (e & He & Hq & Hs & Ht & Hr & Hwait) (x & Hx & _ & _ & Htok) Hcov.
  unfold record. eapply spec_bind; [by apply (spec_get_event q h e w (λ a w', a = e ∧ w' = w))|].
  intros ? ? _ _ [-> ->]. rewrite Hr, Hq. cbn [orb]. destruct (negb (IsStarted e)).
  { by apply spec_ret. }
  pose proof (qo_count _ _ _ _ (i_queue _ Hi q x Hx)) as Hn.
  apply wp_bind. eapply wp_mono; [by apply (wp_record_native w q x h e)| |done].
  intros r w3 (Hz & H3 & Hrec). destruct (next_number_spec x Hn Hz) as [Hid _].
  destruct (hstep_same _ _ H3) as (Eq3 & Ee3 & Eh3). pose proof H3 as (Hi3 & _ & Hle3).
  assert (Hf3 : frame q w w3) by (eapply frame_trans; [by apply frame_numbered|by apply hstep_frame]).
  destruct (decide (r = UR_RESULT_SUCCESS)) as [->|Hne]; [|by destruct r].
  specialize (Hrec eq_refl). apply wp_bind, wp_modify.
  assert (He3 : events w3 !! h = Some (numbered x e)) by (rewrite Ee3; apply lookup_insert_eq).
  assert (Hx3 : queues w3 !! q = Some (counted x)) by (rewrite Eq3; apply lookup_insert_eq).
  rewrite (set_events_alter _ h (numbered x e)) by done.
  assert (Hin : ∀ g e2, g ≠ h → events w3 !! g = Some e2 → events w !! g = Some e2).
  { intros g e2 Hne Hg. rewrite Ee3 in Hg. cbn in Hg. by rewrite lookup_insert_ne in Hg. }
  apply wp_ret. split; [|split; [eapply frame_trans; [exact Hf3|apply frame_events_insert]|]].
  2: { split; [exact Eh3|]. intros _. eexists. split_and!; [apply lookup_insert_eq|done|done]. }
  apply (Inv_record w3 h _ q (counted x)); [done|done|done|done| |done| | |].
  - cbn. rewrite Ht. destruct Htok as [|[_ ?]]; [by left|by right].
  - intros g e2 Hne Hg Hq2. specialize (Hin g e2 Hne Hg). pose proof (i_event _ Hi g e2 Hin) as Hev.
    rewrite Hq2 in Hev. destruct Hev as (y & Hy & [_ Hid2 _ _ _ _ _ _]).
    assert (y = x) as -> by congruence. cbn. lia.
  - intros c Hc. cbn. rewrite Hs. specialize (Hcov c Hc). split; [apply Hrec; by rewrite Hs|].
    apply (le_after w); [apply Hf3|done].
  - intros g e2 c Hg Hs2 Hc. cbn in Hs2. apply Hrec. rewrite <- Hs2. destruct (decide (g = h)) as [->|Hne].
    { assert (e2 = numbered x e) as -> by congruence. cbn in Hc.
      pose proof (i_event _ Hi h e He) as Hev. rewrite Hq in Hev. destruct Hev as (y & _ & Hok).
      rewrite (eo_covers _ _ _ Hok Hr) in Hc. by apply elem_of_nil in Hc. }
    specialize (Hin g e2 Hne Hg). pose proof (i_event _ Hi g e2 Hin) as Hev. destruct (e_Queue e2).
    + destruct Hev as (y & _ & Hok2). by apply Hok2.
    + destruct Hev as (_ & E & _). rewrite E in Hc. by apply elem_of_nil in Hc.
Qed.
(** ** Putting work on a stream *)

Lemma frame_command q q' c ws w : frame q w (push_history (HCommand q' c ws) w).
Proof.
  split; [|by intros x Hx; exists x]. split; try done. intros q0 c0. cbn. by rewrite barred_command.
Qed.

Lemma spec_submit q wk s t waits w : Inv w → usable q w s t →
  (∀ c, c ∈ waits → after (drv w) s c) →
  spec q (submit_work q wk s waits) w (λ c w', events w' = events w ∧ after (drv w') s c).
Proof.
  intros Hi Hu Hw. unfold submit_work.
  eapply spec_bind; [by apply (spec_gets q _ w (λ a w', a = length (history w) ∧ w' = w))|].
  intros ? ? _ _ [-> ->]. set (c := length (history w)).
  eapply spec_bind; [apply spec_call; [done|by apply quiet_harmless]|].
  intros _ w1 Hi1 Hf1 (h & Ec & Ew). destruct (cu_submit _ _ _ _ _ _ Ec) as [Ha Hr].
  destruct (usable_frame q w w1 s t Hf1 Hu) as [(x & Hx & _ & [k Huse] & _) Hb].
  assert (Hh : history w1 = history w) by (by rewrite Ew).
  assert (Hi2 : Inv (push_history (HCommand q c waits) w1)).
  { apply (Inv_command w1 q x); [done|done|by rewrite Hh|by exists k, s|].
    intros c' [Hc'|Hc']; apply Hr; [by apply Hw|]. apply Hu. by rewrite <- Hh. }
  apply wp_bind, wp_modify, wp_ret. split; [done|]. split; [apply frame_command|].
  cbn. by rewrite Ew.
Qed.

Lemma spec_submit_all q wks s t waits w : Inv w → usable q w s t →
  (∀ c, c ∈ waits → after (drv w) s c) →
  spec q (submit_all q wks s waits) w (λ cs w', events w' = events w ∧
    ∀ c, c ∈ cs → after (drv w') s c).
Proof.
  revert w. induction wks as [|wk wks IH]; intros w Hi Hu Hw; cbn [submit_all].
  { apply spec_ret; [done|]. split; [done|]. by intros c []%elem_of_nil. }
  eapply spec_bind; [by apply (spec_submit q wk s t)|]. intros c w1 Hi1 Hf1 [He1 Ha1].
  eapply spec_bind; [apply IH; [done|by eapply usable_frame|]|].
  { intros c' Hc'. apply Hf1. by apply Hw. }
  intros cs w2 Hi2 Hf2 [He2 Ha2]. apply spec_ret; [done|]. split; [congruence|].
  intros c' [->|Hc']%elem_of_cons; [by apply Hf2|by apply Ha2].
Qed.

(** ** A command with its event *)

Lemma Inv_drop h w : Inv w → Inv (drop_event h w).
Proof.
  intros Hi. unfold drop_event. destruct (events w !! h) as [e|] eqn:He; [|done].
  pose proof (i_event _ Hi h e He) as Hev. pose proof (Inv_delete_event w h Hi) as Hi'.
  destruct (e_Queue e) as [q|]; [|done]. destruct Hev as (x & Hx & _).
  rewrite (set_queues_alter _ q x) by done. apply (Inv_core _ q x); [done|done|].
  apply core_refs, (qo_count _ _ _ _ (i_queue _ Hi' q x Hx)).
Qed.

Lemma wp_guard {A} h (m : M D A) Q w : wp m Q Inv w → wp (guard_event h m) Q Inv w.
Proof.
  unfold wp, guard_event. destruct (m w) as [[] w']; try done. intros [Hr Hi].
  split; [done|by apply Inv_drop].
Qed.

(** The parts of a call that put their work on stream [s]. *)
Definition works q s t (body : M D (list nat)) w : Prop :=
  ∀ w', Inv w' → le w w' → usable q w' s t →
    spec q body w' (λ cs w'', events w'' = events w' ∧ ∀ c, c ∈ cs → after (drv w'') s c).

Lemma made_events w w' h q s t : events w' = events w → made w h q s t → made w' h q s t.
Proof. intros E. unfold made. by rewrite E. Qed.

Lemma wp_with_event b ty q s t body last w : Inv w → usable q w s t → works q s t body w →
  (∀ w', Inv w' → spec q last w' (λ _ _, True)) →
  wp (with_event b ty q s (Some t) body last) (λ _ w', Inv w') Inv w.
Proof.
  intros Hi Hu Hbody Hlast. unfold with_event. destruct b.
  2: { apply wp_bind. eapply wp_mono; [by apply Hbody; [|apply le_refl|]| |done].
       intros cs w1 (Hi1 & _). apply wp_bind. eapply wp_mono; [by apply Hlast| |done].
       intros ? w2 [Hi2 _]. by apply wp_ret. }
  apply wp_bind. eapply wp_mono; [by apply spec_makeNative; [|apply Hu]| |done].
  intros h w1 (Hi1 & Hf1 & Hm1 & _). apply wp_guard.
  assert (Hu1 : usable q w1 s t) by (by eapply usable_frame).
  apply wp_bind. eapply wp_mono; [by eapply spec_start| |done].
  intros r w2 (Hi2 & Hf2 & Hm2 & _). assert (Hu2 : usable q w2 s t) by (by eapply usable_frame).
  apply wp_bind. eapply wp_mono; [by apply (spec_check_ur q)| |done].
  intros ? ? (_ & _ & _ & ->).
  apply wp_bind. eapply wp_mono; [apply Hbody; [done| |done]| |done].
  { eapply le_trans; [apply Hf1|apply Hf2]. }
  intros cs w3 (Hi3 & Hf3 & He3 & Ha3). apply wp_bind.
  eapply wp_mono; [eapply spec_record; [done|by eapply made_events|eapply placed_frame; [exact Hf3|apply Hu2]|done]| |done].
  intros r' w4 (Hi4 & _). apply wp_bind. eapply wp_mono; [by apply (spec_check_ur q)| |done].
  intros ? ? (_ & _ & _ & ->). apply wp_bind. eapply wp_mono; [by apply Hlast| |done].
  intros ? w5 [Hi5 _]. by apply wp_ret.
Qed.
End command.
