(* ===== verification/CudaCalls.v ===== *)
(** * CudaCalls: the calls of the CUDA adapter keep the invariant

    Commands, barriers, waits and finishes, each from the selection of a stream to
    its result. *)
From S2P Require Import Prelude CudaFill CudaLaunch CudaQueue CudaOrder CudaWait CudaCommand.

Section calls.
Context {D : Type} `{!CudaDriver D, !CudaDriverLaws D}.
Context (std_sort : list (nat * ur_event_handle_t_) → list (nat * ur_event_handle_t_)).
Context `{!SortsEvents std_sort}.
Implicit Types w : world D.

(** A call keeps the invariant, whatever it answers. *)
Definition safe {A} (m : M D A) w : Prop := wp m (λ _ w', Inv w') (λ _, False) w.

Lemma safe_catch {A} (a : A) (m : M D (ur_result_t * A)) w :
  wp m (λ _ w', Inv w') Inv w → safe (catch_with a m) w.
Proof. unfold safe, wp, catch_with. destruct (m w) as [[] w']; naive_solver. Qed.

(** What a call of queue [q] with wait list [evs] may be given. *)
Record ready w q (evs : option (list nat)) : Prop := mkReady {
  r_inv : Inv w;
  r_queue : is_Some (queues w !! q);
  r_room : room w q;
  r_list : waitable_list w evs
}.

Lemma ready_hstep w w' q evs : hstep w w' → ready w q evs → ready w' q evs.
Proof.
  intros H []. destruct (hstep_same _ _ H) as (Eq & Ee & _). split; [apply H|by rewrite Eq| |].
  - unfold room. by rewrite Eq.
  - unfold waitable_list, waitable in *. by rewrite Ee.
Qed.

Lemma ready_list w q evs h : ready w q evs → h ∈ list_of evs → is_Some (events w !! h).
Proof.
  intros [_ _ _ Hl] Hh. destruct evs as [l|]; [|by apply elem_of_nil in Hh].
  by apply (waitable_some w l).
Qed.

Lemma wp_context_ready dev w q evs : ready w q evs →
  wp (ScopedContext dev) (λ _ w', ready w' q evs ∧ hstep w w') Inv w.
Proof.
  intros Hr. eapply wp_mono; [apply wp_context| |].
  - intros ? w' Hd. pose proof (drv_hstep w w' (r_inv _ _ _ Hr) Hd). split; [by eapply ready_hstep|done].
  - intros w' Hd. by eapply drv_step_Inv; [apply Hr|].
Qed.

(** Waiting for the list on the selected stream, and what the list stands for. *)
Lemma wp_wait_on q s evs w x : Inv w → queues w !! q = Some x → waitable_list w evs →
  wp (enqueueEventsWait std_sort q s evs) (λ r w', hstep w w' ∧
    (r = UR_RESULT_SUCCESS → ∀ c, c ∈ covered_by evs w' → after (drv w') s c)) Inv w.
Proof.
  intros Hi Hx Hl. eapply wp_mono; [by eapply wp_enqueueEventsWait| |done].
  intros r w' [Hd Hr]. pose proof (drv_hstep w w' Hi Hd) as Hh. split; [done|].
  intros Hok c. destruct (hstep_same _ _ Hh) as (_ & Ee & _).
  replace (covered_by evs w') with (covered_by evs w); [by apply Hr|]. unfold covered_by. by rewrite Ee.
Qed.

Lemma only_waitable q w w' evs : only_queue q w w' → waitable_list w evs → waitable_list w' evs.
Proof. intros [_ E _]. unfold waitable_list, waitable. by rewrite E. Qed.

Lemma usable_hstep q w w' s t : hstep w w' → usable q w s t → usable q w' s t.
Proof. intros Hh. by apply usable_frame, hstep_frame. Qed.

(** From the selected stream on: the wait, the event and the work. *)
Lemma wp_on_stream q evs b ty s t body last (A : Type) (f : ur_result_t → option nat → A)
    (g : ur_result_t → world D → list nat) strict w :
  Inv w → usable q w s t → waitable_list w evs →
  (∀ w', Inv w' → spec q last w' (λ _ _, True)) →
  (∀ r w', (strict = true → r = UR_RESULT_SUCCESS) →
     (r = UR_RESULT_SUCCESS → ∀ c, c ∈ covered_by evs w' → after (drv w') s c) →
     usable q w' s t → Inv w' →
     works q s t (body (g r w')) w') →
  wp (r ← enqueueEventsWait std_sort q s evs;
      (if strict then check_ur r else mret tt);;
      waits ← gets (g r);
      o ← with_event b ty q s (Some t) (body waits) last;
      mret (f r o)) (λ _ w', Inv w') Inv w.
Proof.
  intros Hi Hu Hl Hlast Hbody. pose proof Hu as ((x & Hx & _) & _).
  apply wp_bind. eapply wp_mono; [by eapply wp_wait_on| |done].
  intros r w1 [Hh Hr]. pose proof (usable_hstep _ _ _ _ _ Hh Hu) as Hu1. pose proof Hh as (Hi1 & _).
  assert (Hcont : (strict = true → r = UR_RESULT_SUCCESS) →
    wp (waits ← gets (g r);
        o ← with_event b ty q s (Some t) (body waits) last; mret (f r o)) (λ _ w', Inv w') Inv w1).
  { intros Hs. apply wp_bind, wp_gets, wp_bind. eapply wp_mono; [by apply wp_with_event; [..|apply Hbody|]| |done].
    intros o w2 Hi2. by apply wp_ret. }
  apply wp_bind. destruct strict; [|by apply wp_ret, Hcont].
  destruct (decide (r = UR_RESULT_SUCCESS)) as [->|Hne]; [by apply wp_ret, Hcont|].
  by destruct r.
Qed.

Lemma works_submit q s t wks waits w : (∀ c, c ∈ waits → after (drv w) s c) →
  works q s t (submit_all q wks s waits) w.
Proof.
  intros Hw w' Hi Hle Hu. apply (spec_submit_all q wks s t); [done|done|].
  intros c Hc. by apply Hle, Hw.
Qed.

Lemma spec_no_last q w : Inv w → spec q (mret tt : M D unit) w (λ _ _, True).
Proof. intros Hi. by apply spec_ret. Qed.

Lemma spec_sync_last q (b : bool) s w : Inv w →
  spec q (if b then call (cuStreamSynchronize s) else mret tt) w (λ _ _, True).
Proof.
  intros Hi. destruct b; [|by apply spec_ret].
  eapply spec_mono; [apply spec_call; [done|by apply quiet_harmless]|done].
Qed.
(** ** Commands *)

Lemma wp_get_ready q evs w (A : Type) (k : ur_queue_handle_t_ → M D A) Q E : ready w q evs →
  (∀ x, queues w !! q = Some x → wp (k x) Q E w) → wp (x ← get_queue q; k x) Q E w.
Proof. intros [_ [x Hx] _ _] Hk. apply wp_bind, (wp_get_queue _ x); [done|by apply Hk]. Qed.

(** A command on a compute stream. *)
Lemma safe_compute q evs b ty wks w : ready w q evs →
  safe (catch_with None (
    x ← get_queue q;
    ScopedContext (q_Device x);;
    st ← getNextComputeStreamFor q (list_of evs);
    let '(CuStream, Token) := st in
    r ← enqueueEventsWait std_sort q CuStream evs; check_ur r;;
    waits ← gets (covered_by evs);
    o ← with_event b ty q CuStream Token (submit_all q wks CuStream waits) (mret tt);
    mret (UR_RESULT_SUCCESS, o))) w.
Proof.
  intros Hr. apply safe_catch, (wp_get_ready q evs); [done|]. intros x _.
  apply wp_bind. eapply wp_mono; [by eapply wp_context_ready| |done]. intros ? w1 [Hr1 _].
  pose proof Hr1 as [Hi1 [x1 Hx1] Hroom Hl].
  apply wp_bind. eapply wp_mono; [apply (selects_for q _ w1 x1); [done..|]| |done].
  { intros h Hh. by eapply ready_list. }
  intros [s o] w2 (Hi2 & Ho & t & Ht & Hu). cbn in Ht, Hu. rewrite Ht.
  apply (wp_on_stream q evs b ty s t (λ waits, submit_all q wks s waits) (mret tt) _
    (λ _ o, (UR_RESULT_SUCCESS, o)) (λ _, covered_by evs) true); [done|done|by eapply only_waitable| |].
  - intros w' Hi'. by apply spec_no_last.
  - intros r w' Hok Hc _ _. by apply works_submit, Hc, Hok.
Qed.

Lemma safe_kernel_launch q same dim G params L evs b w : ready w q evs →
  (∀ e, params ≠ Throw e) → params ≠ Undef →
  (enqueue_checks dim same G = inr true → safe (urEnqueueEventsWaitWithBarrier std_sort q evs b) w) →
  safe (enqueueKernelLaunch std_sort q same dim G params L evs b) w.
Proof.
  intros Hr Hp1 Hp2 Hb. unfold enqueueKernelLaunch.
  destruct (enqueue_checks dim same G) as [e|[|]]; [by apply wp_ret, Hr|by apply Hb|].
  destruct params as [[e|p]| |]; [by apply wp_ret, Hr|by apply safe_compute|by destruct (Hp1 e)|done].
Qed.

Lemma safe_usm_fill q ptr n pattern size evs b w : ready w q evs →
  safe (urEnqueueUSMFill std_sort q ptr n pattern size evs b) w.
Proof. intros Hr. by apply safe_compute. Qed.

Lemma safe_usm_memcpy q blocking dst src size evs b w : ready w q evs →
  safe (urEnqueueUSMMemcpy std_sort q blocking dst src size evs b) w.
Proof.
  intros Hr. apply safe_catch, (wp_get_ready q evs); [done|]. intros x _.
  apply wp_bind. eapply wp_mono; [by eapply wp_context_ready| |done]. intros ? w1 [Hr1 _].
  pose proof Hr1 as [Hi1 [x1 Hx1] Hroom Hl].
  apply wp_bind. eapply wp_mono; [by apply (selects_transfer q w1 x1)| |done].
  intros s w2 (Hi2 & Ho & Hu).
  apply (wp_on_stream q evs b _ s UINT32_MAX (λ waits, submit_all q [Memcpy dst src size] s waits)
    (if blocking then call (cuStreamSynchronize s) else mret tt) _ (λ r o, (r, o))
    (λ r w, match r with UR_RESULT_SUCCESS => covered_by evs w | _ => [] end) false);
    [done|done|by eapply only_waitable| |].
  - intros w' Hi'. by apply spec_sync_last.
  - intros r w' _ Hc _ _. apply works_submit. intros c Hin.
    destruct r; try (by apply elem_of_nil in Hin). by apply Hc.
Qed.

Lemma safe_timestamp q blocking evs w : ready w q evs →
  safe (urEnqueueTimestampRecordingExp std_sort q blocking evs) w.
Proof.
  intros Hr. apply safe_catch, (wp_get_ready q evs); [done|]. intros x _.
  apply wp_bind. eapply wp_mono; [by eapply wp_context_ready| |done]. intros ? w1 [Hr1 _].
  pose proof Hr1 as [Hi1 [x1 Hx1] Hroom Hl].
  apply wp_bind. eapply wp_mono; [by apply (selects_next q w1 x1)| |done].
  intros [s o] w2 (Hi2 & Ho & t & _ & Hu). cbn [fst snd] in *.
  assert (Hu' : usable q w2 s UINT32_MAX).
  { destruct Hu as [(y & Hy & Hex & Huse & _) Hb]. split; [|done]. exists y. split_and!; [done..|by left]. }
  apply (wp_on_stream q evs true _ s UINT32_MAX mret
    (if blocking then call (cuStreamSynchronize s) else mret tt) _ (λ _ o, (UR_RESULT_SUCCESS, o))
    (λ _, covered_by evs) true); [done|done|by eapply only_waitable| |].
  - intros w' Hi'. by apply spec_sync_last.
  - intros r w' Hok Hc _ _ w'' Hi'' Hle _. apply spec_ret; [done|]. split; [done|].
    intros c Hin. by apply Hle, Hc; [apply Hok|].
Qed.
End calls.
