(* ===== verification/CudaSync.v ===== *)
(** * CudaSync: barriers, finishes and waits of the CUDA adapter

    [syncStreams] reaches every stream that was used since the last reset, so that
    a barrier orders all earlier commands and a finish waits for all of them. *)
From S2P Require Import Prelude CudaFill CudaLaunch CudaQueue CudaOrder CudaWait CudaCommand CudaCalls.

(** ** The streams that a synchronisation visits *)

Lemma mod_between n a t b : 0 < n → 0 ≤ a → a ≤ t < b → b - a < n →
  (a mod n ≤ b mod n → a mod n ≤ t mod n < b mod n) ∧
  (b mod n < a mod n → a mod n ≤ t mod n ∨ t mod n < b mod n).
Proof.
  intros Hn Ha Ht Hb.
  pose proof (Z.div_mod a n ltac:(lia)). pose proof (Z.mod_pos_bound a n Hn).
  pose proof (Z.div_mod b n ltac:(lia)). pose proof (Z.mod_pos_bound b n Hn).
  pose proof (Z.div_mod t n ltac:(lia)). pose proof (Z.mod_pos_bound t n Hn).
  assert (a / n ≤ t / n ≤ b / n) by (split; apply Z.div_le_mono; lia).
  assert (b / n ≤ a / n + 1).
  { replace (a / n + 1) with ((a + 1 * n) / n) by (rewrite Z.div_add; lia). apply Z.div_le_mono; lia. }
  assert (Et : t / n = a / n ∨ t / n = a / n + 1) by lia.
  assert (Eb : b / n = a / n ∨ b / n = a / n + 1) by lia.
  set (qa := a / n) in *. set (qt := t / n) in *. set (qb := b / n) in *. clearbody qa qt qb.
  set (ra := a mod n) in *. set (rt := t mod n) in *. set (rb := b mod n) in *. clearbody ra rt rb.
  destruct Et as [->| ->], Eb as [->| ->]; lia.
Qed.

Lemma elem_range a b i : 0 ≤ a → i ∈ seq (Z.to_nat a) (Z.to_nat (b - a)) ↔ a ≤ Z.of_nat i < b.
Proof. intros Ha. rewrite elem_of_seq. lia. Qed.

Section used.
Context (p : stream_pool) (Hp : pool_ok p).

Lemma end_is_index :
  (if NumStreams p <? Z.of_nat (length (Streams p)) then NumStreams p else StreamIndex p) = StreamIndex p.
Proof.
  destruct Hp as [A B C E F G J]. unfold size in *.
  destruct (Z.ltb_spec (NumStreams p) (Z.of_nat (length (Streams p)))); lia.
Qed.

Lemma used_in_range i : i ∈ usedStreams p → (i < length (Streams p))%nat.
Proof.
  destruct Hp as [A B C E F G J]. unfold size in *. unfold usedStreams. rewrite end_is_index. cbv zeta.
  set (n := Z.of_nat (length (Streams p))) in *. unfold w32.
  destruct (Z.leb_spec n ((StreamIndex p - LastSyncStreams p) mod 2 ^ 32)) as [Hle|Hlt].
  { rewrite elem_range by lia. lia. }
  assert (Hn : 0 < n) by (pose proof (Z.mod_pos_bound (StreamIndex p - LastSyncStreams p) (2 ^ 32) ltac:(lia)); lia).
  pose proof (Z.mod_pos_bound (StreamIndex p) n Hn). pose proof (Z.mod_pos_bound (LastSyncStreams p) n Hn).
  destruct (_ <=? _); rewrite ?elem_of_app, !elem_range by lia; lia.
Qed.

Lemma used_complete s : in_use p s → ∃ i, i ∈ usedStreams p ∧ Streams p !! i = Some s.
Proof.
  intros (t & Ht & Hs). unfold at_token in Hs. exists (Z.to_nat (t mod size p)). split; [|done].
  destruct Hp as [A B C E F G J]. pose proof (lookup_lt_Some _ _ _ Hs) as Hlen. unfold size in *.
  unfold usedStreams. rewrite end_is_index. cbv zeta.
  set (n := Z.of_nat (length (Streams p))) in *. assert (Hn : 0 < n) by lia. unfold w32.
  rewrite (Z.mod_small (StreamIndex p - LastSyncStreams p)) by lia.
  pose proof (Z.mod_pos_bound t n Hn).
  destruct (Z.leb_spec n (StreamIndex p - LastSyncStreams p)) as [Hle|Hlt].
  { rewrite elem_range by lia. lia. }
  pose proof (Z.mod_pos_bound (LastSyncStreams p) n Hn).
  pose proof (Z.mod_pos_bound (StreamIndex p) n Hn).
  destruct (mod_between n (LastSyncStreams p) t (StreamIndex p)) as [M1 M2]; [lia..|].
  destruct (Z.leb_spec (LastSyncStreams p mod n) (StreamIndex p mod n));
    rewrite ?elem_of_app, !elem_range by lia; lia.
Qed.
End used.

Section sync.
Context {D : Type} `{!CudaDriver D, !CudaDriverLaws D}.
Implicit Types w : world D.

(** ** Visiting streams *)

Lemma wp_call_any c w :
  wp (call c) (λ _ w', w' = set_drv (drv w') w ∧ ∃ h, cu c (drv w) = (CUDA_SUCCESS, h, drv w'))
    (λ w', w' = set_drv (drv w') w ∧ ∃ r h, cu c (drv w) = (r, h, drv w')) w.
Proof.
  unfold call, UR_CHECK_ERROR. apply wp_bind, wp_bind. unfold wp at 1, raw.
  destruct (cu c (drv w)) as [[r h] d'] eqn:Ec. pose proof (cu_up _ _ _ _ _ Ec). cbn.
  destruct r; try done; first [by split; [|exists h] | split; [done|]; split; [done|]; by eexists _, h].
Qed.

Lemma hstep_call w0 d c r h d' : hstep w0 (set_drv d w0) → harmless (set_drv d w0) c →
  cu c d = (r, h, d') → hstep w0 (set_drv d' w0).
Proof.
  intros Hs Hc Ec. eapply hstep_trans; [exact Hs|]. pose proof Hs as (Hi & _). unfold hstep.
  split_and!; [by eapply (harmless_Inv (set_drv d w0))|done|].
  by eapply (dle_le (set_drv d w0)), harmless_dle.
Qed.

(** [F] moves only the driver, and what it gives for a stream stays. *)
Definition visits (F : CUstream → M D unit) (G : CUstream → D → Prop) w0 : Prop :=
  ∀ s w, hstep w0 (set_drv (drv w) w0) →
    wp (F s) (λ _ w', w' = set_drv (drv w') w ∧ hstep w0 (set_drv (drv w') w0) ∧ G s (drv w') ∧
                      ∀ s', G s' (drv w) → G s' (drv w'))
      (λ w', w' = set_drv (drv w') w ∧ hstep w0 (set_drv (drv w') w0)) w.

(** State [w0] with another driver state, [x] for queue [q], and other delay flags. *)
Definition synced q w0 (x : ur_queue_handle_t_) w : Prop :=
  ∃ d l, w = set_queues <[q := set_delay (λ _, l) x]> (set_drv d w0) ∧
    length l = length (DelayCompute x) ∧ hstep w0 (set_drv d w0).

Lemma wp_syncList k q F G l w0 x w : visits F G w0 → synced q w0 x w →
  (∀ i, i ∈ l → (i < length (Streams (pool k x)))%nat) →
  wp (syncList k q F l) (λ _ w', synced q w0 x w' ∧
    (∀ i s, i ∈ l → Streams (pool k x) !! i = Some s → G s (drv w')) ∧
    ∀ s, G s (drv w) → G s (drv w')) (synced q w0 x) w.
Proof.
  intros HF. revert w. induction l as [|i l IH]; intros w Hw Hl; cbn [syncList].
  { apply wp_ret. split_and!; [done| |done]. by intros i s []%elem_of_nil. }
  destruct Hw as (d & dl & -> & Hdl & Hh). set (y := set_delay (λ _, dl) x).
  set (w := set_queues _ _). assert (Hy : queues w !! q = Some y) by apply lookup_insert_eq.
  assert (Ey : Streams (pool k y) = Streams (pool k x)) by (by destruct k).
  destruct (lookup_lt_is_Some_2 (Streams (pool k x)) i) as [s Hs].
  { apply Hl, elem_of_cons. by left. }
  apply wp_bind, (wp_get_queue _ y); [done|]. apply wp_bind, (wp_some s); [by rewrite Ey|].
  apply wp_bind. eapply wp_mono; [by apply HF| |].
  2: { intros w' [Ew Hh']. exists (drv w'), dl. split_and!; [by rewrite Ew at 1|done..]. }
  intros ? w1 (Ew1 & Hh1 & Hg1 & Hm1). apply wp_bind.
  assert (Hcont : ∀ w2, synced q w0 x w2 → drv w2 = drv w1 →
    wp (syncList k q F l) (λ _ w', synced q w0 x w' ∧
      (∀ j s', j ∈ i :: l → Streams (pool k x) !! j = Some s' → G s' (drv w')) ∧
      ∀ s', G s' (drv w) → G s' (drv w')) (synced q w0 x) w2).
  { intros w2 H2 Ed. eapply wp_mono; [apply IH; [done|]| |done].
    { intros j Hj. apply Hl, elem_of_cons. by right. }
    intros ? w' (Hs' & Hall & Hm). rewrite Ed in Hm. split_and!; [done| |by intros s' Hs2; apply Hm, Hm1].
    intros j s' [->|Hj]%elem_of_cons Hj'; [|by eapply Hall].
    assert (s' = s) as -> by congruence. by apply Hm. }
  assert (Hx1 : queues w1 !! q = Some y) by (by rewrite Ew1).
  destruct k.
  - apply (wp_upd_queue _ _ y); [done|]. apply Hcont; [|done].
    exists (drv w1), (<[i := false]> dl). split_and!; [|by rewrite length_insert|done].
    rewrite Ew1 at 1. exact (set_queues_twice q y _ (set_drv (drv w1) w0)).
  - apply wp_ret, Hcont; [|done]. exists (drv w1), dl. split_and!; [by rewrite Ew1 at 1|done..].
Qed.

Definition reset_pool (k : which) (x : ur_queue_handle_t_) : ur_queue_handle_t_ :=
  if bool_decide (k = transfer) && (size (pool k x) =? 0) then x
  else on_pool k (set_sync (StreamIndex (pool k x))) x.

Lemma wp_syncPool b k q F G w0 x w : visits F G w0 → synced q w0 x w → pool_ok (pool k x) →
  wp (syncPool b k q F) (λ _ w', synced q w0 (if b then reset_pool k x else x) w' ∧
    (∀ s, in_use (pool k x) s → G s (drv w')) ∧ ∀ s, G s (drv w) → G s (drv w'))
    (λ w', b = false → synced q w0 x w') w.
Proof.
  intros HF Hw Hp. pose proof Hw as (d & dl & Ew & Hdl & Hh). set (y := set_delay (λ _, dl) x) in *.
  assert (Hy : queues w !! q = Some y) by (rewrite Ew; apply lookup_insert_eq).
  assert (Ep : pool k y = pool k x) by (by destruct k).
  unfold syncPool. apply wp_bind, (wp_get_queue _ y); [done|]. rewrite Ep. fold (size (pool k x)).
  unfold reset_pool. destruct (bool_decide (k = transfer) && (size (pool k x) =? 0)) eqn:Ez.
  { apply wp_ret. split_and!; [by destruct b| |done]. intros s (t & _ & Hs).
    apply andb_true_iff in Ez as [_ Ez]. apply Z.eqb_eq in Ez. apply lookup_lt_Some in Hs. unfold size in Ez. lia. }
  rewrite (end_is_index _ Hp : (if NumStreams (pool k x) <? size (pool k x) then _ else _) = _).
  set (x' := if b then on_pool k (set_sync (StreamIndex (pool k x))) x else x).
  assert (Hst : Streams (pool k x') = Streams (pool k x)) by (by destruct b, k).
  apply wp_bind. assert (Hcont : ∀ w1, synced q w0 x' w1 → drv w1 = drv w →
    wp (syncList k q F (usedStreams (pool k x))) (λ _ w', synced q w0 x' w' ∧
      (∀ s, in_use (pool k x) s → G s (drv w')) ∧ ∀ s, G s (drv w) → G s (drv w'))
      (λ w', b = false → synced q w0 x w') w1).
  { intros w1 H1 Ed. eapply wp_mono; [apply (wp_syncList k q F G _ w0 x'); [done|done|]| |].
    - intros i Hi. rewrite Hst. by apply used_in_range.
    - intros ? w' (Hs & Hall & Hm). rewrite Ed in Hm. split_and!; [done| |done].
      intros s (i & Hi & His)%used_complete; [|done]. apply (Hall i s Hi). by rewrite Hst.
    - intros w' Hs Eb. unfold x' in Hs. by rewrite Eb in Hs. }
  destruct b; [|by apply wp_ret, Hcont].
  apply (wp_upd_queue _ _ y); [done|]. apply Hcont; [|done].
  exists d, dl. split_and!; [|by destruct k|done]. rewrite Ew. rewrite set_queues_twice. by destruct k.
Qed.

Definition reset (b : bool) (x : ur_queue_handle_t_) : ur_queue_handle_t_ :=
  if b then reset_pool transfer (reset_pool compute x) else x.

(** Every stream in use is visited. *)
Lemma wp_syncStreams b q F G w0 x : Inv w0 → queues w0 !! q = Some x → visits F G w0 →
  wp (syncStreams b q F) (λ _ w', synced q w0 (reset b x) w' ∧
    ∀ k s, in_use (pool k x) s → G s (drv w')) (λ w', b = false → synced q w0 x w') w0.
Proof.
  intros Hi Hx HF. pose proof (i_queue _ Hi q x Hx) as Hq.
  assert (H0 : synced q w0 x w0).
  { exists (drv w0), (DelayCompute x). split_and!; [|done|].
    - replace (set_delay (λ _, DelayCompute x) x) with x by (by destruct x). by apply world_same.
    - replace (set_drv (drv w0) w0) with w0 by (by destruct w0). by apply hstep_refl. }
  unfold syncStreams. apply wp_bind.
  eapply wp_mono; [apply (wp_syncPool b compute q F G w0 x); [done|done|apply Hq]| |done].
  intros ? w1 (H1 & Hg1 & _). set (x1 := if b then reset_pool compute x else x) in *.
  assert (Et : pool transfer x1 = pool transfer x) by (by destruct b).
  eapply wp_mono; [apply (wp_syncPool b transfer q F G w0 x1); [done|done|rewrite Et; apply Hq]| |].
  - intros ? w2 (H2 & Hg2 & Hm). split; [by destruct b|]. rewrite Et in Hg2.
    intros [] s Hs; [by apply Hm, Hg1|by apply Hg2].
  - intros w2 H2 Eb. subst b. by apply H2.
Qed.
(** ** Finishing a queue *)

Lemma reset_pool_core k k' x : Streams (pool k' (reset_pool k x)) = Streams (pool k' x) ∧
  StreamIndex (pool k' (reset_pool k x)) = StreamIndex (pool k' x) ∧
  NumStreams (pool k' (reset_pool k x)) = NumStreams (pool k' x) ∧
  AppliedBarrier (pool k' (reset_pool k x)) = AppliedBarrier (pool k' x).
Proof. unfold reset_pool. by destruct (_ && _), k, k'. Qed.

Lemma reset_pool_sync k k' x :
  LastSyncStreams (pool k' (reset_pool k x)) = LastSyncStreams (pool k' x) ∨
  LastSyncStreams (pool k' (reset_pool k x)) = StreamIndex (pool k' x).
Proof. unfold reset_pool. destruct (_ && _), k, k'; by auto. Qed.

Lemma reset_spec b l x : let x' := set_delay (λ _, l) (reset b x) in
  (∀ k, Streams (pool k x') = Streams (pool k x) ∧ StreamIndex (pool k x') = StreamIndex (pool k x) ∧
    NumStreams (pool k x') = NumStreams (pool k x) ∧ AppliedBarrier (pool k x') = AppliedBarrier (pool k x) ∧
    (LastSyncStreams (pool k x') = LastSyncStreams (pool k x) ∨
     LastSyncStreams (pool k x') = StreamIndex (pool k x))) ∧
  BarrierEvent x' = BarrierEvent x ∧ BarrierTmpEvent x' = BarrierTmpEvent x ∧
  EventCount x' = EventCount x ∧ q_Device x' = q_Device x ∧ DelayCompute (reset b x) = DelayCompute x.
Proof.
  cbv zeta. split.
  - intros k. replace (pool k (set_delay (λ _, l) (reset b x))) with (pool k (reset b x)) by (by destruct k).
    destruct b; cbn [reset]; [|by auto 6].
    destruct (reset_pool_core transfer k (reset_pool compute x)) as (-> & -> & -> & ->).
    destruct (reset_pool_core compute k x) as (-> & E2 & -> & ->). rewrite E2. split_and!; [done..|].
    destruct (reset_pool_sync transfer k (reset_pool compute x)) as [-> | ->]; [apply reset_pool_sync|].
    right. by rewrite E2.
  - destruct b; [|done]. unfold reset, reset_pool. by repeat case_match.
Qed.

Lemma Inv_reset w q x l : Inv w → queues w !! q = Some x →
  (∀ c, submitted (history w) q c → finished (drv w) c) → syncs w q x (reset true x) →
  length l = length (DelayCompute x) →
  Inv (set_queues <[q := set_delay (λ _, l) (reset true x)]> w).
Proof.
  intros Hi Hx Hfin Hsy Hl. destruct (reset_spec true l x) as (HP & R1 & R2 & R3 & R4 & _).
  set (x' := set_delay (λ _, l) (reset true x)) in *. pose proof (i_queue _ Hi q x Hx) as [P1 P2 P3 P4 P5 P6 P7].
  apply (Inv_queue w q x); [done|done| | | |by left|].
  - split; rewrite ?R3, ?R4; try done.
    + intros k. destruct (HP k) as (E1 & E2 & E3 & E4 & E5). destruct (P1 k).
      split; unfold size in *; rewrite ?E1, ?E2, ?E3, ?E4; try done. destruct E5 as [-> | ->]; lia.
    + destruct (HP compute) as (E1 & _). change (0 < size (pool compute x')). unfold size. by rewrite E1.
    + destruct (HP compute) as (E1 & _). change (length l = length (Streams (pool compute x'))).
      by rewrite E1, Hl.
    + intros c Hc. left. by apply Hfin.
    + intros c Hc. eapply barrier_ok_flags; [by apply P7|done|].
      intros k i s Hi' Hs. destruct (HP k) as (E1 & _ & _ & E4 & _). left. by rewrite E4 in Hi'; rewrite E1 in Hs.
  - split; rewrite ?R3; [done|..].
    + intros k i s Hs Hn. destruct (HP k) as (-> & _ & -> & _). done.
    + intros k. unfold size. by destruct (HP k) as (-> & _).
    + intros k. by destruct (HP k) as (_ & -> & _).
  - exact Hsy.
  - intros s (k & i & Hs & Hn). left. exists k, i. destruct (HP k) as (E1 & _ & E3 & _).
    by rewrite E1 in Hs; rewrite E3 in Hn.
Qed.

Lemma visits_synchronize w0 : Inv w0 →
  visits (λ s, call (cuStreamSynchronize s)) (λ s d, ∀ c, after (drv w0) s c → finished d c) w0.
Proof.
  intros Hi s w Hs.
  assert (Hstep : ∀ w' r h, w' = set_drv (drv w') w → cu (cuStreamSynchronize s) (drv w) = (r, h, drv w') →
    hstep w0 (set_drv (drv w') w0)).
  { intros w' r h _ Ec. by apply (hstep_call w0 (drv w) (cuStreamSynchronize s) r h); [|apply quiet_harmless|]. }
  eapply wp_mono; [apply wp_call_any| |].
  - intros ? w' [Ew [h Ec]]. split_and!; [done|by eapply Hstep| |].
    + intros c Hc. eapply cu_synchronize; [exact Ec|]. by apply Hs.
    + intros s' Hs' c Hc. destruct (cu_keeps _ _ _ _ _ Ec). by apply k_finished, Hs'.
  - intros w' [Ew (r & h & Ec)]. split; [done|by eapply Hstep].
Qed.

Lemma wp_finish q w x : Inv w → queues w !! q = Some x →
  wp (urQueueFinish q) (λ r w', r = UR_RESULT_SUCCESS →
    Inv w' ∧ history w' = history w ∧ ∀ c, submitted (history w) q c → finished (drv w') c) (λ _, False) w.
Proof.
  intros Hi Hx. unfold urQueueFinish. apply wp_catch, wp_bind, (wp_get_queue _ x); [done|].
  apply wp_bind. eapply wp_mono; [apply wp_context| |by intros].
  intros ? w0 Hd. cbn in Hd. destruct (drv_hstep _ _ Hi Hd) as (Hi0 & Ew & _).
  assert (Hx0 : queues w0 !! q = Some x) by (by rewrite Ew).
  apply wp_bind. eapply wp_mono; [by apply (wp_syncStreams true q _ (λ s d, ∀ c, after (drv w0) s c → finished d c) w0 x Hi0 Hx0),
    visits_synchronize| |by intros].
  intros ? w' ((d & l & -> & Hl & Hh) & Hall). apply wp_ret. intros _. cbn [drv set_drv set_queues] in *.
  assert (Hfin : ∀ c, submitted (history w) q c → finished d c).
  { intros c Hc. destruct (qo_cover _ _ _ _ (i_queue _ Hi0 q x Hx0) c) as [Hf|(k & s & Hu & Ha)].
    - by rewrite Ew.
    - by apply Hh.
    - by apply (Hall k s). }
  split; [|split; [by rewrite Ew|done]].
  apply Inv_reset; [apply Hh|done| | |by destruct (reset_spec true [] x) as (_ & _ & _ & _ & _ & E); rewrite Hl, E].
  - intros c Hc. apply Hfin. by rewrite Ew in Hc.
  - intros h e t c He Hq Hc [Ht Hat] Hlo _. apply (Hall compute (e_Stream e)).
    + exists t. cbn. split; [lia|done].
    + pose proof (i_event _ Hi0 h e He) as Hev. rewrite Hq in Hev. destruct Hev as (y & _ & Hok). by apply Hok.
Qed.
(** ** Barriers *)

Definition barrier_visit (Tmp CuStream : Z) (s : CUstream) : M D unit :=
  if CuStream =? s then mret tt
  else call (cuEventRecord Tmp s);; call (cuStreamWaitEvent CuStream Tmp).

Lemma visits_barrier q x CuStream w0 : Inv w0 → queues w0 !! q = Some x → BarrierTmpEvent x ≠ 0 →
  visits (barrier_visit (BarrierTmpEvent x) CuStream)
    (λ s d, ∀ c, after (drv w0) s c → after d CuStream c) w0.
Proof.
  intros Hi Hx Hz s w Hs. unfold barrier_visit.
  assert (Hkeep : ∀ c, is_Some (match c with cuStreamDestroy _ => None | _ => Some tt end) →
    ∀ r h (d d' : D), cu c d = (r, h, d') → ∀ s' c', after d s' c' → after d' s' c').
  { intros c Hc r h d d' Ec s' c'. destruct (cu_keeps _ _ _ _ _ Ec). apply k_after. destruct c; cbn; try tauto.
    by destruct Hc. }
  destruct (Z.eqb_spec CuStream s) as [->|Hne].
  { apply wp_ret. split_and!; [by destruct w|done| |done]. intros c Hc. by apply Hs. }
  assert (Hcl : claim (set_drv (drv w) w0) (BarrierTmpEvent x) (RTmp q)) by (split; [done|by exists x]).
  assert (Hh : harmless (set_drv (drv w) w0) (cuEventRecord (BarrierTmpEvent x) s)).
  { by apply (record_harmless _ _ _ (RTmp q)); [apply Hs| |]. }
  apply wp_bind. eapply wp_mono; [apply wp_call_any| |].
  - intros ? w1 [Ew1 [h Ec1]]. assert (H1 : hstep w0 (set_drv (drv w1) w0)) by 
      by (eapply hstep_call; [exact Hs|exact Hh|exact Ec1]).
    eapply wp_mono; [apply wp_call_any| |].
    + intros ? w2 [Ew2 [h2 Ec2]]. split_and!.
      * rewrite Ew2 at 1. by rewrite Ew1.
      * by apply (hstep_call w0 (drv w1) _ _ _ _ H1 (quiet_harmless _ (cuStreamWaitEvent _ _) I) Ec2).
      * intros c Hc. eapply cu_wait; [exact Ec2|]. eapply cu_record; [exact Ec1|]. by apply Hs.
      * intros s' Hs' c Hc. eapply (Hkeep _ _ _ _ _ _ Ec2), (Hkeep _ _ _ _ _ _ Ec1). by apply Hs'.
    + intros w2 [Ew2 (r & h2 & Ec2)]. split; [rewrite Ew2 at 1; by rewrite Ew1|].
      by apply (hstep_call w0 (drv w1) _ _ _ _ H1 (quiet_harmless _ (cuStreamWaitEvent _ _) I) Ec2).
  - intros w1 [Ew1 (r & h & Ec1)]. split; [done|eapply hstep_call; [exact Hs|exact Hh|exact Ec1]].
Unshelve. all: by eexists.
Qed.

(** A stream that waits for all work of the queue. *)
Lemma wp_wait_for_all q s w x : Inv w → queues w !! q = Some x → BarrierTmpEvent x ≠ 0 →
  wp (syncStreams false q (barrier_visit (BarrierTmpEvent x) s)) (λ _ w', synced q w x w' ∧
    ∀ c, submitted (history w) q c → after (drv w') s c) Inv w.
Proof.
  intros Hi Hx Hz. assert (Hinv : ∀ w', synced q w x w' → Inv w').
  { intros w' (d & l & -> & Hl & Hh). by apply (Inv_delay _ q x (λ _, l)); [apply Hh| |]. }
  eapply wp_mono; [by apply (wp_syncStreams false q _ (λ s' d, ∀ c, after (drv w) s' c → after d s c) w x Hi Hx),
    (visits_barrier q)| |by intros w' Hs; apply Hinv, Hs].
  intros ? w' [Hs Hall]. split; [done|]. intros c Hc.
  destruct (qo_cover _ _ _ _ (i_queue _ Hi q x Hx) c Hc) as [Hf|(k & s' & Hu & Ha)]; [|by eapply Hall].
  apply cu_finished_after. destruct Hs as (d & l & -> & _ & Hh). by apply Hh.
Qed.
Lemma synced_frame q w x w' : queues w !! q = Some x → synced q w x w' →
  frame q w w' ∧ events w' = events w ∧ history w' = history w ∧
  ∃ y, queues w' !! q = Some y ∧ BarrierEvent y = BarrierEvent x.
Proof.
  intros Hx (d & l & -> & _ & _ & _ & Hle). split; [|split_and!; [done..|]].
  - split; [eapply le_trans; [exact Hle|apply le_queues]|]. intros y Hy. assert (y = x) as -> by congruence.
    eexists. split; [apply lookup_insert_eq|]. by intros [].
  - eexists. split; [apply lookup_insert_eq|done].
Qed.

(** The events of the queue are made when they are needed first. *)
Lemma Inv_handles w q x host b t : Inv w → queues w !! q = Some x →
  handles_ok w x (set_handles host b t x) → BarrierEvent x = 0 ∨ b = BarrierEvent x →
  Inv (set_queues <[q := set_handles host b t x]> w).
Proof.
  intros Hi Hx Hh Hb. pose proof (i_queue _ Hi q x Hx) as [P1 P2 P3 P4 P5 P6 P7].
  apply (Inv_same_core w q x); [done|done|by intros []| |done|done].
  split; try done.
  intros c Hc. pose proof (P7 c Hc) as Hok. destruct Hb as [Hb| ->].
  { by destruct Hok. }
  eapply barrier_ok_flags; [exact Hok|done|]. intros [] i s Hi' Hs; by left.
Qed.

Lemma spec_barrier_event q w x : Inv w → queues w !! q = Some x →
  spec q (if BarrierEvent x =? 0 then
            e ← UR_CHECK_ERROR (cuEventCreate CU_EVENT_DISABLE_TIMING);
            upd_queue q (λ x, set_handles (HostSubmitTimeStream x) e (BarrierTmpEvent x) x)
          else mret tt) w (λ _ w', events w' = events w ∧ history w' = history w ∧
    ∃ y, queues w' !! q = Some y ∧ BarrierEvent y ≠ 0).
Proof.
  intros Hi Hx. destruct (Z.eqb_spec (BarrierEvent x) 0) as [Hz|Hz].
  2: { apply spec_ret; [done|]. split_and!; [done..|by exists x]. }
  eapply spec_bind; [by apply (spec_new_handle q true)|]. intros e w1 Hi1 _ (Ew & He & Hu & _).
  specialize (He eq_refl). destruct (Hu He) as [Hu' _].
  assert (Hx1 : queues w1 !! q = Some x) by (by rewrite Ew).
  apply (spec_upd_queue q _ w1 x); [done| |by intros []|].
  - apply Inv_handles; [done|done| |by left]. right. by left.
  - rewrite Ew. split_and!; [done..|]. eexists. split; [apply lookup_insert_eq|done].
Qed.

Lemma spec_tmp_event q w x : Inv w → queues w !! q = Some x →
  spec q (if BarrierTmpEvent x =? 0 then
            e ← UR_CHECK_ERROR (cuEventCreate CU_EVENT_DISABLE_TIMING);
            upd_queue q (λ x, set_handles (HostSubmitTimeStream x) (BarrierEvent x) e x)
          else mret tt) w (λ _ w', events w' = events w ∧ history w' = history w ∧
    ∃ y, queues w' !! q = Some y ∧ BarrierTmpEvent y ≠ 0 ∧ BarrierEvent y = BarrierEvent x).
Proof.
  intros Hi Hx. destruct (Z.eqb_spec (BarrierTmpEvent x) 0) as [Hz|Hz].
  2: { apply spec_ret; [done|]. split_and!; [done..|by exists x]. }
  eapply spec_bind; [by apply (spec_new_handle q true)|]. intros e w1 Hi1 _ (Ew & He & Hu & _).
  specialize (He eq_refl). destruct (Hu He) as [Hu' _].
  assert (Hx1 : queues w1 !! q = Some x) by (by rewrite Ew).
  apply (spec_upd_queue q _ w1 x); [done| |by intros []|].
  - apply Inv_handles; [done|done| |by right]. right. by right.
  - rewrite Ew. split_and!; [done..|]. eexists. split; [apply lookup_insert_eq|done].
Qed.

(** The flags of all streams, once the barrier has a new event. *)
Definition unapplied (x : ur_queue_handle_t_) : ur_queue_handle_t_ :=
  on_pool transfer (set_applied (λ l, replicate (length l) false))
    (on_pool compute (set_applied (λ l, replicate (length l) false)) x).

Lemma unapplied_flags k x i : AppliedBarrier (pool k (unapplied x)) !! i ≠ Some true.
Proof. destruct k; cbn; intros E%lookup_replicate; by destruct E. Qed.

Lemma unapplied_core x : same_core x (unapplied x).
Proof. by intros []. Qed.

Lemma Inv_unapplied w q x : Inv w → queues w !! q = Some x → Inv (set_queues <[q := unapplied x]> w).
Proof.
  intros Hi Hx. pose proof (i_queue _ Hi q x Hx) as [P1 P2 P3 P4 P5 P6 P7].
  apply (Inv_same_core w q x); [done|done|apply unapplied_core| |done|by left].
  split; try done.
  - intros k. pose proof (unapplied_flags k x) as Hf. destruct (P1 k) as [A1 A2 A3 A4 A5 A6 A7].
    destruct k; (split; try done; [cbn; by rewrite length_replicate|]); intros i Hi'; by destruct (Hf i).
  - intros c Hc. destruct (P6 c Hc) as [|(k & s & Hu & Ha)]; [by left|right]. exists k, s. by destruct k.
  - intros c Hc. eapply barrier_ok_flags; [by apply P7|done|].
    intros k i s Hi'. by destruct (unapplied_flags k x i).
Qed.

(** Recording the barrier on a stream that waits for the earlier ones and for
    what this one covers. *)
Lemma wp_record_barrier {A} (m : M D A) Q q s covers w x : Inv w → queues w !! q = Some x → BarrierEvent x ≠ 0 →
  behind q s w → (∀ c, c ∈ covers → after (drv w) s c) →
  (∀ w', Inv w' → (∀ s t, placed q w s t → placed q w' s t) →
     (∀ s c, after (drv w) s c → after (drv w') s c) → wp m Q Inv w') →
  wp (call (cuEventRecord (BarrierEvent x) s);; upd_queue q unapplied;;
      modify (push_history (HBarrier q covers));; m) Q Inv w.
Proof.
  intros Hi Hx Hz Hb Hc Hm. apply wp_bind.
  assert (Hcl : claim w (BarrierEvent x) (RBarrier q)) by (split; [done|by exists x]).
  eapply wp_mono; [apply wp_harmless; [done|]| |].
  - split; [|by split; intros ? []]. intros h d' e r Ec [_ ->] Hr.
    rewrite (i_claim_fun _ Hi _ _ _ Hr Hcl). intros c Hbc. eapply cu_record; [exact Ec|]. by apply Hb.
  - intros ? w1 [H1 [h Ec]]. pose proof H1 as (Hi1 & _ & Hle). destruct (hstep_same _ _ H1) as (Eq & Ee & Eh).
    assert (Hx1 : queues w1 !! q = Some x) by (by rewrite Eq).
    apply wp_bind, (wp_upd_queue _ _ x); [done|]. apply wp_bind, wp_modify.
    pose proof (Inv_unapplied w1 q x Hi1 Hx1) as Hi2.
    assert (Hx2 : queues (set_queues <[q := unapplied x]> w1) !! q = Some (unapplied x)) by apply lookup_insert_eq.
    apply Hm.
    + apply (Inv_push_barrier _ q (unapplied x)); [done|done| |].
      2: { intros k i. apply unapplied_flags. }
      intros c Hin. split; [done|]. eapply cu_record; [exact Ec|]. by apply Hc.
    + intros s' t Hp.
      assert (Hf : frame q w (set_queues <[q := unapplied x]> w1)).
      { eapply frame_trans; [by apply hstep_frame|]. split; [apply le_queues|]. intros y Hy.
        exists (unapplied x). split; [done|]. assert (y = x) as -> by congruence. apply unapplied_core. }
      exact (placed_frame q _ _ s' t Hf Hp).
    + apply Hle.
  - intros w1 H1. apply H1.
Qed.

(** ** Waiting for a list *)

Lemma latestLoop_success F first last l w r w' :
  (∀ h e w r w', F h e w = (Val r, w') → r = UR_RESULT_SUCCESS) →
  latestLoop (D := D) F first last l w = (Val r, w') → r = UR_RESULT_SUCCESS.
Proof.
  intros HF. revert first last w. induction l as [|[h e] l IH]; intros first last w; cbn [latestLoop].
  { by intros [= <- _]. }
  destruct (_ && _); [by apply IH|]. unfold mbind, M_bind. destruct (F h e w) as [[a| | | |] w1] eqn:EF; try done.
  rewrite (HF _ _ _ _ _ EF). by apply IH.
Qed.

Lemma latest_success std_sort F evs w r w' :
  (∀ h e w r w', F h e w = (Val r, w') → r = UR_RESULT_SUCCESS) → evs ≠ [] →
  forLatestEvents (D := D) std_sort (Some evs) F w = (Val r, w') → r = UR_RESULT_SUCCESS.
Proof.
  intros HF Hne. unfold forLatestEvents. destruct evs as [|h [|h2 evs]]; [done| |].
  - unfold mbind, M_bind. destruct (get_event h w) as [[e| | | |] w1]; try done. apply HF.
  - unfold mbind, M_bind. destruct (get_events _ w) as [[L| | | |] w1]; try done. by apply latestLoop_success.
Qed.

Lemma wp_and {A} (m : M D A) (Q : A → world D → Prop) (R : A → Prop) E w :
  wp m Q E w → (∀ a w', m w = (Val a, w') → R a) → wp m (λ a w', Q a w' ∧ R a) E w.
Proof. unfold wp. destruct (m w) as [[] w']; try done. intros HQ HR. split; [done|by eapply HR]. Qed.
End sync.

Section barrier.
Context {D : Type} `{!CudaDriver D, !CudaDriverLaws D}.
Context (std_sort : list (nat * ur_event_handle_t_) → list (nat * ur_event_handle_t_)).
Context `{!SortsEvents std_sort}.
Implicit Types w : world D.

(** The wait of a barrier for one event of its list. *)
Definition barrier_wait (ask : ur_event_handle_t_ → M D bool) (CuStream : CUstream) (e : ur_event_handle_t_)
  : M D ur_result_t :=
  synchronized ← ask e;
  if (synchronized : bool) then mret UR_RESULT_SUCCESS
  else call (cuStreamWaitEvent CuStream (EvEnd e));; mret UR_RESULT_SUCCESS.

(** The question, were it defined for an event without a queue.  What a barrier that
    comes back has done does not depend on the difference. *)
Definition asks_any (e : ur_event_handle_t_) : M D bool :=
  match e_Queue e with Some _ => event_synchronized e | None => mret false end.

(** The events of a list are asked about as if they all had queues. *)
Definition asked ask w (evs : list nat) : Prop := ∀ h e, h ∈ evs → events w !! h = Some e → ask e = asks_any e.

Lemma asked_events ask w w' evs : events w' = events w → asked ask w evs → asked ask w' evs.
Proof. unfold asked. by intros ->. Qed.

Lemma asked_any w evs : asked asks_any w evs.
Proof. done. Qed.

Lemma asked_queued w evs :
  (∀ h e, h ∈ evs → events w !! h = Some e → e_Queue e ≠ None) → asked event_synchronized w evs.
Proof. intros H h e Hh He. unfold asks_any. specialize (H h e Hh He). by destruct (e_Queue e). Qed.

Lemma barrier_wait_success ask s e w r w' : barrier_wait ask s e w = (Val r, w') → r = UR_RESULT_SUCCESS.
Proof.
  assert (Hc : ∀ w r w', (call (cuStreamWaitEvent s (EvEnd e));; mret UR_RESULT_SUCCESS : M D _) w = (Val r, w') →
    r = UR_RESULT_SUCCESS).
  { intros w0 r0 w0'. unfold mbind, M_bind. destruct (call _ w0) as [[] ?]; try done. by intros [= <- _]. }
  unfold barrier_wait, mbind, M_bind. destruct (ask e w) as [[[|]| | | |] w1]; try done; [by intros [= <- _]|apply Hc].
Qed.

Lemma wp_barrier_event s w0 w h e : Inv w0 → drv_step w0 w → events w0 !! h = Some e →
  IsRecorded e = true ∨ IsInterop e = true →
  wp (barrier_wait asks_any s e) (λ r w', drv_step w0 w' ∧ (∀ c, after (drv w) s c → after (drv w') s c) ∧
    (r = UR_RESULT_SUCCESS → ∀ c, older w0 e c → after (drv w') s c)) (drv_step w0) w.
Proof.
  intros Hi H0 He Hr. unfold barrier_wait, asks_any, event_synchronized. apply wp_bind. pose proof (i_event _ Hi h e He) as Hev.
  destruct (e_Queue e) as [q|] eqn:Hq.
  2: { apply wp_ret. by eapply wp_wait_event. }
  destruct Hev as (x & Hx & _). assert (Hx' : queues w !! q = Some x) by (destruct H0 as [E _]; by rewrite E).
  apply wp_bind, (wp_get_queue _ x); [done|]. apply wp_ret.
  destruct (hasBeenSynchronized x (StreamToken e)) eqn:Hsy; [|by eapply wp_wait_event].
  apply wp_ret. split_and!; [done|done|]. intros _ c Hc.
  destruct (older_stands w0 h e c Hi He Hr Hc) as (q' & Hq' & [_ Hfin] & _).
  assert (q' = q) as -> by congruence. unfold hasBeenSynchronized in Hsy.
  destruct (Z.eqb_spec (StreamToken e) UINT32_MAX); [done|]. apply Z.ltb_lt in Hsy.
  apply cu_finished_after. specialize (Hfin x Hx ltac:(done) Hsy). destruct H0 as [_ []]. by apply k_finished.
Qed.

Lemma wp_barrier_list ask s evs w : Inv w → waitable w evs → evs ≠ [] → asked ask w evs →
  wp (forLatestEvents std_sort (Some evs) (λ _ e, barrier_wait ask s e)) (λ _ w', hstep w w' ∧
    ∀ c, c ∈ covered_by (Some evs) w' → after (drv w') s c) Inv w.
Proof.
  intros Hi Hw Hne Ha. eapply wp_mono; [eapply wp_and| |].
  - apply (wp_wait_list std_sort (λ d, after d s) (drv_step w) (drv_step w)); [done|done|apply drv_step_refl|].
    intros h e w1 Hh He H1. unfold barrier_wait. rewrite (Ha h e Hh He). destruct (Hw h Hh) as (e' & He' & Hr). assert (e' = e) as -> by congruence.
    by apply (wp_barrier_event s w w1 h e).
  - intros r w' Er. eapply (latest_success std_sort); [|exact Hne|exact Er].
    intros h e w1 r1 w1'. apply barrier_wait_success.
  - cbv beta. intros r w' [[Hd Hr] ->]. pose proof (drv_hstep _ _ Hi Hd) as Hh. split; [done|]. intros c.
    destruct (hstep_same _ _ Hh) as (_ & Ee & _).
    replace (covered_by (Some evs) w') with (covered_by (Some evs) w); [by apply Hr|].
    unfold covered_by. by rewrite Ee.
  - intros w' Hd. by eapply drv_step_Inv.
Qed.

(** What a barrier orders, for its history entry. *)
Definition barrier_covers (evs : option (list nat)) q w : list nat :=
  match list_of evs with
  | [] => omap (λ h, match h with
                     | HCommand q' c _ => if decide (q' = q) then Some c else None
                     | _ => None end) (history w)
  | _ => covered_by evs w
  end.

Definition barrier_waits ask (evs : option (list nat)) q (CuStream : CUstream) : M D unit :=
  match list_of evs with
  | [] =>
      x ← get_queue q;
      (if BarrierTmpEvent x =? 0 then
         e ← UR_CHECK_ERROR (cuEventCreate CU_EVENT_DISABLE_TIMING);
         upd_queue q (λ x, set_handles (HostSubmitTimeStream x) (BarrierEvent x) e x)
       else mret tt);;
      x ← get_queue q;
      syncStreams false q (barrier_visit (BarrierTmpEvent x) CuStream)
  | _ => _ ← forLatestEvents std_sort evs (λ _ e, barrier_wait ask CuStream e); mret tt
  end.

Lemma omap_submitted h q c :
  c ∈ omap (λ h, match h with
                 | HCommand q' c _ => if decide (q' = q) then Some c else None
                 | _ => None end) h → submitted h q c.
Proof.
  intros (n & Hn & Ec)%list_elem_of_omap. destruct n as [q' c' ws|]; [|done].
  case_decide as E; [|done]. injection Ec as ->. subst q'. by exists ws.
Qed.

Lemma wp_barrier_waits ask evs q s t w x : Inv w → waitable_list w evs → queues w !! q = Some x →
  BarrierEvent x ≠ 0 → usable q w s t → asked ask w (list_of evs) →
  wp (barrier_waits ask evs q s) (λ _ w', Inv w' ∧ usable q w' s t ∧
    (∃ y, queues w' !! q = Some y ∧ BarrierEvent y ≠ 0) ∧
    ∀ c, c ∈ barrier_covers evs q w' → after (drv w') s c) Inv w.
Proof.
  intros Hi Hl Hx Hz Hu Ha. unfold barrier_waits, barrier_covers. destruct (list_of evs) as [|h l] eqn:El.
  - apply wp_bind, (wp_get_queue _ x); [done|]. apply wp_bind.
    eapply wp_mono; [by apply (spec_tmp_event q w x)| |done].
    intros ? w1 (Hi1 & Hf1 & He1 & Hh1 & x1 & Hx1 & Hz1 & Hb1).
    apply wp_bind, (wp_get_queue _ x1); [done|]. eapply wp_mono; [by apply wp_wait_for_all| |done].
    intros ? w2 [Hs Hall]. destruct (synced_frame q w1 x1 w2 Hx1 Hs) as (Hf2 & _ & Hh2 & y & Hy & Hby).
    split_and!.
    + destruct Hs as (d & dl & -> & Hdl & Hh). by apply (Inv_delay _ q x1 (λ _, dl)); [apply Hh| |].
    + by eapply usable_frame, usable_frame.
    + exists y. split; [done|congruence].
    + intros c Hc%omap_submitted. apply Hall. by rewrite <- Hh2.
  - destruct evs as [l'|]; [|done]. cbn in El. subst l'.
    apply wp_bind. eapply wp_mono; [by apply (wp_barrier_list ask s (h :: l))| |done].
    intros ? w1 [Hh Hc]. apply wp_ret. pose proof Hh as (Hi1 & _).
    destruct (hstep_same _ _ Hh) as (Eq & _ & _). split_and!; [done|by eapply usable_hstep| |done].
    exists x. by rewrite Eq.
Qed.

Lemma safe_barrier ask q evs b w : ready w q evs → asked ask w (list_of evs) →
  safe (barrier_asking std_sort ask q evs b) w.
Proof.
  intros Hr Ha. apply safe_catch, (wp_get_ready q evs); [done|]. intros x _.
  apply wp_bind. eapply wp_mono; [by eapply wp_context_ready| |done]. intros ? w1 [Hr1 Hh1].
  pose proof Hr1 as [Hi1 [x1 Hx1] Hroom Hl].
  apply wp_bind. eapply wp_mono; [apply (selects_for q _ w1 x1); [done..|]| |done].
  { intros h Hh. by eapply ready_list. }
  intros [s o] w2 (Hi2 & Ho & t & Ht & Hu2). destruct (hstep_same _ _ Hh1) as (_ & Ee1 & _). cbn in Ht, Hu2. rewrite Ht. clear o Ht.
  pose proof (only_waitable _ _ _ _ Ho Hl) as Hl2. pose proof Hu2 as ((x2 & Hx2 & _) & _).
  apply wp_bind, (wp_get_queue _ x2); [done|]. apply wp_bind.
  eapply wp_mono; [by apply (spec_barrier_event q w2 x2)| |done].
  intros ? w3 (Hi3 & Hf3 & He3 & _ & x3 & Hx3 & Hz3).
  assert (Hl3 : waitable_list w3 evs) by (unfold waitable_list, waitable in *; by rewrite He3).
  assert (Ha3 : asked ask w3 (list_of evs)).
  { apply (asked_events ask w); [|done]. destruct Ho as [_ Eo _]. congruence. }
  apply wp_bind. eapply wp_mono; [apply (wp_barrier_waits ask evs q s t w3 x3); try done; by eapply usable_frame| |done].
  intros ? w4 (Hi4 & [Hp4 Hb4] & (x4 & Hx4 & Hz4) & Hc4).
  apply wp_bind, wp_gets. fold (barrier_covers evs q w4).
  apply wp_bind, (wp_get_queue _ x4); [done|].
  apply (wp_record_barrier _ _ q s _ w4 x4); [done..|].
  intros w5 Hi5 Hp5 Ha5. destruct b; [|by apply wp_ret]. apply Hp5 in Hp4.
  apply wp_bind. eapply wp_mono; [by apply spec_makeNative| |done]. intros h w6 (Hi6 & Hf6 & Hm6 & _).
  apply wp_bind. eapply wp_mono; [by eapply spec_start| |done]. intros r w7 (Hi7 & Hf7 & Hm7 & _).
  apply wp_bind. eapply wp_mono; [by apply (spec_check_ur q)| |done]. intros ? ? (_ & _ & _ & ->).
  assert (Hf57 : frame q w5 w7) by (by eapply frame_trans).
  apply wp_bind. eapply wp_mono; [eapply (spec_record q h s t); [done|done|by eapply placed_frame|]| |done].
  { intros c Hc. by apply Hf57, Ha5, Hc4. }
  intros r' w8 (Hi8 & _). apply wp_bind. eapply wp_mono; [by apply (spec_check_ur q)| |done].
  intros ? ? (_ & _ & _ & ->). by apply wp_ret.
Qed.

(** ** A barrier that comes back *)

(** [m] is undefined or does as [m']. *)
Definition below {A} (m m' : M D A) : Prop := ∀ w, (m w).1 = UB ∨ m w = m' w.

Lemma below_refl {A} (m : M D A) : below m m.
Proof. by right. Qed.

Lemma below_bind {A B} (m m' : M D A) (f f' : A → M D B) :
  below m m' → (∀ a, below (f a) (f' a)) → below (m ≫= f) (m' ≫= f').
Proof.
  intros Hm Hf w. unfold mbind, M_bind. destruct (Hm w) as [E|<-].
  - left. by destruct (m w) as [[] w1].
  - destruct (m w) as [[a| | | |] w1]; [apply Hf|by right..].
Qed.

Lemma below_latest F F' first last l : (∀ h e, below (F h e) (F' h e)) →
  below (latestLoop (D := D) F first last l) (latestLoop F' first last l).
Proof.
  intros HF. revert first last. induction l as [|[h e] l IH]; intros first last; cbn [latestLoop]; [by right|].
  destruct (_ && _); [done|]. apply below_bind; [done|]. intros r. destruct r; try apply below_refl. apply IH.
Qed.

Lemma below_forLatest F F' evs : (∀ h e, below (F h e) (F' h e)) →
  below (forLatestEvents std_sort evs F) (forLatestEvents std_sort evs F').
Proof.
  intros HF. destruct evs as [[|h [|h2 l]]|]; try apply below_refl.
  - apply below_bind; [apply below_refl|done].
  - apply below_bind; [apply below_refl|]. intros L. by apply below_latest.
Qed.

Lemma below_catch_with {A} (o : A) (m m' : M D (ur_result_t * A)) :
  below m m' → below (catch_with o m) (catch_with o m').
Proof.
  intros Hm w. unfold catch_with. destruct (Hm w) as [E|<-]; [|by right].
  left. destruct (m w) as [[] w1]; cbn in *; congruence.
Qed.

Lemma below_asks e : below (event_synchronized e) (asks_any e).
Proof. unfold asks_any. destruct (e_Queue e) eqn:E; [apply below_refl|]. intros w. left. unfold event_synchronized. by rewrite E. Qed.

Lemma below_barrier q evs b :
  below (urEnqueueEventsWaitWithBarrier std_sort q evs b) (barrier_asking std_sort asks_any q evs b).
Proof.
  apply below_catch_with. do 2 (apply below_bind; [apply below_refl|]; intros ?).
  apply below_bind; [apply below_refl|]. intros [s t].
  do 2 (apply below_bind; [apply below_refl|]; intros ?).
  apply below_bind; [|intros ?; apply below_refl]. destruct (list_of evs); [apply below_refl|].
  apply below_bind; [|intros ?; apply below_refl]. apply below_forLatest. intros h e.
  apply below_bind; [apply below_asks|]. intros ?. apply below_refl.
Qed.
End barrier.
