(* ===== verification/CudaSafety.v ===== *)
(** * CudaSafety: what every run of the CUDA adapter's queues gives

    The calls as steps of a system; in every state that they reach commands run
    after their wait lists and the barriers before them, and a call that waits has
    waited for everything it says. *)
From S2P Require Import Prelude CudaFill CudaLaunch CudaQueue CudaOrder.
From S2P Require Import CudaWait CudaCommand CudaCalls CudaSync CudaTestDriver.

Section safety.
Context {D : Type} `{!CudaDriver D, !CudaDriverLaws D}.
Context (std_sort : list (nat * ur_event_handle_t_) → list (nat * ur_event_handle_t_)).
Context `{!SortsEvents std_sort}.
Implicit Types w : world D.

(** ** Waiting for events *)

(** Events may have been waited for, and the driver moved. *)
Definition waited_from w0 w : Prop :=
  Inv w ∧ dle (λ _, False) (drv w0) (drv w) ∧
  ∀ h e, events w0 !! h = Some e → ∃ e', events w !! h = Some e' ∧ EvEnd e' = EvEnd e ∧
    e_covers e' = e_covers e ∧ EventID e' = EventID e ∧ IsRecorded e' = IsRecorded e.

Lemma wp_wait h e w0 w : Inv w0 → waited_from w0 w → events w0 !! h = Some e →
  IsRecorded e = true ∨ IsInterop e = true →
  wp (wait h) (λ r w', waited_from w0 w' ∧ (∀ c, finished (drv w) c → finished (drv w') c) ∧
    (r = UR_RESULT_SUCCESS → ∀ c, older w0 e c → finished (drv w') c)) (λ _, False) w.
Proof.
  intros Hi0 (Hi & Hd & Hev) He Hr. destruct (Hev h e He) as (e' & He' & E1 & E2 & E3 & E4).
  apply wp_catch. unfold get_event. apply wp_bind, wp_bind, wp_gets, (wp_some e'); [done|].
  assert (Hstep : ∀ w', drv_step w w' → waited_from w0 w').
  { intros w' H. pose proof (drv_step_Inv _ _ Hi H) as Hi'. split; [done|]. destruct H as [Ew Hd'].
    split; [by eapply dle_trans|]. by rewrite Ew. }
  apply wp_bind. eapply wp_mono; [by apply wp_call| |].
  2: { intros w1 H1 r Hne. split_and!; [by apply Hstep|by apply H1|done]. }
  intros ? w1 [H1 [a Ec]]. destruct (Hstep w1 H1) as (Hi1 & Hd1 & Hev1).
  assert (He1 : events w1 !! h = Some e') by (destruct H1 as [E _]; by rewrite E).
  assert (Hfin : ∀ c, older w0 e c → finished (drv w1) c).
  { intros c Hc. destruct (older_stands w0 h e c Hi0 He Hr Hc) as (q & _ & [Hrec _] & _ & Hcl).
    eapply cu_event_synchronize; [exact Ec|]. rewrite E1. apply Hd; [by eapply i_claim_live|tauto|tauto|done]. }
  apply wp_bind, wp_modify. rewrite (set_events_alter _ h e') by done. apply wp_ret.
  split_and!; [|by apply H1|by intros _].
  split; [|split; [done|]].
  - apply Inv_mark; [done|done|]. intros _ c Hc. apply Hfin. eapply (older_self w0 h); [done|done|by rewrite <- E2].
  - intros g eg Hg. cbn. destruct (decide (g = h)) as [->|Hne].
    + assert (eg = e) as -> by congruence. rewrite lookup_insert_eq. eexists. split; [done|]. cbn. by rewrite E1, E2, E3, E4.
    + rewrite lookup_insert_ne by done. by apply Hev1.
Qed.

Lemma wp_event_wait dev evs w : Inv w → evs ≠ [] → waitable w evs →
  wp (urEventWait std_sort dev evs) (λ r w', Inv w' ∧
    (r = UR_RESULT_SUCCESS → ∀ c, c ∈ covered_by (Some evs) w → finished (drv w') c)) (λ _, False) w.
Proof.
  intros Hi Hne Hw. unfold urEventWait. apply wp_catch, wp_bind.
  destruct evs as [|h0 l0] eqn:El; [done|]. rewrite <- El in *. clear h0 l0 El Hne. apply wp_ret, wp_bind.
  eapply wp_mono; [apply wp_context| |].
  2: { intros w' Hd r Hr. split; [by eapply drv_step_Inv|done]. }
  intros ? w0 Hd. cbn in Hd. pose proof (drv_step_Inv _ _ Hi Hd) as Hi0.
  assert (Ee : events w0 = events w) by (destruct Hd as [E _]; by rewrite E).
  eapply wp_mono; [apply (wp_wait_list std_sort (λ d c, finished d c) (waited_from w0) (λ _, False)); [done| | |]| |done].
  - intros h Hh. rewrite Ee. by apply Hw.
  - split; [done|]. split; [apply dle_refl|]. intros h e He. by exists e.
  - intros h e w1 Hh He H1. destruct (Hw h Hh) as (e' & He' & Hr). rewrite Ee in He.
    assert (e' = e) as -> by congruence. rewrite <- Ee in He. by apply wp_wait.
  - intros r w' [(Hi' & _) Hr]. split; [done|]. intros Hok c Hc. apply (Hr Hok).
    unfold covered_by in *. by rewrite Ee.
Qed.

(** ** Queries *)

Lemma wp_is_completed h e w : Inv w → events w !! h = Some e →
  wp (isCompleted h) (λ b w', drv_step w w' ∧ (b = true → ∀ c, c ∈ e_covers e → finished (drv w') c))
    (λ _, False) w.
Proof.
  intros Hi He. unfold isCompleted, get_event. apply wp_bind, wp_bind, wp_gets, (wp_some e); [done|].
  pose proof (i_event _ Hi h e He) as Hev.
  assert (Hcov : ∀ c, c ∈ e_covers e → recorded (drv w) (EvEnd e) c ∧ claim w (EvEnd e) (REnd h) ∧
    (HasBeenWaitedOn e = true → finished (drv w) c)).
  { intros c Hc. destruct (e_Queue e) as [q|].
    - destruct Hev as (x & _ & Hok). split_and!; [by apply Hok| |intros Hw; by apply Hok].
      split; [apply Hok|exists e]. split_and!; [done|apply Hok|done].
    - destruct Hev as (_ & E & _). rewrite E in Hc. by apply elem_of_nil in Hc. }
  destruct (IsRecorded e); [|apply wp_ret; split; [apply drv_step_refl|done]]. cbn [negb].
  destruct (HasBeenWaitedOn e).
  { apply wp_ret. split; [apply drv_step_refl|]. intros _ c Hc. by apply Hcov. }
  apply wp_bind. eapply wp_mono; [by apply wp_raw| |done]. intros r w' [Hd Ec]. apply wp_ret.
  split; [done|]. intros Hb c Hc. destruct r as [[] v]; try done. cbn in Ec.
  destruct (Hcov c Hc) as (Hrec & _). by eapply cu_event_query.
Qed.

Lemma wp_status h e w : Inv w → events w !! h = Some e →
  wp (getExecutionStatus h) (λ s w', drv_step w w' ∧
    (s = UR_EVENT_STATUS_COMPLETE → ∀ c, c ∈ e_covers e → finished (drv w') c)) (λ _, False) w.
Proof.
  intros Hi He. unfold getExecutionStatus, get_event. apply wp_bind, wp_bind, wp_gets, (wp_some e); [done|].
  destruct (IsRecorded e); [|apply wp_ret; split; [apply drv_step_refl|done]]. cbn [negb].
  apply wp_bind. eapply wp_mono; [by eapply wp_is_completed| |done]. intros b w' [Hd Hb]. apply wp_ret.
  split; [done|]. destruct b; [intros _; by apply Hb|done].
Qed.

Definition query (S : CUstream) : M D bool :=
  r ← raw (cuStreamQuery S);
  match r.1 with
  | CUDA_SUCCESS => mret true
  | CUDA_ERROR_NOT_READY => mret false
  | e => match checkErrorUR e with Some r => throw r | None => mret false end
  end.

Lemma wp_query s w : wp (query s) (λ b w', drv_step w w' ∧
  (b = true → ∀ c, after (drv w) s c → finished (drv w') c)) (drv_step w) w.
Proof.
  apply wp_bind. eapply wp_mono; [by apply wp_raw| |done].
  intros [[] v] w1 [H1 Ec]; cbn in *; try (by split); try done.
  split; [done|]. intros _ c Hc. by eapply cu_query.
Qed.

Lemma wp_all_of l w0 w : drv_step w0 w →
  wp (all_of query l) (λ b w', drv_step w w' ∧
    (b = true → ∀ s c, s ∈ l → after (drv w0) s c → finished (drv w') c)) (drv_step w) w.
Proof.
  revert w. induction l as [|s l IH]; intros w Hd; cbn [all_of].
  { apply wp_ret. split; [apply drv_step_refl|]. by intros _ s c []%elem_of_nil. }
  apply wp_bind. eapply wp_mono; [by apply wp_query| |done].
  intros b w1 [H1 Hb]. destruct b; [|by apply wp_ret].
  eapply wp_mono; [apply IH; by eapply drv_step_trans| |by intros w2; apply drv_step_trans].
  intros b w2 [H2 Hb2]. split; [by eapply drv_step_trans|].
  intros E s' c [->|Hs']%elem_of_cons Hc; [|by eapply Hb2].
  apply H2. apply Hb; [done|]. by eapply drv_step_after.
Qed.

Lemma in_use_created p s : pool_ok p → in_use p s → s ∈ createdStreams p.
Proof.
  intros Hp (t & Ht & Hs). pose proof (po_sync _ Hp).
  pose proof (at_token_created p t s Hp ltac:(lia) Hs) as Hn. unfold at_token in Hs.
  unfold createdStreams. apply list_elem_of_lookup. exists (Z.to_nat (t mod size p)).
  pose proof (lookup_lt_Some _ _ _ Hs). rewrite lookup_take_lt; [done|]. lia.
Qed.

Lemma wp_empty q x w : Inv w → queues w !! q = Some x →
  wp (queue_is_empty q) (λ r w', Inv w' ∧
    (r = (UR_RESULT_SUCCESS, true) → ∀ c, submitted (history w) q c → finished (drv w') c)) (λ _, False) w.
Proof.
  intros Hi Hx. unfold queue_is_empty.
  assert (Hbody : wp (allOf q query) (λ b w', drv_step w w' ∧ (b = true → ∀ c, submitted (history w) q c →
    finished (drv w') c)) (drv_step w) w).
  { unfold allOf. apply wp_bind, (wp_get_queue _ x); [done|].
    apply wp_bind. eapply wp_mono; [by apply (wp_all_of _ w), drv_step_refl| |done].
    intros b w1 [H1 Hb1]. destruct b; [|by apply wp_ret].
    eapply wp_mono; [by apply (wp_all_of _ w)| |by intros w2; apply drv_step_trans].
    intros b w2 [H2 Hb2]. split; [by eapply drv_step_trans|]. intros E c Hc.
    pose proof (i_queue _ Hi q x Hx) as Hq.
    destruct (qo_cover _ _ _ _ Hq c Hc) as [Hf|(k & s & Hu & Ha)]; [by apply H2, H1|].
    pose proof (in_use_created _ _ (qo_pool _ _ _ _ Hq k) Hu) as Hs.
    destruct k; [apply H2; by apply (Hb1 eq_refl s)|by apply (Hb2 E s)]. }
  assert (Hcatch : ∀ (m : M D (ur_result_t * bool)) Q, wp m Q (λ w', ∀ r, r ≠ UR_RESULT_SUCCESS → Q (r, false) w') w →
    wp (catch_with false m) Q (λ _, False) w).
  { intros m Q. unfold wp, catch_with. destruct (m w) as [[] w']; naive_solver. }
  apply Hcatch, wp_bind. eapply wp_mono; [exact Hbody| |].
  - intros b w' [Hd Hb]. apply wp_ret. split; [by eapply drv_step_Inv|]. intros [= ->]. by apply Hb.
  - intros w' Hd r Hr. split; [by eapply drv_step_Inv|done].
Qed.
(** ** Creating and releasing *)

Lemma not_submitted w c : Inv w → ¬ submitted (history w) (next_id w) c ∧ ¬ barred (history w) (next_id w) c.
Proof.
  intros Hi. split.
  - intros (ws & Hin). apply (i_history _ Hi) in Hin. lia.
  - intros (cs & Hin & _). apply (i_history _ Hi) in Hin. lia.
Qed.

(** A queue that has not been used. *)
Lemma Inv_new_queue w x : Inv w → (∀ k, pool_ok (pool k x)) → 0 < size (ComputePool x) →
  length (DelayCompute x) = length (Streams (ComputePool x)) → EventCount x = 0 → q_Device x ≠ 0 →
  BarrierEvent x = 0 → BarrierTmpEvent x = 0 →
  (∀ s, exists_in x s → s ≠ 0 ∧ live_stream (drv w) s ∧ ∀ q, ¬ owns w s q) →
  Inv (set_queues <[next_id w := x]> (take_id w)).
Proof.
  intros Hi Hp Hs Hd Hn Hdev Hb Ht Hex. pose proof (λ c, not_submitted w c Hi) as Hnot.
  destruct Hi as [J1 J2 J3 J4 J5 J6 J7 J8 J9 J10 J11 J12]. assert (Hnone : queues w !! next_id w = None).
  { destruct (queues w !! next_id w) as [y|] eqn:E; [|done]. apply J10 in E. lia. }
  set (n := next_id w) in *.
  assert (Hcl : ∀ e r, claim (set_queues <[n := x]> (take_id w)) e r → claim w e r).
  { intros e r [Hz Hc]. split; [done|]. destruct r; cbn in *; try done;
      destruct Hc as (y & [[<- <-]|[_ Hy]]%lookup_insert_Some & Hr); try congruence; by exists y. }
  assert (Hown : ∀ s q, owns (set_queues <[n := x]> (take_id w)) s q → owns w s q ∨ q = n ∧ exists_in x s).
  { intros s q (y & Hy & Hin). cbn in Hy.
    apply lookup_insert_Some in Hy as [[<- <-]|[_ Hy]]; [by right|left; by exists y]. }
  split; cbn; try done.
  - intros q y [[<- <-]|[_ Hy]]%lookup_insert_Some; [|by apply J2].
    split; try done; [rewrite Hn; lia| |]; intros c Hc; by destruct (Hnot c).
  - intros h e He. specialize (J3 h e He). destruct (e_Queue e) as [q|]; [|done].
    destruct J3 as (y & Hy & Hok). exists y. split; [|done]. rewrite lookup_insert_ne; [done|congruence].
  - intros h1 e1 h2 e2 q H1 H2 Hq1 Hq2 Hst Hid Hr c Hc.
    destruct (J4 h1 e1 h2 e2 q H1 H2 Hq1 Hq2 Hst Hid Hr c Hc) as [Hrc Hfin]. split; [done|].
    intros y Hy. cbn in Hy. apply lookup_insert_Some in Hy as [[<- <-]|[_ Hy]]; [|by apply Hfin].
    specialize (J3 h1 e1 H1). rewrite Hq1 in J3. destruct J3 as (y & Hy & _). congruence.
  - intros e r Hc. by apply (J5 e r), Hcl.
  - intros e r1 r2 H1 H2. apply (J6 e); by apply Hcl.
  - intros s q Ho. destruct (Hown s q Ho) as [Ho'|[-> Hin]]; [by apply (J7 s q)|].
    by destruct (Hex s Hin) as (? & ? & _).
  - intros s q1 q2 H1 H2. destruct (Hown s q1 H1) as [O1|[-> I1]], (Hown s q2 H2) as [O2|[-> I2]].
    + by apply (J8 s).
    + by destruct (Hex s I2) as (_ & _ & Hno); destruct (Hno q1).
    + by destruct (Hex s I1) as (_ & _ & Hno); destruct (Hno q2).
    + done.
  - intros h e He. apply J9 in He. lia.
  - intros q y [[<- <-]|[_ Hy]]%lookup_insert_Some; [lia|]. apply J10 in Hy. lia.
  - intros m Hm. apply J11 in Hm. lia.
Qed.

Lemma new_streams_ok l : Z.of_nat (length l) < 2 ^ 32 → pool_ok (new_pool l).
Proof.
  intros Hl. split; unfold size; cbn; rewrite ?length_replicate; try lia.
  intros i E%lookup_replicate. by destruct E.
Qed.

Lemma safe_create Devices hDevice props w : Inv w → hDevice ≠ 0 → safe (urQueueCreate Devices hDevice props) w.
Proof.
  intros Hi Hdev. apply safe_catch. case_bool_decide; [|by apply wp_ret].
  apply wp_bind. eapply (wp_mono _ (λ _ w', Inv w')); [| |done].
  { assert (Hr : ∀ b, wp (ScopedContext hDevice;; UR_CHECK_ERROR (cuCtxGetStreamPriorityRange b)) (λ _ w', Inv w') Inv w).
    { intros b. apply wp_bind. eapply wp_mono; [apply (spec_context 0); done| |done].
      intros ? w1 (Hi1 & _). eapply wp_mono; [apply (spec_check_error 0); [done|by apply quiet_harmless]| |done].
      by intros ? w2 (Hi2 & _). }
    case_match; [apply Hr|]. case_match; [apply Hr|]. by apply wp_ret. }
  intros prio w1 Hi1. unfold new_queue_in. apply wp_bind, wp_bind, wp_gets, wp_bind, wp_modify, wp_bind, wp_modify, wp_ret, wp_ret.
  set (b := negb _). apply Inv_new_queue; try done.
  - intros k. by destruct k; apply new_streams_ok; rewrite length_replicate; destruct b.
  - unfold size. cbn. rewrite length_replicate. by destruct b.
  - cbn. by rewrite !length_replicate.
  - intros s (k & i & _ & Hn). destruct k; cbn in Hn; lia.
Qed.
(** A queue around a stream that no other queue uses. *)
Lemma safe_create_native s dev owned w : Inv w → dev ≠ 0 → s ≠ 0 → live_stream (drv w) s →
  (∀ q, ¬ owns w s q) → wp (urQueueCreateWithNativeHandle s dev owned) (λ _ w', Inv w') (λ w', Inv w') w.
Proof.
  intros Hi Hdev Hs Hl Hno. unfold urQueueCreateWithNativeHandle.
  apply wp_bind. eapply wp_mono; [by apply wp_check| |].
  2: { intros w1 Hd. by eapply drv_step_Inv. }
  intros flags w1 [Hd _]. pose proof (drv_step_Inv _ _ Hi Hd) as Hi1. destruct Hd as [Ew Hd].
  apply wp_bind. eapply (wp_mono _ (λ _ w', w' = w1) _ (λ _, False)); [|intros urflags ? ->|done].
  { case_match; [by apply wp_ret|]. by case_match; [apply wp_ret|]. }
  unfold new_queue_in. apply wp_bind, wp_bind, wp_gets, wp_bind, wp_modify, wp_bind, wp_modify, wp_ret, wp_bind.
  eapply wp_upd_queue; [apply lookup_insert_eq|]. rewrite set_queues_twice. apply wp_ret.
  apply Inv_new_queue; try done.
  - intros []; [|by apply new_streams_ok]. by split; unfold size; cbn; try lia; intros [|i] E.
  - intros s' (k & i & Hs' & Hn). destruct k; [|by cbn in Hn; lia].
    destruct i; [|done]. injection Hs' as <-. split_and!; [done| |].
    + destruct Hd. apply k_stream; [done|tauto].
    + intros q. rewrite Ew. apply Hno.
Qed.

Lemma safe_get_native q evs w : ready w q evs →
  wp (urQueueGetNativeHandle q) (λ _ w', Inv w') Inv w.
Proof.
  intros Hr. apply (wp_get_ready q evs); [done|]. intros x _.
  apply wp_bind. eapply wp_mono; [by eapply wp_context_ready| |done]. intros ? w1 [[Hi1 [x1 Hx1] Hroom _] _].
  apply wp_bind. eapply wp_mono; [by apply (selects_next q w1 x1)| |done].
  intros r w2 (Hi2 & _). by apply wp_ret.
Qed.

Lemma safe_queue_refs n q w x (A : Type) (m : M D A) Q : Inv w → queues w !! q = Some x →
  (Inv (set_queues <[q := add_refs n x]> w) → wp m Q (λ _, False) (set_queues <[q := add_refs n x]> w)) →
  wp (upd_queue q (add_refs n);; m) Q (λ _, False) w.
Proof.
  intros Hi Hx Hm. apply wp_bind, (wp_upd_queue _ _ x); [done|]. apply Hm.
  apply (Inv_core w q x); [done|done|]. apply core_refs, (qo_count _ _ _ _ (i_queue _ Hi q x Hx)).
Qed.

Lemma safe_queue_retain q w x : Inv w → queues w !! q = Some x → safe (urQueueRetain q) w.
Proof. intros Hi Hx. apply (safe_queue_refs 1 q w x); [done|done|]. intros Hi'. by apply wp_ret. Qed.

(** A queue that others still hold. *)
Definition held w q : Prop := ∃ x, queues w !! q = Some x ∧ 1 < q_RefCount x < 2 ^ 32.

Lemma queue_release_runs q w x : queues w !! q = Some x → 1 < q_RefCount x < 2 ^ 32 →
  urQueueRelease q w = (Val UR_RESULT_SUCCESS, set_queues <[q := add_refs (-1) x]> w).
Proof.
  intros Hx Hn. unfold urQueueRelease, mbind, M_bind, get_queue, upd_queue, gets, modify, mbind, M_bind.
  rewrite Hx. cbn [some mret M_ret]. rewrite (set_queues_alter _ q x) by done.
  assert (Hx' : queues (set_queues <[q := add_refs (-1) x]> w) !! q = Some (add_refs (-1) x)) by apply lookup_insert_eq.
  rewrite Hx'. cbn [some mret M_ret].
  assert (Hr : q_RefCount (add_refs (-1) x) = q_RefCount x - 1).
  { change (w32 (q_RefCount x + -1) = q_RefCount x - 1). unfold w32. rewrite Z.mod_small; lia. }
  by rewrite Hr, (proj2 (Z.ltb_lt 0 _)) by lia.
Qed.

Lemma safe_queue_release q w : Inv w → held w q → safe (urQueueRelease q) w.
Proof.
  intros Hi (x & Hx & Hn). unfold safe, wp. rewrite (queue_release_runs q w x Hx Hn).
  apply (Inv_core w q x); [done|done|]. apply core_refs, (qo_count _ _ _ _ (i_queue _ Hi q x Hx)).
Qed.

Lemma safe_event_retain h w e : Inv w → events w !! h = Some e → safe (urEventRetain h) w.
Proof.
  intros Hi He. unfold safe, urEventRetain, get_event. apply wp_bind, wp_bind, wp_gets, (wp_some e); [done|].
  apply wp_bind, wp_modify. rewrite (set_events_alter _ h e) by done.
  destruct (_ =? 0); [done|]. apply wp_ret. apply Inv_mark; [done|done|]. intros Hw c Hc.
  pose proof (i_event _ Hi h e He) as Hev. destruct (e_Queue e) as [q|].
  - destruct Hev as (x & _ & Hok). by apply Hok.
  - destruct Hev as (_ & E & _). rewrite E in Hc. by apply elem_of_nil in Hc.
Qed.

Lemma safe_event_native ev w : Inv w → safe (urEventCreateWithNativeHandle ev) w.
Proof.
  intros Hi. unfold safe, urEventCreateWithNativeHandle. apply wp_bind, wp_gets, wp_bind, wp_modify, wp_bind, wp_modify, wp_ret.
  set (e := mkEvent _ _ _ _ _ _ _ _ _ _ _ _ _ _ _). destruct Hi as [J1 J2 J3 J4 J5 J6 J7 J8 J9 J10 J11 J12].
  set (n := next_id w) in *.
  assert (Hcl : ∀ e' r, claim (set_events <[n := e]> (take_id w)) e' r → claim w e' r).
  { intros e' r [Hz Hc]. split; [done|]. destruct r; cbn in *; try done;
      destruct Hc as (y & [[<- <-]|[_ Hy]]%lookup_insert_Some & Hr); try (by exists y).
    - by destruct Hr as [Hr _].
    - cbn in Hr. congruence.
    - cbn in Hr. congruence. }
  split; cbn; try done.
  - intros h e' [[<- <-]|[_ He]]%lookup_insert_Some; [done|]. by apply (J3 h).
  - intros h1 e1 h2 e2 q [[<- <-]|[_ H1]]%lookup_insert_Some [[<- <-]|[_ H2]]%lookup_insert_Some; try done.
    by apply (J4 h1 e1 h2 e2).
  - intros e' r Hc. by apply (J5 e' r), Hcl.
  - intros e' r1 r2 H1 H2. apply (J6 e'); by apply Hcl.
  - intros h e' [[<- <-]|[_ He]]%lookup_insert_Some; [lia|]. apply J9 in He. lia.
  - intros q y Hy. apply J10 in Hy. lia.
  - intros m Hm. apply J11 in Hm. lia.
Qed.
(** The events of the driver that an event lets go of. *)
Definition owned_events (e : ur_event_handle_t_) (ev : CUevent) : Prop :=
  e_HasOwnership e = true ∧ (ev = EvEnd e ∨ ev = EvStart e ∨ ev = EvQueued e).

Definition let_go e w w' : Prop :=
  w' = set_drv (drv w') w ∧ keeps (λ _, False) (owned_events e) (λ _, False) (drv w) (drv w').

Lemma let_go_trans e w1 w2 w3 : let_go e w1 w2 → let_go e w2 w3 → let_go e w1 w3.
Proof.
  intros [E1 [A1 B1 C1 F1 G1 I1]] [E2 [A2 B2 C2 F2 G2 I2]]. split; [rewrite E2 at 1; rewrite E1; done|].
  split; eauto 8.
Qed.

Lemma wp_destroy e ev w : owned_events e ev →
  wp (call (cuEventDestroy ev)) (λ _ w', let_go e w w') (let_go e w) w.
Proof.
  intros Ho. assert (Hk : ∀ r h d', cu (cuEventDestroy ev) (drv w) = (r, h, d') →
    keeps (λ _, False) (owned_events e) (λ _, False) (drv w) d').
  { intros r h d' Ec. destruct (cu_keeps _ _ _ _ _ Ec) as [K1 K2 K3 K4 K5 K6].
    split; auto; intros ev' **; [apply K4|apply K5]; auto; cbn; by intros ->. }
  eapply wp_mono; [apply wp_call_any| |].
  - intros ? w' [Ew [h Ec]]. split; [done|by eapply Hk].
  - intros w' [Ew (r & h & Ec)]. split; [done|by eapply Hk].
Qed.

Lemma wp_release e w x : (e_HasOwnership e = true → ∃ q, e_Queue e = Some q ∧ queues w !! q = Some x) →
  wp (release e) (λ _ w', let_go e w w') (let_go e w) w.
Proof.
  intros Hq. unfold release. destruct (e_HasOwnership e) eqn:Ho; cbn [negb].
  2: { apply wp_ret. split; [by destruct w|]. by split. }
  destruct (Hq eq_refl) as (q & E & Hx). apply wp_bind, (wp_some q); [done|].
  apply wp_bind, (wp_get_queue _ x); [done|].
  apply wp_bind. eapply wp_mono; [apply (wp_destroy e); split; [done|by left]| |done].
  intros ? w1 H1. apply wp_bind. destruct (RequiresTimings x (CommandType e)); [|by apply wp_ret, wp_ret].
  apply wp_bind. eapply wp_mono; [apply (wp_destroy e); split; [done|by right; right]| |by intros w2; apply let_go_trans].
  intros ? w2 H2. pose proof (let_go_trans _ _ _ _ H1 H2) as H12.
  eapply wp_mono; [apply (wp_destroy e); split; [done|by right; left]| |by intros w3; apply let_go_trans].
  intros ? w3 H3. apply wp_ret. by eapply let_go_trans.
Qed.

Lemma wp_release_catch e w x : (e_HasOwnership e = true → ∃ q, e_Queue e = Some q ∧ queues w !! q = Some x) →
  wp (λ w, match release e w with (Exc _, w') => (Val UR_RESULT_ERROR_OUT_OF_RESOURCES, w') | o => o end)
    (λ _ w', let_go e w w') (λ _, False) w.
Proof.
  intros Hq. pose proof (wp_release e w x Hq) as Hwp. unfold wp in *.
  destruct (release e w) as [[] w']; try done. by destruct Hwp.
Qed.

(** With its events gone, so is the event. *)
Lemma Inv_let_go h e w w' : Inv w → events w !! h = Some e → let_go e w w' →
  Inv (set_events (delete h) w').
Proof.
  intros Hi He [Ew Hk]. rewrite Ew. change (Inv (set_drv (drv w') (set_events (delete h) w))).
  apply (Inv_keeps (λ _, False) (owned_events e) (set_events (delete h) w));
    [by apply Inv_delete_event|done|done|].
  intros ev r [Ho Hev] Hc.
  assert (Hold : claim w ev r ∧ r ≠ REnd h ∧ r ≠ RStart h ∧ r ≠ RQueued h).
  { destruct Hc as [Hz Hc]. split; [split; [done|]|]; destruct r; cbn in *; try done;
      destruct Hc as (y & [Hne Hy]%lookup_delete_Some & Hr); try (by exists y); split_and!; congruence. }
  destruct Hold as (Hcl & N1 & N2 & N3). pose proof (proj1 Hcl) as Hz.
  pose proof (i_event _ Hi h e He) as Hok. destruct (e_Queue e) as [q|]; [|by destruct Hok as (_ & _ & _ & _ & ?); congruence].
  destruct Hok as (x & _ & Hok).
  destruct Hev as [-> |[-> | ->]].
  - apply N1, (i_claim_fun _ Hi (EvEnd e)); [done|]. split; [done|exists e; split_and!; [done|apply Hok|done]].
  - apply N2, (i_claim_fun _ Hi (EvStart e)); [done|]. split; [done|by exists e].
  - apply N3, (i_claim_fun _ Hi (EvQueued e)); [done|]. split; [done|by exists e].
Qed.

Lemma safe_event_release h w e : Inv w → events w !! h = Some e →
  match e_Queue e with Some q => held w q | None => True end → safe (urEventRelease h) w.
Proof.
  intros Hi He Hheld. unfold safe, urEventRelease, get_event. apply wp_bind, wp_bind, wp_gets, (wp_some e); [done|].
  destruct (e_RefCount e =? 0); [done|]. apply wp_bind, wp_modify. rewrite (set_events_alter _ h e) by done.
  set (e' := mark _ _ _ _ _ _ _). pose proof (i_event _ Hi h e He) as Hev.
  assert (Hi1 : Inv (set_events <[h := e']> w)).
  { apply Inv_mark; [done|done|]. intros Hw c Hc. destruct (e_Queue e) as [q|].
    - destruct Hev as (x & _ & Hok). by apply Hok.
    - destruct Hev as (_ & E & _). rewrite E in Hc. by apply elem_of_nil in Hc. }
  set (w1 := set_events <[h := e']> w) in *.
  assert (He1 : events w1 !! h = Some e') by apply lookup_insert_eq.
  destruct (_ =? 0); [|by apply wp_ret].
  assert (Hx : ∃ x, e_HasOwnership e = true → ∃ q, e_Queue e = Some q ∧ queues w1 !! q = Some x).
  { destruct (e_Queue e) as [q|].
    - destruct Hev as (x & Hx & _). by exists x; exists q.
    - exists (new_queue [] [] 0 0 0 0 true). destruct Hev as (_ & _ & _ & _ & ?). congruence. }
  destruct Hx as [x Hx]. apply wp_bind. eapply wp_mono; [by apply (wp_release_catch e w1 x)| |done].
  intros r w2 Hgo. pose proof (Inv_let_go h e' w1 w2 Hi1 He1 Hgo) as Hi2. apply wp_bind.
  destruct (e_Queue e) as [q|].
  2: { apply wp_ret, wp_bind, wp_modify, wp_ret. exact Hi2. }
  destruct Hheld as (y & Hy & Hn). assert (Hy2 : queues w2 !! q = Some y) by (destruct Hgo as [E _]; by rewrite E).
  apply wp_bind. unfold wp at 1. rewrite (queue_release_runs q w2 y Hy2 Hn).
  apply wp_ret, wp_bind, wp_modify, wp_ret.
  change (Inv (set_queues <[q := add_refs (-1) y]> (set_events (delete h) w2))).
  apply (Inv_core _ q y); [done|done|].
  apply core_refs, (qo_count _ _ _ _ (i_queue _ Hi q y Hy)).
Qed.
(** ** The system *)

(** A queue that a call may use with wait list [evs]: it exists, its 32-bit stream
    counters do not wrap, and the events are recorded or made from native ones. *)
Definition allowed w q (evs : option (list nat)) : Prop :=
  is_Some (queues w !! q) ∧ room w q ∧ waitable_list w evs.

(** The calls that may be made in a state.  Releases do not take the last reference
    of a queue; a native stream is not in use by another queue. *)
Inductive may_call w : ∀ {A}, M D A → Prop :=
  | e_create Devices dev props : dev ≠ 0 → may_call w (urQueueCreate Devices dev props)
  | e_create_native s dev owned : dev ≠ 0 → s ≠ 0 → live_stream (drv w) s → (∀ q, ¬ owns w s q) →
      may_call w (urQueueCreateWithNativeHandle s dev owned)
  | e_native_handle q : allowed w q None → may_call w (urQueueGetNativeHandle q)
  | e_queue_retain q : is_Some (queues w !! q) → may_call w (urQueueRetain q)
  | e_queue_release q : held w q → may_call w (urQueueRelease q)
  | e_event_retain h : is_Some (events w !! h) → may_call w (urEventRetain h)
  | e_event_release h e : events w !! h = Some e →
      match e_Queue e with Some q => held w q | None => True end → may_call w (urEventRelease h)
  | e_event_native ev : may_call w (urEventCreateWithNativeHandle ev)
  | e_barrier q evs b : allowed w q evs → may_call w (urEnqueueEventsWaitWithBarrier std_sort q evs b)
  | e_launch q same dim G r L evs b : allowed w q evs →
      may_call w (enqueueKernelLaunch std_sort q same dim G (Ret r) L evs b)
  | e_fill q ptr n pattern size evs b : allowed w q evs →
      may_call w (urEnqueueUSMFill std_sort q ptr n pattern size evs b)
  | e_memcpy q blocking dst src size evs b : allowed w q evs →
      may_call w (urEnqueueUSMMemcpy std_sort q blocking dst src size evs b)
  | e_timestamp q blocking evs : allowed w q evs →
      may_call w (urEnqueueTimestampRecordingExp std_sort q blocking evs)
  | e_event_wait dev evs : evs ≠ [] → waitable w evs → may_call w (urEventWait std_sort dev evs)
  | e_status h : is_Some (events w !! h) → may_call w (getExecutionStatus h)
  | e_empty q : is_Some (queues w !! q) → may_call w (queue_is_empty q).

(** The calls that ask the null queue of an event made from a native one: barriers
    that wait for such an event, and launches without work items, which are barriers. *)
Inductive asks_null_queue w : ∀ {A}, M D A → Prop :=
  | n_barrier q evs b h e : h ∈ list_of evs → events w !! h = Some e → e_Queue e = None →
      asks_null_queue w (urEnqueueEventsWaitWithBarrier std_sort q evs b)
  | n_launch q same dim G r L evs b h e : enqueue_checks dim same G = inr true →
      h ∈ list_of evs → events w !! h = Some e → e_Queue e = None →
      asks_null_queue w (enqueueKernelLaunch std_sort q same dim G (Ret r) L evs b).

(** A call that returns or throws; a finish only when it succeeds. *)
Inductive step w : world D → Prop :=
  | step_call A (m : M D A) r w' : may_call w m → m w = (r, w') →
      match r with Val _ | Exc _ => True | _ => False end → step w w'
  | step_finish q w' : is_Some (queues w !! q) → urQueueFinish q w = (Val UR_RESULT_SUCCESS, w') → step w w'.

Inductive reachable : world D → Prop :=
  | reach_start d once n : reachable (mkWorld d ∅ ∅ 0 once n [])
  | reach_step w w' : reachable w → step w w' → reachable w'.

Lemma Inv_start d once n : Inv (mkWorld d ∅ ∅ 0 once n []).
Proof.
  split; cbn; try done.
  - intros e [] [_ Hc]; by destruct Hc as (? & ? & _).
  - intros e [] r2 [_ Hc]; by destruct Hc as (? & ? & _).
  - by intros s q (? & ? & _).
  - by intros s q1 q2 (? & ? & _).
  - by intros m ?%elem_of_nil.
Qed.

Lemma safe_wp {A} (m : M D A) w : safe m w → wp m (λ _ w', Inv w') Inv w.
Proof. intros H. eapply wp_mono; [exact H|done|done]. Qed.

(** What calls give: the invariant when they come back, and an answer unless they ask
    a null queue. *)
Definition defined {A} (m : M D A) w : Prop := match (m w).1 with UB | OutOfFuel => False | _ => True end.
Definition gives_Inv {A} (m : M D A) w : Prop :=
  (∃ m', below m m' ∧ wp m' (λ _ w', Inv w') Inv w) ∧ (¬ asks_null_queue w m → defined m w).

Lemma defined_wp {A} (m : M D A) w : wp m (λ _ w', Inv w') Inv w → defined m w.
Proof. unfold wp, defined. by destruct (m w) as [[] w']. Qed.

Lemma gives_wp {A} (m : M D A) w : wp m (λ _ w', Inv w') Inv w → gives_Inv m w.
Proof. intros H. split; [exists m; split; [apply below_refl|done]|intros _; by apply defined_wp]. Qed.

Lemma defined_barrier q evs b w : ready w q evs →
  (∀ h e, h ∈ list_of evs → events w !! h = Some e → e_Queue e ≠ None) →
  defined (urEnqueueEventsWaitWithBarrier std_sort q evs b) w.
Proof. intros Hr Hq. by apply defined_wp, safe_wp, (safe_barrier std_sort event_synchronized q evs b w Hr), asked_queued. Qed.

Lemma below_safe_barrier q evs b w : ready w q evs →
  ∃ m', below (urEnqueueEventsWaitWithBarrier std_sort q evs b) m' ∧ wp m' (λ _ w', Inv w') Inv w.
Proof.
  intros Hr. exists (barrier_asking std_sort asks_any q evs b). split; [apply below_barrier|].
  by apply safe_wp, (safe_barrier std_sort asks_any q evs b w Hr), asked_any.
Qed.

Lemma gives_launch q same dim G r L evs b w : ready w q evs →
  gives_Inv (enqueueKernelLaunch std_sort q same dim G (Ret r) L evs b) w.
Proof.
  intros Hr. destruct (enqueue_checks dim same G) as [e|[|]] eqn:E.
  - apply gives_wp. unfold enqueueKernelLaunch. rewrite E. by apply wp_ret, Hr.
  - split.
    + unfold enqueueKernelLaunch. rewrite E. by apply below_safe_barrier.
    + intros Hn. assert (Hd : defined (urEnqueueEventsWaitWithBarrier std_sort q evs b) w).
      { apply defined_barrier; [done|]. intros h e Hh He Hq. apply Hn. by eapply n_launch. }
      unfold enqueueKernelLaunch. by rewrite E.
  - apply gives_wp, safe_wp, safe_kernel_launch; [done..|]. by rewrite E.
Qed.

Lemma may_call_gives {A} (m : M D A) w : Inv w → may_call w m → gives_Inv m w.
Proof.
  intros Hi He. assert (Hready : ∀ q evs, allowed w q evs → ready w q evs) by (by intros q evs (? & ? & ?)).
  destruct He as [Ds dev props|s dev owned| | q [x Hx]| |h [e He]| | | | | | | |dev evs Hne Hw|h [e He]|q [x Hx]].
  - apply gives_wp, safe_wp. by apply safe_create.
  - by apply gives_wp, safe_create_native.
  - eapply gives_wp, safe_get_native. by apply Hready.
  - apply gives_wp, safe_wp. by eapply safe_queue_retain.
  - apply gives_wp, safe_wp. by apply safe_queue_release.
  - apply gives_wp, safe_wp. by eapply safe_event_retain.
  - apply gives_wp, safe_wp. by eapply safe_event_release.
  - apply gives_wp, safe_wp. by apply safe_event_native.
  - split; [by apply below_safe_barrier, Hready|]. intros Hn. apply defined_barrier; [by apply Hready|].
    intros h e Hh He' Hq. apply Hn. by eapply n_barrier.
  - by apply gives_launch, Hready.
  - apply gives_wp, safe_wp. by apply safe_usm_fill, Hready.
  - apply gives_wp, safe_wp. by apply safe_usm_memcpy, Hready.
  - apply gives_wp, safe_wp. by apply safe_timestamp, Hready.
  - apply gives_wp. eapply wp_mono; [by apply wp_event_wait| |done]. by intros r w' [? _].
  - apply gives_wp. eapply wp_mono; [by eapply wp_status| |done]. intros r w' [Hd _]. by eapply drv_step_Inv.
  - apply gives_wp. eapply wp_mono; [by eapply wp_empty| |done]. by intros r w' [? _].
Qed.

Lemma reachable_Inv w : reachable w → Inv w.
Proof.
  induction 1 as [|w w' _ Hi Hs]; [apply Inv_start|]. destruct Hs as [A m r w' He Er Hr|q w' [x Hx] Er].
  - destruct (may_call_gives m w Hi He) as [(m' & Hb & Hwp) _]. unfold wp in Hwp.
    destruct (Hb w) as [E|E]; rewrite Er in E; [by destruct r|]. rewrite <- E in Hwp.
    destruct r; try done. by destruct Hwp.
  - pose proof (wp_finish q w x Hi Hx) as Hwp. unfold wp in Hwp. rewrite Er in Hwp. by apply Hwp.
Qed.

Lemma ordered_at d h h1 q c ws : ordered d (h ++ HCommand q c ws :: h1) →
  c = length h1 ∧ ∀ c', c' ∈ ws ∨ barred h1 q c' → runs_after d c c'.
Proof.
  induction h as [|n h IH]; cbn; [by intros (-> & ? & _)|]. destruct n; [by intros (_ & _ & ?%IH)|done].
Qed.

(** C10: In every state that calls of any number of queues reach, each command starts
    after the commands that its wait list stands for, and after those that the
    barriers of its queue before it cover, whatever streams they were put on. *)
Theorem commands_ordered w h2 q c ws h1 : reachable w → history w = h2 ++ HCommand q c ws :: h1 →
  c = length h1 ∧ ∀ c', c' ∈ ws ∨ barred h1 q c' → runs_after (drv w) c c'.
Proof. intros Hr E. pose proof (i_order w (reachable_Inv w Hr)) as H. rewrite E in H. by eapply ordered_at. Qed.

(** C8: When urQueueFinish succeeds, or the queue says it is empty, every command that
    was submitted to the queue is done, although only the streams used since the
    last finish were waited for. *)
Theorem finish_waits_for_all w q w' : reachable w → is_Some (queues w !! q) →
  urQueueFinish q w = (Val UR_RESULT_SUCCESS, w') ∨ queue_is_empty q w = (Val (UR_RESULT_SUCCESS, true), w') →
  ∀ c, submitted (history w) q c → finished (drv w') c.
Proof.
  intros Hr%reachable_Inv [x Hx] [E|E].
  - pose proof (wp_finish q w x Hr Hx) as H. unfold wp in H. rewrite E in H. by apply H.
  - pose proof (wp_empty q x w Hr Hx) as H. unfold wp in H. rewrite E in H. by apply H.
Qed.

(** C9: When urEventWait succeeds, the commands that any of its events stands for are
    done, although only the newest event of each stream was waited for; and an event
    whose status is complete stands for commands that are done. *)
Theorem event_wait_waits_for_all w dev evs w' : reachable w →
  (waitable w evs → urEventWait std_sort dev evs w = (Val UR_RESULT_SUCCESS, w') →
    ∀ c, c ∈ covered_by (Some evs) w → finished (drv w') c) ∧
  (∀ h e, events w !! h = Some e → getExecutionStatus h w = (Val UR_EVENT_STATUS_COMPLETE, w') →
    ∀ c, c ∈ e_covers e → finished (drv w') c).
Proof.
  intros Hr%reachable_Inv. split.
  - intros Hw E. destruct evs as [|h l]; [done|].
    pose proof (wp_event_wait dev (h :: l) w Hr ltac:(done) Hw) as H. unfold wp in H. rewrite E in H. by apply H.
  - intros h e He E. pose proof (wp_status h e w Hr He) as H. unfold wp in H. rewrite E in H. by apply H.
Qed.

(** C11: A call that is allowed in a reachable state answers, throws or ends the process:
    it never reads a missing stream, flag, event or queue, and its loops end.  The
    exception is a barrier, or a launch without work items, whose wait list has an event
    made from a native one: it asks a null queue, which is undefined. *)
Theorem calls_defined w {A} (m : M D A) : reachable w →
  (may_call w m → ¬ asks_null_queue w m → match (m w).1 with UB | OutOfFuel => False | _ => True end) ∧
  (∀ q, is_Some (queues w !! q) → match (urQueueFinish q w).1 with Val _ | Die => True | _ => False end).
Proof.
  intros Hr%reachable_Inv. split.
  - intros He. by apply (may_call_gives m w Hr He).
  - intros q [x Hx]. pose proof (wp_finish q w x Hr Hx) as H. unfold wp in H.
    destruct (urQueueFinish q w) as [[] w']; try done. by destruct H.
Qed.
End safety.

(** ** Runs that exist *)

(** [allowed], evaluated. *)
Definition allowed_b {D} (w : world D) (q : nat) (evs : list nat) : bool :=
  match queues w !! q with
  | Some x => (StreamIndex (ComputePool x) + size (ComputePool x) + 1 <? 2 ^ 32) &&
              (StreamIndex (TransferPool x) + 1 <? 2 ^ 32)
  | None => false
  end &&
  forallb (λ h, match events w !! h with Some e => IsRecorded e || IsInterop e | None => false end) evs.

Lemma allowed_check {D} `{!CudaDriver D} (w : world D) q evs : allowed_b w q (list_of evs) = true → allowed w q evs.
Proof.
  unfold allowed_b, allowed, room. intros [Hq Hl]%andb_prop. destruct (queues w !! q) as [x|]; [|done].
  apply andb_prop in Hq as [H1%Z.ltb_lt H2%Z.ltb_lt]. split_and!; [done|by intros ? [= <-]|].
  destruct evs as [l|]; [|done]. intros h Hh. rewrite forallb_forall in Hl.
  specialize (Hl h). destruct (events w !! h) as [e|].
  - exists e. split; [done|]. apply orb_prop, Hl. by apply list_elem_of_In.
  - discriminate Hl. by apply list_elem_of_In.
Qed.

Lemma run_reachable {A} (m : M TestDriver.state A) w a : reachable sort_events w → may_call sort_events w m →
  (m w).1 = Val a → reachable sort_events (run m w).
Proof.
  intros Hr He E. eapply reach_step; [done|]. apply (step_call _ _ A m (Val a)); [done|by apply run_eq|done].
Qed.

Lemma with_copies_reachable : reachable sort_events with_copies.
Proof.
  assert (H0 : reachable sort_events no_failure) by apply reach_start.
  assert (H1 : reachable sort_events with_queue) by (eapply run_reachable; [exact H0|by apply e_create|by vm_compute]).
  assert (H2 : reachable sort_events with_copy).
  { eapply run_reachable; [exact H1|apply e_memcpy, allowed_check; by vm_compute|by vm_compute]. }
  assert (H3 : reachable sort_events with_barrier).
  { eapply run_reachable; [exact H2|apply e_barrier, allowed_check; by vm_compute|by vm_compute]. }
  eapply run_reachable; [exact H3|apply e_memcpy, allowed_check; by vm_compute|by vm_compute].
Qed.

Lemma commands_ordered_witness :
  runs_after (drv with_copies) 2 0 ∧ barred (history with_barrier) 0 0.
Proof.
  assert (Hb : barred (history with_barrier) 0 0).
  { exists [0%nat]. split; vm_compute; left. }
  split; [|exact Hb].
  apply (commands_ordered sort_events with_copies [] 0 2 [0%nat] (history with_barrier)
    with_copies_reachable ltac:(by vm_compute)). by right.
Defined.

Lemma finish_waits_for_all_witness :
  finished (drv (run (urQueueFinish 0) with_copies)) 0 ∧ finished (drv (run (urQueueFinish 0) with_copies)) 2 ∧
  ¬ finished (drv with_copies) 2.
Proof.
  assert (Hq : is_Some (queues with_copies !! 0%nat)) by (apply (allowed_check with_copies 0 None); by vm_compute).
  assert (E : urQueueFinish 0 with_copies = (Val UR_RESULT_SUCCESS, run (urQueueFinish 0) with_copies)).
  { apply run_eq. by vm_compute. }
  pose proof (finish_waits_for_all sort_events with_copies 0 _ with_copies_reachable Hq (or_introl E)) as H.
  split_and!.
  - apply H. exists []. vm_compute. right. right. left.
  - apply H. exists [0%nat]. vm_compute. left.
  - intros Hf. vm_compute in Hf. by apply elem_of_nil in Hf.
Defined.

Lemma event_wait_waits_for_all_witness :
  finished (drv (run (urEventWait sort_events 1 [1%nat; 3%nat]) with_copies)) 0 ∧
  finished (drv (run (urEventWait sort_events 1 [1%nat; 3%nat]) with_copies)) 2.
Proof.
  assert (E : urEventWait sort_events 1 [1%nat; 3%nat] with_copies =
    (Val UR_RESULT_SUCCESS, run (urEventWait sort_events 1 [1%nat; 3%nat]) with_copies)).
  { apply run_eq. by vm_compute. }
  assert (Hw : waitable with_copies [1%nat; 3%nat]).
  { apply (allowed_check with_copies 0 (Some [1%nat; 3%nat])). by vm_compute. }
  pose proof (proj1 (event_wait_waits_for_all sort_events with_copies 1 [1%nat; 3%nat]
    (run (urEventWait sort_events 1 [1%nat; 3%nat]) with_copies) with_copies_reachable) Hw E) as H.
  split; apply H; vm_compute; [left|right; left].
Defined.

Lemma calls_defined_witness :
  let m := urEnqueueUSMFill sort_events 0 4096 4 [1; 2; 3; 4] 64 (Some [1%nat; 3%nat]) true in
  match (m with_copies).1 with UB | OutOfFuel => False | _ => True end.
Proof.
  intros m. assert (He : may_call sort_events with_copies m) by (apply e_fill, allowed_check; by vm_compute).
  apply (proj1 (calls_defined sort_events with_copies m with_copies_reachable) He).
  assert (Hq : map_Forall (λ _ e, e_Queue e ≠ None) (events with_copies)).
  { apply (bool_decide_unpack _). by vm_compute. }
  assert (E : ∀ w' A (m' : M TestDriver.state A), asks_null_queue sort_events w' m' →
    ∃ h e, events w' !! h = Some e ∧ e_Queue e = None).
  { intros w' A m' Hn. by destruct Hn as [q evs b h e|q same dim G r L evs b h e]; exists h, e. }
  intros (h & e & Hh & He')%E. by apply (Hq h e Hh).
Defined.

(** A barrier that waits for an event made from a native one asks its null queue whether
    it has been synchronised. *)
Lemma barrier_asks_null_queue :
  let w := run (urEventCreateWithNativeHandle 77) with_copies in
  events with_copies !! 4%nat = None ∧ e_Queue <$> events w !! 4%nat = Some None ∧
  (urEnqueueEventsWaitWithBarrier sort_events 0 (Some [4%nat]) false w).1 = UB.
Proof. by vm_compute. Qed.

(** ** A finish that fails *)

(** The driver with other failures. *)
Definition set_bad (bad : cu_call → bool) (w : world TestDriver.state) : world TestDriver.state :=
  set_drv (TestDriver.mkState (TestDriver.on_stream (drv w)) (TestDriver.on_event (drv w))
             (TestDriver.done_ (drv w)) (TestDriver.order (drv w)) bad) w.

(** The streams count as synchronised before they are: when synchronising fails, the
    next finish succeeds and the command is not done. *)
Lemma failed_finish_forgets :
  let failing := set_bad (λ c, match c with cuStreamSynchronize _ => true | _ => false end) with_copy in
  let after_failure := set_bad (λ _, false) (run (urQueueFinish 0) failing) in
  (urQueueFinish 0 failing).1 = Val UR_RESULT_ERROR_INVALID_VALUE ∧
  (urQueueFinish 0 after_failure).1 = Val UR_RESULT_SUCCESS ∧
  ¬ finished (drv (run (urQueueFinish 0) after_failure)) 0.
Proof. split_and!; [by vm_compute|by vm_compute|]. intros Hf. vm_compute in Hf. by apply elem_of_nil in Hf. Qed.
