(* ===== verification/CudaHistory.v ===== *)
(** * CudaHistory: what the calls of the CUDA adapter add to the history

    Which parts of the state a call leaves alone, found by instance search; from it
    the entries that each command and barrier adds, and that no call removes any;
    and what a barrier means for the commands after it. *)
From S2P Require Import Prelude CudaFill CudaLaunch CudaQueue CudaOrder.
From S2P Require Import CudaWait CudaCommand CudaCalls CudaSync CudaTestDriver CudaSafety.

Section history.
Context {D : Type} `{!CudaDriver D}.
Implicit Types w : world D.

(** ** Calls that leave a part of the state alone *)

(** The call leaves a part of the state as it is, and throws failures only. *)
Class Keeps {X A : Type} (p : world D → X) (m : M D A) :=
  keeps_part w : p (m w).2 = p w ∧ (m w).1 ≠ Exc UR_RESULT_SUCCESS.

(** Neither the history nor the events. *)
Definition past w : list entry * gmap nat ur_event_handle_t_ := (history w, events w).

#[global] Instance keeps_bind {X A B} (p : world D → X) (m : M D A) (f : A → M D B) :
  Keeps p m → (∀ a, Keeps p (f a)) → Keeps p (m ≫= f).
Proof.
  intros Hm Hf w. unfold mbind, M_bind. destruct (Hm w) as [E N]. destruct (m w) as [[a| | | |] w']; try done.
  - destruct (Hf a w') as [E' N']. cbn in *. by rewrite E'.
  - split; [done|]. cbn in *. congruence.
Qed.

#[global] Instance keeps_ret {X A} (p : world D → X) (a : A) : Keeps p (mret a).
Proof. by intros w. Qed.

#[global] Instance keeps_ub {X A} (p : world D → X) : Keeps p (fail UB : M D A).
Proof. by intros w. Qed.

#[global] Instance keeps_die {X A} (p : world D → X) : Keeps p (fail Die : M D A).
Proof. by intros w. Qed.

#[global] Instance keeps_out_of_fuel {X A} (p : world D → X) : Keeps p (fail OutOfFuel : M D A).
Proof. by intros w. Qed.

Lemma keeps_throw {X A} (p : world D → X) r : r ≠ UR_RESULT_SUCCESS → Keeps p (throw r : M D A).
Proof. intros Hr w. split; [done|]. cbn. congruence. Qed.

#[global] Instance keeps_gets {X A} (p : world D → X) (f : world D → A) : Keeps p (gets f).
Proof. by intros w. Qed.

#[global] Instance keeps_some {X A} (p : world D → X) (o : option A) : Keeps p (some o).
Proof. by destruct o. Qed.

#[global] Instance keeps_catch {X} (p : world D → X) m : Keeps p m → Keeps p (catch m).
Proof. intros Hm w. destruct (Hm w). unfold catch. by destruct (m w) as [[] w']. Qed.

#[global] Instance keeps_catch_with {X A} (p : world D → X) (a : A) m : Keeps p m → Keeps p (catch_with a m).
Proof. intros Hm w. destruct (Hm w). unfold catch_with. by destruct (m w) as [[] w']. Qed.

#[global] Instance keeps_past_history {A} (m : M D A) : Keeps past m → Keeps history m | 100.
Proof. intros Hm w. destruct (Hm w) as [E N]. split; [by injection E|done]. Qed.

#[global] Instance keeps_raw c : Keeps past (raw c).
Proof. intros w. unfold raw. by destruct (cu c (drv w)) as [[r h] d']. Qed.

#[global] Instance keeps_modify_queues f : Keeps past (modify (set_queues f)).
Proof. by intros w. Qed.

#[global] Instance keeps_modify_once b : Keeps past (modify (set_once b)).
Proof. by intros w. Qed.

#[global] Instance keeps_modify_events f : Keeps history (modify (set_events f)).
Proof. by intros w. Qed.

#[global] Instance keeps_take_id : Keeps past (modify take_id).
Proof. by intros w. Qed.

#[global] Instance keeps_get_queue {X} (p : world D → X) q : Keeps p (get_queue q).
Proof. unfold get_queue. apply _. Qed.
#[global] Instance keeps_get_event {X} (p : world D → X) h : Keeps p (get_event h).
Proof. unfold get_event. apply _. Qed.
#[global] Instance keeps_upd_queue q f : Keeps past (upd_queue q f).
Proof. unfold upd_queue. apply _. Qed.
#[global] Instance keeps_upd_event h f : Keeps history (upd_event h f).
Proof. unfold upd_event. apply _. Qed.
Lemma checkErrorUR_failure r e : checkErrorUR r = Some e → e ≠ UR_RESULT_SUCCESS.
Proof. by destruct r; intros [= <-]. Qed.

#[global] Instance keeps_check c : Keeps past (UR_CHECK_ERROR c).
Proof. unfold UR_CHECK_ERROR. apply keeps_bind; [apply _|]. intros r.
  destruct (checkErrorUR _) eqn:E; [|apply _]. apply keeps_throw. by eapply checkErrorUR_failure. Qed.
#[global] Instance keeps_call c : Keeps past (call c).
Proof. unfold call. apply _. Qed.
#[global] Instance keeps_check_ur {X} (p : world D → X) r : Keeps p (check_ur r).
Proof. destruct r; first [apply _ | by apply keeps_throw]. Qed.
#[global] Instance keeps_context dev : Keeps past (ScopedContext dev).
Proof. unfold ScopedContext. destruct (_ =? _); [by apply keeps_throw|apply _]. Qed.

#[global] Instance keeps_if {X A} (p : world D → X) (b : bool) (m1 m2 : M D A) :
  Keeps p m1 → Keeps p m2 → Keeps p (if b then m1 else m2).
Proof. by destruct b. Qed.

#[global] Instance keeps_wait_barrier k q s i : Keeps past (waitForBarrierIfNeeded k q s i).
Proof. unfold waitForBarrierIfNeeded. apply _. Qed.
#[global] Instance keeps_create k q : Keeps past (createStreamIfRoom k q).
Proof. unfold createStreamIfRoom. apply _. Qed.
#[global] Instance keeps_next fuel q : Keeps past (nextCompute fuel q).
Proof. induction fuel as [|fuel IH]; cbn [nextCompute]; cbv zeta; apply _. Qed.
#[global] Instance keeps_next_stream q : Keeps past (getNextComputeStream q).
Proof. unfold getNextComputeStream. apply _. Qed.
#[global] Instance keeps_reuse q l : Keeps past (reuseStream q l).
Proof. induction l as [|h l IH]; cbn [reuseStream]; cbv zeta; apply _. Qed.
#[global] Instance keeps_next_for q l : Keeps past (getNextComputeStreamFor q l).
Proof. unfold getNextComputeStreamFor. apply _. Qed.
#[global] Instance keeps_transfer q : Keeps past (getNextTransferStream q).
Proof. unfold getNextTransferStream. cbv zeta. apply _. Qed.
#[global] Instance keeps_host_stream q : Keeps past (createHostSubmitTimeStream q).
Proof. unfold createHostSubmitTimeStream. apply _. Qed.
#[global] Instance keeps_make ty q s t : Keeps history (makeNative ty q s t).
Proof. unfold makeNative. cbv zeta. apply _. Qed.
#[global] Instance keeps_start h : Keeps history (start h).
Proof. unfold start. apply _. Qed.
#[global] Instance keeps_record h cs : Keeps history (record h cs).
Proof.
  unfold record. apply keeps_bind; [apply _|]. intros e. apply keeps_if; [apply _|].
  destruct (e_Queue e); [|apply _]. apply keeps_bind; [cbv zeta; apply _|].
  intros r. destruct r; apply _.
Qed.
(** Whether there is an event. *)
Definition known (h : nat) w : bool := bool_decide (is_Some (events w !! h)).

#[global] Instance keeps_past_known {A} h (m : M D A) : Keeps past m → Keeps (known h) m | 100.
Proof. intros Hm w. destruct (Hm w) as [E N]. split; [|done]. injection E as _ E. unfold known. by rewrite E. Qed.

#[global] Instance keeps_known_upd h h' f : Keeps (known h) (upd_event h' f).
Proof.
  intros w. split; [|done]. unfold known, upd_event, modify. cbn. apply bool_decide_ext.
  destruct (decide (h = h')) as [->|Hne]; [by rewrite lookup_alter_eq, fmap_is_Some|by rewrite lookup_alter_ne].
Qed.

#[global] Instance keeps_sync_list k q (F : CUstream → M D unit) l : (∀ s, Keeps past (F s)) →
  Keeps past (syncList k q F l).
Proof. intros HF. induction l as [|i l IH]; cbn [syncList]; [apply _|]. destruct k; apply _. Qed.
#[global] Instance keeps_sync b q (F : CUstream → M D unit) : (∀ s, Keeps past (F s)) →
  Keeps past (syncStreams b q F).
Proof. intros HF. unfold syncStreams, syncPool. cbv zeta. apply _. Qed.

(** Lists of events, for any sort. *)
Lemma keeps_latest (F : nat → ur_event_handle_t_ → M D ur_result_t) first s l : (∀ h e, Keeps past (F h e)) →
  Keeps past (latestLoop F first s l).
Proof.
  intros HF. revert first s. induction l as [|[h e] l IH]; intros first s; cbn [latestLoop]; [apply _|].
  apply keeps_if; [apply IH|]. apply keeps_bind; [apply HF|]. intros r. destruct r; first [apply IH|apply _].
Qed.
#[global] Instance keeps_get_events {X} (p : world D → X) l : Keeps p (get_events l).
Proof. induction l as [|h l IH]; cbn [get_events]; apply _. Qed.
#[global] Instance keeps_for_latest std_sort evs (F : nat → ur_event_handle_t_ → M D ur_result_t) :
  (∀ h e, Keeps past (F h e)) → Keeps past (forLatestEvents std_sort evs F).
Proof.
  intros HF. destruct evs as [[|h [|h' l]]|]; cbn [forLatestEvents]; try apply _.
  apply keeps_bind; [apply _|]. intros es. by apply keeps_latest.
Qed.
#[global] Instance keeps_wait_on std_sort q s evs : Keeps past (enqueueEventsWait std_sort q s evs).
Proof. unfold enqueueEventsWait. destruct evs; apply _. Qed.

(** ** What a call adds *)

(** What holds of a result; only failures are thrown. *)
Definition gives {A} (m : M D A) w (Q : A → world D → Prop) : Prop :=
  match m w with
  | (Val a, w') => Q a w'
  | (Exc r, _) => r ≠ UR_RESULT_SUCCESS
  | _ => True
  end.

Lemma gives_ret {A} (a : A) w (Q : A → world D → Prop) : Q a w → gives (mret a) w Q.
Proof. done. Qed.

Lemma gives_modify f w (Q : unit → world D → Prop) : Q tt (f w) → gives (modify f) w Q.
Proof. done. Qed.

Lemma gives_gets {A} (f : world D → A) w (Q : A → world D → Prop) : Q (f w) w → gives (gets f) w Q.
Proof. done. Qed.

Lemma gives_bind {A B} (m : M D A) (f : A → M D B) w Q :
  gives m w (λ a w1, gives (f a) w1 Q) → gives (m ≫= f) w Q.
Proof. unfold gives, mbind, M_bind. by destruct (m w) as [[] w']. Qed.

Lemma gives_mono {A} (m : M D A) w (Q Q' : A → world D → Prop) :
  gives m w Q → (∀ a w', Q a w' → Q' a w') → gives m w Q'.
Proof. unfold gives. destruct (m w) as [[] w']; naive_solver. Qed.

Lemma gives_keeps {X A} (p : world D → X) (m : M D A) `{!Keeps p m} w : gives m w (λ _ w', p w' = p w).
Proof. unfold gives. destruct (keeps_part (m := m) w) as [E N].
  destruct (m w) as [[] w']; try done. cbn in N. congruence. Qed.

(** A step that leaves [p] alone, and the rest. *)
Lemma gives_skip {X A B} (p : world D → X) (m : M D A) (f : A → M D B) w Q `{!Keeps p m} :
  (∀ a w1, p w1 = p w → gives (f a) w1 Q) → gives (m ≫= f) w Q.
Proof. intros H. apply gives_bind. eapply gives_mono; [by apply (gives_keeps p)|]. exact H. Qed.

Lemma gives_catch_with {A} (a : A) m w Q :
  gives m w (λ r w', r.1 = UR_RESULT_SUCCESS → Q r w') →
  gives (catch_with a m) w (λ r w', r.1 = UR_RESULT_SUCCESS → Q r w').
Proof. unfold gives, catch_with. by destruct (m w) as [[] w']. Qed.

(** [n] commands of queue [q] with these waits, numbered [cs]. *)
Definition new_commands (q : nat) (waits : list nat) (n : nat) (h h' : list entry) (cs : list nat) : Prop :=
  length cs = n ∧ h' = reverse ((λ c, HCommand q c waits) <$> cs) ++ h.

(** The event of a call stands for these commands. *)
Definition event_for (o : option nat) (cs : list nat) w : Prop :=
  ∀ h, o = Some h → ∃ e, events w !! h = Some e ∧ IsRecorded e = true ∧ e_covers e = cs.

(** [n] commands of queue [q] were entered, and the event that was answered stands for them. *)
Definition entered (q : nat) (waits : list nat) (n : nat) w (o : option nat) w' : Prop :=
  ∃ cs, new_commands q waits n (history w) (history w') cs ∧ event_for o cs w'.

Lemma gives_submit_all q wks s waits w : gives (submit_all q wks s waits) w
  (λ cs w', new_commands q waits (length wks) (history w) (history w') cs).
Proof.
  revert w. induction wks as [|wk wks IH]; intros w; cbn [submit_all].
  { by apply gives_ret. }
  apply gives_bind. unfold submit_work. apply gives_bind, gives_gets. cbv beta.
  apply (gives_skip past); [apply _|]. intros _ w1 [= E1 _].
  apply gives_bind, gives_modify. cbv beta. apply gives_ret, gives_bind.
  eapply gives_mono; [apply IH|]. cbv beta. intros cs w2 [Hl E]. apply gives_ret.
  split; [cbn; congruence|]. rewrite E. cbn [fmap list_fmap history push_history].
  by rewrite reverse_cons, <- app_assoc, E1.
Qed.

Lemma gives_record h cs w : gives (record h cs) w
  (λ r w', history w' = history w ∧ (r = UR_RESULT_SUCCESS → event_for (Some h) cs w')).
Proof.
  unfold record. apply gives_bind.
  assert (Hg : gives (get_event h) w (λ e w', w' = w ∧ events w !! h = Some e)).
  { unfold gives, get_event, gets, mbind, M_bind. by destruct (events w !! h). }
  eapply gives_mono; [exact Hg|]. intros e w0 [-> He]. clear Hg.
  destruct (IsRecorded e || negb (IsStarted e)); [by apply gives_ret|].
  destruct (e_Queue e) as [q|]; [|by apply gives_ret]. apply gives_bind.
  set (m := catch _). assert (Hm : Keeps history m ∧ Keeps (known h) m) by (split; subst m; cbv zeta; apply _).
  destruct Hm as [Hm1 Hm2]. clearbody m. assert (H : gives m w (λ r w', history w' = history w ∧ known h w' = known h w)).
  { unfold gives. destruct (Hm1 w) as [E N], (Hm2 w) as [E2 _]. destruct (m w) as [[] w']; try done. cbn in *. congruence. }
  eapply gives_mono; [exact H|]. intros r w1 [E Ek]. clear H Hm1 Hm2 m.
  unfold known in Ek. rewrite He, (bool_decide_eq_true_2 _ (mk_is_Some _ _ eq_refl)) in Ek. apply bool_decide_eq_true in Ek as [e1 He1].
  destruct r; try by apply gives_ret. apply gives_bind, gives_modify. cbv beta. apply gives_ret. split; [done|].
  intros _ ? [= <-]. cbn. rewrite lookup_alter_eq, He1. eexists. split; [done|]. by cbn.
Qed.

Lemma gives_guard {A} h (m : M D A) w Q : gives m w Q → gives (guard_event h m) w Q.
Proof. unfold gives, guard_event. by destruct (m w) as [[] w']. Qed.

Lemma gives_with_event b ty q s t (body : M D (list nat)) (last : M D unit) w (P : list entry → list nat → Prop) :
  Keeps past last → (∀ w1, history w1 = history w → gives body w1 (λ cs w', P (history w') cs)) →
  gives (with_event b ty q s t body last) w (λ o w', ∃ cs, P (history w') cs ∧ event_for o cs w').
Proof.
  intros Hl Hb. unfold with_event.
  assert (Hlast : ∀ w1 (o : option nat) cs, P (history w1) cs → event_for o cs w1 →
    gives (last;; mret o) w1 (λ o w', ∃ cs, P (history w') cs ∧ event_for o cs w')).
  { intros w1 o cs H He. apply (gives_skip past); [apply _|]. intros _ w2 [= E1 E2]. apply gives_ret.
    exists cs. unfold event_for. by rewrite E1, E2. }
  destruct b.
  2: { apply gives_bind. eapply gives_mono; [by apply Hb|]. intros cs w1 H. by apply (Hlast w1 None cs). }
  apply (gives_skip history); [apply _|]. intros h w1 E1. apply gives_guard.
  apply (gives_skip history); [apply _|]. intros r w2 E2.
  apply (gives_skip history); [apply _|]. intros _ w3 E3.
  apply gives_bind. eapply gives_mono; [apply Hb; congruence|]. intros cs w4 H.
  apply gives_bind. eapply gives_mono; [apply gives_record|]. intros r' w5 [E5 He].
  assert (Hr : gives (check_ur r') w5 (λ _ w', w' = w5 ∧ r' = UR_RESULT_SUCCESS)) by (by destruct r').
  apply gives_bind. eapply gives_mono; [exact Hr|]. intros _ w6 [-> ->].
  apply (Hlast w5 (Some h) cs); [by rewrite E5|by apply He].
Qed.

Lemma covered_past evs w w' : past w' = past w → covered_by evs w' = covered_by evs w.
Proof. intros [= _ E]. unfold covered_by. by rewrite E. Qed.

(** The event and the work of a command. *)
Lemma gives_work b ty q s t wks waits last w : Keeps past last →
  gives (with_event b ty q s t (submit_all q wks s waits) last) w (λ o w', entered q waits (length wks) w o w').
Proof.
  intros Hl. apply (gives_with_event _ _ _ _ _ _ _ _ (new_commands q waits (length wks) (history w))); [done|].
  intros w1 <-. apply gives_submit_all.
Qed.

(** A command from the selection of its stream on. *)
Lemma gives_command std_sort q b ty evs (sel : M D (CUstream * option Z)) wks last w :
  Keeps past sel → Keeps past last →
  gives (st ← sel; let '(CuStream, Token) := st in
         r ← enqueueEventsWait std_sort q CuStream evs; check_ur r;;
         waits ← gets (covered_by evs);
         o ← with_event b ty q CuStream Token (submit_all q wks CuStream waits) last;
         mret (UR_RESULT_SUCCESS, o)) w
    (λ r w', entered q (covered_by evs w) (length wks) w r.2 w').
Proof.
  intros Hsel Hlast. apply (gives_skip past); [apply _|]. intros [s t] w1 E1.
  apply (gives_skip past); [apply _|]. intros r w2 E2.
  apply (gives_skip past); [apply _|]. intros _ w3 E3. assert (E : past w3 = past w) by congruence.
  apply gives_bind, gives_gets. cbv beta. rewrite (covered_past evs w w3 E). injection E as Eh _.
  unfold entered. rewrite <- Eh. apply gives_bind. eapply gives_mono; [by apply gives_work|].
  intros o w5 H. exact H.
Qed.

#[global] Instance keeps_barrier_visit t s s' : Keeps past (barrier_visit t s s').
Proof. unfold barrier_visit. apply _. Qed.
#[global] Instance keeps_synchronized e : Keeps past (event_synchronized e).
Proof. unfold event_synchronized. destruct (e_Queue e); apply _. Qed.
#[global] Instance keeps_barrier_wait s e : Keeps past (barrier_wait event_synchronized s e).
Proof. unfold barrier_wait. apply keeps_bind; [apply _|]. intros []; apply _. Qed.
#[global] Instance keeps_barrier_waits std_sort evs q s : Keeps past (barrier_waits std_sort event_synchronized evs q s).
Proof. unfold barrier_waits. destruct (list_of evs); apply _. Qed.

Lemma gives_barrier std_sort q evs b w : gives (urEnqueueEventsWaitWithBarrier std_sort q evs b) w
  (λ r w', r.1 = UR_RESULT_SUCCESS → history w' = HBarrier q (barrier_covers evs q w) :: history w).
Proof.
  apply gives_catch_with, (gives_skip past); [apply _|]. intros x w1 E1.
  apply (gives_skip past); [apply _|]. intros _ w2 E2.
  apply (gives_skip past); [apply _|]. intros [s t] w3 E3.
  apply (gives_skip past); [apply _|]. intros y w4 E4.
  apply (gives_skip past); [apply _|]. intros _ w5 E5.
  change (gives (barrier_waits std_sort event_synchronized evs q s;;
    covers ← gets (barrier_covers evs q);
    x ← get_queue q;
    call (cuEventRecord (BarrierEvent x) s);;
    upd_queue q (λ x, on_pool transfer (set_applied (λ l, replicate (length l) false))
                        (on_pool compute (set_applied (λ l, replicate (length l) false)) x));;
    modify (push_history (HBarrier q covers));;
    (if b then
       h ← makeNative UR_COMMAND_EVENTS_WAIT_WITH_BARRIER q s t;
       r ← start h; check_ur r;;
       r ← record h covers; check_ur r;;
       mret (UR_RESULT_SUCCESS, Some h)
     else mret (UR_RESULT_SUCCESS, None))) w5
    (λ r w', r.1 = UR_RESULT_SUCCESS → history w' = HBarrier q (barrier_covers evs q w) :: history w)).
  apply (gives_skip past); [apply _|]. intros _ w6 E6.
  apply gives_bind, gives_gets. cbv beta. assert (E : past w6 = past w) by congruence.
  replace (barrier_covers evs q w6) with (barrier_covers evs q w).
  2: { injection E as Eh Ee. unfold barrier_covers, covered_by. by rewrite Eh, Ee. }
  injection E as Eh _.
  apply (gives_skip history); [apply _|]. intros x1 w7 E7.
  apply (gives_skip history); [apply _|]. intros _ w8 E8.
  apply (gives_skip history); [apply _|]. intros _ w9 E9.
  apply gives_bind, gives_modify. cbv beta. assert (E : history (push_history (HBarrier q (barrier_covers evs q w)) w9) =
    HBarrier q (barrier_covers evs q w) :: history w) by (cbn; congruence). destruct b; [|by intros _].
  apply (gives_skip history); [apply _|]. intros h v1 V1.
  apply (gives_skip history); [apply _|]. intros r v2 V2.
  apply (gives_skip history); [apply _|]. intros _ v3 V3.
  apply (gives_skip history); [apply _|]. intros r' v4 V4.
  apply (gives_skip history); [apply _|]. intros _ v5 V5. apply gives_ret. intros _. congruence.
Qed.

Lemma covers_submitted h q c : submitted h q c → c ∈ omap (λ n, match n with
  | HCommand q' c _ => if decide (q' = q) then Some c else None
  | _ => None end) h.
Proof. intros (ws & Hin). apply list_elem_of_omap. eexists. split; [exact Hin|]. cbn. by rewrite decide_True. Qed.

Lemma history_launch std_sort q same dim G p L evs b w : enqueue_checks dim same G = inr false →
  gives (enqueueKernelLaunch std_sort q same dim G (Ret (inr p)) L evs b) w
    (λ r w', r.1 = UR_RESULT_SUCCESS → entered q (covered_by evs w) 1 w r.2 w').
Proof.
  intros Hc. unfold enqueueKernelLaunch. rewrite Hc.
  apply gives_catch_with, (gives_skip past); [apply _|]. intros x w1 E1.
  apply (gives_skip past); [apply _|]. intros _ w2 E2. assert (E : past w2 = past w) by congruence.
  rewrite <- (covered_past evs w w2 E). injection E as Eh _. unfold entered. rewrite <- Eh.
  eapply gives_mono; [apply gives_command; apply _|]. by intros r w' H _.
Qed.

Lemma gives_fill std_sort q ptr n pattern size evs b w :
  gives (urEnqueueUSMFill std_sort q ptr n pattern size evs b) w
    (λ r w', r.1 = UR_RESULT_SUCCESS →
      entered q (covered_by evs w) (length (fill_work ptr n pattern size)) w r.2 w').
Proof.
  apply gives_catch_with, (gives_skip past); [apply _|]. intros x w1 E1.
  apply (gives_skip past); [apply _|]. intros _ w2 E2. assert (E : past w2 = past w) by congruence.
  rewrite <- (covered_past evs w w2 E). injection E as Eh _. unfold entered. rewrite <- Eh.
  eapply gives_mono; [apply gives_command; apply _|]. by intros r w' H _.
Qed.

Lemma gives_memcpy std_sort q blocking dst src size evs b w :
  gives (urEnqueueUSMMemcpy std_sort q blocking dst src size evs b) w
    (λ r w', r.1 = UR_RESULT_SUCCESS → entered q (covered_by evs w) 1 w r.2 w').
Proof.
  apply gives_catch_with, (gives_skip past); [apply _|]. intros x w1 E1.
  apply (gives_skip past); [apply _|]. intros _ w2 E2.
  apply (gives_skip past); [apply _|]. intros s w3 E3.
  apply (gives_skip past); [apply _|]. intros r w4 E4. assert (E : past w4 = past w) by congruence.
  apply gives_bind, gives_gets. cbv beta. rewrite (covered_past evs w w4 E). injection E as Eh _.
  unfold entered. rewrite <- Eh. apply gives_bind.
  eapply gives_mono; [apply (gives_work _ _ _ _ _ [Memcpy dst src size]); apply _|].
  cbv beta. intros o w5 H. apply gives_ret. cbn. by intros ->.
Qed.

(** ** The history only grows *)

Definition extends w w' : Prop := ∃ l, history w' = l ++ history w.

#[global] Instance extends_preorder : PreOrder extends.
Proof.
  split; [by exists []|]. intros w1 w2 w3 [l1 E1] [l2 E2]. exists (l2 ++ l1). by rewrite E2, E1, app_assoc.
Qed.

Class Extends {A : Type} (m : M D A) := extends_after w : extends w (m w).2.

#[global] Instance extends_bind {A B} (m : M D A) (f : A → M D B) :
  Extends m → (∀ a, Extends (f a)) → Extends (m ≫= f).
Proof.
  intros Hm Hf w. specialize (Hm w). unfold mbind, M_bind. destruct (m w) as [[a| | | |] w']; try done.
  etrans; [exact Hm|apply Hf].
Qed.

#[global] Instance extends_keeps {A} (m : M D A) : Keeps history m → Extends m | 100.
Proof. intros Hm w. exists []. by destruct (Hm w). Qed.

#[global] Instance extends_fail {A} r : Extends (fail r : M D A).
Proof. by intros w; exists []. Qed.

#[global] Instance extends_throw {A} r : Extends (throw r : M D A).
Proof. apply extends_fail. Qed.

#[global] Instance extends_push n : Extends (modify (push_history n)).
Proof. intros w. by exists [n]. Qed.

#[global] Instance extends_catch m : Extends m → Extends (catch m).
Proof. intros Hm w. specialize (Hm w). unfold catch. by destruct (m w) as [[] w']. Qed.

#[global] Instance extends_catch_with {A} (a : A) m : Extends m → Extends (catch_with a m).
Proof. intros Hm w. specialize (Hm w). unfold catch_with. by destruct (m w) as [[] w']. Qed.

Lemma drop_event_history h w : history (drop_event h w) = history w.
Proof. unfold drop_event. destruct (events w !! h) as [e|]; [|done]. by destruct (e_Queue e). Qed.

#[global] Instance extends_guard {A} h (m : M D A) : Extends m → Extends (guard_event h m).
Proof.
  intros Hm w. specialize (Hm w). unfold guard_event. destruct (m w) as [[] w']; try done.
  destruct Hm as [l E]. exists l. rewrite <- E. apply drop_event_history.
Qed.

#[global] Instance extends_if {A} (b : bool) (m1 m2 : M D A) : Extends m1 → Extends m2 → Extends (if b then m1 else m2).
Proof. by destruct b. Qed.

#[global] Instance extends_modify_queues f : Extends (modify (set_queues f)).
Proof. intros w. by exists []. Qed.

#[global] Instance extends_submit_all q wks s waits : Extends (submit_all q wks s waits).
Proof. induction wks as [|wk wks IH]; cbn [submit_all]; [apply _|]. unfold submit_work. apply _. Qed.

#[global] Instance extends_with_event b ty q s t (body : M D (list nat)) last : Extends body → Extends last →
  Extends (with_event b ty q s t body last).
Proof. intros Hb Hl. unfold with_event. apply _. Qed.

#[global] Instance extends_barrier std_sort q evs b : Extends (urEnqueueEventsWaitWithBarrier std_sort q evs b).
Proof.
  apply extends_catch_with.
  apply extends_bind; [apply _|]. intros x. apply extends_bind; [apply _|]. intros _.
  apply extends_bind; [apply _|]. intros [s t]. apply extends_bind; [apply _|]. intros y.
  apply extends_bind; [apply _|]. intros _.
  apply extends_bind; [|apply _]. apply extends_keeps, keeps_past_history.
  change (Keeps past (barrier_waits std_sort event_synchronized evs q s)). apply _.
Qed.

#[global] Instance extends_command std_sort q b ty evs (sel : M D (CUstream * option Z)) body last :
  Extends sel → (∀ s waits, Extends (body s waits)) → Extends last →
  Extends (st ← sel; let '(CuStream, Token) := st in
           r ← enqueueEventsWait std_sort q CuStream evs; check_ur r;;
           waits ← gets (covered_by evs);
           o ← with_event b ty q CuStream Token (body CuStream waits) last;
           mret (UR_RESULT_SUCCESS, o)).
Proof. intros Hs Hb Hl. apply extends_bind; [done|]. intros [s t]. apply _. Qed.

#[global] Instance extends_launch std_sort q same dim G params L evs b :
  Extends (enqueueKernelLaunch std_sort q same dim G params L evs b).
Proof.
  unfold enqueueKernelLaunch. destruct (enqueue_checks _ _ _) as [|[]]; [apply _|apply _|].
  destruct params as [[]| |]; apply _.
Qed.

#[global] Instance extends_usm_fill std_sort q ptr n pattern size evs b :
  Extends (urEnqueueUSMFill std_sort q ptr n pattern size evs b).
Proof. unfold urEnqueueUSMFill. apply _. Qed.

#[global] Instance extends_memcpy std_sort q blocking dst src size evs b :
  Extends (urEnqueueUSMMemcpy std_sort q blocking dst src size evs b).
Proof. unfold urEnqueueUSMMemcpy. apply _. Qed.

#[global] Instance extends_timestamp std_sort q blocking evs : Extends (urEnqueueTimestampRecordingExp std_sort q blocking evs).
Proof. unfold urEnqueueTimestampRecordingExp. apply _. Qed.

#[global] Instance keeps_for_each F l : (∀ s, Keeps past (F s)) → Keeps past (forEach F l : M D unit).
Proof. intros HF. induction l as [|s l IH]; cbn [forEach]; apply _. Qed.
#[global] Instance keeps_for_each_stream q (F : CUstream → M D unit) : (∀ s, Keeps past (F s)) → Keeps past (forEachStream q F).
Proof. intros HF. unfold forEachStream. apply _. Qed.
#[global] Instance keeps_queue_release q : Keeps past (urQueueRelease q).
Proof. unfold urQueueRelease. apply _. Qed.
#[global] Instance keeps_release e : Keeps past (release e).
Proof. unfold release. apply _. Qed.
#[global] Instance extends_queue_create Devices dev props : Extends (urQueueCreate Devices dev props : M D _).
Proof. unfold urQueueCreate, new_queue_in. cbv zeta. apply _. Qed.
#[global] Instance extends_queue_native s dev owned : Extends (urQueueCreateWithNativeHandle s dev owned : M D _).
Proof. unfold urQueueCreateWithNativeHandle, new_queue_in. apply _. Qed.
#[global] Instance keeps_native_handle q : Keeps past (urQueueGetNativeHandle q).
Proof. unfold urQueueGetNativeHandle. apply _. Qed.
#[global] Instance keeps_queue_retain q : Keeps past (urQueueRetain q).
Proof. unfold urQueueRetain. apply _. Qed.
#[global] Instance keeps_event_retain h : Keeps history (urEventRetain h).
Proof. unfold urEventRetain. cbv zeta. apply _. Qed.
#[global] Instance keeps_event_native ev : Keeps history (urEventCreateWithNativeHandle ev : M D _).
Proof. unfold urEventCreateWithNativeHandle. apply _. Qed.
#[global] Instance keeps_event_wait h : Keeps history (wait h).
Proof. unfold wait. apply _. Qed.

Lemma release_caught_keeps e : Keeps history
  (λ w : world D, match release e w with (Exc _, w') => (Val UR_RESULT_ERROR_OUT_OF_RESOURCES, w') | o => o end).
Proof. intros w. destruct (keeps_part (p := history) (m := release e) w). by destruct (release e w) as [[] w']. Qed.

#[global] Instance extends_event_release h : Extends (urEventRelease h : M D _).
Proof.
  unfold urEventRelease. apply extends_bind; [apply _|]. intros e. cbv zeta. apply extends_if; [apply _|].
  apply extends_bind; [apply _|]. intros _. apply extends_if; [|apply _].
  apply extends_bind; [apply extends_keeps, release_caught_keeps|]. intros r. destruct (e_Queue e); apply _.
Qed.

#[global] Instance extends_event_wait std_sort dev evs : Extends (urEventWait std_sort dev evs).
Proof.
  unfold urEventWait. apply extends_catch, extends_bind; [destruct evs; apply _|]. intros _.
  apply extends_bind; [apply _|]. intros _.
  assert (Hloop : ∀ l first s, Extends (latestLoop (λ h _, wait h) first s l)).
  { induction l as [|[h e] l IH]; intros first s; cbn [latestLoop]; [apply _|].
    apply extends_if; [apply _|]. apply extends_bind; [apply _|]. intros []; apply _. }
  destruct evs as [|h [|h' l]]; cbn [forLatestEvents]; apply _.
Qed.

#[global] Instance keeps_status h : Keeps past (getExecutionStatus h).
Proof. unfold getExecutionStatus, isCompleted. apply _. Qed.

#[global] Instance extends_empty q : Extends (queue_is_empty q).
Proof.
  unfold queue_is_empty, allOf. set (F := λ S : CUstream, _).
  assert (HF : ∀ s, Extends (F s)).
  { intros s. subst F. cbv beta. apply extends_bind; [apply _|]. intros r.
    destruct r.1; try apply _; cbn [checkErrorUR]; apply _. }
  clearbody F. assert (Hall : ∀ l, Extends (all_of F l)) by (induction l; cbn [all_of]; apply _).
  apply _.
Qed.

#[global] Instance extends_finish q : Extends (urQueueFinish q).
Proof. unfold urQueueFinish. apply _. Qed.
End history.

(** ** Barriers, from the calls' point of view *)

Section barriers.
Context {D : Type} `{!CudaDriver D, !CudaDriverLaws D}.
Context (std_sort : list (nat * ur_event_handle_t_) → list (nat * ur_event_handle_t_)).
Context `{!SortsEvents std_sort}.
Implicit Types w : world D.

(** A call that submits [n] commands to queue [q] with a wait list. *)
Inductive command (q : nat) (evs : option (list nat)) : nat → M D (ur_result_t * option nat) → Prop :=
  | command_launch same dim G p L b : enqueue_checks dim same G = inr false →
      command q evs 1 (enqueueKernelLaunch std_sort q same dim G (Ret (inr p)) L evs b)
  | command_fill ptr n pattern size b :
      command q evs (length (fill_work ptr n pattern size)) (urEnqueueUSMFill std_sort q ptr n pattern size evs b)
  | command_memcpy blocking dst src size b :
      command q evs 1 (urEnqueueUSMMemcpy std_sort q blocking dst src size evs b).

Lemma command_call q evs n m w : command q evs n m → allowed w q evs → may_call std_sort w m.
Proof. intros [] Ha; by constructor. Qed.

Lemma command_entered q evs n m w o w' : command q evs n m → m w = (Val (UR_RESULT_SUCCESS, o), w') →
  entered q (covered_by evs w) n w o w'.
Proof.
  intros Hc E. destruct Hc as [same dim G p L b Hc|ptr n pattern size b|blocking dst src size b].
  - pose proof (history_launch std_sort q same dim G p L evs b w Hc) as H. unfold gives in H. rewrite E in H. by apply H.
  - pose proof (gives_fill std_sort q ptr n pattern size evs b w) as H. unfold gives in H. rewrite E in H. by apply H.
  - pose proof (gives_memcpy std_sort q blocking dst src size evs b w) as H. unfold gives in H. rewrite E in H. by apply H.
Qed.

Lemma step_extends w w' : step std_sort w w' → extends w w'.
Proof.
  assert (Hm : ∀ A (m : M D A) r w', Extends m → m w = (r, w') → extends w w').
  { intros A m r v Hm E. specialize (Hm w). by rewrite E in Hm. }
  intros [A m r w1 Hc E _|q w1 _ E]; eapply Hm; try exact E; [|apply _]. destruct Hc; apply _.
Qed.

Lemma steps_reach w w' : reachable std_sort w → rtc (step std_sort) w w' → reachable std_sort w' ∧ extends w w'.
Proof.
  intros Hr H. induction H as [w|w w1 w2 Hs _ IH]; [by split|].
  destruct IH as [Hr2 He]; [by eapply reach_step|]. split; [done|].
  etrans; [by eapply step_extends|done].
Qed.

Lemma extends_submitted w w' q c : extends w w' → submitted (history w) q c → submitted (history w') q c.
Proof. intros [l E] (ws & H). exists ws. rewrite E. apply elem_of_app. by right. Qed.

Lemma extends_barred w w' q c : extends w w' → barred (history w) q c → barred (history w') q c.
Proof. intros [l E] (cs & H & Hc). exists cs. rewrite E. split; [apply elem_of_app; by right|done]. Qed.

(** What a barrier with this wait list orders. *)
Definition ordered_by_barrier (q : nat) (evs : option (list nat)) w (c : nat) : Prop :=
  match list_of evs with [] => submitted (history w) q c | _ => c ∈ covered_by evs w end.

Lemma barrier_bars q evs b w o w' : urEnqueueEventsWaitWithBarrier std_sort q evs b w = (Val (UR_RESULT_SUCCESS, o), w') →
  ∀ c, ordered_by_barrier q evs w c → barred (history w') q c.
Proof.
  intros E c Hc. pose proof (gives_barrier std_sort q evs b w) as H. unfold gives in H. rewrite E in H.
  exists (barrier_covers evs q w). rewrite H by done. split; [left|]. unfold ordered_by_barrier, barrier_covers in *.
  destruct (list_of evs); [by apply covers_submitted|done].
Qed.

(** C1: A barrier, then any calls, then a command: the command starts after all that was
    submitted to the queue before the barrier (with a wait list, after what the list
    stands for) and after its own wait list, and its event stands for it. *)
Theorem barrier_orders_later w1 w2 w3 w4 q evs b o evs' n m o' : reachable std_sort w1 → allowed w1 q evs →
  urEnqueueEventsWaitWithBarrier std_sort q evs b w1 = (Val (UR_RESULT_SUCCESS, o), w2) →
  rtc (step std_sort) w2 w3 → allowed w3 q evs' → command q evs' n m → m w3 = (Val (UR_RESULT_SUCCESS, o'), w4) →
  ∃ cs, new_commands q (covered_by evs' w3) n (history w3) (history w4) cs ∧ event_for o' cs w4 ∧
    ∀ c, c ∈ cs → ∀ c', c' ∈ covered_by evs' w3 ∨ ordered_by_barrier q evs w1 c' → runs_after (drv w4) c c'.
Proof.
  intros Hr1 Ha1 Eb Hs Ha3 Hc Em.
  assert (Hr2 : reachable std_sort w2).
  { eapply reach_step; [exact Hr1|]. eapply step_call; [by apply e_barrier|exact Eb|done]. }
  destruct (steps_reach w2 w3 Hr2 Hs) as [Hr3 He].
  assert (Hr4 : reachable std_sort w4).
  { eapply reach_step; [exact Hr3|]. eapply step_call; [by eapply command_call|exact Em|done]. }
  destruct (command_entered _ _ _ _ _ _ _ Hc Em) as (cs & Hn & Hev). exists cs. split_and!; [done|done|].
  intros c Hin c' Hc'. pose proof (i_order w4 (reachable_Inv std_sort w4 Hr4)) as Ho. destruct Hn as [_ E]. rewrite E in Ho.
  assert (Hl : HCommand q c (covered_by evs' w3) ∈ reverse ((λ c, HCommand q c (covered_by evs' w3)) <$> cs)).
  { apply elem_of_reverse, list_elem_of_fmap. by exists c. }
  apply list_elem_of_split in Hl as (l1 & l2 & El). rewrite El, <- app_assoc in Ho. cbn in Ho.
  apply ordered_at in Ho as [_ Ho]. apply Ho. destruct Hc' as [Hc'|Hc']; [by left|right].
  destruct (extends_barred w2 w3 q c' He (barrier_bars q evs b w1 o w2 Eb c' Hc')) as (ds & Hd & Hcd).
  exists ds. split; [apply elem_of_app; by right|done].
Qed.
End barriers.

(** The second copy starts after the first, on another stream. *)
Lemma barrier_orders_later_witness :
  runs_after (drv with_copies) 2 0 ∧
  event_for (Some 3%nat) [2%nat] with_copies ∧ history with_copies = HCommand 0 2 [0%nat] :: history with_barrier.
Proof.
  pose proof (barrier_orders_later sort_events with_copy with_barrier with_barrier with_copies 0 None true (Some 2%nat)
    (Some [1%nat]) 1 (urEnqueueUSMMemcpy sort_events 0 false 4096 8192 16 (Some [1%nat]) true) (Some 3%nat)) as H.
  destruct H as (cs & [Hl Hh] & He & Hord).
  - eapply run_reachable; [|apply e_memcpy, allowed_check; by vm_compute|by vm_compute].
    eapply run_reachable; [apply reach_start|by apply e_create|by vm_compute].
  - apply allowed_check. by vm_compute.
  - apply with_barrier_runs.
  - apply rtc_refl.
  - apply allowed_check. by vm_compute.
  - apply command_memcpy.
  - apply with_copies_runs.
  - destruct cs as [|c [|? ?]]; [discriminate Hl| |discriminate Hl].
    assert (Ec : c = 2%nat) by (vm_compute in Hh; by injection Hh).
    subst c. split_and!; [|exact He|exact Hh].
    apply (Hord 2%nat); [apply list_elem_of_singleton; reflexivity|]. right. exists []. vm_compute. left.
Defined.
