(* ===== verification/Effects.v ===== *)
(** * Effects: calls that change a state, and bytes in memory

    The monad of calls that return, throw or are undefined, with a program logic
    for it, and a memory of blocks with pointers into them.  The components that
    keep buffers share both. *)
From S2P Require Import Prelude UrUtil.

(** ** Calls *)

(** A call on the state [W]. *)
Definition eff (W A : Type) := W → outcome A * W.

#[global] Instance eff_ret W : MRet (eff W) := λ A a w, (Ret a, w).
#[global] Instance eff_bind W : MBind (eff W) := λ A B f m w,
  match m w with
  | (Ret a, w') => f a w'
  | (Throw e, w') => (Throw e, w')
  | (Undef, w') => (Undef, w')
  end.

Section calls.
Context {W : Type}.

Definition throw {A} (r : ur_result_t) : eff W A := λ w, (Throw (Exn_ur r), w).
Definition undef {A} : eff W A := λ w, (Undef, w).
Definition gets {A} (f : W → A) : eff W A := λ w, (Ret (f w), w).
Definition modify (f : W → W) : eff W unit := λ w, (Ret tt, f w).
Definition some {A} (o : option A) : eff W A := match o with Some a => mret a | None => undef end.
Definition guard_ur (b : bool) (r : ur_result_t) : eff W unit := if b then mret tt else throw r.

(** An entry point. *)
Definition catch (m : eff W unit) : eff W ur_result_t := λ w,
  match m w with
  | (Ret _, w') => (Ret UR_RESULT_SUCCESS, w')
  | (Throw e, w') => (Ret (exceptionToResult (Some e)), w')
  | (Undef, w') => (Undef, w')
  end.

(** Clean-up when an exception leaves [m]. *)
Definition unwind {A} (cleanup : eff W unit) (m : eff W A) : eff W A := λ w,
  match m w with
  | (Throw e, w') => match cleanup w' with (Undef, w'') => (Undef, w'') | (_, w'') => (Throw e, w'') end
  | o => o
  end.

(** A result that the caller drops. *)
Definition ignore_result (m : eff W unit) : eff W unit := λ w,
  match m w with (Throw _, w') => (Ret tt, w') | o => o end.

(** ** What a call does *)

(** [Q] of a returned value, [E] when it throws; never undefined. *)
Definition runs {A} (m : eff W A) (Q : A → W → Prop) (E : W → Prop) (w : W) : Prop :=
  match m w with (Ret a, w') => Q a w' | (Throw _, w') => E w' | (Undef, _) => False end.

(** Calls that do not throw. *)
Definition no_throw {A} (m : eff W A) (w : W) : Prop :=
  match m w with (Throw _, _) => False | _ => True end.
End calls.

(** ** Memory *)

Abbreviation memory := (gmap nat (list Z)).

(** A pointer: a block and an offset in bytes; null is [None]. *)
Record ptr := Ptr { blk : nat; off : Z }.

#[export] Instance ptr_eq_dec : EqDecision ptr.
Proof. solve_decision. Defined.

Definition ptr_add (p : ptr) (n : Z) : ptr := Ptr (blk p) (off p + n).

(** [n] bytes from [o] on, if they are there; and their replacement. *)
Definition slice (l : list Z) (o n : Z) : option (list Z) :=
  if (0 <=? o) && (0 <=? n) && (o + n <=? Z.of_nat (length l))
  then Some (take (Z.to_nat n) (drop (Z.to_nat o) l)) else None.
Definition splice (l : list Z) (o : Z) (bs : list Z) : option (list Z) :=
  if (0 <=? o) && (o + Z.of_nat (length bs) <=? Z.of_nat (length l))
  then Some (take (Z.to_nat o) l ++ bs ++ drop (Z.to_nat o + length bs) l) else None.

Definition read_bytes (m : memory) (p : ptr) (n : Z) : option (list Z) := l ← m !! blk p; slice l (off p) n.
Definition write_bytes (m : memory) (p : ptr) (bs : list Z) : option memory :=
  l ← m !! blk p; l' ← splice l (off p) bs; Some (<[blk p := l']> m).

Definition ptrs_apart (p : ptr) (n : Z) (q : ptr) (k : Z) : Prop :=
  blk p ≠ blk q ∨ off p + n ≤ off q ∨ off q + k ≤ off p.

(** Blocks keep their lengths. *)
Definition same_shape (m m' : memory) : Prop := ∀ b, length <$> m !! b = length <$> m' !! b.

(** ** The logic of calls *)

Section logic.
Context {W : Type}.
Implicit Types w : W.

Lemma runs_ret {A} (a : A) (Q : A → W → Prop) E w : Q a w → runs (mret a) Q E w.
Proof. done. Qed.

Lemma runs_bind {A B} (m : eff W A) (f : A → eff W B) Q E w :
  runs m (λ a w', runs (f a) Q E w') E w → runs (m ≫= f) Q E w.
Proof. unfold runs, mbind, eff_bind. by destruct (m w) as [[] w']. Qed.

Lemma runs_assoc {A B C} (m : eff W A) (f : A → eff W B) (g : B → eff W C) Q E w :
  runs ((m ≫= f) ≫= g) Q E w → runs (m ≫= λ a, f a ≫= g) Q E w.
Proof. unfold runs, mbind, eff_bind. by destruct (m w) as [[] w']. Qed.

Lemma runs_mono {A} (m : eff W A) (Q Q' : A → W → Prop) (E E' : W → Prop) w :
  runs m Q E w → (∀ a w', Q a w' → Q' a w') → (∀ w', E w' → E' w') → runs m Q' E' w.
Proof. unfold runs. destruct (m w) as [[] w']; naive_solver. Qed.

Lemma runs_unwind {A} (cleanup : eff W unit) (m : eff W A) Q (E1 E : W → Prop) w :
  runs m Q E1 w → (∀ w', E1 w' → runs cleanup (λ _, E) E w') → runs (unwind cleanup m) Q E w.
Proof.
  unfold runs, unwind. destruct (m w) as [[a|e|] w1]; intros Hm Hc; [done| |done].
  specialize (Hc w1 Hm). by destruct (cleanup w1) as [[] w2].
Qed.

Lemma runs_gets {A} (f : W → A) Q E w : Q (f w) w → runs (gets f) Q E w.
Proof. done. Qed.

Lemma runs_modify f Q E w : Q tt (f w) → runs (modify f) Q E w.
Proof. done. Qed.

Lemma runs_some {A} (a : A) o Q E w : o = Some a → Q a w → runs (some o) Q E w.
Proof. by intros ->. Qed.

Lemma runs_guard b r Q E w : (b = true → Q tt w) → E w → runs (guard_ur b r) Q E w.
Proof. unfold guard_ur. destruct b; [by intros H _; apply H|by intros _ H]. Qed.

Lemma runs_eq {A} (m : eff W A) a (Q : A → W → Prop) E w w' : m w = (Ret a, w') → Q a w' → runs m Q E w.
Proof. unfold runs. by intros ->. Qed.

Lemma nt_ret {A} (a : A) w : no_throw (mret a) w.
Proof. done. Qed.

Lemma nt_modify f w : no_throw (modify f) w.
Proof. done. Qed.

Lemma nt_gets {A} (f : W → A) w : no_throw (gets f) w.
Proof. done. Qed.

Lemma nt_some {A} (o : option A) w : no_throw (some o) w.
Proof. by destruct o. Qed.

Lemma nt_bind_eq {A B} (m : eff W A) (f : A → eff W B) w : no_throw m w →
  (∀ a w', m w = (Ret a, w') → no_throw (f a) w') → no_throw (m ≫= f) w.
Proof.
  unfold no_throw, mbind, eff_bind. destruct (m w) as [[a|e|] w'] eqn:E; [|done|done].
  intros _ Hf. by apply Hf.
Qed.

Lemma nt_assoc {A B C} (m : eff W A) (f : A → eff W B) (g : B → eff W C) w :
  no_throw ((m ≫= f) ≫= g) w → no_throw (m ≫= λ a, f a ≫= g) w.
Proof. unfold no_throw, mbind, eff_bind. by destruct (m w) as [[] w']. Qed.

Lemma nt_bind {A B} (m : eff W A) (f : A → eff W B) w : no_throw m w → (∀ a w', no_throw (f a) w') →
  no_throw (m ≫= f) w.
Proof. intros Hm Hf. by apply nt_bind_eq. Qed.

(** What the first part gives is known for the second. *)
Lemma nt_bind_runs {A B} (m : eff W A) (f : A → eff W B) Q E w : no_throw m w → runs m Q E w →
  (∀ a w', Q a w' → no_throw (f a) w') → no_throw (m ≫= f) w.
Proof.
  intros Hm Hr Hf. apply nt_bind_eq; [done|]. intros a w' Ea. apply Hf. unfold runs in Hr. by rewrite Ea in Hr.
Qed.

Lemma nt_bind_gets {A B} (f : W → A) (k : A → eff W B) w : no_throw (k (f w)) w → no_throw (gets f ≫= k) w.
Proof. done. Qed.

Lemma nt_bind_modify {B} f (k : unit → eff W B) w : no_throw (k tt) (f w) → no_throw (modify f ≫= k) w.
Proof. done. Qed.

Lemma nt_bind_ret {A B} (a : A) (k : A → eff W B) w : no_throw (k a) w → no_throw (mret a ≫= k) w.
Proof. done. Qed.

Lemma nt_bind_some {A B} (o : option A) (k : A → eff W B) w :
  (∀ a, o = Some a → no_throw (k a) w) → no_throw (some o ≫= k) w.
Proof. destruct o; [|done]. intros Hk. by apply (Hk a). Qed.

Lemma nt_bind_guard {B} b r (k : unit → eff W B) w : b = true → no_throw (k tt) w → no_throw (guard_ur b r ≫= k) w.
Proof. by intros ->. Qed.
End logic.

Create HintDb quiet_calls.
#[export] Hint Resolve nt_ret nt_modify nt_gets nt_some : quiet_calls.

(** One step of a body after the other. *)
Ltac calm :=
  repeat lazymatch goal with
         | |- no_throw (mbind _ _) _ => apply nt_bind; [by eauto with quiet_calls|intros ??]
         end; eauto with quiet_calls.

(** ** Bytes *)

Lemma slice_Some l o n bs : slice l o n = Some bs ↔
  0 ≤ o ∧ 0 ≤ n ∧ o + n ≤ Z.of_nat (length l) ∧ bs = take (Z.to_nat n) (drop (Z.to_nat o) l).
Proof.
  unfold slice. destruct (0 <=? o) eqn:E1, (0 <=? n) eqn:E2, (o + n <=? Z.of_nat (length l)) eqn:E3; cbn;
    rewrite ?Z.leb_le, ?Z.leb_gt in *; naive_solver lia.
Qed.

Lemma slice_length l o n bs : slice l o n = Some bs → Z.of_nat (length bs) = n.
Proof. intros (H1 & H2 & H3 & ->)%slice_Some. rewrite length_take, length_drop. lia. Qed.

Lemma splice_Some l o bs l' : splice l o bs = Some l' ↔
  0 ≤ o ∧ o + Z.of_nat (length bs) ≤ Z.of_nat (length l) ∧
  l' = take (Z.to_nat o) l ++ bs ++ drop (Z.to_nat o + length bs) l.
Proof.
  unfold splice. destruct (0 <=? o) eqn:E1, (o + Z.of_nat (length bs) <=? Z.of_nat (length l)) eqn:E2; cbn;
    rewrite ?Z.leb_le, ?Z.leb_gt in *; naive_solver lia.
Qed.

Lemma splice_length l o bs l' : splice l o bs = Some l' → length l' = length l.
Proof. intros (H1 & H2 & ->)%splice_Some. rewrite !length_app, length_take, length_drop. lia. Qed.

Lemma splice_exists l o bs : 0 ≤ o → o + Z.of_nat (length bs) ≤ Z.of_nat (length l) → is_Some (splice l o bs).
Proof. intros H1 H2. eexists. by apply splice_Some. Qed.

Lemma slice_exists l o n : 0 ≤ o → 0 ≤ n → o + n ≤ Z.of_nat (length l) → is_Some (slice l o n).
Proof. intros. eexists. by apply slice_Some. Qed.


Lemma slice_splice l o bs l' : splice l o bs = Some l' → slice l' o (Z.of_nat (length bs)) = Some bs.
Proof.
  intros (H2 & H3 & ->)%splice_Some. apply slice_Some. rewrite !length_app, length_take, length_drop.
  split_and!; [done|lia|lia|]. rewrite drop_app_length' by (rewrite length_take; lia).
  by rewrite Nat2Z.id, take_app_length.
Qed.

Lemma splice_splice l o a b l1 l2 : splice l o a = Some l1 → splice l1 (o + Z.of_nat (length a)) b = Some l2 →
  splice l o (a ++ b) = Some l2.
Proof.
  intros (A1 & A2 & ->)%splice_Some (B1 & B2 & ->)%splice_Some. apply splice_Some.
  rewrite !length_app, length_take, length_drop in B2. rewrite length_app. split_and!; [done|lia|].
  set (n := Z.to_nat o). assert (Hn : (n + length a ≤ length l)%nat) by lia.
  replace (Z.to_nat (o + Z.of_nat (length a))) with (n + length a)%nat by lia.
  assert (Ht : length (take n l) = n) by (rewrite length_take; lia).
  rewrite take_app_ge, drop_app_ge by lia. rewrite Ht, <- !app_assoc.
  replace (n + length a - n)%nat with (length a) by lia.
  replace (n + length a + length b - n)%nat with (length a + length b)%nat by lia.
  rewrite take_app_length, drop_app_add'; [|done]. rewrite drop_drop.
  by replace (n + length a + length b)%nat with (n + (length a + length b))%nat by lia.
Qed.

Lemma splice_nil l o : 0 ≤ o ≤ Z.of_nat (length l) → splice l o [] = Some l.
Proof. intros Ho. apply splice_Some. cbn. rewrite Nat.add_0_r, take_drop. split_and!; [lia|lia|done]. Qed.

Lemma write_bytes_Some m p bs m' : write_bytes m p bs = Some m' ↔
  ∃ l l', m !! blk p = Some l ∧ splice l (off p) bs = Some l' ∧ m' = <[blk p := l']> m.
Proof.
  unfold write_bytes. destruct (m !! blk p) as [l|] eqn:E; cbn; [|naive_solver].
  destruct (splice l (off p) bs) as [l'|] eqn:E2; cbn; naive_solver.
Qed.

Lemma read_bytes_Some m p n bs : read_bytes m p n = Some bs ↔ ∃ l, m !! blk p = Some l ∧ slice l (off p) n = Some bs.
Proof. unfold read_bytes. destruct (m !! blk p) as [l|] eqn:E; cbn; naive_solver. Qed.

Lemma write_shape m p bs m' : write_bytes m p bs = Some m' → same_shape m m'.
Proof.
  intros (l & l' & El & Es & ->)%write_bytes_Some b. destruct (decide (b = blk p)) as [->|].
  - rewrite lookup_insert_eq, El. cbn. f_equal. symmetry. by eapply splice_length.
  - by rewrite lookup_insert_ne.
Qed.

Lemma write_frame m p bs m' b l : m !! b = None → write_bytes m p bs = Some m' →
  write_bytes (<[b := l]> m) p bs = Some (<[b := l]> m').
Proof.
  intros Hb (l0 & l' & El & Es & ->)%write_bytes_Some. apply write_bytes_Some.
  assert (b ≠ blk p) by congruence. exists l0, l'. rewrite lookup_insert_ne by done.
  split_and!; [done|done|]. by rewrite insert_insert_ne.
Qed.

Lemma concat_length (k : nat) (bs : list Z) : length (concat (replicate k bs)) = (k * length bs)%nat.
Proof. induction k as [|k IH]; cbn; [done|]. by rewrite length_app, IH. Qed.
