(* ===== verification/L0Buffer.v ===== *)
(** * L0Buffer: level_zero/v2/memory.hpp, memory.cpp, command_list_manager.cpp and
    the buffer commands of queue_immediate_in_order.cpp

    Buffers live in device memory and are reached through [getDevicePtr],
    [mapHostPtr] and [unmapHostPtr]; the commands of a queue are appended to an
    in-order command list and run later.  Memory is a map of blocks.  The
    driver that runs commands and the pool that allocates are classes with
    laws. *)
From S2P Require Import Prelude UrUtil UrHelpers Effects.

(** ** Commands and the driver *)

Inductive ze_op :=
  | MemoryCopy (dst src : ptr) (size : Z)
  | MemoryFill (dst : ptr) (pattern : list Z) (size : Z)
  | WaitOnEvents
  | SignalEvent.

(** An entry of the command list: what it signals at its end, what it waits for. *)
Record ze_command := mkCommand { op : ze_op; signal : option nat; waits : list nat }.

(** [ze_result n] is the answer of the [n]-th call of the driver, [None] for success;
    [umf_malloc] the pool's, a block with its first contents. *)
Inductive usm_type := host_memory | device_memory (device : nat).

Class Ze := {
  ze_run : ze_op → memory → option memory;
  ze_result : nat → option ur_result_t;
  umf_malloc : memory → usm_type → Z → ur_result_t + nat * list Z
}.

(** Documented behaviour: a copy of ranges apart, a fill with a whole number of
    patterns; a block of the pool is new. *)
Class ZeLaws `{Ze} := {
  ze_copy : ∀ dst src n m bs m', read_bytes m src n = Some bs → write_bytes m dst bs = Some m' →
    ptrs_apart dst n src n → ze_run (MemoryCopy dst src n) m = Some m';
  ze_fill : ∀ dst pat k m m', pat ≠ [] → write_bytes m dst (concat (replicate k pat)) = Some m' →
    ze_run (MemoryFill dst pat (Z.of_nat (k * length pat))) m = Some m';
  ze_wait_on_events : ∀ m, ze_run WaitOnEvents m = Some m;
  ze_signal_event : ∀ m, ze_run SignalEvent m = Some m;
  ze_failure : ∀ n, ze_result n ≠ Some UR_RESULT_SUCCESS;
  umf_new : ∀ m ty n b l, umf_malloc m ty n = inr (b, l) → m !! b = None ∧ Z.of_nat (length l) = n;
  umf_failure : ∀ m ty n r, umf_malloc m ty n = inl r → r ≠ UR_RESULT_SUCCESS
}.

(** ** Buffers *)

Inductive device_access_mode_t := read_write | read_only | write_only.

#[export] Instance access_mode_eq_dec : EqDecision device_access_mode_t.
Proof. solve_decision. Defined.

Definition UR_MEM_FLAG_READ_WRITE : Z := 1.
Definition UR_MEM_FLAG_WRITE_ONLY : Z := 2.
Definition UR_MEM_FLAG_READ_ONLY : Z := 4.
Definition UR_MEM_FLAG_USE_HOST_POINTER : Z := 8.
Definition UR_MAP_FLAG_READ : Z := 1.
Definition UR_MAP_FLAG_WRITE : Z := 2.
Definition UR_MAP_FLAG_WRITE_INVALIDATE_REGION : Z := 4.

Definition has (flags flag : Z) : bool := negb (Z.land flags flag =? 0).

Definition getDeviceAccessMode (memFlag : Z) : device_access_mode_t :=
  if has memFlag UR_MEM_FLAG_READ_WRITE then read_write
  else if has memFlag UR_MEM_FLAG_READ_ONLY then read_only
  else if has memFlag UR_MEM_FLAG_WRITE_ONLY then write_only
  else read_write.

Definition isAccessCompatible (requested actual : device_access_mode_t) : bool :=
  bool_decide (requested = actual) || bool_decide (actual = read_write).

(** A mapped range of the buffer. *)
Record host_allocation_desc_t := mkHostAlloc { h_ptr : ptr; h_size : Z; h_offset : Z; h_flags : Z }.

(** [deviceAllocations] is indexed by the device's number. *)
Record ur_discrete_buffer_handle_t := mkDiscrete {
  d_size : Z; d_mode : device_access_mode_t; deviceAllocations : list (option ptr);
  activeAllocationDevice : option nat; writeBackPtr : option ptr; mapToPtr : option ptr;
  hostAllocations : list host_allocation_desc_t
}.

(** [imported]: the host pointer is released to the driver, not to the pool. *)
Record ur_integrated_buffer_handle_t := mkIntegrated {
  i_ptr : ptr; i_size : Z; i_mode : device_access_mode_t; imported : bool
}.

Record ur_mem_sub_buffer_t := mkSub { hParent : nat; s_offset : Z; s_size : Z; s_mode : device_access_mode_t }.

(** The variant of [ur_mem_handle_t_]; an image is not a buffer. *)
Inductive mem_object :=
  | Integrated (i : ur_integrated_buffer_handle_t)
  | Discrete (d : ur_discrete_buffer_handle_t)
  | SubBuffer (s : ur_mem_sub_buffer_t)
  | Image.

Record ur_mem_handle_t_ := mkMem { object : mem_object; RefCount : Z }.

(** A buffer of the application, or a [ur_usm_handle_t] around a pointer of it. *)
Inductive buffer_ref := Wrapped (p : ptr) | Handle (h : nat).

(** A context: its devices, the peers of a device, whether the only device shares
    the host's memory, and the devices of the platform; whether locks do nothing. *)
Record context := mkContext {
  getDevices : list nat; getP2PDevices : nat → list nat; is_integrated : bool; getNumDevices : nat;
  SingleThreadMode : bool
}.

(** [appended]: the commands that have not run yet; [pool_blocks]: what the pool has
    handed out; [ze_calls]: how many calls of the driver there were.  [view] is the
    wait list of the current call, [None] when its handles are null; [reserved]: the
    vector behind it has storage. *)
Record world := mkWorld {
  mem : memory; appended : list ze_command; buffers : gmap nat ur_mem_handle_t_;
  pool_blocks : gset nat; ze_calls : nat; next_handle : nat; next_event : nat;
  reserved : bool; view : option (list nat)
}.

Definition set_mem (m : memory) (w : world) : world :=
  mkWorld m (appended w) (buffers w) (pool_blocks w) (ze_calls w) (next_handle w) (next_event w)
    (reserved w) (view w).
Definition set_appended (l : list ze_command) (w : world) : world :=
  mkWorld (mem w) l (buffers w) (pool_blocks w) (ze_calls w) (next_handle w) (next_event w)
    (reserved w) (view w).
Definition set_buffers (f : gmap nat ur_mem_handle_t_ → gmap nat ur_mem_handle_t_) (w : world) : world :=
  mkWorld (mem w) (appended w) (f (buffers w)) (pool_blocks w) (ze_calls w) (next_handle w) (next_event w)
    (reserved w) (view w).
Definition set_pool (s : gset nat) (w : world) : world :=
  mkWorld (mem w) (appended w) (buffers w) s (ze_calls w) (next_handle w) (next_event w)
    (reserved w) (view w).
Definition count_call (w : world) : world :=
  mkWorld (mem w) (appended w) (buffers w) (pool_blocks w) (S (ze_calls w)) (next_handle w) (next_event w)
    (reserved w) (view w).
Definition take_handle (w : world) : world :=
  mkWorld (mem w) (appended w) (buffers w) (pool_blocks w) (ze_calls w) (S (next_handle w)) (next_event w)
    (reserved w) (view w).
Definition take_event (w : world) : world :=
  mkWorld (mem w) (appended w) (buffers w) (pool_blocks w) (ze_calls w) (next_handle w) (S (next_event w))
    (reserved w) (view w).
Definition set_view (r : bool) (v : option (list nat)) (w : world) : world :=
  mkWorld (mem w) (appended w) (buffers w) (pool_blocks w) (ze_calls w) (next_handle w) (next_event w) r v.

(** ** Calls

    [UR_CALL] and [ZE2UR_CALL], which return the code, and the [_THROWS]
    variants are one: every entry point turns an exception into its code. *)
Abbreviation M := (eff world).

Definition get_mem (h : nat) : M ur_mem_handle_t_ := o ← gets (λ w, buffers w !! h); some o.
Definition set_object (h : nat) (o : mem_object) : M unit :=
  modify (set_buffers (alter (λ e, mkMem o (RefCount e)) h)).

Section buffers.
Context `{Ze}.

(** ** Calls of the pool and the driver *)

Definition pool_allocate (ty : usm_type) (size : Z) : M ptr := λ w,
  match umf_malloc (mem w) ty size with
  | inl r => (Throw (Exn_ur r), w)
  | inr (b, l) => (Ret (Ptr b 0), set_pool ({[b]} ∪ pool_blocks w) (set_mem (<[b := l]> (mem w)) w))
  end.

(** [free]: a pointer that is not the pool's is an error, which is only logged. *)
Definition pool_free (p : ptr) : M unit := λ w,
  if bool_decide (blk p ∈ pool_blocks w) then
    if off p =? 0 then (Ret tt, set_pool (pool_blocks w ∖ {[blk p]}) (set_mem (delete (blk p) (mem w)) w))
    else (Undef, w)
  else (Ret tt, w).

Definition ze_call : M unit :=
  n ← gets ze_calls;
  modify count_call;;
  match ze_result n with None => mret tt | Some r => throw r end.

Fixpoint run_list (l : list ze_command) (m : memory) : option memory :=
  match l with [] => Some m | c :: l' => m' ← ze_run (op c) m; run_list l' m' end.

Definition append (o : ze_op) (zeSignalEvent : option nat) : M unit :=
  v ← gets view;
  ze_call;;
  modify (λ w, set_appended (appended w ++ [mkCommand o zeSignalEvent (default [] v)]) w).

(** [zeCommandListHostSynchronize] *)
Definition synchronize : M unit :=
  ze_call;;
  m ← gets (λ w, run_list (appended w) (mem w));
  m ← some m;
  modify (set_mem m);; modify (set_appended []).

(** On a command list of its own, which is synchronous. *)
Definition synchronousZeCopy (dst src : ptr) (size : Z) : M unit :=
  ze_call;;
  m ← gets mem;
  m ← some (ze_run (MemoryCopy dst src size) m);
  modify (set_mem m).

Definition getSignalEvent (phEvent : bool) : M (option nat) :=
  if phEvent then e ← gets next_event; modify take_event;; mret (Some e) else mret None.

Definition getWaitListView (phWaitEvents : list nat) : M unit :=
  modify (λ w, let r := reserved w || bool_decide (phWaitEvents ≠ []) in
               set_view r (if r then Some phWaitEvents else None) w).
Definition clear_view : M unit := modify (λ w, set_view (reserved w) None w).

(** ** Discrete buffers *)

Definition set_allocations (l : list (option ptr)) (active : option nat) (d : ur_discrete_buffer_handle_t)
  : ur_discrete_buffer_handle_t :=
  mkDiscrete (d_size d) (d_mode d) l active (writeBackPtr d) (mapToPtr d) (hostAllocations d).
Definition set_host (l : list host_allocation_desc_t) (d : ur_discrete_buffer_handle_t)
  : ur_discrete_buffer_handle_t :=
  mkDiscrete (d_size d) (d_mode d) (deviceAllocations d) (activeAllocationDevice d) (writeBackPtr d)
    (mapToPtr d) l.

Definition allocateOnDevice (d : ur_discrete_buffer_handle_t) (hDevice : nat) (size : Z)
  : M (ur_discrete_buffer_handle_t * ptr) :=
  _ ← some (deviceAllocations d !! hDevice);
  p ← pool_allocate (device_memory hDevice) size;
  mret (set_allocations (<[hDevice := Some p]> (deviceAllocations d)) (Some hDevice) d, p).

Definition getActiveDeviceAlloc (d : ur_discrete_buffer_handle_t) (offset : Z) : M ptr :=
  id ← some (activeAllocationDevice d);
  a ← some (deviceAllocations d !! id);
  p ← some a;
  mret (ptr_add p offset).

(** What the members' destructors free. *)
Fixpoint free_all (l : list (option ptr)) : M unit :=
  match l with
  | [] => mret tt
  | None :: l' => free_all l'
  | Some p :: l' => pool_free p;; free_all l'
  end.

(** The deleter of a mapping: the test of [mapToPtr] is the wrong way round. *)
Definition delete_mapping (mapped : option ptr) (a : host_allocation_desc_t) : M unit :=
  match mapped with Some _ => pool_free (h_ptr a) | None => mret tt end.

Fixpoint delete_mappings (mapped : option ptr) (l : list host_allocation_desc_t) : M unit :=
  match l with [] => mret tt | a :: l' => delete_mapping mapped a;; delete_mappings mapped l' end.

Definition migrateBufferTo (d : ur_discrete_buffer_handle_t) (hDevice : nat) (src : ptr) (size : Z)
  : M ur_discrete_buffer_handle_t :=
  a ← some (deviceAllocations d !! hDevice);
  r ← match a with Some dst => mret (d, dst) | None => allocateOnDevice d hDevice size end;
  let '(d', dst) := r in
  unwind (free_all (deviceAllocations d')) (synchronousZeCopy dst src size);;
  mret d'.

(** The constructor; the first device is the initial one. *)
Definition new_discrete (c : context) (hostPtr : option ptr) (size : Z) (mode : device_access_mode_t)
  : M ur_discrete_buffer_handle_t :=
  let d := mkDiscrete size mode (replicate (getNumDevices c) None) None None hostPtr [] in
  match hostPtr with
  | None => mret d
  | Some src => dev ← some (head (getDevices c)); migrateBufferTo d dev src size
  end.

(** The constructor on native memory; memory that it must free itself is not the pool's. *)
Definition new_discrete_native (c : context) (hDevice : option nat) (devicePtr : option ptr) (size : Z)
    (mode : device_access_mode_t) (writeBackMemory : option ptr) : M ur_discrete_buffer_handle_t :=
  let d := mkDiscrete size mode (replicate (getNumDevices c) None) hDevice writeBackMemory None [] in
  match devicePtr with
  | None =>
      dev ← some (match hDevice with Some dev => Some dev | None => head (getDevices c) end);
      r ← allocateOnDevice d dev size;
      mret r.1
  | Some p =>
      dev ← some hDevice;
      _ ← some (deviceAllocations d !! dev);
      mret (set_allocations (<[dev := Some p]> (deviceAllocations d)) hDevice d)
  end.

(** The destructor: write back, then the members. *)
Definition destroy_discrete (d : ur_discrete_buffer_handle_t) : M unit :=
  (match activeAllocationDevice d, writeBackPtr d with
   | Some _, Some dst =>
       srcPtr ← getActiveDeviceAlloc d 0;
       ignore_result (synchronousZeCopy dst srcPtr (d_size d))
   | _, _ => mret tt
   end);;
  delete_mappings (mapToPtr d) (hostAllocations d);;
  free_all (deviceAllocations d).

Definition get_discrete (h : nat) : M ur_discrete_buffer_handle_t :=
  e ← get_mem h;
  match object e with Discrete d => mret d | _ => undef end.

Definition discrete_getDevicePtr (c : context) (h : nat) (hDevice : option nat) (offset : Z) : M ptr :=
  d ← get_discrete h;
  (match activeAllocationDevice d with
   | Some _ => mret tt
   | None =>
       dev ← some (match hDevice with Some dev => Some dev | None => head (getDevices c) end);
       r ← allocateOnDevice d dev (d_size d);
       set_object h (Discrete r.1)
   end);;
  d ← get_discrete h;
  active ← some (activeAllocationDevice d);
  let dev := default active hDevice in
  if (active =? dev)%nat then getActiveDeviceAlloc d offset
  else if bool_decide (active ∈ getP2PDevices c dev) then getActiveDeviceAlloc d offset
  else throw UR_RESULT_ERROR_UNSUPPORTED_FEATURE.

Definition discrete_mapHostPtr (h : nat) (flags offset size : Z) (migrate : ptr → ptr → Z → M unit) : M ptr :=
  d ← get_discrete h;
  p ← match mapToPtr d with Some p => mret p | None => pool_allocate host_memory size end;
  set_object h (Discrete (set_host (hostAllocations d ++ [mkHostAlloc p size offset flags]) d));;
  (match activeAllocationDevice d with
   | Some _ =>
       if has flags UR_MAP_FLAG_READ
       then srcPtr ← getActiveDeviceAlloc d offset; migrate srcPtr p size
       else mret tt
   | None => mret tt
   end);;
  mret p.

(** [std::find_if] over the mappings: the first with this pointer, and the others. *)
Fixpoint find_mapping (p : ptr) (l : list host_allocation_desc_t)
  : option (host_allocation_desc_t * list host_allocation_desc_t) :=
  match l with
  | [] => None
  | a :: l' =>
      if bool_decide (h_ptr a = p) then Some (a, l')
      else '(b, r) ← find_mapping p l'; Some (b, a :: r)
  end.

Definition discrete_unmapHostPtr (c : context) (h : nat) (pMappedPtr : ptr)
    (migrate : ptr → ptr → Z → M unit) : M unit :=
  d ← get_discrete h;
  match find_mapping pMappedPtr (hostAllocations d) with
  | None => throw UR_RESULT_ERROR_INVALID_ARGUMENT
  | Some (a, rest) =>
      let shouldMigrateToDevice := negb (has (h_flags a) UR_MAP_FLAG_WRITE_INVALIDATE_REGION) in
      (match activeAllocationDevice d with
       | None =>
           if shouldMigrateToDevice then
             dev ← some (head (getDevices c));
             r ← allocateOnDevice d dev (d_size d);
             set_object h (Discrete r.1)
           else mret tt
       | Some _ => mret tt
       end);;
      d ← get_discrete h;
      (match activeAllocationDevice d with
       | Some _ => dst ← getActiveDeviceAlloc d (h_offset a); migrate (h_ptr a) dst (h_size a)
       | None => mret tt
       end);;
      set_object h (Discrete (set_host rest d));;
      delete_mapping (mapToPtr d) a
  end.

(** ** Buffers of every kind

    The fuel is the length of the chain of parents: a sub-buffer is made after
    its parent, so its handle is greater.  The offset is ignored by an
    integrated buffer. *)
Fixpoint getDevicePtr (fuel : nat) (c : context) (h : nat) (hDevice : option nat) (offset : Z) : M ptr :=
  match fuel with
  | O => undef
  | S fuel' =>
      e ← get_mem h;
      match object e with
      | Integrated i => mret (i_ptr i)
      | Discrete _ => discrete_getDevicePtr c h hDevice offset
      | SubBuffer s => getDevicePtr fuel' c (hParent s) hDevice (w64 (offset + s_offset s))
      | Image => throw UR_RESULT_ERROR_INVALID_MEM_OBJECT
      end
  end.

Fixpoint mapHostPtr (fuel : nat) (h : nat) (flags offset size : Z) (migrate : ptr → ptr → Z → M unit) : M ptr :=
  match fuel with
  | O => undef
  | S fuel' =>
      e ← get_mem h;
      match object e with
      | Integrated i => mret (i_ptr i)
      | Discrete _ => discrete_mapHostPtr h flags offset size migrate
      | SubBuffer s => mapHostPtr fuel' (hParent s) flags (w64 (offset + s_offset s)) size migrate
      | Image => throw UR_RESULT_ERROR_INVALID_MEM_OBJECT
      end
  end.

Fixpoint unmapHostPtr (fuel : nat) (c : context) (h : nat) (pMappedPtr : ptr) (migrate : ptr → ptr → Z → M unit)
  : M unit :=
  match fuel with
  | O => undef
  | S fuel' =>
      e ← get_mem h;
      match object e with
      | Integrated _ => mret tt
      | Discrete _ => discrete_unmapHostPtr c h pMappedPtr migrate
      | SubBuffer s => unmapHostPtr fuel' c (hParent s) pMappedPtr migrate
      | Image => throw UR_RESULT_ERROR_INVALID_MEM_OBJECT
      end
  end.

(** [getBuffer()->getSize()] and the access mode *)
Definition getSize (h : nat) : M Z :=
  e ← get_mem h;
  match object e with
  | Integrated i => mret (i_size i)
  | Discrete d => mret (d_size d)
  | SubBuffer s => mret (s_size s)
  | Image => throw UR_RESULT_ERROR_INVALID_MEM_OBJECT
  end.

Definition getMode (h : nat) : M device_access_mode_t :=
  e ← get_mem h;
  match object e with
  | Integrated i => mret (i_mode i)
  | Discrete d => mret (d_mode d)
  | SubBuffer s => mret (s_mode s)
  | Image => throw UR_RESULT_ERROR_INVALID_MEM_OBJECT
  end.

(** The buffer whose mutex guards [h]. *)
Fixpoint getMutex (fuel h : nat) : M nat :=
  match fuel with
  | O => undef
  | S fuel' =>
      e ← get_mem h;
      match object e with
      | Integrated _ | Discrete _ => mret h
      | SubBuffer s => getMutex fuel' (hParent s)
      | Image => throw UR_RESULT_ERROR_INVALID_MEM_OBJECT
      end
  end.

(** A [std::scoped_lock] of two buffers: a mutex must not be locked twice. *)
Definition scoped_lock (c : context) (h1 h2 : nat) : M unit :=
  m1 ← getMutex (S h1) h1;
  m2 ← getMutex (S h2) h2;
  if SingleThreadMode c || negb (m1 =? m2)%nat then mret tt else undef.

(** A pointer of the buffer, or the wrapped one. *)
Definition device_ptr (c : context) (b : buffer_ref) (hDevice : option nat) (offset : Z) : M ptr :=
  match b with
  | Wrapped p => mret p
  | Handle h => getDevicePtr (S h) c h hDevice offset
  end.

(** ** Creation, references *)

(** A new handle, with one reference. *)
Definition new_mem (o : mem_object) : M nat :=
  h ← gets next_handle;
  modify take_handle;;
  modify (set_buffers <[h := mkMem o 1]>);;
  mret h.

(** [std::memcpy] from the host; the driver's import of host memory is an argument. *)
Definition memcpy (dst src : ptr) (size : Z) : M unit :=
  m ← gets mem;
  bs ← some (read_bytes m src size);
  m' ← some (write_bytes m dst bs);
  modify (set_mem m').

Definition new_integrated (maybeImportUSM : ptr → bool) (hostPtr : option ptr) (size : Z) (import : bool)
    (mode : device_access_mode_t) : M ur_integrated_buffer_handle_t :=
  match hostPtr with
  | Some p =>
      if import && maybeImportUSM p then mret (mkIntegrated p size mode true)
      else
        dst ← pool_allocate host_memory size;
        memcpy dst p size;;
        mret (mkIntegrated dst size mode false)
  | None => dst ← pool_allocate host_memory size; mret (mkIntegrated dst size mode false)
  end.

Definition useHostBuffer (c : context) : bool :=
  (length (getDevices c) =? 1)%nat && is_integrated c.

(** The handle is the result, beside the code. *)
Definition urMemBufferCreate (maybeImportUSM : ptr → bool) (c : context) (flags size : Z) (hostPtr : option ptr)
  : M nat :=
  let accessMode := getDeviceAccessMode flags in
  if useHostBuffer c then
    i ← new_integrated maybeImportUSM hostPtr size (has flags UR_MEM_FLAG_USE_HOST_POINTER) accessMode;
    new_mem (Integrated i)
  else
    d ← new_discrete c hostPtr size accessMode;
    new_mem (Discrete d).

Definition urMemRetain (h : nat) : M unit :=
  _ ← get_mem h;
  modify (set_buffers (alter (λ e, mkMem (object e) (w32 (RefCount e + 1))) h)).

Definition urMemBufferPartition (h : nat) (flags origin size : Z) : M nat :=
  n ← getSize h;
  guard_ur ((origin <? n) && (size <=? n)) UR_RESULT_ERROR_INVALID_BUFFER_SIZE;;
  let accessMode := getDeviceAccessMode flags in
  mode ← getMode h;
  guard_ur (isAccessCompatible accessMode mode) UR_RESULT_ERROR_INVALID_VALUE;;
  urMemRetain h;;
  new_mem (SubBuffer (mkSub h origin size accessMode)).

(** [urMemRelease]; a sub-buffer lets go of its parent. *)
Fixpoint urMemRelease (fuel : nat) (h : nat) : M unit :=
  match fuel with
  | O => undef
  | S fuel' =>
      e ← get_mem h;
      let refs := w32 (RefCount e - 1) in
      modify (set_buffers (alter (λ e, mkMem (object e) refs) h));;
      if negb (refs =? 0) then mret tt else
      match object e with
      | Integrated i => if imported i then mret tt else pool_free (i_ptr i)
      | Discrete d => destroy_discrete d
      | SubBuffer s => urMemRelease fuel' (hParent s)
      | Image => mret tt
      end;;
      modify (set_buffers (delete h))
  end.

(** ** Commands *)

Definition appendGenericCopyUnlocked (c : context) (device : nat) (src dst : buffer_ref) (blocking : bool)
    (srcOffset dstOffset size : Z) (phEventWaitList : list nat) (phEvent : bool) : M (option nat) :=
  zeSignalEvent ← getSignalEvent phEvent;
  getWaitListView phEventWaitList;;
  pSrc ← device_ptr c src (Some device) srcOffset;
  pDst ← device_ptr c dst (Some device) dstOffset;
  append (MemoryCopy pDst pSrc size) zeSignalEvent;;
  (if blocking then synchronize else mret tt);;
  mret zeSignalEvent.

Definition appendMemBufferRead (c : context) (device h : nat) (blockingRead : bool) (offset size : Z) (pDst : ptr)
    (phEventWaitList : list nat) (phEvent : bool) : M (option nat) :=
  n ← getSize h;
  guard_ur (w64 (offset + size) <=? n) UR_RESULT_ERROR_INVALID_SIZE;;
  appendGenericCopyUnlocked c device (Handle h) (Wrapped pDst) blockingRead offset 0 size phEventWaitList phEvent.

Definition appendMemBufferWrite (c : context) (device h : nat) (blockingWrite : bool) (offset size : Z) (pSrc : ptr)
    (phEventWaitList : list nat) (phEvent : bool) : M (option nat) :=
  n ← getSize h;
  guard_ur (w64 (offset + size) <=? n) UR_RESULT_ERROR_INVALID_SIZE;;
  appendGenericCopyUnlocked c device (Wrapped pSrc) (Handle h) blockingWrite 0 offset size phEventWaitList phEvent.

Definition appendMemBufferCopy (c : context) (device hSrc hDst : nat) (srcOffset dstOffset size : Z)
    (phEventWaitList : list nat) (phEvent : bool) : M (option nat) :=
  n ← getSize hSrc;
  k ← getSize hDst;
  guard_ur (w64 (srcOffset + size) <=? n) UR_RESULT_ERROR_INVALID_SIZE;;
  guard_ur (w64 (dstOffset + size) <=? k) UR_RESULT_ERROR_INVALID_SIZE;;
  scoped_lock c hSrc hDst;;
  appendGenericCopyUnlocked c device (Handle hSrc) (Handle hDst) false srcOffset dstOffset size
    phEventWaitList phEvent.

Definition appendUSMMemcpy (blocking : bool) (pDst pSrc : ptr) (size : Z) (phEventWaitList : list nat)
    (phEvent : bool) : M (option nat) :=
  zeSignalEvent ← getSignalEvent phEvent;
  getWaitListView phEventWaitList;;
  append (MemoryCopy pDst pSrc size) zeSignalEvent;;
  (if blocking then synchronize else mret tt);;
  mret zeSignalEvent.

(** The loop of the emulated fill; the counter is 32 bits wide. *)
Fixpoint fill_copies (step n : nat) (pDst pPattern : ptr) (patternSize : Z) (zeSignalEvent : option nat) : M unit :=
  match n with
  | O => mret tt
  | S n' =>
      append (MemoryCopy (ptr_add pDst (Z.of_nat step * patternSize)) pPattern patternSize)
        (match n' with O => zeSignalEvent | _ => None end);;
      clear_view;;
      fill_copies (S step) n' pDst pPattern patternSize zeSignalEvent
  end.

(** The driver takes the pattern when the fill is appended; the copies read it when they run. *)
Definition enqueueGenericFillUnlocked (c : context) (hDevice : nat) (b : buffer_ref) (offset patternSize : Z)
    (pPattern : ptr) (size : Z) (phEventWaitList : list nat) (phEvent : bool) : M (option nat) :=
  zeSignalEvent ← getSignalEvent phEvent;
  getWaitListView phEventWaitList;;
  pDst ← device_ptr c b (Some hDevice) offset;
  (if isPowerOf2 patternSize then
     m ← gets mem;
     pattern ← some (read_bytes m pPattern patternSize);
     append (MemoryFill pDst pattern size) zeSignalEvent
   else if patternSize =? 0 then undef
   else fill_copies 0 (Z.to_nat (w32 (size / patternSize))) pDst pPattern patternSize zeSignalEvent);;
  mret zeSignalEvent.

Definition enqueueMemBufferFill (c : context) (hDevice h : nat) (pPattern : ptr) (patternSize offset size : Z)
    (phEventWaitList : list nat) (phEvent : bool) : M (option nat) :=
  n ← getSize h;
  guard_ur (w64 (offset + size) <=? n) UR_RESULT_ERROR_INVALID_SIZE;;
  enqueueGenericFillUnlocked c hDevice (Handle h) offset patternSize pPattern size phEventWaitList phEvent.

Definition enqueueUSMFill (c : context) (hDevice : nat) (pMem pPattern : ptr) (patternSize size : Z)
    (phEventWaitList : list nat) (phEvent : bool) : M (option nat) :=
  enqueueGenericFillUnlocked c hDevice (Wrapped pMem) 0 patternSize pPattern size phEventWaitList phEvent.

(** The copy of a mapping takes the wait list. *)
Definition map_copy (src dst : ptr) (size : Z) : M unit := append (MemoryCopy dst src size) None;; clear_view.
Definition unmap_copy (src dst : ptr) (size : Z) : M unit := append (MemoryCopy dst src size) None.

Definition signal_event (zeSignalEvent : option nat) : M unit :=
  match zeSignalEvent with
  | Some _ => clear_view;; append SignalEvent zeSignalEvent
  | None => mret tt
  end.

Definition enqueueMemBufferMap (h : nat) (blockingMap : bool) (mapFlags offset size : Z)
    (phEventWaitList : list nat) (phEvent : bool) : M (ptr * option nat) :=
  zeSignalEvent ← getSignalEvent phEvent;
  getWaitListView phEventWaitList;;
  pDst ← mapHostPtr (S h) h mapFlags offset size map_copy;
  v ← gets view;
  (match v with Some _ => append WaitOnEvents None | None => mret tt end);;
  signal_event zeSignalEvent;;
  (if blockingMap then synchronize else mret tt);;
  mret (pDst, zeSignalEvent).

Definition enqueueMemUnmap (c : context) (h : nat) (pMappedPtr : ptr) (phEventWaitList : list nat) (phEvent : bool)
  : M (option nat) :=
  zeSignalEvent ← getSignalEvent phEvent;
  getWaitListView phEventWaitList;;
  append WaitOnEvents None;;
  clear_view;;
  unmapHostPtr (S h) c h pMappedPtr unmap_copy;;
  signal_event zeSignalEvent;;
  mret zeSignalEvent.

(** [urMemGetNativeHandle] of a buffer. *)
Definition urMemGetNativeHandle (c : context) (h : nat) (hDevice : option nat) : M ptr :=
  getDevicePtr (S h) c h hDevice 0.
End buffers.

(** ** A driver that obeys the laws *)

Module TestZe.
Definition run (o : ze_op) (m : memory) : option memory :=
  match o with
  | MemoryCopy dst src n => bs ← read_bytes m src n; write_bytes m dst bs
  | MemoryFill dst pat n => write_bytes m dst (concat (replicate (Z.to_nat n / length pat) pat))
  | WaitOnEvents | SignalEvent => Some m
  end.

Definition malloc (m : memory) (ty : usm_type) (n : Z) : ur_result_t + nat * list Z :=
  if n <? 0 then inl UR_RESULT_ERROR_OUT_OF_HOST_MEMORY
  else inr (fresh (dom m), replicate (Z.to_nat n) 170).

#[global] Instance driver : Ze := {| ze_run := run; ze_result := λ _, None; umf_malloc := malloc |}.

#[global] Instance laws : ZeLaws.
Proof.
  split; cbn.
  - intros dst src n m bs m' E1 E2 _. by rewrite E1.
  - intros dst pat k m m' Hp E. destruct pat as [|z pat]; [done|].
    rewrite Nat2Z.id, Nat.div_mul by done. done.
  - done.
  - done.
  - done.
  - unfold malloc. intros m ty n b l. destruct (Z.ltb_spec n 0); [done|]. intros [= <- <-].
    split; [|rewrite length_replicate; lia]. apply not_elem_of_dom, is_fresh.
  - unfold malloc. intros m ty n r. by destruct (n <? 0); intros [= <-].
Qed.

(** The application's memory: block 0 holds 1, 2, 3, 4. *)
Definition start : world := mkWorld {[0%nat := [1; 2; 3; 4]]} [] ∅ ∅ 0 0 0 false None.
Definition gpu : context := mkContext [0%nat] (λ _, []) false 1 false.
Definition igpu : context := mkContext [0%nat] (λ _, []) true 1 false.
Definition no_import (p : ptr) : bool := false.
End TestZe.
