(* ===== verification/L0Coherence.v ===== *)
(** * L0Coherence: buffers of the Level Zero v2 adapter behave like memory

    An invariant of the states of [L0Buffer] and, for discrete devices, a
    refinement: once the appended commands have run, every buffer holds what the
    calls wrote to it, in the order of the calls, wherever its memory is. *)
From S2P Require Import Prelude UrUtil UrHelpers Effects L0Buffer.

Lemma runs_get_mem h e Q E w : buffers w !! h = Some e → Q e w → runs (get_mem h) Q E w.
Proof. intros He HQ. unfold get_mem. by apply runs_bind, runs_gets, (runs_some e). Qed.

Section coherence.
Context `{!Ze, !ZeLaws}.
Implicit Types w : world.

(** ** What the appended commands will do *)

(** A command with its documented meaning. *)
Definition effect (o : ze_op) (m : memory) : option memory :=
  match o with
  | MemoryCopy dst src n => bs ← read_bytes m src n; write_bytes m dst bs
  | MemoryFill dst pat n => write_bytes m dst (concat (replicate (Z.to_nat n / length pat) pat))
  | WaitOnEvents | SignalEvent => Some m
  end.

Definition documented (o : ze_op) : Prop :=
  match o with
  | MemoryCopy dst src n => ptrs_apart dst n src n
  | MemoryFill dst pat n => pat ≠ [] ∧ ∃ k, n = Z.of_nat (k * length pat)
  | _ => True
  end.

Fixpoint effects (l : list ze_command) (m : memory) : option memory :=
  match l with [] => Some m | c :: l' => m' ← effect (op c) m; effects l' m' end.

Lemma run_effect o m m' : documented o → effect o m = Some m' → ze_run o m = Some m'.
Proof.
  destruct o as [dst src n|dst pat n| |]; cbn; intros Hd He.
  - apply bind_Some in He as (bs & Hr & Hw). by eapply ze_copy.
  - destruct Hd as [Hp [k ->]]. eapply ze_fill; [done|].
    rewrite Nat2Z.id, Nat.div_mul in He; [done|]. by destruct pat.
  - injection He as <-. apply ze_wait_on_events.
  - injection He as <-. apply ze_signal_event.
Qed.

Lemma run_effects l m m' : Forall (λ c, documented (op c)) l → effects l m = Some m' → run_list l m = Some m'.
Proof.
  intros Hd. revert m. induction Hd as [|c l Hc _ IH]; intros m; cbn; [done|].
  intros (m1 & E1 & E2)%bind_Some. rewrite (run_effect _ _ _ Hc E1). by apply IH.
Qed.

Lemma effects_app l l' m : effects (l ++ l') m = (m' ← effects l m; effects l' m').
Proof. revert m. induction l as [|c l IH]; intros m; cbn; [done|]. destruct (effect (op c) m); [apply IH|done]. Qed.

(** Commands keep blocks and their lengths. *)
Lemma effect_shape o m m' : effect o m = Some m' → same_shape m m'.
Proof.
  destruct o; cbn.
  - intros (bs & _ & Hw)%bind_Some. by eapply write_shape.
  - apply write_shape.
  - by intros [= <-].
  - by intros [= <-].
Qed.

Lemma effects_shape l m m' : effects l m = Some m' → same_shape m m'.
Proof.
  revert m. induction l as [|c l IH]; intros m; cbn; [by intros [= <-]|].
  intros (m1 & E1 & E2)%bind_Some b. rewrite (effect_shape _ _ _ E1 b). by apply IH.
Qed.

(** A block that is new to the memory is not touched. *)
Lemma effect_frame o m m' b l : m !! b = None → effect o m = Some m' →
  effect o (<[b := l]> m) = Some (<[b := l]> m').
Proof.
  intros Hb. destruct o as [dst src n|dst pat n| |]; cbn.
  - intros (bs & (l0 & El & Es)%read_bytes_Some & Hw)%bind_Some. apply bind_Some. exists bs.
    split; [|by apply write_frame]. apply read_bytes_Some. exists l0. split; [|done].
    rewrite lookup_insert_ne; [done|congruence].
  - by apply write_frame.
  - by intros [= <-].
  - by intros [= <-].
Qed.

Lemma effects_frame l m m' b bs : m !! b = None → effects l m = Some m' →
  effects l (<[b := bs]> m) = Some (<[b := bs]> m').
Proof.
  revert m. induction l as [|c l IH]; intros m Hb; cbn; [by intros [= <-]|].
  intros (m1 & E1 & E2)%bind_Some. rewrite (effect_frame _ _ _ _ _ Hb E1). cbn. apply IH; [|done].
  pose proof (effect_shape _ _ _ E1 b) as Hs. rewrite Hb in Hs. by destruct (m1 !! b).
Qed.

(** ** Buffers and their memory *)

(** What of a buffer never changes. *)
Inductive skeleton := KDiscrete (size : Z) | KIntegrated (size : Z) | KSub (parent : nat) (offset size : Z) | KImage.

Definition skeleton_of (e : ur_mem_handle_t_) : skeleton :=
  match object e with
  | Discrete d => KDiscrete (d_size d)
  | Integrated i => KIntegrated (i_size i)
  | SubBuffer s => KSub (hParent s) (s_offset s) (s_size s)
  | Image => KImage
  end.

Definition skel w : gmap nat skeleton := skeleton_of <$> buffers w.

Definition size_of (k : gmap nat skeleton) (h : nat) : option Z :=
  match k !! h with Some (KDiscrete n) | Some (KIntegrated n) | Some (KSub _ _ n) => Some n | _ => None end.

(** The discrete buffer that a buffer is part of, and where it starts there. *)
Fixpoint root (fuel : nat) (k : gmap nat skeleton) (h : nat) : option (nat * Z) :=
  match fuel with
  | O => None
  | S fuel' =>
      match k !! h with
      | Some (KDiscrete _) => Some (h, 0)
      | Some (KSub parent offset _) => '(r, base) ← root fuel' k parent; Some (r, base + offset)
      | _ => None
      end
  end.

Definition discrete_at w (h : nat) (d : ur_discrete_buffer_handle_t) : Prop :=
  ∃ n, buffers w !! h = Some (mkMem (Discrete d) n).

Definition owned w (b h : nat) : Prop :=
  ∃ d i p, discrete_at w h d ∧ deviceAllocations d !! i = Some (Some p) ∧ blk p = b.

Definition final w : option memory := effects (appended w) (mem w).

(** Buffer [h] has its memory in block [b], and will hold [l]. *)
Definition holds_at w (h b : nat) (l : list Z) : Prop :=
  ∃ d dev m, discrete_at w h d ∧ activeAllocationDevice d = Some dev ∧
    deviceAllocations d !! dev = Some (Some (Ptr b 0)) ∧ final w = Some m ∧ m !! b = Some l.
Definition holds w (h : nat) (l : list Z) : Prop := ∃ b, holds_at w h b l.

(** A block of the application, or of a mapping, and what it will hold. *)
Definition host_is w (b : nat) (l : list Z) : Prop :=
  (∀ h, ¬ owned w b h) ∧ ∃ m, final w = Some m ∧ m !! b = Some l.

(** [n] bytes at [p] that are not a buffer's own. *)
Definition host_range w (p : ptr) (n : Z) : Prop :=
  (∀ h, ¬ owned w (blk p) h) ∧ ∃ l, mem w !! blk p = Some l ∧ 0 ≤ off p ∧ 0 ≤ n ∧
    off p + n ≤ Z.of_nat (length l).

Record discrete_ok (c : context) w (d : ur_discrete_buffer_handle_t) : Prop := mkDiscreteOk {
  k_size : 0 ≤ d_size d < 2 ^ 64;
  k_length : length (deviceAllocations d) = getNumDevices c;
  k_active : match activeAllocationDevice d with
             | None => (∀ i p, deviceAllocations d !! i ≠ Some (Some p))
             | Some dev => (∃ b l, deviceAllocations d !! dev = Some (Some (Ptr b 0)) ∧
                 mem w !! b = Some l ∧ Z.of_nat (length l) = d_size d ∧
                 ∀ i p, deviceAllocations d !! i = Some (Some p) → i = dev)
             end;
  k_mapped : ∀ a, a ∈ hostAllocations d → host_range w (h_ptr a) (h_size a) ∧
    0 ≤ h_offset a ∧ h_offset a + h_size a ≤ d_size d;
  k_host : ∀ p, mapToPtr d = Some p → (blk p ∉ pool_blocks w) ∧ host_range w p (d_size d);
  k_same : ∀ p a, mapToPtr d = Some p → a ∈ hostAllocations d → h_ptr a = p
}.

Record Coh (c : context) w : Prop := mkCoh {
  v_documented : Forall (λ e, documented (op e)) (appended w);
  v_final : is_Some (final w);
  v_discrete : ∀ h d, discrete_at w h d → discrete_ok c w d;
  v_own : ∀ b h1 h2, owned w b h1 → owned w b h2 → h1 = h2;
  v_sub : ∀ h parent o n, skel w !! h = Some (KSub parent o n) → (parent < h)%nat ∧
    ∃ k, size_of (skel w) parent = Some k ∧ 0 ≤ o ∧ 0 ≤ n ∧ o + n ≤ k;
  v_kind : ∀ h n, skel w !! h ≠ Some (KIntegrated n);
  v_handle : ∀ h, is_Some (buffers w !! h) → (h < next_handle w)%nat;
  v_pool : ∀ b, b ∈ pool_blocks w → is_Some (mem w !! b)
}.

(** What a call leaves as it is: buffers other than [r], host blocks other than [hb]. *)
Record others (r hb : option nat) w w' : Prop := mkOthers {
  o_skel : skel w' = skel w;
  o_holds : ∀ g b l, Some g ≠ r → holds_at w g b l → holds_at w' g b l;
  o_host : ∀ b l, Some b ≠ hb → host_is w b l → host_is w' b l
}.

Lemma others_trans r hb w1 w2 w3 : others r hb w1 w2 → others r hb w2 w3 → others r hb w1 w3.
Proof. intros [A1 B1 C1] [A2 B2 C2]. split; [congruence|eauto|eauto]. Qed.

Lemma others_none r hb w w' : others None None w w' → others r hb w w'.
Proof. intros [A B C]. split; [done| |]; intros; [by apply B|by apply C]. Qed.

Lemma others_refl r hb w : others r hb w w.
Proof. by split. Qed.

Lemma discrete_at_fun w h d1 d2 : discrete_at w h d1 → discrete_at w h d2 → d1 = d2.
Proof. intros [n1 E1] [n2 E2]. congruence. Qed.

Lemma discrete_skel w h d : discrete_at w h d → skel w !! h = Some (KDiscrete (d_size d)).
Proof. intros [n E]. unfold skel. by rewrite lookup_fmap, E. Qed.

Lemma skel_discrete w h n : skel w !! h = Some (KDiscrete n) → ∃ d, discrete_at w h d ∧ d_size d = n.
Proof.
  unfold skel. rewrite lookup_fmap. intros ([o k] & E & Ek)%fmap_Some. destruct o as [i|d|s|]; try done.
  injection Ek as ->. exists d. split; [by exists k|done].
Qed.

(** Every buffer lies in a discrete one. *)
Lemma root_exists c w : Coh c w → ∀ h n fuel, size_of (skel w) h = Some n → (h < fuel)%nat →
  ∃ r base k, root fuel (skel w) h = Some (r, base) ∧ skel w !! r = Some (KDiscrete k) ∧
    0 ≤ base ∧ base + n ≤ k.
Proof.
  intros Hc h. induction (lt_wf h) as [h _ IH]. intros n fuel Hs Hf. destruct fuel as [|fuel]; [lia|].
  unfold size_of in Hs. cbn [root]. destruct (skel w !! h) as [[k|k|parent o k|]|] eqn:E; try done; injection Hs as ->.
  - exists h, 0, n. split_and!; [done|done|lia|lia].
  - by apply (v_kind c w Hc) in E.
  - destruct (v_sub c w Hc _ _ _ _ E) as (Hlt & k & Ek & Ho & Hn & Hb).
    destruct (IH parent Hlt k fuel Ek ltac:(lia)) as (r & base & k' & -> & Er & H1 & H2).
    cbn. exists r, (base + o), k'. split_and!; [done|done|lia|lia].
Qed.

(** ** A new block *)

Lemma final_frame w b l m : final w = Some m → mem w !! b = None →
  final (set_mem (<[b := l]> (mem w)) w) = Some (<[b := l]> m).
Proof. intros Hf Hb. by apply effects_frame. Qed.

Lemma final_shape w m b : final w = Some m → length <$> mem w !! b = length <$> m !! b.
Proof. intros Hf. by apply (effects_shape (appended w)). Qed.

Lemma final_None w m b : final w = Some m → mem w !! b = None → m !! b = None.
Proof. intros Hf Hb. pose proof (final_shape _ _ b Hf) as Hs. rewrite Hb in Hs. by destruct (m !! b). Qed.

Lemma owned_in_mem c w b h : Coh c w → owned w b h → is_Some (mem w !! b).
Proof.
  intros Hc (d & i & p & Hd & Hi & <-). destruct (v_discrete c w Hc h d Hd) as [_ _ Ha _ _ _].
  destruct (activeAllocationDevice d) as [dev|]; [|by apply Ha in Hi].
  destruct Ha as (b & l & Hb & Hl & _ & Hall). rewrite (Hall i p Hi), Hb in Hi. by injection Hi as <-.
Qed.

(** The world with a new block of the pool. *)
Definition with_block (b : nat) (l : list Z) w : world :=
  set_pool ({[b]} ∪ pool_blocks w) (set_mem (<[b := l]> (mem w)) w).

Lemma host_range_block w b l p n : mem w !! b = None → host_range w p n → host_range (with_block b l w) p n.
Proof.
  intros Hb (Hno & l0 & El & Hr). split; [exact Hno|]. exists l0. cbn. split; [|done].
  rewrite lookup_insert_ne; [done|congruence].
Qed.

Lemma discrete_ok_block c w b l d : mem w !! b = None → discrete_ok c w d → discrete_ok c (with_block b l w) d.
Proof.
  intros Hb [A B C D E F]. split; [done|done| | | |done].
  - destruct (activeAllocationDevice d) as [dev|]; [|done]. destruct C as (b' & l' & H1 & H2 & H3).
    exists b', l'. cbn. rewrite lookup_insert_ne; [done|congruence].
  - intros a Ha. destruct (D a Ha). split; [by apply host_range_block|done].
  - intros p Hp. destruct (E p Hp) as [H1 H2]. split; [|by apply host_range_block].
    cbn. intros [Eb%elem_of_singleton|Hin]%elem_of_union; [|done]. destruct H2 as (_ & l' & El & _). congruence.
Qed.

Lemma Coh_block c w b l : Coh c w → mem w !! b = None → Coh c (with_block b l w).
Proof.
  intros Hc Hb. destruct Hc as [J1 [m J2] J3 J4 J5 J6 J7 J8]. split; try done.
  - exists (<[b := l]> m). by apply (final_frame w).
  - intros h d Hd. apply discrete_ok_block; [done|]. by apply (J3 h).
  - cbn. intros b' Hb'. destruct (decide (b' = b)) as [->|]; [rewrite lookup_insert_eq; by eexists|].
    rewrite lookup_insert_ne by done. apply J8. set_solver.
Qed.

Lemma others_block w b l : mem w !! b = None → is_Some (final w) → others None None w (with_block b l w).
Proof.
  intros Hb [m Hf]. pose proof (final_frame w b l m Hf Hb) as Hf'. split; [done| |].
  - intros g b' l' _ (d & dev & m' & H1 & H2 & H3 & H4 & H5). exists d, dev, (<[b := l]> m).
    split_and!; [done|done|done|done|]. assert (m' = m) as -> by congruence.
    rewrite lookup_insert_ne; [done|]. intros ->. by rewrite (final_None w m b' Hf Hb) in H5.
  - intros b' l' _ [Hno (m' & H4 & H5)]. split; [exact Hno|]. exists (<[b := l]> m). split; [done|].
    assert (m' = m) as -> by congruence.
    rewrite lookup_insert_ne; [done|]. intros ->. by rewrite (final_None w m b' Hf Hb) in H5.
Qed.

(** The pool's answer. *)
Lemma runs_pool_allocate c ty n w : Coh c w →
  runs (pool_allocate ty n) (λ p w', ∃ b l, p = Ptr b 0 ∧ mem w !! b = None ∧ Z.of_nat (length l) = n ∧
    w' = with_block b l w) (λ w', w' = w) w.
Proof.
  intros Hc. unfold runs, pool_allocate. destruct (umf_malloc (mem w) ty n) as [r|[b l]] eqn:E; [done|].
  destruct (umf_new _ _ _ _ _ E) as [Hb Hl]. by exists b, l.
Qed.

(** ** Changing a discrete buffer *)

Definition with_discrete (h : nat) (d : ur_discrete_buffer_handle_t) w : world :=
  set_buffers (alter (λ e, mkMem (Discrete d) (RefCount e)) h) w.

Lemma discrete_with w h d d' g x : discrete_at w h d →
  discrete_at (with_discrete h d' w) g x ↔ if decide (g = h) then x = d' else discrete_at w g x.
Proof.
  intros [n E]. unfold discrete_at, with_discrete. cbn. case_decide as Hg.
  - subst g. rewrite lookup_alter_eq, E. cbn. split; [by intros [k [= -> _]]|intros ->; by eexists].
  - by rewrite lookup_alter_ne.
Qed.

Lemma skel_with w h d d' : discrete_at w h d → d_size d' = d_size d → skel (with_discrete h d' w) = skel w.
Proof.
  intros [n E] Hs. unfold skel, with_discrete. cbn. apply map_eq. intros g. rewrite !lookup_fmap.
  destruct (decide (g = h)) as [->|]; [|by rewrite lookup_alter_ne].
  rewrite lookup_alter_eq, E. cbn. unfold skeleton_of. cbn. by rewrite Hs.
Qed.

Lemma owned_with w h d d' b g : discrete_at w h d → owned (with_discrete h d' w) b g →
  (g = h ∧ ∃ i p, deviceAllocations d' !! i = Some (Some p) ∧ blk p = b) ∨ g ≠ h ∧ owned w b g.
Proof.
  intros Hd (x & i & p & Hx & Hi & Hb). apply (discrete_with w h d) in Hx; [|done]. case_decide as Hg.
  - subst x. left. eauto.
  - right. split; [done|]. by exists x, i, p.
Qed.

Section allocate.
Context (c : context) w (h : nat) (d : ur_discrete_buffer_handle_t) (dev b : nat) (l : list Z).
Hypotheses (Hc : Coh c w) (Hd : discrete_at w h d) (Hn : activeAllocationDevice d = None).
Hypotheses (Hdev : (dev < getNumDevices c)%nat) (Hb : mem w !! b = None) (Hl : Z.of_nat (length l) = d_size d).

Let d' := set_allocations (<[dev := Some (Ptr b 0)]> (deviceAllocations d)) (Some dev) d.
Let w' := with_discrete h d' (with_block b l w).

Lemma allocated_blocks i p : deviceAllocations d' !! i = Some (Some p) → i = dev ∧ p = Ptr b 0.
Proof.
  cbn. intros [(<- & Hp & _)|[_ Hi]]%list_lookup_insert_Some; [split; congruence|].
  pose proof (k_active c w d (v_discrete c w Hc h d Hd)) as Ha. rewrite Hn in Ha. by apply Ha in Hi.
Qed.

Lemma allocated_here : deviceAllocations d' !! dev = Some (Some (Ptr b 0)).
Proof. cbn. apply list_lookup_insert_eq. by rewrite (k_length c w d (v_discrete c w Hc h d Hd)). Qed.

Lemma allocate_owned b' g : owned w' b' g → g = h ∧ b' = b ∨ g ≠ h ∧ owned w b' g.
Proof.
  intros Ho. apply (owned_with (with_block b l w) h d) in Ho; [|done].
  destruct Ho as [[-> (i & p & Hi & <-)]|Ho]; [|by right].
  left. by destruct (allocated_blocks i p Hi) as [_ ->].
Qed.

Lemma allocate_fresh g : ¬ owned w b g.
Proof. intros Ho. destruct (owned_in_mem c w b g Hc Ho) as [x Hx]. by rewrite Hb in Hx. Qed.

Lemma allocate_not_owned b' g : b' ≠ b → ¬ owned w b' g → ¬ owned w' b' g.
Proof. intros Hne Hno [[_ ?]|[_ ?]]%allocate_owned; done. Qed.

Lemma allocate_range p n : host_range w p n → host_range w' p n.
Proof.
  intros Hr. pose proof (host_range_block w b l p n Hb Hr) as [_ Hl']. destruct Hr as (Hno & l0 & El & _).
  split; [|done]. intros g. apply allocate_not_owned; [congruence|done].
Qed.

Lemma allocate_discrete x : discrete_ok c w x → ∀ g, discrete_at w g x → discrete_ok c w' x.
Proof.
  intros Hx g _. destruct (discrete_ok_block c w b l x Hb Hx) as [A B C D E F]. destruct Hx as [_ _ _ D0 E0 _].
  split; [done|done|done| | |done].
  - intros a Ha. destruct (D0 a Ha). split; [by apply allocate_range|done].
  - intros p Hp. destruct (E p Hp) as [H1 _], (E0 p Hp) as [_ H2]. split; [done|by apply allocate_range].
Qed.

Lemma Coh_allocate : Coh c w' ∧ others None None w w' ∧ holds_at w' h b l.
Proof.
  pose proof (Coh_block c w b l Hc Hb) as [J1 [m J2] J3 J4 J5 J6 J7 J8].
  pose proof (others_block w b l Hb (v_final c w Hc)) as [O1 O2 O3].
  assert (Hs : skel w' = skel w) by (unfold w'; rewrite (skel_with _ h d); done).
  assert (Hh : holds_at w' h b l).
  { exists d', dev, m. split_and!; [apply (discrete_with (with_block b l w) h d d'); [done|by case_decide]|done|apply allocated_here|done|].
    destruct (v_final c w Hc) as [m0 Hm0]. pose proof (final_frame w b l m0 Hm0 Hb) as Ef.
    assert (Em : Some m = Some (<[b := l]> m0)) by (rewrite <- J2; exact Ef). injection Em as ->.
    apply lookup_insert_eq. }
  split; [|split; [split; [done| |]|done]].
  - split; [done|by exists m| | |by rewrite Hs|by rewrite Hs| |done].
    + intros g x Hx. apply (discrete_with _ h d) in Hx; [|done]. case_decide as Hg.
      * subst x g. destruct (allocate_discrete d (v_discrete c w Hc h d Hd) h Hd) as [A B _ D E F].
        split; [done|by cbn; rewrite length_insert| |done|done|done].
        cbn. exists b, l. split_and!; [apply allocated_here|apply lookup_insert_eq|done|].
        intros i p Hi. by apply (allocated_blocks i p).
      * eapply allocate_discrete; [by apply (v_discrete c w Hc g)|done].
    + intros b' g1 g2 [[-> ->]|[N1 H1]]%allocate_owned [[-> E2]|[N2 H2]]%allocate_owned.
      * done.
      * by destruct (allocate_fresh g2).
      * subst b'. by destruct (allocate_fresh g1).
      * by apply (v_own c w Hc b').
    + intros g. unfold w', with_discrete. cbn. intros [e He]. destruct (decide (g = h)) as [->|].
      * apply (v_handle c w Hc). destruct Hd as [n E]. by exists (mkMem (Discrete d) n).
      * rewrite lookup_alter_ne in He by done. apply (v_handle c w Hc). by exists e.
  - intros g b' l' _ Hg. assert (Hne : g ≠ h).
    { intros ->. destruct Hg as (x & dx & _ & Hx & Hax & _). rewrite (discrete_at_fun _ _ _ _ Hx Hd) in Hax. congruence. }
    destruct (O2 g b' l' ltac:(done) Hg) as (x & dx & mx & H1 & H2 & H3 & H4 & H5).
    exists x, dx, mx. split_and!; [|done|done|done|done]. apply (discrete_with (with_block b l w) h d d'); [done|]. by case_decide.
  - intros b' l' _ Hh'. destruct (O3 b' l' ltac:(done) Hh') as [_ Hm]. split; [|done].
    intros g. destruct Hh' as [Hno (m0 & E0 & E1)]. apply allocate_not_owned; [|done].
    intros ->. by rewrite (final_None w m0 b E0 Hb) in E1.
Qed.
End allocate.

(** ** Steps that do not matter, and appended commands *)

Record quiet w w' : Prop := mkQuiet {
  q_mem : mem w' = mem w; q_appended : appended w' = appended w; q_buffers : buffers w' = buffers w;
  q_pool : pool_blocks w' = pool_blocks w; q_handle : next_handle w' = next_handle w
}.

Lemma quiet_refl w : quiet w w.
Proof. done. Qed.

Lemma quiet_trans w1 w2 w3 : quiet w1 w2 → quiet w2 w3 → quiet w1 w3.
Proof. intros [] []. split; congruence. Qed.

Lemma Coh_quiet c w w' : quiet w w' → Coh c w → Coh c w'.
Proof.
  intros [E1 E2 E3 E4 E5]. destruct w, w'. cbn in *. subst.
  intros [J1 J2 J3 J4 J5 J6 J7 J8]. split; try done. intros h d Hd. by destruct (J3 h d Hd).
Qed.

Lemma others_quiet r hb w w' : quiet w w' → others r hb w w'.
Proof. intros [E1 E2 E3 E4 E5]. destruct w, w'. cbn in *. subst. by split. Qed.

Lemma holds_quiet w w' h b l : quiet w w' → holds_at w h b l → holds_at w' h b l.
Proof. intros Hq. by apply (o_holds None None w w' (others_quiet _ _ _ _ Hq)). Qed.

Lemma host_quiet w w' b l : quiet w w' → host_is w b l → host_is w' b l.
Proof. intros Hq. by apply (o_host None None w w' (others_quiet _ _ _ _ Hq)). Qed.

Lemma runs_ze_call w : runs ze_call (λ _, quiet w) (quiet w) w.
Proof. unfold ze_call. apply runs_bind, runs_gets, runs_bind, runs_modify. by destruct (ze_result _). Qed.

Definition push (o : ze_op) (e : option nat) (v : list nat) w : world :=
  set_appended (appended w ++ [mkCommand o e v]) w.

Lemma runs_append o e w :
  runs (append o e) (λ _ w', ∃ w1 v, quiet w w1 ∧ w' = push o e v w1) (quiet w) w.
Proof.
  apply runs_bind, runs_gets, runs_bind. eapply runs_mono; [apply runs_ze_call| |done].
  intros ? w1 Hq. apply runs_modify. by exists w1, (default [] (view w)).
Qed.

Lemma final_push o e v w m m' : final w = Some m → effect o m = Some m' → final (push o e v w) = Some m'.
Proof. intros Hf He. unfold final, push. cbn. rewrite effects_app. unfold final in Hf. rewrite Hf. cbn. by rewrite He. Qed.

Lemma Coh_push c w o e v m m' : Coh c w → documented o → final w = Some m → effect o m = Some m' →
  Coh c (push o e v w).
Proof.
  intros [J1 J2 J3 J4 J5 J6 J7 J8] Ho Hf He. pose proof (final_push o e v w m m' Hf He) as Hf'. split; try done.
  - apply Forall_app. split; [done|]. by apply Forall_singleton.
  - intros h d Hd. by destruct (J3 h d Hd).
Qed.

(** A command that changes the block of one buffer, or one block of the host. *)
Lemma push_device c w o e v h b l l' m : Coh c w → documented o → final w = Some m → holds_at w h b l →
  effect o m = Some (<[b := l']> m) →
  Coh c (push o e v w) ∧ others (Some h) None w (push o e v w) ∧ holds_at (push o e v w) h b l'.
Proof.
  intros Hc Ho Hf Hh He. pose proof (final_push o e v w m _ Hf He) as Hf'.
  assert (Hown : owned w b h) by (destruct Hh as (d & dev & _ & Hd & _ & Hp & _); by exists d, dev, (Ptr b 0)).
  split; [by eapply Coh_push|]. split.
  - split; [done| |].
    + intros g b' x Hne (d & dev & m1 & H1 & H2 & H3 & H4 & H5). exists d, dev, (<[b := l']> m).
      split_and!; [done|done|done|done|]. assert (m1 = m) as -> by congruence.
      rewrite lookup_insert_ne; [done|]. intros ->. destruct Hne. f_equal. apply (v_own c w Hc b'); [|done].
      by exists d, dev, (Ptr b' 0).
    + intros b' x _ [Hno (m1 & H4 & H5)]. split; [done|]. exists (<[b := l']> m). split; [done|].
      assert (m1 = m) as -> by congruence. rewrite lookup_insert_ne; [done|]. intros ->. by destruct (Hno h).
  - destruct Hh as (d & dev & m1 & H1 & H2 & H3 & H4 & H5). exists d, dev, (<[b := l']> m).
    split_and!; try done. apply lookup_insert_eq.
Qed.

Lemma push_host c w o e v b l l' m : Coh c w → documented o → final w = Some m → host_is w b l →
  effect o m = Some (<[b := l']> m) →
  Coh c (push o e v w) ∧ others None (Some b) w (push o e v w) ∧ host_is (push o e v w) b l'.
Proof.
  intros Hc Ho Hf Hh He. pose proof (final_push o e v w m _ Hf He) as Hf'.
  split; [by eapply Coh_push|]. destruct Hh as [Hno (m0 & E0 & E1)]. split.
  - split; [done| |].
    + intros g b' x _ (d & dev & m1 & H1 & H2 & H3 & H4 & H5). exists d, dev, (<[b := l']> m).
      split_and!; [done|done|done|done|]. assert (m1 = m) as -> by congruence.
      rewrite lookup_insert_ne; [done|]. intros ->. destruct (Hno g). by exists d, dev, (Ptr b' 0).
    + intros b' x Hne [Hno' (m1 & H4 & H5)]. split; [done|]. exists (<[b := l']> m). split; [done|].
      assert (m1 = m) as -> by congruence. rewrite lookup_insert_ne; [done|]. congruence.
  - split; [done|]. exists (<[b := l']> m). split; [done|]. apply lookup_insert_eq.
Qed.

(** ** The pointer of a buffer *)

(** Buffer [r] has memory now; if it had none before, its bytes are any. *)
Definition touched w w' (r b : nat) (l : list Z) : Prop :=
  holds_at w' r b l ∧ (holds_at w r b l ∨ ∀ b' x, ¬ holds_at w r b' x).

Definition touches (c : context) (r : nat) (p : Z) w (q : ptr) w' : Prop :=
  Coh c w' ∧ others None None w w' ∧ mem w ⊆ mem w' ∧
  ∃ b l, q = Ptr b p ∧ touched w w' r b l ∧ (∀ n, skel w !! r = Some (KDiscrete n) → Z.of_nat (length l) = n).

Lemma skel_lookup w h k : skel w !! h = Some k → ∃ e, buffers w !! h = Some e ∧ skeleton_of e = k.
Proof. unfold skel. rewrite lookup_fmap. intros (e & E & ->)%fmap_Some. by exists e. Qed.

Lemma skel_sub w h parent o n : skel w !! h = Some (KSub parent o n) →
  ∃ s refs, buffers w !! h = Some (mkMem (SubBuffer s) refs) ∧ hParent s = parent ∧ s_offset s = o.
Proof.
  intros ([[i|d|s|] refs] & E & Ek)%skel_lookup; try done. injection Ek as <- <- <-. by exists s, refs.
Qed.

Lemma size_bound c w r k : Coh c w → skel w !! r = Some (KDiscrete k) → 0 ≤ k < 2 ^ 64.
Proof. intros Hc (d & Hd & <-)%skel_discrete. apply (k_size c w d), (v_discrete c w Hc r d Hd). Qed.

(** A method of a sub-buffer is the method of its discrete buffer, further on. *)
Lemma root_method c w (A : Type) (method : nat → nat → Z → M A) (base_method : nat → Z → M A) : Coh c w →
  (∀ fuel h refs d o, buffers w !! h = Some (mkMem (Discrete d) refs) → method (S fuel) h o w = base_method h o w) →
  (∀ fuel h refs s o, buffers w !! h = Some (mkMem (SubBuffer s) refs) →
    method (S fuel) h o w = method fuel (hParent s) (w64 (o + s_offset s)) w) →
  ∀ h n fuel r base o, size_of (skel w) h = Some n → (h < fuel)%nat → root fuel (skel w) h = Some (r, base) →
    0 ≤ o ≤ n → method fuel h o w = base_method r (base + o) w.
Proof.
  intros Hc Hd Hs h. induction (lt_wf h) as [h _ IH]. intros n fuel r base o Hn Hf Hr Ho.
  destruct fuel as [|fuel]; [lia|]. unfold size_of in Hn. cbn [root] in Hr.
  destruct (skel w !! h) as [[k|k|parent o' k|]|] eqn:E; try done; injection Hn as ->.
  - injection Hr as <- <-. apply skel_lookup in E as ([[i|d|s|] refs] & E & Ek); try done.
    rewrite (Hd _ _ _ _ _ E). by rewrite Z.add_0_l.
  - destruct (v_sub c w Hc _ _ _ _ E) as (Hlt & k & Ek & Ho' & Hn' & Hb).
    destruct (root_exists c w Hc parent k fuel Ek ltac:(lia)) as (r' & base' & k' & Er & Es & B1 & B2).
    rewrite Er in Hr. cbn in Hr. injection Hr as <- <-.
    apply skel_sub in E as (s & refs & E & <- & <-). rewrite (Hs _ _ _ _ _ E).
    pose proof (size_bound c w r' k' Hc Es). rewrite w64_small by lia.
    rewrite (IH (hParent s) Hlt k fuel r' base' (o + s_offset s) Ek ltac:(lia) Er ltac:(lia)). f_equal. lia.
Qed.

Lemma runs_get_discrete h d Q E w : discrete_at w h d → Q d w → runs (get_discrete h) Q E w.
Proof. intros [n Hd] HQ. apply runs_bind. by eapply runs_get_mem. Qed.

Lemma holds_of c w h d dev : Coh c w → discrete_at w h d → activeAllocationDevice d = Some dev →
  ∃ b l, deviceAllocations d !! dev = Some (Some (Ptr b 0)) ∧ holds_at w h b l ∧ Z.of_nat (length l) = d_size d.
Proof.
  intros Hc Hd Ha. pose proof (k_active c w d (v_discrete c w Hc h d Hd)) as Hk. rewrite Ha in Hk.
  destruct Hk as (b & l0 & Hb & Hm & Hl & _). destruct (v_final c w Hc) as [m Hf].
  pose proof (final_shape w m b Hf) as Hs. rewrite Hm in Hs. destruct (m !! b) as [l|] eqn:E; [|done].
  injection Hs as Hs. exists b, l. split_and!; [done| |congruence]. by exists d, dev, m.
Qed.

(** The pointer at an offset of the active allocation. *)
Lemma runs_active w d dev b o Q E : activeAllocationDevice d = Some dev →
  deviceAllocations d !! dev = Some (Some (Ptr b 0)) → Q (Ptr b o) w → runs (getActiveDeviceAlloc d o) Q E w.
Proof.
  intros Ha Hb HQ. by apply runs_bind, (runs_some dev), runs_bind, (runs_some (Some (Ptr b 0))), runs_bind,
    (runs_some (Ptr b 0)), runs_ret.
Qed.

(** Allocating on first use. *)
Lemma runs_allocate c w h d dev : Coh c w → discrete_at w h d → activeAllocationDevice d = None →
  (dev < getNumDevices c)%nat →
  runs (r ← allocateOnDevice d dev (d_size d); set_object h (Discrete r.1))
    (λ _ w', Coh c w' ∧ others None None w w' ∧ mem w ⊆ mem w' ∧
      ∃ d' b l, discrete_at w' h d' ∧ activeAllocationDevice d' = Some dev ∧ hostAllocations d' = hostAllocations d ∧
        mapToPtr d' = mapToPtr d ∧
        deviceAllocations d' !! dev = Some (Some (Ptr b 0)) ∧ holds_at w' h b l ∧ Z.of_nat (length l) = d_size d)
    (λ w', w' = w) w.
Proof.
  intros Hc Hd Hn Hdev. assert (Hlen : is_Some (deviceAllocations d !! dev)).
  { apply lookup_lt_is_Some. by rewrite (k_length c w d (v_discrete c w Hc h d Hd)). }
  destruct Hlen as [a Ha]. apply runs_bind, runs_bind, (runs_some a); [done|]. apply runs_bind.
  eapply runs_mono; [by apply (runs_pool_allocate c)| |done].
  intros ? w1 (b & l & -> & Hb & Hl & ->). apply runs_ret, runs_modify. cbn [fst].
  destruct (Coh_allocate c w h d dev b l Hc Hd Hn Hdev Hb Hl) as (H1 & H2 & H3).
  split_and!; [done|done|by apply insert_subseteq|].
  eexists _, b, l. split_and!; [apply (discrete_with (with_block b l w) h d); [done|by case_decide]|done|done|done| |done|done].
  cbn. apply list_lookup_insert_eq. by eapply lookup_lt_Some.
Qed.

Lemma runs_discrete_ptr c w r k dev o : Coh c w → skel w !! r = Some (KDiscrete k) → (dev < getNumDevices c)%nat →
  runs (discrete_getDevicePtr c r (Some dev) o) (touches c r o w) (λ w', w' = w) w.
Proof.
  intros Hc (d & Hd & Hk)%skel_discrete Hdev. unfold discrete_getDevicePtr.
  apply runs_bind, (runs_get_discrete r d); [done|]. apply runs_bind.
  destruct (activeAllocationDevice d) as [a|] eqn:Ea.
  - apply runs_ret, runs_bind, (runs_get_discrete r d); [done|]. apply runs_bind, (runs_some a); [done|].
    destruct (holds_of c w r d a Hc Hd Ea) as (b & l & Hb & Hh & Hl). cbn [default].
    assert (Hin : runs (getActiveDeviceAlloc d o) (touches c r o w) (λ w', w' = w) w).
    { apply (runs_active _ _ a b); [done|done|]. split_and!; [done|apply others_refl|done|].
      exists b, l. split_and!; [done|by split; [|left]|]. intros n En%skel_discrete. destruct En as (d' & Hd' & <-).
      by rewrite (discrete_at_fun _ _ _ _ Hd' Hd). }
    case_match; [done|]. by case_match.
  - apply runs_bind, (runs_some dev); [done|].
    eapply runs_mono; [by apply (runs_allocate c w r d dev)| |done].
    intros ? w1 (Hc1 & Ho & Hsub & d1 & b & l & Hd1 & Ha1 & _ & _ & Hb & Hh & Hl).
    apply runs_bind, (runs_get_discrete r d1); [done|]. apply runs_bind, (runs_some dev); [done|].
    cbn [default]. rewrite Nat.eqb_refl. apply (runs_active _ _ dev b); [done|done|].
    split_and!; [done|done|done|]. exists b, l. split_and!; [done| |].
    + split; [done|]. right. intros b' x (d2 & dev2 & _ & Hd2 & Ha2 & _).
      rewrite (discrete_at_fun _ _ _ _ Hd2 Hd) in Ha2. congruence.
    + intros n (d2 & Hd2 & <-)%skel_discrete. by rewrite (discrete_at_fun _ _ _ _ Hd2 Hd).
Qed.

Lemma runs_device_ptr c w h n r base dev o : Coh c w → size_of (skel w) h = Some n →
  root (S h) (skel w) h = Some (r, base) → 0 ≤ o ≤ n → (dev < getNumDevices c)%nat →
  runs (device_ptr c (Handle h) (Some dev) o) (touches c r (base + o) w) (λ w', w' = w) w.
Proof.
  intros Hc Hn Hr Ho Hdev. unfold runs, device_ptr.
  rewrite (root_method c w ptr (λ f h o, getDevicePtr f c h (Some dev) o) (λ h o, discrete_getDevicePtr c h (Some dev) o)
    Hc) with (n := n) (r := r) (base := base); [| | |done|lia|done|done].
  - destruct (root_exists c w Hc h n (S h) Hn ltac:(lia)) as (r' & base' & k & Er & Ek & _).
    rewrite Er in Hr. injection Hr as -> ->. by eapply runs_discrete_ptr.
  - intros fuel g refs d x E. cbn. unfold mbind at 1, eff_bind at 1, get_mem, gets, mbind, eff_bind. by rewrite E.
  - intros fuel g refs s x E. cbn. unfold mbind at 1, eff_bind at 1, get_mem, gets, mbind, eff_bind. by rewrite E.
Qed.

(** ** Running the commands *)

Definition ran (m : memory) w : world := set_appended [] (set_mem m w).

Lemma ran_range w m p n : final w = Some m → host_range w p n → host_range (ran m w) p n.
Proof.
  intros Hf (Hno & l & El & H1 & H2 & H3). split; [exact Hno|].
  pose proof (final_shape w m (blk p) Hf) as Hs. rewrite El in Hs. cbn.
  destruct (m !! blk p) as [l'|]; [|done]. injection Hs as Hs. exists l'. split_and!; [done|done|done|lia].
Qed.

Lemma Coh_ran c w m : Coh c w → final w = Some m → Coh c (ran m w) ∧ others None None w (ran m w).
Proof.
  intros [J1 J2 J3 J4 J5 J6 J7 J8] Hf. assert (Hf' : final (ran m w) = Some m) by done. split; [split; try done|split; [done| |]].
  - intros h d Hd. destruct (J3 h d Hd) as [A B C D E F]. split; [done|done| | | |done].
    + destruct (activeAllocationDevice d) as [dev|]; [|done]. destruct C as (b & l & H1 & H2 & H3 & H4).
      pose proof (final_shape w m b Hf) as Hs. rewrite H2 in Hs. cbn in *. destruct (m !! b) as [l'|] eqn:E'; [|done].
      injection Hs as Hs. exists b, l'. split_and!; [done|done|congruence|done].
    + intros a Ha. destruct (D a Ha). split; [by apply ran_range|done].
    + intros p Hp. destruct (E p Hp). split; [done|by apply ran_range].
  - intros b Hb. destruct (J8 b Hb) as [l El]. pose proof (final_shape w m b Hf) as Hs. rewrite El in Hs. cbn.
    destruct (m !! b); [by eexists|done].
  - intros g b l _ (d & dev & m' & H1 & H2 & H3 & H4 & H5). exists d, dev, m.
    split_and!; [done|done|done|done|]. congruence.
  - intros b l _ [Hno (m' & H4 & H5)]. split; [done|]. exists m. split; [done|]. congruence.
Qed.

Lemma runs_synchronize c w : Coh c w →
  runs synchronize (λ _ w', Coh c w' ∧ others None None w w' ∧ appended w' = [] ∧ buffers w' = buffers w) (λ w', Coh c w') w.
Proof.
  intros Hc. apply runs_bind. eapply runs_mono; [apply runs_ze_call| |by intros w'; intros; eapply Coh_quiet].
  intros ? w1 Hq. cbn in Hq. pose proof (Coh_quiet c w w1 Hq Hc) as Hc1.
  destruct (v_final c w1 Hc1) as [m Hm]. apply runs_bind, runs_gets, runs_bind.
  rewrite (run_effects _ _ _ (v_documented c w1 Hc1) Hm).
  apply runs_ret, runs_bind, runs_modify, runs_modify.
  destruct (Coh_ran c w1 m Hc1 Hm) as [H1 H2]. split_and!; [done| |done|apply (q_buffers _ _ Hq)].
  eapply others_trans; [by apply others_quiet|done].
Qed.

Lemma runs_block c (b : bool) w : Coh c w →
  runs (if b then synchronize else mret tt) (λ _ w', Coh c w' ∧ others None None w w' ∧ buffers w' = buffers w)
    (Coh c) w.
Proof.
  intros Hc. destruct b; [|by apply runs_ret; split_and!; [|apply others_refl|]].
  eapply runs_mono; [by apply runs_synchronize| |done]. by intros ? w' (? & ? & _ & ?).
Qed.

Lemma runs_prelude evs ev w : runs (e ← getSignalEvent ev; getWaitListView evs;; mret e) (λ _, quiet w) (quiet w) w.
Proof. unfold getSignalEvent, getWaitListView. by destruct ev. Qed.

(** The start of a command: its event and its wait list. *)
Lemma runs_command {A} evs ev (k : option nat → M A) Q (E : world → Prop) w :
  (∀ e w', quiet w w' → runs (k e) Q E w') →
  runs (e ← getSignalEvent ev; getWaitListView evs;; k e) Q E w.
Proof. intros Hk. unfold getSignalEvent, getWaitListView. by destruct ev; apply Hk. Qed.

Lemma runs_getSize h k Q E w : size_of (skel w) h = Some k → Q k w → runs (getSize h) Q E w.
Proof.
  unfold size_of. destruct (skel w !! h) as [x|] eqn:Ex; [|done].
  apply skel_lookup in Ex as ([o refs] & He & <-). intros Hs HQ. apply runs_bind, (runs_get_mem _ (mkMem o refs)); [done|].
  destruct o; cbn in Hs; try done; by injection Hs as <-.
Qed.

(** ** Reading and writing *)

(** What the buffer holds; any bytes if it has no memory yet. *)
Definition may_hold w (r : nat) (l : list Z) : Prop :=
  (∀ x, holds w r x → x = l) ∧ ∀ n, skel w !! r = Some (KDiscrete n) → Z.of_nat (length l) = n.

Lemma holds_at_fun w r b1 b2 l1 l2 : holds_at w r b1 l1 → holds_at w r b2 l2 → b1 = b2 ∧ l1 = l2.
Proof.
  intros (d1 & v1 & m1 & A1 & A2 & A3 & A4 & A5) (d2 & v2 & m2 & B1 & B2 & B3 & B4 & B5).
  pose proof (discrete_at_fun _ _ _ _ A1 B1) as <-. assert (v2 = v1) as -> by congruence.
  assert (b2 = b1) as -> by congruence. split; [done|congruence].
Qed.

Lemma may_hold_back w w' r hb r' l : others r hb w w' → Some r' ≠ r → may_hold w' r' l → may_hold w r' l.
Proof.
  intros [A B C] Hne [H1 H2]. split; [|by rewrite <- A]. intros x [b Hx]. apply H1. exists b. by apply B.
Qed.

Lemma touches_may_hold c r p w q w' : touches c r p w q w' →
  ∃ b l, q = Ptr b p ∧ holds_at w' r b l ∧ may_hold w r l.
Proof.
  intros (_ & [_ B _] & _ & b & l & -> & [Hh Hb] & Hl). exists b, l. split_and!; [done|done|].
  split; [|done]. intros x [b' Hx]. apply (B r b' x) in Hx; [|done]. by destruct (holds_at_fun _ _ _ _ _ _ Hx Hh).
Qed.

(** The buffer is changed to [l'], nothing else is. *)
Definition updates (c : context) (r : nat) (f : list Z → option (list Z)) w w' : Prop :=
  Coh c w' ∧ others (Some r) None w w' ∧ ∃ l l', may_hold w r l ∧ f l = Some l' ∧ holds w' r l'.

Lemma may_hold_quiet w w' r l : quiet w w' → may_hold w' r l → may_hold w r l.
Proof. intros Hq. apply (may_hold_back w w' None None); [by apply others_quiet|done]. Qed.

Lemma touch_range c r p w q w' n k : touches c r p w q w' → skel w !! r = Some (KDiscrete k) → 0 ≤ p → p + n ≤ k → 0 ≤ n →
  ∀ b l, holds_at w' r b l → p + n ≤ Z.of_nat (length l).
Proof.
  intros (_ & _ & _ & b & l & _ & [Hh _] & Hl) Hk H1 H2 H3 b' l' (d & dev & m & A1 & A2 & A3 & A4 & A5).
  destruct Hh as (d' & dev' & m' & B1 & B2 & B3 & B4 & B5).
  pose proof (discrete_at_fun _ _ _ _ A1 B1) as <-. assert (l' = l) as -> by congruence. rewrite (Hl k Hk). lia.
Qed.

Lemma runs_append_device c w o e h b l l' m : Coh c w → documented o → final w = Some m → holds_at w h b l →
  effect o m = Some (<[b := l']> m) →
  runs (append o e) (λ _ w', Coh c w' ∧ others (Some h) None w w' ∧ holds_at w' h b l' ∧ buffers w' = buffers w) (Coh c) w.
Proof.
  intros Hc Ho Hf Hh He. eapply runs_mono; [apply runs_append| |].
  2: { intros w' Hq. by eapply Coh_quiet. }
  intros ? w' (w1 & v & Hq & ->). assert (Hf1 : final w1 = Some m).
  { unfold final. by rewrite (q_mem _ _ Hq), (q_appended _ _ Hq). }
  destruct (push_device c w1 o e v h b l l' m) as (H1 & H2 & H3);
    [by eapply Coh_quiet|done|done|by eapply holds_quiet|done|].
  split_and!; [done| |done|apply (q_buffers _ _ Hq)].
  eapply others_trans; [by apply others_quiet|done].
Qed.

Lemma runs_append_host c w o e b l l' m : Coh c w → documented o → final w = Some m → host_is w b l →
  effect o m = Some (<[b := l']> m) →
  runs (append o e) (λ _ w', Coh c w' ∧ others None (Some b) w w' ∧ host_is w' b l' ∧ buffers w' = buffers w) (Coh c) w.
Proof.
  intros Hc Ho Hf Hh He. eapply runs_mono; [apply runs_append| |].
  2: { intros w' Hq. by eapply Coh_quiet. }
  intros ? w' (w1 & v & Hq & ->). assert (Hf1 : final w1 = Some m).
  { unfold final. by rewrite (q_mem _ _ Hq), (q_appended _ _ Hq). }
  destruct (push_host c w1 o e v b l l' m) as (H1 & H2 & H3);
    [by eapply Coh_quiet|done|done|by eapply host_quiet|done|].
  split_and!; [done| |done|apply (q_buffers _ _ Hq)].
  eapply others_trans; [by apply others_quiet|done].
Qed.

(** Copies between a host block and a buffer's block. *)
Lemma holds_final w h b l m : holds_at w h b l → final w = Some m → m !! b = Some l.
Proof. intros (d & dv & m2 & _ & _ & _ & E3 & E4) E. congruence. Qed.

Lemma host_final w b l m : host_is w b l → final w = Some m → m !! b = Some l.
Proof. intros [_ (m1 & E1 & E2)] E. congruence. Qed.

Lemma host_apart w h b l b' x : host_is w b x → holds_at w h b' l → b ≠ b'.
Proof.
  intros [Hno _] (d & dv & m2 & A1 & A2 & A3 & _) ->. apply (Hno h). by exists d, dv, (Ptr b' 0).
Qed.

Lemma copy_effect m dst src n bs ld ls l' : m !! blk dst = Some ld → m !! blk src = Some ls →
  slice ls (off src) n = Some bs → splice ld (off dst) bs = Some l' →
  effect (MemoryCopy dst src n) m = Some (<[blk dst := l']> m).
Proof.
  intros H1 H2 H3 H4. cbn. rewrite (proj2 (read_bytes_Some _ _ _ bs)) by (by exists ls). cbn.
  apply write_bytes_Some. by exists ld, l'.
Qed.

(** A copy of host bytes into a buffer. *)
Lemma runs_copy_in c w e h b p l src n hb bs l' : Coh c w → holds_at w h b l → host_is w (blk src) hb →
  slice hb (off src) n = Some bs → splice l p bs = Some l' →
  runs (append (MemoryCopy (Ptr b p) src n) e)
    (λ _ w', Coh c w' ∧ others (Some h) None w w' ∧ holds_at w' h b l' ∧ buffers w' = buffers w) (Coh c) w.
Proof.
  intros Hc Hh Hsrc Hbs Hl'. destruct (v_final c w Hc) as [m Hf].
  eapply (runs_append_device c w _ e h b l l' m); [done| |done|done|].
  - left. cbn. intros E. by apply (host_apart _ _ _ _ _ _ Hsrc Hh).
  - eapply (copy_effect m (Ptr b p)); [by eapply holds_final|by eapply host_final|done|done].
Qed.

(** A copy of a buffer's bytes to the host. *)
Lemma runs_copy_out c w e h b p l dst n hb bs hb' : Coh c w → holds_at w h b l → host_is w (blk dst) hb →
  slice l p n = Some bs → splice hb (off dst) bs = Some hb' →
  runs (append (MemoryCopy dst (Ptr b p) n) e)
    (λ _ w', Coh c w' ∧ others None (Some (blk dst)) w w' ∧ host_is w' (blk dst) hb' ∧ buffers w' = buffers w)
    (Coh c) w.
Proof.
  intros Hc Hh Hdst Hbs Hl'. destruct (v_final c w Hc) as [m Hf].
  eapply (runs_append_host c w _ e (blk dst) hb hb' m); [done| |done|done|].
  - left. cbn. by apply (host_apart _ _ _ _ _ _ Hdst Hh).
  - eapply (copy_effect m dst (Ptr b p)); [by eapply host_final|by eapply holds_final|done|done].
Qed.

(** The pointer of a buffer at the start of a command, and that the range lies in it. *)
Lemma runs_range c w h k r base dev o n : Coh c w → (dev < getNumDevices c)%nat →
  size_of (skel w) h = Some k → root (S h) (skel w) h = Some (r, base) → 0 ≤ o → 0 ≤ n → o + n ≤ k →
  runs (device_ptr c (Handle h) (Some dev) o) (λ p w', ∃ b l, p = Ptr b (base + o) ∧ Coh c w' ∧
    others None None w w' ∧ mem w ⊆ mem w' ∧ holds_at w' r b l ∧ may_hold w r l ∧
    0 ≤ base + o ∧ base + o + n ≤ Z.of_nat (length l)) (Coh c) w.
Proof.
  intros Hc Hdev Hk Hr Ho Hn Hb.
  destruct (root_exists c w Hc h k (S h) Hk ltac:(lia)) as (r' & base' & K & Er & EK & B1 & B2).
  rewrite Er in Hr. injection Hr as -> ->.
  eapply runs_mono; [apply (runs_device_ptr c w h k r base dev o); [done|done|done|lia|done]| |by intros w' ->].
  intros p w' Ht. destruct (touches_may_hold c r _ w p w' Ht) as (b & l & -> & Hh & Hm).
  pose proof Ht as (Hc2 & Ho2 & Hsub & _). exists b, l. split_and!; try done; [lia|].
  eapply (touch_range c r (base + o) w _ w' n K Ht); [done|lia|lia|lia|exact Hh].
Qed.

Lemma runs_write c dev h blocking o n src evs ev r base k hb bs w : Coh c w → (dev < getNumDevices c)%nat →
  size_of (skel w) h = Some k → root (S h) (skel w) h = Some (r, base) → 0 ≤ o → 0 ≤ n → o + n < 2 ^ 64 →
  host_is w (blk src) hb → slice hb (off src) n = Some bs →
  runs (appendMemBufferWrite c dev h blocking o n src evs ev)
    (λ _ w', o + n ≤ k ∧ updates c r (λ l, splice l (base + o) bs) w w') (Coh c) w.
Proof.
  intros Hc Hdev Hk Hr Ho Hn Hov Hsrc Hbs. unfold appendMemBufferWrite.
  apply runs_bind, (runs_getSize h k); [done|]. apply runs_bind, runs_guard; [|done].
  intros Hb%Z.leb_le. rewrite w64_small in Hb by lia.
  apply (runs_command evs ev). intros e w1 Hq. pose proof (Coh_quiet c w w1 Hq Hc) as Hc1.
  assert (Es : skel w1 = skel w) by (unfold skel; by rewrite (q_buffers _ _ Hq)).
  apply runs_bind, runs_ret, runs_bind.
  eapply runs_mono; [apply (runs_range c w1 h k r base dev o n); rewrite ?Es; done| |done].
  intros p w2 (b & l & -> & Hc2 & Ho2 & Hsub & Hh & Hm & R1 & R2).
  assert (Hlb : Z.of_nat (length bs) = n) by (by eapply slice_length).
  destruct (splice_exists l (base + o) bs) as [l' Hl']; [lia|lia|].
  assert (Hsrc2 : host_is w2 (blk src) hb) by (apply (o_host _ _ _ _ Ho2); [done|]; by eapply host_quiet).
  apply runs_bind. eapply runs_mono; [by eapply runs_copy_in| |done].
  intros ? w3 (Hc3 & Ho3 & Hh3 & _). apply runs_bind. eapply runs_mono; [by apply (runs_block c)| |done].
  intros ? w4 (Hc4 & Ho4 & _). apply runs_ret. split; [done|]. split; [done|split].
  - eapply others_trans; [by apply others_quiet|]. eapply others_trans; [by apply others_none|].
    eapply others_trans; [done|by apply others_none].
  - exists l, l'. split_and!; [by eapply may_hold_quiet|done|]. exists b. by apply (o_holds _ _ _ _ Ho4).
Qed.

Lemma runs_read c dev h blocking o n dst evs ev r base k hb w : Coh c w → (dev < getNumDevices c)%nat →
  size_of (skel w) h = Some k → root (S h) (skel w) h = Some (r, base) → 0 ≤ o → 0 ≤ n → o + n < 2 ^ 64 →
  host_is w (blk dst) hb → 0 ≤ off dst → off dst + n ≤ Z.of_nat (length hb) →
  runs (appendMemBufferRead c dev h blocking o n dst evs ev)
    (λ _ w', o + n ≤ k ∧ Coh c w' ∧ others None (Some (blk dst)) w w' ∧ ∃ l bs hb', may_hold w r l ∧ holds w' r l ∧
       slice l (base + o) n = Some bs ∧ splice hb (off dst) bs = Some hb' ∧ host_is w' (blk dst) hb') (Coh c) w.
Proof.
  intros Hc Hdev Hk Hr Ho Hn Hov Hdst D1 D2. unfold appendMemBufferRead.
  apply runs_bind, (runs_getSize h k); [done|]. apply runs_bind, runs_guard; [|done].
  intros Hb%Z.leb_le. rewrite w64_small in Hb by lia.
  apply (runs_command evs ev). intros e w1 Hq. pose proof (Coh_quiet c w w1 Hq Hc) as Hc1.
  assert (Es : skel w1 = skel w) by (unfold skel; by rewrite (q_buffers _ _ Hq)).
  apply runs_bind. eapply runs_mono; [apply (runs_range c w1 h k r base dev o n); rewrite ?Es; done| |done].
  intros p w2 (b & l & -> & Hc2 & Ho2 & Hsub & Hh & Hm & R1 & R2). apply runs_bind, runs_ret.
  destruct (slice_exists l (base + o) n) as [bs Hbs]; [lia|lia|lia|].
  assert (Hlb : Z.of_nat (length bs) = n) by (by eapply slice_length).
  destruct (splice_exists hb (off dst) bs) as [hb' Hhb]; [lia|lia|].
  assert (Hdst2 : host_is w2 (blk dst) hb) by (apply (o_host _ _ _ _ Ho2); [done|]; by eapply host_quiet).
  apply runs_bind. eapply runs_mono; [by eapply runs_copy_out| |done].
  intros ? w3 (Hc3 & Ho3 & Hh3 & _). apply runs_bind. eapply runs_mono; [by apply (runs_block c)| |done].
  intros ? w4 (Hc4 & Ho4 & _). apply runs_ret. split; [done|]. split; [done|split].
  - eapply others_trans; [by apply others_quiet|]. eapply others_trans; [by apply others_none|].
    eapply others_trans; [done|by apply others_none].
  - exists l, bs, hb'. split_and!; [by eapply may_hold_quiet| |done|done|by apply (o_host _ _ _ _ Ho4)].
    exists b. apply (o_holds _ _ _ _ Ho4); [done|]. by apply (o_holds _ _ _ _ Ho3).
Qed.

(** Ranges of one buffer must be apart. *)
(** The lock of two buffers. *)
Lemma getMutex_root c w h k r base : Coh c w → size_of (skel w) h = Some k → root (S h) (skel w) h = Some (r, base) →
  getMutex (S h) h w = (Ret r, w).
Proof.
  intros Hc Hk Hr. destruct (root_exists c w Hc h k (S h) Hk ltac:(lia)) as (r' & base' & K & Er & EK & B1 & B2).
  rewrite (root_method c w nat (λ f h _, getMutex f h) (λ h _, mret h) Hc) with (n := k) (r := r) (base := base) (o := 0);
    try done; try lia.
  - intros fuel g refs d x E. cbn. unfold mbind at 1, eff_bind at 1, get_mem, gets, mbind, eff_bind. by rewrite E.
  - intros fuel g refs s x E. cbn. unfold mbind at 1, eff_bind at 1, get_mem, gets, mbind, eff_bind. by rewrite E.
  - unfold size_of in Hk. destruct (skel w !! h) as [[n|n|parent o n|]|] eqn:Ek; try done; injection Hk as <-.
    + pose proof (size_bound c w h n Hc Ek). lia.
    + by apply (v_kind c w Hc) in Ek.
    + destruct (v_sub c w Hc _ _ _ _ Ek) as (_ & _ & _ & _ & Hn & _). lia.
Qed.

Lemma scoped_lock_roots c w h1 h2 k1 k2 r1 r2 b1 b2 : Coh c w →
  size_of (skel w) h1 = Some k1 → root (S h1) (skel w) h1 = Some (r1, b1) →
  size_of (skel w) h2 = Some k2 → root (S h2) (skel w) h2 = Some (r2, b2) →
  SingleThreadMode c = true ∨ r1 ≠ r2 → scoped_lock c h1 h2 w = (Ret tt, w).
Proof.
  intros Hc Hk1 Hr1 Hk2 Hr2 Hm. unfold scoped_lock, mbind, eff_bind.
  rewrite (getMutex_root c w h1 k1 r1 b1), (getMutex_root c w h2 k2 r2 b2) by done.
  destruct Hm as [-> |Hne]; [done|]. apply Nat.eqb_neq in Hne as ->. by rewrite orb_true_r.
Qed.

Lemma runs_copy c dev h1 h2 o1 o2 n evs ev r1 b1 k1 r2 b2 k2 w : Coh c w → (dev < getNumDevices c)%nat →
  size_of (skel w) h1 = Some k1 → root (S h1) (skel w) h1 = Some (r1, b1) →
  size_of (skel w) h2 = Some k2 → root (S h2) (skel w) h2 = Some (r2, b2) →
  0 ≤ o1 → 0 ≤ o2 → 0 ≤ n → o1 + n < 2 ^ 64 → o2 + n < 2 ^ 64 → SingleThreadMode c = true ∨ r1 ≠ r2 →
  (r1 = r2 → b1 + o1 + n ≤ b2 + o2 ∨ b2 + o2 + n ≤ b1 + o1) →
  runs (appendMemBufferCopy c dev h1 h2 o1 o2 n evs ev)
    (λ _ w', Coh c w' ∧ others (Some r2) None w w' ∧ ∃ ls ld bs ld', may_hold w r1 ls ∧ may_hold w r2 ld ∧
       (r1 = r2 → ls = ld) ∧ (r1 ≠ r2 → holds w' r1 ls) ∧
       slice ls (b1 + o1) n = Some bs ∧ splice ld (b2 + o2) bs = Some ld' ∧ holds w' r2 ld') (Coh c) w.
Proof.
  intros Hc Hdev Hk1 Hr1 Hk2 Hr2 Ho1 Ho2 Hn V1 V2 Hone Hap. unfold appendMemBufferCopy.
  apply runs_bind, (runs_getSize h1 k1); [done|]. apply runs_bind, (runs_getSize h2 k2); [done|].
  apply runs_bind, runs_guard; [|done]. intros B1%Z.leb_le. rewrite w64_small in B1 by lia.
  apply runs_bind, runs_guard; [|done]. intros B2%Z.leb_le. rewrite w64_small in B2 by lia.
  apply runs_bind. eapply runs_eq; [by eapply scoped_lock_roots|].
  apply (runs_command evs ev). intros e w1 Hq. pose proof (Coh_quiet c w w1 Hq Hc) as Hc1.
  assert (Es : skel w1 = skel w) by (unfold skel; by rewrite (q_buffers _ _ Hq)).
  apply runs_bind. eapply runs_mono; [apply (runs_range c w1 h1 k1 r1 b1 dev o1 n); rewrite ?Es; done| |done].
  intros p w2 (a1 & ls & -> & Hc2 & Hot2 & _ & Hh1 & Hm1 & R1 & R2).
  assert (Es2 : skel w2 = skel w) by (rewrite (o_skel _ _ _ _ Hot2); done).
  apply runs_bind. eapply runs_mono; [apply (runs_range c w2 h2 k2 r2 b2 dev o2 n); rewrite ?Es2; done| |done].
  intros q w3 (a2 & ld & -> & Hc3 & Hot3 & _ & Hh2 & Hm2 & R3 & R4).
  assert (Hh1' : holds_at w3 r1 a1 ls) by (by apply (o_holds _ _ _ _ Hot3)).
  destruct (slice_exists ls (b1 + o1) n) as [bs Hbs]; [lia|lia|lia|].
  assert (Hlb : Z.of_nat (length bs) = n) by (by eapply slice_length).
  destruct (splice_exists ld (b2 + o2) bs) as [ld' Hld]; [lia|lia|]. destruct (v_final c w3 Hc3) as [m Hf].
  assert (Ha : a1 = a2 → r1 = r2).
  { intros E. apply (v_own c w3 Hc3 a1).
    - destruct Hh1' as (d & dv & m2 & A1 & A2 & A3 & _). by exists d, dv, (Ptr a1 0).
    - destruct Hh2 as (d & dv & m2 & A1 & A2 & A3 & _). exists d, dv, (Ptr a2 0). by split_and!. }
  apply runs_bind. eapply runs_mono; [apply (runs_append_device c w3 _ e r2 a2 ld ld' m)| |done]; try done.
  { unfold documented, ptrs_apart. cbn. destruct (decide (a1 = a2)) as [E|]; [|by left]. specialize (Hap (Ha E)). lia. }
  { eapply (copy_effect m (Ptr a2 _) (Ptr a1 _)); [by eapply holds_final|by eapply holds_final|done|done]. }
  intros ? w4 (Hc4 & Hot4 & Hh4 & _). apply runs_bind, runs_ret, runs_ret. split; [done|].
  assert (Hall : others None None w w3).
  { eapply others_trans; [by apply others_quiet|]. by eapply others_trans. }
  split; [by eapply others_trans; [apply others_none|]|]. exists ls, ld, bs, ld'. split_and!; try done.
  - by eapply may_hold_quiet.
  - eapply may_hold_quiet; [done|]. by eapply (may_hold_back w1 w2).
  - intros <-. by destruct (holds_at_fun _ _ _ _ _ _ Hh1' Hh2).
  - intros Hne. exists a1. apply (o_holds _ _ _ _ Hot4); [congruence|done].
  - by exists a2.
Qed.
End coherence.
