(* ===== verification/L0Mapping.v ===== *)
(** * L0Mapping: fills, mappings and new buffers keep the invariant of [L0Coherence] *)
From S2P Require Import Prelude UrUtil UrHelpers Effects L0Buffer L0Coherence.

Section mapping.
Context `{!Ze, !ZeLaws}.
Implicit Types w : world.

(** ** Fills *)

Lemma runs_clear_view Q E w : (∀ w', quiet w w' → Q tt w') → runs clear_view Q E w.
Proof. intros HQ. unfold clear_view. by apply runs_modify, HQ. Qed.

(** The copies of a pattern, one after the other. *)
Lemma runs_fill_copies c h b p pat hb bs ps e n : ∀ step l w, Coh c w → holds_at w h b l → host_is w (blk pat) hb →
  slice hb (off pat) ps = Some bs → 0 ≤ p → p + (Z.of_nat (step + n)) * ps ≤ Z.of_nat (length l) →
  runs (fill_copies step n (Ptr b p) pat ps e) (λ _ w', Coh c w' ∧ others (Some h) None w w' ∧ ∃ l',
    splice l (p + Z.of_nat step * ps) (concat (replicate n bs)) = Some l' ∧ holds_at w' h b l') (Coh c) w.
Proof.
  induction n as [|n IH]; intros step l w Hc Hh Hpat Hbs Hp Hb; cbn [fill_copies].
  { apply runs_ret. split; [done|]. split; [apply others_refl|]. exists l. split; [|done]. apply splice_nil.
    pose proof (slice_length _ _ _ _ Hbs). nia. }
  assert (Hlb : Z.of_nat (length bs) = ps) by (by eapply slice_length).
  destruct (splice_exists l (p + Z.of_nat step * ps) bs) as [l1 Hl1]; [nia|nia|].
  apply runs_bind. eapply runs_mono; [by eapply (runs_copy_in c w _ h b _ l pat ps hb bs l1)| |done].
  intros ? w1 (Hc1 & Ho1 & Hh1 & _). apply runs_bind, runs_clear_view. intros w2 Hq.
  eapply runs_mono; [eapply (IH (S step) l1 w2)| |done].
  - by eapply Coh_quiet.
  - by eapply holds_quiet.
  - eapply host_quiet; [done|]. by apply (o_host _ _ _ _ Ho1).
  - done.
  - done.
  - rewrite (splice_length _ _ _ _ Hl1). by replace (S step + n)%nat with (step + S n)%nat by lia.
  - intros ? w3 (Hc3 & Ho3 & l' & Hl' & Hh3). split; [done|]. split.
    + eapply others_trans; [done|]. eapply others_trans; [by apply others_quiet|done].
    + exists l'. split; [|done]. cbn [replicate concat]. eapply splice_splice; [done|]. rewrite Hlb.
      by replace (p + Z.of_nat step * ps + ps) with (p + Z.of_nat (S step) * ps) by lia.
Qed.

(** Whole patterns; the pattern must be there when the call is made and when the commands run. *)
Lemma runs_fill c dev h pat ps o k evs ev r base n hb bs w : Coh c w → (dev < getNumDevices c)%nat →
  size_of (skel w) h = Some n → root (S h) (skel w) h = Some (r, base) → 0 ≤ o → 0 < ps → o + Z.of_nat k * ps < 2 ^ 64 →
  Z.of_nat k < 2 ^ 32 → host_is w (blk pat) hb → slice hb (off pat) ps = Some bs → read_bytes (mem w) pat ps = Some bs →
  runs (enqueueMemBufferFill c dev h pat ps o (Z.of_nat k * ps) evs ev)
    (λ _ w', o + Z.of_nat k * ps ≤ n ∧ updates c r (λ l, splice l (base + o) (concat (replicate k bs))) w w') (Coh c) w.
Proof.
  intros Hc Hdev Hk Hr Ho Hps Hov Hk32 Hpat Hbs Hnow. unfold enqueueMemBufferFill.
  apply runs_bind, (runs_getSize h n); [done|]. apply runs_bind, runs_guard; [|done].
  intros Hb%Z.leb_le. rewrite w64_small in Hb by nia.
  apply (runs_command evs ev). intros e w1 Hq. pose proof (Coh_quiet c w w1 Hq Hc) as Hc1.
  assert (Es : skel w1 = skel w) by (unfold skel; by rewrite (q_buffers _ _ Hq)).
  apply runs_bind. eapply runs_mono; [apply (runs_range c w1 h n r base dev o (Z.of_nat k * ps)); rewrite ?Es; try done; nia| |done].
  intros p w2 (b & l & -> & Hc2 & Ho2 & Hsub & Hh & Hm & R1 & R2).
  assert (Hlb : Z.of_nat (length bs) = ps) by (by eapply slice_length).
  assert (Hpat2 : host_is w2 (blk pat) hb) by (apply (o_host _ _ _ _ Ho2); [done|]; by eapply host_quiet).
  assert (Hdone : ∀ w', Coh c w' → others (Some r) None w2 w' → (∃ l', splice l (base + o) (concat (replicate k bs)) = Some l' ∧
    holds_at w' r b l') → o + Z.of_nat k * ps ≤ n ∧ updates c r (λ l, splice l (base + o) (concat (replicate k bs))) w w').
  { intros w' Hc' Ho' (l' & Hl' & Hh'). split; [done|]. split; [done|split].
    - eapply others_trans; [by apply others_quiet|]. eapply others_trans; [by apply others_none|done].
    - exists l, l'. split_and!; [by eapply may_hold_quiet|done|by exists b]. }
  apply runs_bind. destruct (isPowerOf2 ps).
  - apply runs_bind, runs_gets, runs_bind, (runs_some bs).
    { apply read_bytes_Some in Hnow as (l0 & E0 & E1). apply read_bytes_Some. exists l0. split; [|done].
      eapply lookup_weaken; [|exact Hsub]. by rewrite (q_mem _ _ Hq). }
    destruct (splice_exists l (base + o) (concat (replicate k bs))) as [l' Hl']; [lia|rewrite concat_length; nia|].
    destruct (v_final c w2 Hc2) as [m Hf].
    assert (Hne : bs ≠ []) by (intros ->; cbn in Hlb; lia).
    eapply runs_mono; [apply (runs_append_device c w2 _ e r b l l' m)| |done]; try done.
    + split; [done|]. exists k. lia.
    + cbn. replace (Z.to_nat (Z.of_nat k * ps)) with (k * length bs)%nat by lia.
      rewrite Nat.div_mul by (destruct bs; done). apply write_bytes_Some. exists l, l'.
      split_and!; [by eapply holds_final|done|done].
    + intros ? w3 (Hc3 & Ho3 & Hh3 & _). apply runs_ret. apply Hdone; [done|done|]. by exists l'.
  - destruct (Z.eqb_spec ps 0); [lia|].
    unfold w32. rewrite Z.div_mul, Z.mod_small, Nat2Z.id by lia.
    eapply runs_mono; [eapply (runs_fill_copies c r b (base + o) pat hb bs ps e k 0 l w2); try done; cbn; lia| |done].
    intros ? w3 (Hc3 & Ho3 & Hl). apply runs_ret. apply Hdone; [done|done|]. by rewrite Z.add_0_r in Hl.
Qed.

(** ** Mappings *)

(** Changing the list of mappings. *)
Lemma Coh_set_host c w h d l : Coh c w → discrete_at w h d →
  (∀ a, a ∈ l → host_range w (h_ptr a) (h_size a) ∧ 0 ≤ h_offset a ∧ h_offset a + h_size a ≤ d_size d) →
  (∀ p a, mapToPtr d = Some p → a ∈ l → h_ptr a = p) →
  let w' := with_discrete h (set_host l d) w in
  Coh c w' ∧ others None None w w' ∧ discrete_at w' h (set_host l d).
Proof.
  intros Hc Hd Hl Hsame w'.
  assert (Hat : ∀ g x, discrete_at w' g x → (g = h ∧ x = set_host l d) ∨ g ≠ h ∧ discrete_at w g x).
  { intros g x Hx. apply (discrete_with w h d) in Hx; [|done]. case_decide as Hg; [by left|by right]. }
  assert (Hhere : discrete_at w' h (set_host l d)) by (apply (discrete_with w h d); [done|by case_decide]).
  assert (Hother : ∀ g x, g ≠ h → discrete_at w g x → discrete_at w' g x).
  { intros g x Hne Hx. apply (discrete_with w h d); [done|by case_decide]. }
  assert (Hown : ∀ b g, owned w' b g → owned w b g).
  { intros b g (x & i & p & Hx & Hi & Hb). destruct (Hat g x Hx) as [[-> ->]|[_ Hx']]; [by exists d, i, p|by exists x, i, p]. }
  assert (Hrange : ∀ p n, host_range w p n → host_range w' p n).
  { intros p n [Hno Hr]. split; [|exact Hr]. intros g Ho. by apply (Hno g), Hown. }
  assert (Hs : skel w' = skel w) by (by apply (skel_with w h d)).
  destruct Hc as [J1 J2 J3 J4 J5 J6 J7 J8]. split; [|split; [split|done]]; [|done| |].
  - split; [done|done| | |by rewrite Hs|by rewrite Hs| |done].
    + intros g x Hx. assert (Hok : ∃ y, discrete_ok c w y ∧ d_size x = d_size y ∧ deviceAllocations x = deviceAllocations y ∧
        activeAllocationDevice x = activeAllocationDevice y ∧ mapToPtr x = mapToPtr y ∧
        (∀ a, a ∈ hostAllocations x → host_range w (h_ptr a) (h_size a) ∧ 0 ≤ h_offset a ∧ h_offset a + h_size a ≤ d_size x) ∧
        (∀ p a, mapToPtr x = Some p → a ∈ hostAllocations x → h_ptr a = p)).
      { destruct (Hat g x Hx) as [[-> ->]|[_ Hx']].
        - exists d. split; [by apply (J3 h)|]. done.
        - exists x. pose proof (J3 g x Hx') as Hk. split_and!; [done|done|done|done|done| |]; apply Hk. }
      destruct Hok as (y & [A B C D E F] & E1 & E2 & E3 & E4 & E5 & E6).
      split; [by rewrite E1|by rewrite E2|by rewrite E3, E2, E1| | |done].
      * intros a Ha. destruct (E5 a Ha). split; [by apply Hrange|done].
      * intros p Hp. rewrite E4 in Hp. destruct (E p Hp). split; [done|]. rewrite E1. by apply Hrange.
    + intros b g1 g2 H1 H2. by apply (J4 b); apply Hown.
    + intros g [e He]. unfold w', with_discrete in He. cbn in He. apply J7.
      destruct (decide (g = h)) as [->|]; [destruct Hd as [n Hd]; by eexists|]. rewrite lookup_alter_ne in He by done. by eexists.
  - intros g b x _ (dg & dev & m & H1 & H2 & H3 & H4 & H5). destruct (decide (g = h)) as [->|Hne].
    + rewrite (discrete_at_fun _ _ _ _ H1 Hd) in *. by exists (set_host l d), dev, m.
    + exists dg, dev, m. split_and!; [by apply Hother|done|done|done|done].
  - intros b x _ [Hno Hm]. split; [|exact Hm]. intros g Ho. by apply (Hno g), Hown.
Qed.

Lemma host_range_is c w p n : Coh c w → host_range w p n →
  ∃ hb, host_is w (blk p) hb ∧ 0 ≤ off p ∧ 0 ≤ n ∧ off p + n ≤ Z.of_nat (length hb).
Proof.
  intros Hc (Hno & l & El & H1 & H2 & H3). destruct (v_final c w Hc) as [m Hm].
  pose proof (final_shape w m (blk p) Hm) as Hs. rewrite El in Hs. destruct (m !! blk p) as [hb|] eqn:E; [|done].
  injection Hs as Hs. exists hb. split_and!; [|done|done|lia]. split; [done|]. by exists m.
Qed.

(** A mapping of [n] bytes from [o] on at [p], with these bytes in its block. *)
Definition mapped w (r : nat) (p : ptr) (o n flags : Z) (hb : list Z) : Prop :=
  (∃ d, discrete_at w r d ∧ mkHostAlloc p n o flags ∈ hostAllocations d) ∧
  host_is w (blk p) hb ∧ 0 ≤ off p ∧ off p + n ≤ Z.of_nat (length hb).

Lemma mapped_others w w' r p o n flags hb : others None None w w' → buffers w' = buffers w →
  mapped w r p o n flags hb → mapped w' r p o n flags hb.
Proof.
  intros Ho Eb ((d & [k Hd] & Hin) & Hh & Hr). split; [|split; [by apply (o_host _ _ _ _ Ho)|done]].
  exists d. split; [exists k; by rewrite Eb|done].
Qed.

(** What a map answers: the bytes are there when they are to be read. *)
Definition maps (c : context) (r : nat) (flags o n : Z) w (p : ptr) w' : Prop :=
  Coh c w' ∧ others None (Some (blk p)) w w' ∧ ∃ hb, mapped w' r p o n flags hb ∧
    (has flags UR_MAP_FLAG_READ = true → ∀ l, holds w r l → slice hb (off p) n = slice l o n).

Lemma runs_nothing c w o e : Coh c w → o = WaitOnEvents ∨ o = SignalEvent →
  runs (append o e) (λ _ w', Coh c w' ∧ others None None w w' ∧ buffers w' = buffers w) (Coh c) w.
Proof.
  intros Hc Ho. eapply runs_mono; [apply runs_append| |].
  2: { intros w' Hq. by eapply Coh_quiet. }
  intros ? w' (w1 & v & Hq & ->). pose proof (Coh_quiet c w w1 Hq Hc) as Hc1. destruct (v_final c w1 Hc1) as [m Hm].
  assert (He : effect o m = Some m) by (by destruct Ho as [-> | ->]).
  assert (Hd : documented o) by (by destruct Ho as [-> | ->]).
  pose proof (final_push o e v w1 m m Hm He) as Hf. split; [by eapply Coh_push|]. split; [|apply (q_buffers _ _ Hq)].
  eapply others_trans; [by apply others_quiet|]. split; [done| |].
  - intros g b l _ (d & dev & m' & H1 & H2 & H3 & H4 & H5). exists d, dev, m. split_and!; try done. congruence.
  - intros b l _ [Hno (m' & H4 & H5)]. split; [done|]. exists m. split; [done|congruence].
Qed.

Lemma runs_signal c e w : Coh c w →
  runs (signal_event e) (λ _ w', Coh c w' ∧ others None None w w' ∧ buffers w' = buffers w) (Coh c) w.
Proof.
  intros Hc. unfold signal_event. destruct e as [e|]; [|by apply runs_ret; split_and!; [|apply others_refl|]].
  apply runs_bind, runs_clear_view. intros w1 Hq.
  eapply runs_mono; [apply (runs_nothing c w1); [by eapply Coh_quiet|by right]| |done].
  intros ? w2 (H1 & H2 & H3). split_and!; [done| |].
  - eapply others_trans; [by apply others_quiet|done].
  - rewrite H3. apply (q_buffers _ _ Hq).
Qed.

Lemma runs_discrete_map c w r k flags o n : Coh c w → skel w !! r = Some (KDiscrete k) → 0 ≤ o → 0 ≤ n → o + n ≤ k →
  runs (discrete_mapHostPtr r flags o n map_copy) (maps c r flags o n w) (Coh c) w.
Proof.
  intros Hc (d & Hd & Hk)%skel_discrete Ho Hn Hb. unfold discrete_mapHostPtr.
  apply runs_bind, (runs_get_discrete r d); [done|]. apply runs_bind.
  eapply (runs_mono _ (λ p w1, Coh c w1 ∧ others None None w w1 ∧ discrete_at w1 r d ∧ host_range w1 p n ∧
    ∀ q, mapToPtr d = Some q → p = q) _ (λ w', w' = w)); [| |by intros w' ->].
  { pose proof (v_discrete c w Hc r d Hd) as [_ _ _ _ Hm _]. destruct (mapToPtr d) as [q|].
    - apply runs_ret. destruct (Hm q eq_refl) as [_ (Hno & l & El & Hr)]. split_and!; [done|apply others_refl|done| |congruence].
      split; [done|]. exists l. split_and!; [done|lia|lia|lia].
    - eapply runs_mono; [by apply (runs_pool_allocate c)| |done]. intros p w1 (b & l & -> & Hb' & Hl & ->).
      split_and!; [by apply Coh_block|apply others_block; [done|apply Hc]|done| |done].
      split; [|exists l; cbn; rewrite lookup_insert_eq; split_and!; [done|lia|lia|lia]].
      cbn. intros h Hh. destruct (owned_in_mem c w b h Hc Hh) as [x Hx]. congruence. }
  intros p w1 (Hc1 & Ho1 & Hd1 & Hp & Hsame). apply runs_bind, runs_modify.
  set (a := mkHostAlloc p n o flags).
  destruct (Coh_set_host c w1 r d (hostAllocations d ++ [a]) Hc1 Hd1) as (Hc2 & Ho2 & Hd2).
  { intros x [Hx|Hx]%elem_of_app; [by apply (v_discrete c w1 Hc1 r d)|].
    apply list_elem_of_singleton in Hx as ->. split; [done|]. cbn. lia. }
  { intros q x Hq [Hx|Hx]%elem_of_app; [by eapply (v_discrete c w1 Hc1 r d)|].
    apply list_elem_of_singleton in Hx as ->. by apply Hsame. }
  set (w2 := with_discrete r (set_host (hostAllocations d ++ [a]) d) w1) in *.
  assert (Hp2 : host_range w2 p n).
  { apply (k_mapped c w2 _ (v_discrete c w2 Hc2 r _ Hd2) a). cbn. apply elem_of_app. right. by apply list_elem_of_singleton. }
  destruct (host_range_is c w2 p n Hc2 Hp2) as (hb & Hhb & R1 & R2 & R3).
  assert (Ho12 : others None None w w2) by (by eapply others_trans).
  assert (Hin : ∀ w3, discrete_at w3 r (set_host (hostAllocations d ++ [a]) d) →
    ∃ d', discrete_at w3 r d' ∧ a ∈ hostAllocations d').
  { intros w3 H3. eexists. split; [exact H3|]. cbn. apply elem_of_app. right. by apply list_elem_of_singleton. }
  change (runs ((match activeAllocationDevice d with
    | Some _ => if has flags UR_MAP_FLAG_READ then srcPtr ← getActiveDeviceAlloc d o; map_copy srcPtr p n else mret tt
    | None => mret tt end);; mret p) (maps c r flags o n w) (Coh c) w2).
  apply runs_bind.
  destruct (activeAllocationDevice d) as [dev|] eqn:Ea; [destruct (has flags UR_MAP_FLAG_READ) eqn:Ef|].
  - destruct (holds_of c w2 r _ dev Hc2 Hd2 Ea) as (b & l & Hb2 & Hh & Hl).
    apply runs_bind, (runs_active _ _ dev b); [done|done|]. cbn in Hl.
    destruct (slice_exists l o n) as [bs Hbs]; [lia|lia|lia|].
    assert (Hlb : Z.of_nat (length bs) = n) by (by eapply slice_length).
    destruct (splice_exists hb (off p) bs) as [hb' Hhb']; [lia|lia|].
    apply runs_bind. eapply runs_mono; [by eapply runs_copy_out| |done].
    intros ? w3 (Hc3 & Ho3 & Hh3 & Eb). apply runs_clear_view. intros w4 Hq. apply runs_ret.
    split; [by eapply Coh_quiet|]. split.
    { eapply others_trans; [by apply others_none|]. eapply others_trans; [done|by apply others_quiet]. }
    exists hb'. split.
    + apply (mapped_others w3); [by apply others_quiet|apply (q_buffers _ _ Hq)|]. split; [|split; [done|]].
      * apply Hin. destruct Hd2 as [k' Hd2]. exists k'. by rewrite Eb.
      * rewrite (splice_length _ _ _ _ Hhb'). lia.
    + intros _ x [b' Hx]. apply (o_holds _ _ _ _ Ho12) in Hx; [|done].
      destruct (holds_at_fun _ _ _ _ _ _ Hx Hh) as [-> ->]. rewrite Hbs.
      apply splice_Some in Hhb' as (S1 & S2 & ->). apply slice_Some. rewrite !length_app, length_take, length_drop.
      split_and!; [lia|lia|lia|]. rewrite drop_app_length' by (rewrite length_take; lia).
      by rewrite take_app_length' by lia.
  - apply runs_ret, runs_ret. split; [done|]. split; [by apply others_none|]. exists hb.
    split; [by split; [apply Hin|]|congruence].
  - apply runs_ret, runs_ret. split; [done|]. split; [by apply others_none|]. exists hb.
    split; [by split; [apply Hin|]|]. intros _ x (b & d0 & dev & m & H1 & H2 & _).
    rewrite (discrete_at_fun _ _ _ _ H1 Hd) in H2. congruence.
Qed.

Lemma maps_later c r flags o n w p w1 w2 : maps c r flags o n w p w1 → Coh c w2 → others None None w1 w2 →
  buffers w2 = buffers w1 → maps c r flags o n w p w2.
Proof.
  intros (Hc1 & Ho1 & hb & Hm & Hr) Hc2 Ho2 Eb. split; [done|]. split.
  - eapply others_trans; [done|by apply others_none].
  - exists hb. split; [by eapply mapped_others|done].
Qed.

Lemma runs_map c h blocking flags o n evs ev r base k w : Coh c w → size_of (skel w) h = Some k →
  root (S h) (skel w) h = Some (r, base) → 0 ≤ o → 0 ≤ n → o + n ≤ k →
  runs (enqueueMemBufferMap h blocking flags o n evs ev) (λ a w', maps c r flags (base + o) n w a.1 w') (Coh c) w.
Proof.
  intros Hc Hk Hr Ho Hn Hb.
  destruct (root_exists c w Hc h k (S h) Hk ltac:(lia)) as (r' & base' & K & Er & EK & B1 & B2).
  rewrite Er in Hr. injection Hr as -> ->. unfold enqueueMemBufferMap.
  apply (runs_command evs ev). intros e w1 Hq. pose proof (Coh_quiet c w w1 Hq Hc) as Hc1.
  assert (Es : skel w1 = skel w) by (unfold skel; by rewrite (q_buffers _ _ Hq)).
  apply runs_bind. eapply (runs_mono _ (maps c r flags (base + o) n w)); [|  |done].
  { unfold runs. rewrite (root_method c w1 ptr (λ f h o, mapHostPtr f h flags o n map_copy)
      (λ h o, discrete_mapHostPtr h flags o n map_copy) Hc1) with (n := k) (r := r) (base := base); rewrite ?Es; try done; try lia.
    - eapply runs_mono; [apply (runs_discrete_map c w1 r K); rewrite ?Es; try done; lia| |done].
      intros p w2 (H1 & H2 & hb & H3 & H4). split; [done|]. split; [by eapply others_trans; [apply others_quiet|]|].
      exists hb. split; [done|]. intros Hf l [b Hl]. apply H4; [done|]. exists b. by eapply holds_quiet.
    - intros fuel g refs d x E. cbn. unfold mbind at 1, eff_bind at 1, get_mem, gets, mbind, eff_bind. by rewrite E.
    - intros fuel g refs s x E. cbn. unfold mbind at 1, eff_bind at 1, get_mem, gets, mbind, eff_bind. by rewrite E. }
  intros p w2 Hm. pose proof Hm as (Hc2 & _). apply runs_bind, runs_gets, runs_bind.
  eapply (runs_mono _ (λ _ w', maps c r flags (base + o) n w p w')); [| |done].
  { destruct (view w2); [|by apply runs_ret].
    eapply runs_mono; [apply (runs_nothing c w2); [done|by left]| |done].
    intros ? w3 (H1 & H2 & H3). by eapply maps_later. }
  intros ? w3 Hm3. pose proof Hm3 as (Hc3 & _). apply runs_bind.
  eapply runs_mono; [by apply (runs_signal c)| |done]. intros ? w4 (H1 & H2 & H3).
  pose proof (maps_later _ _ _ _ _ _ _ _ _ Hm3 H1 H2 H3) as Hm4. apply runs_bind.
  eapply runs_mono; [by apply (runs_block c)| |done]. intros ? w5 (H4 & H5 & H6).
  apply runs_ret. cbn [fst]. by eapply maps_later.
Qed.

(** What an unmap does with mapping [a]: its bytes go to the buffer, unless the
    buffer has no memory yet and the region was to be invalidated. *)
Definition unmaps (c : context) (r : nat) (a : host_allocation_desc_t) (rest : list host_allocation_desc_t) w w' : Prop :=
  Coh c w' ∧ (∃ d, discrete_at w' r d ∧ hostAllocations d = rest) ∧
  (others (Some r) None w w' ∧ (∃ hb l bs l', host_is w (blk (h_ptr a)) hb ∧ may_hold w r l ∧
     slice hb (off (h_ptr a)) (h_size a) = Some bs ∧ splice l (h_offset a) bs = Some l' ∧ holds w' r l') ∨
   others None None w w' ∧ has (h_flags a) UR_MAP_FLAG_WRITE_INVALIDATE_REGION = true ∧ ∀ l, ¬ holds w r l).

Lemma find_mapping_In p l a rest : find_mapping p l = Some (a, rest) →
  h_ptr a = p ∧ a ∈ l ∧ ∀ x, x ∈ rest → x ∈ l.
Proof.
  revert rest. induction l as [|b l IH]; intros rest; cbn; [done|]. case_bool_decide as Hb.
  - intros [= <- <-]. split_and!; [done|left|by right].
  - destruct (find_mapping p l) as [[a' r']|] eqn:E; [|done]. cbn. intros [= <- <-].
    destruct (IH r' eq_refl) as (H1 & H2 & H3). split_and!; [done|by right|].
    intros x [->|Hx]%elem_of_cons; [left|right; by apply H3].
Qed.

(** The end of an unmap: the mapping is removed; memory of the application stays. *)
Lemma runs_remove c w r d a rest w0 : Coh c w → discrete_at w r d → a ∈ hostAllocations d →
  (∀ x, x ∈ rest → x ∈ hostAllocations d) →
  (∀ w', Coh c w' → others None None w w' → (∃ d', discrete_at w' r d' ∧ hostAllocations d' = rest) → unmaps c r a rest w0 w') →
  runs (set_object r (Discrete (set_host rest d));; delete_mapping (mapToPtr d) a) (λ _ w', unmaps c r a rest w0 w') (Coh c) w.
Proof.
  intros Hc Hd Ha Hrest HQ. apply runs_bind, runs_modify.
  pose proof (v_discrete c w Hc r d Hd) as [_ _ _ Hm Hh Hs].
  destruct (Coh_set_host c w r d rest Hc Hd) as (Hc2 & Ho2 & Hd2).
  { intros x Hx. by apply Hm, Hrest. }
  { intros p x Hp Hx. by eapply Hs, Hrest. }
  assert (Hgoal : unmaps c r a rest w0 (with_discrete r (set_host rest d) w)) by (apply HQ; [done|done|by eexists]).
  unfold delete_mapping. destruct (mapToPtr d) as [p|] eqn:Ep; [|by apply runs_ret].
  destruct (Hh p eq_refl) as [Hno _]. rewrite (Hs p a eq_refl Ha). unfold runs, pool_free.
  rewrite bool_decide_false by done. done.
Qed.

Lemma runs_discrete_unmap c w r d p a rest : Coh c w → discrete_at w r d →
  (∀ dev, head (getDevices c) = Some dev → (dev < getNumDevices c)%nat) → is_Some (head (getDevices c)) →
  find_mapping p (hostAllocations d) = Some (a, rest) →
  runs (discrete_unmapHostPtr c r p unmap_copy) (λ _ w', unmaps c r a rest w w') (Coh c) w.
Proof.
  intros Hc Hd Hdev [dev0 Edev] Hfind. destruct (find_mapping_In p _ a rest Hfind) as (Hp & Ha & Hrest).
  unfold discrete_unmapHostPtr. apply runs_bind, (runs_get_discrete r d); [done|]. rewrite Hfind.
  pose proof (k_mapped c w d (v_discrete c w Hc r d Hd) a Ha) as (Hra & Hoff & Hend).
  destruct (host_range_is c w (h_ptr a) (h_size a) Hc Hra) as (hb & Hhb & R1 & R2 & R3).
  destruct (slice_exists hb (off (h_ptr a)) (h_size a)) as [bs Hbs]; [lia|lia|lia|].
  assert (Hlb : Z.of_nat (length bs) = h_size a) by (by eapply slice_length).
  (* with memory on the device *)
  assert (Hcopy : ∀ w1 d1 dev b l, Coh c w1 → others None None w w1 → discrete_at w1 r d1 →
    activeAllocationDevice d1 = Some dev → deviceAllocations d1 !! dev = Some (Some (Ptr b 0)) → holds_at w1 r b l →
    hostAllocations d1 = hostAllocations d → Z.of_nat (length l) = d_size d → may_hold w r l →
    runs ((dst ← getActiveDeviceAlloc d1 (h_offset a); unmap_copy (h_ptr a) dst (h_size a));;
          set_object r (Discrete (set_host rest d1));; delete_mapping (mapToPtr d1) a)
      (λ _ w', unmaps c r a rest w w') (Coh c) w1).
  { intros w1 d1 dev b l Hc1 Ho1 Hd1 Ea Eb Hh Eh Hl Hm. apply runs_bind, runs_bind, (runs_active _ _ dev b); [done|done|].
    destruct (splice_exists l (h_offset a) bs) as [l' Hl']; [lia|lia|].
    assert (Hhb1 : host_is w1 (blk (h_ptr a)) hb) by (by apply (o_host _ _ _ _ Ho1)).
    eapply runs_mono; [by eapply runs_copy_in| |done]. intros ? w2 (Hc2 & Ho2 & Hh2 & Ebf).
    assert (Hd2 : discrete_at w2 r d1) by (destruct Hd1 as [n' Hd1]; exists n'; by rewrite Ebf).
    apply (runs_remove c w2 r d1 a rest w); [done|done|by rewrite Eh|by rewrite Eh|].
    intros w3 Hc3 Ho3 He. split; [done|]. split; [done|left]. split.
    - eapply others_trans; [by apply others_none|]. eapply others_trans; [done|by apply others_none].
    - exists hb, l, bs, l'. split_and!; [done|done|done|done|]. exists b. by apply (o_holds _ _ _ _ Ho3). }
  destruct (activeAllocationDevice d) as [dev|] eqn:Ea.
  - apply runs_bind, runs_ret, runs_bind, (runs_get_discrete r d); [done|]. rewrite Ea.
    destruct (holds_of c w r d dev Hc Hd Ea) as (b & l & Eb & Hh & Hl).
    eapply (Hcopy w d dev b l); try done.
    split; [|intros n (d2 & Hd2 & <-)%skel_discrete; by rewrite (discrete_at_fun _ _ _ _ Hd2 Hd)].
    intros x [b' Hx]. by destruct (holds_at_fun _ _ _ _ _ _ Hx Hh).
  - assert (Hno : ∀ l, ¬ holds w r l).
    { intros l (b & d2 & dev & m & H1 & H2 & _). rewrite (discrete_at_fun _ _ _ _ H1 Hd) in H2. congruence. }
    apply runs_bind. destruct (has (h_flags a) UR_MAP_FLAG_WRITE_INVALIDATE_REGION) eqn:Ef; cbn [negb].
    + apply runs_ret, runs_bind, (runs_get_discrete r d); [done|]. rewrite Ea. apply runs_bind, runs_ret.
      apply (runs_remove c w r d a rest w); [done|done|done|done|]. intros w' Hc' Ho' He.
      split; [done|]. split; [done|by right].
    + apply runs_bind, (runs_some dev0); [done|].
      eapply runs_mono; [apply (runs_allocate c w r d dev0 Hc Hd Ea); by apply Hdev| |by intros w' ->].
      intros ? w1 (Hc1 & Ho1 & _ & d1 & b & l & Hd1 & Ea1 & Eh1 & Em1 & Eb1 & Hh1 & Hl1).
      apply runs_bind, (runs_get_discrete r d1); [done|]. rewrite Ea1.
      eapply (Hcopy w1 d1 dev0 b l); try done.
      split; [by intros x Hx; destruct (Hno x)|]. intros n (d2 & Hd2 & <-)%skel_discrete.
      by rewrite (discrete_at_fun _ _ _ _ Hd2 Hd).
Qed.

Lemma unmaps_later c r a rest w w1 w2 : unmaps c r a rest w w1 → Coh c w2 → others None None w1 w2 →
  buffers w2 = buffers w1 → unmaps c r a rest w w2.
Proof.
  intros (Hc1 & (d & [n Hd] & Hl) & Hcase) Hc2 Ho2 Eb. split; [done|]. split; [exists d; split; [by exists n; rewrite Eb|done]|].
  destruct Hcase as [(Ho1 & hb & l & bs & l' & H1 & H2 & H3 & H4 & [b H5])|(Ho1 & Hf & Hno)].
  - left. split; [eapply others_trans; [done|by apply others_none]|]. exists hb, l, bs, l'. split_and!; try done.
    exists b. by apply (o_holds _ _ _ _ Ho2).
  - right. split_and!; [by eapply others_trans|done|done].
Qed.

Lemma host_is_fun w b l1 l2 : host_is w b l1 → host_is w b l2 → l1 = l2.
Proof. intros [_ (m1 & E1 & E2)] [_ (m2 & E3 & E4)]. congruence. Qed.

Lemma size_nonneg c w h k : Coh c w → size_of (skel w) h = Some k → 0 ≤ k.
Proof.
  intros Hc. unfold size_of. destruct (skel w !! h) as [[n|n|parent o n|]|] eqn:E; try done; intros [= <-].
  - by apply (size_bound c w h).
  - by apply (v_kind c w Hc) in E.
  - by destruct (v_sub c w Hc _ _ _ _ E) as (_ & _ & _ & _ & Hn & _).
Qed.

Lemma runs_unmap c h p evs ev r base k d a rest w : Coh c w → size_of (skel w) h = Some k →
  root (S h) (skel w) h = Some (r, base) → discrete_at w r d →
  (∀ dev, head (getDevices c) = Some dev → (dev < getNumDevices c)%nat) → is_Some (head (getDevices c)) →
  find_mapping p (hostAllocations d) = Some (a, rest) →
  runs (enqueueMemUnmap c h p evs ev) (λ _ w', unmaps c r a rest w w') (Coh c) w.
Proof.
  intros Hc Hk Hr Hd Hdev Hhead Hfind. unfold enqueueMemUnmap.
  apply (runs_command evs ev). intros e w1 Hq. pose proof (Coh_quiet c w w1 Hq Hc) as Hc1.
  apply runs_bind. eapply runs_mono; [apply (runs_nothing c w1); [done|by left]| |done].
  intros ? w2 (Hc2 & Ho2 & Eb2). apply runs_bind, runs_clear_view. intros w3 Hq3.
  pose proof (Coh_quiet c w2 w3 Hq3 Hc2) as Hc3.
  assert (Eb3 : buffers w3 = buffers w) by (rewrite (q_buffers _ _ Hq3), Eb2; apply (q_buffers _ _ Hq)).
  assert (Es3 : skel w3 = skel w) by (unfold skel; by rewrite Eb3).
  assert (Ho3 : others None None w w3).
  { eapply others_trans; [by apply others_quiet|]. eapply others_trans; [done|by apply others_quiet]. }
  assert (Hd3 : discrete_at w3 r d) by (destruct Hd as [n Hd]; exists n; by rewrite Eb3).
  apply runs_bind. eapply (runs_mono _ (λ _ w', unmaps c r a rest w3 w')); [| |done].
  { unfold runs. rewrite (root_method c w3 unit (λ f h o, unmapHostPtr f c h p unmap_copy)
      (λ h o, discrete_unmapHostPtr c h p unmap_copy) Hc3) with (n := k) (r := r) (base := base) (o := 0);
      rewrite ?Es3; try done; try lia.
    - by apply (runs_discrete_unmap c w3 r d p a rest).
    - intros fuel g refs d0 x E. cbn. unfold mbind at 1, eff_bind at 1, get_mem, gets, mbind, eff_bind. by rewrite E.
    - intros fuel g refs s x E. cbn. unfold mbind at 1, eff_bind at 1, get_mem, gets, mbind, eff_bind. by rewrite E.
    - by pose proof (size_nonneg c w h k Hc Hk). }
  intros ? w4 Hu. pose proof Hu as (Hc4 & _). apply runs_bind.
  eapply runs_mono; [by apply (runs_signal c)| |done]. intros ? w5 (H1 & H2 & H3). apply runs_ret.
  pose proof (unmaps_later _ _ _ _ _ _ _ Hu H1 H2 H3) as (Hc5 & He & Hcase). split; [done|]. split; [done|].
  destruct Hcase as [(Ho5 & hb & l & bs & l' & A1 & A2 & A3 & A4 & A5)|(Ho5 & Hf & Hno)].
  - left. split; [eapply others_trans; [by apply others_none|done]|].
    destruct (find_mapping_In _ _ _ _ Hfind) as (_ & Hin & _).
    destruct (host_range_is c w (h_ptr a) (h_size a) Hc) as (hb0 & Hhb0 & _).
    { by apply (k_mapped c w d (v_discrete c w Hc r d Hd)). }
    assert (hb = hb0) as -> by (eapply host_is_fun; [exact A1|by apply (o_host _ _ _ _ Ho3)]).
    exists hb0, l, bs, l'. split_and!; try done. by eapply (may_hold_back w w3).
  - right. split_and!; [by eapply others_trans|done|]. intros l [b Hl]. apply (Hno l). exists b. by apply (o_holds _ _ _ _ Ho3).
Qed.
End mapping.
