(* ===== verification/L0Runs.v ===== *)
(** * L0Runs: what every run of the Level Zero v2 adapter's buffers gives

    New buffers and sub-buffers, the application's own memory, and the calls as
    steps of a system: what each promises in every state that they reach. *)
From S2P Require Import Prelude UrUtil UrHelpers Effects L0Buffer L0Coherence L0Mapping.

Section creation.
Context `{!Ze, !ZeLaws}.
Implicit Types w : world.

(** ** New objects *)

(** What a call adds: handle [h], which was free. *)
Record grew (h : nat) w w' : Prop := mkGrew {
  g_free : skel w !! h = None;
  g_skel : ∃ k, skel w' = <[h := k]> (skel w);
  g_holds : ∀ g b l, holds_at w g b l → holds_at w' g b l;
  g_host : ∀ b l, host_is w b l → host_is w' b l
}.

Definition add_mem (o : mem_object) w : world := set_buffers <[next_handle w := mkMem o 1]> (take_handle w).

Definition newborn (c : context) w (o : mem_object) : Prop :=
  match o with
  | Discrete d => 0 ≤ d_size d < 2 ^ 64 ∧ deviceAllocations d = replicate (getNumDevices c) None ∧
      activeAllocationDevice d = None ∧ hostAllocations d = [] ∧
      ∀ p, mapToPtr d = Some p → (blk p ∉ pool_blocks w) ∧ host_range w p (d_size d)
  | SubBuffer s => ∃ k, size_of (skel w) (hParent s) = Some k ∧ 0 ≤ s_offset s ∧ 0 ≤ s_size s ∧
      s_offset s + s_size s ≤ k
  | _ => False
  end.

Section add.
Context (c : context) w (o : mem_object).
Hypotheses (Hc : Coh c w) (Ho : newborn c w o).

Lemma next_free : buffers w !! next_handle w = None.
Proof. destruct (buffers w !! next_handle w) eqn:E; [|done]. pose proof (v_handle c w Hc (next_handle w) (mk_is_Some _ _ E)). lia. Qed.

Lemma skel_add : skel (add_mem o w) = <[next_handle w := skeleton_of (mkMem o 1)]> (skel w).
Proof. unfold skel, add_mem. cbn. by rewrite fmap_insert. Qed.

Lemma skel_next : skel w !! next_handle w = None.
Proof. unfold skel. by rewrite lookup_fmap, next_free. Qed.

Lemma discrete_add g x : discrete_at (add_mem o w) g x → (g = next_handle w ∧ o = Discrete x) ∨ discrete_at w g x.
Proof.
  intros [n E]. unfold add_mem in E. cbn in E.
  apply lookup_insert_Some in E as [[<- E]|[_ E]]; [left; split; congruence|right; by exists n].
Qed.

Lemma discrete_add_old g x : discrete_at w g x → discrete_at (add_mem o w) g x.
Proof.
  intros [n E]. exists n. unfold add_mem. cbn. rewrite lookup_insert_ne; [done|].
  intros <-. by rewrite next_free in E.
Qed.

Lemma owned_add b g : owned (add_mem o w) b g → owned w b g.
Proof.
  intros (x & i & p & Hx & Hi & Hb). destruct (discrete_add g x Hx) as [[-> E]|Hx']; [|by exists x, i, p].
  rewrite E in Ho. destruct Ho as (_ & Er & _). rewrite Er in Hi. by apply lookup_replicate in Hi as [? _].
Qed.

Lemma size_of_add h k : size_of (skel w) h = Some k → size_of (skel (add_mem o w)) h = Some k.
Proof.
  unfold size_of. rewrite skel_add. intros E. rewrite lookup_insert_ne; [done|].
  intros <-. by rewrite skel_next in E.
Qed.

Lemma range_add p n : host_range w p n → host_range (add_mem o w) p n.
Proof. intros [Hno Hr]. split; [|exact Hr]. intros g Hg. by apply (Hno g), owned_add. Qed.

Lemma discrete_ok_add x : discrete_ok c w x → discrete_ok c (add_mem o w) x.
Proof.
  intros [A B C D E F]. split; [done|done|done| | |done].
  - intros a Ha. destruct (D a Ha). split; [by apply range_add|done].
  - intros p Hp. destruct (E p Hp). split; [done|by apply range_add].
Qed.

Lemma Coh_add : Coh c (add_mem o w) ∧ grew (next_handle w) w (add_mem o w).
Proof.
  pose proof Hc as [J1 [m J2] J3 J4 J5 J6 J7 J8]. split; split.
  - done.
  - by exists m.
  - intros g x Hx. destruct (discrete_add g x Hx) as [[-> E]|Hx']; [|by apply discrete_ok_add, (J3 g)].
    pose proof Ho as Ho'. rewrite E in Ho'. destruct Ho' as (H1 & H2 & H3 & H4 & H5). split; [done| | | | |].
    + by rewrite H2, length_replicate.
    + rewrite H3, H2. intros i p Hi. by apply lookup_replicate in Hi as [? _].
    + rewrite H4. by intros a ?%elem_of_nil.
    + intros p Hp. destruct (H5 p Hp). split; [done|by apply range_add].
    + rewrite H4. by intros p a _ ?%elem_of_nil.
  - intros b g1 g2 H1 H2. by apply (J4 b); apply owned_add.
  - intros g parent x n. pose proof size_of_add as Hsz. rewrite skel_add in *.
    intros [[<- E]|[Hne E]]%lookup_insert_Some.
    + unfold newborn in Ho. destruct o as [i|d|s|]; try done. injection E as <- <- <-.
      destruct Ho as (k & Ek & Hb). split; [|by exists k; split; [apply Hsz|]].
      unfold size_of in Ek. destruct (skel w !! hParent s) as [y|] eqn:Ey; [|done].
      apply skel_lookup in Ey as (e & Ee & _). apply (v_handle c w Hc). by exists e.
    + destruct (J5 g parent x n E) as (H1 & k & H2 & H3). split; [done|]. exists k. split; [by apply Hsz|done].
  - intros g n. rewrite skel_add. intros [[_ E]|[_ E]]%lookup_insert_Some; [|by apply (J6 g n)].
    unfold newborn in Ho. by destruct o.
  - unfold add_mem. cbn. intros g [e [[<- _]|[_ E]]%lookup_insert_Some]; [lia|].
    pose proof (J7 g (mk_is_Some _ _ E)). lia.
  - done.
  - apply skel_next.
  - eexists. apply skel_add.
  - intros g b l (d & dev & m' & H1 & H2 & H3 & H4 & H5). exists d, dev, m'. split_and!; try done. by apply discrete_add_old.
  - intros b l [Hno Hm]. split; [|exact Hm]. intros g Hg. by apply (Hno g), owned_add.
Qed.
End add.

Lemma grew_later h w w1 w2 : grew h w w1 → others None None w1 w2 → grew h w w2.
Proof.
  intros [H1 [k H2] H3 H4] [O1 O2 O3]. split; [done|exists k; by rewrite O1| |].
  - intros g b l Hl. by apply O2, H3.
  - intros b l Hl. by apply O3, H4.
Qed.

Lemma runs_new_mem c o w : Coh c w → newborn c w o →
  runs (new_mem o) (λ h w', h = next_handle w ∧ w' = add_mem o w) (Coh c) w.
Proof. done. Qed.

(** ** Buffers *)

Definition discrete_context (c : context) : Prop :=
  useHostBuffer c = false ∧ is_Some (head (getDevices c)) ∧
  ∀ dev, head (getDevices c) = Some dev → (dev < getNumDevices c)%nat.

Lemma runs_create imp c flags n w : Coh c w → discrete_context c → 0 ≤ n < 2 ^ 64 →
  runs (urMemBufferCreate imp c flags n None)
    (λ h w', Coh c w' ∧ grew h w w' ∧ size_of (skel w') h = Some n ∧ ∀ l, ¬ holds w' h l) (Coh c) w.
Proof.
  intros Hc (Hu & _ & _) Hn. unfold urMemBufferCreate. rewrite Hu.
  apply runs_bind, runs_ret. set (d := mkDiscrete _ _ _ _ _ _ _).
  assert (Ho : newborn c w (Discrete d)) by done.
  eapply runs_mono; [by apply (runs_new_mem c)| |done]. intros h w' [-> ->].
  destruct (Coh_add c w (Discrete d) Hc Ho) as [H1 H2]. split_and!; [done|done| |].
  - unfold size_of. by rewrite skel_add, lookup_insert_eq.
  - intros l (b & x & dev & m & Hx & Ha & _). destruct Hx as [k Hx]. unfold add_mem in Hx. cbn in Hx.
    rewrite lookup_insert_eq in Hx. injection Hx as <- _. done.
Qed.

(** Reference counts do not matter here. *)
Definition retained (h : nat) (n : Z) w : world := set_buffers (alter (λ e, mkMem (object e) n) h) w.

Lemma retained_object h n w g : object <$> buffers (retained h n w) !! g = object <$> buffers w !! g.
Proof.
  unfold retained. cbn. destruct (decide (g = h)) as [->|]; [|by rewrite lookup_alter_ne].
  rewrite lookup_alter_eq. by destruct (buffers w !! h).
Qed.

Lemma retained_discrete h n w g d : discrete_at (retained h n w) g d ↔ discrete_at w g d.
Proof.
  pose proof (retained_object h n w g) as E. unfold discrete_at. split; intros [k Hk]; rewrite Hk in E.
  - destruct (buffers w !! g) as [[o m]|]; cbn in E; [|congruence]. exists m. congruence.
  - destruct (buffers (retained h n w) !! g) as [[o m]|]; cbn in E; [|congruence]. exists m. congruence.
Qed.

Lemma retained_skel h n w : skel (retained h n w) = skel w.
Proof.
  apply map_eq. intros g. unfold skel. rewrite !lookup_fmap. pose proof (retained_object h n w g) as E.
  destruct (buffers (retained h n w) !! g) as [[o m]|], (buffers w !! g) as [[o' m']|]; cbn in E; try congruence.
  assert (o = o') as -> by congruence. done.
Qed.

Lemma retained_owned h n w b g : owned (retained h n w) b g → owned w b g.
Proof. intros (d & i & p & Hd & Hi & Hb). exists d, i, p. by split; [eapply retained_discrete|]. Qed.

Lemma Coh_retained c h n w : Coh c w → Coh c (retained h n w) ∧ others None None w (retained h n w).
Proof.
  intros [J1 J2 J3 J4 J5 J6 J7 J8]. assert (Hr : ∀ p k, host_range w p k → host_range (retained h n w) p k).
  { intros p k [Hno Hr]. split; [|exact Hr]. intros g Hg. by apply (Hno g), (retained_owned h n). }
  split; split; try done; rewrite ?retained_skel; try done.
  - intros g d Hd%retained_discrete. destruct (J3 g d Hd) as [A B C D E F]. split; [done|done|done| | |done].
    + intros a Ha. destruct (D a Ha). split; [by apply Hr|done].
    + intros p Hp. destruct (E p Hp). split; [done|by apply Hr].
  - intros b g1 g2 H1 H2. by apply (J4 b); apply (retained_owned h n).
  - intros g [e He]. apply J7. pose proof (retained_object h n w g) as E. rewrite He in E.
    destruct (buffers w !! g); cbn in E; [by eexists|congruence].
  - intros g b l _ (d & dev & m & H1 & H2). exists d, dev, m. by split; [apply retained_discrete|].
  - intros b l _ [Hno Hm]. split; [|exact Hm]. intros g Hg. by apply (Hno g), (retained_owned h n).
Qed.

Lemma runs_getMode c w h k : Coh c w → size_of (skel w) h = Some k →
  runs (getMode h) (λ _ w', w' = w) (Coh c) w.
Proof.
  intros _. unfold size_of. destruct (skel w !! h) as [x|] eqn:Ex; [|done].
  apply skel_lookup in Ex as ([o refs] & He & <-). intros Hs. apply runs_bind, (runs_get_mem _ (mkMem o refs)); [done|].
  by destruct o.
Qed.

(** Sub-buffers share the buffer's memory; the caller keeps the region in it. *)
Lemma runs_partition c h flags o n k w : Coh c w → size_of (skel w) h = Some k → 0 ≤ o → 0 ≤ n → o + n ≤ k →
  runs (urMemBufferPartition h flags o n)
    (λ g w', Coh c w' ∧ grew g w w' ∧ skel w' !! g = Some (KSub h o n)) (Coh c) w.
Proof.
  intros Hc Hk Ho Hn Hb. unfold urMemBufferPartition.
  apply runs_bind, (runs_getSize h k); [done|]. apply runs_bind, runs_guard; [|done]. intros _.
  apply runs_bind. eapply runs_mono; [by eapply runs_getMode| |done]. intros mode w' ->.
  apply runs_bind, runs_guard; [|done]. intros _. unfold urMemRetain.
  assert (Hin : is_Some (buffers w !! h)).
  { unfold size_of in Hk. destruct (skel w !! h) as [x|] eqn:Ex; [|done]. apply skel_lookup in Ex as (e & -> & _). by eexists. }
  destruct Hin as [e He]. apply runs_bind, runs_bind, (runs_get_mem h e); [done|]. apply runs_modify.
  set (w1 := set_buffers _ w). assert (E1 : w1 = retained h (w32 (RefCount e + 1)) w).
  { unfold w1, retained, set_buffers. f_equal. apply alter_ext. intros x Hx. rewrite He in Hx. by injection Hx as <-. }
  clearbody w1. subst w1. destruct (Coh_retained c h (w32 (RefCount e + 1)) w Hc) as [Hc1 Ho1].
  set (w1 := retained h _ w) in *. set (s := mkSub _ _ _ _).
  assert (Hnew : newborn c w1 (SubBuffer s)) by (exists k; rewrite (o_skel _ _ _ _ Ho1); done).
  eapply runs_mono; [by apply (runs_new_mem c)| |done]. intros g w' [-> ->].
  destruct (Coh_add c w1 (SubBuffer s) Hc1 Hnew) as [H1 [H2 [x H3] H4 H5]]. split_and!; [done| |].
  - destruct Ho1 as [O1 O2 O3]. split; [by rewrite <- O1|exists x; by rewrite H3, O1| |].
    + intros g b l Hl. by apply H4, O2.
    + intros b l Hl. by apply H5, O3.
  - by rewrite skel_add, lookup_insert_eq.
Qed.

(** *** A buffer with the contents of host memory *)

Lemma free_all_none n w : free_all (replicate n None) w = (Ret tt, w).
Proof. induction n as [|n IH]; cbn [replicate free_all]; [done|exact IH]. Qed.

(** Freeing the one block of a new buffer. *)
Lemma free_all_one n i p w : (i < n)%nat → (pool_free p w).1 = Ret tt →
  free_all (<[i := Some p]> (replicate n None)) w = (Ret tt, (pool_free p w).2).
Proof.
  revert n. induction i as [|i IH]; intros [|n] Hi Hf; try lia; cbn [replicate insert list_insert free_all].
  - unfold mbind, eff_bind. destruct (pool_free p w) as [o w'] eqn:E. cbn in Hf. subst o. cbn. apply free_all_none.
  - apply IH; [lia|done].
Qed.

Lemma free_new_block c b l w w1 : Coh c w → mem w !! b = None → quiet (with_block b l w) w1 →
  (pool_free (Ptr b 0) w1).1 = Ret tt ∧ quiet w (pool_free (Ptr b 0) w1).2.
Proof.
  intros Hc Hb [E1 E2 E3 E4 E5]. unfold pool_free. cbn [blk off].
  rewrite bool_decide_true by (rewrite E4; cbn; set_solver). cbn. split; [done|].
  split; cbn; rewrite ?E1, ?E2, ?E3, ?E4, ?E5; try done.
  - by apply delete_insert_id.
  - cbn. apply set_eq. intros x. assert (b ∉ pool_blocks w); [|set_solver].
    intros Hin. destruct (v_pool c w Hc b Hin). congruence.
Qed.

Lemma Coh_new_block c w d d' dev b bs w' : Coh c w → newborn c w (Discrete d) → (dev < getNumDevices c)%nat →
  mem w !! b = None → Z.of_nat (length bs) = d_size d →
  d' = set_allocations (<[dev := Some (Ptr b 0)]> (deviceAllocations d)) (Some dev) d →
  quiet (with_block b bs w) w' →
  Coh c (add_mem (Discrete d') w') ∧ grew (next_handle w) w (add_mem (Discrete d') w') ∧
  holds_at (add_mem (Discrete d') w') (next_handle w) b bs.
Proof.
  intros Hc Ho Hdev Hb Hl -> Hq. destruct (Coh_add c w (Discrete d) Hc Ho) as [HcA HgA].
  set (wA := add_mem (Discrete d) w) in *. set (h := next_handle w) in *.
  assert (HdA : discrete_at wA h d) by (exists 1; unfold wA, add_mem; cbn; apply lookup_insert_eq).
  assert (HnA : activeAllocationDevice d = None) by apply Ho.
  destruct (Coh_allocate c wA h d dev b bs HcA HdA HnA Hdev Hb Hl) as (HcB & HoB & HhB).
  set (d' := set_allocations _ _ d) in *. set (wB := with_discrete h d' (with_block b bs wA)) in *.
  assert (Hqq : quiet wB (add_mem (Discrete d') w')).
  { destruct Hq as [E1 E2 E3 E4 E5]. split; cbn; rewrite ?E1, ?E2, ?E3, ?E4, ?E5; try done.
    unfold wA, add_mem. cbn. fold h. rewrite alter_insert_eq. done. }
  split_and!; [by eapply Coh_quiet| |by eapply holds_quiet].
  eapply grew_later; [exact HgA|]. eapply others_trans; [exact HoB|by apply others_quiet].
Qed.

(** The host memory must not be awaiting a command, and must not be the pool's. *)
Lemma runs_create_from imp c flags n p bs w : Coh c w → discrete_context c → 0 ≤ n < 2 ^ 64 →
  (blk p ∉ pool_blocks w) → host_range w p n → read_bytes (mem w) p n = Some bs →
  runs (urMemBufferCreate imp c flags n (Some p))
    (λ h w', Coh c w' ∧ grew h w w' ∧ size_of (skel w') h = Some n ∧ holds w' h bs) (Coh c) w.
Proof.
  intros Hc (Hu & [dev Hhead] & Hdev) Hn Hp Hr Hbs. specialize (Hdev dev Hhead).
  unfold urMemBufferCreate. rewrite Hu. set (mode := getDeviceAccessMode flags).
  set (d := mkDiscrete n mode (replicate (getNumDevices c) None) None None (Some p) []).
  assert (Ho : newborn c w (Discrete d)).
  { split; [exact Hn|]. split_and!; [done|done|done|]. by intros q [= <-]. }
  assert (Hrep : replicate (getNumDevices c) (@None ptr) !! dev = Some None) by (by apply lookup_replicate_2).
  apply runs_bind. unfold new_discrete. fold d. apply runs_bind, (runs_some dev); [done|].
  unfold migrateBufferTo. apply runs_bind, (runs_some None); [done|]. apply runs_bind.
  unfold allocateOnDevice. apply runs_bind, (runs_some None); [done|]. apply runs_bind.
  eapply runs_mono; [by apply (runs_pool_allocate c)| |by intros w' ->].
  intros ? w1 (b & l & -> & Hb & Hl & ->). apply runs_ret.
  set (d' := set_allocations (<[dev := Some (Ptr b 0)]> (deviceAllocations d)) (Some dev) d).
  apply runs_bind. unfold unwind, runs at 1.
  assert (Hcopy : runs (synchronousZeCopy (Ptr b 0) p n) (λ _ w2, quiet (with_block b bs w) w2)
    (quiet (with_block b l w)) (with_block b l w)).
  { apply runs_bind. eapply runs_mono; [apply runs_ze_call| |done].
    intros ? w2 Hq. cbn in Hq. apply runs_bind, runs_gets, runs_bind.
    assert (Hlb : Z.of_nat (length bs) = n).
    { apply read_bytes_Some in Hbs as (l0 & _ & Es). by eapply slice_length. }
    assert (Hne : b ≠ blk p) by (destruct Hr as (_ & l0 & El & _); congruence).
    apply (runs_some (<[b := bs]> (mem w))).
    - apply (ze_copy _ _ _ _ bs).
      + rewrite (q_mem _ _ Hq). apply read_bytes_Some in Hbs as (l0 & El & Es). apply read_bytes_Some.
        exists l0. split; [|done]. cbn. by rewrite lookup_insert_ne.
      + rewrite (q_mem _ _ Hq). apply write_bytes_Some. exists l, bs. cbn. split_and!.
        * apply lookup_insert_eq.
        * apply splice_Some. cbn. split_and!; [lia|lia|]. rewrite drop_ge by lia. by rewrite app_nil_r.
        * by rewrite insert_insert_eq.
      + by left.
    - apply runs_modify. destruct Hq as [E1 E2 E3 E4 E5]. split; cbn; [done|by rewrite E2|by rewrite E3|by rewrite E4|by rewrite E5]. }
  unfold runs in Hcopy. destruct (synchronousZeCopy (Ptr b 0) p n (with_block b l w)) as [[?|ex|] w2]; [|..|done].
  - apply runs_ret. eapply (runs_mono _ (λ h w', h = next_handle w2 ∧ w' = add_mem (Discrete d') w2) _ (Coh c)); [done| |done].
    intros h w' [-> ->]. assert (En : next_handle w2 = next_handle w) by apply Hcopy. rewrite En.
    assert (Hlb : Z.of_nat (length bs) = d_size d).
    { apply read_bytes_Some in Hbs as (l0 & _ & Es). by eapply slice_length. }
    destruct (Coh_new_block c w d d' dev b bs w2) as (H1 & H2 & H3); try done.
    split_and!; [done|done| |by exists b]. unfold size_of. rewrite skel_add, En, lookup_insert_eq. done.
  - destruct (free_new_block c b l w w2 Hc Hb Hcopy) as [F1 F2]. cbn [deviceAllocations d' set_allocations d].
    rewrite free_all_one by done. by eapply Coh_quiet.
Qed.

(** ** The application's own memory *)

(** Memory that the application gets, and a change of it while no command is to run. *)
Definition host_alloc (b : nat) (l : list Z) w : world := set_mem (<[b := l]> (mem w)) w.

Lemma Coh_host_alloc c b l w : Coh c w → mem w !! b = None →
  Coh c (host_alloc b l w) ∧ others None None w (host_alloc b l w) ∧ host_is (host_alloc b l w) b l.
Proof.
  intros Hc Hb. destruct (Coh_block c w b l Hc Hb) as [J1 J2 J3 J4 J5 J6 J7 J8].
  destruct (others_block w b l Hb (v_final c w Hc)) as [O1 O2 O3].
  split; [split|split; [done|]]; try done.
  - intros h d Hd. destruct (J3 h d Hd) as [A B C D E F]. split; [done|done|done|done| |done].
    intros p Hp. destruct (E p Hp) as [H1 H2]. split; [|done]. cbn in H1. intros Hin. apply H1. set_solver.
  - cbn. intros b' Hb'. apply (J8 b'). cbn. set_solver.
  - destruct (v_final c w Hc) as [m Hm]. split; [|exists (<[b := l]> m); split; [by apply final_frame|apply lookup_insert_eq]].
    intros h Hh. destruct (owned_in_mem c w b h Hc Hh). congruence.
Qed.

Lemma Coh_host_store c b l l' w : Coh c w → appended w = [] → host_is w b l → length l' = length l →
  Coh c (host_alloc b l' w) ∧ others None (Some b) w (host_alloc b l' w) ∧ host_is (host_alloc b l' w) b l'.
Proof.
  intros Hc He [Hno (m & Em & Hl)] Hlen. assert (m = mem w) as -> by (unfold final in Em; rewrite He in Em; by injection Em).
  assert (Hf : final (host_alloc b l' w) = Some (<[b := l']> (mem w))) by (unfold final, host_alloc; cbn; by rewrite He).
  assert (Hrange : ∀ p n, host_range w p n → host_range (host_alloc b l' w) p n).
  { intros p n (Hn & x & Ex & H1 & H2 & H3). split; [exact Hn|]. cbn. destruct (decide (blk p = b)) as [Eb|].
    - rewrite Eb in *. exists l'. rewrite lookup_insert_eq. assert (x = l) as -> by congruence. split_and!; [done|done|done|lia].
    - exists x. by rewrite lookup_insert_ne. }
  assert (Hfree : ∀ h b' x, holds_at w h b' x → b' ≠ b).
  { intros h b' x (d & dev & m & H1 & H2 & H3 & _) ->. apply (Hno h). by exists d, dev, (Ptr b 0). }
  pose proof Hc as [J1 J2 J3 J4 J5 J6 J7 J8]. split; [split|split; [split|]]; try done.
  - intros h d Hd. pose proof (J3 h d Hd) as [A B C D E F]. split; [done|done| | | |done].
    + destruct (activeAllocationDevice d) as [dev|] eqn:Ea; [|done]. destruct C as (b' & x & H1 & H2 & H3 & H4).
      exists b', x. split_and!; [done| |done|done]. cbn. rewrite lookup_insert_ne; [done|].
      intros ->. apply (Hno h). by exists d, dev, (Ptr b' 0).
    + intros a Ha. destruct (D a Ha). split; [by apply Hrange|done].
    + intros p Hp. destruct (E p Hp). split; [done|by apply Hrange].
  - cbn. intros b' Hb'. destruct (decide (b' = b)) as [->|]; [rewrite lookup_insert_eq; by eexists|].
    rewrite lookup_insert_ne by done. by apply J8.
  - intros g b' x _ Hg. pose proof (Hfree g b' x Hg) as Hne. destruct Hg as (d & dev & m & H1 & H2 & H3 & H4 & H5).
    exists d, dev, (<[b := l']> (mem w)). split_and!; try done. rewrite lookup_insert_ne by done. congruence.
  - intros b' x Hne [Hn (m & E1 & E2)]. split; [exact Hn|]. exists (<[b := l']> (mem w)). split; [done|].
    rewrite lookup_insert_ne by congruence. congruence.
  - split; [exact Hno|]. exists (<[b := l']> (mem w)). split; [done|apply lookup_insert_eq].
Qed.

(** ** The system *)

(** Buffer [h] has [k] bytes and starts at [base] in discrete buffer [r]. *)
Definition located w (h r : nat) (base k : Z) : Prop :=
  size_of (skel w) h = Some k ∧ root (S h) (skel w) h = Some (r, base).

(** [n] bytes [bs] at [p] in the application's memory or in a mapping, once all
    commands have run. *)
Definition host_bytes w (p : ptr) (n : Z) (bs : list Z) : Prop :=
  ∃ hb, host_is w (blk p) hb ∧ slice hb (off p) n = Some bs.

(** What each call promises where it is allowed: [Q] when it returns, which it does
    under [P] unless the driver, the pool or a device's reach forbids it. *)
Inductive contract (imp : ptr → bool) (c : context) w : ∀ {A}, M A → Prop → (A → world → Prop) → Prop :=
  | c_create flags n : 0 ≤ n < 2 ^ 64 →
      contract imp c w (urMemBufferCreate imp c flags n None) True
        (λ h w', grew h w w' ∧ size_of (skel w') h = Some n ∧ ∀ l, ¬ holds w' h l)
  | c_create_from flags n p bs : 0 ≤ n < 2 ^ 64 → (blk p ∉ pool_blocks w) → host_range w p n →
      read_bytes (mem w) p n = Some bs →
      contract imp c w (urMemBufferCreate imp c flags n (Some p)) True
        (λ h w', grew h w w' ∧ size_of (skel w') h = Some n ∧ holds w' h bs)
  | c_partition h flags o n k : size_of (skel w) h = Some k → 0 ≤ o → 0 ≤ n → o + n ≤ k →
      contract imp c w (urMemBufferPartition h flags o n)
        (o < k ∧ ∃ mode, getMode h w = (Ret mode, w) ∧ isAccessCompatible (getDeviceAccessMode flags) mode = true)
        (λ g w', grew g w w' ∧ skel w' !! g = Some (KSub h o n))
  | c_write dev h blocking o n src evs ev r base k bs : (dev < getNumDevices c)%nat → located w h r base k →
      0 ≤ o → 0 ≤ n → o + n < 2 ^ 64 → host_bytes w src n bs →
      contract imp c w (appendMemBufferWrite c dev h blocking o n src evs ev) (o + n ≤ k)
        (λ _ w', o + n ≤ k ∧ updates c r (λ l, splice l (base + o) bs) w w')
  | c_read dev h blocking o n dst evs ev r base k hb : (dev < getNumDevices c)%nat → located w h r base k →
      0 ≤ o → 0 ≤ n → o + n < 2 ^ 64 → host_is w (blk dst) hb → 0 ≤ off dst → off dst + n ≤ Z.of_nat (length hb) →
      contract imp c w (appendMemBufferRead c dev h blocking o n dst evs ev) (o + n ≤ k)
        (λ _ w', o + n ≤ k ∧ others None (Some (blk dst)) w w' ∧ ∃ l bs hb', may_hold w r l ∧ holds w' r l ∧
           slice l (base + o) n = Some bs ∧ splice hb (off dst) bs = Some hb' ∧ host_is w' (blk dst) hb')
  | c_copy dev h1 h2 o1 o2 n evs ev r1 b1 k1 r2 b2 k2 : (dev < getNumDevices c)%nat →
      located w h1 r1 b1 k1 → located w h2 r2 b2 k2 → 0 ≤ o1 → 0 ≤ o2 → 0 ≤ n → o1 + n < 2 ^ 64 → o2 + n < 2 ^ 64 →
      SingleThreadMode c = true ∨ r1 ≠ r2 → (r1 = r2 → b1 + o1 + n ≤ b2 + o2 ∨ b2 + o2 + n ≤ b1 + o1) →
      contract imp c w (appendMemBufferCopy c dev h1 h2 o1 o2 n evs ev) (o1 + n ≤ k1 ∧ o2 + n ≤ k2)
        (λ _ w', others (Some r2) None w w' ∧ ∃ ls ld bs ld', may_hold w r1 ls ∧ may_hold w r2 ld ∧
           (r1 = r2 → ls = ld) ∧ (r1 ≠ r2 → holds w' r1 ls) ∧
           slice ls (b1 + o1) n = Some bs ∧ splice ld (b2 + o2) bs = Some ld' ∧ holds w' r2 ld')
  | c_fill dev h pat ps o n evs ev r base k bs : (dev < getNumDevices c)%nat → located w h r base k →
      0 ≤ o → 0 < ps → o + Z.of_nat n * ps < 2 ^ 64 → Z.of_nat n < 2 ^ 32 → host_bytes w pat ps bs →
      read_bytes (mem w) pat ps = Some bs →
      contract imp c w (enqueueMemBufferFill c dev h pat ps o (Z.of_nat n * ps) evs ev) (o + Z.of_nat n * ps ≤ k)
        (λ _ w', o + Z.of_nat n * ps ≤ k ∧ updates c r (λ l, splice l (base + o) (concat (replicate n bs))) w w')
  | c_map h blocking flags o n evs ev r base k : located w h r base k → 0 ≤ o → 0 ≤ n → o + n ≤ k →
      contract imp c w (enqueueMemBufferMap h blocking flags o n evs ev) True
        (λ a w', maps c r flags (base + o) n w a.1 w')
  | c_unmap h p evs ev r base k d a rest : located w h r base k → discrete_at w r d →
      find_mapping p (hostAllocations d) = Some (a, rest) →
      contract imp c w (enqueueMemUnmap c h p evs ev) True (λ _ w', unmaps c r a rest w w')
  | c_finish : contract imp c w synchronize True (λ _ w', others None None w w' ∧ appended w' = []).

Lemma contract_runs imp c w {A} (m : M A) P Q : discrete_context c → Coh c w → contract imp c w m P Q →
  runs m (λ a w', Coh c w' ∧ Q a w') (Coh c) w.
Proof.
  intros Hctx Hc Hk. destruct Hk as [flags n Hn|flags n p bs Hn Hp Hr Hbs|h flags o n k Hs Ho Hn Hb|
    dev h blocking o n src evs ev r base k bs Hdev [Hs Hr] Ho Hn Hv (hb & Hhb & Hsl)|
    dev h blocking o n dst evs ev r base k hb Hdev [Hs Hr] Ho Hn Hv Hh D1 D2|
    dev h1 h2 o1 o2 n evs ev r1 b1 k1 r2 b2 k2 Hdev [Hs1 Hr1] [Hs2 Hr2] O1 O2 Hn V1 V2 Hone Hap|
    dev h pat ps o n evs ev r base k bs Hdev [Hs Hr] Ho Hps Hv Hn (hb & Hhb & Hsl) Hnow|
    h blocking flags o n evs ev r base k [Hs Hr] Ho Hn Hb|h p evs ev r base k d a rest [Hs Hr] Hd Hf|].
  - eapply runs_mono; [by apply (runs_create imp c)|done|done].
  - eapply runs_mono; [by apply (runs_create_from imp c flags n p bs)|done|done].
  - eapply runs_mono; [by eapply (runs_partition c h flags o n k)|done|done].
  - eapply runs_mono; [by eapply (runs_write c dev h blocking o n src evs ev r base k hb bs)| |done].
    intros a w' [H1 H2]. split; [apply H2|done].
  - eapply runs_mono; [by eapply (runs_read c dev h blocking o n dst evs ev r base k hb)| |done].
    intros a w' (H1 & H2 & H3). done.
  - eapply runs_mono; [by eapply (runs_copy c dev h1 h2 o1 o2 n evs ev r1 b1 k1 r2 b2 k2)|done|done].
  - eapply runs_mono; [by eapply (runs_fill c dev h pat ps o n evs ev r base k hb bs)| |done].
    intros a w' [H1 H2]. split; [apply H2|done].
  - eapply runs_mono; [by eapply (runs_map c h blocking flags o n evs ev r base k)| |done].
    intros a w' H1. split; [apply H1|done].
  - destruct Hctx as (_ & Hhead & Hdev).
    eapply runs_mono; [by eapply (runs_unmap c h p evs ev r base k d a rest)| |done].
    intros x w' H1. split; [apply H1|done].
  - eapply runs_mono; [by apply runs_synchronize| |done]. intros a w' (H1 & H2 & H3 & _). done.
Qed.

(** Calls, whether they succeed or throw, and what the application does to its own
    memory. *)
Inductive step (imp : ptr → bool) (c : context) w : world → Prop :=
  | step_call A (m : M A) P Q o w' : contract imp c w m P Q → m w = (o, w') → step imp c w w'
  | step_alloc b l : mem w !! b = None → step imp c w (host_alloc b l w)
  | step_store b l l' : appended w = [] → host_is w b l → length l' = length l → step imp c w (host_alloc b l' w).

Inductive reachable (imp : ptr → bool) (c : context) : world → Prop :=
  | reach_start m n h e r v : reachable imp c (mkWorld m [] ∅ ∅ n h e r v)
  | reach_step w w' : reachable imp c w → step imp c w w' → reachable imp c w'.

Lemma reachable_Coh imp c w : discrete_context c → reachable imp c w → Coh c w.
Proof.
  intros Hctx. induction 1 as [m n h e r v|w w' _ Hc [A k P Q o w1 Hk E|b l Hb|b l l' He Hh Hl]].
  - split; cbn; try done.
    + intros h' d [x E]. cbn in E. by rewrite lookup_empty in E.
    + intros b h1 h2 (d & i & p & [x E] & _). cbn in E. by rewrite lookup_empty in E.
    + cbn. intros h' [x E]. by rewrite lookup_empty in E.
  - pose proof (contract_runs imp c w k P Q Hctx Hc Hk) as Hr. unfold runs in Hr. rewrite E in Hr.
    destruct o; [by destruct Hr|done|done].
  - by destruct (Coh_host_alloc c b l w Hc Hb) as [H1 _].
  - by destruct (Coh_host_store c b l l' w Hc He Hh Hl) as [H1 _].
Qed.

End creation.
