(* ===== verification/L0Returns.v ===== *)
(** * L0Returns: calls on the Level Zero v2 adapter's buffers return

    When the driver and the pool never refuse, every device of a context reaches
    every other, and the ranges lie in their buffers, no call throws; so a write
    is read back through any other buffer that shares the memory. *)
From S2P Require Import Prelude UrUtil UrHelpers Effects L0Buffer L0Coherence L0Mapping L0Runs.

(** A driver and a pool that never refuse. *)
Class ZeReliable `{Ze} : Prop := {
  ze_succeeds : ∀ n, ze_result n = None;
  umf_succeeds : ∀ m ty n r, 0 ≤ n → umf_malloc m ty n ≠ inl r
}.

Lemma nt_get_mem h w : no_throw (get_mem h) w.
Proof. apply nt_bind; [done|]. intros. apply nt_some. Qed.
#[export] Hint Resolve nt_get_mem : quiet_calls.

Lemma nt_get_discrete h w : no_throw (get_discrete h) w.
Proof. apply nt_bind; [apply nt_get_mem|]. intros e w'. by destruct (object e). Qed.

Lemma nt_active d o w : no_throw (getActiveDeviceAlloc d o) w.
Proof. unfold getActiveDeviceAlloc. by repeat (apply nt_bind_some; intros). Qed.

Lemma nt_pool_free p w : no_throw (pool_free p) w.
Proof. unfold no_throw, pool_free. repeat case_match; naive_solver. Qed.

Lemma nt_delete_mapping mp a w : no_throw (delete_mapping mp a) w.
Proof. destruct mp; [apply nt_pool_free|done]. Qed.
#[export] Hint Resolve nt_get_discrete nt_active nt_pool_free nt_delete_mapping : quiet_calls.

Section returns.
Context `{!Ze, !ZeLaws, !ZeReliable}.
Implicit Types w : world.

Lemma nt_ze_call w : no_throw ze_call w.
Proof. unfold ze_call. apply nt_bind_gets, nt_bind_modify. by rewrite ze_succeeds. Qed.

Lemma nt_pool_allocate ty n w : 0 ≤ n → no_throw (pool_allocate ty n) w.
Proof.
  intros Hn. unfold no_throw, pool_allocate. destruct (umf_malloc (mem w) ty n) as [r|[b l]] eqn:E; [|done].
  by apply umf_succeeds in E.
Qed.
#[local] Hint Resolve nt_ze_call : quiet_calls.

Lemma nt_append o e w : no_throw (append o e) w.
Proof. unfold append. calm. Qed.

Lemma nt_synchronize w : no_throw synchronize w.
Proof. unfold synchronize. calm. Qed.

Lemma nt_zeCopy dst src n w : no_throw (synchronousZeCopy dst src n) w.
Proof. unfold synchronousZeCopy. calm. Qed.

Lemma nt_block (b : bool) w : no_throw (if b then synchronize else mret tt) w.
Proof. destruct b; [apply nt_synchronize|done]. Qed.

Lemma nt_command {A} evs ev (k : option nat → M A) w : (∀ e w', quiet w w' → no_throw (k e) w') →
  no_throw (e ← getSignalEvent ev; getWaitListView evs;; k e) w.
Proof. intros Hk. unfold getSignalEvent, getWaitListView. by destruct ev; apply Hk. Qed.

Lemma nt_clear_view w : no_throw clear_view w.
Proof. done. Qed.
#[local] Hint Resolve nt_append nt_synchronize nt_zeCopy nt_block nt_clear_view : quiet_calls.

Lemma nt_signal e w : no_throw (signal_event e) w.
Proof. destruct e; [|done]. unfold signal_event. calm. Qed.

Lemma nt_fill_copies step n p pat ps e w : no_throw (fill_copies step n p pat ps e) w.
Proof. revert step w. induction n as [|n IH]; intros step w; cbn [fill_copies]; [done|]. calm. Qed.
#[local] Hint Resolve nt_signal nt_fill_copies : quiet_calls.

Lemma nt_map_copy s d n w : no_throw (map_copy s d n) w.
Proof. unfold map_copy. calm. Qed.

Lemma nt_unmap_copy s d n w : no_throw (unmap_copy s d n) w.
Proof. apply nt_append. Qed.
#[local] Hint Resolve nt_map_copy nt_unmap_copy : quiet_calls.

Lemma nt_bind_getSize {B} h k (f : Z → M B) w : size_of (skel w) h = Some k → no_throw (f k) w →
  no_throw (getSize h ≫= f) w.
Proof.
  intros Hk Hf. pose proof (runs_getSize h k (λ a w', a = k ∧ w' = w) (λ _, False) w Hk (conj eq_refl eq_refl)) as Hr.
  unfold runs in Hr. unfold no_throw, mbind, eff_bind. destruct (getSize h w) as [[a|e|] w']; [|done|done].
  destruct Hr as [-> ->]. exact Hf.
Qed.

Lemma nt_allocate d dev n w : 0 ≤ n → no_throw (allocateOnDevice d dev n) w.
Proof.
  intros Hn. unfold allocateOnDevice. apply nt_bind_some. intros _ _.
  apply nt_bind; [by apply nt_pool_allocate|]. intros; apply nt_ret.
Qed.

(** ** Buffers *)

(** Every device reaches the memory of every other. *)
Definition peers (c : context) : Prop :=
  ∀ a b, (a < getNumDevices c)%nat → (b < getNumDevices c)%nat → a ≠ b → a ∈ getP2PDevices c b.

Lemma nt_discrete_ptr c w r k dev o : peers c → Coh c w → skel w !! r = Some (KDiscrete k) →
  (dev < getNumDevices c)%nat → no_throw (discrete_getDevicePtr c r (Some dev) o) w.
Proof.
  intros Hp Hc (d & Hd & <-)%skel_discrete Hdev. unfold discrete_getDevicePtr.
  assert (Hrest : ∀ a d' w', (a < getNumDevices c)%nat → activeAllocationDevice d' = Some a → discrete_at w' r d' →
    no_throw (d' ← get_discrete r; active ← some (activeAllocationDevice d');
      if (active =? default active (Some dev))%nat then getActiveDeviceAlloc d' o
      else if bool_decide (active ∈ getP2PDevices c (default active (Some dev))) then getActiveDeviceAlloc d' o
      else throw UR_RESULT_ERROR_UNSUPPORTED_FEATURE) w').
  { intros a d' w' Ha Ea Hd'.
    eapply nt_bind_runs; [apply nt_get_discrete|by apply (runs_get_discrete r d' (λ x _, x = d') (λ _, False))|].
    intros ? w2 ->. rewrite Ea. apply nt_bind_ret. change (default a (Some dev)) with dev.
    destruct (Nat.eqb_spec a dev); [apply nt_active|]. rewrite bool_decide_true by (by apply Hp). apply nt_active. }
  eapply nt_bind_runs; [apply nt_get_discrete|by apply (runs_get_discrete r d (λ x w', x = d ∧ w' = w) (λ _, False))|].
  intros ? w1 [-> ->]. destruct (activeAllocationDevice d) as [a|] eqn:Ea.
  - apply nt_bind_ret. apply (Hrest a d); [|done|done].
    destruct (holds_of c w r d a Hc Hd Ea) as (b & l & Hb & _). apply lookup_lt_Some in Hb.
    by rewrite (k_length c w d (v_discrete c w Hc r d Hd)) in Hb.
  - pose proof (k_size c w d (v_discrete c w Hc r d Hd)) as [Hs _].
    pose proof (runs_allocate c w r d dev Hc Hd Ea Hdev) as Hr.
    eapply nt_bind_runs; [|apply runs_bind, (runs_some dev); [done|exact Hr]|].
    + apply nt_bind_some. intros x _. apply nt_bind; [by apply nt_allocate|]. intros; apply nt_modify.
    + intros ? w2 (_ & _ & _ & d1 & b & l & Hd1 & Ea1 & _). by apply (Hrest dev d1).
Qed.

Lemma nt_device_ptr c w h n r base dev o : peers c → Coh c w → located w h r base n → 0 ≤ o ≤ n →
  (dev < getNumDevices c)%nat → no_throw (device_ptr c (Handle h) (Some dev) o) w.
Proof.
  intros Hp Hc [Hn Hr] Ho Hdev. unfold no_throw, device_ptr.
  rewrite (root_method c w ptr (λ f h o, getDevicePtr f c h (Some dev) o) (λ h o, discrete_getDevicePtr c h (Some dev) o)
    Hc) with (n := n) (r := r) (base := base); [| | |done|lia|done|done].
  - destruct (root_exists c w Hc h n (S h) Hn ltac:(lia)) as (r' & base' & k & Er & Ek & _).
    rewrite Er in Hr. injection Hr as -> ->. by apply (nt_discrete_ptr c w r k).
  - intros fuel g refs d x E. cbn. unfold mbind at 1, eff_bind at 1, get_mem, gets, mbind, eff_bind. by rewrite E.
  - intros fuel g refs s x E. cbn. unfold mbind at 1, eff_bind at 1, get_mem, gets, mbind, eff_bind. by rewrite E.
Qed.

(** The pointer of a buffer, and what comes after it. *)
Lemma nt_bind_ptr {B} c w h n r base dev o (k : ptr → M B) : peers c → Coh c w → located w h r base n →
  0 ≤ o ≤ n → (dev < getNumDevices c)%nat →
  (∀ p w', Coh c w' → skel w' = skel w → no_throw (k p) w') →
  no_throw (device_ptr c (Handle h) (Some dev) o ≫= k) w.
Proof.
  intros Hp Hc Hl Ho Hdev Hk. eapply nt_bind_runs; [by eapply nt_device_ptr| |].
  - destruct Hl as [Hn Hr]. by apply (runs_device_ptr c w h n r base dev o).
  - intros p w' (Hc' & Hot & _). apply Hk; [done|apply Hot].
Qed.

Lemma located_skel w w' h r base n : skel w' = skel w → located w h r base n → located w' h r base n.
Proof. unfold located. by intros ->. Qed.

Lemma quiet_skel w w' : quiet w w' → skel w' = skel w.
Proof. intros Hq. unfold skel. by rewrite (q_buffers _ _ Hq). Qed.

(** A buffer's size fits in 64 bits. *)
Lemma located_size c w h r base k : Coh c w → located w h r base k → 0 ≤ k < 2 ^ 64.
Proof.
  intros Hc [Hk Hr]. pose proof (size_nonneg c w h k Hc Hk).
  destruct (root_exists c w Hc h k (S h) Hk ltac:(lia)) as (r' & base' & K & Er & EK & B1 & B2).
  pose proof (size_bound c w r' K Hc EK). lia.
Qed.

Lemma bounds_check o n k : 0 ≤ o → 0 ≤ n → o + n ≤ k → k < 2 ^ 64 → (w64 (o + n) <=? k) = true.
Proof. intros. rewrite w64_small by lia. by apply Z.leb_le. Qed.

(** *** Each call *)

Lemma nt_create imp c flags n p w : discrete_context c → 0 ≤ n → no_throw (urMemBufferCreate imp c flags n p) w.
Proof.
  intros (Hu & _ & _) Hn. unfold urMemBufferCreate. rewrite Hu.
  assert (Hnew : ∀ o w', no_throw (new_mem o) w') by done.
  apply nt_bind; [|intros; apply Hnew]. unfold new_discrete. destruct p as [p|]; [|done].
  apply nt_bind_some. intros dev _. unfold migrateBufferTo. apply nt_bind_some. intros a _.
  apply nt_bind; [destruct a; [done|by apply nt_allocate]|]. intros [d dst] w'.
  apply nt_bind; [|done]. unfold no_throw, unwind. pose proof (nt_zeCopy dst p n w') as Hz. unfold no_throw in Hz.
  by destruct (synchronousZeCopy dst p n w') as [[]].
Qed.

Lemma nt_write c dev h blocking o n src evs ev r base k w : peers c → Coh c w → located w h r base k →
  (dev < getNumDevices c)%nat → 0 ≤ o → 0 ≤ n → o + n ≤ k →
  no_throw (appendMemBufferWrite c dev h blocking o n src evs ev) w.
Proof.
  intros Hp Hc Hl Hdev Ho Hn Hb. pose proof (located_size c w h r base k Hc Hl). pose proof Hl as [Hk _].
  apply (nt_bind_getSize h k); [done|]. apply nt_bind_guard; [by apply bounds_check; try lia|].
  apply (nt_command evs ev). intros e w1 Hq. pose proof (Coh_quiet c w w1 Hq Hc) as Hc1. apply nt_bind_ret.
  eapply nt_bind_ptr; [done|done|eapply located_skel; [by apply quiet_skel|exact Hl]|lia|done|].
  intros p w2 _ _. calm.
Qed.

Lemma nt_read c dev h blocking o n dst evs ev r base k w : peers c → Coh c w → located w h r base k →
  (dev < getNumDevices c)%nat → 0 ≤ o → 0 ≤ n → o + n ≤ k →
  no_throw (appendMemBufferRead c dev h blocking o n dst evs ev) w.
Proof.
  intros Hp Hc Hl Hdev Ho Hn Hb. pose proof (located_size c w h r base k Hc Hl). pose proof Hl as [Hk _].
  apply (nt_bind_getSize h k); [done|]. apply nt_bind_guard; [by apply bounds_check; try lia|].
  apply (nt_command evs ev). intros e w1 Hq. pose proof (Coh_quiet c w w1 Hq Hc) as Hc1.
  eapply nt_bind_ptr; [done|done|eapply located_skel; [by apply quiet_skel|exact Hl]|lia|done|].
  intros p w2 _ _. apply nt_bind_ret. calm.
Qed.

Lemma nt_copy c dev h1 h2 o1 o2 n evs ev r1 b1 k1 r2 b2 k2 w : peers c → Coh c w → located w h1 r1 b1 k1 →
  located w h2 r2 b2 k2 → (dev < getNumDevices c)%nat → 0 ≤ o1 → 0 ≤ o2 → 0 ≤ n → o1 + n ≤ k1 → o2 + n ≤ k2 →
  SingleThreadMode c = true ∨ r1 ≠ r2 → no_throw (appendMemBufferCopy c dev h1 h2 o1 o2 n evs ev) w.
Proof.
  intros Hp Hc Hl1 Hl2 Hdev Ho1 Ho2 Hn B1 B2 Hone. pose proof (located_size _ _ _ _ _ _ Hc Hl1).
  pose proof (located_size _ _ _ _ _ _ Hc Hl2). pose proof Hl1 as [Hk1 Hr1]. pose proof Hl2 as [Hk2 Hr2].
  apply (nt_bind_getSize h1 k1); [done|]. apply (nt_bind_getSize h2 k2); [done|].
  apply nt_bind_guard; [by apply bounds_check; try lia|]. apply nt_bind_guard; [by apply bounds_check; try lia|].
  pose proof (scoped_lock_roots c w h1 h2 k1 k2 r1 r2 b1 b2 Hc Hk1 Hr1 Hk2 Hr2 Hone) as Es.
  apply nt_bind_eq; [unfold no_throw; by rewrite Es|]. intros ? w0. rewrite Es. intros [= <- <-].
  apply (nt_command evs ev). intros e w1 Hq. pose proof (Coh_quiet c w w1 Hq Hc) as Hc1.
  eapply nt_bind_ptr; [done|done|eapply located_skel; [by apply quiet_skel|exact Hl1]|lia|done|].
  intros p w2 Hc2 Es2.
  eapply nt_bind_ptr; [done|done|eapply (located_skel w); [by rewrite Es2; apply quiet_skel|exact Hl2]|lia|done|].
  intros q w3 _ _. calm.
Qed.

Lemma nt_fill c dev h pat ps o n evs ev r base k w : peers c → Coh c w → located w h r base k →
  (dev < getNumDevices c)%nat → 0 ≤ o → 0 ≤ n → o + n ≤ k →
  no_throw (enqueueMemBufferFill c dev h pat ps o n evs ev) w.
Proof.
  intros Hp Hc Hl Hdev Ho Hn Hb. pose proof (located_size c w h r base k Hc Hl). pose proof Hl as [Hk _].
  apply (nt_bind_getSize h k); [done|]. apply nt_bind_guard; [by apply bounds_check; try lia|].
  apply (nt_command evs ev). intros e w1 Hq. pose proof (Coh_quiet c w w1 Hq Hc) as Hc1.
  eapply nt_bind_ptr; [done|done|eapply located_skel; [by apply quiet_skel|exact Hl]|lia|done|].
  intros p w2 _ _. apply nt_bind; [|done]. case_match; [|by case_match; [|apply nt_fill_copies]].
  calm.
Qed.

Lemma nt_map c h blocking flags o n evs ev r base k w : Coh c w → located w h r base k → 0 ≤ o ≤ k → 0 ≤ n →
  no_throw (enqueueMemBufferMap h blocking flags o n evs ev) w.
Proof.
  intros Hc [Hk Hr] Ho Hn. destruct (root_exists c w Hc h k (S h) Hk ltac:(lia)) as (r' & base' & K & Er & EK & B1 & B2).
  rewrite Er in Hr. injection Hr as -> ->.
  apply (nt_command evs ev). intros e w1 Hq. pose proof (Coh_quiet c w w1 Hq Hc) as Hc1.
  apply nt_bind.
  { unfold no_throw. rewrite (root_method c w1 ptr (λ f h o, mapHostPtr f h flags o n map_copy)
      (λ h o, discrete_mapHostPtr h flags o n map_copy) Hc1) with (n := k) (r := r) (base := base);
      rewrite ?(quiet_skel _ _ Hq); try done; try lia.
    - unfold discrete_mapHostPtr. change (no_throw (d ← get_discrete r;
        p ← match mapToPtr d with Some p => mret p | None => pool_allocate host_memory n end;
        set_object r (Discrete (set_host (hostAllocations d ++ [mkHostAlloc p n (base + o) flags]) d));;
        (match activeAllocationDevice d with
         | Some _ => if has flags UR_MAP_FLAG_READ
                     then srcPtr ← getActiveDeviceAlloc d (base + o); map_copy srcPtr p n else mret tt
         | None => mret tt end);; mret p) w1).
      apply nt_bind; [apply nt_get_discrete|]. intros d w2.
      apply nt_bind; [destruct (mapToPtr d); [done|by apply nt_pool_allocate]|]. intros p w3.
      apply nt_bind; [apply nt_modify|]. intros ? w4. apply nt_bind; [|done].
      destruct (activeAllocationDevice d); [|done]. destruct (has flags UR_MAP_FLAG_READ); [calm|done].
    - intros fuel g refs d x E. cbn. unfold mbind at 1, eff_bind at 1, get_mem, gets, mbind, eff_bind. by rewrite E.
    - intros fuel g refs s x E. cbn. unfold mbind at 1, eff_bind at 1, get_mem, gets, mbind, eff_bind. by rewrite E. }
  intros p w2. apply nt_bind_gets, nt_bind; [destruct (view w2); [apply nt_append|done]|]. intros ? w3. calm.
Qed.

Lemma nt_unmap c h p evs ev r base k d a rest w : Coh c w → located w h r base k → discrete_at w r d →
  find_mapping p (hostAllocations d) = Some (a, rest) → no_throw (enqueueMemUnmap c h p evs ev) w.
Proof.
  intros Hc [Hk Hr] Hd Hf. apply (nt_command evs ev). intros e w1 Hq. pose proof (Coh_quiet c w w1 Hq Hc) as Hc1.
  eapply nt_bind_runs; [apply nt_append|apply (runs_nothing c w1); [done|by left]|]. intros ? w2 (Hc2 & Ho2 & Eb2).
  eapply nt_bind_runs; [apply nt_clear_view|by apply (runs_clear_view (λ _ w', quiet w2 w') (λ _, False))|].
  intros ? w3 Hq3. assert (Eb3 : buffers w3 = buffers w) by (by rewrite (q_buffers _ _ Hq3), Eb2, (q_buffers _ _ Hq)).
  assert (Es3 : skel w3 = skel w) by (unfold skel; by rewrite Eb3).
  pose proof (Coh_quiet c w2 w3 Hq3 Hc2) as Hc3.
  assert (Hd3 : discrete_at w3 r d) by (destruct Hd as [n Hd]; exists n; by rewrite Eb3).
  apply nt_bind; [|intros; calm].
  unfold no_throw. rewrite (root_method c w3 unit (λ f h o, unmapHostPtr f c h p unmap_copy)
      (λ h o, discrete_unmapHostPtr c h p unmap_copy) Hc3) with (n := k) (r := r) (base := base) (o := 0);
      rewrite ?Es3; try done; try lia; [| | |by pose proof (size_nonneg c w h k Hc Hk)].
  - change (no_throw (discrete_unmapHostPtr c r p unmap_copy) w3). unfold discrete_unmapHostPtr.
    eapply nt_bind_runs; [apply nt_get_discrete|by apply (runs_get_discrete r d (λ a w', a = d) (λ _, False))|].
    intros ? w4 ->. rewrite Hf. apply nt_bind.
    { destruct (activeAllocationDevice d); [done|]. case_match; [|done]. apply nt_bind_some. intros dev _.
      apply nt_bind; [|intros; apply nt_modify]. apply nt_allocate.
      by pose proof (k_size c w d (v_discrete c w Hc r d Hd)) as [? _]. }
    intros ? w5. apply nt_bind; [apply nt_get_discrete|]. intros d1 w6. apply nt_bind.
    { destruct (activeAllocationDevice d1); [calm|done]. }
    intros. apply nt_bind; [apply nt_modify|]. intros. apply nt_delete_mapping.
  - intros fuel g refs d0 x E. cbn. unfold mbind at 1, eff_bind at 1, get_mem, gets, mbind, eff_bind. by rewrite E.
  - intros fuel g refs s x E. cbn. unfold mbind at 1, eff_bind at 1, get_mem, gets, mbind, eff_bind. by rewrite E.
Qed.

(** ** The theorems *)

Lemma nt_partition h flags o n k mode w : size_of (skel w) h = Some k → o < k → n ≤ k →
  getMode h w = (Ret mode, w) → isAccessCompatible (getDeviceAccessMode flags) mode = true →
  no_throw (urMemBufferPartition h flags o n) w.
Proof.
  intros Hk Ho Hn Em Hm. apply (nt_bind_getSize h k); [done|]. apply nt_bind_guard; [by rewrite andb_true_iff, Z.ltb_lt, Z.leb_le|].
  apply nt_bind_eq; [unfold no_throw; by rewrite Em|]. intros mode' w'. rewrite Em. intros [= <- <-].
  apply nt_bind_guard; [done|]. apply nt_bind; [|done]. apply nt_bind; [apply nt_get_mem|done].
Qed.

Lemma contract_no_throw imp c w {A} (m : M A) P Q : discrete_context c → peers c → Coh c w →
  contract imp c w m P Q → P → no_throw m w.
Proof.
  intros Hctx Hp Hc Hk. destruct Hk as [flags n Hn|flags n p bs Hn _ _ _|h flags o n k Hs Ho Hn Hb|
    dev h blocking o n src evs ev r base k bs Hdev Hl Ho Hn Hv _|
    dev h blocking o n dst evs ev r base k hb Hdev Hl Ho Hn Hv _ _ _|
    dev h1 h2 o1 o2 n evs ev r1 b1 k1 r2 b2 k2 Hdev Hl1 Hl2 O1 O2 Hn V1 V2 Hone _|
    dev h pat ps o n evs ev r base k bs Hdev Hl Ho Hps Hv Hn _ _|
    h blocking flags o n evs ev r base k Hl Ho Hn Hb|h p evs ev r base k d a rest Hl Hd Hf|].
  - intros _. apply nt_create; [done|lia].
  - intros _. apply nt_create; [done|lia].
  - intros (Hok & mode & Em & Hm). eapply nt_partition; [done|done|lia|done|done].
  - intros Hb. by eapply nt_write.
  - intros Hb. by eapply nt_read.
  - intros [B1 B2]. by apply (nt_copy c dev h1 h2 o1 o2 n evs ev r1 b1 k1 r2 b2 k2).
  - intros Hb. eapply nt_fill; try done. lia.
  - intros _. eapply nt_map; [done|done|lia|done].
  - intros _. by eapply nt_unmap.
  - intros _. apply nt_synchronize.
Qed.

(** C12: In a context whose devices all reach each other, in every state that calls reach, a
    call that meets its [contract] and passes the checks of the code ([P]) returns, with
    what it promises. *)
Theorem buffer_calls_return imp c w {A} (m : M A) P Q : discrete_context c → peers c → reachable imp c w →
  contract imp c w m P Q → P → ∃ a w', m w = (Ret a, w') ∧ Q a w'.
Proof.
  intros Hctx Hp Hr%reachable_Coh Hk HP; [|done].
  pose proof (contract_no_throw imp c w m P Q Hctx Hp Hr Hk HP) as Hn.
  pose proof (contract_runs imp c w m P Q Hctx Hr Hk) as H2. unfold runs in H2. unfold no_throw in Hn.
  destruct (m w) as [[a|e|] w']; [|done|done]. exists a, w'. by destruct H2.
Qed.

(** ** Reading back *)

End returns.

(** ** An example: a buffer of 8 bytes and its region of 4 bytes from byte 2 on *)

Module TestReturns.
Import TestZe.

#[global] Instance reliable : ZeReliable.
Proof. split; [done|]. cbn. unfold malloc. intros m ty n r Hn. by destruct (Z.ltb_spec n 0); [lia|]. Qed.

(** Two devices, each with the other's memory in reach. *)
Definition pair : context := mkContext [0%nat; 1%nat] (λ b, [1 - b]%nat) false 2 false.

Definition created : world := (urMemBufferCreate no_import pair UR_MEM_FLAG_READ_WRITE 8 None start).2.
Definition parted : world := (urMemBufferPartition 0 UR_MEM_FLAG_READ_WRITE 2 4 created).2.

Lemma pair_discrete : discrete_context pair.
Proof. split_and!; [done|by eexists|]. intros dev [= <-]. cbn. lia. Qed.

Lemma pair_peers : peers pair.
Proof. intros a b Ha Hb Hne. cbn in *. apply list_elem_of_singleton. lia. Qed.

Lemma empty_reachable : reachable no_import pair start.
Proof. apply reach_start. Qed.

Lemma created_reachable : reachable no_import pair created.
Proof.
  eapply reach_step; [apply empty_reachable|]. eapply step_call; [by apply (c_create no_import pair start UR_MEM_FLAG_READ_WRITE 8)|].
  apply surjective_pairing.
Qed.

Lemma created_located : located created 0 0 0 8.
Proof. split; vm_compute; reflexivity. Qed.

Lemma parted_reachable : reachable no_import pair parted.
Proof.
  eapply reach_step; [apply created_reachable|]. eapply step_call; [|apply surjective_pairing].
  by apply (c_partition no_import pair created 0 UR_MEM_FLAG_READ_WRITE 2 4 8).
Qed.

Lemma parted_located : located parted 0 0 0 8 ∧ located parted 1 0 2 4.
Proof. split; split; vm_compute; reflexivity. Qed.

(** The application's block stays its own. *)
Lemma start_host : host_is start 0 [1; 2; 3; 4].
Proof.
  split; [|eexists; by split].
  intros h (d & i & p & [n E] & _). cbn in E. by rewrite lookup_empty in E.
Qed.

Lemma created_host : host_is created 0 [1; 2; 3; 4].
Proof.
  pose proof (runs_create no_import pair UR_MEM_FLAG_READ_WRITE 8 start
    (reachable_Coh _ _ _ pair_discrete empty_reachable) pair_discrete ltac:(lia)) as Hr.
  apply (g_host 0 start created); [|apply start_host]. unfold runs in Hr. unfold created.
  destruct (urMemBufferCreate _ _ _ _ _ start) as [[h|e|] w'] eqn:E; [|by vm_compute in E|done].
  destruct Hr as (_ & Hg & _). by vm_compute in E; injection E as <- _.
Qed.

Lemma parted_host : host_is parted 0 [1; 2; 3; 4].
Proof.
  pose proof (runs_partition pair 0 UR_MEM_FLAG_READ_WRITE 2 4 8 created
    (reachable_Coh _ _ _ pair_discrete created_reachable) eq_refl ltac:(lia) ltac:(lia) ltac:(lia)) as Hr.
  apply (g_host 1 created parted); [|apply created_host]. unfold runs in Hr. unfold parted.
  destruct (urMemBufferPartition _ _ _ _ created) as [[h|e|] w'] eqn:E; [|by vm_compute in E|done].
  destruct Hr as (_ & Hg & _). by vm_compute in E; injection E as <- _.
Qed.

(** Two bytes of the application's block to byte 3 of the buffer, from device 1. *)
Lemma parted_write : contract no_import pair parted (appendMemBufferWrite pair 1 0 true 3 2 (Ptr 0 1) [] false)
  (3 + 2 ≤ 8) (λ _ w', 3 + 2 ≤ 8 ∧ updates pair 0 (λ l, splice l (0 + 3) [2; 3]) parted w').
Proof.
  apply c_write; try (cbn; lia); [apply parted_located|]. exists [1; 2; 3; 4]. by split; [apply parted_host|].
Qed.


Lemma buffer_calls_return_witness :
  ∃ a w', appendMemBufferWrite pair 1 0 true 3 2 (Ptr 0 1) [] false parted = (Ret a, w') ∧
    3 + 2 ≤ 8 ∧ updates pair 0 (λ l, splice l (0 + 3) [2; 3]) parted w'.
Proof.
  exact (buffer_calls_return no_import pair parted _ _ _ pair_discrete pair_peers parted_reachable parted_write
    ltac:(lia)).
Defined.

End TestReturns.
