(* ===== verification/L0Limits.v ===== *)
(** * L0Limits: what the buffers of the Level Zero v2 adapter do not give

    Runs of the model on small inputs, each a place where the code and its
    specification in [ur_api.h] part. *)
From S2P Require Import Prelude UrUtil UrHelpers Effects L0Buffer.
Import TestZe.

(** The state and the answer of a call. *)
Definition after {A} (m : M A) (w : world) : world := (m w).2.
Definition answer {A} (m : M A) (w : world) : outcome A := (m w).1.

Definition buffer8 (c : context) : world := after (urMemBufferCreate no_import c UR_MEM_FLAG_READ_WRITE 8 None) start.

(** The first four bytes of the buffer are mapped. *)
Definition mapped_buffer (flags : Z) : M ptr :=
  r ← enqueueMemBufferMap 0 true flags 0 4 [] false; mret r.1.

(** An integrated buffer ignores the offset: a write to byte 4 goes to byte 0, and so
    does one to a sub-buffer that starts at byte 4. *)
Lemma integrated_ignores_offset :
  mem (after (appendMemBufferWrite igpu 0 0 true 4 2 (Ptr 0 0) [] false) (buffer8 igpu)) !! 1%nat =
    Some [1; 2; 170; 170; 170; 170; 170; 170] ∧
  mem (after (urMemBufferPartition 0 UR_MEM_FLAG_READ_WRITE 4 2;;
              appendMemBufferWrite igpu 0 1 true 0 2 (Ptr 0 0) [] false) (buffer8 igpu)) !! 1%nat =
    Some [1; 2; 170; 170; 170; 170; 170; 170].
Proof. by vm_compute. Qed.

(** A copy within one buffer, or between two sub-buffers of one, locks a mutex twice. *)
Lemma copy_within_a_buffer_locks_twice :
  answer (appendMemBufferCopy gpu 0 0 0 0 4 2 [] false) (buffer8 gpu) = Undef ∧
  answer (a ← urMemBufferPartition 0 UR_MEM_FLAG_READ_WRITE 0 4; b ← urMemBufferPartition 0 UR_MEM_FLAG_READ_WRITE 4 4;
          appendMemBufferCopy gpu 0 a b 0 0 2 [] false) (buffer8 gpu) = Undef.
Proof. by vm_compute. Qed.

(** The memory of a mapping is never freed... *)
Lemma unmap_leaks_the_mapping :
  let w := after (p ← mapped_buffer UR_MAP_FLAG_WRITE_INVALIDATE_REGION; enqueueMemUnmap gpu 0 p [] false;; synchronize;;
                  urMemRelease 1 0) (buffer8 gpu) in
  buffers w = ∅ ∧ pool_blocks w ≠ ∅.
Proof. split; [by vm_compute|]. intros E. by vm_compute in E. Qed.

(** ... but a host pointer that the application took from the pool is, on unmap. *)
Lemma unmap_frees_the_host_pointer :
  let w := after (src ← pool_allocate host_memory 8;
                  urMemBufferCreate no_import gpu UR_MEM_FLAG_USE_HOST_POINTER 8 (Some src);;
                  p ← mapped_buffer UR_MAP_FLAG_READ; enqueueMemUnmap gpu 0 p [] false;; mret src) start in
  mem w !! 1%nat = None ∧ answer (src ← pool_allocate host_memory 8;
                  urMemBufferCreate no_import gpu UR_MEM_FLAG_USE_HOST_POINTER 8 (Some src);;
                  p ← mapped_buffer UR_MAP_FLAG_READ; enqueueMemUnmap gpu 0 p [] false;; mret src) start = Ret (Ptr 1 0).
Proof. by vm_compute. Qed.

(** What is written to a WRITE_INVALIDATE_REGION mapping of a buffer without memory is lost:
    a read afterwards does not give it. *)
Lemma invalidating_map_loses_the_bytes :
  read_bytes (mem (after (p ← mapped_buffer UR_MAP_FLAG_WRITE_INVALIDATE_REGION; memcpy p (Ptr 0 0) 4;;
    enqueueMemUnmap gpu 0 p [] false;; appendMemBufferRead gpu 0 0 true 0 4 (Ptr 0 0) [] false) (buffer8 gpu))) (Ptr 0 0) 4
  = Some [170; 170; 170; 170].
Proof. by vm_compute. Qed.

(** A mapping for writing is not filled, but all of it is copied back: bytes that the
    application did not write are overwritten. *)
Lemma write_map_clobbers_the_rest :
  read_bytes (mem (after (appendMemBufferWrite gpu 0 0 true 0 4 (Ptr 0 0) [] false;;
    p ← mapped_buffer UR_MAP_FLAG_WRITE; memcpy p (Ptr 0 0) 1;; enqueueMemUnmap gpu 0 p [] false;;
    appendMemBufferRead gpu 0 0 true 0 4 (Ptr 0 0) [] false) (buffer8 gpu))) (Ptr 0 0) 4
  = Some [1; 170; 170; 170].
Proof. by vm_compute. Qed.

(** A mapping of a buffer with a host pointer is at its start whatever the offset. *)
Lemma host_map_ignores_offset :
  answer (urMemBufferCreate no_import gpu UR_MEM_FLAG_USE_HOST_POINTER 4 (Some (Ptr 0 0));;
          enqueueMemBufferMap 0 true UR_MAP_FLAG_READ 2 2 [] false) start = Ret (Ptr 0 0, None) ∧
  mem (after (urMemBufferCreate no_import gpu UR_MEM_FLAG_USE_HOST_POINTER 4 (Some (Ptr 0 0));;
              enqueueMemBufferMap 0 true UR_MAP_FLAG_READ 2 2 [] false) start) !! 0%nat = Some [3; 4; 3; 4].
Proof. by vm_compute. Qed.

(** A region may end after its buffer. *)
Lemma region_past_the_end :
  answer (urMemBufferPartition 0 UR_MEM_FLAG_READ_WRITE 7 8) (buffer8 gpu) = Ret 1%nat.
Proof. by vm_compute. Qed.

(** The sum of offset and size is taken modulo 2^64; the copy that follows is out of bounds. *)
Lemma wrapping_bounds_check :
  answer (appendMemBufferRead gpu 0 0 false (2 ^ 64 - 4) 6 (Ptr 0 0) [] false) (buffer8 gpu) = Ret None ∧
  answer (appendMemBufferRead gpu 0 0 true (2 ^ 64 - 4) 6 (Ptr 0 0) [] false) (buffer8 gpu) = Undef.
Proof. by vm_compute. Qed.

(** A map is not checked against the buffer. *)
Lemma map_past_the_end :
  answer (enqueueMemBufferMap 0 true UR_MAP_FLAG_WRITE 6 4 [] false) (buffer8 gpu) = Ret (Ptr 1 0, None).
Proof. by vm_compute. Qed.

(** A pattern of three bytes is read when the copies run, not when the fill is made. *)
Lemma fill_reads_the_pattern_later :
  mem (after (enqueueMemBufferFill gpu 0 0 (Ptr 0 0) 3 0 6 [] false;; memcpy (Ptr 0 0) (Ptr 0 1) 3;; synchronize)
    (buffer8 gpu)) !! 1%nat = Some [2; 3; 4; 2; 3; 4; 170; 170].
Proof. by vm_compute. Qed.

(** A fill of no pattern appends nothing that signals its event. *)
Lemma empty_fill_never_signals :
  answer (enqueueMemBufferFill gpu 0 0 (Ptr 0 0) 3 0 2 [5%nat] true) (buffer8 gpu) = Ret (Some 0%nat) ∧
  appended (after (enqueueMemBufferFill gpu 0 0 (Ptr 0 0) 3 0 2 [5%nat] true) (buffer8 gpu)) = [].
Proof. by vm_compute. Qed.
