(* ===== verification/CudaMemory.v ===== *)
(** * CudaMemory: cuda/memory.hpp, memory.cpp and the buffer commands of cuda/enqueue.cpp

    A buffer has an allocation on each device of its context, made when it is
    first needed.  [LastQueueWritingToMemObj] and
    [HaveMigratedToDeviceSinceLastWrite] say which of them are up to date;
    launches and reads migrate the contents, through devices that are numbered
    as in the context.  The application orders the commands on a buffer with
    events ([CudaSafety.commands_ordered]), so work takes effect in the order of
    the calls.  The driver, what a kernel computes and the memory of new
    allocations are a class with laws. *)
From S2P Require Import Prelude CudaFill UrUtil Effects.

(** ** The driver *)

(** Work on a stream; the memsets of a fill are one piece, with the bytes of the
    pattern that they repeat ([CudaFill.fill_exact]). *)
Inductive cu_op :=
  | Memcpy (dst src : ptr) (size : Z)
  | Memset (dst : ptr) (pattern : list Z) (size : Z)
  | LaunchKernel (f : nat) (args : list ptr).

(** [cu_result n] is the answer of the [n]-th call, [None] for success; [cu_malloc]
    a new block with its first contents; [kernel f] what a kernel makes of the
    contents of its buffers. *)
Class Cu := {
  cu_run : cu_op → memory → option memory;
  cu_result : nat → option ur_result_t;
  cu_malloc : memory → Z → nat * list Z;
  kernel : nat → list (list Z) → list (list Z)
}.

Definition insert_all (blocks : list nat) (ls : list (list Z)) (m : memory) : memory :=
  foldr (λ e m, <[e.1 := e.2]> m) m (zip blocks ls).

(** Documented behaviour: copies of ranges apart or onto themselves, fills with whole
    patterns at a multiple of the word size that the fill picks (blocks are aligned for
    every word), kernels on allocations of their own; a new block is new. *)
Class CuLaws `{Cu} := {
  cu_copy : ∀ dst src n m bs m', read_bytes m src n = Some bs → write_bytes m dst bs = Some m' →
    ptrs_apart dst n src n → cu_run (Memcpy dst src n) m = Some m';
  cu_set : ∀ dst pat k m m', pat ≠ [] → off dst mod BackendWordSize (Z.of_nat (length pat)) = 0 →
    write_bytes m dst (concat (replicate k pat)) = Some m' →
    cu_run (Memset dst pat (Z.of_nat (k * length pat))) m = Some m';
  cu_launch : ∀ f blocks ls m, NoDup blocks → mapM (m !!.) blocks = Some ls →
    cu_run (LaunchKernel f ((λ b, Ptr b 0) <$> blocks)) m = Some (insert_all blocks (kernel f ls) m);
  kernel_lengths : ∀ f ls, length <$> kernel f ls = length <$> ls;
  cu_failure : ∀ n, cu_result n ≠ Some UR_RESULT_SUCCESS;
  cu_new : ∀ m n b l, cu_malloc m n = (b, l) → 0 ≤ n → m !! b = None ∧ Z.of_nat (length l) = n
}.

(** ** Buffers *)

Definition UR_MEM_FLAG_READ_WRITE : Z := 1.
Definition UR_MEM_FLAG_WRITE_ONLY : Z := 2.
Definition UR_MEM_FLAG_READ_ONLY : Z := 4.
Definition UR_MEM_FLAG_USE_HOST_POINTER : Z := 8.
Definition UR_MEM_FLAG_ALLOC_HOST_POINTER : Z := 16.
Definition UR_MEM_FLAG_ALLOC_COPY_HOST_POINTER : Z := 32.
Definition UR_MEM_FLAGS_MASK : Z := 0xffffffc0.
Definition UR_MAP_FLAG_READ : Z := 1.
Definition UR_MAP_FLAG_WRITE : Z := 2.
Definition UR_MAP_FLAG_WRITE_INVALIDATE_REGION : Z := 4.

(** [flags & mask] as a condition. *)
Definition any (flags mask : Z) : bool := negb (Z.land flags mask =? 0).

Inductive AllocMode := Classic | UseHostPtr | CopyIn | AllocHostPtr.

(** [MapMem]: the block that the mapping shares. *)
Record BufferMap := mkMap { MapSize : Z; MapOffset : Z; MapFlags : Z; MapMem : option nat }.

Record BufferMem := mkBuffer {
  Ptrs : list (option ptr); Parent : option nat; HostPtr : option ptr; Size : Z;
  PtrToBufferMap : list (ptr * BufferMap); MemAllocMode : AllocMode
}.

(** Images are not modelled: [Mem] is a buffer. *)
Record ur_mem_handle_t_ := mkMem {
  RefCount : Z; MemFlags : Z; HaveMigratedToDeviceSinceLastWrite : list bool;
  LastQueueWritingToMemObj : option nat; Mem : BufferMem
}.

(** What buffers need of a queue: its device and its references. *)
Record queue := mkQueue { q_device : nat; q_RefCount : Z }.

(** [cu_calls]: how many calls of the driver there were. *)
Record world := mkWorld {
  mem : memory; objects : gmap nat ur_mem_handle_t_; queues : gmap nat queue; cu_calls : nat; next_handle : nat
}.

Definition set_mem (m : memory) (w : world) : world :=
  mkWorld m (objects w) (queues w) (cu_calls w) (next_handle w).
Definition set_objects (f : gmap nat ur_mem_handle_t_ → gmap nat ur_mem_handle_t_) (w : world) : world :=
  mkWorld (mem w) (f (objects w)) (queues w) (cu_calls w) (next_handle w).
Definition set_queues (f : gmap nat queue → gmap nat queue) (w : world) : world :=
  mkWorld (mem w) (objects w) (f (queues w)) (cu_calls w) (next_handle w).
Definition count_call (w : world) : world :=
  mkWorld (mem w) (objects w) (queues w) (S (cu_calls w)) (next_handle w).
Definition take_handle (w : world) : world :=
  mkWorld (mem w) (objects w) (queues w) (cu_calls w) (S (next_handle w)).

Definition set_Mem (b : BufferMem) (o : ur_mem_handle_t_) : ur_mem_handle_t_ :=
  mkMem (RefCount o) (MemFlags o) (HaveMigratedToDeviceSinceLastWrite o) (LastQueueWritingToMemObj o) b.
Definition set_RefCount (n : Z) (o : ur_mem_handle_t_) : ur_mem_handle_t_ :=
  mkMem n (MemFlags o) (HaveMigratedToDeviceSinceLastWrite o) (LastQueueWritingToMemObj o) (Mem o).
Definition set_migrated (l : list bool) (o : ur_mem_handle_t_) : ur_mem_handle_t_ :=
  mkMem (RefCount o) (MemFlags o) l (LastQueueWritingToMemObj o) (Mem o).
Definition set_last (q : nat) (l : list bool) (o : ur_mem_handle_t_) : ur_mem_handle_t_ :=
  mkMem (RefCount o) (MemFlags o) l (Some q) (Mem o).
Definition set_Ptrs (l : list (option ptr)) (b : BufferMem) : BufferMem :=
  mkBuffer l (Parent b) (HostPtr b) (Size b) (PtrToBufferMap b) (MemAllocMode b).
Definition set_maps (l : list (ptr * BufferMap)) (b : BufferMem) : BufferMem :=
  mkBuffer (Ptrs b) (Parent b) (HostPtr b) (Size b) l (MemAllocMode b).

Abbreviation M := (eff world).

Definition get_obj (h : nat) : M ur_mem_handle_t_ := o ← gets (λ w, objects w !! h); some o.
Definition get_queue (q : nat) : M queue := o ← gets (λ w, queues w !! q); some o.
Definition update (h : nat) (f : ur_mem_handle_t_ → ur_mem_handle_t_) : M unit :=
  modify (set_objects (alter f h)).

(** [Result = m]: the code of a call that the caller goes on with.  An exception of
    [getPtr] outside of a [try] counts as the code that it carries. *)
Definition attempt (m : M unit) : M (option exn) := λ w,
  match m w with
  | (Ret _, w') => (Ret None, w')
  | (Throw e, w') => (Ret (Some e), w')
  | (Undef, w') => (Undef, w')
  end.
Definition result (r : option exn) : M unit :=
  match r with None => mret tt | Some e => λ w, (Throw e, w) end.

Section buffers.
Context `{Cu}.

(** [Devices.size()] of the context *)
Variable Devices : nat.

Definition cu_call : M unit :=
  n ← gets cu_calls;
  modify count_call;;
  match cu_result n with None => mret tt | Some r => throw r end.

Definition cu_work (op : cu_op) : M unit :=
  cu_call;;
  m ← gets mem;
  m' ← some (cu_run op m);
  modify (set_mem m').

Definition umfMemoryProviderAlloc (size : Z) : M ptr :=
  cu_call;;
  m ← gets mem;
  let '(b, l) := cu_malloc m size in
  modify (set_mem (<[b := l]> m));;
  mret (Ptr b 0).

(** What [CudaQueue] models: the stream, the wait list and the start of the event; the
    event's record and the end of a blocking call. *)
Definition begin_work : M unit := cu_call.
Definition end_work : M unit := cu_call.

(** ** Queues

    The streams that end with the last reference are [CudaQueue]'s. *)

Definition urQueueRetain (q : nat) : M unit :=
  x ← get_queue q;
  modify (set_queues <[q := mkQueue (q_device x) (w32 (q_RefCount x + 1))]>).

Definition urQueueRelease (q : nat) : M unit :=
  x ← get_queue q;
  let refs := w32 (q_RefCount x - 1) in
  modify (set_queues (if refs =? 0 then delete q else <[q := mkQueue (q_device x) refs]>)).

Definition setLastQueueWritingToMemObj (h WritingQueue : nat) : M unit :=
  urQueueRetain WritingQueue;;
  o ← get_obj h;
  (match LastQueueWritingToMemObj o with Some q => urQueueRelease q | None => mret tt end);;
  x ← get_queue WritingQueue;
  update h (set_last WritingQueue ((λ d, bool_decide (d = q_device x)) <$> seq 0 Devices)).

(** ** Allocations and migration *)

Definition set_ptr (h hDevice : nat) (p : ptr) : M unit :=
  update h (λ o, set_Mem (set_Ptrs (<[hDevice := Some p]> (Ptrs (Mem o))) (Mem o)) o).

(** The device sees pinned memory at the host's address. *)
Definition allocateMemObjOnDeviceIfNeeded (h hDevice : nat) : M unit :=
  o ← get_obj h;
  DevPtr ← some (Ptrs (Mem o) !! hDevice);
  match DevPtr with
  | Some _ => mret tt
  | None =>
      match MemAllocMode (Mem o) with
      | AllocHostPtr => cu_call;; p ← some (HostPtr (Mem o)); set_ptr h hDevice p
      | UseHostPtr => cu_call;; cu_call;; p ← some (HostPtr (Mem o)); set_ptr h hDevice p
      | Classic | CopyIn => p ← umfMemoryProviderAlloc (Size (Mem o)); set_ptr h hDevice p
      end
  end.

Definition getPtrWithOffset (h hDevice : nat) (Offset : Z) : M ptr :=
  allocateMemObjOnDeviceIfNeeded h hDevice;;
  o ← get_obj h;
  p ← some (Ptrs (Mem o) !! hDevice);
  p ← some p;
  mret (ptr_add p Offset).

Definition getPtr (h hDevice : nat) : M ptr := getPtrWithOffset h hDevice 0.

Definition enqueueMigrateBufferToDevice (h hDevice : nat) : M unit :=
  o ← get_obj h;
  match LastQueueWritingToMemObj o with
  | None =>
      match HostPtr (Mem o) with
      | Some p => dst ← getPtr h hDevice; cu_work (Memcpy dst p (Size (Mem o)))
      | None => mret tt
      end
  | Some q =>
      x ← get_queue q;
      if (q_device x =? hDevice)%nat then mret tt
      else
        dst ← getPtr h hDevice;
        src ← getPtr h (q_device x);
        cu_work (Memcpy dst src (Size (Mem o)))
  end.

Definition enqueueMigrateMemoryToDeviceIfNeeded (h hDevice : nat) : M unit :=
  o ← get_obj h;
  migrated ← some (HaveMigratedToDeviceSinceLastWrite o !! hDevice);
  if (migrated : bool) then mret tt
  else
    enqueueMigrateBufferToDevice h hDevice;;
    update h (λ o, set_migrated (<[hDevice := true]> (HaveMigratedToDeviceSinceLastWrite o)) o).

(** ** Creation, references *)

(** [cuMemFree] and [cuMemFreeHost] *)
Definition cu_free (p : ptr) : M unit :=
  cu_call;;
  m ← gets mem;
  l ← some (m !! blk p : option (list Z));
  modify (set_mem (delete (blk p) m)).

Fixpoint free_all (l : list (option ptr)) : M unit :=
  match l with
  | [] => mret tt
  | None :: l' => free_all l'
  | Some p :: l' => cu_free p;; free_all l'
  end.

(** [BufferMem::clear] *)
Definition clear (b : BufferMem) : M unit :=
  match Parent b with
  | Some _ => mret tt
  | None =>
      match MemAllocMode b with
      | CopyIn | Classic => free_all (Ptrs b)
      | UseHostPtr => cu_call
      | AllocHostPtr => p ← some (HostPtr b); cu_free p
      end
  end.

(** The memory of a mapping goes when no object has it any more. *)
Definition drop_map (e : ptr * BufferMap) : M unit :=
  match MapMem e.2 with
  | Some b =>
      shared ← gets (λ w, bool_decide (Exists (λ ho, Exists (λ x, MapMem x.2 = Some b) (PtrToBufferMap (Mem ho.2)))
        (map_to_list (objects w))));
      if (shared : bool) then mret tt else modify (λ w, set_mem (delete b (mem w)) w)
  | None => mret tt
  end.

Fixpoint drop_maps (l : list (ptr * BufferMap)) : M unit :=
  match l with [] => mret tt | e :: l' => drop_map e;; drop_maps l' end.

Definition urMemRetain (h : nat) : M unit :=
  o ← get_obj h;
  guard_ur (0 <? RefCount o) UR_RESULT_ERROR_INVALID_MEM_OBJECT;;
  update h (set_RefCount (w32 (RefCount o + 1))).

(** [urMemRelease]; the destructor drops the result of [clear], lets go of the parent, and
    keeps the queue. *)
Fixpoint urMemRelease (fuel h : nat) : M unit :=
  match fuel with
  | O => undef
  | S fuel' =>
      o ← get_obj h;
      let refs := w32 (RefCount o - 1) in
      if 0 <? refs then update h (set_RefCount refs)
      else
        _ ← attempt (clear (Mem o));
        (match Parent (Mem o) with Some parent => urMemRelease fuel' parent | None => mret tt end);;
        modify (set_objects (delete h));;
        drop_maps (PtrToBufferMap (Mem o))
  end.

Definition new_object (o : ur_mem_handle_t_) : M nat :=
  h ← gets next_handle;
  modify take_handle;;
  modify (set_objects <[h := o]>);;
  mret h.

Fixpoint initial_copies (h : nat) (devices : list nat) (src : ptr) (size : Z) : M unit :=
  match devices with
  | [] => mret tt
  | d :: l => p ← getPtr h d; cu_work (Memcpy p src size);; initial_copies h l src size
  end.

(** [EnableUseHostPtr] is false. *)
Definition urMemBufferCreate (flags size : Z) (pHost : option ptr) : M nat :=
  guard_ur (negb (any flags (Z.lor UR_MEM_FLAG_USE_HOST_POINTER UR_MEM_FLAG_ALLOC_COPY_HOST_POINTER)) ||
            bool_decide (is_Some pHost)) UR_RESULT_ERROR_INVALID_HOST_PTR;;
  guard_ur (negb (size =? 0)) UR_RESULT_ERROR_INVALID_BUFFER_SIZE;;
  let PerformInitialCopy := any flags UR_MEM_FLAG_ALLOC_COPY_HOST_POINTER || any flags UR_MEM_FLAG_USE_HOST_POINTER in
  r ← (if any flags UR_MEM_FLAG_ALLOC_HOST_POINTER
       then p ← umfMemoryProviderAlloc size; mret (AllocHostPtr, Some p)
       else if any flags UR_MEM_FLAG_ALLOC_COPY_HOST_POINTER then mret (CopyIn, pHost)
       else mret (Classic, pHost));
  let '(mode, HostPtr) := r in
  h ← new_object (mkMem 1 flags (replicate Devices false) None
        (mkBuffer (replicate Devices None) None HostPtr size [] mode));
  (match HostPtr with
   | Some p => if PerformInitialCopy
               then unwind (urMemRelease 1 h) (initial_copies h (seq 0 Devices) p size)
               else mret tt
   | None => mret tt
   end);;
  mret h.

Fixpoint allocate_all (h : nat) (devices : list nat) : M unit :=
  match devices with [] => mret tt | d :: l => getPtr h d;; allocate_all h l end.

(** The constructor of a sub-buffer keeps the size of its parent. *)
Definition sub_buffer (parent : nat) (offset : Z) (b : BufferMem) : BufferMem :=
  mkBuffer ((λ p : option ptr, (λ p, ptr_add p offset) <$> p) <$> Ptrs b) (Some parent)
    ((λ p, ptr_add p offset) <$> HostPtr b) (Size b) (PtrToBufferMap b) (MemAllocMode b).

Definition urMemBufferPartition (h : nat) (flags origin size : Z) : M nat :=
  o ← get_obj h;
  guard_ur (Z.land flags UR_MEM_FLAGS_MASK =? 0) UR_RESULT_ERROR_INVALID_ENUMERATION;;
  guard_ur (bool_decide (Parent (Mem o) = None)) UR_RESULT_ERROR_INVALID_MEM_OBJECT;;
  let flags := if flags =? 0 then UR_MEM_FLAG_READ_WRITE else flags in
  guard_ur (negb (any flags (Z.lor UR_MEM_FLAG_ALLOC_COPY_HOST_POINTER
    (Z.lor UR_MEM_FLAG_ALLOC_HOST_POINTER UR_MEM_FLAG_USE_HOST_POINTER)))) UR_RESULT_ERROR_INVALID_VALUE;;
  guard_ur (negb (any (MemFlags o) UR_MEM_FLAG_WRITE_ONLY &&
    any flags (Z.lor UR_MEM_FLAG_READ_WRITE UR_MEM_FLAG_READ_ONLY))) UR_RESULT_ERROR_INVALID_VALUE;;
  guard_ur (negb (any (MemFlags o) UR_MEM_FLAG_READ_ONLY &&
    any flags (Z.lor UR_MEM_FLAG_READ_WRITE UR_MEM_FLAG_WRITE_ONLY))) UR_RESULT_ERROR_INVALID_VALUE;;
  guard_ur (negb (size =? 0)) UR_RESULT_ERROR_INVALID_BUFFER_SIZE;;
  guard_ur (w64 (origin + size) <=? Size (Mem o)) UR_RESULT_ERROR_INVALID_BUFFER_SIZE;;
  allocate_all h (seq 0 Devices);;
  o ← get_obj h;
  urMemRetain h;;
  new_object (mkMem 1 (MemFlags o) (replicate Devices false) None (sub_buffer h origin (Mem o))).

(** ** Commands *)

Definition device_of (q : nat) : M nat := x ← get_queue q; mret (q_device x).

(** The read goes to the queue that wrote last if that is on another device. *)
Definition reading_device (o : ur_mem_handle_t_) (hQueue : nat) : M nat :=
  d ← device_of hQueue;
  match LastQueueWritingToMemObj o with
  | Some q => d' ← device_of q; mret (if (d' =? d)%nat then d else d')
  | None => mret d
  end.

Definition urEnqueueMemBufferRead (hQueue h : nat) (offset size : Z) (pDst : ptr) : M unit :=
  o ← get_obj h;
  guard_ur (w64 (offset + size) <=? Size (Mem o)) UR_RESULT_ERROR_INVALID_SIZE;;
  Device ← reading_device o hQueue;
  begin_work;;
  p ← getPtrWithOffset h Device offset;
  cu_work (Memcpy pDst p size);;
  end_work.

Definition urEnqueueMemBufferWrite (hQueue h : nat) (offset size : Z) (pSrc : ptr) : M unit :=
  o ← get_obj h;
  guard_ur (w64 (offset + size) <=? Size (Mem o)) UR_RESULT_ERROR_INVALID_SIZE;;
  d ← device_of hQueue;
  DevPtr ← getPtr h d;
  setLastQueueWritingToMemObj h hQueue;;
  begin_work;;
  cu_work (Memcpy (ptr_add DevPtr offset) pSrc size);;
  end_work.

(** The result of the wait list is kept while the copy is made. *)
Definition urEnqueueMemBufferCopy (hQueue hSrc hDst : nat) (srcOffset dstOffset size : Z) : M unit :=
  s ← get_obj hSrc;
  t ← get_obj hDst;
  guard_ur (w64 (size + dstOffset) <=? Size (Mem t)) UR_RESULT_ERROR_INVALID_SIZE;;
  guard_ur (w64 (size + srcOffset) <=? Size (Mem s)) UR_RESULT_ERROR_INVALID_SIZE;;
  d ← device_of hQueue;
  Result ← attempt begin_work;
  begin_work;;
  Src ← getPtrWithOffset hSrc d srcOffset;
  Dst ← getPtrWithOffset hDst d dstOffset;
  cu_work (Memcpy Dst Src size);;
  end_work;;
  result Result.

Definition urEnqueueMemBufferFill (hQueue h : nat) (pPattern : ptr) (patternSize offset size : Z) : M unit :=
  o ← get_obj h;
  guard_ur (w64 (size + offset) <=? Size (Mem o)) UR_RESULT_ERROR_INVALID_SIZE;;
  setLastQueueWritingToMemObj h hQueue;;
  d ← device_of hQueue;
  begin_work;;
  DstDevice ← getPtrWithOffset h d offset;
  if patternSize =? 0 then undef else (* size / patternSize *)
  let PatternSize := w32 patternSize in (* the uint32_t of commonMemSetLargePattern *)
  if PatternSize =? 0 then undef else
  m ← gets mem;
  pattern ← some (read_bytes m pPattern PatternSize);
  cu_work (Memset DstDevice pattern size);;
  end_work.

(** [PtrToBufferMap.insert] keeps a mapping at the same pointer. *)
Definition insert_map (p : ptr) (x : BufferMap) (l : list (ptr * BufferMap)) : list (ptr * BufferMap) :=
  if existsb (λ e, bool_decide (e.1 = p)) l then l else l ++ [(p, x)].

(** [std::make_unique<unsigned char[]>] sets the bytes to zero. *)
Definition mapToPtr (h : nat) (size offset flags : Z) : M ptr :=
  o ← get_obj h;
  match HostPtr (Mem o) with
  | None =>
      m ← gets mem;
      let b := fresh (dom m) in
      modify (set_mem (<[b := replicate (Z.to_nat size) 0]> m));;
      update h (λ o, set_Mem (set_maps (insert_map (Ptr b 0) (mkMap size offset flags (Some b))
        (PtrToBufferMap (Mem o))) (Mem o)) o);;
      mret (Ptr b 0)
  | Some host =>
      let p := ptr_add host offset in
      update h (λ o, set_Mem (set_maps (insert_map p (mkMap size offset flags None)
        (PtrToBufferMap (Mem o))) (Mem o)) o);;
      mret p
  end.

(** The part of a map or unmap that copies nothing. *)
Definition no_copy (IsPinned phEvent : bool) : M (option exn) :=
  r ← (if IsPinned then attempt begin_work else mret None);
  if phEvent then
    r' ← attempt (begin_work;; end_work);
    mret (match r' with Some e => Some e | None => r end)
  else mret r.

Definition is_pinned (b : BufferMem) : bool :=
  match MemAllocMode b with AllocHostPtr => true | _ => false end.

(** The pointer is the result also when the read fails. *)
Definition urEnqueueMemBufferMap (hQueue h : nat) (mapFlags offset size : Z) (phEvent : bool) : M ptr :=
  o ← get_obj h;
  guard_ur (w64 (offset + size) <=? Size (Mem o)) UR_RESULT_ERROR_INVALID_SIZE;;
  MapPtr ← mapToPtr h size offset mapFlags;
  let IsPinned := is_pinned (Mem o) in
  Result ← (if negb IsPinned && (any mapFlags UR_MAP_FLAG_READ || any mapFlags UR_MAP_FLAG_WRITE)
            then attempt (urEnqueueMemBufferRead hQueue h offset size MapPtr)
            else no_copy IsPinned phEvent);
  result Result;;
  mret MapPtr.

Fixpoint find_map (p : ptr) (l : list (ptr * BufferMap)) : option BufferMap :=
  match l with [] => None | e :: l' => if bool_decide (e.1 = p) then Some e.2 else find_map p l' end.

Fixpoint remove_map (p : ptr) (l : list (ptr * BufferMap)) : list (ptr * BufferMap) :=
  match l with [] => [] | e :: l' => if bool_decide (e.1 = p) then l' else e :: remove_map p l' end.

Definition unmap (h : nat) (p : ptr) (x : BufferMap) : M unit :=
  update h (λ o, set_Mem (set_maps (remove_map p (PtrToBufferMap (Mem o))) (Mem o)) o);;
  drop_map (p, x).

Definition urEnqueueMemUnmap (hQueue h : nat) (pMappedPtr : ptr) (phEvent : bool) : M unit :=
  o ← get_obj h;
  match find_map pMappedPtr (PtrToBufferMap (Mem o)) with
  | None => throw UR_RESULT_ERROR_INVALID_MEM_OBJECT
  | Some x =>
      let IsPinned := is_pinned (Mem o) in
      Result ← (if negb IsPinned && any (MapFlags x) UR_MAP_FLAG_WRITE
                then attempt (urEnqueueMemBufferWrite hQueue h (MapOffset x) (MapSize x) pMappedPtr)
                else no_copy IsPinned phEvent);
      unmap h pMappedPtr x;;
      result Result
  end.

(** ** Kernels

    A kernel of a device with its buffers: object, index, flags and the pointer that
    was stored for it. *)
Record mem_obj_arg := mkArg { arg_Mem : nat; arg_Index : nat; AccessFlags : Z; CuPtr : ptr }.

Record kernel_t := mkKernel { k_function : nat; k_device : nat; MemObjArgs : list mem_obj_arg }.

Fixpoint addMemObjArg (a : mem_obj_arg) (l : list mem_obj_arg) : list mem_obj_arg :=
  match l with
  | [] => [a]
  | x :: l' => if (arg_Index x =? arg_Index a)%nat then a :: l' else x :: addMemObjArg a l'
  end.

(** [urKernelSetArgMemObj] with a buffer; without properties it is read and written.  The
    kernel that a failed call leaves, with the object but not its pointer, is not used. *)
Definition urKernelSetArgMemObj (k : kernel_t) (argIndex : nat) (memoryAccess : option Z) (h : nat) : M kernel_t :=
  p ← getPtr h (k_device k);
  let flags := default UR_MEM_FLAG_READ_WRITE memoryAccess in
  mret (mkKernel (k_function k) (k_device k) (addMemObjArg (mkArg h argIndex flags p) (MemObjArgs k))).

Definition writes (a : mem_obj_arg) : bool :=
  any (AccessFlags a) (Z.lor UR_MEM_FLAG_READ_WRITE UR_MEM_FLAG_WRITE_ONLY).

Fixpoint migrate_args (hQueue hDevice : nat) (l : list mem_obj_arg) : M unit :=
  match l with
  | [] => mret tt
  | a :: l' =>
      enqueueMigrateMemoryToDeviceIfNeeded (arg_Mem a) hDevice;;
      (if writes a then setLastQueueWritingToMemObj (arg_Mem a) hQueue else mret tt);;
      migrate_args hQueue hDevice l'
  end.

(** What [enqueueKernelLaunch] does with buffers, when the range is not empty and
    [CudaLaunch.setKernelParams] accepts it; an event and its streams are [CudaQueue]'s. *)
Definition enqueueKernelLaunch (hQueue : nat) (k : kernel_t) : M unit :=
  d ← device_of hQueue;
  guard_ur (d =? k_device k)%nat UR_RESULT_ERROR_INVALID_KERNEL;;
  begin_work;;
  (if (1 <? Devices)%nat then migrate_args hQueue d (MemObjArgs k) else mret tt);;
  begin_work;;
  cu_work (LaunchKernel (k_function k) (CuPtr <$> MemObjArgs k));;
  end_work.
End buffers.
