(* ===== verification/CudaCoherence.v ===== *)
(** * CudaCoherence: buffers of the CUDA adapter on several devices

    An invariant of the states of [CudaMemory] and what each of their operations
    does to the contents of buffers: the allocations that are up to date hold
    the same bytes, whatever device wrote them last. *)
From S2P Require Import Prelude UrUtil Effects CudaMemory.

Section coherence.
Context `{!Cu, !CuLaws}.
Variable Devices : nat.
Implicit Types w : world.

(** ** Where the contents are *)

Definition obj_at w (h : nat) (o : ur_mem_handle_t_) : Prop := objects w !! h = Some o.

Definition ptr_at w (h d : nat) (p : ptr) : Prop :=
  ∃ o, obj_at w h o ∧ Ptrs (Mem o) !! d = Some (Some p).

Definition owned w (b : nat) : Prop := ∃ h d p, ptr_at w h d p ∧ blk p = b.

(** The allocation of [h] on device [d] holds [l]. *)
Definition copy w (h d : nat) (l : list Z) : Prop := ∃ b, ptr_at w h d (Ptr b 0) ∧ mem w !! b = Some l.

(** A block of the application or of a mapping. *)
Definition host_is w (b : nat) (l : list Z) : Prop := ¬ owned w b ∧ mem w !! b = Some l.

Definition host_range w (p : ptr) (n : Z) : Prop :=
  ∃ l, host_is w (blk p) l ∧ 0 ≤ off p ∧ 0 ≤ n ∧ off p + n ≤ Z.of_nat (length l).

Definition size_at w (h : nat) (n : Z) : Prop := ∃ o, obj_at w h o ∧ Size (Mem o) = n.

(** Buffer [h] holds [l]: every allocation that counts as up to date does; before the
    first write, every allocation. *)
Definition holds w (h : nat) (l : list Z) : Prop :=
  ∃ o, obj_at w h o ∧ Z.of_nat (length l) = Size (Mem o) ∧
    match LastQueueWritingToMemObj o with
    | Some q => (∃ x, queues w !! q = Some x ∧ copy w h (q_device x) l) ∧
        ∀ d, HaveMigratedToDeviceSinceLastWrite o !! d = Some true → copy w h d l
    | None => ∀ d, (d < Devices)%nat → copy w h d l
    end.

(** ** The invariant *)

Record map_ok w (b : BufferMem) (p : ptr) (x : BufferMap) : Prop := mkMapOk {
  x_range : 0 ≤ MapOffset x ∧ 0 ≤ MapSize x ∧ MapOffset x + MapSize x ≤ Size b;
  x_host : host_range w p (MapSize x);
  x_own : ∀ m, MapMem x = Some m → blk p = m;
  x_shared : MapMem x = None → ∃ q, HostPtr b = Some q ∧ blk p = blk q
}.

Record obj_ok w (o : ur_mem_handle_t_) : Prop := mkObjOk {
  k_parent : Parent (Mem o) = None;
  k_mode : MemAllocMode (Mem o) = Classic ∨ MemAllocMode (Mem o) = CopyIn;
  k_size : 0 < Size (Mem o) < 2 ^ 64;
  k_ptrs : length (Ptrs (Mem o)) = Devices;
  k_have : length (HaveMigratedToDeviceSinceLastWrite o) = Devices;
  k_alloc : ∀ d p, Ptrs (Mem o) !! d = Some (Some p) →
    ∃ b l, p = Ptr b 0 ∧ mem w !! b = Some l ∧ Z.of_nat (length l) = Size (Mem o);
  k_host : ∀ p, HostPtr (Mem o) = Some p → host_range w p (Size (Mem o));
  k_maps : ∀ p x, (p, x) ∈ PtrToBufferMap (Mem o) → map_ok w (Mem o) p x;
  k_last : ∀ q, LastQueueWritingToMemObj o = Some q → ∃ x, queues w !! q = Some x ∧ (q_device x < Devices)%nat
}.

(** How many buffers keep queue [q]. *)
Definition keeps (q : nat) (o : ur_mem_handle_t_) : Z :=
  if decide (LastQueueWritingToMemObj o = Some q) then 1 else 0.
Definition uses (q : nat) (m : gmap nat ur_mem_handle_t_) : Z := map_fold (λ _ o n, keeps q o + n) 0 m.

Record Coh w : Prop := mkCoh {
  v_obj : ∀ h o, obj_at w h o → obj_ok w o;
  v_own : ∀ h1 d1 p1 h2 d2 p2, ptr_at w h1 d1 p1 → ptr_at w h2 d2 p2 → blk p1 = blk p2 → h1 = h2 ∧ d1 = d2;
  v_refs : ∀ q x, queues w !! q = Some x → 1 ≤ q_RefCount x < 2 ^ 32 ∧ uses q (objects w) ≤ q_RefCount x;
  v_handle : ∀ h, is_Some (objects w !! h) → (h < next_handle w)%nat
}.

Definition with_ptrs (l : list (option ptr)) (o : ur_mem_handle_t_) : ur_mem_handle_t_ :=
  set_Mem (set_Ptrs l (Mem o)) o.

(** What a call leaves as it is: buffers outside of [hs], host blocks other than [hb],
    every allocation where it is, and the application's own references to queues. *)
Record frame (hs : list nat) (hb : option nat) w w' : Prop := mkFrame {
  f_obj : ∀ g o, g ∉ hs → obj_at w g o → ∃ ps, obj_at w' g (with_ptrs ps o);
  f_size : ∀ h n, size_at w h n → size_at w' h n;
  f_ptr : ∀ h d p, ptr_at w h d p → ptr_at w' h d p;
  f_copy : ∀ g d l, g ∉ hs → copy w g d l → copy w' g d l;
  f_host : ∀ b l, Some b ≠ hb → host_is w b l → host_is w' b l;
  f_dev : ∀ q x', queues w' !! q = Some x' → ∃ x, queues w !! q = Some x ∧ q_device x' = q_device x;
  f_queue : ∀ q x, queues w !! q = Some x → uses q (objects w) < q_RefCount x → ∃ x', queues w' !! q = Some x' ∧
    q_RefCount x' - uses q (objects w') = q_RefCount x - uses q (objects w);
  f_count : size (objects w') = size (objects w);
  f_back : ∀ g o', obj_at w' g o' → ∃ o, obj_at w g o ∧ HostPtr (Mem o') = HostPtr (Mem o)
}.

Lemma with_ptrs_same o : with_ptrs (Ptrs (Mem o)) o = o.
Proof. by destruct o as [? ? ? ? []]. Qed.

Lemma frame_then hs hb w1 w2 w3 : frame hs hb w1 w2 → frame hs hb w2 w3 → frame hs hb w1 w3.
Proof.
  intros [A1 A2 A3 A4 A5 A6 A7 A8 A9] [B1 B2 B3 B4 B5 B6 B7 B8 B9]. split; eauto.
  - intros g o Hg Ho. destruct (A1 g o Hg Ho) as [ps H1]. destruct (B1 g _ Hg H1) as [ps' H2]. by exists ps'.
  - intros q x' (x & Hx & E)%B6. destruct (A6 q x Hx) as (y & Hy & E'). exists y. split; congruence.
  - intros q x Hx Hu. destruct (A7 q x Hx Hu) as (y & Hy & E). destruct (B7 q y Hy) as (z & Hz & E'); [lia|].
    exists z. split; [done|lia].
  - congruence.
  - intros g o3 (o2 & H2 & E2)%B9. destruct (A9 g o2 H2) as (o1 & H1 & E1). exists o1. split; [done|congruence].
Qed.

Lemma frame_same hs hb w w' : objects w' = objects w → queues w' = queues w →
  (∀ g d l, g ∉ hs → copy w g d l → copy w' g d l) → (∀ b l, Some b ≠ hb → host_is w b l → host_is w' b l) →
  frame hs hb w w'.
Proof.
  intros Eo Eq Hc Hh. assert (Ho : ∀ g o, obj_at w g o → obj_at w' g o) by (intros g o; unfold obj_at; by rewrite Eo).
  split; try done.
  - intros g o _ Hg. exists (Ptrs (Mem o)). rewrite with_ptrs_same. by apply Ho.
  - intros h n (o & H1 & H2). exists o. by split; [apply Ho|].
  - intros h d p (o & H1 & H2). exists o. by split; [apply Ho|].
  - rewrite Eq. intros q x Hx. by exists x.
  - rewrite Eq, Eo. intros q x Hx _. by exists x.
  - by rewrite Eo.
  - intros g o'. unfold obj_at. rewrite Eo. intros Ho'. by exists o'.
Qed.

Lemma frame_id hs hb w : frame hs hb w w.
Proof. by apply frame_same. Qed.

Lemma frame_weaken hs hs' hb hb' w w' : hs ⊆ hs' → hb = None ∨ hb = hb' → frame hs hb w w' → frame hs' hb' w w'.
Proof.
  intros Hs Hb [A B C D E F G K I]. split; try done.
  - intros g o Hg. apply A. set_solver.
  - intros g d l Hg. apply D. set_solver.
  - intros b l Hne. apply E. naive_solver.
Qed.

Lemma frame_none hs hb w w' : frame [] None w w' → frame hs hb w w'.
Proof. apply frame_weaken; [set_solver|by left]. Qed.

(** ** Facts *)

Lemma obj_fun w h o1 o2 : obj_at w h o1 → obj_at w h o2 → o1 = o2.
Proof. unfold obj_at. congruence. Qed.

Lemma ptr_fun w h d p1 p2 : ptr_at w h d p1 → ptr_at w h d p2 → p1 = p2.
Proof. intros (o1 & A1 & B1) (o2 & A2 & B2). pose proof (obj_fun _ _ _ _ A1 A2) as <-. congruence. Qed.

Lemma copy_fun w h d l1 l2 : copy w h d l1 → copy w h d l2 → l1 = l2.
Proof. intros (b1 & A1 & B1) (b2 & A2 & B2). pose proof (ptr_fun _ _ _ _ _ A1 A2). congruence. Qed.

Lemma ptr_copy w h d p : Coh w → ptr_at w h d p → ∃ b l, p = Ptr b 0 ∧ copy w h d l ∧
  ∀ o, obj_at w h o → Z.of_nat (length l) = Size (Mem o).
Proof.
  intros Hc (o & Ho & Hp). destruct (k_alloc w o (v_obj w Hc h o Ho) d p Hp) as (b & l & -> & Hm & Hl).
  exists b, l. split_and!; [done|exists b; split; [by exists o|done]|].
  intros o' Ho'. by rewrite (obj_fun _ _ _ _ Ho' Ho).
Qed.

(** *** Counting the users of a queue *)

Lemma uses_delete q m h o : m !! h = Some o → uses q m = keeps q o + uses q (delete h m).
Proof.
  intros Hh. unfold uses.
  rewrite (map_fold_delete_L (λ _ o n, keeps q o + n) 0 h o m); [done| |done].
  intros. lia.
Qed.

Lemma uses_insert q m h o : m !! h = None → uses q (<[h := o]> m) = keeps q o + uses q m.
Proof.
  intros Hh. rewrite (uses_delete q (<[h := o]> m) h o) by apply lookup_insert_eq.
  by rewrite delete_insert_id by done.
Qed.

Lemma uses_replace q m h o o' : m !! h = Some o → uses q (<[h := o']> m) = uses q m - keeps q o + keeps q o'.
Proof.
  intros Hh. rewrite (uses_delete q (<[h := o']> m) h o') by apply lookup_insert_eq.
  rewrite delete_insert_eq, (uses_delete q m h o Hh). lia.
Qed.

Lemma keeps_bounds q o : 0 ≤ keeps q o ≤ 1.
Proof. unfold keeps. case_decide; lia. Qed.

Lemma uses_nonneg q m : 0 ≤ uses q m.
Proof.
  induction m as [|h o m Hm IH] using map_ind; [done|].
  rewrite uses_insert by done. pose proof (keeps_bounds q o). lia.
Qed.

Lemma uses_pos q m h o : m !! h = Some o → LastQueueWritingToMemObj o = Some q → 1 ≤ uses q m.
Proof.
  intros Hh Hl. rewrite (uses_delete q m h o Hh). unfold keeps. rewrite decide_True by done.
  pose proof (uses_nonneg q (delete h m)). lia.
Qed.

(** *** When the contents of a buffer stay *)

Lemma frame_holds hs hb w w' g l : Coh w' → frame hs hb w w' → g ∉ hs → holds w g l → holds w' g l.
Proof.
  intros Hc Hf Hg (o & Ho & Hl & Hh). destruct (f_obj _ _ _ _ Hf g o Hg Ho) as [ps Ho'].
  exists (with_ptrs ps o). split_and!; [done|done|]. pose proof (k_last _ _ (v_obj w' Hc g _ Ho')) as Hlast. cbn in *.
  destruct (LastQueueWritingToMemObj o) as [q|]; [|intros d Hd; by eapply f_copy, Hh].
  destruct Hh as [(x & Hx & Hcx) Hd]. destruct (Hlast q eq_refl) as (x' & Hx' & _).
  destruct (f_dev _ _ _ _ Hf q x' Hx') as (y & Hy & E). assert (y = x) as -> by congruence.
  split; [exists x'; rewrite E; split; [done|]|intros d He]; eapply f_copy; eauto.
Qed.

(** ** Calls of the driver *)

Record quiet w w' : Prop := mkQuiet {
  q_mem : mem w' = mem w; q_objects : objects w' = objects w; q_queues : queues w' = queues w;
  q_next : next_handle w' = next_handle w
}.

Lemma quiet_world w w' : quiet w w' → w' = mkWorld (mem w) (objects w) (queues w) (cu_calls w') (next_handle w).
Proof. intros [E1 E2 E3 E4]. destruct w, w'. cbn in *. by subst. Qed.

Lemma quiet_Coh w w' : quiet w w' → Coh w → Coh w'.
Proof.
  intros ->%quiet_world. destruct w. cbn. intros [J1 J2 J3 J4]. split; try done.
  intros h o Ho. destruct (J1 h o Ho) as [A B C D E F G K I]. split; try done.
  intros p x Hx. by destruct (K p x Hx).
Qed.

Lemma quiet_frame w w' : quiet w w' → frame [] None w w'.
Proof.
  intros ->%quiet_world. destruct w. by apply frame_same.
Qed.

Lemma cu_call_runs w : runs cu_call (λ _, quiet w) (quiet w) w.
Proof. unfold cu_call. apply runs_bind, runs_gets, runs_bind, runs_modify. by destruct (cu_result _). Qed.

(** ** Memory *)

Definition with_mem (b : nat) (l : list Z) w : world := set_mem (<[b := l]> (mem w)) w.

Lemma host_with_new b l w b' l' : mem w !! b = None → host_is w b' l' → host_is (with_mem b l w) b' l'.
Proof. intros Hb [Hn Hm]. split; [exact Hn|]. cbn. rewrite lookup_insert_ne; [done|]. intros <-. congruence. Qed.

Lemma host_range_with w w' p n : (∀ b l, host_is w b l → ∃ l', host_is w' b l' ∧ length l' = length l) →
  host_range w p n → host_range w' p n.
Proof.
  intros Hh (l & Hl & H1 & H2 & H3). destruct (Hh _ _ Hl) as (l' & Hl' & E). exists l'. split_and!; [done|done|done|lia].
Qed.

(** Blocks that keep their lengths keep the invariant of an object. *)
Lemma obj_ok_with w w' o : (∀ b l, host_is w b l → ∃ l', host_is w' b l' ∧ length l' = length l) →
  (∀ b l, mem w !! b = Some l → ∃ l', mem w' !! b = Some l' ∧ length l' = length l) →
  queues w' = queues w → obj_ok w o → obj_ok w' o.
Proof.
  intros Hh Hm Eq [A B C D E F G K I]. split; try done; [| | |by rewrite Eq].
  - intros d p Hp. destruct (F d p Hp) as (b & l & -> & Hb & Hl). destruct (Hm b l Hb) as (l' & Hb' & El).
    exists b, l'. split_and!; [done|done|congruence].
  - intros p Hp. by apply (host_range_with w), G.
  - intros p x Hx. destruct (K p x Hx) as [X1 X2 X3 X4]. split; try done. by apply (host_range_with w).
Qed.

Lemma frame_with_mem hs hb b l w : (∀ g d x, g ∉ hs → copy w g d x → copy (with_mem b l w) g d x) →
  (∀ b' x, Some b' ≠ hb → host_is w b' x → host_is (with_mem b l w) b' x) → frame hs hb w (with_mem b l w).
Proof. intros Hc Hh. by apply frame_same. Qed.

Lemma Coh_with_new w b l : Coh w → mem w !! b = None →
  Coh (with_mem b l w) ∧ frame [] None w (with_mem b l w) ∧ host_is (with_mem b l w) b l.
Proof.
  intros Hc Hb. assert (Hm : ∀ b' l', mem w !! b' = Some l' → mem (with_mem b l w) !! b' = Some l').
  { intros b' l' E. cbn. rewrite lookup_insert_ne; [done|]. intros <-. congruence. }
  pose proof Hc as [J1 J2 J3 J4]. split; [|split].
  - split; try done. intros h o Ho. apply (obj_ok_with w); [| |done|by apply (J1 h)].
    + intros b' l' Hh. exists l'. split; [by apply host_with_new|done].
    + intros b' l' E. exists l'. by split; [apply Hm|].
  - apply frame_with_mem.
    + intros g d x _ (b' & Hp & E). exists b'. split; [done|by apply Hm].
    + intros b' x _. by apply host_with_new.
  - split; [|apply lookup_insert_eq]. intros (h & d & p & Hp & Eb).
    destruct (ptr_copy w h d p Hc Hp) as (b' & l' & -> & (b'' & Hp' & E) & _).
    pose proof (ptr_fun _ _ _ _ _ Hp Hp') as [= <-]. cbn in Eb. congruence.
Qed.

(** A block of the host changes. *)
Lemma Coh_with_host w b l l' : Coh w → host_is w b l → length l' = length l →
  Coh (with_mem b l' w) ∧ frame [] (Some b) w (with_mem b l' w) ∧ host_is (with_mem b l' w) b l'.
Proof.
  intros Hc [Hno Hb] Hlen. pose proof Hc as [J1 J2 J3 J4]. split; [|split].
  - split; try done. intros h o Ho. apply (obj_ok_with w); [| |done|by apply (J1 h)].
    + intros b' x [Hn Hx]. destruct (decide (b' = b)) as [->|Hne].
      * exists l'. split; [split; [done|apply lookup_insert_eq]|congruence].
      * exists x. split; [split; [done|cbn; by rewrite lookup_insert_ne]|done].
    + intros b' x Hx. destruct (decide (b' = b)) as [->|Hne].
      * exists l'. cbn. rewrite lookup_insert_eq. split; [done|congruence].
      * exists x. cbn. by rewrite lookup_insert_ne.
  - apply frame_with_mem.
    + intros g d y _ (b' & Hp & E). exists b'. split; [done|]. cbn. rewrite lookup_insert_ne; [done|].
      intros <-. apply Hno. by exists g, d, (Ptr b 0).
    + intros b' x Hne [Hn Hx]. split; [exact Hn|]. cbn. rewrite lookup_insert_ne; [done|]. congruence.
  - split; [exact Hno|apply lookup_insert_eq].
Qed.

(** The block of an allocation changes. *)
Lemma Coh_with_copy w h d b l l' : Coh w → ptr_at w h d (Ptr b 0) → mem w !! b = Some l → length l' = length l →
  Coh (with_mem b l' w) ∧ frame [h] None w (with_mem b l' w) ∧ copy (with_mem b l' w) h d l' ∧
  ∀ g e x, (g, e) ≠ (h, d) → copy w g e x → copy (with_mem b l' w) g e x.
Proof.
  intros Hc Hp Hb Hlen. pose proof Hc as [J1 J2 J3 J4].
  assert (Hhost : ∀ b' x, host_is w b' x → host_is (with_mem b l' w) b' x).
  { intros b' x [Hn Hx]. split; [exact Hn|]. cbn. rewrite lookup_insert_ne; [done|].
    intros <-. apply Hn. by exists h, d, (Ptr b 0). }
  assert (Hcopy : ∀ g e x, (g, e) ≠ (h, d) → copy w g e x → copy (with_mem b l' w) g e x).
  { intros g e x Hne (b' & Hp' & Hx). exists b'. split; [done|]. cbn. rewrite lookup_insert_ne; [done|].
    intros <-. apply Hne. by destruct (J2 _ _ _ _ _ _ Hp' Hp eq_refl) as [-> ->]. }
  split; [|split; [|split]].
  - split; try done. intros g o Ho. apply (obj_ok_with w); [| |done|by apply (J1 g)].
    + intros b' x Hx. exists x. by split; [apply Hhost|].
    + intros b' x Hx. destruct (decide (b' = b)) as [->|Hne].
      * exists l'. cbn. rewrite lookup_insert_eq. split; [done|congruence].
      * exists x. cbn. by rewrite lookup_insert_ne.
  - apply frame_with_mem; [|by intros b' x _; apply Hhost].
    intros g e x Hg. apply Hcopy. set_solver.
  - exists b. split; [done|]. cbn. apply lookup_insert_eq.
  - done.
Qed.

(** ** Objects *)

Definition with_obj (h : nat) (o : ur_mem_handle_t_) w : world := set_objects <[h := o]> w.

Lemma runs_get_obj h o (Q : ur_mem_handle_t_ → world → Prop) (E : world → Prop) w :
  obj_at w h o → Q o w → runs (get_obj h) Q E w.
Proof. intros Ho HQ. apply runs_bind, runs_gets. by apply (runs_some o). Qed.

Lemma runs_get_queue q x (Q : queue → world → Prop) (E : world → Prop) w :
  queues w !! q = Some x → Q x w → runs (get_queue q) Q E w.
Proof. intros Hx HQ. apply runs_bind, runs_gets. by apply (runs_some x). Qed.

Lemma update_runs h o f w : obj_at w h o → update h f w = (Ret tt, with_obj h (f o) w).
Proof.
  intros Ho. unfold update, modify, with_obj, set_objects. do 2 f_equal.
  apply map_eq. intros g. destruct (decide (g = h)) as [->|].
  - by rewrite lookup_alter_eq, lookup_insert_eq, Ho.
  - by rewrite lookup_alter_ne, lookup_insert_ne.
Qed.

Lemma runs_update h o f (Q : unit → world → Prop) E w : obj_at w h o → Q tt (with_obj h (f o) w) →
  runs (update h f) Q E w.
Proof. intros Ho. by apply runs_eq, update_runs. Qed.

(** An object whose allocations stay, and other queues. *)
Definition moved (h : nat) (o : ur_mem_handle_t_) (qs : gmap nat queue) w : world :=
  set_queues (λ _, qs) (with_obj h o w).

Section move.
Context w (h : nat) (o o' : ur_mem_handle_t_) (qs : gmap nat queue).
Hypotheses (Hc : Coh w) (Ho : obj_at w h o) (Hptrs : Ptrs (Mem o') = Ptrs (Mem o)).

Lemma obj_moved g x : obj_at (moved h o' qs w) g x → (g = h ∧ x = o') ∨ (g ≠ h ∧ obj_at w g x).
Proof. unfold obj_at, moved. cbn. intros [[<- <-]|[Hne E]]%lookup_insert_Some; [by left|by right]. Qed.

Lemma obj_moved_self : obj_at (moved h o' qs w) h o'.
Proof. unfold obj_at, moved. cbn. apply lookup_insert_eq. Qed.

Lemma obj_moved_other g x : g ≠ h → obj_at w g x → obj_at (moved h o' qs w) g x.
Proof. unfold obj_at, moved. cbn. intros. by rewrite lookup_insert_ne. Qed.

Lemma ptr_moved g d p : ptr_at (moved h o' qs w) g d p ↔ ptr_at w g d p.
Proof.
  split; intros (x & Hx & Hp).
  - destruct (obj_moved g x Hx) as [[-> ->]|[_ Hx']]; [|by exists x]. exists o. by rewrite <- Hptrs.
  - destruct (decide (g = h)) as [->|]; [|by exists x; split; [apply obj_moved_other|]].
    exists o'. split; [apply obj_moved_self|]. by rewrite Hptrs, (obj_fun w h o x).
Qed.

Lemma host_moved b l : host_is (moved h o' qs w) b l ↔ host_is w b l.
Proof.
  assert (E : owned (moved h o' qs w) b ↔ owned w b).
  { split; intros (g & d & p & Hp & Hb); exists g, d, p; split; [by apply ptr_moved|done|by apply ptr_moved|done]. }
  unfold host_is. by rewrite E.
Qed.

Lemma obj_ok_moved x : (∀ q, LastQueueWritingToMemObj x = Some q → ∃ y, qs !! q = Some y ∧ (q_device y < Devices)%nat) →
  obj_ok w x → obj_ok (moved h o' qs w) x.
Proof.
  intros Hq [A B C D E F G K I]. assert (Hr : ∀ p n, host_range w p n → host_range (moved h o' qs w) p n).
  { intros p n (l & Hl & Hb). exists l. by split; [apply host_moved|]. }
  split; try done; [by intros; apply Hr, G|].
  intros p y Hy. destruct (K p y Hy) as [X1 X2 X3 X4]. split; try done. by apply Hr.
Qed.

Lemma copy_moved g d l : copy (moved h o' qs w) g d l ↔ copy w g d l.
Proof. split; intros (b & Hp & Hm); exists b; split; try done; by apply ptr_moved. Qed.

Hypotheses (Hsize : Size (Mem o') = Size (Mem o)) (Hback : HostPtr (Mem o') = HostPtr (Mem o)).
Hypothesis (Hok : obj_ok (moved h o' qs w) o').
Hypothesis (Hqs : ∀ q x', qs !! q = Some x' → ∃ x, queues w !! q = Some x ∧ q_device x' = q_device x ∧
  1 ≤ q_RefCount x' < 2 ^ 32 ∧ q_RefCount x' = q_RefCount x - keeps q o + keeps q o').
Hypothesis (Halive : ∀ q x, queues w !! q = Some x → 0 < q_RefCount x - keeps q o + keeps q o' → is_Some (qs !! q)).

Lemma used_stays g x q : g ≠ h → obj_at w g x → LastQueueWritingToMemObj x = Some q → is_Some (qs !! q).
Proof.
  intros Hne Hx Hq. destruct (k_last _ _ (v_obj w Hc g x Hx) q Hq) as (z & Hz & _). apply (Halive q z Hz).
  destruct (v_refs w Hc q z Hz) as [_ Hu]. rewrite (uses_delete q (objects w) h o Ho) in Hu.
  pose proof (uses_pos q (delete h (objects w)) g x) as Hpos. rewrite lookup_delete_ne in Hpos by done.
  specialize (Hpos Hx Hq). pose proof (keeps_bounds q o'). lia.
Qed.

Lemma Coh_moved : Coh (moved h o' qs w) ∧ frame [h] None w (moved h o' qs w).
Proof.
  pose proof Hc as [J1 J2 J3 J4]. split.
  - split.
    + intros g x [[-> ->]|[Hne Hx]]%obj_moved; [done|]. apply obj_ok_moved; [|by apply (J1 g)].
      intros q Hq. destruct (used_stays g x q Hne Hx Hq) as [y Hy]. exists y. split; [done|].
      destruct (Hqs q y Hy) as (z & Hz & E & _). destruct (k_last w x (J1 g x Hx) q Hq) as (z' & Hz' & Hd).
      assert (z' = z) as -> by congruence. by rewrite E.
    + intros h1 d1 p1 h2 d2 p2 H1%ptr_moved H2%ptr_moved. by eapply J2.
    + intros q x' Hx. destruct (Hqs q x' Hx) as (x & Hx' & _ & Hr & Hu). split; [done|].
      unfold moved. cbn. rewrite (uses_replace q (objects w) h o) by done.
      destruct (J3 q x Hx') as [_ Hle]. lia.
    + intros g. unfold moved. cbn. intros [x [[<- _]|[_ Hx]]%lookup_insert_Some]; apply J4; by eexists.
  - split.
    + intros g x Hg Hx. exists (Ptrs (Mem x)). rewrite with_ptrs_same. apply obj_moved_other; [set_solver|done].
    + intros g n (x & Hx & E). destruct (decide (g = h)) as [->|Hne].
      * exists o'. split; [apply obj_moved_self|]. by rewrite Hsize, (obj_fun w h o x).
      * exists x. by split; [apply obj_moved_other|].
    + intros g d p Hp. by apply ptr_moved.
    + intros g d l _ Hl. by apply copy_moved.
    + intros b l _ Hl. by apply host_moved.
    + intros q x' Hx. destruct (Hqs q x' Hx) as (x & Hx' & E & _). by exists x.
    + intros q x Hx Hu. pose proof (uses_delete q (objects w) h o Ho) as Hd.
      pose proof (uses_nonneg q (delete h (objects w))). pose proof (keeps_bounds q o').
      destruct (Halive q x Hx) as [x' Hx']; [lia|]. exists x'. split; [done|].
      destruct (Hqs q x' Hx') as (y & Hy & _ & _ & E). assert (y = x) as -> by congruence.
      unfold moved. cbn. rewrite (uses_replace q (objects w) h o) by done. lia.
    + unfold moved. cbn. by rewrite map_size_insert_Some.
    + intros g x [[-> ->]|[_ Hx]]%obj_moved; [by exists o|by exists x].
Qed.
End move.

(** The queues stay. *)
Lemma Coh_with_obj w h o o' : Coh w → obj_at w h o → Ptrs (Mem o') = Ptrs (Mem o) → Size (Mem o') = Size (Mem o) →
  HostPtr (Mem o') = HostPtr (Mem o) → LastQueueWritingToMemObj o' = LastQueueWritingToMemObj o → obj_ok w o' →
  Coh (with_obj h o' w) ∧ frame [h] None w (with_obj h o' w) ∧ obj_at (with_obj h o' w) h o' ∧
  (∀ g d l, copy (with_obj h o' w) g d l ↔ copy w g d l).
Proof.
  intros Hc Ho Hp Hs Hhp Hl Hok. replace (with_obj h o' w) with (moved h o' (queues w) w) by (by destruct w).
  destruct (Coh_moved w h o o' (queues w)) as [H1 H2]; try done.
  - eapply obj_ok_moved; [done|done| |done]. apply Hok.
  - intros q x Hx. exists x. destruct (v_refs w Hc q x Hx). split_and!; [done|done|lia|lia|].
    unfold keeps. rewrite Hl. lia.
  - split_and!; [done|done|apply obj_moved_self|]. intros g d l. by eapply copy_moved.
Qed.

(** A new block becomes the allocation of an object. *)
Section allocate.
Context w (h : nat) (o : ur_mem_handle_t_) (d b : nat) (l : list Z).
Hypotheses (Hc : Coh w) (Ho : obj_at w h o) (Hd : Ptrs (Mem o) !! d = Some None) (Hb : mem w !! b = None).
Hypothesis (Hl : Z.of_nat (length l) = Size (Mem o)).
Let o' := with_ptrs (<[d := Some (Ptr b 0)]> (Ptrs (Mem o))) o.
Let w' := with_obj h o' (with_mem b l w).

Lemma obj_alloc g x : obj_at w' g x → (g = h ∧ x = o') ∨ (g ≠ h ∧ obj_at w g x).
Proof. unfold obj_at, w'. cbn. intros [[<- <-]|[Hne E]]%lookup_insert_Some; [by left|by right]. Qed.

Lemma obj_alloc_old g x : obj_at w g x → ∃ ps, obj_at w' g (with_ptrs ps x).
Proof.
  intros Hx. destruct (decide (g = h)) as [->|Hne].
  - rewrite (obj_fun w h x o Hx Ho). eexists. unfold obj_at, w'. cbn. apply lookup_insert_eq.
  - exists (Ptrs (Mem x)). rewrite with_ptrs_same. unfold obj_at, w'. cbn. by rewrite lookup_insert_ne.
Qed.

Lemma ptr_alloc g e p : ptr_at w' g e p ↔ (g = h ∧ e = d ∧ p = Ptr b 0) ∨ ptr_at w g e p.
Proof.
  assert (Hself : obj_at w' h o') by (unfold obj_at, w'; cbn; apply lookup_insert_eq).
  assert (Hlt : (d < length (Ptrs (Mem o)))%nat) by (by eapply lookup_lt_Some). split.
  - intros (x & [[-> ->]|[Hne Hx]]%obj_alloc & Hp); [|right; by exists x].
    cbn in Hp. destruct (decide (e = d)) as [->|He].
    + rewrite list_lookup_insert_eq in Hp by done. left. naive_solver.
    + rewrite list_lookup_insert_ne in Hp by done. right. by exists o.
  - intros [(-> & -> & ->)|(x & Hx & Hp)].
    + exists o'. split; [done|]. cbn. by rewrite list_lookup_insert_eq.
    + destruct (decide (g = h)) as [->|Hne].
      * exists o'. split; [done|]. cbn. assert (x = o) as -> by (by eapply obj_fun).
        rewrite list_lookup_insert_ne; [done|]. intros ->. congruence.
      * exists x. split; [|done]. unfold obj_at, w'. cbn. by rewrite lookup_insert_ne.
Qed.

Lemma mem_alloc x y : mem w !! x = Some y → mem w' !! x = Some y.
Proof. intros E. cbn. rewrite lookup_insert_ne; [done|]. intros <-. congruence. Qed.

Lemma host_alloc_old x y : host_is w x y → host_is w' x y.
Proof.
  intros [Hn Hx]. split; [|by apply mem_alloc]. intros (g & e & p & [(_ & _ & ->)|Hp]%ptr_alloc & Eb); cbn in Eb; [congruence|].
  apply Hn. by exists g, e, p.
Qed.

Lemma copy_alloc_old g e x : copy w g e x → copy w' g e x.
Proof. intros (y & Hp & Hm). exists y. split; [apply ptr_alloc; by right|by apply mem_alloc]. Qed.

Lemma copy_alloc : copy w' h d l.
Proof. exists b. split; [apply ptr_alloc; by left|]. cbn. apply lookup_insert_eq. Qed.

Lemma obj_ok_alloc x : obj_ok w x → obj_ok w' x.
Proof.
  apply obj_ok_with; [|intros y z Hm; exists z; by split; [apply mem_alloc|]|done].
  intros y z Hh. exists z. by split; [apply host_alloc_old|].
Qed.

Lemma obj_ok_self : obj_ok w' o'.
Proof.
  destruct (obj_ok_alloc o (v_obj w Hc h o Ho)) as [A B C D E F G K I]. split; try done.
  - cbn. by rewrite length_insert.
  - cbn. intros e p Hp. destruct (decide (e = d)) as [->|He].
    + assert (Hlt : (d < length (Ptrs (Mem o)))%nat) by (by eapply lookup_lt_Some).
      rewrite list_lookup_insert_eq in Hp by done. injection Hp as <-. exists b, l.
      split_and!; [done|apply lookup_insert_eq|done].
    + rewrite list_lookup_insert_ne in Hp by done. by eapply F.
  - intros p x Hx. by destruct (K p x Hx).
Qed.

Lemma block_fresh g e p : ptr_at w g e p → blk p ≠ b.
Proof.
  intros Hp Eb. destruct (ptr_copy w g e p Hc Hp) as (y & z & -> & (y' & Hp' & Hm) & _).
  pose proof (ptr_fun _ _ _ _ _ Hp Hp') as [= <-]. cbn in Eb. congruence.
Qed.

Lemma cu_Coh_allocate : Coh w' ∧ frame [] None w w'.
Proof.
  pose proof Hc as [J1 J2 J3 J4]. split; split.
  - intros g x [[-> ->]|[_ Hx]]%obj_alloc; [apply obj_ok_self|]. by apply obj_ok_alloc, (J1 g).
  - intros h1 d1 p1 h2 d2 p2 [(-> & -> & ->)|H1]%ptr_alloc [(-> & -> & ->)|H2]%ptr_alloc Eb; [done| | |by eapply J2].
    + by destruct (block_fresh h2 d2 p2 H2).
    + by destruct (block_fresh h1 d1 p1 H1).
  - intros q x Hx. destruct (J3 q x Hx). split; [done|]. unfold w'. cbn.
    rewrite (uses_replace q (objects w) h o) by done. unfold keeps, o'. cbn. lia.
  - unfold w'. cbn. intros g [x [[<- _]|[_ Hx]]%lookup_insert_Some]; apply J4; by eexists.
  - intros g x _. apply obj_alloc_old.
  - intros g n (x & Hx & <-). destruct (obj_alloc_old g x Hx) as [ps Hx']. by exists (with_ptrs ps x).
  - intros g e p Hp. apply ptr_alloc. by right.
  - intros g e x _. apply copy_alloc_old.
  - intros x y _. apply host_alloc_old.
  - intros q x Hx. by exists x.
  - intros q x Hx _. exists x. split; [done|]. unfold w'. cbn.
    rewrite (uses_replace q (objects w) h o) by done. unfold keeps, o'. cbn. lia.
  - unfold w'. cbn. by rewrite map_size_insert_Some.
  - intros g x [[-> ->]|[_ Hx]]%obj_alloc; [by exists o|by exists x].
Qed.
End allocate.
End coherence.
