(* ===== verification/CudaMigration.v ===== *)
(** * CudaMigration: allocation, the last writer and migration

    What the operations under the buffer commands of [CudaMemory] do: the
    allocation of a device, the queue that wrote last with its references, and the
    copy that brings a device up to date. *)
From S2P Require Import Prelude UrUtil Effects CudaMemory CudaCoherence.

Section migration.
Context `{!Cu, !CuLaws}.
Variable Devices : nat.
Implicit Types w : world.
Abbreviation Coh := (CudaCoherence.Coh Devices).
Abbreviation obj_ok := (CudaCoherence.obj_ok Devices).
Abbreviation holds := (CudaCoherence.holds Devices).

(** A call that fails leaves all buffers as they are. *)
Definition harmless w w' : Prop := Coh w' ∧ frame [] None w w'.

Lemma harmless_quiet w w' : Coh w → quiet w w' → harmless w w'.
Proof. split; [by eapply quiet_Coh|by apply quiet_frame]. Qed.

Lemma harmless_trans w1 w2 w3 : frame [] None w1 w2 → harmless w2 w3 → harmless w1 w3.
Proof. intros Hf [Hc Hf']. split; [done|by eapply frame_then]. Qed.

(** ** Allocation *)

Lemma runs_provider_alloc w n : 0 ≤ n →
  runs (umfMemoryProviderAlloc n)
    (λ p w', ∃ b l w1, p = Ptr b 0 ∧ quiet w w1 ∧ mem w !! b = None ∧ Z.of_nat (length l) = n ∧ w' = with_mem b l w1)
    (quiet w) w.
Proof.
  intros Hn. unfold umfMemoryProviderAlloc. apply runs_bind. eapply runs_mono; [apply cu_call_runs| |done].
  intros ? w1 Hq. cbn in Hq. apply runs_bind, runs_gets. destruct (cu_malloc (mem w1) n) as [b l] eqn:E.
  destruct (cu_new _ _ _ _ E Hn) as [Hb Hl]. rewrite (q_mem _ _ Hq) in Hb.
  apply runs_bind, runs_modify, runs_ret. by exists b, l, w1.
Qed.

Lemma quiet_obj w w' h o : quiet w w' → obj_at w h o → obj_at w' h o.
Proof. unfold obj_at. by intros [_ -> _ _]. Qed.

Lemma cu_runs_allocate w h d o : Coh w → obj_at w h o → (d < Devices)%nat →
  runs (allocateMemObjOnDeviceIfNeeded h d)
    (λ _ w', harmless w w' ∧ queues w' = queues w ∧ ∃ p, ptr_at w' h d p) (harmless w) w.
Proof.
  intros Hc Ho Hd. pose proof (v_obj _ w Hc h o Ho) as Hok. unfold allocateMemObjOnDeviceIfNeeded.
  apply runs_bind, (runs_get_obj h o); [done|].
  destruct (Ptrs (Mem o) !! d) as [e|] eqn:Ed; [|apply lookup_ge_None in Ed; rewrite (k_ptrs _ _ _ Hok) in Ed; lia].
  apply runs_bind, (runs_some e); [done|]. destruct e as [p|].
  - apply runs_ret. split_and!; [split; [done|apply frame_id]|done|]. by exists p, o.
  - assert (Hsize : 0 ≤ Size (Mem o)) by (pose proof (k_size _ _ _ Hok); lia).
    destruct (k_mode _ _ _ Hok) as [-> | ->].
    all: apply runs_bind; (eapply runs_mono; [by apply runs_provider_alloc| |by intros; apply harmless_quiet]).
    all: intros ? ? (b & l & w1 & -> & Hq & Hb & Hl & ->); rewrite <- (q_mem _ _ Hq) in Hb.
    all: pose proof (quiet_Coh _ _ _ Hq Hc) as Hc1; pose proof (quiet_obj _ _ _ _ Hq Ho) as Ho1.
    all: destruct (cu_Coh_allocate Devices w1 h o d b l Hc1 Ho1 Ed Hb Hl) as [H1 H2].
    all: eapply (runs_update h o); [exact Ho1|].
    all: split_and!; [apply (harmless_trans _ w1); [by apply quiet_frame|by split]|apply Hq|].
    all: exists (Ptr b 0); eapply ptr_alloc; [exact Ho1|exact Ed|by left].
Qed.

Lemma runs_getPtr w h d o n : Coh w → obj_at w h o → (d < Devices)%nat →
  runs (getPtrWithOffset h d n)
    (λ p w', harmless w w' ∧ queues w' = queues w ∧
       ∃ b l, p = Ptr b n ∧ ptr_at w' h d (Ptr b 0) ∧ mem w' !! b = Some l ∧ Z.of_nat (length l) = Size (Mem o))
    (harmless w) w.
Proof.
  intros Hc Ho Hd. apply runs_bind. eapply runs_mono; [by eapply cu_runs_allocate| |done].
  intros ? w' (Hh & Eq & p & Hp). pose proof Hh as [Hc' Hf].
  destruct (ptr_copy Devices w' h d p Hc' Hp) as (b & l & -> & (b' & Hp' & Hm) & Hlen).
  pose proof (ptr_fun _ _ _ _ _ Hp Hp') as [= <-]. pose proof Hp as (o' & Ho' & Hpo).
  apply runs_bind, (runs_get_obj h o'); [done|]. apply runs_bind, (runs_some (Some (Ptr b 0))); [done|].
  apply runs_bind, (runs_some (Ptr b 0)); [done|]. apply runs_ret. split_and!; [done|done|].
  exists b, l. split_and!; [done|done|done|]. rewrite (Hlen o' Ho').
  destruct (f_size _ _ _ _ Hf h (Size (Mem o))) as (o2 & Ho2 & <-); [by exists o|].
  by rewrite (obj_fun _ _ _ _ Ho2 Ho').
Qed.

(** ** The queue that wrote last *)

Definition ret_queue (q : nat) (x : queue) (qs : gmap nat queue) : gmap nat queue :=
  <[q := mkQueue (q_device x) (w32 (q_RefCount x + 1))]> qs.
Definition rel_queue (q : nat) (x : queue) (qs : gmap nat queue) : gmap nat queue :=
  let refs := w32 (q_RefCount x - 1) in
  (if refs =? 0 then delete q else <[q := mkQueue (q_device x) refs]>) qs.

Lemma ret_lookup q x qs g y : qs !! q = Some x → 0 ≤ q_RefCount x → q_RefCount x + 1 < 2 ^ 32 →
  ret_queue q x qs !! g = Some y ↔
  ∃ z, qs !! g = Some z ∧ y = mkQueue (q_device z) (q_RefCount z + if decide (g = q) then 1 else 0).
Proof.
  intros Hx H1 H2. unfold ret_queue, w32. rewrite Z.mod_small by lia. rewrite lookup_insert_Some. split.
  - intros [[-> <-]|[Hne E]].
    + exists x. by rewrite decide_True.
    + exists y. rewrite decide_False by congruence. split; [done|]. destruct y. by rewrite Z.add_0_r.
  - intros (z & Hz & ->). case_decide as Hg; [subst g; left; split; congruence|right]. split; [congruence|].
    rewrite Hz, Z.add_0_r. by destruct z.
Qed.

Lemma rel_lookup q x qs g y : qs !! q = Some x → 1 ≤ q_RefCount x < 2 ^ 32 →
  rel_queue q x qs !! g = Some y ↔
  ∃ z, qs !! g = Some z ∧ y = mkQueue (q_device z) (q_RefCount z - if decide (g = q) then 1 else 0) ∧
    (g = q → 1 < q_RefCount z).
Proof.
  intros Hx H1. unfold rel_queue, w32. rewrite Z.mod_small by lia.
  destruct (Z.eqb_spec (q_RefCount x - 1) 0) as [E|E].
  - rewrite lookup_delete_Some. split.
    + intros [Hne Ey]. exists y. rewrite decide_False by congruence. split_and!; [done| |congruence].
      destruct y. by rewrite Z.sub_0_r.
    + intros (z & Hz & -> & Hr). destruct (decide (g = q)) as [->|Hg].
      * assert (z = x) as -> by congruence. pose proof (Hr eq_refl). lia.
      * split; [congruence|]. rewrite Hz, Z.sub_0_r. by destruct z.
  - rewrite lookup_insert_Some. split.
    + intros [[-> <-]|[Hne Ey]].
      * exists x. rewrite decide_True by done. split_and!; [done|done|lia].
      * exists y. rewrite decide_False by congruence. split_and!; [done| |congruence]. destruct y. by rewrite Z.sub_0_r.
    + intros (z & Hz & -> & Hr). destruct (decide (g = q)) as [->|Hg]; [left; split; congruence|right].
      split; [congruence|]. rewrite Hz, Z.sub_0_r. by destruct z.
Qed.

(** The application holds queue [q] of device [d], and its references and those of all
    buffers fit its counter. *)
Definition queue_at w (q d : nat) : Prop :=
  ∃ x, queues w !! q = Some x ∧ q_device x = d ∧ (d < Devices)%nat ∧ uses q (objects w) < q_RefCount x ∧
    q_RefCount x - uses q (objects w) + Z.of_nat (size (objects w)) + 1 < 2 ^ 32.

Lemma queue_kept hs hb w w' q d : frame hs hb w w' → queue_at w q d → queue_at w' q d.
Proof.
  intros Hf (x & Hx & <- & Hd & Hu & Hroom). destruct (f_queue _ _ _ _ Hf q x Hx Hu) as (x' & Hx' & E).
  destruct (f_dev _ _ _ _ Hf q x' Hx') as (y & Hy & Ed). assert (y = x) as -> by congruence.
  exists x'. rewrite (f_count _ _ _ _ Hf). split_and!; [done|done|done|lia|lia].
Qed.

Lemma uses_size q (m : gmap nat ur_mem_handle_t_) : uses q m ≤ Z.of_nat (size m).
Proof.
  induction m as [|h o m Hm IH] using map_ind; [done|].
  rewrite uses_insert, map_size_insert_None by done. pose proof (keeps_bounds q o). lia.
Qed.

(** The contents of [h] are on device [d] alone, by the queue that wrote last. *)
Definition sole w (h d : nat) : Prop :=
  ∃ o q x, obj_at w h o ∧ LastQueueWritingToMemObj o = Some q ∧ queues w !! q = Some x ∧ q_device x = d ∧
    ∀ e, HaveMigratedToDeviceSinceLastWrite o !! e = Some true → e = d.

Lemma sole_holds w h d l : Coh w → sole w h d → copy w h d l → holds w h l.
Proof.
  intros Hc (o & q & x & Ho & Hl & Hx & Hd & He) Hcopy. exists o. split; [done|].
  pose proof Hcopy as (b & Hp & Hm). destruct (ptr_copy Devices w h d _ Hc Hp) as (b' & l' & [= <-] & Hc' & Hs).
  rewrite (copy_fun _ _ _ _ _ Hcopy Hc'). split; [by apply Hs|]. rewrite Hl.
  rewrite (copy_fun _ _ _ _ _ Hc' Hcopy). split; [exists x; by rewrite Hd|]. intros e ->%He. done.
Qed.

Definition marked (q d : nat) (o : ur_mem_handle_t_) : ur_mem_handle_t_ :=
  set_last q ((λ e, bool_decide (e = d)) <$> seq 0 Devices) o.

Lemma marked_have q d o e : HaveMigratedToDeviceSinceLastWrite (marked q d o) !! e = Some true → e = d.
Proof. cbn. intros (x & E & [-> _]%lookup_seq)%list_lookup_fmap_Some. cbn in E. by case_bool_decide. Qed.

Lemma obj_ok_marked w o q d : obj_ok w o → (∃ x, queues w !! q = Some x ∧ (q_device x < Devices)%nat) →
  obj_ok w (marked q d o).
Proof.
  intros [A B C D E F G K I] Hq. split; try done.
  - cbn. by rewrite length_fmap, length_seq.
  - cbn. by intros ? [= <-].
Qed.

(** The old queue is released, the new one retained. *)
Section handover.
Context w (h q : nat) (o : ur_mem_handle_t_) (x : queue).
Hypotheses (Hc : Coh w) (Ho : obj_at w h o) (Hx : queues w !! q = Some x).
Hypotheses (Hdev : (q_device x < Devices)%nat) (Hroom : q_RefCount x + 1 < 2 ^ 32).

(** The queues after the release. *)
Definition handed (qs : gmap nat queue) : Prop := ∀ g y, qs !! g = Some y ↔
  ∃ z, queues w !! g = Some z ∧
    y = mkQueue (q_device z) (q_RefCount z + (if decide (g = q) then 1 else 0) - keeps g o) ∧
    0 < q_RefCount z + (if decide (g = q) then 1 else 0) - keeps g o.

Lemma handed_none : LastQueueWritingToMemObj o = None → handed (ret_queue q x (queues w)).
Proof.
  intros Hl g y. destruct (v_refs _ w Hc q x Hx) as [Hr _]. rewrite (ret_lookup q x) by (done || lia).
  assert (Hk : keeps g o = 0) by (unfold keeps; by rewrite Hl). rewrite Hk.
  split; intros (z & Hz & E); exists z; [|destruct E as [E _]]; rewrite ?Z.sub_0_r in *; split_and?; try done.
  destruct (v_refs _ w Hc g z Hz). case_decide; lia.
Qed.

Lemma handed_some q0 x0 : LastQueueWritingToMemObj o = Some q0 → ret_queue q x (queues w) !! q0 = Some x0 →
  handed (rel_queue q0 x0 (ret_queue q x (queues w))).
Proof.
  intros Hl Hx0 g y. destruct (v_refs _ w Hc q x Hx) as [Hr _].
  assert (Hret := λ g y, ret_lookup q x (queues w) g y Hx ltac:(lia) Hroom).
  assert (Hr0 : 1 ≤ q_RefCount x0 < 2 ^ 32).
  { apply Hret in Hx0 as (z & Hz & ->). cbn. destruct (v_refs _ w Hc q0 z Hz). case_decide as E; [|lia].
    assert (z = x) as -> by congruence. lia. }
  rewrite (rel_lookup q0 x0) by done. unfold keeps. rewrite Hl. split.
  - intros (z & (z' & Hz & ->)%Hret & -> & Hlt). cbn in *. exists z'. destruct (v_refs _ w Hc g z' Hz).
    destruct (decide (g = q0)) as [->|Hne].
    + rewrite (decide_True (P := Some q0 = Some q0)) by done. split_and!; [done|done|]. pose proof (Hlt eq_refl). lia.
    + rewrite (decide_False (P := Some q0 = Some g)) by congruence. split_and!; [done|done|case_decide; lia].
  - intros (z & Hz & -> & Hlt). eexists. split; [apply Hret; by eexists|]. cbn.
    destruct (decide (g = q0)) as [->|Hne].
    + rewrite (decide_True (P := Some q0 = Some q0)) in * by done. split; [done|]. intros _. lia.
    + rewrite (decide_False (P := Some q0 = Some g)) in * by congruence. done.
Qed.

Lemma handed_moved qs : handed qs → let w' := moved h (marked q (q_device x) o) qs w in
  Coh w' ∧ frame [h] None w w' ∧ sole w' h (q_device x) ∧ (∀ g d l, copy w' g d l ↔ copy w g d l).
Proof.
  intros Hqs w'. set (o' := marked q (q_device x) o) in *. pose proof (v_obj _ w Hc h o Ho) as Hok.
  assert (Hkq : ∀ g, keeps g o' = if decide (g = q) then 1 else 0).
  { intros g. unfold keeps, o'. cbn. do 2 case_decide; congruence. }
  assert (Hq : qs !! q = Some (mkQueue (q_device x) (q_RefCount x + 1 - keeps q o))).
  { apply Hqs. exists x. rewrite decide_True by done. split_and!; [done|done|].
    destruct (v_refs _ w Hc q x Hx). pose proof (keeps_bounds q o). lia. }
  destruct (Coh_moved Devices w h o o' qs Hc Ho) as [H1 H2]; try done.
  - eapply obj_ok_moved; [done|done| |by apply obj_ok_marked; [|by exists x]].
    unfold o'. cbn. intros ? [= <-]. eexists. split; [exact Hq|done].
  - intros g y (z & Hz & -> & Hlt)%Hqs. exists z. rewrite Hkq. cbn. destruct (v_refs _ w Hc g z Hz).
    pose proof (keeps_bounds g o). split_and!; [done|done|lia| |lia].
    destruct (decide (g = q)) as [->|]; [|lia]. assert (z = x) as -> by congruence. lia.
  - intros g z Hz Hlt. eexists. apply Hqs. exists z. split_and!; [done|done|]. rewrite Hkq in Hlt. lia.
  - split_and!; [done|done| |intros; by eapply copy_moved].
    exists o', q. eexists. split_and!; [apply obj_moved_self|done|exact Hq|done|]. apply marked_have.
Qed.
End handover.

Lemma runs_setLast w h q o d : Coh w → obj_at w h o → queue_at w q d →
  runs (setLastQueueWritingToMemObj Devices h q)
    (λ _ w', Coh w' ∧ frame [h] None w w' ∧ sole w' h d ∧ ∀ g e l, copy w' g e l ↔ copy w g e l) (λ _, False) w.
Proof.
  intros Hc Ho (x & Hx & <- & Hd & Hu & Hbound). pose proof (uses_size q (objects w)) as Hsize.
  assert (Hroom : q_RefCount x + 1 < 2 ^ 32) by lia.
  assert (Hfin : ∀ qs, handed w q o qs →
    runs (x0 ← get_queue q; update h (marked q (q_device x0)))
      (λ _ w', Coh w' ∧ frame [h] None w w' ∧ sole w' h (q_device x) ∧ ∀ g e l, copy w' g e l ↔ copy w g e l)
      (λ _, False) (set_queues (λ _, qs) w)).
  { intros qs Hqs. apply runs_bind. eapply runs_get_queue.
    - apply Hqs. exists x. rewrite decide_True by done. split_and!; [done|done|].
      destruct (v_refs _ w Hc q x Hx). pose proof (keeps_bounds q o). lia.
    - apply (runs_update h o); [done|].
      by apply (handed_moved w h q o x Hc Ho Hx Hd Hroom qs). }
  unfold setLastQueueWritingToMemObj. apply runs_bind, runs_bind, (runs_get_queue q x); [done|].
  apply runs_modify, runs_bind, (runs_get_obj h o); [done|]. apply runs_bind.
  destruct (LastQueueWritingToMemObj o) as [q0|] eqn:Hl.
  - destruct (k_last _ _ _ (v_obj _ w Hc h o Ho) q0 Hl) as (z & Hz & _).
    assert (is_Some (ret_queue q x (queues w) !! q0)) as [x0 Hx0].
    { eexists. destruct (v_refs _ w Hc q x Hx). apply (ret_lookup q x); [done|lia|done|]. by exists z. }
    apply runs_bind, (runs_get_queue q0 x0); [done|]. apply runs_modify, Hfin; by apply handed_some.
  - apply runs_ret, Hfin; by apply handed_none.
Qed.

(** ** Work *)

Lemma runs_cu_work w op m : cu_run op (mem w) = Some m →
  runs (cu_work op) (λ _ w', ∃ w1, quiet w w1 ∧ w' = set_mem m w1) (quiet w) w.
Proof.
  intros Hm. apply runs_bind. eapply runs_mono; [apply cu_call_runs| |done]. intros ? w1 Hq. cbn in Hq.
  apply runs_bind, runs_gets, runs_bind, (runs_some m); [by rewrite (q_mem _ _ Hq)|]. apply runs_modify. by exists w1.
Qed.

(** The allocation of [h] on [d] now holds [l], and nothing else has changed. *)
Record stored (h d : nat) (l : list Z) w w' : Prop := mkStored {
  s_Coh : Coh w'; s_frame : frame [h] None w w'; s_copy : copy w' h d l;
  s_other : ∀ g e x, (g, e) ≠ (h, d) → copy w g e x → copy w' g e x;
  s_objects : objects w' = objects w; s_queues : queues w' = queues w
}.

Lemma store_work w h d b l l' op : Coh w → ptr_at w h d (Ptr b 0) → mem w !! b = Some l → length l' = length l →
  cu_run op (mem w) = Some (<[b := l']> (mem w)) → runs (cu_work op) (λ _, stored h d l' w) (quiet w) w.
Proof.
  intros Hc Hp Hm Hl Hop. eapply runs_mono; [by apply runs_cu_work| |done]. intros ? w' (w1 & Hq & ->).
  replace (set_mem _ w1) with (with_mem b l' w1) by (unfold with_mem; by rewrite (q_mem _ _ Hq)).
  assert (Hp1 : ∀ g e p, ptr_at w g e p → ptr_at w1 g e p) by apply (quiet_frame _ _ Hq).
  destruct (Coh_with_copy Devices w1 h d b l l') as (H1 & H2 & H3 & H4); [by eapply quiet_Coh|by apply Hp1| |done|].
  { by rewrite (q_mem _ _ Hq). }
  split; [done| |done| |apply Hq|apply Hq].
  - eapply frame_then; [apply frame_none, quiet_frame, Hq|done].
  - intros g e x Hne Hcp. apply H4; [done|]. eapply f_copy; [by apply quiet_frame| |done]. set_solver.
Qed.

Lemma store_copy w h d b l l' o src n bs : Coh w → ptr_at w h d (Ptr b 0) → mem w !! b = Some l →
  read_bytes (mem w) src n = Some bs → splice l o bs = Some l' → blk src ≠ b →
  runs (cu_work (Memcpy (Ptr b o) src n)) (λ _, stored h d l' w) (quiet w) w.
Proof.
  intros Hc Hp Hm Hr Hs Hne. eapply store_work; [done|done|done|by eapply splice_length|].
  apply (cu_copy _ _ _ _ bs); [done| |left; done]. apply write_bytes_Some. by exists l, l'.
Qed.

Lemma store_set w h d b l l' o pat k : Coh w → ptr_at w h d (Ptr b 0) → mem w !! b = Some l → pat ≠ [] →
  o mod CudaFill.BackendWordSize (Z.of_nat (length pat)) = 0 → splice l o (concat (replicate k pat)) = Some l' →
  runs (cu_work (Memset (Ptr b o) pat (Z.of_nat (k * length pat)))) (λ _, stored h d l' w) (quiet w) w.
Proof.
  intros Hc Hp Hm Hne Hal Hs. eapply store_work; [done|done|done|by eapply splice_length|].
  apply cu_set; [done|done|]. apply write_bytes_Some. by exists l, l'.
Qed.

(** A copy to the host. *)
Lemma fetch_copy w h d b l o dst n bs hb hb' : Coh w → ptr_at w h d (Ptr b 0) → mem w !! b = Some l →
  slice l o n = Some bs → host_is w (blk dst) hb → splice hb (off dst) bs = Some hb' →
  runs (cu_work (Memcpy dst (Ptr b o) n))
    (λ _ w', Coh w' ∧ frame [] (Some (blk dst)) w w' ∧ host_is w' (blk dst) hb' ∧ objects w' = objects w) (quiet w) w.
Proof.
  intros Hc Hp Hm Hr Hh Hs. assert (Hop : cu_run (Memcpy dst (Ptr b o) n) (mem w) = Some (<[blk dst := hb']> (mem w))).
  { apply (cu_copy _ _ _ _ bs); [apply read_bytes_Some; by exists l| |].
    - apply write_bytes_Some. exists hb, hb'. by destruct Hh.
    - left. intros E. apply Hh. by exists h, d, (Ptr b 0). }
  eapply runs_mono; [by apply runs_cu_work| |done]. intros ? w' (w1 & Hq & ->).
  replace (set_mem _ w1) with (with_mem (blk dst) hb' w1) by (unfold with_mem; by rewrite (q_mem _ _ Hq)).
  destruct (Coh_with_host Devices w1 (blk dst) hb hb') as (H1 & H2 & H3).
  - by eapply quiet_Coh.
  - eapply f_host; [by apply quiet_frame|done|done].
  - by eapply splice_length.
  - split_and!; [done| |done|apply Hq]. eapply frame_then; [apply frame_none, quiet_frame, Hq|done].
Qed.

(** ** Migration *)

(** [h] holds [l], and where a launch copies the host's data once more they are [l]; with
    one device it does not. *)
Definition ready w (h d : nat) (l : list Z) : Prop :=
  holds w h l ∧ (Devices ≠ 1%nat → ∀ o p, obj_at w h o → LastQueueWritingToMemObj o = None →
    HaveMigratedToDeviceSinceLastWrite o !! d = Some false → HostPtr (Mem o) = Some p →
    read_bytes (mem w) p (Size (Mem o)) = Some l).

(** Contents stay where the copies do. *)
Lemma holds_copies w w' h l : objects w' = objects w → queues w' = queues w →
  (∀ e, copy w h e l → copy w' h e l) → holds w h l → holds w' h l.
Proof.
  intros Eo Eq Hk (o & Ho & Hl & Hh). exists o. unfold obj_at. rewrite Eo, Eq. split_and!; [done|done|].
  destruct (LastQueueWritingToMemObj o); [|naive_solver].
  destruct Hh as [(x & Hx & Hcx) Hd]. split; [exists x; by split; [|apply Hk]|naive_solver].
Qed.

(** The copy of [h] on [d] has become [l], which [h] holds already. *)
Lemma holds_stored w h d w' l : stored h d l w w' → holds w h l → holds w' h l.
Proof.
  intros [_ _ Hcp Hother Eo Eq]. apply holds_copies; [done|done|]. intros e He.
  destruct (decide (e = d)) as [->|]; [done|]. apply Hother; [congruence|done].
Qed.

Lemma whole_splice l l' : length l' = length l → splice l 0 l' = Some l'.
Proof.
  intros E. apply splice_Some. split_and!; [lia|lia|]. rewrite E. change (Z.to_nat 0) with 0%nat.
  rewrite take_0, drop_ge by lia. by rewrite app_nil_r.
Qed.

Lemma whole_slice l : slice l 0 (Z.of_nat (length l)) = Some l.
Proof. apply slice_Some. split_and!; [lia|lia|lia|]. cbn. rewrite Nat2Z.id. by rewrite take_ge. Qed.

(** The device keeps what the buffer holds. *)
Definition migrated (h d : nat) w w' : Prop :=
  Coh w' ∧ frame [h] None w w' ∧ queues w' = queues w ∧ ∀ l, ready w h d l → holds w' h l ∧ copy w' h d l.

Definition lost (h : nat) w w' : Prop := Coh w' ∧ frame [h] None w w'.

Lemma lost_harmless h w w' : harmless w w' → lost h w w'.
Proof. intros [Hc Hf]. split; [done|by apply frame_none]. Qed.

Lemma host_bytes_exist w p n : host_range w p n → ∃ bs, read_bytes (mem w) p n = Some bs ∧ Z.of_nat (length bs) = n.
Proof.
  intros (l & [_ Hm] & H1 & H2 & H3). destruct (slice_exists l (off p) n H1 H2 H3) as [bs Hbs].
  exists bs. split; [|by eapply slice_length]. apply read_bytes_Some. by exists l.
Qed.

Lemma host_bytes_kept hs hb w w' p n bs : frame hs hb w w' → host_range w p n → Some (blk p) ≠ hb →
  read_bytes (mem w) p n = Some bs → read_bytes (mem w') p n = Some bs.
Proof.
  intros Hf (l & Hl & _) Hne (l' & Hm & Hs)%read_bytes_Some. apply read_bytes_Some. exists l'. split; [|done].
  assert (l' = l) as -> by (destruct Hl; congruence). by destruct (f_host _ _ _ _ Hf _ _ Hne Hl).
Qed.

Section migrate.
Context w (h d : nat) (o : ur_mem_handle_t_).
Hypotheses (Hc : Coh w) (Ho : obj_at w h o) (Hd : (d < Devices)%nat) (Hmany : Devices ≠ 1%nat).

Definition refreshed w' : Prop := Coh w' ∧ frame [h] None w w' ∧ queues w' = queues w ∧
  (∃ ps, obj_at w' h (with_ptrs ps o)) ∧
  ∀ l, ready w h d l → HaveMigratedToDeviceSinceLastWrite o !! d = Some false → holds w' h l ∧ copy w' h d l.

(** What is copied to the device is what the buffer holds. *)
Lemma refreshed_copy w1 bs w2 : harmless w w1 → queues w1 = queues w → stored h d bs w1 w2 →
  (∀ l, ready w h d l → HaveMigratedToDeviceSinceLastWrite o !! d = Some false → l = bs) → refreshed w2.
Proof.
  intros [Hc1 Hf] Eq Hst Hbs. destruct (f_obj _ _ _ _ Hf h o) as [ps Ho1]; [set_solver|done|].
  split_and!; [apply Hst| |by rewrite (s_queues _ _ _ _ _ Hst)| |].
  - eapply frame_then; [by apply frame_none|apply Hst].
  - exists ps. unfold obj_at. by rewrite (s_objects _ _ _ _ _ Hst).
  - intros l Hl Hhave. assert (l = bs) as -> by (by apply Hbs). split; [|exact (s_copy _ _ _ _ _ Hst)].
    destruct Hl as [Hl _]. eapply holds_stored; [done|].
    eapply (frame_holds Devices); [done|exact Hf|set_solver|done].
Qed.

Lemma refreshed_none : (∀ l, ready w h d l → HaveMigratedToDeviceSinceLastWrite o !! d = Some false → copy w h d l) →
  refreshed w.
Proof.
  intros Hl. split_and!; [done|apply frame_id|done|exists (Ptrs (Mem o)); by rewrite with_ptrs_same|].
  intros l Hr Hh. split; [apply Hr|by apply Hl].
Qed.

Lemma holds_at_writer l q x : holds w h l → LastQueueWritingToMemObj o = Some q → queues w !! q = Some x →
  copy w h (q_device x) l.
Proof.
  intros (o' & Ho' & _ & Hh) Hl Hx. rewrite (obj_fun _ _ _ _ Ho' Ho), Hl in Hh.
  destruct Hh as [(x' & Hx' & Hcp) _]. by rewrite Hx in Hx'; injection Hx' as ->.
Qed.

Lemma holds_unwritten l : holds w h l → LastQueueWritingToMemObj o = None → copy w h d l.
Proof. intros (o' & Ho' & _ & Hh) Hl. rewrite (obj_fun _ _ _ _ Ho' Ho), Hl in Hh. by apply Hh. Qed.

(** From the device that wrote last, through this one. *)
Lemma runs_refresh_device q x : LastQueueWritingToMemObj o = Some q → queues w !! q = Some x → q_device x ≠ d →
  runs (dst ← getPtr h d; src ← getPtr h (q_device x); cu_work (Memcpy dst src (Size (Mem o))))
    (λ _, refreshed) (harmless w) w.
Proof.
  intros Hl Hx Hne. destruct (k_last _ _ _ (v_obj _ w Hc h o Ho) q Hl) as (x' & Hx' & Hdx).
  assert (x' = x) as -> by congruence.
  apply runs_bind. eapply runs_mono; [by apply (runs_getPtr w h d o)| |done].
  intros ? w1 (Hh1 & Eq1 & b & l & -> & Hpt & Hm & Hlen). pose proof Hh1 as [Hc1 Hf1].
  destruct (f_obj _ _ _ _ Hf1 h o) as [ps Ho1]; [set_solver|done|].
  apply runs_bind. eapply runs_mono; [by apply (runs_getPtr w1 h (q_device x) (with_ptrs ps o))| |].
  2: { intros w2 Hh2. by apply (harmless_trans _ w1). }
  intros ? w2 (Hh2 & Eq2 & b' & l' & -> & Hpt' & Hm' & Hlen'). pose proof Hh2 as [Hc2 Hf2].
  assert (Hcopy : copy w2 h d l) by (eapply f_copy; [done|set_solver|by exists b]).
  destruct Hcopy as (b2 & Hpt2 & Hm2).
  pose proof (ptr_fun _ _ _ _ _ Hpt2 (f_ptr _ _ _ _ Hf2 _ _ _ Hpt)) as [= ->].
  assert (Hbb : b' ≠ b) by (intros ->; by destruct (v_own _ _ Hc2 _ _ _ _ _ _ Hpt' Hpt2 eq_refl) as [_ E]).
  cbn in Hlen'. eapply runs_mono; [eapply (store_copy w2 h d b l l' 0 _ _ l')| |]; try done.
  - apply read_bytes_Some. exists l'. split; [done|]. cbn. rewrite <- Hlen'. apply whole_slice.
  - apply whole_splice. lia.
  - intros ? w3 Hst. cbn in Hst. eapply refreshed_copy; [by apply (harmless_trans _ w1)|congruence|exact Hst|].
    intros l0 [Hl0 _] _. pose proof (holds_at_writer l0 q x Hl0 Hl Hx) as Hw.
    eapply (f_copy _ _ _ _ Hf1) in Hw; [|set_solver]. eapply (f_copy _ _ _ _ Hf2) in Hw; [|set_solver].
    eapply copy_fun; [exact Hw|]. by exists b'.
  - intros w3 Hq. apply (harmless_trans _ w1); [done|]. apply (harmless_trans _ w2); [done|]. by apply harmless_quiet.
Qed.

Lemma runs_refresh_host p : LastQueueWritingToMemObj o = None → HostPtr (Mem o) = Some p →
  runs (dst ← getPtr h d; cu_work (Memcpy dst p (Size (Mem o)))) (λ _, refreshed) (harmless w) w.
Proof.
  intros Hl Hp. apply runs_bind. eapply runs_mono; [by apply (runs_getPtr w h d o)| |done].
  intros ? w1 (Hh1 & Eq1 & b & l & -> & Hpt & Hm & Hlen). pose proof Hh1 as [Hc1 Hf1].
  pose proof (k_host _ _ _ (v_obj _ w Hc h o Ho) p Hp) as Hhost.
  destruct (host_bytes_exist _ _ _ Hhost) as (bs & Hbs & Hlb).
  assert (Hbs1 := host_bytes_kept [] None w w1 p _ bs Hf1 Hhost ltac:(done) Hbs).
  eapply runs_mono; [eapply (store_copy w1 h d b l bs 0 p _ bs)| |]; try done.
  - apply whole_splice. lia.
  - intros <-. destruct Hhost as (lh & Hlh & _). destruct (f_host _ _ _ _ Hf1 (blk p) lh ltac:(done) Hlh) as [Hno _].
    apply Hno. by exists h, d, (Ptr (blk p) 0).
  - intros ? w2 Hst. cbn in Hst. eapply refreshed_copy; [exact Hh1|done|exact Hst|].
    intros l0 [_ Hl0] Hhave. specialize (Hl0 Hmany o p Ho Hl Hhave Hp). congruence.
  - intros w2 Hq. apply (harmless_trans _ w1); [done|]. by apply harmless_quiet.
Qed.

Lemma runs_refresh : runs (enqueueMigrateBufferToDevice h d) (λ _, refreshed) (harmless w) w.
Proof.
  unfold enqueueMigrateBufferToDevice. apply runs_bind, (runs_get_obj h o); [done|].
  destruct (LastQueueWritingToMemObj o) as [q|] eqn:Hl; [|destruct (HostPtr (Mem o)) as [p|] eqn:Hp].
  - destruct (k_last _ _ _ (v_obj _ w Hc h o Ho) q Hl) as (x & Hx & _). apply runs_bind, (runs_get_queue q x); [done|].
    destruct (Nat.eqb_spec (q_device x) d) as [E|Hne]; [|by eapply runs_refresh_device].
    apply runs_ret, refreshed_none. intros l [Hh _] _. rewrite <- E. by eapply holds_at_writer.
  - by apply runs_refresh_host.
  - apply runs_ret, refreshed_none. intros l [Hh _] _. by apply holds_unwritten.
Qed.

Lemma obj_ok_have e x : obj_ok w x → obj_ok w (set_migrated (<[e := true]> (HaveMigratedToDeviceSinceLastWrite x)) x).
Proof. intros [A B C D E F G K I]. split; try done. cbn. by rewrite length_insert. Qed.
End migrate.

Lemma holds_have w h d o l : obj_at w h o → copy w h d l → holds w h l →
  let o' := set_migrated (<[d := true]> (HaveMigratedToDeviceSinceLastWrite o)) o in
  (∀ g e x, copy (with_obj h o' w) g e x ↔ copy w g e x) → holds (with_obj h o' w) h l.
Proof.
  intros Ho Hcp (o2 & Ho2 & Hl & Hh) o' Hcopy. assert (o2 = o) as -> by (by eapply obj_fun).
  exists o'. split; [unfold obj_at, with_obj; cbn; apply lookup_insert_eq|]. split; [done|]. cbn.
  destruct (LastQueueWritingToMemObj o) as [q|]; [|intros e He; by apply Hcopy, Hh].
  destruct Hh as [(x & Hx & Hcx) Hd]. split; [exists x; by split; [|apply Hcopy]|].
  intros e He. apply Hcopy. destruct (decide (e = d)) as [->|Hne]; [done|].
  rewrite list_lookup_insert_ne in He by done. by apply Hd.
Qed.

Lemma runs_migrate w h d o : Coh w → obj_at w h o → (d < Devices)%nat → Devices ≠ 1%nat →
  runs (enqueueMigrateMemoryToDeviceIfNeeded h d) (λ _, migrated h d w) (lost h w) w.
Proof.
  intros Hc Ho Hd Hmany. pose proof (v_obj _ w Hc h o Ho) as Hok. unfold enqueueMigrateMemoryToDeviceIfNeeded.
  apply runs_bind, (runs_get_obj h o); [done|].
  destruct (HaveMigratedToDeviceSinceLastWrite o !! d) as [b|] eqn:Eb.
  2: { apply lookup_ge_None in Eb. rewrite (k_have _ _ _ Hok) in Eb. lia. }
  apply runs_bind, (runs_some b); [done|]. destruct b.
  - apply runs_ret. split_and!; [done|apply frame_id|done|]. intros l [Hh _]. split; [done|].
    destruct Hh as (o' & Ho' & _ & Hh). rewrite (obj_fun _ _ _ _ Ho' Ho) in Hh.
    destruct (LastQueueWritingToMemObj o); [by apply Hh|by apply Hh].
  - apply runs_bind. eapply runs_mono; [by apply runs_refresh| |by intros; apply lost_harmless].
    intros ? w1 (Hc1 & Hf1 & Eq1 & (ps & Ho1) & Hl1). apply (runs_update h (with_ptrs ps o)); [done|].
    set (o1 := with_ptrs ps o) in *.
    destruct (Coh_with_obj Devices w1 h o1 (set_migrated (<[d := true]> (HaveMigratedToDeviceSinceLastWrite o1)) o1))
      as (H1 & H2 & H3 & H4); try done; [by apply obj_ok_have, (v_obj _ w1 Hc1 h)|].
    split_and!; [done|by eapply frame_then|done|]. intros l Hr. destruct (Hl1 l Hr Eb) as [Hh Hcp].
    split; [by apply holds_have|by apply H4].
Qed.
End migration.
