(* ===== verification/CudaBuffers.v ===== *)
(** * CudaBuffers: what the buffer commands of the CUDA adapter do

    Reads, writes, fills, maps and unmaps, launches and new buffers: the contents
    that each command takes and leaves, on whatever device they are. *)
From S2P Require Import Prelude UrUtil Effects CudaMemory CudaCoherence CudaMigration.

Section commands.
Context `{!Cu, !CuLaws}.
Variable Devices : nat.
Implicit Types w : world.
Abbreviation Coh := (CudaCoherence.Coh Devices).
Abbreviation obj_ok := (CudaCoherence.obj_ok Devices).
Abbreviation holds := (CudaCoherence.holds Devices).
Abbreviation harmless := (CudaMigration.harmless Devices).
Abbreviation lost := (CudaMigration.lost Devices).
Abbreviation queue_at := (CudaMigration.queue_at Devices).

Lemma copy_ptr w h d b l : copy w h d l → ptr_at w h d (Ptr b 0) → mem w !! b = Some l.
Proof. intros (b' & Hp & Hm) Hp'. pose proof (ptr_fun _ _ _ _ _ Hp Hp'). congruence. Qed.

Lemma harmless_refl w : Coh w → harmless w w.
Proof. split; [done|apply frame_id]. Qed.

Lemma harmless_copy w w' h d l : harmless w w' → copy w h d l → copy w' h d l.
Proof. intros [_ Hf]. apply (f_copy _ _ _ _ Hf). set_solver. Qed.

Lemma harmless_obj w w' h o : harmless w w' → obj_at w h o → ∃ ps, obj_at w' h (with_ptrs ps o).
Proof. intros [_ Hf]. apply (f_obj _ _ _ _ Hf). set_solver. Qed.

Lemma harmless_holds w w' h l : harmless w w' → holds w h l → holds w' h l.
Proof. intros [Hc Hf]. apply (frame_holds Devices _ _ _ _ _ _ Hc Hf). set_solver. Qed.

Lemma lost_trans h w1 w2 w3 : frame [h] None w1 w2 → lost h w2 w3 → lost h w1 w3.
Proof. intros Hf [Hc Hf']. split; [done|by eapply frame_then]. Qed.

(** One call of the driver without work. *)
Lemma runs_quiet w : Coh w → runs cu_call (λ _ w', harmless w w' ∧ quiet w w') (harmless w) w.
Proof.
  intros Hc. eapply runs_mono; [apply cu_call_runs| |by intros; apply harmless_quiet].
  intros ? w' Hq. split; [by apply harmless_quiet|done].
Qed.

(** ** Reads *)

Lemma runs_reading_device w h o q d : Coh w → obj_at w h o → queue_at w q d →
  runs (reading_device o q) (λ e w', w' = w ∧ (e < Devices)%nat ∧ ∀ l, holds w h l → copy w h e l) (λ _, False) w.
Proof.
  intros Hc Ho (x & Hx & <- & Hd & _). unfold reading_device.
  apply runs_bind, runs_bind, (runs_get_queue q x); [done|]. apply runs_ret.
  destruct (LastQueueWritingToMemObj o) as [q0|] eqn:Hl.
  - destruct (k_last _ _ _ (v_obj _ w Hc h o Ho) q0 Hl) as (y & Hy & Hdy).
    apply runs_bind, runs_bind, (runs_get_queue q0 y); [done|]. apply runs_ret, runs_ret.
    assert (E : (if (q_device y =? q_device x)%nat then q_device x else q_device y) = q_device y)
      by (destruct (Nat.eqb_spec (q_device y) (q_device x)); congruence).
    rewrite E. split_and!; [done|done|]. intros l Hl0. by eapply holds_at_writer.
  - apply runs_ret. split_and!; [done|done|]. intros l Hl0. by eapply holds_unwritten.
Qed.

(** What is read: the contents of [h] from [o] on, [n] bytes, go to [dst]. *)
Definition fetched w (h : nat) (o n : Z) (dst : ptr) (hb : list Z) w' : Prop :=
  ∃ l bs hb', (∀ l0, holds w h l0 → l = l0) ∧ slice l o n = Some bs ∧ splice hb (off dst) bs = Some hb' ∧
    host_is w' (blk dst) hb'.

Definition reads_only (dst : ptr) w w' : Prop := Coh w' ∧ frame [] (Some (blk dst)) w w'.

Lemma reads_harmless dst w w' : harmless w w' → reads_only dst w w'.
Proof. intros [Hc Hf]. split; [done|by apply frame_none]. Qed.

Lemma w64_guard o n s : 0 ≤ o → 0 ≤ n → o + n < 2 ^ 64 → (w64 (o + n) <=? s) = true → o + n ≤ s.
Proof. intros H1 H2 H3 H4%Z.leb_le. by rewrite w64_small in H4 by lia. Qed.

Lemma cu_runs_read w q d h o off n dst hb : Coh w → obj_at w h o → queue_at w q d → 0 ≤ off → 0 ≤ n →
  off + n < 2 ^ 64 → host_is w (blk dst) hb → 0 ≤ Effects.off dst → Effects.off dst + n ≤ Z.of_nat (length hb) →
  runs (urEnqueueMemBufferRead q h off n dst)
    (λ _ w', off + n ≤ Size (Mem o) ∧ reads_only dst w w' ∧ fetched w h off n dst hb w') (reads_only dst w) w.
Proof.
  intros Hc Ho Hq H1 H2 H3 Hhb H4 H5. unfold urEnqueueMemBufferRead.
  apply runs_bind, (runs_get_obj h o); [done|]. apply runs_bind, runs_guard.
  2: { apply reads_harmless. by apply harmless_refl. }
  intros Hin%w64_guard; try done.
  apply runs_bind. eapply runs_mono; [by apply (runs_reading_device w h o q d)| |done].
  intros e ? (-> & He & Hcp). apply runs_bind. eapply runs_mono; [by apply runs_quiet| |by intros; apply reads_harmless].
  intros ? w1 [Hh1 _]. destruct (harmless_obj _ _ h o Hh1 Ho) as [ps Ho1]. pose proof Hh1 as [Hc1 Hf1].
  apply runs_bind. eapply runs_mono; [by apply (runs_getPtr Devices w1 h e (with_ptrs ps o))| |].
  2: { intros w2 Hh2. apply reads_harmless. by eapply harmless_trans. }
  intros ? w2 (Hh2 & _ & b & l & -> & Hpt & Hm & Hlen). cbn in Hlen.
  pose proof (harmless_trans Devices _ _ _ Hf1 Hh2) as Hh. pose proof Hh as [Hc2 Hf2].
  destruct (slice_exists l off n) as [bs Hbs]; [done|done|lia|].
  destruct (splice_exists hb (Effects.off dst) bs) as [hb' Hhb']; [done|apply slice_length in Hbs; lia|].
  apply runs_bind. eapply runs_mono; [eapply (fetch_copy Devices w2 h e b l off dst n bs hb hb'); try done|
    intros ? w3 (Hc3 & Hf3 & Hhost & _)|intros w3 Hq3; apply reads_harmless].
  - by apply (f_host _ _ _ _ Hf2).
  - eapply runs_mono; [by apply runs_quiet| |].
    + intros ? w4 [[Hc4 Hf4] _]. split_and!; [done|split; [done|]|].
      * eapply frame_then; [by apply frame_none|]. eapply frame_then; [done|by apply frame_none].
      * exists l, bs, hb'. split_and!; [|done|done|by apply (f_host _ _ _ _ Hf4)].
        intros l0 Hl0%Hcp. eapply harmless_copy in Hl0; [|exact Hh]. eapply copy_fun; [|exact Hl0]. by exists b.
    + intros w4 [Hc4 Hf4]. split; [done|].
      eapply frame_then; [by apply frame_none|]. eapply frame_then; [done|by apply frame_none].
  - eapply harmless_trans; [done|by apply harmless_quiet].
Qed.

(** ** Writes and fills *)

(** [h] holds [l], by a queue that is known where there are several devices. *)
Definition settled w (h : nat) (l : list Z) : Prop :=
  holds w h l ∧ (Devices ≠ 1%nat → ∃ o q, obj_at w h o ∧ LastQueueWritingToMemObj o = Some q).

Lemma settled_frame hs hb w w' h l : Coh w' → frame hs hb w w' → h ∉ hs → settled w h l → settled w' h l.
Proof.
  intros Hc Hf Hh [Hl Hq]. split; [by eapply frame_holds|]. intros (o & q & Ho & E)%Hq.
  destruct (f_obj _ _ _ _ Hf h o Hh Ho) as [ps Ho']. by exists (with_ptrs ps o), q.
Qed.

Lemma settled_sole w h d l : Coh w → sole w h d → copy w h d l → settled w h l.
Proof.
  intros Hc Hs Hcp. split; [by apply (sole_holds Devices _ _ d)|]. intros _.
  destruct Hs as (o & q & x & Ho & Hl & _). by exists o, q.
Qed.

Lemma settled_ready w h d l : settled w h l → ready Devices w h d l.
Proof.
  intros [Hl Hq]. split; [done|]. intros (o & q & Ho & E)%Hq o' p Ho' E'.
  rewrite (obj_fun _ _ _ _ Ho' Ho) in E'. congruence.
Qed.

(** The copy of [h] on [d] goes from [l] to [upd l] and becomes what [h] holds; [l] is what
    the device had. *)
Definition written (h d : nat) (upd : list Z → option (list Z)) w w' : Prop :=
  lost h w w' ∧ ∃ l l', (∀ l0, copy w h d l0 → l = l0) ∧ upd l = Some l' ∧ settled w' h l'.

Lemma sole_same w w' h d : objects w' = objects w → queues w' = queues w → sole w h d → sole w' h d.
Proof. unfold sole, obj_at. by intros -> ->. Qed.

(** The end of a write, after the new writer is set: the work and the event. *)
Lemma runs_store_end w0 w h d l upd l' op : lost h w0 w → sole w h d → (∀ l0, copy w0 h d l0 → copy w h d l0) →
  copy w h d l → upd l = Some l' → runs (cu_work op) (λ _, stored Devices h d l' w) (quiet w) w →
  runs (cu_work op;; end_work) (λ _, written h d upd w0) (lost h w0) w.
Proof.
  intros [Hc Hf] Hs Hold Hcp Hu Hop. apply runs_bind. eapply runs_mono; [exact Hop| |].
  2: { intros w' Hq. eapply lost_trans; [done|]. by apply lost_harmless, harmless_quiet. }
  intros ? w1 Hst. cbn in Hst. pose proof Hst as [Hc1 Hf1 Hcp1 _ Eo Eq].
  assert (Hl : ∀ w', harmless w1 w' → lost h w0 w').
  { intros w' Hh. eapply lost_trans; [done|]. eapply lost_trans; [done|]. by apply lost_harmless. }
  eapply runs_mono; [by apply runs_quiet| |exact Hl]. intros ? w2 [Hh2 Hq2]. split; [by apply Hl|].
  exists l, l'. split_and!; [|done|].
  - intros l0 Hl0%Hold. by eapply copy_fun.
  - destruct Hh2 as [Hc2 Hf2]. eapply (settled_frame []); [done|exact Hf2|set_solver|].
    apply (settled_sole _ _ d); [done| |done]. eapply sole_same; [done|done|done].
Qed.

Lemma cu_runs_write w q d h o off n src bs : Coh w → obj_at w h o → queue_at w q d → 0 ≤ off → 0 ≤ n →
  off + n < 2 ^ 64 → host_range w src n → read_bytes (mem w) src n = Some bs →
  runs (urEnqueueMemBufferWrite Devices q h off n src)
    (λ _ w', off + n ≤ Size (Mem o) ∧ written h d (λ l, splice l off bs) w w') (lost h w) w.
Proof.
  intros Hc Ho Hq H1 H2 H3 Hr Hbs. pose proof Hq as (x & Hx & Ed & Hd & _). unfold urEnqueueMemBufferWrite.
  apply runs_bind, (runs_get_obj h o); [done|]. apply runs_bind, runs_guard.
  2: { by apply lost_harmless, harmless_refl. }
  intros Hin%w64_guard; try done. apply runs_bind, runs_bind, (runs_get_queue q x); [done|]. apply runs_ret. rewrite Ed.
  apply runs_bind. eapply runs_mono; [by apply (runs_getPtr Devices w h d o)| |by intros; apply lost_harmless].
  intros ? w1 (Hh1 & _ & b & l & -> & Hpt & Hm & Hlen). pose proof Hh1 as [Hc1 Hf1].
  destruct (harmless_obj _ _ h o Hh1 Ho) as [ps Ho1].
  apply runs_bind. eapply runs_mono; [apply (runs_setLast Devices w1 h q (with_ptrs ps o) d); try done|..|done].
  { by eapply queue_kept. }
  intros ? w2 (Hc2 & Hf2 & Hs2 & Hcp2). apply runs_bind.
  assert (Hl2 : lost h w w2) by (split; [done|eapply frame_then; [by apply frame_none|done]]).
  eapply runs_mono; [by apply runs_quiet| |].
  2: { intros w3 Hh3. eapply lost_trans; [apply Hl2|by apply lost_harmless]. }
  intros ? w3 [Hh3 Hq3]. pose proof Hh3 as [Hc3 Hf3].
  assert (Hl3 : lost h w w3) by (eapply lost_trans; [apply Hl2|by apply lost_harmless]).
  assert (Hold : ∀ l0, copy w1 h d l0 → copy w3 h d l0) by (intros l0 Hl0; by apply (harmless_copy w2), Hcp2).
  assert (Hcp3 : copy w3 h d l) by (apply Hold; by exists b).
  assert (Hpt3 : ptr_at w3 h d (Ptr b 0)) by (apply (f_ptr _ _ _ _ Hf3), (f_ptr _ _ _ _ Hf2), Hpt).
  destruct (splice_exists l off bs) as [l' Hl']; [done| |].
  { apply read_bytes_Some in Hbs as (lh & _ & Es%slice_length). lia. }
  eapply runs_mono; [eapply (runs_store_end w w3 h d l (λ l, splice l off bs) l')| |]; try done.
  - eapply sole_same; [apply Hq3|apply Hq3|done].
  - intros l0 Hl0. apply Hold. by eapply harmless_copy.
  - pose proof Hr as (lh & Hlh & _). destruct Hl3 as [_ Hf03].
    eapply (store_copy Devices w3 h d b l l' off src n bs); try done.
    + by eapply copy_ptr.
    + by apply (host_bytes_kept [h] None w).
    + intros Eb. destruct (f_host _ _ _ _ Hf03 _ _ ltac:(done) Hlh) as [Hno _]. apply Hno. by exists h, d, (Ptr b 0).
Qed.

Lemma cu_runs_fill w q d h o k off pat n bs : Coh w → obj_at w h o → queue_at w q d → 0 ≤ off → 0 < n < 2 ^ 32 →
  off mod CudaFill.BackendWordSize n = 0 → off + Z.of_nat k * n < 2 ^ 64 → host_range w pat n → read_bytes (mem w) pat n = Some bs →
  runs (urEnqueueMemBufferFill Devices q h pat n off (Z.of_nat k * n))
    (λ _ w', off + Z.of_nat k * n ≤ Size (Mem o) ∧
       written h d (λ l, splice l off (concat (replicate k bs))) w w') (lost h w) w.
Proof.
  intros Hc Ho Hq H1 H2 Hal H3 Hr Hbs. unfold urEnqueueMemBufferFill.
  apply runs_bind, (runs_get_obj h o); [done|]. apply runs_bind, runs_guard.
  2: { by apply lost_harmless, harmless_refl. }
  rewrite Z.add_comm. intros Hin%w64_guard; try lia.
  apply runs_bind. eapply runs_mono; [by apply (runs_setLast Devices w h q o d)|..|done].
  intros ? w1 (Hc1 & Hf1 & Hs1 & Hcp1). pose proof (queue_kept _ _ _ _ _ _ _ Hf1 Hq) as (x & Hx & Ed & Hd & _).
  destruct (f_size _ _ _ _ Hf1 h (Size (Mem o))) as (o1 & Ho1 & Es1); [by exists o|].
  apply runs_bind, runs_bind, (runs_get_queue q x); [done|]. apply runs_ret. rewrite Ed.
  apply runs_bind. eapply runs_mono; [by apply runs_quiet| |].
  2: { intros w2 Hh2. eapply lost_trans; [done|by apply lost_harmless]. }
  intros ? w2 [Hh2 Hq2]. pose proof Hh2 as [Hc2 Hf2].
  apply runs_bind. eapply runs_mono; [apply (runs_getPtr Devices w2 h d o1); [done|by eapply quiet_obj|done]| |].
  2: { intros w3 Hh3. eapply lost_trans; [done|]. apply lost_harmless. by eapply harmless_trans. }
  intros ? w3 (Hh3 & Eq3 & b & l & -> & Hpt & Hm & Hlen). pose proof (harmless_trans Devices _ _ _ Hf2 Hh3) as Hh.
  pose proof Hh3 as [Hc3 Hf3]. assert (Hl3 : lost h w w3) by (eapply lost_trans; [done|by apply lost_harmless]).
  pose proof Hr as (lh & Hlh & _). destruct (Z.eqb_spec n 0); [lia|].
  assert (Ew : w32 n = n) by (unfold w32; apply Z.mod_small; lia).
  cbv zeta. rewrite Ew. destruct (Z.eqb_spec n 0); [lia|].
  apply runs_bind, runs_gets, runs_bind, (runs_some bs).
  { destruct Hl3. by apply (host_bytes_kept [h] None w). }
  assert (Hlb : Z.of_nat (length bs) = n) by (apply read_bytes_Some in Hbs as (? & _ & Es%slice_length); lia).
  destruct (splice_exists l off (concat (replicate k bs))) as [l' Hl']; [done|rewrite concat_length; lia|].
  eapply runs_mono; [eapply (runs_store_end w w3 h d l (λ l, splice l off (concat (replicate k bs))) l')| |]; try done.
  - destruct Hs1 as (o' & q' & x' & A1 & A2 & A3 & A4 & A5).
    destruct (harmless_obj _ _ h o' Hh A1) as [ps A1']. exists (with_ptrs ps o'), q', x'. split_and!; try done.
    by rewrite Eq3, (q_queues _ _ Hq2).
  - intros l0 Hl0. eapply harmless_copy; [done|]. by apply Hcp1.
  - by exists b.
  - replace (Z.of_nat k * n) with (Z.of_nat (k * length bs)) by lia.
    eapply (store_set Devices w3 h d b l l' off bs k); try done.
    + intros ->. cbn in Hlb. lia.
    + by rewrite Hlb.
Qed.

(** ** Launches *)

Definition touches (hs : list nat) w w' : Prop := Coh w' ∧ frame hs None w w'.

Lemma touches_trans hs w1 w2 w3 : frame hs None w1 w2 → touches hs w2 w3 → touches hs w1 w3.
Proof. intros Hf [Hc Hf']. split; [done|by eapply frame_then]. Qed.

Lemma touches_lost hs h w w' : h ∈ hs → lost h w w' → touches hs w w'.
Proof. intros Hh [Hc Hf]. split; [done|]. eapply frame_weaken; [|by left|done]. set_solver. Qed.

Lemma touches_harmless hs w w' : harmless w w' → touches hs w w'.
Proof. intros [Hc Hf]. split; [done|by apply frame_none]. Qed.

Lemma sole_frame hs hb w w' h d : Coh w' → frame hs hb w w' → h ∉ hs → sole w h d → sole w' h d.
Proof.
  intros Hc Hf Hh (o & q & x & Ho & Hl & Hx & <- & He). destruct (f_obj _ _ _ _ Hf h o Hh Ho) as [ps Ho'].
  destruct (k_last _ _ _ (v_obj _ w' Hc h _ Ho') q Hl) as (x' & Hx' & _).
  destruct (f_dev _ _ _ _ Hf q x' Hx') as (y & Hy & E). assert (y = x) as -> by congruence.
  by exists (with_ptrs ps o), q, x'.
Qed.

Lemma ready_frame hs w w' h d l : Coh w → Coh w' → frame hs None w w' → h ∉ hs →
  ready Devices w h d l → ready Devices w' h d l.
Proof.
  intros Hc Hc' Hf Hh [Hl Hp]. split; [by eapply frame_holds|]. destruct Hl as (o & Ho & _).
  destruct (f_obj _ _ _ _ Hf h o Hh Ho) as [ps Ho']. intros Hmany o2 p Ho2. rewrite (obj_fun _ _ _ _ Ho2 Ho'). cbn.
  intros E1 E2 E3. eapply host_bytes_kept; [done|by apply (k_host _ _ _ (v_obj _ w Hc h o Ho))|done|by apply Hp].
Qed.

(** What migration gives for an argument. *)
Definition brought w (d : nat) (a : mem_obj_arg) w' : Prop :=
  (∀ l, ready Devices w (arg_Mem a) d l → copy w' (arg_Mem a) d l ∧ (writes a = false → holds w' (arg_Mem a) l)) ∧
  (writes a = true → sole w' (arg_Mem a) d).

Lemma brought_later hs w w1 w2 d a : touches hs w1 w2 → arg_Mem a ∉ hs → brought w d a w1 → brought w d a w2.
Proof.
  intros [Hc Hf] Hn [H1 H2]. split; [|intros Hw; eapply sole_frame; [done|done|done|by apply H2]].
  intros l [Hcp Hh]%H1. split; [by apply (f_copy _ _ _ _ Hf)|]. intros Hw. eapply frame_holds; [done|done|done|by apply Hh].
Qed.

Lemma runs_bring w q d a : Devices ≠ 1%nat → Coh w → queue_at w q d → (∃ o, obj_at w (arg_Mem a) o) →
  runs (enqueueMigrateMemoryToDeviceIfNeeded (arg_Mem a) d;;
        (if writes a then setLastQueueWritingToMemObj Devices (arg_Mem a) q else mret tt))
    (λ _ w', lost (arg_Mem a) w w' ∧ brought w d a w') (lost (arg_Mem a) w) w.
Proof.
  intros Hmany Hc Hq [o Ho]. pose proof Hq as (_ & _ & _ & Hd & _).
  apply runs_bind. eapply runs_mono; [by apply (runs_migrate Devices w (arg_Mem a) d o)| |done].
  intros ? w1 (Hc1 & Hf1 & _ & Hl1). destruct (writes a) eqn:Ew.
  - destruct (f_size _ _ _ _ Hf1 (arg_Mem a) (Size (Mem o))) as (o1 & Ho1 & _); [by exists o|].
    eapply runs_mono; [apply (runs_setLast Devices w1 (arg_Mem a) q o1 d); [done|done|by eapply queue_kept]| |done].
    intros ? w2 (Hc2 & Hf2 & Hs2 & Hcp2). split; [split; [done|by eapply frame_then]|].
    split; [|by intros _]. intros l [_ Hl]%Hl1. split; [by apply Hcp2|congruence].
  - apply runs_ret. split; [done|]. split; [|congruence]. intros l [Hh Hcp]%Hl1. by split.
Qed.

Lemma runs_migrate_args l w q d : Devices ≠ 1%nat → Coh w → queue_at w q d → NoDup (arg_Mem <$> l) →
  (∀ a, a ∈ l → ∃ o, obj_at w (arg_Mem a) o) →
  runs (migrate_args Devices q d l) (λ _ w', touches (arg_Mem <$> l) w w' ∧ ∀ a, a ∈ l → brought w d a w')
    (touches (arg_Mem <$> l) w) w.
Proof.
  intros Hmany. revert w. induction l as [|a l IH]; intros w Hc Hq Hnd Hobj; cbn [migrate_args fmap list_fmap].
  { apply runs_ret. split; [split; [done|apply frame_id]|]. by intros a ?%elem_of_nil. }
  cbn in Hnd. apply NoDup_cons in Hnd as [Hna Hnd].
  assert (Hin : arg_Mem a ∈ arg_Mem a :: (arg_Mem <$> l)) by set_solver.
  apply runs_assoc, runs_bind. eapply runs_mono; [apply (runs_bring w q d a); [done|done|done|apply Hobj; set_solver]| |].
  2: { intros w1. by apply touches_lost. }
  intros ? w1 [Hl1 Hb1]. cbn in Hl1, Hb1. pose proof Hl1 as [Hc1 Hf1].
  assert (Hsub : ∀ w2, touches (arg_Mem <$> l) w1 w2 → touches (arg_Mem a :: (arg_Mem <$> l)) w w2).
  { intros w2 [Hc2 Hf2]. eapply touches_trans; [apply (touches_lost _ _ _ _ Hin Hl1)|].
    split; [done|]. eapply frame_weaken; [|by left|done]. set_solver. }
  eapply runs_mono; [apply (IH w1); [done|by eapply queue_kept|done|]| |exact Hsub].
  { intros b Hb. destruct (Hobj b) as [o Ho]; [set_solver|].
    destruct (f_size _ _ _ _ Hf1 (arg_Mem b) (Size (Mem o))) as (o' & Ho' & _); [by exists o|by exists o']. }
  intros ? w2 [Ht Hall]. split; [by apply Hsub|]. intros b [->|Hb]%elem_of_cons; [by eapply brought_later|].
  assert (Hne : arg_Mem b ∉ [arg_Mem a]).
  { intros Eb%list_elem_of_singleton. apply Hna. rewrite <- Eb. by apply list_elem_of_fmap_2. }
  destruct (Hall b Hb) as [X1 X2]. split; [|done]. intros x Hx. apply X1. by apply (ready_frame [arg_Mem a] w).
Qed.

(** *** The kernel *)

(** Arguments on device [d] at the pointers that were stored. *)
Definition args_at w (d : nat) (l : list mem_obj_arg) : Prop := ∀ a, a ∈ l → ptr_at w (arg_Mem a) d (CuPtr a).

Record outcome w (d : nat) (l : list mem_obj_arg) (outs : list (list Z)) w' : Prop := mkOutcome {
  u_touches : touches (arg_Mem <$> l) w w';
  u_objects : objects w' = objects w; u_queues : queues w' = queues w;
  u_new : ∀ i a out, l !! i = Some a → outs !! i = Some out → copy w' (arg_Mem a) d out;
  u_old : ∀ g e x, e ≠ d ∨ g ∉ arg_Mem <$> l → copy w g e x → copy w' g e x
}.

Lemma outcome_insert_all w d l : Coh w → NoDup (arg_Mem <$> l) → args_at w d l → ∀ outs,
  Forall2 (λ a out, ∃ x, copy w (arg_Mem a) d x ∧ length out = length x) l outs →
  outcome w d l outs (set_mem (insert_all (blk ∘ CuPtr <$> l) outs (mem w)) w).
Proof.
  intros Hc. induction l as [|a l IH]; intros Hnd Hat outs Houts.
  { apply Forall2_nil_inv_l in Houts as ->. replace (set_mem _ w) with w by (by destruct w).
    split; try done. split; [done|apply frame_id]. }
  apply Forall2_cons_inv_l in Houts as (out & outs' & (x & Hx & Hlen) & Houts & ->).
  cbn in Hnd. apply NoDup_cons in Hnd as [Hna Hnd].
  destruct (IH Hnd ltac:(intros b Hb; apply Hat; set_solver) outs' Houts) as [[Hc1 Hf1] Eo Eq Hn Ho].
  set (w1 := set_mem (insert_all (blk ∘ CuPtr <$> l) outs' (mem w)) w) in *.
  pose proof (Hat a ltac:(set_solver)) as Hp. destruct (ptr_copy Devices w _ _ _ Hc Hp) as (b & x' & Eb & Hx' & _).
  rewrite Eb in Hp. pose proof (f_ptr _ _ _ _ Hf1 _ _ _ Hp) as Hp1.
  assert (Hm : mem w1 !! b = Some x) by (eapply copy_ptr; [apply Ho; [by right|exact Hx]|done]).
  destruct (Coh_with_copy Devices w1 _ d b x out Hc1 Hp1 Hm Hlen) as (C1 & C2 & C3 & C4).
  replace (set_mem _ w) with (with_mem b out w1) by (cbn; by rewrite Eb).
  split; [|done|done| |].
  - eapply touches_trans; [eapply frame_weaken; [|by left|exact Hf1]; set_solver|].
    eapply touches_lost; [apply list_elem_of_here|by split].
  - intros [|i] c z; cbn; [by intros [= <-] [= <-]|]. intros Hc' Hz. apply C4; [|by eapply Hn].
    intros [= E]. apply Hna. rewrite <- E. by eapply list_elem_of_fmap_2, list_elem_of_lookup_2.
  - intros g e z Hor Hz. assert (Hor' : e ≠ d ∨ g ≠ arg_Mem a) by set_solver.
    apply C4; [destruct Hor'; congruence|]. apply Ho; [set_solver|done].
Qed.

(** A kernel leaves what it may only read. *)
Definition respects (f : nat) (l : list mem_obj_arg) : Prop :=
  ∀ ls i a, l !! i = Some a → writes a = false → kernel f ls !! i = ls !! i.

(** What a launch does: the kernel sees what the buffers hold, and these hold what it
    leaves. *)
Definition launched w (d f : nat) (l : list mem_obj_arg) w' : Prop := ∃ ls,
  length ls = length l ∧
  (∀ i a x y, l !! i = Some a → ls !! i = Some x → ready Devices w (arg_Mem a) d y → x = y) ∧
  (∀ i a out, l !! i = Some a → kernel f ls !! i = Some out → writes a = true → settled w' (arg_Mem a) out) ∧
  (∀ a y, a ∈ l → writes a = false → ready Devices w (arg_Mem a) d y → holds w' (arg_Mem a) y).

Lemma holds_single w h d l : Devices = 1%nat → Coh w → copy w h d l → holds w h l.
Proof.
  intros HD Hc Hcp. pose proof Hcp as (b & (o & Ho & Hp) & Hm). pose proof (v_obj _ w Hc h o Ho) as Hok.
  assert (Hone : ∀ e, (e < Devices)%nat → copy w h e l).
  { intros e He. apply lookup_lt_Some in Hp. rewrite (k_ptrs _ _ _ Hok) in Hp. by replace e with d by lia. }
  exists o. split; [done|]. split.
  { destruct (k_alloc _ _ _ Hok d _ Hp) as (b' & l' & [= <-] & Hm' & Hl). congruence. }
  destruct (LastQueueWritingToMemObj o) as [q|] eqn:El; [|done].
  destruct (k_last _ _ _ Hok q El) as (x & Hx & Hd). split; [exists x; by split; [|apply Hone]|].
  intros e He%lookup_lt_Some. apply Hone. by rewrite <- (k_have _ _ _ Hok).
Qed.

Lemma copy_single w h d l : Devices = 1%nat → Coh w → (d < Devices)%nat → holds w h l → copy w h d l.
Proof.
  intros HD Hc Hd (o & Ho & _ & Hh). destruct (LastQueueWritingToMemObj o) as [q|] eqn:El; [|by apply Hh].
  destruct (k_last _ _ _ (v_obj _ w Hc h o Ho) q El) as (y & Hy & Hdy).
  destruct Hh as [(x & Hx & Hcp) _]. assert (y = x) as -> by congruence. by replace d with (q_device x) by lia.
Qed.

(** Before the kernel: the arguments on the device, or the one device there is. *)
Lemma runs_prepare w q d l : Coh w → queue_at w q d → NoDup (arg_Mem <$> l) → args_at w d l →
  runs (if (1 <? Devices)%nat then migrate_args Devices q d l else mret tt)
    (λ _ w', touches (arg_Mem <$> l) w w' ∧
       ∀ a, a ∈ l → (∀ y, ready Devices w (arg_Mem a) d y → copy w' (arg_Mem a) d y ∧ (writes a = false → holds w' (arg_Mem a) y)) ∧
         (writes a = true → Devices = 1%nat ∨ sole w' (arg_Mem a) d))
    (touches (arg_Mem <$> l) w) w.
Proof.
  intros Hc Hq Hnd Hat. pose proof Hq as (_ & _ & _ & Hd & _). destruct (Nat.ltb_spec 1 Devices).
  - eapply runs_mono; [apply (runs_migrate_args l w q d); try done; try lia| |done].
    { intros a (o & Ho & _)%Hat. by exists o. }
    intros ? w' [Ht Hb]. split; [done|]. intros c [X1 X2]%Hb. split; [done|]. intros Hw. right. by apply X2.
  - assert (HD : Devices = 1%nat) by lia. apply runs_ret. split; [split; [done|apply frame_id]|].
    intros a _. split; [|by left]. intros y [Hy _]. split; [by apply copy_single|done].
Qed.

Lemma args_contents w d l : Coh w → args_at w d l → ∃ ls, mapM (mem w !!.) (blk ∘ CuPtr <$> l) = Some ls ∧
  length ls = length l ∧ CuPtr <$> l = (λ b, Ptr b 0) <$> (blk ∘ CuPtr <$> l) ∧
  ∀ i a x, l !! i = Some a → ls !! i = Some x → copy w (arg_Mem a) d x.
Proof.
  intros Hc. induction l as [|a l IH]; intros Hat; [by exists []|].
  destruct IH as (ls & Em & El & Ep & Hcp); [intros b Hb; apply Hat; set_solver|].
  destruct (ptr_copy Devices w _ _ _ Hc (Hat a ltac:(set_solver))) as (b & x & Eb & (b' & Hp & Hm) & _).
  pose proof (ptr_fun _ _ _ _ _ Hp (Hat a ltac:(set_solver))) as Ep'. assert (b' = b) as -> by congruence.
  exists (x :: ls). cbn. rewrite Eb. cbn. rewrite Hm. cbn. cbn in Em. rewrite Em. cbn. split_and!; [done|congruence| |].
  - f_equal. exact Ep.
  - intros [|i] c y; cbn; [intros [= <-] [= <-]; by exists b|by apply Hcp].
Qed.

Lemma args_apart w d l : Coh w → NoDup (arg_Mem <$> l) → args_at w d l → NoDup (blk ∘ CuPtr <$> l).
Proof.
  intros Hc Hnd Hat. apply NoDup_alt. intros i j b Hi Hj.
  apply list_lookup_fmap_Some in Hi as (a1 & -> & H1), Hj as (a2 & E & H2).
  destruct (v_own _ w Hc _ _ _ _ _ _ (Hat a1 ltac:(by eapply list_elem_of_lookup_2))
    (Hat a2 ltac:(by eapply list_elem_of_lookup_2)) E) as [Em _].
  eapply NoDup_lookup; [exact Hnd|by rewrite list_lookup_fmap, H1|]. by rewrite list_lookup_fmap, H2; cbn; f_equal.
Qed.

Lemma runs_kernel w d f l : Coh w → NoDup (arg_Mem <$> l) → args_at w d l →
  runs (cu_work (LaunchKernel f (CuPtr <$> l)))
    (λ _ w', ∃ ls, length ls = length l ∧ (∀ i a x, l !! i = Some a → ls !! i = Some x → copy w (arg_Mem a) d x) ∧
       outcome w d l (kernel f ls) w') (quiet w) w.
Proof.
  intros Hc Hnd Hat. destruct (args_contents w d l Hc Hat) as (ls & Em & El & Ep & Hcp). rewrite Ep.
  eapply runs_mono; [apply runs_cu_work, cu_launch; [by eapply args_apart|done]| |done].
  intros ? w' (w1 & Hq & ->). exists ls. split_and!; [done|done|].
  pose proof (quiet_Coh _ _ _ Hq Hc) as Hc1. pose proof (quiet_frame _ _ Hq) as Hf1.
  assert (Hat1 : args_at w1 d l) by (intros c Hca; apply (f_ptr _ _ _ _ Hf1), Hat, Hca).
  pose proof (kernel_lengths f ls) as Hlen. rewrite <- (q_mem _ _ Hq).
  destruct (outcome_insert_all w1 d l Hc1 Hnd Hat1 (kernel f ls)) as [[U1 U2] U3 U4 U5 U6].
  - apply Forall2_same_length_lookup_2.
    + rewrite <- El. by rewrite <- (length_fmap length ls), <- Hlen, length_fmap.
    + intros i c out Ha Hout. destruct (lookup_lt_is_Some_2 ls i) as [x Hx].
      { rewrite El. by eapply lookup_lt_Some. }
      exists x. split; [apply (f_copy _ _ _ _ Hf1); [set_solver|by eapply Hcp]|].
      pose proof (f_equal (λ z, z !! i) Hlen) as E. cbn in E. rewrite !list_lookup_fmap, Hx, Hout in E. by injection E.
  - split; [split; [done|]|by rewrite U3, (q_objects _ _ Hq)|by rewrite U4, (q_queues _ _ Hq)|done|].
    + eapply frame_then; [by apply frame_none|done].
    + intros g e x Hor Hx. apply U6; [done|]. apply (f_copy _ _ _ _ Hf1); [set_solver|done].
Qed.

(** The outcome of the kernel in terms of the buffers. *)
Lemma launched_outcome w w1 w2 d f l ls : Coh w1 → respects f l → length ls = length l → outcome w1 d l (kernel f ls) w2 →
  (∀ i a x, l !! i = Some a → ls !! i = Some x → copy w1 (arg_Mem a) d x) →
  (∀ a, a ∈ l → (∀ y, ready Devices w (arg_Mem a) d y → copy w1 (arg_Mem a) d y ∧ (writes a = false → holds w1 (arg_Mem a) y)) ∧
     (writes a = true → Devices = 1%nat ∨ sole w1 (arg_Mem a) d)) →
  launched w d f l w2.
Proof.
  intros Hc Hres Hlen [[Hc2 Hf2] Eo Eq Hnew Hold] Hcp Hready. exists ls. split_and!; [done| | |].
  - intros i a x y Ha Hx Hy. destruct (Hready a) as [Hr _]; [by eapply list_elem_of_lookup_2|].
    destruct (Hr y Hy) as [Hy1 _]. eapply copy_fun; [by eapply Hcp|done].
  - intros i a out Ha Hout Hw. pose proof (Hnew i a out Ha Hout) as Hcp2.
    destruct (Hready a) as [_ Hs]; [by eapply list_elem_of_lookup_2|]. destruct (Hs Hw) as [HD|Hsole]; [by split; [apply (holds_single _ _ d)|]|].
    apply (settled_sole _ _ d); [done| |done]. by eapply sole_same.
  - intros a y Ha Hw Hy. destruct (Hready a Ha) as [Hr _]. destruct (Hr y Hy) as [Hy1 Hh1].
    apply list_elem_of_lookup in Ha as [i Hi]. destruct (lookup_lt_is_Some_2 ls i) as [x Hx].
    { rewrite Hlen. by eapply lookup_lt_Some. }
    pose proof (copy_fun _ _ _ _ _ (Hcp i a x Hi Hx) Hy1) as ->.
    eapply holds_copies; [done|done| |by apply Hh1]. intros e He. destruct (decide (e = d)) as [->|Hne].
    + apply (Hnew i a); [done|]. by rewrite (Hres ls i a Hi Hw).
    + apply Hold; [by left|done].
Qed.

Lemma launched_later w d f l w1 w2 : harmless w1 w2 → launched w d f l w1 → launched w d f l w2.
Proof.
  intros Hh (ls & H1 & H2 & H3 & H4). exists ls. split_and!; [done|done| |].
  - intros i a out Ha Ho Hw. pose proof Hh as [Hc Hf]. eapply (settled_frame []); [done|exact Hf|set_solver|by eapply H3].
  - intros a y Ha Hw Hy. eapply harmless_holds; [done|by apply H4].
Qed.

Lemma ready_harmless w w' h d l : Coh w → harmless w w' → ready Devices w h d l → ready Devices w' h d l.
Proof. intros Hc [Hc' Hf]. apply (ready_frame []); [done|done|done|set_solver]. Qed.

Lemma launched_earlier w0 w d f l w' : Coh w0 → harmless w0 w → launched w d f l w' → launched w0 d f l w'.
Proof.
  intros Hc Hh (ls & H1 & H2 & H3 & H4). exists ls. split_and!; [done| |done|].
  - intros i a x y Ha Hx Hy. eapply H2; [done|done|by eapply ready_harmless].
  - intros a y Ha Hw Hy. apply H4; [done|done|by eapply ready_harmless].
Qed.

Lemma runs_launch w q d k : Coh w → queue_at w q d → NoDup (arg_Mem <$> MemObjArgs k) →
  args_at w (k_device k) (MemObjArgs k) → respects (k_function k) (MemObjArgs k) →
  runs (enqueueKernelLaunch Devices q k)
    (λ _ w', k_device k = d ∧ touches (arg_Mem <$> MemObjArgs k) w w' ∧ launched w d (k_function k) (MemObjArgs k) w')
    (touches (arg_Mem <$> MemObjArgs k) w) w.
Proof.
  intros Hc Hq Hnd Hat Hres. set (l := MemObjArgs k) in *. pose proof Hq as (x & Hx & Ed & Hd & _).
  unfold enqueueKernelLaunch. fold l. apply runs_bind, runs_bind, (runs_get_queue q x); [done|]. apply runs_ret. rewrite Ed.
  apply runs_bind, runs_guard; [|split; [done|apply frame_id]]. intros Edk%Nat.eqb_eq. rewrite <- Edk in Hat |- *.
  apply runs_bind. eapply runs_mono; [by apply runs_quiet| |apply touches_harmless]. intros ? w1 [Hh1 _].
  pose proof Hh1 as [Hc1 Hf1]. assert (Hat1 : args_at w1 d l) by (intros c Hca; apply (f_ptr _ _ _ _ Hf1), Hat, Hca).
  assert (Ht1 : ∀ w', touches (arg_Mem <$> l) w1 w' → touches (arg_Mem <$> l) w w').
  { intros w'. apply touches_trans. by apply frame_none. }
  apply runs_bind. eapply runs_mono; [apply (runs_prepare w1 q d l); try done; by eapply queue_kept| |exact Ht1].
  intros ? w2 [Ht2 Hr2]. cbn in Hr2. pose proof Ht2 as [Hc2 Hf2].
  apply runs_bind. eapply runs_mono; [by apply runs_quiet| |].
  2: { intros w3 Hh3. apply Ht1. eapply touches_trans; [done|by apply touches_harmless]. }
  intros ? w3 [Hh3 Hq3]. pose proof Hh3 as [Hc3 Hf3].
  assert (Hat3 : args_at w3 d l) by (intros c Hca; apply (f_ptr _ _ _ _ Hf3), (f_ptr _ _ _ _ Hf2), Hat1, Hca).
  assert (Ht3 : ∀ w', touches (arg_Mem <$> l) w3 w' → touches (arg_Mem <$> l) w w').
  { intros w' H'. apply Ht1. eapply touches_trans; [done|]. eapply touches_trans; [by apply frame_none|done]. }
  apply runs_bind. eapply runs_mono; [by apply (runs_kernel w3 d (k_function k) l)| |].
  2: { intros w4 Hq4. apply Ht3, touches_harmless. by apply harmless_quiet. }
  intros ? w4 (ls & Hlen & Hcp & Hout). pose proof (u_touches _ _ _ _ _ Hout) as Ht4. pose proof Ht4 as [Hc4 Hf4].
  eapply runs_mono; [by apply runs_quiet| |].
  2: { intros w5 Hh5. apply Ht3. eapply touches_trans; [done|by apply touches_harmless]. }
  intros ? w5 [Hh5 _]. split_and!; [done|apply Ht3; eapply touches_trans; [done|by apply touches_harmless]|].
  eapply launched_later; [done|]. eapply (launched_earlier w w1); [done|done|].
  apply (launched_outcome w1 w3 w4 d (k_function k) l ls); try done.
  intros c Hca. destruct (Hr2 c Hca) as [X1 X2]. split.
  - intros y [Hy1 Hy2]%X1. split; [by eapply harmless_copy|]. intros Hw. eapply harmless_holds; [done|by apply Hy2].
  - intros [HD|Hs]%X2; [by left|right]. eapply sole_same; [apply Hq3|apply Hq3|done].
Qed.
End commands.
