(* ===== verification/CudaObjects.v ===== *)
(** * CudaObjects: new buffers and their references

    What creation, retain and release of a buffer of the CUDA adapter do to it and to
    the others. *)
From S2P Require Import Prelude UrUtil Effects CudaMemory CudaCoherence CudaMigration CudaBuffers.

Section objects.
Context `{!Cu, !CuLaws}.
Variable Devices : nat.
Implicit Types w : world.
Abbreviation Coh := (CudaCoherence.Coh Devices).
Abbreviation obj_ok := (CudaCoherence.obj_ok Devices).
Abbreviation holds := (CudaCoherence.holds Devices).
Abbreviation harmless := (CudaMigration.harmless Devices).
Abbreviation lost := (CudaMigration.lost Devices).
Abbreviation queue_at := (CudaMigration.queue_at Devices).

Lemma runs_attempt (m : M unit) (Q : option exn → world → Prop) (E : world → Prop) w :
  runs m (λ _, Q None) (λ w', ∀ e, Q (Some e) w') w → runs (attempt m) Q E w.
Proof. unfold runs, attempt. by destruct (m w) as [[] w']. Qed.

Lemma runs_result r (Q : unit → world → Prop) (E : world → Prop) w : (r = None → Q tt w) → (r ≠ None → E w) →
  runs (result r) Q E w.
Proof. intros HQ HE. destruct r; [by apply HE|by apply HQ]. Qed.

(** ** Destruction *)

(** Buffers other than [h] and the host's memory stay. *)
Record kept (h : nat) w w' : Prop := mkKept {
  t_holds : ∀ g l, g ≠ h → holds w g l → holds w' g l;
  t_size : ∀ g n, g ≠ h → size_at w g n → size_at w' g n;
  t_ptr : ∀ g d p, g ≠ h → ptr_at w g d p → ptr_at w' g d p;
  t_host : ∀ b l, host_is w b l → host_is w' b l
}.

Lemma kept_trans h w1 w2 w3 : kept h w1 w2 → kept h w2 w3 → kept h w1 w3.
Proof. intros [A B C D] [E F G K]. split; eauto. Qed.

Lemma kept_lost h w w' : lost h w w' → kept h w w'.
Proof.
  intros [Hc Hf]. split; [|intros g n _; apply Hf|intros g d p _; apply Hf|by intros b l; apply Hf].
  intros g l Hne. eapply frame_holds; [done|done|]. set_solver.
Qed.

Section without.
Context w (h : nat) (o : ur_mem_handle_t_) w'.
Hypotheses (Hc : Coh w) (Ho : obj_at w h o).
Hypotheses (Eo : objects w' = delete h (objects w)) (Eq : queues w' = queues w) (En : next_handle w' = next_handle w).
Hypothesis (Hm : ∀ b, mem w' !! b = mem w !! b ∨ ∃ d p, ptr_at w h d p ∧ blk p = b).

Lemma obj_without g x : obj_at w' g x ↔ g ≠ h ∧ obj_at w g x.
Proof. unfold obj_at. rewrite Eo, lookup_delete_Some. naive_solver. Qed.

Lemma ptr_without g d p : ptr_at w' g d p ↔ g ≠ h ∧ ptr_at w g d p.
Proof.
  split; [intros (x & [Hne Hx]%obj_without & Hp)|intros (Hne & x & Hx & Hp)]; [split; [done|by exists x]|].
  exists x. by rewrite obj_without.
Qed.

Lemma mem_without g d p x : g ≠ h → ptr_at w g d p → mem w !! blk p = Some x → mem w' !! blk p = Some x.
Proof.
  intros Hne Hp E. destruct (Hm (blk p)) as [->|(d' & p' & Hp' & Eb)]; [done|].
  by destruct (v_own _ w Hc _ _ _ _ _ _ Hp Hp' (eq_sym Eb)).
Qed.

Lemma host_without b l : host_is w b l → host_is w' b l.
Proof.
  intros [Hno E]. split.
  - intros (g & d & p & [_ Hp]%ptr_without & Eb). apply Hno. by exists g, d, p.
  - destruct (Hm b) as [->|(d & p & Hp & Eb)]; [done|]. destruct Hno. by exists h, d, p.
Qed.

Lemma copy_without g d l : g ≠ h → copy w g d l → copy w' g d l.
Proof.
  intros Hne (b & Hp & E). exists b. split; [by apply ptr_without|]. by apply (mem_without g d (Ptr b 0)).
Qed.

Lemma Coh_without : Coh w' ∧ kept h w w' ∧ ∀ q d, queue_at w q d → queue_at w' q d.
Proof.
  pose proof Hc as [J1 J2 J3 J4]. assert (Hu : ∀ q, uses q (objects w') ≤ uses q (objects w)).
  { intros q. rewrite Eo, (uses_delete q (objects w) h o Ho). pose proof (keeps_bounds q o). lia. }
  split; [split|split; [split|]].
  - intros g x [Hne Hx]%obj_without. destruct (J1 g x Hx) as [A B C D E F G K I].
    assert (Hr : ∀ p n, host_range w p n → host_range w' p n).
    { intros p n (l & Hl & Hb). exists l. by split; [apply host_without|]. }
    split; try done; [| | |by rewrite Eq].
    + intros d p Hp. destruct (F d p Hp) as (b & l & -> & E1 & E2). exists b, l. split_and!; [done| |done].
      apply (mem_without g d (Ptr b 0)); [done|by exists x|done].
    + intros p Hp. by apply Hr, G.
    + intros p y Hy. destruct (K p y Hy) as [X1 X2 X3 X4]. split; try done. by apply Hr.
  - intros h1 d1 p1 h2 d2 p2 [_ H1]%ptr_without [_ H2]%ptr_without. by eapply J2.
  - rewrite Eq. intros q x Hx. destruct (J3 q x Hx). split; [done|]. pose proof (Hu q). lia.
  - intros g [x [_ Hx]%obj_without]. rewrite En. apply J4. by exists x.
  - intros g l Hne (x & Hx & Hl & Hh). exists x. rewrite Eq. split_and!; [by apply obj_without|done|].
    destruct (LastQueueWritingToMemObj x); [|intros d Hd; by apply copy_without, Hh].
    destruct Hh as [(y & Hy & Hcp) Hd]. split; [exists y; by split; [|apply copy_without]|].
    intros d He. by apply copy_without, Hd.
  - intros g n Hne (x & Hx & E). exists x. by split; [apply obj_without|].
  - intros g d p Hne Hp. by apply ptr_without.
  - apply host_without.
  - intros q d (x & Hx & Ed & Hd & Hlt & Hb). exists x. rewrite Eq. split_and!; [done|done|done|pose proof (Hu q); lia|].
    rewrite Eo, (uses_delete q (objects w) h o Ho) in *. rewrite map_size_delete_Some by by exists o.
    pose proof (keeps_bounds q o). assert (size (objects w) ≠ 0%nat) by (by eapply map_size_ne_0_lookup_2; exists o). lia.
Qed.
End without.

(** Only blocks of [l] go. *)
Record freed (l : list (option ptr)) w w' : Prop := mkFreed {
  r_objects : objects w' = objects w; r_queues : queues w' = queues w; r_next : next_handle w' = next_handle w;
  r_mem : ∀ b, mem w' !! b = mem w !! b ∨ ∃ p, Some p ∈ l ∧ blk p = b
}.

Lemma freed_quiet l w w' : quiet w w' → freed l w w'.
Proof. intros [E1 E2 E3 E4]. split; try done. intros b. left. by rewrite E1. Qed.

Lemma freed_weaken l l' w w' : l ⊆ l' → freed l w w' → freed l' w w'.
Proof. intros Hs [A B C D]. split; try done. intros b. destruct (D b) as [?|(p & Hp & E)]; [by left|right; exists p; by split; [apply Hs|]]. Qed.

Lemma freed_trans l w1 w2 w3 : freed l w1 w2 → freed l w2 w3 → freed l w1 w3.
Proof. intros [A B C D] [E F G K]. split; [congruence|congruence|congruence|]. intros b. destruct (K b) as [->|?]; [apply D|by right]. Qed.

Lemma runs_cu_free w p x : mem w !! blk p = Some x →
  runs (cu_free p) (λ _ w', freed [Some p] w w' ∧ ∀ b, b ≠ blk p → mem w' !! b = mem w !! b) (freed [Some p] w) w.
Proof.
  intros Hx. apply runs_bind. eapply runs_mono; [apply cu_call_runs| |by intros; apply freed_quiet].
  intros ? w1 Hq. cbn in Hq. pose proof Hq as [E1 E2 E3 E4].
  apply runs_bind, runs_gets, runs_bind, (runs_some x); [by rewrite E1|]. apply runs_modify. cbn. rewrite E1. split.
  - split; try done. cbn. intros b. destruct (decide (b = blk p)) as [->|]; [right; exists p; split; [set_solver|done]|].
    left. by rewrite lookup_delete_ne.
  - intros b Hb. by rewrite lookup_delete_ne.
Qed.

Lemma runs_free_all l w : (∀ i p, l !! i = Some (Some p) → is_Some (mem w !! blk p)) →
  (∀ i j p q, l !! i = Some (Some p) → l !! j = Some (Some q) → blk p = blk q → i = j) →
  runs (free_all l) (λ _, freed l w) (freed l w) w.
Proof.
  revert w. induction l as [|e l IH]; intros w Hin Hap; cbn [free_all].
  { apply runs_ret. split; try done. intros b. by left. }
  assert (Hap' : ∀ i j p q, l !! i = Some (Some p) → l !! j = Some (Some q) → blk p = blk q → i = j).
  { intros i j p q Hi Hj Eb. pose proof (Hap (S i) (S j) p q Hi Hj Eb). lia. }
  assert (Hsub : l ⊆ e :: l) by set_solver. destruct e as [p|].
  - destruct (Hin 0%nat p eq_refl) as [x Hx]. assert (Hone : [Some p] ⊆ Some p :: l) by set_solver. apply runs_bind.
    eapply runs_mono; [by apply (runs_cu_free w p x)| |intros w1; by apply freed_weaken].
    intros ? w1 [Hf Hkeep]. apply (freed_weaken _ _ _ _ Hone) in Hf.
    eapply runs_mono; [apply (IH w1); [|done]| |].
    + intros i q Hi. rewrite Hkeep; [by apply (Hin (S i))|]. intros Eb. pose proof (Hap (S i) 0%nat q p Hi eq_refl Eb). lia.
    + intros ? w2 Hf2. eapply freed_trans; [exact Hf|by apply (freed_weaken l)].
    + intros w2 Hf2. eapply freed_trans; [exact Hf|by apply (freed_weaken l)].
  - eapply runs_mono; [apply IH; [|done]|intros ? w1; by apply (freed_weaken l)|intros w1; by apply (freed_weaken l)].
    intros i q Hi. by apply (Hin (S i)).
Qed.

(** The last reference goes. *)
Definition released (h : nat) w w' : Prop :=
  Coh w' ∧ kept h w w' ∧ objects w' !! h = None ∧ ∀ q d, queue_at w q d → queue_at w' q d.

(** No mapping is left. *)
Lemma runs_last_release fuel w h o : Coh w → obj_at w h o → RefCount o = 1 → PtrToBufferMap (Mem o) = [] →
  runs (urMemRelease (S fuel) h) (λ _, released h w) (λ _, False) w.
Proof.
  intros Hc Ho Hr Hmaps. pose proof (v_obj _ w Hc h o Ho) as Hok. cbn [urMemRelease].
  apply runs_bind, (runs_get_obj h o); [done|]. rewrite Hr. cbn. rewrite (k_parent _ _ _ Hok), Hmaps.
  assert (Hclear : runs (attempt (clear (Mem o))) (λ _, freed (Ptrs (Mem o)) w) (λ _, False) w).
  { apply runs_attempt. unfold clear. rewrite (k_parent _ _ _ Hok).
    assert (Hf : runs (free_all (Ptrs (Mem o))) (λ _, freed (Ptrs (Mem o)) w) (freed (Ptrs (Mem o)) w) w).
    { apply runs_free_all.
      - intros d p Hp. destruct (k_alloc _ _ _ Hok d p Hp) as (b & l & -> & Hm & _). by exists l.
      - intros i j p q Hi Hj Eb. by destruct (v_own _ w Hc h i p h j q) as [_ ->]; [by exists o|by exists o|done|]. }
    destruct (k_mode _ _ _ Hok) as [-> | ->]; (eapply runs_mono; [exact Hf|done|done]). }
  apply runs_bind. eapply runs_mono; [exact Hclear| |done]. intros ? w1 [E1 E2 E3 E4].
  apply runs_bind, runs_ret, runs_bind, runs_modify. apply runs_ret.
  set (w2 := set_objects (delete h) w1).
  destruct (Coh_without w h o w2) as (H1 & H2 & H3); try done; [by unfold w2; cbn; rewrite E1| |].
  - intros b. destruct (E4 b) as [?|(p & Hp & Eb)]; [by left|right].
    apply list_elem_of_lookup in Hp as [d Hd]. exists d, p. split; [by exists o|done].
  - split_and!; [done|done| |done]. unfold w2. cbn. apply lookup_delete_eq.
Qed.

(** Another reference: only the count changes. *)
Lemma cu_holds_same w h o o' l : obj_at w h o → Size (Mem o') = Size (Mem o) →
  LastQueueWritingToMemObj o' = LastQueueWritingToMemObj o →
  HaveMigratedToDeviceSinceLastWrite o' = HaveMigratedToDeviceSinceLastWrite o →
  (∀ g d x, copy (with_obj h o' w) g d x ↔ copy w g d x) → holds w h l → holds (with_obj h o' w) h l.
Proof.
  intros Ho E1 E2 E3 Hcp (o2 & Ho2 & Hl & Hh). assert (o2 = o) as -> by (by eapply obj_fun).
  exists o'. split; [unfold obj_at, with_obj; cbn; apply lookup_insert_eq|]. rewrite E1, E2, E3. split; [done|].
  destruct (LastQueueWritingToMemObj o); [|intros d Hd; by apply Hcp, Hh].
  destruct Hh as [(x & Hx & Hc) Hd]. split; [exists x; by split; [|apply Hcp]|intros d He; by apply Hcp, Hd].
Qed.

Definition counted (h : nat) (n : Z) w w' : Prop :=
  lost h w w' ∧ (∀ l, holds w h l → holds w' h l) ∧ ∃ o, obj_at w' h o ∧ RefCount o = n.

Lemma Coh_counted w h o n : Coh w → obj_at w h o → counted h n w (with_obj h (set_RefCount n o) w).
Proof.
  intros Hc Ho. pose proof (v_obj _ w Hc h o Ho) as [A B C D E F G K I].
  destruct (Coh_with_obj Devices w h o (set_RefCount n o)) as (H1 & H2 & H3 & H4); try done.
  split; [done|]. split; [intros l; by apply (cu_holds_same w h o)|by exists (set_RefCount n o)].
Qed.

Lemma runs_retain w h o : Coh w → obj_at w h o → 0 ≤ RefCount o → RefCount o + 1 < 2 ^ 32 →
  runs (urMemRetain h) (λ _, counted h (RefCount o + 1) w) (harmless w) w.
Proof.
  intros Hc Ho H1 H2. apply runs_bind, (runs_get_obj h o); [done|]. apply runs_bind, runs_guard; [|by apply harmless_refl].
  intros _. apply (runs_update h o); [done|]. unfold w32. rewrite Z.mod_small by lia. by apply Coh_counted.
Qed.

Lemma runs_release w h o fuel : Coh w → obj_at w h o → 1 < RefCount o < 2 ^ 32 →
  runs (urMemRelease (S fuel) h) (λ _, counted h (RefCount o - 1) w) (λ _, False) w.
Proof.
  intros Hc Ho Hr. cbn [urMemRelease]. apply runs_bind, (runs_get_obj h o); [done|]. unfold w32.
  rewrite Z.mod_small by lia. destruct (Z.ltb_spec 0 (RefCount o - 1)); [|lia].
  apply (runs_update h o); [done|]. by apply Coh_counted.
Qed.

(** ** New buffers *)

Definition add_obj (o : ur_mem_handle_t_) w : world :=
  set_objects <[next_handle w := o]> (take_handle w).

Definition new_buffer (flags n : Z) (mode : AllocMode) (host : option ptr) : ur_mem_handle_t_ :=
  mkMem 1 flags (replicate Devices false) None (mkBuffer (replicate Devices None) None host n [] mode).

Section add.
Context w (flags n : Z) (mode : AllocMode) (host : option ptr).
Hypotheses (Hc : Coh w) (Hmode : mode = Classic ∨ mode = CopyIn) (Hn : 0 < n < 2 ^ 64).
Hypothesis (Hhost : ∀ p, host = Some p → host_range w p n).
Let o := new_buffer flags n mode host.
Let w' := add_obj o w.

Lemma cu_next_free : objects w !! next_handle w = None.
Proof. destruct (objects w !! next_handle w) as [x|] eqn:E; [|done]. pose proof (v_handle _ w Hc _ (mk_is_Some _ _ E)). lia. Qed.

Lemma obj_add g x : obj_at w' g x ↔ (g = next_handle w ∧ x = o) ∨ obj_at w g x.
Proof.
  unfold obj_at, w', add_obj. cbn. rewrite lookup_insert_Some. split; [naive_solver|].
  intros [[-> ->]|Hx]; [by left|right]. split; [|done]. intros <-. by rewrite cu_next_free in Hx.
Qed.

Lemma ptr_add_obj g d p : ptr_at w' g d p ↔ ptr_at w g d p.
Proof.
  split; [intros (x & [[-> ->]|Hx]%obj_add & Hp)|intros (x & Hx & Hp); exists x; split; [apply obj_add; by right|done]].
  - by apply lookup_replicate in Hp as [? _].
  - by exists x.
Qed.

Lemma host_add b l : host_is w' b l ↔ host_is w b l.
Proof.
  assert (E : owned w' b ↔ owned w b).
  { split; intros (g & d & p & Hp & Eb); exists g, d, p; split; [by apply ptr_add_obj|done|by apply ptr_add_obj|done]. }
  unfold host_is. by rewrite E.
Qed.

Lemma copy_add g d l : copy w' g d l ↔ copy w g d l.
Proof. split; intros (b & Hp & E); exists b; (split; [by apply ptr_add_obj|done]). Qed.

Lemma cu_range_add p k : host_range w p k → host_range w' p k.
Proof. intros (l & Hl & Hb). exists l. by split; [apply host_add|]. Qed.

Lemma cu_Coh_add : Coh w' ∧ kept (next_handle w) w w' ∧ obj_at w' (next_handle w) o.
Proof.
  pose proof Hc as [J1 J2 J3 J4]. split; [split|split; [split|apply obj_add; by left]].
  - intros g x [[-> ->]|Hx]%obj_add.
    + split; try done; cbn.
      * by rewrite length_replicate.
      * by rewrite length_replicate.
      * intros d p Hp. by apply lookup_replicate in Hp as [? _].
      * intros p Hp. by apply cu_range_add, Hhost.
      * by intros p y ?%elem_of_nil.
    + destruct (J1 g x Hx) as [A B C D E F G K I]. split; try done; [by intros p Hp; apply cu_range_add, G|].
      intros p y Hy. destruct (K p y Hy) as [X1 X2 X3 X4]. split; try done. by apply cu_range_add.
  - intros h1 d1 p1 h2 d2 p2 H1%ptr_add_obj H2%ptr_add_obj. by eapply J2.
  - intros q x Hx. destruct (J3 q x Hx) as [Hr Hu]. split; [done|]. unfold w', add_obj. cbn.
    rewrite uses_insert by apply cu_next_free. assert (keeps q o = 0) as -> by (unfold keeps; by rewrite decide_False). lia.
  - unfold w', add_obj. cbn. intros g [x [[<- _]|[_ Hx]]%lookup_insert_Some]; [lia|]. pose proof (J4 g (mk_is_Some _ _ Hx)). lia.
  - intros g l Hne (x & Hx & Hl & Hh). exists x. split_and!; [apply obj_add; by right|done|].
    destruct (LastQueueWritingToMemObj x); [|intros d Hd; by apply copy_add, Hh].
    destruct Hh as [(y & Hy & Hcp) Hd]. split; [exists y; by split; [|apply copy_add]|intros d He; by apply copy_add, Hd].
  - intros g k _ (x & Hx & E). exists x. split; [apply obj_add; by right|done].
  - intros g d p _ Hp. by apply ptr_add_obj.
  - intros b l Hl. by apply host_add.
Qed.
End add.

(** Copies of the host's bytes to all devices of [ds]. *)
Definition copied (h : nat) (o : ur_mem_handle_t_) w w' : Prop := lost h w w' ∧ ∃ ps, obj_at w' h (with_ptrs ps o).

Lemma copied_trans h o w1 w2 w3 ps : lost h w1 w2 → copied h (with_ptrs ps o) w2 w3 → copied h o w1 w3.
Proof. intros [_ Hf] [Hl [ps' Ho]]. split; [by eapply lost_trans|by exists ps']. Qed.

Lemma runs_initial_copies h p n bs ds : ∀ w o, Coh w → obj_at w h o → Size (Mem o) = n → (∀ d, d ∈ ds → (d < Devices)%nat) →
  host_range w p n → read_bytes (mem w) p n = Some bs →
  runs (initial_copies h ds p n)
    (λ _ w', copied h o w w' ∧ (∀ d, d ∈ ds → copy w' h d bs) ∧ ∀ d, copy w h d bs → copy w' h d bs) (copied h o w) w.
Proof.
  induction ds as [|d ds IH]; intros w o Hc Ho Es Hds Hr Hbs; cbn [initial_copies].
  { apply runs_ret. split; [|split; [by intros d ?%elem_of_nil|done]]. split; [by apply lost_harmless, harmless_refl|].
    exists (Ptrs (Mem o)). by rewrite with_ptrs_same. }
  assert (Hcopied : ∀ w', harmless w w' → copied h o w w').
  { intros w' Hh. split; [by apply lost_harmless|by eapply harmless_obj]. }
  apply runs_bind. eapply runs_mono; [apply (runs_getPtr Devices w h d o); [done|done|apply Hds; set_solver]| |exact Hcopied].
  intros ? w1 (Hh1 & _ & b & l & -> & Hpt & Hm & Hlen). pose proof Hh1 as [Hc1 Hf1].
  destruct (harmless_obj _ _ _ h o Hh1 Ho) as [ps Ho1]. pose proof Hr as (lh & Hlh & _).
  assert (Hlb : length bs = length l) by (apply read_bytes_Some in Hbs as (? & _ & E%slice_length); lia).
  apply runs_bind. eapply runs_mono; [apply (store_copy Devices w1 h d b l bs 0 p n bs); try done| |].
  { by apply (host_bytes_kept [] None w). }
  { by apply whole_splice. }
  { intros <-. destruct (f_host _ _ _ _ Hf1 _ _ ltac:(done) Hlh) as [Hno _]. apply Hno. by exists h, d, (Ptr (blk p) 0). }
  2: { intros w2 Hq. apply Hcopied. eapply harmless_trans; [done|by apply harmless_quiet]. }
  intros ? w2 [Hc2 Hf2 Hcp2 Hother Eo Eq]. assert (Hl2 : lost h w w2) by (split; [done|eapply frame_then; [by apply frame_none|done]]).
  assert (Ho2 : obj_at w2 h (with_ptrs ps o)) by (unfold obj_at; by rewrite Eo).
  assert (Hcps : ∀ e, copy w h e bs → copy w2 h e bs).
  { intros e He. destruct (decide (e = d)) as [->|Hne]; [done|]. apply Hother; [congruence|]. by eapply harmless_copy. }
  eapply runs_mono; [apply (IH w2 (with_ptrs ps o)); try done; [intros e He; apply Hds; set_solver|..]| |].
  { exists lh. split; [by apply (f_host _ _ _ _ (proj2 Hl2))|]. by destruct Hr as (lh' & [_ E1] & Hb); destruct Hlh as [_ E2];
      assert (lh' = lh) as -> by congruence. }
  { by apply (host_bytes_kept [h] None w); [apply Hl2| | |]. }
  - intros ? w3 (Hcd & Hall & Hold). split_and!; [by eapply copied_trans| |intros e He; by apply Hold, Hcps].
    intros e [->|He]%elem_of_cons; [by apply Hold|by apply Hall].
  - intros w3 Hcd. by eapply copied_trans.
Qed.

Definition copies_in (flags : Z) : bool := any flags UR_MEM_FLAG_ALLOC_COPY_HOST_POINTER || any flags UR_MEM_FLAG_USE_HOST_POINTER.

(** The object is new, and the rest as it was. *)
Definition grew (h : nat) (n : Z) w w' : Prop :=
  objects w !! h = None ∧ Coh w' ∧ kept h w w' ∧ size_at w' h n.

Definition failed (h : nat) w w' : Prop := Coh w' ∧ kept h w w'.

Lemma runs_create_end w flags n mode host : Coh w → mode = Classic ∨ mode = CopyIn → 0 < n < 2 ^ 64 →
  (∀ p, host = Some p → host_range w p n) →
  runs (h ← new_object (new_buffer flags n mode host);
        (match host with
         | Some p => if copies_in flags
                     then unwind (urMemRelease 1 h) (initial_copies h (seq 0 Devices) p n) else mret tt
         | None => mret tt
         end);; mret h)
    (λ h w', grew h n w w' ∧ ∀ p bs, host = Some p → copies_in flags = true → read_bytes (mem w) p n = Some bs → holds w' h bs)
    (failed (next_handle w) w) w.
Proof.
  intros Hc Hmode Hn Hhost. set (o := new_buffer flags n mode host). set (h := next_handle w).
  destruct (cu_Coh_add w flags n mode host Hc Hmode Hn Hhost) as (Hc1 & Hk1 & Ho1). fold o h in Hc1, Hk1, Ho1.
  set (w1 := add_obj o w) in *. assert (Hfree : objects w !! h = None) by (by apply cu_next_free).
  apply runs_bind, runs_bind, runs_gets, runs_bind, runs_modify, runs_bind, runs_modify, runs_ret.
  change (set_objects _ (take_handle w)) with w1. fold h.
  assert (Hnone : grew h n w w1) by (split_and!; [done|done|done|by exists o]).
  destruct host as [p|]; [|by apply runs_bind, runs_ret, runs_ret].
  destruct (copies_in flags) eqn:Ef; [|by apply runs_bind, runs_ret, runs_ret].
  assert (Hr1 : host_range w1 p n) by (destruct (Hhost p eq_refl) as (l & Hl & Hb); exists l; by split; [apply Hk1|]).
  destruct (host_bytes_exist _ _ _ Hr1) as (bs & Hbs & _).
  apply runs_bind. eapply runs_unwind.
  - eapply runs_mono; [apply (runs_initial_copies h p n bs (seq 0 Devices) w1 o); try done| |].
    { intros d [_ Hd]%elem_of_seq. lia. }
    2: { intros w2 Hcd. exact Hcd. }
    intros ? w2 (([Hc2 Hf2] & ps & Ho2) & Hall & _). apply runs_ret. split.
    + split_and!; [done|done|eapply kept_trans; [done|by apply kept_lost]|by apply Hf2; exists o].
    + intros q x [= <-] _ Hx. assert (x = bs) as -> by (unfold w1 in Hbs; cbn in Hbs; congruence).
      exists (with_ptrs ps o). split_and!; [done| |].
      * cbn. apply read_bytes_Some in Hbs as (? & _ & E%slice_length). done.
      * cbn. intros d Hd. apply Hall, elem_of_seq. lia.
  - intros w2 ([Hc2 Hf2] & ps & Ho2). eapply runs_mono; [by eapply runs_last_release| |done].
    intros ? w3 (Hc3 & Hk3 & _). split; [done|]. apply (kept_trans _ w w1); [done|]. apply (kept_trans _ w1 w2); [by apply kept_lost|done].
Qed.

Lemma cu_runs_create w flags n host : Coh w → any flags UR_MEM_FLAG_ALLOC_HOST_POINTER = false → 0 < n < 2 ^ 64 →
  (∀ p, host = Some p → host_range w p n) →
  runs (urMemBufferCreate Devices flags n host)
    (λ h w', grew h n w w' ∧ ∀ p bs, host = Some p → copies_in flags = true → read_bytes (mem w) p n = Some bs → holds w' h bs)
    (failed (next_handle w) w) w.
Proof.
  intros Hc Hf Hn Hhost. unfold urMemBufferCreate. rewrite Hf.
  assert (Hfail : failed (next_handle w) w w) by (split; [done|by apply kept_lost, lost_harmless, harmless_refl]).
  apply runs_bind, runs_guard; [|done]. intros _. apply runs_bind, runs_guard; [|done]. intros _.
  fold (copies_in flags). apply runs_bind. set (f := copies_in flags).
  destruct (any flags UR_MEM_FLAG_ALLOC_COPY_HOST_POINTER); apply runs_ret; cbn beta iota; subst f.
  - apply (runs_create_end w flags n CopyIn host); try done. by right.
  - apply (runs_create_end w flags n Classic host); try done. by left.
Qed.
End objects.
