(* ===== verification/CudaMapping.v ===== *)
(** * CudaMapping: mapped regions of buffers of the CUDA adapter

    The memory of a mapping, what mapping puts there and what unmapping brings back. *)
From S2P Require Import Prelude UrUtil Effects CudaMemory CudaCoherence CudaMigration CudaBuffers CudaObjects.

Section mapping.
Context `{!Cu, !CuLaws}.
Variable Devices : nat.
Implicit Types w : world.
Abbreviation Coh := (CudaCoherence.Coh Devices).
Abbreviation obj_ok := (CudaCoherence.obj_ok Devices).
Abbreviation holds := (CudaCoherence.holds Devices).
Abbreviation harmless := (CudaMigration.harmless Devices).
Abbreviation lost := (CudaMigration.lost Devices).
Abbreviation queue_at := (CudaMigration.queue_at Devices).

(** ** The table *)

Lemma insert_map_new p x l : find_map p l = None → insert_map p x l = l ++ [(p, x)].
Proof.
  unfold insert_map. destruct (existsb _ l) eqn:E; [|done]. intros Hn.
  apply existsb_exists in E as (e & He & Ep%bool_decide_eq_true). exfalso. clear x.
  induction l as [|y l IH]; [done|]. cbn in Hn. case_bool_decide; [done|].
  destruct He as [->|He]; [done|by apply IH].
Qed.

Lemma find_map_app p x l : find_map p l = None → find_map p (l ++ [(p, x)]) = Some x.
Proof. induction l as [|y l IH]; cbn; [by rewrite bool_decide_true|]. case_bool_decide; [done|exact IH]. Qed.

Lemma find_map_elem p x l : find_map p l = Some x → (p, x) ∈ l.
Proof.
  induction l as [|[q y] l IH]; cbn; [done|]. case_bool_decide as E; [|intros ?%IH; set_solver].
  cbn in E. subst q. intros [= ->]. set_solver.
Qed.

Lemma remove_map_sub p l : remove_map p l ⊆ l.
Proof. induction l as [|y l IH]; cbn; [done|]. case_bool_decide; set_solver. Qed.

Lemma obj_ok_maps w o l : obj_ok w o → (∀ p x, (p, x) ∈ l → map_ok w (Mem o) p x) → obj_ok w (set_Mem (set_maps l (Mem o)) o).
Proof.
  intros [A B C D E F G K I] Hl. split; try done. intros p x Hx. by destruct (Hl p x Hx).
Qed.

(** A change of the table alone. *)
Lemma Coh_with_maps w h o l : Coh w → obj_at w h o → (∀ p x, (p, x) ∈ l → map_ok w (Mem o) p x) →
  let o' := set_Mem (set_maps l (Mem o)) o in
  lost h w (with_obj h o' w) ∧ obj_at (with_obj h o' w) h o' ∧
  (∀ g d x, copy (with_obj h o' w) g d x ↔ copy w g d x) ∧ ∀ x, holds w h x → holds (with_obj h o' w) h x.
Proof.
  intros Hc Ho Hl o'. destruct (Coh_with_obj Devices w h o o') as (H1 & H2 & H3 & H4); try done.
  { apply obj_ok_maps; [by apply (v_obj _ w Hc h)|done]. }
  split_and!; [by split|done|done|]. intros x. by apply (cu_holds_same Devices w h o).
Qed.

(** ** The memory of a mapping *)

(** The region is in the table, and its memory is there. *)
Definition mapped w (h : nat) (p : ptr) (x : BufferMap) : Prop :=
  ∃ o, obj_at w h o ∧ find_map p (PtrToBufferMap (Mem o)) = Some x ∧ map_ok w (Mem o) p x.

Lemma runs_mapToPtr w h o n off flags : Coh w → obj_at w h o → 0 ≤ off → 0 ≤ n → off + n ≤ Size (Mem o) →
  (∀ q, HostPtr (Mem o) = Some q → find_map (ptr_add q off) (PtrToBufferMap (Mem o)) = None) →
  runs (mapToPtr h n off flags)
    (λ p w', lost h w w' ∧ (∀ l, holds w h l → holds w' h l) ∧ ∃ m, mapped w' h p (mkMap n off flags m)) (λ _, False) w.
Proof.
  intros Hc Ho H1 H2 H3 Hnew. pose proof (v_obj _ w Hc h o Ho) as Hok. unfold mapToPtr.
  apply runs_bind, (runs_get_obj h o); [done|]. destruct (HostPtr (Mem o)) as [q|] eqn:Hp.
  - apply runs_bind, (runs_update h o); [done|]. apply runs_ret. specialize (Hnew q eq_refl).
    rewrite insert_map_new by done. set (x := mkMap n off flags None).
    assert (Hx : map_ok w (Mem o) (ptr_add q off) x).
    { split; [done| |done|by exists q]. destruct (k_host _ _ _ Hok q Hp) as (l & Hl & B1 & B2 & B3).
      exists l. cbn. split_and!; [done|lia|done|lia]. }
    destruct (Coh_with_maps w h o (PtrToBufferMap (Mem o) ++ [(ptr_add q off, x)])) as (X1 & X2 & X3 & X4); [done|done| |].
    { intros p y [Hy|Hy]%elem_of_app; [by apply (k_maps _ _ _ Hok)|]. apply list_elem_of_singleton in Hy as [= -> ->]. done. }
    split_and!; [done|done|]. exists None. eexists. split_and!; [done|by apply find_map_app|].
    apply (k_maps _ _ _ (v_obj _ _ (proj1 X1) h _ X2)). apply elem_of_app. right. by apply list_elem_of_singleton.
  - apply runs_bind, runs_gets. set (b := fresh (dom (mem w))). set (z := replicate (Z.to_nat n) 0).
    assert (Hb : mem w !! b = None) by (apply not_elem_of_dom, is_fresh).
    destruct (Coh_with_new Devices w b z Hc Hb) as (Hc1 & Hf1 & Hh1). set (w1 := with_mem b z w) in *.
    apply runs_bind, runs_modify, runs_bind, (runs_update h o); [done|]. apply runs_ret.
    change (set_mem (<[b := z]> (mem w)) w) with w1.
    assert (Hnone : find_map (Ptr b 0) (PtrToBufferMap (Mem o)) = None).
    { destruct (find_map _ _) as [x|] eqn:E; [|done]. apply find_map_elem in E.
      destruct (x_host _ _ _ _ (k_maps _ _ _ Hok _ _ E)) as (l & [_ El] & _). cbn in El. congruence. }
    rewrite insert_map_new by done. set (x := mkMap n off flags (Some b)).
    assert (Ho1 : obj_at w1 h o) by done. pose proof (v_obj _ w1 Hc1 h o Ho1) as Hok1.
    assert (Hx : map_ok w1 (Mem o) (Ptr b 0) x).
    { split; [done| |by intros m [= <-]|done]. exists z. unfold z. rewrite length_replicate. cbn.
      split_and!; [exact Hh1|lia|done|lia]. }
    destruct (Coh_with_maps w1 h o (PtrToBufferMap (Mem o) ++ [(Ptr b 0, x)])) as ([X1 X1'] & X2 & X3 & X4); [done|done| |].
    { intros p y [Hy|Hy]%elem_of_app; [by apply (k_maps _ _ _ Hok1)|]. apply list_elem_of_singleton in Hy as [= -> ->]. done. }
    split_and!; [split; [done|eapply frame_then; [by apply frame_none|done]]| |].
    + intros l Hl. apply X4. eapply harmless_holds; [by split|done].
    + exists (Some b). eexists. split_and!; [done|by apply find_map_app|].
      apply (k_maps _ _ _ (v_obj _ _ X1 h _ X2)). apply elem_of_app. right. by apply list_elem_of_singleton.
Qed.

Lemma mapped_frame hs hb w w' h p x : Coh w' → frame hs hb w w' → h ∉ hs → mapped w h p x → mapped w' h p x.
Proof.
  intros Hc Hf Hh (o & Ho & Hfind & _). destruct (f_obj _ _ _ _ Hf h o Hh Ho) as [ps Ho'].
  exists (with_ptrs ps o). split_and!; [done|done|].
  apply (k_maps _ _ _ (v_obj _ w' Hc h _ Ho')). by apply find_map_elem.
Qed.

Lemma runs_no_copy w b : Coh w → runs (no_copy false b) (λ r w', harmless w w') (λ _, False) w.
Proof.
  intros Hc. unfold no_copy. apply runs_bind, runs_ret. destruct b; [|apply runs_ret; by apply harmless_refl].
  apply runs_bind, runs_attempt, runs_bind. eapply runs_mono; [by apply runs_quiet| |].
  - intros ? w1 [[Hc1 Hf1] _]. eapply runs_mono; [by apply runs_quiet| |].
    + intros ? w2 [Hh _]. apply runs_ret. by eapply harmless_trans.
    + intros w2 Hh e. apply runs_ret. by eapply harmless_trans.
  - intros w1 Hh e. by apply runs_ret.
Qed.

Lemma plain_not_pinned w o : obj_ok w o → is_pinned (Mem o) = false.
Proof. intros Hok. unfold is_pinned. by destruct (k_mode _ _ _ Hok) as [-> | ->]. Qed.

(** ** Mapping *)

Definition reads_in (flags : Z) : bool := any flags UR_MAP_FLAG_READ || any flags UR_MAP_FLAG_WRITE.

(** The buffer keeps what it holds; only the memory of the mapping and the table change. *)
Definition maps_only (h : nat) w w' : Prop :=
  Coh w' ∧ (∀ l, holds w h l → holds w' h l) ∧ ∃ hb, frame [h] hb w w'.

Definition maps_to w (h : nat) (o n flags : Z) (p : ptr) w' : Prop :=
  Coh w' ∧ frame [h] (Some (blk p)) w w' ∧ (∀ l, holds w h l → holds w' h l) ∧ (∃ m, mapped w' h p (mkMap n o flags m)) ∧
  (reads_in flags = true → ∀ l, holds w h l → ∃ bs, slice l o n = Some bs ∧ read_bytes (mem w') p n = Some bs).

Lemma read_back w (p : ptr) hb bs hb' n : splice hb (off p) bs = Some hb' → Z.of_nat (length bs) = n →
  host_is w (blk p) hb' → read_bytes (mem w) p n = Some bs.
Proof.
  intros Hs <- [_ Hm]. apply read_bytes_Some. exists hb'. split; [done|by eapply slice_splice].
Qed.

Lemma cu_runs_map w q d h o off n flags ev : Coh w → obj_at w h o → queue_at w q d → 0 ≤ off → 0 ≤ n → off + n < 2 ^ 64 →
  (∀ p, HostPtr (Mem o) = Some p → find_map (ptr_add p off) (PtrToBufferMap (Mem o)) = None) →
  runs (urEnqueueMemBufferMap q h flags off n ev)
    (λ p w', off + n ≤ Size (Mem o) ∧ maps_to w h off n flags p w') (maps_only h w) w.
Proof.
  intros Hc Ho Hq H1 H2 H3 Hnew. pose proof (v_obj _ w Hc h o Ho) as Hok. unfold urEnqueueMemBufferMap.
  assert (Href : maps_only h w w) by (split_and!; [done|done|exists None; apply frame_id]).
  apply runs_bind, (runs_get_obj h o); [done|]. apply runs_bind, runs_guard; [|done]. intros Hin%w64_guard; try done.
  apply runs_bind. eapply runs_mono; [by apply (runs_mapToPtr w h o)| |done].
  intros p w1 ([Hc1 Hf1] & Hh1 & m & Hmap). rewrite (plain_not_pinned w o) by done. cbn [negb andb]. fold (reads_in flags).
  assert (Hend : ∀ r w2, Coh w2 → frame [] (Some (blk p)) w1 w2 →
    (r = None → reads_in flags = true → ∀ l, holds w h l → ∃ bs, slice l off n = Some bs ∧ read_bytes (mem w2) p n = Some bs) →
    runs (result r;; mret p) (λ p w', off + n ≤ Size (Mem o) ∧ maps_to w h off n flags p w') (maps_only h w) w2).
  { intros r w2 Hc2 Hf2 Hr. assert (Hh2 : ∀ l, holds w h l → holds w2 h l).
    { intros l Hl. eapply (frame_holds Devices []); [done|exact Hf2|set_solver|by apply Hh1]. }
    assert (Hf : frame [h] (Some (blk p)) w w2).
    { eapply frame_then; [eapply frame_weaken; [done|by left|exact Hf1]|].
      eapply frame_weaken; [|by right|exact Hf2]. set_solver. }
    apply runs_bind, runs_result; [|intros _; split_and!; [done|done|by eexists]].
    intros ->. apply runs_ret. split; [done|]. split_and!; [done|done|done| |by apply Hr].
    exists m. eapply (mapped_frame []); [done|exact Hf2|set_solver|done]. }
  apply runs_bind. destruct (reads_in flags) eqn:Er.
  - pose proof Hmap as (o1 & Ho1 & _ & [X1 (hb & Hhb & X2) _ _]). cbn in X1, X2.
    apply runs_attempt. eapply runs_mono; [apply (cu_runs_read Devices w1 q d h o1 off n p hb); try done|..].
    + by eapply queue_kept.
    + apply X2.
    + apply X2.
    + intros ? w2 (_ & [Hc2 Hf2] & l & bs & hb' & Hl & Hs & Hsp & Hhost). apply Hend; [done|done|].
      intros _ _ l0 Hl0. exists bs. rewrite <- (Hl l0) by by apply Hh1. split; [done|].
      eapply read_back; [done|by eapply slice_length|done].
    + intros w2 [Hc2 Hf2] e. by apply Hend.
  - eapply runs_mono; [by apply runs_no_copy| |done]. intros r w2 [Hc2 Hf2]. apply Hend; [done|by apply frame_none|done].
Qed.

(** ** Unmapping *)

Lemma Coh_drop w m : Coh w → (∀ g o p x, obj_at w g o → (p, x) ∈ PtrToBufferMap (Mem o) → MapMem x ≠ Some m) →
  (∀ g o p, obj_at w g o → HostPtr (Mem o) = Some p → blk p ≠ m) → ¬ owned w m →
  Coh (set_mem (delete m (mem w)) w) ∧ frame [] (Some m) w (set_mem (delete m (mem w)) w).
Proof.
  intros Hc Hmaps Hhosts Hno. pose proof Hc as [J1 J2 J3 J4]. set (w' := set_mem (delete m (mem w)) w).
  assert (Hhost : ∀ b l, b ≠ m → host_is w b l → host_is w' b l).
  { intros b l Hne [Hn E]. split; [exact Hn|]. cbn. by rewrite lookup_delete_ne. }
  assert (Hr : ∀ p n, blk p ≠ m → host_range w p n → host_range w' p n).
  { intros p n Hne (l & Hl & Hb). exists l. by split; [apply Hhost|]. }
  split.
  - split; try done. intros g o Ho. destruct (J1 g o Ho) as [A B C D E F G K I]. split; try done.
    + intros d p Hp. destruct (F d p Hp) as (b & l & -> & E1 & E2). exists b, l. split_and!; [done| |done].
      cbn. rewrite lookup_delete_ne; [done|]. intros <-. apply Hno. exists g, d, (Ptr m 0). split; [by exists o|done].
    + intros p Hp. apply Hr; [by eapply Hhosts|by apply G].
    + intros p x Hx. destruct (K p x Hx) as [X1 X2 X3 X4]. split; try done. apply Hr; [|done].
      destruct (MapMem x) as [m'|] eqn:Em.
      * rewrite (X3 m' eq_refl). intros ->. by eapply Hmaps.
      * destruct (X4 eq_refl) as (q & Hq & ->). by eapply Hhosts.
  - apply frame_same; try done.
    + intros g d l _ (b & Hp & E). exists b. split; [done|]. cbn. rewrite lookup_delete_ne; [done|].
      intros <-. apply Hno. by exists g, d, (Ptr m 0).
    + intros b l Hne. apply Hhost. congruence.
Qed.

(** No buffer was made on the memory of the mapping. *)
Definition unshared w (x : BufferMap) : Prop :=
  ∀ m g o p, MapMem x = Some m → obj_at w g o → HostPtr (Mem o) = Some p → blk p ≠ m.

Lemma runs_drop_map w p x : Coh w → unshared w x → (∀ m, MapMem x = Some m → ¬ owned w m) →
  runs (drop_map (p, x)) (λ _ w', Coh w' ∧ frame [] (MapMem x) w w') (λ _, False) w.
Proof.
  intros Hc Hun Hno. unfold drop_map. cbn [snd]. destruct (MapMem x) as [m|] eqn:Em.
  - apply runs_bind, runs_gets. case_bool_decide as Hs; [apply runs_ret; split; [done|apply frame_id]|].
    apply runs_modify, Coh_drop; [done| |intros g o q; by apply Hun|by apply Hno].
    intros g o q y Ho Hy Ey. apply Hs. apply Exists_exists. exists (g, o). split.
    + by apply elem_of_map_to_list.
    + apply Exists_exists. by exists (q, y).
  - apply runs_ret. split; [done|apply frame_id].
Qed.

Lemma unshared_frame hs hb w w' x : frame hs hb w w' → unshared w x → unshared w' x.
Proof. intros Hf Hun m g o' p Em (o & Ho & E)%(f_back _ _ _ _ Hf) Hp. eapply (Hun m g o); [done|done|congruence]. Qed.

Definition maps_lost (h : nat) (x : BufferMap) w w' : Prop := Coh w' ∧ frame [h] (MapMem x) w w'.

(** The region leaves the table, and its memory goes with it. *)
Lemma cu_runs_remove w h o p x n : Coh w → obj_at w h o → host_range w p n → (∀ m, MapMem x = Some m → blk p = m) →
  unshared w x →
  runs (unmap h p x) (λ _ w', maps_lost h x w w' ∧ (∀ l, holds w h l → holds w' h l) ∧ ∀ l, settled Devices w h l → settled Devices w' h l)
    (λ _, False) w.
Proof.
  intros Hc Ho (lh & Hlh & _) Hblk Hun. pose proof (v_obj _ w Hc h o Ho) as Hok. unfold unmap.
  apply runs_bind, (runs_update h o); [done|].
  destruct (Coh_with_maps w h o (remove_map p (PtrToBufferMap (Mem o)))) as ([X1 X1'] & X2 & X3 & X4); [done|done| |].
  { intros q y Hy%remove_map_sub. by apply (k_maps _ _ _ Hok). }
  eapply runs_mono; [apply runs_drop_map; [done|by eapply unshared_frame|]| |done].
  - intros m Em. rewrite <- (Hblk m Em). by destruct (f_host _ _ _ _ X1' (blk p) lh ltac:(done) Hlh).
  - intros ? w2 [Hc2 Hf2]. split; [split; [done|]|].
    + eapply frame_then; [eapply frame_weaken; [done|by left|exact X1']|]. eapply frame_weaken; [|by right|exact Hf2]. set_solver.
    + assert (Hh : ∀ l, holds w h l → holds w2 h l).
      { intros l Hl. eapply (frame_holds Devices []); [done|exact Hf2|set_solver|by apply X4]. }
      split; [done|]. intros l [Hl Hq]. split; [by apply Hh|]. intros (o2 & q & Ho2 & E)%Hq.
      destruct (f_obj _ _ _ _ Hf2 h _ ltac:(set_solver) X2) as [ps Ho']. eexists _, q. split; [exact Ho'|].
      cbn. by rewrite (obj_fun _ _ _ _ Ho Ho2).
Qed.

(** What unmapping promises: a region that was mapped for writing goes back. *)
Definition unmaps w (h d : nat) (p : ptr) (x : BufferMap) w' : Prop :=
  maps_lost h x w w' ∧
  (any (MapFlags x) UR_MAP_FLAG_WRITE = false → ∀ l, holds w h l → holds w' h l) ∧
  (any (MapFlags x) UR_MAP_FLAG_WRITE = true → ∃ bs l l', read_bytes (mem w) p (MapSize x) = Some bs ∧
     (∀ l0, copy w h d l0 → l = l0) ∧ splice l (MapOffset x) bs = Some l' ∧ settled Devices w' h l').

Lemma cu_runs_unmap w q d h p x ev : Coh w → mapped w h p x → queue_at w q d → unshared w x →
  runs (urEnqueueMemUnmap Devices q h p ev) (λ _, unmaps w h d p x) (maps_lost h x w) w.
Proof.
  intros Hc (o & Ho & Hfind & Hmap) Hq Hun. pose proof (v_obj _ w Hc h o Ho) as Hok. pose proof Hmap as [(R1 & R2 & R3) Hr Hblk _].
  unfold urEnqueueMemUnmap. apply runs_bind, (runs_get_obj h o); [done|]. rewrite Hfind, (plain_not_pinned w o) by done.
  cbn [negb andb].
  assert (Hend : ∀ r w1, lost h w w1 → (r = None → ∀ w', (∀ l, holds w1 h l → holds w' h l) →
      (∀ l, settled Devices w1 h l → settled Devices w' h l) → maps_lost h x w w' → unmaps w h d p x w') →
    runs (unmap h p x;; result r) (λ _, unmaps w h d p x) (maps_lost h x w) w1).
  { intros r w1 [Hc1 Hf1] Hpost. destruct (f_size _ _ _ _ Hf1 h (Size (Mem o))) as (o1 & Ho1 & _); [by exists o|].
    pose proof Hr as (lh & Hlh & Hb). apply runs_bind.
    eapply runs_mono; [apply (cu_runs_remove w1 h o1 p x (MapSize x)); try done| |done].
    - exists lh. by split; [apply (f_host _ _ _ _ Hf1)|].
    - by eapply unshared_frame.
    - intros ? w2 ([Hc2 Hf2] & Hh2 & Hs2).
      assert (Hl : maps_lost h x w w2) by (split; [done|eapply frame_then; [eapply frame_weaken; [done|by left|exact Hf1]|done]]).
      apply runs_result; [|done]. intros Er. by apply Hpost. }
  apply runs_bind. destruct (any (MapFlags x) UR_MAP_FLAG_WRITE) eqn:Ew.
  - destruct (host_bytes_exist _ _ _ Hr) as (bs & Hbs & _). pose proof (k_size _ _ _ Hok) as Hsz. apply runs_attempt.
    eapply runs_mono; [apply (cu_runs_write Devices w q d h o _ _ p bs Hc Ho Hq R1 R2); [clear -R3 Hsz; lia|exact Hr|exact Hbs]|..].
    + intros ? w1 (_ & Hl1 & l & l' & X1 & X2 & X3). apply Hend; [done|]. intros _ w2 Hh Hs Hl2.
      split_and!; [done|congruence|]. intros _. exists bs, l, l'. split_and!; [done|done|done|by apply Hs].
    + intros w1 Hl1 e. by apply Hend.
  - eapply runs_mono; [by apply runs_no_copy| |done]. intros r w1 Hh1. apply Hend; [by apply lost_harmless|].
    intros _ w2 Hh Hs Hl2. split_and!; [done| |congruence]. intros _ l Hl. apply Hh. by apply (harmless_holds Devices w).
Qed.
End mapping.
