(* ===== verification/CudaRuns.v ===== *)
(** * CudaRuns: what every run on buffers of the CUDA adapter gives

    The calls on buffers and queues as steps of a system with the application's own
    memory, and what each call promises in every state that they reach. *)
From S2P Require Import Prelude UrUtil Effects CudaMemory CudaCoherence CudaMigration CudaBuffers CudaObjects CudaMapping.

Section runs.
Context `{!Cu, !CuLaws}.
Variable Devices : nat.
Implicit Types w : world.
Abbreviation Coh := (CudaCoherence.Coh Devices).
Abbreviation obj_ok := (CudaCoherence.obj_ok Devices).
Abbreviation holds := (CudaCoherence.holds Devices).
Abbreviation harmless := (CudaMigration.harmless Devices).
Abbreviation lost := (CudaMigration.lost Devices).
Abbreviation queue_at := (CudaMigration.queue_at Devices).

(** ** Queues *)

Lemma uses_zero q (m : gmap nat ur_mem_handle_t_) : (∀ h o, m !! h = Some o → LastQueueWritingToMemObj o ≠ Some q) →
  uses q m = 0.
Proof.
  induction m as [|h o m Hm IH] using map_ind; intros Hn; [done|].
  rewrite uses_insert, IH by (done || (intros g x Hx; apply (Hn g); rewrite lookup_insert_ne; congruence)).
  unfold keeps. rewrite decide_False; [done|]. apply (Hn h). apply lookup_insert_eq.
Qed.

Definition with_queues (qs : gmap nat queue) w : world := set_queues (λ _, qs) w.

Lemma Coh_with_queues w qs : Coh w →
  (∀ q x, qs !! q = Some x → 1 ≤ q_RefCount x < 2 ^ 32 ∧ uses q (objects w) ≤ q_RefCount x) →
  (∀ q x, queues w !! q = Some x → 0 < uses q (objects w) → ∃ x', qs !! q = Some x' ∧ q_device x' = q_device x) →
  Coh (with_queues qs w) ∧ ∀ h l, holds w h l → holds (with_queues qs w) h l.
Proof.
  intros Hc Hr Hk. pose proof Hc as [J1 J2 J3 J4].
  assert (Hlast : ∀ h o q x, obj_at w h o → LastQueueWritingToMemObj o = Some q → queues w !! q = Some x →
    ∃ x', qs !! q = Some x' ∧ q_device x' = q_device x).
  { intros h o q x Ho Hl Hx. apply Hk; [done|]. pose proof (uses_pos q (objects w) h o Ho Hl). lia. }
  split; [split; try done|].
  - intros h o Ho. destruct (J1 h o Ho) as [A B C D E F G K I]. split; try done.
    + intros p x Hx. by destruct (K p x Hx).
    + intros q Hq. destruct (I q Hq) as (x & Hx & Hd). destruct (Hlast h o q x Ho Hq Hx) as (x' & Hx' & E').
      exists x'. split; [done|by rewrite E'].
  - intros h l (o & Ho & Hl & Hh). exists o. split_and!; [done|done|].
    destruct (LastQueueWritingToMemObj o) as [q|] eqn:El; [|done]. destruct Hh as [(x & Hx & Hcp) Hd].
    destruct (Hlast h o q x Ho El Hx) as (x' & Hx' & E). split; [|done]. exists x'. by rewrite E.
Qed.

(** Queues of the application: a new one, and one more or one less reference. *)
Definition kept_queues w w' : Prop :=
  Coh w' ∧ mem w' = mem w ∧ objects w' = objects w ∧ ∀ h l, holds w h l → holds w' h l.

Lemma kept_with_queues w qs : Coh (with_queues qs w) ∧ (∀ h l, holds w h l → holds (with_queues qs w) h l) →
  kept_queues w (with_queues qs w).
Proof. by intros [H1 H2]. Qed.

Lemma queue_new w q d : Coh w → queues w !! q = None → kept_queues w (with_queues (<[q := mkQueue d 1]> (queues w)) w).
Proof.
  intros Hc Hq. apply kept_with_queues, Coh_with_queues; [done| |].
  - intros g x [[<- <-]|[_ Hx]]%lookup_insert_Some; [|by apply (v_refs _ w Hc)]. cbn. rewrite uses_zero; [lia|].
    intros h o Ho Hl. destruct (k_last _ _ _ (v_obj _ w Hc h o Ho) q Hl) as (x & Hx & _). congruence.
  - intros g x Hx _. exists x. by rewrite lookup_insert_ne by congruence.
Qed.

Lemma runs_queue_retain w q x : Coh w → queues w !! q = Some x → q_RefCount x + 1 < 2 ^ 32 →
  runs (urQueueRetain q) (λ _, kept_queues w) (λ _, False) w.
Proof.
  intros Hc Hx Hr. apply runs_bind, (runs_get_queue q x); [done|]. apply runs_modify.
  destruct (v_refs _ w Hc q x Hx) as [H1 H2]. assert (Hret := λ g y, ret_lookup q x (queues w) g y Hx ltac:(lia) Hr).
  apply (kept_with_queues w (ret_queue q x (queues w))), Coh_with_queues; [done| |].
  - intros g y (z & Hz & ->)%Hret. destruct (v_refs _ w Hc g z Hz). cbn. case_decide as E; [|lia].
    assert (z = x) as -> by congruence. lia.
  - intros g y Hy _. eexists. split; [apply Hret; by exists y|done].
Qed.

(** The application lets go of a reference of its own. *)
Lemma runs_queue_release w q x : Coh w → queues w !! q = Some x → uses q (objects w) < q_RefCount x →
  runs (urQueueRelease q) (λ _, kept_queues w) (λ _, False) w.
Proof.
  intros Hc Hx Hu. apply runs_bind, (runs_get_queue q x); [done|]. apply runs_modify.
  destruct (v_refs _ w Hc q x Hx) as [H1 H2]. assert (Hrel := λ g y, rel_lookup q x (queues w) g y Hx H1).
  apply (kept_with_queues w (rel_queue q x (queues w))), Coh_with_queues; [done| |].
  - intros g y (z & Hz & -> & Hlt)%Hrel. destruct (v_refs _ w Hc g z Hz). cbn.
    destruct (decide (g = q)) as [->|]; [|lia]. assert (z = x) as -> by congruence. pose proof (Hlt eq_refl). lia.
  - intros g y Hy Hpos. eexists. split; [apply Hrel; exists y; split_and!; [done|done|]|done].
    intros ->. assert (y = x) as -> by congruence. lia.
Qed.

(** ** Kernel arguments *)

Lemma addMemObjArg_elem a l b : b ∈ addMemObjArg a l → b = a ∨ b ∈ l.
Proof.
  induction l as [|x l IH]; cbn; [intros ?%list_elem_of_singleton; by left|].
  destruct (arg_Index x =? arg_Index a)%nat; set_solver.
Qed.

Lemma runs_setArg w k i acc h o : Coh w → obj_at w h o → (k_device k < Devices)%nat → args_at w (k_device k) (MemObjArgs k) →
  runs (urKernelSetArgMemObj k i acc h)
    (λ k' w', harmless w w' ∧ k_function k' = k_function k ∧ k_device k' = k_device k ∧
       args_at w' (k_device k) (MemObjArgs k') ∧
       ∃ p, MemObjArgs k' = addMemObjArg (mkArg h i (default UR_MEM_FLAG_READ_WRITE acc) p) (MemObjArgs k))
    (harmless w) w.
Proof.
  intros Hc Ho Hd Hat. apply runs_bind. eapply runs_mono; [by apply (runs_getPtr Devices w h (k_device k) o)| |done].
  intros p w' (Hh & _ & b & l & -> & Hp & _). pose proof Hh as [Hc' Hf]. apply runs_ret.
  split_and!; [done|done|done| |by exists (Ptr b 0)]. cbn [MemObjArgs].
  intros a [->|Ha]%addMemObjArg_elem; [done|]. by apply (f_ptr _ _ _ _ Hf), Hat.
Qed.

(** ** The system *)

(** What each call promises where it is allowed: [Q] when it returns, [E] when it throws. *)
Inductive contract w : ∀ {A}, M A → (A → world → Prop) → (world → Prop) → Prop :=
  | c_create flags n host : any flags UR_MEM_FLAG_ALLOC_HOST_POINTER = false → 0 < n < 2 ^ 64 →
      (∀ p, host = Some p → host_range w p n) →
      contract w (urMemBufferCreate Devices flags n host)
        (λ h w', grew Devices h n w w' ∧ ∀ p bs, host = Some p → copies_in flags = true →
           read_bytes (mem w) p n = Some bs → holds w' h bs)
        (failed Devices (next_handle w) w)
  | c_retain h o : obj_at w h o → 0 ≤ RefCount o → RefCount o + 1 < 2 ^ 32 →
      contract w (urMemRetain h) (λ _, counted Devices h (RefCount o + 1) w) (harmless w)
  | c_release fuel h o : obj_at w h o → 1 < RefCount o < 2 ^ 32 →
      contract w (urMemRelease (S fuel) h) (λ _, counted Devices h (RefCount o - 1) w) (λ _, False)
  | c_last_release fuel h o : obj_at w h o → RefCount o = 1 → PtrToBufferMap (Mem o) = [] →
      contract w (urMemRelease (S fuel) h) (λ _, released Devices h w) (λ _, False)
  | c_read q d h o off n dst hb : obj_at w h o → queue_at w q d → 0 ≤ off → 0 ≤ n → off + n < 2 ^ 64 →
      host_is w (blk dst) hb → 0 ≤ Effects.off dst → Effects.off dst + n ≤ Z.of_nat (length hb) →
      contract w (urEnqueueMemBufferRead q h off n dst)
        (λ _ w', off + n ≤ Size (Mem o) ∧ reads_only Devices dst w w' ∧ fetched Devices w h off n dst hb w')
        (reads_only Devices dst w)
  | c_write q d h o off n src bs : obj_at w h o → queue_at w q d → 0 ≤ off → 0 ≤ n → off + n < 2 ^ 64 →
      host_range w src n → read_bytes (mem w) src n = Some bs →
      contract w (urEnqueueMemBufferWrite Devices q h off n src)
        (λ _ w', off + n ≤ Size (Mem o) ∧ written Devices h d (λ l, splice l off bs) w w') (lost h w)
  | c_fill q d h o k off pat n bs : obj_at w h o → queue_at w q d → 0 ≤ off → 0 < n < 2 ^ 32 →
      off mod CudaFill.BackendWordSize n = 0 → off + Z.of_nat k * n < 2 ^ 64 →
      host_range w pat n → read_bytes (mem w) pat n = Some bs →
      contract w (urEnqueueMemBufferFill Devices q h pat n off (Z.of_nat k * n))
        (λ _ w', off + Z.of_nat k * n ≤ Size (Mem o) ∧
           written Devices h d (λ l, splice l off (concat (replicate k bs))) w w') (lost h w)
  | c_map q d h o off n flags ev : obj_at w h o → queue_at w q d → 0 ≤ off → 0 ≤ n → off + n < 2 ^ 64 →
      (∀ p, HostPtr (Mem o) = Some p → find_map (ptr_add p off) (PtrToBufferMap (Mem o)) = None) →
      contract w (urEnqueueMemBufferMap q h flags off n ev)
        (λ p w', off + n ≤ Size (Mem o) ∧ maps_to Devices w h off n flags p w') (maps_only Devices h w)
  | c_unmap q d h p x ev : mapped w h p x → queue_at w q d → unshared w x →
      contract w (urEnqueueMemUnmap Devices q h p ev) (λ _, unmaps Devices w h d p x) (maps_lost Devices h x w)
  | c_set_arg k i acc h o : obj_at w h o → (k_device k < Devices)%nat → args_at w (k_device k) (MemObjArgs k) →
      contract w (urKernelSetArgMemObj k i acc h)
        (λ k' w', harmless w w' ∧ k_function k' = k_function k ∧ k_device k' = k_device k ∧
           args_at w' (k_device k) (MemObjArgs k') ∧
           ∃ p, MemObjArgs k' = addMemObjArg (mkArg h i (default UR_MEM_FLAG_READ_WRITE acc) p) (MemObjArgs k)) (harmless w)
  | c_launch q d k : queue_at w q d → NoDup (arg_Mem <$> MemObjArgs k) → args_at w (k_device k) (MemObjArgs k) →
      respects (k_function k) (MemObjArgs k) →
      contract w (enqueueKernelLaunch Devices q k)
        (λ _ w', k_device k = d ∧ touches Devices (arg_Mem <$> MemObjArgs k) w w' ∧
           launched Devices w d (k_function k) (MemObjArgs k) w')
        (touches Devices (arg_Mem <$> MemObjArgs k) w)
  | c_queue_retain q x : queues w !! q = Some x → q_RefCount x + 1 < 2 ^ 32 →
      contract w (urQueueRetain q) (λ _, kept_queues w) (λ _, False)
  | c_queue_release q x : queues w !! q = Some x → uses q (objects w) < q_RefCount x →
      contract w (urQueueRelease q) (λ _, kept_queues w) (λ _, False).

Lemma cu_contract_runs w {A} (m : M A) Q E : Coh w → contract w m Q E → runs m Q E w.
Proof.
  intros Hc Hk. destruct Hk; [by apply cu_runs_create|by apply runs_retain|by eapply runs_release|by eapply runs_last_release|
    by apply (cu_runs_read Devices w q d)|by apply (cu_runs_write Devices w q d)|by apply (cu_runs_fill Devices w q d)|
    by apply (cu_runs_map Devices w q d)|by apply (cu_runs_unmap Devices w q d)|by eapply runs_setArg|by apply runs_launch|
    by eapply runs_queue_retain|by eapply runs_queue_release].
Qed.

Lemma contract_Coh w {A} (m : M A) Q E : contract w m Q E → (∀ a w', Q a w' → Coh w') ∧ ∀ w', E w' → Coh w'.
Proof.
  intros Hk. destruct Hk; split; try done; try (intros w' [H' _]; exact H').
  - by intros h w' ((_ & Hc & _) & _).
  - by intros _ w' ([Hc _] & _).
  - by intros _ w' ([Hc _] & _).
  - by intros _ w' (Hc & _).
  - by intros _ w' (_ & [Hc _] & _).
  - by intros _ w' (_ & [Hc _] & _).
  - by intros _ w' (_ & [Hc _] & _).
  - by intros p w' (_ & Hc & _).
  - by intros _ w' ([Hc _] & _).
  - by intros k' w' ([Hc _] & _).
  - by intros _ w' (_ & [Hc _] & _).
  - by intros _ w' (Hc & _).
  - by intros _ w' (Hc & _).
Qed.

(** A call with its contract, a queue that the application makes, or a change of the
    application's own memory. *)
Inductive step w : world → Prop :=
  | step_call A (m : M A) Q E o w' : contract w m Q E → m w = (o, w') → step w w'
  | step_queue q d : queues w !! q = None → step w (with_queues (<[q := mkQueue d 1]> (queues w)) w)
  | step_alloc b l : mem w !! b = None → step w (with_mem b l w)
  | step_store b l l' : host_is w b l → length l' = length l → step w (with_mem b l' w)
  | step_free b l : host_is w b l →
      (∀ g o p x, obj_at w g o → (p, x) ∈ PtrToBufferMap (Mem o) → MapMem x ≠ Some b) →
      (∀ g o p, obj_at w g o → HostPtr (Mem o) = Some p → blk p ≠ b) → step w (set_mem (delete b (mem w)) w).

Inductive reachable : world → Prop :=
  | reach_start m n h : reachable (mkWorld m ∅ ∅ n h)
  | reach_step w w' : reachable w → step w w' → reachable w'.

Lemma Coh_start m n h : Coh (mkWorld m ∅ ∅ n h).
Proof.
  split; cbn.
  - intros g o Ho. unfold obj_at in Ho. cbn in Ho. by rewrite lookup_empty in Ho.
  - intros h1 d1 p1 h2 d2 p2 (o & Ho & _). unfold obj_at in Ho. cbn in Ho. by rewrite lookup_empty in Ho.
  - intros q x Hx. by rewrite lookup_empty in Hx.
  - intros g [x Hx]. by rewrite lookup_empty in Hx.
Qed.

Lemma cu_reachable_Coh w : reachable w → Coh w.
Proof.
  induction 1 as [m n h|w w' _ Hc [A m Q E o w1 Hk Em|q d Hq|b l Hb|b l l' Hh Hl|b l [Hno Hm] Hmaps Hhosts]].
  - apply Coh_start.
  - pose proof (cu_contract_runs w m Q E Hc Hk) as Hr. destruct (contract_Coh w m Q E Hk) as [HQ HE].
    unfold runs in Hr. rewrite Em in Hr. destruct o; [by eapply HQ|by apply HE|done].
  - by destruct (queue_new w q d Hc Hq).
  - by destruct (Coh_with_new Devices w b l Hc Hb).
  - by destruct (Coh_with_host Devices w b l l' Hc Hh Hl).
  - by destruct (Coh_drop Devices w b Hc Hmaps Hhosts Hno).
Qed.

(** C3: For buffers that are neither pinned nor sub-buffers and are not copied to each other:
    in every state that such calls reach, a call that meets its [contract] is never
    undefined; a read or a mapping gives what the buffer holds on whatever device; a
    launch works on that where the buffers are [ready] and leaves what its kernel makes
    of it; a write, a fill or an unmapping makes the changed copy of its own device what
    the buffer holds; and when a call fails only the buffers that it was to change may
    have changed. *)
Theorem device_copies_keep_contracts w {A} (m : M A) Q E : reachable w → contract w m Q E →
  match m w with (Ret a, w') => Q a w' | (Throw _, w') => E w' | (Undef, _) => False end.
Proof. intros Hr%cu_reachable_Coh Hk. exact (cu_contract_runs w m Q E Hr Hk). Qed.

(** C14: The queue that a buffer keeps as its last writer exists in every reachable state,
    with as many references at least as there are buffers that keep it, and no block is
    the memory of two allocations. *)
Theorem last_writer_is_alive w h o : reachable w → obj_at w h o →
  (∀ q, LastQueueWritingToMemObj o = Some q → ∃ x, queues w !! q = Some x ∧ (q_device x < Devices)%nat ∧
     1 ≤ uses q (objects w) ≤ q_RefCount x) ∧
  ∀ d p g e p', Ptrs (Mem o) !! d = Some (Some p) → ptr_at w g e p' → blk p = blk p' → g = h ∧ e = d.
Proof.
  intros Hr%cu_reachable_Coh Ho. split.
  - intros q Hq. destruct (k_last _ _ _ (v_obj _ w Hr h o Ho) q Hq) as (x & Hx & Hd).
    destruct (v_refs _ w Hr q x Hx). pose proof (uses_pos q (objects w) h o Ho Hq). by exists x.
  - intros d p g e p' Hp Hp' Eb. by destruct (v_own _ w Hr g e p' h d p Hp') as [-> ->]; [by exists o|by symmetry|].
Qed.
End runs.
