(* ===== verification/CudaReturns.v ===== *)
(** * CudaReturns: buffers across devices, from the first write to the last read

    With a driver that does not refuse, a program that writes a buffer, runs kernels on
    it on any devices and reads it back returns, with what the kernels made of the bytes. *)
From S2P Require Import Prelude UrUtil Effects CudaMemory CudaCoherence CudaMigration CudaBuffers CudaRuns.

Section returns.
Context `{!Cu, !CuLaws}.
Variable Devices : nat.
Implicit Types w : world.
Abbreviation Coh := (CudaCoherence.Coh Devices).
Abbreviation holds := (CudaCoherence.holds Devices).
Abbreviation queue_at := (CudaMigration.queue_at Devices).

(** The driver does not refuse. *)
Hypothesis accepts : ∀ n, cu_result n = None.

(** ** Calls that do not throw *)

Lemma nt_cu_call w : no_throw cu_call w.
Proof. unfold cu_call. apply nt_bind_gets, nt_bind_modify. by rewrite accepts. Qed.

Lemma nt_get_obj h w : no_throw (get_obj h) w.
Proof. unfold get_obj. calm. Qed.

Lemma nt_get_queue q w : no_throw (get_queue q) w.
Proof. unfold get_queue. calm. Qed.

Lemma nt_update h f w : no_throw (update h f) w.
Proof. apply nt_modify. Qed.
End returns.
#[export] Hint Resolve nt_cu_call nt_get_obj nt_get_queue nt_update : quiet_calls.

Section calm.
Context `{!Cu, !CuLaws}.
Variable Devices : nat.
Implicit Types w : world.
Hypothesis accepts : ∀ n, cu_result n = None.

Lemma nt_cu_work op w : no_throw (cu_work op) w.
Proof using accepts. unfold cu_work. calm. Qed.

Lemma nt_provider_alloc n w : no_throw (umfMemoryProviderAlloc n) w.
Proof using accepts. unfold umfMemoryProviderAlloc. calm. destruct (cu_malloc _ n) as [b l]. calm. Qed.

Lemma nt_set_ptr h d p w : no_throw (set_ptr h d p) w.
Proof. apply nt_update. Qed.
End calm.
#[export] Hint Resolve nt_cu_work nt_provider_alloc nt_set_ptr : quiet_calls.

Section calm_buffers.
Context `{!Cu, !CuLaws}.
Variable Devices : nat.
Implicit Types w : world.
Hypothesis accepts : ∀ n, cu_result n = None.

Lemma cu_nt_allocate h d w : no_throw (allocateMemObjOnDeviceIfNeeded h d) w.
Proof using accepts.
  unfold allocateMemObjOnDeviceIfNeeded. calm. destruct a0; [calm|]. destruct (MemAllocMode _); calm.
Qed.

Lemma nt_getPtr h d n w : no_throw (getPtrWithOffset h d n) w.
Proof using accepts. unfold getPtrWithOffset. apply nt_bind; [apply cu_nt_allocate|intros]. calm. Qed.

Lemma nt_setLast h q w : no_throw (setLastQueueWritingToMemObj Devices h q) w.
Proof.
  unfold setLastQueueWritingToMemObj, urQueueRetain, urQueueRelease. apply nt_bind; [calm|intros]. apply nt_bind; [calm|intros].
  apply nt_bind; [destruct (LastQueueWritingToMemObj _); calm|intros]. calm.
Qed.

Lemma nt_refresh h d w : no_throw (enqueueMigrateBufferToDevice h d) w.
Proof using accepts.
  unfold enqueueMigrateBufferToDevice, getPtr. apply nt_bind; [calm|intros o ?].
  destruct (LastQueueWritingToMemObj o); [|destruct (HostPtr (Mem o)); [|calm]].
  - apply nt_bind; [calm|intros x ?]. destruct (_ =? d)%nat; [calm|].
    apply nt_bind; [apply nt_getPtr|intros]. apply nt_bind; [apply nt_getPtr|intros]. calm.
  - apply nt_bind; [apply nt_getPtr|intros]. calm.
Qed.

Lemma nt_migrate h d w : no_throw (enqueueMigrateMemoryToDeviceIfNeeded h d) w.
Proof using accepts.
  unfold enqueueMigrateMemoryToDeviceIfNeeded. apply nt_bind; [calm|intros o ?]. apply nt_bind; [calm|intros b ?].
  destruct (b : bool); [calm|]. apply nt_bind; [apply nt_refresh|intros]. calm.
Qed.

Lemma nt_migrate_args q d l w : no_throw (migrate_args Devices q d l) w.
Proof using accepts.
  revert w. induction l as [|a l IH]; intros w; cbn [migrate_args]; [calm|].
  apply nt_bind; [apply nt_migrate|intros]. apply nt_bind; [destruct (writes a); [apply nt_setLast|calm]|intros]. apply IH.
Qed.

Lemma nt_device_of q w : no_throw (device_of q) w.
Proof. unfold device_of. calm. Qed.

Lemma nt_set_arg k i acc h w : no_throw (urKernelSetArgMemObj k i acc h) w.
Proof using accepts. unfold urKernelSetArgMemObj, getPtr. apply nt_bind; [apply nt_getPtr|intros]. calm. Qed.

Lemma nt_launch w q x k : queues w !! q = Some x → q_device x = k_device k → no_throw (enqueueKernelLaunch Devices q k) w.
Proof using accepts.
  intros Hx Ed. unfold enqueueKernelLaunch, begin_work, end_work.
  apply (nt_bind_runs _ _ (λ d w', d = k_device k) (λ _, True)); [apply nt_device_of| |].
  { apply runs_bind, (runs_get_queue q x); [done|]. by apply runs_ret. }
  intros d w1 ->. apply nt_bind_guard; [by apply Nat.eqb_refl|]. apply nt_bind; [calm|intros].
  apply nt_bind; [destruct (1 <? Devices)%nat; [apply nt_migrate_args|calm]|intros]. calm.
Qed.

(** The check of the size. *)
Lemma nt_sized {B} h o n (k : ur_mem_handle_t_ → unit → M B) r w : obj_at w h o → w64 n <= Size (Mem o) →
  no_throw (k o tt) w → no_throw (o ← get_obj h; (guard_ur (w64 n <=? Size (Mem o)) r ≫= k o)) w.
Proof.
  intros Ho Hn Hk. apply (nt_bind_runs _ _ (λ o' w', o' = o ∧ w' = w) (λ _, True)); [apply nt_get_obj|by apply (runs_get_obj h o)|].
  intros ? ? [-> ->]. apply nt_bind_guard; [by apply Z.leb_le|done].
Qed.

Lemma cu_nt_read w q h o off n dst : obj_at w h o → w64 (off + n) ≤ Size (Mem o) → no_throw (urEnqueueMemBufferRead q h off n dst) w.
Proof using accepts.
  intros Ho Hn. unfold urEnqueueMemBufferRead, begin_work, end_work. apply (nt_sized h o); [done|done|].
  apply nt_bind; [unfold reading_device|intros].
  - apply nt_bind; [apply nt_device_of|intros]. destruct (LastQueueWritingToMemObj o); [|calm].
    apply nt_bind; [apply nt_device_of|intros]. calm.
  - apply nt_bind; [calm|intros]. apply nt_bind; [apply nt_getPtr|intros]. calm.
Qed.

Lemma cu_nt_write w q h o off n src : obj_at w h o → w64 (off + n) ≤ Size (Mem o) →
  no_throw (urEnqueueMemBufferWrite Devices q h off n src) w.
Proof using accepts.
  intros Ho Hn. unfold urEnqueueMemBufferWrite, begin_work, end_work, getPtr. apply (nt_sized h o); [done|done|].
  apply nt_bind; [apply nt_device_of|intros]. apply nt_bind; [apply nt_getPtr|intros].
  apply nt_bind; [apply nt_setLast|intros]. calm.
Qed.

(** ** A program on several devices *)

(** Kernels with one buffer, each on the device of its queue. *)
Fixpoint run_kernels (h : nat) (ks : list (nat * kernel_t)) : M unit :=
  match ks with
  | [] => mret tt
  | (q, k) :: ks' =>
      k' ← urKernelSetArgMemObj k 0 None h;
      enqueueKernelLaunch Devices q k';;
      run_kernels h ks'
  end.

Definition pipeline (q1 q2 h : nat) (n : Z) (src dst : ptr) (ks : list (nat * kernel_t)) : M unit :=
  urEnqueueMemBufferWrite Devices q1 h 0 n src;; run_kernels h ks;; urEnqueueMemBufferRead q2 h 0 n dst.

(** What the kernels make of the bytes, one after the other. *)
Fixpoint after_kernels (fs : list nat) (l : list Z) : option (list Z) :=
  match fs with
  | [] => Some l
  | f :: fs' => match kernel f [l] with [out] => after_kernels fs' out | _ => None end
  end.

Definition ready_kernel w (qk : nat * kernel_t) : Prop :=
  queue_at Devices w qk.1 (k_device qk.2) ∧ MemObjArgs qk.2 = [].
End calm_buffers.

Section pipeline.
Context `{!Cu, !CuLaws}.
Variable Devices : nat.
Implicit Types w : world.
Abbreviation Coh := (CudaCoherence.Coh Devices).
Abbreviation holds := (CudaCoherence.holds Devices).
Abbreviation queue_at := (CudaMigration.queue_at Devices).

Lemma ready_kernel_kept hs hb w w' qk : frame hs hb w w' → ready_kernel Devices w qk → ready_kernel Devices w' qk.
Proof. intros Hf [Hq Hk]. split; [by eapply queue_kept|done]. Qed.

Lemma settled_obj w h l : settled Devices w h l → ∃ o, obj_at w h o ∧ Z.of_nat (length l) = Size (Mem o).
Proof. intros [(o & Ho & Hl & _) _]. by exists o. Qed.

Lemma kernel_one f l : ∃ out, kernel f [l] = [out] ∧ length out = length l.
Proof. pose proof (kernel_lengths f [l]) as E. destruct (kernel f [l]) as [|out [|]]; cbn in E; [done| |done]. exists out. split; [done|congruence]. Qed.

(** One kernel on the buffer. *)
Lemma runs_one_kernel w h l q k : Coh w → settled Devices w h l → ready_kernel Devices w (q, k) →
  runs (k' ← urKernelSetArgMemObj k 0 None h; enqueueKernelLaunch Devices q k')
    (λ _ w', touches Devices [h] w w' ∧ ∃ out, kernel (k_function k) [l] = [out] ∧ settled Devices w' h out)
    (touches Devices [h] w) w.
Proof.
  intros Hc Hs [Hq Hargs]. cbn in Hq, Hargs. destruct (settled_obj w h l Hs) as (o & Ho & Hlen). pose proof Hq as (x & _ & _ & Hd & _).
  apply runs_bind. eapply runs_mono; [apply (runs_setArg Devices w k 0 None h o); [done|done|done|]| |].
  { rewrite Hargs. by intros a ?%elem_of_nil. }
  2: { intros w1. apply touches_harmless. }
  intros k' w1 (Hh1 & Ef & Ed & Hat & p & Em). rewrite Hargs in Em. cbn in Em. pose proof Hh1 as [Hc1 Hf1].
  assert (Ht : ∀ w', touches Devices [h] w1 w' → touches Devices [h] w w') by (intros w'; apply touches_trans; by apply frame_none).
  assert (Hs1 : settled Devices w1 h l) by (eapply (settled_frame Devices []); [done|exact Hf1|set_solver|done]).
  eapply runs_mono; [apply (runs_launch Devices w1 q (k_device k') k'); [done| | | |]| |].
  - rewrite Ed. by eapply queue_kept.
  - rewrite Em. apply NoDup_singleton.
  - by rewrite Ed.
  - intros ls i a Ha Hw. rewrite Em in Ha. apply list_lookup_singleton_Some in Ha as [_ <-]. done.
  - intros ? w2 (_ & Ht2 & ls & Hls & Hin & Hout & _). rewrite Em in *. cbn in Ht2, Hls. split; [by apply Ht|].
    destruct ls as [|l' [|]]; [done| |done]. assert (l' = l) as ->.
    { eapply (Hin 0%nat); [done|done|]. by apply settled_ready. }
    rewrite Ef in *. destruct (kernel_one (k_function k) l) as (out & Eout & _). exists out. split; [done|].
    apply (Hout 0%nat _ out eq_refl); [by rewrite Eout|done].
  - intros w2 Ht2. rewrite Em in Ht2. by apply Ht.
Qed.

Lemma runs_kernels h ks : ∀ w l, Coh w → settled Devices w h l → Forall (ready_kernel Devices w) ks →
  runs (run_kernels Devices h ks)
    (λ _ w', touches Devices [h] w w' ∧ ∃ out, after_kernels (k_function ∘ snd <$> ks) l = Some out ∧ settled Devices w' h out)
    (touches Devices [h] w) w.
Proof.
  induction ks as [|[q k] ks IH]; intros w l Hc Hs Hk; cbn [run_kernels fmap list_fmap after_kernels].
  { apply runs_ret. split; [split; [done|apply frame_id]|by exists l]. }
  apply Forall_cons in Hk as [Hk Hks]. apply runs_assoc, runs_bind.
  eapply runs_mono; [by apply (runs_one_kernel w h l q k)| |done].
  intros ? w1 (Ht1 & out & Eout & Hs1). pose proof Ht1 as [Hc1 Hf1].
  eapply runs_mono; [apply (IH w1 out); [done|done|]| |].
  { eapply Forall_impl; [exact Hks|]. intros qk. by apply (ready_kernel_kept [h] None). }
  - intros ? w2 (Ht2 & out2 & E2 & Hs2). split; [by eapply touches_trans|]. exists out2. cbn. by rewrite Eout.
  - intros w2 Ht2. by eapply touches_trans.
Qed.

Lemma nt_one_kernel w h l q k : (∀ n, cu_result n = None) → Coh w → settled Devices w h l → ready_kernel Devices w (q, k) →
  no_throw (k' ← urKernelSetArgMemObj k 0 None h; enqueueKernelLaunch Devices q k') w.
Proof.
  intros Hacc Hc Hs [Hq Hargs]. cbn in Hq, Hargs. destruct (settled_obj w h l Hs) as (o & Ho & _).
  eapply nt_bind_runs; [by apply nt_set_arg|apply (runs_setArg Devices w k 0 None h o); [done|done| |]|].
  { by destruct Hq as (x & _ & _ & Hd & _). }
  { rewrite Hargs. by intros a ?%elem_of_nil. }
  intros k' w1 ([Hc1 Hf1] & _ & Ed & _). destruct (queue_kept _ _ _ _ _ _ _ Hf1 Hq) as (x & Hx & Edx & _).
  eapply nt_launch; [done|exact Hx|congruence].
Qed.

Lemma nt_kernels h ks : (∀ n, cu_result n = None) → ∀ w l, Coh w → settled Devices w h l → Forall (ready_kernel Devices w) ks →
  no_throw (run_kernels Devices h ks) w.
Proof.
  intros Hacc. induction ks as [|[q k] ks IH]; intros w l Hc Hs Hk; cbn [run_kernels]; [apply nt_ret|].
  apply Forall_cons in Hk as [Hk Hks]. apply nt_assoc.
  eapply nt_bind_runs; [by apply (nt_one_kernel w h l q k)|by apply (runs_one_kernel w h l q k)|].
  intros ? w1 ([Hc1 Hf1] & out & _ & Hs1). apply (IH w1 out); [done|done|].
  eapply Forall_impl; [exact Hks|]. intros qk. by apply (ready_kernel_kept [h] None).
Qed.

(** The whole program: it returns, and the host has what the kernels made. *)
Section program.
Context w (q1 d1 q2 d2 h : nat) (o : ur_mem_handle_t_) (src dst : ptr) (bs hb : list Z) (ks : list (nat * kernel_t)).
Let n := Size (Mem o).
Hypotheses (Hc : Coh w) (Ho : obj_at w h o) (Hq1 : queue_at w q1 d1) (Hq2 : queue_at w q2 d2).
Hypotheses (Hsrc : host_range w src n) (Hbs : read_bytes (mem w) src n = Some bs).
Hypotheses (Hdst : host_is w (blk dst) hb) (Hd0 : 0 ≤ off dst) (Hd1 : off dst + n ≤ Z.of_nat (length hb)).
Hypothesis (Hks : Forall (ready_kernel Devices w) ks).

Lemma size_range : 0 ≤ n ∧ 0 + n < 2 ^ 64.
Proof. pose proof (k_size _ _ _ (v_obj _ w Hc h o Ho)). unfold n. lia. Qed.

(** After the write: the buffer holds [bs], and the rest of what is used is still there. *)
Definition written_state w' : Prop := lost Devices h w w' ∧ settled Devices w' h bs.

Lemma runs_first : runs (urEnqueueMemBufferWrite Devices q1 h 0 n src) (λ _, written_state) (λ _, True) w.
Proof.
  destruct size_range as [Hn0 Hn1].
  eapply runs_mono; [exact (cu_runs_write Devices w q1 d1 h o 0 n src bs Hc Ho Hq1 (Z.le_refl 0) Hn0 Hn1 Hsrc Hbs)| |done].
  intros ? w1 (_ & Hl & l & l' & _ & Hs & Hset). split; [done|].
  assert (Hlb : Z.of_nat (length bs) = n) by (apply read_bytes_Some in Hbs as (? & _ & E%slice_length); lia).
  assert (Hll : Z.of_nat (length l') = n).
  { destruct (settled_obj w1 h l' Hset) as (o1 & Ho1 & E). destruct Hl as [_ Hf].
    destruct (f_size _ _ _ _ Hf h n) as (o2 & Ho2 & E2); [by exists o|]. rewrite (obj_fun _ _ _ _ Ho1 Ho2) in E. lia. }
  apply splice_length in Hs as El. apply splice_Some in Hs as (_ & _ & El').
  rewrite (drop_ge l) in El' by lia. change (Z.to_nat 0) with 0%nat in El'. rewrite take_0, app_nil_r in El'. cbn in El'. by subst l'.
Qed.

(** After the kernels, and before the read. *)
Lemma runs_last w1 out : touches Devices [h] w w1 → settled Devices w1 h out →
  runs (urEnqueueMemBufferRead q2 h 0 n dst)
    (λ _ w', ∃ hb', splice hb (off dst) out = Some hb' ∧ host_is w' (blk dst) hb') (λ _, True) w1.
Proof.
  intros [Hc1 Hf1] Hs. destruct size_range as [Hn0 Hn1]. destruct (settled_obj w1 h out Hs) as (o1 & Ho1 & Hlen).
  destruct (f_size _ _ _ _ Hf1 h n) as (o2 & Ho2 & E2); [by exists o|]. rewrite (obj_fun _ _ _ _ Ho1 Ho2) in Hlen.
  eapply runs_mono; [apply (cu_runs_read Devices w1 q2 d2 h o2 0 n dst hb Hc1 Ho2); [|done|exact Hn0|exact Hn1| |exact Hd0|exact Hd1]| |done].
  - by eapply queue_kept.
  - by apply (f_host _ _ _ _ Hf1).
  - intros ? w2 (_ & _ & l & bs' & hb' & Hl & Hsl & Hsp & Hh). rewrite (Hl out) in Hsl by apply Hs.
    exists hb'. split; [|done]. rewrite <- E2, <- Hlen, whole_slice in Hsl. by injection Hsl as <-.
Qed.

Lemma runs_pipeline : runs (pipeline Devices q1 q2 h n src dst ks)
  (λ _ w', ∃ out hb', after_kernels (k_function ∘ snd <$> ks) bs = Some out ∧
     splice hb (off dst) out = Some hb' ∧ host_is w' (blk dst) hb') (λ _, True) w.
Proof.
  apply runs_bind. eapply runs_mono; [apply runs_first| |done]. intros ? w1 [[Hc1 Hf1] Hs1].
  assert (Hks1 : Forall (ready_kernel Devices w1) ks).
  { eapply Forall_impl; [exact Hks|]. intros qk. by apply (ready_kernel_kept [h] None). }
  apply runs_bind. eapply runs_mono; [by apply (runs_kernels h ks w1 bs)| |done].
  intros ? w2 (Ht & out & Eout & Hs2).
  eapply runs_mono; [apply (runs_last w2 out); [eapply touches_trans; [exact Hf1|exact Ht]|done]| |done].
  intros ? w3 (hb' & Hsp & Hh). by exists out, hb'.
Qed.

Lemma nt_pipeline : (∀ i, cu_result i = None) → no_throw (pipeline Devices q1 q2 h n src dst ks) w.
Proof.
  intros Hacc. destruct size_range as [Hn0 Hn1]. assert (Hw : w64 (0 + n) ≤ n) by (rewrite w64_small; lia).
  eapply nt_bind_runs; [by apply (cu_nt_write Devices Hacc w q1 h o)|apply runs_first|].
  intros ? w1 [[Hc1 Hf1] Hs1]. assert (Hks1 : Forall (ready_kernel Devices w1) ks).
  { eapply Forall_impl; [exact Hks|]. intros qk. by apply (ready_kernel_kept [h] None). }
  eapply nt_bind_runs; [by apply (nt_kernels h ks Hacc w1 bs)|by apply (runs_kernels h ks w1 bs)|].
  intros ? w2 ([Hc2 Hf2] & out & _ & Hs2). destruct (settled_obj w2 h out Hs2) as (o2 & Ho2 & _).
  apply (cu_nt_read Hacc w2 q2 h o2); [done|]. destruct (f_size _ _ _ _ Hf1 h n) as (o1 & Ho1 & E1); [by exists o|].
  destruct (f_size _ _ _ _ Hf2 h n) as (o3 & Ho3 & E3); [by exists o1|]. by rewrite (obj_fun _ _ _ _ Ho2 Ho3), E3.
Qed.
End program.

(** C7: With a driver that does not refuse, a program that writes a whole buffer from one
    device, runs kernels on it on any devices in turn and reads it from another device
    returns, in every reachable state, and the host has what the kernels made of the bytes
    that were written: each kernel saw the outcome of the one before, wherever it ran. *)
Theorem kernels_across_devices w q1 d1 q2 d2 h o src dst bs hb ks : (∀ n, cu_result n = None) → reachable Devices w →
  obj_at w h o → queue_at w q1 d1 → queue_at w q2 d2 → host_range w src (Size (Mem o)) →
  read_bytes (mem w) src (Size (Mem o)) = Some bs → host_is w (blk dst) hb → 0 ≤ off dst →
  off dst + Size (Mem o) ≤ Z.of_nat (length hb) → Forall (ready_kernel Devices w) ks →
  ∃ w' out hb', pipeline Devices q1 q2 h (Size (Mem o)) src dst ks w = (Ret tt, w') ∧
    after_kernels (k_function ∘ snd <$> ks) bs = Some out ∧ splice hb (off dst) out = Some hb' ∧ host_is w' (blk dst) hb'.
Proof.
  intros Hacc Hr%cu_reachable_Coh Ho Hq1 Hq2 Hsrc Hbs Hdst Hd0 Hd1 Hks.
  pose proof (runs_pipeline w q1 d1 q2 d2 h o src dst bs hb ks Hr Ho Hq1 Hq2 Hsrc Hbs Hdst Hd0 Hd1 Hks) as Hrun.
  assert (Hnt : no_throw (pipeline Devices q1 q2 h (Size (Mem o)) src dst ks) w) by (eapply nt_pipeline; eassumption).
  unfold runs, no_throw in *. destruct (pipeline _ _ _ _ _ _ _ _ w) as [[[]|e|] w']; [|done|done].
  destruct Hrun as (out & hb' & H1 & H2 & H3). by exists w', out, hb'.
Qed.
End pipeline.
