(* ===== verification/CudaMemoryTest.v ===== *)
(** * CudaMemoryTest: a driver for buffers, and runs on two devices

    A driver that satisfies the laws of [CuLaws], so that the theorems of [CudaRuns] and
    [CudaReturns] speak of runs that exist, and the runs on which they are applied. *)
From S2P Require Import Prelude UrUtil Effects CudaMemory CudaCoherence CudaMigration CudaBuffers CudaObjects CudaMapping CudaRuns CudaReturns.

Module TestCuda.

(** Kernel [f] adds [f + 1] to every byte; new memory holds 170 throughout; call [n]
    fails when [refuses n]. *)
Definition add_bytes (f : nat) (l : list Z) : list Z := (λ x, (x + Z.of_nat f + 1) mod 256) <$> l.

Definition run_op (op : cu_op) (m : memory) : option memory :=
  match op with
  | Memcpy dst src n => bs ← read_bytes m src n; write_bytes m dst bs
  | Memset dst pat n =>
      if decide (pat = []) then None
      else write_bytes m dst (concat (replicate (Z.to_nat (n / Z.of_nat (length pat))) pat))
  | LaunchKernel f args =>
      ls ← mapM (m !!.) (blk <$> args);
      Some (insert_all (blk <$> args) (add_bytes f <$> ls) m)
  end.

Definition driver (refuses : nat → bool) : Cu := {|
  cu_run := run_op;
  cu_result n := if refuses n then Some UR_RESULT_ERROR_OUT_OF_RESOURCES else None;
  cu_malloc m n := (fresh (dom m), replicate (Z.to_nat n) 170);
  kernel f ls := add_bytes f <$> ls
|}.

Lemma driver_laws refuses : @CuLaws (driver refuses).
Proof.
  split; cbn [cu_run cu_result cu_malloc kernel driver].
  - intros dst src n m bs m' Hr Hw _. cbn. by rewrite Hr.
  - intros dst pat k m m' Hne _ Hw. cbn. rewrite decide_False by done. rewrite Nat2Z.inj_mul, Z.div_mul, Nat2Z.id; [done|].
    destruct pat; [done|cbn; lia].
  - intros f blocks ls m _ Hm. cbn. assert (E : blk <$> ((λ b, Ptr b 0) <$> blocks) = blocks).
    { rewrite <- list_fmap_compose. apply list_fmap_id. }
    rewrite E, Hm. done.
  - intros f ls. rewrite <- list_fmap_compose. apply list_fmap_ext. intros i l _. cbn. unfold add_bytes. by rewrite length_fmap.
  - intros n. by destruct (refuses n).
  - intros m n b l [= <- <-] Hn. split; [apply not_elem_of_dom, is_fresh|]. rewrite length_replicate. lia.
Qed.

#[global] Instance reliable : Cu := driver (λ _, false).
#[global] Instance reliable_laws : CuLaws := driver_laws _.

(** Blocks 0 to 3 are the application's; two devices, with a queue each. *)
Definition start : world := mkWorld {[0%nat := [1; 2; 3; 4]; 1%nat := [5; 6; 7; 8]; 2%nat := [9; 9; 9; 9]; 3%nat := [0; 0; 0; 0]]} ∅ ∅ 0 0.
Definition queue0 : world := with_queues (<[0%nat := mkQueue 0 1]> (queues start)) start.
Definition queue1 : world := with_queues (<[1%nat := mkQueue 1 1]> (queues queue0)) queue0.
Definition created : world := (urMemBufferCreate 2 UR_MEM_FLAG_READ_WRITE 4 None queue1).2.

Lemma queues_reachable : reachable 2 queue1.
Proof. apply (reach_step _ queue0); [eapply reach_step; [apply reach_start|by apply step_queue]|by apply step_queue]. Qed.

Lemma cu_created_reachable : reachable 2 created.
Proof.
  eapply reach_step; [apply queues_reachable|]. eapply step_call; [|apply surjective_pairing].
  by apply c_create.
Qed.

(** The blocks of allocations, as a list. *)
Definition owned_blocks (w : world) : list nat :=
  mjoin ((λ ho, omap (λ p, blk <$> p) (Ptrs (Mem ho.2))) <$> map_to_list (objects w)).

Lemma owned_blocks_owned w b : owned w b → b ∈ owned_blocks w.
Proof.
  intros (h & d & p & (o & Ho & Hp) & <-). unfold owned_blocks. apply list_elem_of_join.
  eexists. split; [|apply list_elem_of_fmap; exists (h, o); split; [done|by apply elem_of_map_to_list]].
  apply list_elem_of_omap. exists (Some p). split; [by eapply list_elem_of_lookup_2|done].
Qed.

Lemma host_at w b l : bool_decide (b ∈ owned_blocks w) = false → mem w !! b = Some l → host_is w b l.
Proof. intros Hb Hm. split; [|done]. by intros Ho%owned_blocks_owned; apply bool_decide_eq_false in Hb. Qed.

Lemma queue_at_created q d : q = d → (d < 2)%nat → queue_at 2 created q d.
Proof.
  intros -> Hd. exists (mkQueue d 1). destruct d as [|[|]]; [| |lia]; (split_and!; [by vm_compute|done|lia|by vm_compute|by vm_compute]).
Qed.

Definition object : ur_mem_handle_t_ := new_buffer 2 UR_MEM_FLAG_READ_WRITE 4 Classic None.

Lemma created_object : obj_at created 0 object.
Proof. by vm_compute. Qed.

(** The application's second block to the buffer, from device 1. *)
Lemma whole_write : contract 2 created (urEnqueueMemBufferWrite 2 1 0 0 4 (Ptr 1 0))
  (λ _ w', 0 + 4 ≤ 4 ∧ written 2 0 1 (λ l, splice l 0 [5; 6; 7; 8]) created w') (CudaMigration.lost 2 0 created).
Proof.
  apply (c_write 2 created 1 1 0 object); [apply created_object|by apply queue_at_created; [|lia]|lia|lia|lia| |by vm_compute].
  exists [5; 6; 7; 8]. cbn. split_and!; [by apply host_at; vm_compute|lia|lia|lia].
Qed.

Lemma device_copies_keep_contracts_witness :
  match urEnqueueMemBufferWrite 2 1 0 0 4 (Ptr 1 0) created with
  | (Ret _, w') => 0 + 4 ≤ 4 ∧ written 2 0 1 (λ l, splice l 0 [5; 6; 7; 8]) created w'
  | (Throw _, w') => CudaMigration.lost 2 0 created w'
  | (Undef, _) => False
  end.
Proof. exact (device_copies_keep_contracts 2 created _ _ _ cu_created_reachable whole_write). Defined.

Definition filled : world := (urEnqueueMemBufferWrite 2 1 0 0 4 (Ptr 1 0) created).2.

Lemma filled_reachable : reachable 2 filled.
Proof. eapply reach_step; [apply cu_created_reachable|]. eapply step_call; [apply whole_write|apply surjective_pairing]. Qed.

Definition filled_object : ur_mem_handle_t_ :=
  mkMem 1 UR_MEM_FLAG_READ_WRITE [false; true] (Some 1%nat) (mkBuffer [None; Some (Ptr 4 0)] None None 4 [] Classic).

Lemma filled_obj : obj_at filled 0 filled_object.
Proof. by vm_compute. Qed.

Lemma last_writer_is_alive_witness :
  (∀ q, LastQueueWritingToMemObj filled_object = Some q → ∃ x, queues filled !! q = Some x ∧ (q_device x < 2)%nat ∧
     1 ≤ uses q (objects filled) ≤ q_RefCount x) ∧
  ∀ d p g e p', Ptrs (Mem filled_object) !! d = Some (Some p) → ptr_at filled g e p' → blk p = blk p' → g = 0%nat ∧ e = d.
Proof. exact (last_writer_is_alive 2 filled 0 filled_object filled_reachable filled_obj). Defined.

(** Kernel 0 on device 1, then kernel 4 on device 0; the bytes are written from device 0
    and read from device 1. *)
Definition two_kernels : list (nat * kernel_t) := [(1%nat, mkKernel 0 1 []); (0%nat, mkKernel 4 0 [])].

Lemma two_kernels_ready : Forall (ready_kernel 2 created) two_kernels.
Proof.
  apply Forall_cons; split; [split; [by apply queue_at_created; cbn; lia|done]|].
  apply Forall_cons; split; [split; [by apply queue_at_created; cbn; lia|done]|done].
Qed.

Lemma kernels_across_devices_witness : ∃ w' out hb', pipeline 2 0 1 0 4 (Ptr 0 0) (Ptr 3 0) two_kernels created = (Ret tt, w') ∧
  after_kernels [0%nat; 4%nat] [1; 2; 3; 4] = Some out ∧ splice [0; 0; 0; 0] 0 out = Some hb' ∧ host_is w' 3 hb'.
Proof.
  apply (kernels_across_devices 2 created 0 0 1 1 0 object (Ptr 0 0) (Ptr 3 0) [1; 2; 3; 4] [0; 0; 0; 0] two_kernels).
  - done.
  - apply cu_created_reachable.
  - apply created_object.
  - by apply queue_at_created; [|lia].
  - by apply queue_at_created; [|lia].
  - exists [1; 2; 3; 4]. cbn. split_and!; [by apply host_at; vm_compute|lia|lia|lia].
  - by vm_compute.
  - by apply host_at; vm_compute.
  - cbn. lia.
  - cbn. lia.
  - apply two_kernels_ready.
Defined.

(** The same program computed. *)
Lemma two_kernels_run : read_bytes (mem (pipeline 2 0 1 0 4 (Ptr 0 0) (Ptr 3 0) two_kernels created).2) (Ptr 3 0) 4 = Some [7; 8; 9; 10].
Proof. by vm_compute. Qed.
End TestCuda.
