(* ===== verification/CudaMemoryLimits.v ===== *)
(** * CudaMemoryLimits: what the buffers of the CUDA adapter do not give

    Runs of the model on small inputs, each a place where the code leaves the bytes of
    a buffer on a device that is not read, or where it and [ur_api.h] part. *)
From S2P Require Import Prelude UrUtil Effects CudaMemory CudaRuns CudaMemoryTest.
Import TestCuda.

(** Two devices with a queue each; blocks 0 to 3 are the application's, block 3 is zero. *)
Definition after {A} (m : M A) : world := (m queue1).2.
Definition answer {A} (m : M A) : outcome A := (m queue1).1.

(** The bytes that a read through queue [q] gives, and those of block [b]. *)
Definition read_by {A} (q h : nat) (m : M A) : option (list Z) :=
  read_bytes (mem (after (m;; urEnqueueMemBufferRead q h 0 4 (Ptr 3 0)))) (Ptr 3 0) 4.

Definition plain_buffer : M nat := urMemBufferCreate 2 UR_MEM_FLAG_READ_WRITE 4 None.
Definition copied_buffer : M nat := urMemBufferCreate 2 UR_MEM_FLAG_ALLOC_COPY_HOST_POINTER 4 (Some (Ptr 0 0)).

(** A write of one byte from another device takes the rest from that device's old copy. *)
Lemma partial_write_loses_the_rest :
  read_by 0 0 (copied_buffer;; urEnqueueMemBufferWrite 2 0 0 0 4 (Ptr 1 0);; urEnqueueMemBufferWrite 2 1 0 0 1 (Ptr 2 0))
    = Some [9; 2; 3; 4] ∧
  read_by 0 0 (copied_buffer;; urEnqueueMemBufferWrite 2 0 0 0 4 (Ptr 1 0);; urEnqueueMemBufferWrite 2 0 0 0 1 (Ptr 2 0))
    = Some [9; 6; 7; 8].
Proof. by vm_compute. Qed.

(** So does a fill. *)
Lemma partial_fill_loses_the_rest :
  read_by 0 0 (copied_buffer;; urEnqueueMemBufferWrite 2 0 0 0 4 (Ptr 1 0);; urEnqueueMemBufferFill 2 1 0 (Ptr 2 0) 1 0 1)
    = Some [9; 2; 3; 4].
Proof. by vm_compute. Qed.

(** A copy between buffers takes the source from the device of its queue, not from the one
    that wrote it... *)
Lemma copy_takes_the_wrong_source :
  read_by 1 1 (plain_buffer;; plain_buffer;; urEnqueueMemBufferWrite 2 0 0 0 4 (Ptr 1 0);;
    urEnqueueMemBufferCopy 1 0 1 0 0 4) = Some [170; 170; 170; 170].
Proof. by vm_compute. Qed.

(** ... and does not count as a write: the destination is read from where it was written
    before. *)
Lemma copy_is_not_a_write :
  read_by 1 1 (copied_buffer;; plain_buffer;; urEnqueueMemBufferWrite 2 0 1 0 4 (Ptr 1 0);;
    urEnqueueMemBufferCopy 1 0 1 0 0 4) = Some [5; 6; 7; 8] ∧
  read_by 1 1 (copied_buffer;; plain_buffer;; urEnqueueMemBufferWrite 2 1 1 0 4 (Ptr 1 0);;
    urEnqueueMemBufferCopy 1 0 1 0 0 4) = Some [1; 2; 3; 4].
Proof. by vm_compute. Qed.

(** The bytes given for a pinned buffer are not copied into it. *)
Lemma pinned_buffer_loses_the_bytes :
  read_by 0 0 (urMemBufferCreate 2 (Z.lor UR_MEM_FLAG_ALLOC_HOST_POINTER UR_MEM_FLAG_ALLOC_COPY_HOST_POINTER) 4
    (Some (Ptr 0 0))) = Some [170; 170; 170; 170].
Proof. by vm_compute. Qed.

(** The application changes its own block. *)
Definition host_store (b : nat) (l : list Z) : M unit := modify (λ w, set_mem (<[b := l]> (mem w)) w).

(** A kernel of device [q] on buffer [h]. *)
Definition launch (q h : nat) : M unit :=
  k ← urKernelSetArgMemObj (mkKernel 0 q []) 0 None h; enqueueKernelLaunch 2 q k.

(** A buffer made with a copy of host memory takes the host's bytes once more when a kernel
    first uses it, although it was to take them when it was made. *)
Lemma copied_again_at_first_launch :
  read_by 0 0 (copied_buffer;; host_store 0 [0; 0; 0; 0];; launch 0 0) = Some [1; 1; 1; 1] ∧
  read_by 0 0 (copied_buffer;; launch 0 0;; host_store 0 [0; 0; 0; 0];; launch 0 0) = Some [3; 4; 5; 6].
Proof. by vm_compute. Qed.

(** What is written to a region that was mapped with WRITE_INVALIDATE_REGION is dropped. *)
Definition map_and_store (flags : Z) : M unit :=
  p ← urEnqueueMemBufferMap 0 0 flags 0 4 false; host_store (blk p) [5; 6; 7; 8];; urEnqueueMemUnmap 2 0 0 p false.

Lemma invalidating_map_is_dropped :
  read_by 0 0 (plain_buffer;; map_and_store UR_MAP_FLAG_WRITE) = Some [5; 6; 7; 8] ∧
  read_by 0 0 (plain_buffer;; map_and_store UR_MAP_FLAG_WRITE_INVALIDATE_REGION) = Some [170; 170; 170; 170].
Proof. by vm_compute. Qed.

(** A second mapping at the same host address is not entered: unmapping the first forgets
    both. *)
Lemma second_mapping_is_forgotten :
  answer (copied_buffer;; p ← urEnqueueMemBufferMap 0 0 UR_MAP_FLAG_READ 0 4 false;
    q ← urEnqueueMemBufferMap 0 0 UR_MAP_FLAG_WRITE 0 4 false; urEnqueueMemUnmap 2 0 0 p false;; urEnqueueMemUnmap 2 0 0 q false)
    = Throw (Exn_ur UR_RESULT_ERROR_INVALID_MEM_OBJECT).
Proof. by vm_compute. Qed.

(** A sub-buffer has the size of its parent: a write past its end passes the check. *)
Definition parted : M nat := plain_buffer;; urMemBufferPartition 2 0 UR_MEM_FLAG_READ_WRITE 2 2.

Lemma sub_buffer_keeps_the_size :
  Size ∘ Mem <$> objects (after parted) !! 1%nat = Some 4 ∧
  answer (parted;; urEnqueueMemBufferWrite 2 0 1 1 2 (Ptr 1 0)) = Undef ∧
  answer (parted;; urEnqueueMemBufferWrite 2 0 0 1 4 (Ptr 1 0)) = Throw (Exn_ur UR_RESULT_ERROR_INVALID_SIZE).
Proof. by vm_compute. Qed.

(** A buffer does not know what is written through its sub-buffer: it is read from where
    the buffer itself was written last. *)
Lemma sub_buffer_is_on_its_own :
  read_by 0 0 (parted;; urEnqueueMemBufferWrite 2 0 0 0 4 (Ptr 0 0);; urEnqueueMemBufferWrite 2 1 1 0 2 (Ptr 1 0))
    = Some [1; 2; 3; 4] ∧
  read_by 0 0 (parted;; urEnqueueMemBufferWrite 2 0 0 0 4 (Ptr 0 0);; urEnqueueMemBufferWrite 2 0 1 0 2 (Ptr 1 0))
    = Some [1; 2; 5; 6].
Proof. by vm_compute. Qed.

(** Nothing releases the queue that wrote a buffer last: it outlives the buffer and the
    application's own reference. *)
Lemma last_writer_is_leaked :
  let w := after (plain_buffer;; urEnqueueMemBufferWrite 2 0 0 0 4 (Ptr 0 0);; urMemRelease 1 0;; urQueueRelease 0) in
  objects w = ∅ ∧ queues w !! 0%nat = Some (mkQueue 0 1).
Proof. by vm_compute. Qed.

(** The sum of offset and size is taken modulo 2^64. *)
Lemma sums_wrap_around : answer (plain_buffer;; urEnqueueMemBufferRead 0 0 (2 ^ 64 - 4) 6 (Ptr 3 0)) = Undef.
Proof. by vm_compute. Qed.

(** A write that fails has moved the last writer already: the bytes of the other device,
    which are still the buffer's, are not read again.  The driver refuses the call after
    the new allocation. *)
Definition refusing : Cu := driver (λ n, n =? 5)%nat.

Lemma failed_write_hides_the_contents :
  let write q := @urEnqueueMemBufferWrite refusing 2 q 0 0 4 in
  let w := (plain_buffer;; write 0%nat (Ptr 0 0);; write 1%nat (Ptr 1 0)) queue1 in
  w.1 = Throw (Exn_ur UR_RESULT_ERROR_OUT_OF_RESOURCES) ∧
  read_bytes (mem (urEnqueueMemBufferRead 0 0 0 4 (Ptr 3 0) w.2).2) (Ptr 3 0) 4 = Some [170; 170; 170; 170].
Proof. by vm_compute. Qed.
